(* ===== verification/_CoqProject ===== *)
-Q . S2P
Prelude.v
ActorLock.v
Bytes.v
Checksum.v
LogRecord.v
RecordCodec.v
EventCodec.v
Paths.v
Kahn.v
WorkflowDef.v
WorkflowState.v
WorkflowReplay.v
WorkflowJSON.v
Actor.v
Placement.v
Scheduler.v
SegmentIndex.v
LogStore.v
LogSafety.v
LogRead.v
LogRecovery.v
Compaction.v
CompactionPlan.v
CompactionDisk.v
CompactionRun.v
CompactionSafe.v
CompactionSpec.v
LogSpec.v
LogTheorems.v
CompactionTheorems.v
TaskHeap.v
MetaStore.v
TaskStore.v
TaskStoreSpec.v
TaskStoreRaces.v
TaskStoreSerial.v
WorkerStore.v
TaskSpec.v
TaskReplay.v
TaskReplaySpec.v
ObjectStore.v
ObjectStoreSpec.v
MetaDomains.v
WorkflowArgs.v
ServiceState.v
ControlTasks.v
ControlDispatch.v
ControlActors.v
ControlWorkflows.v
ControlService.v
ControlAdmin.v
Checkpoint.v
Trees.v
CheckpointTails.v
ServiceDemo.v
ServiceLogic.v
DispatchTotal.v
ServiceFaults.v
TasksHeld.v
TasksHeldSteps.v
RestartHeld.v
NoTaskLost.v
WorkerExec.v
WorkerExecSpec.v
WorkerExecDemo.v
WorkerLoop.v
WorkerLoopSpec.v
WorkerLoopDemo.v
ModelCache.v
ModelCacheSpec.v
ModelCacheDemo.v
CheckpointCheck.v
CheckpointDemo.v
