(* ===== verification/Prelude.v ===== *)
(** * LogServe: a verification library

    LogServe is a log-structured serving runtime in Go. A log server keeps append-only
    streams on disk (src/internal/logstore). A control plane turns requests into events of
    those streams, keeps the state of tasks, workflows and actors, and hands tasks to workers
    (src/internal/control, src/internal/metadata); on restart it rebuilds that state by
    replaying the streams (src/internal/workflow, src/internal/actor). Workers poll for
    tasks, run them in Python processes or against language models, and report the results
    (src/internal/worker). This library models the Go code as Gallina functions, one
    definition per Go function under the Go name where possible, and proves what the parts
    promise each other.

    ** Conventions

    A fallible Go function returns [result E A]; a nil pointer or a missing map key is
    [None]; machine integers are [Z] with the wrap-around of [u64], [i64] and the like written
    out where it can be reached; a Go map is a [gmap], a slice a [list]; where Go's map order
    shows, the order is an argument. Code under a mutex is one function. Where the code's own
    interleavings are the point ([ActorLock], [TaskStoreRaces], [WorkerStore], [WorkerLoop],
    [ModelCache], [ReadRawEach]) its critical sections are the steps of a relation.

    Effects are small monads, each in the file that needs it: [C] ([Compaction]) where every
    disk operation may fail or be the last before a crash; [IO] ([ObjectStore]) where system
    calls fail, the process dies and other writers interfere; [M] ([ServiceState]) where a
    handler may block for ever, fail keeping its changes, or return; [W] ([WorkerExec]) where
    a computation may never come back. Each has its program logic next to its theorems
    ([CompactionRun], [ObjectStoreSpec], [ServiceLogic], [WorkerExecSpec]).

    What is not in the repository is a class parameter: checksums of third-party packages
    ([ChecksumLib]), msgpack ([MsgpackLib]), SHA-256 ([Sha256], and in [FingerprintLib] and
    [ArgsLib]), protobuf ([TaskCodecLib]), JSON ([IndexJSON], [DefinitionJSON],
    [WorkflowEventJSON], [StateJSON], [ActorJSON], [RegistryJSON], [ControlJSON],
    [SystemJSON], [AdminJSON], [CheckpointJSON], [ExecutorLib]). Clocks, random identifiers,
    remote calls and outcomes of system calls come from an environment ([Env], [ObjEnv],
    [WorkerEnv], [CacheEnv], [CEnv]), which answers anything unless a theorem says otherwise
    ([EnvLaws]). Witnesses take concrete instances ([ServiceDemo], [Trees], the Demo files).

    ** The log server

    - [Bytes], [Checksum], [LogRecord], [RecordCodec] (checksum.go, segment_reader.go, the
      codec of store.go, internal/logrecord): the record encoder and its two decoders, which
      read back what was written and never read a torn record.
    - [SegmentIndex] (store.go): writing the segment index and reading its three formats.
    - [LogStore] (store.go, record.go): [OpenWithOptions] with its recovery, [Append],
      [Read], [ReadRawEach], [Trim], [Stats], rolling of segments. The disk holds for each
      file its bytes and how many of them are synced; a crash keeps at least those, and
      keeps or loses the rest of what was written; directories survive. The retention
      snapshot and the compaction manifest are never synced: a crash may leave them without
      contents ([dk_lost], [readable]), and then every open is refused.
    - [LogSafety], [LogRead], [LogRecovery]: the invariant [store_ok] that relates a store
      and its disk to an abstract log, kept by every operation and re-established by
      recovery from every crashed disk.
    - [Compaction], [CompactionPlan], [CompactionDisk], [CompactionRun], [CompactionSafe],
      [CompactionSpec] (compaction.go): plans, the whole of [Compact] as a sequence of disk
      operations, the manifest, and what the next open makes of an interrupted one.
    - [LogSpec]: the abstract log, as a step relation whose labels carry each operation's
      answer. [LogTheorems], [CompactionTheorems]: the store makes these steps, in every
      execution of the operations, crashes and restarts that [store_step] lists; acknowledged
      records survive; reads return the log; a compaction keeps it, wherever it stops; what a
      failed sync leaves behind. Stops in a compaction that copies segments are covered by
      [interrupted_compaction_recovers], which says what the next open finds, but not by the
      refinement: the segment planned for the copy stays in the manifest, and a later run can
      lose its records. That, the disk errors that break the contract, and a duplicate
      acknowledged without a sync are shown on concrete runs (Examples).

    ** State and its replay

    - [EventCodec] (internal/eventcodec): the envelope of event payloads.
    - [Kahn], [WorkflowDef], [WorkflowState], [WorkflowJSON], [WorkflowReplay],
      [WorkflowArgs] (internal/workflow): definitions and their validation, the incrementally
      kept runtime graph, its durable snapshot, replay, references between steps.
    - [Actor] (internal/actor): actor state; on logs of commands completed one at a time the
      replay with snapshots equals the full replay, and what it forgets on a trimmed log is
      stated exactly. Examples show the two histories in which more is lost: a snapshot
      overtaken by the next command, a checkpoint older than the trim.
    - [TaskSpec], [TaskReplay], [TaskReplaySpec] (internal/control): specifications and
      fingerprints, the lifecycle events and the two engines that replay them, which agree.
    - [MetaStore], [MetaDomains] (internal/metadata/memory.go): the single-lock store.
    - [TaskHeap], [TaskStore], [TaskStoreSpec], [TaskStoreRaces], [TaskStoreSerial],
      [WorkerStore] (memory_v2.go): the sharded store with its indexes and deadline heap. It
      answers like the single-lock one; its records linearise in every interleaving and its
      leases are fenced; its indexes are exact when updates of a task do not overlap.

    ** The control plane

    - [ActorLock] (internal/actorlock): the reference-counted lock table.
    - [Placement], [Scheduler] (scheduler_placement.go, scheduler.go): sorted placement
      lists, queues with lazy deletion, leases; the indexes are exact, assignment is FIFO.
    - [ServiceState], [ControlTasks], [ControlDispatch], [ControlActors],
      [ControlWorkflows], [ControlService], [ControlAdmin] (service.go, llm.go, actor.go,
      functions.go, hardening.go, bootstrap.go): the service's state, its handlers with all
      the calls they make to the log, the stores and the scheduler, and its restart. The log
      server is the abstract log that [LogTheorems] says it refines.
    - [Checkpoint], [CheckpointTails], [CheckpointCheck] (checkpoint.go): metadata
      checkpoints, their creation, the restart from one, and the code's consistency check,
      which accepts a checkpoint under the conditions of [sound_checkpoint].
    - [ServiceLogic], [DispatchTotal], [TasksHeld], [TasksHeldSteps], [RestartHeld],
      [NoTaskLost]: polling ends; in every state that requests and restarts lead to, with the
      indexed scheduler, a queued task waits where the scheduler looks for it and a running
      one's lease is tracked. Restarts are over logs without a metadata checkpoint in which
      every workflow step in flight has its task ([restartable]).
    - [ServiceDemo], [ServiceFaults], [Trees], [CheckpointDemo]: concrete environments and
      codecs, closed runs, and behaviours the design does not mean.

    ** The worker

    - [WorkerExec], [WorkerExecSpec], [WorkerExecDemo] (agent.go from [executeTask] down,
      function_cache.go): the executor's protocol over a process's pipes, function sources,
      actors, language models, the reported completion. The model cache is the interface
      [CacheOps].
    - [WorkerLoop], [WorkerLoopSpec], [WorkerLoopDemo] (agent.go, [Run] and
      [localExecutorPool]): the polling loop and the executors as one step relation over
      their queues and the lock table of [ActorLock]; every task is accounted for, nothing
      blocks for ever, what is flushed reports an execution of [WorkerExec].
    - [ModelCache], [ModelCacheSpec], [ModelCacheDemo] (agent.go, [modelCache]): the LRU of
      checkpoint files, which provides [CacheOps]; well formed in every interleaving, within
      its capacity after an insertion, one load per model.

    ** Objects

    - [Paths]: path/filepath's lexical functions. [ObjectStore], [ObjectStoreSpec]
      (internal/objectstore/local.go, store.go): the local object store; a reference stays
      below its root, and an object's content is what its name says whatever fails.

    ** Fuel

    Loops without a structural argument take fuel. The recovery scan takes one round per
    record and a record has at least 41 bytes, so the length of the file is enough; the raw
    scan one per batch of at least one record ([raw_read_is_snapshot]: more rounds than
    records are enough); the scheduler's queue loops one per queued element
    ([Assign_returns]); Kahn's loop one per node; the cache's eviction one per element
    ([evict_spec]); [waitActorOwner] is given the number of its attempts. An index names at
    most 2^37 / 41 records, so segments are assumed below 2^37 bytes where its counters
    matter.

    ** Not modelled

    - The segment reader cache of the log store and mapping of files: they hold open
      handles; that a compaction finds a segment's reader busy is an argument of [Compact].
    - Workflows, actors and models of the sharded store: the maps of [MetaDomains], each
      under its own mutex.
    - The Postgres store, its materializer and the S3 store: statements and requests to
      external systems.
    - Waiting and waking of pollers, tickers, gRPC and HTTP servers, the web console, the
      command line tools, logging. *)
From Stdlib Require Export ZArith Lia.
From Stdlib Require Import Floats.SpecFloat.
From stdpp Require Export base option strings gmap fin_maps fin_sets sorting numbers tactics list.
From stdpp Require Import pretty.

#[export] Set Warnings "-clear-no-such-hyp".

Declare Scope go_scope.
Delimit Scope go_scope with go.
Open Scope go_scope.

(** * Errors as values

    Go returns [(value, error)]; a component's errors are an inductive type
    and a fallible operation returns [result E A].  [MBind] makes the stdpp
    notation [x ← c; k] the early return [if err != nil { return err }]. *)
Inductive result (E A : Type) : Type :=
| Ok (a : A)
| Err (e : E).
Arguments Ok {E A} a.
Arguments Err {E A} e.

#[export] Instance result_ret {E} : MRet (result E) := fun A a => Ok a.
#[export] Instance result_bind {E} : MBind (result E) := fun A B f r =>
  match r with Ok a => f a | Err e => Err e end.
#[export] Instance result_fmap {E} : FMap (result E) := fun A B f r =>
  match r with Ok a => Ok (f a) | Err e => Err e end.

#[export] Instance result_eq_dec {E A} `{EqDecision E, EqDecision A} :
  EqDecision (result E A).
Proof. solve_decision. Defined.

Definition is_ok {E A} (r : result E A) : bool :=
  match r with Ok _ => true | Err _ => false end.

Lemma result_bind_ok {E A B} (r : result E A) (f : A → result E B) b :
  r ≫= f = Ok b ↔ ∃ a, r = Ok a ∧ f a = Ok b.
Proof.
  destruct r as [a|e]; simpl; split.
  - eauto.
  - intros (a' & [= ->] & ?); done.
  - done.
  - by intros (? & ? & ?).
Qed.

Lemma ok_bind {E A B} (a : A) (f : A → result E B) : Ok a ≫= f = f a.
Proof. done. Qed.

(** Invert every [_ ≫= _ = Ok _] hypothesis. *)
Ltac inv_ok :=
  repeat match goal with
  | H : Ok _ = Ok _ |- _ => injection H as H; try subst
  | H : Err _ = Ok _ |- _ => discriminate H
  | H : Ok _ = Err _ |- _ => discriminate H
  | H : mbind _ _ = Ok _ |- _ =>
      let a := fresh "a" in let Ha := fresh "H" a in
      apply result_bind_ok in H as (a & Ha & H)
  end.

(** * Machine integers

    Go's fixed-width integers are kept as [Z] with the wrap-around of their
    conversions written out. *)
Open Scope Z_scope.

Definition u8 (z : Z) : Z := z mod 2 ^ 8.
Definition u16 (z : Z) : Z := z mod 2 ^ 16.
Definition u32 (z : Z) : Z := z mod 2 ^ 32.
Definition u64 (z : Z) : Z := z mod 2 ^ 64.
(** Two's complement reading of the low 64 bits. *)
Definition i64 (z : Z) : Z := (z + 2 ^ 63) mod 2 ^ 64 - 2 ^ 63.

Definition in_u16 (z : Z) : Prop := 0 <= z < 2 ^ 16.
Definition in_u32 (z : Z) : Prop := 0 <= z < 2 ^ 32.
Definition in_u64 (z : Z) : Prop := 0 <= z < 2 ^ 64.
Definition in_i64 (z : Z) : Prop := - 2 ^ 63 <= z < 2 ^ 63.

Definition max_u64 : Z := 2 ^ 64 - 1.
Definition max_i64 : Z := 2 ^ 63 - 1.

Lemma u16_id z : in_u16 z → u16 z = z.
Proof. apply Z.mod_small. Qed.
Lemma u32_id z : in_u32 z → u32 z = z.
Proof. apply Z.mod_small. Qed.
Lemma u64_id z : in_u64 z → u64 z = z.
Proof. apply Z.mod_small. Qed.
Lemma u16_range z : in_u16 (u16 z).
Proof. by apply Z.mod_pos_bound. Qed.
Lemma u32_range z : in_u32 (u32 z).
Proof. by apply Z.mod_pos_bound. Qed.
Lemma u64_range z : in_u64 (u64 z).
Proof. by apply Z.mod_pos_bound. Qed.
Lemma i64_range z : in_i64 (i64 z).
Proof.
  unfold in_i64, i64.
  pose proof (Z.mod_pos_bound (z + 2 ^ 63) (2 ^ 64) ltac:(lia)). lia.
Qed.
Lemma i64_id z : in_i64 z → i64 z = z.
Proof. unfold in_i64, i64; intros. rewrite Z.mod_small; lia. Qed.
(** [int64(uint64(x)) = x] for a signed [x]: the conversions are inverse. *)
Lemma i64_u64 z : in_i64 z → i64 (u64 z) = z.
Proof.
  intros Hz. unfold i64, u64.
  rewrite Z.add_mod_idemp_l by lia. by apply i64_id.
Qed.

(** * [float64]

    A [float64] is an IEEE binary64 number of the Standard Library's specification;
    conversions and divisions round to nearest even. *)
Definition float64 : Type := spec_float.
Definition f64 (z : Z) : float64 := binary_normalize 53 1024 z 0 false.
Definition f64_div (a b : float64) : float64 := SFdiv 53 1024 a b.
Definition f64_eqb (a b : float64) : bool := SFeqb a b.
Definition f64_ltb (a b : float64) : bool := SFltb a b.

(** [%d] *)
Definition format_uint (z : Z) : string := pretty (Z.to_N z).
Definition format_int (z : Z) : string := if z <? 0 then "-" +:+ format_uint (- z) else format_uint z.

Close Scope Z_scope.

Create Rewrite HintDb go_int.
#[export] Hint Rewrite u16_id u32_id u64_id i64_id using assumption : go_int.
Create HintDb go.
#[export] Hint Resolve u16_range u32_range u64_range i64_range : go.

(** * Lists, options and strings *)

(** A Go string test [s == ""]. *)
Definition str_empty (s : string) : bool := bool_decide (s = EmptyString).

(** [strings.HasPrefix] *)
Fixpoint has_prefix (p s : string) : bool :=
  match p, s with
  | EmptyString, _ => true
  | String.String a p, String.String b s => Ascii.eqb a b && has_prefix p s
  | _, _ => false
  end.
Lemma str_empty_true s : str_empty s = true ↔ s = EmptyString.
Proof. apply bool_decide_eq_true. Qed.
Lemma str_empty_false s : str_empty s = false ↔ s ≠ EmptyString.
Proof. apply bool_decide_eq_false. Qed.

Lemma Forall_insert {A} (P : A → Prop) (l : list A) i x :
  Forall P l → P x → Forall P (<[i:=x]> l).
Proof.
  intros Hl Hx. apply Forall_forall. intros y Hy.
  apply list_elem_of_lookup in Hy as [j Hj].
  apply list_lookup_insert_Some in Hj as [(-> & -> & _)|[_ Hj]]; [done|].
  by eapply Forall_lookup_1.
Qed.

Lemma filter_all {A} (Q : A → Prop) `{!∀ x, Decision (Q x)} l : Forall Q l → filter Q l = l.
Proof. induction 1 as [|x l Hx _ IH]; [done|]. by rewrite filter_cons, decide_True, IH. Qed.
Lemma filter_none {A} (Q : A → Prop) `{!∀ x, Decision (Q x)} l : Forall (λ x, ¬ Q x) l → filter Q l = [].
Proof. induction 1 as [|x l Hx _ IH]; [done|]. by rewrite filter_cons, decide_False. Qed.
Lemma NoDup_lookup_inj {A} (l : list A) i j x :
  NoDup l → l !! i = Some x → l !! j = Some x → i = j.
Proof. intros; by eapply NoDup_lookup. Qed.

(** Position of the first occurrence. *)
Definition pos_in {A} `{EqDecision A} (l : list A) (x : A) : nat :=
  match list_find (λ y, y = x) l with Some (k, _) => k | None => 0 end.

Lemma pos_in_lookup {A} `{EqDecision A} (l : list A) x :
  x ∈ l → l !! pos_in l x = Some x.
Proof.
  intros Hx. unfold pos_in.
  destruct (list_find_elem_of (λ y, y = x) l x Hx eq_refl) as [[k y] Hk].
  rewrite Hk. by apply list_find_Some in Hk as (? & -> & _).
Qed.

Lemma pos_in_nodup {A} `{EqDecision A} (l : list A) x k :
  NoDup l → l !! k = Some x → pos_in l x = k.
Proof.
  intros Hnd Hk. eapply NoDup_lookup; [done| |done].
  apply pos_in_lookup. by eapply list_elem_of_lookup_2.
Qed.

Lemma elem_of_take_lookup {A} (l : list A) n x :
  x ∈ take n l ↔ ∃ k, k < n ∧ l !! k = Some x.
Proof.
  rewrite list_elem_of_lookup. split.
  - intros [k Hk]. apply lookup_take_Some in Hk as [? ?]. eauto.
  - intros (k & ? & ?). exists k. by apply lookup_take_Some.
Qed.

Lemma sorted_lookup_lt {A} (R : A → A → Prop) (l : list A) i j x y :
  StronglySorted R l → l !! i = Some x → l !! j = Some y → i < j → R x y.
Proof.
  intros Hs Hi Hj Hlt. rewrite <- (take_drop j l) in Hs.
  apply (StronglySorted_app_1_elem_of _ _ _ _ _ Hs).
  - apply (list_elem_of_lookup_2 _ i). by rewrite lookup_take_lt.
  - apply (list_elem_of_lookup_2 _ 0). by rewrite lookup_drop, Nat.add_0_r.
Qed.

(** Sorting by an integer key that is distinct on the list is unique. *)
Lemma sort_by_key {A} (R : A → A → Prop) `{!RelDecision R} (f : A → Z) (l l' : list A) :
  (∀ a b, R a b ↔ (f a <= f b)%Z) → StronglySorted Z.lt (f <$> l) → l' ≡ₚ l → merge_sort R l' = l.
Proof.
  intros HR Hs Hp. apply (StronglySorted_unique_strong R).
  - intros x y Hx Hy Hxy%HR Hyx%HR. rewrite merge_sort_Permutation, Hp in Hx.
    apply list_elem_of_lookup in Hx as [i Hi], Hy as [j Hj].
    assert (Hc : ∀ k z, l !! k = Some z → (f <$> l) !! k = Some (f z)) by (intros k z Hk; by rewrite list_lookup_fmap, Hk).
    destruct (Nat.lt_trichotomy i j) as [Hlt|[->|Hgt]]; [exfalso|by simplify_eq|exfalso].
    + pose proof (sorted_lookup_lt Z.lt _ i j _ _ Hs (Hc _ _ Hi) (Hc _ _ Hj) Hlt). lia.
    + pose proof (sorted_lookup_lt Z.lt _ j i _ _ Hs (Hc _ _ Hj) (Hc _ _ Hi) Hgt). lia.
  - apply StronglySorted_merge_sort.
    + intros x y z Hxy%HR Hyz%HR. apply HR. lia.
    + intros x y. rewrite !HR. lia.
  - clear Hp. induction l as [|x l IH]; [constructor|]. rewrite fmap_cons in Hs.
    apply StronglySorted_inv in Hs as [Hs Hx].
    constructor; [by apply IH|]. rewrite Forall_fmap in Hx. eapply Forall_impl; [exact Hx|].
    intros y Hy. apply HR. simpl in Hy. lia.
  - by rewrite merge_sort_Permutation.
Qed.

(** A duplicate-free list of [n] numbers below [n] has them all. *)
Lemma nodup_full (l : list nat) n :
  NoDup l → Forall (λ i, i < n) l → length l = n → l ≡ₚ seq 0 n.
Proof.
  intros Hnd Hb Hl. apply submseteq_length_Permutation; [|by rewrite length_seq; lia].
  apply NoDup_submseteq; [done|]. intros i Hi. rewrite Forall_forall in Hb.
  apply elem_of_seq. specialize (Hb i Hi). lia.
Qed.

Lemma nodup_complete_length (l : list nat) n :
  NoDup l → Forall (λ i, i < n) l → (∀ i, i < n → i ∈ l) → length l = n.
Proof.
  intros Hnd Hb Hall. rewrite <- (length_seq n 0). apply Permutation_length.
  apply NoDup_Permutation; [done|apply NoDup_seq|]. intros i. rewrite elem_of_seq.
  rewrite Forall_forall in Hb. split; [intros Hi; specialize (Hb i Hi); lia|].
  intros. apply Hall. lia.
Qed.

(** [for i, id := range ids { byID[id] = i }] *)
Fixpoint index_ids (i : nat) (ids : list string) (byID : gmap string nat) : gmap string nat :=
  match ids with
  | [] => byID
  | id :: ids => index_ids (S i) ids (<[id := i]> byID)
  end.

Lemma index_ids_notin i ids m id : id ∉ ids → index_ids i ids m !! id = m !! id.
Proof.
  revert i m. induction ids as [|x ids IH]; intros i m Hni; [done|]. simpl.
  apply not_elem_of_cons in Hni as [? ?]. by rewrite IH, lookup_insert_ne.
Qed.

Lemma index_ids_lookup i ids m id k :
  NoDup ids → m !! id = None → index_ids i ids m !! id = Some k ↔ ∃ j, k = i + j ∧ ids !! j = Some id.
Proof.
  revert i m. induction ids as [|x ids IH]; intros i m Hnd Hm; simpl.
  { rewrite Hm. split; [done|]. by intros (? & _ & ?). }
  apply NoDup_cons in Hnd as [Hni Hnd]. destruct (decide (x = id)) as [->|Hne].
  - rewrite index_ids_notin, lookup_insert_eq by done. split.
    + intros [= <-]. exists 0. split; [lia|done].
    + intros ([|j] & -> & Hj); [f_equal; lia|]. simpl in Hj.
      by apply list_elem_of_lookup_2 in Hj.
  - rewrite IH by (done || by rewrite lookup_insert_ne). split.
    + intros (j & -> & Hj). exists (S j). split; [lia|done].
    + intros ([|j] & -> & Hj); [by injection Hj|]. exists j. split; [lia|done].
Qed.

(** * Executions of a step relation *)
Section Star.
Context {S : Type} (step : S → S → Prop).

Inductive star : S → S → Prop :=
| star_refl s : star s s
| star_step s1 s2 s3 : step s1 s2 → star s2 s3 → star s1 s3.

Lemma star_invariant (I : S → Prop) s s' :
  (∀ a b, I a → step a b → I b) → I s → star s s' → I s'.
Proof. intros Hstep HI Hs. induction Hs; eauto. Qed.

Lemma star_one s s' : step s s' → star s s'.
Proof. intros. eapply star_step; [done|constructor]. Qed.

Lemma star_trans s1 s2 s3 : star s1 s2 → star s2 s3 → star s1 s3.
Proof. intros H; revert s3. induction H; eauto using star. Qed.
End Star.
#[export] Hint Constructors star : go.

(** Executions of a step relation whose steps are labelled with what is seen of them. *)
Section Trace.
Context {E S : Type} (step : E → S → S → Prop).

Inductive runs : list E → S → S → Prop :=
| runs_nil s : runs [] s s
| runs_cons e tr s1 s2 s3 : step e s1 s2 → runs tr s2 s3 → runs (e :: tr) s1 s3.

Lemma runs_one e s s' : step e s s' → runs [e] s s'.
Proof. intros. eapply runs_cons; [done|constructor]. Qed.
Lemma runs_app tr1 tr2 s1 s2 s3 : runs tr1 s1 s2 → runs tr2 s2 s3 → runs (tr1 ++ tr2) s1 s3.
Proof. intros Hr. revert s3. induction Hr; intros; [done|]. cbn [app]. by eapply runs_cons; eauto. Qed.
End Trace.

(** A simulation, step by step, carries over to executions: the related state has an
    execution with the same labels. *)
Lemma simulated_runs {E S A} (step : E → S → S → Prop) (spec : E → A → A → Prop) (R : S → A → Prop) tr s s' a :
  (∀ e s s' a, R s a → step e s s' → ∃ a', R s' a' ∧ spec e a a') →
  runs step tr s s' → R s a → ∃ a', R s' a' ∧ runs spec tr a a'.
Proof.
  intros Hsim Hr. revert a. induction Hr as [s|e tr s1 s2 s3 Hstep _ IH]; intros a Ha; [exists a; split; [done|constructor]|].
  destruct (Hsim _ _ _ _ Ha Hstep) as (a2 & Ha2 & Hs2). destruct (IH _ Ha2) as (a3 & Ha3 & Hr3).
  exists a3. split; [done|]. by eapply runs_cons.
Qed.
