(* ===== verification/ActorLock.v ===== *)
(** The per-actor lock table of [internal/actorlock/table.go].

    [Lock] and the closure it returns are cut at the points where another
    goroutine may run: the section under [t.mu] that finds or creates the entry,
    the wait on [e.mu], the release of [e.mu], and the section under [t.mu]
    that drops the reference and may evict the entry.  A section under [t.mu]
    is one step, since [t.mu] serialises it.  Entries are heap objects named by
    a pointer, because the eviction race the code guards against is about
    pointer identity.  Theorems: mutual exclusion per actor, exact reference
    counts, no leak, no panic, and no deadlock. *)
From S2P Require Import Prelude.

Module ActorLock.

Abbreviation ptr := positive.
Abbreviation tid := positive.

(** [type entry struct { mu sync.Mutex; refs int }] *)
Record entry := Entry { e_locked : bool; e_refs : Z }.

(** [type Table struct { mu; locks map[string]*entry }] with the heap its
    entries live in. *)
Record Table := MkTable { t_locks : gmap string ptr; t_heap : gmap ptr entry }.

Definition NewTable : Table := MkTable ∅ ∅.

(** First half of [Lock], under [t.mu]: look the entry up or create it, and
    count the caller before it waits. *)
Definition lock_lookup (t : Table) (actorID : string) : Table * ptr :=
  match t_locks t !! actorID with
  | Some p =>
      (MkTable (t_locks t) (alter (λ e, Entry (e_locked e) (e_refs e + 1)) p (t_heap t)), p)
  | None =>
      let p := fresh (dom (t_heap t)) in
      (MkTable (<[actorID := p]> (t_locks t)) (<[p := Entry false 1]> (t_heap t)), p)
  end.

(** [e.mu.Lock()]: enabled when the mutex is free. *)
Definition entry_lock (t : Table) (p : ptr) : option Table :=
  e ← t_heap t !! p;
  if e_locked e then None
  else Some (MkTable (t_locks t) (<[p := Entry true (e_refs e)]> (t_heap t))).

(** [e.mu.Unlock()]: the runtime panics ([None]) on an unlocked mutex. *)
Definition entry_unlock (t : Table) (p : ptr) : option Table :=
  e ← t_heap t !! p;
  if e_locked e then Some (MkTable (t_locks t) (<[p := Entry false (e_refs e)]> (t_heap t)))
  else None.

(** Second half of the unlock closure, under [t.mu]: drop the reference and
    evict the entry when it was the last one and is still the current one. *)
Definition unlock_table (t : Table) (actorID : string) (p : ptr) : Table :=
  match t_heap t !! p with
  | None => t
  | Some e =>
      let refs := (e_refs e - 1)%Z in
      let heap := <[p := Entry (e_locked e) refs]> (t_heap t) in
      if bool_decide (refs = 0%Z) && bool_decide (t_locks t !! actorID = Some p)
      then MkTable (delete actorID (t_locks t)) heap
      else MkTable (t_locks t) heap
  end.

(** [Len] *)
Definition Len (t : Table) : nat := size (t_locks t).

(** ** Goroutines

    Where a goroutine stands in a [Lock ... unlock] pair. *)
Inductive pc :=
| Outside
| Waiting (actorID : string) (p : ptr)    (** counted, waiting on [e.mu] *)
| Holding (actorID : string) (p : ptr)    (** [Lock] has returned *)
| Releasing (actorID : string) (p : ptr)  (** [e.mu] released, table not updated *)
| HoldingNoop.                            (** [Lock("")] returned a no-op closure *)

Record State := MkState { st_table : Table; st_pcs : gmap tid pc }.

Definition pc_of (s : State) (i : tid) : pc := default Outside (st_pcs s !! i).
Definition set_pc (t : Table) (s : State) (i : tid) (c : pc) : State :=
  MkState t (<[i := c]> (st_pcs s)).

Definition init : State := MkState NewTable ∅.

Inductive step : State → State → Prop :=
| step_lock_noop s i :
    pc_of s i = Outside →
    step s (set_pc (st_table s) s i HoldingNoop)
| step_lock_lookup s i a :
    pc_of s i = Outside → a ≠ EmptyString →
    step s (set_pc (lock_lookup (st_table s) a).1 s i
                   (Waiting a (lock_lookup (st_table s) a).2))
| step_entry_lock s i a p t' :
    pc_of s i = Waiting a p → entry_lock (st_table s) p = Some t' →
    step s (set_pc t' s i (Holding a p))
| step_entry_unlock s i a p t' :
    pc_of s i = Holding a p → entry_unlock (st_table s) p = Some t' →
    step s (set_pc t' s i (Releasing a p))
| step_unlock_table s i a p :
    pc_of s i = Releasing a p →
    step s (set_pc (unlock_table (st_table s) a p) s i Outside)
| step_unlock_noop s i :
    pc_of s i = HoldingNoop →
    step s (set_pc (st_table s) s i Outside).

Definition reachable (s : State) : Prop := star step init s.

(** ** Counting goroutines *)

Definition uses (p : ptr) (c : pc) : bool :=
  match c with
  | Waiting _ q | Holding _ q | Releasing _ q => bool_decide (q = p)
  | _ => false
  end.
Definition holds (p : ptr) (c : pc) : bool :=
  match c with Holding _ q => bool_decide (q = p) | _ => false end.

Definition count (Q : pc → bool) (m : gmap tid pc) : nat :=
  size (filter (λ kv, Q kv.2 = true) m).

Lemma count_insert Q m i c :
  Q Outside = false →
  count Q (<[i := c]> m) + (if Q (default Outside (m !! i)) then 1 else 0)
  = count Q m + (if Q c then 1 else 0).
Proof.
  intros HQ. unfold count.
  assert (Hout : ∀ m' : gmap tid pc, m' !! i = None →
    size (filter (λ kv : tid * pc, Q kv.2 = true) (<[i := c]> m'))
    = size (filter (λ kv : tid * pc, Q kv.2 = true) m') + (if Q c then 1 else 0)).
  { intros m' Hm'. destruct (Q c) eqn:HQc.
    - rewrite map_filter_insert_True by done.
      rewrite map_size_insert_None; [lia|].
      rewrite map_lookup_filter_None; by left.
    - rewrite map_filter_insert_False by (simpl; congruence).
      rewrite delete_id by done. lia. }
  destruct (m !! i) as [c0|] eqn:Hi; simpl.
  - rewrite <- (insert_delete_eq m i c), Hout by apply lookup_delete_eq.
    rewrite <- (insert_delete_id m i c0 Hi) at 2.
    destruct (Q c0) eqn:HQ0.
    + rewrite map_filter_insert_True by done.
      rewrite map_size_insert_None; [lia|].
      rewrite map_lookup_filter_None; left; apply lookup_delete_eq.
    + rewrite map_filter_insert_False by (simpl; congruence).
      rewrite delete_delete_eq. lia.
  - rewrite Hout by done. rewrite HQ. lia.
Qed.

Lemma count_pos Q m i c : m !! i = Some c → Q c = true → 0 < count Q m.
Proof.
  intros Hi Hc. unfold count.
  destruct (size (filter (λ kv : tid * pc, Q kv.2 = true) m)) eqn:Hs; [|lia].
  apply map_size_empty_inv in Hs.
  assert (filter (λ kv : tid * pc, Q kv.2 = true) m !! i = Some c) as Hf.
  { by apply map_lookup_filter_Some. }
  by rewrite Hs, lookup_empty in Hf.
Qed.

Lemma count_zero_inv Q m : 0 < count Q m → ∃ i c, m !! i = Some c ∧ Q c = true.
Proof.
  intros Hpos. unfold count in Hpos.
  destruct (map_choose (filter (λ kv : tid * pc, Q kv.2 = true) m)) as (i & c & H).
  { intros He. rewrite He, map_size_empty in Hpos. lia. }
  apply map_lookup_filter_Some in H as [? ?]. eauto.
Qed.

Lemma count_two Q m i j c d :
  i ≠ j → m !! i = Some c → m !! j = Some d → Q c = true → Q d = true →
  Q Outside = false → 2 ≤ count Q m.
Proof.
  intros Hij Hi Hj Hc Hd HQ.
  pose proof (count_insert Q m i Outside HQ) as H.
  rewrite Hi, HQ in H. simpl in H. rewrite Hc in H.
  pose proof (count_pos Q (<[i := Outside]> m) j d) as Hp.
  rewrite lookup_insert_ne in Hp by done. specialize (Hp Hj Hd). lia.
Qed.

(** ** The invariant *)

Definition pc_entry (c : pc) : option (string * ptr) :=
  match c with
  | Waiting a p | Holding a p | Releasing a p => Some (a, p)
  | _ => None
  end.

Record Inv (s : State) : Prop := {
  (** a counted goroutine's entry is the one in the table *)
  inv_current i a p :
    pc_entry (pc_of s i) = Some (a, p) → t_locks (st_table s) !! a = Some p;
  (** [refs] counts holders and waiters; [mu] is locked exactly by its holder *)
  inv_counts p e :
    t_heap (st_table s) !! p = Some e →
    e_refs e = Z.of_nat (count (uses p) (st_pcs s)) ∧
    (if e_locked e then 1 else 0) = count (holds p) (st_pcs s);
  (** only referenced entries stay in the table *)
  inv_live a p :
    t_locks (st_table s) !! a = Some p →
    ∃ e, t_heap (st_table s) !! p = Some e ∧ (0 < e_refs e)%Z;
  inv_inj a b p :
    t_locks (st_table s) !! a = Some p → t_locks (st_table s) !! b = Some p → a = b
}.

Lemma pc_of_set t s i c j :
  pc_of (set_pc t s i c) j = if decide (i = j) then c else pc_of s j.
Proof.
  unfold pc_of, set_pc; simpl. rewrite lookup_insert. by case_decide.
Qed.

Lemma uses_spec p c : uses p c = true ↔ ∃ a, pc_entry c = Some (a, p).
Proof.
  destruct c; simpl; rewrite ?bool_decide_eq_true; split;
    try (intros [? [=]]; done); try done; intros ->; eauto.
Qed.

(** The effect of one goroutine's move on both counters. *)
Lemma count_set Q s i c :
  Q Outside = false →
  count Q (<[i := c]> (st_pcs s)) + (if Q (pc_of s i) then 1 else 0)
  = count Q (st_pcs s) + (if Q c then 1 else 0).
Proof. intros. by apply count_insert. Qed.

Lemma uses_count_pos s i a p :
  pc_entry (pc_of s i) = Some (a, p) → 0 < count (uses p) (st_pcs s).
Proof.
  unfold pc_of. destruct (st_pcs s !! i) as [c|] eqn:Hi; simpl; [|done].
  intros Hc. eapply count_pos; [done|]. apply uses_spec; eauto.
Qed.

Lemma init_inv : Inv init.
Proof. split; intros *; simpl; unfold pc_of; rewrite ?lookup_empty; done. Qed.

(** A pointer outside the heap is used by no goroutine. *)
Lemma unused_fresh s p :
  Inv s → t_heap (st_table s) !! p = None → count (uses p) (st_pcs s) = 0.
Proof.
  intros HI Hp. destruct (count (uses p) (st_pcs s)) eqn:Hc; [done|].
  destruct (count_zero_inv (uses p) (st_pcs s)) as (i & c & Hi & Hu); [lia|].
  apply uses_spec in Hu as [a Ha].
  assert (pc_entry (pc_of s i) = Some (a, p)) as Hpc.
  { unfold pc_of. by rewrite Hi. }
  apply (inv_current s HI) in Hpc. apply (inv_live s HI) in Hpc as (e & He & _).
  congruence.
Qed.

Lemma holds_uses_count s p :
  count (uses p) (st_pcs s) = 0 → count (holds p) (st_pcs s) = 0.
Proof.
  intros H. destruct (count (holds p) (st_pcs s)) eqn:Hc; [done|].
  destruct (count_zero_inv (holds p) (st_pcs s)) as (i & c & Hi & Hu); [lia|].
  assert (0 < count (uses p) (st_pcs s)); [|lia].
  eapply count_pos; [done|]. by destruct c.
Qed.

(** Case analysis on a goroutine's position after a move. *)
Ltac pc_cases :=
  repeat match goal with
  | H : context [pc_of (set_pc _ _ _ _) _] |- _ => rewrite pc_of_set in H
  | H : context [decide (?x = ?y)] |- _ => destruct (decide (x = y)); subst
  end.

(** Moves between positions that reference no entry keep the invariant. *)
Lemma move_unref_inv s i c :
  Inv s → pc_entry (pc_of s i) = None → pc_entry c = None →
  Inv (set_pc (st_table s) s i c).
Proof.
  intros HI Hold Hnew.
  assert (∀ p, uses p (pc_of s i) = false ∧ uses p c = false ∧
               holds p (pc_of s i) = false ∧ holds p c = false) as Hno.
  { intros p. destruct (pc_of s i), c; done. }
  split; simpl.
  - intros j a p Hj. pc_cases; [congruence|]. by eapply inv_current.
  - intros p e He. destruct (Hno p) as (Hu & Hu' & Hh & Hh').
    pose proof (count_set (uses p) s i c eq_refl) as H1.
    pose proof (count_set (holds p) s i c eq_refl) as H2.
    rewrite Hu, Hu' in H1. rewrite Hh, Hh' in H2. simpl in H1, H2.
    destruct (inv_counts s HI p e He). rewrite !Nat.add_0_r in H1, H2.
    by rewrite H1, H2.
  - apply HI.
  - apply HI.
Qed.

(** Both counters for another pointer are unchanged by a move on [p]. *)
Lemma count_other s i c p q :
  p ≠ q →
  (∀ a r, pc_entry (pc_of s i) = Some (a, r) → r = p) →
  (∀ a r, pc_entry c = Some (a, r) → r = p) →
  count (uses q) (<[i := c]> (st_pcs s)) = count (uses q) (st_pcs s) ∧
  count (holds q) (<[i := c]> (st_pcs s)) = count (holds q) (st_pcs s).
Proof.
  intros Hpq Hold Hnew.
  assert (∀ d, (∀ a r, pc_entry d = Some (a, r) → r = p) →
            uses q d = false ∧ holds q d = false) as Hno.
  { intros d Hd. destruct d as [|a r|a r|a r|]; try done;
      specialize (Hd a r eq_refl); subst; simpl;
      rewrite bool_decide_eq_false_2; done. }
  destruct (Hno _ Hold) as [Hu Hh], (Hno _ Hnew) as [Hu' Hh'].
  pose proof (count_set (uses q) s i c eq_refl) as H1.
  pose proof (count_set (holds q) s i c eq_refl) as H2.
  rewrite Hu, Hu' in H1. rewrite Hh, Hh' in H2. lia.
Qed.

(** Taking or releasing [e.mu] changes only the [holds] counter of [p]. *)
Lemma move_mutex_inv s i c a p e (b : bool) :
  Inv s → pc_entry (pc_of s i) = Some (a, p) → pc_entry c = Some (a, p) →
  t_heap (st_table s) !! p = Some e →
  (if b then 1 else 0) + (if holds p (pc_of s i) then 1 else 0)
  = (if e_locked e then 1 else 0) + (if holds p c then 1 else 0) →
  Inv (set_pc (MkTable (t_locks (st_table s))
                       (<[p := Entry b (e_refs e)]> (t_heap (st_table s)))) s i c).
Proof.
  intros HI Hold Hnew He Hb.
  set (t' := MkTable _ _).
  destruct (inv_counts s HI p e He) as [Hrefs Hlock].
  pose proof (count_set (uses p) s i c eq_refl) as H1.
  pose proof (count_set (holds p) s i c eq_refl) as H2.
  assert (uses p (pc_of s i) = true) as Hu by (apply uses_spec; eauto).
  assert (uses p c = true) as Hu' by (apply uses_spec; eauto).
  rewrite Hu, Hu' in H1.
  split; simpl.
  - intros j a' q Hj. pc_cases; [|by eapply inv_current].
    rewrite Hnew in Hj. injection Hj as <- <-. by eapply inv_current.
  - intros q e' Hq. destruct (decide (p = q)) as [<-|Hpq].
    + rewrite lookup_insert_eq in Hq. injection Hq as <-. simpl in *.
      split; [rewrite Hrefs; f_equal; lia|].
      destruct b, (e_locked e); lia.
    + rewrite lookup_insert_ne in Hq by done.
      destruct (count_other s i c p q) as [Hc1 Hc2]; [done|congruence|congruence|].
      rewrite Hc1, Hc2. by apply HI.
  - intros a' q Ha. destruct (inv_live s HI _ _ Ha) as (e' & He' & Hpos).
    destruct (decide (p = q)) as [<-|Hpq].
    + rewrite lookup_insert_eq. eexists; split; [done|]. simpl. congruence.
    + rewrite lookup_insert_ne by done. eauto.
  - apply HI.
Qed.

Lemma lock_lookup_inv s i a :
  Inv s → pc_of s i = Outside →
  Inv (set_pc (lock_lookup (st_table s) a).1 s i (Waiting a (lock_lookup (st_table s) a).2)).
Proof.
  intros HI Hpc. unfold lock_lookup.
  destruct (t_locks (st_table s) !! a) as [p|] eqn:Ha; simpl.
  - set (t' := MkTable _ _).
    destruct (inv_live s HI a p Ha) as (e & He & Hpos).
    pose proof (count_set (uses p) s i (Waiting a p) eq_refl) as H1.
    pose proof (count_set (holds p) s i (Waiting a p) eq_refl) as H2.
    rewrite Hpc in H1, H2. simpl in H1, H2.
    rewrite bool_decide_eq_true_2 in H1 by done.
    split; simpl.
    + intros j b q Hj. pc_cases; [|by eapply inv_current]. by simplify_eq/=.
    + intros q e' Hq. destruct (decide (p = q)) as [<-|Hpq].
      * rewrite lookup_alter_eq, He in Hq. injection Hq as <-. simpl.
        destruct (inv_counts s HI p e He). lia.
      * rewrite lookup_alter_ne in Hq by done.
        destruct (count_other s i (Waiting a p) p q) as [Hc1 Hc2];
          [done|by rewrite Hpc|by intros ?? [= _ ->]|].
        rewrite Hc1, Hc2. by apply HI.
    + intros b q Hb. destruct (inv_live s HI _ _ Hb) as (e' & He' & ?).
      destruct (decide (p = q)) as [<-|Hpq].
      * rewrite lookup_alter_eq, He'. eexists; split; [done|]. simpl; lia.
      * rewrite lookup_alter_ne by done. eauto.
    + apply HI.
  - set (p := fresh (dom (t_heap (st_table s)))). set (t' := MkTable _ _).
    assert (t_heap (st_table s) !! p = None) as Hp.
    { apply not_elem_of_dom. apply is_fresh. }
    pose proof (unused_fresh s p HI Hp) as Hu0.
    pose proof (holds_uses_count s p Hu0) as Hh0.
    pose proof (count_set (uses p) s i (Waiting a p) eq_refl) as H1.
    pose proof (count_set (holds p) s i (Waiting a p) eq_refl) as H2.
    rewrite Hpc in H1, H2. simpl in H1, H2.
    rewrite bool_decide_eq_true_2 in H1 by done.
    split; simpl.
    + intros j b q Hj. pc_cases; simplify_eq/=; [by rewrite lookup_insert_eq|].
      rewrite lookup_insert_ne; [by eapply inv_current|].
      intros <-. apply (inv_current s HI) in Hj. congruence.
    + intros q e' Hq. destruct (decide (p = q)) as [<-|Hpq].
      * rewrite lookup_insert_eq in Hq. injection Hq as <-. simpl. lia.
      * rewrite lookup_insert_ne in Hq by done.
        destruct (count_other s i (Waiting a p) p q) as [Hc1 Hc2];
          [done|by rewrite Hpc|by intros ?? [= _ ->]|].
        rewrite Hc1, Hc2. by apply HI.
    + intros b q Hb. apply lookup_insert_Some in Hb as [[<- <-]|[Hne Hb]].
      * rewrite lookup_insert_eq. eexists; split; [done|]. simpl; lia.
      * destruct (inv_live s HI _ _ Hb) as (e' & He' & ?).
        rewrite lookup_insert_ne by congruence. eauto.
    + intros b c q Hb Hc.
      apply lookup_insert_Some in Hb as [[<- <-]|[? Hb]];
      apply lookup_insert_Some in Hc as [[<- Heq]|[? Hc]]; try done.
      * destruct (inv_live s HI _ _ Hc) as (? & ? & ?); congruence.
      * destruct (inv_live s HI _ _ Hb) as (? & ? & ?); congruence.
      * by eapply inv_inj.
Qed.

Lemma unlock_table_inv s i a p :
  Inv s → pc_of s i = Releasing a p →
  Inv (set_pc (unlock_table (st_table s) a p) s i Outside).
Proof.
  intros HI Hpc.
  assert (t_locks (st_table s) !! a = Some p) as Ha.
  { eapply (inv_current s HI i). by rewrite Hpc. }
  destruct (inv_live s HI a p Ha) as (e & He & Hpos).
  destruct (inv_counts s HI p e He) as [Hrefs Hlock].
  unfold unlock_table. rewrite He, (bool_decide_eq_true_2 _ Ha), andb_true_r.
  set (heap' := <[p := _]> _).
  assert (count (uses p) (<[i := Outside]> (st_pcs s)) + 1 = count (uses p) (st_pcs s) ∧
     count (holds p) (<[i := Outside]> (st_pcs s)) = count (holds p) (st_pcs s)) as [Hc1 Hc2].
  {
    pose proof (count_set (uses p) s i Outside eq_refl) as H1.
    pose proof (count_set (holds p) s i Outside eq_refl) as H2.
    rewrite Hpc in H1, H2. simpl in H1, H2.
    rewrite bool_decide_eq_true_2 in H1 by done. lia. }
  assert (∀ q e', heap' !! q = Some e' →
     e_refs e' = Z.of_nat (count (uses q) (<[i := Outside]> (st_pcs s))) ∧
     (if e_locked e' then 1 else 0)
       = count (holds q) (<[i := Outside]> (st_pcs s))) as Hcounts.
  { intros q e' Hq.
    destruct (decide (p = q)) as [<-|Hpq].
    - unfold heap' in Hq. rewrite lookup_insert_eq in Hq. injection Hq as <-. simpl in *. lia.
    - unfold heap' in Hq. rewrite lookup_insert_ne in Hq by done.
      destruct (count_other s i Outside p q) as [Hd1 Hd2];
        [done|rewrite Hpc; by intros ?? [= _ ->]|done|].
      rewrite Hd1, Hd2. by apply HI. }
  case_bool_decide as Hz.
  - split; simpl; [| by apply Hcounts | |].
    + intros j b q Hj. pc_cases; [done|].
      destruct (decide (a = b)) as [<-|Hab].
      * exfalso. pose proof (inv_current s HI j _ _ Hj).
        assert (q = p) as -> by congruence.
        assert (uses p (pc_of s j) = true) by (apply uses_spec; eauto).
        pose proof (uses_count_pos (set_pc (st_table s) s i Outside) j a p) as Hpos'.
        rewrite pc_of_set in Hpos'. simpl in Hpos'. case_decide; [done|].
        specialize (Hpos' Hj). lia.
      * rewrite lookup_delete_ne by done. by eapply inv_current.
    + intros b q Hb. apply lookup_delete_Some in Hb as [Hab Hb].
      destruct (inv_live s HI _ _ Hb) as (e' & He' & ?).
      unfold heap'. rewrite lookup_insert_ne; [eauto|].
      intros <-. by apply Hab, (inv_inj s HI a b p).
    + intros b c q [? Hb]%lookup_delete_Some [? Hc]%lookup_delete_Some. by eapply inv_inj.
  - split; simpl; [| by apply Hcounts | | apply HI].
    + intros j b q Hj. pc_cases; [done|]. by eapply inv_current.
    + intros b q Hb. destruct (inv_live s HI _ _ Hb) as (e' & He' & ?).
      unfold heap'. destruct (decide (p = q)) as [<-|Hpq].
      * rewrite lookup_insert_eq. eexists; split; [done|]. simpl. lia.
      * rewrite lookup_insert_ne by done. eauto.
Qed.

Lemma step_inv s s' : Inv s → step s s' → Inv s'.
Proof.
  intros HI Hstep.
  destruct Hstep as [s i Hpc|s i a Hpc Ha|s i a p t' Hpc Ht|s i a p t' Hpc Ht|s i a p Hpc|s i Hpc].
  - by apply move_unref_inv; rewrite ?Hpc.
  - by apply lock_lookup_inv.
  - unfold entry_lock in Ht. destruct (t_heap (st_table s) !! p) as [e|] eqn:He; [|done].
    simpl in Ht. destruct (e_locked e) eqn:Hl; [done|]. injection Ht as <-.
    eapply (move_mutex_inv s i _ a p e true); rewrite ?Hpc, ?Hl; try done.
    simpl. by rewrite bool_decide_eq_true_2.
  - unfold entry_unlock in Ht. destruct (t_heap (st_table s) !! p) as [e|] eqn:He; [|done].
    simpl in Ht. destruct (e_locked e) eqn:Hl; [|done]. injection Ht as <-.
    eapply (move_mutex_inv s i _ a p e false); rewrite ?Hpc, ?Hl; try done.
    simpl. by rewrite bool_decide_eq_true_2.
  - by apply unlock_table_inv.
  - by apply move_unref_inv; rewrite ?Hpc.
Qed.

Lemma reachable_inv s : reachable s → Inv s.
Proof. intros. eapply (star_invariant step Inv); eauto using step_inv, init_inv. Qed.

Lemma pc_of_lookup s i c : pc_of s i = c → c ≠ Outside → st_pcs s !! i = Some c.
Proof. unfold pc_of. destruct (st_pcs s !! i); simpl; congruence. Qed.

(** A run used by the witnesses: goroutine 1 holds ["a"], goroutine 2 waits
    behind it and goroutine 3 is in the critical section of ["b"]. *)
Definition demo : State :=
  let (t1, p) := lock_lookup NewTable "a" in
  let t2 := default t1 (entry_lock t1 p) in
  let (t3, _) := lock_lookup t2 "a" in
  let (t4, q) := lock_lookup t3 "b" in
  let t5 := default t4 (entry_lock t4 q) in
  MkState t5 (<[3%positive := Holding "b" q]> (<[3%positive := Waiting "b" q]>
    (<[2%positive := Waiting "a" p]> (<[1%positive := Holding "a" p]>
      (<[1%positive := Waiting "a" p]> ∅))))).

Lemma demo_reachable : reachable demo.
Proof.
  eapply star_step; [by apply (step_lock_lookup _ 1%positive "a")|].
  eapply star_step; [by eapply (step_entry_lock _ 1%positive "a")|].
  eapply star_step; [by apply (step_lock_lookup _ 2%positive "a")|].
  eapply star_step; [by apply (step_lock_lookup _ 3%positive "b")|].
  eapply star_step; [by eapply (step_entry_lock _ 3%positive "b")|].
  apply star_refl.
Qed.

(** One holder of a given actor's lock. *)
Lemma holder_unique s i j a p q : Inv s → pc_of s i = Holding a p → pc_of s j = Holding a q → i = j.
Proof.
  intros HI Hi Hj.
  assert (t_locks (st_table s) !! a = Some p) as Hp by (apply (inv_current s HI i); by rewrite Hi).
  assert (t_locks (st_table s) !! a = Some q) as Hq by (apply (inv_current s HI j); by rewrite Hj).
  assert (q = p) as -> by congruence.
  destruct (inv_live s HI a p Hp) as (e & He & _).
  destruct (inv_counts s HI p e He) as [_ Hlock].
  destruct (decide (i = j)) as [|Hij]; [done|].
  assert (2 ≤ count (holds p) (st_pcs s)); [|destruct (e_locked e); lia].
  eapply count_two; eauto using pc_of_lookup;
    try (eapply pc_of_lookup; done); simpl; by rewrite bool_decide_eq_true_2.
Qed.

(** mutual exclusion per actor.  In every reachable interleaving of [Lock]
    and unlock steps, two goroutines are never both inside the critical section
    of one actor, also when entries are evicted and created again. *)
Theorem mutual_exclusion s i j a p q :
  reachable s → pc_of s i = Holding a p → pc_of s j = Holding a q → i = j.
Proof. intros HI%reachable_inv Hi Hj. by eapply holder_unique. Qed.

Lemma mutual_exclusion_witness :
  ∃ p, pc_of demo 1%positive = Holding "a" p ∧ 1%positive = 1%positive.
Proof.
  eexists; split; [vm_compute; reflexivity|].
  eapply (mutual_exclusion demo); [apply demo_reachable|vm_compute; reflexivity..].
Defined.

(** no leak.  An actor has an entry in the table exactly while some
    goroutine holds, waits for, or is releasing its lock; so a table all of
    whose goroutines have unlocked is empty. *)
Theorem table_exact s :
  reachable s →
  (∀ a, is_Some (t_locks (st_table s) !! a) ↔ ∃ i p, pc_entry (pc_of s i) = Some (a, p)) ∧
  ((∀ i, pc_entry (pc_of s i) = None) → Len (st_table s) = 0).
Proof.
  intros HI%reachable_inv.
  assert (∀ a, is_Some (t_locks (st_table s) !! a) →
            ∃ i p, pc_entry (pc_of s i) = Some (a, p)) as Hlive.
  { intros a [p Hp]. destruct (inv_live s HI a p Hp) as (e & He & Hpos).
    destruct (inv_counts s HI p e He) as [Hrefs _].
    destruct (count_zero_inv (uses p) (st_pcs s)) as (i & c & Hi & Hu); [lia|].
    apply uses_spec in Hu as [b Hb].
    assert (pc_entry (pc_of s i) = Some (b, p)) as Hpc by (unfold pc_of; by rewrite Hi).
    pose proof (inv_current s HI i b p Hpc).
    assert (a = b) as -> by (by eapply inv_inj). eauto. }
  split.
  - intros a; split; [apply Hlive|]. intros (i & p & Hpc). exists p. by eapply inv_current.
  - intros Hidle. unfold Len. apply map_size_empty_iff, map_eq. intros a.
    rewrite lookup_empty. destruct (t_locks (st_table s) !! a) as [p0|] eqn:Ha; [|done].
    destruct (Hlive a) as (i & p & Hpc); [by rewrite Ha|]. by rewrite Hidle in Hpc.
Qed.

Lemma table_exact_witness :
  reachable demo ∧ ((∀ i, pc_entry (pc_of demo i) = None) → Len (st_table demo) = 0).
Proof.
  split; [apply demo_reachable|]. apply (table_exact demo). apply demo_reachable.
Defined.

(** no panic and no deadlock.  A goroutine that holds an entry can always
    release it (the runtime never sees an unlock of an unlocked mutex), and one
    that waits can take the entry or waits for a goroutine that can release it. *)
Theorem lock_progress s i a p :
  reachable s →
  (pc_of s i = Holding a p → is_Some (entry_unlock (st_table s) p)) ∧
  (pc_of s i = Waiting a p →
     is_Some (entry_lock (st_table s) p) ∨
     ∃ j, i ≠ j ∧ pc_of s j = Holding a p ∧ is_Some (entry_unlock (st_table s) p)).
Proof.
  intros HI%reachable_inv.
  assert (pc_entry (pc_of s i) = Some (a, p) → ∃ e, t_heap (st_table s) !! p = Some e ∧
     (if e_locked e then 1 else 0) = count (holds p) (st_pcs s)) as Hentry.
  { intros Hpc. pose proof (inv_current s HI i a p Hpc) as Ha.
    destruct (inv_live s HI a p Ha) as (e & He & _).
    destruct (inv_counts s HI p e He). eauto. }
  split; intros Hpc; destruct Hentry as (e & He & Hcnt); try (by rewrite Hpc).
  - unfold entry_unlock. rewrite He. simpl.
    assert (0 < count (holds p) (st_pcs s)).
    { eapply count_pos; [by eapply pc_of_lookup|]. simpl. by rewrite bool_decide_eq_true_2. }
    destruct (e_locked e); [eauto|lia].
  - unfold entry_lock, entry_unlock. rewrite He. simpl.
    destruct (e_locked e) eqn:Hl; [|eauto]. right.
    destruct (count_zero_inv (holds p) (st_pcs s)) as (j & c & Hj & Hh); [lia|].
    destruct c as [| |b q| |]; try done. simpl in Hh. apply bool_decide_eq_true_1 in Hh as ->.
    assert (pc_of s j = Holding b p) as Hpj by (unfold pc_of; by rewrite Hj).
    assert (a = b) as ->.
    { eapply (inv_inj s HI).
      - eapply (inv_current s HI i). by rewrite Hpc.
      - eapply (inv_current s HI j). by rewrite Hpj. }
    exists j. split; [congruence|]. eauto.
Qed.

Lemma lock_progress_witness :
  ∃ p, pc_of demo 2%positive = Waiting "a" p ∧
    (is_Some (entry_lock (st_table demo) p) ∨
     ∃ j, 2%positive ≠ j ∧ pc_of demo j = Holding "a" p ∧
          is_Some (entry_unlock (st_table demo) p)).
Proof.
  eexists; split; [vm_compute; reflexivity|].
  apply (lock_progress demo 2%positive "a"); [apply demo_reachable|vm_compute; reflexivity].
Defined.

End ActorLock.
