(* ===== verification/Bytes.v ===== *)
(** Byte strings as the Go code handles them: [binary.BigEndian] reads and
    writes of fixed-width unsigned integers, the conversions between [string]
    and [[]byte], slices [b[i:j]], and [ReadAt]. *)
From Stdlib Require Export Strings.Byte.
From S2P Require Export Prelude.

Abbreviation bytes := (list byte).

#[export] Instance byte_eq_dec : EqDecision byte.
Proof. intros x y. apply Byte.byte_eq_dec. Defined.

Open Scope Z_scope.

Definition Z_of_byte (b : byte) : Z := Z.of_N (Byte.to_N b).
Definition byte_of_Z (z : Z) : byte :=
  match Byte.of_N (Z.to_N (u8 z)) with Some b => b | None => x00 end.

(** [binary.BigEndian.PutUint{8n}]: the low [n] bytes, most significant first. *)
Fixpoint put_be (n : nat) (z : Z) : bytes :=
  match n with
  | O => []
  | S m => byte_of_Z (z / 2 ^ (8 * Z.of_nat m)) :: put_be m z
  end.

(** [binary.BigEndian.Uint{8n}] *)
Fixpoint get_be (bs : bytes) : Z :=
  match bs with
  | [] => 0
  | b :: r => Z_of_byte b * 2 ^ (8 * Z.of_nat (length r)) + get_be r
  end.

(** [b[i:j]] for [i <= j <= len(b)]. *)
Definition slice (b : bytes) (i j : nat) : bytes := take (j - i) (drop i b).

Lemma Z_of_byte_range b : 0 <= Z_of_byte b < 256.
Proof. unfold Z_of_byte. pose proof (Byte.to_N_bounded b). lia. Qed.

Lemma Z_of_byte_of_Z z : Z_of_byte (byte_of_Z z) = u8 z.
Proof.
  unfold Z_of_byte, byte_of_Z.
  assert (0 <= u8 z < 256) by (unfold u8; apply (Z.mod_pos_bound z 256); lia).
  destruct (Byte.of_N (Z.to_N (u8 z))) as [b|] eqn:Hb.
  - apply Byte.to_of_N in Hb. rewrite Hb. lia.
  - apply Byte.of_N_None_iff in Hb. lia.
Qed.

Lemma byte_of_Z_u8 a b : u8 a = u8 b → byte_of_Z a = byte_of_Z b.
Proof. unfold byte_of_Z. by intros ->. Qed.

Lemma byte_of_Z_of_byte b : byte_of_Z (Z_of_byte b) = b.
Proof.
  unfold byte_of_Z, u8. rewrite Z.mod_small by apply Z_of_byte_range.
  unfold Z_of_byte. rewrite N2Z.id. by rewrite Byte.of_to_N.
Qed.

Lemma length_put_be n z : length (put_be n z) = n.
Proof. induction n; simpl; congruence. Qed.

Lemma get_be_range bs : 0 <= get_be bs < 2 ^ (8 * Z.of_nat (length bs)).
Proof.
  induction bs as [|b r IH]; simpl; [lia|].
  pose proof (Z_of_byte_range b).
  replace (8 * Z.of_nat (S (length r))) with (8 + 8 * Z.of_nat (length r)) by lia.
  rewrite Z.pow_add_r by lia.
  set (p := 2 ^ (8 * Z.of_nat (length r))) in *. change (2 ^ 8) with 256. nia.
Qed.

Lemma get_put_be_mod n z : get_be (put_be n z) = z mod 2 ^ (8 * Z.of_nat n).
Proof.
  induction n as [|n IH]; simpl; [by rewrite Z.mod_1_r|].
  rewrite length_put_be, Z_of_byte_of_Z, IH. unfold u8. change (2 ^ 8) with 256.
  replace (8 * Z.of_nat (S n)) with (8 * Z.of_nat n + 8) by lia.
  rewrite Z.pow_add_r by lia. change (2 ^ 8) with 256.
  assert (0 < 2 ^ (8 * Z.of_nat n)) by (apply Z.pow_pos_nonneg; lia).
  rewrite Z.rem_mul_r by lia. lia.
Qed.

(** Reading back what was written, for a value of the width. *)
Lemma get_put_be n z : 0 <= z < 2 ^ (8 * Z.of_nat n) → get_be (put_be n z) = z.
Proof. intros. rewrite get_put_be_mod. by apply Z.mod_small. Qed.

Lemma put_be_mod n z : put_be n (z mod 2 ^ (8 * Z.of_nat n)) = put_be n z.
Proof.
  assert (∀ m k, (m <= k)%nat → put_be m (z mod 2 ^ (8 * Z.of_nat k)) = put_be m z) as H.
  { intros m k. induction m as [|m IH]; simpl; intros Hk; [done|].
    rewrite IH by lia. f_equal. apply byte_of_Z_u8. unfold u8.
    replace (8 * Z.of_nat k) with (8 * Z.of_nat m + 8 * (Z.of_nat k - Z.of_nat m)) by lia.
    rewrite Z.pow_add_r by lia.
    set (p := 2 ^ (8 * Z.of_nat m)). set (q := 2 ^ (8 * (Z.of_nat k - Z.of_nat m))).
    assert (0 < p) by (apply Z.pow_pos_nonneg; lia).
    assert (0 < q) by (apply Z.pow_pos_nonneg; lia).
    rewrite Z.rem_mul_r by lia. rewrite Z.mul_comm, Z.div_add by lia.
    rewrite (Z.div_small (z mod p)), Z.add_0_l by (apply Z.mod_pos_bound; lia).
    apply Z.mod_mod_divide.
    exists (2 ^ (8 * (Z.of_nat k - Z.of_nat m) - 8)). unfold q.
    rewrite <- Z.pow_add_r by lia. f_equal. lia. }
  by apply H.
Qed.

Lemma put_get_be bs : put_be (length bs) (get_be bs) = bs.
Proof.
  induction bs as [|b r IH]; simpl; [done|].
  assert (0 < 2 ^ (8 * Z.of_nat (length r))) by (apply Z.pow_pos_nonneg; lia).
  pose proof (get_be_range r). f_equal.
  - rewrite Z.div_add_l, (Z.div_small (get_be r)) by lia.
    rewrite Z.add_0_r. apply byte_of_Z_of_byte.
  - rewrite <- put_be_mod, Z.add_comm, Z.mod_add by lia.
    by rewrite Z.mod_small.
Qed.

Close Scope Z_scope.

(** ** Strings *)

Definition str_bytes (s : string) : bytes := String.list_byte_of_string s.
Definition bytes_str (b : bytes) : string := String.string_of_list_byte b.

Lemma bytes_str_bytes s : bytes_str (str_bytes s) = s.
Proof. apply String.string_of_list_byte_of_string. Qed.
Lemma str_bytes_str b : str_bytes (bytes_str b) = b.
Proof. apply String.list_byte_of_string_of_list_byte. Qed.

(** Go's [len] of a string. *)
Definition str_len (s : string) : nat := length (str_bytes s).

Lemma str_bytes_inj s t : str_bytes s = str_bytes t → s = t.
Proof. intros H. by rewrite <- (bytes_str_bytes s), H, bytes_str_bytes. Qed.

Lemma str_len_0 s : str_len s = 0 ↔ s = EmptyString.
Proof.
  split; [|by intros ->]. intros H%nil_length_inv. by apply str_bytes_inj.
Qed.

(** ** Slices *)

Lemma slice_app_r (pre b : bytes) i j :
  slice (pre ++ b) (length pre + i) (length pre + j) = slice b i j.
Proof.
  unfold slice. rewrite drop_app_add. f_equal. lia.
Qed.

Lemma slice_full (b : bytes) : slice b 0 (length b) = b.
Proof. unfold slice. rewrite drop_0, Nat.sub_0_r. by apply firstn_all. Qed.

Lemma slice_prefix (a b : bytes) n : n = length a → slice (a ++ b) 0 n = a.
Proof. intros ->. unfold slice. by rewrite drop_0, Nat.sub_0_r, take_app_length. Qed.

Lemma slice_mid (a b c : bytes) i j :
  i = length a → j = i + length b → slice (a ++ b ++ c) i j = b.
Proof.
  intros -> ->. unfold slice. rewrite drop_app_length.
  rewrite Nat.add_comm, Nat.add_sub. by rewrite take_app_length.
Qed.

Lemma length_slice (b : bytes) i j : j <= length b → length (slice b i j) = j - i.
Proof. intros. unfold slice. rewrite length_take, length_drop. lia. Qed.

Lemma drop_slice (b : bytes) i j : i <= j → j <= length b →
  drop i b = slice b i j ++ drop j b.
Proof.
  intros. unfold slice. rewrite <- (take_drop (j - i) (drop i b)) at 1.
  f_equal. rewrite drop_drop. f_equal. lia.
Qed.

(** [f.ReadAt(p, off)] with [len(p) = n]: what is there, and whether all of
    [p] was filled ([io.EOF] otherwise). *)
Definition read_at (data : bytes) (off n : nat) : bytes * bool :=
  let got := take n (drop off data) in (got, bool_decide (length got = n)).

Lemma read_at_slice data off n :
  off + n <= length data → read_at data off n = (slice data off (off + n), true).
Proof.
  intros H. unfold read_at, slice. replace (off + n - off) with n by lia.
  rewrite bool_decide_eq_true_2; [done|]. rewrite length_take, length_drop. lia.
Qed.

Lemma slice_skip (a b : bytes) i j :
  length a <= i → slice (a ++ b) i j = slice b (i - length a) (j - length a).
Proof.
  intros H. unfold slice. rewrite drop_app_ge by done. f_equal. lia.
Qed.

Lemma slice_app_l (a b : bytes) i j :
  j <= length a → slice (a ++ b) i j = slice a i j.
Proof.
  intros H. unfold slice. destruct (decide (i <= length a)).
  - rewrite drop_app_le by done. rewrite take_app_le; [done|]. rewrite length_drop. lia.
  - replace (j - i) with 0 by lia. by rewrite !take_0.
Qed.

Lemma slice_slice (b : bytes) m n i j :
  m + j <= n → slice (slice b m n) i j = slice b (m + i) (m + j).
Proof.
  intros H. unfold slice. rewrite skipn_firstn_comm, take_take, drop_drop.
  f_equal. lia.
Qed.

Lemma slice_all (b : bytes) n : n = length b → slice b 0 n = b.
Proof. intros ->. apply slice_full. Qed.

(** Select a field of a concatenation of fixed-width fields. *)
Ltac field :=
  repeat (rewrite slice_skip by (rewrite ?length_put_be; lia);
          rewrite ?length_put_be; cbn [Nat.sub]);
  first [ rewrite slice_prefix by (by rewrite ?length_put_be)
        | rewrite slice_all by (by rewrite ?length_put_be) ].

(** ** [bytes.TrimSpace] *)

(** The UTF-8 encodings of the Unicode spaces. *)
Definition spaces : list bytes :=
  [[x09]; [x0a]; [x0b]; [x0c]; [x0d]; [x20]; [xc2; x85]; [xc2; xa0]; [xe1; x9a; x80]] ++
  map (λ b, [xe2; x80; b]) [x80; x81; x82; x83; x84; x85; x86; x87; x88; x89; x8a; xa8; xa9; xaf] ++
  [[xe2; x81; x9f]; [xe3; x80; x80]].
Fixpoint trim_left (fuel : nat) (pats : list bytes) (b : bytes) : bytes :=
  match fuel with
  | O => b
  | S fuel =>
      match List.find (λ p, bool_decide (take (length p) b = p)) pats with
      | Some p => trim_left fuel pats (drop (length p) b)
      | None => b
      end
  end.
Definition trim_space (b : bytes) : bytes :=
  let b := trim_left (length b) spaces b in
  rev (trim_left (length b) (map (@rev byte) spaces) (rev b)).

(** Text between two bytes that are part of no space is left as it is. *)
Lemma trim_left_head fuel pats b l :
  forallb (λ p, match p with [] => false | x :: _ => negb (bool_decide (x = b)) end) pats = true →
  trim_left fuel pats (b :: l) = b :: l.
Proof.
  intros Hp. destruct fuel; [done|]. cbn. destruct (List.find _ pats) as [p|] eqn:Hf; [|done].
  apply List.find_some in Hf as [Hin Hd%bool_decide_eq_true]. rewrite forallb_forall in Hp. specialize (Hp p Hin).
  destruct p as [|x p]; [done|]. cbn in Hd. injection Hd as -> _. by rewrite bool_decide_eq_true_2 in Hp.
Qed.
Lemma trim_brackets l : trim_space ([x5b] ++ l ++ [x5d]) = [x5b] ++ l ++ [x5d].
Proof.
  unfold trim_space. cbn [app]. rewrite (trim_left_head _ spaces) by done.
  change (rev (x5b :: l ++ [x5d])) with (rev (l ++ [x5d]) ++ [x5b]). rewrite rev_app_distr. cbn [rev app].
  rewrite (trim_left_head _ (map _ spaces)) by done. cbn [rev]. by rewrite rev_app_distr, rev_involutive.
Qed.
