(* ===== verification/Checksum.v ===== *)
(** Record checksums: [internal/logstore/checksum.go].

    [hash/crc32] is modelled bit by bit (reflected CRC-32, polynomial as an
    argument).  [klauspost/crc32] and [zeebo/xxh3] are third-party packages:
    the class [ChecksumLib] lists what the code relies on.  The theorem is that
    the chunked readers compute the one-shot checksum. *)
From S2P Require Import Prelude Bytes.

Open Scope Z_scope.

(** ** hash/crc32 *)

Definition mask32 : Z := 2 ^ 32 - 1.
Definition poly_IEEE : Z := 0xedb88320.
Definition poly_Castagnoli : Z := 0x82f63b78.

Definition crc_bit (poly c : Z) : Z :=
  if Z.odd c then Z.lxor (Z.shiftr c 1) poly else Z.shiftr c 1.
Definition crc_byte (poly c : Z) (b : byte) : Z :=
  Nat.iter 8 (crc_bit poly) (Z.lxor c (Z_of_byte b)).
(** [crc32.Update] with the table of [poly]; [crc32.Checksum] starts at 0. *)
Definition crc32_update (poly crc : Z) (data : bytes) : Z :=
  Z.lxor (fold_left (crc_byte poly) data (Z.lxor crc mask32)) mask32.

(** The check value of CRC-32/ISO-HDLC on ["123456789"]. *)
Example crc32_check : crc32_update poly_IEEE 0 (str_bytes "123456789") = 0xcbf43926.
Proof. vm_compute. reflexivity. Qed.
Example crc32c_check : crc32_update poly_Castagnoli 0 (str_bytes "123456789") = 0xe3069283.
Proof. vm_compute. reflexivity. Qed.

Lemma lxor_range a b n : 0 <= n → 0 <= a < 2 ^ n → 0 <= b < 2 ^ n → 0 <= Z.lxor a b < 2 ^ n.
Proof.
  intros Hn Ha Hb.
  assert (Z.lxor a b = Z.lxor a b mod 2 ^ n) as ->; [|apply Z.mod_pos_bound; lia].
  rewrite <- (Z.mod_small a (2 ^ n)), <- (Z.mod_small b (2 ^ n)) by lia.
  apply Z.bits_inj'. intros i Hi.
  destruct (Z.ltb_spec i n) as [Hin|Hin].
  - by rewrite Z.mod_pow2_bits_low by lia.
  - rewrite Z.mod_pow2_bits_high by lia.
    by rewrite Z.lxor_spec, !Z.mod_pow2_bits_high by lia.
Qed.

Lemma shiftr1_range c : in_u32 c → in_u32 (Z.shiftr c 1).
Proof.
  unfold in_u32. intros. rewrite Z.shiftr_div_pow2 by lia. change (2 ^ 1) with 2.
  split; [apply Z.div_pos; lia|]. apply Z.div_lt_upper_bound; lia.
Qed.

Lemma crc_byte_range poly c b : in_u32 poly → in_u32 c → in_u32 (crc_byte poly c b).
Proof.
  intros Hp Hc. unfold crc_byte.
  apply Nat.iter_invariant.
  - intros d Hd. unfold crc_bit. destruct (Z.odd d); [|by apply shiftr1_range].
    apply lxor_range; [lia|by apply shiftr1_range|done].
  - apply lxor_range; [lia|done|]. pose proof (Z_of_byte_range b). lia.
Qed.

Lemma crc32_update_range poly crc data :
  in_u32 poly → in_u32 crc → in_u32 (crc32_update poly crc data).
Proof.
  intros Hp Hc. unfold crc32_update.
  assert (in_u32 mask32) as Hm by (unfold in_u32, mask32; lia).
  apply lxor_range; [lia| |done].
  assert (in_u32 (Z.lxor crc mask32)) as Hs by (by apply lxor_range).
  revert Hs. generalize (Z.lxor crc mask32) as c.
  induction data as [|b data IH]; intros c Hs; simpl; [done|].
  by apply IH, crc_byte_range.
Qed.

(** Folding two pieces one after the other is folding their concatenation. *)
Lemma crc32_update_app poly crc d1 d2 :
  crc32_update poly (crc32_update poly crc d1) d2 = crc32_update poly crc (d1 ++ d2).
Proof.
  unfold crc32_update. rewrite fold_left_app, Z.lxor_assoc, Z.lxor_nilpotent.
  by rewrite Z.lxor_0_r.
Qed.

Lemma crc32_update_nil poly crc : crc32_update poly crc [] = crc.
Proof. unfold crc32_update. simpl. by rewrite Z.lxor_assoc, Z.lxor_nilpotent, Z.lxor_0_r. Qed.

(** ** Third-party checksums *)

Class ChecksumLib := {
  (** [kpcrc32.Update(crc, checksumCRC32CTable, data)] *)
  kpcrc32_update : Z → bytes → Z;
  (** [xxh3.Hash(data)] *)
  xxh3_Hash : bytes → Z;
  (** a [uint32] result *)
  kpcrc32_range : ∀ crc data, in_u32 crc → in_u32 (kpcrc32_update crc data);
  (** "Update returns the result of adding the bytes in p to the crc." *)
  kpcrc32_app : ∀ crc d1 d2,
    kpcrc32_update (kpcrc32_update crc d1) d2 = kpcrc32_update crc (d1 ++ d2);
  kpcrc32_nil : ∀ crc, kpcrc32_update crc [] = crc
}.

(** The laws are those of CRC-32C itself. *)
Lemma castagnoli_range crc data :
  in_u32 crc → in_u32 (crc32_update poly_Castagnoli crc data).
Proof. apply crc32_update_range. unfold in_u32, poly_Castagnoli. lia. Qed.

Definition castagnoli_lib : ChecksumLib := {|
  kpcrc32_update := crc32_update poly_Castagnoli;
  xxh3_Hash data := u64 (fold_left (λ h b, h * 31 + Z_of_byte b) data 7);
  kpcrc32_range := castagnoli_range;
  kpcrc32_app := crc32_update_app poly_Castagnoli;
  kpcrc32_nil := crc32_update_nil poly_Castagnoli
|}.

(** ** checksum.go *)

Abbreviation ChecksumType := Z.
Definition ChecksumTypeIEEE : ChecksumType := 1.
Definition ChecksumTypeCRC32C : ChecksumType := 2.
Definition ChecksumTypeXXH3 : ChecksumType := 3.
Definition ChecksumTypeNone : ChecksumType := 4.

Definition checksumChunkSize : nat := Z.to_nat (64 * 1024).
Lemma chunk_size_pos : (0 < checksumChunkSize)%nat.
Proof. unfold checksumChunkSize. lia. Qed.
#[global] Opaque checksumChunkSize.

Inductive checksum_error := ErrUnsupportedChecksum.

Definition checksum_String (typ : ChecksumType) : string :=
  if typ =? ChecksumTypeIEEE then "IEEE"
  else if typ =? ChecksumTypeCRC32C then "CRC32C"
  else if typ =? ChecksumTypeXXH3 then "XXH3"
  else if typ =? ChecksumTypeNone then "None"
  else "Unknown".

Definition validateChecksumType (typ : ChecksumType) : result checksum_error unit :=
  if (typ =? ChecksumTypeIEEE) || (typ =? ChecksumTypeCRC32C)
     || (typ =? ChecksumTypeXXH3) || (typ =? ChecksumTypeNone)
  then Ok tt else Err ErrUnsupportedChecksum.

Section Checksum.
Context `{ChecksumLib}.

Definition checksumOnce (data : bytes) (typ : ChecksumType) : result checksum_error Z :=
  if typ =? ChecksumTypeIEEE then Ok (crc32_update poly_IEEE 0 data)
  else if typ =? ChecksumTypeCRC32C then Ok (kpcrc32_update 0 data)
  else if typ =? ChecksumTypeXXH3 then Ok (u32 (xxh3_Hash data))
  else if typ =? ChecksumTypeNone then Ok 0
  else Err ErrUnsupportedChecksum.

Definition checksum := checksumOnce.

(** [for start := 0; start < len(data); start += checksumChunkSize]; every
    round consumes a byte, so [length data] rounds are enough. *)
Fixpoint chunk_loop (size : nat) (update : Z → bytes → Z) (fuel : nat) (crc : Z)
    (data : bytes) : Z :=
  match fuel with
  | O => crc
  | S fuel =>
      match data with
      | [] => crc
      | _ => chunk_loop size update fuel (update crc (take size data)) (drop size data)
      end
  end.

Definition checksumChunked (data : bytes) (typ : ChecksumType) : result checksum_error Z :=
  if typ =? ChecksumTypeIEEE then Ok (chunk_loop checksumChunkSize (crc32_update poly_IEEE) (length data) 0 data)
  else if typ =? ChecksumTypeCRC32C then Ok (chunk_loop checksumChunkSize kpcrc32_update (length data) 0 data)
  else if typ =? ChecksumTypeXXH3 then Ok (u32 (xxh3_Hash data))
  else if typ =? ChecksumTypeNone then Ok 0
  else Err ErrUnsupportedChecksum.

Definition verifyChecksum (data : bytes) (typ : ChecksumType) (expected : Z) : bool :=
  match checksum data typ with Ok actual => actual =? expected | Err _ => false end.

(** [checksumAccumulator] *)
Record checksumAccumulator := { acc_typ : ChecksumType; acc_crc : Z }.

Definition newChecksumAccumulator (typ : ChecksumType) : checksumAccumulator :=
  {| acc_typ := typ; acc_crc := 0 |}.

Definition acc_update (a : checksumAccumulator) (data : bytes) :
    result checksum_error checksumAccumulator :=
  if acc_typ a =? ChecksumTypeIEEE then
    Ok {| acc_typ := acc_typ a; acc_crc := crc32_update poly_IEEE (acc_crc a) data |}
  else if acc_typ a =? ChecksumTypeCRC32C then
    Ok {| acc_typ := acc_typ a; acc_crc := kpcrc32_update (acc_crc a) data |}
  else if (acc_typ a =? ChecksumTypeXXH3) || (acc_typ a =? ChecksumTypeNone) then Ok a
  else Err ErrUnsupportedChecksum.

Definition acc_sum (a : checksumAccumulator) : result checksum_error Z :=
  if (acc_typ a =? ChecksumTypeIEEE) || (acc_typ a =? ChecksumTypeCRC32C)
  then Ok (acc_crc a) else Err ErrUnsupportedChecksum.

(** ** Facts *)

Lemma chunk_loop_once size update fuel crc data :
  (0 < size)%nat →
  (∀ c d1 d2, update (update c d1) d2 = update c (d1 ++ d2)) →
  (∀ c, update c [] = c) →
  (length data <= fuel)%nat → chunk_loop size update fuel crc data = update crc data.
Proof.
  intros Hsize Happ Hnil. revert crc data.
  induction fuel as [|fuel IH]; intros crc data Hlen.
  - destruct data; simpl in *; [by rewrite Hnil|lia].
  - destruct data as [|b data]; [by rewrite Hnil|]. cbn [chunk_loop].
    rewrite IH, Happ, take_drop; [done|].
    rewrite length_drop. simpl in *. lia.
Qed.

Lemma checksumOnce_range data typ c : checksumOnce data typ = Ok c → in_u32 c.
Proof.
  unfold checksumOnce. intros Hc. repeat case_match; simplify_eq.
  - apply crc32_update_range; unfold in_u32, poly_IEEE; lia.
  - apply kpcrc32_range. unfold in_u32; lia.
  - apply u32_range.
  - unfold in_u32; lia.
Qed.

Lemma validate_checksum_total data typ :
  validateChecksumType typ = Ok tt → ∃ c, checksumOnce data typ = Ok c.
Proof.
  unfold validateChecksumType, checksumOnce. intros Hv.
  destruct (typ =? ChecksumTypeIEEE); [eauto|].
  destruct (typ =? ChecksumTypeCRC32C); [eauto|].
  destruct (typ =? ChecksumTypeXXH3); [eauto|].
  destruct (typ =? ChecksumTypeNone); [eauto|done].
Qed.

Lemma verify_own_checksum data typ c :
  checksum data typ = Ok c → verifyChecksum data typ c = true.
Proof. unfold verifyChecksum. intros ->. apply Z.eqb_refl. Qed.

(** The chunked checksum is the one-shot checksum for every algorithm and
    every input, including the rejection of unknown algorithms. *)
Theorem checksumChunked_once data typ : checksumChunked data typ = checksumOnce data typ.
Proof.
  unfold checksumChunked, checksumOnce. repeat case_match; try done; f_equal.
  - by apply chunk_loop_once; auto using chunk_size_pos, crc32_update_app, crc32_update_nil.
  - by apply chunk_loop_once; auto using chunk_size_pos, kpcrc32_app, kpcrc32_nil.
Qed.
End Checksum.
Close Scope Z_scope.
