(* ===== verification/LogRecord.v ===== *)
(** The record shape shared by raw log readers: [internal/logrecord/record.go],
    and the protobuf message it is converted from and to. *)
From S2P Require Import Prelude Bytes.

Open Scope Z_scope.

(** [logservepb.LogRecord] *)
Record ProtoLogRecord := {
  pb_StreamId : string;
  pb_Seq : Z;
  pb_EventType : string;
  pb_IdempotencyKey : string;
  pb_Payload : bytes;
  pb_TimestampMs : Z;
  pb_Crc32 : Z
}.

(** [logrecord.RawRecord] *)
Record RawRecord := {
  raw_StreamID : string;
  raw_Seq : Z;
  raw_EventType : string;
  raw_IdempotencyKey : string;
  raw_Payload : bytes;
  raw_TimestampMs : Z;
  raw_CRC32 : Z
}.

Definition zero_RawRecord : RawRecord :=
  {| raw_StreamID := ""; raw_Seq := 0; raw_EventType := ""; raw_IdempotencyKey := "";
     raw_Payload := []; raw_TimestampMs := 0; raw_CRC32 := 0 |}.

(** A nil message is [None]; the generated getters return zero values on it. *)
Definition FromProto (rec : option ProtoLogRecord) : RawRecord :=
  match rec with
  | None => zero_RawRecord
  | Some r =>
      {| raw_StreamID := pb_StreamId r; raw_Seq := pb_Seq r;
         raw_EventType := pb_EventType r; raw_IdempotencyKey := pb_IdempotencyKey r;
         raw_Payload := pb_Payload r; raw_TimestampMs := pb_TimestampMs r;
         raw_CRC32 := pb_Crc32 r |}
  end.

Definition ToProto (rec : RawRecord) : ProtoLogRecord :=
  {| pb_StreamId := raw_StreamID rec; pb_Seq := raw_Seq rec;
     pb_EventType := raw_EventType rec; pb_IdempotencyKey := raw_IdempotencyKey rec;
     pb_Payload := raw_Payload rec; pb_TimestampMs := raw_TimestampMs rec;
     pb_Crc32 := raw_CRC32 rec |}.

Lemma FromProto_ToProto r : FromProto (Some (ToProto r)) = r.
Proof. by destruct r. Qed.
Close Scope Z_scope.
