(* ===== verification/RecordCodec.v ===== *)
(** The binary record format of the log: [encodeRecordWithBuffer],
    [encodedRecordSize], the two decoders and [readBodyVerifiedIO] of
    [internal/logstore/store.go], on the readers of
    [internal/logstore/segment_reader.go].

    A segment file is its bytes; reads of an open file do not fail (a failing
    disk read is not modelled).  Theorems: the encoder and both decoders are
    inverse at any offset, the mmap and the ReadAt decoder accept the same
    records, and a torn record is never accepted. *)
From S2P Require Import Prelude Bytes Checksum LogRecord.

Open Scope Z_scope.

(** The errors of the log store. *)
Inductive log_error :=
| ErrEOF
| ErrCorruptRecord
| ErrCorruptIndex
| ErrStreamIDTooLarge
| ErrEventTypeTooLarge
| ErrIdempotencyKeyTooLarge
| ErrChecksumType
| ErrStreamIDRequired
| ErrEventTypeRequired
| ErrEmitRequired
| ErrBeforeSeqRequired
| ErrStreamNotFound (streamID : string)
| ErrRecordTooLarge
| ErrTooManyStreams
| ErrClosed
| ErrNoSegment
| ErrIO
| ErrJSON
| ErrIncompleteCompaction (newID oldID : Z)
| ErrActiveReaders (segmentID : Z)
| ErrCompactionOptions
| ErrCanceled.

#[export] Instance log_error_eq_dec : EqDecision log_error.
Proof. solve_decision. Defined.

(** [Record] (internal/logstore/record.go) *)
Record record := {
  StreamID : string;
  Seq : Z;
  EventType : string;
  IdempotencyKey : string;
  Payload : bytes;
  TimestampMs : Z;
  CRC32 : Z;
  ChecksumTyp : ChecksumType
}.

Definition magic : Z := 0x4c535647.
Definition recordVersionV1 : Z := 1.
Definition recordVersionV2 : Z := 2.
Definition version : Z := recordVersionV2.
Definition legacyHeaderSize : nat := 36.
Definition headerSize : nat := 40.
Definition maxPooledRecordEncodeBuffer : Z := 4 * 2 ^ 20.

(** ** Readers *)

Inductive SegmentReader :=
| readAtSegmentReader (file : bytes)
| mmapSegmentReader (file : bytes) (data : bytes).

Definition MmapData (r : SegmentReader) : option bytes :=
  match r with
  | readAtSegmentReader _ => None
  | mmapSegmentReader _ [] => None
  | mmapSegmentReader _ data => Some data
  end.

(** [ReadAt] into [n] bytes: the bytes read, and whether all were read.  The
    mmap reader reads nothing when the range leaves the mapping. *)
Definition ReadAt (r : SegmentReader) (off n : nat) : bytes * bool :=
  match r with
  | readAtSegmentReader file => read_at file off n
  | mmapSegmentReader file [] => read_at file off n
  | mmapSegmentReader _ data =>
      if bool_decide (length data < off + n)%nat then ([], false)
      else (slice data off (off + n), true)
  end.

(** [segmentIO.slice] *)
Definition io_slice (r : SegmentReader) (off length' : nat) : option bytes :=
  data ← MmapData r;
  if bool_decide (length data < off + length')%nat then None
  else Some (slice data off (off + length')).

(** [openSegmentReader]: mmap is used for sealed segments only, and when the
    platform maps the file. *)
Definition openSegmentReader (file : bytes) (sealed mmapRead mmapOk : bool) : SegmentReader :=
  if mmapRead && sealed && mmapOk then mmapSegmentReader file file
  else readAtSegmentReader file.

(** ** Encoding *)

Section Codec.
Context `{ChecksumLib}.

Definition default_typ (typ : ChecksumType) : ChecksumType :=
  if typ =? 0 then ChecksumTypeCRC32C else typ.

Definition record_body (rec : record) : bytes :=
  str_bytes (StreamID rec) ++ str_bytes (EventType rec) ++
  str_bytes (IdempotencyKey rec) ++ Payload rec.

Definition encodedRecordSize (rec : record) (typ : ChecksumType) : result log_error nat :=
  if 0xffff <? Z.of_nat (str_len (StreamID rec)) then Err ErrStreamIDTooLarge
  else if 0xffff <? Z.of_nat (str_len (EventType rec)) then Err ErrEventTypeTooLarge
  else if 0xffff <? Z.of_nat (str_len (IdempotencyKey rec)) then Err ErrIdempotencyKeyTooLarge
  else match validateChecksumType (default_typ typ) with
  | Err _ => Err ErrChecksumType
  | Ok _ =>
      let bodyLen := (str_len (StreamID rec) + str_len (EventType rec)
                      + str_len (IdempotencyKey rec) + length (Payload rec))%nat in
      Ok (headerSize + bodyLen)%nat
  end.

(** The first 32 header bytes. *)
Definition header_fields (rec : record) : bytes :=
  put_be 4 magic ++ put_be 2 version ++
  put_be 2 (Z.of_nat (str_len (StreamID rec))) ++
  put_be 2 (Z.of_nat (str_len (EventType rec))) ++
  put_be 2 (Z.of_nat (str_len (IdempotencyKey rec))) ++
  put_be 4 (Z.of_nat (length (Payload rec))) ++
  put_be 8 (Seq rec) ++ put_be 8 (u64 (TimestampMs rec)).

(** A reused buffer keeps its bytes 38:40, which no write touches. *)
Definition encodeRecordWithBuffer (rec : record) (typ : ChecksumType) (buf : bytes) :
    result log_error (bytes * Z) :=
  let typ := default_typ typ in
  size ← encodedRecordSize rec typ;
  let buf := if bool_decide (length buf < size)%nat then replicate size x00 else take size buf in
  let body := record_body rec in
  match checksum body typ with
  | Err _ => Err ErrChecksumType
  | Ok crc =>
      Ok (header_fields rec ++ put_be 4 crc ++ put_be 2 typ ++ slice buf 38 40 ++ body, crc)
  end.

(** [encodeRecord] *)
Definition encodeRecord (rec : record) (typ : ChecksumType) : result log_error (bytes * Z) :=
  encodeRecordWithBuffer rec typ [].

(** [pooled] is the buffer the pool hands out, at its capacity. *)
Definition getRecordEncodeBuffer (pooled : bytes) (size : nat) : bytes :=
  if maxPooledRecordEncodeBuffer <? Z.of_nat size then replicate size x00
  else if bool_decide (length pooled < size)%nat then replicate size x00
  else take size pooled.

Definition encodeRecordPooled (pooled : bytes) (rec : record) (typ : ChecksumType) :
    result log_error (bytes * Z) :=
  let typ := default_typ typ in
  size ← encodedRecordSize rec typ;
  encodeRecordWithBuffer rec typ (getRecordEncodeBuffer pooled size).

(** ** Decoding *)

(** The chunked branch of [readBodyVerifiedIO]: every round reads at least a
    byte, so [bodyLen] rounds are enough. *)
Fixpoint read_chunks (fuel : nat) (src : SegmentReader) (off remaining : nat)
    (acc : checksumAccumulator) (body : bytes) : result log_error (bytes * checksumAccumulator) :=
  match fuel with
  | O => Ok (body, acc)
  | S fuel =>
      if bool_decide (remaining = 0)%nat then Ok (body, acc)
      else
        let n := Nat.min checksumChunkSize remaining in
        let (chunk, _) := ReadAt src off n in
        if bool_decide (length chunk ≠ n) then Err ErrCorruptRecord
        else match acc_update acc chunk with
        | Err _ => Err ErrCorruptRecord
        | Ok acc => read_chunks fuel src (off + n) (remaining - n) acc (body ++ chunk)
        end
  end.

Definition readBodyVerifiedIO (src : SegmentReader) (off bodyLen : nat)
    (typ : ChecksumType) (expectedCRC : Z) : result log_error bytes :=
  match io_slice src off bodyLen with
  | Some body => if verifyChecksum body typ expectedCRC then Ok body else Err ErrCorruptRecord
  | None =>
      let useChunkedRead :=
        bool_decide (checksumChunkSize < bodyLen)%nat
        && ((typ =? ChecksumTypeIEEE) || (typ =? ChecksumTypeCRC32C)) in
      if negb useChunkedRead then
        let (body, _) := ReadAt src off bodyLen in
        if bool_decide (length body ≠ bodyLen) then Err ErrCorruptRecord
        else if verifyChecksum body typ expectedCRC then Ok body else Err ErrCorruptRecord
      else
        '(body, acc) ← read_chunks bodyLen src off bodyLen (newChecksumAccumulator typ) [];
        match acc_sum acc with
        | Err _ => Err ErrCorruptRecord
        | Ok actualCRC => if actualCRC =? expectedCRC then Ok body else Err ErrCorruptRecord
        end
  end.

(** The header fields and the body split, written out in both decoders. *)
Definition decode_record (src : SegmentReader) (off headerLen : nat) (h : bytes)
    (typ : ChecksumType) : result log_error (RawRecord * ChecksumType * nat) :=
  let streamLen := Z.to_nat (get_be (slice h 6 8)) in
  let eventLen := Z.to_nat (get_be (slice h 8 10)) in
  let keyLen := Z.to_nat (get_be (slice h 10 12)) in
  let payloadLen := Z.to_nat (get_be (slice h 12 16)) in
  let seq := get_be (slice h 16 24) in
  let timestampMs := i64 (get_be (slice h 24 32)) in
  let expectedCRC := get_be (slice h 32 36) in
  let bodyLen := (streamLen + eventLen + keyLen + payloadLen)%nat in
  body ← readBodyVerifiedIO src (off + headerLen) bodyLen typ expectedCRC;
  let p1 := streamLen in
  let p2 := (p1 + eventLen)%nat in
  let p3 := (p2 + keyLen)%nat in
  Ok ({| raw_StreamID := bytes_str (slice body 0 p1); raw_Seq := seq;
         raw_EventType := bytes_str (slice body p1 p2);
         raw_IdempotencyKey := bytes_str (slice body p2 p3);
         raw_Payload := slice body p3 (p3 + payloadLen);
         raw_TimestampMs := timestampMs; raw_CRC32 := expectedCRC |},
      typ, (off + (headerLen + bodyLen))%nat).

Definition readRawRecordFromMmap (src : SegmentReader) (off : nat) (baseHeader : bytes) :
    result log_error (RawRecord * ChecksumType * nat) :=
  if bool_decide (length baseHeader ≠ legacyHeaderSize) then Err ErrCorruptRecord
  else if negb (get_be (slice baseHeader 0 4) =? magic) then Err ErrCorruptRecord
  else
    let recordVersion := get_be (slice baseHeader 4 6) in
    if recordVersion =? recordVersionV1 then
      decode_record src off legacyHeaderSize baseHeader ChecksumTypeIEEE
    else if recordVersion =? recordVersionV2 then
      match io_slice src (off + legacyHeaderSize) (headerSize - legacyHeaderSize) with
      | None => Err ErrCorruptRecord
      | Some extension =>
          let typ := get_be (slice extension 0 2) in
          match validateChecksumType typ with
          | Err _ => Err ErrCorruptRecord
          | Ok _ => decode_record src off headerSize baseHeader typ
          end
      end
    else Err ErrCorruptRecord.

Definition readRawRecordFromReadAt (src : SegmentReader) (off : nat) :
    result log_error (RawRecord * ChecksumType * nat) :=
  let (baseHeader, full) := ReadAt src off legacyHeaderSize in
  if negb full && bool_decide (length baseHeader = 0%nat) then Err ErrEOF
  else if bool_decide (length baseHeader ≠ legacyHeaderSize) then Err ErrCorruptRecord
  else if negb (get_be (slice baseHeader 0 4) =? magic) then Err ErrCorruptRecord
  else
    let recordVersion := get_be (slice baseHeader 4 6) in
    if recordVersion =? recordVersionV1 then
      decode_record src off legacyHeaderSize baseHeader ChecksumTypeIEEE
    else if recordVersion =? recordVersionV2 then
      let (extension, _) := ReadAt src (off + legacyHeaderSize) (headerSize - legacyHeaderSize) in
      if bool_decide (length extension ≠ headerSize - legacyHeaderSize)%nat
      then Err ErrCorruptRecord
      else
        let typ := get_be (slice extension 0 2) in
        match validateChecksumType typ with
        | Err _ => Err ErrCorruptRecord
        | Ok _ => decode_record src off headerSize baseHeader typ
        end
    else Err ErrCorruptRecord.

Definition readRawRecordAtWithScratch (src : SegmentReader) (off : nat) :
    result log_error (RawRecord * ChecksumType * nat) :=
  match io_slice src off legacyHeaderSize with
  | Some header => readRawRecordFromMmap src off header
  | None => readRawRecordFromReadAt src off
  end.

(** [readRecordAtIO]: the owned record. *)
Definition readRecordAtIO (src : SegmentReader) (off : nat) : result log_error (record * nat) :=
  '(raw, typ, next) ← readRawRecordAtWithScratch src off;
  Ok ({| StreamID := raw_StreamID raw; Seq := raw_Seq raw; EventType := raw_EventType raw;
         IdempotencyKey := raw_IdempotencyKey raw; Payload := raw_Payload raw;
         TimestampMs := raw_TimestampMs raw; CRC32 := raw_CRC32 raw; ChecksumTyp := typ |},
      next).

(** ** Reading a body *)

Open Scope nat_scope.

(** [src] reads the file [data], through either reader. *)
Definition reads (src : SegmentReader) (data : bytes) : Prop :=
  src = readAtSegmentReader data ∨ src = mmapSegmentReader data data.

Lemma ReadAt_in src data off n :
  reads src data → off + n <= length data → ReadAt src off n = (slice data off (off + n), true).
Proof.
  intros [-> | ->] Hle; [by apply read_at_slice|]. destruct data as [|b data].
  - by apply read_at_slice.
  - unfold ReadAt. rewrite bool_decide_eq_false_2 by lia. done.
Qed.

Lemma ReadAt_out src data off n :
  reads src data → length data < off + n → off <= length data → length (ReadAt src off n).1 ≠ n.
Proof.
  assert (length data < off + n → off <= length data → length (read_at data off n).1 ≠ n) as Hf.
  { intros. simpl. rewrite length_take, length_drop. lia. }
  intros [-> | ->] Hlt Hoff; [by apply Hf|]. destruct data as [|b data]; [by apply Hf|].
  unfold ReadAt. rewrite bool_decide_eq_true_2 by done. simpl in *. lia.
Qed.

(** [src] is a non-empty mapping of [data]. *)
Definition mapped (src : SegmentReader) (data : bytes) : Prop :=
  ∀ off n, io_slice src off n =
    if bool_decide (length data < off + n) then None else Some (slice data off (off + n)).

Lemma io_slice_spec src data off n :
  reads src data →
  io_slice src off n = None ∨
  off + n <= length data ∧ io_slice src off n = Some (slice data off (off + n)) ∧ mapped src data.
Proof.
  intros [-> | ->]; [by left|]. destruct data as [|b data]; [by left|].
  assert (mapped (mmapSegmentReader (b :: data) (b :: data)) (b :: data)) as Hm by done.
  rewrite (Hm off n). case_bool_decide; [by left|]. right. split; [lia|done].
Qed.

(** The accumulator follows the incremental CRC of the algorithm. *)
Definition crc_update_of (typ : ChecksumType) : Z → bytes → Z :=
  if (typ =? ChecksumTypeIEEE)%Z then crc32_update poly_IEEE else kpcrc32_update.

Definition incremental (typ : ChecksumType) : bool :=
  ((typ =? ChecksumTypeIEEE) || (typ =? ChecksumTypeCRC32C))%Z.

Lemma acc_update_incremental typ c chunk :
  incremental typ = true →
  acc_update {| acc_typ := typ; acc_crc := c |} chunk
  = Ok {| acc_typ := typ; acc_crc := crc_update_of typ c chunk |}.
Proof.
  unfold incremental, acc_update, crc_update_of; simpl.
  destruct (typ =? ChecksumTypeIEEE)%Z; [done|]. simpl. by intros ->.
Qed.

Lemma crc_update_of_app typ c d1 d2 :
  crc_update_of typ (crc_update_of typ c d1) d2 = crc_update_of typ c (d1 ++ d2).
Proof. unfold crc_update_of. case_match; [apply crc32_update_app|apply kpcrc32_app]. Qed.

Lemma crc_update_of_nil typ c : crc_update_of typ c [] = c.
Proof. unfold crc_update_of. case_match; [apply crc32_update_nil|apply kpcrc32_nil]. Qed.

Lemma checksum_incremental typ data :
  incremental typ = true → checksum data typ = Ok (crc_update_of typ 0 data).
Proof.
  unfold incremental, checksum, checksumOnce, crc_update_of.
  destruct (typ =? ChecksumTypeIEEE)%Z; [done|]. simpl. by intros ->.
Qed.

Lemma read_chunks_spec src data typ fuel off remaining c body :
  reads src data → incremental typ = true → remaining <= fuel → off <= length data →
  read_chunks fuel src off remaining {| acc_typ := typ; acc_crc := c |} body =
  if bool_decide (off + remaining <= length data)
  then Ok (body ++ slice data off (off + remaining),
           {| acc_typ := typ; acc_crc := crc_update_of typ c (slice data off (off + remaining)) |})
  else Err ErrCorruptRecord.
Proof.
  intros Hsrc Htyp. revert off remaining c body.
  induction fuel as [|fuel IH]; intros off remaining c body Hfuel Hoff; cbn [read_chunks].
  - assert (remaining = 0) as -> by lia. rewrite bool_decide_eq_true_2 by lia.
    unfold slice. rewrite Nat.add_0_r, Nat.sub_diag, take_0, app_nil_r.
    by rewrite crc_update_of_nil.
  - destruct (decide (remaining = 0)) as [->|Hrem].
    { rewrite !bool_decide_eq_true_2 by lia.
      unfold slice. rewrite Nat.add_0_r, Nat.sub_diag, take_0, app_nil_r.
      by rewrite crc_update_of_nil. }
    rewrite (bool_decide_eq_false_2 (remaining = 0)) by done.
    pose proof chunk_size_pos as Hcs. set (size := checksumChunkSize) in *.
    set (n := Nat.min size remaining). cbv zeta.
    destruct (decide (off + n <= length data)) as [Hin|Hout].
    + rewrite (ReadAt_in src data) by done.
      rewrite length_slice by lia. rewrite bool_decide_eq_false_2 by lia.
      rewrite acc_update_incremental by done. rewrite IH by lia.
      replace (off + n + (remaining - n)) with (off + remaining) by lia.
      case_bool_decide as Hend; [|done].
      assert (slice data off (off + remaining)
              = slice data off (off + n) ++ slice data (off + n) (off + remaining)) as ->.
      { unfold slice. rewrite <- (take_drop n (take (off + remaining - off) (drop off data))).
        rewrite take_take, skipn_firstn_comm, drop_drop. f_equal; f_equal; lia. }
      by rewrite crc_update_of_app, app_assoc.
    + rewrite (bool_decide_eq_false_2 (off + remaining <= _)) by lia.
      pose proof (ReadAt_out src data off n Hsrc) as Hs.
      destruct (ReadAt src off n) as [chunk full]. simpl in Hs.
      by rewrite bool_decide_eq_true_2 by (apply Hs; lia).
Qed.

(** Whatever the reader and whatever the read strategy, a body is accepted
    exactly when it lies in the file and its checksum verifies. *)
Lemma readBody_spec src data off n typ crc :
  reads src data → off <= length data →
  readBodyVerifiedIO src off n typ crc =
  if bool_decide (off + n <= length data) && verifyChecksum (slice data off (off + n)) typ crc
  then Ok (slice data off (off + n)) else Err ErrCorruptRecord.
Proof.
  intros Hsrc Hoff. unfold readBodyVerifiedIO.
  destruct (io_slice_spec src data off n Hsrc) as [-> | (Hin & -> & _)].
  2: { rewrite bool_decide_eq_true_2 by done. simpl. by destruct (verifyChecksum _ _ _). }
  fold (incremental typ).
  destruct (bool_decide (checksumChunkSize < n) && incremental typ) eqn:Hchunk; simpl.
  - apply andb_true_iff in Hchunk as [_ Htyp]. unfold newChecksumAccumulator.
    rewrite (read_chunks_spec src data) by done. case_bool_decide; [|done]. simpl.
    unfold acc_sum, verifyChecksum. simpl. unfold incremental in *. rewrite Htyp.
    rewrite checksum_incremental by done. by case_match.
  - destruct (decide (off + n <= length data)) as [Hin|Hout].
    + rewrite (ReadAt_in src data) by done. rewrite length_slice by lia.
      rewrite bool_decide_eq_false_2 by lia. rewrite bool_decide_eq_true_2 by done.
      simpl. by destruct (verifyChecksum _ _ _).
    + pose proof (ReadAt_out src data off n Hsrc) as Hs.
      destruct (ReadAt src off n) as [chunk full]. simpl in Hs.
      rewrite bool_decide_eq_true_2 by (apply Hs; lia).
      by rewrite bool_decide_eq_false_2 by lia.
Qed.

Lemma decode_record_same src data off hl h typ :
  reads src data → off + hl <= length data →
  decode_record src off hl h typ = decode_record (readAtSegmentReader data) off hl h typ.
Proof.
  intros H1 Hle. assert (reads (readAtSegmentReader data) data) by by left.
  unfold decode_record. cbv zeta. by rewrite !(readBody_spec _ data) by done.
Qed.

(** What both decoders compute on a file. *)
Definition decode_at (data : bytes) (off : nat) :
    result log_error (RawRecord * ChecksumType * nat) :=
  let src := readAtSegmentReader data in
  let h := slice data off (off + legacyHeaderSize) in
  if negb (get_be (slice h 0 4) =? magic)%Z then Err ErrCorruptRecord
  else if (get_be (slice h 4 6) =? recordVersionV1)%Z then
    decode_record src off legacyHeaderSize h ChecksumTypeIEEE
  else if (get_be (slice h 4 6) =? recordVersionV2)%Z then
    if bool_decide (off + headerSize <= length data) then
      let typ := get_be (slice data (off + 36) (off + 38)) in
      match validateChecksumType typ with
      | Err _ => Err ErrCorruptRecord
      | Ok _ => decode_record src off headerSize h typ
      end
    else Err ErrCorruptRecord
  else Err ErrCorruptRecord.

Lemma length_header data off :
  off + legacyHeaderSize <= length data →
  length (slice data off (off + legacyHeaderSize)) = legacyHeaderSize.
Proof. intros. rewrite length_slice by done. unfold legacyHeaderSize. lia. Qed.

Lemma extension_typ data off :
  off + headerSize <= length data →
  slice (slice data (off + legacyHeaderSize)
           (off + legacyHeaderSize + (headerSize - legacyHeaderSize))) 0 2
  = slice data (off + 36) (off + 38).
Proof.
  intros. unfold legacyHeaderSize, headerSize in *. rewrite slice_slice by lia. f_equal; lia.
Qed.

Lemma readAt_path src data off :
  reads src data → off + legacyHeaderSize <= length data →
  readRawRecordFromReadAt src off = decode_at data off.
Proof.
  intros Hsrc Hlen. pose proof (length_header data off Hlen) as Hh.
  unfold readRawRecordFromReadAt. rewrite (ReadAt_in src data) by done.
  cbv beta iota zeta. cbn [negb andb].
  rewrite (bool_decide_eq_false_2 (length _ ≠ legacyHeaderSize)) by (rewrite Hh; auto).
  unfold decode_at. cbv zeta. case_match; [done|].
  case_match; [by apply decode_record_same|].
  case_match; [|done].
  destruct (decide (off + headerSize <= length data)) as [Hin|Hout].
  - rewrite (bool_decide_eq_true_2 (off + headerSize <= _)) by done.
    rewrite (ReadAt_in src data) by (done || (unfold legacyHeaderSize, headerSize in *; lia)).
    rewrite bool_decide_eq_false_2.
    2: { rewrite length_slice; unfold legacyHeaderSize, headerSize in *; lia. }
    rewrite extension_typ by done. case_match; [|done].
    by apply decode_record_same.
  - rewrite (bool_decide_eq_false_2 (off + headerSize <= _)) by done.
    pose proof (ReadAt_out src data (off + legacyHeaderSize)
      (headerSize - legacyHeaderSize) Hsrc) as Hs.
    destruct (ReadAt src (off + legacyHeaderSize) (headerSize - legacyHeaderSize)) as [e f].
    rewrite bool_decide_eq_true_2; [done|].
    apply Hs; unfold legacyHeaderSize, headerSize in *; lia.
Qed.

Lemma mmap_path src data off :
  reads src data → mapped src data → off + legacyHeaderSize <= length data →
  readRawRecordFromMmap src off (slice data off (off + legacyHeaderSize)) = decode_at data off.
Proof.
  intros Hsrc Hm Hlen. pose proof (length_header data off Hlen) as Hh.
  unfold readRawRecordFromMmap.
  rewrite (bool_decide_eq_false_2 (length _ ≠ legacyHeaderSize)) by (rewrite Hh; auto).
  unfold decode_at. cbv zeta. case_match; [done|].
  case_match; [by apply decode_record_same|].
  case_match; [|done]. rewrite (Hm (off + legacyHeaderSize)).
  destruct (decide (off + headerSize <= length data)) as [Hin|Hout].
  - rewrite (bool_decide_eq_true_2 (off + headerSize <= _)) by done.
    rewrite bool_decide_eq_false_2 by (unfold legacyHeaderSize, headerSize in *; lia).
    rewrite extension_typ by done. case_match; [|done]. by apply decode_record_same.
  - rewrite (bool_decide_eq_false_2 (off + headerSize <= _)) by done.
    by rewrite bool_decide_eq_true_2 by (unfold legacyHeaderSize, headerSize in *; lia).
Qed.

Lemma readRaw_full src data off :
  reads src data → off + legacyHeaderSize <= length data →
  readRawRecordAtWithScratch src off = decode_at data off.
Proof.
  intros Hsrc Hlen. unfold readRawRecordAtWithScratch.
  destruct (io_slice_spec src data off legacyHeaderSize Hsrc) as [-> | (_ & -> & Hm)].
  - by apply readAt_path.
  - by apply mmap_path.
Qed.

Lemma read_at_short data off n :
  length data < off + n → n ≠ 0 →
  read_at data off n = (drop off data, false).
Proof.
  intros Hlt Hn. unfold read_at. rewrite take_ge by (rewrite length_drop; lia).
  rewrite bool_decide_eq_false_2; [done|]. rewrite length_drop. lia.
Qed.

(** Where the header does not fit, no record is read: [io.EOF] at the end of the
    file, and on a torn header [errCorruptRecord] (ReadAt) or [io.EOF] (mmap). *)
Lemma readRaw_short src data off :
  reads src data → length data < off + legacyHeaderSize →
  readRawRecordAtWithScratch src off = Err ErrEOF ∨
  (off < length data ∧ src = readAtSegmentReader data ∧
   readRawRecordAtWithScratch src off = Err ErrCorruptRecord).
Proof.
  intros Hsrc Hlt. unfold readRawRecordAtWithScratch.
  assert (io_slice src off legacyHeaderSize = None) as ->.
  { destruct (io_slice_spec src data off legacyHeaderSize Hsrc) as [-> | (? & ? & ?)]; [done|lia]. }
  unfold readRawRecordFromReadAt. destruct Hsrc as [-> | ->].
  - unfold ReadAt. rewrite read_at_short by done. cbn [negb andb].
    rewrite length_drop. case_bool_decide; [by left|].
    rewrite bool_decide_eq_true_2 by (unfold legacyHeaderSize in *; lia).
    right. split; [lia|done].
  - left. unfold ReadAt. destruct data as [|b data].
    + rewrite read_at_short by done. rewrite drop_nil. done.
    + by rewrite bool_decide_eq_true_2 by done.
Qed.

(** ** What an encoded record looks like *)

Lemma length_record_body rec :
  length (record_body rec)
  = str_len (StreamID rec) + str_len (EventType rec) + str_len (IdempotencyKey rec)
    + length (Payload rec).
Proof. unfold record_body, str_len. rewrite !length_app. lia. Qed.

Lemma length_header_fields rec : length (header_fields rec) = 32.
Proof. unfold header_fields. by rewrite !length_app, !length_put_be. Qed.

Record encoded (rec : record) (typ : ChecksumType) (enc : bytes) (crc : Z) : Prop := {
  enc_stream : (Z.of_nat (str_len (StreamID rec)) <= 0xffff)%Z;
  enc_event : (Z.of_nat (str_len (EventType rec)) <= 0xffff)%Z;
  enc_key : (Z.of_nat (str_len (IdempotencyKey rec)) <= 0xffff)%Z;
  enc_typ : validateChecksumType typ = Ok tt;
  enc_crc : checksum (record_body rec) typ = Ok crc;
  enc_bytes : ∃ reserved, length reserved = 2 ∧
    enc = header_fields rec ++ put_be 4 crc ++ put_be 2 typ ++ reserved ++ record_body rec
}.

Lemma encodedRecordSize_ok rec typ size :
  encodedRecordSize rec typ = Ok size →
  (Z.of_nat (str_len (StreamID rec)) <= 0xffff)%Z ∧
  (Z.of_nat (str_len (EventType rec)) <= 0xffff)%Z ∧
  (Z.of_nat (str_len (IdempotencyKey rec)) <= 0xffff)%Z ∧
  validateChecksumType (default_typ typ) = Ok tt ∧
  size = headerSize + length (record_body rec).
Proof.
  unfold encodedRecordSize. rewrite length_record_body. intros Hs.
  repeat case_match; simplify_eq.
  match goal with a : unit |- _ => destruct a end.
  split_and!; first [done | lia].
Qed.

Lemma default_typ_idem typ : default_typ (default_typ typ) = default_typ typ.
Proof. unfold default_typ. destruct (typ =? 0)%Z eqn:E; [done|]. by rewrite E. Qed.

Lemma encode_encoded buf rec typ enc crc :
  encodeRecordWithBuffer rec typ buf = Ok (enc, crc) → encoded rec (default_typ typ) enc crc.
Proof.
  unfold encodeRecordWithBuffer. cbv zeta. intros He. inv_ok.
  apply encodedRecordSize_ok in Ha as (H1 & H2 & H3 & H4 & Hsize).
  rewrite default_typ_idem in H4.
  destruct (checksum _ _) as [c|] eqn:Hc; [|done]. injection He as <- <-.
  split; try done. eexists; split; [|done].
  assert (∀ b : bytes, a <= length b → length (slice b 38 40) = 2) as Hslice.
  { intros b Hb. unfold headerSize in Hsize. rewrite length_slice; lia. }
  case_bool_decide; apply Hslice.
  - by rewrite length_replicate.
  - rewrite length_take. lia.
Qed.

Lemma encode_pooled_encoded pooled rec typ enc crc :
  encodeRecordPooled pooled rec typ = Ok (enc, crc) → encoded rec (default_typ typ) enc crc.
Proof.
  unfold encodeRecordPooled. cbv zeta. intros He. inv_ok.
  rewrite <- default_typ_idem. by eapply encode_encoded.
Qed.

Lemma encoded_length rec typ enc crc :
  encoded rec typ enc crc → length enc = headerSize + length (record_body rec).
Proof.
  intros [_ _ _ _ _ (res & Hres & ->)].
  rewrite !length_app, length_header_fields, !length_put_be, Hres.
  unfold headerSize. lia.
Qed.

(** The fields of the fixed-width integers hold what the record holds. *)
Record record_fits (rec : record) : Prop := {
  fits_seq : in_u64 (Seq rec);
  fits_time : in_i64 (TimestampMs rec);
  fits_payload : (Z.of_nat (length (Payload rec)) < 2 ^ 32)%Z
}.

(** Fields of the header of an encoded record placed at [length pre]. *)
Lemma encoded_field rec typ enc crc pre post i j :
  encoded rec typ enc crc → j <= 36 →
  slice (slice (pre ++ enc ++ post) (length pre) (length pre + legacyHeaderSize)) i j
  = slice (header_fields rec ++ put_be 4 crc) i j.
Proof.
  intros He Hj. unfold legacyHeaderSize. rewrite slice_slice by lia.
  rewrite slice_app_r. destruct He as [_ _ _ _ _ (res & Hres & ->)].
  rewrite <- !app_assoc, app_assoc.
  apply slice_app_l. rewrite length_app, length_header_fields, length_put_be. lia.
Qed.

Lemma encoded_body rec typ enc crc pre post :
  encoded rec typ enc crc →
  slice (pre ++ enc ++ post) (length pre + headerSize)
    (length pre + headerSize + length (record_body rec)) = record_body rec.
Proof.
  intros [_ _ _ _ _ (res & Hres & ->)].
  replace (length pre + headerSize + length (record_body rec))
    with (length pre + (headerSize + length (record_body rec))) by lia.
  rewrite slice_app_r.
  replace ((header_fields rec ++ put_be 4 crc ++ put_be 2 typ ++ res ++ record_body rec) ++ post)
    with ((header_fields rec ++ put_be 4 crc ++ put_be 2 typ ++ res) ++ record_body rec ++ post)
    by (by rewrite <- !app_assoc).
  apply slice_mid; [|done].
  rewrite !length_app, length_header_fields, !length_put_be, Hres. done.
Qed.

Lemma header_field_lens rec crc :
  let h := header_fields rec ++ put_be 4 crc in
  slice h 0 4 = put_be 4 magic ∧ slice h 4 6 = put_be 2 version ∧
  slice h 6 8 = put_be 2 (Z.of_nat (str_len (StreamID rec))) ∧
  slice h 8 10 = put_be 2 (Z.of_nat (str_len (EventType rec))) ∧
  slice h 10 12 = put_be 2 (Z.of_nat (str_len (IdempotencyKey rec))) ∧
  slice h 12 16 = put_be 4 (Z.of_nat (length (Payload rec))) ∧
  slice h 16 24 = put_be 8 (Seq rec) ∧ slice h 24 32 = put_be 8 (u64 (TimestampMs rec)) ∧
  slice h 32 36 = put_be 4 crc.
Proof.
  cbv zeta. unfold header_fields. rewrite <- !app_assoc. split_and!; by field.
Qed.

Lemma encoded_typ_field rec typ enc crc pre post :
  encoded rec typ enc crc →
  slice (pre ++ enc ++ post) (length pre + 36) (length pre + 38) = put_be 2 typ.
Proof.
  intros [_ _ _ _ _ (res & Hres & ->)]. rewrite slice_app_r, <- !app_assoc.
  rewrite slice_skip by (rewrite length_header_fields; lia).
  rewrite length_header_fields. cbn [Nat.sub]. by field.
Qed.

Lemma valid_typ_range typ : validateChecksumType typ = Ok tt → (0 <= typ < 2 ^ (8 * Z.of_nat 2))%Z.
Proof.
  unfold validateChecksumType, ChecksumTypeIEEE, ChecksumTypeCRC32C, ChecksumTypeXXH3,
    ChecksumTypeNone. case_match; [|done]. lia.
Qed.

(** The owned record a reader returns for an encoded one. *)
Definition stamped (rec : record) (crc : Z) (typ : ChecksumType) : record :=
  {| StreamID := StreamID rec; Seq := Seq rec; EventType := EventType rec;
     IdempotencyKey := IdempotencyKey rec; Payload := Payload rec;
     TimestampMs := TimestampMs rec; CRC32 := crc; ChecksumTyp := typ |}.

Definition raw_of (rec : record) (crc : Z) : RawRecord :=
  {| raw_StreamID := StreamID rec; raw_Seq := Seq rec; raw_EventType := EventType rec;
     raw_IdempotencyKey := IdempotencyKey rec; raw_Payload := Payload rec;
     raw_TimestampMs := TimestampMs rec; raw_CRC32 := crc |}.

Lemma body_fields rec :
  let b := record_body rec in
  let p1 := str_len (StreamID rec) in
  let p2 := p1 + str_len (EventType rec) in
  let p3 := p2 + str_len (IdempotencyKey rec) in
  slice b 0 p1 = str_bytes (StreamID rec) ∧ slice b p1 p2 = str_bytes (EventType rec) ∧
  slice b p2 p3 = str_bytes (IdempotencyKey rec) ∧
  slice b p3 (p3 + length (Payload rec)) = Payload rec.
Proof.
  cbv zeta. unfold record_body, str_len. split_and!.
  - by apply slice_prefix.
  - by apply slice_mid.
  - rewrite app_assoc. apply slice_mid; rewrite ?length_app; lia.
  - rewrite !app_assoc.
    rewrite <- (app_nil_r (Payload rec)) at 1.
    apply slice_mid; rewrite ?length_app; lia.
Qed.

(** The decoded header fields of an encoded record placed at [length pre]. *)
Lemma header_values rec typ enc crc pre post :
  encoded rec typ enc crc → record_fits rec →
  let h := slice (pre ++ enc ++ post) (length pre) (length pre + legacyHeaderSize) in
  get_be (slice h 0 4) = magic ∧ get_be (slice h 4 6) = version ∧
  get_be (slice h 6 8) = Z.of_nat (str_len (StreamID rec)) ∧
  get_be (slice h 8 10) = Z.of_nat (str_len (EventType rec)) ∧
  get_be (slice h 10 12) = Z.of_nat (str_len (IdempotencyKey rec)) ∧
  get_be (slice h 12 16) = Z.of_nat (length (Payload rec)) ∧
  get_be (slice h 16 24) = Seq rec ∧ i64 (get_be (slice h 24 32)) = TimestampMs rec ∧
  get_be (slice h 32 36) = crc.
Proof.
  intros He [Hseq Htime Hpay]. cbv zeta.
  rewrite !(encoded_field rec typ enc crc pre post) by (done || lia).
  destruct (header_field_lens rec crc) as (-> & -> & -> & -> & -> & -> & -> & -> & ->).
  pose proof (enc_stream _ _ _ _ He). pose proof (enc_event _ _ _ _ He).
  pose proof (enc_key _ _ _ _ He).
  pose proof (checksumOnce_range _ _ _ (enc_crc _ _ _ _ He)) as Hcrc.
  pose proof (u64_range (TimestampMs rec)) as Hts.
  unfold in_u32, in_u64 in *.
  change (8 * Z.of_nat 2)%Z with 16%Z in *.
  split; [reflexivity|]. split; [reflexivity|].
  rewrite !get_put_be by (simpl; lia). split_and!; try reflexivity.
  by apply i64_u64.
Qed.

Lemma decode_encoded rec typ enc crc pre post :
  encoded rec typ enc crc → record_fits rec →
  decode_at (pre ++ enc ++ post) (length pre)
  = Ok (raw_of rec crc, typ, length pre + length enc).
Proof.
  intros He Hfits. pose proof (encoded_length _ _ _ _ He) as Hlen.
  pose proof (encoded_typ_field _ _ _ _ pre post He) as Htypf.
  pose proof (encoded_body _ _ _ _ pre post He) as Hbody.
  pose proof (enc_typ _ _ _ _ He) as Htyp.
  destruct (header_values _ _ _ _ pre post He Hfits)
    as (V0 & V4 & V6 & V8 & V10 & V12 & V16 & V24 & V32).
  set (data := pre ++ enc ++ post) in *.
  assert (Hl : length data = length pre + length enc + length post).
  { unfold data. rewrite !length_app. lia. }
  unfold decode_at. cbv zeta. rewrite V0, V4, Htypf.
  rewrite get_put_be by (by apply valid_typ_range).
  cbn [negb]. change (negb (magic =? magic)%Z) with false. cbv iota.
  change (version =? recordVersionV1)%Z with false. change (version =? recordVersionV2)%Z with true.
  cbv iota. rewrite bool_decide_eq_true_2 by lia. rewrite Htyp.
  unfold decode_record. cbv zeta. rewrite V6, V8, V10, V12, V16, V24, V32, !Nat2Z.id.
  rewrite <- length_record_body.
  rewrite (readBody_spec _ data) by (by left || lia).
  rewrite bool_decide_eq_true_2 by lia. rewrite Hbody.
  rewrite verify_own_checksum by apply He. simpl.
  destruct (body_fields rec) as (B1 & B2 & B3 & B4).
  rewrite <- length_record_body in B4. rewrite B1, B2, B3, B4.
  rewrite !bytes_str_bytes, Hlen. done.
Qed.

(** A prefix of an encoded record, however long, is not accepted as a record. *)
Lemma decode_torn rec typ enc crc pre k :
  encoded rec typ enc crc → record_fits rec → k < length enc → legacyHeaderSize <= k →
  decode_at (pre ++ take k enc) (length pre) = Err ErrCorruptRecord.
Proof.
  intros He Hfits Hk Hk36. pose proof (encoded_length _ _ _ _ He) as Hlen.
  destruct (header_values _ _ _ _ pre [] He Hfits)
    as (V0 & V4 & V6 & V8 & V10 & V12 & V16 & V24 & V32).
  set (data := pre ++ take k enc).
  assert (slice (pre ++ enc ++ []) (length pre) (length pre + legacyHeaderSize)
          = slice data (length pre) (length pre + legacyHeaderSize)) as Hh.
  { rewrite app_nil_r. unfold data.
    rewrite <- (Nat.add_0_r (length pre)) at 1 3. rewrite !slice_app_r.
    rewrite <- (take_drop k enc) at 1. apply slice_app_l. rewrite length_take. lia. }
  rewrite Hh in *.
  assert (Hl : length data = length pre + k).
  { unfold data. rewrite length_app, length_take. lia. }
  unfold decode_at. cbv zeta. rewrite V0, V4.
  change (negb (magic =? magic)%Z) with false. cbv iota.
  change (version =? recordVersionV1)%Z with false. change (version =? recordVersionV2)%Z with true.
  cbv iota. case_bool_decide as Hin; [|done]. case_match; [|done].
  unfold decode_record. cbv zeta. rewrite V6, V8, V10, V12, !Nat2Z.id.
  rewrite <- length_record_body.
  rewrite (readBody_spec _ data) by (by left || lia).
  rewrite bool_decide_eq_false_2 by lia. done.
Qed.

(** ** Reading in a segment *)

Lemma read_raw_encoded rec typ enc crc pre post src :
  encoded rec typ enc crc → record_fits rec → reads src (pre ++ enc ++ post) →
  readRawRecordAtWithScratch src (length pre) = Ok (raw_of rec crc, typ, length pre + length enc).
Proof.
  intros He Hfits Hsrc. pose proof (encoded_length _ _ _ _ He). rewrite (readRaw_full _ _ _ Hsrc).
  - by rewrite (decode_encoded _ _ _ _ _ _ He Hfits).
  - rewrite !length_app. unfold legacyHeaderSize, headerSize in *. lia.
Qed.

Lemma read_encoded rec typ enc crc pre post src :
  encoded rec typ enc crc → record_fits rec → reads src (pre ++ enc ++ post) →
  readRecordAtIO src (length pre) = Ok (stamped rec crc typ, length pre + length enc).
Proof.
  intros He Hfits Hsrc. unfold readRecordAtIO.
  by rewrite (read_raw_encoded _ _ _ _ _ _ _ He Hfits Hsrc).
Qed.

Lemma read_torn rec typ enc crc pre k src :
  encoded rec typ enc crc → record_fits rec → k < length enc → reads src (pre ++ take k enc) →
  readRecordAtIO src (length pre) = Err ErrEOF ∨
  readRecordAtIO src (length pre) = Err ErrCorruptRecord.
Proof.
  intros He Hfits Hk Hsrc. unfold readRecordAtIO.
  assert (length (pre ++ take k enc) = length pre + k) as Hl.
  { rewrite length_app, length_take. lia. }
  destruct (decide (legacyHeaderSize <= k)).
  - right. rewrite (readRaw_full _ _ _ Hsrc) by lia.
    by rewrite (decode_torn _ _ _ _ _ _ He Hfits).
  - destruct (readRaw_short _ _ (length pre) Hsrc) as [->|(_ & _ & ->)]; [lia| |]; auto.
Qed.

(** A record that is read lies in the file and is not empty. *)
Lemma decode_record_bounds data off hl h typ raw typ' next :
  off + hl <= length data →
  decode_record (readAtSegmentReader data) off hl h typ = Ok (raw, typ', next) →
  off + hl <= next <= length data.
Proof.
  intros Hle Hd. unfold decode_record in Hd. cbv zeta in Hd.
  rewrite (readBody_spec _ data) in Hd by (by left || lia).
  destruct (bool_decide _ && _) eqn:Hb; [|done]. apply andb_true_iff in Hb as [Hb%bool_decide_eq_true _].
  cbn [mbind result_bind] in Hd. injection Hd as _ _ <-. lia.
Qed.

Lemma read_bounds data off rec next :
  readRecordAtIO (readAtSegmentReader data) off = Ok (rec, next) →
  off + legacyHeaderSize <= next <= length data.
Proof.
  unfold readRecordAtIO. intros Hr. apply result_bind_ok in Hr as ([[raw typ] n] & Hraw & Heq).
  injection Heq as _ <-. assert (Hsrc : reads (readAtSegmentReader data) data) by by left.
  destruct (decide (off + legacyHeaderSize <= length data)) as [Hle|Hgt].
  - rewrite (readRaw_full _ _ _ Hsrc Hle) in Hraw. unfold decode_at in Hraw. cbv zeta in Hraw.
    destruct (negb _); [done|]. destruct (_ =? recordVersionV1)%Z.
    { by apply decode_record_bounds in Hraw. }
    destruct (_ =? recordVersionV2)%Z; [|done]. case_bool_decide; [|done].
    destruct (validateChecksumType _); [|done]. apply decode_record_bounds in Hraw; [|done].
    unfold legacyHeaderSize, headerSize in *. lia.
  - destruct (readRaw_short _ _ off Hsrc) as [E|(_ & _ & E)]; [lia|congruence..].
Qed.

(** ** Properties *)

(** C32: round trip.  A record appended anywhere in a segment, with any pooled
    buffer, is read back at its offset by either reader exactly as it was
    written, with its checksum, and the offset of the next record. *)
Theorem record_roundtrip pooled rec typ enc crc pre post src :
  encodeRecordPooled pooled rec typ = Ok (enc, crc) → record_fits rec →
  reads src (pre ++ enc ++ post) →
  readRecordAtIO src (length pre)
  = Ok (stamped rec crc (default_typ typ), length pre + length enc).
Proof.
  intros He%encode_pooled_encoded Hfits Hsrc. by apply (read_encoded rec _ enc crc pre post).
Qed.

(** the mmap decoder and the ReadAt decoder agree on every file and every
    offset, whatever its bytes: same records, same errors; the one difference
    is the error for a header cut by the end of the file. *)
Theorem mmap_readat_agree data off :
  readRawRecordAtWithScratch (mmapSegmentReader data data) off
  = readRawRecordAtWithScratch (readAtSegmentReader data) off ∨
  (off < length data < off + legacyHeaderSize ∧
   readRawRecordAtWithScratch (mmapSegmentReader data data) off = Err ErrEOF ∧
   readRawRecordAtWithScratch (readAtSegmentReader data) off = Err ErrCorruptRecord).
Proof.
  assert (reads (mmapSegmentReader data data) data) as Hm by by right.
  assert (reads (readAtSegmentReader data) data) as Hr by by left.
  destruct (decide (off + legacyHeaderSize <= length data)) as [Hin|Hout].
  - left. by rewrite !(readRaw_full _ data).
  - destruct (readRaw_short _ data off Hm) as [Em|(? & ? & ?)]; [lia| |done].
    destruct (readRaw_short _ data off Hr) as [Er|(? & _ & Er)]; [lia| |].
    + left. congruence.
    + right. split_and!; done || lia.
Qed.

(** a torn write is detected.  If only part of an encoded record reached
    the file, no reader accepts a record at its offset. *)
Theorem torn_record_rejected pooled rec typ enc crc pre k src :
  encodeRecordPooled pooled rec typ = Ok (enc, crc) → record_fits rec →
  k < length enc → reads src (pre ++ take k enc) →
  readRecordAtIO src (length pre) = Err ErrEOF ∨
  readRecordAtIO src (length pre) = Err ErrCorruptRecord.
Proof.
  intros He%encode_pooled_encoded Hfits Hk Hsrc. by apply (read_torn rec (default_typ typ) enc crc pre k).
Qed.

End Codec.
Close Scope Z_scope.

(** ** Witnesses *)

Definition demo_record : record :=
  {| StreamID := "task/1"; Seq := 7; EventType := "TaskSubmitted"; IdempotencyKey := "k";
     Payload := str_bytes "{}"; TimestampMs := 1700000000000; CRC32 := 0; ChecksumTyp := 0 |}.

Lemma demo_record_fits : record_fits demo_record.
Proof. split; unfold in_u64, in_i64; simpl; lia. Qed.

Definition demo_encoded : bytes * Z :=
  match encodeRecordPooled (H := castagnoli_lib) [] demo_record 0 with
  | Ok r => r | Err _ => ([], 0%Z) end.

Lemma record_roundtrip_witness :
  readRecordAtIO (H := castagnoli_lib)
    (readAtSegmentReader ([x01; x02] ++ demo_encoded.1 ++ [x03])) (length [x01; x02])
  = Ok (stamped demo_record demo_encoded.2 ChecksumTypeCRC32C, 2 + length demo_encoded.1).
Proof.
  apply (record_roundtrip (H := castagnoli_lib) [] demo_record 0%Z demo_encoded.1
           demo_encoded.2 [x01; x02] [x03]);
    [vm_compute; reflexivity|apply demo_record_fits|by left].
Defined.

Lemma torn_record_rejected_witness :
  readRecordAtIO (H := castagnoli_lib)
    (readAtSegmentReader ([x01] ++ take 50 demo_encoded.1)) (length [x01]) = Err ErrEOF ∨
  readRecordAtIO (H := castagnoli_lib)
    (readAtSegmentReader ([x01] ++ take 50 demo_encoded.1)) (length [x01]) = Err ErrCorruptRecord.
Proof.
  apply (torn_record_rejected (H := castagnoli_lib) [] demo_record 0%Z demo_encoded.1
           demo_encoded.2 [x01] 50);
    [vm_compute; reflexivity|apply demo_record_fits|vm_compute; lia|by left].
Defined.
