(* ===== verification/EventCodec.v ===== *)
(** The event payload envelope: [internal/eventcodec/eventcodec.go].

    The msgpack encoder is a third-party package: [MsgpackLib] is its interface,
    with the one law the replay code relies on (decoding what was encoded gives
    the same map, up to the width the decoder picks for an integer).  Theorems:
    the envelope round-trips under its own kind, is refused under any other
    kind, and is never confused with a legacy JSON record. *)
From S2P Require Import Prelude Bytes.

Open Scope Z_scope.

(** The dynamic type of a Go integer held in an [any]. *)
Inductive int_kind :=
| KInt | KInt8 | KInt16 | KInt32 | KInt64
| KUint | KUint8 | KUint16 | KUint32 | KUint64.

Definition kind_range (k : int_kind) (z : Z) : Prop :=
  match k with
  | KInt8 => - 2 ^ 7 <= z < 2 ^ 7
  | KInt16 => - 2 ^ 15 <= z < 2 ^ 15
  | KInt32 => - 2 ^ 31 <= z < 2 ^ 31
  | KInt | KInt64 => in_i64 z
  | KUint8 => 0 <= z < 2 ^ 8
  | KUint16 => in_u16 z
  | KUint32 => in_u32 z
  | KUint | KUint64 => in_u64 z
  end.

(** The values a msgpack map holds. *)
Inductive any :=
| ANil
| AString (s : string)
| ABytes (b : bytes)
| AInt (k : int_kind) (z : Z)
| AOther.

Abbreviation fields := (gmap string any).

(** Same content; an integer may come back with another width. *)
Inductive any_sim : any → any → Prop :=
| sim_nil : any_sim ANil ANil
| sim_string s : any_sim (AString s) (AString s)
| sim_bytes b : any_sim (ABytes b) (ABytes b)
| sim_int k k' z : kind_range k' z → any_sim (AInt k z) (AInt k' z)
| sim_other : any_sim AOther AOther.

Definition fields_sim (m m' : fields) : Prop :=
  ∀ key, match m !! key, m' !! key with
         | Some a, Some b => any_sim a b
         | None, None => True
         | _, _ => False
         end.

Class MsgpackLib := {
  msgpack_Marshal : fields → option bytes;
  msgpack_Unmarshal : bytes → option fields;
  (** decoding what was encoded gives the same map *)
  msgpack_roundtrip : ∀ m data,
    msgpack_Marshal m = Some data →
    ∃ m', msgpack_Unmarshal data = Some m' ∧ fields_sim m m'
}.

Inductive codec_error := ErrKindRequired | ErrMsgpack | ErrKindMismatch (got want : Z).

(** [type Kind byte] *)
Abbreviation Kind := Z.
Definition KindTaskSubmitted : Kind := 1.
Definition KindWorkflowEvent : Kind := 2.
Definition KindActorEvent : Kind := 3.

(** [{'L', 'S', 'E', 1}] *)
Definition magic : bytes := [x4c; x53; x45; x01].

Section EventCodec.
Context `{MsgpackLib}.

Definition Marshal (kind : Kind) (value : fields) : result codec_error bytes :=
  if kind =? 0 then Err ErrKindRequired
  else match msgpack_Marshal value with
  | None => Err ErrMsgpack
  | Some body => Ok (magic ++ [byte_of_Z kind] ++ body)
  end.

(** [(body, true, nil)] is [Ok (Some body)]; [(nil, false, nil)], the signal to
    use the legacy decoder, is [Ok None]. *)
Definition Body (kind : Kind) (data : bytes) : result codec_error (option bytes) :=
  if bool_decide (length data < length magic + 1)%nat
     || bool_decide (slice data 0 (length magic) ≠ magic)
  then Ok None
  else
    let got := Z_of_byte (nth (length magic) data x00) in
    if negb (got =? kind) then Err (ErrKindMismatch got kind)
    else Ok (Some (drop (length magic + 1) data)).

Definition Unmarshal (kind : Kind) (data : bytes) : result codec_error (option fields) :=
  o ← Body kind data;
  match o with
  | None => Ok None
  | Some body =>
      match msgpack_Unmarshal body with
      | None => Err ErrMsgpack
      | Some m => Ok (Some m)
      end
  end.

(** ** Field recovery; a missing key is a nil value. *)

Definition StringValue (value : option any) : string :=
  match value with
  | Some (AString s) => s
  | Some (ABytes b) => bytes_str b
  | _ => ""
  end.

(** [None] is a nil slice. *)
Definition BytesValue (value : option any) : option bytes :=
  match value with
  | Some (ABytes b) => Some b
  | Some (AString s) => Some (str_bytes s)
  | _ => None
  end.

Definition Uint64Value (value : option any) : Z :=
  match value with
  | Some (AInt (KUint64 | KUint32 | KUint16 | KUint8 | KUint) v) => v
  | Some (AInt _ v) => if 0 <? v then u64 v else 0
  | _ => 0
  end.

Definition Uint32Value (value : option any) : Z := u32 (Uint64Value value).

Definition Int64Value (value : option any) : Z :=
  match value with
  | Some (AInt (KInt64 | KInt32 | KInt16 | KInt8 | KInt) v) => v
  | Some (AInt KUint64 v) => if v <=? max_i64 then i64 v else 0
  | Some (AInt _ v) => i64 v
  | _ => 0
  end.

(** ** Recovery through the codec *)

Lemma StringValue_sim m m' key : fields_sim m m' → StringValue (m' !! key) = StringValue (m !! key).
Proof. intros Hs. specialize (Hs key). repeat case_match; try done; by inversion Hs. Qed.

Lemma BytesValue_sim m m' key : fields_sim m m' → BytesValue (m' !! key) = BytesValue (m !! key).
Proof. intros Hs. specialize (Hs key). repeat case_match; try done; by inversion Hs. Qed.

(** An unsigned 64-bit field survives whatever integer type it is decoded to. *)
Lemma Uint64Value_sim m m' key z :
  fields_sim m m' → m !! key = Some (AInt KUint64 z) → in_u64 z → Uint64Value (m' !! key) = z.
Proof.
  intros Hs Hm Hz. specialize (Hs key). rewrite Hm in Hs.
  destruct (m' !! key) as [b|]; [|done]. inversion Hs as [| | |k k' z' Hr|]; subst.
  unfold in_u64 in *. destruct k'; simpl in *; try done;
    (destruct (Z.ltb_spec 0 z); [by apply u64_id|unfold in_i64 in *; lia]).
Qed.

Lemma Uint32Value_sim m m' key z :
  fields_sim m m' → m !! key = Some (AInt KUint32 z) → in_u32 z → Uint32Value (m' !! key) = z.
Proof.
  intros Hs Hm Hz. unfold Uint32Value. specialize (Hs key). rewrite Hm in Hs.
  destruct (m' !! key) as [b|]; [|done]. inversion Hs as [| | |k k' z' Hr|]; subst.
  assert (in_u64 z) by (unfold in_u32, in_u64 in *; lia).
  assert (Uint64Value (Some (AInt k' z)) = z) as ->; [|by apply u32_id].
  unfold in_u64 in *. destruct k'; simpl in *; try done;
    (destruct (Z.ltb_spec 0 z); [by apply u64_id|unfold in_i64 in *; lia]).
Qed.

Lemma Int64Value_sim m m' key z :
  fields_sim m m' → m !! key = Some (AInt KInt64 z) → in_i64 z → Int64Value (m' !! key) = z.
Proof.
  intros Hs Hm Hz. specialize (Hs key). rewrite Hm in Hs.
  destruct (m' !! key) as [b|]; [|done]. inversion Hs as [| | |k k' z' Hr|]; subst.
  destruct k'; simpl in *; try done; try (by apply i64_id).
  destruct (Z.leb_spec z max_i64); [by apply i64_id|unfold in_i64, max_i64 in *; lia].
Qed.

(** Absent keys stay absent. *)
Lemma absent_sim m m' key : fields_sim m m' → m !! key = None → m' !! key = None.
Proof. intros Hs Hm. specialize (Hs key). rewrite Hm in Hs. by destruct (m' !! key). Qed.

(** ** Sparse maps

    The payload types ([EventPayload] of workflows and actors, the task payload)
    write a key only when its value is not the zero value.  [sparse] is that
    sequence of conditional assignments. *)
Definition opt_str (s : string) : option any := if str_empty s then None else Some (AString s).
(** [if len(b) > 0 { fields[k] = []byte(b) }] *)
Definition opt_bytes (b : option bytes) : option any :=
  match b with Some (x :: r) => Some (ABytes (x :: r)) | _ => None end.
Definition opt_int (k : int_kind) (z : Z) : option any :=
  if z =? 0 then None else Some (AInt k z).

Fixpoint sparse (entries : list (string * option any)) (m : fields) : fields :=
  match entries with
  | [] => m
  | (k, o) :: entries => sparse entries (match o with Some v => <[k := v]> m | None => m end)
  end.

Lemma sparse_notin entries m k : k ∉ entries.*1 → sparse entries m !! k = m !! k.
Proof.
  revert m. induction entries as [|[k' o] entries IH]; intros m Hk; [done|]. simpl in *.
  apply not_elem_of_cons in Hk as [Hne Hk]. rewrite IH by done.
  destruct o; [by rewrite lookup_insert_ne|done].
Qed.

Lemma sparse_lookup entries m k o :
  NoDup (entries.*1) → m !! k = None → (k, o) ∈ entries → sparse entries m !! k = o.
Proof.
  revert m. induction entries as [|[k' o'] entries IH]; intros m Hnd Hm Hin.
  { by apply not_elem_of_nil in Hin. }
  simpl in *. apply NoDup_cons in Hnd as [Hni Hnd].
  apply elem_of_cons in Hin as [[= <- <-]|Hin].
  - rewrite sparse_notin by done. destruct o; [by rewrite lookup_insert_eq|done].
  - apply IH; [done| |done]. destruct o'; [|done]. rewrite lookup_insert_ne; [done|].
    intros ->. apply Hni, list_elem_of_fmap. exists (k, o). done.
Qed.

(** Each kind of field is read back from any map similar to the written one. *)
Lemma StringValue_field m m' k s :
  fields_sim m m' → m !! k = opt_str s → StringValue (m' !! k) = s.
Proof.
  intros Hs Hm. rewrite (StringValue_sim m m' k Hs), Hm. unfold opt_str.
  destruct (str_empty s) eqn:He; [|done]. by apply str_empty_true in He.
Qed.

Lemma BytesValue_field m m' k b :
  fields_sim m m' → m !! k = opt_bytes b → b ≠ Some [] → BytesValue (m' !! k) = b.
Proof.
  intros Hs Hm Hb. rewrite (BytesValue_sim m m' k Hs), Hm. by destruct b as [[|x b]|].
Qed.

Lemma Uint64Value_field m m' k z :
  fields_sim m m' → m !! k = opt_int KUint64 z → in_u64 z → Uint64Value (m' !! k) = z.
Proof.
  intros Hs Hm Hz. unfold opt_int in Hm. destruct (Z.eqb_spec z 0) as [->|Hne].
  - by rewrite (absent_sim m m').
  - by apply (Uint64Value_sim m m').
Qed.

Lemma Uint32Value_field m m' k z :
  fields_sim m m' → m !! k = opt_int KUint32 z → in_u32 z → Uint32Value (m' !! k) = z.
Proof.
  intros Hs Hm Hz. unfold opt_int in Hm. destruct (Z.eqb_spec z 0) as [->|Hne].
  - unfold Uint32Value. by rewrite (absent_sim m m').
  - by apply (Uint32Value_sim m m').
Qed.

Lemma Int64Value_field m m' k z :
  fields_sim m m' → m !! k = opt_int KInt64 z → in_i64 z → Int64Value (m' !! k) = z.
Proof.
  intros Hs Hm Hz. unfold opt_int in Hm. destruct (Z.eqb_spec z 0) as [->|Hne].
  - by rewrite (absent_sim m m').
  - by apply (Int64Value_sim m m').
Qed.

(** ** The envelope *)

Lemma Body_enveloped kind kind' body :
  0 <= kind < 256 →
  Body kind' (magic ++ [byte_of_Z kind] ++ body)
  = if kind =? kind' then Ok (Some body) else Err (ErrKindMismatch kind kind').
Proof.
  intros Hk. unfold Body.
  rewrite (bool_decide_eq_false_2 (length (magic ++ _) < _)%nat) by (simpl; lia).
  rewrite slice_prefix by done.
  rewrite bool_decide_eq_false_2 by (intros Hf; by apply Hf). cbn [orb].
  replace (nth (length magic) (magic ++ [byte_of_Z kind] ++ body) x00) with (byte_of_Z kind)
    by done.
  rewrite Z_of_byte_of_Z. unfold u8. rewrite Z.mod_small by done.
  by destruct (kind =? kind').
Qed.

Lemma Marshal_ok kind m data :
  Marshal kind m = Ok data →
  kind ≠ 0 ∧ ∃ body, msgpack_Marshal m = Some body ∧ data = magic ++ [byte_of_Z kind] ++ body.
Proof.
  unfold Marshal. destruct (Z.eqb_spec kind 0); [done|].
  destruct (msgpack_Marshal m) as [body|]; [|done]. intros [= <-]. eauto.
Qed.

(** An event written under a kind decodes under that kind to the same
    fields, and any other replay path refuses it with a kind mismatch. *)
Theorem envelope_roundtrip kind m data :
  Marshal kind m = Ok data → 0 <= kind < 256 →
  (∃ m', Unmarshal kind data = Ok (Some m') ∧ fields_sim m m') ∧
  (∀ kind', kind' ≠ kind → Unmarshal kind' data = Err (ErrKindMismatch kind kind')).
Proof.
  intros (Hk0 & body & Hm & ->)%Marshal_ok Hk. unfold Unmarshal. split.
  - rewrite Body_enveloped, Z.eqb_refl by done. simpl.
    destruct (msgpack_roundtrip _ _ Hm) as (m' & -> & Hsim). eauto.
  - intros kind' Hne. rewrite Body_enveloped by done.
    by rewrite (proj2 (Z.eqb_neq _ _)) by congruence.
Qed.

(** A record without the magic prefix is left to the legacy decoder. *)
Lemma legacy_falls_through kind data :
  slice data 0 4 ≠ magic → Unmarshal kind data = Ok None.
Proof.
  intros Hm. unfold Unmarshal, Body. simpl length.
  by rewrite (bool_decide_eq_true_2 (slice data 0 4 ≠ magic)), orb_true_r.
Qed.
End EventCodec.

(** ** A concrete encoder, for the witnesses

    It stores the map through stdpp's [Countable] encoding, a bit per byte, and
    refuses an integer outside its kind. *)
#[export] Instance int_kind_eq_dec : EqDecision int_kind.
Proof. solve_decision. Defined.

Definition int_kind_index (k : int_kind) : nat :=
  match k with
  | KInt => 0 | KInt8 => 1 | KInt16 => 2 | KInt32 => 3 | KInt64 => 4
  | KUint => 5 | KUint8 => 6 | KUint16 => 7 | KUint32 => 8 | KUint64 => 9
  end%nat.
Definition int_kind_of (n : nat) : option int_kind :=
  [KInt; KInt8; KInt16; KInt32; KInt64; KUint; KUint8; KUint16; KUint32; KUint64] !! n.
#[export] Instance int_kind_countable : Countable int_kind.
Proof. apply (inj_countable int_kind_index int_kind_of). by intros []. Defined.

#[export] Instance byte_countable : Countable byte.
Proof. apply (inj_countable Byte.to_N Byte.of_N). apply Byte.of_to_N. Defined.

#[export] Instance any_eq_dec : EqDecision any.
Proof. solve_decision. Defined.

Definition any_code (a : any) : bool + string + bytes + (int_kind * Z) :=
  match a with
  | ANil => inl (inl (inl false))
  | AOther => inl (inl (inl true))
  | AString s => inl (inl (inr s))
  | ABytes b => inl (inr b)
  | AInt k z => inr (k, z)
  end.
Definition any_decode (c : bool + string + bytes + (int_kind * Z)) : option any :=
  Some match c with
  | inl (inl (inl false)) => ANil
  | inl (inl (inl true)) => AOther
  | inl (inl (inr s)) => AString s
  | inl (inr b) => ABytes b
  | inr (k, z) => AInt k z
  end.
#[export] Instance any_countable : Countable any.
Proof. apply (inj_countable any_code any_decode). by intros []. Defined.

#[export] Instance kind_range_dec k z : Decision (kind_range k z).
Proof. destruct k; simpl; unfold in_i64, in_u64, in_u32, in_u16; apply _. Defined.

Definition any_in_range (a : any) : bool :=
  match a with AInt k z => bool_decide (kind_range k z) | _ => true end.

Fixpoint positive_bytes (p : positive) : bytes :=
  match p with xH => [] | xO p => x00 :: positive_bytes p | xI p => x01 :: positive_bytes p end.
Fixpoint bytes_positive (b : bytes) : positive :=
  match b with
  | [] => xH
  | x00 :: r => xO (bytes_positive r)
  | _ :: r => xI (bytes_positive r)
  end.

Definition toy_Marshal (m : fields) : option bytes :=
  if bool_decide (map_Forall (λ _ a, any_in_range a = true) m)
  then Some (positive_bytes (encode m)) else None.
Definition toy_Unmarshal (data : bytes) : option fields := decode (bytes_positive data).

Lemma toy_roundtrip m data :
  toy_Marshal m = Some data → ∃ m', toy_Unmarshal data = Some m' ∧ fields_sim m m'.
Proof.
  unfold toy_Marshal. case_bool_decide as Hrange; [|done]. intros [= <-].
  exists m. split.
  - unfold toy_Unmarshal.
    assert (∀ p, bytes_positive (positive_bytes p) = p) as ->; [|apply decode_encode].
    induction p; simpl; congruence.
  - intros key. destruct (m !! key) as [a|] eqn:Ha; [|done].
    specialize (Hrange key a Ha). destruct a; simpl in *; constructor.
    by apply bool_decide_eq_true_1 in Hrange.
Qed.

Definition toy_msgpack : MsgpackLib :=
  {| msgpack_Marshal := toy_Marshal; msgpack_Unmarshal := toy_Unmarshal;
     msgpack_roundtrip := toy_roundtrip |}.

Definition demo_fields : fields :=
  {[ "task_id" := AString "t1"; "epoch" := AInt KUint64 9 ]}.
Definition demo_event : bytes :=
  match Marshal (H := toy_msgpack) KindActorEvent demo_fields with Ok d => d | Err _ => [] end.

Lemma envelope_roundtrip_witness :
  (∃ m', Unmarshal (H := toy_msgpack) KindActorEvent demo_event = Ok (Some m') ∧
         fields_sim demo_fields m') ∧
  (∀ kind', kind' ≠ KindActorEvent →
     Unmarshal (H := toy_msgpack) kind' demo_event = Err (ErrKindMismatch KindActorEvent kind')).
Proof.
  apply (envelope_roundtrip (H := toy_msgpack) KindActorEvent demo_fields);
    [vm_compute; reflexivity|unfold KindActorEvent; lia].
Defined.
Close Scope Z_scope.
