(* ===== verification/Paths.v ===== *)
(** Slash-separated paths: what the code uses of Go's [strings] and [path/filepath]
    (on Unix, where [FromSlash] and [ToSlash] do nothing).

    [Clean] is Go's lexical normalisation. A cleaned path is its list of elements; the
    lemmas say which elements [Clean] and [Join] leave, and that one cleaned path is a
    textual prefix of another (up to a slash) exactly when its elements are. *)
From S2P Require Import Prelude.

Open Scope nat_scope.

Definition slash : Ascii.ascii := Ascii.ascii_of_nat 47.

(** [strings.Split] at one character: never empty. *)
Fixpoint split_at (c : Ascii.ascii) (s : string) : list string :=
  match s with
  | EmptyString => [EmptyString]
  | String.String a s =>
      if Ascii.eqb a c then EmptyString :: split_at c s
      else match split_at c s with
           | part :: parts => String.String a part :: parts
           | [] => [String.String a EmptyString]
           end
  end.
Definition free_of (c : Ascii.ascii) (s : string) : bool := forallb (λ a, negb (Ascii.eqb a c)) (String.list_ascii_of_string s).
(** [strings.Join(parts, "/")] *)
Definition join_slash (parts : list string) : string := String.concat "/" parts.

Lemma str_nil_app t : EmptyString +:+ t = t.
Proof. done. Qed.
Lemma str_cons_app a s t : String.String a s +:+ t = String.String a (s +:+ t).
Proof. done. Qed.
Lemma split_nonempty c s : split_at c s ≠ [].
Proof. destruct s as [|a s]; cbn; [done|]. destruct (Ascii.eqb a c); [done|]. by destruct (split_at c s). Qed.
Lemma split_free c s : Forall (λ p, free_of c p = true) (split_at c s).
Proof.
  induction s as [|a s IH]; cbn; [by constructor|]. destruct (Ascii.eqb a c) eqn:Ha; [by constructor|].
  destruct (split_at c s) as [|p l]; [by repeat constructor; unfold free_of; cbn; rewrite Ha|].
  apply Forall_cons in IH as [Hp Hl]. constructor; [|done]. unfold free_of in *. cbn. by rewrite Ha, Hp.
Qed.
Lemma split_one c s : free_of c s = true → split_at c s = [s].
Proof.
  unfold free_of. induction s as [|a s IH]; cbn [split_at String.list_ascii_of_string forallb]; [done|].
  destruct (Ascii.eqb a c); cbn [negb andb]; [done|]. intros Hs. by rewrite IH.
Qed.
Lemma split_app c s t : free_of c s = true → split_at c (s +:+ String.String c t) = s :: split_at c t.
Proof.
  unfold free_of. induction s as [|a s IH]; rewrite ?str_nil_app, ?str_cons_app; cbn [split_at String.list_ascii_of_string forallb];
    [by rewrite Ascii.eqb_refl|].
  destruct (Ascii.eqb a c); cbn [negb andb]; [done|]. intros Hs. by rewrite IH.
Qed.
Lemma join_cons p q parts : join_slash (p :: q :: parts) = p +:+ String.String slash (join_slash (q :: parts)).
Proof. done. Qed.
Lemma split_join parts : parts ≠ [] → Forall (λ p, free_of slash p = true) parts → split_at slash (join_slash parts) = parts.
Proof.
  intros Hne Hf. induction parts as [|p parts IH]; [done|]. apply Forall_cons in Hf as [Hp Hf].
  destruct parts as [|q parts]; [by apply split_one|]. rewrite join_cons, split_app by done. f_equal. by apply IH.
Qed.
Lemma join_split s : join_slash (split_at slash s) = s.
Proof.
  induction s as [|a s IH]; [done|]. cbn [split_at]. destruct (Ascii.eqb_spec a slash) as [->|Ha].
  - destruct (split_at slash s) as [|p l] eqn:He; [by destruct (split_nonempty slash s)|]. rewrite join_cons, IH. done.
  - destruct (split_at slash s) as [|p l] eqn:He; [by destruct (split_nonempty slash s)|]. rewrite <- IH. by destruct l.
Qed.
Lemma str_app_inj s t u : s +:+ t = s +:+ u → t = u.
Proof. induction s as [|a s IH]; rewrite ?str_nil_app, ?str_cons_app; [done|]. intros [= Ht]. auto. Qed.
Lemma str_app_assoc s t u : (s +:+ t) +:+ u = s +:+ (t +:+ u).
Proof. induction s as [|a s IH]; rewrite ?str_nil_app, ?str_cons_app; [done|]. by rewrite IH. Qed.
Lemma join_app l1 l2 : l1 ≠ [] → l2 ≠ [] → join_slash (l1 ++ l2) = join_slash l1 +:+ String.String slash (join_slash l2).
Proof.
  intros H1' H2'. induction l1 as [|p l1 IH]; [done|]. destruct l1 as [|q l1].
  - destruct l2; [done|]. cbn [app]. by rewrite join_cons.
  - change ((p :: q :: l1) ++ l2) with (p :: q :: (l1 ++ l2)). rewrite !join_cons, str_app_assoc, str_cons_app. do 2 f_equal. by apply IH.
Qed.
Lemma split_app_slash s t : split_at slash (s +:+ String.String slash t) = split_at slash s ++ split_at slash t.
Proof.
  transitivity (split_at slash (join_slash (split_at slash s ++ split_at slash t))).
  - by rewrite join_app, !join_split by apply split_nonempty.
  - apply split_join; [|apply Forall_app; split; apply split_free]. intros [Hn _]%app_nil. by apply (split_nonempty slash s).
Qed.

Lemma has_prefix_app p s : has_prefix p s = true ↔ ∃ t, s = p +:+ t.
Proof.
  revert s. induction p as [|a p IH]; intros s; cbn; [by split; [exists s|]|]. destruct s as [|b s].
  - split; [done|]. by intros [t Ht].
  - rewrite andb_true_iff, IH. split.
    + intros [Hab%Ascii.eqb_eq [t ->]]. exists t. by subst.
    + intros [t [= -> ->]]. split; [apply Ascii.eqb_refl|by exists t].
Qed.

(** ** Clean and Join *)

(** One element of the path; [out] holds the elements kept so far, last first. *)
Definition clean_step (rooted : bool) (out : list string) (part : string) : list string :=
  if str_empty part || bool_decide (part = ".") then out
  else if bool_decide (part = "..") then
    match out with
    | top :: rest => if bool_decide (top = "..") then ".." :: out else rest
    | [] => if rooted then [] else [".."]
    end
  else part :: out.
Definition clean_parts (rooted : bool) (parts : list string) : list string := rev (foldl (clean_step rooted) [] parts).
Definition IsAbs (path : string) : bool := has_prefix "/" path.
Definition path_of (rooted : bool) (elems : list string) : string :=
  if rooted then "/" +:+ join_slash elems else match elems with [] => "." | _ => join_slash elems end.
Definition Clean (path : string) : string := path_of (IsAbs path) (clean_parts (IsAbs path) (split_at slash path)).
(** [filepath.Join]: leading empty elements are dropped before cleaning. *)
Fixpoint Join (elems : list string) : string :=
  match elems with
  | [] => EmptyString
  | e :: rest => if str_empty e then Join rest else Clean (join_slash elems)
  end.

(** The elements of a cleaned path: no empty ones and no dots; dot-dots only at the start,
    and none below a root. *)
Definition plain (part : string) : bool := negb (str_empty part) && negb (bool_decide (part = ".")) && negb (bool_decide (part = "..")) && free_of slash part.
Definition climb (rooted : bool) (elems : list string) : Prop :=
  ∃ n rest, elems = replicate n ".." ++ rest ∧ Forall (λ p, plain p = true) rest ∧ (rooted = true → n = 0).

Lemma replicate_snoc {A} n (x : A) : replicate (S n) x = replicate n x ++ [x].
Proof. induction n as [|n IH]; [done|]. cbn in *. by rewrite <- IH. Qed.
Lemma climb_step rooted out part : free_of slash part = true → climb rooted (rev out) → climb rooted (rev (clean_step rooted out part)).
Proof.
  intros Hf (n & rest & Hr & Hp & Hn). unfold clean_step. destruct (str_empty part) eqn:He; cbn; [by exists n, rest|].
  case_bool_decide as Hdot; cbn; [by exists n, rest|]. case_bool_decide as Hdd.
  - destruct out as [|top out].
    + destruct rooted; [by exists 0, []|]. exists 1, []. by split_and!.
    + cbn [rev] in Hr. case_bool_decide as Ht.
      * subst top. destruct rest as [|r rest] using rev_ind.
        -- rewrite app_nil_r in Hr. exists (S n), []. split_and!; [|done|intros Hrt; exfalso; specialize (Hn Hrt) as ->; by destruct (rev out)].
           rewrite app_nil_r, replicate_snoc, <- Hr. done.
        -- rewrite app_assoc in Hr. apply app_inj_tail in Hr as [_ <-]. apply Forall_app in Hp as [_ Hp]. apply Forall_cons in Hp as [Hp _].
           exfalso. unfold plain in Hp. by rewrite (bool_decide_eq_true_2 (".."%string = ".."%string) eq_refl), andb_false_r in Hp.
      * destruct rest as [|r rest _] using rev_ind.
        -- rewrite app_nil_r in Hr. destruct n as [|n]; [by destruct (rev out)|]. rewrite replicate_snoc in Hr.
           apply app_inj_tail in Hr as [_ ->]. done.
        -- rewrite app_assoc in Hr. apply app_inj_tail in Hr as [-> _]. apply Forall_app in Hp as [Hp _]. by exists n, rest.
  - exists n, (rest ++ [part]). cbn [rev]. rewrite Hr, app_assoc. split_and!; [done| |done]. apply Forall_app. split; [done|]. constructor; [|done].
    unfold plain. by rewrite He, Hf, !bool_decide_eq_false_2.
Qed.
Lemma climb_clean rooted parts : Forall (λ p, free_of slash p = true) parts → climb rooted (clean_parts rooted parts).
Proof.
  unfold clean_parts. intros Hf. assert (climb rooted (rev [])) as Hc by (by exists 0, []). revert Hc.
  generalize (@nil string) as out. induction Hf as [|p parts Hp Hf IH]; cbn; [done|]. intros out Hc. apply IH. by apply climb_step.
Qed.

(** ** Cleaned paths *)

Lemma plain_parts part : plain part = true → part ≠ EmptyString ∧ part ≠ "." ∧ part ≠ ".." ∧ free_of slash part = true.
Proof.
  unfold plain. rewrite !andb_true_iff, !negb_true_iff, !bool_decide_eq_false. intros [[[He%str_empty_false ?] ?] ?]. done.
Qed.
Lemma clean_step_plain rooted out part : plain part = true → clean_step rooted out part = part :: out.
Proof.
  intros (He & Hd & Hdd & _)%plain_parts. unfold clean_step. rewrite (proj2 (str_empty_false _) He). by rewrite !bool_decide_eq_false_2.
Qed.
Lemma clean_all_plain rooted out parts : Forall (λ p, plain p = true) parts → foldl (clean_step rooted) out parts = rev parts ++ out.
Proof.
  intros Hf. revert out. induction Hf as [|p parts Hp Hf IH]; intros out; [done|]. cbn [foldl rev]. rewrite clean_step_plain, IH by done.
  by rewrite <- app_assoc.
Qed.
Lemma split_rooted elems : Forall (λ p, free_of slash p = true) elems →
  split_at slash (path_of true elems) = EmptyString :: (match elems with [] => [EmptyString] | _ => elems end).
Proof.
  intros Hf. unfold path_of. change ("/" +:+ join_slash elems) with (String.String slash (join_slash elems)). cbn [split_at].
  rewrite Ascii.eqb_refl. f_equal. destruct elems as [|e l]; [done|]. by apply split_join.
Qed.
Lemma plain_free parts : Forall (λ p, plain p = true) parts → Forall (λ p, free_of slash p = true) parts.
Proof. intros Hf. eapply Forall_impl; [exact Hf|]. intros p Hp. by destruct (plain_parts _ Hp) as (_ & _ & _ & ?). Qed.
Lemma rooted_abs elems : IsAbs (path_of true elems) = true.
Proof. done. Qed.

Lemma Clean_rooted elems : Forall (λ p, plain p = true) elems → Clean (path_of true elems) = path_of true elems.
Proof.
  intros Hp. unfold Clean. rewrite rooted_abs, split_rooted by (by apply plain_free). f_equal. unfold clean_parts.
  destruct elems as [|e l]; [done|]. cbn [foldl]. change (clean_step true [] EmptyString) with (@nil string).
  change (foldl (clean_step true) (clean_step true [] e) l) with (foldl (clean_step true) [] (e :: l)).
  by rewrite clean_all_plain, app_nil_r, rev_involutive.
Qed.
Lemma join_not_abs elems : elems ≠ [] → Forall (λ p, plain p = true) elems → IsAbs (join_slash elems) = false.
Proof.
  intros Hne Hp. destruct elems as [|e l]; [done|]. apply Forall_cons in Hp as [(He & _ & _ & Hf)%plain_parts _].
  destruct e as [|a e]; [done|]. unfold free_of in Hf. cbn [String.list_ascii_of_string forallb] in Hf. apply andb_true_iff in Hf as [Ha _].
  unfold IsAbs. assert (∃ t, join_slash (String.String a e :: l) = String.String a t) as [t ->].
  { destruct l as [|f l]; [by exists e|]. rewrite join_cons, str_cons_app. by eexists. }
  cbn [has_prefix]. change (Ascii.Ascii true true true true false true false false) with slash. rewrite Ascii.eqb_sym. by apply negb_true_iff in Ha as ->.
Qed.
Lemma Clean_relative elems : elems ≠ [] → Forall (λ p, plain p = true) elems → Clean (join_slash elems) = join_slash elems.
Proof.
  intros Hne Hp. unfold Clean. rewrite join_not_abs by done. unfold clean_parts. rewrite split_join by (done || by apply plain_free).
  rewrite clean_all_plain, app_nil_r, rev_involutive by done. by destruct elems.
Qed.
(** Climbing [n] elements from a root and going down again. *)
Lemma clean_climb d n rest : Forall (λ p, plain p = true) d → Forall (λ p, plain p = true) rest →
  foldl (clean_step true) (rev d) (replicate n ".." ++ rest) = rev (take (length d - n) d ++ rest).
Proof.
  intros Hd Hr. revert d Hd. induction n as [|n IH]; intros d Hd.
  - rewrite Nat.sub_0_r, take_ge, rev_app_distr by done. cbn. by rewrite clean_all_plain.
  - cbn [replicate app foldl]. destruct d as [|x d _] using rev_ind.
    + change (rev (@nil string)) with (@nil string). change (clean_step true [] "..") with (@nil string). apply (IH []). by constructor.
    + apply Forall_app in Hd as [Hd Hx]. apply Forall_cons in Hx as [(_ & _ & Hx & _)%plain_parts _]. rewrite rev_app_distr. cbn [rev app].
      replace (clean_step true (x :: rev d) "..") with (rev d) by (unfold clean_step; rewrite (bool_decide_eq_false_2 _ Hx); reflexivity).
      rewrite IH by done. rewrite length_app. cbn [length]. replace (length d + 1 - S n) with (length d - n) by lia.
      by rewrite take_app_le by lia.
Qed.
(** Joining a relative cleaned path to a rooted one. *)
Lemma Join_climb d n rest : Forall (λ p, plain p = true) d → Forall (λ p, plain p = true) rest → replicate n ".." ++ rest ≠ [] →
  Join [path_of true d; join_slash (replicate n ".." ++ rest)] = path_of true (take (length d - n) d ++ rest).
Proof.
  intros Hd Hr Hne. cbn [Join]. rewrite (proj2 (str_empty_false _)) by done. rewrite join_cons.
  unfold Clean. assert (IsAbs (path_of true d +:+ String.String slash (join_slash [join_slash (replicate n ".." ++ rest)])) = true) as -> by done.
  f_equal. rewrite split_app_slash. change (join_slash [?x]) with x. rewrite split_rooted by (by apply plain_free).
  rewrite split_join; [|done|].
  2: { apply Forall_app. split; [|by apply plain_free]. apply Forall_replicate. vm_compute. reflexivity. }
  unfold clean_parts. rewrite foldl_app. rewrite <- rev_involutive. f_equal. rewrite <- clean_climb by done. f_equal.
  destruct d as [|e l]; [done|]. cbn [foldl]. change (clean_step true [] EmptyString) with (@nil string).
  change (foldl (clean_step true) (clean_step true [] e) l) with (foldl (clean_step true) [] (e :: l)).
  by rewrite clean_all_plain, app_nil_r.
Qed.
Lemma Join_below d rest : Forall (λ p, plain p = true) d → Forall (λ p, plain p = true) rest → rest ≠ [] →
  Join [path_of true d; join_slash rest] = path_of true (d ++ rest).
Proof. intros Hd Hr Hne. pose proof (Join_climb d 0 rest Hd Hr Hne) as Hj. cbn [replicate app] in Hj. by rewrite Hj, Nat.sub_0_r, take_ge. Qed.

(** [dir + "/"] is a textual prefix of a cleaned path exactly when the path is below [dir];
    below the root directory, never. *)
Lemma below_iff d c : Forall (λ p, plain p = true) d → Forall (λ p, plain p = true) c →
  has_prefix (path_of true d +:+ "/") (path_of true c) = true ↔ d ≠ [] ∧ ∃ rest, rest ≠ [] ∧ c = d ++ rest.
Proof.
  intros Hd Hc. rewrite has_prefix_app. split.
  - intros [t Ht]. rewrite str_app_assoc in Ht. change ("/" +:+ t) with (String.String slash t) in Ht.
    apply (f_equal (split_at slash)) in Ht. rewrite split_app_slash, !split_rooted in Ht by (by apply plain_free).
    cbn [app] in Ht. injection Ht as Ht. pose proof (split_nonempty slash t) as Hne.
    destruct d as [|e d].
    + exfalso. destruct c as [|f c]; [cbn in Ht; injection Ht as Ht; by rewrite <- Ht in Hne|]. cbn in Ht. injection Ht as Hf _.
      apply Forall_cons in Hc as [(Hf' & _)%plain_parts _]. done.
    + split; [done|]. destruct c as [|f c].
      * exfalso. cbn in Ht. injection Ht as He _. apply Forall_cons in Hd as [(He' & _)%plain_parts _]. done.
      * exists (split_at slash t). by split.
  - intros (Hne & rest & Hr & ->). exists (join_slash rest). unfold path_of. rewrite join_app by done. rewrite !str_app_assoc. done.
Qed.
