(* ===== verification/Kahn.v ===== *)
(** Kahn's algorithm as [topologicalStepDefinitions]
    (internal/workflow/model.go) runs it: an in-degree counter per node, an
    adjacency list, and a FIFO queue.

    The loops are defined on node indices; [WorkflowDef] builds their input from
    the step list.  Facts: the queue loop processes every node at most once (so
    [n] rounds are enough), it returns a dependency order, it reaches every
    node of an acyclic graph, and it leaves its own output order unchanged. *)
From S2P Require Import Prelude.

(** [for _, next := range outgoing[idx] { indegree[next]--; ... }] *)
Fixpoint decr_all (outs : list nat) (indegree : list Z) (queue : list nat) :
    list Z * list nat :=
  match outs with
  | [] => (indegree, queue)
  | next :: outs =>
      let indegree := alter (λ z, (z - 1)%Z) next indegree in
      let queue := if bool_decide (indegree !! next = Some 0%Z)
                   then queue ++ [next] else queue in
      decr_all outs indegree queue
  end.

(** [for head := 0; head < len(queue); head++ { ... }]; [queue] is the part not
    yet reached by [head], [ordered] the nodes already taken. *)
Fixpoint kahn_loop (fuel : nat) (outgoing : list (list nat)) (indegree : list Z)
    (queue ordered : list nat) : list nat :=
  match fuel with
  | O => ordered
  | S fuel =>
      match queue with
      | [] => ordered
      | idx :: queue =>
          let (indegree, queue) := decr_all (default [] (outgoing !! idx)) indegree queue in
          kahn_loop fuel outgoing indegree queue (ordered ++ [idx])
      end
  end.

(** [queue] starts with the nodes of in-degree 0, in index order. *)
Definition kahn (n : nat) (outgoing : list (list nat)) (indegree : list Z) : list nat :=
  let queue := filter (λ i, indegree !! i = Some 0%Z) (seq 0 n) in
  kahn_loop n outgoing indegree queue [].

(** ** Specification *)
Section Kahn.
(** [n] nodes; an edge [(d, i)] says that [i] depends on [d]. *)
Context (n : nat) (E : list (nat * nat)).

Definition preds_in (done : list nat) (i : nat) : Prop := ∀ d, (d, i) ∈ E → d ∈ done.

(** Every node comes after the nodes it depends on. *)
Definition topo (l : list nat) : Prop :=
  ∀ k i, l !! k = Some i → preds_in (take k l) i.

(** The graph has a ranking, that is, no cycle. *)
Definition acyclic : Prop := ∃ rank : nat → nat, ∀ d i, (d, i) ∈ E → rank d < rank i.

Definition unproc (done : list nat) (i : nat) : nat :=
  length (filter (λ e, e.2 = i ∧ e.1 ∉ done) E).
Definition occ (i : nat) (outs : list nat) : nat := length (filter (λ x, x = i) outs).
Definition out_of (d : nat) : list nat := (filter (λ e, e.1 = d) E).*2.

(** The counters and adjacency lists the code builds. *)
Record graph_of (outgoing : list (list nat)) (indegree : list Z) : Prop := {
  go_outgoing d : d < n → outgoing !! d = Some (out_of d);
  go_indegree i : i < n → indegree !! i = Some (Z.of_nat (unproc [] i));
  go_length : length indegree = n;
  go_edges d i : (d, i) ∈ E → d < n ∧ i < n
}.

Lemma unproc_zero done i : unproc done i = 0 ↔ preds_in done i.
Proof.
  unfold unproc, preds_in. split.
  - intros H%nil_length_inv d Hd. destruct (decide (d ∈ done)) as [|Hn]; [done|].
    assert ((d, i) ∈ filter (λ e : nat * nat, e.2 = i ∧ e.1 ∉ done) E) as Hin.
    { by apply list_elem_of_filter. }
    rewrite H in Hin. by apply not_elem_of_nil in Hin.
  - intros H. destruct (filter _ E) as [|[d j] l] eqn:Hf; [done|].
    assert ((d, j) ∈ filter (λ e : nat * nat, e.2 = i ∧ e.1 ∉ done) E) as Hin.
    { rewrite Hf. by left. }
    apply list_elem_of_filter in Hin as [[Hj Hd] Hin]. simpl in *; subst.
    by apply H in Hin.
Qed.

Lemma unproc_snoc done idx i :
  idx ∉ done → unproc done i = unproc (done ++ [idx]) i + occ i (out_of idx).
Proof.
  intros Hidx. unfold unproc, occ, out_of.
  induction E as [|[d j] E' IH]; [done|].
  rewrite (filter_cons (λ e, e.2 = i ∧ e.1 ∉ done)), (filter_cons (λ e, e.1 = idx)),
    (filter_cons (λ e, e.2 = i ∧ e.1 ∉ done ++ [idx])). simpl.
  destruct (decide (d = idx)) as [->|Hd].
  - rewrite (decide_False (P := j = i ∧ idx ∉ done ++ [idx])) by set_solver.
    rewrite fmap_cons, filter_cons. simpl.
    destruct (decide (j = i)) as [->|Hj].
    + rewrite decide_True by done. simpl. lia.
    + rewrite decide_False by (by intros [? _]). lia.
  - destruct (decide (j = i ∧ d ∉ done)) as [[-> Hdd]|Hno].
    + rewrite decide_True by set_solver. simpl. lia.
    + rewrite decide_False by set_solver. lia.
Qed.

Lemma out_of_elem d i : i ∈ out_of d ↔ (d, i) ∈ E.
Proof.
  unfold out_of. rewrite list_elem_of_fmap. split.
  - intros ([d' j] & -> & [? ?]%list_elem_of_filter). by simplify_eq/=.
  - intros. exists (d, i). split; [done|]. by apply list_elem_of_filter.
Qed.

Lemma occ_zero i outs : occ i outs = 0 ↔ i ∉ outs.
Proof.
  unfold occ. induction outs as [|x outs IH]; [split; [|done]; intros; apply not_elem_of_nil|].
  rewrite filter_cons, not_elem_of_cons. destruct (decide (x = i)); simpl; [naive_solver|].
  rewrite IH. naive_solver.
Qed.

(** ** The loop invariant

    [outs] is the rest of the adjacency list being processed ([[]] between two
    rounds of the queue). *)
Record kinv (ordered queue : list nat) (indegree : list Z) (outs : list nat) : Prop := {
  ki_nodup : NoDup (ordered ++ queue);
  ki_bound : Forall (λ i, i < n) (ordered ++ queue);
  ki_length : length indegree = n;
  ki_indegree i : i < n → indegree !! i = Some (Z.of_nat (unproc ordered i + occ i outs));
  ki_zero i : i < n → i ∈ ordered ++ queue ↔ unproc ordered i + occ i outs = 0;
  ki_outs : Forall (λ i, i < n) outs
}.

Lemma decr_step ordered queue indegree next outs :
  kinv ordered queue indegree (next :: outs) →
  let indegree' := alter (λ z, (z - 1)%Z) next indegree in
  indegree' !! next = Some (Z.of_nat (unproc ordered next + occ next outs)) ∧
  kinv ordered (if bool_decide (indegree' !! next = Some 0%Z) then queue ++ [next] else queue)
       indegree' outs.
Proof.
  intros [Hnd Hb Hl Hi Hz Ho]. apply Forall_cons in Ho as [Hn Ho]. cbv zeta.
  assert (Hocc : ∀ i, occ i (next :: outs) = (if decide (next = i) then 1 else 0) + occ i outs).
  { intros i. unfold occ. rewrite filter_cons. by destruct (decide (next = i)). }
  assert (Hnext : alter (λ z, (z - 1)%Z) next indegree !! next
            = Some (Z.of_nat (unproc ordered next + occ next outs))).
  { rewrite list_lookup_alter_eq, Hi by done. simpl. rewrite Hocc, decide_True by done.
    f_equal. lia. }
  assert (Hni : next ∉ ordered ++ queue).
  { intros Hin. apply Hz in Hin; [|done]. rewrite Hocc, decide_True in Hin by done. lia. }
  split; [done|]. rewrite Hnext. split.
  - case_bool_decide; [|done]. rewrite app_assoc. apply NoDup_app.
    split_and!; [done|set_solver|apply NoDup_singleton].
  - case_bool_decide; [|done]. rewrite app_assoc. apply Forall_app. by rewrite Forall_singleton.
  - by rewrite length_alter.
  - intros i Hin. destruct (decide (next = i)) as [<-|Hne]; [done|].
    rewrite list_lookup_alter_ne, Hi by done. by rewrite Hocc, decide_False.
  - intros i Hin. specialize (Hz i Hin). rewrite Hocc in Hz.
    destruct (decide (next = i)) as [<-|Hne].
    + case_bool_decide as Hzero.
      * split; [intros _; injection Hzero; lia|set_solver].
      * split; [done|]. intros H0. by rewrite H0 in Hzero.
    + case_bool_decide; [|naive_solver]. rewrite app_assoc, elem_of_app, Hz.
      rewrite list_elem_of_singleton. naive_solver lia.
  - done.
Qed.

Lemma decr_all_kinv ordered outs queue indegree :
  kinv ordered queue indegree outs →
  let '(indegree', queue') := decr_all outs indegree queue in
  kinv ordered queue' indegree' [].
Proof.
  revert queue indegree. induction outs as [|next outs IH]; intros queue indegree HI; [done|].
  cbn [decr_all]. apply IH. by apply decr_step.
Qed.

(** The queue only grows, by nodes of [outs] in their order. *)
Lemma decr_all_prefix outs indegree queue :
  ∃ new, (decr_all outs indegree queue).2 = queue ++ new ∧ new `sublist_of` outs.
Proof.
  revert queue indegree. induction outs as [|next outs IH]; intros queue indegree; simpl.
  - exists []. by rewrite app_nil_r.
  - case_bool_decide.
    + destruct (IH (queue ++ [next]) (alter (λ z, (z - 1)%Z) next indegree)) as (new & -> & ?).
      exists (next :: new). rewrite <- app_assoc. split; [done|by apply sublist_skip].
    + destruct (IH queue (alter (λ z, (z - 1)%Z) next indegree)) as (new & -> & ?).
      exists new. split; [done|by apply sublist_cons].
Qed.

(** Taking [idx] from the queue starts a round. *)
Lemma pop_kinv outgoing indegree0 ordered idx queue indegree :
  graph_of outgoing indegree0 →
  kinv ordered (idx :: queue) indegree [] →
  kinv (ordered ++ [idx]) queue indegree (default [] (outgoing !! idx)).
Proof.
  intros [Hout _ _ Hedge] [Hnd Hb Hl Hi Hz _].
  replace (ordered ++ idx :: queue) with ((ordered ++ [idx]) ++ queue) in *
    by (by rewrite <- app_assoc).
  assert (idx < n) as Hidx. { rewrite Forall_forall in Hb. apply Hb. set_solver. }
  assert (idx ∉ ordered) as Hni.
  { apply NoDup_app in Hnd as (Hnd & _ & _). apply NoDup_app in Hnd as (_ & Hd & _).
    intros Hin. apply (Hd _ Hin). set_solver. }
  rewrite Hout by done. simpl.
  assert (Hu : ∀ i, unproc ordered i + occ i [] = unproc (ordered ++ [idx]) i + occ i (out_of idx)).
  { intros i. rewrite (unproc_snoc ordered idx i Hni).
    change (occ i []) with 0. by rewrite Nat.add_0_r. }
  split; try done.
  - intros i Hin. rewrite <- Hu. by apply Hi.
  - intros i Hin. rewrite <- Hu. by apply Hz.
  - apply Forall_forall. intros i Hin%out_of_elem. by apply Hedge in Hin as [_ ?].
Qed.

Lemma init_kinv outgoing indegree :
  graph_of outgoing indegree →
  kinv [] (filter (λ i, indegree !! i = Some 0%Z) (seq 0 n)) indegree [].
Proof.
  intros [_ Hi Hl _]. split; simpl; try done.
  - apply NoDup_filter, NoDup_seq.
  - apply Forall_forall. intros i [_ Hin]%list_elem_of_filter. apply elem_of_seq in Hin. lia.
  - intros i Hin. rewrite Hi by done. unfold occ. simpl. f_equal. lia.
  - intros i Hin. rewrite list_elem_of_filter, Hi by done. unfold occ. simpl.
    rewrite elem_of_seq. split; [intros [[=] _]; lia|]. intros Hz. split; [f_equal|]; lia.
Qed.
(** ** Execution of the queue loop *)

Lemma topo_snoc l i : topo l → preds_in l i → topo (l ++ [i]).
Proof.
  intros Ht Hi k j Hk. destruct (decide (k < length l)) as [Hlt|Hge].
  - rewrite lookup_app_l in Hk by done. rewrite take_app_le by lia. by apply Ht.
  - rewrite lookup_app_r in Hk by lia. apply list_lookup_singleton_Some in Hk as [Hk ->].
    by rewrite take_app_length' by lia.
Qed.

Lemma kinv_length ordered queue indegree outs :
  kinv ordered queue indegree outs → length ordered + length queue <= n.
Proof.
  intros [Hnd Hb _ _ _ _]. rewrite <- length_app.
  replace n with (length (seq 0 n)) by apply length_seq.
  apply submseteq_length, NoDup_submseteq; [done|].
  intros i Hi. rewrite Forall_forall in Hb. apply elem_of_seq. specialize (Hb i Hi). lia.
Qed.

Section Run.
Context (outgoing : list (list nat)) (indegree0 : list Z) (G : graph_of outgoing indegree0).

(** A property of the processed prefix and the queue that every round keeps
    holds of the result, on which the queue is empty. *)
Lemma kahn_loop_ind (P : list nat → list nat → list Z → Prop) fuel queue indegree ordered :
  (∀ ordered idx queue indegree,
     kinv ordered (idx :: queue) indegree [] → P ordered (idx :: queue) indegree →
     let '(indegree', queue') := decr_all (out_of idx) indegree queue in
     kinv (ordered ++ [idx]) queue' indegree' [] →
     P (ordered ++ [idx]) queue' indegree') →
  kinv ordered queue indegree [] → P ordered queue indegree →
  n <= length ordered + fuel →
  let result := kahn_loop fuel outgoing indegree queue ordered in
  ∃ indegree', kinv result [] indegree' [] ∧ P result [] indegree'.
Proof.
  intros Hstep. revert queue indegree ordered.
  induction fuel as [|fuel IH]; intros queue indegree ordered HI HP Hfuel; cbn [kahn_loop].
  - pose proof (kinv_length _ _ _ _ HI).
    assert (queue = []) as -> by (apply nil_length_inv; lia). eauto.
  - destruct queue as [|idx queue]; [eauto|].
    pose proof (pop_kinv _ _ _ _ _ _ G HI) as HI'.
    apply decr_all_kinv in HI'. specialize (Hstep _ _ _ _ HI HP).
    assert (idx < n) as Hidx.
    { destruct HI as [_ Hb _ _ _ _]. rewrite Forall_forall in Hb. apply Hb. set_solver. }
    rewrite (go_outgoing _ _ G idx Hidx) in *. cbn [default from_option] in *. unfold id in *.
    destruct (decr_all (out_of idx) indegree queue) as [indegree' queue'].
    apply IH; [done|by apply Hstep|]. rewrite length_app. simpl. lia.
Qed.

Lemma kahn_ind (P : list nat → list nat → list Z → Prop) :
  (∀ ordered idx queue indegree,
     kinv ordered (idx :: queue) indegree [] → P ordered (idx :: queue) indegree →
     let '(indegree', queue') := decr_all (out_of idx) indegree queue in
     kinv (ordered ++ [idx]) queue' indegree' [] →
     P (ordered ++ [idx]) queue' indegree') →
  P [] (filter (λ i, indegree0 !! i = Some 0%Z) (seq 0 n)) indegree0 →
  ∃ indegree', kinv (kahn n outgoing indegree0) [] indegree' [] ∧
               P (kahn n outgoing indegree0) [] indegree'.
Proof.
  intros Hstep HP. unfold kahn. apply kahn_loop_ind; [done| |done|simpl; lia].
  by eapply init_kinv.
Qed.

Lemma kahn_kinv : ∃ indegree', kinv (kahn n outgoing indegree0) [] indegree' [].
Proof. destruct (kahn_ind (λ _ _ _, True)) as (i & ? & _); [|done|by exists i].
  intros. by destruct (decr_all _ _ _). Qed.

(** The result is a dependency order. *)
Lemma kahn_topo : topo (kahn n outgoing indegree0).
Proof.
  destruct (kahn_ind (λ ordered _ _, topo ordered)) as (i & _ & ?); [| |done].
  - intros ordered idx queue indegree HI HP.
    destruct (decr_all _ _ _). intros _. apply topo_snoc; [done|].
    apply unproc_zero. destruct HI as [_ Hb _ _ Hz _].
    assert (idx < n) as Hidx. { rewrite Forall_forall in Hb. apply Hb. set_solver. }
    specialize (Hz idx Hidx). change (occ idx []) with 0 in Hz.
    rewrite Nat.add_0_r in Hz. apply Hz. set_solver.
  - by intros k i Hk.
Qed.

Lemma kahn_nodup : NoDup (kahn n outgoing indegree0).
Proof. destruct kahn_kinv as [? [Hnd _ _ _ _ _]]. by rewrite app_nil_r in Hnd. Qed.

Lemma kahn_bound i : i ∈ kahn n outgoing indegree0 → i < n.
Proof.
  destruct kahn_kinv as [? [_ Hb _ _ _ _]]. rewrite app_nil_r, Forall_forall in Hb. apply Hb.
Qed.

(** A node the loop never takes still waits for one it never takes. *)
Lemma kahn_stuck i :
  i < n → i ∉ kahn n outgoing indegree0 →
  ∃ d, (d, i) ∈ E ∧ d < n ∧ d ∉ kahn n outgoing indegree0.
Proof.
  intros Hi Hni. destruct kahn_kinv as [? [_ _ _ _ Hz _]].
  specialize (Hz i Hi). rewrite app_nil_r in Hz. change (occ i []) with 0 in Hz.
  rewrite Nat.add_0_r in Hz.
  destruct (unproc (kahn n outgoing indegree0) i) eqn:Hu; [by destruct Hni; apply Hz|].
  unfold unproc in Hu. destruct (filter _ E) as [|[d j] l] eqn:Hf; [done|].
  assert ((d, j) ∈ filter (λ e : nat * nat, e.2 = i ∧ e.1 ∉ kahn n outgoing indegree0) E) as Hin.
  { rewrite Hf. by left. }
  apply list_elem_of_filter in Hin as [[Hj Hd] Hin]. simpl in *; subst.
  exists d. split_and!; [done|by destruct (go_edges _ _ G d i Hin)|done].
Qed.

(** On an acyclic graph every node is taken. *)
Lemma kahn_complete : acyclic → ∀ i, i < n → i ∈ kahn n outgoing indegree0.
Proof.
  intros [rank Hrank] i. remember (rank i) as r eqn:Hr. revert i Hr.
  induction r as [r IH] using lt_wf_ind. intros i -> Hi.
  destruct (decide (i ∈ kahn n outgoing indegree0)) as [|Hni]; [done|].
  destruct (kahn_stuck i Hi Hni) as (d & Hd & Hdn & Hdk).
  destruct Hdk. by apply (IH (rank d)); [apply Hrank| |].
Qed.

Lemma topo_acyclic l : NoDup l → topo l → (∀ i, i < n → i ∈ l) → acyclic.
Proof.
  intros Hnd Ht Hall. exists (pos_in l). intros d i Hdi.
  destruct (go_edges _ _ G d i Hdi) as [Hd Hi].
  pose proof (pos_in_lookup l i (Hall i Hi)) as Hpos.
  apply (Ht _ _ Hpos), elem_of_take_lookup in Hdi as (k & Hk & Hkd).
  by rewrite (pos_in_nodup l d k).
Qed.

Lemma kahn_forall_bound : Forall (λ i, i < n) (kahn n outgoing indegree0).
Proof. apply Forall_forall, kahn_bound. Qed.

(** All nodes are taken exactly when the graph is acyclic. *)
Lemma kahn_acyclic : length (kahn n outgoing indegree0) = n ↔ acyclic.
Proof.
  split.
  - intros Hlen. apply (topo_acyclic (kahn n outgoing indegree0));
      [apply kahn_nodup|apply kahn_topo|].
    intros i Hi. pose proof (nodup_full _ n kahn_nodup kahn_forall_bound Hlen) as Hp.
    rewrite Hp. apply elem_of_seq. lia.
  - intros Ha. apply nodup_complete_length; [apply kahn_nodup|apply kahn_forall_bound|].
    by apply kahn_complete.
Qed.

Lemma kahn_permutation : acyclic → kahn n outgoing indegree0 ≡ₚ seq 0 n.
Proof.
  intros Ha. apply nodup_full; [apply kahn_nodup|apply kahn_forall_bound|by apply kahn_acyclic].
Qed.

(** ** Order of the result *)

Lemma kinv_preds ordered queue indegree i :
  kinv ordered queue indegree [] → i ∈ ordered ++ queue → preds_in ordered i.
Proof.
  intros [_ Hb _ _ Hz _] Hi. rewrite Forall_forall in Hb.
  apply unproc_zero. specialize (Hz i (Hb i Hi)). change (occ i []) with 0 in Hz.
  rewrite Nat.add_0_r in Hz. by apply Hz.
Qed.

Lemma kinv_pop_fresh ordered idx queue indegree outs :
  kinv ordered (idx :: queue) indegree outs → idx < n ∧ idx ∉ ordered.
Proof.
  intros [Hnd Hb _ _ _ _]. split.
  - rewrite Forall_forall in Hb. apply Hb. set_solver.
  - apply NoDup_app in Hnd as (_ & Hd & _). intros Hin. apply (Hd _ Hin). set_solver.
Qed.

(** Of two nodes of [l], the earlier one has its dependencies within any prefix
    of [done] that has those of the later one: nodes are taken in the order in
    which their last dependency is. *)
Definition mono (done l : list nat) : Prop :=
  ∀ a b i j t, a < b → l !! a = Some i → l !! b = Some j →
    preds_in (take t done) j → preds_in (take t done) i.

Lemma kahn_mono : mono (kahn n outgoing indegree0) (kahn n outgoing indegree0).
Proof.
  destruct (kahn_ind (λ ordered queue _, mono ordered (ordered ++ queue)))
    as (i & _ & Hm); [| |by rewrite app_nil_r in Hm].
  - intros ordered idx queue indegree HI Hm.
    destruct (decr_all_prefix (out_of idx) indegree queue) as (new & Hq & Hnew).
    destruct (decr_all (out_of idx) indegree queue) as [indegree' queue'].
    simpl in Hq. subst queue'. intros HI'.
    destruct (kinv_pop_fresh _ _ _ _ _ HI) as [_ Hfresh].
    assert (Heq : ∀ t, length ordered < t → take t (ordered ++ [idx]) = ordered ++ [idx]).
    { intros t Ht. apply take_ge. rewrite length_app. simpl. lia. }
    intros a b i j t Hab Ha Hb Hj d Hd.
    destruct (decide (t <= length ordered)) as [Ht|Ht].
    + assert (Hpre : take t (ordered ++ [idx]) = take t ordered) by (by apply take_app_le).
      rewrite Hpre in *.
      rewrite app_assoc in Ha, Hb.
      replace ((ordered ++ [idx]) ++ queue) with (ordered ++ idx :: queue) in *
        by (by rewrite <- app_assoc).
      destruct (decide (b < length (ordered ++ idx :: queue))) as [Hbl|Hbl].
      * rewrite lookup_app_l in Ha, Hb by lia. by eapply (Hm a b i j t).
      * rewrite lookup_app_r in Hb by lia. apply list_elem_of_lookup_2 in Hb.
        apply (sublist_subseteq _ _ Hnew), out_of_elem, Hj in Hb.
        apply elem_of_take_lookup in Hb as (k & _ & Hk).
        by apply list_elem_of_lookup_2 in Hk.
    + rewrite Heq by lia. eapply (kinv_preds _ _ _ i HI'); [|done].
      by eapply list_elem_of_lookup_2.
  - intros a b i j t Hab Ha Hb Hj d Hd.
    eapply (kinv_preds [] _ indegree0 i) in Hd; [set_solver|by eapply init_kinv|].
    by eapply list_elem_of_lookup_2.
Qed.

(** ** The identity on an ordered graph

    If the node numbering already is a dependency order in which the last
    dependencies are monotone, and adjacency lists are ascending, the loop
    returns the nodes in index order. *)
Definition layered : Prop :=
  (∀ d i, (d, i) ∈ E → d < i) ∧
  (∀ a b t, a < b → b < n → (∀ d, (d, b) ∈ E → d < t) → (∀ d, (d, a) ∈ E → d < t)).

Lemma seq_snoc_lt (l : list nat) m : l = seq 0 m → l ++ [m] = seq 0 (S m).
Proof. intros ->. by rewrite seq_S. Qed.

Lemma sorted_append l new :
  StronglySorted lt l → StronglySorted le new → NoDup new →
  (∀ x y, x ∈ l → y ∈ new → x < y) → StronglySorted lt (l ++ new).
Proof.
  intros Hl Hn Hnd Hlt.
  assert (StronglySorted lt new) as Hn'.
  { clear Hlt. induction Hn as [|x new Hn IH Hx]; constructor.
    - apply IH. by apply NoDup_cons in Hnd as [_ ?].
    - apply NoDup_cons in Hnd as [Hxn _]. rewrite Forall_forall in Hx |- *.
      intros y Hy. specialize (Hx y Hy). assert (x ≠ y) by (by intros ->). lia. }
  induction Hl as [|x l Hl IH Hx]; simpl; [done|]. constructor.
  - apply IH. intros; apply Hlt; [by right|done].
  - apply Forall_app. split; [done|]. apply Forall_forall. intros y Hy.
    apply Hlt; [by left|done].
Qed.

Lemma sublist_sorted (l k : list nat) :
  l `sublist_of` k → StronglySorted le k → StronglySorted le l.
Proof.
  induction 1 as [|x l k H IH|x l k H IH]; intros Hk; [done| |];
    apply StronglySorted_inv in Hk as [Hk Hx]; [|by apply IH].
  constructor; [by apply IH|]. rewrite Forall_forall in Hx |- *.
  intros y Hy. apply Hx. by eapply sublist_subseteq.
Qed.

Lemma seq_sorted k m : StronglySorted lt (seq k m).
Proof.
  revert k. induction m as [|m IH]; intros k; simpl; constructor; [apply IH|].
  apply Forall_forall. intros x Hx%elem_of_seq. lia.
Qed.

Lemma filter_sorted (P : nat → Prop) `{∀ x, Decision (P x)} l :
  StronglySorted lt l → StronglySorted lt (filter P l).
Proof.
  induction 1 as [|x l Hl IH Hx]; [constructor|]. rewrite filter_cons. case_decide; [|done].
  constructor; [done|]. rewrite Forall_forall in Hx |- *.
  intros y [_ Hy]%list_elem_of_filter. by apply Hx.
Qed.

Lemma kahn_sorted_step ordered idx queue indegree new indegree' :
  layered → (∀ d, StronglySorted le (out_of d)) → new `sublist_of` out_of idx →
  kinv ordered (idx :: queue) indegree [] →
  kinv (ordered ++ [idx]) (queue ++ new) indegree' [] →
  ordered = seq 0 (length ordered) → StronglySorted lt (ordered ++ idx :: queue) →
  idx = length ordered ∧ StronglySorted lt ((ordered ++ [idx]) ++ queue ++ new).
Proof.
  intros [Hup Hlay] Hout Hnew HI HI' Hseq Hss.
  destruct (kinv_pop_fresh _ _ _ _ _ HI) as [Hidx Hfresh].
  assert (Hord : ∀ x, x ∈ ordered ↔ x < length ordered).
  { intros x. rewrite Hseq at 1. rewrite elem_of_seq. lia. }
  set (t := length ordered) in *.
  assert (idx = t) as ->.
  { assert (t <= idx) by (destruct (decide (t <= idx)); [done|destruct Hfresh; apply Hord; lia]).
    assert (t ∈ ordered ++ idx :: queue) as Ht.
    { destruct HI as [_ _ _ _ Hz _]. apply Hz; [lia|]. change (occ t []) with 0.
      rewrite Nat.add_0_r. apply unproc_zero. intros d Hd. apply Hord. by apply Hup. }
    apply elem_of_app in Ht as [Ht|Ht]; [apply Hord in Ht; lia|].
    apply elem_of_cons in Ht as [->|Ht]; [done|].
    apply StronglySorted_app in Hss as (_ & _ & Hss).
    apply StronglySorted_inv in Hss as [_ Hss]. rewrite Forall_forall in Hss.
    specialize (Hss _ Ht). lia. }
  split; [done|].
  replace ((ordered ++ [t]) ++ queue ++ new) with ((ordered ++ t :: queue) ++ new) in *
    by (by rewrite <- !app_assoc).
  destruct HI' as [Hnd Hb' _ _ _ _].
  replace ((ordered ++ [t]) ++ queue ++ new) with ((ordered ++ t :: queue) ++ new) in *
    by (by rewrite <- !app_assoc).
  apply NoDup_app in Hnd as (_ & Hdisj & Hndn).
  apply sorted_append; [done|by eapply sublist_sorted|done|].
  intros x y Hx Hy. destruct (decide (y < x)) as [Hyx|].
  2: { assert (x ≠ y) by (intros ->; by apply (Hdisj y)). lia. }
  exfalso. assert ((t, y) ∈ E) as Hty.
  { apply out_of_elem. by eapply sublist_subseteq. }
  assert (x < n). { rewrite Forall_forall in Hb'. apply Hb'. set_solver. }
  assert (t < t); [|lia].
  apply (Hlay y x t); [done..| |done].
  intros d Hd. apply Hord. by apply (kinv_preds _ _ _ x HI).
Qed.

Lemma kahn_identity :
  layered → (∀ d, StronglySorted le (out_of d)) → kahn n outgoing indegree0 = seq 0 n.
Proof.
  intros Hlay Hout.
  assert (length (kahn n outgoing indegree0) = n) as Hlen.
  { apply kahn_acyclic. exists id. apply Hlay. }
  destruct (kahn_ind (λ ordered queue _, ordered = seq 0 (length ordered) ∧
              StronglySorted lt (ordered ++ queue))) as (i & _ & Heq & _).
  - intros ordered idx queue indegree HI [Hseq Hss].
    destruct (decr_all_prefix (out_of idx) indegree queue) as (new & Hq & Hnew).
    destruct (decr_all (out_of idx) indegree queue) as [indegree' queue'].
    simpl in Hq. subst queue'. intros HI'.
    destruct (kahn_sorted_step _ _ _ _ _ _ Hlay Hout Hnew HI HI' Hseq Hss) as [-> Hss'].
    split; [|done]. rewrite length_app, Nat.add_1_r. by apply seq_snoc_lt.
  - split; [done|]. simpl. apply filter_sorted, seq_sorted.
  - by rewrite Heq, Hlen.
Qed.

End Run.
End Kahn.
