(* ===== verification/WorkflowDef.v ===== *)
(** Workflow definitions: [internal/workflow/model.go], from the decoded JSON to
    the topologically ordered step list.

    [encoding/json] decoding of the definition is a parameter ([DefinitionJSON]);
    everything after it is modelled: defaults, [ValidateDefinition] with its
    depth-first cycle check, and [topologicalStepDefinitions].  Theorems:
    validation accepts exactly the well-formed definitions, the sort returns a
    dependency order of the same steps and is idempotent, and [ParseDefinition]
    composes them. *)
From S2P Require Import Prelude Bytes Kahn.

(** [StepDefinition] *)
Record StepDefinition := {
  sdStepID : string;
  sdTaskName : string;
  sdFunctionName : string;
  sdFunctionSource : string;
  sdFunctionRef : string;
  sdFunctionHash : string;
  sdArgsJSON : bytes;
  sdDependsOn : list string;
  sdMaxAttempts : Z;
  sdTimeoutMs : Z;
  sdLLMModelName : string;
  sdLLMModelVersion : string;
  sdLLMAdapter : string;
  sdLLMMaxTokens : Z
}.

(** [Definition] *)
Record WorkflowDefinition := {
  dfWorkflowName : string;
  dfFunctionSource : string;
  dfFunctionRef : string;
  dfFunctionHash : string;
  dfArgsJSON : bytes;
  dfSteps : list StepDefinition;
  dfResultStepID : string;
  dfMaxAttempts : Z;
  dfTimeoutMs : Z
}.

Definition with_Steps (d : WorkflowDefinition) (steps : list StepDefinition) : WorkflowDefinition :=
  {| dfWorkflowName := dfWorkflowName d; dfFunctionSource := dfFunctionSource d;
     dfFunctionRef := dfFunctionRef d; dfFunctionHash := dfFunctionHash d;
     dfArgsJSON := dfArgsJSON d; dfSteps := steps; dfResultStepID := dfResultStepID d;
     dfMaxAttempts := dfMaxAttempts d; dfTimeoutMs := dfTimeoutMs d |}.

Definition with_limits (s : StepDefinition) (maxAttempts timeoutMs : Z) : StepDefinition :=
  {| sdStepID := sdStepID s; sdTaskName := sdTaskName s; sdFunctionName := sdFunctionName s;
     sdFunctionSource := sdFunctionSource s; sdFunctionRef := sdFunctionRef s;
     sdFunctionHash := sdFunctionHash s; sdArgsJSON := sdArgsJSON s;
     sdDependsOn := sdDependsOn s; sdMaxAttempts := maxAttempts; sdTimeoutMs := timeoutMs;
     sdLLMModelName := sdLLMModelName s; sdLLMModelVersion := sdLLMModelVersion s;
     sdLLMAdapter := sdLLMAdapter s; sdLLMMaxTokens := sdLLMMaxTokens s |}.

Inductive def_error :=
| ErrJSON
| ErrNoSteps
| ErrEmptyStepID (i : nat)
| ErrDuplicateStepID (id : string)
| ErrResultStepRequired
| ErrResultStepUnknown (id : string)
| ErrEmptyDependency (stepID : string)
| ErrUnknownDependency (stepID dep : string)
| ErrCycleAt (stepID : string)
| ErrCycleDetected
| ErrVisitFuel.  (** of the model: the visit's fuel ran out (it never does) *)

#[export] Instance def_error_eq_dec : EqDecision def_error.
Proof. solve_decision. Defined.

(** ** topologicalStepDefinitions *)

Abbreviation graph := (list Z * list (list nat))%type.

(** [byID[step.StepID] = i], the last step of an ID wins. *)
Fixpoint index_steps (i : nat) (steps : list StepDefinition) (byID : gmap string nat) :
    gmap string nat :=
  match steps with
  | [] => byID
  | step :: steps => index_steps (S i) steps (<[sdStepID step := i]> byID)
  end.

(** The inner loop over [step.DependsOn]. *)
Fixpoint add_deps (byID : gmap string nat) (i : nat) (stepID : string) (deps : list string)
    (g : graph) : result def_error graph :=
  match deps with
  | [] => Ok g
  | dep :: deps =>
      match byID !! dep with
      | None => Err (ErrUnknownDependency stepID dep)
      | Some depIdx =>
          let (indegree, outgoing) := g in
          add_deps byID i stepID deps
            (alter (λ z, (z + 1)%Z) i indegree, alter (λ l, l ++ [i]) depIdx outgoing)
      end
  end.

Fixpoint add_steps (byID : gmap string nat) (i : nat) (steps : list StepDefinition)
    (g : graph) : result def_error graph :=
  match steps with
  | [] => Ok g
  | step :: steps =>
      g ← add_deps byID i (sdStepID step) (sdDependsOn step) g;
      add_steps byID (S i) steps g
  end.

Definition topologicalStepDefinitions (steps : list StepDefinition) :
    result def_error (list StepDefinition) :=
  let n := length steps in
  let byID := index_steps 0 steps ∅ in
  '(indegree, outgoing) ← add_steps byID 0 steps (replicate n 0%Z, replicate n []);
  let ordered := omap (λ idx, steps !! idx) (kahn n outgoing indegree) in
  if bool_decide (length ordered ≠ n) then Err ErrCycleDetected else Ok ordered.

(** [normalizeDefinition] *)
Definition normalizeDefinition (def : WorkflowDefinition) : WorkflowDefinition :=
  match topologicalStepDefinitions (dfSteps def) with
  | Ok ordered => with_Steps def ordered
  | Err _ => def
  end.

(** ** ValidateDefinition *)

(** The first loop: non-empty, distinct step IDs. *)
Fixpoint collect_steps (i : nat) (todo : list StepDefinition)
    (steps : gmap string StepDefinition) : result def_error (gmap string StepDefinition) :=
  match todo with
  | [] => Ok steps
  | step :: todo =>
      if str_empty (sdStepID step) then Err (ErrEmptyStepID i)
      else match steps !! sdStepID step with
      | Some _ => Err (ErrDuplicateStepID (sdStepID step))
      | None => collect_steps (S i) todo (<[sdStepID step := step]> steps)
      end
  end.

(** The second loop: every dependency names a step. *)
Fixpoint check_deps (steps : gmap string StepDefinition) (stepID : string)
    (deps : list string) : result def_error unit :=
  match deps with
  | [] => Ok tt
  | dep :: deps =>
      if str_empty dep then Err (ErrEmptyDependency stepID)
      else match steps !! dep with
      | None => Err (ErrUnknownDependency stepID dep)
      | Some _ => check_deps steps stepID deps
      end
  end.

Fixpoint check_all_deps (steps : gmap string StepDefinition) (todo : list StepDefinition) :
    result def_error unit :=
  match todo with
  | [] => Ok tt
  | step :: todo =>
      _ ← check_deps steps (sdStepID step) (sdDependsOn step);
      check_all_deps steps todo
  end.

(** [visiting] and [visited], the IDs mapped to [true]. *)
Abbreviation marks := (gset string * gset string)%type.

(** [for _, id := range ids { if err := visit(id); err != nil { return err } }] *)
Fixpoint visit_all (visit : string → marks → result def_error marks) (ids : list string)
    (m : marks) : result def_error marks :=
  match ids with
  | [] => Ok m
  | id :: ids => m ← visit id m; visit_all visit ids m
  end.

(** [steps[stepID].DependsOn] *)
Definition deps_of (steps : gmap string StepDefinition) (stepID : string) : list string :=
  match steps !! stepID with Some s => sdDependsOn s | None => [] end.

(** The recursive closure [visit]; the nesting is bounded by the number of
    steps, since a step being visited is an error. *)
Fixpoint visit (fuel : nat) (steps : gmap string StepDefinition) (stepID : string)
    (m : marks) : result def_error marks :=
  match fuel with
  | O => Err ErrVisitFuel
  | S fuel =>
      let (visiting, visited) := m in
      if bool_decide (stepID ∈ visiting) then Err (ErrCycleAt stepID)
      else if bool_decide (stepID ∈ visited) then Ok m
      else
        '(visiting, visited) ←
          visit_all (visit fuel steps) (deps_of steps stepID) ({[stepID]} ∪ visiting, visited);
        Ok (visiting ∖ {[stepID]}, {[stepID]} ∪ visited)
  end.

Definition ValidateDefinition (def : WorkflowDefinition) : result def_error unit :=
  match dfSteps def with
  | [] => Err ErrNoSteps
  | _ =>
      steps ← collect_steps 0 (dfSteps def) ∅;
      if str_empty (dfResultStepID def) then Err ErrResultStepRequired
      else match steps !! dfResultStepID def with
      | None => Err (ErrResultStepUnknown (dfResultStepID def))
      | Some _ =>
          _ ← check_all_deps steps (dfSteps def);
          _ ← visit_all (visit (S (size steps)) steps) (map sdStepID (dfSteps def)) (∅, ∅);
          Ok tt
      end
  end.

(** ** ParseDefinition *)

(** The defaults [ParseDefinition] applies to a decoded definition. *)
Definition apply_defaults (def : WorkflowDefinition) : WorkflowDefinition :=
  let maxAttempts := if (dfMaxAttempts def <=? 0)%Z then 3%Z else dfMaxAttempts def in
  let timeoutMs := if (dfTimeoutMs def <=? 0)%Z then 30000%Z else dfTimeoutMs def in
  let steps := map (λ s, with_limits s
      (if (sdMaxAttempts s <=? 0)%Z then maxAttempts else sdMaxAttempts s)
      (if (sdTimeoutMs s <=? 0)%Z then timeoutMs else sdTimeoutMs s)) (dfSteps def) in
  let resultStepID :=
    if str_empty (dfResultStepID def) then
      match last steps with Some s => sdStepID s | None => dfResultStepID def end
    else dfResultStepID def in
  {| dfWorkflowName := dfWorkflowName def; dfFunctionSource := dfFunctionSource def;
     dfFunctionRef := dfFunctionRef def; dfFunctionHash := dfFunctionHash def;
     dfArgsJSON := dfArgsJSON def; dfSteps := steps; dfResultStepID := resultStepID;
     dfMaxAttempts := maxAttempts; dfTimeoutMs := timeoutMs |}.

(** [json.Unmarshal] into a [Definition]. *)
Class DefinitionJSON := { unmarshalDefinition : bytes → option WorkflowDefinition }.

Definition ParseDefinition `{DefinitionJSON} (data : bytes) : result def_error WorkflowDefinition :=
  match unmarshalDefinition data with
  | None => Err ErrJSON
  | Some def =>
      let def := apply_defaults def in
      _ ← ValidateDefinition def;
      ordered ← topologicalStepDefinitions (dfSteps def);
      Ok (with_Steps def ordered)
  end.

(** [StepDefinitionByID] *)
Definition StepDefinitionByID (def : WorkflowDefinition) (stepID : string) :
    option StepDefinition :=
  snd <$> list_find (λ s, sdStepID s = stepID) (dfSteps def).

(** [StepMaxAttempts] *)
Definition StepMaxAttempts (def : WorkflowDefinition) (stepID : string) : Z :=
  match StepDefinitionByID def stepID with
  | Some step => if (sdMaxAttempts step <=? 0)%Z then dfMaxAttempts def else sdMaxAttempts step
  | None => dfMaxAttempts def
  end.

(** ** The graph of a step list *)

Definition ids_of (steps : list StepDefinition) : list string := map sdStepID steps.

(** Dependencies name steps of the list. *)
Definition deps_known (steps : list StepDefinition) : Prop :=
  ∀ s dep, s ∈ steps → dep ∈ sdDependsOn s → dep ∈ ids_of steps.

(** No cycle: the step IDs can be ranked along the dependencies. *)
Definition deps_acyclic (steps : list StepDefinition) : Prop :=
  ∃ rank : string → nat, ∀ s dep, s ∈ steps → dep ∈ sdDependsOn s → rank dep < rank (sdStepID s).

Lemma index_steps_lookup i steps m id :
  (id ∉ ids_of steps → index_steps i steps m !! id = m !! id) ∧
  (id ∈ ids_of steps → ∃ k s, steps !! k = Some s ∧ sdStepID s = id ∧
                        index_steps i steps m !! id = Some (i + k)).
Proof.
  revert i m. induction steps as [|s steps IH]; intros i m; simpl.
  - split; [done|]. intros Hi. by apply not_elem_of_nil in Hi.
  - destruct (IH (S i) (<[sdStepID s := i]> m)) as [IHn IHi]. split.
    + intros [Hne Hni]%not_elem_of_cons. rewrite IHn by done.
      by rewrite lookup_insert_ne by congruence.
    + intros Hin. destruct (decide (id ∈ ids_of steps)) as [Hd|Hd].
      * destruct (IHi Hd) as (k & s' & ? & ? & ->). exists (S k), s'.
        split_and!; [done..|]. f_equal. lia.
      * apply elem_of_cons in Hin as [->|?]; [|done]. exists 0, s.
        split_and!; [done..|]. rewrite IHn by done. rewrite lookup_insert_eq. f_equal. lia.
Qed.

Definition by_id (steps : list StepDefinition) : gmap string nat := index_steps 0 steps ∅.

Lemma by_id_Some steps id d :
  by_id steps !! id = Some d → ∃ s, steps !! d = Some s ∧ sdStepID s = id.
Proof.
  intros Hd. destruct (index_steps_lookup 0 steps ∅ id) as [Hn Hi].
  destruct (decide (id ∈ ids_of steps)) as [Hin|Hin].
  - destruct (Hi Hin) as (k & s & ? & ? & Hk). unfold by_id in Hd. simplify_eq. eauto.
  - unfold by_id in Hd. rewrite Hn in Hd by done. by rewrite lookup_empty in Hd.
Qed.

Lemma by_id_is_Some steps id : is_Some (by_id steps !! id) ↔ id ∈ ids_of steps.
Proof.
  destruct (index_steps_lookup 0 steps ∅ id) as [Hn Hi]. unfold by_id. split.
  - intros [d Hd]. destruct (decide (id ∈ ids_of steps)) as [|Hni]; [done|].
    rewrite Hn, lookup_empty in Hd; done.
  - intros Hin. destruct (Hi Hin) as (k & s & ? & ? & ->). eauto.
Qed.

(** With distinct IDs the index is that of the step. *)
Lemma by_id_nodup steps k s :
  NoDup (ids_of steps) → steps !! k = Some s → by_id steps !! sdStepID s = Some k.
Proof.
  intros Hnd Hk.
  assert (ids_of steps !! k = Some (sdStepID s)) as Hid.
  { unfold ids_of. by rewrite list_lookup_fmap, Hk. }
  destruct (proj2 (by_id_is_Some steps (sdStepID s))) as [d Hd].
  { by eapply list_elem_of_lookup_2. }
  rewrite Hd. destruct (by_id_Some _ _ _ Hd) as (s' & Hs' & Heq).
  f_equal. eapply (NoDup_lookup_inj (ids_of steps)); [done| |done].
  unfold ids_of. by rewrite list_lookup_fmap, Hs'; simpl; rewrite Heq.
Qed.

(** The edges, in the order in which the code adds them. *)
Definition dep_edges (byID : gmap string nat) (i : nat) (deps : list string) : list (nat * nat) :=
  omap (λ dep, (λ d, (d, i)) <$> byID !! dep) deps.
Fixpoint edges_from (byID : gmap string nat) (i : nat) (steps : list StepDefinition) :
    list (nat * nat) :=
  match steps with
  | [] => []
  | s :: steps => dep_edges byID i (sdDependsOn s) ++ edges_from byID (S i) steps
  end.
Definition step_edges (steps : list StepDefinition) : list (nat * nat) :=
  edges_from (by_id steps) 0 steps.

Lemma edges_from_elem byID k steps d i :
  (d, i) ∈ edges_from byID k steps ↔
  ∃ j s dep, i = k + j ∧ steps !! j = Some s ∧ dep ∈ sdDependsOn s ∧ byID !! dep = Some d.
Proof.
  revert k. induction steps as [|s steps IH]; intros k; simpl.
  - split; [intros H; by apply not_elem_of_nil in H|]. by intros (? & ? & ? & _ & ? & _).
  - rewrite elem_of_app, IH. unfold dep_edges. rewrite list_elem_of_omap. split.
    + intros [(dep & Hdep & Hd)|(j & s' & dep & -> & ? & ? & ?)].
      * destruct (byID !! dep) eqn:Hb; simplify_eq/=. exists 0, s, dep. naive_solver lia.
      * exists (S j), s', dep. naive_solver lia.
    + intros ([|j] & s' & dep & -> & Hj & ? & Hd); simpl in Hj.
      * left. exists dep. simplify_eq. rewrite Hd. simpl. by rewrite Nat.add_0_r.
      * right. exists j, s', dep. split; [lia|done].
Qed.

Lemma step_edges_elem steps d i :
  (d, i) ∈ step_edges steps ↔
  ∃ s dep, steps !! i = Some s ∧ dep ∈ sdDependsOn s ∧ by_id steps !! dep = Some d.
Proof. unfold step_edges. rewrite edges_from_elem. naive_solver. Qed.

Lemma step_edges_bound steps d i :
  (d, i) ∈ step_edges steps → d < length steps ∧ i < length steps.
Proof.
  intros (s & dep & Hi & _ & Hd)%step_edges_elem.
  apply by_id_Some in Hd as (s' & Hd & _). by split; eapply lookup_lt_Some.
Qed.

(** What the counters hold after the edges [E] were added. *)
Record counted (n : nat) (E : list (nat * nat)) (g : graph) : Prop := {
  ct_in i : i < n → g.1 !! i = Some (Z.of_nat (unproc E [] i));
  ct_out d : d < n → g.2 !! d = Some (out_of E d);
  ct_len : length g.1 = n
}.

Lemma unproc_app E1 E2 done i : unproc (E1 ++ E2) done i = unproc E1 done i + unproc E2 done i.
Proof. unfold unproc. by rewrite filter_app, length_app. Qed.

Lemma out_of_app E1 E2 d : out_of (E1 ++ E2) d = out_of E1 d ++ out_of E2 d.
Proof. unfold out_of. by rewrite filter_app, fmap_app. Qed.

Lemma counted_add n E indegree outgoing d i :
  counted n E (indegree, outgoing) → d < n → i < n →
  counted n (E ++ [(d, i)])
    (alter (λ z, (z + 1)%Z) i indegree, alter (λ l, l ++ [i]) d outgoing).
Proof.
  intros [Hin Hout Hlen] Hd Hi. simpl in *. split; simpl.
  - intros j Hj. rewrite unproc_app. unfold unproc at 2. rewrite filter_cons, filter_nil. simpl.
    destruct (decide (i = j)) as [<-|Hne].
    + rewrite list_lookup_alter_eq, Hin by done. simpl.
      rewrite decide_True by (split; [done|apply not_elem_of_nil]). simpl. f_equal. lia.
    + rewrite list_lookup_alter_ne, Hin by done. rewrite decide_False by naive_solver.
      simpl. by rewrite Nat.add_0_r.
  - intros e He. rewrite out_of_app. unfold out_of at 2. rewrite filter_cons, filter_nil. simpl.
    destruct (decide (d = e)) as [<-|Hne].
    + by rewrite list_lookup_alter_eq, Hout.
    + rewrite list_lookup_alter_ne, Hout by done. by rewrite app_nil_r.
  - by rewrite length_alter.
Qed.

Lemma add_deps_spec byID i stepID deps n E g :
  counted n E g → i < n → (∀ dep d, byID !! dep = Some d → d < n) →
  match add_deps byID i stepID deps g with
  | Ok g' => (∀ dep, dep ∈ deps → is_Some (byID !! dep)) ∧ counted n (E ++ dep_edges byID i deps) g'
  | Err _ => ∃ dep, dep ∈ deps ∧ byID !! dep = None
  end.
Proof.
  intros Hg Hi Hb. revert g E Hg.
  induction deps as [|dep deps IH]; intros [indegree outgoing] E Hg; simpl.
  - split; [|by rewrite app_nil_r]. intros dep Hdep. by apply not_elem_of_nil in Hdep.
  - destruct (byID !! dep) as [d|] eqn:Hd; [|exists dep; split; [by left|done]].
    pose proof (counted_add n E indegree outgoing d i Hg (Hb _ _ Hd) Hi) as Hg'.
    specialize (IH _ _ Hg'). destruct (add_deps _ _ _ _ _) as [g'|e].
    + destruct IH as [Hall Hc]. split.
      * intros dep' [->|?]%elem_of_cons; [by rewrite Hd|by apply Hall].
      * unfold dep_edges in *. simpl. by rewrite <- app_assoc in Hc.
    + destruct IH as (dep' & ? & ?). exists dep'. split; [by right|done].
Qed.

Lemma add_steps_spec byID i steps n E g :
  counted n E g → i + length steps <= n → (∀ dep d, byID !! dep = Some d → d < n) →
  match add_steps byID i steps g with
  | Ok g' => (∀ s dep, s ∈ steps → dep ∈ sdDependsOn s → is_Some (byID !! dep)) ∧
             counted n (E ++ edges_from byID i steps) g'
  | Err _ => ∃ s dep, s ∈ steps ∧ dep ∈ sdDependsOn s ∧ byID !! dep = None
  end.
Proof.
  intros Hg Hi Hb. revert i g E Hg Hi.
  induction steps as [|s steps IH]; intros i g E Hg Hi; simpl in *.
  - split; [|by rewrite app_nil_r]. intros s dep Hs. by apply not_elem_of_nil in Hs.
  - pose proof (add_deps_spec byID i (sdStepID s) (sdDependsOn s) n E g Hg ltac:(lia) Hb) as Hd.
    destruct (add_deps _ _ _ _ _) as [g'|e]; simpl.
    + destruct Hd as [Hall Hc]. specialize (IH (S i) g' _ Hc ltac:(lia)).
      destruct (add_steps _ _ _ _) as [g''|e'].
      * destruct IH as [Hall' Hc']. split; [|by rewrite <- app_assoc in Hc'].
        intros s' dep [->|?]%elem_of_cons ?; [by apply Hall|by eapply Hall'].
      * destruct IH as (s' & dep & ? & ? & ?). exists s', dep. split_and!; [by right|done..].
    + destruct Hd as (dep & ? & ?). exists s, dep. split_and!; [by left|done..].
Qed.

Lemma counted_init n : counted n [] (replicate n 0%Z, replicate n []).
Proof.
  split; simpl.
  - intros i Hi. by rewrite lookup_replicate_2.
  - intros d Hd. by rewrite lookup_replicate_2.
  - apply length_replicate.
Qed.

(** The loop over the steps fails on an unknown dependency and otherwise
    builds the graph of [step_edges]. *)
Lemma build_graph steps :
  let n := length steps in
  match add_steps (by_id steps) 0 steps (replicate n 0%Z, replicate n []) with
  | Ok (indegree, outgoing) =>
      deps_known steps ∧ graph_of n (step_edges steps) outgoing indegree
  | Err _ => ¬ deps_known steps
  end.
Proof.
  cbv zeta. set (n := length steps).
  assert (Hb : ∀ dep d, by_id steps !! dep = Some d → d < n).
  { intros dep d Hd. apply by_id_Some in Hd as (s & Hs & _). by eapply lookup_lt_Some. }
  pose proof (add_steps_spec (by_id steps) 0 steps n [] _ (counted_init n) ltac:(lia) Hb) as H.
  destruct (add_steps _ _ _ _) as [[indegree outgoing]|e].
  - destruct H as [Hall [Hin Hout Hlen]]. simpl in *. split.
    + intros s dep Hs Hdep. apply by_id_is_Some. by eapply Hall.
    + split; [done..|]. apply step_edges_bound.
  - destruct H as (s & dep & Hs & Hdep & Hnone). intros Hk.
    specialize (Hk s dep Hs Hdep). apply by_id_is_Some in Hk as [d Hd]. congruence.
Qed.

Lemma omap_lookup_total (steps : list StepDefinition) order :
  Forall (λ i, i < length steps) order →
  length (omap (λ i, steps !! i) order) = length order ∧
  ∀ k, omap (λ i, steps !! i) order !! k = order !! k ≫= λ i, steps !! i.
Proof.
  induction 1 as [|i order Hi Hb [IHl IHk]]; [split; [done|by intros []]|].
  destruct (lookup_lt_is_Some_2 steps i Hi) as [s Hs]. simpl. rewrite Hs. split.
  - simpl. f_equal. apply IHl.
  - intros [|k]; simpl; [by rewrite Hs|apply IHk].
Qed.

(** The permutation of step indices the sort applies. *)
Record sorted_by (steps ordered : list StepDefinition) (order : list nat) : Prop := {
  sb_perm : order ≡ₚ seq 0 (length steps);
  sb_length : length ordered = length steps;
  sb_lookup k : ordered !! k = order !! k ≫= λ i, steps !! i;
  sb_topo : topo (step_edges steps) order;
  sb_mono : mono (step_edges steps) order order
}.

Lemma topological_spec steps :
  match topologicalStepDefinitions steps with
  | Ok ordered => deps_known steps ∧ acyclic (step_edges steps) ∧ ∃ order, sorted_by steps ordered order
  | Err _ => ¬ deps_known steps ∨ ¬ acyclic (step_edges steps)
  end.
Proof.
  unfold topologicalStepDefinitions. cbv zeta. fold (by_id steps).
  pose proof (build_graph steps) as Hg. cbv zeta in Hg.
  destruct (add_steps _ _ _ _) as [[indegree outgoing]|e]; simpl; [|by left].
  destruct Hg as [Hk G]. set (order := kahn _ _ _).
  pose proof (kahn_forall_bound _ _ _ _ G) as Hb.
  destruct (omap_lookup_total steps order Hb) as [Hlen Hlook].
  case_bool_decide as Hn.
  - right. rewrite Hlen in Hn. intros Ha. by apply Hn, (kahn_acyclic _ _ _ _ G).
  - rewrite Hlen in Hn.
    assert (acyclic (step_edges steps)) as Ha by by apply (kahn_acyclic _ _ _ _ G).
    split_and!; [done..|]. exists order. split.
    + by apply (kahn_permutation _ _ _ _ G).
    + by rewrite Hlen.
    + apply Hlook.
    + apply (kahn_topo _ _ _ _ G).
    + apply (kahn_mono _ _ _ _ G).
Qed.

Lemma deps_acyclic_edges steps : deps_acyclic steps → acyclic (step_edges steps).
Proof.
  intros [rank Hr].
  exists (λ i, match steps !! i with Some s => rank (sdStepID s) | None => 0 end).
  intros d i (s & dep & Hi & Hdep & Hd)%step_edges_elem.
  apply by_id_Some in Hd as (s' & Hd & <-). rewrite Hi, Hd.
  apply Hr; [by eapply list_elem_of_lookup_2|done].
Qed.

Lemma edges_deps_acyclic steps :
  NoDup (ids_of steps) → deps_known steps → acyclic (step_edges steps) → deps_acyclic steps.
Proof.
  intros Hnd Hk [rank Hr]. exists (λ id, rank (default 0 (by_id steps !! id))).
  intros s dep Hs Hdep. apply list_elem_of_lookup in Hs as [i Hi].
  rewrite (by_id_nodup steps i s) by done. simpl.
  destruct (proj2 (by_id_is_Some steps dep)) as [d Hd].
  { eapply Hk; [by eapply list_elem_of_lookup_2|done]. }
  rewrite Hd. simpl. apply Hr, step_edges_elem. eauto.
Qed.

Lemma sorted_by_permutation steps ordered order :
  sorted_by steps ordered order → ordered ≡ₚ steps.
Proof.
  intros [Hp Hl Hk _ _].
  assert (ordered = omap (λ i, steps !! i) order) as ->.
  { apply list_eq. intros k. rewrite Hk.
    symmetry. apply omap_lookup_total, Forall_forall.
    intros i Hi. rewrite Hp, elem_of_seq in Hi. lia. }
  rewrite Hp. clear. induction steps as [|s steps IH] using rev_ind; [done|].
  rewrite length_app, Nat.add_1_r, seq_S, omap_app. simpl.
  rewrite lookup_app_r, Nat.sub_diag by lia. simpl. apply Permutation_app; [|done].
  etrans; [|apply IH]. apply reflexive_eq.
  assert (∀ l, Forall (λ i, i < length steps) l →
    omap (λ i, (steps ++ [s]) !! i) l = omap (λ i, steps !! i) l) as Heq.
  { induction 1 as [|i l Hi Hl IHl]; [done|]. simpl. rewrite lookup_app_l by done.
    destruct (steps !! i); [f_equal|]; apply IHl. }
  apply Heq, Forall_forall. intros i Hi%elem_of_seq. lia.
Qed.

(** In the sorted list each step comes after the steps it depends on. *)
Definition in_dependency_order (steps : list StepDefinition) : Prop :=
  ∀ k s dep, steps !! k = Some s → dep ∈ sdDependsOn s → dep ∈ ids_of (take k steps).

Lemma sorted_by_order steps ordered order :
  deps_known steps → sorted_by steps ordered order → in_dependency_order ordered.
Proof.
  intros Hkn [Hp Hl Hk Ht _] k s dep Hks Hdep. rewrite Hk in Hks.
  destruct (order !! k) as [i|] eqn:Hi; [|done]. simpl in Hks.
  destruct (proj2 (by_id_is_Some steps dep)) as [d Hd].
  { eapply Hkn; [by eapply list_elem_of_lookup_2|done]. }
  assert ((d, i) ∈ step_edges steps) as Hedge by (apply step_edges_elem; eauto).
  apply (Ht k i Hi), elem_of_take_lookup in Hedge as (j & Hj & Hjd).
  apply by_id_Some in Hd as (s' & Hs' & <-).
  assert (ordered !! j = Some s') as Hoj by (rewrite Hk, Hjd; done).
  unfold ids_of. apply list_elem_of_fmap. exists s'. split; [done|].
  apply elem_of_take_lookup. eauto.
Qed.

(** ** Sorting a sorted list *)

Lemma edges_from_ascending byID k steps : StronglySorted le (edges_from byID k steps).*2.
Proof.
  revert k. induction steps as [|s steps IH]; intros k; simpl; [constructor|].
  rewrite fmap_app. apply StronglySorted_app. split_and!; [| |apply IH].
  - intros x y Hx Hy. apply list_elem_of_fmap in Hx as ([d i] & -> & Hx).
    apply list_elem_of_fmap in Hy as ([d' j] & -> & Hy). simpl.
    apply edges_from_elem in Hy as (? & _ & _ & -> & _).
    apply list_elem_of_omap in Hx as (dep & _ & Hd).
    destruct (byID !! dep); simplify_eq/=. lia.
  - unfold dep_edges. induction (sdDependsOn s) as [|dep deps IHd]; simpl; [constructor|].
    destruct (byID !! dep); simpl; [|done]. constructor; [done|].
    apply Forall_forall. intros y Hy. apply list_elem_of_fmap in Hy as ([d j] & -> & Hy).
    apply list_elem_of_omap in Hy as (dep' & _ & Hd'). by destruct (byID !! dep'); simplify_eq/=.
Qed.

Lemma out_of_ascending E d : StronglySorted le E.*2 → StronglySorted le (out_of E d).
Proof.
  unfold out_of. induction E as [|[x y] E IH]; intros Hs; [constructor|].
  rewrite filter_cons. simpl in *. apply StronglySorted_cons in Hs as [Hy Hs].
  case_decide; [|by apply IH]. simpl. apply StronglySorted_cons. split; [|by apply IH].
  rewrite Forall_forall in Hy |- *. intros z Hz. apply Hy.
  apply list_elem_of_fmap in Hz as (e & -> & [_ He]%list_elem_of_filter).
  apply list_elem_of_fmap. eauto.
Qed.

(** An edge of the sorted list is an edge of the original one, at the new
    positions. *)
Lemma sorted_edges steps ordered order a b :
  NoDup (ids_of steps) → sorted_by steps ordered order →
  (a, b) ∈ step_edges ordered ↔
  ∃ i j, order !! a = Some i ∧ order !! b = Some j ∧ (i, j) ∈ step_edges steps.
Proof.
  intros Hnd Hsb. pose proof Hsb as [Hp Hl Hk _ _].
  assert (Hnd' : NoDup (ids_of ordered)).
  { unfold ids_of. by rewrite (sorted_by_permutation _ _ _ Hsb). }
  rewrite step_edges_elem. split.
  - intros (s & dep & Hb & Hdep & Ha). apply by_id_Some in Ha as (s' & Ha & <-).
    rewrite Hk in Ha, Hb.
    destruct (order !! a) as [i|] eqn:Hi; [|done]. destruct (order !! b) as [j|] eqn:Hj; [|done].
    simpl in *. exists i, j. split_and!; [done..|]. apply step_edges_elem.
    exists s, (sdStepID s'). split_and!; [done..|]. by apply by_id_nodup.
  - intros (i & j & Hi & Hj & (s & dep & Hs & Hdep & Hd)%step_edges_elem).
    apply by_id_Some in Hd as (s' & Hs' & <-). exists s, (sdStepID s'). split_and!; [|done|].
    + by rewrite Hk, Hj.
    + apply by_id_nodup; [done|]. by rewrite Hk, Hi.
Qed.

Lemma sorted_layered steps ordered order :
  NoDup (ids_of steps) → sorted_by steps ordered order →
  layered (length ordered) (step_edges ordered).
Proof.
  intros Hnd Hsb. pose proof Hsb as [Hp Hl _ Ht Hm].
  assert (Hndo : NoDup order) by (rewrite Hp; apply NoDup_seq).
  assert (Hed : ∀ a b, (a, b) ∈ step_edges ordered ↔
    ∃ i j, order !! a = Some i ∧ order !! b = Some j ∧ (i, j) ∈ step_edges steps).
  { intros. by apply sorted_edges. }
  assert (Hpreds : ∀ b j t, order !! b = Some j →
    (∀ d, (d, b) ∈ step_edges ordered → d < t) ↔ preds_in (step_edges steps) (take t order) j).
  { intros b j t Hb. split.
    - intros H i Hij. pose proof (Ht b j Hb i Hij) as Hi.
      apply elem_of_take_lookup in Hi as (a & Ha & Hai).
      apply elem_of_take_lookup. exists a. split; [|done]. apply H, Hed. eauto.
    - intros H d (i & j' & Hi & Hj & Hij)%Hed. simplify_eq.
      apply H, elem_of_take_lookup in Hij as (a & Ha & Hai).
      by rewrite (NoDup_lookup_inj order d a i). }
  split.
  - intros d i (x & y & Hx & Hy & Hxy)%Hed. pose proof (Ht i y Hy x Hxy) as Hin.
    apply elem_of_take_lookup in Hin as (a & Ha & Hax).
    by rewrite (NoDup_lookup_inj order d a x).
  - intros a b t Hab Hb. assert (length order = length steps) as Hlo.
    { by rewrite Hp, length_seq. }
    destruct (lookup_lt_is_Some_2 order a) as [i Hi]; [lia|].
    destruct (lookup_lt_is_Some_2 order b) as [j Hj]; [lia|].
    rewrite (Hpreds b j t Hj), (Hpreds a i t Hi). by apply (Hm a b i j t).
Qed.

Lemma topological_fixed steps :
  deps_known steps → layered (length steps) (step_edges steps) →
  topologicalStepDefinitions steps = Ok steps.
Proof.
  intros Hk Hlay. unfold topologicalStepDefinitions. cbv zeta. fold (by_id steps).
  pose proof (build_graph steps) as Hg. cbv zeta in Hg.
  destruct (add_steps _ _ _ _) as [[indegree outgoing]|e]; simpl; [|done].
  destruct Hg as [_ G].
  rewrite (kahn_identity _ _ _ _ G Hlay) by (intros; apply out_of_ascending, edges_from_ascending).
  assert (omap (λ i, steps !! i) (seq 0 (length steps)) = steps) as ->.
  { destruct (omap_lookup_total steps (seq 0 (length steps))) as [_ Hlook].
    { apply Forall_forall. intros i Hi%elem_of_seq. lia. }
    apply list_eq. intros k. rewrite Hlook. destruct (decide (k < length steps)) as [Hlt|Hge].
    - by rewrite lookup_seq_lt.
    - rewrite lookup_seq_ge by lia. symmetry. apply lookup_ge_None. lia. }
  by rewrite bool_decide_eq_false_2 by (intros Hn; by apply Hn).
Qed.

Lemma deps_known_perm steps ordered : ordered ≡ₚ steps → deps_known steps → deps_known ordered.
Proof.
  intros Hp Hk s dep Hs Hdep. unfold ids_of. rewrite Hp. rewrite Hp in Hs. by eapply Hk.
Qed.

(** ** The cycle check *)
Section Visit.
Context (steps : gmap string StepDefinition).

(** [a] depends on [b]. *)
Definition depends (a b : string) : Prop := b ∈ deps_of steps a.

Hypothesis closed : ∀ a b, depends a b → b ∈ dom steps.

(** A set of steps closed under dependencies and without a cycle. *)
Definition ranked (X : gset string) : Prop :=
  ∃ rank : string → nat, ∀ a b, a ∈ X → depends a b → b ∈ X ∧ rank b < rank a.

Lemma ranked_empty : ranked ∅.
Proof. exists (λ _, 0). set_solver. Qed.

Lemma ranked_insert X id :
  (∀ b, depends id b → b ∈ X) → ranked X → ranked ({[id]} ∪ X).
Proof.
  intros Hdeps [rank Hr]. destruct (decide (id ∈ X)) as [Hin|Hni].
  { exists rank. intros a b Ha Hab. destruct (Hr a b) as [? ?]; [set_solver..|].
    split; [set_solver|done]. }
  exists (λ a, if decide (a = id) then S (max_list (map rank (deps_of steps id))) else rank a).
  intros a b Ha Hab. apply elem_of_union in Ha as [->%elem_of_singleton|Ha].
  - specialize (Hdeps b Hab). split; [set_solver|].
    rewrite (decide_True (P := id = id)), (decide_False (P := b = id)) by congruence.
    apply Nat.lt_succ_r, max_list_elem_of_le, list_elem_of_fmap. eauto.
  - destruct (Hr a b Ha Hab) as [Hb Hlt]. split; [set_solver|].
    by rewrite !decide_False by congruence.
Qed.

(** What one call of [visit], or a run of calls, returns when the steps in
    [vi] are being visited: nothing but new visited steps, or a real cycle. *)
Definition visit_post (vi vs : gset string) (ids : list string)
    (r : result def_error marks) : Prop :=
  match r with
  | Ok (vi', vs') => vi' = vi ∧ vs ⊆ vs' ∧ (∀ id, id ∈ ids → id ∈ vs') ∧ (ranked vs → ranked vs')
  | Err e => ∃ c, e = ErrCycleAt c ∧ tc depends c c
  end.

Lemma visit_all_spec f vi ids :
  (∀ id vs, id ∈ ids → visit_post vi vs [id] (f id (vi, vs))) →
  ∀ vs, visit_post vi vs ids (visit_all f ids (vi, vs)).
Proof.
  induction ids as [|id ids IH]; intros Hf vs.
  { repeat split; try done. intros id Hid. by apply not_elem_of_nil in Hid. }
  simpl. pose proof (Hf id vs ltac:(by left)) as H1.
  destruct (f id (vi, vs)) as [[vi1 vs1]|e]; [|done]. simpl.
  destruct H1 as (-> & Hsub & Hid & Hrk).
  pose proof (IH ltac:(intros; apply Hf; by right) vs1) as H2.
  destruct (visit_all f ids (vi, vs1)) as [[vi2 vs2]|e]; [|done].
  destruct H2 as (-> & Hsub2 & Hids & Hrk2). repeat split; [set_solver| |auto].
  intros id' [->|?]%elem_of_cons; [|auto]. apply Hsub2, Hid. by left.
Qed.

Lemma visit_spec fuel id vi vs :
  id ∈ dom steps → vi ⊆ dom steps → size (dom steps) < fuel + size vi →
  (∀ v, v ∈ vi → tc depends v id) →
  visit_post vi vs [id] (visit fuel steps id (vi, vs)).
Proof.
  revert id vi vs. induction fuel as [|fuel IH]; intros id vi vs Hid Hvi Hf Hpath.
  { apply subseteq_size in Hvi. simpl in Hf. lia. }
  simpl. case_bool_decide as Hc; [exists id; auto|].
  case_bool_decide as Hd.
  { repeat split; [set_solver..|done]. }
  pose proof (visit_all_spec (visit fuel steps) ({[id]} ∪ vi) (deps_of steps id)) as Hall.
  specialize (Hall ltac:(intros dep vs' Hdep; apply IH; [by eapply closed|set_solver| |];
    [rewrite size_union, size_singleton by set_solver; lia|];
    intros v [->%elem_of_singleton|Hv]%elem_of_union; [by apply tc_once|];
    eapply tc_r; [by apply Hpath|done]) vs).
  destruct (visit_all _ _ _) as [[vi1 vs1]|e]; [|done]. simpl.
  destruct Hall as (-> & Hsub & Hdeps & Hrk). repeat split.
  - set_solver.
  - set_solver.
  - set_solver.
  - intros Hr. apply ranked_insert; auto.
Qed.

(** The loop over all steps. *)
Lemma visit_steps_spec ids :
  (∀ id, id ∈ ids → id ∈ dom steps) →
  match visit_all (visit (S (size steps)) steps) ids (∅, ∅) with
  | Ok (_, vs) => (∀ id, id ∈ ids → id ∈ vs) ∧ ranked vs
  | Err e => ∃ c, e = ErrCycleAt c ∧ tc depends c c
  end.
Proof.
  intros Hids. pose proof (visit_all_spec (visit (S (size steps)) steps) ∅ ids) as H.
  specialize (H ltac:(intros id vs Hid; apply visit_spec; [by apply Hids|set_solver| |set_solver];
    rewrite size_dom, size_empty; lia) ∅).
  destruct (visit_all _ _ _) as [[vi vs]|e]; [|done]. destruct H as (_ & _ & ? & Hr).
  split; [done|]. apply Hr, ranked_empty.
Qed.
End Visit.

(** ** Well-formed definitions *)

Record valid_definition (def : WorkflowDefinition) : Prop := {
  vd_nonempty : dfSteps def ≠ [];
  vd_ids : Forall (λ s, sdStepID s ≠ EmptyString) (dfSteps def);
  vd_nodup : NoDup (ids_of (dfSteps def));
  vd_result : dfResultStepID def ≠ EmptyString ∧ dfResultStepID def ∈ ids_of (dfSteps def);
  vd_deps : ∀ s dep, s ∈ dfSteps def → dep ∈ sdDependsOn s → dep ≠ EmptyString;
  vd_known : deps_known (dfSteps def);
  vd_acyclic : deps_acyclic (dfSteps def)
}.

(** [a] names a step that depends on [b]. *)
Definition step_depends (steps : list StepDefinition) (a b : string) : Prop :=
  ∃ s, s ∈ steps ∧ sdStepID s = a ∧ b ∈ sdDependsOn s.

(** What each error of [ValidateDefinition] says of the definition. *)
Definition error_reason (def : WorkflowDefinition) (e : def_error) : Prop :=
  match e with
  | ErrNoSteps => dfSteps def = []
  | ErrEmptyStepID i => ∃ s, dfSteps def !! i = Some s ∧ sdStepID s = EmptyString
  | ErrDuplicateStepID id => ∃ i j s t, i < j ∧ dfSteps def !! i = Some s ∧
      dfSteps def !! j = Some t ∧ sdStepID s = id ∧ sdStepID t = id
  | ErrResultStepRequired => dfResultStepID def = EmptyString
  | ErrResultStepUnknown id => id = dfResultStepID def ∧ id ∉ ids_of (dfSteps def)
  | ErrEmptyDependency id => step_depends (dfSteps def) id EmptyString
  | ErrUnknownDependency id dep => step_depends (dfSteps def) id dep ∧ dep ∉ ids_of (dfSteps def)
  | ErrCycleAt id => tc (step_depends (dfSteps def)) id id
  | ErrJSON | ErrCycleDetected | ErrVisitFuel => False
  end.

(** The map of the steps by ID. *)
Definition steps_map (done : list StepDefinition) (m : gmap string StepDefinition) : Prop :=
  (∀ id s, m !! id = Some s ↔ s ∈ done ∧ sdStepID s = id).

Lemma steps_map_dom done m id : steps_map done m → id ∈ dom m ↔ id ∈ ids_of done.
Proof.
  intros Hm. rewrite elem_of_dom. unfold ids_of. rewrite list_elem_of_fmap. split.
  - intros [s Hs]. apply Hm in Hs as [? <-]. eauto.
  - intros (s & -> & Hs). exists s. by apply Hm.
Qed.

Lemma steps_map_None done m id : steps_map done m → m !! id = None ↔ id ∉ ids_of done.
Proof. intros Hm. by rewrite <- (steps_map_dom done m id Hm), not_elem_of_dom. Qed.

Lemma collect_steps_spec done todo m :
  steps_map done m → NoDup (ids_of done) →
  match collect_steps (length done) todo m with
  | Ok m' => steps_map (done ++ todo) m' ∧ NoDup (ids_of (done ++ todo)) ∧
             Forall (λ s, sdStepID s ≠ EmptyString) todo
  | Err (ErrEmptyStepID i) => ∃ s, (done ++ todo) !! i = Some s ∧ sdStepID s = EmptyString
  | Err (ErrDuplicateStepID id) => ∃ i j s t, i < j ∧ (done ++ todo) !! i = Some s ∧
      (done ++ todo) !! j = Some t ∧ sdStepID s = id ∧ sdStepID t = id
  | Err _ => False
  end.
Proof.
  revert done m. induction todo as [|step todo IH]; intros done m Hm Hnd; simpl.
  { rewrite app_nil_r. split_and!; [done..|constructor]. }
  destruct (str_empty (sdStepID step)) eqn:He.
  { apply str_empty_true in He. exists step. by rewrite list_lookup_middle. }
  apply str_empty_false in He. destruct (m !! sdStepID step) as [s|] eqn:Hs.
  { apply Hm in Hs as [Hs Hid]. apply list_elem_of_lookup in Hs as [i Hi].
    pose proof (lookup_lt_Some _ _ _ Hi). exists i, (length done), s, step.
    rewrite lookup_app_l by done. by rewrite list_lookup_middle. }
  assert (Hni : sdStepID step ∉ ids_of done) by by apply (steps_map_None done m).
  specialize (IH (done ++ [step]) (<[sdStepID step:=step]> m)).
  rewrite length_app, Nat.add_1_r, <- app_assoc in IH. simpl in IH.
  assert (Hm' : steps_map (done ++ [step]) (<[sdStepID step:=step]> m)).
  { intros id s. rewrite lookup_insert_Some, elem_of_app, list_elem_of_singleton, (Hm id s).
    split; [naive_solver|]. intros [[Hs'| ->] <-]; [|auto]. right.
    split; [|done]. intros Heq. apply Hni. rewrite Heq. apply list_elem_of_fmap. eauto. }
  assert (Hnd' : NoDup (ids_of (done ++ [step]))).
  { unfold ids_of in *. rewrite map_app. apply NoDup_app.
    split_and!; [done| |apply NoDup_singleton].
    intros x Hx ->%list_elem_of_singleton. done. }
  specialize (IH Hm' Hnd'). destruct (collect_steps _ _ _) as [m'|e]; [|done].
  destruct IH as (? & ? & ?). split_and!; [done..|by constructor].
Qed.

Lemma check_deps_spec steps m stepID deps :
  steps_map steps m →
  match check_deps m stepID deps with
  | Ok _ => ∀ dep, dep ∈ deps → dep ≠ EmptyString ∧ dep ∈ ids_of steps
  | Err e => e = ErrEmptyDependency stepID ∧ EmptyString ∈ deps ∨
      ∃ dep, e = ErrUnknownDependency stepID dep ∧ dep ∈ deps ∧ dep ∉ ids_of steps
  end.
Proof.
  intros Hm. induction deps as [|dep deps IH]; simpl.
  { intros dep Hdep. by apply not_elem_of_nil in Hdep. }
  destruct (str_empty dep) eqn:He.
  { apply str_empty_true in He as ->. left. split; [done|by left]. }
  apply str_empty_false in He. destruct (m !! dep) as [s|] eqn:Hs.
  - assert (dep ∈ ids_of steps).
    { apply (steps_map_dom steps m); [done|]. apply elem_of_dom. eauto. }
    destruct (check_deps _ _ _) as [[]|e].
    + intros d [->|?]%elem_of_cons; auto.
    + destruct IH as [[-> ?]|(d & -> & ? & ?)]; [left; split; [done|by right]|].
      right. exists d. split_and!; [done|by right|done].
  - right. exists dep. split_and!; [done|by left|by apply (steps_map_None steps m)].
Qed.

Lemma check_all_deps_spec steps m todo :
  steps_map steps m → todo ⊆ steps →
  match check_all_deps m todo with
  | Ok _ => ∀ s dep, s ∈ todo → dep ∈ sdDependsOn s → dep ≠ EmptyString ∧ dep ∈ ids_of steps
  | Err (ErrEmptyDependency id) => step_depends steps id EmptyString
  | Err (ErrUnknownDependency id dep) => step_depends steps id dep ∧ dep ∉ ids_of steps
  | Err _ => False
  end.
Proof.
  intros Hm. induction todo as [|s todo IH]; intros Hsub; simpl.
  { intros s dep Hs. by apply not_elem_of_nil in Hs. }
  pose proof (check_deps_spec steps m (sdStepID s) (sdDependsOn s) Hm) as H.
  assert (Hs : s ∈ steps) by (apply Hsub; by left).
  specialize (IH ltac:(intros x Hx; apply Hsub; by right)).
  destruct (check_deps _ _ _) as [[]|e]; simpl.
  - destruct (check_all_deps m todo) as [[]|e]; [|done].
    intros s' dep [->|?]%elem_of_cons ?; [by apply H|by eapply IH].
  - destruct H as [[-> ?]|(dep & -> & ? & ?)]; [by exists s|split; [by exists s|done]].
Qed.

Section Accepted.
Context (steps : list StepDefinition) (m : gmap string StepDefinition).
Hypothesis Hm : steps_map steps m.

Lemma depends_iff a b : depends m a b ↔ step_depends steps a b.
Proof.
  unfold depends, deps_of, step_depends. split.
  - destruct (m !! a) as [s|] eqn:Hs; [|intros Hb; by apply not_elem_of_nil in Hb].
    apply Hm in Hs as [? ?]. eauto.
  - intros (s & Hs & Ha & Hb). by rewrite (proj2 (Hm a s)).
Qed.

Lemma depends_tc a b : tc (depends m) a b → tc (step_depends steps) a b.
Proof.
  induction 1 as [a b Hab|a b c Hab _ IH].
  - apply tc_once. by apply depends_iff.
  - eapply tc_l; [|done]. by apply depends_iff.
Qed.

Lemma ranked_acyclic X : (∀ id, id ∈ ids_of steps → id ∈ X) → ranked m X → deps_acyclic steps.
Proof.
  intros Hall [rank Hr]. exists rank. intros s dep Hs Hdep.
  apply (Hr (sdStepID s) dep).
  - apply Hall, list_elem_of_fmap. eauto.
  - apply depends_iff. by exists s.
Qed.

Lemma acyclic_no_loop : deps_acyclic steps → ∀ c, ¬ tc (step_depends steps) c c.
Proof.
  intros [rank Hr] c Hc.
  assert (∀ a b, tc (step_depends steps) a b → rank b < rank a) as H.
  { induction 1 as [a b (s & Hs & <- & Hb)|a b c' (s & Hs & <- & Hb) _ IH]; [by apply Hr|].
    specialize (Hr s b Hs Hb). lia. }
  specialize (H c c Hc). lia.
Qed.

Lemma visit_all_valid :
  deps_known steps →
  match visit_all (visit (S (size m)) m) (ids_of steps) (∅, ∅) with
  | Ok _ => deps_acyclic steps
  | Err e => ∃ c, e = ErrCycleAt c ∧ tc (step_depends steps) c c
  end.
Proof.
  intros Hk.
  assert (Hc : ∀ a b, depends m a b → b ∈ dom m).
  { intros a b (s & Hs & _ & Hb)%depends_iff. apply (steps_map_dom steps m b Hm).
    by apply (Hk s). }
  pose proof (visit_steps_spec m Hc (ids_of steps)
    ltac:(intros id Hid; by apply (steps_map_dom steps m id Hm))) as H.
  destruct (visit_all _ _ _) as [[vi vs]|e].
  - destruct H as [? ?]. by apply (ranked_acyclic vs).
  - destruct H as (c & -> & Hloop). exists c. split; [done|].
    by apply depends_tc.
Qed.
End Accepted.

Lemma validate_spec def :
  match ValidateDefinition def with
  | Ok _ => valid_definition def
  | Err e => error_reason def e
  end.
Proof.
  unfold ValidateDefinition.
  destruct (dfSteps def) as [|s0 l] eqn:Hne; [done|].
  assert (Hne' : dfSteps def ≠ []) by congruence. rewrite <- Hne. clear s0 l Hne.
  pose proof (collect_steps_spec [] (dfSteps def) ∅) as Hc. simpl in Hc.
  specialize (Hc ltac:(split; [rewrite lookup_empty; done|intros [H _]; by apply not_elem_of_nil in H])
                 ltac:(constructor)).
  destruct (collect_steps 0 (dfSteps def) ∅) as [m|e]; simpl; [|by destruct e].
  destruct Hc as (Hm & Hnd & Hids).
  destruct (str_empty (dfResultStepID def)) eqn:Hr; [by apply str_empty_true in Hr|].
  apply str_empty_false in Hr. destruct (m !! dfResultStepID def) as [s|] eqn:Hs.
  2:{ split; [done|]. by apply (steps_map_None _ m). }
  pose proof (check_all_deps_spec (dfSteps def) m (dfSteps def) Hm ltac:(done)) as Hd.
  destruct (check_all_deps m (dfSteps def)) as [[]|e]; simpl; [|by destruct e].
  assert (Hk : deps_known (dfSteps def)) by (intros ????; by eapply Hd).
  pose proof (visit_all_valid (dfSteps def) m Hm Hk) as Hv. fold (ids_of (dfSteps def)).
  destruct (visit_all _ _ _) as [[vi vs]|e]; simpl.
  - split; try done; [split; [done|]|by eapply Hd].
    apply (steps_map_dom _ m); [done|]. apply elem_of_dom. eauto.
  - by destruct Hv as (c & -> & ?).
Qed.

Lemma error_not_valid def e : error_reason def e → ¬ valid_definition def.
Proof.
  intros He [Hne Hids Hnd [Hr1 Hr2] Hdep Hk Ha]. destruct e; simpl in He; try done.
  - destruct He as (s & Hs & Hid). rewrite Forall_lookup in Hids. by apply (Hids i s).
  - destruct He as (i & j & s & t & Hij & Hi & Hj & Hs & Ht).
    assert (i = j); [|lia]. apply (NoDup_lookup_inj (ids_of (dfSteps def)) i j id); [done| |].
    + unfold ids_of. rewrite list_lookup_fmap, Hi. simpl. by rewrite Hs.
    + unfold ids_of. rewrite list_lookup_fmap, Hj. simpl. by rewrite Ht.
  - by destruct He as [-> ?].
  - destruct He as (s & ? & _ & ?). by apply (Hdep s EmptyString).
  - destruct He as [(s & ? & _ & ?) Hn]. by apply Hn, (Hk s).
  - by apply (acyclic_no_loop _ Ha stepID).
Qed.

(** C39: [ValidateDefinition] accepts exactly the well-formed definitions (steps
    with distinct non-empty IDs, a known result step, known dependencies, no
    dependency cycle), and each error it returns is true of the definition: in
    particular [ErrCycleAt id] names a step on a dependency cycle, and the
    recursive visit always ends. *)
Theorem ValidateDefinition_exact def :
  (ValidateDefinition def = Ok tt ↔ valid_definition def) ∧
  (∀ e, ValidateDefinition def = Err e → error_reason def e).
Proof.
  pose proof (validate_spec def) as H. destruct (ValidateDefinition def) as [[]|e].
  - split; [by split|done].
  - split; [split; [done|]|by intros ? [= <-]].
    intros Hv. by destruct (error_not_valid def e).
Qed.

(** [topologicalStepDefinitions] fails exactly when a dependency is unknown or
    the dependencies have a cycle; otherwise it returns the same steps, each
    after all the steps it depends on, and sorting the result again changes
    nothing (so step indices stay valid when the code normalizes repeatedly). *)
Theorem topological_order steps :
  NoDup (ids_of steps) →
  match topologicalStepDefinitions steps with
  | Ok ordered =>
      (deps_known steps ∧ deps_acyclic steps) ∧
      ordered ≡ₚ steps ∧ in_dependency_order ordered ∧
      topologicalStepDefinitions ordered = Ok ordered
  | Err _ => ¬ (deps_known steps ∧ deps_acyclic steps)
  end.
Proof.
  intros Hnd. pose proof (topological_spec steps) as H.
  destruct (topologicalStepDefinitions steps) as [ordered|e].
  - destruct H as (Hk & Ha & order & Hsb). pose proof (sorted_by_permutation _ _ _ Hsb) as Hp.
    split_and!.
    + done.
    + by apply edges_deps_acyclic.
    + done.
    + by eapply sorted_by_order.
    + apply topological_fixed; [by eapply deps_known_perm|by eapply sorted_layered].
  - intros [Hk Ha]. destruct H as [|Hn]; [done|]. by apply Hn, deps_acyclic_edges.
Qed.

(** ** ParseDefinition *)

Lemma apply_defaults_limits def :
  (0 < dfMaxAttempts (apply_defaults def))%Z ∧ (0 < dfTimeoutMs (apply_defaults def))%Z ∧
  Forall (λ s, (0 < sdMaxAttempts s)%Z ∧ (0 < sdTimeoutMs s)%Z) (dfSteps (apply_defaults def)).
Proof.
  unfold apply_defaults; simpl. split_and!; [case_match; lia..|].
  apply Forall_forall. intros s (s' & -> & _)%list_elem_of_fmap. simpl.
  repeat case_match; lia.
Qed.

(** The topological sort cannot fail on a validated definition. *)
Lemma valid_sorts def :
  valid_definition def →
  ∃ ordered, topologicalStepDefinitions (dfSteps def) = Ok ordered ∧
    ordered ≡ₚ dfSteps def ∧ in_dependency_order ordered.
Proof.
  intros [_ _ Hnd _ _ Hk Ha]. pose proof (topological_spec (dfSteps def)) as H.
  destruct (topologicalStepDefinitions (dfSteps def)) as [ordered|e].
  - destruct H as (_ & _ & order & Hsb). exists ordered.
    split_and!; [done|by eapply sorted_by_permutation|by eapply sorted_by_order].
  - destruct H as [|Hn]; [done|]. by destruct (Hn (deps_acyclic_edges _ Ha)).
Qed.

(** [ParseDefinition] succeeds exactly when the bytes decode and the decoded
    definition, with the defaults applied, is well formed (the sort after
    validation never fails); its result is that definition with its steps in
    dependency order, every retry limit and timeout positive, and a result step
    that exists. *)
Theorem ParseDefinition_spec `{DefinitionJSON} data :
  match ParseDefinition data with
  | Ok def => ∃ raw, unmarshalDefinition data = Some raw ∧
      let d := apply_defaults raw in
      valid_definition d ∧ def = with_Steps d (dfSteps def) ∧
      dfSteps def ≡ₚ dfSteps d ∧ in_dependency_order (dfSteps def) ∧
      dfResultStepID def ∈ ids_of (dfSteps def) ∧
      (0 < dfMaxAttempts def)%Z ∧ (0 < dfTimeoutMs def)%Z ∧
      Forall (λ s, (0 < sdMaxAttempts s)%Z ∧ (0 < sdTimeoutMs s)%Z) (dfSteps def)
  | Err ErrJSON => unmarshalDefinition data = None
  | Err e => ∃ raw, unmarshalDefinition data = Some raw ∧ error_reason (apply_defaults raw) e
  end.
Proof.
  unfold ParseDefinition. destruct (unmarshalDefinition data) as [raw|]; [|done].
  pose proof (validate_spec (apply_defaults raw)) as Hv.
  destruct (apply_defaults_limits raw) as (Hl1 & Hl2 & Hl3).
  destruct (ValidateDefinition (apply_defaults raw)) as [[]|e] eqn:He.
  - change (Ok () ≫= ?f) with (f ()). cbv beta.
    destruct (valid_sorts _ Hv) as (ordered & -> & Hp & Ho).
    change (Ok ordered ≫= ?f) with (f ordered). cbv beta. exists raw.
    unfold with_Steps; simpl. split_and!; try done.
    + destruct Hv as [_ _ _ [_ Hr] _ _ _]. unfold ids_of. rewrite Hp. done.
    + by rewrite Hp.
  - change (Err e ≫= ?f) with (Err (A := WorkflowDefinition) e). destruct e; try done; eauto.
Qed.

(** ** Concrete definitions *)
Definition sample_step (id : string) (deps : list string) : StepDefinition :=
  {| sdStepID := id; sdTaskName := id; sdFunctionName := "f"; sdFunctionSource := "";
     sdFunctionRef := ""; sdFunctionHash := ""; sdArgsJSON := []; sdDependsOn := deps;
     sdMaxAttempts := 2; sdTimeoutMs := 1000; sdLLMModelName := ""; sdLLMModelVersion := "";
     sdLLMAdapter := ""; sdLLMMaxTokens := 0 |}.

(** A diamond, submitted result first. *)
Definition sample_steps : list StepDefinition :=
  [sample_step "join" ["left"; "right"]; sample_step "right" ["root"];
   sample_step "left" ["root"]; sample_step "root" []].

Definition sample_def : WorkflowDefinition :=
  {| dfWorkflowName := "w"; dfFunctionSource := ""; dfFunctionRef := ""; dfFunctionHash := "";
     dfArgsJSON := []; dfSteps := sample_steps; dfResultStepID := "join";
     dfMaxAttempts := 3; dfTimeoutMs := 30000 |}.

Lemma topological_order_witness :
  ids_of <$> (match topologicalStepDefinitions sample_steps with Ok o => Some o | Err _ => None end)
    = Some ["root"; "right"; "left"; "join"]%string ∧
  ∃ ordered, topologicalStepDefinitions sample_steps = Ok ordered ∧
    ordered ≡ₚ sample_steps ∧ in_dependency_order ordered.
Proof.
  split; [vm_compute; reflexivity|].
  assert (Hnd : NoDup (ids_of sample_steps)).
  { apply (bool_decide_unpack _). vm_compute. exact I. }
  pose proof (topological_order sample_steps Hnd) as H.
  destruct (topologicalStepDefinitions sample_steps) as [o|e] eqn:E.
  - exists o. destruct H as (_ & ? & ? & _). done.
  - vm_compute in E. discriminate E.
Defined.
