(* ===== verification/WorkflowState.v ===== *)
(** Workflow runtime state: the second half of [internal/workflow/model.go].

    [State] carries the durable fields and [RuntimeDAG], the in-memory
    acceleration structure: dependency counters and a FIFO of ready steps that
    the setters update incrementally.  [wsDag] is [None] for a [State] whose
    [dag.byID] is nil (a zero value).  A nil and an empty byte slice are not
    distinguished in the step results (every copy goes through
    [append([]byte(nil), ...)], which maps both to nil); the [resolvedArgsJSON]
    argument keeps the difference, since the code tests it.  Value copies of a
    [State] share their slices in Go: every caller assigns the result back to
    the same variable, so the setters are functions of the state here.

    Theorems: the incremental counters always equal the rebuilt ones, the pop
    returns exactly the steps whose dependencies succeeded, and a workflow
    whose steps are all idle or done never gets stuck. *)
From S2P Require Import Prelude Bytes Kahn WorkflowDef.

Inductive WorkflowStatus :=
| WORKFLOW_STATUS_UNSPECIFIED
| WORKFLOW_STATUS_RUNNING
| WORKFLOW_STATUS_COMPLETED
| WORKFLOW_STATUS_FAILED.

Inductive WorkflowStepStatus :=
| WORKFLOW_STEP_STATUS_UNSPECIFIED
| WORKFLOW_STEP_STATUS_SCHEDULED
| WORKFLOW_STEP_STATUS_STARTED
| WORKFLOW_STEP_STATUS_SUCCEEDED
| WORKFLOW_STEP_STATUS_FAILED.

#[export] Instance WorkflowStatus_eq_dec : EqDecision WorkflowStatus.
Proof. solve_decision. Defined.
#[export] Instance WorkflowStepStatus_eq_dec : EqDecision WorkflowStepStatus.
Proof. solve_decision. Defined.

(** [StepState] *)
Record StepState := {
  ssStepID : string;
  ssTaskName : string;
  ssStatus : WorkflowStepStatus;
  ssAttempts : Z;
  ssTaskID : string;
  ssResultJSON : bytes;
  ssResultRef : string;
  ssError : string;
  ssStartedAtMs : Z;
  ssCompletedAtMs : Z;
  ssLatencyMs : Z;
  ssLastInputHash : string;
  ssResolvedArgsJSON : bytes;
  ssLastScheduledAtMs : Z
}.

(** [RuntimeDAG] *)
Record RuntimeDAG := {
  rdSteps : list StepState;
  rdByID : gmap string nat;
  rdOutgoing : list (list nat);
  rdRemainingDeps : list nat;
  rdReady : list nat;
  rdReadyHead : nat
}.

(** [State] *)
Record WorkflowState := {
  wsWorkflowID : string;
  wsWorkflowName : string;
  wsStatus : WorkflowStatus;
  wsDefinition : WorkflowDefinition;
  wsStepOrder : list string;
  wsResultJSON : bytes;
  wsResultRef : string;
  wsError : string;
  wsIdempotencyKey : string;
  wsIdempotencyFingerprint : string;
  wsCreatedAtMs : Z;
  wsUpdatedAtMs : Z;
  wsCompletedAtMs : Z;
  wsDag : option RuntimeDAG
}.

(** ** Field updates *)

Definition with_rdSteps (d : RuntimeDAG) (steps : list StepState) : RuntimeDAG :=
  {| rdSteps := steps; rdByID := rdByID d; rdOutgoing := rdOutgoing d;
     rdRemainingDeps := rdRemainingDeps d; rdReady := rdReady d; rdReadyHead := rdReadyHead d |}.
Definition with_rdRemaining (d : RuntimeDAG) (r : list nat) : RuntimeDAG :=
  {| rdSteps := rdSteps d; rdByID := rdByID d; rdOutgoing := rdOutgoing d;
     rdRemainingDeps := r; rdReady := rdReady d; rdReadyHead := rdReadyHead d |}.
Definition with_rdReady (d : RuntimeDAG) (ready : list nat) (head : nat) : RuntimeDAG :=
  {| rdSteps := rdSteps d; rdByID := rdByID d; rdOutgoing := rdOutgoing d;
     rdRemainingDeps := rdRemainingDeps d; rdReady := ready; rdReadyHead := head |}.

(** Definition, order and runtime graph replaced together ([RebuildRuntime]). *)
Definition with_runtime (s : WorkflowState) (def : WorkflowDefinition) (order : list string)
    (dag : option RuntimeDAG) : WorkflowState :=
  {| wsWorkflowID := wsWorkflowID s; wsWorkflowName := wsWorkflowName s; wsStatus := wsStatus s;
     wsDefinition := def; wsStepOrder := order; wsResultJSON := wsResultJSON s;
     wsResultRef := wsResultRef s; wsError := wsError s; wsIdempotencyKey := wsIdempotencyKey s;
     wsIdempotencyFingerprint := wsIdempotencyFingerprint s; wsCreatedAtMs := wsCreatedAtMs s;
     wsUpdatedAtMs := wsUpdatedAtMs s; wsCompletedAtMs := wsCompletedAtMs s; wsDag := dag |}.
Definition with_dag (s : WorkflowState) (d : RuntimeDAG) : WorkflowState :=
  with_runtime s (wsDefinition s) (wsStepOrder s) (Some d).
Definition with_UpdatedAtMs (s : WorkflowState) (nowMs : Z) : WorkflowState :=
  {| wsWorkflowID := wsWorkflowID s; wsWorkflowName := wsWorkflowName s; wsStatus := wsStatus s;
     wsDefinition := wsDefinition s; wsStepOrder := wsStepOrder s; wsResultJSON := wsResultJSON s;
     wsResultRef := wsResultRef s; wsError := wsError s; wsIdempotencyKey := wsIdempotencyKey s;
     wsIdempotencyFingerprint := wsIdempotencyFingerprint s; wsCreatedAtMs := wsCreatedAtMs s;
     wsUpdatedAtMs := nowMs; wsCompletedAtMs := wsCompletedAtMs s; wsDag := wsDag s |}.

(** The zero [State]. *)
Definition zero_def : WorkflowDefinition :=
  {| dfWorkflowName := ""; dfFunctionSource := ""; dfFunctionRef := ""; dfFunctionHash := "";
     dfArgsJSON := []; dfSteps := []; dfResultStepID := ""; dfMaxAttempts := 0; dfTimeoutMs := 0 |}.
Definition zero_state : WorkflowState :=
  {| wsWorkflowID := ""; wsWorkflowName := ""; wsStatus := WORKFLOW_STATUS_UNSPECIFIED;
     wsDefinition := zero_def; wsStepOrder := []; wsResultJSON := []; wsResultRef := "";
     wsError := ""; wsIdempotencyKey := ""; wsIdempotencyFingerprint := "";
     wsCreatedAtMs := 0; wsUpdatedAtMs := 0; wsCompletedAtMs := 0; wsDag := None |}.

(** ** The runtime graph *)

(** [existingByID] *)
Definition existing_by_id (existing : list StepState) : gmap string StepState :=
  foldl (λ m step, if str_empty (ssStepID step) then m else <[ssStepID step := step]> m)
    ∅ existing.

(** One iteration of the loop that fills [dag.steps]. *)
Definition merge_step (existing : gmap string StepState) (stepDef : StepDefinition) : StepState :=
  match existing !! sdStepID stepDef with
  | Some step =>
      {| ssStepID := sdStepID stepDef;
         ssTaskName := if str_empty (ssTaskName step) then sdTaskName stepDef else ssTaskName step;
         ssStatus := ssStatus step; ssAttempts := ssAttempts step; ssTaskID := ssTaskID step;
         ssResultJSON := ssResultJSON step; ssResultRef := ssResultRef step;
         ssError := ssError step; ssStartedAtMs := ssStartedAtMs step;
         ssCompletedAtMs := ssCompletedAtMs step; ssLatencyMs := ssLatencyMs step;
         ssLastInputHash := ssLastInputHash step; ssResolvedArgsJSON := ssResolvedArgsJSON step;
         ssLastScheduledAtMs := ssLastScheduledAtMs step |}
  | None =>
      {| ssStepID := sdStepID stepDef; ssTaskName := sdTaskName stepDef;
         ssStatus := WORKFLOW_STEP_STATUS_SCHEDULED; ssAttempts := 0; ssTaskID := "";
         ssResultJSON := []; ssResultRef := ""; ssError := ""; ssStartedAtMs := 0;
         ssCompletedAtMs := 0; ssLatencyMs := 0; ssLastInputHash := "";
         ssResolvedArgsJSON := []; ssLastScheduledAtMs := 0 |}
  end.

Definition succeeded (steps : list StepState) (i : nat) : bool :=
  match steps !! i with
  | Some s => bool_decide (ssStatus s = WORKFLOW_STEP_STATUS_SUCCEEDED)
  | None => false
  end.

(** The inner loop over [stepDef.DependsOn]: adjacency and unfinished dependencies. *)
Fixpoint link_deps (byID : gmap string nat) (steps : list StepState) (i : nat)
    (deps : list string) (g : list (list nat) * list nat) : list (list nat) * list nat :=
  match deps with
  | [] => g
  | dep :: deps =>
      match byID !! dep with
      | None => link_deps byID steps i deps g
      | Some depIdx =>
          let (outgoing, remaining) := g in
          link_deps byID steps i deps
            (alter (λ l, l ++ [i]) depIdx outgoing,
             if succeeded steps depIdx then remaining else alter S i remaining)
      end
  end.

Fixpoint link_steps (byID : gmap string nat) (steps : list StepState) (i : nat)
    (defs : list StepDefinition) (g : list (list nat) * list nat) : list (list nat) * list nat :=
  match defs with
  | [] => g
  | stepDef :: defs =>
      link_steps byID steps (S i) defs (link_deps byID steps i (sdDependsOn stepDef) g)
  end.

(** [stepReady] *)
Definition stepReady (d : RuntimeDAG) (idx : nat) : bool :=
  match rdSteps d !! idx, rdRemainingDeps d !! idx with
  | Some step, Some remaining =>
      Nat.eqb remaining 0 &&
      bool_decide (ssStatus step = WORKFLOW_STEP_STATUS_SCHEDULED) && str_empty (ssTaskID step)
  | _, _ => false
  end.

(** [buildRuntimeDAG] *)
Definition buildRuntimeDAG (def : WorkflowDefinition) (existing : list StepState) : RuntimeDAG :=
  let defs := dfSteps (normalizeDefinition def) in
  let n := length defs in
  let steps := map (merge_step (existing_by_id existing)) defs in
  let byID := index_ids 0 (map ssStepID steps) ∅ in  (* dag.byID[step.StepID] = len(dag.steps) *)
  let (outgoing, remaining) := link_steps byID steps 0 defs (replicate n [], replicate n 0) in
  let dag := {| rdSteps := steps; rdByID := byID; rdOutgoing := outgoing;
                rdRemainingDeps := remaining; rdReady := []; rdReadyHead := 0 |} in
  with_rdReady dag (filter (λ i, stepReady dag i = true) (seq 0 n)) 0.

(** [stepOrder] *)
Definition stepOrder (d : RuntimeDAG) : list string := map ssStepID (rdSteps d).

(** The scan of [popReady]: the first index still ready, and the head after it. *)
Fixpoint pop_scan (d : RuntimeDAG) (rest : list nat) (head : nat) : option (nat * nat) :=
  match rest with
  | [] => None
  | idx :: rest => if stepReady d idx then Some (idx, S head) else pop_scan d rest (S head)
  end.

(** [popReady] *)
Definition popReady (d : RuntimeDAG) : RuntimeDAG * option nat :=
  match pop_scan d (drop (rdReadyHead d) (rdReady d)) (rdReadyHead d) with
  | Some (idx, head) => (with_rdReady d (rdReady d) head, Some idx)
  | None => (with_rdReady d [] 0, None)
  end.

(** ** State operations *)

(** [NewState] *)
Definition NewState (workflowID : string) (def : WorkflowDefinition) (nowMs : Z) : WorkflowState :=
  let def := normalizeDefinition def in
  let dag := buildRuntimeDAG def [] in
  {| wsWorkflowID := workflowID; wsWorkflowName := dfWorkflowName def;
     wsStatus := WORKFLOW_STATUS_RUNNING; wsDefinition := def; wsStepOrder := stepOrder dag;
     wsResultJSON := []; wsResultRef := ""; wsError := ""; wsIdempotencyKey := "";
     wsIdempotencyFingerprint := ""; wsCreatedAtMs := nowMs; wsUpdatedAtMs := nowMs;
     wsCompletedAtMs := 0; wsDag := Some dag |}.

(** [RebuildRuntime] *)
Definition RebuildRuntime (s : WorkflowState) : WorkflowState :=
  let steps := match wsDag s with Some d => rdSteps d | None => [] end in
  let def := normalizeDefinition (wsDefinition s) in
  let dag := buildRuntimeDAG def steps in
  with_runtime s def (stepOrder dag) (Some dag).

(** [ensureRuntime], with the runtime graph it leaves in the state. *)
Definition ensureRuntime (s : WorkflowState) : WorkflowState :=
  match wsDag s with
  | Some d => if Nat.eqb (length (rdSteps d)) (length (wsStepOrder s)) then s else RebuildRuntime s
  | None => RebuildRuntime s
  end.

(** The runtime graph of a state whose [byID] is not nil. *)
Definition dag_of (s : WorkflowState) : RuntimeDAG :=
  match wsDag s with
  | Some d => d
  | None => buildRuntimeDAG (wsDefinition s) []
  end.

(** [if s.dag.byID == nil { s.RebuildRuntime() }], on the value receiver. *)
Definition rebuilt (s : WorkflowState) : WorkflowState :=
  match wsDag s with Some _ => s | None => RebuildRuntime s end.

(** [Step] *)
Definition Step (s : WorkflowState) (stepID : string) : option StepState :=
  let d := dag_of (rebuilt s) in rdByID d !! stepID ≫= λ idx, rdSteps d !! idx.

(** [StepStatesInOrder] *)
Definition StepStatesInOrder (s : WorkflowState) : list StepState := rdSteps (dag_of (rebuilt s)).

(** [StepAt] *)
Definition StepAt (s : WorkflowState) (idx : nat) : option (StepDefinition * StepState) :=
  let s := rebuilt s in
  step ← rdSteps (dag_of s) !! idx;
  stepDef ← dfSteps (wsDefinition s) !! idx;
  Some (stepDef, step).

Definition with_StepID (step : StepState) (stepID : string) : StepState :=
  {| ssStepID := stepID; ssTaskName := ssTaskName step; ssStatus := ssStatus step;
     ssAttempts := ssAttempts step; ssTaskID := ssTaskID step; ssResultJSON := ssResultJSON step;
     ssResultRef := ssResultRef step; ssError := ssError step;
     ssStartedAtMs := ssStartedAtMs step; ssCompletedAtMs := ssCompletedAtMs step;
     ssLatencyMs := ssLatencyMs step; ssLastInputHash := ssLastInputHash step;
     ssResolvedArgsJSON := ssResolvedArgsJSON step; ssLastScheduledAtMs := ssLastScheduledAtMs step |}.

(** [UpdateStep]; [None] is the nil callback. *)
Definition UpdateStep (s : WorkflowState) (stepID : string) (fn : option (StepState → StepState)) :
    WorkflowState * bool :=
  match fn with
  | None => (s, false)
  | Some fn =>
      let s := ensureRuntime s in
      let d := dag_of s in
      match rdByID d !! stepID ≫= λ idx, (idx,.) <$> rdSteps d !! idx with
      | None => (s, false)
      | Some (idx, old) =>
          let step := fn old in
          let step := if str_empty (ssStepID step) then with_StepID step stepID else step in
          let s := with_dag s (with_rdSteps d (<[idx := step]> (rdSteps d))) in
          if bool_decide (ssStatus step ≠ ssStatus old) || bool_decide (ssTaskID step ≠ ssTaskID old)
          then (RebuildRuntime s, true) else (s, true)
      end
  end.

(** The loop of [PopReadyStep]; each round moves the queue's head. *)
Fixpoint pop_ready_loop (fuel : nat) (s : WorkflowState) (d : RuntimeDAG) :
    WorkflowState * option (StepDefinition * StepState) :=
  match fuel with
  | O => (with_dag s d, None)
  | S fuel =>
      match popReady d with
      | (d, None) => (with_dag s d, None)
      | (d, Some idx) =>
          match dfSteps (wsDefinition s) !! idx, rdSteps d !! idx with
          | Some stepDef, Some step => (with_dag s d, Some (stepDef, step))
          | _, _ => pop_ready_loop fuel s d
          end
      end
  end.

(** [PopReadyStep] *)
Definition PopReadyStep (s : WorkflowState) : WorkflowState * option (StepDefinition * StepState) :=
  let s := ensureRuntime s in
  let d := dag_of s in
  pop_ready_loop (S (length (rdReady d))) s d.

(** [s.ensureRuntime(); idx, ok := s.dag.byID[stepID]] and the step there.  An
    index out of range would panic in Go; [byID] is built along [steps]. *)
Definition find_step (d : RuntimeDAG) (stepID : string) : option (nat * StepState) :=
  rdByID d !! stepID ≫= λ idx, (idx,.) <$> rdSteps d !! idx.

(** [s.dag.steps[idx] = step; s.UpdatedAtMs = nowMs] *)
Definition put_step (s : WorkflowState) (d : RuntimeDAG) (idx : nat) (step : StepState)
    (nowMs : Z) : WorkflowState :=
  with_UpdatedAtMs (with_dag s (with_rdSteps d (<[idx := step]> (rdSteps d)))) nowMs.

(** [SetStepScheduled]; [resolvedArgsJSON] is [None] when nil. *)
Definition SetStepScheduled (s : WorkflowState) (stepID taskID : string) (attempt : Z)
    (inputHash : string) (resolvedArgsJSON : option bytes) (nowMs : Z) : WorkflowState * bool :=
  let s := ensureRuntime s in
  let d := dag_of s in
  match find_step d stepID with
  | None => (s, false)
  | Some (idx, step) =>
      let step :=
        {| ssStepID := ssStepID step; ssTaskName := ssTaskName step;
           ssStatus := WORKFLOW_STEP_STATUS_SCHEDULED; ssAttempts := attempt; ssTaskID := taskID;
           ssResultJSON := ssResultJSON step; ssResultRef := ssResultRef step; ssError := "";
           ssStartedAtMs := ssStartedAtMs step; ssCompletedAtMs := ssCompletedAtMs step;
           ssLatencyMs := ssLatencyMs step; ssLastInputHash := inputHash;
           ssResolvedArgsJSON := default (ssResolvedArgsJSON step) resolvedArgsJSON;
           ssLastScheduledAtMs := nowMs |} in
      (put_step s d idx step nowMs, true)
  end.

(** [SetStepStarted] *)
Definition SetStepStarted (s : WorkflowState) (stepID taskID : string) (nowMs : Z) :
    WorkflowState * bool :=
  let s := ensureRuntime s in
  let d := dag_of s in
  match find_step d stepID with
  | None => (s, false)
  | Some (idx, step) =>
      if bool_decide (ssStatus step = WORKFLOW_STEP_STATUS_SUCCEEDED) then (s, true)
      else
        let step :=
          {| ssStepID := ssStepID step; ssTaskName := ssTaskName step;
             ssStatus := WORKFLOW_STEP_STATUS_STARTED; ssAttempts := ssAttempts step;
             ssTaskID := taskID; ssResultJSON := ssResultJSON step;
             ssResultRef := ssResultRef step; ssError := ssError step; ssStartedAtMs := nowMs;
             ssCompletedAtMs := ssCompletedAtMs step; ssLatencyMs := ssLatencyMs step;
             ssLastInputHash := ssLastInputHash step;
             ssResolvedArgsJSON := ssResolvedArgsJSON step;
             ssLastScheduledAtMs := ssLastScheduledAtMs step |} in
        (put_step s d idx step nowMs, true)
  end.

(** The loop over [s.dag.outgoing[idx]] after a first success. *)
Fixpoint unlock (outs : list nat) (d : RuntimeDAG) : RuntimeDAG :=
  match outs with
  | [] => d
  | next :: outs =>
      if Nat.leb (length (rdRemainingDeps d)) next then unlock outs d
      else
        let d := with_rdRemaining d (alter pred next (rdRemainingDeps d)) in
        let d := if stepReady d next then with_rdReady d (rdReady d ++ [next]) (rdReadyHead d) else d in
        unlock outs d
  end.

(** [SetStepSucceeded] *)
Definition SetStepSucceeded (s : WorkflowState) (stepID taskID : string) (resultJSON : bytes)
    (resultRef : string) (nowMs latencyMs : Z) : WorkflowState * bool :=
  let s := ensureRuntime s in
  let d := dag_of s in
  match find_step d stepID with
  | None => (s, false)
  | Some (idx, step) =>
      let wasSucceeded := bool_decide (ssStatus step = WORKFLOW_STEP_STATUS_SUCCEEDED) in
      let step :=
        {| ssStepID := ssStepID step; ssTaskName := ssTaskName step;
           ssStatus := WORKFLOW_STEP_STATUS_SUCCEEDED; ssAttempts := ssAttempts step;
           ssTaskID := taskID; ssResultJSON := resultJSON; ssResultRef := resultRef;
           ssError := ""; ssStartedAtMs := ssStartedAtMs step; ssCompletedAtMs := nowMs;
           ssLatencyMs := latencyMs; ssLastInputHash := ssLastInputHash step;
           ssResolvedArgsJSON := ssResolvedArgsJSON step;
           ssLastScheduledAtMs := ssLastScheduledAtMs step |} in
      let s := put_step s d idx step nowMs in
      if wasSucceeded then (s, true)
      else
        let d := dag_of s in
        (with_dag s (unlock (default [] (rdOutgoing d !! idx)) d), true)
  end.

(** [SetStepFailed] *)
Definition SetStepFailed (s : WorkflowState) (stepID taskID stepErr : string) (retry : bool)
    (nowMs latencyMs : Z) : WorkflowState * bool :=
  let s := ensureRuntime s in
  let d := dag_of s in
  match find_step d stepID with
  | None => (s, false)
  | Some (idx, step) =>
      let step :=
        {| ssStepID := ssStepID step; ssTaskName := ssTaskName step;
           ssStatus := if retry then WORKFLOW_STEP_STATUS_SCHEDULED
                       else WORKFLOW_STEP_STATUS_FAILED;
           ssAttempts := ssAttempts step; ssTaskID := if retry then EmptyString else taskID;
           ssResultJSON := ssResultJSON step; ssResultRef := ssResultRef step;
           ssError := stepErr; ssStartedAtMs := ssStartedAtMs step; ssCompletedAtMs := nowMs;
           ssLatencyMs := latencyMs; ssLastInputHash := ssLastInputHash step;
           ssResolvedArgsJSON := ssResolvedArgsJSON step;
           ssLastScheduledAtMs := ssLastScheduledAtMs step |} in
      let s := put_step s d idx step nowMs in
      let d := dag_of s in
      if retry && stepReady d idx
      then (with_dag s (with_rdReady d (rdReady d ++ [idx]) (rdReadyHead d)), true)
      else (s, true)
  end.

(** [AllStepsSucceeded] *)
Definition AllStepsSucceeded (s : WorkflowState) : bool :=
  forallb (λ step, bool_decide (ssStatus step = WORKFLOW_STEP_STATUS_SUCCEEDED))
    (StepStatesInOrder s).

(** [CloneState]: a deep copy, after the rebuild of a missing runtime graph. *)
Definition CloneState (s : WorkflowState) : WorkflowState := rebuilt s.

(** [DependenciesSucceeded] (args.go) *)
Definition DependenciesSucceeded (step : StepDefinition) (s : WorkflowState) : bool :=
  forallb (λ dep, match Step s dep with
                  | Some st => bool_decide (ssStatus st = WORKFLOW_STEP_STATUS_SUCCEEDED)
                  | None => false
                  end) (sdDependsOn step).

(** ** The graph a rebuild computes *)

(** The indices of the steps that succeeded. *)
Definition done_of (steps : list StepState) : list nat :=
  filter (λ i, succeeded steps i = true) (seq 0 (length steps)).

Lemma done_of_elem steps i : i ∈ done_of steps ↔ succeeded steps i = true.
Proof.
  unfold done_of. rewrite list_elem_of_filter, elem_of_seq. split; [tauto|].
  intros Hs. split; [done|]. unfold succeeded in Hs.
  destruct (steps !! i) eqn:Hi; [|done]. apply lookup_lt_Some in Hi. lia.
Qed.

Lemma unproc_ext E done done' i :
  (∀ d, d ∈ done ↔ d ∈ done') → unproc E done i = unproc E done' i.
Proof.
  intros H. unfold unproc. f_equal. apply list_filter_iff. intros [d j]. simpl.
  by rewrite H.
Qed.

Record linked (n : nat) (E : list (nat * nat)) (done : list nat)
    (outgoing : list (list nat)) (remaining : list nat) : Prop := {
  lk_out d : d < n → outgoing !! d = Some (out_of E d);
  lk_rem i : i < n → remaining !! i = Some (unproc E done i);
  lk_out_length : length outgoing = n;
  lk_rem_length : length remaining = n
}.

Lemma linked_unique n E done o r o' r' : linked n E done o r → linked n E done o' r' → o = o' ∧ r = r'.
Proof.
  intros [Ho Hr Hlo Hlr] [Ho' Hr' Hlo' Hlr']. split; apply list_eq; intros i;
    (destruct (decide (i < n)); [|rewrite !lookup_ge_None_2 by lia; done]).
  - by rewrite Ho, Ho'.
  - by rewrite Hr, Hr'.
Qed.

Lemma linked_init n done : linked n [] done (replicate n []) (replicate n 0).
Proof.
  split; intros; rewrite ?length_replicate; try done; by rewrite lookup_replicate_2.
Qed.

Lemma linked_add n E steps o r d i :
  linked n E (done_of steps) o r → d < n → i < n →
  linked n (E ++ [(d, i)]) (done_of steps) (alter (λ l, l ++ [i]) d o)
    (if succeeded steps d then r else alter S i r).
Proof.
  intros [Ho Hr Hlo Hlr] Hd Hi. split.
  - intros e He. rewrite out_of_app. unfold out_of at 2. rewrite filter_cons, filter_nil. simpl.
    destruct (decide (d = e)) as [<-|Hne].
    + by rewrite list_lookup_alter_eq, Ho.
    + rewrite list_lookup_alter_ne, Ho by done. by rewrite app_nil_r.
  - intros j Hj. rewrite unproc_app. unfold unproc at 2. rewrite filter_cons, filter_nil. simpl.
    pose proof (done_of_elem steps d) as Hdone. destruct (succeeded steps d).
    + rewrite decide_False by (intros [_ Hn]; apply Hn; by apply Hdone).
      rewrite Hr by done. simpl. by rewrite Nat.add_0_r.
    + assert (d ∉ done_of steps) by (intros Hin; by apply Hdone in Hin).
      destruct (decide (i = j)) as [<-|Hne].
      * rewrite decide_True by done. rewrite list_lookup_alter_eq, Hr by done. simpl. f_equal. lia.
      * rewrite decide_False by naive_solver.
        rewrite list_lookup_alter_ne, Hr by done. simpl. by rewrite Nat.add_0_r.
  - by rewrite length_alter.
  - destruct (succeeded steps d); [done|by rewrite length_alter].
Qed.

Lemma link_deps_spec byID steps i deps n E g :
  linked n E (done_of steps) g.1 g.2 → i < n → (∀ dep d, byID !! dep = Some d → d < n) →
  let g' := link_deps byID steps i deps g in
  linked n (E ++ dep_edges byID i deps) (done_of steps) g'.1 g'.2.
Proof.
  intros Hg Hi Hb. revert g E Hg. induction deps as [|dep deps IH]; intros [o r] E Hg; simpl.
  { by rewrite app_nil_r. }
  unfold dep_edges. simpl. destruct (byID !! dep) as [d|] eqn:Hd; simpl; [|by apply IH].
  change (E ++ (d, i) :: ?l) with (E ++ [(d, i)] ++ l). rewrite app_assoc.
  apply IH. apply linked_add; eauto.
Qed.

Lemma link_steps_spec byID steps i defs n E g :
  linked n E (done_of steps) g.1 g.2 → i + length defs <= n →
  (∀ dep d, byID !! dep = Some d → d < n) →
  let g' := link_steps byID steps i defs g in
  linked n (E ++ edges_from byID i defs) (done_of steps) g'.1 g'.2.
Proof.
  intros Hg Hi Hb. revert i g E Hg Hi. induction defs as [|s defs IH]; intros i g E Hg Hi; simpl in *.
  { by rewrite app_nil_r. }
  rewrite app_assoc. apply IH; [|lia]. apply link_deps_spec; [done|lia|done].
Qed.

Lemma index_ids_steps i defs m : index_ids i (map sdStepID defs) m = index_steps i defs m.
Proof. revert i m. induction defs; intros; simpl; auto. Qed.

Lemma merge_step_id existing d : ssStepID (merge_step existing d) = sdStepID d.
Proof. unfold merge_step. by destruct (existing !! sdStepID d). Qed.

Lemma merge_steps_ids existing defs : map ssStepID (map (merge_step existing) defs) = ids_of defs.
Proof.
  unfold ids_of. rewrite map_map. apply map_ext. intros. apply merge_step_id.
Qed.

(** The runtime graph of [defs] and [steps], apart from the ready queue. *)
Record graph_ok (defs : list StepDefinition) (d : RuntimeDAG) : Prop := {
  gk_ids : map ssStepID (rdSteps d) = ids_of defs;
  gk_names i sd st : defs !! i = Some sd → rdSteps d !! i = Some st →
    ssTaskName st = EmptyString → sdTaskName sd = EmptyString;
  gk_byID : rdByID d = by_id defs;
  gk_linked : linked (length defs) (step_edges defs) (done_of (rdSteps d))
                (rdOutgoing d) (rdRemainingDeps d)
}.

(** The part of [graph_ok] that every operation keeps, whatever the events. *)
Record steps_ok (defs : list StepDefinition) (d : RuntimeDAG) : Prop := {
  so_ids : map ssStepID (rdSteps d) = ids_of defs;
  so_names i sd st : defs !! i = Some sd → rdSteps d !! i = Some st →
    ssTaskName st = EmptyString → sdTaskName sd = EmptyString;
  so_byID : rdByID d = by_id defs
}.

Lemma graph_ok_steps defs d : graph_ok defs d → steps_ok defs d.
Proof. by intros []. Qed.

(** Every ready step is in the queue. *)
Definition queue_ok (d : RuntimeDAG) : Prop :=
  rdReadyHead d <= length (rdReady d) ∧
  ∀ i, stepReady d i = true → i ∈ drop (rdReadyHead d) (rdReady d).

(** [d.ready = append(d.ready, i)] *)
Lemma enqueue_drop (q : list nat) h i j :
  h <= length q → j ∈ drop h (q ++ [i]) ↔ j ∈ drop h q ∨ j = i.
Proof.
  intros Hh. rewrite drop_app_le by done. by rewrite elem_of_app, list_elem_of_singleton.
Qed.

Lemma buildRuntimeDAG_ok def existing :
  let defs := dfSteps (normalizeDefinition def) in
  let d := buildRuntimeDAG def existing in
  graph_ok defs d ∧ queue_ok d ∧ rdReadyHead d = 0 ∧
  rdSteps d = map (merge_step (existing_by_id existing)) defs.
Proof.
  cbv zeta. unfold buildRuntimeDAG. set (defs := dfSteps (normalizeDefinition def)).
  set (steps := map (merge_step (existing_by_id existing)) defs).
  assert (Hids : map ssStepID steps = ids_of defs) by apply merge_steps_ids.
  assert (Hby : index_ids 0 (map ssStepID steps) ∅ = by_id defs).
  { rewrite Hids. apply index_ids_steps. }
  rewrite Hby. pose proof (link_steps_spec (by_id defs) steps 0 defs (length defs) []
    (replicate (length defs) [], replicate (length defs) 0)) as H. cbv zeta in H.
  assert (Hb : ∀ dep d, by_id defs !! dep = Some d → d < length defs).
  { intros dep d Hd. apply by_id_Some in Hd as (s & Hs & _). by eapply lookup_lt_Some. }
  specialize (H (linked_init _ _) ltac:(lia) Hb).
  destruct (link_steps _ _ _ _ _) as [outgoing remaining]. simpl in H.
  split_and!; [split; [done| |done..]| |done|done].
  { intros i sd st Hsd Hst. simpl in Hst. unfold steps in Hst.
    rewrite list_lookup_fmap, Hsd in Hst. simpl in Hst. simplify_eq. unfold merge_step.
    destruct (existing_by_id existing !! sdStepID sd) as [st'|]; simpl; [|done].
    by destruct (str_empty (ssTaskName st')) eqn:He; [|apply str_empty_false in He]. }
  split; [simpl; lia|]. intros i Hi. simpl. rewrite drop_0. apply list_elem_of_filter. split; [done|].
  unfold stepReady in Hi. simpl in Hi. destruct (steps !! i) eqn:Hs; [|done].
  apply lookup_lt_Some in Hs. apply elem_of_seq. unfold steps in Hs.
  rewrite length_map in Hs. lia.
Qed.

(** ** The invariant of the runtime state *)

(** A definition as [ParseDefinition] returns it: distinct step IDs, sorted. *)
Definition sorted_def (def : WorkflowDefinition) : Prop :=
  NoDup (ids_of (dfSteps def)) ∧ topologicalStepDefinitions (dfSteps def) = Ok (dfSteps def) ∧
  Forall (λ s, sdStepID s ≠ EmptyString) (dfSteps def).

Lemma sorted_normal def : sorted_def def → normalizeDefinition def = def.
Proof. intros (_ & Ht & _). unfold normalizeDefinition. rewrite Ht. by destruct def. Qed.

Lemma sorted_def_known def : sorted_def def → deps_known (dfSteps def).
Proof.
  intros (_ & Ht & _). pose proof (topological_spec (dfSteps def)) as H. rewrite Ht in H. tauto.
Qed.

(** Along a sorted list the edges go forward. *)
Lemma sorted_def_forward def d i :
  sorted_def def → (d, i) ∈ step_edges (dfSteps def) → d < i.
Proof.
  intros (Hnd & Ht & _) (s & dep & Hi & Hdep & Hd)%step_edges_elem.
  pose proof (topological_spec (dfSteps def)) as H. rewrite Ht in H.
  destruct H as (Hk & _ & order & Hsb).
  pose proof (sorted_by_order _ _ _ Hk Hsb i s dep Hi Hdep) as Hin.
  apply list_elem_of_fmap in Hin as (s' & Heq & Hs').
  apply elem_of_take_lookup in Hs' as (k & Hki & Hks').
  pose proof (by_id_nodup _ _ _ Hnd Hks') as Hby. rewrite <- Heq in Hby. congruence.
Qed.

Record runtime_ok (s : WorkflowState) : Prop := {
  ro_def : sorted_def (wsDefinition s);
  ro_order : wsStepOrder s = ids_of (dfSteps (wsDefinition s));
  ro_dag : ∃ d, wsDag s = Some d ∧ graph_ok (dfSteps (wsDefinition s)) d ∧ queue_ok d
}.

Lemma steps_ok_length defs d : steps_ok defs d → length (rdSteps d) = length defs.
Proof.
  intros [Hids _ _]. apply (f_equal length) in Hids. unfold ids_of in Hids.
  by rewrite !length_map in Hids.
Qed.

Lemma graph_ok_length defs d : graph_ok defs d → length (rdSteps d) = length defs.
Proof. intros. by apply steps_ok_length, graph_ok_steps. Qed.

Lemma runtime_ok_ensure s : runtime_ok s → ensureRuntime s = s.
Proof.
  intros [_ Ho (d & Hd & Hg & _)]. unfold ensureRuntime. rewrite Hd, Ho.
  rewrite (graph_ok_length _ _ Hg). unfold ids_of. by rewrite length_map, Nat.eqb_refl.
Qed.

Lemma runtime_ok_rebuilt s : runtime_ok s → rebuilt s = s.
Proof. intros [_ _ (d & Hd & _)]. unfold rebuilt. by rewrite Hd. Qed.

Lemma NewState_ok workflowID def nowMs : sorted_def def → runtime_ok (NewState workflowID def nowMs).
Proof.
  intros Hs. unfold NewState. rewrite (sorted_normal def Hs).
  destruct (buildRuntimeDAG_ok def []) as (Hg & Hq & _). rewrite (sorted_normal def Hs) in Hg.
  split; simpl; [done| |by eauto]. by apply gk_ids.
Qed.

(** The steps of a graph, found by ID. *)
Lemma find_step_Some defs d id idx step :
  steps_ok defs d → NoDup (ids_of defs) →
  find_step d id = Some (idx, step) ↔ rdSteps d !! idx = Some step ∧ ssStepID step = id.
Proof.
  intros [Hids _ Hby] Hnd. unfold find_step. rewrite Hby. split.
  - intros H. destruct (by_id defs !! id) as [i|] eqn:Hi; [|done]. simpl in H.
    destruct (rdSteps d !! i) as [st|] eqn:Hst; [|done]. simplify_eq/=. split; [done|].
    apply by_id_Some in Hi as (sd & Hsd & <-).
    assert (map ssStepID (rdSteps d) !! idx = Some (ssStepID step)) as H.
    { by rewrite list_lookup_fmap, Hst. }
    rewrite Hids in H. unfold ids_of in H. rewrite list_lookup_fmap, Hsd in H. by simplify_eq/=.
  - intros [Hst Hid].
    assert (ids_of defs !! idx = Some id) as H.
    { rewrite <- Hids, list_lookup_fmap, Hst. simpl. by rewrite Hid. }
    unfold ids_of in H. rewrite list_lookup_fmap in H.
    destruct (defs !! idx) as [sd|] eqn:Hsd; [|done]. simplify_eq/=.
    rewrite <- H, (by_id_nodup defs idx sd) by done. simpl. by rewrite Hst.
Qed.

Lemma succeeded_insert steps idx old step i :
  steps !! idx = Some old →
  succeeded (<[idx:=step]> steps) i =
  (if decide (i = idx) then bool_decide (ssStatus step = WORKFLOW_STEP_STATUS_SUCCEEDED)
   else succeeded steps i).
Proof.
  intros Hold. unfold succeeded. case_decide as Hi.
  - subst. rewrite list_lookup_insert_eq; [done|]. by eapply lookup_lt_Some.
  - by rewrite list_lookup_insert_ne.
Qed.

Lemma linked_ext n E done done' o r :
  (∀ d, d ∈ done ↔ d ∈ done') → linked n E done o r → linked n E done' o r.
Proof.
  intros H [Ho Hr Hlo Hlr]. split; [done| |done..].
  intros i Hi. rewrite Hr by done. by rewrite (unproc_ext E done done' i H).
Qed.

Lemma map_insert_same {A B} (f : A → B) l i x y :
  l !! i = Some x → f y = f x → map f (<[i:=y]> l) = map f l.
Proof.
  intros Hi Hf. change (map f) with (fmap (M := list) f). rewrite list_fmap_insert, Hf.
  apply list_insert_id. by rewrite list_lookup_fmap, Hi.
Qed.

Lemma put_names (defs : list StepDefinition) (steps : list StepState) idx (old step : StepState) :
  (∀ i sd st, defs !! i = Some sd → steps !! i = Some st →
     ssTaskName st = EmptyString → sdTaskName sd = EmptyString) →
  steps !! idx = Some old → ssTaskName step = ssTaskName old →
  ∀ i sd st, defs !! i = Some sd → <[idx:=step]> steps !! i = Some st →
    ssTaskName st = EmptyString → sdTaskName sd = EmptyString.
Proof.
  intros Hnm Hold Htn i sd st Hsd Hst He.
  apply list_lookup_insert_Some in Hst as [(Hi & Heq & _)|[_ Hst]]; [|by eapply Hnm].
  subst i st. apply (Hnm idx sd old); [done..|]. by rewrite <- Htn.
Qed.

(** Replacing a step whose success does not change keeps the graph. *)
Lemma put_graph_ok defs d idx old step :
  graph_ok defs d → rdSteps d !! idx = Some old → ssStepID step = ssStepID old →
  ssTaskName step = ssTaskName old →
  (ssStatus step = WORKFLOW_STEP_STATUS_SUCCEEDED ↔ ssStatus old = WORKFLOW_STEP_STATUS_SUCCEEDED) →
  graph_ok defs (with_rdSteps d (<[idx:=step]> (rdSteps d))).
Proof.
  intros [Hids Hnm Hby Hl] Hold Hid Htn Hst. split; simpl; [| |done|].
  - by rewrite (map_insert_same _ _ _ old).
  - by apply (put_names _ _ idx old).
  - eapply linked_ext; [|done]. intros i. rewrite !done_of_elem, (succeeded_insert _ _ old) by done.
    case_decide; [|done]. subst. unfold succeeded. rewrite Hold, !bool_decide_eq_true. by rewrite Hst.
Qed.

Lemma stepReady_put d idx step i :
  i ≠ idx → stepReady (with_rdSteps d (<[idx:=step]> (rdSteps d))) i = stepReady d i.
Proof. intros Hi. unfold stepReady. simpl. by rewrite list_lookup_insert_ne. Qed.

Lemma put_queue_ok d idx step :
  let d' := with_rdSteps d (<[idx:=step]> (rdSteps d)) in
  queue_ok d → (stepReady d' idx = true → idx ∈ drop (rdReadyHead d) (rdReady d)) → queue_ok d'.
Proof.
  intros d' [Hh Hq] Hidx. split; [done|]. intros i Hi. destruct (decide (i = idx)) as [->|Hne]; [by apply Hidx|].
  unfold d' in Hi. rewrite stepReady_put in Hi by done. by apply Hq.
Qed.

(** A busy or finished step is not ready. *)
Lemma put_not_ready d idx old step :
  rdSteps d !! idx = Some old →
  ssStatus step ≠ WORKFLOW_STEP_STATUS_SCHEDULED ∨ ssTaskID step ≠ EmptyString →
  stepReady (with_rdSteps d (<[idx:=step]> (rdSteps d))) idx = false.
Proof.
  intros Hold Hb. unfold stepReady. simpl.
  rewrite list_lookup_insert_eq by (by eapply lookup_lt_Some).
  destruct (rdRemainingDeps d !! idx); [|done]. destruct Hb as [Hs|Ht].
  - by rewrite (bool_decide_eq_false_2 (_ = _)), andb_false_r.
  - apply str_empty_false in Ht. by rewrite Ht, andb_false_r.
Qed.

Lemma runtime_ok_put s d idx old step nowMs :
  sorted_def (wsDefinition s) → wsStepOrder s = ids_of (dfSteps (wsDefinition s)) →
  graph_ok (dfSteps (wsDefinition s)) d → queue_ok d →
  rdSteps d !! idx = Some old → ssStepID step = ssStepID old → ssTaskName step = ssTaskName old →
  (ssStatus step = WORKFLOW_STEP_STATUS_SUCCEEDED ↔ ssStatus old = WORKFLOW_STEP_STATUS_SUCCEEDED) →
  ssStatus step ≠ WORKFLOW_STEP_STATUS_SCHEDULED ∨ ssTaskID step ≠ EmptyString →
  runtime_ok (put_step s d idx step nowMs).
Proof.
  intros Hdef Ho Hg Hq Hold Hid Htn Hst Hb. split; [done..|].
  eexists. split; [done|]. split; [by eapply put_graph_ok|].
  apply put_queue_ok; [done|]. intros Hr.
  by rewrite (put_not_ready d idx old step Hold Hb) in Hr.
Qed.

(** Read a setter's step out of the state. *)
Ltac start_setter s Hok :=
  rewrite (runtime_ok_ensure s Hok);
  let d := fresh "d" in let Hdag := fresh "Hdag" in
  pose proof Hok as [Hdef Hord (d & Hdag & Hg & Hq)];
  assert (dag_of s = d) as -> by (unfold dag_of; by rewrite Hdag);
  destruct (find_step d _) as [[idx step]|] eqn:Hf; [|exact Hok];
  pose proof Hf as [Hstep Hid]%(find_step_Some _ _ _ _ _ (graph_ok_steps _ _ Hg) (proj1 Hdef)).

Definition not_succeeded (s : WorkflowState) (stepID : string) : Prop :=
  ∀ st, Step s stepID = Some st → ssStatus st ≠ WORKFLOW_STEP_STATUS_SUCCEEDED.

Lemma Step_ok s d id st :
  runtime_ok s → wsDag s = Some d →
  Step s id = Some st ↔ ∃ idx, find_step d id = Some (idx, st).
Proof.
  intros Hok Hd. unfold Step. rewrite (runtime_ok_rebuilt s Hok).
  assert (dag_of s = d) as -> by (unfold dag_of; by rewrite Hd). unfold find_step.
  destruct (rdByID d !! id) as [i|]; simpl; [|by split; [|intros [? ?]]].
  destruct (rdSteps d !! i) as [st'|]; simpl; [|by split; [|intros [? ?]]].
  split; [intros [= ->]; by exists i|by intros [? [= <- <-]]].
Qed.

Lemma not_succeeded_step s d id idx st :
  runtime_ok s → wsDag s = Some d → find_step d id = Some (idx, st) → not_succeeded s id →
  ssStatus st ≠ WORKFLOW_STEP_STATUS_SUCCEEDED.
Proof. intros Hok Hd Hf Hn. apply Hn, (Step_ok s d); eauto. Qed.

Lemma SetStepScheduled_ok s id taskID attempt hash args nowMs :
  runtime_ok s → taskID ≠ EmptyString → not_succeeded s id →
  runtime_ok (SetStepScheduled s id taskID attempt hash args nowMs).1.
Proof.
  intros Hok Ht Hn. unfold SetStepScheduled. start_setter s Hok.
  pose proof (not_succeeded_step s d id idx step Hok Hdag Hf Hn) as Hns.
  apply (runtime_ok_put s d idx step); try done; simpl; by right.
Qed.

Lemma SetStepStarted_ok s id taskID nowMs :
  runtime_ok s → runtime_ok (SetStepStarted s id taskID nowMs).1.
Proof.
  intros Hok. unfold SetStepStarted. start_setter s Hok.
  case_bool_decide as Hs; [done|].
  apply (runtime_ok_put s d idx step); try done; simpl; by left.
Qed.

Lemma SetStepFailed_ok s id taskID err retry nowMs latencyMs :
  runtime_ok s → not_succeeded s id →
  runtime_ok (SetStepFailed s id taskID err retry nowMs latencyMs).1.
Proof.
  intros Hok Hn. unfold SetStepFailed. start_setter s Hok.
  pose proof (not_succeeded_step s d id idx step Hok Hdag Hf Hn) as Hns.
  destruct retry; simpl.
  2:{ apply (runtime_ok_put s d idx step); try done; simpl; by left. }
  set (step' := Build_StepState _ _ _ _ _ _ _ _ _ _ _ _ _ _).
  set (d' := with_rdSteps d (<[idx:=step']> (rdSteps d))).
  assert (Hg' : graph_ok (dfSteps (wsDefinition s)) d').
  { apply (put_graph_ok _ _ _ step); [done..|]. by split. }
  change (dag_of (put_step s d idx step' nowMs)) with d'.
  destruct (stepReady d' idx) eqn:Hr; simpl; (split; [done|done|]); eexists; (split; [reflexivity|]).
  - split; [by destruct Hg'; split|]. destruct Hq as [Hh Hq].
    split; simpl; [rewrite length_app; lia|]. intros i Hi. rewrite enqueue_drop by done.
    destruct (decide (i = idx)) as [->|Hne]; [by right|]. left.
    change (stepReady (with_rdReady d' _ _) i) with (stepReady d' i) in Hi.
    unfold d' in Hi. rewrite stepReady_put in Hi by done. by apply Hq.
  - split; [done|]. apply put_queue_ok; [done|]. intros Hr'.
    change (stepReady d' idx = true) in Hr'. congruence.
Qed.

(** The counters while [unlock] still has [outs] to decrement. *)
Record unlocking (defs : list StepDefinition) (outs : list nat) (d : RuntimeDAG) : Prop := {
  ul_ids : map ssStepID (rdSteps d) = ids_of defs;
  ul_names i sd st : defs !! i = Some sd → rdSteps d !! i = Some st →
    ssTaskName st = EmptyString → sdTaskName sd = EmptyString;
  ul_byID : rdByID d = by_id defs;
  ul_out i : i < length defs → rdOutgoing d !! i = Some (out_of (step_edges defs) i);
  ul_out_length : length (rdOutgoing d) = length defs;
  ul_rem i : i < length defs → rdRemainingDeps d !! i =
    Some (unproc (step_edges defs) (done_of (rdSteps d)) i + occ i outs);
  ul_rem_length : length (rdRemainingDeps d) = length defs;
  ul_bound : Forall (λ i, i < length defs) outs
}.

Lemma occ_cons i next outs : occ i (next :: outs) = (if decide (next = i) then 1 else 0) + occ i outs.
Proof. unfold occ. rewrite filter_cons. by destruct (decide (next = i)). Qed.

Lemma unlock_step defs next outs d :
  unlocking defs (next :: outs) d →
  unlocking defs outs (with_rdRemaining d (alter pred next (rdRemainingDeps d))).
Proof.
  intros [Hids Hnm Hby Ho Hol Hr Hrl Hb]. apply Forall_cons in Hb as [Hn Hb].
  split; simpl; [done..| | |done].
  - intros i Hi. specialize (Hr i Hi). rewrite occ_cons in Hr.
    destruct (decide (next = i)) as [<-|Hne].
    + rewrite list_lookup_alter_eq, Hr. simpl. f_equal. lia.
    + by rewrite list_lookup_alter_ne.
  - by rewrite length_alter.
Qed.

Lemma stepReady_remaining d r i :
  rdRemainingDeps d !! i = r !! i → stepReady (with_rdRemaining d r) i = stepReady d i.
Proof. intros Hr. unfold stepReady. simpl. by rewrite Hr. Qed.

Lemma unlock_ok defs outs d :
  unlocking defs outs d → queue_ok d → graph_ok defs (unlock outs d) ∧ queue_ok (unlock outs d).
Proof.
  revert d. induction outs as [|next outs IH]; intros d Hu Hq; simpl.
  { destruct Hu as [Hids Hnm Hby Ho Hol Hr Hrl _]. split; [|done]. split; [done..|].
    split; [done| |done..]. intros i Hi. rewrite (Hr i Hi). f_equal. apply Nat.add_0_r. }
  pose proof (ul_bound _ _ _ Hu) as Hb. apply Forall_cons in Hb as [Hn _].
  rewrite (ul_rem_length _ _ _ Hu), (proj2 (Nat.leb_gt _ _)) by lia.
  pose proof (unlock_step _ _ _ _ Hu) as Hu'.
  set (d' := with_rdRemaining d _) in *. destruct Hq as [Hh Hq].
  assert (Hq' : ∀ i, stepReady d' i = true → i = next ∨ i ∈ drop (rdReadyHead d) (rdReady d)).
  { intros i Hi. destruct (decide (i = next)) as [|Hne]; [by left|right]. apply Hq.
    rewrite <- Hi. symmetry. apply stepReady_remaining. by rewrite list_lookup_alter_ne. }
  destruct (stepReady d' next) eqn:Hrd.
  - apply IH; [by destruct Hu'; split|]. split; simpl; [rewrite length_app; lia|].
    intros i Hi. apply enqueue_drop; [done|]. specialize (Hq' i Hi). tauto.
  - apply IH; [done|]. split; [done|]. intros i Hi.
    destruct (Hq' i Hi) as [->|]; [congruence|done].
Qed.

Lemma unproc_done E done done' idx i :
  idx ∉ done → (∀ d, d ∈ done' ↔ d ∈ done ∨ d = idx) →
  unproc E done i = unproc E done' i + occ i (out_of E idx).
Proof.
  intros Hni H. rewrite (unproc_snoc E done idx i Hni). f_equal. apply unproc_ext.
  intros d. rewrite elem_of_app, list_elem_of_singleton. by rewrite H.
Qed.

(** A first success starts the unlocking of the step's dependents. *)
Lemma success_unlocking defs d idx old step :
  graph_ok defs d → rdSteps d !! idx = Some old → ssStepID step = ssStepID old →
  ssTaskName step = ssTaskName old → ssStatus old ≠ WORKFLOW_STEP_STATUS_SUCCEEDED → ssStatus step = WORKFLOW_STEP_STATUS_SUCCEEDED →
  unlocking defs (default [] (rdOutgoing d !! idx))
    (with_rdSteps d (<[idx:=step]> (rdSteps d))).
Proof.
  intros Hg Hold Hid Htn Hns Hsu. pose proof (graph_ok_length _ _ Hg) as Hlen.
  destruct Hg as [Hids Hnm Hby [Ho Hr Hol Hrl]].
  assert (idx < length defs) as Hidx by (rewrite <- Hlen; by eapply lookup_lt_Some).
  rewrite (Ho idx Hidx). simpl. split; simpl; try done.
  - by rewrite (map_insert_same _ _ _ old).
  - by apply (put_names _ _ idx old).
  - intros i Hi. rewrite (Hr i Hi). f_equal. apply unproc_done.
    + rewrite done_of_elem. unfold succeeded. rewrite Hold. by rewrite bool_decide_eq_true.
    + intros j. rewrite !done_of_elem, (succeeded_insert _ _ old) by done.
      destruct (decide (j = idx)); [|naive_solver].
      rewrite Hsu, bool_decide_eq_true. naive_solver.
  - apply Forall_forall. intros i Hi%out_of_elem. by apply step_edges_bound in Hi as [_ ?].
Qed.

Lemma SetStepSucceeded_ok s id taskID result ref nowMs latencyMs :
  runtime_ok s → runtime_ok (SetStepSucceeded s id taskID result ref nowMs latencyMs).1.
Proof.
  intros Hok. unfold SetStepSucceeded. start_setter s Hok. case_bool_decide as Hs.
  { apply (runtime_ok_put s d idx step); try done; simpl; by left. }
  set (step' := Build_StepState _ _ _ _ _ _ _ _ _ _ _ _ _ _).
  set (d' := with_rdSteps d (<[idx:=step']> (rdSteps d))).
  assert (queue_ok d') as Hq'.
  { apply put_queue_ok; [done|]. intros Hr.
    rewrite (put_not_ready d idx step step' Hstep) in Hr; [done|by left]. }
  change (dag_of (put_step s d idx step' nowMs)) with d'.
  destruct (unlock_ok (dfSteps (wsDefinition s)) (default [] (rdOutgoing d' !! idx)) d')
    as [Hg' Hq'']; [by apply (success_unlocking _ d idx step)|done|].
  split; [done..|]. eexists. split; [reflexivity|]. done.
Qed.

Lemma RebuildRuntime_ok s : runtime_ok s → runtime_ok (RebuildRuntime s).
Proof.
  intros [Hdef Ho _]. unfold RebuildRuntime. rewrite (sorted_normal _ Hdef).
  set (steps := match wsDag s with Some d => rdSteps d | None => [] end).
  destruct (buildRuntimeDAG_ok (wsDefinition s) steps) as (Hg & Hq & _).
  rewrite (sorted_normal _ Hdef) in Hg. split; simpl; [done| |by eauto]. by destruct Hg.
Qed.

(** ** Popping ready steps *)

Lemma pop_scan_spec d rest head :
  match pop_scan d rest head with
  | Some (idx, h) => stepReady d idx = true ∧ ∃ pre post, rest = pre ++ idx :: post ∧
      h = head + S (length pre) ∧ Forall (λ i, stepReady d i = false) pre
  | None => Forall (λ i, stepReady d i = false) rest
  end.
Proof.
  revert head. induction rest as [|i rest IH]; intros head; simpl; [constructor|].
  destruct (stepReady d i) eqn:Hi.
  - split; [done|]. exists [], rest. split_and!; [done|simpl; lia|constructor].
  - specialize (IH (S head)). destruct (pop_scan _ _ _) as [[idx h]|]; [|by constructor].
    destruct IH as (? & pre & post & -> & -> & Hpre). split; [done|].
    exists (i :: pre), post. split_and!; [done|simpl; lia|by constructor].
Qed.

Lemma PopReadyStep_spec s d :
  runtime_ok s → wsDag s = Some d →
  match PopReadyStep s with
  | (s', Some (sd, st)) => ∃ idx head, s' = with_dag s (with_rdReady d (rdReady d) head) ∧
      stepReady d idx = true ∧ dfSteps (wsDefinition s) !! idx = Some sd ∧
      rdSteps d !! idx = Some st ∧ head <= length (rdReady d) ∧
      (∀ i, stepReady d i = true → i ≠ idx → i ∈ drop head (rdReady d))
  | (s', None) => s' = with_dag s (with_rdReady d [] 0) ∧ ∀ i, stepReady d i = false
  end.
Proof.
  intros Hok Hd. unfold PopReadyStep. rewrite (runtime_ok_ensure s Hok).
  assert (dag_of s = d) as -> by (unfold dag_of; by rewrite Hd).
  destruct Hok as [_ _ (d' & Hd' & Hg & Hh & Hq)]. rewrite Hd in Hd'. simplify_eq.
  simpl. unfold popReady.
  pose proof (pop_scan_spec d' (drop (rdReadyHead d') (rdReady d')) (rdReadyHead d')) as H.
  destruct (pop_scan _ _ _) as [[idx h]|].
  - destruct H as (Hr & pre & post & Hdrop & -> & Hpre). pose proof Hr as Hr'.
    unfold stepReady in Hr'. destruct (rdSteps d' !! idx) as [st|] eqn:Hst; [|done].
    destruct (lookup_lt_is_Some_2 (dfSteps (wsDefinition s)) idx) as [sd Hsd].
    { rewrite <- (graph_ok_length _ _ Hg). by eapply lookup_lt_Some. }
    rewrite Hsd. simpl. rewrite Hst. exists idx, (rdReadyHead d' + S (length pre)).
    apply (f_equal length) in Hdrop as Hlen. rewrite length_drop, length_app in Hlen. simpl in Hlen.
    split_and!; [done..|lia|]. intros i Hi Hne. specialize (Hq i Hi).
    rewrite <- drop_drop, Hdrop. rewrite Hdrop in Hq.
    rewrite (drop_app_ge) by lia. replace (_ - _) with 1 by lia. simpl. rewrite drop_0.
    apply elem_of_app in Hq as [Hin|[->|Hin]%elem_of_cons]; [|done..].
    rewrite Forall_forall in Hpre. rewrite (Hpre i Hin) in Hi. done.
  - split; [done|]. intros i. destruct (stepReady d' i) eqn:Hi; [|done].
    rewrite Forall_forall in H. rewrite (H i (Hq i Hi)) in Hi. done.
Qed.

(** A step of the graph is ready exactly when it is idle and its dependencies
    succeeded. *)
Lemma deps_succeeded s d i sd :
  runtime_ok s → wsDag s = Some d → dfSteps (wsDefinition s) !! i = Some sd →
  DependenciesSucceeded sd s = true ↔
  unproc (step_edges (dfSteps (wsDefinition s))) (done_of (rdSteps d)) i = 0.
Proof.
  intros Hok Hd Hsd. rewrite unproc_zero. pose proof Hok as [Hdef _ (d' & Hd' & Hg & _)].
  rewrite Hd in Hd'. symmetry in Hd'. simplify_eq.
  pose proof (sorted_def_known _ Hdef) as Hkn. destruct Hdef as [Hnd _].
  assert (Hstep : ∀ dep, match Step s dep with
      | Some st => bool_decide (ssStatus st = WORKFLOW_STEP_STATUS_SUCCEEDED)
      | None => false end = true ↔
      ∃ k, by_id (dfSteps (wsDefinition s)) !! dep = Some k ∧ k ∈ done_of (rdSteps d)).
  { intros dep. setoid_rewrite done_of_elem. rewrite <- (gk_byID _ _ Hg).
    destruct (Step s dep) as [st|] eqn:Hst.
    - apply (Step_ok s d dep st Hok Hd) in Hst as [k Hf]. unfold find_step in Hf.
      destruct (rdByID d !! dep) as [k'|]; simpl in Hf; [|done].
      destruct (rdSteps d !! k') as [st'|] eqn:Hk; simpl in Hf; simplify_eq.
      unfold succeeded. rewrite bool_decide_eq_true. split.
      + intros Hs. exists k. rewrite Hk. split; [done|]. by apply bool_decide_eq_true.
      + intros (k' & [= <-] & Hs). rewrite Hk in Hs. by apply bool_decide_eq_true in Hs.
    - split; [done|]. intros (k & Hk & Hs). unfold succeeded in Hs.
      destruct (rdSteps d !! k) as [st|] eqn:Hks; [|done].
      assert (Step s dep = Some st) as H; [|congruence].
      apply (Step_ok s d dep st Hok Hd). exists k. unfold find_step. by rewrite Hk; simpl; rewrite Hks. }
  unfold DependenciesSucceeded. rewrite forallb_forall. split.
  - intros Hall k (sd' & dep & Hi & Hdep & Hk)%step_edges_elem. simplify_eq.
    apply list_elem_of_In in Hdep. apply Hall, Hstep in Hdep as (k' & Hk' & ?). congruence.
  - intros Hpre dep Hdep%list_elem_of_In. apply Hstep.
    destruct (proj2 (by_id_is_Some (dfSteps (wsDefinition s)) dep)) as [k Hk].
    { apply (Hkn sd); [by eapply list_elem_of_lookup_2|done]. }
    exists k. split; [done|]. apply Hpre, step_edges_elem. eauto.
Qed.

(** [sd] waits for nothing and is not running. *)
Definition schedulable (s : WorkflowState) (sd : StepDefinition) (st : StepState) : Prop :=
  DependenciesSucceeded sd s = true ∧ ssStatus st = WORKFLOW_STEP_STATUS_SCHEDULED ∧
  ssTaskID st = EmptyString.

Lemma stepReady_iff s d i sd st :
  runtime_ok s → wsDag s = Some d → dfSteps (wsDefinition s) !! i = Some sd →
  rdSteps d !! i = Some st → stepReady d i = true ↔ schedulable s sd st.
Proof.
  intros Hok Hd Hsd Hst. unfold schedulable. rewrite (deps_succeeded s d i sd) by done.
  destruct Hok as [_ _ (d' & Hd' & Hg & _)]. rewrite Hd in Hd'. symmetry in Hd'. simplify_eq.
  unfold stepReady. rewrite Hst. destruct Hg as [_ _ _ [_ Hr _ _]].
  rewrite Hr by (by eapply lookup_lt_Some).
  rewrite !andb_true_iff, Nat.eqb_eq, bool_decide_eq_true, str_empty_true. tauto.
Qed.

(** Scheduling the popped step restores the queue. *)
Lemma dispatch_ok s s1 sd st taskID attempt hash args nowMs :
  runtime_ok s → PopReadyStep s = (s1, Some (sd, st)) → taskID ≠ EmptyString →
  runtime_ok (SetStepScheduled s1 (sdStepID sd) taskID attempt hash args nowMs).1.
Proof.
  intros Hok Hpop Ht. pose proof Hok as [Hdef Ho (d & Hd & Hg & _)].
  pose proof (PopReadyStep_spec s d Hok Hd) as H. rewrite Hpop in H.
  destruct H as (idx & head & -> & Hr & Hsd & Hst & Hh & Hq).
  set (d1 := with_rdReady d (rdReady d) head). unfold SetStepScheduled.
  assert (ensureRuntime (with_dag s d1) = with_dag s d1) as ->.
  { unfold ensureRuntime. simpl. rewrite Ho, (graph_ok_length _ _ Hg).
    unfold ids_of. by rewrite length_map, Nat.eqb_refl. }
  change (dag_of (with_dag s d1)) with d1.
  assert (Hg1 : graph_ok (dfSteps (wsDefinition s)) d1) by (by destruct Hg; split).
  assert (ssStepID st = sdStepID sd) as Hid.
  { pose proof (gk_ids _ _ Hg) as H. apply (f_equal (λ l, l !! idx)) in H. unfold ids_of in H.
    rewrite !list_lookup_fmap, Hst, Hsd in H. by simplify_eq/=. }
  assert (find_step d1 (sdStepID sd) = Some (idx, st)) as ->.
  { by apply (find_step_Some _ _ _ _ _ (graph_ok_steps _ _ Hg1) (proj1 Hdef)). }
  set (step' := Build_StepState _ _ _ _ _ _ _ _ _ _ _ _ _ _).
  split; [done..|]. eexists. split; [reflexivity|]. split.
  - apply (put_graph_ok _ d1 idx st); [exact Hg1|exact Hst|reflexivity|reflexivity|].
    unfold stepReady in Hr. rewrite Hst in Hr. destruct (rdRemainingDeps d !! idx); [|done].
    apply andb_true_iff in Hr as [[_ Hs]%andb_true_iff _]. apply bool_decide_eq_true in Hs.
    rewrite Hs. done.
  - split; [done|]. intros i Hi. destruct (decide (i = idx)) as [->|Hne].
    + rewrite (put_not_ready d1 idx st step' Hst) in Hi by (by right). done.
    + rewrite stepReady_put in Hi by done. by apply Hq.
Qed.

(** What the control plane and replay do to a workflow state. *)
Inductive wf_step : WorkflowState → WorkflowState → Prop :=
| wf_dispatch s s1 sd st taskID attempt hash args nowMs :
    PopReadyStep s = (s1, Some (sd, st)) → taskID ≠ EmptyString →
    wf_step s (SetStepScheduled s1 (sdStepID sd) taskID attempt hash args nowMs).1
| wf_drained s s1 : PopReadyStep s = (s1, None) → wf_step s s1
| wf_scheduled s id taskID attempt hash args nowMs :
    taskID ≠ EmptyString → not_succeeded s id →
    wf_step s (SetStepScheduled s id taskID attempt hash args nowMs).1
| wf_started s id taskID nowMs : wf_step s (SetStepStarted s id taskID nowMs).1
| wf_succeeded s id taskID result ref nowMs latencyMs :
    wf_step s (SetStepSucceeded s id taskID result ref nowMs latencyMs).1
| wf_failed s id taskID err retry nowMs latencyMs :
    not_succeeded s id → wf_step s (SetStepFailed s id taskID err retry nowMs latencyMs).1
| wf_rebuild s : wf_step s (RebuildRuntime s).

Lemma wf_step_ok s s' : runtime_ok s → wf_step s s' → runtime_ok s'.
Proof.
  intros Hok Hs. destruct Hs as [s s1 sd st taskID attempt hash args nowMs Hp Ht|s s1 Hp| | | | |].
  - by eapply dispatch_ok.
  - pose proof Hok as [Hdef Ho (d & Hd & Hg & _)].
    pose proof (PopReadyStep_spec s d Hok Hd) as H. rewrite Hp in H. destruct H as [-> Hn].
    split; [done..|]. eexists. split; [reflexivity|]. split; [by destruct Hg; split|].
    split; [done|]. intros i Hi. change (stepReady d i = true) in Hi. by rewrite Hn in Hi.
  - by apply SetStepScheduled_ok.
  - by apply SetStepStarted_ok.
  - by apply SetStepSucceeded_ok.
  - by apply SetStepFailed_ok.
  - by apply RebuildRuntime_ok.
Qed.

Lemma runtime_ok_star s s' : runtime_ok s → star wf_step s s' → runtime_ok s'.
Proof. intros Hok Hs. eapply star_invariant; [|done|done]. apply wf_step_ok. Qed.

(** A definition [ParseDefinition] accepts starts a good state. *)
Lemma parsed_sorted `{DefinitionJSON} data def : ParseDefinition data = Ok def → sorted_def def.
Proof.
  unfold ParseDefinition. destruct (unmarshalDefinition data) as [raw|]; [|done].
  pose proof (validate_spec (apply_defaults raw)) as Hv.
  destruct (ValidateDefinition (apply_defaults raw)) as [[]|e]; [|done].
  pose proof (topological_spec (dfSteps (apply_defaults raw))) as Ht. intros H'.
  change (Ok () ≫= ?f) with (f ()) in H'. cbv beta in H'.
  destruct (topologicalStepDefinitions (dfSteps (apply_defaults raw))) as [ordered|e]; [|done].
  change (Ok ordered ≫= ?f) with (f ordered) in H'. cbv beta in H'. inv_ok.
  destruct Ht as (Hk & Ha & order & Hsb). pose proof (vd_nodup _ Hv) as Hnd.
  pose proof (sorted_by_permutation _ _ _ Hsb) as Hp. split_and!; simpl.
  - unfold ids_of. rewrite Hp. exact Hnd.
  - apply topological_fixed; [by eapply deps_known_perm|by eapply sorted_layered].
  - rewrite Hp. apply (vd_ids _ Hv).
Qed.


(** ** Rebuilding *)

Lemma existing_by_id_notin steps (m : gmap string StepState) id :
  id ∉ map ssStepID steps →
  foldl (λ m step, if str_empty (ssStepID step) then m else <[ssStepID step := step]> m) m steps
    !! id = m !! id.
Proof.
  revert m. induction steps as [|st steps IH]; intros m Hni; [done|]. simpl in *.
  apply not_elem_of_cons in Hni as [Hne Hni]. rewrite IH by done.
  destruct (str_empty (ssStepID st)); [done|]. by rewrite lookup_insert_ne.
Qed.

Lemma existing_by_id_lookup steps (m : gmap string StepState) i st :
  NoDup (map ssStepID steps) → steps !! i = Some st → ssStepID st ≠ EmptyString →
  foldl (λ m step, if str_empty (ssStepID step) then m else <[ssStepID step := step]> m) m steps
    !! ssStepID st = Some st.
Proof.
  revert m i. induction steps as [|s0 steps IH]; intros m i Hnd Hi He; [done|].
  simpl in *. apply NoDup_cons in Hnd as [Hni Hnd]. destruct i as [|i]; simpl in Hi.
  - simplify_eq. rewrite existing_by_id_notin by done.
    apply str_empty_false in He. rewrite He. by rewrite lookup_insert_eq.
  - by apply (IH _ i).
Qed.

(** Rebuilding from its own steps keeps every step as it is. *)
Lemma merge_steps_same def d :
  sorted_def def → steps_ok (dfSteps def) d →
  map (merge_step (existing_by_id (rdSteps d))) (dfSteps def) = rdSteps d.
Proof.
  intros (Hnd & _ & Hne) Hg. pose proof (steps_ok_length _ _ Hg) as Hlen.
  destruct Hg as [Hids Hnm _]. apply list_eq. intros i. rewrite list_lookup_fmap.
  destruct (dfSteps def !! i) as [sd|] eqn:Hsd; simpl.
  2:{ symmetry. apply lookup_ge_None. apply lookup_ge_None in Hsd. lia. }
  destruct (lookup_lt_is_Some_2 (rdSteps d) i) as [st Hst].
  { rewrite Hlen. by eapply lookup_lt_Some. }
  assert (ssStepID st = sdStepID sd) as Hid.
  { apply (f_equal (λ l, l !! i)) in Hids. unfold ids_of in Hids.
    rewrite !list_lookup_fmap, Hst, Hsd in Hids. by simplify_eq/=. }
  rewrite Hst. f_equal. unfold merge_step.
  rewrite Forall_lookup in Hne. specialize (Hne i sd Hsd). rewrite <- Hid in Hne |- *.
  assert (existing_by_id (rdSteps d) !! ssStepID st = Some st) as ->.
  { apply (existing_by_id_lookup _ _ i); [by rewrite Hids|done..]. }
  specialize (Hnm i sd st Hsd Hst). destruct (str_empty (ssTaskName st)) eqn:He.
  - apply str_empty_true in He. rewrite (Hnm He), <- He. by destruct st.
  - by destruct st.
Qed.

(** A rebuild changes nothing but the order of the ready queue. *)
Lemma rebuild_same s d :
  runtime_ok s → wsDag s = Some d →
  let fresh := buildRuntimeDAG (wsDefinition s) (rdSteps d) in
  RebuildRuntime s = with_dag s fresh ∧ rdSteps fresh = rdSteps d ∧
  rdByID fresh = rdByID d ∧ rdOutgoing fresh = rdOutgoing d ∧
  rdRemainingDeps fresh = rdRemainingDeps d.
Proof.
  intros [Hdef Ho (d' & Hd' & Hg & _)] Hd fresh. rewrite Hd in Hd'. simplify_eq.
  destruct (buildRuntimeDAG_ok (wsDefinition s) (rdSteps d')) as (Hg' & _ & _ & Hsteps).
  fold fresh in Hg', Hsteps. rewrite (sorted_normal _ Hdef) in Hg', Hsteps.
  rewrite (merge_steps_same _ _ Hdef (graph_ok_steps _ _ Hg)) in Hsteps.
  assert (RebuildRuntime s = with_dag s fresh) as ->.
  { unfold RebuildRuntime. rewrite Hd, (sorted_normal _ Hdef). fold fresh.
    unfold with_dag, stepOrder. rewrite Ho. f_equal. by destruct Hg'. }
  destruct Hg as [_ _ Hby Hl]. destruct Hg' as [_ _ Hby' Hl']. rewrite Hsteps in Hl'.
  destruct (linked_unique _ _ _ _ _ _ _ Hl Hl') as [-> ->]. by rewrite Hby.
Qed.

(** C33: The dependency counters and ready queue that the setters maintain
    incrementally are exact: in every state reached from a parsed definition
    (steps are never scheduled without a task ID, nor failed or rescheduled
    after success, which the control plane checks), rebuilding the runtime
    graph from scratch gives the same steps, indices, edges and counters, and
    every schedulable step is in the ready queue. *)
Theorem incremental_runtime_exact `{DefinitionJSON} data def workflowID nowMs s :
  ParseDefinition data = Ok def →
  star wf_step (NewState workflowID def nowMs) s →
  ∃ d fresh, wsDag s = Some d ∧ RebuildRuntime s = with_dag s fresh ∧
    rdSteps fresh = rdSteps d ∧ rdByID fresh = rdByID d ∧ rdOutgoing fresh = rdOutgoing d ∧
    rdRemainingDeps fresh = rdRemainingDeps d ∧
    ∀ i sd st, dfSteps (wsDefinition s) !! i = Some sd → rdSteps d !! i = Some st →
      schedulable s sd st → i ∈ drop (rdReadyHead d) (rdReady d).
Proof.
  intros Hp Hs. apply parsed_sorted in Hp.
  pose proof (runtime_ok_star _ _ (NewState_ok workflowID def nowMs Hp) Hs) as Hok.
  pose proof Hok as [Hdef Ho (d & Hd & Hg & Hh & Hq)]. exists d, (buildRuntimeDAG (wsDefinition s) (rdSteps d)).
  pose proof (rebuild_same s d Hok Hd) as H'. cbv zeta in H'. destruct H' as (? & ? & ? & ? & ?).
  split_and!; [done..|]. intros i sd st Hsd Hst Hr. apply Hq. by apply (stepReady_iff s d i sd st).
Qed.

(** [PopReadyStep] returns a step exactly when one can run: the step it
    returns is a step of the definition with its own state, idle and with every
    dependency succeeded; when it returns nothing, no step of the workflow is
    in that condition. *)
Theorem PopReadyStep_exact `{DefinitionJSON} data def workflowID nowMs s :
  ParseDefinition data = Ok def →
  star wf_step (NewState workflowID def nowMs) s →
  match (PopReadyStep s).2 with
  | Some (sd, st) => sd ∈ dfSteps (wsDefinition s) ∧ Step s (sdStepID sd) = Some st ∧ schedulable s sd st
  | None => ∀ sd st, sd ∈ dfSteps (wsDefinition s) → Step s (sdStepID sd) = Some st → ¬ schedulable s sd st
  end.
Proof.
  intros Hp Hs. apply parsed_sorted in Hp.
  pose proof (runtime_ok_star _ _ (NewState_ok workflowID def nowMs Hp) Hs) as Hok.
  pose proof Hok as [Hdef Ho (d & Hd & Hg & Hq)].
  assert (Hstep : ∀ i sd st, dfSteps (wsDefinition s) !! i = Some sd →
    Step s (sdStepID sd) = Some st ↔ rdSteps d !! i = Some st).
  { intros i sd st Hsd. rewrite (Step_ok s d _ _ Hok Hd).
    pose proof (gk_byID _ _ Hg) as Hby. unfold find_step.
    rewrite Hby, (by_id_nodup _ i sd (proj1 Hdef) Hsd). simpl.
    destruct (rdSteps d !! i); simpl; [|by split; [intros [? ?]|]].
    split; [by intros [? [= <- <-]]|intros [= <-]; by exists i]. }
  pose proof (PopReadyStep_spec s d Hok Hd) as H'.
  destruct (PopReadyStep s) as [s' [[sd st]|]]; simpl.
  - destruct H' as (idx & head & -> & Hr & Hsd & Hst & _). split_and!.
    + by eapply list_elem_of_lookup_2.
    + by apply (Hstep idx).
    + by apply (stepReady_iff s d idx sd st).
  - destruct H' as [_ Hn]. intros sd st Hin Hst Hsch.
    apply list_elem_of_lookup in Hin as [i Hsd]. apply (Hstep i sd st Hsd) in Hst.
    apply (stepReady_iff s d i sd st) in Hsch; [|done..]. by rewrite Hn in Hsch.
Qed.

(** C34: No deadlock: when every step of a running workflow has either succeeded
    or is waiting (scheduled, no task), and some step has not succeeded, then
    [PopReadyStep] finds a step to run. *)
Theorem workflow_progress `{DefinitionJSON} data def workflowID nowMs s :
  ParseDefinition data = Ok def →
  star wf_step (NewState workflowID def nowMs) s →
  (∀ st, st ∈ StepStatesInOrder s → ssStatus st = WORKFLOW_STEP_STATUS_SUCCEEDED ∨
     ssStatus st = WORKFLOW_STEP_STATUS_SCHEDULED ∧ ssTaskID st = EmptyString) →
  AllStepsSucceeded s = false →
  is_Some (PopReadyStep s).2.
Proof.
  intros Hp Hs Hidle Hall. apply parsed_sorted in Hp.
  pose proof (runtime_ok_star _ _ (NewState_ok workflowID def nowMs Hp) Hs) as Hok.
  pose proof Hok as [Hdef Ho (d & Hd & Hg & Hq)].
  assert (StepStatesInOrder s = rdSteps d) as Hss.
  { unfold StepStatesInOrder. rewrite (runtime_ok_rebuilt s Hok). unfold dag_of. by rewrite Hd. }
  unfold AllStepsSucceeded in Hall. rewrite Hss in *.
  pose proof (PopReadyStep_spec s d Hok Hd) as Hpop.
  destruct (PopReadyStep s) as [s' [[sd st]|]]; [by eexists|]. destruct Hpop as [_ Hn].
  exfalso. apply not_true_iff_false in Hall. apply Hall, forallb_forall.
  intros st Hin%list_elem_of_In. apply list_elem_of_lookup in Hin as [i Hst].
  revert st Hst. induction i as [i IH] using lt_wf_ind. intros st Hst.
  destruct (Hidle st) as [|[Hsc Ht]]; [by eapply list_elem_of_lookup_2|by apply bool_decide_eq_true|].
  assert (i < length (dfSteps (wsDefinition s))) as Hi.
  { rewrite <- (graph_ok_length _ _ Hg). by eapply lookup_lt_Some. }
  assert (stepReady d i = true) as Hr; [|by rewrite Hn in Hr].
  unfold stepReady. destruct Hg as [_ _ _ [_ Hrem _ _]]. rewrite Hst, (Hrem i Hi), Hsc, Ht.
  assert (unproc (step_edges (dfSteps (wsDefinition s))) (done_of (rdSteps d)) i = 0) as ->; [|done].
  apply unproc_zero. intros k Hk. apply done_of_elem. pose proof (sorted_def_forward _ _ _ Hdef Hk).
  unfold succeeded. destruct (rdSteps d !! k) as [st'|] eqn:Hk'; [by apply (IH k)|].
  apply lookup_ge_None in Hk'. apply lookup_lt_Some in Hst. lia.
Qed.

(** ** A concrete run *)

(** A decoder that knows one document. *)
Definition sample_json : DefinitionJSON :=
  {| unmarshalDefinition := λ data, if decide (data = str_bytes "diamond") then Some sample_def else None |}.

Definition sample_parsed : WorkflowDefinition :=
  match ParseDefinition (H := sample_json) (str_bytes "diamond") with Ok def => def | Err _ => zero_def end.

Lemma sample_parse_ok : ParseDefinition (H := sample_json) (str_bytes "diamond") = Ok sample_parsed.
Proof. vm_compute. reflexivity. Qed.

Definition sample_state0 : WorkflowState := NewState "wf" sample_parsed 5.
(** The root is dispatched and succeeds. *)
Definition sample_state1 : WorkflowState :=
  (SetStepScheduled (PopReadyStep sample_state0).1 "root" "t1" 1 "h" (Some []) 6).1.
Definition sample_state2 : WorkflowState :=
  (SetStepSucceeded sample_state1 "root" "t1" (str_bytes "1") "" 7 1).1.

Lemma wf_dispatch_id s id taskID attempt hash args nowMs :
  (λ p, sdStepID p.1) <$> (PopReadyStep s).2 = Some id → taskID ≠ EmptyString →
  wf_step s (SetStepScheduled (PopReadyStep s).1 id taskID attempt hash args nowMs).1.
Proof.
  destruct (PopReadyStep s) as [s1 [[sd st]|]] eqn:Hpop; [|done].
  simpl. intros [= <-] Ht. by eapply wf_dispatch.
Qed.

Lemma sample_run : star wf_step sample_state0 sample_state2.
Proof.
  apply (star_trans _ _ sample_state1); apply star_one.
  - apply wf_dispatch_id; [vm_compute; reflexivity|done].
  - apply wf_succeeded.
Qed.

Lemma incremental_runtime_exact_witness :
  ∃ d fresh, wsDag sample_state2 = Some d ∧ RebuildRuntime sample_state2 = with_dag sample_state2 fresh ∧
    rdRemainingDeps fresh = rdRemainingDeps d ∧ rdRemainingDeps d = [0; 0; 0; 2].
Proof.
  destruct (incremental_runtime_exact (H := sample_json) (str_bytes "diamond") sample_parsed "wf" 5
    sample_state2 sample_parse_ok sample_run) as (d & fresh & Hd & Hf & _ & _ & _ & Hr & _).
  exists d, fresh. split; [exact Hd|]. split; [exact Hf|]. split; [exact Hr|].
  apply (f_equal (option_map rdRemainingDeps)) in Hd. vm_compute in Hd. by injection Hd.
Defined.

Lemma PopReadyStep_exact_witness :
  match (PopReadyStep sample_state2).2 with
  | Some (sd, st) => sdStepID sd = "right"%string ∧ schedulable sample_state2 sd st
  | None => False
  end.
Proof.
  pose proof (PopReadyStep_exact (H := sample_json) (str_bytes "diamond") sample_parsed "wf" 5
    sample_state2 sample_parse_ok sample_run) as H.
  destruct ((PopReadyStep sample_state2).2) as [[sd st]|] eqn:E.
  - split; [|apply H]. apply (f_equal (fmap (λ p, sdStepID p.1))) in E. vm_compute in E. by injection E.
  - vm_compute in E. discriminate E.
Defined.

Lemma workflow_progress_witness : is_Some (PopReadyStep sample_state2).2.
Proof.
  apply (workflow_progress (H := sample_json) (str_bytes "diamond") sample_parsed "wf" 5
    sample_state2 sample_parse_ok sample_run).
  - intros st Hst. vm_compute in Hst.
    repeat (apply elem_of_cons in Hst as [->|Hst]; [simpl; auto|]).
    by apply not_elem_of_nil in Hst.
  - vm_compute. reflexivity.
Defined.
