(* ===== verification/WorkflowReplay.v ===== *)
(** Workflow replay: [internal/workflow/replay.go].

    An iterator is the list of records it emits and whether it then fails; the
    callback's error stops it.  The JSON decoders of definitions and of legacy
    payloads and the msgpack codec are parameters.  Theorems: an event payload
    round-trips; replay rebuilds a state exactly when the stream has a start
    event; and resuming from the state replayed so far gives the same state as
    replaying the whole stream, so a checkpoint may stand for any prefix. *)
From S2P Require Import Prelude Bytes LogRecord EventCodec Kahn WorkflowDef WorkflowState.

Open Scope Z_scope.

(** [EventPayload]; [None] is a nil [json.RawMessage]. *)
Record WorkflowEventPayload := {
  wpWorkflowID : string;
  wpWorkflowName : string;
  wpDefinitionJSON : option bytes;
  wpStepID : string;
  wpTaskID : string;
  wpAttempt : Z;
  wpInputHash : string;
  wpResolvedArgsJSON : option bytes;
  wpResultJSON : option bytes;
  wpResultRef : string;
  wpError : string;
  wpIdempotencyKey : string;
  wpIdempotencyFingerprint : string;
  wpTimestampMs : Z;
  wpLatencyMs : Z
}.

Definition zero_payload : WorkflowEventPayload :=
  {| wpWorkflowID := ""; wpWorkflowName := ""; wpDefinitionJSON := None; wpStepID := "";
     wpTaskID := ""; wpAttempt := 0; wpInputHash := ""; wpResolvedArgsJSON := None;
     wpResultJSON := None; wpResultRef := ""; wpError := ""; wpIdempotencyKey := "";
     wpIdempotencyFingerprint := ""; wpTimestampMs := 0; wpLatencyMs := 0 |}.

Definition with_wpTimestampMs (p : WorkflowEventPayload) (ts : Z) : WorkflowEventPayload :=
  {| wpWorkflowID := wpWorkflowID p; wpWorkflowName := wpWorkflowName p;
     wpDefinitionJSON := wpDefinitionJSON p; wpStepID := wpStepID p; wpTaskID := wpTaskID p;
     wpAttempt := wpAttempt p; wpInputHash := wpInputHash p;
     wpResolvedArgsJSON := wpResolvedArgsJSON p; wpResultJSON := wpResultJSON p;
     wpResultRef := wpResultRef p; wpError := wpError p; wpIdempotencyKey := wpIdempotencyKey p;
     wpIdempotencyFingerprint := wpIdempotencyFingerprint p; wpTimestampMs := ts;
     wpLatencyMs := wpLatencyMs p |}.

Inductive replay_error :=
| ErrIteratorRequired
| ErrIterator
| ErrStartNotFound
| ErrPayload (e : codec_error)
| ErrPayloadJSON
| ErrDefinition (e : def_error).

(** [eventPayloadMap] *)
Definition payload_entries (p : WorkflowEventPayload) : list (string * option any) :=
         [("workflow_id", opt_str (wpWorkflowID p));
          ("workflow_name", opt_str (wpWorkflowName p));
          ("definition_json", opt_bytes (wpDefinitionJSON p));
          ("step_id", opt_str (wpStepID p));
          ("task_id", opt_str (wpTaskID p));
          ("attempt", opt_int KUint32 (wpAttempt p));
          ("input_hash", opt_str (wpInputHash p));
          ("resolved_args_json", opt_bytes (wpResolvedArgsJSON p));
          ("result_json", opt_bytes (wpResultJSON p));
          ("result_ref", opt_str (wpResultRef p));
          ("error", opt_str (wpError p));
          ("idempotency_key", opt_str (wpIdempotencyKey p));
          ("idempotency_fingerprint", opt_str (wpIdempotencyFingerprint p));
          ("timestamp_ms", opt_int KInt64 (wpTimestampMs p));
          ("latency_ms", opt_int KInt64 (wpLatencyMs p))].
Definition eventPayloadMap (p : WorkflowEventPayload) : fields := sparse (payload_entries p) ∅.

(** [eventPayloadFromMap] *)
Definition eventPayloadFromMap (m : fields) : WorkflowEventPayload :=
  {| wpWorkflowID := StringValue (m !! "workflow_id");
     wpWorkflowName := StringValue (m !! "workflow_name");
     wpDefinitionJSON := BytesValue (m !! "definition_json");
     wpStepID := StringValue (m !! "step_id");
     wpTaskID := StringValue (m !! "task_id");
     wpAttempt := Uint32Value (m !! "attempt");
     wpInputHash := StringValue (m !! "input_hash");
     wpResolvedArgsJSON := BytesValue (m !! "resolved_args_json");
     wpResultJSON := BytesValue (m !! "result_json");
     wpResultRef := StringValue (m !! "result_ref");
     wpError := StringValue (m !! "error");
     wpIdempotencyKey := StringValue (m !! "idempotency_key");
     wpIdempotencyFingerprint := StringValue (m !! "idempotency_fingerprint");
     wpTimestampMs := Int64Value (m !! "timestamp_ms");
     wpLatencyMs := Int64Value (m !! "latency_ms") |}.

(** [json.Unmarshal] of a legacy payload. *)
Class WorkflowEventJSON := { unmarshalWorkflowEvent : bytes → option WorkflowEventPayload }.

(** [RawRecordIterator] *)
Record RawIterator := {
  it_records : list RawRecord;
  it_fails : bool
}.

Section Replay.
Context `{MsgpackLib} `{DefinitionJSON} `{WorkflowEventJSON}.

(** [MarshalEventPayload] *)
Definition MarshalEventPayload (p : WorkflowEventPayload) : result codec_error bytes :=
  Marshal KindWorkflowEvent (eventPayloadMap p).

(** [UnmarshalEventPayload], into a zero payload as every caller does. *)
Definition UnmarshalEventPayload (data : bytes) : result replay_error WorkflowEventPayload :=
  match Unmarshal KindWorkflowEvent data with
  | Err e => Err (ErrPayload e)
  | Ok (Some m) => Ok (eventPayloadFromMap m)
  | Ok None =>
      match unmarshalWorkflowEvent data with
      | Some p => Ok p
      | None => Err ErrPayloadJSON
      end
  end.

(** The payload [applyWorkflowRecord] works with. *)
Definition record_payload (rec : RawRecord) : result replay_error WorkflowEventPayload :=
  payload ← (match raw_Payload rec with
             | [] => Ok zero_payload
             | data => UnmarshalEventPayload data
             end);
  Ok (if wpTimestampMs payload =? 0 then with_wpTimestampMs payload (raw_TimestampMs rec) else payload).

Definition with_completion (s : WorkflowState) (status : WorkflowStatus) (resultJSON : bytes)
    (resultRef err : string) (ts : Z) : WorkflowState :=
  {| wsWorkflowID := wsWorkflowID s; wsWorkflowName := wsWorkflowName s; wsStatus := status;
     wsDefinition := wsDefinition s; wsStepOrder := wsStepOrder s; wsResultJSON := resultJSON;
     wsResultRef := resultRef; wsError := err; wsIdempotencyKey := wsIdempotencyKey s;
     wsIdempotencyFingerprint := wsIdempotencyFingerprint s; wsCreatedAtMs := wsCreatedAtMs s;
     wsUpdatedAtMs := ts; wsCompletedAtMs := ts; wsDag := wsDag s |}.
Definition with_idempotency (s : WorkflowState) (key fingerprint : string) : WorkflowState :=
  {| wsWorkflowID := wsWorkflowID s; wsWorkflowName := wsWorkflowName s; wsStatus := wsStatus s;
     wsDefinition := wsDefinition s; wsStepOrder := wsStepOrder s; wsResultJSON := wsResultJSON s;
     wsResultRef := wsResultRef s; wsError := wsError s; wsIdempotencyKey := key;
     wsIdempotencyFingerprint := fingerprint; wsCreatedAtMs := wsCreatedAtMs s;
     wsUpdatedAtMs := wsUpdatedAtMs s; wsCompletedAtMs := wsCompletedAtMs s; wsDag := wsDag s |}.

(** The [switch rec.EventType] of [applyWorkflowRecord]. *)
Definition apply_event (state : WorkflowState) (fallbackWorkflowID : string) (eventType : string)
    (p : WorkflowEventPayload) (allowFallbackID : bool) : result replay_error WorkflowState :=
  if decide (eventType = "WorkflowStarted") then
    match ParseDefinition (default [] (wpDefinitionJSON p)) with
    | Err e => Err (ErrDefinition e)
    | Ok def =>
        let workflowID := if allowFallbackID && negb (str_empty (wpWorkflowID p))
                          then wpWorkflowID p else fallbackWorkflowID in
        Ok (with_idempotency (NewState workflowID def (wpTimestampMs p))
              (wpIdempotencyKey p) (wpIdempotencyFingerprint p))
    end
  else if decide (eventType = "StepScheduled") then
    Ok (SetStepScheduled state (wpStepID p) (wpTaskID p) (wpAttempt p) (wpInputHash p)
          (wpResolvedArgsJSON p) (wpTimestampMs p)).1
  else if decide (eventType = "StepStarted") then
    Ok (SetStepStarted state (wpStepID p) (wpTaskID p) (wpTimestampMs p)).1
  else if decide (eventType = "StepSucceeded") then
    Ok (SetStepSucceeded state (wpStepID p) (wpTaskID p) (default [] (wpResultJSON p))
          (wpResultRef p) (wpTimestampMs p) (wpLatencyMs p)).1
  else if decide (eventType = "StepFailed") then
    Ok (SetStepFailed state (wpStepID p) (wpTaskID p) (wpError p) false
          (wpTimestampMs p) (wpLatencyMs p)).1
  else if decide (eventType = "WorkflowCompleted") then
    Ok (with_completion state WORKFLOW_STATUS_COMPLETED (default [] (wpResultJSON p))
          (wpResultRef p) (wsError state) (wpTimestampMs p))
  else if decide (eventType = "WorkflowFailed") then
    Ok (with_completion state WORKFLOW_STATUS_FAILED (wsResultJSON state)
          (wsResultRef state) (wpError p) (wpTimestampMs p))
  else Ok state.

(** [applyWorkflowRecord] *)
Definition applyWorkflowRecord (state : WorkflowState) (fallbackWorkflowID : string)
    (rec : RawRecord) (allowFallbackID : bool) : result replay_error WorkflowState :=
  payload ← record_payload rec;
  apply_event state fallbackWorkflowID (raw_EventType rec) payload allowFallbackID.

(** Feed the records to the callback, stopping at its first error. *)
Fixpoint apply_records (state : WorkflowState) (workflowID : string) (allow : bool)
    (records : list RawRecord) : result replay_error WorkflowState :=
  match records with
  | [] => Ok state
  | rec :: records =>
      state ← applyWorkflowRecord state workflowID rec allow;
      apply_records state workflowID allow records
  end.

Definition iterate (it : RawIterator) (state : WorkflowState) (workflowID : string)
    (allow : bool) : result replay_error WorkflowState :=
  state ← apply_records state workflowID allow (it_records it);
  if it_fails it then Err ErrIterator else Ok state.

Definition finish (state : WorkflowState) : result replay_error WorkflowState :=
  if str_empty (wsWorkflowID state) then Err ErrStartNotFound else Ok (RebuildRuntime state).

(** [ReplayRawEach]; [None] is a nil iterator. *)
Definition ReplayRawEach (workflowID : string) (it : option RawIterator) :
    result replay_error WorkflowState :=
  match it with
  | None => Err ErrIteratorRequired
  | Some it => state ← iterate it zero_state workflowID false; finish state
  end.

(** [ReplayFromRawEach] *)
Definition ReplayFromRawEach (initial : WorkflowState) (it : option RawIterator) :
    result replay_error WorkflowState :=
  let state := CloneState initial in
  state ← (match it with
           | Some it => iterate it state (wsWorkflowID initial) true
           | None => Ok state
           end);
  finish state.

(** The protobuf entry points convert each record ([ReplayEach],
    [ReplayFromEach], [Replay]). *)
Record ProtoIterator := { pit_records : list (option ProtoLogRecord); pit_fails : bool }.
Definition raw_iterator (it : ProtoIterator) : RawIterator :=
  {| it_records := map FromProto (pit_records it); it_fails := pit_fails it |}.

Definition ReplayEach (workflowID : string) (it : option ProtoIterator) :
    result replay_error WorkflowState :=
  match it with
  | None => Err ErrIteratorRequired
  | Some it => ReplayRawEach workflowID (Some (raw_iterator it))
  end.

Definition ReplayFromEach (initial : WorkflowState) (it : option ProtoIterator) :
    result replay_error WorkflowState :=
  match it with
  | None => Ok (CloneState initial)
  | Some it => ReplayFromRawEach initial (Some (raw_iterator it))
  end.

Definition Replay (workflowID : string) (records : list (option ProtoLogRecord)) :
    result replay_error WorkflowState :=
  ReplayEach workflowID (Some {| pit_records := records; pit_fails := false |}).
End Replay.

(** [Consistent] *)
Definition step_consistent (a b : StepState) : bool :=
  bool_decide (ssStepID a = ssStepID b) && bool_decide (ssStatus a = ssStatus b) &&
  bool_decide (ssAttempts a = ssAttempts b) && bool_decide (ssTaskID a = ssTaskID b) &&
  bool_decide (ssResultRef a = ssResultRef b) && bool_decide (ssError a = ssError b) &&
  bool_decide (ssResultJSON a = ssResultJSON b).

Fixpoint steps_consistent (a b : list StepState) : bool :=
  match a, b with
  | [], [] => true
  | x :: a, y :: b => step_consistent x y && steps_consistent a b
  | _, _ => false
  end.

Definition Consistent (a b : WorkflowState) : bool :=
  bool_decide (wsWorkflowID a = wsWorkflowID b) && bool_decide (wsStatus a = wsStatus b) &&
  bool_decide (wsError a = wsError b) && bool_decide (wsResultJSON a = wsResultJSON b) &&
  bool_decide (wsResultRef a = wsResultRef b) &&
  steps_consistent (StepStatesInOrder a) (StepStatesInOrder b).

(** [WorkflowLatencyMs]; the subtraction is on [int64]. *)
Definition WorkflowLatencyMs (s : WorkflowState) : Z :=
  if (wsCompletedAtMs s =? 0) || (wsCreatedAtMs s =? 0) then 0
  else i64 (wsCompletedAtMs s - wsCreatedAtMs s).

(** ** Payload round trip *)

(** The values the payload's Go types can hold; an empty [RawMessage] is not
    written, so it comes back nil. *)
Record payload_ok (p : WorkflowEventPayload) : Prop := {
  po_definition : wpDefinitionJSON p ≠ Some [];
  po_args : wpResolvedArgsJSON p ≠ Some [];
  po_result : wpResultJSON p ≠ Some [];
  po_attempt : in_u32 (wpAttempt p);
  po_timestamp : in_i64 (wpTimestampMs p);
  po_latency : in_i64 (wpLatencyMs p)
}.

Lemma replay_payload_keys p : NoDup ((payload_entries p).*1).
Proof.
  change ((payload_entries p).*1) with ((payload_entries zero_payload).*1).
  apply (bool_decide_unpack _). vm_compute. exact I.
Qed.

Lemma replay_payload_lookup p k o : (k, o) ∈ payload_entries p → eventPayloadMap p !! k = o.
Proof. apply sparse_lookup; [apply replay_payload_keys|apply lookup_empty]. Qed.

(** Read one field of the map. *)
Ltac sparse_field :=
  apply replay_payload_lookup; unfold payload_entries;
  repeat (first [apply list_elem_of_here|apply list_elem_of_further]).

Lemma payload_map_roundtrip p m :
  payload_ok p → fields_sim (eventPayloadMap p) m → eventPayloadFromMap m = p.
Proof.
  intros [Hd Ha Hr Hat Ht Hl] Hs. unfold eventPayloadFromMap.
  destruct p; simpl in *. f_equal;
    match goal with
    | |- StringValue _ = _ => apply (StringValue_field _ _ _ _ Hs); sparse_field
    | |- BytesValue _ = _ => apply (BytesValue_field _ _ _ _ Hs); [sparse_field|assumption]
    | |- Uint32Value _ = _ => apply (Uint32Value_field _ _ _ _ Hs); [sparse_field|assumption]
    | |- Int64Value _ = _ => apply (Int64Value_field _ _ _ _ Hs); [sparse_field|assumption]
    end.
Qed.

(** a workflow event payload survives its encoding: what
    [MarshalEventPayload] wrote, [UnmarshalEventPayload] reads back field by
    field. *)
Theorem workflow_event_roundtrip `{MsgpackLib} `{WorkflowEventJSON} p data :
  payload_ok p → MarshalEventPayload p = Ok data → UnmarshalEventPayload data = Ok p.
Proof.
  intros Hp (Hk & body & Hb & ->)%Marshal_ok. unfold UnmarshalEventPayload, Unmarshal.
  rewrite Body_enveloped by (unfold KindWorkflowEvent; lia).
  rewrite Z.eqb_refl. simpl. destruct (msgpack_roundtrip _ _ Hb) as (m' & -> & Hsim).
  f_equal. by apply payload_map_roundtrip.
Qed.

(** ** Replay does not depend on the derived runtime data *)

(** A state a start event was applied to; the counters may be anything. *)
Record started (s : WorkflowState) : Prop := {
  st_def : sorted_def (wsDefinition s);
  st_order : wsStepOrder s = ids_of (dfSteps (wsDefinition s));
  st_dag : ∃ d, wsDag s = Some d ∧ steps_ok (dfSteps (wsDefinition s)) d
}.

(** Forget the counters and the ready queue. *)
Definition core_dag (d : RuntimeDAG) : RuntimeDAG :=
  {| rdSteps := rdSteps d; rdByID := rdByID d; rdOutgoing := []; rdRemainingDeps := [];
     rdReady := []; rdReadyHead := 0 |}.
Definition core (s : WorkflowState) : WorkflowState :=
  with_runtime s (wsDefinition s) (wsStepOrder s) (core_dag <$> wsDag s).

Lemma started_ensure s : started s → ensureRuntime s = s.
Proof.
  intros [_ Ho (d & Hd & Hg)]. unfold ensureRuntime. rewrite Hd, Ho.
  rewrite (steps_ok_length _ _ Hg). unfold ids_of. by rewrite length_map, Nat.eqb_refl.
Qed.

Lemma runtime_started s : runtime_ok s → started s.
Proof. intros [? ? (d & ? & ? & _)]. split; [done..|]. exists d. split; [done|by apply graph_ok_steps]. Qed.

Lemma core_started s : started s → started (core s).
Proof.
  intros [? ? (d & Hd & [? ? ?])]. split; [done..|]. exists (core_dag d).
  simpl. rewrite Hd. split; [done|]. by split.
Qed.

Lemma core_idemp s : core (core s) = core s.
Proof. unfold core, with_runtime. simpl. by destruct (wsDag s). Qed.

Lemma unlock_steps outs d : core_dag (unlock outs d) = core_dag d.
Proof.
  revert d. induction outs as [|next outs IH]; intros d; simpl; [done|].
  destruct (Nat.leb _ _); [apply IH|]. rewrite IH. by destruct (stepReady _ _).
Qed.

Lemma core_with_dag s d d' : core_dag d = core_dag d' → core (with_dag s d) = core (with_dag s d').
Proof. unfold core, with_dag, with_runtime. simpl. by intros ->. Qed.

(** [op] either leaves the state or replaces the step [id], as [f] says. *)
Definition sets (op : WorkflowState → WorkflowState) (f : StepState → option (StepState * Z)) (id : string) : Prop :=
  (∀ st st' now, f st = Some (st', now) → ssStepID st' = ssStepID st ∧ ssTaskName st' = ssTaskName st) ∧
  ∀ s d, started s → wsDag s = Some d →
    core (op s) = core match find_step d id with
      | Some (idx, st) =>
          match f st with Some (st', now) => put_step s d idx st' now | None => s end
      | None => s
      end.
Definition setter_like (op : WorkflowState → WorkflowState) : Prop := ∃ f id, sets op f id.

Definition scheduled_step (taskID : string) (attempt : Z) (hash : string) (args : option bytes) (now : Z)
    (st : StepState) : option (StepState * Z) := Some
  ({| ssStepID := ssStepID st; ssTaskName := ssTaskName st;
      ssStatus := WORKFLOW_STEP_STATUS_SCHEDULED; ssAttempts := attempt; ssTaskID := taskID;
      ssResultJSON := ssResultJSON st; ssResultRef := ssResultRef st; ssError := "";
      ssStartedAtMs := ssStartedAtMs st; ssCompletedAtMs := ssCompletedAtMs st;
      ssLatencyMs := ssLatencyMs st; ssLastInputHash := hash;
      ssResolvedArgsJSON := default (ssResolvedArgsJSON st) args;
      ssLastScheduledAtMs := now |}, now).
Definition started_step (taskID : string) (now : Z) (st : StepState) : option (StepState * Z) :=
  if bool_decide (ssStatus st = WORKFLOW_STEP_STATUS_SUCCEEDED) then None else Some
  ({| ssStepID := ssStepID st; ssTaskName := ssTaskName st;
      ssStatus := WORKFLOW_STEP_STATUS_STARTED; ssAttempts := ssAttempts st;
      ssTaskID := taskID; ssResultJSON := ssResultJSON st; ssResultRef := ssResultRef st;
      ssError := ssError st; ssStartedAtMs := now; ssCompletedAtMs := ssCompletedAtMs st;
      ssLatencyMs := ssLatencyMs st; ssLastInputHash := ssLastInputHash st;
      ssResolvedArgsJSON := ssResolvedArgsJSON st;
      ssLastScheduledAtMs := ssLastScheduledAtMs st |}, now).
Definition succeeded_step (taskID : string) (res : bytes) (ref : string) (now lat : Z)
    (st : StepState) : option (StepState * Z) := Some
  ({| ssStepID := ssStepID st; ssTaskName := ssTaskName st;
      ssStatus := WORKFLOW_STEP_STATUS_SUCCEEDED; ssAttempts := ssAttempts st;
      ssTaskID := taskID; ssResultJSON := res; ssResultRef := ref; ssError := "";
      ssStartedAtMs := ssStartedAtMs st; ssCompletedAtMs := now; ssLatencyMs := lat;
      ssLastInputHash := ssLastInputHash st; ssResolvedArgsJSON := ssResolvedArgsJSON st;
      ssLastScheduledAtMs := ssLastScheduledAtMs st |}, now).
Definition failed_step (taskID err : string) (retry : bool) (now lat : Z) (st : StepState) : option (StepState * Z) := Some
  ({| ssStepID := ssStepID st; ssTaskName := ssTaskName st;
      ssStatus := if retry then WORKFLOW_STEP_STATUS_SCHEDULED else WORKFLOW_STEP_STATUS_FAILED;
      ssAttempts := ssAttempts st; ssTaskID := if retry then EmptyString else taskID;
      ssResultJSON := ssResultJSON st; ssResultRef := ssResultRef st; ssError := err;
      ssStartedAtMs := ssStartedAtMs st; ssCompletedAtMs := now; ssLatencyMs := lat;
      ssLastInputHash := ssLastInputHash st; ssResolvedArgsJSON := ssResolvedArgsJSON st;
      ssLastScheduledAtMs := ssLastScheduledAtMs st |}, now).

Ltac as_setter H f id :=
  split;
    [intros ? ? ?; unfold f; simpl; repeat case_match; intros [= <- <-]; done
    |intros s d Hs Hd; unfold H, f; rewrite (started_ensure s Hs);
     assert (dag_of s = d) as -> by (unfold dag_of; by rewrite Hd);
     destruct (find_step d id) as [[idx st]|]; [|done]; simpl].

Lemma scheduled_sets id taskID attempt hash args now :
  sets (λ s, (SetStepScheduled s id taskID attempt hash args now).1) (scheduled_step taskID attempt hash args now) id.
Proof. as_setter SetStepScheduled scheduled_step id. done. Qed.
Lemma started_sets id taskID now : sets (λ s, (SetStepStarted s id taskID now).1) (started_step taskID now) id.
Proof. as_setter SetStepStarted started_step id. by case_bool_decide. Qed.
Lemma succeeded_sets id taskID res ref now lat :
  sets (λ s, (SetStepSucceeded s id taskID res ref now lat).1) (succeeded_step taskID res ref now lat) id.
Proof.
  as_setter SetStepSucceeded succeeded_step id. case_bool_decide; [done|]. simpl. by rewrite (core_with_dag _ _ _ (unlock_steps _ _)).
Qed.
Lemma failed_sets id taskID err retry now lat :
  sets (λ s, (SetStepFailed s id taskID err retry now lat).1) (failed_step taskID err retry now lat) id.
Proof. as_setter SetStepFailed failed_step id. by destruct (retry && _). Qed.
Lemma sets_like op f id : sets op f id → setter_like op.
Proof. by exists f, id. Qed.

Lemma core_eq s t :
  core s = core t →
  wsWorkflowID s = wsWorkflowID t ∧ wsDefinition s = wsDefinition t ∧
  wsStepOrder s = wsStepOrder t ∧ core_dag <$> wsDag s = core_dag <$> wsDag t.
Proof.
  intros H. split_and!; [apply (f_equal wsWorkflowID) in H|apply (f_equal wsDefinition) in H
    |apply (f_equal wsStepOrder) in H|apply (f_equal wsDag) in H]; exact H.
Qed.

Lemma core_dag_steps d d' : core_dag d = core_dag d' → rdSteps d = rdSteps d' ∧ rdByID d = rdByID d'.
Proof. unfold core_dag. intros H. by injection H as -> ->. Qed.

Lemma started_of_core s t : core s = core t → started s → started t.
Proof.
  intros (_ & Hdef & Ho & Hd)%core_eq [H1 H2 (d & Hds & Hso)].
  rewrite Hdef in *. rewrite Ho in *. split; [done..|]. rewrite Hds in Hd. simpl in Hd.
  destruct (wsDag t) as [d'|]; [|done]. simpl in Hd. injection Hd as Hsteps Hby.
  exists d'. split; [done|]. destruct Hso as [? ? ?]. split; by rewrite <- ?Hsteps, <- ?Hby.
Qed.

Lemma core_put s t d d' idx st now :
  core s = core t → core_dag d = core_dag d' →
  core (put_step s d idx st now) = core (put_step t d' idx st now).
Proof.
  intros Hst [Hs Hb]%core_dag_steps.
  assert (Heq : ∀ u e, core (put_step u e idx st now) = with_UpdatedAtMs (with_runtime (core u)
    (wsDefinition (core u)) (wsStepOrder (core u))
    (Some (core_dag (with_rdSteps e (<[idx:=st]> (rdSteps e)))))) now) by done.
  rewrite !Heq, Hst. unfold core_dag, with_rdSteps. simpl. by rewrite Hs, Hb.
Qed.

Lemma find_step_core d d' id : core_dag d = core_dag d' → find_step d id = find_step d' id.
Proof. intros [Hs Hb]%core_dag_steps. unfold find_step. by rewrite Hs, Hb. Qed.

Lemma setter_core op s t :
  setter_like op → started s → core s = core t → core (op s) = core (op t).
Proof.
  intros (f & id & _ & Hop) Hs Hst. pose proof (started_of_core s t Hst Hs) as Ht.
  pose proof Hs as [_ _ (d & Hd & _)]. pose proof Ht as [_ _ (d' & Hd' & _)].
  rewrite (Hop s d Hs Hd), (Hop t d' Ht Hd').
  pose proof (core_eq s t Hst) as (_ & _ & _ & Hdd). rewrite Hd, Hd' in Hdd. simpl in Hdd.
  injection Hdd as Hsteps Hby.
  assert (core_dag d = core_dag d') as Hdag by (unfold core_dag; by rewrite Hsteps, Hby).
  rewrite (find_step_core d d' id Hdag). destruct (find_step d' id) as [[idx st]|]; [|done].
  destruct (f st) as [[st' now]|]; [|done]. by apply core_put.
Qed.

Lemma setter_started op s :
  setter_like op → started s → started (op s) ∧ wsWorkflowID (op s) = wsWorkflowID s.
Proof.
  intros (f & id & Hf & Hop) Hs. pose proof Hs as [Hdef Ho (d & Hd & Hso)].
  pose proof (Hop s d Hs Hd) as Hc. destruct (find_step d id) as [[idx st]|] eqn:Hfs.
  2:{ split; [by apply (started_of_core s)|by apply core_eq in Hc as (-> & _)]. }
  destruct (f st) as [[st' now]|] eqn:Hst.
  2:{ split; [by apply (started_of_core s)|by apply core_eq in Hc as (-> & _)]. }
  apply (find_step_Some _ _ _ _ _ Hso (proj1 Hdef)) in Hfs as [Hidx Hid].
  destruct (Hf _ _ _ Hst) as [Hid' Hnm]. split; [|by apply core_eq in Hc as (-> & _)].
  apply (started_of_core (put_step s d idx st' now)); [done|].
  split; [done..|]. eexists. split; [reflexivity|]. destruct Hso as [Hids Hnms Hby].
  split; simpl; [by rewrite (map_insert_same _ _ _ st)|by apply (put_names _ _ idx st)|done].
Qed.

(** The final rebuild forgets the counters. *)
Lemma rebuild_core s t : core s = core t → RebuildRuntime s = RebuildRuntime t.
Proof.
  intros Hst. pose proof (core_eq s t Hst) as (_ & Hdef & _ & Hd).
  unfold RebuildRuntime. rewrite Hdef.
  assert (match wsDag s with Some d => rdSteps d | None => [] end
        = match wsDag t with Some d => rdSteps d | None => [] end) as ->.
  { destruct (wsDag s) as [d|], (wsDag t) as [d'|]; try done. simpl in Hd. by injection Hd. }
  set (def := normalizeDefinition _). set (dag := buildRuntimeDAG _ _).
  change (with_runtime s ?a ?b ?c) with (with_runtime (core s) a b c). by rewrite Hst.
Qed.

Lemma core_rebuild s : started s → core (RebuildRuntime s) = core s.
Proof.
  intros [Hdef Ho (d & Hd & Hso)]. unfold RebuildRuntime. rewrite Hd, (sorted_normal _ Hdef).
  destruct (buildRuntimeDAG_ok (wsDefinition s) (rdSteps d)) as (Hg' & _ & _ & Hsteps).
  rewrite (sorted_normal _ Hdef) in Hg', Hsteps. rewrite (merge_steps_same _ _ Hdef Hso) in Hsteps.
  unfold core, with_runtime. simpl. rewrite Hd. simpl. unfold core_dag, stepOrder.
  destruct Hg' as [Hids _ Hby _]. rewrite Hsteps, Hby, Ho. destruct Hso as [-> _ ->]. done.
Qed.

Lemma rebuild_runtime_ok s : started s → runtime_ok (RebuildRuntime s).
Proof.
  intros [Hdef Ho (d & Hd & Hso)]. unfold RebuildRuntime. rewrite Hd, (sorted_normal _ Hdef).
  destruct (buildRuntimeDAG_ok (wsDefinition s) (rdSteps d)) as (Hg' & Hq & _).
  rewrite (sorted_normal _ Hdef) in Hg'. split; simpl; [done|by apply gk_ids|eauto].
Qed.

(** ** Folding the records *)
Section Fold.
Context `{MsgpackLib} `{DefinitionJSON} `{WorkflowEventJSON}.

(** Before the start event the state has no ID; after it, it is [started]. *)
Definition replaying (workflowID : string) (s : WorkflowState) : Prop :=
  wsWorkflowID s = EmptyString ∨ started s ∧ wsWorkflowID s = workflowID.

Lemma ensure_id s : wsWorkflowID (ensureRuntime s) = wsWorkflowID s.
Proof. unfold ensureRuntime. destruct (wsDag s); [|done]. by destruct (Nat.eqb _ _). Qed.

(** Events other than the start event keep the ID, keep a started state
    started, and do not look at the counters. *)
Lemma other_event et p s :
  et ≠ "WorkflowStarted" →
  ∃ op, (∀ t wid' allow', apply_event t wid' et p allow' = Ok (op t)) ∧
    wsWorkflowID (op s) = wsWorkflowID s ∧ (started s → started (op s)) ∧
    ∀ t, started s → core s = core t → core (op s) = core (op t).
Proof.
  intros Hne.
  assert (Hset : ∀ op, setter_like op → (∀ t, wsWorkflowID (op t) = wsWorkflowID t) →
    wsWorkflowID (op s) = wsWorkflowID s ∧ (started s → started (op s)) ∧
    ∀ t, started s → core s = core t → core (op s) = core (op t)).
  { intros op Hop Hid. split; [done|]. split; [by apply setter_started|].
    intros t. by apply setter_core. }
  assert (Hid : ∀ t, wsWorkflowID (ensureRuntime t) = wsWorkflowID t) by apply ensure_id.
  unfold apply_event. destruct (decide (et = "WorkflowStarted")) as [|_]; [done|].
  destruct (decide (et = "StepScheduled")) as [->|].
  { eexists. split; [reflexivity|]. apply (Hset _ (sets_like _ _ _ (scheduled_sets _ _ _ _ _ _))).
    intros t. unfold SetStepScheduled. destruct (find_step _ _) as [[??]|]; apply Hid. }
  destruct (decide (et = "StepStarted")) as [->|].
  { eexists. split; [reflexivity|]. apply (Hset _ (sets_like _ _ _ (started_sets _ _ _))).
    intros t. unfold SetStepStarted. destruct (find_step _ _) as [[??]|]; [|apply Hid].
    case_bool_decide; apply Hid. }
  destruct (decide (et = "StepSucceeded")) as [->|].
  { eexists. split; [reflexivity|]. apply (Hset _ (sets_like _ _ _ (succeeded_sets _ _ _ _ _ _))).
    intros t. unfold SetStepSucceeded. destruct (find_step _ _) as [[??]|]; [|apply Hid].
    case_bool_decide; apply Hid. }
  destruct (decide (et = "StepFailed")) as [->|].
  { eexists. split; [reflexivity|]. apply (Hset _ (sets_like _ _ _ (failed_sets _ _ _ _ _ _))).
    intros t. unfold SetStepFailed. destruct (find_step _ _) as [[??]|]; [|apply Hid].
    destruct (_ && _); apply Hid. }
  assert (Hcomp : ∀ st a b c ts, started s → started (with_completion s st a b c ts)).
  { intros st a b c ts [Hdef Ho Hd]. by split. }
  assert (Hcore : ∀ u st a b c ts,
    core (with_completion u st a b c ts) = with_completion (core u) st a b c ts) by done.
  destruct (decide (et = "WorkflowCompleted")) as [->|].
  { exists (λ t, with_completion t WORKFLOW_STATUS_COMPLETED (default [] (wpResultJSON p))
      (wpResultRef p) (wsError t) (wpTimestampMs p)).
    split; [done|]. split; [done|]. split; [by apply Hcomp|]. intros t _ Hst.
    rewrite !Hcore, Hst. by rewrite (f_equal wsError Hst : wsError s = wsError t). }
  destruct (decide (et = "WorkflowFailed")) as [->|].
  { exists (λ t, with_completion t WORKFLOW_STATUS_FAILED (wsResultJSON t) (wsResultRef t)
      (wpError p) (wpTimestampMs p)).
    split; [done|]. split; [done|]. split; [by apply Hcomp|]. intros t _ Hst.
    rewrite !Hcore, Hst. rewrite (f_equal wsResultJSON Hst : wsResultJSON s = wsResultJSON t).
    by rewrite (f_equal wsResultRef Hst : wsResultRef s = wsResultRef t). }
  by exists id.
Qed.

Lemma start_event_started data def wid ts key fp :
  ParseDefinition data = Ok def → started (with_idempotency (NewState wid def ts) key fp).
Proof.
  intros Hp%parsed_sorted. pose proof (runtime_started _ (NewState_ok wid def ts Hp)) as [? ? Hd].
  by split.
Qed.

Lemma apply_replaying wid rec s s' :
  replaying wid s → applyWorkflowRecord s wid rec false = Ok s' → replaying wid s'.
Proof.
  intros Hs. unfold applyWorkflowRecord. destruct (record_payload rec) as [p|]; [|done]. simpl.
  destruct (decide (raw_EventType rec = "WorkflowStarted")) as [->|Hne].
  - unfold apply_event. simpl. destruct (ParseDefinition _) as [def|] eqn:Hp; [|done].
    intros [= <-]. right. split; [by eapply start_event_started|done].
  - destruct (other_event (raw_EventType rec) p s Hne) as (op & Hop & Hid & Hst & _).
    rewrite Hop. intros [= <-]. destruct Hs as [Hs|[Hs Hw]]; [left|right]; rewrite Hid; auto.
Qed.

Lemma records_replaying wid l s s' :
  replaying wid s → apply_records s wid false l = Ok s' → replaying wid s'.
Proof.
  revert s. induction l as [|rec l IH]; intros s Hs; simpl; [by intros [= <-]|].
  destruct (applyWorkflowRecord s wid rec false) as [s1|] eqn:H1'; [|done]. simpl.
  apply IH. by eapply apply_replaying.
Qed.

Lemma apply_records_app s wid allow l1 l2 :
  apply_records s wid allow (l1 ++ l2)
  = apply_records s wid allow l1 ≫= λ s', apply_records s' wid allow l2.
Proof.
  revert s. induction l1 as [|rec l1 IH]; intros s; simpl; [done|].
  destruct (applyWorkflowRecord s wid rec allow); simpl; [apply IH|done].
Qed.

(** Start events of the tail carry no other workflow's ID. *)
Definition same_workflow (wid : string) (rec : RawRecord) : Prop :=
  raw_EventType rec = "WorkflowStarted" → ∀ p, record_payload rec = Ok p →
  wpWorkflowID p = EmptyString ∨ wpWorkflowID p = wid.

(** The same tail from two states that differ in derived data only. *)
Definition same_outcome (wid : string) (r1 r2 : result replay_error WorkflowState) : Prop :=
  match r1, r2 with
  | Ok s, Ok t => started s ∧ wsWorkflowID s = wid ∧ core s = core t
  | Err e, Err e' => e = e'
  | _, _ => False
  end.

Lemma apply_same wid rec s t :
  same_workflow wid rec → started s → wsWorkflowID s = wid → core s = core t →
  same_outcome wid (applyWorkflowRecord s wid rec false) (applyWorkflowRecord t wid rec true).
Proof.
  intros Hw Hs Hid Hst. unfold applyWorkflowRecord, same_workflow in *.
  destruct (record_payload rec) as [p|e]; [|done]. simpl.
  destruct (decide (raw_EventType rec = "WorkflowStarted")) as [He|Hne].
  - specialize (Hw He p eq_refl). rewrite He. unfold apply_event. simpl.
    destruct (ParseDefinition _) as [def|] eqn:Hp; [|done]. simpl.
    assert ((if negb (str_empty (wpWorkflowID p)) then wpWorkflowID p else wid) = wid) as ->.
    { destruct Hw as [-> | ->]; [done|]. by destruct (str_empty wid). }
    split; [by eapply start_event_started|done].
  - destruct (other_event (raw_EventType rec) p s Hne) as (op & Hop & Hid' & Hst' & Hcore).
    rewrite !Hop. simpl. rewrite Hid'. auto.
Qed.

Lemma records_same wid l s t :
  Forall (same_workflow wid) l → started s → wsWorkflowID s = wid → core s = core t →
  same_outcome wid (apply_records s wid false l) (apply_records t wid true l).
Proof.
  intros Hl. revert s t. induction Hl as [|rec l Hrec Hl IH]; intros s t Hs Hid Hst; simpl; [done|].
  pose proof (apply_same wid rec s t Hrec Hs Hid Hst) as Hout.
  destruct (applyWorkflowRecord s wid rec false), (applyWorkflowRecord t wid rec true);
    simpl in *; try done.
  destruct Hout as (? & ? & ?). by apply IH.
Qed.

(** A checkpoint may stand for any prefix of the log: replaying a tail on top
    of the state replayed from the prefix gives exactly the result (state or
    error) of replaying prefix and tail together. *)
Theorem replay_resume wid prefix tail fails s :
  wid ≠ EmptyString →
  ReplayRawEach wid (Some {| it_records := prefix; it_fails := false |}) = Ok s →
  Forall (same_workflow wid) tail →
  ReplayFromRawEach s (Some {| it_records := tail; it_fails := fails |})
  = ReplayRawEach wid (Some {| it_records := prefix ++ tail; it_fails := fails |}).
Proof.
  intros Hw Hpre Htail. unfold ReplayRawEach, iterate in *. simpl in *.
  rewrite apply_records_app.
  destruct (apply_records zero_state wid false prefix) as [s0|] eqn:H0'; [|done]. simpl in *.
  unfold finish in Hpre. destruct (str_empty (wsWorkflowID s0)) eqn:He; [done|].
  injection Hpre as <-. apply str_empty_false in He.
  destruct (records_replaying wid prefix zero_state s0 (or_introl eq_refl) H0') as [|[Hst Hid]]; [done|].
  unfold ReplayFromRawEach, CloneState. rewrite (runtime_ok_rebuilt _ (rebuild_runtime_ok s0 Hst)).
  change (wsWorkflowID (RebuildRuntime s0)) with (wsWorkflowID s0). rewrite Hid.
  pose proof (records_same wid tail s0 (RebuildRuntime s0) Htail Hst Hid
    (eq_sym (core_rebuild s0 Hst))) as Hout. unfold iterate. simpl.
  destruct (apply_records s0 wid false tail) as [s1|], (apply_records _ wid true tail) as [t1|];
    simpl in *; try done; [|by subst].
  destruct Hout as (_ & _ & Hcore). destruct fails; [done|]. unfold finish.
  simpl. pose proof (core_eq s1 t1 Hcore) as (-> & _). by rewrite (rebuild_core s1 t1).
Qed.

(** Whatever events the log holds (late, duplicate or out of order), a
    successful replay yields a state of the requested workflow whose runtime
    graph satisfies the whole invariant, so that its counters and ready queue
    agree with its steps. *)
Theorem replay_state_ok wid it s :
  ReplayRawEach wid (Some it) = Ok s → wsWorkflowID s = wid ∧ runtime_ok s.
Proof.
  unfold ReplayRawEach, iterate. simpl.
  destruct (apply_records zero_state wid false (it_records it)) as [s0|] eqn:H0'; [|done]. simpl.
  destruct (it_fails it); [done|]. simpl. unfold finish.
  destruct (str_empty (wsWorkflowID s0)) eqn:He; [done|]. apply str_empty_false in He.
  intros [= <-].
  destruct (records_replaying wid (it_records it) zero_state s0 (or_introl eq_refl) H0')
    as [|[Hst Hid]]; [done|].
  split; [done|by apply rebuild_runtime_ok].
Qed.
End Fold.

(** ** A concrete log *)

Definition sample_payload : WorkflowEventPayload :=
  {| wpWorkflowID := "wf"; wpWorkflowName := ""; wpDefinitionJSON := None; wpStepID := "root";
     wpTaskID := "t1"; wpAttempt := 1; wpInputHash := "h"; wpResolvedArgsJSON := Some (str_bytes "{}");
     wpResultJSON := None; wpResultRef := ""; wpError := ""; wpIdempotencyKey := "";
     wpIdempotencyFingerprint := ""; wpTimestampMs := 17; wpLatencyMs := -1 |}.

Definition sample_event : bytes :=
  match MarshalEventPayload (H := toy_msgpack) sample_payload with Ok d => d | Err _ => [] end.

Definition no_legacy : WorkflowEventJSON := {| unmarshalWorkflowEvent := λ _, None |}.

Lemma workflow_event_roundtrip_witness :
  UnmarshalEventPayload (H := toy_msgpack) (H1 := no_legacy) sample_event = Ok sample_payload.
Proof.
  apply (workflow_event_roundtrip (H := toy_msgpack) (H0 := no_legacy)).
  - split; simpl; try discriminate; unfold in_u32, in_i64; lia.
  - vm_compute. reflexivity.
Defined.

(** Legacy payloads by name, so that the records stay readable. *)
Definition sample_legacy : WorkflowEventJSON :=
  {| unmarshalWorkflowEvent := λ data,
       if decide (data = str_bytes "start") then
         Some {| wpWorkflowID := "wf"; wpWorkflowName := "w";
                 wpDefinitionJSON := Some (str_bytes "diamond"); wpStepID := ""; wpTaskID := "";
                 wpAttempt := 0; wpInputHash := ""; wpResolvedArgsJSON := None; wpResultJSON := None;
                 wpResultRef := ""; wpError := ""; wpIdempotencyKey := "k";
                 wpIdempotencyFingerprint := "fp"; wpTimestampMs := 0; wpLatencyMs := 0 |}
       else if decide (data = str_bytes "root") then Some sample_payload
       else None |}.

Definition sample_rec (seq : Z) (event payload : string) : RawRecord :=
  {| raw_StreamID := "workflow/wf"; raw_Seq := seq; raw_EventType := event;
     raw_IdempotencyKey := ""; raw_Payload := str_bytes payload; raw_TimestampMs := 100 + seq;
     raw_CRC32 := 0 |}.

Definition sample_prefix : list RawRecord :=
  [sample_rec 1 "WorkflowStarted" "start"; sample_rec 2 "StepScheduled" "root";
   sample_rec 3 "StepStarted" "root"].
(** A late duplicate failure after the success. *)
Definition sample_tail : list RawRecord :=
  [sample_rec 4 "StepSucceeded" "root"; sample_rec 5 "StepFailed" "root"].

Definition sample_replay (records : list RawRecord) : result replay_error WorkflowState :=
  ReplayRawEach (H := toy_msgpack) (H0 := sample_json) (H1 := sample_legacy) "wf"
    (Some {| it_records := records; it_fails := false |}).

Lemma replay_state_ok_witness :
  match sample_replay (sample_prefix ++ sample_tail) with
  | Ok s => wsWorkflowID s = "wf"%string ∧ runtime_ok s
  | Err _ => False
  end.
Proof.
  destruct (sample_replay (sample_prefix ++ sample_tail)) as [s|e] eqn:Hs.
  - exact (replay_state_ok (H := toy_msgpack) (H0 := sample_json) (H1 := sample_legacy) "wf" _ s Hs).
  - vm_compute in Hs. discriminate Hs.
Defined.

Lemma replay_resume_witness :
  match sample_replay sample_prefix with
  | Ok s => ReplayFromRawEach (H := toy_msgpack) (H0 := sample_json) (H1 := sample_legacy) s
              (Some {| it_records := sample_tail; it_fails := false |})
            = sample_replay (sample_prefix ++ sample_tail)
  | Err _ => False
  end.
Proof.
  destruct (sample_replay sample_prefix) as [s|e] eqn:Hs.
  - apply (replay_resume (H := toy_msgpack) (H0 := sample_json) (H1 := sample_legacy) "wf"
      sample_prefix sample_tail false s).
    + discriminate.
    + exact Hs.
    + unfold sample_tail. constructor; [intros Hstart; discriminate Hstart|].
      constructor; [intros Hstart; discriminate Hstart|constructor].
  - vm_compute in Hs. discriminate Hs.
Defined.
Close Scope Z_scope.
