(* ===== verification/WorkflowJSON.v ===== *)
(** The durable snapshot of a workflow's state ([State.MarshalJSON] and
    [State.UnmarshalJSON] of internal/workflow/model.go): the state without its runtime
    graph, which decoding rebuilds.

    The JSON library is the class [StateJSON]: a [json.RawMessage] inside an encoded
    value comes back compacted, everything else as it was. *)
From S2P Require Import Prelude Bytes Kahn WorkflowDef WorkflowState WorkflowReplay.

Open Scope Z_scope.

(** [stateJSON] *)
Record stateJSON := {
  sj_WorkflowID : string;
  sj_WorkflowName : string;
  sj_Status : WorkflowStatus;
  sj_Definition : WorkflowDefinition;
  sj_StepOrder : list string;
  sj_Steps : bytes;
  sj_ResultJSON : bytes;
  sj_ResultRef : string;
  sj_Error : string;
  sj_IdempotencyKey : string;
  sj_IdempotencyFingerprint : string;
  sj_CreatedAtMs : Z;
  sj_UpdatedAtMs : Z;
  sj_CompletedAtMs : Z
}.

(** The raw messages of a definition, compacted. *)
Definition compact_step (f : bytes → bytes) (st : StepDefinition) : StepDefinition := {|
  sdStepID := sdStepID st; sdTaskName := sdTaskName st; sdFunctionName := sdFunctionName st;
  sdFunctionSource := sdFunctionSource st; sdFunctionRef := sdFunctionRef st; sdFunctionHash := sdFunctionHash st;
  sdArgsJSON := f (sdArgsJSON st); sdDependsOn := sdDependsOn st; sdMaxAttempts := sdMaxAttempts st;
  sdTimeoutMs := sdTimeoutMs st; sdLLMModelName := sdLLMModelName st; sdLLMModelVersion := sdLLMModelVersion st;
  sdLLMAdapter := sdLLMAdapter st; sdLLMMaxTokens := sdLLMMaxTokens st |}.
Definition compact_def (f : bytes → bytes) (def : WorkflowDefinition) : WorkflowDefinition := {|
  dfWorkflowName := dfWorkflowName def; dfFunctionSource := dfFunctionSource def; dfFunctionRef := dfFunctionRef def;
  dfFunctionHash := dfFunctionHash def; dfArgsJSON := f (dfArgsJSON def); dfSteps := map (compact_step f) (dfSteps def);
  dfResultStepID := dfResultStepID def; dfMaxAttempts := dfMaxAttempts def; dfTimeoutMs := dfTimeoutMs def |}.
Definition compact_state (f : bytes → bytes) (w : stateJSON) : stateJSON := {|
  sj_WorkflowID := sj_WorkflowID w; sj_WorkflowName := sj_WorkflowName w; sj_Status := sj_Status w;
  sj_Definition := compact_def f (sj_Definition w); sj_StepOrder := sj_StepOrder w; sj_Steps := f (sj_Steps w);
  sj_ResultJSON := sj_ResultJSON w; sj_ResultRef := sj_ResultRef w; sj_Error := sj_Error w;
  sj_IdempotencyKey := sj_IdempotencyKey w; sj_IdempotencyFingerprint := sj_IdempotencyFingerprint w;
  sj_CreatedAtMs := sj_CreatedAtMs w; sj_UpdatedAtMs := sj_UpdatedAtMs w; sj_CompletedAtMs := sj_CompletedAtMs w |}.

(** [json.Marshal] and [json.Unmarshal], as the code relies on them.  [json_text]: the
    strings in a value are valid UTF-8, otherwise encoding replaces what is not. *)
Class StateJSON := {
  json_compact : bytes → bytes;
  json_text : stateJSON → Prop;
  json_Steps : list StepState → option bytes;
  json_StepList : bytes → option (list StepState);
  json_StepMap : bytes → option (gmap string StepState);
  json_State : stateJSON → option bytes;
  json_StateDecode : bytes → option stateJSON;
  json_steps_roundtrip : ∀ l data, json_Steps l = Some data →
    json_StepList data = Some l ∧ json_compact data = data ∧ ∃ text, data = [x5b] ++ text ++ [x5d];
  json_state_roundtrip : ∀ w data, json_text w → json_State w = Some data →
    json_StateDecode data = Some (compact_state json_compact w)
}.

Section Snapshot.
Context `{StateJSON}.

(** [MarshalJSON] *)
Definition snapshot_of (s : WorkflowState) (steps : bytes) : stateJSON := {|
  sj_WorkflowID := wsWorkflowID s; sj_WorkflowName := wsWorkflowName s; sj_Status := wsStatus s;
  sj_Definition := wsDefinition s; sj_StepOrder := wsStepOrder s; sj_Steps := steps; sj_ResultJSON := wsResultJSON s;
  sj_ResultRef := wsResultRef s; sj_Error := wsError s; sj_IdempotencyKey := wsIdempotencyKey s;
  sj_IdempotencyFingerprint := wsIdempotencyFingerprint s; sj_CreatedAtMs := wsCreatedAtMs s;
  sj_UpdatedAtMs := wsUpdatedAtMs s; sj_CompletedAtMs := wsCompletedAtMs s |}.
Definition MarshalJSON (s : WorkflowState) : option bytes :=
  let s := rebuilt s in
  steps ← json_Steps (StepStatesInOrder s);
  json_State (snapshot_of s steps).

(** [decodeStateSteps]: a list, or the older map keyed by step ID; ["null"] is 6e 75 6c 6c, ["["] is 5b. *)
Definition decodeStateSteps (raw : bytes) : option (list StepState) :=
  let raw := trim_space raw in
  match raw with
  | [] => Some []
  | b :: _ =>
      if bool_decide (raw = [x6e; x75; x6c; x6c]) then Some []
      else if bool_decide (b = x5b) then json_StepList raw
      else
        legacy ← json_StepMap raw;
        Some (omap (λ id, (λ step, if str_empty (ssStepID step) then with_StepID step id else step) <$> legacy !! id)
                (merge_sort String.le (elements (dom legacy))))
  end.

(** [UnmarshalJSON] *)
Definition state_of_snapshot (w : stateJSON) (steps : list StepState) : WorkflowState :=
  let def := normalizeDefinition (sj_Definition w) in
  let steps := match steps, dfSteps def with
               | [], _ :: _ => rdSteps (buildRuntimeDAG def [])
               | _, _ => steps
               end in
  let dag := buildRuntimeDAG def steps in
  {| wsWorkflowID := sj_WorkflowID w; wsWorkflowName := sj_WorkflowName w; wsStatus := sj_Status w;
     wsDefinition := def; wsStepOrder := stepOrder dag; wsResultJSON := sj_ResultJSON w; wsResultRef := sj_ResultRef w;
     wsError := sj_Error w; wsIdempotencyKey := sj_IdempotencyKey w;
     wsIdempotencyFingerprint := sj_IdempotencyFingerprint w; wsCreatedAtMs := sj_CreatedAtMs w;
     wsUpdatedAtMs := sj_UpdatedAtMs w; wsCompletedAtMs := sj_CompletedAtMs w; wsDag := Some dag |}.
Definition UnmarshalJSON (data : bytes) : option WorkflowState :=
  raw ← json_StateDecode data;
  steps ← decodeStateSteps (sj_Steps raw);
  Some (state_of_snapshot raw steps).

(** A snapshot comes back as the state with its runtime graph rebuilt. *)
Lemma snapshot_roundtrip s data :
  started s → compact_def json_compact (wsDefinition s) = wsDefinition s →
  (∀ steps, json_text (snapshot_of s steps)) → MarshalJSON s = Some data → UnmarshalJSON data = Some (RebuildRuntime s).
Proof.
  intros [Hdef Ho (d & Hd & Hids)] Hc Ht Hm. unfold MarshalJSON in Hm.
  assert (rebuilt s = s) as Hr by (unfold rebuilt; by rewrite Hd). rewrite Hr in Hm.
  destruct (json_Steps (StepStatesInOrder s)) as [steps|] eqn:Hs; [|done]. cbn in Hm.
  destruct (json_steps_roundtrip _ _ Hs) as (Hl & Hcs & text & Htext).
  unfold UnmarshalJSON. rewrite (json_state_roundtrip _ _ (Ht steps) Hm). cbn. rewrite Hcs.
  assert (decodeStateSteps steps = Some (rdSteps d)) as ->.
  { unfold decodeStateSteps. rewrite Htext, trim_brackets, <- Htext, Hl. rewrite Htext. cbn [app].
    rewrite bool_decide_eq_false_2 by (by intros [=]). rewrite bool_decide_eq_true_2 by done.
    unfold StepStatesInOrder, dag_of. by rewrite Hr, Hd. }
  cbn. f_equal. unfold state_of_snapshot, RebuildRuntime, with_runtime. rewrite Hd. cbn. rewrite Hc.
  assert (match rdSteps d, dfSteps (normalizeDefinition (wsDefinition s)) with
          | [], _ :: _ => rdSteps (buildRuntimeDAG (normalizeDefinition (wsDefinition s)) [])
          | _, _ => rdSteps d end = rdSteps d) as ->; [|done].
  rewrite (sorted_normal _ Hdef). destruct Hids as [Hids _ _].
  destruct (rdSteps d), (dfSteps (wsDefinition s)); done.
Qed.
End Snapshot.
Close Scope Z_scope.
