(* ===== verification/Actor.v ===== *)
(** Actor state and its replay: [internal/actor/model.go].

    [replayEach] runs the same fold in two modes: over the whole log, or from
    the last snapshot in the log, skipping the commands the snapshot already
    holds; [ReplayFromStateRawEach] continues from a checkpointed state.  The
    three share one [switch], here [actor_event] with the mode as arguments.
    [json.Compact], the legacy JSON decoder, msgpack and the object store are
    parameters.

    Theorems: payloads round-trip; on the logs of commands completed one at a time,
    replay with snapshots gives exactly the state of a full replay, and after the
    control plane trimmed the log at a snapshot, replay gives that state except
    for four fields, whose loss is stated exactly.  A run shows a command lost when
    completions overlap. *)
From S2P Require Import Prelude Bytes LogRecord EventCodec.

Open Scope Z_scope.

Inductive ActorStatus := ACTOR_STATUS_UNSPECIFIED | ACTOR_STATUS_ACTIVE | ACTOR_STATUS_UNAVAILABLE.

#[export] Instance ActorStatus_eq_dec : EqDecision ActorStatus.
Proof. solve_decision. Defined.

(** [State]; the byte slices are copied, so nil and empty are the same here. *)
Record ActorState := {
  asActorID : string;
  asClassName : string;
  asClassSource : string;
  asInitArgsJSON : bytes;
  asStatus : ActorStatus;
  asOwnerWorkerID : string;
  asEpoch : Z;
  asCommandCount : Z;
  asSubmittedCommandCount : Z;
  asSnapshotEvery : Z;
  asSnapshotRef : string;
  asSnapshotCommandCount : Z;
  asStateJSON : bytes;
  asIdempotencyKey : string;
  asIdempotencyFingerprint : string;
  asCreatedAtMs : Z;
  asUpdatedAtMs : Z
}.

(** [EventPayload]; [None] is a nil [json.RawMessage]. *)
Record ActorEventPayload := {
  apActorID : string;
  apClassName : string;
  apClassSource : string;
  apInitArgsJSON : option bytes;
  apWorkerID : string;
  apEpoch : Z;
  apCallID : string;
  apCommandSeq : Z;
  apMethodName : string;
  apArgsJSON : option bytes;
  apResultJSON : option bytes;
  apStateJSON : option bytes;
  apSnapshotRef : string;
  apSnapshotEvery : Z;
  apCommandCount : Z;
  apSnapshotCommandCount : Z;
  apError : string;
  apIdempotencyKey : string;
  apIdempotencyFingerprint : string;
  apTimestampMs : Z
}.

Definition zero_actor_payload : ActorEventPayload :=
  {| apActorID := ""; apClassName := ""; apClassSource := ""; apInitArgsJSON := None;
     apWorkerID := ""; apEpoch := 0; apCallID := ""; apCommandSeq := 0; apMethodName := "";
     apArgsJSON := None; apResultJSON := None; apStateJSON := None; apSnapshotRef := "";
     apSnapshotEvery := 0; apCommandCount := 0; apSnapshotCommandCount := 0; apError := "";
     apIdempotencyKey := ""; apIdempotencyFingerprint := ""; apTimestampMs := 0 |}.

Definition with_apTimestampMs (p : ActorEventPayload) (ts : Z) : ActorEventPayload :=
  {| apActorID := apActorID p; apClassName := apClassName p; apClassSource := apClassSource p;
     apInitArgsJSON := apInitArgsJSON p; apWorkerID := apWorkerID p; apEpoch := apEpoch p;
     apCallID := apCallID p; apCommandSeq := apCommandSeq p; apMethodName := apMethodName p;
     apArgsJSON := apArgsJSON p; apResultJSON := apResultJSON p; apStateJSON := apStateJSON p;
     apSnapshotRef := apSnapshotRef p; apSnapshotEvery := apSnapshotEvery p;
     apCommandCount := apCommandCount p; apSnapshotCommandCount := apSnapshotCommandCount p;
     apError := apError p; apIdempotencyKey := apIdempotencyKey p;
     apIdempotencyFingerprint := apIdempotencyFingerprint p; apTimestampMs := ts |}.

Definition zero_actor : ActorState :=
  {| asActorID := ""; asClassName := ""; asClassSource := ""; asInitArgsJSON := [];
     asStatus := ACTOR_STATUS_UNSPECIFIED; asOwnerWorkerID := ""; asEpoch := 0;
     asCommandCount := 0; asSubmittedCommandCount := 0; asSnapshotEvery := 0;
     asSnapshotRef := ""; asSnapshotCommandCount := 0; asStateJSON := [];
     asIdempotencyKey := ""; asIdempotencyFingerprint := ""; asCreatedAtMs := 0;
     asUpdatedAtMs := 0 |}.

Inductive actor_error :=
| ErrActorIterator
| ErrActorIteratorRequired
| ErrActorPayload (e : codec_error)
| ErrActorPayloadJSON
| ErrSnapshotLoaderRequired
| ErrLoadResult (ref : string)
| ErrActorCreateNotFound.

(** [eventPayloadMap]; the [*_bytes] entries record sizes and are never read. *)
Definition opt_size (b : option bytes) : option any :=
  match b with Some (x :: r) => Some (AInt KInt (Z.of_nat (length (x :: r)))) | _ => None end.

Definition payload_entries (p : ActorEventPayload) : list (string * option any) :=
         [("actor_id", opt_str (apActorID p));
          ("class_name", opt_str (apClassName p));
          ("class_source", opt_str (apClassSource p));
          ("init_args_json", opt_bytes (apInitArgsJSON p));
          ("worker_id", opt_str (apWorkerID p));
          ("epoch", opt_int KUint64 (apEpoch p));
          ("call_id", opt_str (apCallID p));
          ("command_seq", opt_int KUint64 (apCommandSeq p));
          ("method_name", opt_str (apMethodName p));
          ("args_json", opt_bytes (apArgsJSON p));
          ("args_json_bytes", opt_size (apArgsJSON p));
          ("result_json", opt_bytes (apResultJSON p));
          ("result_json_bytes", opt_size (apResultJSON p));
          ("state_json", opt_bytes (apStateJSON p));
          ("state_json_bytes", opt_size (apStateJSON p));
          ("snapshot_ref", opt_str (apSnapshotRef p));
          ("snapshot_every", opt_int KUint32 (apSnapshotEvery p));
          ("command_count", opt_int KUint64 (apCommandCount p));
          ("snapshot_command_count", opt_int KUint64 (apSnapshotCommandCount p));
          ("error", opt_str (apError p));
          ("idempotency_key", opt_str (apIdempotencyKey p));
          ("idempotency_fingerprint", opt_str (apIdempotencyFingerprint p));
          ("timestamp_ms", opt_int KInt64 (apTimestampMs p))].
Definition eventPayloadMap (p : ActorEventPayload) : fields := sparse (payload_entries p) ∅.

(** [eventPayloadFromMap] *)
Definition eventPayloadFromMap (m : fields) : ActorEventPayload :=
  {| apActorID := StringValue (m !! "actor_id");
     apClassName := StringValue (m !! "class_name");
     apClassSource := StringValue (m !! "class_source");
     apInitArgsJSON := BytesValue (m !! "init_args_json");
     apWorkerID := StringValue (m !! "worker_id");
     apEpoch := Uint64Value (m !! "epoch");
     apCallID := StringValue (m !! "call_id");
     apCommandSeq := Uint64Value (m !! "command_seq");
     apMethodName := StringValue (m !! "method_name");
     apArgsJSON := BytesValue (m !! "args_json");
     apResultJSON := BytesValue (m !! "result_json");
     apStateJSON := BytesValue (m !! "state_json");
     apSnapshotRef := StringValue (m !! "snapshot_ref");
     apSnapshotEvery := Uint32Value (m !! "snapshot_every");
     apCommandCount := Uint64Value (m !! "command_count");
     apSnapshotCommandCount := Uint64Value (m !! "snapshot_command_count");
     apError := StringValue (m !! "error");
     apIdempotencyKey := StringValue (m !! "idempotency_key");
     apIdempotencyFingerprint := StringValue (m !! "idempotency_fingerprint");
     apTimestampMs := Int64Value (m !! "timestamp_ms") |}.

(** [NewState] *)
Definition NewState (actorID className classSource : string) (initArgsJSON : bytes)
    (snapshotEvery nowMs : Z) : ActorState :=
  let snapshotEvery := if snapshotEvery =? 0 then 25 else snapshotEvery in
  {| asActorID := actorID; asClassName := className; asClassSource := classSource;
     asInitArgsJSON := initArgsJSON; asStatus := ACTOR_STATUS_ACTIVE; asOwnerWorkerID := "";
     asEpoch := 0; asCommandCount := 0; asSubmittedCommandCount := 0;
     asSnapshotEvery := snapshotEvery; asSnapshotRef := ""; asSnapshotCommandCount := 0;
     asStateJSON := []; asIdempotencyKey := ""; asIdempotencyFingerprint := "";
     asCreatedAtMs := nowMs; asUpdatedAtMs := nowMs |}.

(** [json.Compact], [None] on invalid input, and the legacy payload decoder. *)
Class ActorJSON := {
  json_Compact : bytes → option bytes;
  unmarshalActorEvent : bytes → option ActorEventPayload
}.

(** [ResultLoader.LoadResult] *)
Abbreviation ResultLoader := (string → option bytes).

(** [RawRecordIterator]: what it emits and whether it fails at the end.  The
    snapshot mode runs it twice, so it emits the same records both times. *)
Record RawIterator := { it_records : list RawRecord; it_fails : bool }.

Section Replay.
Context `{MsgpackLib} `{ActorJSON}.

(** [NormalizeJSON] *)
Definition NormalizeJSON (data : bytes) : bytes :=
  match data with
  | [] => []
  | _ => match json_Compact data with Some b => b | None => data end
  end.

(** [MarshalEventPayload] *)
Definition MarshalEventPayload (p : ActorEventPayload) : result codec_error bytes :=
  Marshal KindActorEvent (eventPayloadMap p).

(** [UnmarshalEventPayload], into a zero payload. *)
Definition UnmarshalEventPayload (data : bytes) : result actor_error ActorEventPayload :=
  match Unmarshal KindActorEvent data with
  | Err e => Err (ErrActorPayload e)
  | Ok (Some m) => Ok (eventPayloadFromMap m)
  | Ok None =>
      match unmarshalActorEvent data with
      | Some p => Ok p
      | None => Err ErrActorPayloadJSON
      end
  end.

(** The payload the second pass works with. *)
Definition actor_payload (rec : RawRecord) : result actor_error ActorEventPayload :=
  payload ← (match raw_Payload rec with
             | [] => Ok zero_actor_payload
             | data => UnmarshalEventPayload data
             end);
  Ok (if apTimestampMs payload =? 0 then with_apTimestampMs payload (raw_TimestampMs rec) else payload).

(** [if loader == nil {...}; data, err := loader.LoadResult(ref)] *)
Definition load (loader : option ResultLoader) (ref : string) : result actor_error bytes :=
  match loader with
  | None => Err ErrSnapshotLoaderRequired
  | Some f => match f ref with Some data => Ok data | None => Err (ErrLoadResult ref) end
  end.

(** The callback of the first pass: adopt a snapshot. *)
Definition snapshot_record (loader : option ResultLoader) (actorID : string)
    (acc : ActorState * Z) (rec : RawRecord) : result actor_error (ActorState * Z) :=
  let (state, snapshotCommandCount) := acc in
  if decide (raw_EventType rec = "ActorSnapshotCreated") then
    p ← UnmarshalEventPayload (raw_Payload rec);
    if str_empty (apSnapshotRef p) then Ok acc
    else
      data ← load loader (apSnapshotRef p);
      Ok ({| asActorID := actorID; asClassName := apClassName p; asClassSource := apClassSource p;
             asInitArgsJSON := default [] (apInitArgsJSON p); asStatus := ACTOR_STATUS_ACTIVE;
             asOwnerWorkerID := apWorkerID p; asEpoch := apEpoch p;
             asCommandCount := apSnapshotCommandCount p;
             asSubmittedCommandCount := apSnapshotCommandCount p;
             asSnapshotEvery := apSnapshotEvery p; asSnapshotRef := apSnapshotRef p;
             asSnapshotCommandCount := apSnapshotCommandCount p;
             asStateJSON := NormalizeJSON data; asIdempotencyKey := asIdempotencyKey state;
             asIdempotencyFingerprint := asIdempotencyFingerprint state;
             asCreatedAtMs := asCreatedAtMs state; asUpdatedAtMs := apTimestampMs p |},
          apSnapshotCommandCount p)
  else Ok acc.

(** [ActorCreated] *)
Definition created_event (actorID : string) (state : ActorState) (p : ActorEventPayload) : ActorState :=
  let state :=
    if str_empty (asActorID state) then
      NewState actorID (apClassName p) (apClassSource p) (default [] (apInitArgsJSON p))
        (apSnapshotEvery p) (apTimestampMs p)
    else
      {| asActorID := actorID; asClassName := apClassName p; asClassSource := apClassSource p;
         asInitArgsJSON := default [] (apInitArgsJSON p); asStatus := ACTOR_STATUS_ACTIVE;
         asOwnerWorkerID := asOwnerWorkerID state; asEpoch := asEpoch state;
         asCommandCount := asCommandCount state;
         asSubmittedCommandCount := asSubmittedCommandCount state;
         asSnapshotEvery := apSnapshotEvery p; asSnapshotRef := asSnapshotRef state;
         asSnapshotCommandCount := asSnapshotCommandCount state; asStateJSON := asStateJSON state;
         asIdempotencyKey := asIdempotencyKey state;
         asIdempotencyFingerprint := asIdempotencyFingerprint state;
         asCreatedAtMs := if asCreatedAtMs state =? 0 then apTimestampMs p else asCreatedAtMs state;
         asUpdatedAtMs := asUpdatedAtMs state |} in
  {| asActorID := asActorID state; asClassName := asClassName state;
     asClassSource := asClassSource state; asInitArgsJSON := asInitArgsJSON state;
     asStatus := asStatus state; asOwnerWorkerID := asOwnerWorkerID state;
     asEpoch := asEpoch state; asCommandCount := asCommandCount state;
     asSubmittedCommandCount := asSubmittedCommandCount state;
     asSnapshotEvery := asSnapshotEvery state; asSnapshotRef := asSnapshotRef state;
     asSnapshotCommandCount := asSnapshotCommandCount state; asStateJSON := asStateJSON state;
     asIdempotencyKey := apIdempotencyKey p;
     asIdempotencyFingerprint := apIdempotencyFingerprint p;
     asCreatedAtMs := asCreatedAtMs state; asUpdatedAtMs := asUpdatedAtMs state |}.

(** [ActorOwnershipGranted] *)
Definition ownership_event (state : ActorState) (p : ActorEventPayload) : ActorState :=
  {| asActorID := asActorID state; asClassName := asClassName state;
     asClassSource := asClassSource state; asInitArgsJSON := asInitArgsJSON state;
     asStatus := asStatus state; asOwnerWorkerID := apWorkerID p; asEpoch := apEpoch p;
     asCommandCount := asCommandCount state;
     asSubmittedCommandCount := asSubmittedCommandCount state;
     asSnapshotEvery := asSnapshotEvery state; asSnapshotRef := asSnapshotRef state;
     asSnapshotCommandCount := asSnapshotCommandCount state; asStateJSON := asStateJSON state;
     asIdempotencyKey := asIdempotencyKey state;
     asIdempotencyFingerprint := asIdempotencyFingerprint state;
     asCreatedAtMs := asCreatedAtMs state; asUpdatedAtMs := apTimestampMs p |}.

(** [ActorCommandSubmitted] *)
Definition submitted_event (state : ActorState) (p : ActorEventPayload) : ActorState :=
  {| asActorID := asActorID state; asClassName := asClassName state;
     asClassSource := asClassSource state; asInitArgsJSON := asInitArgsJSON state;
     asStatus := asStatus state; asOwnerWorkerID := asOwnerWorkerID state;
     asEpoch := asEpoch state; asCommandCount := asCommandCount state;
     asSubmittedCommandCount :=
       if asSubmittedCommandCount state <? apCommandSeq p then apCommandSeq p
       else asSubmittedCommandCount state;
     asSnapshotEvery := asSnapshotEvery state; asSnapshotRef := asSnapshotRef state;
     asSnapshotCommandCount := asSnapshotCommandCount state; asStateJSON := asStateJSON state;
     asIdempotencyKey := asIdempotencyKey state;
     asIdempotencyFingerprint := asIdempotencyFingerprint state;
     asCreatedAtMs := asCreatedAtMs state; asUpdatedAtMs := apTimestampMs p |}.

(** [ActorCommandApplied] and [ActorCommandFailed]: the counters, the owner
    and, for an applied command, the actor's state. *)
Definition command_event (state : ActorState) (p : ActorEventPayload) (stateJSON : bytes) : ActorState :=
  let commandCount := if 0 <? apCommandSeq p then apCommandSeq p else apCommandCount p in
  {| asActorID := asActorID state; asClassName := asClassName state;
     asClassSource := asClassSource state; asInitArgsJSON := asInitArgsJSON state;
     asStatus := asStatus state;
     asOwnerWorkerID := if str_empty (apWorkerID p) then asOwnerWorkerID state else apWorkerID p;
     asEpoch := if apEpoch p =? 0 then asEpoch state else apEpoch p;
     asCommandCount := commandCount;
     asSubmittedCommandCount :=
       if asSubmittedCommandCount state <? commandCount then commandCount
       else asSubmittedCommandCount state;
     asSnapshotEvery := asSnapshotEvery state; asSnapshotRef := asSnapshotRef state;
     asSnapshotCommandCount := asSnapshotCommandCount state; asStateJSON := stateJSON;
     asIdempotencyKey := asIdempotencyKey state;
     asIdempotencyFingerprint := asIdempotencyFingerprint state;
     asCreatedAtMs := asCreatedAtMs state; asUpdatedAtMs := apTimestampMs p |}.

(** [ActorSnapshotCreated] *)
Definition snapshot_event (actorID : string) (state : ActorState) (p : ActorEventPayload)
    (stateJSON : bytes) : ActorState :=
  {| asActorID := actorID;
     asClassName := if str_empty (apClassName p) then asClassName state else apClassName p;
     asClassSource := if str_empty (apClassSource p) then asClassSource state else apClassSource p;
     asInitArgsJSON := match default [] (apInitArgsJSON p) with
                       | [] => asInitArgsJSON state | b => b end;
     asStatus := ACTOR_STATUS_ACTIVE;
     asOwnerWorkerID := if str_empty (apWorkerID p) then asOwnerWorkerID state else apWorkerID p;
     asEpoch := if apEpoch p =? 0 then asEpoch state else apEpoch p;
     asCommandCount := asCommandCount state;
     asSubmittedCommandCount := asSubmittedCommandCount state;
     asSnapshotEvery := if 0 <? apSnapshotEvery p then apSnapshotEvery p else asSnapshotEvery state;
     asSnapshotRef := apSnapshotRef p;
     asSnapshotCommandCount := apSnapshotCommandCount p; asStateJSON := stateJSON;
     asIdempotencyKey := asIdempotencyKey state;
     asIdempotencyFingerprint := asIdempotencyFingerprint state;
     asCreatedAtMs := asCreatedAtMs state; asUpdatedAtMs := apTimestampMs p |}.

(** How a replay treats commands and snapshots: [replayEach] without snapshots
    skips nothing and leaves references unread; with snapshots it skips the
    commands of the snapshot; [ReplayFromStateRawEach] skips nothing and reads
    the references. *)
Record mode := { md_skip : option Z; md_load : bool }.
Definition full_mode : mode := {| md_skip := None; md_load := false |}.
Definition snapshot_mode (snapshotCommandCount : Z) : mode :=
  {| md_skip := Some snapshotCommandCount; md_load := true |}.
Definition tail_mode : mode := {| md_skip := None; md_load := true |}.

Definition skipped (md : mode) (p : ActorEventPayload) : bool :=
  match md_skip md with Some k => apCommandCount p <=? k | None => false end.

(** The [switch rec.EventType]; the count of applied commands rides along. *)
Definition actor_event (md : mode) (loader : option ResultLoader) (actorID : string)
    (acc : ActorState * Z) (eventType : string) (p : ActorEventPayload) :
    result actor_error (ActorState * Z) :=
  let (state, commands) := acc in
  if decide (eventType = "ActorCreated") then Ok (created_event actorID state p, commands)
  else if decide (eventType = "ActorOwnershipGranted") then Ok (ownership_event state p, commands)
  else if decide (eventType = "ActorCommandSubmitted") then Ok (submitted_event state p, commands)
  else if decide (eventType = "ActorCommandApplied") then
    if skipped md p then Ok acc
    else Ok (command_event state p (NormalizeJSON (default [] (apStateJSON p))), commands + 1)
  else if decide (eventType = "ActorCommandFailed") then
    if skipped md p then Ok acc
    else Ok (command_event state p (asStateJSON state), commands + 1)
  else if decide (eventType = "ActorSnapshotCreated") then
    if md_load md && negb (str_empty (apSnapshotRef p)) then
      data ← load loader (apSnapshotRef p);
      Ok (snapshot_event actorID state p (NormalizeJSON data), commands)
    else Ok (snapshot_event actorID state p (asStateJSON state), commands)
  else Ok acc.

(** The callback of the second pass. *)
Definition actor_record (md : mode) (loader : option ResultLoader) (actorID : string)
    (acc : ActorState * Z) (rec : RawRecord) : result actor_error (ActorState * Z) :=
  payload ← actor_payload rec;
  actor_event md loader actorID acc (raw_EventType rec) payload.

(** Run an iterator against a callback, stopping at the first error. *)
Fixpoint fold_records {S} (f : S → RawRecord → result actor_error S) (acc : S)
    (records : list RawRecord) : result actor_error S :=
  match records with
  | [] => Ok acc
  | rec :: records => acc ← f acc rec; fold_records f acc records
  end.

Definition iterate {S} (it : RawIterator) (f : S → RawRecord → result actor_error S) (acc : S) :
    result actor_error S :=
  acc ← fold_records f acc (it_records it);
  if it_fails it then Err ErrActorIterator else Ok acc.

(** [ReplayResult] *)
Record ReplayResult := {
  rrState : ActorState;
  rrFullReplayCommands : Z;
  rrSnapshotReplayCommands : Z
}.

(** [replayEach] *)
Definition replayEach (actorID : string) (it : option RawIterator) (loader : option ResultLoader)
    (useSnapshot : bool) : result actor_error ReplayResult :=
  match it with
  | None => Err ErrActorIteratorRequired
  | Some it =>
      '(state, snapshotCommandCount) ←
        (if useSnapshot then iterate it (snapshot_record loader actorID) (zero_actor, 0)
         else Ok (zero_actor, 0));
      let md := if useSnapshot then snapshot_mode snapshotCommandCount else full_mode in
      '(state, commands) ← iterate it (actor_record md loader actorID) (state, 0);
      if str_empty (asActorID state) then Err ErrActorCreateNotFound
      else if useSnapshot then
        Ok {| rrState := state; rrFullReplayCommands := 0; rrSnapshotReplayCommands := commands |}
      else Ok {| rrState := state; rrFullReplayCommands := commands; rrSnapshotReplayCommands := 0 |}
  end.

(** [ReplayRawEach] *)
Definition ReplayRawEach (actorID : string) (it : option RawIterator) (loader : option ResultLoader) :
    result actor_error ReplayResult :=
  fullReplayCommands ←
    (match replayEach actorID it loader false with
     | Ok full => Ok (rrFullReplayCommands full)
     | Err ErrActorCreateNotFound => Ok 0
     | Err e => Err e
     end);
  withSnapshot ← replayEach actorID it loader true;
  let st := rrState withSnapshot in
  let fullReplayCommands :=
    if (0 <? asSnapshotCommandCount st) &&
       (fullReplayCommands <=? rrSnapshotReplayCommands withSnapshot)
    then asCommandCount st else fullReplayCommands in
  Ok {| rrState := st; rrFullReplayCommands := fullReplayCommands;
        rrSnapshotReplayCommands := rrSnapshotReplayCommands withSnapshot |}.

(** [ReplayFromStateRawEach]; [cloneStateForReplay] copies the byte slices. *)
Definition ReplayFromStateRawEach (actorID : string) (initial : ActorState)
    (it : option RawIterator) (loader : option ResultLoader) : result actor_error ReplayResult :=
  let state :=
    if str_empty (asActorID initial) then
      {| asActorID := actorID; asClassName := asClassName initial;
         asClassSource := asClassSource initial; asInitArgsJSON := asInitArgsJSON initial;
         asStatus := asStatus initial; asOwnerWorkerID := asOwnerWorkerID initial;
         asEpoch := asEpoch initial; asCommandCount := asCommandCount initial;
         asSubmittedCommandCount := asSubmittedCommandCount initial;
         asSnapshotEvery := asSnapshotEvery initial; asSnapshotRef := asSnapshotRef initial;
         asSnapshotCommandCount := asSnapshotCommandCount initial;
         asStateJSON := asStateJSON initial; asIdempotencyKey := asIdempotencyKey initial;
         asIdempotencyFingerprint := asIdempotencyFingerprint initial;
         asCreatedAtMs := asCreatedAtMs initial; asUpdatedAtMs := asUpdatedAtMs initial |}
    else initial in
  '(state, commands) ←
    (match it with
     | Some it => iterate it (actor_record tail_mode loader actorID) (state, 0)
     | None => Ok (state, 0)
     end);
  if str_empty (asActorID state) then Err ErrActorCreateNotFound
  else Ok {| rrState := state; rrFullReplayCommands := 0; rrSnapshotReplayCommands := commands |}.

(** [ReplayEach], [Replay] and [ReplayFromStateEach] convert each record. *)
Definition raw_iterator (records : list (option ProtoLogRecord)) (fails : bool) : RawIterator :=
  {| it_records := map FromProto records; it_fails := fails |}.
Definition ReplayEach (actorID : string) (it : option (list (option ProtoLogRecord) * bool))
    (loader : option ResultLoader) : result actor_error ReplayResult :=
  match it with
  | None => Err ErrActorIteratorRequired
  | Some (records, fails) => ReplayRawEach actorID (Some (raw_iterator records fails)) loader
  end.
Definition Replay (actorID : string) (records : list (option ProtoLogRecord))
    (loader : option ResultLoader) : result actor_error ReplayResult :=
  ReplayEach actorID (Some (records, false)) loader.
Definition ReplayFromStateEach (actorID : string) (initial : ActorState)
    (it : option (list (option ProtoLogRecord) * bool)) (loader : option ResultLoader) :
    result actor_error ReplayResult :=
  match it with
  | None => ReplayFromStateRawEach actorID initial None loader
  | Some (records, fails) =>
      ReplayFromStateRawEach actorID initial (Some (raw_iterator records fails)) loader
  end.

(** [Consistent] *)
Definition Consistent (a b : ActorState) : bool :=
  bool_decide (asActorID a = asActorID b) && bool_decide (asClassName a = asClassName b) &&
  bool_decide (asStatus a = asStatus b) &&
  bool_decide (asOwnerWorkerID a = asOwnerWorkerID b) && bool_decide (asEpoch a = asEpoch b) &&
  bool_decide (asCommandCount a = asCommandCount b) &&
  bool_decide (asSubmittedCommandCount a = asSubmittedCommandCount b) &&
  bool_decide (asSnapshotRef a = asSnapshotRef b) &&
  bool_decide (asSnapshotCommandCount a = asSnapshotCommandCount b) &&
  bool_decide (NormalizeJSON (asStateJSON a) = NormalizeJSON (asStateJSON b)).
End Replay.

(** ** Payload round trip *)

Record actor_payload_ok (p : ActorEventPayload) : Prop := {
  apo_raw : apInitArgsJSON p ≠ Some [] ∧ apArgsJSON p ≠ Some [] ∧
            apResultJSON p ≠ Some [] ∧ apStateJSON p ≠ Some [];
  apo_u64 : in_u64 (apEpoch p) ∧ in_u64 (apCommandSeq p) ∧ in_u64 (apCommandCount p) ∧
            in_u64 (apSnapshotCommandCount p);
  apo_every : in_u32 (apSnapshotEvery p);
  apo_timestamp : in_i64 (apTimestampMs p)
}.

Lemma payload_keys p : NoDup ((payload_entries p).*1).
Proof.
  change ((payload_entries p).*1) with ((payload_entries zero_actor_payload).*1).
  apply (bool_decide_unpack _). vm_compute. exact I.
Qed.

Lemma payload_lookup p k o : (k, o) ∈ payload_entries p → eventPayloadMap p !! k = o.
Proof. apply sparse_lookup; [apply payload_keys|apply lookup_empty]. Qed.

Ltac actor_field :=
  apply payload_lookup; unfold payload_entries;
  repeat (first [apply list_elem_of_here|apply list_elem_of_further]).

Lemma actor_map_roundtrip p m :
  actor_payload_ok p → fields_sim (eventPayloadMap p) m → eventPayloadFromMap m = p.
Proof.
  intros [(? & ? & ? & ?) (? & ? & ? & ?) ? ?] Hs. unfold eventPayloadFromMap.
  destruct p; simpl in *. f_equal;
    match goal with
    | |- StringValue _ = _ => apply (StringValue_field _ _ _ _ Hs); actor_field
    | |- BytesValue _ = _ => apply (BytesValue_field _ _ _ _ Hs); [actor_field|assumption]
    | |- Uint64Value _ = _ => apply (Uint64Value_field _ _ _ _ Hs); [actor_field|assumption]
    | |- Uint32Value _ = _ => apply (Uint32Value_field _ _ _ _ Hs); [actor_field|assumption]
    | |- Int64Value _ = _ => apply (Int64Value_field _ _ _ _ Hs); [actor_field|assumption]
    end.
Qed.

(** an actor event payload survives its encoding, and is refused by the
    workflow replay path. *)
Theorem actor_event_roundtrip `{MsgpackLib} `{ActorJSON} p data :
  actor_payload_ok p → MarshalEventPayload p = Ok data →
  UnmarshalEventPayload data = Ok p ∧
  Unmarshal KindWorkflowEvent data = Err (ErrKindMismatch KindActorEvent KindWorkflowEvent).
Proof.
  intros Hp (Hk & body & Hb & ->)%Marshal_ok. unfold UnmarshalEventPayload, Unmarshal.
  rewrite !Body_enveloped by (unfold KindActorEvent; lia).
  rewrite Z.eqb_refl. simpl. destruct (msgpack_roundtrip _ _ Hb) as (m' & -> & Hsim).
  split; [|done]. f_equal. by apply actor_map_roundtrip.
Qed.

(** ** The logs of commands completed one at a time *)
Section Logs.
Context `{MsgpackLib} `{ActorJSON} (loader : option ResultLoader) (actorID : string).

Definition actor_events : list string :=
  ["ActorCreated"; "ActorOwnershipGranted"; "ActorCommandSubmitted"; "ActorCommandApplied";
   "ActorCommandFailed"; "ActorSnapshotCreated"].

(** [writes s et p s']: in state [s] the control plane appends an event [et]
    with payload [p], which makes the state [s'].  Commands apply one after the
    other; a snapshot event describes the current state, and its reference
    loads to the current actor state.  This holds of completions that do not overlap;
    [completeActorCall] takes no lock that would keep a second one away
    ([overtaken_snapshot_forgets_command]). *)
Inductive writes (s : ActorState) : string → ActorEventPayload → ActorState → Prop :=
| w_created p :
    asActorID s = EmptyString → 0 < apSnapshotEvery p →
    writes s "ActorCreated" p (created_event actorID s p)
| w_ownership p :
    asActorID s = actorID → writes s "ActorOwnershipGranted" p (ownership_event s p)
| w_submitted p :
    asActorID s = actorID → writes s "ActorCommandSubmitted" p (submitted_event s p)
| w_applied p :
    asActorID s = actorID → apCommandSeq p = asCommandCount s + 1 →
    apCommandCount p = apCommandSeq p →
    writes s "ActorCommandApplied" p
      (command_event s p (NormalizeJSON (default [] (apStateJSON p))))
| w_failed p :
    asActorID s = actorID → apCommandSeq p = asCommandCount s + 1 →
    apCommandCount p = apCommandSeq p →
    writes s "ActorCommandFailed" p (command_event s p (asStateJSON s))
| w_snapshot p data :
    asActorID s = actorID → asOwnerWorkerID s ≠ EmptyString → asEpoch s ≠ 0 →
    apClassName p = asClassName s → apClassSource p = asClassSource s →
    default [] (apInitArgsJSON p) = asInitArgsJSON s → apWorkerID p = asOwnerWorkerID s →
    apEpoch p = asEpoch s → apSnapshotEvery p = asSnapshotEvery s →
    apSnapshotCommandCount p = asCommandCount s → apSnapshotRef p ≠ EmptyString →
    load loader (apSnapshotRef p) = Ok data → NormalizeJSON data = asStateJSON s →
    writes s "ActorSnapshotCreated" p (snapshot_event actorID s p (asStateJSON s))
| w_other et p : et ∉ actor_events → writes s et p s.

(** The records written from state [s0] on, and the state they made. *)
Inductive wrote_from (s0 : ActorState) : list RawRecord → ActorState → Prop :=
| wrote_nil : wrote_from s0 [] s0
| wrote_snoc recs s rec p s' :
    wrote_from s0 recs s → actor_payload rec = Ok p →
    (raw_EventType rec = "ActorSnapshotCreated" → raw_Payload rec ≠ []) →
    writes s (raw_EventType rec) p s' →
    wrote_from s0 (recs ++ [rec]) s'.

(** The log of an actor from its creation on, nothing of it trimmed. *)
Definition wrote : list RawRecord → ActorState → Prop := wrote_from zero_actor.

Lemma wrote_from_app s0 l1 l2 s :
  wrote_from s0 (l1 ++ l2) s → ∃ s1, wrote_from s0 l1 s1 ∧ wrote_from s1 l2 s.
Proof.
  revert s. induction l2 as [|rec l2 IH] using rev_ind; intros s Hw.
  { rewrite app_nil_r in Hw. exists s. split; [done|constructor]. }
  rewrite app_assoc in Hw. inversion Hw as [Hnil|recs s' rec' p s'' Hw' Hp Hne Hs Hl].
  - by apply app_cons_not_nil in Hnil.
  - apply app_inj_tail in Hl as [-> ->]. destruct (IH _ Hw') as (s1 & ? & ?).
    exists s1. split; [done|by econstructor].
Qed.

Lemma fold_app {S} (f : S → RawRecord → result actor_error S) acc l1 l2 :
  fold_records f acc (l1 ++ l2) = fold_records f acc l1 ≫= λ acc, fold_records f acc l2.
Proof. revert acc. induction l1; intros; simpl; [done|]. destruct (f acc a); simpl; auto. Qed.

Lemma fold_cons {S} (f : S → RawRecord → result actor_error S) acc rec l :
  fold_records f acc (rec :: l) = f acc rec ≫= λ acc, fold_records f acc l.
Proof. done. Qed.

Lemma fold_snoc {S} (f : S → RawRecord → result actor_error S) acc l rec acc' :
  fold_records f acc l = Ok acc' → fold_records f acc (l ++ [rec]) = f acc' rec.
Proof. intros Hl. rewrite fold_app, Hl. simpl. by destruct (f acc' rec). Qed.

Lemma actor_record_event md acc rec p :
  actor_payload rec = Ok p →
  actor_record md loader actorID acc rec = actor_event md loader actorID acc (raw_EventType rec) p.
Proof. intros Hp. unfold actor_record. by rewrite Hp. Qed.

Lemma other_event_skips md acc et p :
  et ∉ actor_events → actor_event md loader actorID acc et p = Ok acc.
Proof.
  unfold actor_events, actor_event. intros Hne. destruct acc as [s n].
  do 6 (rewrite not_elem_of_cons in Hne; destruct Hne as [? Hne]; rewrite decide_False by done).
  done.
Qed.

(** Invariants of the written state. *)
Record written_ok (s : ActorState) : Prop := {
  wo_id : asActorID s = EmptyString ∧ s = zero_actor ∨ asActorID s = actorID;
  wo_count : 0 <= asCommandCount s;
  wo_submitted : asCommandCount s <= asSubmittedCommandCount s;
  wo_every : asActorID s ≠ EmptyString → 0 < asSnapshotEvery s
}.

Lemma command_event_count s p st :
  0 <= asCommandCount s → apCommandSeq p = asCommandCount s + 1 →
  asCommandCount (command_event s p st) = asCommandCount s + 1.
Proof. intros Hc Hp. simpl. rewrite Hp. rewrite (proj2 (Z.ltb_lt _ _)) by lia. done. Qed.

Lemma written_ok_step s et p s' : actorID ≠ EmptyString → written_ok s → writes s et p s' → written_ok s'.
Proof.
  intros Hid [Hi Hc Hs He] Hw. destruct Hw as [p Hz Hev|p Ha|p Ha|p Ha Hq Hcc|p Ha Hq Hcc|p data Ha ? ? ? ? ? ? ? Hev|]; try done.
  - unfold created_event. rewrite Hz. split; simpl; try done; [by right|].
    intros _. rewrite (proj2 (Z.eqb_neq _ _)) by lia. done.
  - split; simpl; auto.
  - split; simpl; auto. destruct (Z.ltb_spec (asSubmittedCommandCount s) (apCommandSeq p)); lia.
  - pose proof (command_event_count s p (NormalizeJSON (default [] (apStateJSON p))) Hc Hq) as Hn.
    split; [by right|lia| |exact He]. rewrite Hn. simpl. rewrite Hq.
    rewrite (proj2 (Z.ltb_lt 0 _)) by lia. destruct (Z.ltb_spec (asSubmittedCommandCount s) (asCommandCount s + 1)); lia.
  - pose proof (command_event_count s p (asStateJSON s) Hc Hq) as Hn.
    split; [by right|lia| |exact He]. rewrite Hn. simpl. rewrite Hq.
    rewrite (proj2 (Z.ltb_lt 0 _)) by lia. destruct (Z.ltb_spec (asSubmittedCommandCount s) (asCommandCount s + 1)); lia.
  - split; simpl; auto. intros _. rewrite Hev. rewrite Ha in He. specialize (He Hid).
    by rewrite (proj2 (Z.ltb_lt _ _)).
Qed.

Lemma wrote_from_ok s0 recs s :
  actorID ≠ EmptyString → written_ok s0 → wrote_from s0 recs s → written_ok s.
Proof. intros Hid H0'. induction 1; [done|by eapply written_ok_step]. Qed.

Lemma wrote_ok recs s : actorID ≠ EmptyString → wrote recs s → written_ok s.
Proof.
  intros Hid. apply wrote_from_ok; [done|]. split; simpl; try done; by left.
Qed.

Lemma unborn_zero s : actorID ≠ EmptyString → written_ok s → asActorID s = EmptyString → s = zero_actor.
Proof. intros Hid [[[_ Hz]|Hi] _ _ _] He; [done|congruence]. Qed.

Lemma writes_count s et p s' :
  actorID ≠ EmptyString → written_ok s → writes s et p s' → asCommandCount s <= asCommandCount s'.
Proof.
  intros Hid Hok Hw. pose proof (wo_count _ Hok) as Hc.
  destruct Hw as [p Hz Hev|p Ha|p Ha|p Ha Hq Hcc|p Ha Hq Hcc|p data|]; try (simpl; lia).
  - rewrite (unborn_zero s Hid Hok Hz). done.
  - rewrite (command_event_count s p _ Hc Hq). lia.
  - rewrite (command_event_count s p _ Hc Hq). lia.
Qed.

Lemma wrote_from_count s0 recs s :
  actorID ≠ EmptyString → written_ok s0 → wrote_from s0 recs s →
  asCommandCount s0 <= asCommandCount s.
Proof.
  intros Hid H0' Hw. induction Hw as [|recs s rec p s' Hw IH Hp _ Hs]; [lia|].
  pose proof (writes_count s _ p s' Hid (wrote_from_ok _ _ _ Hid H0' Hw) Hs). lia.
Qed.

(** What one record does to the full replay. *)
Lemma writes_full s et p s' :
  actorID ≠ EmptyString → written_ok s → writes s et p s' →
  actor_event full_mode loader actorID (s, asCommandCount s) et p = Ok (s', asCommandCount s').
Proof.
  intros Hid Hok Hw. pose proof (wo_count _ Hok) as Hc.
  destruct Hw as [p Hz Hev|p Ha|p Ha|p Ha Hq Hcc|p Ha Hq Hcc|p data|].
  - by rewrite (unborn_zero s Hid Hok Hz).
  - done.
  - done.
  - by rewrite (command_event_count s p _ Hc Hq).
  - by rewrite (command_event_count s p _ Hc Hq).
  - done.
  - by apply other_event_skips.
Qed.

Lemma wrote_full recs s :
  actorID ≠ EmptyString → wrote recs s →
  fold_records (actor_record full_mode loader actorID) (zero_actor, 0) recs = Ok (s, asCommandCount s).
Proof.
  intros Hid Hw. unfold wrote in Hw.
  induction Hw as [|recs s rec p s' Hw IH Hp _ Hs]; [done|].
  rewrite (fold_snoc _ _ _ _ _ IH), (actor_record_event _ _ _ p Hp).
  by rewrite (writes_full s _ p s' Hid (wrote_ok _ _ Hid Hw) Hs).
Qed.

(** ** Replay with snapshots *)

(** The full state [F] and the state [P] of the snapshot mode, before the
    second pass reaches the snapshot taken after [K] commands. *)
Record before_snapshot (K : Z) (F P : ActorState) : Prop := {
  bs_id : asActorID P = actorID;
  bs_count : asCommandCount P = K;
  bs_submitted : asSubmittedCommandCount P = Z.max (asSubmittedCommandCount F) K;
  bs_unborn : asActorID F = EmptyString →
    asIdempotencyKey P = EmptyString ∧ asIdempotencyFingerprint P = EmptyString ∧
    asCreatedAtMs P = 0;
  bs_born : asActorID F ≠ EmptyString →
    asClassName P = asClassName F ∧ asClassSource P = asClassSource F ∧
    asInitArgsJSON P = asInitArgsJSON F ∧ asStatus P = asStatus F ∧
    asSnapshotEvery P = asSnapshotEvery F ∧ asIdempotencyKey P = asIdempotencyKey F ∧
    asIdempotencyFingerprint P = asIdempotencyFingerprint F ∧ asCreatedAtMs P = asCreatedAtMs F
}.

Lemma before_snapshot_step K F P et p F' n :
  actorID ≠ EmptyString → written_ok F → before_snapshot K F P → writes F et p F' →
  asCommandCount F' <= K →
  ∃ P', actor_event (snapshot_mode K) loader actorID (P, n) et p = Ok (P', n) ∧
        before_snapshot K F' P'.
Proof.
  intros Hid Hok [Hi Hc Hs Hu Hb] Hw HK. pose proof (wo_count _ Hok) as Hc0.
  destruct Hw as [p Hz Hev|p Ha|p Ha|p Ha Hq Hcc|p Ha Hq Hcc
    |p data Ha Ho He Hcn Hcs Hia Hwk Hep Hse Hsc Hr Hl Hn|].
  - exists (created_event actorID P p). split; [done|]. destruct (Hu Hz) as (? & ? & Hcr).
    pose proof (unborn_zero F Hid Hok Hz) as ->.
    unfold created_event. rewrite Hi. apply str_empty_false in Hid as Hid'. rewrite Hid'.
    split; simpl; try done. intros _. rewrite (proj2 (Z.eqb_neq _ _)) by lia.
    rewrite Hcr. simpl. split_and!; done.
  - exists (ownership_event P p). split; [done|]. split; simpl; auto.
  - exists (submitted_event P p). split; [done|]. split; simpl; auto. rewrite Hs.
    destruct (Z.ltb_spec (asSubmittedCommandCount F) (apCommandSeq p));
      destruct (Z.ltb_spec (Z.max (asSubmittedCommandCount F) K) (apCommandSeq p)); lia.
  - rewrite (command_event_count F p _ Hc0 Hq) in HK. exists P. split.
    + unfold actor_event. simpl. unfold skipped. simpl. rewrite Hcc, Hq.
      by rewrite (proj2 (Z.leb_le _ _)) by lia.
    + split; simpl; auto. rewrite Hs, Hq. rewrite (proj2 (Z.ltb_lt 0 _)) by lia.
      destruct (Z.ltb_spec (asSubmittedCommandCount F) (asCommandCount F + 1)); lia.
  - rewrite (command_event_count F p _ Hc0 Hq) in HK. exists P. split.
    + unfold actor_event. simpl. unfold skipped. simpl. rewrite Hcc, Hq.
      by rewrite (proj2 (Z.leb_le _ _)) by lia.
    + split; simpl; auto. rewrite Hs, Hq. rewrite (proj2 (Z.ltb_lt 0 _)) by lia.
      destruct (Z.ltb_spec (asSubmittedCommandCount F) (asCommandCount F + 1)); lia.
  - exists (snapshot_event actorID P p (NormalizeJSON data)). split.
    + unfold actor_event. simpl. apply str_empty_false in Hr. rewrite Hr. simpl. by rewrite Hl.
    + rewrite Ha in Hb. destruct (Hb Hid) as (Hb1 & Hb2 & Hb3 & _ & Hb5 & Hb6 & Hb7 & Hb8).
      split; simpl; auto; [congruence|]. intros _.
      rewrite Hb1, Hb2, Hb3, Hb5. done.
  - exists P. split; [by apply other_event_skips|done].
Qed.

(** Reaching the snapshot brings the two states together. *)
Lemma snapshot_meets F P p data n :
  actorID ≠ EmptyString → written_ok F → before_snapshot (asCommandCount F) F P →
  writes F "ActorSnapshotCreated" p (snapshot_event actorID F p (asStateJSON F)) →
  load loader (apSnapshotRef p) = Ok data →
  actor_event (snapshot_mode (asCommandCount F)) loader actorID (P, n) "ActorSnapshotCreated" p
  = Ok (snapshot_event actorID F p (asStateJSON F), n).
Proof.
  intros Hid Hok [Hi Hc Hs Hu Hb] Hw Hload. pose proof (wo_submitted _ Hok).
  inversion Hw as [| | | | |p' data' Ha Ho He Hcn Hcs Hia Hwk Hep Hse Hsc Hr Hl Hn|et' p' Hne];
    simplify_eq.
  2:{ exfalso. apply Hne. unfold actor_events. set_solver. }
  rewrite Ha in Hb. destruct (Hb Hid) as (Hb1 & Hb2 & Hb3 & _ & Hb5 & Hb6 & Hb7 & Hb8).
  unfold actor_event. simpl. apply str_empty_false in Hr. rewrite Hr. simpl. rewrite Hl. simpl.
  rewrite Hload in Hl. simplify_eq. do 2 f_equal. unfold snapshot_event.
  apply str_empty_false in Ho. rewrite Hwk, Ho, Hep, (proj2 (Z.eqb_neq _ _)) by done.
  rewrite Hb1, Hb2, Hb3, Hb5, Hb6, Hb7, Hb8, Hc, Hs, Hn. rewrite Z.max_l by lia. done.
Qed.

(** *** The first pass *)

Lemma payload_unmarshal rec p :
  actor_payload rec = Ok p → raw_Payload rec ≠ [] →
  ∃ p0, UnmarshalEventPayload (raw_Payload rec) = Ok p0 ∧
    (p = p0 ∨ p = with_apTimestampMs p0 (raw_TimestampMs rec)).
Proof.
  intros Hp Hne. unfold actor_payload in Hp. destruct (raw_Payload rec) as [|x b]; [done|].
  apply result_bind_ok in Hp as (p0 & Hp0 & Hp). exists p0. split; [done|].
  destruct (apTimestampMs p0 =? 0); injection Hp as <-; auto.
Qed.

(** The state adopted from a snapshot. *)
Definition adopted (p : ActorEventPayload) (data : bytes) (ts : Z) : ActorState :=
  {| asActorID := actorID; asClassName := apClassName p; asClassSource := apClassSource p;
     asInitArgsJSON := default [] (apInitArgsJSON p); asStatus := ACTOR_STATUS_ACTIVE;
     asOwnerWorkerID := apWorkerID p; asEpoch := apEpoch p;
     asCommandCount := apSnapshotCommandCount p; asSubmittedCommandCount := apSnapshotCommandCount p;
     asSnapshotEvery := apSnapshotEvery p; asSnapshotRef := apSnapshotRef p;
     asSnapshotCommandCount := apSnapshotCommandCount p; asStateJSON := NormalizeJSON data;
     asIdempotencyKey := ""; asIdempotencyFingerprint := ""; asCreatedAtMs := 0;
     asUpdatedAtMs := ts |}.

Definition unborn_fields (s : ActorState) : Prop :=
  asIdempotencyKey s = EmptyString ∧ asIdempotencyFingerprint s = EmptyString ∧ asCreatedAtMs s = 0.

Lemma snapshot_record_adopts s k rec p data :
  unborn_fields s → raw_EventType rec = "ActorSnapshotCreated" → actor_payload rec = Ok p →
  raw_Payload rec ≠ [] → apSnapshotRef p ≠ EmptyString → load loader (apSnapshotRef p) = Ok data →
  ∃ ts, snapshot_record loader actorID (s, k) rec = Ok (adopted p data ts, apSnapshotCommandCount p).
Proof.
  intros (Hi & Hf & Hc) Ht Hp Hne Hr Hl. unfold snapshot_record. rewrite Ht. simpl.
  destruct (payload_unmarshal rec p Hp Hne) as (p0 & -> & Hpp). exists (apTimestampMs p0).
  simpl. assert (p = p0 ∨ p = with_apTimestampMs p0 (raw_TimestampMs rec)) as Hpp' by done.
  assert (apSnapshotRef p0 = apSnapshotRef p) as Href by (destruct Hpp as [-> | ->]; done).
  rewrite Href. apply str_empty_false in Hr. rewrite Hr, Hl, Hi, Hf, Hc. simpl.
  by destruct Hpp' as [-> | ->].
Qed.

Lemma snapshot_record_skips acc rec :
  raw_EventType rec ≠ "ActorSnapshotCreated" → snapshot_record loader actorID acc rec = Ok acc.
Proof. intros Ht. unfold snapshot_record. destruct acc. by rewrite decide_False. Qed.

Definition no_snapshot (recs : list RawRecord) : Prop :=
  Forall (λ r, raw_EventType r ≠ "ActorSnapshotCreated") recs.

Lemma first_pass_skips acc recs :
  no_snapshot recs → fold_records (snapshot_record loader actorID) acc recs = Ok acc.
Proof.
  induction 1 as [|rec recs Hr _ IH]; [done|]. simpl. by rewrite snapshot_record_skips.
Qed.

(** The snapshot events of a written log load. *)
Lemma writes_snapshot s p s' :
  writes s "ActorSnapshotCreated" p s' →
  ∃ data, load loader (apSnapshotRef p) = Ok data ∧ apSnapshotRef p ≠ EmptyString ∧
    apSnapshotCommandCount p = asCommandCount s ∧ asActorID s = actorID ∧
    s' = snapshot_event actorID s p (asStateJSON s).
Proof.
  intros Hw. inversion Hw as [| | | | |p' data Ha|et' p' Hne]; simplify_eq.
  - exists data. by split_and!.
  - exfalso. apply Hne. unfold actor_events. set_solver.
Qed.

Lemma first_pass recs s :
  wrote recs s →
  ∃ t k, fold_records (snapshot_record loader actorID) (zero_actor, 0) recs = Ok (t, k) ∧
         unborn_fields t.
Proof.
  intros Hw. unfold wrote in Hw. induction Hw as [|recs s rec p s' Hw IH Hp Hne Hs].
  { by exists zero_actor, 0. }
  destruct IH as (t & k & Hf & Hu).
  destruct (decide (raw_EventType rec = "ActorSnapshotCreated")) as [Ht|Ht].
  - rewrite Ht in Hs. destruct (writes_snapshot _ _ _ Hs) as (data & Hl & Hr & _).
    destruct (snapshot_record_adopts t k rec p data Hu Ht Hp (Hne Ht) Hr Hl) as (ts & Hrec).
    eexists _, _. rewrite (fold_snoc _ _ _ _ _ Hf), Hrec. done.
  - exists t, k. by rewrite (fold_snoc _ _ _ _ _ Hf), snapshot_record_skips.
Qed.

(** *** The second pass *)

Lemma adopted_before p data ts :
  before_snapshot (apSnapshotCommandCount p) zero_actor (adopted p data ts) ∨
  apSnapshotCommandCount p < 0.
Proof.
  destruct (Z.lt_ge_cases (apSnapshotCommandCount p) 0); [by right|left].
  split; simpl; try done. by rewrite Z.max_r.
Qed.

Lemma pre_pass K P0 recs F n :
  actorID ≠ EmptyString → before_snapshot K zero_actor P0 → wrote recs F → asCommandCount F <= K →
  ∃ P, fold_records (actor_record (snapshot_mode K) loader actorID) (P0, n) recs = Ok (P, n) ∧
       before_snapshot K F P.
Proof.
  intros Hid HP0 Hw. unfold wrote in Hw.
  induction Hw as [|recs s rec p s' Hw IH Hp _ Hs]; intros HK; [by exists P0|].
  pose proof (wrote_ok _ _ Hid Hw) as Hok.
  pose proof (writes_count s _ p s' Hid Hok Hs) as Hle.
  destruct (IH ltac:(lia)) as (P & Hf & HP).
  destruct (before_snapshot_step K s P _ p s' n Hid Hok HP Hs HK) as (P' & HP' & ?).
  exists P'. by rewrite (fold_snoc _ _ _ _ _ Hf), (actor_record_event _ _ _ p Hp).
Qed.

(** After the last snapshot every mode does the same. *)
Lemma writes_any_mode md s et p s' n :
  actorID ≠ EmptyString → written_ok s → writes s et p s' → et ≠ "ActorSnapshotCreated" →
  (∀ k, md_skip md = Some k → k <= asCommandCount s) →
  actor_event md loader actorID (s, n) et p = Ok (s', n + (asCommandCount s' - asCommandCount s)).
Proof.
  intros Hid Hok Hw Hne Hk. pose proof (wo_count _ Hok) as Hc.
  assert (Hskip : apCommandSeq p = asCommandCount s + 1 → apCommandCount p = apCommandSeq p →
    skipped md p = false).
  { intros Hq Hcc. unfold skipped. destruct (md_skip md) as [k|]; [|done].
    specialize (Hk k eq_refl). apply Z.leb_gt. lia. }
  destruct Hw as [p Hz Hev|p Ha|p Ha|p Ha Hq Hcc|p Ha Hq Hcc|p data|]; try done.
  - rewrite (unborn_zero s Hid Hok Hz). simpl. by rewrite Z.add_0_r.
  - simpl. by rewrite Z.sub_diag, Z.add_0_r.
  - simpl. by rewrite Z.sub_diag, Z.add_0_r.
  - rewrite (command_event_count s p _ Hc Hq). unfold actor_event. simpl. rewrite (Hskip Hq Hcc).
    do 2 f_equal. lia.
  - rewrite (command_event_count s p _ Hc Hq). unfold actor_event. simpl. rewrite (Hskip Hq Hcc).
    do 2 f_equal. lia.
  - rewrite other_event_skips by done. do 2 f_equal. lia.
Qed.

Lemma no_snapshot_app l rec :
  no_snapshot (l ++ [rec]) ↔ no_snapshot l ∧ raw_EventType rec ≠ "ActorSnapshotCreated".
Proof. unfold no_snapshot. by rewrite Forall_app, Forall_singleton. Qed.

Lemma post_pass md s0 recs s n :
  actorID ≠ EmptyString → written_ok s0 → wrote_from s0 recs s → no_snapshot recs →
  (∀ k, md_skip md = Some k → k <= asCommandCount s0) →
  fold_records (actor_record md loader actorID) (s0, n) recs
  = Ok (s, n + (asCommandCount s - asCommandCount s0)).
Proof.
  intros Hid Hok0 Hw Hns Hk. induction Hw as [|recs s rec p s' Hw IH Hp _ Hs].
  { simpl. by rewrite Z.sub_diag, Z.add_0_r. }
  apply no_snapshot_app in Hns as [Hns Hne].
  rewrite (fold_snoc _ _ _ _ _ (IH Hns)), (actor_record_event _ _ _ p Hp).
  pose proof (wrote_from_ok _ _ _ Hid Hok0 Hw) as Hok.
  pose proof (wrote_from_count _ _ _ Hid Hok0 Hw).
  rewrite (writes_any_mode md s _ p s') by (done || (intros k Hk'; specialize (Hk k Hk'); lia)).
  do 2 f_equal. lia.
Qed.

(** A log either has no snapshot or splits at its last one. *)
Lemma last_snapshot recs :
  no_snapshot recs ∨ ∃ pre snap post, recs = pre ++ snap :: post ∧
    raw_EventType snap = "ActorSnapshotCreated" ∧ no_snapshot post.
Proof.
  induction recs as [|rec recs IH] using rev_ind; [left; constructor|].
  destruct (decide (raw_EventType rec = "ActorSnapshotCreated")) as [Ht|Ht].
  { right. exists recs, rec, []. split_and!; [done..|constructor]. }
  destruct IH as [Hn|(pre & snap & post & -> & Hs & Hn)].
  - left. by apply no_snapshot_app.
  - right. exists pre, snap, (post ++ [rec]). rewrite <- app_assoc. split_and!; [done..|].
    by apply no_snapshot_app.
Qed.

Lemma wrote_one s0 rec s :
  wrote_from s0 [rec] s →
  ∃ p, actor_payload rec = Ok p ∧
    (raw_EventType rec = "ActorSnapshotCreated" → raw_Payload rec ≠ []) ∧
    writes s0 (raw_EventType rec) p s.
Proof.
  intros Hw. remember [rec] as l eqn:Hl. destruct Hw as [|recs s' rec' p s'' Hw Hp Hne Hs]; [done|].
  apply (app_inj_tail recs [] rec' rec) in Hl as [-> ->]. exists p.
  remember [] as l eqn:Hl. destruct Hw as [|r1 s1 rec1 p1 s2 _ _ _ _]; [done|by destruct r1].
Qed.

(** The state in which the last snapshot was written. *)
Lemma wrote_split pre snap post s :
  wrote (pre ++ snap :: post) s → raw_EventType snap = "ActorSnapshotCreated" →
  ∃ F p data, wrote pre F ∧ actor_payload snap = Ok p ∧ raw_Payload snap ≠ [] ∧
    writes F "ActorSnapshotCreated" p (snapshot_event actorID F p (asStateJSON F)) ∧
    load loader (apSnapshotRef p) = Ok data ∧ apSnapshotRef p ≠ EmptyString ∧
    apSnapshotCommandCount p = asCommandCount F ∧
    wrote_from (snapshot_event actorID F p (asStateJSON F)) post s.
Proof.
  intros Hw Ht. change (snap :: post) with ([snap] ++ post) in Hw. rewrite app_assoc in Hw.
  apply wrote_from_app in Hw as (F' & Hw & Hpost). apply wrote_from_app in Hw as (F & Hpre & Hw).
  apply wrote_one in Hw as (p & Hp & Hne & Hs).
  rewrite Ht in Hs. destruct (writes_snapshot _ _ _ Hs) as (data & ? & ? & ? & _ & ->).
  exists F, p, data. rewrite Ht in Hne. split_and!; auto.
Qed.

Lemma post_snapshot_count s0 recs s :
  actorID ≠ EmptyString → written_ok s0 → wrote_from s0 recs s → no_snapshot recs →
  asSnapshotCommandCount s = asSnapshotCommandCount s0.
Proof.
  intros Hid Hok0 Hw Hns. induction Hw as [|recs s rec p s' Hw IH Hp _ Hs]; [done|].
  apply no_snapshot_app in Hns as [Hns Hne]. rewrite <- (IH Hns).
  pose proof (wrote_from_ok _ _ _ Hid Hok0 Hw) as Hok.
  destruct Hs as [p Hz Hev| | | | | |]; try done. by rewrite (unborn_zero s Hid Hok Hz).
Qed.

(** The replay with snapshots, in one lemma. *)
Lemma snapshot_replay recs s :
  actorID ≠ EmptyString → wrote recs s →
  ∃ t k, fold_records (snapshot_record loader actorID) (zero_actor, 0) recs = Ok (t, k) ∧
    fold_records (actor_record (snapshot_mode k) loader actorID) (t, 0) recs
    = Ok (s, asCommandCount s - asSnapshotCommandCount s).
Proof.
  intros Hid Hw. destruct (last_snapshot recs) as [Hn|(pre & snap & post & -> & Ht & Hn)].
  - exists zero_actor, 0. rewrite first_pass_skips by done. split; [done|].
    pose proof (wrote_ok [] zero_actor Hid ltac:(constructor)) as Hok0.
    rewrite (post_snapshot_count zero_actor recs s) by done.
    rewrite (post_pass (snapshot_mode 0) zero_actor recs s 0 Hid Hok0 Hw Hn).
    + simpl. do 2 f_equal.
    + simpl. intros k [= <-]. lia.
  - destruct (wrote_split pre snap post s Hw Ht)
      as (F & p & data & Hpre & Hp & Hne & Hs & Hl & Hr & Hk & Hpost).
    pose proof (wrote_ok _ _ Hid Hpre) as Hok. pose proof (written_ok_step _ _ _ _ Hid Hok Hs) as Hok'.
    destruct (first_pass pre F Hpre) as (t0 & k0 & Hf0 & Hu).
    destruct (snapshot_record_adopts t0 k0 snap p data Hu Ht Hp Hne Hr Hl) as (ts & Hrec).
    exists (adopted p data ts), (asCommandCount F).
    rewrite fold_app, Hf0, ok_bind, fold_cons, Hrec, ok_bind.
    rewrite (first_pass_skips _ post Hn), Hk. split; [done|].
    destruct (adopted_before p data ts) as [HP0|Hneg]; [|pose proof (wo_count _ Hok); lia].
    rewrite Hk in HP0. destruct (pre_pass _ _ pre F 0 Hid HP0 Hpre ltac:(lia)) as (P & Hfp & HP).
    rewrite fold_app, Hfp, ok_bind, fold_cons, (actor_record_event _ _ _ p Hp), Ht.
    rewrite (snapshot_meets F P p data 0 Hid Hok HP Hs Hl), ok_bind.
    rewrite (post_pass _ _ post s 0 Hid Hok' Hpost Hn) by (simpl; intros ? [= <-]; lia).
    rewrite (post_snapshot_count _ post s Hid Hok' Hpost Hn). simpl. rewrite Hk. done.
Qed.

Lemma wrote_born recs s :
  actorID ≠ EmptyString → wrote recs s → asActorID s ≠ EmptyString → asActorID s = actorID.
Proof. intros Hid Hw Hne. by destruct (wo_id _ (wrote_ok _ _ Hid Hw)) as [[? _]|]. Qed.

Lemma replayEach_full recs s n :
  fold_records (actor_record full_mode loader actorID) (zero_actor, 0) recs = Ok (s, n) →
  asActorID s ≠ EmptyString →
  replayEach actorID (Some {| it_records := recs; it_fails := false |}) loader false
  = Ok {| rrState := s; rrFullReplayCommands := n; rrSnapshotReplayCommands := 0 |}.
Proof.
  intros Hf Hb%str_empty_false. unfold replayEach, iterate. simpl. rewrite Hf. simpl. by rewrite Hb.
Qed.

Lemma replayEach_snapshot recs t k s n :
  fold_records (snapshot_record loader actorID) (zero_actor, 0) recs = Ok (t, k) →
  fold_records (actor_record (snapshot_mode k) loader actorID) (t, 0) recs = Ok (s, n) →
  asActorID s ≠ EmptyString →
  replayEach actorID (Some {| it_records := recs; it_fails := false |}) loader true
  = Ok {| rrState := s; rrFullReplayCommands := 0; rrSnapshotReplayCommands := n |}.
Proof.
  intros Hk Hf Hb%str_empty_false. unfold replayEach, iterate. simpl. rewrite Hk. simpl.
  rewrite Hf. simpl. by rewrite Hb.
Qed.

Lemma both_replays recs s :
  actorID ≠ EmptyString → wrote recs s → asActorID s ≠ EmptyString →
  let it := Some {| it_records := recs; it_fails := false |} in
  replayEach actorID it loader false
    = Ok {| rrState := s; rrFullReplayCommands := asCommandCount s; rrSnapshotReplayCommands := 0 |} ∧
  ReplayRawEach actorID it loader
    = Ok {| rrState := s; rrFullReplayCommands := asCommandCount s;
            rrSnapshotReplayCommands := asCommandCount s - asSnapshotCommandCount s |}.
Proof.
  intros Hid Hw Hborn it.
  pose proof (replayEach_full recs s _ (wrote_full recs s Hid Hw) Hborn) as Hfull. split; [done|].
  destruct (snapshot_replay recs s Hid Hw) as (t & k & Hf & Hs).
  unfold ReplayRawEach, it. rewrite Hfull, ok_bind.
  rewrite (replayEach_snapshot recs t k s _ Hf Hs Hborn), ok_bind. simpl. by destruct (_ && _).
Qed.

(** ** Replay of a trimmed log *)

(** What the trimmed log cannot give back, with the submitted count it gives. *)
Definition forgotten (F : ActorState) (submitted : Z) : ActorState :=
  {| asActorID := asActorID F; asClassName := asClassName F; asClassSource := asClassSource F;
     asInitArgsJSON := asInitArgsJSON F; asStatus := asStatus F;
     asOwnerWorkerID := asOwnerWorkerID F; asEpoch := asEpoch F;
     asCommandCount := asCommandCount F; asSubmittedCommandCount := submitted;
     asSnapshotEvery := asSnapshotEvery F; asSnapshotRef := asSnapshotRef F;
     asSnapshotCommandCount := asSnapshotCommandCount F; asStateJSON := asStateJSON F;
     asIdempotencyKey := ""; asIdempotencyFingerprint := ""; asCreatedAtMs := 0;
     asUpdatedAtMs := asUpdatedAtMs F |}.

(** One record, on the full state and on what is left of it. *)
Lemma forgotten_step md s et p s' u n s0 :
  actorID ≠ EmptyString → written_ok s → asActorID s = actorID → writes s et p s' →
  et ≠ "ActorSnapshotCreated" → (∀ k, md_skip md = Some k → k <= asCommandCount s) →
  asCommandCount s <= u → asSubmittedCommandCount s = Z.max s0 u →
  ∃ u', actor_event md loader actorID (forgotten s u, n) et p
        = Ok (forgotten s' u', n + (asCommandCount s' - asCommandCount s)) ∧
    asActorID s' = actorID ∧ asSubmittedCommandCount s' = Z.max s0 u' ∧ asCommandCount s' <= u'.
Proof.
  intros Hid Hok Hb Hw Hne Hk Hu Hmax. pose proof (wo_count _ Hok) as Hc.
  assert (Hskip : apCommandSeq p = asCommandCount s + 1 → apCommandCount p = apCommandSeq p →
    skipped md p = false).
  { intros Hq Hcc. unfold skipped. destruct (md_skip md) as [k|]; [|done].
    specialize (Hk k eq_refl). apply Z.leb_gt. lia. }
  assert (Hcmd : ∀ st, apCommandSeq p = asCommandCount s + 1 →
    command_event (forgotten s u) p st = forgotten (command_event s p st) (Z.max u (asCommandCount s + 1)) ∧
    asSubmittedCommandCount (command_event s p st) = Z.max s0 (Z.max u (asCommandCount s + 1))).
  { intros st Hq. unfold command_event, forgotten. simpl. rewrite Hq, (proj2 (Z.ltb_lt 0 _)) by lia.
    split; [f_equal|]; [destruct (Z.ltb_spec u (asCommandCount s + 1)); lia|].
    destruct (Z.ltb_spec (asSubmittedCommandCount s) (asCommandCount s + 1)); lia. }
  destruct Hw as [p Hz Hev|p Ha|p Ha|p Ha Hq Hcc|p Ha Hq Hcc|p data|et p Hot]; try done.
  - congruence.
  - exists u. rewrite Z.sub_diag, Z.add_0_r. done.
  - exists (Z.max u (apCommandSeq p)). simpl. rewrite Z.sub_diag, Z.add_0_r.
    split_and!; [|done| |lia].
    + unfold submitted_event, forgotten. simpl. do 3 f_equal.
      destruct (Z.ltb_spec u (apCommandSeq p)); lia.
    + destruct (Z.ltb_spec (asSubmittedCommandCount s) (apCommandSeq p)); lia.
  - destruct (Hcmd (NormalizeJSON (default [] (apStateJSON p))) Hq) as [Heq Hsub].
    exists (Z.max u (asCommandCount s + 1)). rewrite (command_event_count s p _ Hc Hq).
    split_and!; [|done|done|lia]. unfold actor_event. simpl. rewrite (Hskip Hq Hcc), Heq.
    do 2 f_equal. lia.
  - destruct (Hcmd (asStateJSON s) Hq) as [Heq Hsub].
    exists (Z.max u (asCommandCount s + 1)). rewrite (command_event_count s p _ Hc Hq).
    split_and!; [|done|done|lia]. unfold actor_event. simpl. rewrite (Hskip Hq Hcc), Heq.
    do 2 f_equal. lia.
  - exists u. rewrite Z.sub_diag, Z.add_0_r. split_and!; [by apply other_event_skips|done..].
Qed.

Lemma post_forgets md s0 recs s u0 n :
  actorID ≠ EmptyString → written_ok s0 → asActorID s0 = actorID →
  wrote_from s0 recs s → no_snapshot recs →
  asCommandCount s0 <= u0 <= asSubmittedCommandCount s0 →
  (∀ k, md_skip md = Some k → k <= asCommandCount s0) →
  ∃ u, fold_records (actor_record md loader actorID) (forgotten s0 u0, n) recs
       = Ok (forgotten s u, n + (asCommandCount s - asCommandCount s0)) ∧
    asActorID s = actorID ∧
    asSubmittedCommandCount s = Z.max (asSubmittedCommandCount s0) u ∧ asCommandCount s <= u.
Proof.
  intros Hid Hok0 Hborn Hw Hns Hsub Hk. induction Hw as [|recs s rec p s' Hw IH Hp _ Hs].
  { exists u0. rewrite Z.sub_diag, Z.add_0_r. split_and!; [done|done|lia|lia]. }
  apply no_snapshot_app in Hns as [Hns Hne].
  destruct (IH Hns) as (u & Hf & Hb & Hmax & Hle).
  rewrite (fold_snoc _ _ _ _ _ Hf), (actor_record_event _ _ _ p Hp).
  pose proof (wrote_from_ok _ _ _ Hid Hok0 Hw) as Hok.
  pose proof (wrote_from_count _ _ _ Hid Hok0 Hw) as Hle0.
  destruct (forgotten_step md s _ p s' u (n + (asCommandCount s - asCommandCount s0))
    (asSubmittedCommandCount s0) Hid Hok Hb Hs Hne) as (u' & Hev & ? & ? & ?);
    [intros k Hk'; specialize (Hk k Hk'); lia|done|done|].
  exists u'. rewrite Hev. split_and!; try done. do 2 f_equal. lia.
Qed.

Lemma adopted_snapshot F p data ts :
  writes F "ActorSnapshotCreated" p (snapshot_event actorID F p (asStateJSON F)) →
  load loader (apSnapshotRef p) = Ok data → written_ok F → actorID ≠ EmptyString →
  snapshot_event actorID (adopted p data ts) p (NormalizeJSON data)
  = forgotten (snapshot_event actorID F p (asStateJSON F)) (asCommandCount F).
Proof.
  intros Hw Hl Hok Hid.
  inversion Hw as [| | | | |p' data' Ha Ho He Hcn Hcs Hia Hwk Hep Hse Hsc Hr Hl' Hn|et' p' Hne];
    simplify_eq.
  2:{ exfalso. apply Hne. unfold actor_events. set_solver. }
  rewrite Hl in Hl'. simplify_eq. unfold snapshot_event, forgotten, adopted. simpl.
  rewrite Hcn, Hcs, Hia, Hwk, Hep, Hse, Hsc, Hn. f_equal; by destruct (str_empty _), (asInitArgsJSON F), (_ =? 0), (_ <? _).
Qed.

(** The full mode never fails, and counts the commands whatever the state. *)
Lemma full_mode_counts s et p s' u n :
  actorID ≠ EmptyString → written_ok s → writes s et p s' → asActorID u ≠ EmptyString →
  ∃ u', actor_event full_mode loader actorID (u, n) et p
        = Ok (u', n + (asCommandCount s' - asCommandCount s)) ∧ asActorID u' ≠ EmptyString.
Proof.
  intros Hid Hok Hw Hu. pose proof (wo_count _ Hok) as Hc.
  destruct Hw as [p Hz Hev|p Ha|p Ha|p Ha Hq Hcc|p Ha Hq Hcc|p data|et p Hot].
  - rewrite (unborn_zero s Hid Hok Hz). eexists. split; [simpl; rewrite Z.add_0_r; reflexivity|].
    unfold created_event. destruct (str_empty (asActorID u)); done.
  - eexists. rewrite Z.sub_diag, Z.add_0_r. by split.
  - eexists. rewrite Z.sub_diag, Z.add_0_r. by split.
  - rewrite (command_event_count s p _ Hc Hq). eexists.
    replace (n + _) with (n + 1) by lia. by split.
  - rewrite (command_event_count s p _ Hc Hq). eexists.
    replace (n + _) with (n + 1) by lia. by split.
  - eexists. simpl. rewrite Z.sub_diag, Z.add_0_r. by split.
  - exists u. rewrite Z.sub_diag, Z.add_0_r. split; [by apply other_event_skips|done].
Qed.

Lemma post_counts s0 recs s u n :
  actorID ≠ EmptyString → written_ok s0 → wrote_from s0 recs s → asActorID u ≠ EmptyString →
  ∃ u', fold_records (actor_record full_mode loader actorID) (u, n) recs
        = Ok (u', n + (asCommandCount s - asCommandCount s0)) ∧ asActorID u' ≠ EmptyString.
Proof.
  intros Hid Hok0 Hw Hu. induction Hw as [|recs s rec p s' Hw IH Hp _ Hs].
  { exists u. by rewrite Z.sub_diag, Z.add_0_r. }
  destruct IH as (u1 & Hf & Hu1).
  rewrite (fold_snoc _ _ _ _ _ Hf), (actor_record_event _ _ _ p Hp).
  destruct (full_mode_counts s _ p s' u1 (n + (asCommandCount s - asCommandCount s0)) Hid
    (wrote_from_ok _ _ _ Hid Hok0 Hw) Hs Hu1) as (u' & Hev & ?).
  exists u'. rewrite Hev. split; [|done]. do 2 f_equal. lia.
Qed.

(** After a snapshot the control plane trims the log up to it. *)
Lemma trimmed_replay pre snap post s :
  actorID ≠ EmptyString → wrote (pre ++ snap :: post) s →
  raw_EventType snap = "ActorSnapshotCreated" → no_snapshot post →
  ∃ F u, wrote pre F ∧
    ReplayRawEach actorID (Some {| it_records := snap :: post; it_fails := false |}) loader
    = Ok {| rrState := forgotten s u; rrFullReplayCommands := asCommandCount s;
            rrSnapshotReplayCommands := asCommandCount s - asSnapshotCommandCount s |} ∧
    asSubmittedCommandCount s = Z.max (asSubmittedCommandCount F) u ∧ asCommandCount s <= u ∧
    asCommandCount F <= asCommandCount s.
Proof.
  intros Hid Hw Ht Hn.
  destruct (wrote_split pre snap post s Hw Ht)
    as (F & p & data & Hpre & Hp & Hne & Hs & Hl & Hr & Hk & Hpost).
  pose proof (wrote_ok _ _ Hid Hpre) as Hok. pose proof (written_ok_step _ _ _ _ Hid Hok Hs) as Hok'.
  pose proof (wo_count _ Hok) as Hc. pose proof (wo_submitted _ Hok) as Hsub.
  set (F1 := snapshot_event actorID F p (asStateJSON F)) in *.
  assert (Hzero : unborn_fields zero_actor) by by split_and!.
  destruct (snapshot_record_adopts zero_actor 0 snap p data Hzero Ht Hp Hne Hr Hl) as (ts & Hrec).
  destruct (post_forgets (snapshot_mode (asCommandCount F)) F1 post s (asCommandCount F) 0 Hid Hok'
    eq_refl Hpost Hn) as (u & Hf & Hb & Hmax & Hle); [simpl; lia|intros k [= <-]; simpl; lia|].
  exists F, u. split; [done|].
  destruct (post_counts F1 post s (snapshot_event actorID zero_actor p []) 0 Hid Hok' Hpost Hid)
    as (v & Hv & Hvb).
  pose proof (post_snapshot_count F1 post s Hid Hok' Hpost Hn) as Hsc.
  change (asSnapshotCommandCount F1) with (apSnapshotCommandCount p) in Hsc.
  change (asCommandCount F1) with (asCommandCount F) in *. rewrite Hk in Hsc.
  pose proof (wrote_from_count F1 post s Hid Hok' Hpost) as Hmono.
  change (asCommandCount F1) with (asCommandCount F) in Hmono.
  split; [|split_and!; [done|done|exact Hmono]].
  assert (Hev : actor_event (snapshot_mode (asCommandCount F)) loader actorID (adopted p data ts, 0)
    "ActorSnapshotCreated" p = Ok (forgotten F1 (asCommandCount F), 0)).
  { unfold F1. rewrite <- (adopted_snapshot F p data ts Hs Hl Hok Hid). unfold actor_event. simpl.
    apply str_empty_false in Hr. rewrite Hr. simpl. by rewrite Hl. }
  assert (Hfull : replayEach actorID (Some {| it_records := snap :: post; it_fails := false |}) loader false
    = Ok {| rrState := v; rrFullReplayCommands := asCommandCount s - asCommandCount F;
            rrSnapshotReplayCommands := 0 |}).
  { apply replayEach_full; [|done]. rewrite fold_cons, (actor_record_event _ _ _ p Hp), Ht.
    change (actor_event full_mode loader actorID (zero_actor, 0) "ActorSnapshotCreated" p)
      with (Ok (E := actor_error) (snapshot_event actorID zero_actor p [], 0)).
    by rewrite ok_bind, Hv. }
  assert (Hsnap : replayEach actorID (Some {| it_records := snap :: post; it_fails := false |}) loader true
    = Ok {| rrState := forgotten s u; rrFullReplayCommands := 0;
            rrSnapshotReplayCommands := asCommandCount s - asCommandCount F |}).
  { apply (replayEach_snapshot _ (adopted p data ts) (asCommandCount F)).
    - by rewrite fold_cons, Hrec, ok_bind, (first_pass_skips _ post Hn), Hk.
    - by rewrite fold_cons, (actor_record_event _ _ _ p Hp), Ht, Hev, ok_bind, Hf.
    - simpl. by rewrite Hb. }
  unfold ReplayRawEach. rewrite Hfull, ok_bind, Hsnap, ok_bind. simpl. rewrite Hsc. do 2 f_equal.
  destruct (Z.ltb_spec 0 (asCommandCount F)); simpl; [by rewrite Z.leb_refl|lia].
Qed.

(** C35: Take the log of an actor whose commands are completed one at a time, so that an
    applied command's snapshot is logged before the next command is applied ([wrote]), and let
    [s] be the state its events make.  On the whole log the replay that starts from the last
    snapshot and skips the commands it covers reaches exactly the state [s] of the full
    replay, and reports how many commands each of the two replayed.  On the log trimmed at its
    last snapshot, as the control plane trims it, the replay reaches [s] without its
    idempotency key, its fingerprint and its creation time, and with a submitted-command
    count [u] that forgets the commands submitted but not yet applied at the snapshot: the
    true count is the larger of [u] and the count at the snapshot. *)
Theorem snapshot_replay_exact recs s :
  actorID ≠ EmptyString → wrote recs s → asActorID s ≠ EmptyString →
  let it records := Some {| it_records := records; it_fails := false |} in
  replayEach actorID (it recs) loader false
    = Ok {| rrState := s; rrFullReplayCommands := asCommandCount s; rrSnapshotReplayCommands := 0 |} ∧
  ReplayRawEach actorID (it recs) loader
    = Ok {| rrState := s; rrFullReplayCommands := asCommandCount s;
            rrSnapshotReplayCommands := asCommandCount s - asSnapshotCommandCount s |} ∧
  ∀ pre snap post, recs = pre ++ snap :: post → raw_EventType snap = "ActorSnapshotCreated" → no_snapshot post →
    ∃ F u, wrote pre F ∧
      ReplayRawEach actorID (it (snap :: post)) loader
      = Ok {| rrState := forgotten s u; rrFullReplayCommands := asCommandCount s;
              rrSnapshotReplayCommands := asCommandCount s - asSnapshotCommandCount s |} ∧
      asSubmittedCommandCount s = Z.max (asSubmittedCommandCount F) u ∧ asCommandCount s <= u.
Proof.
  intros Hid Hw Hborn it. destruct (both_replays recs s Hid Hw Hborn) as [Hf Hs]. split; [exact Hf|]. split; [exact Hs|].
  intros pre snap post -> Ht Hn. destruct (trimmed_replay pre snap post s) as (F & u & ? & ? & ? & ? & _); [done..|].
  by exists F, u.
Qed.

(** *** Replay from a checkpoint *)

Lemma writes_tail s et p s' n :
  actorID ≠ EmptyString → written_ok s → writes s et p s' →
  actor_event tail_mode loader actorID (s, n) et p = Ok (s', n + (asCommandCount s' - asCommandCount s)).
Proof.
  intros Hid Hok Hw. destruct (decide (et = "ActorSnapshotCreated")) as [->|Hne].
  - inversion Hw as [| | | | |p' data Ha Ho He Hcn Hcs Hia Hwk Hep Hse Hsc Hr Hl Hn|et' p' Hot]; simplify_eq.
    + unfold actor_event. simpl. apply str_empty_false in Hr. rewrite Hr. simpl. rewrite Hl. simpl.
      rewrite Hn. by rewrite Z.sub_diag, Z.add_0_r.
    + rewrite other_event_skips by done. by rewrite Z.sub_diag, Z.add_0_r.
  - by apply writes_any_mode.
Qed.

(** Continuing from the state reached after any prefix of the log, the tail
    gives the state of the whole log: a checkpoint may stand for the prefix. *)
Theorem actor_checkpoint_resume prefix s tail s' :
  actorID ≠ EmptyString → wrote prefix s → asActorID s ≠ EmptyString → wrote_from s tail s' →
  ReplayFromStateRawEach actorID s (Some {| it_records := tail; it_fails := false |}) loader
  = Ok {| rrState := s'; rrFullReplayCommands := 0;
          rrSnapshotReplayCommands := asCommandCount s' - asCommandCount s |}.
Proof.
  intros Hid Hpre Hborn Hw. pose proof (wrote_ok _ _ Hid Hpre) as Hok.
  assert (Hf : fold_records (actor_record tail_mode loader actorID) (s, 0) tail
    = Ok (s', asCommandCount s' - asCommandCount s) ∧ asActorID s' ≠ EmptyString).
  { induction Hw as [|recs s1 rec p s2 Hw IH Hp _ Hs]; [by rewrite Z.sub_diag|].
    destruct IH as [IH Hb]. pose proof (wrote_from_ok _ _ _ Hid Hok Hw) as Hok1.
    rewrite (fold_snoc _ _ _ _ _ IH), (actor_record_event _ _ _ p Hp).
    rewrite (writes_tail s1 _ p s2 _ Hid Hok1 Hs). split; [do 2 f_equal; lia|].
    by destruct Hs. }
  destruct Hf as [Hf Hb%str_empty_false]. apply str_empty_false in Hborn.
  unfold ReplayFromStateRawEach, iterate. rewrite Hborn. simpl. rewrite Hf. simpl. by rewrite Hb.
Qed.
End Logs.

(** ** A concrete log: two commands submitted, one applied, snapshot, the other applied *)

Definition demo_p (worker : string) (epoch seq count : Z) : ActorEventPayload :=
  {| apActorID := "a1"; apClassName := "C"; apClassSource := "src"; apInitArgsJSON := None;
     apWorkerID := worker; apEpoch := epoch; apCallID := ""; apCommandSeq := seq;
     apMethodName := "m"; apArgsJSON := None; apResultJSON := None;
     apStateJSON := Some (str_bytes "1"); apSnapshotRef := if seq =? 0 then "ref" else "";
     apSnapshotEvery := 1; apCommandCount := count; apSnapshotCommandCount := count;
     apError := ""; apIdempotencyKey := "key"; apIdempotencyFingerprint := "fp";
     apTimestampMs := 7 |}.

Definition demo_actor_json : ActorJSON :=
  {| json_Compact := λ b, Some b;
     unmarshalActorEvent := λ data,
       if decide (data = str_bytes "created") then Some (demo_p "" 0 0 0)
       else if decide (data = str_bytes "owned") then Some (demo_p "w" 1 0 0)
       else if decide (data = str_bytes "c1") then Some (demo_p "w" 1 1 1)
       else if decide (data = str_bytes "c2") then Some (demo_p "w" 1 2 2)
       else if decide (data = str_bytes "snap") then Some (demo_p "w" 1 0 1)
       else None |}.

Definition demo_rec (seq : Z) (event payload : string) : RawRecord :=
  {| raw_StreamID := "actor/a1"; raw_Seq := seq; raw_EventType := event; raw_IdempotencyKey := "";
     raw_Payload := str_bytes payload; raw_TimestampMs := 100 + seq; raw_CRC32 := 0 |}.

Definition demo_pre : list RawRecord :=
  [demo_rec 1 "ActorCreated" "created"; demo_rec 2 "ActorOwnershipGranted" "owned";
   demo_rec 3 "ActorCommandSubmitted" "c1"; demo_rec 4 "ActorCommandSubmitted" "c2";
   demo_rec 5 "ActorCommandApplied" "c1"].
Definition demo_snap : RawRecord := demo_rec 6 "ActorSnapshotCreated" "snap".
Definition demo_tail : list RawRecord := [demo_rec 7 "ActorCommandApplied" "c2"].
Definition demo_loader : ResultLoader := λ ref, if decide (ref = "ref") then Some (str_bytes "1") else None.

Definition demo_s5 : ActorState :=
  command_event (submitted_event (submitted_event (ownership_event
    (created_event "a1" zero_actor (demo_p "" 0 0 0)) (demo_p "w" 1 0 0))
    (demo_p "w" 1 1 1)) (demo_p "w" 1 2 2)) (demo_p "w" 1 1 1) (str_bytes "1").
Definition demo_s6 : ActorState := snapshot_event "a1" demo_s5 (demo_p "w" 1 0 1) (asStateJSON demo_s5).
Definition demo_s7 : ActorState := command_event demo_s6 (demo_p "w" 1 2 2) (str_bytes "1").

Section Demo.
#[local] Existing Instances toy_msgpack demo_actor_json.

Lemma writes_eq et p s s1 s2 :
  writes (Some demo_loader) "a1" s et p s1 → s1 = s2 → writes (Some demo_loader) "a1" s et p s2.
Proof. by intros ? <-. Qed.

Lemma demo_wrote5 : wrote (Some demo_loader) "a1" demo_pre demo_s5.
Proof.
  unfold wrote, demo_pre.
  change [?a; ?b; ?c; ?d; ?e] with ((((([] ++ [a]) ++ [b]) ++ [c]) ++ [d]) ++ [e]).
  eapply wrote_snoc; [eapply wrote_snoc; [eapply wrote_snoc; [eapply wrote_snoc;
    [eapply wrote_snoc; [apply wrote_nil| | |]| | |]| | |]| | |]| | |];
    try (vm_compute; reflexivity); try done.
  - by apply w_created.
  - by apply w_ownership.
  - by apply w_submitted.
  - by apply w_submitted.
  - eapply writes_eq; [by apply w_applied|vm_compute; reflexivity].
Qed.

Lemma demo_wrote6 : wrote (Some demo_loader) "a1" (demo_pre ++ [demo_snap]) demo_s6.
Proof.
  eapply wrote_snoc; [apply demo_wrote5|vm_compute; reflexivity|done|].
  eapply writes_eq; [by eapply w_snapshot|vm_compute; reflexivity].
Qed.

Lemma demo_wrote7 : wrote (Some demo_loader) "a1" (demo_pre ++ demo_snap :: demo_tail) demo_s7.
Proof.
  change (demo_pre ++ demo_snap :: demo_tail) with ((demo_pre ++ [demo_snap]) ++ demo_tail).
  eapply wrote_snoc; [apply demo_wrote6|vm_compute; reflexivity|done|].
  eapply writes_eq; [by apply w_applied|vm_compute; reflexivity].
Qed.

Lemma actor_event_roundtrip_witness :
  UnmarshalEventPayload (match MarshalEventPayload (demo_p "w" 1 2 2) with Ok d => d | Err _ => [] end)
  = Ok (demo_p "w" 1 2 2).
Proof.
  apply (actor_event_roundtrip (demo_p "w" 1 2 2)); [|vm_compute; reflexivity].
  split; simpl; unfold in_u64, in_u32, in_i64; repeat split; (discriminate || lia).
Defined.

(** Trimmed at the snapshot, the log forgets that command 2 was submitted: the
    replayed count is 1, and the next call would reuse the sequence number 2. *)
Lemma snapshot_replay_exact_witness :
  ReplayRawEach "a1" (Some {| it_records := demo_pre ++ demo_snap :: demo_tail; it_fails := false |})
    (Some demo_loader)
  = Ok {| rrState := demo_s7; rrFullReplayCommands := 2; rrSnapshotReplayCommands := 1 |} ∧
  ∃ u, ReplayRawEach "a1" (Some {| it_records := [demo_snap]; it_fails := false |}) (Some demo_loader)
       = Ok {| rrState := forgotten demo_s6 u; rrFullReplayCommands := 1;
               rrSnapshotReplayCommands := 0 |} ∧
    u = 1 ∧ asSubmittedCommandCount demo_s6 = 2.
Proof.
  split.
  { destruct (snapshot_replay_exact (Some demo_loader) "a1" (demo_pre ++ demo_snap :: demo_tail) demo_s7) as (_ & Hs & _);
      [discriminate|exact demo_wrote7|discriminate|exact Hs]. }
  destruct (snapshot_replay_exact (Some demo_loader) "a1" (demo_pre ++ [demo_snap]) demo_s6) as (_ & _ & Ht);
    [discriminate|exact demo_wrote6|discriminate|].
  destruct (Ht demo_pre demo_snap []) as (F & u & _ & Hr & _); [reflexivity|reflexivity|constructor|].
  exists u. split; [exact Hr|]. split; [|reflexivity].
  apply (f_equal (λ r, match r with Ok x => asSubmittedCommandCount (rrState x) | Err _ => 0 end)) in Hr.
  vm_compute in Hr. congruence.
Defined.

(** Completions take no lock on their actor: once command 1 has been counted, command 2 can be
    dispatched, completed and logged before the snapshot of command 1 is, and the trim at the
    snapshot removes it.  What is left of that log has one command, where two were applied
    and acknowledged. *)
Definition overtaken : list RawRecord :=
  demo_pre ++ [demo_rec 6 "ActorCommandApplied" "c2"; demo_rec 7 "ActorSnapshotCreated" "snap"].
Example overtaken_snapshot_forgets_command :
  let count l := match ReplayRawEach "a1" (Some {| it_records := l; it_fails := false |}) (Some demo_loader) with
                 | Ok r => Some (asCommandCount (rrState r)) | Err _ => None end in
  count (take 6 overtaken) = Some 2 ∧ count (drop 6 overtaken) = Some 1.
Proof. split; vm_compute; reflexivity. Qed.

(** A metadata checkpoint made before the trim: its state has no command applied, the records
    of command 1 are trimmed away, and the snapshot event of the tail brings the actor's state
    but not its command count, which the replay of the trimmed log has. *)
Example checkpoint_before_trim_loses_count :
  let before := submitted_event (ownership_event (created_event "a1" zero_actor (demo_p "" 0 0 0)) (demo_p "w" 1 0 0)) (demo_p "w" 1 1 1) in
  let tail := Some {| it_records := [demo_snap]; it_fails := false |} in
  let view (r : result actor_error ReplayResult) := match r with
    | Ok r => Some (asCommandCount (rrState r), asSnapshotCommandCount (rrState r), asStateJSON (rrState r)) | Err _ => None end in
  view (ReplayFromStateRawEach "a1" before tail (Some demo_loader)) = Some (0, 1, str_bytes "1") ∧
  view (ReplayRawEach "a1" tail (Some demo_loader)) = Some (1, 1, str_bytes "1").
Proof. split; vm_compute; reflexivity. Qed.

Lemma actor_checkpoint_resume_witness :
  ReplayFromStateRawEach "a1" demo_s6 (Some {| it_records := demo_tail; it_fails := false |})
    (Some demo_loader)
  = Ok {| rrState := demo_s7; rrFullReplayCommands := 0; rrSnapshotReplayCommands := 1 |}.
Proof.
  apply (actor_checkpoint_resume (Some demo_loader) "a1" (demo_pre ++ [demo_snap]) demo_s6 demo_tail demo_s7);
    [discriminate|exact demo_wrote6|discriminate|].
  eapply (wrote_snoc _ _ _ [] _ (demo_rec 7 "ActorCommandApplied" "c2"));
    [apply wrote_nil|vm_compute; reflexivity|discriminate|].
  eapply writes_eq; [apply w_applied; reflexivity|vm_compute; reflexivity].
Defined.
End Demo.
Close Scope Z_scope.
