(* ===== verification/Placement.v ===== *)
(** Worker placement for LLM tasks: [internal/control/scheduler_placement.go],
    with the helpers of [scheduler.go] and [llm.go] it computes scores with.

    For each model the index keeps three sorted lists of workers (cached, cold,
    by predicted latency), each with a map from worker to position.  Go's
    [sort.Slice] is not stable, but the comparators are total orders on entries
    with distinct worker IDs, so its result is the sorted list.  A nil map and
    an empty map behave alike here.  Model keys are split on the first colon.

    Theorems: each list refines a finite map under upsert and remove; in every
    reachable state the lists are exactly those computed from the workers'
    views and statistics; the preferred worker is the best one with capacity. *)
From S2P Require Import Prelude.

Open Scope Z_scope.

(** ** Model keys *)

Record modelKey := { mk_name : string; mk_version : string }.

#[export] Instance modelKey_eq_dec : EqDecision modelKey.
Proof. solve_decision. Defined.
#[export] Instance modelKey_countable : Countable modelKey.
Proof.
  apply (inj_countable' (λ k, (mk_name k, mk_version k)) (λ p, {| mk_name := p.1; mk_version := p.2 |})).
  by intros [].
Defined.

(** [modelKeyFromParts] *)
Definition modelKeyFromParts (name version : string) : modelKey :=
  {| mk_name := name; mk_version := if str_empty version then "v1" else version |}.

(** [metadata.ModelKey] *)
Definition ModelKey (name version : string) : string :=
  (name ++ ":" ++ (if str_empty version then "v1" else version))%string.

(** [splitModelKey]: cut at the first colon. *)
Fixpoint split_colon (key : string) : option (string * string) :=
  match key with
  | EmptyString => None
  | String c rest =>
      if decide (c = Ascii.ascii_of_nat 58) then Some (EmptyString, rest)
      else match split_colon rest with
           | Some (a, b) => Some (String c a, b)
           | None => None
           end
  end.
Definition splitModelKey (key : string) : string * string :=
  match split_colon key with Some p => p | None => (key, "v1"%string) end.

(** [modelKeySet]; the source maps a model key string to a bool. *)
Definition modelKeySet (source : gmap string bool) : gset modelKey :=
  map_fold (λ key cached out,
    if (cached : bool) then
      let (name, version) := splitModelKey key in {[modelKeyFromParts name version]} ∪ out
    else out) ∅ source.

(** ** Workers and scores *)

(** [workerView] *)
Record workerView := {
  wv_workerID : string;
  wv_cachedModels : gset modelKey;
  wv_capacity : Z;
  wv_runningTasks : Z;
  wv_lastHeartbeat : Z
}.

(** [hasCapacity] *)
Definition hasCapacity (w : workerView) : bool :=
  wv_runningTasks w <? (if wv_capacity w =? 0 then 1 else wv_capacity w).

(** [llmWorkerStats] *)
Record llmWorkerStats := {
  ls_RequestCount : Z;
  ls_CacheHitCount : Z;
  ls_EWMATotalLatencyMs : Z;
  ls_EWMAModelLoadMs : Z;
  ls_EWMACheckpointFetchMs : Z;
  ls_LastEvictionCount : Z;
  ls_LastUpdatedMs : Z
}.
Definition zero_stats : llmWorkerStats :=
  {| ls_RequestCount := 0; ls_CacheHitCount := 0; ls_EWMATotalLatencyMs := 0;
     ls_EWMAModelLoadMs := 0; ls_EWMACheckpointFetchMs := 0; ls_LastEvictionCount := 0;
     ls_LastUpdatedMs := 0 |}.

(** [predictedLatencyMs]; of the worker it reads whether the model is cached. *)
Definition predictedLatencyMs (cached : bool) (stats : llmWorkerStats) : Z :=
  let base := if (0 <? ls_RequestCount stats) && (0 <? ls_EWMATotalLatencyMs stats)
              then ls_EWMATotalLatencyMs stats else 25 in
  let coldStartPenalty :=
    if cached then 0
    else let p := i64 (ls_EWMAModelLoadMs stats + ls_EWMACheckpointFetchMs stats) in
         if p <=? 0 then 100 else p in
  let evictionPenalty :=
    if 0 <? ls_LastEvictionCount stats then i64 (25 * ls_LastEvictionCount stats) else 0 in
  i64 (i64 (base + coldStartPenalty) + evictionPenalty).

(** [localityBaseScore] *)
Definition localityBaseScore (view : workerView) (cacheHit : bool) : Z :=
  if negb (hasCapacity view) then - 2 ^ 60
  else
    let available := u32 (wv_capacity view - wv_runningTasks view) in
    let score := available * 100 - wv_runningTasks view * 10 in
    if cacheHit then score + 1000 else score.

(** [predictedPlacementScore] *)
Definition predictedPlacementScore (view : workerView) (stats : llmWorkerStats) (cacheHit : bool) : Z :=
  if negb (hasCapacity view) then 2 ^ 62 else predictedLatencyMs cacheHit stats.

(** [workerPlacementActive] *)
Definition workerPlacementActive (view : workerView) : bool := negb (str_empty (wv_workerID view)).

(** ** Sorted lists with an index *)

(** [placementEntry] *)
Record placementEntry := {
  pe_workerID : string;
  pe_localityScore : Z;
  pe_predictScore : Z
}.

(** [placementHeap] and [placementPredictHeap] have the same fields. *)
Record placementHeap := {
  ph_entries : list placementEntry;
  ph_byID : gmap string nat
}.
Definition empty_heap : placementHeap := {| ph_entries := []; ph_byID := ∅ |}.

(** Higher locality first. *)
Definition locality_le (a b : placementEntry) : Prop :=
  pe_localityScore b < pe_localityScore a ∨
  pe_localityScore a = pe_localityScore b ∧ String.le (pe_workerID a) (pe_workerID b).
(** Lower prediction first. *)
Definition predict_le (a b : placementEntry) : Prop :=
  pe_predictScore a < pe_predictScore b ∨
  pe_predictScore a = pe_predictScore b ∧ String.le (pe_workerID a) (pe_workerID b).

#[export] Instance locality_le_dec : RelDecision locality_le.
Proof. unfold locality_le. solve_decision. Defined.
#[export] Instance predict_le_dec : RelDecision predict_le.
Proof. unfold predict_le. solve_decision. Defined.

(** [h.byID = make(...); for i, item := range h.entries { h.byID[item.workerID] = i }] *)
Definition reindex (entries : list placementEntry) : placementHeap :=
  {| ph_entries := entries; ph_byID := index_ids 0 (map pe_workerID entries) ∅ |}.

(** The position [byID] gives, when the entry there is the worker's. *)
Definition heap_find (h : placementHeap) (workerID : string) : option nat :=
  match ph_byID h !! workerID with
  | Some idx =>
      match ph_entries h !! idx with
      | Some e => if decide (pe_workerID e = workerID) then Some idx else None
      | None => None
      end
  | None => None
  end.

(** [remove], the same for both kinds. *)
Definition remove (h : placementHeap) (workerID : string) : placementHeap :=
  match heap_find h workerID with
  | None => {| ph_entries := ph_entries h; ph_byID := delete workerID (ph_byID h) |}
  | Some idx => reindex (take idx (ph_entries h) ++ drop (S idx) (ph_entries h))
  end.

(** Replace or append the entry, sort, rebuild the index. *)
Definition put (le : placementEntry → placementEntry → Prop) `{!RelDecision le}
    (h : placementHeap) (entry : placementEntry) : placementHeap :=
  let entries :=
    match heap_find h (pe_workerID entry) with
    | Some idx => <[idx := entry]> (ph_entries h)
    | None => ph_entries h ++ [entry]
    end in
  reindex (merge_sort le entries).

(** [placementHeap.upsert] *)
Definition upsert (h : placementHeap) (workerID : string) (localityScore predictScore : Z) :
    placementHeap :=
  if localityScore <=? - 2 ^ 59 then remove h workerID
  else put locality_le h {| pe_workerID := workerID; pe_localityScore := localityScore;
                            pe_predictScore := predictScore |}.

(** [placementPredictHeap.upsert] *)
Definition predict_upsert (h : placementHeap) (workerID : string) (predictScore : Z) : placementHeap :=
  if 2 ^ 61 <=? predictScore then remove h workerID
  else put predict_le h {| pe_workerID := workerID; pe_localityScore := 0;
                           pe_predictScore := predictScore |}.

(** [bestWorkerID] and [hasCapacityLocked]: the first entry with capacity. *)
Definition entry_capacity (views : gmap string workerView) (e : placementEntry) : bool :=
  match views !! pe_workerID e with Some view => hasCapacity view | None => false end.
Definition bestWorkerID (h : placementHeap) (views : gmap string workerView) : string :=
  match list_find (λ e, entry_capacity views e = true) (ph_entries h) with
  | Some (_, e) => pe_workerID e
  | None => EmptyString
  end.
Definition hasCapacityLocked (h : placementHeap) (views : gmap string workerView) : bool :=
  existsb (entry_capacity views) (ph_entries h).

(** [modelPlacementHeaps] *)
Record modelPlacementHeaps := {
  mh_cached : placementHeap;
  mh_cold : placementHeap;
  mh_predicted : placementHeap
}.
Definition empty_heaps : modelPlacementHeaps :=
  {| mh_cached := empty_heap; mh_cold := empty_heap; mh_predicted := empty_heap |}.

(** [modelPlacementStore] *)
Record modelPlacementStore := {
  mp_byModel : gmap modelKey modelPlacementHeaps;
  mp_workerCached : gmap string (gset modelKey);
  mp_llmStats : gmap modelKey (gmap string llmWorkerStats)
}.
Definition newModelPlacementStore : modelPlacementStore :=
  {| mp_byModel := ∅; mp_workerCached := ∅; mp_llmStats := ∅ |}.

(** [placementStatsLocked] *)
Definition placementStatsLocked (st : modelPlacementStore) (key : modelKey) (workerID : string) :
    llmWorkerStats :=
  default zero_stats (mp_llmStats st !! key ≫= λ workers, workers !! workerID).

(** [modelPlacement]: which workers report a cached copy. *)
Record modelPlacement := { cachedWorkers : gset string; coldWorkers : gset string }.

(** The placement part of the [Scheduler]'s state. *)
Record PlacementState := {
  ps_workerViews : gmap string workerView;
  ps_placement : gmap modelKey modelPlacement;
  ps_llmPlacement : modelPlacementStore
}.
Definition emptyPlacement : PlacementState :=
  {| ps_workerViews := ∅; ps_placement := ∅; ps_llmPlacement := newModelPlacementStore |}.

Definition with_byModel (st : modelPlacementStore) (m : gmap modelKey modelPlacementHeaps) :
    modelPlacementStore :=
  {| mp_byModel := m; mp_workerCached := mp_workerCached st; mp_llmStats := mp_llmStats st |}.
Definition with_store (s : PlacementState) (st : modelPlacementStore) : PlacementState :=
  {| ps_workerViews := ps_workerViews s; ps_placement := ps_placement s; ps_llmPlacement := st |}.

(** [upsertWorkerModelPlacementInnerLocked] on the heaps of the model, and on
    the worker's set of cached models. *)
Definition place_worker (st : modelPlacementStore) (key : modelKey) (workerID : string)
    (view : workerView) (heaps : modelPlacementHeaps) : modelPlacementHeaps :=
  let cacheHit := bool_decide (key ∈ wv_cachedModels view) in
  let localityScore := localityBaseScore view cacheHit in
  let predictScore := predictedPlacementScore view (placementStatsLocked st key workerID) cacheHit in
  if negb (workerPlacementActive view) then
    {| mh_cached := remove (mh_cached heaps) workerID; mh_cold := remove (mh_cold heaps) workerID;
       mh_predicted := remove (mh_predicted heaps) workerID |}
  else if cacheHit then
    {| mh_cached := upsert (mh_cached heaps) workerID localityScore predictScore;
       mh_cold := remove (mh_cold heaps) workerID;
       mh_predicted := predict_upsert (mh_predicted heaps) workerID predictScore |}
  else
    {| mh_cached := remove (mh_cached heaps) workerID;
       mh_cold := upsert (mh_cold heaps) workerID localityScore predictScore;
       mh_predicted := predict_upsert (mh_predicted heaps) workerID predictScore |}.

Definition note_cached (cached : gmap string (gset modelKey)) (key : modelKey) (workerID : string)
    (view : workerView) : gmap string (gset modelKey) :=
  if workerPlacementActive view && bool_decide (key ∈ wv_cachedModels view) then
    <[workerID := {[key]} ∪ default ∅ (cached !! workerID)]> cached
  else alter (λ keys, keys ∖ {[key]}) workerID cached.

(** The heaps pointer is shared with [byModel]: the update is stored there. *)
Definition upsertWorkerModelPlacementInnerLocked (st : modelPlacementStore) (key : modelKey)
    (workerID : string) (view : workerView) (heaps : modelPlacementHeaps) : modelPlacementStore :=
  {| mp_byModel := <[key := place_worker st key workerID view heaps]> (mp_byModel st);
     mp_workerCached := note_cached (mp_workerCached st) key workerID view;
     mp_llmStats := mp_llmStats st |}.

(** [heaps.x] of a model in the store. *)
Definition heaps_of (st : modelPlacementStore) (key : modelKey) : modelPlacementHeaps :=
  default empty_heaps (mp_byModel st !! key).

(** [ensureModelPlacementLocked]: create the heaps, seeded with every worker. *)
Definition seed_workers (st : modelPlacementStore) (key : modelKey)
    (views : list (string * workerView)) : modelPlacementStore :=
  foldl (λ st '(workerID, view),
    upsertWorkerModelPlacementInnerLocked st key workerID view (heaps_of st key)) st views.

Definition ensureModelPlacementLocked (s : PlacementState) (key : modelKey) : PlacementState :=
  let st := ps_llmPlacement s in
  match mp_byModel st !! key with
  | Some _ => s
  | None =>
      let st := with_byModel st (<[key := empty_heaps]> (mp_byModel st)) in
      with_store s (seed_workers st key (map_to_list (ps_workerViews s)))
  end.

(** [upsertWorkerModelPlacementLocked] *)
Definition upsertWorkerModelPlacementLocked (s : PlacementState) (key : modelKey)
    (workerID : string) (view : workerView) : PlacementState :=
  let s := ensureModelPlacementLocked s key in
  let st := ps_llmPlacement s in
  with_store s (upsertWorkerModelPlacementInnerLocked st key workerID view (heaps_of st key)).

(** [refreshWorkerPlacementLocked]: every model either view caches, and every
    model with an index. *)
Definition affected_models (s : PlacementState) (view previous : workerView) : gset modelKey :=
  wv_cachedModels previous ∪ wv_cachedModels view ∪ dom (mp_byModel (ps_llmPlacement s)).

Definition refreshWorkerPlacementLocked (s : PlacementState) (workerID : string)
    (view previous : workerView) : PlacementState :=
  foldl (λ s key, upsertWorkerModelPlacementLocked s key workerID view) s
    (elements (affected_models s view previous)).

(** [removeWorkerPlacementIndexLocked] *)
Definition remove_heaps (workerID : string) (heaps : modelPlacementHeaps) : modelPlacementHeaps :=
  {| mh_cached := remove (mh_cached heaps) workerID; mh_cold := remove (mh_cold heaps) workerID;
     mh_predicted := remove (mh_predicted heaps) workerID |}.
Definition removeWorkerPlacementIndexLocked (s : PlacementState) (workerID : string) : PlacementState :=
  let st := ps_llmPlacement s in
  with_store s {| mp_byModel := remove_heaps workerID <$> mp_byModel st;
                  mp_workerCached := delete workerID (mp_workerCached st);
                  mp_llmStats := mp_llmStats st |}.

(** [addWorkerPlacementLocked] *)
Definition zero_placement : modelPlacement := {| cachedWorkers := ∅; coldWorkers := ∅ |}.
Definition addWorkerPlacementLocked (placement : gmap modelKey modelPlacement) (worker : workerView) :
    gmap modelKey modelPlacement :=
  foldl (λ pl key,
    let p := default zero_placement (pl !! key) in
    <[key := {| cachedWorkers := {[wv_workerID worker]} ∪ cachedWorkers p;
                coldWorkers := coldWorkers p ∖ {[wv_workerID worker]} |}]> pl)
    placement (elements (wv_cachedModels worker)).

(** [removeWorkerPlacementLocked] *)
Definition removeWorkerPlacementLocked (placement : gmap modelKey modelPlacement) (worker : workerView) :
    gmap modelKey modelPlacement :=
  omap (λ p,
    let p := {| cachedWorkers := cachedWorkers p ∖ {[wv_workerID worker]};
                coldWorkers := coldWorkers p ∖ {[wv_workerID worker]} |} in
    if decide (cachedWorkers p = ∅ ∧ coldWorkers p = ∅) then None else Some p) placement.

(** The fields of [metadata.Worker] the scheduler reads. *)
Record Worker := {
  wk_WorkerID : string;
  wk_CachedModels : gmap string bool;
  wk_Capacity : Z;
  wk_RunningTasks : Z;
  wk_LastHeartbeat : Z
}.
Definition zero_view : workerView :=
  {| wv_workerID := ""; wv_cachedModels := ∅; wv_capacity := 0; wv_runningTasks := 0;
     wv_lastHeartbeat := 0 |}.

Definition view_of (worker : Worker) : workerView :=
  {| wv_workerID := wk_WorkerID worker; wv_cachedModels := modelKeySet (wk_CachedModels worker);
     wv_capacity := if wk_Capacity worker =? 0 then 1 else wk_Capacity worker;
     wv_runningTasks := wk_RunningTasks worker; wv_lastHeartbeat := wk_LastHeartbeat worker |}.

(** [Scheduler.UpsertWorker] *)
Definition UpsertWorker (s : PlacementState) (worker : Worker) : PlacementState :=
  if str_empty (wk_WorkerID worker) then s
  else
    let '(s, previous) :=
      match ps_workerViews s !! wk_WorkerID worker with
      | Some prev =>
          let s := {| ps_workerViews := ps_workerViews s;
                      ps_placement := removeWorkerPlacementLocked (ps_placement s) prev;
                      ps_llmPlacement := ps_llmPlacement s |} in
          (removeWorkerPlacementIndexLocked s (wk_WorkerID worker), prev)
      | None => (s, zero_view)
      end in
    let view := view_of worker in
    let s := {| ps_workerViews := <[wk_WorkerID worker := view]> (ps_workerViews s);
                ps_placement := addWorkerPlacementLocked (ps_placement s) view;
                ps_llmPlacement := ps_llmPlacement s |} in
    refreshWorkerPlacementLocked s (wk_WorkerID worker) view previous.

Definition put_stats (st : modelPlacementStore) (key : modelKey) (workerID : string)
    (stats : llmWorkerStats) : modelPlacementStore :=
  {| mp_byModel := mp_byModel st; mp_workerCached := mp_workerCached st;
     mp_llmStats := <[key := <[workerID := stats]> (default ∅ (mp_llmStats st !! key))]> (mp_llmStats st) |}.

(** [UpdateLLMStats] *)
Definition UpdateLLMStats (s : PlacementState) (modelName modelVersion workerID : string)
    (stats : llmWorkerStats) : PlacementState :=
  if str_empty workerID || str_empty modelName then s
  else
    let key := modelKeyFromParts modelName modelVersion in
    let s := with_store s (put_stats (ps_llmPlacement s) key workerID stats) in
    match ps_workerViews s !! workerID with
    | None => s
    | Some view => upsertWorkerModelPlacementLocked s key workerID view
    end.

(** [syncLLMStatsLocked], in the map's iteration order. *)
Definition syncLLMStatsLocked (s : PlacementState) (stats : list (modelKey * string * llmWorkerStats)) :
    PlacementState :=
  foldl (λ s '(key, workerID, item),
    let key := modelKeyFromParts (mk_name key) (mk_version key) in
    let s := with_store s (put_stats (ps_llmPlacement s) key workerID item) in
    match ps_workerViews s !! workerID with
    | None => s
    | Some view => upsertWorkerModelPlacementLocked s key workerID view
    end) s stats.

(** [WorkerCount] *)
Definition WorkerCount (s : PlacementState) : nat := size (ps_workerViews s).

(** The scans for the best worker: keep the strictly better, or the equal one
    with the smaller ID. *)
Definition better (less : Z → Z → bool) (score : Z) (workerID : string) (best : string * Z) : bool :=
  str_empty best.1 || less best.2 score ||
  ((score =? best.2) && bool_decide (String.le workerID best.1 ∧ workerID ≠ best.1)).

(** [PreferredPredictedWorker] *)
Definition PreferredPredictedWorker (s : PlacementState) (key : modelKey) (queueDelayMs waitMs : Z) :
    PlacementState * string :=
  let s := ensureModelPlacementLocked s key in
  let best := foldl (λ best e,
    match ps_workerViews s !! pe_workerID e with
    | Some view =>
        if hasCapacity view then
          let predicted := i64 (pe_predictScore e + wv_runningTasks view * 50) in
          let predicted := if (waitMs <? queueDelayMs) && negb (bool_decide (key ∈ wv_cachedModels view))
                           then i64 (predicted - 25) else predicted in
          if better (λ a b, b <? a) predicted (pe_workerID e) best
          then (pe_workerID e, predicted) else best
        else best
    | None => best
    end) (EmptyString, 2 ^ 62 - 1) (ph_entries (mh_predicted (heaps_of (ps_llmPlacement s) key))) in
  (s, best.1).

(** [preferredLocalityFromPlacementLocked] *)
Definition preferredLocalityFromPlacementLocked (s : PlacementState) (key : modelKey)
    (queueDelayMs waitMs : Z) : PlacementState * string :=
  let s := ensureModelPlacementLocked s key in
  let heaps := heaps_of (ps_llmPlacement s) key in
  let hasCachedAvailable := hasCapacityLocked (mh_cached heaps) (ps_workerViews s) in
  let cachedBest := bestWorkerID (mh_cached heaps) (ps_workerViews s) in
  if negb (str_empty cachedBest) then (s, cachedBest)
  else
    let best := foldl (λ best e,
      match ps_workerViews s !! pe_workerID e with
      | Some view =>
          if hasCapacity view then
            let score := if hasCachedAvailable && (queueDelayMs <? waitMs)
                         then pe_localityScore e - 1000 else pe_localityScore e in
            if better (λ a b, a <? b) score (pe_workerID e) best
            then (pe_workerID e, score) else best
          else best
      | None => best
      end) (EmptyString, - 2 ^ 60) (ph_entries (mh_cold heaps)) in
    (s, best.1).

(** [PreferredLocalityWorker] *)
Definition PreferredLocalityWorker (s : PlacementState) (key : modelKey)
    (createdAtMs nowMs waitMs : Z) : PlacementState * string :=
  let queueDelayMs := if (0 <? createdAtMs) && (createdAtMs <? nowMs) then nowMs - createdAtMs else 0 in
  preferredLocalityFromPlacementLocked s key queueDelayMs waitMs.

(** [cachedWorkerHasCapacityLocked] *)
Definition cachedWorkerHasCapacityLocked (s : PlacementState) (key : modelKey) : bool :=
  existsb (λ workerID, match ps_workerViews s !! workerID with
                       | Some worker => hasCapacity worker | None => false end)
    (elements (cachedWorkers (default zero_placement (ps_placement s !! key)))).

(** ** Each sorted list is a finite map *)

Definition ids (l : list placementEntry) : list string := map pe_workerID l.
Definition heap_map (h : placementHeap) : gmap string placementEntry :=
  list_to_map (map (λ e, (pe_workerID e, e)) (ph_entries h)).

Record heap_ok (le : placementEntry → placementEntry → Prop) (h : placementHeap) : Prop := {
  ho_sorted : StronglySorted le (ph_entries h);
  ho_nodup : NoDup (ids (ph_entries h));
  ho_index : ph_byID h = index_ids 0 (ids (ph_entries h)) ∅
}.

#[export] Instance locality_le_trans : Transitive locality_le.
Proof. intros a b c [?|[? ?]] [?|[? ?]]; [left; lia|left; lia|left; lia|right]. split; [lia|by etrans]. Qed.
#[export] Instance locality_le_total : Total locality_le.
Proof.
  intros a b. unfold locality_le.
  destruct (Z.lt_trichotomy (pe_localityScore a) (pe_localityScore b)) as [?|[Heq|?]]; [auto| |auto].
  rewrite Heq. destruct (total String.le (pe_workerID a) (pe_workerID b)); auto.
Qed.
#[export] Instance predict_le_trans : Transitive predict_le.
Proof. intros a b c [?|[? ?]] [?|[? ?]]; [left; lia|left; lia|left; lia|right]. split; [lia|by etrans]. Qed.
#[export] Instance predict_le_total : Total predict_le.
Proof.
  intros a b. unfold predict_le.
  destruct (Z.lt_trichotomy (pe_predictScore a) (pe_predictScore b)) as [?|[Heq|?]]; [auto| |auto].
  rewrite Heq. destruct (total String.le (pe_workerID a) (pe_workerID b)); auto.
Qed.

Section Heap.
Context (le : placementEntry → placementEntry → Prop) `{!RelDecision le, !Transitive le, !Total le}.

Lemma empty_heap_ok : heap_ok le empty_heap.
Proof. split; [constructor|constructor|done]. Qed.

Lemma heap_map_keys l : (map (λ e, (pe_workerID e, e)) l).*1 = ids l.
Proof. unfold ids. induction l; [done|]. simpl. by f_equal. Qed.

Lemma heap_map_lookup h w e :
  NoDup (ids (ph_entries h)) →
  heap_map h !! w = Some e ↔ e ∈ ph_entries h ∧ pe_workerID e = w.
Proof.
  intros Hnd. unfold heap_map. rewrite <- elem_of_list_to_map by (by rewrite heap_map_keys).
  rewrite list_elem_of_fmap. naive_solver.
Qed.

Lemma heap_map_None h w : heap_map h !! w = None ↔ w ∉ ids (ph_entries h).
Proof.
  unfold heap_map. rewrite <- not_elem_of_list_to_map. by rewrite heap_map_keys.
Qed.

Lemma heap_find_Some h w i :
  heap_ok le h → heap_find h w = Some i ↔ ids (ph_entries h) !! i = Some w.
Proof.
  intros [_ Hnd Hix]. unfold heap_find. rewrite Hix.
  destruct (index_ids 0 (ids (ph_entries h)) ∅ !! w) as [k|] eqn:Hk.
  - apply index_ids_lookup in Hk as (j & -> & Hj); [|done|apply lookup_empty]. simpl.
    assert (∃ e, ph_entries h !! j = Some e ∧ pe_workerID e = w) as (e & He & Hw).
    { unfold ids in Hj. rewrite list_lookup_fmap in Hj. destruct (ph_entries h !! j); naive_solver. }
    rewrite He, decide_True by done. split; [by intros [= <-]|].
    intros Hi. f_equal. by eapply (NoDup_lookup_inj (ids (ph_entries h))).
  - split; [done|]. intros Hi.
    assert (index_ids 0 (ids (ph_entries h)) ∅ !! w = Some i); [|congruence].
    apply index_ids_lookup; [done|apply lookup_empty|]. by exists i.
Qed.

Lemma heap_find_None h w : heap_ok le h → heap_find h w = None → w ∉ ids (ph_entries h).
Proof.
  intros Hok Hf Hin. apply list_elem_of_lookup in Hin as [i Hi].
  apply (heap_find_Some h w i Hok) in Hi. congruence.
Qed.

Lemma list_to_map_perm (l1 l2 : list placementEntry) :
  NoDup (ids l1) → l1 ≡ₚ l2 →
  (list_to_map (map (λ e, (pe_workerID e, e)) l1) : gmap string placementEntry)
  = list_to_map (map (λ e, (pe_workerID e, e)) l2).
Proof.
  intros Hnd Hp. apply list_to_map_proper; [by rewrite heap_map_keys|]. by rewrite Hp.
Qed.

(** [remove] deletes the worker. *)
Lemma remove_ok h w : heap_ok le h → heap_ok le (remove h w) ∧ heap_map (remove h w) = delete w (heap_map h).
Proof.
  intros Hok. pose proof Hok as [Hs Hnd Hix]. unfold remove.
  destruct (heap_find h w) as [i|] eqn:Hf.
  - apply (heap_find_Some h w i Hok) in Hf. pose proof Hf as Hi. unfold ids in Hi.
    rewrite list_lookup_fmap in Hi. destruct (ph_entries h !! i) as [e|] eqn:He; [|done].
    simpl in Hi. injection Hi as Hw. pose proof (take_drop_middle _ _ _ He) as Hsplit.
    rewrite <- Hsplit in Hs, Hnd. unfold ids in Hnd. rewrite map_app in Hnd. simpl in Hnd.
    apply NoDup_app in Hnd as (Hnd1 & Hdis & Hnd2). apply NoDup_cons in Hnd2 as [Hni Hnd2].
    assert (Hnd' : NoDup (ids (take i (ph_entries h) ++ drop (S i) (ph_entries h)))).
    { unfold ids. rewrite map_app. apply NoDup_app. split_and!; [done| |done].
      intros x Hx Hx'. apply (Hdis x Hx). by right. }
    split.
    + split; [|done|done]. simpl. apply StronglySorted_app in Hs as (Hx & Hs1 & Hs2).
      apply StronglySorted_cons in Hs2 as [_ Hs2]. apply StronglySorted_app.
      split_and!; [|done|done]. intros x y Hx1 Hy. apply Hx; [done|by right].
    + apply map_eq. intros k. apply option_eq. intros e'.
      rewrite lookup_delete_Some, !heap_map_lookup by (done || by destruct Hok).
      simpl. rewrite <- (take_drop_middle (ph_entries h) i e He) at 3. rewrite !elem_of_app, elem_of_cons.
      split.
      * intros [Hin <-]. split; [|tauto]. intros Hwe. destruct Hin as [Hin|Hin].
        -- apply (Hdis w); [|rewrite Hw; left]. rewrite Hwe. apply list_elem_of_fmap. eauto.
        -- apply Hni. rewrite Hw, Hwe. apply list_elem_of_fmap. eauto.
      * intros [Hne [[Hin|[->|Hin]] <-]]; [tauto|congruence|tauto].
  - pose proof (heap_find_None h w Hok Hf) as Hni. split.
    + split; simpl; [done..|]. rewrite Hix. apply delete_id.
      by rewrite index_ids_notin.
    + symmetry. apply delete_id. by apply heap_map_None.
Qed.

(** [upsert] inserts the entry. *)
Lemma put_ok h e :
  heap_ok le h → heap_ok le (put le h e) ∧ heap_map (put le h e) = <[pe_workerID e := e]> (heap_map h).
Proof.
  intros Hok. pose proof Hok as [Hs Hnd Hix]. unfold put.
  set (entries := match heap_find h (pe_workerID e) with Some idx => _ | None => _ end).
  assert (Hent : NoDup (ids entries) ∧
    ∀ e', e' ∈ entries ↔ e' = e ∨ e' ∈ ph_entries h ∧ pe_workerID e' ≠ pe_workerID e).
  { unfold entries. destruct (heap_find h (pe_workerID e)) as [i|] eqn:Hf.
    - apply (heap_find_Some h _ i Hok) in Hf. pose proof Hf as Hi. unfold ids in Hi.
      rewrite list_lookup_fmap in Hi. destruct (ph_entries h !! i) as [old|] eqn:He; [|done].
      simpl in Hi. injection Hi as Hw. split.
      + unfold ids. change (map pe_workerID) with (fmap (M := list) pe_workerID).
        rewrite list_fmap_insert, list_insert_id; [done|]. by rewrite list_lookup_fmap, He; simpl; rewrite Hw.
      + intros e'. rewrite list_elem_of_lookup. split.
        * intros [j Hj]. apply list_lookup_insert_Some in Hj as [(-> & -> & _)|[Hne Hj]]; [by left|right].
          split; [by eapply list_elem_of_lookup_2|]. intros Hid. apply Hne.
          apply (NoDup_lookup_inj (ids (ph_entries h)) _ _ (pe_workerID e)); [done|done|].
          unfold ids. rewrite list_lookup_fmap, Hj. simpl. by rewrite Hid.
        * intros [->|[Hin Hne]].
          -- exists i. apply list_lookup_insert_eq. by eapply lookup_lt_Some.
          -- apply list_elem_of_lookup in Hin as [j Hj]. exists j. rewrite list_lookup_insert_ne; [done|].
             intros ->. congruence.
    - pose proof (heap_find_None h _ Hok Hf) as Hni. split.
      + unfold ids. rewrite map_app. apply NoDup_app. split_and!; [done| |apply NoDup_singleton].
        intros x Hx ->%list_elem_of_singleton. done.
      + intros e'. rewrite elem_of_app, list_elem_of_singleton. split; [|tauto].
        intros [Hin| ->]; [right|by left]. split; [done|]. intros Hid. apply Hni. rewrite <- Hid.
        apply list_elem_of_fmap. eauto. }
  destruct Hent as [Hnd' Hel].
  assert (Hp : merge_sort le entries ≡ₚ entries) by apply merge_sort_Permutation.
  assert (Hnd'' : NoDup (ids (merge_sort le entries))) by (unfold ids; by rewrite Hp).
  split.
  - split; [apply (StronglySorted_merge_sort le)|done|done].
  - apply map_eq. intros k. apply option_eq. intros e'.
    rewrite lookup_insert_Some, !heap_map_lookup by done. simpl. rewrite Hp, Hel. naive_solver.
Qed.
End Heap.

(** ** What the lists should hold *)

Definition expect_cached (st : modelPlacementStore) (key : modelKey) (w : string)
    (view : option workerView) : option placementEntry :=
  v ← view;
  let score := localityBaseScore v true in
  if bool_decide (key ∈ wv_cachedModels v) && negb (score <=? - 2 ^ 59)
  then Some {| pe_workerID := w; pe_localityScore := score;
               pe_predictScore := predictedPlacementScore v (placementStatsLocked st key w) true |}
  else None.

Definition expect_cold (st : modelPlacementStore) (key : modelKey) (w : string)
    (view : option workerView) : option placementEntry :=
  v ← view;
  let score := localityBaseScore v false in
  if negb (bool_decide (key ∈ wv_cachedModels v)) && negb (score <=? - 2 ^ 59)
  then Some {| pe_workerID := w; pe_localityScore := score;
               pe_predictScore := predictedPlacementScore v (placementStatsLocked st key w) false |}
  else None.

Definition expect_predicted (st : modelPlacementStore) (key : modelKey) (w : string)
    (view : option workerView) : option placementEntry :=
  v ← view;
  let score := predictedPlacementScore v (placementStatsLocked st key w)
                 (bool_decide (key ∈ wv_cachedModels v)) in
  if 2 ^ 61 <=? score then None
  else Some {| pe_workerID := w; pe_localityScore := 0; pe_predictScore := score |}.

Definition heaps_ok (h : modelPlacementHeaps) : Prop :=
  heap_ok locality_le (mh_cached h) ∧ heap_ok locality_le (mh_cold h) ∧
  heap_ok predict_le (mh_predicted h).

(** The three lists at one worker. *)
Definition exact_at (s : PlacementState) (key : modelKey) (h : modelPlacementHeaps) (w : string) : Prop :=
  let view := ps_workerViews s !! w in
  let st := ps_llmPlacement s in
  heap_map (mh_cached h) !! w = expect_cached st key w view ∧
  heap_map (mh_cold h) !! w = expect_cold st key w view ∧
  heap_map (mh_predicted h) !! w = expect_predicted st key w view.

Lemma empty_heaps_ok : heaps_ok empty_heaps.
Proof. split_and!; apply empty_heap_ok. Qed.

Lemma lookup_put le `{!RelDecision le, !Transitive le, !Total le} h e w :
  heap_ok le h →
  heap_map (put le h e) !! w = if decide (w = pe_workerID e) then Some e else heap_map h !! w.
Proof.
  intros Hok. destruct (put_ok le h e Hok) as [_ ->]. case_decide as Hw.
  - subst. apply lookup_insert_eq.
  - by apply lookup_insert_ne.
Qed.

Lemma lookup_remove le h w w' :
  heap_ok le h →
  heap_map (remove h w) !! w' = if decide (w' = w) then None else heap_map h !! w'.
Proof.
  intros Hok. destruct (remove_ok le h w Hok) as [_ ->]. case_decide as Hw.
  - subst. apply lookup_delete_eq.
  - by apply lookup_delete_ne.
Qed.

(** Placing a worker fixes the lists at that worker and nowhere else. *)
Lemma place_worker_ok s key w view h :
  heaps_ok h → wv_workerID view = w → w ≠ EmptyString → ps_workerViews s !! w = Some view →
  let h' := place_worker (ps_llmPlacement s) key w view h in
  heaps_ok h' ∧ exact_at s key h' w ∧
  ∀ w', w' ≠ w → exact_at s key h w' → exact_at s key h' w'.
Proof.
  intros (Hc & Hd & Hp) Hid Hne Hv. unfold place_worker, workerPlacementActive.
  rewrite Hid. apply str_empty_false in Hne. rewrite Hne. cbn [negb].
  unfold exact_at. rewrite Hv. cbn [mbind option_bind].
  unfold expect_cached, expect_cold, expect_predicted. cbn [mbind option_bind].
  assert (Hpred : ∀ score, heap_ok predict_le (predict_upsert (mh_predicted h) w score) ∧
    ∀ w', heap_map (predict_upsert (mh_predicted h) w score) !! w' =
      if decide (w' = w) then
        (if 2 ^ 61 <=? score then None
         else Some {| pe_workerID := w; pe_localityScore := 0; pe_predictScore := score |})
      else heap_map (mh_predicted h) !! w').
  { intros score. unfold predict_upsert. destruct (2 ^ 61 <=? score).
    - split; [by apply (remove_ok predict_le)|]. intros w'. by apply (lookup_remove predict_le).
    - split; [by apply (put_ok predict_le)|]. intros w'. by rewrite (lookup_put predict_le). }
  assert (Hloc : ∀ hh loc pred, heap_ok locality_le hh → heap_ok locality_le (upsert hh w loc pred) ∧
    ∀ w', heap_map (upsert hh w loc pred) !! w' =
      if decide (w' = w) then
        (if negb (loc <=? - 2 ^ 59)
         then Some {| pe_workerID := w; pe_localityScore := loc; pe_predictScore := pred |} else None)
      else heap_map hh !! w').
  { intros hh loc pred Hhh. unfold upsert. destruct (loc <=? - 2 ^ 59).
    - split; [by apply (remove_ok locality_le)|]. intros w'. by apply (lookup_remove locality_le).
    - split; [by apply (put_ok locality_le)|]. intros w'. by rewrite (lookup_put locality_le). }
  assert (Hrem : ∀ hh, heap_ok locality_le hh → heap_ok locality_le (remove hh w) ∧
    ∀ w', heap_map (remove hh w) !! w' = if decide (w' = w) then None else heap_map hh !! w').
  { intros hh Hhh. split; [by apply (remove_ok locality_le)|].
    intros w'. by apply (lookup_remove locality_le). }
  destruct (bool_decide (key ∈ wv_cachedModels view)) eqn:Hhit; cbn [negb andb mh_cached mh_cold mh_predicted].
  - destruct (Hloc (mh_cached h) (localityBaseScore view true)
      (predictedPlacementScore view (placementStatsLocked (ps_llmPlacement s) key w) true) Hc) as [Hok1 Hl1].
    destruct (Hrem (mh_cold h) Hd) as [Hok2 Hl2]. destruct (Hpred
      (predictedPlacementScore view (placementStatsLocked (ps_llmPlacement s) key w) true)) as [Hok3 Hl3].
    split; [done|]. split.
    + rewrite Hl1, Hl2, Hl3, !decide_True by done. done.
    + intros w' Hw'. rewrite Hl1, Hl2, Hl3, !decide_False by done. done.
  - destruct (Hloc (mh_cold h) (localityBaseScore view false)
      (predictedPlacementScore view (placementStatsLocked (ps_llmPlacement s) key w) false) Hd) as [Hok1 Hl1].
    destruct (Hrem (mh_cached h) Hc) as [Hok2 Hl2]. destruct (Hpred
      (predictedPlacementScore view (placementStatsLocked (ps_llmPlacement s) key w) false)) as [Hok3 Hl3].
    split; [done|]. split.
    + rewrite Hl1, Hl2, Hl3, !decide_True by done. done.
    + intros w' Hw'. rewrite Hl1, Hl2, Hl3, !decide_False by done. done.
Qed.

Definition views_ok (s : PlacementState) : Prop :=
  ∀ w v, ps_workerViews s !! w = Some v → wv_workerID v = w ∧ w ≠ EmptyString.

Lemma stats_same st st' key w :
  mp_llmStats st = mp_llmStats st' → placementStatsLocked st key w = placementStatsLocked st' key w.
Proof. unfold placementStatsLocked. by intros ->. Qed.

Lemma place_worker_same st st' key w view h :
  mp_llmStats st = mp_llmStats st' → place_worker st key w view h = place_worker st' key w view h.
Proof. intros Hs. unfold place_worker. by rewrite (stats_same st st'). Qed.

Lemma exact_at_same s s' key h w :
  ps_workerViews s !! w = ps_workerViews s' !! w →
  placementStatsLocked (ps_llmPlacement s) key w = placementStatsLocked (ps_llmPlacement s') key w →
  exact_at s key h w ↔ exact_at s' key h w.
Proof.
  intros Hv Hs. unfold exact_at, expect_cached, expect_cold, expect_predicted.
  by rewrite Hv, Hs.
Qed.

Lemma seed_ok s key l st h :
  views_ok s → (∀ w v, (w, v) ∈ l → ps_workerViews s !! w = Some v) →
  mp_llmStats st = mp_llmStats (ps_llmPlacement s) → mp_byModel st !! key = Some h → heaps_ok h →
  ∃ h', mp_byModel (seed_workers st key l) = <[key := h']> (mp_byModel st) ∧
    mp_llmStats (seed_workers st key l) = mp_llmStats st ∧ heaps_ok h' ∧
    (∀ w, w ∈ l.*1 → exact_at s key h' w) ∧
    (∀ w, exact_at s key h w → exact_at s key h' w).
Proof.
  intros Hvok. revert st h. induction l as [|[w v] l IH]; intros st h Hl Hst Hkey Hh; simpl.
  { exists h. rewrite insert_id by done. split_and!; try done.
    intros w Hw. by apply not_elem_of_nil in Hw. }
  assert (Hv : ps_workerViews s !! w = Some v) by (apply Hl; by left).
  destruct (Hvok w v Hv) as [Hid Hne]. unfold heaps_of. rewrite Hkey. simpl.
  destruct (place_worker_ok s key w v h Hh Hid Hne Hv) as (Hh1 & Hat & Hother).
  rewrite <- (place_worker_same st (ps_llmPlacement s)) in * by done.
  set (h1 := place_worker st key w v h) in *.
  set (st1 := upsertWorkerModelPlacementInnerLocked st key w v h).
  destruct (IH st1 h1) as (h' & Hby & Hstats & Hh' & Hin & Hkeep); try done.
  { intros w' v' Hw'. apply Hl. by right. }
  { apply lookup_insert_eq. }
  change (foldl _ st1 l) with (seed_workers st1 key l). exists h'. rewrite Hby, Hstats.
  split_and!; try done.
  - simpl. by rewrite insert_insert_eq.
  - intros w' [->|Hw']%elem_of_cons; [by apply Hkeep|by apply Hin].
  - intros w' Hw'. apply Hkeep. destruct (decide (w' = w)) as [->|Hww]; [done|by apply Hother].
Qed.

(** Every model's lists are exact, except possibly at worker [w] for the
    models still to be refreshed. *)
Definition exact_but (w : string) (todo : modelKey → Prop) (s : PlacementState) : Prop :=
  views_ok s ∧ ∀ key h, mp_byModel (ps_llmPlacement s) !! key = Some h →
    heaps_ok h ∧ ∀ w', w' ≠ w ∨ ¬ todo key → exact_at s key h w'.

Definition placement_exact (s : PlacementState) : Prop :=
  views_ok s ∧ ∀ key h, mp_byModel (ps_llmPlacement s) !! key = Some h →
    heaps_ok h ∧ ∀ w, exact_at s key h w.

(** Creating a model's lists seeds them with every worker. *)
Lemma ensure_spec s key :
  views_ok s →
  (∀ h, mp_byModel (ps_llmPlacement s) !! key = Some h → heaps_ok h) →
  let s' := ensureModelPlacementLocked s key in
  ps_workerViews s' = ps_workerViews s ∧ ps_placement s' = ps_placement s ∧
  mp_llmStats (ps_llmPlacement s') = mp_llmStats (ps_llmPlacement s) ∧
  ∃ h', mp_byModel (ps_llmPlacement s') = <[key := h']> (mp_byModel (ps_llmPlacement s)) ∧
    heaps_ok h' ∧
    (mp_byModel (ps_llmPlacement s) !! key = Some h' ∨
     mp_byModel (ps_llmPlacement s) !! key = None ∧ ∀ w, exact_at s key h' w).
Proof.
  intros Hv Hok. unfold ensureModelPlacementLocked.
  destruct (mp_byModel (ps_llmPlacement s) !! key) as [h|] eqn:Hkey.
  { split_and!; try done. exists h. rewrite insert_id by done. split_and!; auto. }
  set (st := with_byModel _ _).
  destruct (seed_ok s key (map_to_list (ps_workerViews s)) st empty_heaps Hv)
    as (h' & Hby & Hstats & Hh' & Hin & Hkeep); try done.
  { intros w v Hw. by apply elem_of_map_to_list. }
  { apply lookup_insert_eq. }
  { apply empty_heaps_ok. }
  split_and!; try done. exists h'. simpl. rewrite Hby. unfold st at 1. simpl.
  rewrite insert_insert_eq. split_and!; try done. right. split; [done|]. intros w.
  destruct (ps_workerViews s !! w) as [v|] eqn:Hvw.
  - apply Hin. apply list_elem_of_fmap. exists (w, v). split; [done|]. by apply elem_of_map_to_list.
  - apply Hkeep. unfold exact_at. rewrite Hvw. done.
Qed.

(** One refresh makes one more model exact at [w]. *)
Lemma refresh_one w todo s key view :
  exact_but w todo s → ps_workerViews s !! w = Some view →
  let s' := upsertWorkerModelPlacementLocked s key w view in
  exact_but w (λ k, todo k ∧ k ≠ key) s' ∧ ps_workerViews s' = ps_workerViews s ∧
  mp_llmStats (ps_llmPlacement s') = mp_llmStats (ps_llmPlacement s) ∧
  dom (mp_byModel (ps_llmPlacement s')) = {[key]} ∪ dom (mp_byModel (ps_llmPlacement s)).
Proof.
  intros [Hv Hex] Hview. unfold upsertWorkerModelPlacementLocked.
  destruct (ensure_spec s key Hv) as (Hviews & _ & Hstats & h & Hby & Hh & Hcase).
  { intros h Hh. by destruct (Hex key h Hh). }
  set (s1 := ensureModelPlacementLocked s key) in *.
  assert (heaps_of (ps_llmPlacement s1) key = h) as ->.
  { unfold heaps_of. rewrite Hby, lookup_insert_eq. done. }
  destruct (Hv w view Hview) as [Hid Hne].
  destruct (place_worker_ok s key w view h Hh Hid Hne Hview) as (Hh1 & Hat & Hother).
  rewrite <- (place_worker_same (ps_llmPlacement s1)) in * by done.
  assert (Hsame : ∀ k hh w', exact_at (with_store s1 (upsertWorkerModelPlacementInnerLocked
      (ps_llmPlacement s1) key w view h)) k hh w' ↔ exact_at s k hh w').
  { intros k hh w'. apply exact_at_same; simpl; [by rewrite Hviews|by apply stats_same]. }
  split; [|split_and!; simpl; try done; rewrite Hby, insert_insert_eq; by rewrite dom_insert_L].
  split. { intros w' v'. simpl. rewrite Hviews. apply Hv. }
  intros k hk Hk. simpl in Hk. rewrite Hby, insert_insert_eq in Hk.
  apply lookup_insert_Some in Hk as [[<- <-]|[Hne' Hk]].
  - split; [done|]. intros w' _. apply Hsame. destruct (decide (w' = w)) as [->|Hww]; [done|].
    apply Hother; [done|]. destruct Hcase as [Hcase|[_ Hcase]]; [|apply Hcase].
    destruct (Hex key h Hcase) as [_ Hex']. apply Hex'. by left.
  - destruct (Hex k hk Hk) as [Hok Hex']. split; [done|]. intros w' Hw'. apply Hsame, Hex'.
    destruct Hw' as [|Hn]; [by left|right]. intros Ht. by apply Hn.
Qed.

Lemma refresh_all w s keys view todo :
  exact_but w todo s → ps_workerViews s !! w = Some view →
  let s' := foldl (λ s key, upsertWorkerModelPlacementLocked s key w view) s keys in
  exact_but w (λ k, todo k ∧ k ∉ keys) s' ∧
  dom (mp_byModel (ps_llmPlacement s')) = list_to_set keys ∪ dom (mp_byModel (ps_llmPlacement s)).
Proof.
  revert s todo. induction keys as [|key keys IH]; intros s todo Hex Hview; simpl.
  { split; [|set_solver]. destruct Hex as [Hv Hex]. split; [done|]. intros k h Hk.
    destruct (Hex k h Hk) as [? Hx]. split; [done|]. intros w' Hw'. apply Hx.
    destruct Hw' as [|Hn]; [by left|right]. intros Ht. apply Hn. split; [done|apply not_elem_of_nil]. }
  destruct (refresh_one w todo s key view Hex Hview) as (Hex1 & Hv1 & Hs1 & Hdom1).
  destruct (IH _ _ Hex1) as (Hex2 & Hdom2); [by rewrite Hv1|]. split.
  - destruct Hex2 as [Hv Hex2]. split; [done|]. intros k h Hk.
    destruct (Hex2 k h Hk) as [? Hx]. split; [done|]. intros w' Hw'. apply Hx.
    destruct Hw' as [|Hn]; [by left|right]. intros [[Ht Hne] Hnk]. apply Hn. split; [done|].
    by apply not_elem_of_cons.
  - rewrite Hdom2, Hdom1. set_solver.
Qed.

Lemma exact_but_all w todo s :
  exact_but w todo s → (∀ k, k ∈ dom (mp_byModel (ps_llmPlacement s)) → ¬ todo k) → placement_exact s.
Proof.
  intros [Hv Hex] Hdone. split; [done|]. intros k h Hk. destruct (Hex k h Hk) as [? Hx].
  split; [done|]. intros w'. apply Hx. right. apply Hdone, elem_of_dom. eauto.
Qed.

Lemma placement_exact_but w s : placement_exact s → exact_but w (λ _, False) s.
Proof. intros [Hv Hex]. split; [done|]. intros k h Hk. destruct (Hex k h Hk). auto. Qed.

Lemma remove_heaps_ok w h :
  heaps_ok h → heaps_ok (remove_heaps w h) ∧
  (∀ w', w' ≠ w → heap_map (mh_cached (remove_heaps w h)) !! w' = heap_map (mh_cached h) !! w' ∧
     heap_map (mh_cold (remove_heaps w h)) !! w' = heap_map (mh_cold h) !! w' ∧
     heap_map (mh_predicted (remove_heaps w h)) !! w' = heap_map (mh_predicted h) !! w').
Proof.
  intros (Hc & Hd & Hp). split.
  - split_and!; [apply (remove_ok locality_le)|apply (remove_ok locality_le)|apply (remove_ok predict_le)]; done.
  - intros w' Hw'. simpl.
    rewrite (lookup_remove locality_le), (lookup_remove locality_le), (lookup_remove predict_le) by done.
    by rewrite !decide_False.
Qed.

Lemma UpsertWorker_exact s worker : placement_exact s → placement_exact (UpsertWorker s worker).
Proof.
  intros [Hv Hex]. unfold UpsertWorker. destruct (str_empty (wk_WorkerID worker)) eqn:He; [done|].
  apply str_empty_false in He. set (w := wk_WorkerID worker) in *.
  set (view := view_of worker). assert (Hid : wv_workerID view = w) by done.
  destruct (match ps_workerViews s !! w with Some prev => _ | None => _ end) as [s1 previous] eqn:Hs1.
  set (s2 := Build_PlacementState _ _ _).
  assert (Hs2 : exact_but w (λ _, True) s2).
  { assert (Hviews1 : ps_workerViews s1 = ps_workerViews s).
    { destruct (ps_workerViews s !! w); by injection Hs1 as <- _. }
    split.
    { intros w' v'. unfold s2. simpl. rewrite Hviews1.
      intros [[<- <-]|[_ Hv']]%lookup_insert_Some; [done|by apply Hv]. }
    intros k h Hk. unfold s2 in Hk. simpl in Hk.
    assert (∃ h0, mp_byModel (ps_llmPlacement s) !! k = Some h0 ∧ (h = h0 ∨ h = remove_heaps w h0) ∧
      mp_llmStats (ps_llmPlacement s1) = mp_llmStats (ps_llmPlacement s)) as (h0 & Hk0 & Hh & Hst).
    { destruct (ps_workerViews s !! w) as [prev|]; injection Hs1 as <- <-; simpl in Hk.
      - rewrite lookup_fmap in Hk. destruct (mp_byModel (ps_llmPlacement s) !! k) as [h0|]; [|done].
        simpl in Hk. exists h0. split_and!; [done|right; congruence|done].
      - exists h. auto. }
    destruct (Hex k h0 Hk0) as [Hok Hat]. destruct (remove_heaps_ok w h0 Hok) as [Hok' Hrem].
    split; [by destruct Hh as [-> | ->]|]. intros w' [Hw'|Hn]; [|by destruct Hn].
    specialize (Hat w').
    assert (Hsame : ∀ hh, exact_at s2 k hh w' ↔ exact_at s k hh w').
    { intros hh. apply exact_at_same; unfold s2; simpl.
      - by rewrite lookup_insert_ne, Hviews1 by congruence.
      - by apply stats_same. }
    apply Hsame. destruct Hh as [-> | ->]; [done|]. unfold exact_at in *.
    destruct (Hrem w' Hw') as (-> & -> & ->). done. }
  assert (Hview : ps_workerViews s2 !! w = Some view) by apply lookup_insert_eq.
  unfold refreshWorkerPlacementLocked.
  set (keys := elements (affected_models s2 view previous)).
  destruct (refresh_all w s2 keys view _ Hs2 Hview) as [Hfin Hdom].
  apply (exact_but_all w (λ k, True ∧ k ∉ keys)); [done|]. intros k Hk [_ Hn]. apply Hn.
  rewrite Hdom in Hk. unfold keys in *. rewrite list_to_set_elements_L in Hk.
  apply elem_of_elements. unfold affected_models in *. set_solver.
Qed.

Lemma ensure_exact s key : placement_exact s → placement_exact (ensureModelPlacementLocked s key).
Proof.
  intros [Hv Hex]. destruct (ensure_spec s key Hv) as (Hviews & _ & Hstats & h & Hby & Hh & Hcase).
  { intros h Hh. by destruct (Hex key h Hh). }
  split. { intros w v. rewrite Hviews. apply Hv. }
  assert (Hsame : ∀ k hh w, exact_at s k hh w → exact_at (ensureModelPlacementLocked s key) k hh w).
  { intros k hh w. apply exact_at_same; [by rewrite Hviews|by apply stats_same]. }
  intros k hk Hk. rewrite Hby in Hk. apply lookup_insert_Some in Hk as [[<- <-]|[_ Hk]].
  - split; [done|]. intros w. apply Hsame. destruct Hcase as [Hc|[_ Hc]]; [|done].
    by destruct (Hex key h Hc).
  - destruct (Hex k hk Hk) as [? Hx]. split; [done|]. intros w. apply Hsame, Hx.
Qed.

(** A new statistic touches one model and worker, which is then refreshed. *)
Lemma stats_exact s key w item :
  placement_exact s →
  let s1 := with_store s (put_stats (ps_llmPlacement s) key w item) in
  placement_exact (match ps_workerViews s1 !! w with
                   | None => s1
                   | Some view => upsertWorkerModelPlacementLocked s1 key w view
                   end).
Proof.
  intros [Hv Hex] s1.
  assert (Hother : ∀ k hh w', w' ≠ w ∨ k ≠ key → exact_at s k hh w' → exact_at s1 k hh w').
  { intros k hh w' Hne. apply exact_at_same; [done|]. unfold s1, placementStatsLocked. simpl.
    destruct (decide (k = key)) as [->|Hk].
    - destruct Hne as [Hw|]; [|done]. rewrite lookup_insert_eq. simpl. rewrite lookup_insert_ne by done.
      by destruct (mp_llmStats (ps_llmPlacement s) !! key).
    - by rewrite lookup_insert_ne. }
  assert (H1 : exact_but w (λ k, k = key) s1).
  { split; [done|]. intros k h Hk. destruct (Hex k h Hk) as [? Hx]. split; [done|].
    intros w' Hw'. by apply Hother. }
  destruct (ps_workerViews s1 !! w) as [view|] eqn:Hview.
  - destruct (refresh_one w _ s1 key view H1 Hview) as (H2 & _ & _ & _).
    apply (exact_but_all _ _ _ H2). intros k _ [-> ?]. done.
  - destruct H1 as [_ H1]. split; [done|]. intros k h Hk. destruct (H1 k h Hk) as [? Hx].
    split; [done|]. intros w'. destruct (decide (w' = w)) as [->|]; [|apply Hx; by left].
    destruct (Hex k h Hk) as [_ Hx']. specialize (Hx' w). unfold exact_at in *.
    change (ps_workerViews s !! w) with (ps_workerViews s1 !! w) in Hx'. by rewrite Hview in *.
Qed.

Lemma UpdateLLMStats_exact s name version w stats :
  placement_exact s → placement_exact (UpdateLLMStats s name version w stats).
Proof.
  intros Hs. unfold UpdateLLMStats. destruct (str_empty w || str_empty name); [done|].
  by apply (stats_exact s (modelKeyFromParts name version) w stats).
Qed.

Lemma sync_exact s stats : placement_exact s → placement_exact (syncLLMStatsLocked s stats).
Proof.
  revert s. induction stats as [|[[key w] item] stats IH]; intros s Hs; simpl; [done|].
  apply IH. by apply (stats_exact s (modelKeyFromParts (mk_name key) (mk_version key)) w item).
Qed.

(** The states of the placement index. *)
Inductive placement_step : PlacementState → PlacementState → Prop :=
| pl_worker s worker : placement_step s (UpsertWorker s worker)
| pl_stats s name version w stats : placement_step s (UpdateLLMStats s name version w stats)
| pl_sync s stats : placement_step s (syncLLMStatsLocked s stats)
| pl_ensure s key : placement_step s (ensureModelPlacementLocked s key).

Lemma reachable_exact s : star placement_step emptyPlacement s → placement_exact s.
Proof.
  apply star_invariant.
  - intros a b Ha Hab. destruct Hab; auto using UpsertWorker_exact, UpdateLLMStats_exact, sync_exact, ensure_exact.
  - split.
    + intros w v Hw. change ((∅ : gmap string workerView) !! w = Some v) in Hw. by rewrite lookup_empty in Hw.
    + intros k h Hk. change ((∅ : gmap modelKey modelPlacementHeaps) !! k = Some h) in Hk. by rewrite lookup_empty in Hk.
Qed.

(** C36: The placement lists are exact: whatever sequence of worker reports and
    statistics the scheduler processed, for every model it indexes, each of the
    three lists is sorted by its order, indexed by its position map, and holds
    precisely the workers and scores that the current worker views and
    statistics determine (workers without capacity excluded). *)
Theorem placement_index_exact s key h :
  star placement_step emptyPlacement s → mp_byModel (ps_llmPlacement s) !! key = Some h →
  heaps_ok h ∧ ∀ w,
    heap_map (mh_cached h) !! w
      = expect_cached (ps_llmPlacement s) key w (ps_workerViews s !! w) ∧
    heap_map (mh_cold h) !! w
      = expect_cold (ps_llmPlacement s) key w (ps_workerViews s !! w) ∧
    heap_map (mh_predicted h) !! w
      = expect_predicted (ps_llmPlacement s) key w (ps_workerViews s !! w).
Proof. intros [_ Hex]%reachable_exact Hk. exact (Hex key h Hk). Qed.

(** [uint32] counters. *)
Definition view_u32 (v : workerView) : Prop := in_u32 (wv_capacity v) ∧ in_u32 (wv_runningTasks v).
Definition view_u32b (v : workerView) : bool :=
  (0 <=? wv_capacity v) && (wv_capacity v <? 2 ^ 32) &&
  (0 <=? wv_runningTasks v) && (wv_runningTasks v <? 2 ^ 32).

Lemma view_u32b_all (views : gmap string workerView) :
  forallb (λ p, view_u32b p.2) (map_to_list views) = true →
  ∀ w v, views !! w = Some v → view_u32 v.
Proof.
  intros Hf w v Hw. apply elem_of_map_to_list in Hw. rewrite forallb_forall in Hf.
  specialize (Hf (w, v) (proj1 (list_elem_of_In _ _) Hw)). unfold view_u32b in Hf. simpl in Hf.
  unfold view_u32, in_u32. lia.
Qed.

(** A demonstration cluster: [w1] has the model cached, [w2] is idle. *)
Definition demo_worker (id : string) (models : gmap string bool) (capacity running : Z) : Worker :=
  {| wk_WorkerID := id; wk_CachedModels := models; wk_Capacity := capacity;
     wk_RunningTasks := running; wk_LastHeartbeat := 0 |}.
Definition demo_key : modelKey := modelKeyFromParts "llama" "".
Definition demo_placement : PlacementState :=
  UpsertWorker (UpsertWorker (ensureModelPlacementLocked emptyPlacement demo_key)
    (demo_worker "w1" {["llama:v1" := true]} 2 1)) (demo_worker "w2" ∅ 4 0).

Lemma demo_placement_reachable : star placement_step emptyPlacement demo_placement.
Proof.
  unfold demo_placement. eapply star_step; [apply pl_ensure|]. eapply star_step; [apply pl_worker|].
  apply star_one, pl_worker.
Qed.

Lemma placement_index_exact_witness :
  heap_map (mh_cached (heaps_of (ps_llmPlacement demo_placement) demo_key)) !! "w1"
    = Some {| pe_workerID := "w1"; pe_localityScore := 1090; pe_predictScore := 25 |}.
Proof.
  destruct (placement_index_exact demo_placement demo_key
    (heaps_of (ps_llmPlacement demo_placement) demo_key)) as [_ Hx].
  - exact demo_placement_reachable.
  - vm_compute. reflexivity.
  - destruct (Hx "w1") as [-> _]. vm_compute. reflexivity.
Defined.

(** ** The preferred worker *)


(** The sentinel score marks exactly the workers without capacity. *)
Lemma sentinel_capacity v hit :
  view_u32 v → negb (localityBaseScore v hit <=? - 2 ^ 59) = hasCapacity v.
Proof.
  intros [Hc Hr]. unfold localityBaseScore. destruct (hasCapacity v) eqn:Hcap; [|done]. cbn [negb].
  pose proof (u32_range (wv_capacity v - wv_runningTasks v)) as Hu. unfold in_u32 in *.
  apply negb_true_iff, Z.leb_gt. destruct hit; lia.
Qed.

Lemma sorted_find (le : placementEntry → placementEntry → Prop) (P : placementEntry → Prop)
    `{!∀ e, Decision (P e)} l i e e' :
  (∀ a, le a a) → StronglySorted le l → list_find P l = Some (i, e) → e' ∈ l → P e' → le e e'.
Proof.
  intros Hrefl. revert i. induction l as [|a l IH]; intros i Hs Hf Hin HP; [by apply elem_of_nil in Hin|].
  apply StronglySorted_cons in Hs as [Ha Hs]. rewrite Forall_forall in Ha. simpl in Hf.
  destruct (decide (P a)) as [Hd|Hd].
  - injection Hf as _ <-. apply elem_of_cons in Hin as [->|Hin]; [apply Hrefl|by apply Ha].
  - destruct (list_find P l) as [[j b]|] eqn:Hl; [|done]. simpl in Hf. injection Hf as _ <-.
    apply elem_of_cons in Hin as [->|Hin]; [done|]. by apply (IH j).
Qed.

Lemma locality_le_refl a : locality_le a a.
Proof. right. split; [done|]. reflexivity. Qed.

(** The scans of the placement code compute the best scored entry. *)
Section Scan.
Context (score : placementEntry → option Z) (f : Z → Z).
Context (f_inj : ∀ a b, f a = f b → a = b).

Definition scan (init : string * Z) (l : list placementEntry) : string * Z :=
  foldl (λ best e,
    match score e with
    | Some sc => if better (λ a b, f a <? f b) sc (pe_workerID e) best
                 then (pe_workerID e, sc) else best
    | None => best
    end) init l.

Definition scan_best (l : list placementEntry) (b : string * Z) : Prop :=
  (b.1 = EmptyString ∧ ∀ e, e ∈ l → score e = None) ∨
  (∃ e, e ∈ l ∧ score e = Some b.2 ∧ pe_workerID e = b.1 ∧
    ∀ e' sc, e' ∈ l → score e' = Some sc → f sc < f b.2 ∨ sc = b.2 ∧ String.le b.1 (pe_workerID e')).

Lemma scan_spec x l :
  (∀ e, e ∈ l → pe_workerID e ≠ EmptyString) → scan_best l (scan (EmptyString, x) l).
Proof.
  induction l as [|e l IH] using rev_ind; intros Hne.
  { left. split; [done|]. intros e He. by apply elem_of_nil in He. }
  assert (Hne' : ∀ e, e ∈ l → pe_workerID e ≠ EmptyString).
  { intros a Ha. apply Hne, elem_of_app. by left. }
  specialize (IH Hne'). unfold scan in *. rewrite foldl_snoc.
  set (b := foldl _ (EmptyString, x) l) in *. clearbody b.
  assert (Hin : ∀ a, a ∈ l ++ [e] ↔ a ∈ l ∨ a = e) by (intros a; rewrite elem_of_app, list_elem_of_singleton; done).
  destruct (score e) as [sc|] eqn:Hsc.
  - destruct (better _ sc (pe_workerID e) b) eqn:Hb.
    + right. exists e. split_and!; [apply Hin; by right|done|done|]. simpl.
      intros e' sc' [Hl| ->]%Hin Hsc'; [|right; split; [congruence|reflexivity]].
      destruct IH as [[_ Hnone]|(e0 & He0 & Hs0 & Hid & Hmax)]; [rewrite Hnone in Hsc' by done; done|].
      unfold better in Hb. rewrite !orb_true_iff in Hb.
      assert (Hb1 : str_empty b.1 = false) by (apply str_empty_false; rewrite <- Hid; by apply Hne').
      rewrite Hb1 in Hb. destruct (Hmax e' sc' Hl Hsc') as [Hlt|[-> Hle]].
      * left. destruct Hb as [[?|Hb]|[Hb _]%andb_true_iff]; [done|apply Z.ltb_lt in Hb; lia|].
        apply Z.eqb_eq in Hb. by subst.
      * destruct Hb as [[?|Hb]|[Hb Hle']%andb_true_iff]; [done|apply Z.ltb_lt in Hb; by left|].
        apply Z.eqb_eq in Hb. right. split; [done|]. apply bool_decide_eq_true in Hle' as [Hle' _]. by etrans.
    + unfold better in Hb. rewrite !orb_false_iff in Hb. destruct Hb as [[Hb1 Hb2] Hb3].
      apply Z.ltb_ge in Hb2. destruct IH as [[Hb _]|(e0 & He0 & Hs0 & Hid & Hmax)].
      { rewrite Hb in Hb1. done. }
      right. exists e0. split_and!; [apply Hin; by left|done|done|].
      intros e' sc' [Hl| ->]%Hin Hsc'; [by apply (Hmax e')|]. rewrite Hsc in Hsc'. injection Hsc' as <-.
      destruct (decide (f sc < f b.2)) as [?|Hge]; [by left|right].
      assert (sc = b.2) as -> by (apply f_inj; lia). split; [done|].
      rewrite Z.eqb_refl in Hb3. apply bool_decide_eq_false in Hb3.
      destruct (total String.le (pe_workerID e) b.1) as [Hle|]; [|done].
      destruct (decide (pe_workerID e = b.1)) as [->|]; [reflexivity|]. destruct Hb3. done.
  - destruct IH as [[Hb Hnone]|(e0 & He0 & Hs0 & Hid & Hmax)].
    + left. split; [done|]. intros a [?| ->]%Hin; [by apply Hnone|done].
    + right. exists e0. split_and!; [apply Hin; by left|done|done|].
      intros e' sc' [Hl| ->]%Hin Hsc'; [by apply (Hmax e')|congruence].
Qed.
End Scan.

(** ** The specification of a placement decision *)

(** [w] has the highest score among the eligible workers, and the smallest ID
    among those. *)
Definition best_worker (views : gmap string workerView) (elig : string → workerView → bool)
    (score : string → workerView → Z) (w : string) : Prop :=
  ∃ v, views !! w = Some v ∧ elig w v = true ∧
    ∀ w' v', views !! w' = Some v' → elig w' v' = true →
      score w' v' < score w v ∨ score w' v' = score w v ∧ String.le w w'.
Definition no_worker (views : gmap string workerView) (elig : string → workerView → bool) : Prop :=
  ∀ w v, views !! w = Some v → elig w v = false.

Definition has_copy (key : modelKey) (v : workerView) : bool := bool_decide (key ∈ wv_cachedModels v).
Definition cached_eligible (key : modelKey) (w : string) (v : workerView) : bool :=
  has_copy key v && hasCapacity v.
Definition cold_eligible (key : modelKey) (w : string) (v : workerView) : bool :=
  negb (has_copy key v) && hasCapacity v.

(** The latency [PreferredPredictedWorker] compares. *)
Definition delayed_prediction (st : modelPlacementStore) (key : modelKey) (queueDelayMs waitMs : Z)
    (w : string) (v : workerView) : Z :=
  let p := i64 (predictedLatencyMs (has_copy key v) (placementStatsLocked st key w) + wv_runningTasks v * 50) in
  if (waitMs <? queueDelayMs) && negb (has_copy key v) then i64 (p - 25) else p.
Definition predicted_eligible (st : modelPlacementStore) (key : modelKey) (w : string) (v : workerView) : bool :=
  hasCapacity v && (predictedLatencyMs (has_copy key v) (placementStatsLocked st key w) <? 2 ^ 61).

(** A reachable index after [ensureModelPlacementLocked]. *)
Lemma ensure_lists s key :
  placement_exact s →
  let s' := ensureModelPlacementLocked s key in
  ps_workerViews s' = ps_workerViews s ∧
  (∀ w, placementStatsLocked (ps_llmPlacement s') key w = placementStatsLocked (ps_llmPlacement s) key w) ∧
  heaps_ok (heaps_of (ps_llmPlacement s') key) ∧
  ∀ w, exact_at s' key (heaps_of (ps_llmPlacement s') key) w.
Proof.
  intros Hs s'. pose proof (ensure_exact s key Hs) as [_ Hex]. destruct Hs as [Hv Hs].
  destruct (ensure_spec s key Hv) as (Hviews & _ & Hstats & h & Hby & _ & _).
  { intros h Hh. by destruct (Hs key h Hh). }
  assert (Hh : mp_byModel (ps_llmPlacement s') !! key = Some h)
    by (unfold s'; rewrite Hby; apply lookup_insert_eq).
  unfold heaps_of. rewrite Hh. simpl. split; [done|]. split; [|by apply Hex].
  intros w. unfold placementStatsLocked, s'. by rewrite Hstats.
Qed.

Lemma heap_entry le h e : heap_ok le h → e ∈ ph_entries h ↔ heap_map h !! pe_workerID e = Some e.
Proof. intros [_ Hnd _]. rewrite heap_map_lookup by done. naive_solver. Qed.

Section Lists.
Context (s : PlacementState) (key : modelKey) (h : modelPlacementHeaps).
Context (h_ok : heaps_ok h) (h_exact : ∀ w, exact_at s key h w) (views_fine : views_ok s).
Context (views_width : ∀ w v, ps_workerViews s !! w = Some v → view_u32 v).

Lemma cached_entry e :
  e ∈ ph_entries (mh_cached h) ↔ ∃ v, ps_workerViews s !! pe_workerID e = Some v ∧
    cached_eligible key (pe_workerID e) v = true ∧ pe_localityScore e = localityBaseScore v true ∧
    pe_predictScore e = predictedPlacementScore v (placementStatsLocked (ps_llmPlacement s) key (pe_workerID e)) true.
Proof.
  destruct h_ok as (Hok & _ & _). rewrite (heap_entry _ _ _ Hok).
  destruct (h_exact (pe_workerID e)) as (-> & _ & _). unfold expect_cached, cached_eligible, has_copy.
  destruct (ps_workerViews s !! pe_workerID e) as [v|] eqn:Hv; [|by split; [|intros (? & ? & _)]].
  cbn [mbind option_bind]. rewrite (sentinel_capacity v true) by eauto.
  destruct (bool_decide _ && hasCapacity v) eqn:Hc; split.
  - intros [= He]. exists v. rewrite <- He. done.
  - intros (v' & [= <-] & _ & H1 & H2). destruct e as [id sc pr]. simpl in *. by subst.
  - done.
  - intros (v' & [= <-] & ? & _). congruence.
Qed.

Lemma cold_entry e :
  e ∈ ph_entries (mh_cold h) ↔ ∃ v, ps_workerViews s !! pe_workerID e = Some v ∧
    cold_eligible key (pe_workerID e) v = true ∧ pe_localityScore e = localityBaseScore v false ∧
    pe_predictScore e = predictedPlacementScore v (placementStatsLocked (ps_llmPlacement s) key (pe_workerID e)) false.
Proof.
  destruct h_ok as (_ & Hok & _). rewrite (heap_entry _ _ _ Hok).
  destruct (h_exact (pe_workerID e)) as (_ & -> & _). unfold expect_cold, cold_eligible, has_copy.
  destruct (ps_workerViews s !! pe_workerID e) as [v|] eqn:Hv; [|by split; [|intros (? & ? & _)]].
  cbn [mbind option_bind]. rewrite (sentinel_capacity v false) by eauto.
  destruct (negb (bool_decide _) && hasCapacity v) eqn:Hc; split.
  - intros [= He]. exists v. rewrite <- He. done.
  - intros (v' & [= <-] & _ & H1 & H2). destruct e as [id sc pr]. simpl in *. by subst.
  - done.
  - intros (v' & [= <-] & ? & _). congruence.
Qed.

Lemma predicted_entry e :
  e ∈ ph_entries (mh_predicted h) ↔ ∃ v, ps_workerViews s !! pe_workerID e = Some v ∧
    predicted_eligible (ps_llmPlacement s) key (pe_workerID e) v = true ∧ pe_localityScore e = 0 ∧
    pe_predictScore e = predictedLatencyMs (has_copy key v) (placementStatsLocked (ps_llmPlacement s) key (pe_workerID e)).
Proof.
  destruct h_ok as (_ & _ & Hok). rewrite (heap_entry _ _ _ Hok).
  destruct (h_exact (pe_workerID e)) as (_ & _ & ->). unfold expect_predicted, predicted_eligible, has_copy.
  destruct (ps_workerViews s !! pe_workerID e) as [v|] eqn:Hv; [|by split; [|intros (? & ? & _)]].
  cbn [mbind option_bind]. unfold predictedPlacementScore.
  destruct (hasCapacity v) eqn:Hcap; cbn [negb andb].
  - rewrite Z.leb_antisym. destruct (_ <? 2 ^ 61) eqn:Hlt; cbn [negb]; split.
    + intros [= He]. exists v. rewrite <- He. simpl. by rewrite Hcap, Hlt.
    + intros (v' & [= <-] & _ & H1 & H2). destruct e as [id sc pr]. simpl in *. by subst.
    + done.
    + intros (v' & [= <-] & Hc & _). by rewrite Hcap, Hlt in Hc.
  - change (2 ^ 61 <=? 2 ^ 62) with true. split; [done|]. intros (v' & [= <-] & Hc & _).
    by rewrite Hcap in Hc.
Qed.

Lemma view_nonempty w v : ps_workerViews s !! w = Some v → w ≠ EmptyString.
Proof. intros Hv. by destruct (views_fine w v Hv). Qed.
End Lists.

(** The scan over a list that holds exactly the eligible workers. *)
Lemma scan_best_worker (s : PlacementState) (elig : string → workerView → bool)
    (value : string → workerView → Z) (f : Z → Z) (score : placementEntry → option Z)
    (l : list placementEntry) (b : string * Z) :
  (∀ x y, f x = f y ↔ x = y) → views_ok s →
  (∀ e, e ∈ l → ∃ v, ps_workerViews s !! pe_workerID e = Some v ∧ elig (pe_workerID e) v = true ∧
    score e = Some (value (pe_workerID e) v)) →
  (∀ w v, ps_workerViews s !! w = Some v → elig w v = true → ∃ e, e ∈ l ∧ pe_workerID e = w) →
  scan_best score f l b →
  best_worker (ps_workerViews s) elig (λ w v, f (value w v)) b.1 ∨
  b.1 = EmptyString ∧ no_worker (ps_workerViews s) elig.
Proof.
  intros Hf Hv Hl Hall [[Hb Hnone]|(e & He & Hs & Hid & Hmax)].
  - right. split; [done|]. intros w v Hw. destruct (elig w v) eqn:Hel; [|done].
    destruct (Hall w v Hw Hel) as (e & He & _). destruct (Hl e He) as (v' & _ & _ & Hs).
    rewrite Hnone in Hs by done. done.
  - left. destruct (Hl e He) as (v & Hw & Hel & Hs'). rewrite Hid in *. exists v. split_and!; [done..|].
    intros w' v' Hw' Hel'. destruct (Hall w' v' Hw' Hel') as (e' & He' & Hid').
    destruct (Hl e' He') as (v2 & Hw2 & _ & Hs2). rewrite Hid' in *. rewrite Hw' in Hw2.
    injection Hw2 as <-. rewrite Hs in Hs'. injection Hs' as Hs'.
    destruct (Hmax e' _ He' Hs2) as [?|[Heq ?]]; [left; by rewrite <- Hs'|right].
    split; [|by rewrite Hid' in *]. f_equal. congruence.
Qed.

Lemma foldl_same {A B} (f g : A → B → A) (a : A) (l : list B) :
  (∀ a b, f a b = g a b) → foldl f a l = foldl g a l.
Proof. intros Hfg. revert a. induction l as [|b l IH]; intros a; simpl; [done|]. by rewrite Hfg. Qed.

Lemma opp_ltb a b : (b <? a) = (- a <? - b).
Proof. destruct (Z.ltb_spec b a), (Z.ltb_spec (- a) (- b)); try done; lia. Qed.

Lemma best_worker_ext views elig elig' score score' w :
  (∀ w v, elig w v = elig' w v) → (∀ w v, score w v = score' w v) →
  best_worker views elig score w → best_worker views elig' score' w.
Proof.
  intros He Hs (v & Hv & Hel & Hmax). exists v. rewrite <- He, <- Hs. split_and!; [done..|].
  intros w' v' Hw'. rewrite <- He, <- Hs. by apply Hmax.
Qed.

(** The loops of the two scans. *)
Definition capacity_score (views : gmap string workerView) (adj : workerView → placementEntry → Z)
    (e : placementEntry) : option Z :=
  v ← views !! pe_workerID e; if hasCapacity v then Some (adj v e) else None.

Lemma scan_loop views adj less f init l :
  (∀ a b, less a b = (f a <? f b)) →
  foldl (λ best e,
    match views !! pe_workerID e with
    | Some v => if hasCapacity v then
                  if better less (adj v e) (pe_workerID e) best then (pe_workerID e, adj v e) else best
                else best
    | None => best
    end) init l = scan (capacity_score views adj) f init l.
Proof.
  intros Hless. apply foldl_same. intros b e. unfold capacity_score.
  destruct (views !! pe_workerID e) as [v|]; [|done]. cbn [mbind option_bind].
  destruct (hasCapacity v); [|done]. unfold better. by rewrite Hless.
Qed.

Section Choices.
Context (s : PlacementState) (key : modelKey) (h : modelPlacementHeaps).
Context (h_ok : heaps_ok h) (h_exact : ∀ w, exact_at s key h w) (views_fine : views_ok s).

Lemma predicted_choice queueDelayMs waitMs x :
  let st := ps_llmPlacement s in
  let w := (scan (capacity_score (ps_workerViews s) (λ v e,
      let p := i64 (pe_predictScore e + wv_runningTasks v * 50) in
      if (waitMs <? queueDelayMs) && negb (has_copy key v) then i64 (p - 25) else p))
    Z.opp (EmptyString, x) (ph_entries (mh_predicted h))).1 in
  best_worker (ps_workerViews s) (predicted_eligible st key)
    (λ w v, - delayed_prediction st key queueDelayMs waitMs w v) w ∨
  w = EmptyString ∧ no_worker (ps_workerViews s) (predicted_eligible st key).
Proof.
  intros st w. pose proof (predicted_entry s key h h_ok h_exact) as Hp.
  apply (scan_best_worker s (predicted_eligible st key)
    (delayed_prediction st key queueDelayMs waitMs) Z.opp
    (capacity_score (ps_workerViews s) (λ v e,
      let p := i64 (pe_predictScore e + wv_runningTasks v * 50) in
      if (waitMs <? queueDelayMs) && negb (has_copy key v) then i64 (p - 25) else p))
    (ph_entries (mh_predicted h))).
  - intros a b. lia.
  - done.
  - intros e He. apply Hp in He as (v & Hw & Hel & _ & Hsc). exists v. split_and!; [done..|].
    unfold capacity_score. rewrite Hw. cbn [mbind option_bind].
    apply andb_true_iff in Hel as [-> _]. unfold delayed_prediction. by rewrite Hsc.
  - intros w' v Hw Hel. exists {| pe_workerID := w'; pe_localityScore := 0;
      pe_predictScore := predictedLatencyMs (has_copy key v) (placementStatsLocked st key w') |}.
    split; [|done]. apply Hp. exists v. done.
  - apply scan_spec; [intros; lia|]. intros e He. apply Hp in He as (v & Hw & _).
    by apply (views_fine _ v).
Qed.

Context (views_width : ∀ w v, ps_workerViews s !! w = Some v → view_u32 v).

Lemma cached_choice :
  let w := bestWorkerID (mh_cached h) (ps_workerViews s) in
  best_worker (ps_workerViews s) (cached_eligible key) (λ _ v, localityBaseScore v true) w ∧ w ≠ EmptyString ∨
  w = EmptyString ∧ no_worker (ps_workerViews s) (cached_eligible key) ∧
  hasCapacityLocked (mh_cached h) (ps_workerViews s) = false.
Proof.
  pose proof (cached_entry s key h h_ok h_exact views_width) as Hc.
  assert (Hall : ∀ w v, ps_workerViews s !! w = Some v → cached_eligible key w v = true →
    ∃ e, e ∈ ph_entries (mh_cached h) ∧ pe_workerID e = w ∧ pe_localityScore e = localityBaseScore v true ∧
      entry_capacity (ps_workerViews s) e = true).
  { intros w v Hw Hel. exists {| pe_workerID := w; pe_localityScore := localityBaseScore v true;
      pe_predictScore := predictedPlacementScore v (placementStatsLocked (ps_llmPlacement s) key w) true |}.
    split_and!; [apply Hc; exists v; done|done|done|]. unfold entry_capacity. simpl. rewrite Hw.
    by apply andb_true_iff in Hel as [_ ?]. }
  unfold bestWorkerID. destruct (list_find _ _) as [[i e]|] eqn:Hf; simpl.
  - left. pose proof Hf as (He & Hcape & _)%list_find_Some. apply list_elem_of_lookup_2 in He.
    apply Hc in He as (v & Hw & Hel & Hsc & _). split; [|by apply (views_fine _ v)].
    exists v. split_and!; [done..|]. intros w' v' Hw' Hel'.
    destruct (Hall w' v' Hw' Hel') as (e' & He' & Hid & Hsc' & Hcap').
    rewrite <- Hsc, <- Hsc', <- Hid.
    destruct (sorted_find locality_le _ _ i e e' locality_le_refl (ho_sorted _ _ (proj1 h_ok)) Hf He' Hcap')
      as [Hlt|[Heq Hle]]; [by left|by right].
  - right. apply list_find_None in Hf. rewrite Forall_forall in Hf. split_and!; [done| |].
    + intros w v Hw. apply not_true_is_false. intros Hel.
      destruct (Hall w v Hw Hel) as (e & He & _ & _ & Hcap). by apply (Hf e He).
    + apply not_true_is_false. unfold hasCapacityLocked. intros [e [He Hcap]]%existsb_exists.
      apply list_elem_of_In in He. by apply (Hf e He).
Qed.

Lemma cold_choice x :
  let w := (scan (capacity_score (ps_workerViews s) (λ _ e, pe_localityScore e)) id
              (EmptyString, x) (ph_entries (mh_cold h))).1 in
  best_worker (ps_workerViews s) (cold_eligible key) (λ _ v, localityBaseScore v false) w ∨
  w = EmptyString ∧ no_worker (ps_workerViews s) (cold_eligible key).
Proof.
  intros w. pose proof (cold_entry s key h h_ok h_exact views_width) as Hd.
  apply (scan_best_worker s (cold_eligible key) (λ _ v, localityBaseScore v false) id
    (capacity_score (ps_workerViews s) (λ _ e, pe_localityScore e)) (ph_entries (mh_cold h))).
  - done.
  - done.
  - intros e He. apply Hd in He as (v & Hw & Hel & Hsc & _). exists v. split_and!; [done..|].
    unfold capacity_score. rewrite Hw. cbn [mbind option_bind].
    apply andb_true_iff in Hel as [_ ->]. by rewrite Hsc.
  - intros w' v Hw Hel. exists {| pe_workerID := w'; pe_localityScore := localityBaseScore v false;
      pe_predictScore := predictedPlacementScore v (placementStatsLocked (ps_llmPlacement s) key w') false |}.
    split; [|done]. apply Hd. exists v. done.
  - apply scan_spec; [done|]. intros e He. apply Hd in He as (v & Hw & _).
    by apply (views_fine _ v).
Qed.
End Choices.

(** [PreferredLocalityWorker] in any reachable state.  If some worker with
    free capacity has the model cached, the result is the one with the highest
    locality score (the smallest ID on a tie); otherwise the best cold worker
    with free capacity; otherwise the empty string.  The queueing delay and the
    wait bound have no influence. *)
Theorem PreferredLocalityWorker_exact s key createdAtMs nowMs waitMs :
  star placement_step emptyPlacement s →
  (∀ w v, ps_workerViews s !! w = Some v → view_u32 v) →
  let w := (PreferredLocalityWorker s key createdAtMs nowMs waitMs).2 in
  let views := ps_workerViews s in
  best_worker views (cached_eligible key) (λ _ v, localityBaseScore v true) w ∨
  no_worker views (cached_eligible key) ∧
    (best_worker views (cold_eligible key) (λ _ v, localityBaseScore v false) w ∨
     w = EmptyString ∧ no_worker views (cold_eligible key)).
Proof.
  intros Hs%reachable_exact Hu w views. pose proof (ensure_exact s key Hs) as [Hv' _].
  destruct (ensure_lists s key Hs) as (Hviews & _ & Hok & Hex). unfold w, views.
  unfold PreferredLocalityWorker, preferredLocalityFromPlacementLocked. rewrite <- Hviews in Hu |- *.
  destruct (cached_choice _ key _ Hok Hex Hv' Hu) as [[Hb Hne]|(Hb & Hn & Hcap)].
  - apply str_empty_false in Hne. rewrite Hne. by left.
  - rewrite Hb, Hcap. cbn [str_empty negb andb snd]. right. split; [done|].
    rewrite (scan_loop _ (λ _ e, pe_localityScore e) (λ a b, a <? b) id) by done.
    by apply (cold_choice _ key _ Hok Hex Hv' Hu).
Qed.

Lemma PreferredLocalityWorker_exact_witness :
  (PreferredLocalityWorker demo_placement demo_key 0 0 50).2 = "w1" ∧
  best_worker (ps_workerViews demo_placement) (cached_eligible demo_key)
    (λ _ v, localityBaseScore v true) "w1".
Proof.
  split; [vm_compute; reflexivity|].
  destruct (PreferredLocalityWorker_exact demo_placement demo_key 0 0 50 demo_placement_reachable)
    as [Hb|[Hn _]].
  - apply view_u32b_all. vm_compute. reflexivity.
  - replace "w1" with (PreferredLocalityWorker demo_placement demo_key 0 0 50).2
      by (vm_compute; reflexivity). exact Hb.
  - exfalso. assert (Hw : ∃ v, ps_workerViews demo_placement !! "w1" = Some v ∧
      cached_eligible demo_key "w1" v = true).
    { eexists. split; vm_compute; reflexivity. }
    destruct Hw as (v & Hv & Hc). rewrite (Hn "w1" v Hv) in Hc. discriminate.
Defined.

(** [PreferredPredictedWorker] in any reachable state: the worker with free
    capacity and the smallest predicted latency, counting 50 ms for each running
    task and, for a task that waited longer than the bound, 25 ms less on
    workers without the model; the smallest ID on a tie; the empty string
    exactly when no worker qualifies. *)
Theorem PreferredPredictedWorker_exact s key queueDelayMs waitMs :
  star placement_step emptyPlacement s →
  let w := (PreferredPredictedWorker s key queueDelayMs waitMs).2 in
  let st := ps_llmPlacement s in
  best_worker (ps_workerViews s) (predicted_eligible st key)
    (λ w v, - delayed_prediction st key queueDelayMs waitMs w v) w ∨
  w = EmptyString ∧ no_worker (ps_workerViews s) (predicted_eligible st key).
Proof.
  intros Hs%reachable_exact w st. pose proof (ensure_exact s key Hs) as [Hv' _].
  destruct (ensure_lists s key Hs) as (Hviews & Hstats & Hok & Hex). unfold w.
  unfold PreferredPredictedWorker. cbn [snd]. rewrite <- Hviews.
  rewrite (scan_loop _ (λ v e,
      let p := i64 (pe_predictScore e + wv_runningTasks v * 50) in
      if (waitMs <? queueDelayMs) && negb (has_copy key v) then i64 (p - 25) else p)
      (λ a b, b <? a) Z.opp) by (intros; apply opp_ltb).
  destruct (predicted_choice _ key _ Hok Hex Hv' queueDelayMs waitMs (2 ^ 62 - 1)) as [Hb|[Hw Hn]].
  - left. revert Hb. apply best_worker_ext; intros w' v'.
    + unfold predicted_eligible. by rewrite Hstats.
    + unfold delayed_prediction. by rewrite Hstats.
  - right. split; [done|]. intros w' v' Hv2. rewrite <- (Hn w' v' Hv2).
    unfold predicted_eligible. by rewrite Hstats.
Qed.

Lemma PreferredPredictedWorker_exact_witness :
  (PreferredPredictedWorker demo_placement demo_key 0 50).2 = "w1" ∧
  best_worker (ps_workerViews demo_placement)
    (predicted_eligible (ps_llmPlacement demo_placement) demo_key)
    (λ w v, - delayed_prediction (ps_llmPlacement demo_placement) demo_key 0 50 w v) "w1".
Proof.
  assert (Hw : (PreferredPredictedWorker demo_placement demo_key 0 50).2 = "w1")
    by (vm_compute; reflexivity).
  split; [exact Hw|].
  destruct (PreferredPredictedWorker_exact demo_placement demo_key 0 50 demo_placement_reachable)
    as [Hb|[Hb _]].
  - rewrite Hw in Hb. exact Hb.
  - rewrite Hw in Hb. discriminate.
Defined.

(** ** Model keys *)

Fixpoint has_colon (s : string) : bool :=
  match s with
  | EmptyString => false
  | String c rest => bool_decide (c = Ascii.ascii_of_nat 58) || has_colon rest
  end.

Lemma split_colon_app n v :
  has_colon n = false → split_colon (n ++ ":" ++ v) = Some (n, v).
Proof.
  induction n as [|c n IH]; intros Hn; [done|]. cbn [has_colon] in Hn.
  apply orb_false_iff in Hn as [Hc Hn]. apply bool_decide_eq_false in Hc.
  change ((String c n ++ ":" ++ v)%string) with (String c (n ++ ":" ++ v)).
  cbn [split_colon]. rewrite decide_False by done. by rewrite IH.
Qed.

Lemma split_colon_first s a b : split_colon s = Some (a, b) → has_colon a = false.
Proof.
  revert a. induction s as [|c s IH]; intros a; [done|]. cbn [split_colon].
  destruct (decide (c = Ascii.ascii_of_nat 58)) as [|Hc]; [by intros [= <- _]|].
  destruct (split_colon s) as [[a' b']|]; [|done]. intros [= <- <-]. cbn [has_colon].
  rewrite bool_decide_eq_false_2 by done. by apply IH.
Qed.

(** The model keys workers report are read back exactly when the model's
    name has no colon: otherwise the scheduler files the worker's cached copy
    under another model. *)
Theorem model_key_roundtrip name version :
  (let (n, v) := splitModelKey (ModelKey name version) in modelKeyFromParts n v)
    = modelKeyFromParts name version ↔ has_colon name = false.
Proof.
  assert (Hs : ∀ v, split_colon (name ++ ":" ++ v) ≠ None).
  { intros v. clear. induction name as [|c n IH]; [done|].
    change ((String c n ++ ":" ++ v)%string) with (String c (n ++ ":" ++ v)). cbn [split_colon].
    destruct (decide _); [done|]. by destruct (split_colon _) as [[]|]. }
  unfold ModelKey, splitModelKey. set (v := if str_empty version then "v1"%string else version).
  split.
  - specialize (Hs v). destruct (split_colon (name ++ ":" ++ v)) as [[n v']|] eqn:Hsp; [|done].
    apply split_colon_first in Hsp. intros Heq. apply (f_equal mk_name) in Heq. simpl in Heq. by subst.
  - intros Hn. rewrite (split_colon_app name v Hn). unfold modelKeyFromParts, v.
    destruct (str_empty version) eqn:Hv; [done|]. by rewrite Hv.
Qed.

Close Scope Z_scope.
