(* ===== verification/Scheduler.v ===== *)
(** The task scheduler: [internal/control/scheduler.go].

    Tasks wait in four families of FIFO queues (general, per target worker, per
    actor, per model); the maps [taskMeta] and [queued] say which queue entries
    are live, and entries that are not are skipped lazily.  A queue pointer is
    the reference [qref] of the map entry it came from; a missing queue and an
    empty one behave alike.  The heap of deadlines ([container/heap] with a
    total order on leases) is the sorted list it pops.  [check] is the callback
    of [Assign]; the service passes a function of the task's metadata that does
    not touch the scheduler, whose lock is held.

    Theorems: the deque is a list; a queued task is always in a queue of its
    kind; [Assign] returns a live task the callback accepts, in FIFO order, and
    gives up only when every queue open to the worker is drained or blocked;
    [PopExpiredRunning] returns exactly the expired leases. *)
From S2P Require Import Prelude.
From S2P Require Import Placement.

Open Scope Z_scope.

(** ** [taskDeque] *)

Record taskDeque := { dq_items : list string; dq_head : nat }.
Definition empty_deque : taskDeque := {| dq_items := []; dq_head := 0 |}.

(** [Len] *)
Definition dq_Len (q : taskDeque) : nat := (length (dq_items q) - dq_head q)%nat.
(** [PushBack] *)
Definition PushBack (q : taskDeque) (taskID : string) : taskDeque :=
  {| dq_items := dq_items q ++ [taskID]; dq_head := dq_head q |}.
(** [PushFront] *)
Definition PushFront (q : taskDeque) (taskID : string) : taskDeque :=
  match dq_head q with
  | S h => {| dq_items := <[h := taskID]> (dq_items q); dq_head := h |}
  | O => {| dq_items := taskID :: dq_items q; dq_head := 0 |}
  end.
(** [Front] *)
Definition Front (q : taskDeque) : option string :=
  if decide (dq_Len q = 0%nat) then None else dq_items q !! dq_head q.
(** [PopFront] *)
Definition PopFront (q : taskDeque) : taskDeque :=
  if decide (dq_Len q = 0%nat) then q
  else
    let items := <[dq_head q := EmptyString]> (dq_items q) in
    let head := S (dq_head q) in
    if decide (64 < head ∧ length items ≤ head * 2)%nat
    then {| dq_items := drop head items; dq_head := 0 |}
    else {| dq_items := items; dq_head := head |}.

(** The waiting tasks. *)
Definition dq_list (q : taskDeque) : list string := drop (dq_head q) (dq_items q).

(** The consumed space is at most 64 entries or half of the slice. *)
Definition dq_ok (q : taskDeque) : Prop :=
  (dq_head q ≤ length (dq_items q) ∧ (dq_head q ≤ 64 ∨ dq_head q * 2 < length (dq_items q)))%nat.

Lemma empty_deque_ok : dq_ok empty_deque.
Proof. unfold dq_ok, empty_deque. simpl. lia. Qed.

Lemma dq_Len_list q : dq_Len q = length (dq_list q).
Proof. unfold dq_Len, dq_list. by rewrite length_drop. Qed.

Lemma Front_list q : Front q = head (dq_list q).
Proof.
  assert (Hh : dq_items q !! dq_head q = head (dq_list q)).
  { unfold dq_list. pose proof (lookup_drop (dq_items q) (dq_head q) 0) as Hl.
    rewrite Nat.add_0_r in Hl. rewrite <- Hl. by destruct (drop (dq_head q) (dq_items q)). }
  unfold Front. case_decide as Hd; [|done]. rewrite dq_Len_list in Hd.
  by apply length_zero_iff_nil in Hd as ->.
Qed.

Lemma PushBack_list q t : dq_ok q → dq_ok (PushBack q t) ∧ dq_list (PushBack q t) = dq_list q ++ [t].
Proof.
  unfold dq_ok, PushBack, dq_list. simpl. intros [Hle Hb]. split.
  - rewrite length_app. simpl. lia.
  - by rewrite drop_app_le.
Qed.

Lemma PushFront_list q t : dq_ok q → dq_ok (PushFront q t) ∧ dq_list (PushFront q t) = t :: dq_list q.
Proof.
  unfold dq_ok, PushFront, dq_list. destruct q as [items [|h]]; simpl.
  - intros _. split; [lia|done].
  - intros [Hle Hb]. split; [rewrite length_insert; lia|].
    rewrite (drop_S (<[h := t]> items) t h) by (apply list_lookup_insert_eq; lia).
    f_equal. apply drop_insert_lt. lia.
Qed.

Lemma PopFront_list q : dq_ok q → dq_ok (PopFront q) ∧ dq_list (PopFront q) = tail (dq_list q).
Proof.
  unfold dq_ok, PopFront. intros [Hle Hb].
  destruct (decide (dq_Len q = 0%nat)) as [Hl|Hl]; rewrite dq_Len_list in Hl.
  { apply length_zero_iff_nil in Hl. rewrite Hl. split; [lia|done]. }
  assert (Hd : drop (S (dq_head q)) (<[dq_head q := EmptyString]> (dq_items q)) = tail (dq_list q)).
  { rewrite drop_insert_lt by lia. unfold dq_list.
    rewrite <- Nat.add_1_r, <- drop_drop. by destruct (drop (dq_head q) (dq_items q)). }
  unfold dq_list in Hl. rewrite length_drop in Hl. rewrite length_insert.
  case_decide as Hc; simpl; unfold dq_list at 1; simpl.
  - split; [lia|]. exact Hd.
  - split; [|exact Hd]. rewrite length_insert. lia.
Qed.

(** A run of deque operations and what its reads return. *)
Inductive dq_op := OpPushBack (t : string) | OpPushFront (t : string) | OpPopFront | OpFront | OpLen.
Inductive dq_out := OutNone | OutFront (t : option string) | OutLen (n : nat).

Definition dq_run1 (q : taskDeque) (op : dq_op) : taskDeque * dq_out :=
  match op with
  | OpPushBack t => (PushBack q t, OutNone)
  | OpPushFront t => (PushFront q t, OutNone)
  | OpPopFront => (PopFront q, OutFront (Front q))
  | OpFront => (q, OutFront (Front q))
  | OpLen => (q, OutLen (dq_Len q))
  end.
Definition list_run1 (l : list string) (op : dq_op) : list string * dq_out :=
  match op with
  | OpPushBack t => (l ++ [t], OutNone)
  | OpPushFront t => (t :: l, OutNone)
  | OpPopFront => (tail l, OutFront (head l))
  | OpFront => (l, OutFront (head l))
  | OpLen => (l, OutLen (length l))
  end.
Fixpoint run {S} (step : S → dq_op → S * dq_out) (s : S) (ops : list dq_op) : S * list dq_out :=
  match ops with
  | [] => (s, [])
  | op :: ops => let (s, o) := step s op in let (s, os) := run step s ops in (s, o :: os)
  end.

Lemma dq_run1_list q op :
  dq_ok q → dq_ok (dq_run1 q op).1 ∧
  (dq_list (dq_run1 q op).1, (dq_run1 q op).2) = list_run1 (dq_list q) op.
Proof.
  intros Hok. destruct op; simpl.
  - destruct (PushBack_list q t Hok) as [? ->]. done.
  - destruct (PushFront_list q t Hok) as [? ->]. done.
  - destruct (PopFront_list q Hok) as [? ->]. by rewrite Front_list.
  - by rewrite Front_list.
  - by rewrite dq_Len_list.
Qed.

(** The deque is a list: whatever operations run on it, every read returns
    what a list would return, and the space kept for consumed entries never
    exceeds 64 slots or the number of waiting tasks. *)
Theorem taskDeque_is_a_list ops :
  let (q, out) := run dq_run1 empty_deque ops in
  let (l, out') := run list_run1 [] ops in
  dq_list q = l ∧ out = out' ∧
  (length (dq_items q) ≤ dq_Len q + 64 ∨ length (dq_items q) < 2 * dq_Len q)%nat.
Proof.
  assert (Hgen : ∀ q, dq_ok q →
    dq_ok (run dq_run1 q ops).1 ∧
    (dq_list (run dq_run1 q ops).1, (run dq_run1 q ops).2) = run list_run1 (dq_list q) ops).
  { induction ops as [|op ops IH]; intros q Hok; [done|]. simpl.
    destruct (dq_run1_list q op Hok) as [Hok' Heq]. rewrite <- Heq.
    destruct (dq_run1 q op) as [q' o]. simpl in *.
    destruct (IH q' Hok') as [Hok2 Heq2]. rewrite <- Heq2.
    destruct (run dq_run1 q' ops). done. }
  destruct (Hgen empty_deque empty_deque_ok) as [Hok Heq].
  change (dq_list empty_deque) with (@nil string) in Heq.
  destruct (run dq_run1 empty_deque ops) as [q out]. simpl in Heq. rewrite <- Heq.
  split_and!; [done|done|]. destruct Hok as [Hle Hb]. unfold dq_Len. simpl in *. lia.
Qed.

(** ** Tasks, queues and the scheduler's state *)

(** [TaskKind] *)
Inductive TaskKind := TaskKindGeneral | TaskKindTargetWorker | TaskKindActor | TaskKindLLM.
#[export] Instance TaskKind_eq_dec : EqDecision TaskKind.
Proof. solve_decision. Defined.

(** [SchedMeta] *)
Record SchedMeta := {
  sm_TaskID : string;
  sm_TaskType : TaskKind;
  sm_TargetWorker : string;
  sm_ActorID : string;
  sm_CommandSeq : Z;
  sm_ModelName : string;
  sm_ModelVersion : string;
  sm_CreatedAtMs : Z;
  sm_LeaseEpoch : Z;
  sm_RunningWorker : string
}.

(** [workerSnapshot]; the scheduling policy is not read by the scheduler. *)
Record workerSnapshot := {
  ws_WorkerID : string;
  ws_ActorIDs : list string;
  ws_ActorNextSeq : gmap string Z;
  ws_CachedModels : gset modelKey
}.

(** [schedulerDecision] *)
Inductive schedulerDecision := schedulerSkip | schedulerAssign | schedulerDrop.

(** [runningLease] *)
Record runningLease := { rl_taskID : string; rl_deadlineMs : Z; rl_leaseEpoch : Z }.
#[export] Instance runningLease_eq_dec : EqDecision runningLease.
Proof. solve_decision. Defined.

(** A [*taskDeque] handed around under the lock. *)
Inductive qref := QGeneral | QTarget (worker : string) | QActor (actor : string) | QLLM (key : modelKey).
#[export] Instance qref_eq_dec : EqDecision qref.
Proof. solve_decision. Defined.
Definition qref_kind (r : qref) : TaskKind :=
  match r with
  | QGeneral => TaskKindGeneral | QTarget _ => TaskKindTargetWorker
  | QActor _ => TaskKindActor | QLLM _ => TaskKindLLM
  end.

(** [Scheduler] *)
Record Scheduler := {
  sc_readyGeneral : taskDeque;
  sc_byTarget : gmap string taskDeque;
  sc_actorPending : gmap string taskDeque;
  sc_llmByModel : gmap modelKey taskDeque;
  sc_taskMeta : gmap string SchedMeta;
  sc_queued : gmap string TaskKind;
  sc_runningLeases : gmap string runningLease;
  sc_deadlines : list runningLease;
  sc_placement : PlacementState
}.

(** [newScheduler] *)
Definition newScheduler : Scheduler :=
  {| sc_readyGeneral := empty_deque; sc_byTarget := ∅; sc_actorPending := ∅; sc_llmByModel := ∅;
     sc_taskMeta := ∅; sc_queued := ∅; sc_runningLeases := ∅; sc_deadlines := [];
     sc_placement := emptyPlacement |}.

Definition q_of (s : Scheduler) (r : qref) : taskDeque :=
  match r with
  | QGeneral => sc_readyGeneral s
  | QTarget w => default empty_deque (sc_byTarget s !! w)
  | QActor a => default empty_deque (sc_actorPending s !! a)
  | QLLM k => default empty_deque (sc_llmByModel s !! k)
  end.

Definition with_q (s : Scheduler) (r : qref) (q : taskDeque) : Scheduler :=
  {| sc_readyGeneral := if decide (r = QGeneral) then q else sc_readyGeneral s;
     sc_byTarget := match r with QTarget w => <[w := q]> (sc_byTarget s) | _ => sc_byTarget s end;
     sc_actorPending := match r with QActor a => <[a := q]> (sc_actorPending s) | _ => sc_actorPending s end;
     sc_llmByModel := match r with QLLM k => <[k := q]> (sc_llmByModel s) | _ => sc_llmByModel s end;
     sc_taskMeta := sc_taskMeta s; sc_queued := sc_queued s; sc_runningLeases := sc_runningLeases s;
     sc_deadlines := sc_deadlines s; sc_placement := sc_placement s |}.
Definition without_q (s : Scheduler) (r : qref) : Scheduler :=
  {| sc_readyGeneral := sc_readyGeneral s;
     sc_byTarget := match r with QTarget w => delete w (sc_byTarget s) | _ => sc_byTarget s end;
     sc_actorPending := match r with QActor a => delete a (sc_actorPending s) | _ => sc_actorPending s end;
     sc_llmByModel := match r with QLLM k => delete k (sc_llmByModel s) | _ => sc_llmByModel s end;
     sc_taskMeta := sc_taskMeta s; sc_queued := sc_queued s; sc_runningLeases := sc_runningLeases s;
     sc_deadlines := sc_deadlines s; sc_placement := sc_placement s |}.
Definition with_tasks (s : Scheduler) (meta : gmap string SchedMeta) (queued : gmap string TaskKind) :
    Scheduler :=
  {| sc_readyGeneral := sc_readyGeneral s; sc_byTarget := sc_byTarget s;
     sc_actorPending := sc_actorPending s; sc_llmByModel := sc_llmByModel s;
     sc_taskMeta := meta; sc_queued := queued; sc_runningLeases := sc_runningLeases s;
     sc_deadlines := sc_deadlines s; sc_placement := sc_placement s |}.
Definition with_leases (s : Scheduler) (leases : gmap string runningLease) (deadlines : list runningLease) :
    Scheduler :=
  {| sc_readyGeneral := sc_readyGeneral s; sc_byTarget := sc_byTarget s;
     sc_actorPending := sc_actorPending s; sc_llmByModel := sc_llmByModel s;
     sc_taskMeta := sc_taskMeta s; sc_queued := sc_queued s; sc_runningLeases := leases;
     sc_deadlines := deadlines; sc_placement := sc_placement s |}.
Definition with_placement (s : Scheduler) (pl : PlacementState) : Scheduler :=
  {| sc_readyGeneral := sc_readyGeneral s; sc_byTarget := sc_byTarget s;
     sc_actorPending := sc_actorPending s; sc_llmByModel := sc_llmByModel s;
     sc_taskMeta := sc_taskMeta s; sc_queued := sc_queued s; sc_runningLeases := sc_runningLeases s;
     sc_deadlines := sc_deadlines s; sc_placement := pl |}.

(** [schedulerTaskKind] *)
Definition schedulerTaskKind (meta : SchedMeta) : TaskKind :=
  if negb (str_empty (sm_ActorID meta)) then TaskKindActor
  else if negb (str_empty (sm_TargetWorker meta)) then TaskKindTargetWorker
  else if negb (str_empty (sm_ModelName meta)) then TaskKindLLM
  else TaskKindGeneral.

Definition typed (meta : SchedMeta) : SchedMeta :=
  {| sm_TaskID := sm_TaskID meta; sm_TaskType := schedulerTaskKind meta;
     sm_TargetWorker := sm_TargetWorker meta; sm_ActorID := sm_ActorID meta;
     sm_CommandSeq := sm_CommandSeq meta; sm_ModelName := sm_ModelName meta;
     sm_ModelVersion := sm_ModelVersion meta; sm_CreatedAtMs := sm_CreatedAtMs meta;
     sm_LeaseEpoch := sm_LeaseEpoch meta; sm_RunningWorker := sm_RunningWorker meta |}.

Definition meta_key (meta : SchedMeta) : modelKey :=
  modelKeyFromParts (sm_ModelName meta) (sm_ModelVersion meta).

(** [queueForLocked]; storing the updated queue creates it if need be. *)
Definition queueForLocked (meta : SchedMeta) : qref :=
  match sm_TaskType meta with
  | TaskKindTargetWorker => QTarget (sm_TargetWorker meta)
  | TaskKindActor => QActor (sm_ActorID meta)
  | TaskKindLLM => QLLM (meta_key meta)
  | TaskKindGeneral => QGeneral
  end.

(** [Enqueue] *)
Definition Enqueue (s : Scheduler) (meta : SchedMeta) : Scheduler :=
  if str_empty (sm_TaskID meta) then s
  else
    let meta := typed meta in
    let taskMeta := <[sm_TaskID meta := meta]> (sc_taskMeta s) in
    match sc_queued s !! sm_TaskID meta with
    | Some _ => with_tasks s taskMeta (sc_queued s)
    | None =>
        let s := with_tasks s taskMeta (<[sm_TaskID meta := sm_TaskType meta]> (sc_queued s)) in
        let s := if decide (sm_TaskType meta = TaskKindLLM)
                 then with_placement s (ensureModelPlacementLocked (sc_placement s) (meta_key meta))
                 else s in
        let r := queueForLocked meta in
        with_q s r (PushBack (q_of s r) (sm_TaskID meta))
    end.

(** [ReturnFront] *)
Definition ReturnFront (s : Scheduler) (meta : SchedMeta) : Scheduler :=
  if str_empty (sm_TaskID meta) then s
  else
    let meta := typed meta in
    let taskMeta := <[sm_TaskID meta := meta]> (sc_taskMeta s) in
    match sc_queued s !! sm_TaskID meta with
    | Some _ => with_tasks s taskMeta (sc_queued s)
    | None =>
        let s := with_tasks s taskMeta (<[sm_TaskID meta := sm_TaskType meta]> (sc_queued s)) in
        let r := queueForLocked meta in
        with_q s r (PushFront (q_of s r) (sm_TaskID meta))
    end.

(** [Forget] *)
Definition Forget (s : Scheduler) (taskID : string) : Scheduler :=
  if str_empty taskID then s
  else with_leases (with_tasks s (delete taskID (sc_taskMeta s)) (delete taskID (sc_queued s)))
         (delete taskID (sc_runningLeases s)) (sc_deadlines s).

(** [QueueDepth] and [ActorPendingActors] *)
Definition QueueDepth (s : Scheduler) : nat := size (sc_queued s).
Definition ActorPendingActors (s : Scheduler) : nat := size (sc_actorPending s).

(** [maybeCleanupQueueLocked], called with the kind of the queue: the pointer
    comparison asks whether the task's own key is the one [q] is filed under. *)
Definition maybeCleanupQueueLocked (s : Scheduler) (r : qref) (meta : SchedMeta) : Scheduler :=
  if decide (dq_Len (q_of s r) = 0%nat) then
    match r with
    | QActor a => if negb (str_empty (sm_ActorID meta)) && bool_decide (sm_ActorID meta = a)
                  then without_q s r else s
    | QTarget w => if negb (str_empty (sm_TargetWorker meta)) && bool_decide (sm_TargetWorker meta = w)
                   then without_q s r else s
    | QLLM k => if bool_decide (meta_key meta = k) then without_q s r else s
    | QGeneral => s
    end
  else s.

(** The metadata of a queue entry, if the entry is live. *)
Definition live_meta (s : Scheduler) (kind : TaskKind) (taskID : string) : option SchedMeta :=
  match sc_taskMeta s !! taskID, sc_queued s !! taskID with
  | Some meta, Some queuedKind => if decide (queuedKind = kind) then Some meta else None
  | _, _ => None
  end.

Definition pop_front (s : Scheduler) (r : qref) : Scheduler := with_q s r (PopFront (q_of s r)).
Definition unqueue (s : Scheduler) (taskID : string) : Scheduler :=
  with_tasks s (sc_taskMeta s) (delete taskID (sc_queued s)).
Definition drop_task (s : Scheduler) (taskID : string) : Scheduler :=
  with_tasks s (delete taskID (sc_taskMeta s)) (delete taskID (sc_queued s)).

(** A call that may not return: [None] when a callback blocks. *)
Definition call (A : Type) := option A.

(** [nextFromQueueLocked]; the fuel is the queue's length. *)
Fixpoint next_loop (fuel : nat) (s : Scheduler) (r : qref) (check : SchedMeta → call schedulerDecision) :
    call (Scheduler * option SchedMeta) :=
  match fuel with
  | O => Some (s, None)
  | S fuel =>
      match Front (q_of s r) with
      | None => Some (s, None)
      | Some taskID =>
          match live_meta s (qref_kind r) taskID with
          | None => next_loop fuel (pop_front s r) r check
          | Some meta =>
              decision ← check meta;
              match decision with
              | schedulerDrop =>
                  next_loop fuel (maybeCleanupQueueLocked (drop_task (pop_front s r) taskID) r meta) r check
              | schedulerSkip => Some (s, None)
              | schedulerAssign =>
                  Some (maybeCleanupQueueLocked (unqueue (pop_front s r) taskID) r meta, Some meta)
              end
          end
      end
  end.
Definition nextFromQueueLocked (s : Scheduler) (r : qref) (check : SchedMeta → call schedulerDecision) :
    call (Scheduler * option SchedMeta) :=
  next_loop (dq_Len (q_of s r)) s r check.

(** [frontMetaLocked] *)
Fixpoint front_loop (fuel : nat) (s : Scheduler) (r : qref) : Scheduler * option SchedMeta :=
  match fuel with
  | O => (s, None)
  | S fuel =>
      match Front (q_of s r) with
      | None => (s, None)
      | Some taskID =>
          match live_meta s (qref_kind r) taskID with
          | None => front_loop fuel (pop_front s r) r
          | Some meta => (s, Some meta)
          end
      end
  end.
Definition frontMetaLocked (s : Scheduler) (r : qref) : Scheduler * option SchedMeta :=
  front_loop (dq_Len (q_of s r)) s r.

(** [queueSortMetaLocked]; only the creation time is compared. *)
Definition queueSortMetaLocked (s : Scheduler) (r : qref) : Z :=
  match (frontMetaLocked s r).2 with Some meta => sm_CreatedAtMs meta | None => max_i64 end.

(** [localityQueueWait], in milliseconds. *)
Definition localityQueueWait : Z := 250.

Definition cand_le (s : Scheduler) (a b : modelKey) : Prop :=
  let x := queueSortMetaLocked s (QLLM a) in
  let y := queueSortMetaLocked s (QLLM b) in
  x < y ∨ x = y ∧ (mk_name a ≠ mk_name b ∧ String.le (mk_name a) (mk_name b) ∨
                   mk_name a = mk_name b ∧ String.le (mk_version a) (mk_version b)).
#[export] Instance cand_le_dec s : RelDecision (cand_le s).
Proof. unfold cand_le. intros a b. apply _. Defined.

(** The loop over the models that are not candidates yet. *)
Definition cold_candidate (nowMs : Z) (acc : Scheduler * list modelKey) (key : modelKey) :
    Scheduler * list modelKey :=
  let (s, candidates) := acc in
  if decide (dq_Len (q_of s (QLLM key)) = 0%nat) then acc
  else if decide (key ∈ candidates) then acc
  else
    match frontMetaLocked s (QLLM key) with
    | (s, None) => (s, candidates)
    | (s, Some meta) =>
        if cachedWorkerHasCapacityLocked (sc_placement s) key
           && (i64 (nowMs - sm_CreatedAtMs meta) <? localityQueueWait)
        then (s, candidates) else (s, candidates ++ [key])
    end.

(** [llmCandidateModelsLocked]: sorting two or more candidates prunes the stale
    front of each of their queues, since every element is compared. *)
Definition llmCandidateModelsLocked (s : Scheduler) (snapshot : workerSnapshot) (nowMs : Z) :
    Scheduler * list modelKey :=
  let cached := filter (λ key, dq_Len (q_of s (QLLM key)) ≠ 0%nat) (elements (ws_CachedModels snapshot)) in
  let (s, candidates) := foldl (cold_candidate nowMs) (s, cached) (elements (dom (sc_llmByModel s))) in
  if decide (length candidates < 2)%nat then (s, candidates)
  else
    let s := foldl (λ s key, (frontMetaLocked s (QLLM key)).1) s candidates in
    (s, merge_sort (cand_le s) candidates).

(** The [for] loops of [Assign]: the first queue that yields a task. *)
Fixpoint first_of {A} (next : Scheduler → A → call (Scheduler * option SchedMeta)) (s : Scheduler)
    (l : list A) : call (Scheduler * option SchedMeta) :=
  match l with
  | [] => Some (s, None)
  | x :: l =>
      '(s, res) ← next s x;
      match res with
      | Some meta => Some (s, Some meta)
      | None => first_of next s l
      end
  end.

(** The wrapped check for an actor's mailbox. *)
Definition actor_check (snapshot : workerSnapshot) (actorID : string)
    (check : SchedMeta → call schedulerDecision) (meta : SchedMeta) : call schedulerDecision :=
  let nextSeq := default 0 (ws_ActorNextSeq snapshot !! actorID) in
  if negb (sm_CommandSeq meta =? 0) && negb (nextSeq =? 0) && negb (sm_CommandSeq meta =? nextSeq)
  then Some schedulerSkip else check meta.

(** [Assign] *)
Definition Assign (s : Scheduler) (snapshot : workerSnapshot) (nowMs : Z)
    (check : SchedMeta → call schedulerDecision) : call (Scheduler * option SchedMeta) :=
  if str_empty (ws_WorkerID snapshot) then Some (s, None)
  else
    '(s, res) ← nextFromQueueLocked s (QTarget (ws_WorkerID snapshot)) check;
    match res with Some meta => Some (s, Some meta) | None =>
    '(s, res) ← first_of (λ s actorID, nextFromQueueLocked s (QActor actorID) (actor_check snapshot actorID check))
                  s (ws_ActorIDs snapshot);
    match res with Some meta => Some (s, Some meta) | None =>
    let (s, candidates) := llmCandidateModelsLocked s snapshot nowMs in
    '(s, res) ← first_of (λ s key, nextFromQueueLocked s (QLLM key) check) s candidates;
    match res with Some meta => Some (s, Some meta) | None =>
    nextFromQueueLocked s QGeneral check
    end end end.

(** ** Running leases *)

(** [taskDeadlineHeap.Less] as a total order. *)
Definition lease_le (a b : runningLease) : Prop :=
  rl_deadlineMs a < rl_deadlineMs b ∨ rl_deadlineMs a = rl_deadlineMs b ∧
    (rl_taskID a ≠ rl_taskID b ∧ String.le (rl_taskID a) (rl_taskID b) ∨
     rl_taskID a = rl_taskID b ∧ rl_leaseEpoch a <= rl_leaseEpoch b).
#[export] Instance lease_le_dec : RelDecision lease_le.
Proof. unfold lease_le. intros a b. apply _. Defined.

(** [heap.Push] on the deadlines. *)
Fixpoint push_deadline (l : list runningLease) (x : runningLease) : list runningLease :=
  match l with
  | [] => [x]
  | y :: l => if decide (lease_le x y) then x :: y :: l else y :: push_deadline l x
  end.

(** [TrackRunning] *)
Definition TrackRunning (s : Scheduler) (taskID : string) (deadlineMs leaseEpoch : Z) : Scheduler :=
  if str_empty taskID || (deadlineMs <=? 0) || (leaseEpoch =? 0) then s
  else
    let lease := {| rl_taskID := taskID; rl_deadlineMs := deadlineMs; rl_leaseEpoch := leaseEpoch |} in
    let s := with_leases s (<[taskID := lease]> (sc_runningLeases s)) (push_deadline (sc_deadlines s) lease) in
    match sc_taskMeta s !! taskID with
    | Some meta =>
        let meta := {| sm_TaskID := sm_TaskID meta; sm_TaskType := sm_TaskType meta;
                       sm_TargetWorker := sm_TargetWorker meta; sm_ActorID := sm_ActorID meta;
                       sm_CommandSeq := sm_CommandSeq meta; sm_ModelName := sm_ModelName meta;
                       sm_ModelVersion := sm_ModelVersion meta; sm_CreatedAtMs := sm_CreatedAtMs meta;
                       sm_LeaseEpoch := leaseEpoch; sm_RunningWorker := sm_RunningWorker meta |} in
        with_tasks s (<[taskID := meta]> (sc_taskMeta s)) (sc_queued s)
    | None => s
    end.

(** [CompleteRunning] *)
Definition CompleteRunning (s : Scheduler) (taskID : string) : Scheduler :=
  if str_empty taskID then s
  else with_leases (with_tasks s (delete taskID (sc_taskMeta s)) (delete taskID (sc_queued s)))
         (delete taskID (sc_runningLeases s)) (sc_deadlines s).

(** [PopExpiredRunning] *)
Fixpoint pop_expired (nowMs : Z) (leases : gmap string runningLease) (deadlines : list runningLease) :
    gmap string runningLease * list runningLease * list runningLease :=
  match deadlines with
  | [] => (leases, [], [])
  | top :: rest =>
      if nowMs <? rl_deadlineMs top then (leases, top :: rest, [])
      else
        match leases !! rl_taskID top with
        | Some current =>
            if (rl_deadlineMs current =? rl_deadlineMs top) && (rl_leaseEpoch current =? rl_leaseEpoch top)
            then let '(l, d, e) := pop_expired nowMs (delete (rl_taskID top) leases) rest in (l, d, top :: e)
            else pop_expired nowMs leases rest
        | None => pop_expired nowMs leases rest
        end
  end.
Definition PopExpiredRunning (s : Scheduler) (nowMs : Z) : Scheduler * list runningLease :=
  let '(leases, deadlines, expired) := pop_expired nowMs (sc_runningLeases s) (sc_deadlines s) in
  (with_leases s leases deadlines, expired).

(** The worker operations change the placement part only. *)
Definition Scheduler_UpsertWorker (s : Scheduler) (worker : Worker) : Scheduler :=
  with_placement s (UpsertWorker (sc_placement s) worker).
Definition Scheduler_UpdateLLMStats (s : Scheduler) (name version workerID : string) (stats : llmWorkerStats) :
    Scheduler :=
  with_placement s (UpdateLLMStats (sc_placement s) name version workerID stats).

(** ** Queues as lists *)

Definition waiting (s : Scheduler) (r : qref) : list string := dq_list (q_of s r).
Definition deques_ok (s : Scheduler) : Prop := ∀ r, dq_ok (q_of s r).

Lemma q_of_with_q s r q r' : q_of (with_q s r q) r' = if decide (r = r') then q else q_of s r'.
Proof.
  destruct r, r'; simpl; repeat case_decide; try done; try congruence;
    first [rewrite lookup_insert_ne by congruence; done | simplify_eq; by rewrite lookup_insert_eq].
Qed.

Lemma q_of_without_q s r r' :
  q_of (without_q s r) r' = if decide (r = r' ∧ r ≠ QGeneral) then empty_deque else q_of s r'.
Proof.
  destruct (decide (r = r')) as [<-|Hne].
  - destruct r; simpl; [done|..]; rewrite lookup_delete_eq; by rewrite decide_True.
  - rewrite decide_False by (by intros [? _]).
    destruct r, r'; simpl; try done; by rewrite lookup_delete_ne by congruence.
Qed.

(** The cleanup leaves every list as it is. *)
Lemma cleanup_waiting s r meta r' :
  waiting (maybeCleanupQueueLocked s r meta) r' = waiting s r' ∧
  (dq_ok (q_of s r') → dq_ok (q_of (maybeCleanupQueueLocked s r meta) r')).
Proof.
  unfold maybeCleanupQueueLocked. destruct (decide (dq_Len (q_of s r) = 0%nat)) as [Hl|]; [|done].
  rewrite dq_Len_list in Hl. apply length_zero_iff_nil in Hl.
  assert (Hw : waiting (without_q s r) r' = waiting s r' ∧
    (dq_ok (q_of s r') → dq_ok (q_of (without_q s r) r'))).
  { unfold waiting. rewrite q_of_without_q. case_decide as Hd; [|done]. destruct Hd as [<- _].
    rewrite Hl. split; [done|]. intros _. apply empty_deque_ok. }
  destruct r; try done; by destruct (_ : bool).
Qed.

Lemma cleanup_fields s r meta :
  let s' := maybeCleanupQueueLocked s r meta in
  sc_taskMeta s' = sc_taskMeta s ∧ sc_queued s' = sc_queued s ∧
  sc_runningLeases s' = sc_runningLeases s ∧ sc_deadlines s' = sc_deadlines s ∧
  sc_placement s' = sc_placement s.
Proof.
  unfold maybeCleanupQueueLocked. destruct (decide _); [|done].
  destruct r; try done; by destruct (_ : bool).
Qed.

Lemma pop_front_waiting s r r' :
  deques_ok s → dq_ok (q_of (pop_front s r) r') ∧
  waiting (pop_front s r) r' = if decide (r = r') then tail (waiting s r') else waiting s r'.
Proof.
  intros Hok. unfold waiting, pop_front. rewrite q_of_with_q. case_decide as Hd; [subst|by split; [apply Hok|]].
  by apply PopFront_list.
Qed.

Lemma live_meta_Some s k t m :
  live_meta s k t = Some m ↔ sc_taskMeta s !! t = Some m ∧ sc_queued s !! t = Some k.
Proof.
  unfold live_meta. destruct (sc_taskMeta s !! t), (sc_queued s !! t); try case_decide; naive_solver.
Qed.

(** ** What an assignment may change

    [evolves P s s']: leases, deadlines and placement are kept, only tasks in
    [P] leave the queue, and each queue loses a prefix of entries that are not
    live afterwards. *)
Record evolves (P : string → Prop) (s s' : Scheduler) : Prop := {
  ev_leases : sc_runningLeases s' = sc_runningLeases s;
  ev_deadlines : sc_deadlines s' = sc_deadlines s;
  ev_placement : sc_placement s' = sc_placement s;
  ev_task : ∀ t, sc_queued s' !! t = sc_queued s !! t ∧ sc_taskMeta s' !! t = sc_taskMeta s !! t ∨
    P t ∧ sc_queued s' !! t = None ∧ (sc_taskMeta s' !! t = sc_taskMeta s !! t ∨ sc_taskMeta s' !! t = None);
  ev_ok : deques_ok s → deques_ok s';
  ev_waiting : deques_ok s → ∀ r, ∃ pre, waiting s r = pre ++ waiting s' r ∧
    ∀ t, t ∈ pre → live_meta s' (qref_kind r) t = None
}.

Lemma evolves_refl P s : evolves P s s.
Proof.
  split; auto. intros _ r. exists []. split; [done|]. intros t Ht. by apply elem_of_nil in Ht.
Qed.

Lemma evolves_live P s s' k t m :
  evolves P s s' → live_meta s' k t = Some m → live_meta s k t = Some m.
Proof.
  intros Hev. rewrite !live_meta_Some. destruct (ev_task _ _ _ Hev t) as [[-> ->]|(_ & -> & _)]; [done|].
  by intros [_ ?].
Qed.

Lemma evolves_stale P s s' k t :
  evolves P s s' → live_meta s k t = None → live_meta s' k t = None.
Proof.
  intros Hev Hn. destruct (live_meta s' k t) as [m|] eqn:Hm; [|done].
  apply (evolves_live _ _ _ _ _ _ Hev) in Hm. congruence.
Qed.

Lemma evolves_trans (P Q R : string → Prop) s1 s2 s3 :
  evolves P s1 s2 → evolves Q s2 s3 → (∀ t, P t → R t) → (∀ t, Q t → R t) → evolves R s1 s3.
Proof.
  intros H1 H2 HP HQ. split.
  - rewrite (ev_leases _ _ _ H2). apply (ev_leases _ _ _ H1).
  - rewrite (ev_deadlines _ _ _ H2). apply (ev_deadlines _ _ _ H1).
  - rewrite (ev_placement _ _ _ H2). apply (ev_placement _ _ _ H1).
  - intros t. destruct (ev_task _ _ _ H2 t) as [[-> ->]|(Ht & -> & Hm)].
    + destruct (ev_task _ _ _ H1 t) as [?|(? & ? & ?)]; [by left|right]. auto.
    + right. split_and!; [auto|done|]. destruct Hm as [->| ->]; [|by right].
      destruct (ev_task _ _ _ H1 t) as [[_ ?]|(_ & _ & ?)]; auto.
  - intros Hok. by apply (ev_ok _ _ _ H2), (ev_ok _ _ _ H1).
  - intros Hok r. destruct (ev_waiting _ _ _ H1 Hok r) as (p1 & -> & Hp1).
    destruct (ev_waiting _ _ _ H2 (ev_ok _ _ _ H1 Hok) r) as (p2 & -> & Hp2).
    exists (p1 ++ p2). split; [by rewrite app_assoc|]. intros t [Ht|Ht]%elem_of_app; [|by apply Hp2].
    apply (evolves_stale _ _ _ _ _ H2). by apply Hp1.
Qed.

Lemma evolves_weaken (P Q : string → Prop) s s' :
  (∀ t, P t → Q t) → evolves P s s' → evolves Q s s'.
Proof. intros HPQ Hev. apply (evolves_trans P P Q s s s'); auto using evolves_refl. Qed.

(** A popped entry, with the task it named kept, dropped or taken. *)
Lemma evolves_pop (P : string → Prop) s s' r t rest m :
  waiting s r = t :: rest →
  (∀ r', dq_ok (q_of (pop_front s r) r') → dq_ok (q_of s' r')) →
  (∀ r', waiting s' r' = waiting (pop_front s r) r') →
  sc_runningLeases s' = sc_runningLeases s → sc_deadlines s' = sc_deadlines s →
  sc_placement s' = sc_placement s →
  (∀ t', t' ≠ t → sc_queued s' !! t' = sc_queued s !! t' ∧ sc_taskMeta s' !! t' = sc_taskMeta s !! t') →
  live_meta s' (qref_kind r) t = None →
  (sc_queued s' !! t = sc_queued s !! t ∧ sc_taskMeta s' !! t = sc_taskMeta s !! t ∨
   P t ∧ sc_queued s' !! t = None ∧ (sc_taskMeta s' !! t = m ∨ sc_taskMeta s' !! t = None)) →
  m = sc_taskMeta s !! t →
  evolves P s s'.
Proof.
  intros Hr Hok' Hw Hl Hd Hp Hother Hstale Ht ->. split; try done.
  - intros t'. destruct (decide (t' = t)) as [->|Hne]; [done|]. left. by apply Hother.
  - intros Hok r'. apply Hok'. by apply pop_front_waiting.
  - intros Hok r'. rewrite Hw. destruct (pop_front_waiting s r r' Hok) as [_ ->].
    case_decide as Hrr; [subst r'|].
    + exists [t]. rewrite Hr. split; [done|]. by intros x ->%list_elem_of_singleton.
    + exists []. split; [done|]. intros x Hx. by apply elem_of_nil in Hx.
Qed.

(** ** One queue *)

(** The tasks a scan of [r] may take or drop. *)
Definition touched (s : Scheduler) (r : qref) (check : SchedMeta → call schedulerDecision)
    (res : option SchedMeta) (t : string) : Prop :=
  t ∈ waiting s r ∧ ∃ m, live_meta s (qref_kind r) t = Some m ∧
    (check m = Some schedulerDrop ∨ res = Some m).

(** Nothing of the queue can be assigned: it holds no live entry, or its first
    live entry has to wait. *)
Definition blocked (s : Scheduler) (check : SchedMeta → call schedulerDecision) (r : qref) : Prop :=
  match waiting s r with
  | [] => True
  | t :: _ => ∃ m, live_meta s (qref_kind r) t = Some m ∧ check m = Some schedulerSkip
  end.

(** What a scan of [r] yields. *)
Definition scanned (s s' : Scheduler) (r : qref) (check : SchedMeta → call schedulerDecision)
    (res : option SchedMeta) : Prop :=
  match res with
  | Some m => check m = Some schedulerAssign ∧
      ∃ pre t, waiting s r = pre ++ t :: waiting s' r ∧ live_meta s (qref_kind r) t = Some m ∧
        sc_queued s' !! t = None ∧ sc_taskMeta s' !! t = Some m ∧
        ∀ x, x ∈ pre → live_meta s' (qref_kind r) x = None
  | None => blocked s' check r
  end.

Lemma touched_back P s s1 r check res t :
  evolves P s s1 → deques_ok s → touched s1 r check res t → touched s r check res t.
Proof.
  intros Hev Hok [Hin (m & Hm & Hc)]. split.
  - destruct (ev_waiting _ _ _ Hev Hok r) as (pre & -> & _). apply elem_of_app. by right.
  - exists m. split; [|done]. by apply (evolves_live _ _ _ _ _ _ Hev).
Qed.

Lemma waiting_front s r : Front (q_of s r) = head (waiting s r).
Proof. apply Front_list. Qed.

Lemma pop_front_fields s r :
  sc_taskMeta (pop_front s r) = sc_taskMeta s ∧ sc_queued (pop_front s r) = sc_queued s ∧
  sc_runningLeases (pop_front s r) = sc_runningLeases s ∧
  sc_deadlines (pop_front s r) = sc_deadlines s ∧ sc_placement (pop_front s r) = sc_placement s.
Proof. done. Qed.

(** The three ways the first entry leaves the queue. *)
Lemma evolves_stale_front P s r t rest :
  waiting s r = t :: rest → live_meta s (qref_kind r) t = None → evolves P s (pop_front s r).
Proof.
  intros Hr Hn. apply (evolves_pop P s (pop_front s r) r t rest (sc_taskMeta s !! t)); try done; auto.
Qed.

Lemma evolves_drop (P : string → Prop) s r t rest meta :
  waiting s r = t :: rest → P t →
  evolves P s (maybeCleanupQueueLocked (drop_task (pop_front s r) t) r meta).
Proof.
  intros Hr HP. destruct (cleanup_fields (drop_task (pop_front s r) t) r meta) as (Hm & Hq & Hl & Hd & Hpl).
  apply (evolves_pop P s _ r t rest (sc_taskMeta s !! t)); try done.
  - intros r' Hok. by apply cleanup_waiting.
  - intros r'. by destruct (cleanup_waiting (drop_task (pop_front s r) t) r meta r') as [-> _].
  - intros t' Hne. rewrite Hm, Hq. simpl. by rewrite !lookup_delete_ne by done.
  - unfold live_meta. rewrite Hm. simpl. by rewrite lookup_delete_eq.
  - right. rewrite Hm, Hq. simpl. rewrite !lookup_delete_eq. auto.
Qed.

Lemma evolves_take (P : string → Prop) s r t rest meta :
  waiting s r = t :: rest → P t →
  evolves P s (maybeCleanupQueueLocked (unqueue (pop_front s r) t) r meta).
Proof.
  intros Hr HP. destruct (cleanup_fields (unqueue (pop_front s r) t) r meta) as (Hm & Hq & Hl & Hd & Hpl).
  apply (evolves_pop P s _ r t rest (sc_taskMeta s !! t)); try done.
  - intros r' Hok. by apply cleanup_waiting.
  - intros r'. by destruct (cleanup_waiting (unqueue (pop_front s r) t) r meta r') as [-> _].
  - intros t' Hne. rewrite Hm, Hq. simpl. by rewrite !lookup_delete_ne by done.
  - unfold live_meta. rewrite Hm, Hq. simpl. rewrite lookup_delete_eq. by destruct (sc_taskMeta s !! t).
  - right. rewrite Hm, Hq. simpl. rewrite lookup_delete_eq. auto.
Qed.

Lemma popped_waiting s s1 r t rest :
  waiting s r = t :: rest → deques_ok s → (∀ r', waiting s1 r' = waiting (pop_front s r) r') →
  waiting s1 r = rest.
Proof.
  intros Hr Hok ->. destruct (pop_front_waiting s r r Hok) as [_ ->].
  rewrite decide_True by done. by rewrite Hr.
Qed.

(** Continue a scan after its first entry is gone. *)
Lemma scanned_cons P s s1 s' r check res t rest :
  waiting s r = t :: rest → waiting s1 r = rest → deques_ok s → evolves P s s1 →
  (∀ x, P x → touched s r check res x) →
  live_meta s1 (qref_kind r) t = None →
  evolves (touched s1 r check res) s1 s' → scanned s1 s' r check res →
  evolves (touched s r check res) s s' ∧ scanned s s' r check res.
Proof.
  intros Hr Hr1 Hok Hev HP Hstale Hev' Hsc. split.
  - apply (evolves_trans P (touched s1 r check res) _ s s1 s'); [done|done|done|].
    intros x. by apply (touched_back P).
  - destruct res as [m|]; [|done]. destruct Hsc as (Hc & pre & x & Hw & Hlive & Hq & Hm & Hpre).
    split; [done|]. exists (t :: pre), x. split_and!; try done.
    + rewrite Hr, <- Hr1, Hw. done.
    + by apply (evolves_live _ _ _ _ _ _ Hev).
    + intros y [->|Hy]%elem_of_cons; [|by apply Hpre]. by apply (evolves_stale _ _ _ _ _ Hev').
Qed.

Lemma next_loop_spec fuel s r check s' res :
  (length (waiting s r) ≤ fuel)%nat → deques_ok s →
  next_loop fuel s r check = Some (s', res) →
  evolves (touched s r check res) s s' ∧ scanned s s' r check res.
Proof.
  revert s. induction fuel as [|fuel IH]; intros s Hf Hok Hn; simpl in Hn.
  { injection Hn as <- <-. split; [apply evolves_refl|]. unfold scanned, blocked.
    destruct (waiting s r); [done|simpl in Hf; lia]. }
  rewrite waiting_front in Hn. destruct (waiting s r) as [|t rest] eqn:Hr; simpl in Hn.
  { injection Hn as <- <-. split; [apply evolves_refl|]. unfold scanned, blocked. by rewrite Hr. }
  simpl in Hf. destruct (live_meta s (qref_kind r) t) as [meta|] eqn:Hlive.
  - destruct (check meta) as [decision|] eqn:Hcheck; [|done]. cbn [mbind option_bind] in Hn.
    assert (Hin : t ∈ waiting s r) by (rewrite Hr; left). destruct decision.
    + injection Hn as <- <-. split; [apply evolves_refl|]. unfold scanned, blocked.
      rewrite Hr. by exists meta.
    + injection Hn as <- <-. set (s1 := maybeCleanupQueueLocked _ r meta).
      assert (Hev : evolves (touched s r check (Some meta)) s s1).
      { apply (evolves_take _ s r t rest meta); [done|]. split; [done|]. exists meta. auto. }
      split; [done|]. split; [done|]. exists [], t.
      assert (Hw : waiting s1 r = rest).
      { apply (popped_waiting s s1 r t rest Hr Hok). intros r'. unfold s1.
        by destruct (cleanup_waiting (unqueue (pop_front s r) t) r meta r') as [-> _]. }
      rewrite Hw. apply live_meta_Some in Hlive as Hl. destruct Hl as [Hmeta Hq].
      destruct (cleanup_fields (unqueue (pop_front s r) t) r meta) as (Hm1 & Hq1 & _).
      split_and!; [done|done| | |].
      * unfold s1. rewrite Hq1. apply lookup_delete_eq.
      * unfold s1. rewrite Hm1. done.
      * intros x Hx. by apply elem_of_nil in Hx.
    + set (s1 := maybeCleanupQueueLocked _ r meta) in Hn.
      assert (Hev : evolves (λ x, x = t) s s1) by (by apply (evolves_drop _ s r t rest meta)).
      assert (Hw : waiting s1 r = rest).
      { apply (popped_waiting s s1 r t rest Hr Hok). intros r'. unfold s1.
        by destruct (cleanup_waiting (drop_task (pop_front s r) t) r meta r') as [-> _]. }
      destruct (IH s1) as [Hev' Hsc]; [rewrite Hw; lia|by apply (ev_ok _ _ _ Hev)|done|].
      apply (scanned_cons (λ x, x = t) s s1 s' r check res t rest); try done.
      * intros x ->. split; [done|]. exists meta. auto.
      * destruct (cleanup_fields (drop_task (pop_front s r) t) r meta) as (Hm1 & _).
        unfold live_meta, s1. rewrite Hm1. simpl. by rewrite lookup_delete_eq.
  - assert (Hev : evolves (λ _, False) s (pop_front s r)) by (by apply (evolves_stale_front _ s r t rest)).
    assert (Hw : waiting (pop_front s r) r = rest) by (by apply (popped_waiting s _ r t rest)).
    destruct (IH (pop_front s r)) as [Hev' Hsc]; [rewrite Hw; lia|by apply (ev_ok _ _ _ Hev)|done|].
    by apply (scanned_cons (λ _, False) s (pop_front s r) s' r check res t rest).
Qed.

Lemma next_spec s r check s' res :
  deques_ok s → nextFromQueueLocked s r check = Some (s', res) →
  evolves (touched s r check res) s s' ∧ scanned s s' r check res.
Proof.
  intros Hok. apply next_loop_spec; [|done]. rewrite dq_Len_list. done.
Qed.

(** Pruning the stale front of a queue. *)
Lemma front_loop_spec fuel s r :
  (length (waiting s r) ≤ fuel)%nat → deques_ok s →
  let '(s', res) := front_loop fuel s r in
  evolves (λ _, False) s s' ∧ (∀ r', r' ≠ r → waiting s' r' = waiting s r') ∧
  match res with
  | Some m => ∃ t rest, waiting s' r = t :: rest ∧ live_meta s' (qref_kind r) t = Some m
  | None => waiting s' r = []
  end.
Proof.
  revert s. induction fuel as [|fuel IH]; intros s Hf Hok; simpl.
  { split_and!; [apply evolves_refl|done|]. destruct (waiting s r); [done|simpl in Hf; lia]. }
  rewrite waiting_front. destruct (waiting s r) as [|t rest] eqn:Hr; simpl.
  { split_and!; [apply evolves_refl|done|done]. }
  simpl in Hf. destruct (live_meta s (qref_kind r) t) as [meta|] eqn:Hlive.
  { split_and!; [apply evolves_refl|done|]. exists t, rest. done. }
  assert (Hev : evolves (λ _, False) s (pop_front s r)) by (by apply (evolves_stale_front _ s r t rest)).
  assert (Hw : waiting (pop_front s r) r = rest) by (by apply (popped_waiting s _ r t rest)).
  specialize (IH (pop_front s r)). destruct (front_loop fuel (pop_front s r) r) as [s' res].
  destruct IH as (Hev' & Hother & Hres); [rewrite Hw; lia|by apply (ev_ok _ _ _ Hev)|].
  split_and!; [|  |done].
  - by apply (evolves_trans _ _ _ _ _ _ Hev Hev').
  - intros r' Hne. rewrite Hother by done. destruct (pop_front_waiting s r r' Hok) as [_ ->].
    by rewrite decide_False.
Qed.

Lemma front_spec s r :
  deques_ok s →
  let '(s', res) := frontMetaLocked s r in
  evolves (λ _, False) s s' ∧ (∀ r', r' ≠ r → waiting s' r' = waiting s r') ∧
  match res with
  | Some m => ∃ t rest, waiting s' r = t :: rest ∧ live_meta s' (qref_kind r) t = Some m
  | None => waiting s' r = []
  end.
Proof. intros Hok. apply front_loop_spec; [|done]. by rewrite dq_Len_list. Qed.

(** ** Several queues *)

Lemma head_stable P s s' r t rest m :
  evolves P s s' → deques_ok s → ¬ P t →
  waiting s r = t :: rest → live_meta s (qref_kind r) t = Some m →
  waiting s' r = t :: rest ∧ live_meta s' (qref_kind r) t = Some m.
Proof.
  intros Hev Hok HP Hr Hlive.
  assert (Hlive' : live_meta s' (qref_kind r) t = Some m).
  { apply live_meta_Some. apply live_meta_Some in Hlive.
    destruct (ev_task _ _ _ Hev t) as [[-> ->]|[? _]]; [done|by destruct HP]. }
  split; [|done]. destruct (ev_waiting _ _ _ Hev Hok r) as (pre & Hw & Hpre). rewrite Hr in Hw.
  destruct pre as [|x pre]; [done|]. injection Hw as <- _.
  rewrite Hpre in Hlive' by left. done.
Qed.

Lemma waiting_nil_stable P s s' r :
  evolves P s s' → deques_ok s → waiting s r = [] → waiting s' r = [].
Proof.
  intros Hev Hok Hr. destruct (ev_waiting _ _ _ Hev Hok r) as (pre & Hw & _). rewrite Hr in Hw.
  symmetry in Hw. by apply app_eq_nil in Hw as [_ ?].
Qed.

Lemma blocked_stable P s s' check r :
  evolves P s s' → deques_ok s → (∀ t, t ∈ waiting s r → ¬ P t) →
  blocked s check r → blocked s' check r.
Proof.
  intros Hev Hok HP. unfold blocked. destruct (waiting s r) as [|t rest] eqn:Hr.
  - by rewrite (waiting_nil_stable _ _ _ _ Hev Hok Hr).
  - intros (m & Hlive & Hc). destruct (head_stable _ _ _ _ _ _ _ Hev Hok (HP t ltac:(left)) Hr Hlive) as [-> ?].
    by exists m.
Qed.

(** What an assignment takes from a queue. *)
Definition taken (s s' : Scheduler) (r : qref) (check : SchedMeta → call schedulerDecision)
    (m : SchedMeta) : Prop := scanned s s' r check (Some m).

Lemma taken_back P Q s s1 s' r check m :
  evolves P s s1 → evolves Q s1 s' → deques_ok s → taken s1 s' r check m → taken s s' r check m.
Proof.
  intros Hev Hev' Hok (Hc & pre & t & Hw & Hlive & Hq & Hm & Hpre). split; [done|].
  destruct (ev_waiting _ _ _ Hev Hok r) as (pre0 & Hw0 & Hpre0). exists (pre0 ++ pre), t.
  split_and!; try done.
  - by rewrite Hw0, Hw, app_assoc.
  - by apply (evolves_live _ _ _ _ _ _ Hev).
  - intros x [Hx|Hx]%elem_of_app; [|by apply Hpre]. apply (evolves_stale _ _ _ _ _ Hev'). by apply Hpre0.
Qed.

Section Routes.
(** The queue of a task never changes: the service derives it from the task's
    specification. *)
Context (route : string → qref).

Definition entries_ok (s : Scheduler) : Prop := deques_ok s ∧ ∀ r t, t ∈ waiting s r → route t = r.

Lemma evolves_entries P s s' : evolves P s s' → entries_ok s → entries_ok s'.
Proof.
  intros Hev [Hok Hr]. split; [by apply (ev_ok _ _ _ Hev)|]. intros r t Ht. apply Hr.
  destruct (ev_waiting _ _ _ Hev Hok r) as (pre & -> & _). apply elem_of_app. by right.
Qed.

Section Scans.
Context (snapshot : workerSnapshot) (check : SchedMeta → call schedulerDecision).

(** The check used on a queue. *)
Definition check_of (r : qref) : SchedMeta → call schedulerDecision :=
  match r with QActor a => actor_check snapshot a check | _ => check end.

Lemma check_of_drop r m : check_of r m = Some schedulerDrop → check m = Some schedulerDrop.
Proof. destruct r; simpl; try done. unfold actor_check. by destruct (_ && _). Qed.

(** The tasks the scan of the queues [rs] removes. *)
Definition gone_in (s : Scheduler) (rs : list qref) (res : option SchedMeta) (t : string) : Prop :=
  route t ∈ rs ∧ ∃ m, live_meta s (qref_kind (route t)) t = Some m ∧
    (check m = Some schedulerDrop ∨ res = Some m).

Lemma gone_in_back P s s1 (rs rs' : list qref) res t :
  evolves P s s1 → (∀ r, r ∈ rs → r ∈ rs') → gone_in s1 rs res t → gone_in s rs' res t.
Proof.
  intros Hev Hsub [Hr (m & Hlive & Hc)]. split; [auto|]. exists m. split; [|done].
  by apply (evolves_live _ _ _ _ _ _ Hev).
Qed.

Lemma touched_gone s r rs res t :
  entries_ok s → r ∈ rs → touched s r (check_of r) res t → gone_in s rs res t.
Proof.
  intros [_ Hr] Hin [Ht (m & Hlive & Hc)]. rewrite <- (Hr r t Ht) in *. split; [done|].
  exists m. split; [done|]. destruct Hc as [Hc|]; [|by right]. left. by apply (check_of_drop (route t)).
Qed.

Definition next_queue (s : Scheduler) (r : qref) : call (Scheduler * option SchedMeta) :=
  nextFromQueueLocked s r (check_of r).

(** The outcome of trying the queues [l] in order. *)
Definition tried (s s' : Scheduler) (l : list qref) (res : option SchedMeta) : Prop :=
  match res with
  | Some m => ∃ l1 r l2, l = l1 ++ r :: l2 ∧ evolves (gone_in s (l1 ++ [r]) res) s s' ∧
      taken s s' r (check_of r) m ∧ ∀ r', r' ∈ l1 → r' ≠ r → blocked s' (check_of r') r'
  | None => evolves (gone_in s l res) s s' ∧ ∀ r, r ∈ l → blocked s' (check_of r) r
  end.

Lemma blocked_elsewhere P s s' (rs : list qref) r :
  evolves P s s' → entries_ok s → (∀ t, P t → route t ∈ rs) → r ∉ rs →
  blocked s (check_of r) r → blocked s' (check_of r) r.
Proof.
  intros Hev [Hok He] HP Hr. apply (blocked_stable P); [done|done|]. intros t Ht Hp.
  apply Hr. rewrite <- (He r t Ht). auto.
Qed.

Lemma first_of_tried l : ∀ s s' res,
  entries_ok s → first_of next_queue s l = Some (s', res) → tried s s' l res.
Proof.
  induction l as [|r l IH]; intros s s' res Hok Hf; simpl in Hf.
  { injection Hf as <- <-. split; [apply evolves_refl|]. intros r Hr. by apply elem_of_nil in Hr. }
  destruct (next_queue s r) as [[s1 res1]|] eqn:Hn; [|done]. cbn [mbind option_bind] in Hf.
  apply next_spec in Hn as [Hev Hsc]; [|apply Hok].
  destruct res1 as [m|].
  - injection Hf as <- <-. exists [], r, l. split_and!; [done| |done|].
    + apply (evolves_weaken _ _ _ _ (λ t, touched_gone s r [r] (Some m) t Hok ltac:(left)) Hev).
    + intros r' Hr'. by apply elem_of_nil in Hr'.
  - pose proof (evolves_entries _ _ _ Hev Hok) as Hok1. specialize (IH s1 s' res Hok1 Hf).
    assert (Hev1 : ∀ rs res', evolves (gone_in s (r :: rs) res') s s1).
    { intros rs res'. revert Hev. apply evolves_weaken. intros t Ht.
      apply (touched_gone s r (r :: rs) None) in Ht; [|done|left].
      destruct Ht as [? (m & ? & [?|?])]; [|done]. split; [done|]. exists m. auto. }
    destruct res as [m|].
    + destruct IH as (l1 & r2 & l2 & -> & Hev2 & Htk & Hbl). exists (r :: l1), r2, l2.
      split_and!; [done| | |].
      * apply (evolves_trans _ _ _ _ _ _ (Hev1 (l1 ++ [r2]) (Some m)) Hev2); [done|].
        intros t. apply (gone_in_back _ _ _ _ _ _ _ Hev). intros; by right.
      * by apply (taken_back _ _ _ _ _ _ _ _ Hev Hev2 (proj1 Hok)).
      * intros r' Hr' Hne. destruct (decide (r' ∈ l1)) as [|Hni]; [by apply Hbl|].
        apply elem_of_cons in Hr' as [->|]; [|done].
        apply (blocked_elsewhere _ _ _ (l1 ++ [r2]) _ Hev2 Hok1); [by intros t [? _]| |done].
        rewrite elem_of_app, list_elem_of_singleton. tauto.
    + destruct IH as (Hev2 & Hbl). split.
      * apply (evolves_trans _ _ _ _ _ _ (Hev1 l None) Hev2); [done|].
        intros t. apply (gone_in_back _ _ _ _ _ _ _ Hev). intros; by right.
      * intros r' Hr'. destruct (decide (r' ∈ l)) as [|Hni]; [by apply Hbl|].
        apply elem_of_cons in Hr' as [->|]; [|done].
        by apply (blocked_elsewhere _ _ _ l _ Hev2 Hok1); [intros t [? _]| |].
Qed.

(** *** The LLM candidates *)

Definition never : string → Prop := λ _, False.

Lemma evolves_never_trans s1 s2 s3 : evolves never s1 s2 → evolves never s2 s3 → evolves never s1 s3.
Proof. intros H1 H2. by apply (evolves_trans never never never s1 s2 s3). Qed.

(** A cold model waits for a worker that has it. *)
Definition held_back (s : Scheduler) (nowMs : Z) (key : modelKey) : Prop :=
  ¬ (key ∈ ws_CachedModels snapshot) ∧ cachedWorkerHasCapacityLocked (sc_placement s) key = true ∧
  ∃ t rest m, waiting s (QLLM key) = t :: rest ∧ live_meta s TaskKindLLM t = Some m ∧
    i64 (nowMs - sm_CreatedAtMs m) < localityQueueWait.

Lemma held_back_stable P s s' nowMs key :
  evolves P s s' → deques_ok s → (∀ t, t ∈ waiting s (QLLM key) → ¬ P t) →
  held_back s nowMs key → held_back s' nowMs key.
Proof.
  intros Hev Hok HP (Hn & Hc & t & rest & m & Hw & Hlive & Ht). split; [done|].
  rewrite (ev_placement _ _ _ Hev). split; [done|].
  destruct (head_stable P s s' (QLLM key) t rest m) as [Hw' Hlive']; try done.
  - apply HP. rewrite Hw. left.
  - exists t, rest, m. done.
Qed.

(** A model with nothing to offer this worker now. *)
Definition passed_over (s : Scheduler) (nowMs : Z) (key : modelKey) : Prop :=
  waiting s (QLLM key) = [] ∨ held_back s nowMs key.

Lemma passed_over_stable s s' nowMs key :
  evolves never s s' → deques_ok s → passed_over s nowMs key → passed_over s' nowMs key.
Proof.
  intros Hev Hok [Hw|Hh]; [left; by apply (waiting_nil_stable _ _ _ _ Hev)|right].
  apply (held_back_stable never s s'); [done|done| |done]. auto.
Qed.

Definition cached_candidates (s : Scheduler) : list modelKey :=
  filter (λ key, dq_Len (q_of s (QLLM key)) ≠ 0%nat) (elements (ws_CachedModels snapshot)).

Lemma cold_candidate_spec s0 nowMs s cands key :
  evolves never s0 s → deques_ok s0 → (∀ k, k ∈ cached_candidates s0 → k ∈ cands) →
  let '(s', cands') := cold_candidate nowMs (s, cands) key in
  evolves never s s' ∧ (∀ k, k ∈ cands → k ∈ cands') ∧ (key ∈ cands' ∨ passed_over s' nowMs key).
Proof.
  intros Hev0 Hok0 Hc. pose proof (ev_ok _ _ _ Hev0 Hok0) as Hok. unfold cold_candidate.
  destruct (decide (dq_Len (q_of s (QLLM key)) = 0%nat)) as [Hl|Hl].
  { split_and!; [apply evolves_refl|done|]. right. left. rewrite dq_Len_list in Hl.
    by apply length_zero_iff_nil. }
  destruct (decide (key ∈ cands)) as [Hin|Hni]; [split_and!; [apply evolves_refl|done|by left]|].
  assert (Hncached : key ∉ ws_CachedModels snapshot).
  { intros Hk. apply Hni, Hc. unfold cached_candidates. apply list_elem_of_filter.
    split; [|by apply elem_of_elements]. rewrite dq_Len_list in Hl |- *. intros Hz. apply Hl.
    apply length_zero_iff_nil in Hz. apply length_zero_iff_nil.
    by apply (waiting_nil_stable _ _ _ (QLLM key) Hev0 Hok0). }
  pose proof (front_spec s (QLLM key) Hok) as Hf.
  destruct (frontMetaLocked s (QLLM key)) as [s' [m|]]; destruct Hf as (Hev & _ & Hf).
  - destruct (_ && _) eqn:Hb.
    + split_and!; [done|done|]. right. right. apply andb_true_iff in Hb as [Hb1 Hb2].
      apply Z.ltb_lt in Hb2. destruct Hf as (t & rest & Hw & Hlive). split_and!; [done|done|].
      by exists t, rest, m.
    + split_and!; [done| |].
      * intros k Hk. apply elem_of_app. by left.
      * left. apply elem_of_app. right. apply list_elem_of_singleton. done.
  - split_and!; [done|done|]. right. by left.
Qed.

Lemma cold_candidates_spec s0 nowMs keys : ∀ s cands,
  evolves never s0 s → deques_ok s0 → (∀ k, k ∈ cached_candidates s0 → k ∈ cands) →
  let '(s', cands') := foldl (cold_candidate nowMs) (s, cands) keys in
  evolves never s s' ∧ (∀ k, k ∈ cands → k ∈ cands') ∧
  ∀ key, key ∈ keys → key ∈ cands' ∨ passed_over s' nowMs key.
Proof.
  induction keys as [|key keys IH]; intros s cands Hev Hok Hc; cbn [foldl].
  { split_and!; [apply evolves_refl|done|]. intros key Hk. by apply elem_of_nil in Hk. }
  pose proof (cold_candidate_spec s0 nowMs s cands key Hev Hok Hc) as Hone.
  destruct (cold_candidate nowMs (s, cands) key) as [s1 c1]. destruct Hone as (Hev1 & Hsub1 & Hkey).
  specialize (IH s1 c1 (evolves_never_trans _ _ _ Hev Hev1) Hok (λ k Hk, Hsub1 k (Hc k Hk))).
  destruct (foldl (cold_candidate nowMs) (s1, c1) keys) as [s2 c2].
  destruct IH as (Hev2 & Hsub2 & Hall). split_and!.
  - by apply (evolves_never_trans _ _ _ Hev1).
  - auto.
  - intros k [->|Hk]%elem_of_cons; [|by apply Hall]. destruct Hkey as [|Hp]; [auto|right].
    apply (passed_over_stable _ _ _ _ Hev2); [|done].
    by apply (ev_ok _ _ _ (evolves_never_trans _ _ _ Hev Hev1)).
Qed.

Lemma prune_all_spec keys : ∀ s, deques_ok s →
  evolves never s (foldl (λ s key, (frontMetaLocked s (QLLM key)).1) s keys).
Proof.
  induction keys as [|key keys IH]; intros s Hok; simpl; [apply evolves_refl|].
  pose proof (front_spec s (QLLM key) Hok) as Hf.
  destruct (frontMetaLocked s (QLLM key)) as [s1 res]. destruct Hf as (Hev & _). simpl.
  apply (evolves_never_trans _ _ _ Hev). by apply IH, (ev_ok _ _ _ Hev).
Qed.

Lemma candidates_spec s nowMs :
  deques_ok s →
  let '(s', cands) := llmCandidateModelsLocked s snapshot nowMs in
  evolves never s s' ∧ ∀ key, key ∈ cands ∨ passed_over s' nowMs key.
Proof.
  intros Hok. unfold llmCandidateModelsLocked. fold (cached_candidates s).
  pose proof (cold_candidates_spec s nowMs (elements (dom (sc_llmByModel s))) s (cached_candidates s)
    (evolves_refl _ s) Hok (λ _ Hk, Hk)) as Hfold.
  destruct (foldl (cold_candidate nowMs) _ _) as [s1 c1]. destruct Hfold as (Hev & Hsub & Hall).
  assert (Hall' : ∀ key, key ∈ c1 ∨ passed_over s1 nowMs key).
  { intros key. destruct (decide (key ∈ dom (sc_llmByModel s))) as [Hk|Hk].
    - by apply Hall, elem_of_elements.
    - right. left. apply (waiting_nil_stable _ _ _ _ Hev Hok). unfold waiting. simpl.
      by rewrite (not_elem_of_dom_1 _ _ Hk). }
  destruct (decide _); [done|].
  pose proof (prune_all_spec c1 s1 (ev_ok _ _ _ Hev Hok)) as Hev2. split.
  - by apply (evolves_never_trans _ _ _ Hev).
  - intros key. destruct (Hall' key) as [Hk|Hk]; [left|right].
    + by rewrite merge_sort_Permutation.
    + apply (passed_over_stable _ _ _ _ Hev2); [by apply (ev_ok _ _ _ Hev)|done].
Qed.

(** *** [Assign] *)

(** The queues open to the worker, and their priority. *)
Definition serves (r : qref) : Prop :=
  match r with
  | QTarget w => w = ws_WorkerID snapshot
  | QActor a => a ∈ ws_ActorIDs snapshot
  | QLLM _ | QGeneral => True
  end.
Definition rank (r : qref) : nat :=
  match r with QTarget _ => 0 | QActor _ => 1 | QLLM _ => 2 | QGeneral => 3 end.

(** The queue has nothing for the worker now. *)
Definition idle (s : Scheduler) (nowMs : Z) (r : qref) : Prop :=
  blocked s (check_of r) r ∨ ∃ key, r = QLLM key ∧ held_back s nowMs key.

(** The task's metadata says the task may leave the queue. *)
Definition gone (s : Scheduler) (res : option SchedMeta) (t : string) : Prop :=
  ∃ m, live_meta s (qref_kind (route t)) t = Some m ∧ (check m = Some schedulerDrop ∨ res = Some m).

Lemma first_of_map {A} (f : A → qref) (l : list A) (next : Scheduler → A → call (Scheduler * option SchedMeta)) s :
  (∀ s x, next s x = next_queue s (f x)) → first_of next s l = first_of next_queue s (map f l).
Proof.
  intros Hf. revert s. induction l as [|x l IH]; intros s; [done|]. cbn [first_of map]. rewrite Hf.
  destruct (next_queue s (f x)) as [[s1 [m|]]|]; [done| |done]. apply IH.
Qed.

Lemma first_of_app l1 l2 s :
  first_of next_queue s (l1 ++ l2) =
  ('(s, res) ← first_of next_queue s l1;
   match res with Some meta => Some (s, Some meta) | None => first_of next_queue s l2 end).
Proof.
  revert s. induction l1 as [|r l1 IH]; intros s; [done|]. cbn [first_of app].
  destruct (next_queue s r) as [[s1 [m|]]|]; [done| |done]. apply IH.
Qed.

Lemma first_of_one r s : first_of next_queue s [r] = next_queue s r.
Proof. cbn [first_of]. by destruct (next_queue s r) as [[s1 [m|]]|]. Qed.

Definition front_queues : list qref := QTarget (ws_WorkerID snapshot) :: map QActor (ws_ActorIDs snapshot).
Definition back_queues (candidates : list modelKey) : list qref := map QLLM candidates ++ [QGeneral].

Lemma Assign_queues s nowMs :
  ws_WorkerID snapshot ≠ EmptyString →
  Assign s snapshot nowMs check =
  ('(s, res) ← first_of next_queue s front_queues;
   match res with Some meta => Some (s, Some meta) | None =>
   let (s, candidates) := llmCandidateModelsLocked s snapshot nowMs in
   first_of next_queue s (back_queues candidates) end).
Proof.
  intros Hw%str_empty_false. unfold Assign. rewrite Hw. unfold front_queues, back_queues.
  cbn [first_of]. change (nextFromQueueLocked s (QTarget (ws_WorkerID snapshot)) check)
    with (next_queue s (QTarget (ws_WorkerID snapshot))).
  destruct (next_queue s _) as [[s1 [m|]]|]; [done| |done]. cbn [mbind option_bind].
  rewrite (first_of_map QActor) by done.
  destruct (first_of next_queue s1 _) as [[s2 [m|]]|]; [done| |done]. cbn [mbind option_bind].
  destruct (llmCandidateModelsLocked s2 snapshot nowMs) as [s3 candidates].
  rewrite first_of_app, (first_of_map QLLM) by done.
  destruct (first_of next_queue s3 _) as [[s4 [m|]]|]; [done| |done]. cbn [mbind option_bind].
  by rewrite first_of_one.
Qed.

Lemma front_serves r : r ∈ front_queues → serves r ∧ (rank r < 2)%nat.
Proof.
  unfold front_queues. rewrite elem_of_cons, list_elem_of_fmap. intros [->|(a & -> & Ha)]; simpl; auto.
Qed.
Lemma serves_front r : serves r → (rank r < 2)%nat → r ∈ front_queues.
Proof.
  unfold front_queues. rewrite elem_of_cons, list_elem_of_fmap. destruct r; simpl; try lia; naive_solver.
Qed.

(** Which queues come before a given one. *)
Lemma before_front l1 r l2 r' :
  front_queues = l1 ++ r :: l2 → serves r' → (rank r' < rank r)%nat → r' ∈ l1.
Proof.
  unfold front_queues. intros Hl Hs Hr. destruct l1 as [|x l1].
  - injection Hl as <- _. simpl in Hr. lia.
  - injection Hl as <- Hl. assert (Hin : r ∈ map QActor (ws_ActorIDs snapshot)).
    { rewrite Hl. apply elem_of_app. right. left. }
    apply list_elem_of_fmap in Hin as (a & -> & _). destruct r'; simpl in Hr; try lia.
    simpl in Hs. subst. left.
Qed.
Lemma before_back cands l1 r l2 r' :
  back_queues cands = l1 ++ r :: l2 → serves r' → (rank r' < rank r)%nat →
  (rank r' < 2)%nat ∨ ∃ key, r' = QLLM key ∧ (key ∈ cands → r' ∈ l1).
Proof.
  unfold back_queues. intros Hl Hs Hr. destruct r' as [| | |key]; simpl in Hr; [|by left; simpl; lia..|].
  - assert (Hin : r ∈ map QLLM cands ++ [QGeneral]) by (rewrite Hl; apply elem_of_app; right; left).
    apply elem_of_app in Hin as [(k & -> & _)%list_elem_of_fmap| ->%list_elem_of_singleton]; simpl in Hr; lia.
  - right. exists key. split; [done|]. intros Hk.
    assert (Hin : QLLM key ∈ l1 ++ r :: l2).
    { rewrite <- Hl. apply elem_of_app. left. by apply list_elem_of_fmap_2. }
    apply elem_of_app in Hin as [?|Hin]; [done|].
    destruct r; simpl in Hr; try lia. apply elem_of_cons in Hin as [?|Hin]; [done|].
    destruct l2 as [|x l2] using rev_ind; [by apply elem_of_nil in Hin|].
    rewrite app_comm_cons, app_assoc in Hl. apply app_inj_tail in Hl as [Hl _].
    assert (Hg : QGeneral ∈ map QLLM cands) by (rewrite Hl; apply elem_of_app; right; left).
    by apply list_elem_of_fmap in Hg as (? & ? & _).
Qed.
Lemma back_rank cands r : r ∈ back_queues cands → serves r ∧ (2 ≤ rank r)%nat.
Proof.
  unfold back_queues. rewrite elem_of_app, list_elem_of_fmap, list_elem_of_singleton.
  intros [(k & -> & _)| ->]; simpl; auto with lia.
Qed.

Lemma idle_stable P (rs : list qref) s s' nowMs r :
  evolves P s s' → entries_ok s → (∀ t, P t → route t ∈ rs) → r ∉ rs →
  idle s nowMs r → idle s' nowMs r.
Proof.
  intros Hev Hok HP Hr [Hb|(key & -> & Hh)].
  - left. by apply (blocked_elsewhere P s s' rs).
  - right. exists key. split; [done|]. apply (held_back_stable P s s'); [done|apply Hok| |done].
    intros t Ht Hp. apply Hr. rewrite <- (proj2 Hok _ t Ht). auto.
Qed.

Lemma gone_in_gone s rs res t : gone_in s rs res t → gone s res t.
Proof. by intros [_ ?]. Qed.

Lemma tried_evolves s s' l res : tried s s' l res → evolves (gone s res) s s'.
Proof.
  destruct res as [m|].
  - intros (l1 & r & l2 & -> & Hev & _). revert Hev. apply evolves_weaken. intros t. apply gone_in_gone.
  - intros [Hev _]. revert Hev. apply evolves_weaken. intros t. apply gone_in_gone.
Qed.

Lemma gone_weaken s s0 P res t : evolves P s0 s → gone s res t → gone s0 res t.
Proof.
  intros Hev (m & Hm & Hc). exists m. split; [|done]. by apply (evolves_live _ _ _ _ _ _ Hev).
Qed.
Lemma gone_drop s res t : gone s None t → gone s res t.
Proof. intros (m & Hm & [?|?]); [|done]. exists m. auto. Qed.

(** The state handed to the second half of [Assign]. *)
Lemma front_then_candidates s s1 nowMs :
  entries_ok s → tried s s1 front_queues None →
  let (s2, cands) := llmCandidateModelsLocked s1 snapshot nowMs in
  evolves (gone s None) s s2 ∧ entries_ok s2 ∧
  (∀ r, serves r → (rank r < 2)%nat → idle s2 nowMs r) ∧
  ∀ key, key ∈ cands ∨ idle s2 nowMs (QLLM key).
Proof.
  intros Hok Ht. pose proof (tried_evolves _ _ _ _ Ht) as Hev1.
  pose proof (evolves_entries _ _ _ Hev1 Hok) as Hok1.
  pose proof (candidates_spec s1 nowMs (proj1 Hok1)) as Hc.
  destruct (llmCandidateModelsLocked s1 snapshot nowMs) as [s2 cands]. destruct Hc as [Hev2 Hc].
  split_and!.
  - by apply (evolves_trans _ _ _ _ _ _ Hev1 Hev2).
  - by apply (evolves_entries _ _ _ Hev2).
  - intros r Hs Hr. apply (idle_stable never [] s1 s2 nowMs r); [done|done|done|by apply not_elem_of_nil|].
    left. destruct Ht as [_ Hb]. by apply Hb, serves_front.
  - intros key. destruct (Hc key) as [|[Hw|Hh]]; [by left|right; left|right; right; by exists key].
    unfold blocked. by rewrite Hw.
Qed.

Lemma Assign_core s nowMs s' res :
  entries_ok s → ws_WorkerID snapshot ≠ EmptyString →
  Assign s snapshot nowMs check = Some (s', res) →
  evolves (gone s res) s s' ∧
  match res with
  | Some m => ∃ r, serves r ∧ taken s s' r (check_of r) m ∧
      ∀ r', serves r' → (rank r' < rank r)%nat → idle s' nowMs r'
  | None => ∀ r, serves r → idle s' nowMs r
  end.
Proof.
  intros Hok Hw. rewrite Assign_queues by done. intros Ha.
  destruct (first_of next_queue s front_queues) as [[s1 res1]|] eqn:Hf; [|done].
  cbn [mbind option_bind] in Ha. apply first_of_tried in Hf; [|done]. destruct res1 as [m1|].
  { injection Ha as <- <-. split; [by apply (tried_evolves _ _ front_queues)|].
    destruct Hf as (l1 & r & l2 & Hl & Hev & Htk & Hb). exists r.
    assert (Hr : r ∈ front_queues) by (rewrite Hl; apply elem_of_app; right; left).
    split_and!; [by apply front_serves|done|]. intros r' Hs Hrk. left.
    apply Hb; [by apply (before_front l1 r l2)|]. intros ->. lia. }
  pose proof (front_then_candidates s s1 nowMs Hok Hf) as H2.
  destruct (llmCandidateModelsLocked s1 snapshot nowMs) as [s2 cands].
  destruct H2 as (Hev2 & Hok2 & Hfront & Hllm).
  apply first_of_tried in Ha; [|done]. split.
  { apply (evolves_trans _ _ _ _ _ _ Hev2 (tried_evolves _ _ _ _ Ha)).
    - intros t. apply gone_drop.
    - intros t. by apply (gone_weaken _ _ (gone s None)). }
  destruct res as [m|].
  - destruct Ha as (l1 & r & l2 & Hl & Hev3 & Htk & Hb). exists r.
    assert (Hsub : ∀ x, x ∈ l1 ++ [r] → (2 ≤ rank x)%nat).
    { intros x Hx. apply (back_rank cands). rewrite Hl. rewrite !elem_of_app in *. set_solver. }
    assert (Hr : r ∈ back_queues cands) by (rewrite Hl; apply elem_of_app; right; left).
    split_and!; [by apply (back_rank cands)|by apply (taken_back _ _ _ _ _ _ _ _ Hev2 Hev3 (proj1 Hok))|].
    intros r' Hs Hrk. destruct (before_back cands l1 r l2 r' Hl Hs Hrk) as [Hlow|(key & -> & Hk)].
    + apply (idle_stable _ (l1 ++ [r]) _ _ _ _ Hev3 Hok2); [by intros t [? _]| |by apply Hfront].
      intros Hin%Hsub. lia.
    + destruct (Hllm key) as [Hin|Hi].
      * left. apply Hb; [by apply Hk|]. intros <-. lia.
      * destruct (decide (QLLM key ∈ l1)) as [Hin|Hni]; [left; apply Hb; [done|intros <-; lia]|].
        apply (idle_stable _ (l1 ++ [r]) _ _ _ _ Hev3 Hok2); [by intros t [? _]| |done].
        rewrite elem_of_app, list_elem_of_singleton. intros [?|<-]; [done|lia].
  - destruct Ha as [Hev3 Hb]. intros r Hs. destruct (decide (r ∈ back_queues cands)) as [Hin|Hni].
    { left. by apply Hb. }
    apply (idle_stable _ (back_queues cands) _ _ _ _ Hev3 Hok2); [by intros t [? _]|done|].
    destruct r as [| | |key]; [|by apply Hfront; simpl; auto..|].
    + destruct Hni. apply elem_of_app. right. by apply list_elem_of_singleton.
    + destruct (Hllm key) as [Hin|]; [|done]. destruct Hni. apply elem_of_app. left.
      by apply list_elem_of_fmap_2.
Qed.
End Scans.

(** ** The reachable states *)

(** A step of the service on the scheduler; the metadata it enqueues names the
    task's own queue. *)
Inductive sched_step : Scheduler → Scheduler → Prop :=
| st_enqueue s m : queueForLocked (typed m) = route (sm_TaskID m) → sched_step s (Enqueue s m)
| st_return s m : queueForLocked (typed m) = route (sm_TaskID m) → sched_step s (ReturnFront s m)
| st_forget s t : sched_step s (Forget s t)
| st_assign s snapshot nowMs check s' res :
    Assign s snapshot nowMs check = Some (s', res) → sched_step s s'
| st_track s t deadline epoch : sched_step s (TrackRunning s t deadline epoch)
| st_complete s t : sched_step s (CompleteRunning s t)
| st_expire s nowMs : sched_step s (PopExpiredRunning s nowMs).1
| st_worker s worker : sched_step s (Scheduler_UpsertWorker s worker)
| st_stats s name version w stats : sched_step s (Scheduler_UpdateLLMStats s name version w stats).

Record sched_ok (s : Scheduler) : Prop := {
  so_entries : entries_ok s;
  so_queued : ∀ t k, sc_queued s !! t = Some k →
    k = qref_kind (route t) ∧ t ∈ waiting s (route t) ∧ is_Some (sc_taskMeta s !! t);
  so_meta : ∀ t m, sc_taskMeta s !! t = Some m → sm_TaskID m = t ∧ queueForLocked m = route t;
  so_leases : ∀ t l, sc_runningLeases s !! t = Some l → rl_taskID l = t ∧ l ∈ sc_deadlines s;
  so_deadlines : StronglySorted lease_le (sc_deadlines s);
  so_placement : star placement_step emptyPlacement (sc_placement s)
}.

Lemma newScheduler_ok : sched_ok newScheduler.
Proof.
  split; simpl.
  - split; intros r; [|intros t]; by destruct r; simpl; unfold waiting; simpl;
      rewrite ?lookup_empty; simpl; (apply empty_deque_ok || intros ?%elem_of_nil).
  - intros t k Hq. by rewrite lookup_empty in Hq.
  - intros t m Hq. by rewrite lookup_empty in Hq.
  - intros t l Hq. by rewrite lookup_empty in Hq.
  - constructor.
  - constructor.
Qed.

Lemma evolves_ok P s s' : evolves P s s' → sched_ok s → sched_ok s'.
Proof.
  intros Hev [He Hq Hm Hl Hd Hp]. split.
  - by apply (evolves_entries _ _ _ Hev).
  - intros t k Ht. destruct (ev_task _ _ _ Hev t) as [[Eq Em]|(_ & Eq & _)]; [|congruence].
    rewrite Em. rewrite Eq in Ht. destruct (Hq t k Ht) as (-> & Hin & [m Hmeta]). split_and!; [done| |by rewrite Hmeta].
    destruct (ev_waiting _ _ _ Hev (proj1 He) (route t)) as (pre & Hw & Hpre). rewrite Hw in Hin.
    apply elem_of_app in Hin as [Hin|]; [|done]. specialize (Hpre t Hin).
    assert (Hlive : live_meta s' (qref_kind (route t)) t = Some m) by (apply live_meta_Some; by rewrite Em, Eq).
    congruence.
  - intros t m Ht. apply Hm. destruct (ev_task _ _ _ Hev t) as [[_ Em]|(_ & _ & [Em|Em])]; congruence.
  - rewrite (ev_leases _ _ _ Hev), (ev_deadlines _ _ _ Hev). done.
  - by rewrite (ev_deadlines _ _ _ Hev).
  - by rewrite (ev_placement _ _ _ Hev).
Qed.

Lemma queueForLocked_kind m : qref_kind (queueForLocked m) = sm_TaskType m.
Proof. unfold queueForLocked. by destruct (sm_TaskType m). Qed.

(** A new task enters its queue, at either end. *)
Definition insert_task (s : Scheduler) (m : SchedMeta) (push : taskDeque → string → taskDeque) : Scheduler :=
  let s := with_tasks s (<[sm_TaskID m := m]> (sc_taskMeta s)) (<[sm_TaskID m := sm_TaskType m]> (sc_queued s)) in
  with_q s (queueForLocked m) (push (q_of s (queueForLocked m)) (sm_TaskID m)).

Lemma insert_task_ok s m push :
  (∀ q t, dq_ok q → dq_ok (push q t) ∧ ∀ x, x ∈ dq_list (push q t) ↔ x = t ∨ x ∈ dq_list q) →
  sched_ok s → queueForLocked m = route (sm_TaskID m) →
  sched_ok (insert_task s m push).
Proof.
  intros Hpush [[Hok He] Hq Hm Hl Hd Hp] Hr.
  assert (Hw : ∀ r x, x ∈ waiting (insert_task s m push) r ↔
    x ∈ waiting s r ∨ r = queueForLocked m ∧ x = sm_TaskID m).
  { intros r x. unfold waiting, insert_task. rewrite q_of_with_q. case_decide as Hd'.
    - subst r. destruct (Hpush (q_of s (queueForLocked m)) (sm_TaskID m) (Hok _)) as [_ Hx].
      change (q_of (with_tasks s _ _) (queueForLocked m)) with (q_of s (queueForLocked m)).
      rewrite Hx. tauto.
    - change (q_of (with_tasks s _ _) r) with (q_of s r). naive_solver. }
  split; try done.
  - split.
    + intros r. unfold insert_task. rewrite q_of_with_q. case_decide; [|apply Hok].
      apply Hpush. apply Hok.
    + intros r t [Ht|[-> ->]]%Hw; [by apply He|done].
  - intros t k Ht. simpl in Ht. apply lookup_insert_Some in Ht as [[<- <-]|[Hne Ht]].
    + rewrite <- Hr, queueForLocked_kind. split_and!; [done|apply Hw; by right|].
      simpl. by rewrite lookup_insert_eq.
    + destruct (Hq t k Ht) as (-> & Hin & Hs). split_and!; [done|apply Hw; by left|].
      simpl. by rewrite lookup_insert_ne.
  - intros t m' Ht. simpl in Ht. apply lookup_insert_Some in Ht as [[<- <-]|[Hne Ht]]; [done|by apply Hm].
Qed.

Lemma refresh_meta_ok s m :
  sched_ok s → queueForLocked m = route (sm_TaskID m) →
  sched_ok (with_tasks s (<[sm_TaskID m := m]> (sc_taskMeta s)) (sc_queued s)).
Proof.
  intros [He Hq Hm Hl Hd Hp] Hr. split; try done.
  - intros t k Ht. destruct (Hq t k Ht) as (-> & Hin & Hs). split_and!; [done|done|]. simpl.
    destruct (decide (sm_TaskID m = t)) as [->|]; [by rewrite lookup_insert_eq|by rewrite lookup_insert_ne].
  - intros t m' Ht. simpl in Ht. apply lookup_insert_Some in Ht as [[<- <-]|[Hne Ht]]; [done|by apply Hm].
Qed.

Lemma placement_ok s pl :
  sched_ok s → star placement_step (sc_placement s) pl → sched_ok (with_placement s pl).
Proof. intros [He Hq Hm Hl Hd Hp] Hs. split; try done. simpl. by apply (star_trans placement_step _ (sc_placement s)). Qed.

Lemma PushBack_elem q t : dq_ok q → dq_ok (PushBack q t) ∧ ∀ x, x ∈ dq_list (PushBack q t) ↔ x = t ∨ x ∈ dq_list q.
Proof. intros [Hok Hl]%(PushBack_list q t). split; [done|]. intros x. rewrite Hl. set_solver. Qed.
Lemma PushFront_elem q t : dq_ok q → dq_ok (PushFront q t) ∧ ∀ x, x ∈ dq_list (PushFront q t) ↔ x = t ∨ x ∈ dq_list q.
Proof. intros [Hok Hl]%(PushFront_list q t). split; [done|]. intros x. rewrite Hl. set_solver. Qed.

Lemma Enqueue_ok s m : sched_ok s → queueForLocked (typed m) = route (sm_TaskID m) → sched_ok (Enqueue s m).
Proof.
  intros Hs Hr. unfold Enqueue. destruct (str_empty (sm_TaskID m)); [done|].
  destruct (sc_queued s !! sm_TaskID (typed m)) as [k|]; [by apply refresh_meta_ok|].
  pose proof (insert_task_ok s (typed m) PushBack PushBack_elem Hs Hr) as Hins.
  destruct (decide (sm_TaskType (typed m) = TaskKindLLM)); [|exact Hins].
  apply (placement_ok _ (ensureModelPlacementLocked (sc_placement s) (meta_key (typed m)))) in Hins;
    [|apply star_one, pl_ensure].
  destruct (queueForLocked (typed m)) eqn:Hqf; unfold insert_task in Hins; rewrite Hqf in Hins; exact Hins.
Qed.

Lemma ReturnFront_ok s m : sched_ok s → queueForLocked (typed m) = route (sm_TaskID m) → sched_ok (ReturnFront s m).
Proof.
  intros Hs Hr. unfold ReturnFront. destruct (str_empty (sm_TaskID m)); [done|].
  destruct (sc_queued s !! sm_TaskID (typed m)) as [k|]; [by apply refresh_meta_ok|].
  exact (insert_task_ok s (typed m) PushFront PushFront_elem Hs Hr).
Qed.

Lemma Forget_ok s t : sched_ok s → sched_ok (Forget s t).
Proof.
  intros Hs. unfold Forget. destruct (str_empty t); [done|]. destruct Hs as [He Hq Hm Hl Hd Hp].
  split; try done; simpl.
  - intros x k [Hne Hx]%lookup_delete_Some. rewrite lookup_delete_ne by done. by apply Hq.
  - intros x m [_ Hx]%lookup_delete_Some. by apply Hm.
  - intros x l [_ Hx]%lookup_delete_Some. by apply Hl.
Qed.

(** *** Deadlines *)

#[local] Instance lease_le_trans : Transitive lease_le.
Proof.
  intros a b c Hab Hbc. unfold lease_le in *.
  destruct Hab as [?|[? Hab]], Hbc as [?|[? Hbc]]; [left; lia..|]. right. split; [lia|].
  destruct Hab as [[Hn1 Hab]|[Ha Hab]], Hbc as [[Hn2 Hbc]|[Hb Hbc]].
  + destruct (decide (rl_taskID a = rl_taskID c)) as [Heq|]; [|left; split; [done|by etrans]].
    destruct Hn1. apply (anti_symm String.le); [done|]. by rewrite Heq.
  + left. by rewrite <- Hb.
  + left. by rewrite Ha.
  + right. split; [congruence|lia].
Qed.

Lemma lease_le_total a b : lease_le a b ∨ lease_le b a.
Proof.
  unfold lease_le. destruct (Z.lt_trichotomy (rl_deadlineMs a) (rl_deadlineMs b)) as [?|[Heq|?]]; [auto| |auto].
  destruct (decide (rl_taskID a = rl_taskID b)) as [Ht|Ht].
  - destruct (Z.le_ge_cases (rl_leaseEpoch a) (rl_leaseEpoch b)); [left|right]; right; auto.
  - destruct (total String.le (rl_taskID a) (rl_taskID b)); [left|right]; right; split; auto.
Qed.

Lemma push_deadline_elem l x y : y ∈ push_deadline l x ↔ y = x ∨ y ∈ l.
Proof.
  induction l as [|z l IH]; simpl; [set_solver|]. case_decide; [set_solver|]. set_solver.
Qed.

Lemma push_deadline_sorted l x : StronglySorted lease_le l → StronglySorted lease_le (push_deadline l x).
Proof.
  induction l as [|z l IH]; intros Hs; simpl; [repeat constructor|].
  apply StronglySorted_cons in Hs as [Hz Hs]. case_decide as Hx.
  - constructor; [by constructor|]. constructor; [done|].
    rewrite Forall_forall in Hz |- *. intros y Hy. etrans; [done|]. by apply Hz.
  - constructor; [by apply IH|]. rewrite Forall_forall in Hz |- *. intros y [->|Hy]%push_deadline_elem; [|by apply Hz].
    destruct (lease_le_total x z); [done|done].
Qed.

Lemma pop_expired_spec nowMs deadlines : ∀ leases,
  (∀ t l, leases !! t = Some l → rl_taskID l = t ∧ l ∈ deadlines) →
  StronglySorted lease_le deadlines →
  let '(leases', deadlines', expired) := pop_expired nowMs leases deadlines in
  leases' = filter (λ p, nowMs < rl_deadlineMs p.2) leases ∧
  StronglySorted lease_le deadlines' ∧ (∀ t l, leases' !! t = Some l → l ∈ deadlines') ∧
  StronglySorted lease_le expired ∧ NoDup expired ∧ (∀ l, l ∈ expired → l ∈ deadlines) ∧
  (∀ l, l ∈ expired ↔ leases !! rl_taskID l = Some l ∧ rl_deadlineMs l <= nowMs).
Proof.
  induction deadlines as [|top rest IH]; intros leases Hl Hs.
  { simpl. assert (leases = ∅) as -> by (apply map_eq; intros t; rewrite lookup_empty;
      destruct (leases !! t) as [l|] eqn:Ht; [destruct (Hl t l Ht) as [_ ?%elem_of_nil]|]; done).
    rewrite map_filter_empty. split_and!; [done|constructor| |constructor|constructor| |].
    - intros t l Hx. by rewrite lookup_empty in Hx.
    - intros l ?%elem_of_nil. done.
    - intros l. rewrite lookup_empty. split; [by intros ?%elem_of_nil|by intros [? _]]. }
  cbn [pop_expired]. apply StronglySorted_cons in Hs as [Htop Hs]. rewrite Forall_forall in Htop.
  destruct (Z.ltb_spec nowMs (rl_deadlineMs top)) as [Hlt|Hle].
  { assert (Hall : ∀ t l, leases !! t = Some l → nowMs < rl_deadlineMs l).
    { intros t l Ht. destruct (Hl t l Ht) as [_ [->|Hin]%elem_of_cons]; [done|].
      destruct (Htop l Hin) as [?|[? _]]; lia. }
    split_and!.
    - symmetry. apply map_filter_id. intros t l Ht. by apply (Hall t).
    - constructor; [done|]. by rewrite Forall_forall.
    - intros t l Ht. by apply Hl in Ht as [_ ?].
    - constructor.
    - constructor.
    - intros l ?%elem_of_nil. done.
    - intros l. split; [by intros ?%elem_of_nil|]. intros [Ht Hd]. apply Hall in Ht. lia. }
  assert (Hskip : ∀ t l, leases !! t = Some l → l ≠ top → rl_taskID l = t ∧ l ∈ rest).
  { intros t l Ht Hne. destruct (Hl t l Ht) as [? [?|?]%elem_of_cons]; done. }
  assert (Hcase : leases !! rl_taskID top = Some top ∨ ∀ t l, leases !! t = Some l → l ≠ top).
  { destruct (leases !! rl_taskID top) as [c|] eqn:Hc.
    - destruct (decide (c = top)) as [->|Hne]; [by left|right]. intros t l Ht ->.
      destruct (Hl t top Ht) as [<- _]. congruence.
    - right. intros t l Ht ->. destruct (Hl t top Ht) as [<- _]. congruence. }
  destruct (leases !! rl_taskID top) as [c|] eqn:Hc.
  - destruct ((rl_deadlineMs c =? rl_deadlineMs top) && (rl_leaseEpoch c =? rl_leaseEpoch top)) eqn:Heq.
    + assert (c = top) as ->.
      { destruct (Hl _ c Hc) as [Hid _]. destruct c as [a b d], top as [a' b' d']. simpl in *. f_equal; [done|lia..]. }
      specialize (IH (delete (rl_taskID top) leases)).
      destruct (pop_expired nowMs (delete (rl_taskID top) leases) rest) as [[l' d'] e].
      destruct IH as (-> & Hd' & Hin' & He & Hnd & Hsub & Hiff).
      { intros t l [Hne Ht]%lookup_delete_Some. apply (Hskip t l Ht). intros ->.
        destruct (Hl t top Ht) as [? _]. done. }
      { done. }
      assert (Hnot : top ∉ e).
      { intros [Hx _]%Hiff. by rewrite lookup_delete_eq in Hx. }
      split_and!; [|done|done| | | |].
      * rewrite map_filter_delete, delete_id; [done|]. apply map_lookup_filter_None_2. right.
        intros x Hx. rewrite Hc in Hx. injection Hx as <-. simpl. lia.
      * constructor; [done|]. rewrite Forall_forall. intros x Hx. by apply Htop, Hsub.
      * by constructor.
      * intros l [->|Hx]%elem_of_cons; [left|right; by apply Hsub].
      * intros l. rewrite elem_of_cons, Hiff. split.
        -- intros [->|[[_ Hx]%lookup_delete_Some Hd]]; [split; [done|lia]|done].
        -- intros [Hx Hd]. destruct (decide (l = top)) as [|Hne]; [by left|right]. split; [|done].
           apply lookup_delete_Some. split; [|done]. intros Hid. rewrite <- Hid, Hc in Hx. congruence.
    + destruct Hcase as [Hc'|Hne]; [injection Hc' as ->; rewrite !Z.eqb_refl in Heq; done|].
      specialize (IH leases (λ t l Ht, Hskip t l Ht (Hne t l Ht)) Hs).
      destruct (pop_expired nowMs leases rest) as [[l' d'] e].
      destruct IH as (-> & Hd' & Hin' & He & Hnd & Hsub & Hiff).
      split_and!; try done. intros l Hx. right. by apply Hsub.
  - destruct Hcase as [Hc'|Hne]; [done|].
    specialize (IH leases (λ t l Ht, Hskip t l Ht (Hne t l Ht)) Hs).
    destruct (pop_expired nowMs leases rest) as [[l' d'] e].
    destruct IH as (-> & Hd' & Hin' & He & Hnd & Hsub & Hiff).
    split_and!; try done. intros l Hx. right. by apply Hsub.
Qed.

Lemma TrackRunning_ok s t deadline epoch : sched_ok s → sched_ok (TrackRunning s t deadline epoch).
Proof.
  intros Hs. unfold TrackRunning. destruct (_ || _); [done|].
  set (lease := {| rl_taskID := t; rl_deadlineMs := deadline; rl_leaseEpoch := epoch |}).
  assert (H1 : sched_ok (with_leases s (<[t := lease]> (sc_runningLeases s)) (push_deadline (sc_deadlines s) lease))).
  { destruct Hs as [He Hq Hm Hl Hd Hp]. split; try done; simpl.
    - intros x l [[<- <-]|[_ Hx]]%lookup_insert_Some; [split; [done|apply push_deadline_elem; by left]|].
      destruct (Hl x l Hx) as [? ?]. split; [done|]. apply push_deadline_elem. by right.
    - by apply push_deadline_sorted. }
  revert H1. set (s1 := with_leases _ _ _). clearbody s1. clear lease Hs. intros [He Hq Hm Hl Hd Hp].
  destruct (sc_taskMeta s1 !! t) as [meta|] eqn:Ht; [|done]. destruct (Hm t meta Ht) as [Hid Hr].
  split; try done; simpl.
  - intros x k Hx. destruct (Hq x k Hx) as (? & ? & ?). split_and!; [done|done|].
    destruct (decide (t = x)) as [->|]; [by rewrite lookup_insert_eq|by rewrite lookup_insert_ne].
  - intros x m [[<- <-]|[_ Hx]]%lookup_insert_Some; [|by apply Hm]. split; [done|]. rewrite <- Hr. done.
Qed.

Lemma PopExpired_ok s nowMs : sched_ok s → sched_ok (PopExpiredRunning s nowMs).1.
Proof.
  intros [He Hq Hm Hl Hd Hp]. unfold PopExpiredRunning.
  pose proof (pop_expired_spec nowMs (sc_deadlines s) (sc_runningLeases s) Hl Hd) as H.
  destruct (pop_expired _ _ _) as [[l' d'] e]. destruct H as (Hl' & Hd' & Hin & _).
  split; try done; simpl. intros t l Ht. split; [|by apply (Hin t)]. rewrite Hl' in Ht.
  apply map_lookup_filter_Some in Ht as [Ht _]. by apply Hl.
Qed.

Lemma step_ok s s' : sched_ok s → sched_step s s' → sched_ok s'.
Proof.
  intros Hs Hstep. destruct Hstep.
  - by apply Enqueue_ok.
  - by apply ReturnFront_ok.
  - by apply Forget_ok.
  - destruct (decide (ws_WorkerID snapshot = EmptyString)) as [He|He].
    + unfold Assign in H. rewrite He in H. simpl in H. by injection H as <- _.
    + destruct (Assign_core snapshot check s nowMs s' res (so_entries _ Hs) He H) as [Hev _].
      by apply (evolves_ok _ _ _ Hev).
  - by apply TrackRunning_ok.
  - by apply Forget_ok.
  - by apply PopExpired_ok.
  - apply placement_ok; [done|]. apply star_one. constructor.
  - apply placement_ok; [done|]. apply star_one. constructor.
Qed.

Lemma reachable_ok s : star sched_step newScheduler s → sched_ok s.
Proof. apply star_invariant; [|apply newScheduler_ok]. intros a b. apply step_ok. Qed.
(** C37: What [Assign] does, whenever it returns.  Tasks leave the scheduler only
    because the callback drops them or because the task is assigned; queues
    lose only entries that are no longer live.  If a task is returned, it was
    live in a queue open to the worker, the callback (with the sequence test
    for actors) accepted it, every entry before it in that queue is stale or
    dropped, it is not queued any more, and every queue of higher priority has
    nothing to offer.  If none is returned, no queue open to the worker has
    anything to offer: it holds no live task, its first live task has to wait,
    or its model is held for a worker that has it cached. *)
Theorem Assign_exact s snapshot nowMs check s' res :
  star sched_step newScheduler s → ws_WorkerID snapshot ≠ EmptyString →
  Assign s snapshot nowMs check = Some (s', res) →
  evolves (gone check s res) s s' ∧
  match res with
  | Some m => ∃ r, serves snapshot r ∧ taken s s' r (check_of snapshot check r) m ∧
      ∀ r', serves snapshot r' → (rank r' < rank r)%nat → idle snapshot check s' nowMs r'
  | None => ∀ r, serves snapshot r → idle snapshot check s' nowMs r
  end.
Proof. intros Hs%reachable_ok. apply Assign_core, (so_entries s Hs). Qed.

(** C38: No queued task is lost: in every reachable state a task the scheduler
    counts as queued has its metadata, and waits in the one queue its
    metadata names, under its kind. *)
Theorem queued_task_waits s t k :
  star sched_step newScheduler s → sc_queued s !! t = Some k →
  t ∈ waiting s (route t) ∧
  ∃ m, sc_taskMeta s !! t = Some m ∧ sm_TaskID m = t ∧ queueForLocked m = route t ∧ sm_TaskType m = k.
Proof.
  intros Hs%reachable_ok Hq. destruct (so_queued s Hs t k Hq) as (-> & Hin & [m Hm]).
  split; [done|]. exists m. destruct (so_meta s Hs t m Hm) as [Hid Hr]. split_and!; try done.
  by rewrite <- Hr, queueForLocked_kind.
Qed.

(** [PopExpiredRunning] in every reachable state returns, without repetition
    and in the order of the deadlines, exactly the tracked leases whose deadline
    has passed; exactly the others stay tracked, however many stale entries the
    heap holds. *)
Theorem PopExpiredRunning_exact s nowMs :
  star sched_step newScheduler s →
  let (s', expired) := PopExpiredRunning s nowMs in
  (∀ l, l ∈ expired ↔ sc_runningLeases s !! rl_taskID l = Some l ∧ rl_deadlineMs l <= nowMs) ∧
  NoDup expired ∧ StronglySorted lease_le expired ∧
  (∀ t l, sc_runningLeases s' !! t = Some l ↔ sc_runningLeases s !! t = Some l ∧ nowMs < rl_deadlineMs l) ∧
  sc_queued s' = sc_queued s ∧ sc_taskMeta s' = sc_taskMeta s.
Proof.
  intros Hs%reachable_ok. unfold PopExpiredRunning.
  pose proof (pop_expired_spec nowMs _ _ (so_leases s Hs) (so_deadlines s Hs)) as H.
  destruct (pop_expired _ _ _) as [[l' d'] e]. destruct H as (Hl' & Hd' & _ & He & Hnd & _ & Hiff).
  split_and!; try done. intros t l. simpl. rewrite Hl', map_lookup_filter_Some. done.
Qed.
End Routes.

(** ** [Assign] returns *)

Lemma next_loop_total fuel r check : ∀ s,
  (∀ m, is_Some (check m)) → is_Some (next_loop fuel s r check).
Proof.
  induction fuel as [|fuel IH]; intros s Hc; simpl; [eauto|].
  destruct (Front (q_of s r)); [|eauto]. destruct (live_meta s (qref_kind r) _) as [m|]; [|by apply IH].
  destruct (Hc m) as [d ->]. destruct d; cbn [mbind option_bind]; eauto.
Qed.

Lemma next_total s r check : (∀ m, is_Some (check m)) → is_Some (nextFromQueueLocked s r check).
Proof. apply next_loop_total. Qed.

Lemma first_of_total {A} (next : Scheduler → A → call (Scheduler * option SchedMeta)) l : ∀ s,
  (∀ s x, is_Some (next s x)) → is_Some (first_of next s l).
Proof.
  induction l as [|x l IH]; intros s Hn; simpl; [eauto|].
  destruct (Hn s x) as [[s1 [m|]] ->]; cbn [mbind option_bind]; [eauto|by apply IH].
Qed.

(** [Assign] terminates on every state, stale entries and drops included,
    if each call of the callback returns. *)
Theorem Assign_returns s snapshot nowMs check :
  (∀ m, is_Some (check m)) → is_Some (Assign s snapshot nowMs check).
Proof.
  intros Hc. unfold Assign. destruct (str_empty _); [eauto|].
  destruct (next_total s (QTarget (ws_WorkerID snapshot)) check Hc) as [[s1 [m|]] ->];
    cbn [mbind option_bind]; [eauto|].
  edestruct (first_of_total (λ s actorID, nextFromQueueLocked s (QActor actorID)
    (actor_check snapshot actorID check)) (ws_ActorIDs snapshot) s1) as [[s2 [m|]] ->].
  - intros s0 a. apply next_total. intros m. unfold actor_check. destruct (_ && _); eauto.
  - cbn [mbind option_bind]. eauto.
  - cbn [mbind option_bind]. destruct (llmCandidateModelsLocked s2 snapshot nowMs) as [s3 cands].
    edestruct (first_of_total (λ s key, nextFromQueueLocked s (QLLM key) check) cands s3)
      as [[s4 [m|]] ->]; [intros; by apply next_total|cbn [mbind option_bind]; eauto|].
    cbn [mbind option_bind]. by apply next_total.
Qed.

(** ** A demonstration *)

Definition demo_meta (id target : string) (created : Z) : SchedMeta :=
  {| sm_TaskID := id; sm_TaskType := TaskKindGeneral; sm_TargetWorker := target; sm_ActorID := "";
     sm_CommandSeq := 0; sm_ModelName := ""; sm_ModelVersion := ""; sm_CreatedAtMs := created;
     sm_LeaseEpoch := 0; sm_RunningWorker := "" |}.
Definition demo_route (t : string) : qref := if decide (t = "t2") then QTarget "w1" else QGeneral.
Definition demo_scheduler : Scheduler :=
  TrackRunning (Enqueue (Enqueue newScheduler (demo_meta "t1" "" 1)) (demo_meta "t2" "w1" 2)) "t0" 100 1.
Definition demo_snapshot : workerSnapshot :=
  {| ws_WorkerID := "w1"; ws_ActorIDs := []; ws_ActorNextSeq := ∅; ws_CachedModels := ∅ |}.
Definition assign_all : SchedMeta → call schedulerDecision := λ _, Some schedulerAssign.

Lemma demo_scheduler_reachable : star (sched_step demo_route) newScheduler demo_scheduler.
Proof.
  unfold demo_scheduler. eapply star_step; [apply (st_enqueue demo_route _ (demo_meta "t1" "" 1)); reflexivity|].
  eapply star_step; [apply (st_enqueue demo_route _ (demo_meta "t2" "w1" 2)); reflexivity|]. apply star_one, st_track.
Qed.

Lemma Assign_exact_witness :
  ∃ s' m, Assign demo_scheduler demo_snapshot 5 assign_all = Some (s', Some m) ∧ sm_TaskID m = "t2" ∧
    evolves (gone demo_route assign_all demo_scheduler (Some m)) demo_scheduler s'.
Proof.
  destruct (Assign demo_scheduler demo_snapshot 5 assign_all) as [[s' [m|]]|] eqn:Ha;
    [|exfalso; vm_compute in Ha; discriminate..].
  exists s', m. split; [reflexivity|]. split.
  - assert (Hm : (r ← Assign demo_scheduler demo_snapshot 5 assign_all; r.2) = Some m) by (rewrite Ha; reflexivity).
    vm_compute in Hm. injection Hm as <-. reflexivity.
  - destruct (Assign_exact demo_route demo_scheduler demo_snapshot 5 assign_all s' (Some m)
      demo_scheduler_reachable) as [Hev _]; [discriminate|exact Ha|exact Hev].
Defined.

Lemma queued_task_waits_witness : "t2" ∈ waiting demo_scheduler (QTarget "w1").
Proof.
  apply (queued_task_waits demo_route demo_scheduler "t2" TaskKindTargetWorker demo_scheduler_reachable).
  vm_compute. reflexivity.
Defined.

Lemma PopExpiredRunning_exact_witness :
  {| rl_taskID := "t0"; rl_deadlineMs := 100; rl_leaseEpoch := 1 |} ∈ (PopExpiredRunning demo_scheduler 100).2.
Proof.
  pose proof (PopExpiredRunning_exact demo_route demo_scheduler 100 demo_scheduler_reachable) as H.
  destruct (PopExpiredRunning demo_scheduler 100) as [s' expired]. destruct H as (Hiff & _).
  apply Hiff. split; [vm_compute; reflexivity|simpl; lia].
Defined.

Lemma Assign_returns_witness : is_Some (Assign demo_scheduler demo_snapshot 5 assign_all).
Proof. apply Assign_returns. intros m. exists schedulerAssign. reflexivity. Defined.

Close Scope Z_scope.
