(* ===== verification/SegmentIndex.v ===== *)
(** Segment index files: [writeSegmentIndex] and the readers of
    [internal/logstore/store.go].

    An index file maps each record of a segment to its stream, sequence number
    and byte range: a header, a dictionary of stream IDs, entries of 24 bytes,
    and one CRC32C.  Go sorts the entries by offset; offsets of a segment are
    distinct, so the unstable sort has one result.  The decoder of the oldest,
    JSON-line, format is a parameter ([encoding/json] over a stream).

    Theorems: what is written is read back; a proper prefix of an index file is
    never accepted as an index. *)
From S2P Require Import Prelude Bytes Checksum RecordCodec.

Open Scope Z_scope.

Definition indexMagic : Z := 0x4c534958.
Definition indexVersion : Z := 2.
Definition legacyIndexVersion : Z := 1.
Definition indexFileHeaderSize : nat := 40.
Definition indexDictionaryHeaderSize : nat := 8.
Definition indexFixedEntrySize : nat := 24.
Definition legacyIndexRecordHeaderSize : nat := 36.

(** [streamIndexEntry] *)
Record streamIndexEntry := { ie_Seq : Z; ie_SegmentID : Z; ie_Offset : Z; ie_Length : Z }.
#[export] Instance streamIndexEntry_eq_dec : EqDecision streamIndexEntry.
Proof. solve_decision. Defined.

(** [recoveredIndexEntry] *)
Record recoveredIndexEntry := { ri_streamID : string; ri_entry : streamIndexEntry }.

(** [sort.Slice(entries, by Offset)] *)
Definition offset_le (a b : recoveredIndexEntry) : Prop :=
  ie_Offset (ri_entry a) <= ie_Offset (ri_entry b).
#[export] Instance offset_le_dec : RelDecision offset_le.
Proof. unfold offset_le. intros a b. apply _. Defined.
#[export] Instance offset_le_trans : Transitive offset_le.
Proof. unfold offset_le. intros a b c. lia. Qed.
#[export] Instance offset_le_total : Total offset_le.
Proof. unfold offset_le. intros a b. lia. Qed.
Definition sort_by_offset (entries : list recoveredIndexEntry) : list recoveredIndexEntry :=
  merge_sort offset_le entries.

(** ** Writing *)

(** The checks on each entry, in order. *)
Fixpoint check_entries (segmentID : Z) (entries : list recoveredIndexEntry) : result log_error unit :=
  match entries with
  | [] => Ok tt
  | item :: entries =>
      if str_empty (ri_streamID item) then Err ErrStreamIDRequired
      else if 0xffff <? Z.of_nat (str_len (ri_streamID item)) then Err ErrStreamIDTooLarge
      else if negb (ie_SegmentID (ri_entry item) =? segmentID) || (ie_Seq (ri_entry item) =? 0)
              || (ie_Length (ri_entry item) =? 0)
      then Err ErrCorruptIndex
      else check_entries segmentID entries
  end.

(** The sorted keys of [streamSet]. *)
Definition stream_ids (entries : list recoveredIndexEntry) : list string :=
  merge_sort String.le (elements (list_to_set (C := gset string) (map ri_streamID entries))).

Definition dictionary_entry (i : Z) (streamID : string) : bytes :=
  put_be 4 i ++ put_be 2 (Z.of_nat (str_len streamID)) ++ [x00; x00] ++ str_bytes streamID.
Fixpoint dictionary_bytes (i : Z) (streamIDs : list string) : bytes :=
  match streamIDs with
  | [] => []
  | streamID :: rest => dictionary_entry i streamID ++ dictionary_bytes (i + 1) rest
  end.

Definition fixed_entry (streamIDs : list string) (item : recoveredIndexEntry) : bytes :=
  put_be 4 (Z.of_nat (pos_in streamIDs (ri_streamID item))) ++ put_be 8 (ie_Seq (ri_entry item)) ++
  put_be 8 (ie_Offset (ri_entry item)) ++ put_be 4 (ie_Length (ri_entry item)).

Definition index_crc (head payload : bytes) : Z :=
  crc32_update poly_Castagnoli (crc32_update poly_Castagnoli 0 head) payload.

(** The first 36 header bytes. *)
Definition index_header (segmentID streamCount entryCount dictionaryLen : Z) : bytes :=
  put_be 4 indexMagic ++ put_be 2 indexVersion ++ put_be 2 (Z.of_nat indexFileHeaderSize) ++
  put_be 8 segmentID ++ put_be 4 streamCount ++ put_be 8 entryCount ++ put_be 8 dictionaryLen.

(** [writeSegmentIndex], as the bytes it writes. *)
Definition writeSegmentIndex (segmentID : Z) (entries : list recoveredIndexEntry) :
    result log_error bytes :=
  let entries := sort_by_offset entries in
  _ ← check_entries segmentID entries;
  let streamIDs := stream_ids entries in
  if 2 ^ 32 - 1 <? Z.of_nat (length streamIDs) then Err ErrTooManyStreams
  else
    let dictionary := dictionary_bytes 0 streamIDs in
    let payload := dictionary ++ concat (map (fixed_entry streamIDs) entries) in
    let head := index_header segmentID (Z.of_nat (length streamIDs)) (Z.of_nat (length entries))
                  (Z.of_nat (length dictionary)) in
    Ok (head ++ put_be 4 (index_crc head payload) ++ payload).

(** ** Reading *)

(** The dictionary loop: [dictPayload[pos:]] and the dictionary filled so far,
    with [""] where no stream is filed. *)
Fixpoint read_dictionary (count : nat) (streamCount : Z) (rest : bytes) (dictionary : list string) :
    result log_error (bytes * list string) :=
  match count with
  | O => Ok (rest, dictionary)
  | S count =>
      if bool_decide (length rest < indexDictionaryHeaderSize)%nat then Err ErrCorruptIndex
      else
        let streamIDID := get_be (slice rest 0 4) in
        let streamLen := Z.to_nat (get_be (slice rest 4 6)) in
        let rest := drop indexDictionaryHeaderSize rest in
        if (streamCount <=? streamIDID) || bool_decide (streamLen = 0)%nat
           || bool_decide (length rest < streamLen)%nat
        then Err ErrCorruptIndex
        else if negb (str_empty (default EmptyString (dictionary !! Z.to_nat streamIDID)))
        then Err ErrCorruptIndex
        else read_dictionary count streamCount (drop streamLen rest)
               (<[Z.to_nat streamIDID := bytes_str (slice rest 0 streamLen)]> dictionary)
  end.

(** The loop over the fixed entries; one round per entry. *)
Fixpoint read_entries (count : nat) (segmentID streamCount : Z) (dictionary : list string) (rest : bytes) :
    result log_error (list recoveredIndexEntry) :=
  match count with
  | O => Ok []
  | S count =>
      let streamIDID := get_be (slice rest 0 4) in
      let seq := get_be (slice rest 4 12) in
      let offset := get_be (slice rest 12 20) in
      let len := get_be (slice rest 20 24) in
      if (streamCount <=? streamIDID) || (seq =? 0) || (len =? 0) then Err ErrCorruptIndex
      else
        items ← read_entries count segmentID streamCount dictionary (drop indexFixedEntrySize rest);
        Ok ({| ri_streamID := default EmptyString (dictionary !! Z.to_nat streamIDID);
               ri_entry := {| ie_Seq := seq; ie_SegmentID := segmentID; ie_Offset := offset;
                              ie_Length := len |} |} :: items)
  end.

(** [readDictionarySegmentIndex] *)
Definition readDictionarySegmentIndex (file : bytes) (segmentID : Z) :
    result log_error (list recoveredIndexEntry) :=
  if bool_decide (length file < indexFileHeaderSize)%nat then Err ErrCorruptIndex
  else
    let header := slice file 0 indexFileHeaderSize in
    let payload := drop indexFileHeaderSize file in
    if negb (get_be (slice header 0 4) =? indexMagic) then Err ErrCorruptIndex
    else if negb (get_be (slice header 4 6) =? indexVersion) then Err ErrCorruptIndex
    else if negb (get_be (slice header 6 8) =? Z.of_nat indexFileHeaderSize) then Err ErrCorruptIndex
    else if negb (get_be (slice header 8 16) =? segmentID) then Err ErrCorruptIndex
    else
      let streamCount := get_be (slice header 16 20) in
      let entryCount := get_be (slice header 20 28) in
      let dictionaryBytes := get_be (slice header 28 36) in
      let actualCRC := get_be (slice header 36 40) in
      if Z.of_nat (length payload) <? dictionaryBytes then Err ErrCorruptIndex
      else if dictionaryBytes <? u64 (streamCount * Z.of_nat indexDictionaryHeaderSize)
      then Err ErrCorruptIndex
      else
        let dictLen := Z.to_nat dictionaryBytes in
        let entryBytes := (length payload - dictLen)%nat in
        if bool_decide (entryBytes `mod` indexFixedEntrySize ≠ 0)%nat
           || negb (Z.of_nat (entryBytes `div` indexFixedEntrySize) =? entryCount)
        then Err ErrCorruptIndex
        else if negb (actualCRC =? index_crc (slice header 0 36) payload) then Err ErrCorruptIndex
        else
          '(rest, dictionary) ← read_dictionary (Z.to_nat streamCount) streamCount
            (slice payload 0 dictLen) (replicate (Z.to_nat streamCount) EmptyString);
          if bool_decide (rest ≠ []) then Err ErrCorruptIndex
          else if existsb str_empty dictionary then Err ErrCorruptIndex
          else read_entries (Z.to_nat entryCount) segmentID streamCount dictionary (drop dictLen payload).

(** [readLegacyBinarySegmentIndex]; every record takes at least 41 bytes, so
    [length file] rounds are enough. *)
Fixpoint read_legacy (fuel : nat) (segmentID : Z) (rest : bytes) :
    result log_error (list recoveredIndexEntry) :=
  match fuel with
  | O => Ok []
  | S fuel =>
      if bool_decide (length rest = 0)%nat then Ok []
      else if bool_decide (length rest < legacyIndexRecordHeaderSize)%nat then Err ErrCorruptIndex
      else
        let header := slice rest 0 legacyIndexRecordHeaderSize in
        let rest := drop legacyIndexRecordHeaderSize rest in
        if negb (get_be (slice header 0 4) =? indexMagic) then Err ErrCorruptIndex
        else if negb (get_be (slice header 4 6) =? legacyIndexVersion) then Err ErrCorruptIndex
        else
          let streamLen := Z.to_nat (get_be (slice header 6 8)) in
          let seq := get_be (slice header 8 16) in
          let recordSegmentID := get_be (slice header 16 24) in
          let offset := get_be (slice header 24 32) in
          let len := get_be (slice header 32 36) in
          if negb (recordSegmentID =? segmentID) || bool_decide (streamLen = 0)%nat || (len =? 0)
          then Err ErrCorruptIndex
          else if bool_decide (length rest < streamLen + 4)%nat then Err ErrCorruptIndex
          else
            let actualCRC := get_be (slice rest streamLen (streamLen + 4)) in
            if negb (actualCRC =? index_crc header (slice rest 0 streamLen)) then Err ErrCorruptIndex
            else
              items ← read_legacy fuel segmentID (drop (streamLen + 4) rest);
              Ok ({| ri_streamID := bytes_str (slice rest 0 streamLen);
                     ri_entry := {| ie_Seq := seq; ie_SegmentID := recordSegmentID;
                                    ie_Offset := offset; ie_Length := len |} |} :: items)
  end.
Definition readLegacyBinarySegmentIndex (file : bytes) (segmentID : Z) :
    result log_error (list recoveredIndexEntry) :=
  read_legacy (length file) segmentID file.

(** The values a JSON-line index decodes to, and whether decoding ended with
    [io.EOF] rather than an error. *)
Record json_index_entry := {
  ji_StreamID : string; ji_Seq : Z; ji_SegmentID : Z; ji_Offset : Z; ji_Length : Z
}.
Class IndexJSON := decode_json_index : bytes → list json_index_entry * bool.

Section Json.
Context `{IndexJSON}.

(** [readJSONSegmentIndex] *)
Fixpoint check_json (segmentID : Z) (raws : list json_index_entry) (eof : bool) :
    result log_error (list recoveredIndexEntry) :=
  match raws with
  | [] => if eof then Ok [] else Err ErrIO
  | raw :: raws =>
      if str_empty (ji_StreamID raw) || (ji_Seq raw =? 0) || negb (ji_SegmentID raw =? segmentID)
         || (ji_Offset raw <? 0) || (ji_Length raw <=? 0) || (2 ^ 32 - 1 <? ji_Length raw)
      then Err ErrCorruptIndex
      else
        items ← check_json segmentID raws eof;
        Ok ({| ri_streamID := ji_StreamID raw;
               ri_entry := {| ie_Seq := ji_Seq raw; ie_SegmentID := ji_SegmentID raw;
                              ie_Offset := ji_Offset raw; ie_Length := ji_Length raw |} |} :: items)
  end.
Definition readJSONSegmentIndex (file : bytes) (segmentID : Z) :
    result log_error (list recoveredIndexEntry) :=
  let (raws, eof) := decode_json_index file in check_json segmentID raws eof.

(** [readSegmentIndex] on an existing file; the flag asks for a rewrite. *)
Definition readSegmentIndex (file : bytes) (segmentID : Z) :
    result log_error (list recoveredIndexEntry * bool) :=
  if bool_decide (length file = 0)%nat then Ok ([], false)
  else if bool_decide (length file < 4)%nat then Err ErrCorruptIndex
  else if get_be (slice file 0 4) =? indexMagic then
    if bool_decide (length file < 6)%nat then Err ErrCorruptIndex
    else
      let v := get_be (slice file 4 6) in
      if v =? indexVersion then
        items ← readDictionarySegmentIndex file segmentID; Ok (items, false)
      else if v =? legacyIndexVersion then
        items ← readLegacyBinarySegmentIndex file segmentID; Ok (items, true)
      else Err ErrCorruptIndex
  else
    items ← readJSONSegmentIndex file segmentID; Ok (items, true).
End Json.

(** ** Round trip *)

(** An entry of the segment whose numbers fit their widths. *)
Record index_entry_fits (segmentID : Z) (item : recoveredIndexEntry) : Prop := {
  ief_seg : ie_SegmentID (ri_entry item) = segmentID;
  ief_seq : in_u64 (ie_Seq (ri_entry item));
  ief_off : in_u64 (ie_Offset (ri_entry item));
  ief_len : in_u32 (ie_Length (ri_entry item))
}.

Lemma check_entries_ok segmentID entries :
  check_entries segmentID entries = Ok tt →
  ∀ item, item ∈ entries →
    ri_streamID item ≠ EmptyString ∧ Z.of_nat (str_len (ri_streamID item)) <= 0xffff ∧
    ie_SegmentID (ri_entry item) = segmentID ∧ ie_Seq (ri_entry item) ≠ 0 ∧ ie_Length (ri_entry item) ≠ 0.
Proof.
  induction entries as [|item entries IH]; simpl; [by intros _ ? ?%elem_of_nil|].
  destruct (str_empty (ri_streamID item)) eqn:H1; [done|].
  destruct (0xffff <? Z.of_nat (str_len (ri_streamID item))) eqn:H2; [done|].
  destruct (negb _ || _ || _) eqn:H3; [done|]. intros Hc item' [->|Hin]%elem_of_cons; [|by apply IH].
  apply str_empty_false in H1. rewrite !orb_false_iff in H3. destruct H3 as [[H3 H4] H5].
  apply negb_false_iff in H3. split_and!; [done|lia..].
Qed.

Lemma stream_ids_spec entries :
  NoDup (stream_ids entries) ∧ ∀ x, x ∈ stream_ids entries ↔ ∃ item, item ∈ entries ∧ ri_streamID item = x.
Proof.
  unfold stream_ids. split.
  - rewrite merge_sort_Permutation. apply NoDup_elements.
  - intros x. rewrite merge_sort_Permutation, elem_of_elements, elem_of_list_to_set, list_elem_of_fmap. naive_solver.
Qed.

Lemma length_dictionary_bytes ids : ∀ i,
  Forall (λ x, Z.of_nat (str_len x) <= 0xffff) ids →
  Z.of_nat (length (dictionary_bytes i ids)) <= 65543 * Z.of_nat (length ids) ∧
  (8 * length ids ≤ length (dictionary_bytes i ids))%nat.
Proof.
  induction ids as [|x ids IH]; intros i Hf; [simpl; lia|]. apply Forall_cons in Hf as [Hx Hf].
  specialize (IH (i + 1) Hf). cbn [dictionary_bytes length]. unfold dictionary_entry.
  rewrite !length_app, !length_put_be. cbn [length]. unfold str_len in Hx. lia.
Qed.

Lemma read_dictionary_spec ids : ∀ filled n,
  Forall (λ x, x ≠ EmptyString ∧ Z.of_nat (str_len x) <= 0xffff) ids →
  n = Z.of_nat (length filled + length ids) → n < 2 ^ 32 →
  read_dictionary (length ids) n (dictionary_bytes (Z.of_nat (length filled)) ids)
    (filled ++ replicate (length ids) EmptyString) = Ok ([], filled ++ ids).
Proof.
  induction ids as [|x ids IH]; intros filled n Hf Hn Hmax; cbn [length dictionary_bytes read_dictionary].
  { done. }
  apply Forall_cons in Hf as [[Hx Hlen] Hf]. cbn [length] in Hn.
  set (tail := dictionary_bytes (Z.of_nat (length filled) + 1) ids).
  unfold dictionary_entry. rewrite <- !app_assoc.
  set (rest := put_be 4 _ ++ _).
  assert (Hrest : length rest = (8 + str_len x + length tail)%nat).
  { unfold rest. rewrite !length_app, !length_put_be. simpl. unfold str_len. lia. }
  rewrite bool_decide_eq_false_2 by (unfold indexDictionaryHeaderSize; lia).
  assert (H0 : slice rest 0 4 = put_be 4 (Z.of_nat (length filled))) by (unfold rest; by field).
  assert (H4 : slice rest 4 6 = put_be 2 (Z.of_nat (str_len x))) by (unfold rest; by field).
  assert (Hd : drop indexDictionaryHeaderSize rest = str_bytes x ++ tail).
  { unfold rest, indexDictionaryHeaderSize.
    do 2 (rewrite drop_app_ge by (rewrite length_put_be; lia); rewrite length_put_be; cbn [Nat.sub]).
    done. }
  rewrite H0, H4, Hd, !get_put_be, !Nat2Z.id by (change (2 ^ (8 * Z.of_nat 4)) with (2 ^ 32); lia).
  assert (Hx' : str_len x ≠ 0%nat) by (by intros ?%str_len_0).
  rewrite (bool_decide_eq_false_2 (str_len x = 0)%nat) by done.
  rewrite bool_decide_eq_false_2 by (rewrite length_app; unfold str_len; lia).
  replace (n <=? Z.of_nat (length filled)) with false by lia. cbn [orb].
  rewrite lookup_app_r, Nat.sub_diag by lia. cbn [replicate lookup list_lookup default].
  change (negb (str_empty "")) with false. cbv iota.
  rewrite drop_app_length' by done. rewrite slice_prefix by done. rewrite bytes_str_bytes.
  assert (Hins : <[length filled := x]> (filled ++ EmptyString :: replicate (length ids) EmptyString)
    = (filled ++ [x]) ++ replicate (length ids) EmptyString).
  { rewrite insert_app_r_alt, Nat.sub_diag by lia. by rewrite <- app_assoc. }
  rewrite Hins. unfold tail.
  replace (Z.of_nat (length filled) + 1) with (Z.of_nat (length (filled ++ [x])))
    by (rewrite length_app; simpl; lia).
  rewrite (IH (filled ++ [x]) n Hf); [by rewrite <- app_assoc| |done].
  rewrite length_app. simpl. lia.
Qed.

Lemma length_fixed_entry ids item : length (fixed_entry ids item) = indexFixedEntrySize.
Proof. unfold fixed_entry. by rewrite !length_app, !length_put_be. Qed.

Lemma length_fixed_entries ids items :
  length (concat (map (fixed_entry ids) items)) = (indexFixedEntrySize * length items)%nat.
Proof.
  induction items as [|item items IH]; [done|]. cbn [map concat]. rewrite length_app, IH, length_fixed_entry.
  simpl. unfold indexFixedEntrySize. lia.
Qed.

Lemma read_entries_spec segmentID ids items :
  Z.of_nat (length ids) < 2 ^ 32 →
  (∀ item, item ∈ items → ri_streamID item ∈ ids ∧ index_entry_fits segmentID item ∧
     ie_Seq (ri_entry item) ≠ 0 ∧ ie_Length (ri_entry item) ≠ 0) →
  read_entries (length items) segmentID (Z.of_nat (length ids)) ids (concat (map (fixed_entry ids) items))
  = Ok items.
Proof.
  intros Hmax. induction items as [|item items IH]; intros Hall; cbn [length map concat read_entries]; [done|].
  destruct (Hall item) as (Hid & [Hseg Hseq Hoff Hlen] & Hs0 & Hl0); [left|].
  pose proof (pos_in_lookup ids _ Hid) as Hpos. pose proof (lookup_lt_Some _ _ _ Hpos) as Hlt.
  set (tail := concat _) in *. unfold fixed_entry. rewrite <- !app_assoc. set (rest := put_be 4 _ ++ _).
  assert (H0 : slice rest 0 4 = put_be 4 (Z.of_nat (pos_in ids (ri_streamID item)))) by (unfold rest; by field).
  assert (H4 : slice rest 4 12 = put_be 8 (ie_Seq (ri_entry item))) by (unfold rest; by field).
  assert (H12 : slice rest 12 20 = put_be 8 (ie_Offset (ri_entry item))) by (unfold rest; by field).
  assert (H20 : slice rest 20 24 = put_be 4 (ie_Length (ri_entry item))) by (unfold rest; by field).
  assert (Hd : drop indexFixedEntrySize rest = tail).
  { unfold rest, indexFixedEntrySize.
    do 4 (rewrite drop_app_ge by (rewrite length_put_be; lia); rewrite length_put_be; cbn [Nat.sub]).
    done. }
  unfold in_u64, in_u32 in *.
  rewrite H0, H4, H12, H20, Hd, !get_put_be, Nat2Z.id
    by (change (2 ^ (8 * Z.of_nat 4)) with (2 ^ 32); change (2 ^ (8 * Z.of_nat 8)) with (2 ^ 64); lia).
  replace (Z.of_nat (length ids) <=? _) with false by lia.
  replace (ie_Seq (ri_entry item) =? 0) with false by lia.
  replace (ie_Length (ri_entry item) =? 0) with false by lia. cbn [orb].
  rewrite IH by (intros x Hx; apply Hall; by right). cbn [mbind result_bind].
  rewrite Hpos. cbn [default]. destruct item as [sid [a b c d]]. simpl in *. by subst.
Qed.

(** The parts of a written index. *)
Record written_index (segmentID : Z) (entries : list recoveredIndexEntry) (file : bytes) : Prop := {
  wi_ids : Z.of_nat (length (stream_ids (sort_by_offset entries))) < 2 ^ 32;
  wi_ok : check_entries segmentID (sort_by_offset entries) = Ok tt;
  wi_file : let ids := stream_ids (sort_by_offset entries) in
    let payload := dictionary_bytes 0 ids ++ concat (map (fixed_entry ids) (sort_by_offset entries)) in
    let head := index_header segmentID (Z.of_nat (length ids)) (Z.of_nat (length (sort_by_offset entries)))
                  (Z.of_nat (length (dictionary_bytes 0 ids))) in
    file = head ++ put_be 4 (index_crc head payload) ++ payload
}.

Lemma write_written segmentID entries file :
  writeSegmentIndex segmentID entries = Ok file → written_index segmentID entries file.
Proof.
  unfold writeSegmentIndex. cbv zeta. intros Hw. inv_ok. destruct a.
  destruct (2 ^ 32 - 1 <? _) eqn:Hn; [done|]. injection Hw as <-.
  split; [lia|done|done].
Qed.

Lemma length_index_header a b c d : length (index_header a b c d) = 36%nat.
Proof. unfold index_header. by rewrite !length_app, !length_put_be. Qed.

Lemma index_header_fields segmentID sc ec dl rest :
  let file := index_header segmentID sc ec dl ++ rest in
  slice file 0 4 = put_be 4 indexMagic ∧ slice file 4 6 = put_be 2 indexVersion ∧
  slice file 6 8 = put_be 2 (Z.of_nat indexFileHeaderSize) ∧ slice file 8 16 = put_be 8 segmentID ∧
  slice file 16 20 = put_be 4 sc ∧ slice file 20 28 = put_be 8 ec ∧ slice file 28 36 = put_be 8 dl ∧
  slice file 0 36 = index_header segmentID sc ec dl.
Proof.
  cbv zeta. split_and!; [..|by apply slice_prefix; rewrite length_index_header];
    unfold index_header; rewrite <- !app_assoc; by field.
Qed.

(** The decoder on a file with the written header. *)
Lemma read_header segmentID sc ec dl crc payload :
  in_u64 segmentID → in_u32 sc → in_u64 ec → in_u64 dl → in_u32 crc →
  let head := index_header segmentID sc ec dl in
  readDictionarySegmentIndex (head ++ put_be 4 crc ++ payload) segmentID =
  if Z.of_nat (length payload) <? dl then Err ErrCorruptIndex
  else if dl <? u64 (sc * 8) then Err ErrCorruptIndex
  else
    let dictLen := Z.to_nat dl in
    let entryBytes := (length payload - dictLen)%nat in
    if bool_decide (entryBytes `mod` indexFixedEntrySize ≠ 0)%nat
       || negb (Z.of_nat (entryBytes `div` indexFixedEntrySize) =? ec)
    then Err ErrCorruptIndex
    else if negb (crc =? index_crc head payload) then Err ErrCorruptIndex
    else
      '(rest, dictionary) ← read_dictionary (Z.to_nat sc) sc (slice payload 0 dictLen)
        (replicate (Z.to_nat sc) EmptyString);
      if bool_decide (rest ≠ []) then Err ErrCorruptIndex
      else if existsb str_empty dictionary then Err ErrCorruptIndex
      else read_entries (Z.to_nat ec) segmentID sc dictionary (drop dictLen payload).
Proof.
  intros Hseg Hsc Hec Hdl Hcrc head. unfold readDictionarySegmentIndex.
  set (file := head ++ put_be 4 crc ++ payload).
  assert (Hlen : length file = (40 + length payload)%nat).
  { unfold file. rewrite !length_app, length_put_be. unfold head. rewrite length_index_header. lia. }
  rewrite bool_decide_eq_false_2 by (unfold indexFileHeaderSize; lia). cbv zeta.
  assert (Hh : ∀ i j, (j ≤ 40)%nat → slice (slice file 0 indexFileHeaderSize) i j = slice file i j)
    by (intros i j Hj; unfold indexFileHeaderSize; rewrite slice_slice by lia; done).
  rewrite !Hh by lia. clear Hh.
  destruct (index_header_fields segmentID sc ec dl (put_be 4 crc ++ payload))
    as (F0 & F4 & F6 & F8 & F16 & F20 & F28 & F36). fold head in F0, F4, F6, F8, F16, F20, F28, F36.
  fold file in F0, F4, F6, F8, F16, F20, F28, F36.
  assert (Fc : slice file 36 40 = put_be 4 crc).
  { unfold file. rewrite slice_skip by (unfold head; rewrite length_index_header; lia).
    unfold head. rewrite length_index_header. cbn [Nat.sub]. by apply slice_prefix. }
  assert (Fp : drop indexFileHeaderSize file = payload).
  { unfold file, indexFileHeaderSize. rewrite app_assoc. apply drop_app_length'. unfold head.
    by rewrite length_app, length_index_header, length_put_be. }
  rewrite F0, F4, F6, F8, F16, F20, F28, F36, Fc, Fp. unfold in_u64, in_u32 in *.
  rewrite !get_put_be by (change (2 ^ (8 * Z.of_nat 4)) with (2 ^ 32); change (2 ^ (8 * Z.of_nat 8)) with (2 ^ 64);
    unfold indexMagic, indexVersion, indexFileHeaderSize; simpl; lia).
  rewrite !Z.eqb_refl. cbn [negb]. done.
Qed.

Lemma index_crc_range a b : in_u32 (index_crc a b).
Proof. unfold index_crc. apply castagnoli_range, castagnoli_range. unfold in_u32. lia. Qed.

(** The numbers of a written index. *)
Lemma written_bounds segmentID entries file :
  written_index segmentID entries file → Z.of_nat (length entries) < 2 ^ 64 →
  let ids := stream_ids (sort_by_offset entries) in
  Forall (λ x, x ≠ EmptyString ∧ Z.of_nat (str_len x) <= 0xffff) ids ∧
  in_u32 (Z.of_nat (length ids)) ∧ in_u64 (Z.of_nat (length (sort_by_offset entries))) ∧
  in_u64 (Z.of_nat (length (dictionary_bytes 0 ids))) ∧
  u64 (Z.of_nat (length ids) * 8) <= Z.of_nat (length (dictionary_bytes 0 ids)).
Proof.
  intros [Hids Hok _] Hn ids. unfold in_u32, in_u64.
  assert (Hf : Forall (λ x, x ≠ EmptyString ∧ Z.of_nat (str_len x) <= 0xffff) ids).
  { apply Forall_forall. intros x Hx. apply stream_ids_spec in Hx as (item & Hin & <-).
    destruct (check_entries_ok _ _ Hok item Hin) as (? & ? & _). done. }
  destruct (length_dictionary_bytes ids 0) as [H1 H2].
  { eapply Forall_impl; [exact Hf|]. by intros x [_ ?]. }
  assert (Hlen : length (sort_by_offset entries) = length entries)
    by (unfold sort_by_offset; by rewrite merge_sort_Permutation).
  fold ids in Hids. rewrite Hlen. unfold u64. rewrite Z.mod_small by lia. split_and!; try done; lia.
Qed.

Lemma entries_bytes_div n : ((indexFixedEntrySize * n) `mod` indexFixedEntrySize = 0)%nat ∧
  ((indexFixedEntrySize * n) `div` indexFixedEntrySize = n)%nat.
Proof.
  unfold indexFixedEntrySize. split.
  - rewrite Nat.mul_comm. by apply Nat.Div0.mod_mul.
  - rewrite Nat.mul_comm. by apply Nat.div_mul.
Qed.

Lemma read_written segmentID entries file :
  written_index segmentID entries file → in_u64 segmentID →
  (∀ item, item ∈ entries → index_entry_fits segmentID item) →
  Z.of_nat (length entries) < 2 ^ 64 →
  readDictionarySegmentIndex file segmentID = Ok (sort_by_offset entries).
Proof.
  intros Hw Hseg Hfit Hn. destruct (written_bounds _ _ _ Hw Hn) as (Hf & Hsc & Hec & Hdl & Hu).
  destruct Hw as [Hids Hok Hfile]. cbv zeta in Hfile. revert Hfile.
  set (ids := stream_ids (sort_by_offset entries)) in *. set (sorted := sort_by_offset entries) in *.
  set (dict := dictionary_bytes 0 ids) in *. set (fixed := concat _). intros ->.
  rewrite read_header by (done || apply index_crc_range).
  assert (Hfixed : length fixed = (indexFixedEntrySize * length sorted)%nat) by apply length_fixed_entries.
  destruct (entries_bytes_div (length sorted)) as [Hmod Hdiv].
  rewrite length_app.
  replace (Z.of_nat (length dict + length fixed) <? Z.of_nat (length dict)) with false by (symmetry; apply Z.ltb_ge; clear; lia).
  rewrite (proj2 (Z.ltb_ge _ _) Hu). cbv zeta. rewrite !Nat2Z.id.
  replace (length dict + length fixed - length dict)%nat with (length fixed) by lia.
  rewrite Hfixed, Hmod, Hdiv, Z.eqb_refl, bool_decide_eq_false_2 by lia. cbn [orb negb].
  rewrite Z.eqb_refl. cbn [negb]. rewrite slice_prefix by done.
  pose proof (read_dictionary_spec ids [] (Z.of_nat (length ids)) Hf) as Hd. cbn [length app] in Hd.
  change (Z.of_nat 0) with 0 in Hd. fold dict in Hd. rewrite Hd by (done || lia). cbn [mbind result_bind].
  rewrite bool_decide_eq_false_2 by (by intros []).
  replace (existsb str_empty ids) with false.
  2: { symmetry. apply not_true_is_false. intros (x & Hx & He)%existsb_exists.
       apply list_elem_of_In in Hx. rewrite Forall_forall in Hf. destruct (Hf x Hx) as [Hne _].
       by apply str_empty_true in He. }
  rewrite drop_app_length' by done. apply read_entries_spec; [unfold in_u32 in Hsc; lia|].
  intros item Hin. split_and!.
  - apply stream_ids_spec. by exists item.
  - apply Hfit. unfold sorted, sort_by_offset in Hin. by rewrite merge_sort_Permutation in Hin.
  - by destruct (check_entries_ok _ _ Hok item Hin) as (_ & _ & _ & ? & _).
  - by destruct (check_entries_ok _ _ Hok item Hin) as (_ & _ & _ & _ & ?).
Qed.

Section Written.
Context `{IndexJSON}.

Lemma written_length segmentID entries file :
  written_index segmentID entries file → (40 ≤ length file)%nat.
Proof.
  intros [_ _ Hfile]. cbv zeta in Hfile. rewrite Hfile.
  rewrite !length_app, length_index_header, length_put_be. lia.
Qed.

Lemma written_probe segmentID entries file k :
  written_index segmentID entries file → (6 ≤ k)%nat →
  slice (take k file) 0 4 = put_be 4 indexMagic ∧ slice (take k file) 4 6 = put_be 2 indexVersion.
Proof.
  intros [_ _ Hfile] Hk. cbv zeta in Hfile. rewrite Hfile.
  set (head := index_header _ _ _ _). set (rest := put_be 4 _ ++ _).
  assert (Hs : ∀ i j, (i ≤ j)%nat → (j ≤ 6)%nat → slice (take k (head ++ rest)) i j = slice (head ++ rest) i j).
  { intros i j Hi Hj. rewrite <- (take_drop k (head ++ rest)) at 2. rewrite slice_app_l; [done|].
    rewrite length_take, length_app. unfold head. rewrite length_index_header. lia. }
  rewrite !Hs by lia. unfold head.
  destruct (index_header_fields segmentID
    (Z.of_nat (length (stream_ids (sort_by_offset entries)))) (Z.of_nat (length (sort_by_offset entries)))
    (Z.of_nat (length (dictionary_bytes 0 (stream_ids (sort_by_offset entries))))) rest) as (F0 & F4 & _).
  done.
Qed.

(** Round trip: the index file written for a segment is read back as the
    entries that were written, in the order of their offsets, and no rewrite is
    asked for. *)
Theorem index_roundtrip segmentID entries file :
  writeSegmentIndex segmentID entries = Ok file → in_u64 segmentID →
  (∀ item, item ∈ entries → index_entry_fits segmentID item) →
  Z.of_nat (length entries) < 2 ^ 64 →
  readSegmentIndex file segmentID = Ok (sort_by_offset entries, false).
Proof.
  intros Hw%write_written Hseg Hfit Hn. pose proof (written_length _ _ _ Hw) as Hlen.
  destruct (written_probe _ _ _ (length file) Hw ltac:(lia)) as [H0 H4]. rewrite firstn_all in H0, H4.
  unfold readSegmentIndex. rewrite !bool_decide_eq_false_2 by lia. rewrite H0, H4.
  rewrite !get_put_be by (unfold indexMagic, indexVersion; simpl; lia). rewrite !Z.eqb_refl.
  by rewrite (read_written segmentID entries file).
Qed.

(** A torn index is detected: no proper prefix of an index file, however
    long, is accepted as an index (the empty file means no index at all). *)
Theorem torn_index_rejected segmentID entries file k :
  writeSegmentIndex segmentID entries = Ok file → in_u64 segmentID →
  Z.of_nat (length entries) < 2 ^ 64 → (0 < k < length file)%nat →
  readSegmentIndex (take k file) segmentID = Err ErrCorruptIndex.
Proof.
  intros Hw%write_written Hseg Hn Hk. pose proof (written_length _ _ _ Hw) as Hlen.
  assert (Hl : length (take k file) = k) by (rewrite length_take; lia).
  unfold readSegmentIndex. rewrite Hl. rewrite bool_decide_eq_false_2 by lia.
  case_bool_decide as Hk4; [done|]. destruct (decide (k < 6)%nat) as [Hk6|Hk6].
  { destruct (_ =? _) eqn:Hm; [by rewrite bool_decide_eq_true_2|]. exfalso.
    destruct (written_probe _ _ _ 6 Hw ltac:(lia)) as [H0 _].
    assert (Hs : slice (take k file) 0 4 = slice (take 6 file) 0 4).
    { unfold slice. rewrite !drop_0, !take_take. f_equal. lia. }
    rewrite Hs, H0, get_put_be, Z.eqb_refl in Hm by (unfold indexMagic; simpl; lia). done. }
  destruct (written_probe _ _ _ k Hw ltac:(lia)) as [H0 H4]. rewrite H0, H4.
  rewrite !get_put_be by (unfold indexMagic, indexVersion; simpl; lia). rewrite !Z.eqb_refl.
  rewrite bool_decide_eq_false_2 by lia. cbv zeta.
  enough (readDictionarySegmentIndex (take k file) segmentID = Err ErrCorruptIndex) as -> by done.
  destruct (decide (k < 40)%nat) as [Hk40|Hk40].
  { unfold readDictionarySegmentIndex. rewrite Hl. by rewrite bool_decide_eq_true_2. }
  destruct (written_bounds _ _ _ Hw Hn) as (Hf & Hsc & Hec & Hdl & Hu).
  destruct Hw as [Hids Hok Hfile]. cbv zeta in Hfile. revert Hfile.
  set (ids := stream_ids (sort_by_offset entries)) in *. set (sorted := sort_by_offset entries) in *.
  set (dict := dictionary_bytes 0 ids) in *. set (fixed := concat _). set (head := index_header _ _ _ _).
  set (crc := index_crc _ _). intros Hfile.
  assert (Hcut : take k file = head ++ put_be 4 crc ++ take (k - 40) (dict ++ fixed)).
  { assert (Hlh : length (head ++ put_be 4 crc) = 40%nat).
    { rewrite length_app, length_put_be. unfold head. by rewrite length_index_header. }
    rewrite Hfile, !(app_assoc head). rewrite take_app_ge by lia. by rewrite Hlh. }
  rewrite Hcut. unfold head. rewrite read_header by (done || apply index_crc_range). fold head.
  assert (Hfl : length file = (40 + length dict + length fixed)%nat).
  { rewrite Hfile, !length_app, length_put_be. unfold head. rewrite length_index_header. lia. }
  assert (Hpl : length (take (k - 40) (dict ++ fixed)) = (k - 40)%nat).
  { rewrite length_take, length_app. lia. }
  rewrite Hpl. destruct (_ <? _) eqn:H1; [done|]. destruct (_ <? u64 _) eqn:H2; [done|]. cbv zeta.
  rewrite Nat2Z.id. assert (Hfixed : length fixed = (indexFixedEntrySize * length sorted)%nat) by apply length_fixed_entries.
  set (e := (k - 40 - length dict)%nat).
  destruct (_ || _) eqn:H3; [done|]. apply orb_false_iff in H3 as [Hm Hd].
  apply bool_decide_eq_false in Hm. apply negb_false_iff, Z.eqb_eq in Hd.
  exfalso. pose proof (Nat.div_mod_eq e indexFixedEntrySize) as He. fold e in Hm, Hd.
  assert ((e `mod` indexFixedEntrySize)%nat = 0%nat) as Hm0 by (destruct (decide ((e `mod` indexFixedEntrySize)%nat = 0%nat)); [done|by destruct Hm]).
  apply Nat2Z.inj in Hd. rewrite Hm0, Hd, <- Hfixed in He. unfold e in He.
  apply Z.ltb_ge in H1. clear - Hk Hk40 Hfl H1 He. lia.
Qed.
End Written.

(** ** Witnesses *)

Definition demo_entries : list recoveredIndexEntry :=
  [{| ri_streamID := "s"; ri_entry := {| ie_Seq := 2; ie_SegmentID := 1; ie_Offset := 50; ie_Length := 45 |} |};
   {| ri_streamID := "s"; ri_entry := {| ie_Seq := 1; ie_SegmentID := 1; ie_Offset := 0; ie_Length := 50 |} |}].
Definition demo_index : bytes := match writeSegmentIndex 1 demo_entries with Ok f => f | Err _ => [] end.

Lemma demo_entries_fit item : item ∈ demo_entries → index_entry_fits 1 item.
Proof.
  unfold demo_entries. rewrite !elem_of_cons. intros [->|[->|H%elem_of_nil]]; [| |done];
    split; unfold in_u64, in_u32; simpl; lia.
Qed.

#[local] Instance no_json : IndexJSON := λ _, ([], false).

Lemma index_roundtrip_witness :
  readSegmentIndex demo_index 1 = Ok (sort_by_offset demo_entries, false).
Proof.
  apply index_roundtrip; [vm_compute; reflexivity|unfold in_u64; lia|apply demo_entries_fit|simpl; lia].
Defined.

Lemma torn_index_rejected_witness : readSegmentIndex (take 70 demo_index) 1 = Err ErrCorruptIndex.
Proof.
  apply (torn_index_rejected 1 demo_entries demo_index 70);
    [vm_compute; reflexivity|unfold in_u64; lia|simpl; lia|vm_compute; lia].
Defined.

Close Scope Z_scope.
