(* ===== verification/LogStore.v ===== *)
(** The append-only log store: [internal/logstore/store.go].

    The disk holds, per segment, a log file (its bytes and how many of them are
    synced) and an index file, and the retention snapshot, here its decoded
    content.  Every operation is one critical section of [Store.mu]; the cached
    readers only save opening files, so a read opens its segment.  The disk
    errors modelled are those of [Append]: a failing or short [Write] and a
    failing [Sync]; opening, truncating and renaming files succeed.  [Compact] is
    in [Compaction]; what it leaves on the disk is reconciled here, when a store opens.

    Theorems (file [LogSafety]): sequence numbers are dense, appends are
    idempotent, reads return what was appended, and recovery after a crash
    restores exactly the surviving records, from the indexes or by a scan. *)
From S2P Require Import Prelude Bytes Checksum LogRecord RecordCodec SegmentIndex.

Open Scope Z_scope.

(** ** State *)

(** [Options] *)
Record Options := {
  op_SegmentSizeBytes : Z;
  op_FsyncPolicy : string;
  op_FsyncInterval : Z;
  op_SegmentReaderCacheSize : Z;
  op_CompactionInterval : Z;
  op_CompactionCopyLiveRatioThreshold : float64;
  op_CompactionMaxBytesPerSecond : Z;
  op_ChecksumType : ChecksumType;
  op_MmapRead : bool
}.

Definition FsyncAlways : string := "always".
Definition FsyncBatch : string := "batch".
Definition FsyncInterval : string := "interval".

(** [defaultCompactionCopyLiveRatio], 0.5; [defaultCompactionMaxBytesPerSecond] *)
Definition defaultCompactionCopyLiveRatio : float64 := f64_div (f64 1) (f64 2).
Definition defaultCompactionMaxBytesPerSecond : Z := 16 * 2 ^ 20.

(** [Options.normalize]; durations are in nanoseconds. *)
Definition normalize (opts : Options) (mmapReadFromEnv : bool) : option Options :=
  let policy := if str_empty (op_FsyncPolicy opts) then FsyncAlways else op_FsyncPolicy opts in
  let typ := if op_ChecksumType opts =? 0 then ChecksumTypeCRC32C else op_ChecksumType opts in
  let ratio := if f64_eqb (op_CompactionCopyLiveRatioThreshold opts) (f64 0) then defaultCompactionCopyLiveRatio
               else op_CompactionCopyLiveRatioThreshold opts in
  if op_CompactionInterval opts <? 0 then None
  else if f64_ltb ratio (f64 0) || f64_ltb (f64 1) ratio then None
  else if op_CompactionMaxBytesPerSecond opts <? 0 then None
  else match validateChecksumType typ with
  | Err _ => None
  | Ok _ =>
      if decide (policy = FsyncAlways ∨ policy = FsyncBatch ∨ policy = FsyncInterval) then
        Some {| op_SegmentSizeBytes := if op_SegmentSizeBytes opts <=? 0 then 64 * 2 ^ 20
                                       else op_SegmentSizeBytes opts;
                op_FsyncPolicy := policy;
                op_FsyncInterval := if op_FsyncInterval opts <=? 0 then 100 * 1000000
                                    else op_FsyncInterval opts;
                op_SegmentReaderCacheSize := Z.max 0 (op_SegmentReaderCacheSize opts);
                op_CompactionInterval := op_CompactionInterval opts;
                op_CompactionCopyLiveRatioThreshold := ratio;
                op_CompactionMaxBytesPerSecond :=
                  if op_CompactionMaxBytesPerSecond opts =? 0 then defaultCompactionMaxBytesPerSecond
                  else op_CompactionMaxBytesPerSecond opts;
                op_ChecksumType := typ;
                op_MmapRead := op_MmapRead opts || mmapReadFromEnv |}
      else None
  end.

(** [streamState] *)
Record streamState := {
  ss_nextSeq : Z;
  ss_trimBefore : Z;
  ss_entries : list streamIndexEntry
}.
Definition new_stream : streamState := {| ss_nextSeq := 0; ss_trimBefore := 0; ss_entries := [] |}.

(** [Store]; [st_open] says that [logFile] and [indexFile] are not nil. *)
Record Store := {
  st_options : Options;
  st_open : bool;
  st_activeSegmentID : Z;
  st_activeSegmentBytes : Z;
  st_streams : gmap string streamState;
  st_idempotency : gmap string record
}.

(** A log file: its bytes, of which the first [f_synced] survive a crash. *)
Record file := { f_data : bytes; f_synced : nat }.
Definition empty_file : file := {| f_data := []; f_synced := 0 |}.
(** [compactionManifestCopy], [compactionManifest] *)
Record compactionManifestCopy := { mc_OldSegmentID : Z; mc_NewSegmentID : Z }.
Record compactionManifest := {
  cm_CompactionID : string;
  cm_DeletedSegments : list Z;
  cm_CopiedSegments : list compactionManifestCopy;
  cm_SafeBefore : gmap string Z;
  cm_StartedAtMs : Z;
  cm_CompletedAtMs : Z
}.
(** Files that are there but do not decode: both are written with [os.WriteFile] and
    renamed into place without an fsync, so that a power loss may empty them. *)
Record lost_contents := { lc_retention : bool; lc_manifest : bool }.
Definition none_lost : lost_contents := {| lc_retention := false; lc_manifest := false |}.
(** [dk_logTmp] and [dk_indexTmp]: the files of a segment being written by a compaction. *)
Record Disk := {
  dk_log : gmap Z file;
  dk_index : gmap Z bytes;
  dk_retention : option (gmap string Z);
  dk_manifest : option compactionManifest;
  dk_logTmp : gmap Z file;
  dk_indexTmp : gmap Z bytes;
  dk_lost : lost_contents
}.
Definition empty_disk : Disk :=
  {| dk_log := ∅; dk_index := ∅; dk_retention := None; dk_manifest := None; dk_logTmp := ∅; dk_indexTmp := ∅; dk_lost := none_lost |}.

Definition retention_lost (d : Disk) : bool := lc_retention (dk_lost d) && bool_decide (is_Some (dk_retention d)).
Definition manifest_lost (d : Disk) : bool := lc_manifest (dk_lost d) && bool_decide (is_Some (dk_manifest d)).
(** Both files decode, if they are there. *)
Definition readable (d : Disk) : bool := negb (manifest_lost d) && negb (retention_lost d).

Definition with_files (d : Disk) (log : gmap Z file) (index : gmap Z bytes) : Disk :=
  {| dk_log := log; dk_index := index; dk_retention := dk_retention d; dk_manifest := dk_manifest d;
     dk_logTmp := dk_logTmp d; dk_indexTmp := dk_indexTmp d; dk_lost := dk_lost d |}.
Definition with_tmps (d : Disk) (log : gmap Z file) (index : gmap Z bytes) : Disk :=
  {| dk_log := dk_log d; dk_index := dk_index d; dk_retention := dk_retention d; dk_manifest := dk_manifest d;
     dk_logTmp := log; dk_indexTmp := index; dk_lost := dk_lost d |}.
Definition with_log (d : Disk) (id : Z) (f : file) : Disk := with_files d (<[id := f]> (dk_log d)) (dk_index d).
Definition with_index (d : Disk) (id : Z) (b : bytes) : Disk := with_files d (dk_log d) (<[id := b]> (dk_index d)).
Definition log_file (d : Disk) (id : Z) : file := default empty_file (dk_log d !! id).

Definition with_streams (s : Store) (m : gmap string streamState) : Store :=
  {| st_options := st_options s; st_open := st_open s; st_activeSegmentID := st_activeSegmentID s;
     st_activeSegmentBytes := st_activeSegmentBytes s; st_streams := m;
     st_idempotency := st_idempotency s |}.
Definition with_idempotency (s : Store) (m : gmap string record) : Store :=
  {| st_options := st_options s; st_open := st_open s; st_activeSegmentID := st_activeSegmentID s;
     st_activeSegmentBytes := st_activeSegmentBytes s; st_streams := st_streams s;
     st_idempotency := m |}.
Definition with_active (s : Store) (open : bool) (id size : Z) : Store :=
  {| st_options := st_options s; st_open := open; st_activeSegmentID := id;
     st_activeSegmentBytes := size; st_streams := st_streams s; st_idempotency := st_idempotency s |}.

(** [streamStateLocked]: the state, and the store that holds it. *)
Definition stream_of (s : Store) (streamID : string) : streamState :=
  default new_stream (st_streams s !! streamID).
Definition streamStateLocked (s : Store) (streamID : string) : Store :=
  with_streams s (<[streamID := stream_of s streamID]> (st_streams s)).

(** [idempotencyKey] *)
Definition idempotencyKey (streamID key : string) : string :=
  (streamID ++ String Ascii.zero key)%string.

(** [idempotencyRecord] *)
Definition idempotencyRecord (rec : record) : record :=
  {| StreamID := StreamID rec; Seq := Seq rec; EventType := EventType rec;
     IdempotencyKey := IdempotencyKey rec; Payload := []; TimestampMs := TimestampMs rec;
     CRC32 := CRC32 rec; ChecksumTyp := ChecksumTyp rec |}.

(** [AppendRequest] *)
Record AppendRequest := {
  ar_StreamID : string;
  ar_EventType : string;
  ar_IdempotencyKey : string;
  ar_Payload : bytes
}.

(** What the environment does during an append: the pooled buffer, the clock,
    the bytes written before a [Write] error ([None]: no error), whether [Sync]
    succeeds, and whether the sync interval has passed. *)
Record append_io := {
  io_pooled : bytes;
  io_now : Z;
  io_write : option nat;
  io_sync : bool;
  io_due : bool
}.

Section Store.
Context `{ChecksumLib, IndexJSON}.

(** ** Segment files *)

(** [segmentIndexEntriesLocked], in the map's iteration order. *)
Definition segmentIndexEntriesLocked (s : Store) (segmentID : Z) : list recoveredIndexEntry :=
  concat (map (λ '(streamID, state),
    map (λ e, {| ri_streamID := streamID; ri_entry := e |})
      (filter (λ e, ie_SegmentID e = segmentID) (ss_entries state)))
    (map_to_list (st_streams s))).

(** [flushActiveIndexLocked]: truncate, then write. *)
Definition flushActiveIndexLocked (s : Store) (d : Disk) : Disk * option log_error :=
  if negb (st_open s) || (st_activeSegmentID s =? 0) then (d, None)
  else
    match writeSegmentIndex (st_activeSegmentID s) (segmentIndexEntriesLocked s (st_activeSegmentID s)) with
    | Ok b => (with_index d (st_activeSegmentID s) b, None)
    | Err e => (with_index d (st_activeSegmentID s) [], Some e)
    end.

(** [syncFilesLocked], when it succeeds. *)
Definition syncFilesLocked (s : Store) (d : Disk) : Disk :=
  if st_open s then
    let f := log_file d (st_activeSegmentID s) in
    with_log d (st_activeSegmentID s) {| f_data := f_data f; f_synced := length (f_data f) |}
  else d.

(** [closeActiveFilesLocked(true)] *)
Definition closeActiveFilesLocked (s : Store) (d : Disk) : Store * Disk * option log_error :=
  let (d, err) := flushActiveIndexLocked s d in
  let d := syncFilesLocked s d in
  (with_active s false (st_activeSegmentID s) (st_activeSegmentBytes s), d, err).

(** [openActiveFilesLocked] *)
Definition openActiveFilesLocked (s : Store) (d : Disk) : Store * Disk :=
  let id := if st_activeSegmentID s =? 0 then 1 else st_activeSegmentID s in
  let f := log_file d id in
  let d := with_log d id f in
  let d := with_index d id (default [] (dk_index d !! id)) in
  (with_active s true id (Z.of_nat (length (f_data f))), d).

(** [rollSegmentLocked] *)
Definition rollSegmentLocked (s : Store) (d : Disk) : Store * Disk * option log_error :=
  let '(s, d, err) := closeActiveFilesLocked s d in
  match err with
  | Some e => (s, d, Some e)
  | None =>
      let s := with_active s (st_open s) (u64 (st_activeSegmentID s + 1)) 0 in
      let (s, d) := openActiveFilesLocked s d in (s, d, None)
  end.

(** [ensureWritableSegmentLocked] *)
Definition ensureWritableSegmentLocked (s : Store) (d : Disk) (recordLen : Z) :
    Store * Disk * option log_error :=
  if negb (st_open s) then (s, d, Some ErrClosed)
  else if (0 <? st_activeSegmentBytes s) &&
          (op_SegmentSizeBytes (st_options s) <? i64 (st_activeSegmentBytes s + recordLen))
  then rollSegmentLocked s d
  else (s, d, None).

(** [syncForPolicyLocked]: the disk, and whether it succeeded. *)
Definition syncForPolicyLocked (s : Store) (d : Disk) (io : append_io) : Disk * bool :=
  let policy := op_FsyncPolicy (st_options s) in
  let sync := if io_sync io then (syncFilesLocked s d, true) else (d, false) in
  if decide (policy = FsyncAlways) then sync
  else if decide (policy = FsyncBatch) then (d, true)
  else if decide (policy = FsyncInterval) then if io_due io then sync else (d, true)
  else (d, false).

(** [s.logFile.Write]: the file is opened with [O_APPEND]. *)
Definition write_log (s : Store) (d : Disk) (b : bytes) : Disk :=
  let f := log_file d (st_activeSegmentID s) in
  with_log d (st_activeSegmentID s) {| f_data := f_data f ++ b; f_synced := f_synced f |}.

(** ** [Append] *)

Definition append_entry (s : Store) (entry : streamIndexEntry) (rec : record) : Store :=
  let state := stream_of s (StreamID rec) in
  let s := with_streams s (<[StreamID rec :=
    {| ss_nextSeq := u64 (Seq rec + 1); ss_trimBefore := ss_trimBefore state;
       ss_entries := ss_entries state ++ [entry] |}]> (st_streams s)) in
  if str_empty (IdempotencyKey rec) then s
  else with_idempotency s
         (<[idempotencyKey (StreamID rec) (IdempotencyKey rec) := idempotencyRecord rec]> (st_idempotency s)).

Definition Append (s : Store) (d : Disk) (req : AppendRequest) (io : append_io) :
    Store * Disk * result log_error (record * bool) :=
  if str_empty (ar_StreamID req) then (s, d, Err ErrStreamIDRequired)
  else if str_empty (ar_EventType req) then (s, d, Err ErrEventTypeRequired)
  else
    match (if str_empty (ar_IdempotencyKey req) then None
           else st_idempotency s !! idempotencyKey (ar_StreamID req) (ar_IdempotencyKey req)) with
    | Some existing => (s, d, Ok (existing, true))
    | None =>
        let state := stream_of s (ar_StreamID req) in
        let s := streamStateLocked s (ar_StreamID req) in
        let seq := if ss_nextSeq state =? 0 then 1 else ss_nextSeq state in
        let rec := {| StreamID := ar_StreamID req; Seq := seq; EventType := ar_EventType req;
                      IdempotencyKey := ar_IdempotencyKey req; Payload := ar_Payload req;
                      TimestampMs := io_now io; CRC32 := 0; ChecksumTyp := 0 |} in
        match encodeRecordPooled (io_pooled io) rec (op_ChecksumType (st_options s)) with
        | Err e => (s, d, Err e)
        | Ok (encoded, crc) =>
            let rec := stamped rec crc (op_ChecksumType (st_options s)) in
            let len := Z.of_nat (length encoded) in
            let '(s, d, err) := ensureWritableSegmentLocked s d len in
            match err with
            | Some e => (s, d, Err e)
            | None =>
                if 2 ^ 32 - 1 <? len then (s, d, Err ErrRecordTooLarge)
                else
                  let offset := st_activeSegmentBytes s in
                  match io_write io with
                  | Some n => (s, write_log s d (take n encoded), Err ErrIO)
                  | None =>
                      let d := write_log s d encoded in
                      let entry := {| ie_Seq := Seq rec; ie_SegmentID := st_activeSegmentID s;
                                      ie_Offset := u64 offset; ie_Length := u32 len |} in
                      let (d, synced) := syncForPolicyLocked s d io in
                      if negb synced then (s, d, Err ErrIO)
                      else
                        let s := with_active s (st_open s) (st_activeSegmentID s)
                                   (i64 (st_activeSegmentBytes s + len)) in
                        (append_entry s entry rec, d, Ok (rec, false))
                  end
            end
        end
    end.

(** [Close], on the files. *)
Definition Close (s : Store) (d : Disk) : Store * Disk * option log_error := closeActiveFilesLocked s d.

(** ** Reading *)

(** [readIndexedRecordFromReader] *)
Definition readIndexedRecordFromReader (reader : SegmentReader) (streamID : string)
    (entry : streamIndexEntry) : result log_error record :=
  if max_i64 <? ie_Offset entry then Err ErrCorruptIndex
  else
    let offset := Z.to_nat (ie_Offset entry) in
    '(rec, next) ← readRecordAtIO reader offset;
    if negb (bool_decide (StreamID rec = streamID)) || negb (Seq rec =? ie_Seq entry)
       || negb (Z.of_nat next - ie_Offset entry =? ie_Length entry)
    then Err ErrCorruptRecord else Ok rec.

(** [readIndexedRawRecordFromReader] *)
Definition readIndexedRawRecordFromReader (reader : SegmentReader) (streamID : string)
    (entry : streamIndexEntry) : result log_error RawRecord :=
  if max_i64 <? ie_Offset entry then Err ErrCorruptIndex
  else
    let offset := Z.to_nat (ie_Offset entry) in
    '(rec, _, next) ← readRawRecordAtWithScratch reader offset;
    if negb (bool_decide (raw_StreamID rec = streamID)) || negb (raw_Seq rec =? ie_Seq entry)
       || negb (Z.of_nat next - ie_Offset entry =? ie_Length entry)
    then Err ErrCorruptRecord else Ok rec.

(** [acquireSegmentReader]: [mmapOk] says whether the platform maps the file. *)
Definition acquireSegmentReader (s : Store) (d : Disk) (mmapOk : bool) (segmentID : Z) :
    result log_error SegmentReader :=
  let sealed := negb (st_activeSegmentID s =? 0) && (segmentID <? st_activeSegmentID s) in
  match dk_log d !! segmentID with
  | None => Err ErrNoSegment
  | Some f => Ok (openSegmentReader (f_data f) sealed (op_MmapRead (st_options s)) mmapOk)
  end.

(** [sort.Search] for the first entry with [Seq >= fromSeq]. *)
Definition search_seq (entries : list streamIndexEntry) (fromSeq : Z) : nat :=
  match list_find (λ e, fromSeq <= ie_Seq e) entries with Some (i, _) => i | None => length entries end.

(** The index window [ReadEach] copies under the lock. *)
Definition select_entries (s : Store) (streamID : string) (fromSeq limit : Z) : list streamIndexEntry :=
  match st_streams s !! streamID with
  | None => []
  | Some state =>
      let fromSeq := if fromSeq <? ss_trimBefore state then ss_trimBefore state else fromSeq in
      let entries := ss_entries state in
      let start := search_seq entries fromSeq in
      let stop := if 0 <? limit then Nat.min (start + Z.to_nat limit) (length entries)
                  else length entries in
      take (stop - start) (drop start entries)
  end.

(** The reading loop; [emit] returns false to stop with its own error. *)
Fixpoint emit_entries {R} (read : streamIndexEntry → result log_error R) (emit : R → bool)
    (entries : list streamIndexEntry) : list R * option log_error :=
  match entries with
  | [] => ([], None)
  | entry :: entries =>
      match read entry with
      | Err e => ([], Some e)
      | Ok rec =>
          if emit rec then
            let (out, err) := emit_entries read emit entries in (rec :: out, err)
          else ([rec], Some ErrIO)
      end
  end.

Definition read_entry (s : Store) (d : Disk) (mmapOk : bool) (streamID : string)
    (entry : streamIndexEntry) : result log_error record :=
  reader ← acquireSegmentReader s d mmapOk (ie_SegmentID entry);
  readIndexedRecordFromReader reader streamID entry.
Definition read_raw_entry (s : Store) (d : Disk) (mmapOk : bool) (streamID : string)
    (entry : streamIndexEntry) : result log_error RawRecord :=
  reader ← acquireSegmentReader s d mmapOk (ie_SegmentID entry);
  readIndexedRawRecordFromReader reader streamID entry.

(** [ReadEach]: the records emitted, and the error. *)
Definition ReadEach (s : Store) (d : Disk) (mmapOk : bool) (streamID : string) (fromSeq limit : Z)
    (emit : record → bool) : list record * option log_error :=
  if str_empty streamID then ([], Some ErrStreamIDRequired)
  else
    let fromSeq := if fromSeq =? 0 then 1 else fromSeq in
    emit_entries (read_entry s d mmapOk streamID) emit (select_entries s streamID fromSeq limit).

(** [Read] *)
Definition Read (s : Store) (d : Disk) (mmapOk : bool) (streamID : string) (fromSeq limit : Z) :
    result log_error (list record) :=
  let limit := if limit <=? 0 then 100 else limit in
  match ReadEach s d mmapOk streamID fromSeq limit (λ _, true) with
  | (out, None) => Ok out
  | (_, Some e) => Err e
  end.

(** ** [ReadRawEach]: batches under separate critical sections

    [views i] is the store and disk when the scan takes the lock for the i-th
    time; between two batches other operations may run. *)
Definition rawReadBatchEntries : Z := 1024.

Inductive raw_status := RawError (e : log_error) | RawDone | RawMore (nextSeq remaining : Z).

(** The loop over one batch. *)
Fixpoint raw_emit (read : streamIndexEntry → result log_error RawRecord) (emit : RawRecord → bool)
    (entries : list streamIndexEntry) (nextSeq remaining : Z) : list RawRecord * raw_status :=
  match entries with
  | [] => ([], RawMore nextSeq remaining)
  | entry :: entries =>
      match read entry with
      | Err e => ([], RawError e)
      | Ok rec =>
          if negb (emit rec) then ([rec], RawError ErrIO)
          else if (0 <? remaining) && (remaining - 1 =? 0) then ([rec], RawDone)
          else
            let remaining := if 0 <? remaining then remaining - 1 else remaining in
            let (out, st) := raw_emit read emit entries (u64 (ie_Seq entry + 1)) remaining in
            (rec :: out, st)
      end
  end.

(** The window of one batch; [None] ends the scan. *)
Definition raw_window (state : streamState) (nextSeq snapshotNextSeq remaining : Z) :
    option (list streamIndexEntry) :=
  if snapshotNextSeq <=? nextSeq then None
  else
    let entries := ss_entries state in
    let start := search_seq entries nextSeq in
    let maxEnd := search_seq entries snapshotNextSeq in
    let batchSize := if (0 <? remaining) && (remaining <? rawReadBatchEntries) then remaining
                     else rawReadBatchEntries in
    let stop := Nat.min (start + Z.to_nat batchSize) maxEnd in
    match take (stop - start) (drop start entries) with [] => None | selected => Some selected end.

(** The batches; [None] when the fuel runs out. *)
Fixpoint raw_loop (fuel : nat) (views : nat → Store * Disk) (i : nat) (mmapOk : bool) (streamID : string)
    (emit : RawRecord → bool) (nextSeq remaining : Z) (snapshot : option Z) :
    option (list RawRecord * option log_error) :=
  match fuel with
  | O => None
  | S fuel =>
      let (s, d) := views i in
      match st_streams s !! streamID with
      | None => Some ([], None)
      | Some state =>
          if ss_nextSeq state =? 0 then Some ([], None)
          else
            let '(nextSeq, snap) :=
              match snapshot with
              | None => (if nextSeq <? ss_trimBefore state then ss_trimBefore state else nextSeq, ss_nextSeq state)
              | Some snap => (nextSeq, snap)
              end in
            match raw_window state nextSeq snap remaining with
            | None => Some ([], None)
            | Some selected =>
                match raw_emit (read_raw_entry s d mmapOk streamID) emit selected nextSeq remaining with
                | (out, RawError e) => Some (out, Some e)
                | (out, RawDone) => Some (out, None)
                | (out, RawMore nextSeq remaining) =>
                    match raw_loop fuel views (S i) mmapOk streamID emit nextSeq remaining (Some snap) with
                    | Some (out', err) => Some (out ++ out', err)
                    | None => None
                    end
                end
            end
      end
  end.

(** [ReadRawEach]; each batch reads at least one entry of the snapshot. *)
Definition ReadRawEach (fuel : nat) (views : nat → Store * Disk) (mmapOk : bool) (streamID : string)
    (fromSeq limit : Z) (emit : RawRecord → bool) : option (list RawRecord * option log_error) :=
  if str_empty streamID then Some ([], Some ErrStreamIDRequired)
  else raw_loop fuel views 0 mmapOk streamID emit (if fromSeq =? 0 then 1 else fromSeq) limit None.

(** ** Retention *)

(** [TrimStats] *)
Record TrimStats := {
  ts_StreamID : string;
  ts_FirstSeq : Z;
  ts_NextSeq : Z;
  ts_TrimmedBeforeSeq : Z;
  ts_CompactableRecords : Z;
  ts_CompactableBytes : Z
}.

(** [streamStatsLocked] *)
Definition stats_entry (trimmedBefore : Z) (acc : Z * Z * Z) (e : streamIndexEntry) : Z * Z * Z :=
  let '(firstSeq, records, total) := acc in
  if (0 <? trimmedBefore) && (ie_Seq e <? trimmedBefore)
  then (firstSeq, u64 (records + 1), u64 (total + ie_Length e))
  else if (firstSeq =? 0) || (ie_Seq e <? firstSeq) then (ie_Seq e, records, total)
  else acc.
Definition streamStatsLocked (s : Store) (streamID : string) : TrimStats :=
  let '(trimmedBefore, nextSeq, entries) :=
    match st_streams s !! streamID with
    | None => (0, 1, [])
    | Some state => (ss_trimBefore state, if ss_nextSeq state =? 0 then 1 else ss_nextSeq state, ss_entries state)
    end in
  let '(firstSeq, records, total) := foldl (stats_entry trimmedBefore) (0, 0, 0) entries in
  {| ts_StreamID := streamID; ts_FirstSeq := if firstSeq =? 0 then nextSeq else firstSeq;
     ts_NextSeq := nextSeq; ts_TrimmedBeforeSeq := trimmedBefore;
     ts_CompactableRecords := records; ts_CompactableBytes := total |}.

(** [persistRetentionLocked]: the snapshot file is replaced by a rename. *)
Definition persistRetentionLocked (s : Store) (d : Disk) : Disk :=
  {| dk_log := dk_log d; dk_index := dk_index d;
     dk_retention := Some (omap (λ state, if ss_trimBefore state =? 0 then None else Some (ss_trimBefore state))
                             (st_streams s));
     dk_manifest := dk_manifest d; dk_logTmp := dk_logTmp d; dk_indexTmp := dk_indexTmp d;
     dk_lost := {| lc_retention := false; lc_manifest := lc_manifest (dk_lost d) |} |}.

Definition set_trim (s : Store) (streamID : string) (state : streamState) (trimBefore : Z) : Store :=
  with_streams s (<[streamID := {| ss_nextSeq := ss_nextSeq state; ss_trimBefore := trimBefore;
                                   ss_entries := ss_entries state |}]> (st_streams s)).

(** [Trim] *)
Definition Trim (s : Store) (d : Disk) (streamID : string) (beforeSeq : Z) :
    Store * Disk * result log_error TrimStats :=
  if str_empty streamID then (s, d, Err ErrStreamIDRequired)
  else if beforeSeq =? 0 then (s, d, Err ErrBeforeSeqRequired)
  else
    match st_streams s !! streamID with
    | None => (s, d, Err (ErrStreamNotFound streamID))
    | Some state =>
        if ss_nextSeq state =? 0 then (s, d, Err (ErrStreamNotFound streamID))
        else
          let beforeSeq := if ss_nextSeq state <? beforeSeq then ss_nextSeq state else beforeSeq in
          let beforeSeq := if beforeSeq <? 1 then 1 else beforeSeq in
          if ss_trimBefore state <? beforeSeq then
            let s := set_trim s streamID state beforeSeq in
            (s, persistRetentionLocked s d, Ok (streamStatsLocked s streamID))
          else (s, d, Ok (streamStatsLocked s streamID))
    end.

(** [Stats] *)
Definition Stats (s : Store) (streamID prefix : string) : list TrimStats :=
  let live := filter (λ p : string * streamState, ss_entries p.2 ≠ [] ∨ 0 < ss_trimBefore p.2) (map_to_list (st_streams s)) in
  let ids := filter (λ id, (streamID = EmptyString ∨ id = streamID) ∧
                           (prefix = EmptyString ∨ String.prefix prefix id = true)) (map fst live) in
  map (streamStatsLocked s) (merge_sort String.le ids).

(** [ListStreams] *)
Definition ListStreams (s : Store) (prefix : string) : list string :=
  let live := filter (λ p : string * streamState, ss_entries p.2 ≠ []) (map_to_list (st_streams s)) in
  merge_sort String.le
    (filter (λ id, prefix = EmptyString ∨ String.prefix prefix id = true) (map fst live)).

(** ** Recovery *)

(** [discoverSegmentIDs] *)
Definition segment_ids {A} (files : gmap Z A) : list Z := merge_sort Z.le (elements (dom files)).

(** The index a recovered record or index entry adds to its stream. *)
Definition add_entry (streams : gmap string streamState) (streamID : string) (entry : streamIndexEntry) :
    gmap string streamState :=
  let state := default new_stream (streams !! streamID) in
  <[streamID := {| ss_nextSeq := if ss_nextSeq state <=? ie_Seq entry then u64 (ie_Seq entry + 1)
                                 else ss_nextSeq state;
                   ss_trimBefore := ss_trimBefore state;
                   ss_entries := ss_entries state ++ [entry] |}]> streams.
Definition add_idempotency (idem : gmap string record) (rec : record) : gmap string record :=
  if str_empty (IdempotencyKey rec) then idem
  else <[idempotencyKey (StreamID rec) (IdempotencyKey rec) := idempotencyRecord rec]> idem.

(** The loop of [recoverSegment]: the offset where it stops, and what it read.
    A record takes at least a header, so [length data + 1] rounds are enough. *)
Fixpoint scan_loop (fuel : nat) (segmentID : Z) (data : bytes) (off : nat)
    (streams : gmap string streamState) (idem : gmap string record) :
    result log_error (nat * gmap string streamState * gmap string record) :=
  match fuel with
  | O => Ok (off, streams, idem)
  | S fuel =>
      match readRecordAtIO (readAtSegmentReader data) off with
      | Err _ => Ok (off, streams, idem)
      | Ok (rec, next) =>
          let len := Z.of_nat next - Z.of_nat off in
          if (len <=? 0) || (2 ^ 32 - 1 <? len) then Err ErrRecordTooLarge
          else
            let entry := {| ie_Seq := Seq rec; ie_SegmentID := segmentID;
                            ie_Offset := Z.of_nat off; ie_Length := len |} in
            scan_loop fuel segmentID data next
              (add_entry streams (StreamID rec) entry) (add_idempotency idem rec)
      end
  end.

(** [recoverSegment]: at [io.EOF] the file ends there; at any other error it is
    truncated there. *)
Definition recoverSegment (s : Store) (d : Disk) (segmentID : Z) : result log_error (Store * Disk * Z) :=
  let f := log_file d segmentID in
  '(off, streams, idem) ← scan_loop (S (length (f_data f))) segmentID (f_data f) 0
                            (st_streams s) (st_idempotency s);
  let f := {| f_data := take off (f_data f); f_synced := Nat.min off (f_synced f) |} in
  Ok (with_idempotency (with_streams s streams) idem, with_log d segmentID f,
      Z.of_nat (length (f_data f))).

(** [sortStreamEntries] *)
Definition seq_le (a b : streamIndexEntry) : Prop := ie_Seq a <= ie_Seq b.
#[export] Instance seq_le_dec : RelDecision seq_le.
Proof. unfold seq_le. intros a b. apply _. Defined.
Definition sortStreamEntries (streams : gmap string streamState) : gmap string streamState :=
  (λ state, {| ss_nextSeq := ss_nextSeq state; ss_trimBefore := ss_trimBefore state;
               ss_entries := merge_sort seq_le (ss_entries state) |}) <$> streams.

(** [validateIndexedSegmentCoverage], on entries sorted by offset. *)
Fixpoint covers (expectedOffset : Z) (items : list recoveredIndexEntry) (size : Z) : bool :=
  match items with
  | [] => expectedOffset =? size
  | item :: items =>
      (ie_Offset (ri_entry item) =? expectedOffset)
      && covers (u64 (expectedOffset + ie_Length (ri_entry item))) items size
  end.

(** [hydrateIdempotencyFromIndex] on one segment. *)
Fixpoint hydrate (data : bytes) (items : list recoveredIndexEntry) (idem : gmap string record) :
    result log_error (gmap string record) :=
  match items with
  | [] => Ok idem
  | item :: items =>
      rec ← readIndexedRecordFromReader (readAtSegmentReader data) (ri_streamID item) (ri_entry item);
      hydrate data items (add_idempotency idem rec)
  end.

(** The index of every segment, or [None] when one is missing or corrupt. *)
Fixpoint read_indexes (d : Disk) (ids : list Z) : option (list (Z * list recoveredIndexEntry) * bool) :=
  match ids with
  | [] => Some ([], false)
  | id :: ids =>
      match dk_index d !! id with
      | None => None
      | Some b =>
          match readSegmentIndex b id with
          | Err _ => None
          | Ok (items, legacy) =>
              match read_indexes d ids with
              | None => None
              | Some (rest, legacy') => Some ((id, items) :: rest, legacy || legacy')
              end
          end
      end
  end.

(** [loadFromIndexFiles]; a missing index and a corrupt one have the same
    effect in [recover]. *)
Definition loadFromIndexFiles (s : Store) (d : Disk) (ids : list Z) : option (Store * bool) :=
  '(bySegment, legacy) ← read_indexes d ids;
  let streams := foldl (λ m '(_, items),
    foldl (λ m item, add_entry m (ri_streamID item) (ri_entry item)) m items) (st_streams s) bySegment in
  if forallb (λ '(id, items), covers 0 (sort_by_offset items) (Z.of_nat (length (f_data (log_file d id))))) bySegment
  then
    match foldl (λ idem '(id, items), m ← idem; hydrate (f_data (log_file d id)) (sort_by_offset items) m)
            (Ok (st_idempotency s)) bySegment with
    | Err _ => None
    | Ok idem =>
        let lastID := default 0 (last ids) in
        Some (with_active (with_idempotency (with_streams s (sortStreamEntries streams)) idem) (st_open s)
                lastID (Z.of_nat (length (f_data (log_file d lastID)))), legacy)
    end
  else None.

(** [rewriteIndex] *)
Fixpoint write_indexes (s : Store) (d : Disk) (ids : list Z) : result log_error Disk :=
  match ids with
  | [] => Ok d
  | id :: ids =>
      b ← writeSegmentIndex id (segmentIndexEntriesLocked s id);
      write_indexes s (with_index d id b) ids
  end.
Definition rewriteIndex (s : Store) (d : Disk) : result log_error Disk :=
  let d := with_files d (dk_log d) ∅ in
  let ids := segment_ids (dk_log d) in
  let ids := if bool_decide (ids = []) && negb (st_activeSegmentID s =? 0) then [st_activeSegmentID s] else ids in
  write_indexes s d ids.

(** The scan of all segments. *)
Fixpoint recover_segments (s : Store) (d : Disk) (ids : list Z) : result log_error (Store * Disk) :=
  match ids with
  | [] => Ok (s, d)
  | id :: ids =>
      '(s, d, size) ← recoverSegment s d id;
      recover_segments (with_active s (st_open s) id size) d ids
  end.

(** [recover] *)
Definition recover (s : Store) (d : Disk) : result log_error (Store * Disk) :=
  let ids := segment_ids (dk_log d) in
  if bool_decide (ids = []) then
    let s := with_active s (st_open s) 1 0 in
    d ← rewriteIndex s d; Ok (s, d)
  else
    match loadFromIndexFiles s d ids with
    | Some (s, false) => Ok (s, d)
    | Some (s, true) => d ← rewriteIndex s d; Ok (s, d)
    | None =>
        let s := with_idempotency (with_streams s ∅) ∅ in
        '(s, d) ← recover_segments s d ids;
        let s := with_streams s (sortStreamEntries (st_streams s)) in
        d ← rewriteIndex s d; Ok (s, d)
    end.

(** [loadRetention] *)
Definition retain (streams : gmap string streamState) (streamID : string) (trimmedBefore : Z) :
    gmap string streamState :=
  if str_empty streamID || (trimmedBefore =? 0) then streams
  else
    let state := default new_stream (streams !! streamID) in
    <[streamID := {| ss_nextSeq := Z.max (ss_nextSeq state) trimmedBefore;
                     ss_trimBefore := trimmedBefore; ss_entries := ss_entries state |}]> streams.
Definition restoreRetention (s : Store) (meta : option (gmap string Z)) : Store :=
  match meta with
  | None => s
  | Some meta =>
      with_streams s (foldl (λ m '(streamID, trimmedBefore), retain m streamID trimmedBefore)
        (st_streams s) (map_to_list meta))
  end.
Definition loadRetention (s : Store) (d : Disk) : result log_error Store :=
  if retention_lost d then Err ErrJSON
  else Ok (restoreRetention s (dk_retention d)).

(** [removeSegmentFilesOnDisk] *)
Definition removeSegmentFilesOnDisk (d : Disk) (segmentID : Z) : Disk :=
  with_files d (delete segmentID (dk_log d)) (delete segmentID (dk_index d)).

Definition has {A} (files : gmap Z A) (id : Z) : bool := bool_decide (is_Some (files !! id)).
(** [os.Rename] of a temporary log or index file to its final name. *)
Definition rename_log (d : Disk) (id : Z) : Disk :=
  match dk_logTmp d !! id with
  | None => d
  | Some f => with_tmps (with_files d (<[id := f]> (dk_log d)) (dk_index d)) (delete id (dk_logTmp d)) (dk_indexTmp d)
  end.
Definition rename_index (d : Disk) (id : Z) : Disk :=
  match dk_indexTmp d !! id with
  | None => d
  | Some b => with_tmps (with_files d (dk_log d) (<[id := b]> (dk_index d))) (dk_logTmp d) (delete id (dk_indexTmp d))
  end.
(** All four files of a copy that was not finished. *)
Definition remove_copy (d : Disk) (id : Z) : Disk :=
  with_tmps (removeSegmentFilesOnDisk d id) (delete id (dk_logTmp d)) (delete id (dk_indexTmp d)).

(** [reconcileCopiedSegmentBeforeRecover] *)
Definition reconcileCopiedSegmentBeforeRecover (d : Disk) (copied : compactionManifestCopy) : result log_error Disk :=
  let new := mc_NewSegmentID copied in
  let oldExists := has (dk_log d) (mc_OldSegmentID copied) in
  let d := if negb (has (dk_log d) new) && has (dk_logTmp d) new && has (dk_indexTmp d) new then rename_log d new else d in
  let d := if negb (has (dk_index d) new) && has (dk_indexTmp d) new && has (dk_log d) new then rename_index d new else d in
  if has (dk_log d) new && has (dk_index d) new then Ok (removeSegmentFilesOnDisk d (mc_OldSegmentID copied))
  else if oldExists then Ok (remove_copy d new)
  else if has (dk_logTmp d) new || has (dk_indexTmp d) new || has (dk_log d) new || has (dk_index d) new
  then Err (ErrIncompleteCompaction new (mc_OldSegmentID copied))
  else Ok d.
Fixpoint reconcile_copies (d : Disk) (copies : list compactionManifestCopy) : result log_error Disk :=
  match copies with
  | [] => Ok d
  | copied :: copies => d ← reconcileCopiedSegmentBeforeRecover d copied; reconcile_copies d copies
  end.
(** [readCompactionManifest] *)
Definition readCompactionManifest (d : Disk) : result log_error (option compactionManifest) :=
  if manifest_lost d then Err ErrJSON else Ok (dk_manifest d).

(** [reconcileCompactionManifestBeforeRecover] *)
Definition reconcileCompactionManifestBeforeRecover (d : Disk) : result log_error Disk :=
  manifest ← readCompactionManifest d;
  match manifest with
  | None => Ok d
  | Some manifest =>
      d ← reconcile_copies d (cm_CopiedSegments manifest);
      Ok (foldl removeSegmentFilesOnDisk d (cm_DeletedSegments manifest))
  end.

(** [OpenWithOptions] on normalized options *)
Definition fresh_store (opts : Options) : Store :=
  {| st_options := opts; st_open := false; st_activeSegmentID := 0; st_activeSegmentBytes := 0;
     st_streams := ∅; st_idempotency := ∅ |}.
Definition OpenWithOptions (opts : Options) (d : Disk) : result log_error (Store * Disk) :=
  d ← reconcileCompactionManifestBeforeRecover d;
  '(s, d) ← recover (fresh_store opts) d;
  s ← loadRetention s d;
  Ok (openActiveFilesLocked s d).
End Store.

Close Scope Z_scope.
