(* ===== verification/LogSafety.v ===== *)
(** Correctness of the log store ([LogStore]).

    The abstract log is the list of records in the order of their appends, each
    with its segment and its encoding.  [store_ok] relates a store and its disk
    to an abstract log; appends extend the log, reads return its records, and
    recovery from a crashed disk re-establishes the relation for the records
    that survived.  Segments stay below 2^37 bytes, so that the counts of an
    index file fit their fields. *)
From S2P Require Import Prelude Bytes Checksum LogRecord RecordCodec SegmentIndex LogStore.

Open Scope Z_scope.

(** ** The abstract log *)

Record appended := { ap_seg : Z; ap_rec : record; ap_enc : bytes }.

Definition in_seg (id : Z) (h : list appended) : list appended := filter (λ a, ap_seg a = id) h.
(** The bytes of a segment's log file. *)
Definition seg_bytes (h : list appended) (id : Z) : bytes := concat (map ap_enc (in_seg id h)).

(** The index entry of a record appended to the log [h]. *)
Definition entry_of (h : list appended) (a : appended) : streamIndexEntry :=
  {| ie_Seq := Seq (ap_rec a); ie_SegmentID := ap_seg a;
     ie_Offset := Z.of_nat (length (seg_bytes h (ap_seg a)));
     ie_Length := Z.of_nat (length (ap_enc a)) |}.
Definition item_of (h : list appended) (a : appended) : recoveredIndexEntry :=
  {| ri_streamID := StreamID (ap_rec a); ri_entry := entry_of h a |}.
Fixpoint place (pre h : list appended) : list recoveredIndexEntry :=
  match h with [] => [] | a :: h => item_of pre a :: place (pre ++ [a]) h end.
(** The index of the log. *)
Definition placed (h : list appended) : list recoveredIndexEntry := place [] h.

Definition of_stream (id : string) (h : list appended) : list appended :=
  filter (λ a, StreamID (ap_rec a) = id) h.
Definition stream_entries (h : list appended) (id : string) : list streamIndexEntry :=
  ri_entry <$> filter (λ i, ri_streamID i = id) (placed h).
Definition seqs (h : list appended) (id : string) : list Z := (Seq ∘ ap_rec) <$> of_stream id h.

Definition rec_key (r : record) : string := idempotencyKey (StreamID r) (IdempotencyKey r).

Lemma seg_bytes_app h1 h2 id : seg_bytes (h1 ++ h2) id = seg_bytes h1 id ++ seg_bytes h2 id.
Proof. unfold seg_bytes, in_seg. by rewrite filter_app, map_app, concat_app. Qed.

Lemma seg_bytes_one a id : seg_bytes [a] id = if decide (ap_seg a = id) then ap_enc a else [].
Proof.
  unfold seg_bytes, in_seg. rewrite filter_cons, filter_nil. case_decide; simpl; [apply app_nil_r|done].
Qed.

Lemma place_app pre h1 h2 : place pre (h1 ++ h2) = place pre h1 ++ place (pre ++ h1) h2.
Proof.
  revert pre. induction h1 as [|a h1 IH]; intros pre; simpl; [by rewrite app_nil_r|].
  rewrite IH. by rewrite <- app_assoc.
Qed.

Lemma placed_snoc h a : placed (h ++ [a]) = placed h ++ [item_of h a].
Proof. unfold placed. by rewrite place_app. Qed.

Lemma stream_entries_snoc h a id :
  stream_entries (h ++ [a]) id =
  if decide (StreamID (ap_rec a) = id) then stream_entries h id ++ [entry_of h a] else stream_entries h id.
Proof.
  unfold stream_entries. rewrite placed_snoc, filter_app, fmap_app, filter_cons, filter_nil. simpl.
  case_decide; [done|]. by rewrite app_nil_r.
Qed.

Lemma seqs_snoc h a id :
  seqs (h ++ [a]) id =
  if decide (StreamID (ap_rec a) = id) then seqs h id ++ [Seq (ap_rec a)] else seqs h id.
Proof.
  unfold seqs, of_stream. rewrite filter_app, fmap_app, filter_cons, filter_nil.
  case_decide; [done|]. by rewrite app_nil_r.
Qed.

(** Each index entry stands for one record of the log. *)
Definition stands_for (h : list appended) (item : recoveredIndexEntry) (a : appended) : Prop :=
  ∃ pre post, h = pre ++ a :: post ∧ item = item_of pre a.

Lemma place_stands pre h :
  Forall2 (stands_for (pre ++ h)) (place pre h) h.
Proof.
  revert pre. induction h as [|a h IH]; intros pre; simpl; constructor.
  - by exists pre, h.
  - specialize (IH (pre ++ [a])). by rewrite <- app_assoc in IH.
Qed.

Lemma placed_stands h : Forall2 (stands_for h) (placed h) h.
Proof. apply (place_stands [] h). Qed.

Lemma Forall2_filter {A B} (R : A → B → Prop) (P : A → Prop) (Q : B → Prop)
    `{!∀ x, Decision (P x), !∀ y, Decision (Q y)} l k :
  (∀ x y, R x y → P x ↔ Q y) → Forall2 R l k → Forall2 R (filter P l) (filter Q k).
Proof.
  intros HPQ. induction 1 as [|x y l k Hxy _ IH]; [constructor|]. rewrite !filter_cons.
  specialize (HPQ x y Hxy). do 2 case_decide; try tauto; by constructor.
Qed.

Lemma stream_stands h id :
  Forall2 (λ e a, ∃ pre post, h = pre ++ a :: post ∧ e = entry_of pre a ∧ StreamID (ap_rec a) = id)
    (stream_entries h id) (of_stream id h).
Proof.
  unfold stream_entries, of_stream. apply Forall2_fmap_l.
  assert (Hf : Forall2 (stands_for h) (filter (λ i, ri_streamID i = id) (placed h))
    (filter (λ a, StreamID (ap_rec a) = id) h)).
  { apply Forall2_filter; [|apply placed_stands]. intros x y (pre & post & _ & ->). done. }
  assert (Hid : Forall (λ a, StreamID (ap_rec a) = id) (filter (λ a, StreamID (ap_rec a) = id) h)).
  { apply Forall_forall. intros a Ha. by apply list_elem_of_filter in Ha as [? _]. }
  revert Hf Hid. generalize (filter (λ a, StreamID (ap_rec a) = id) h).
  generalize (filter (λ i, ri_streamID i = id) (placed h)). intros l k Hf.
  induction Hf as [|x y l k (pre & post & Hh & ->) _ IH]; intros Hid; constructor.
  - apply Forall_cons in Hid as [? _]. by exists pre, post.
  - apply Forall_cons in Hid as [_ ?]. by apply IH.
Qed.

Lemma stream_entries_seqs h id : ie_Seq <$> stream_entries h id = seqs h id.
Proof.
  pose proof (stream_stands h id) as Hf. unfold seqs.
  induction Hf as [|e a es l (pre & post & _ & -> & _) _ IH]; [done|]. simpl. by f_equal.
Qed.

(** ** Valid records *)

Section Safety.
Context `{ChecksumLib, IndexJSON}.

Record valid (a : appended) : Prop := {
  va_encoded : ∃ rec typ crc, encoded rec typ (ap_enc a) crc ∧ record_fits rec ∧
    ap_rec a = stamped rec crc typ;
  va_stream : StreamID (ap_rec a) ≠ EmptyString;
  va_seq : 0 < Seq (ap_rec a) < 2 ^ 64 - 1;
  va_len : Z.of_nat (length (ap_enc a)) < 2 ^ 32
}.

Lemma valid_length a : valid a → (41 ≤ length (ap_enc a))%nat.
Proof.
  intros [(rec & typ & crc & He & _ & Hr) Hs _ _]. rewrite (encoded_length _ _ _ _ He), length_record_body.
  rewrite Hr in Hs. simpl in Hs. assert (str_len (StreamID rec) ≠ 0%nat) by (by intros ?%str_len_0).
  unfold headerSize. lia.
Qed.

Lemma valid_read a pre post src :
  valid a → reads src (pre ++ ap_enc a ++ post) →
  readRecordAtIO src (length pre) = Ok (ap_rec a, (length pre + length (ap_enc a))%nat).
Proof.
  intros [(rec & typ & crc & He & Hf & ->) _ _ _] Hsrc. by apply (read_encoded rec _ _ crc pre post).
Qed.

Definition raw_rec (r : record) : RawRecord :=
  {| raw_StreamID := StreamID r; raw_Seq := Seq r; raw_EventType := EventType r;
     raw_IdempotencyKey := IdempotencyKey r; raw_Payload := Payload r;
     raw_TimestampMs := TimestampMs r; raw_CRC32 := CRC32 r |}.

Lemma valid_read_raw a pre post src :
  valid a → reads src (pre ++ ap_enc a ++ post) →
  readRawRecordAtWithScratch src (length pre)
  = Ok (raw_rec (ap_rec a), ChecksumTyp (ap_rec a), (length pre + length (ap_enc a))%nat).
Proof.
  intros [(rec & typ & crc & He & Hf & ->) _ _ _] Hsrc. by apply (read_raw_encoded rec _ _ crc pre post).
Qed.

(** Bytes at which no record is read: nothing, or a torn record. *)
Definition torn (t : bytes) : Prop :=
  t = [] ∨ ∃ a k, valid a ∧ (k < length (ap_enc a))%nat ∧ t = take k (ap_enc a).

Lemma torn_read pre t :
  torn t → readRecordAtIO (readAtSegmentReader (pre ++ t)) (length pre) = Err ErrEOF ∨
           readRecordAtIO (readAtSegmentReader (pre ++ t)) (length pre) = Err ErrCorruptRecord.
Proof.
  intros [->|(a & k & [(rec & typ & crc & He & Hf & _) _ _ _] & Hk & ->)].
  - rewrite app_nil_r. unfold readRecordAtIO.
    destruct (readRaw_short (readAtSegmentReader pre) pre (length pre)) as [->|(? & _ & ->)];
      [by left|unfold legacyHeaderSize; lia|by left|by right].
  - apply (read_torn rec typ (ap_enc a) crc pre k); [done|done|done|by left].
Qed.

(** ** The invariant *)

(** One past the last sequence number. *)
Definition last_next (es : list streamIndexEntry) : Z :=
  match last es with Some e => ie_Seq e + 1 | None => 0 end.

Lemma last_next_snoc es e : last_next (es ++ [e]) = ie_Seq e + 1.
Proof. unfold last_next. by rewrite last_snoc. Qed.

Definition stream_ok (h : list appended) (id : string) (st : option streamState) : Prop :=
  match st with
  | None => stream_entries h id = []
  | Some st => ss_entries st = stream_entries h id ∧
      (0 <= ss_trimBefore st ∧ ss_nextSeq st = Z.max (ss_trimBefore st) (last_next (ss_entries st))) ∧
      ss_nextSeq st < 2 ^ 64 ∧ Forall (λ e, ie_Seq e < ss_nextSeq st) (ss_entries st)
  end.

Definition idem_ok (h : list appended) (idem : gmap string record) : Prop :=
  ∀ k r, idem !! k = Some r ↔
    ∃ a, a ∈ h ∧ IdempotencyKey (ap_rec a) ≠ EmptyString ∧ rec_key (ap_rec a) = k ∧ r = idempotencyRecord (ap_rec a).

(** The log files hold the log, each followed by [tail]. *)
Definition logs_hold (d : Disk) (h : list appended) (active : Z) (tail : Z → bytes) : Prop :=
  ∀ id, match dk_log d !! id with
        | Some f => 1 <= id <= active ∧ f_data f = seg_bytes h id ++ tail id ∧
            (f_synced f ≤ length (f_data f))%nat
        | None => in_seg id h = [] ∧ id ≠ active
        end.

Definition trims_kept (streams : gmap string streamState) (ret : option (gmap string Z)) : Prop :=
  ∀ id, default 0 (ret ≫= λ m, m !! id) = default 0 (ss_trimBefore <$> streams !! id).

(** The trim marks on disk name streams. *)
Definition ret_ok (ret : option (gmap string Z)) : Prop :=
  ∀ m id t, ret = Some m → m !! id = Some t → id ≠ EmptyString ∧ 0 <= t < 2 ^ 64.

(** The keys of the records that have one. *)
Definition keyed (h : list appended) : list string :=
  (rec_key ∘ ap_rec) <$> filter (λ a, IdempotencyKey (ap_rec a) ≠ EmptyString) h.

(** The shape of the abstract log, in the order of the appends; a compaction may have
    moved records to later segments. *)
Record history_ok (h : list appended) (active : Z) : Prop := {
  ho_valid : Forall valid h;
  ho_range : Forall (λ a, 1 <= ap_seg a <= active) h;
  ho_active : 1 <= active < 2 ^ 64;
  ho_seqs : ∀ id, StronglySorted Z.lt (seqs h id);
  ho_keys : NoDup (keyed h);
  ho_size : ∀ id, Z.of_nat (length (seg_bytes h id)) < 2 ^ 37
}.

Definition no_tail : Z → bytes := λ _, [].

(** Nothing is left to do of the compaction whose manifest is on the disk. *)
Definition settled (d : Disk) (active : Z) : Prop :=
  ∀ m, dk_manifest d = Some m →
    (∀ id, id ∈ cm_DeletedSegments m → id < active ∧ dk_log d !! id = None ∧ dk_index d !! id = None) ∧
    (∀ c, c ∈ cm_CopiedSegments m →
       (mc_OldSegmentID c < active ∧ dk_log d !! mc_OldSegmentID c = None ∧ dk_index d !! mc_OldSegmentID c = None) ∧
       mc_NewSegmentID c <= active ∧ is_Some (dk_log d !! mc_NewSegmentID c) ∧ is_Some (dk_index d !! mc_NewSegmentID c)).

Record store_ok (s : Store) (d : Disk) (h : list appended) : Prop := {
  so_open : st_open s = true;
  so_history : history_ok h (st_activeSegmentID s);
  so_logs : logs_hold d h (st_activeSegmentID s) no_tail;
  so_bytes : st_activeSegmentBytes s = Z.of_nat (length (seg_bytes h (st_activeSegmentID s)));
  so_streams : ∀ id, stream_ok h id (st_streams s !! id);
  so_idem : idem_ok h (st_idempotency s);
  so_ret : trims_kept (st_streams s) (dk_retention d);
  so_ret_ok : ret_ok (dk_retention d);
  so_settled : settled d (st_activeSegmentID s)
}.

(** Sealed segments are synced, and the active one too under [FsyncAlways]. *)
Definition synced_before (d : Disk) (active : Z) : Prop :=
  ∀ id f, dk_log d !! id = Some f → id < active → f_synced f = length (f_data f).
Definition all_synced (d : Disk) : Prop :=
  ∀ id f, dk_log d !! id = Some f → f_synced f = length (f_data f).
(** The records of [h] that are in the active segment are synced. *)
Definition synced_log (d : Disk) (h : list appended) (active : Z) : Prop :=
  ∀ f, dk_log d !! active = Some f → (length (seg_bytes h active) ≤ f_synced f)%nat.
(** What is not synced are the last appends, all in the active segment. *)
Definition durable (d : Disk) (h : list appended) (active : Z) : Prop :=
  ∃ h1 h2, h = h1 ++ h2 ∧ Forall (λ a, ap_seg a = active) h2 ∧ synced_log d h1 active.

(** What keeps a manifest settled: no file comes back below the active segment, none goes. *)
Record keeps_files (active : Z) (d d' : Disk) : Prop := {
  kf_manifest : dk_manifest d' = dk_manifest d;
  kf_retention : dk_retention d' = dk_retention d;
  kf_log : ∀ id, is_Some (dk_log d !! id) → is_Some (dk_log d' !! id);
  kf_index : ∀ id, is_Some (dk_index d !! id) → is_Some (dk_index d' !! id);
  kf_log_none : ∀ id, id < active → dk_log d !! id = None → dk_log d' !! id = None;
  kf_index_none : ∀ id, id < active → dk_index d !! id = None → dk_index d' !! id = None
}.
Lemma settled_keeps active active' d d' : keeps_files active d d' → active <= active' → settled d active → settled d' active'.
Proof.
  intros [Em _ Hl Hi Hln Hin] Hle Hs m Hm. rewrite Em in Hm. destruct (Hs m Hm) as [Hd Hc]. split.
  - intros id Hid. destruct (Hd id Hid) as (? & ? & ?). split_and!; [lia|auto|auto].
  - intros c Hcc. destruct (Hc c Hcc) as ((? & ? & ?) & ? & ? & ?). split_and!; [lia|auto|auto|lia|auto|auto].
Qed.
#[export] Instance keeps_files_refl active : Reflexive (keeps_files active).
Proof. by intros d; split. Qed.
#[export] Instance keeps_files_trans active : Transitive (keeps_files active).
Proof. intros d1 d2 d3 [] []. split; [congruence..|eauto|eauto|eauto|eauto]. Qed.
Lemma keeps_insert {A} (m : gmap Z A) active id x :
  (id < active → is_Some (m !! id)) → (∀ k, is_Some (m !! k) → is_Some (<[id := x]> m !! k)) ∧
  (∀ k, k < active → m !! k = None → <[id := x]> m !! k = None).
Proof.
  intros Hid. split; intros k.
  - destruct (decide (k = id)) as [->|]; [rewrite lookup_insert_eq; by eexists|by rewrite lookup_insert_ne].
  - intros Hlt Hn. rewrite lookup_insert_ne; [done|]. intros ->. destruct (Hid Hlt) as [y Hy]. congruence.
Qed.
Lemma keeps_log active d id f : (id < active → is_Some (dk_log d !! id)) → keeps_files active d (with_log d id f).
Proof. intros Hid. destruct (keeps_insert (dk_log d) active id f Hid). by split. Qed.
Lemma keeps_index active d id b : (id < active → is_Some (dk_index d !! id)) → keeps_files active d (with_index d id b).
Proof. intros Hid. destruct (keeps_insert (dk_index d) active id b Hid). by split. Qed.

(** What an operation does to the synced bytes: sealed segments stay synced, and those of
    the active one stay or the next one is begun. *)
Record seals (d : Disk) (active : Z) (d' : Disk) (active' : Z) : Prop := {
  se_sync : synced_before d active → synced_before d' active';
  se_active : active < active' ∨ active = active' ∧
    ∀ f, dk_log d !! active = Some f → ∃ f', dk_log d' !! active = Some f' ∧ (f_synced f ≤ f_synced f')%nat;
  se_files : keeps_files active d d'
}.
Lemma seals_refl d active : seals d active d active.
Proof. split; [done| |done]. right. split; [done|]. intros f Hf. by exists f. Qed.
Lemma seals_trans d1 a1 d2 a2 d3 a3 : seals d1 a1 d2 a2 → seals d2 a2 d3 a3 → seals d1 a1 d3 a3.
Proof.
  intros [S1 A1 F1] [S2 A2 F2]. split; [auto| |].
  - destruct A1 as [?|[<- A1]], A2 as [?|[<- A2]]; [left; lia..|]. right. split; [done|].
    intros f (f2 & Hf2 & ?)%A1. destruct (A2 f2 Hf2) as (f3 & ? & ?). exists f3. split; [done|lia].
  - etrans; [exact F1|]. assert (a1 <= a2) as Hle by (destruct A1 as [|[<- _]]; lia). destruct F2 as [Em Er Hl Hi Hln Hin].
    split; [done..| |]; intros id Hid; [apply Hln|apply Hin]; lia.
Qed.
Lemma settled_seals d active d' active' : seals d active d' active' → settled d active → settled d' active'.
Proof. intros [_ Ha Hf]. apply settled_keeps; [done|]. destruct Ha as [|[<- _]]; lia. Qed.
Lemma seals_retention d active d' active' : seals d active d' active' → dk_retention d' = dk_retention d.
Proof. intros [_ _ Hf]. by destruct Hf. Qed.
Lemma seals_synced d active d' active' : seals d active d' active' → synced_before d active → synced_before d' active'.
Proof. intros []. done. Qed.

Lemma synced_log_seals d active d' active' hs :
  seals d active d' active' → is_Some (dk_log d !! active) → (active < active' → in_seg active' hs = []) →
  synced_log d hs active → synced_log d' hs active'.
Proof.
  intros [_ [Hlt|[<- Hf]] _] [f Hs] Hn Hsy g Hg; [unfold seg_bytes; rewrite (Hn Hlt); cbn; lia|].
  destruct (Hf f Hs) as (g' & Hg' & Hle). specialize (Hsy f Hs). assert (g = g') by congruence. subst. lia.
Qed.
Lemma durable_seals d active d' active' h more :
  seals d active d' active' → is_Some (dk_log d !! active) → (active < active' → in_seg active' h = []) →
  Forall (λ a, ap_seg a = active') more → durable d h active → durable d' (h ++ more) active'.
Proof.
  intros [_ [Hlt|[<- Hf]] _] [f Hs] Hn Hmore (h1 & h2 & -> & H2 & Hsy).
  - eexists _, more. split_and!; [done|done|]. intros g _. unfold seg_bytes. rewrite (Hn Hlt). cbn. lia.
  - exists h1, (h2 ++ more). split_and!; [by rewrite app_assoc|by apply Forall_app|]. intros g Hg.
    destruct (Hf f Hs) as (g' & Hg' & Hle). specialize (Hsy f Hs). assert (g = g') by congruence. subst. lia.
Qed.

(** *** Facts about a valid history *)

Lemma seg_bytes_fresh h active id :
  history_ok h active → active < id → seg_bytes h id = [].
Proof.
  intros Hh Hid. unfold seg_bytes, in_seg. replace (filter _ h) with (@nil appended); [done|].
  symmetry. apply elem_of_nil_inv. intros a [Ha Hin]%list_elem_of_filter.
  pose proof (proj1 (Forall_forall _ _) (ho_range _ _ Hh) a Hin). simpl in *. lia.
Qed.

Lemma in_its_segment (h : list appended) a : a ∈ h → in_seg (ap_seg a) h ≠ [].
Proof.
  intros Ha Hn. assert (Hin : a ∈ in_seg (ap_seg a) h) by (by apply list_elem_of_filter). rewrite Hn in Hin. by apply elem_of_nil in Hin.
Qed.
Lemma in_history_bytes h a : a ∈ h → (length (ap_enc a) ≤ length (seg_bytes h (ap_seg a)))%nat.
Proof.
  intros Ha. apply list_elem_of_split in Ha as (h1 & h2 & ->). rewrite seg_bytes_app.
  change (a :: h2) with ([a] ++ h2). rewrite seg_bytes_app, seg_bytes_one, decide_True by done.
  rewrite !length_app. lia.
Qed.

Lemma split_bytes h1 a h2 :
  seg_bytes (h1 ++ a :: h2) (ap_seg a) = seg_bytes h1 (ap_seg a) ++ ap_enc a ++ seg_bytes h2 (ap_seg a).
Proof.
  rewrite seg_bytes_app. change (a :: h2) with ([a] ++ h2).
  by rewrite seg_bytes_app, seg_bytes_one, decide_True.
Qed.

Lemma entry_bounds h active h1 a h2 :
  history_ok h active → h = h1 ++ a :: h2 →
  0 <= ie_Offset (entry_of h1 a) < 2 ^ 37 ∧ 0 < ie_Length (entry_of h1 a) < 2 ^ 32 ∧
  0 < ie_Seq (entry_of h1 a).
Proof.
  intros Hh Hsplit. assert (Hv : valid a).
  { eapply Forall_forall; [apply (ho_valid _ _ Hh)|]. rewrite Hsplit. apply elem_of_app. right. left. }
  pose proof (valid_length a Hv). pose proof (va_len a Hv). pose proof (va_seq a Hv).
  pose proof (ho_size _ _ Hh (ap_seg a)) as Hsz. rewrite Hsplit, split_bytes, !length_app in Hsz.
  simpl. lia.
Qed.

(** *** The index of a segment can be written *)

Lemma elem_of_index_entries s id item :
  item ∈ segmentIndexEntriesLocked s id ↔
  ∃ st, st_streams s !! ri_streamID item = Some st ∧ ri_entry item ∈ ss_entries st ∧
    ie_SegmentID (ri_entry item) = id.
Proof.
  unfold segmentIndexEntriesLocked. rewrite list_elem_of_In, in_concat. split.
  - intros (l & Hl & Hin). apply in_map_iff in Hl as ([sid st] & <- & Hst).
    apply in_map_iff in Hin as (e & <- & He). apply list_elem_of_In, list_elem_of_filter in He as [Hseg He].
    apply list_elem_of_In, elem_of_map_to_list in Hst. simpl. by exists st.
  - intros (st & Hst & He & Hseg). destruct item as [sid e]. simpl in *.
    exists (map (λ e, {| ri_streamID := sid; ri_entry := e |}) (filter (λ e, ie_SegmentID e = id) (ss_entries st))).
    split.
    + apply in_map_iff. exists (sid, st). split; [done|]. by apply list_elem_of_In, elem_of_map_to_list.
    + apply in_map_iff. exists e. split; [done|]. apply list_elem_of_In, list_elem_of_filter. done.
Qed.

Lemma stream_entry_in h id e :
  e ∈ stream_entries h id ↔ ∃ pre a post, h = pre ++ a :: post ∧ e = entry_of pre a ∧ StreamID (ap_rec a) = id.
Proof.
  pose proof (stream_stands h id) as Hf. split.
  - intros He. apply list_elem_of_lookup in He as [i Hi].
    apply (Forall2_lookup_l _ _ _ _ _ Hf) in Hi as (a & _ & pre & post & ? & ? & ?). by exists pre, a, post.
  - intros (pre & a & post & -> & -> & Hid). unfold stream_entries, placed.
    apply list_elem_of_fmap. exists (item_of pre a). split; [done|]. apply list_elem_of_filter.
    split; [done|]. rewrite place_app. apply elem_of_app. right. left.
Qed.

Lemma check_entries_true id items :
  (∀ item, item ∈ items → ri_streamID item ≠ EmptyString ∧ Z.of_nat (str_len (ri_streamID item)) <= 0xffff ∧
     ie_SegmentID (ri_entry item) = id ∧ ie_Seq (ri_entry item) ≠ 0 ∧ ie_Length (ri_entry item) ≠ 0) →
  check_entries id items = Ok tt.
Proof.
  induction items as [|item items IH]; intros Hall; simpl; [done|].
  destruct (Hall item) as (H1 & H2 & H3 & H4 & H5); [left|].
  apply str_empty_false in H1. rewrite H1. replace (0xffff <? _) with false by lia.
  replace (negb (_ =? id) || _ || _) with false by (symmetry; rewrite !orb_false_iff; lia).
  apply IH. intros x Hx. apply Hall. by right.
Qed.

Lemma valid_in h active a : history_ok h active → a ∈ h → valid a.
Proof. intros Hh. apply (Forall_forall valid), (ho_valid _ _ Hh). Qed.

Lemma valid_stream_len a : valid a → Z.of_nat (str_len (StreamID (ap_rec a))) <= 0xffff.
Proof. intros [(rec & typ & crc & He & _ & ->) _ _ _]. simpl. apply He. Qed.

Lemma in_seg_count h active id :
  history_ok h active → (41 * length (in_seg id h) ≤ length (seg_bytes h id))%nat.
Proof.
  intros Hh. unfold seg_bytes. assert (Hv : Forall valid (in_seg id h)).
  { apply Forall_forall. intros a [_ Ha]%list_elem_of_filter. by apply (valid_in h active). }
  induction Hv as [|a l Ha _ IH]; [simpl; lia|]. cbn [map concat length]. rewrite length_app.
  pose proof (valid_length a Ha). lia.
Qed.

(** Index entries that name records of the segment can be written. *)
Lemma write_index_ok h active id items :
  history_ok h active →
  (∀ item, item ∈ items → ∃ pre a post, h = pre ++ a :: post ∧ item = item_of pre a ∧ ap_seg a = id) →
  ∃ b, writeSegmentIndex id items = Ok b.
Proof.
  intros Hh Hitems. unfold writeSegmentIndex. cbv zeta. rewrite check_entries_true.
  2: { intros item Hin. unfold sort_by_offset in Hin. rewrite merge_sort_Permutation in Hin.
       destruct (Hitems item Hin) as (pre & a & post & Hsplit & -> & Hseg).
       assert (Ha : a ∈ h) by (rewrite Hsplit; apply elem_of_app; right; left).
       pose proof (valid_in _ _ _ Hh Ha) as Hv. destruct (entry_bounds _ _ _ _ _ Hh Hsplit) as (_ & Hl & Hs).
       split_and!; [apply (va_stream a Hv)|by apply valid_stream_len|done|simpl in *; lia|simpl in *; lia]. }
  cbn [mbind result_bind]. destruct (stream_ids_spec (sort_by_offset items)) as [Hnd Hin].
  assert (Hsub : stream_ids (sort_by_offset items) ⊆ (StreamID ∘ ap_rec) <$> in_seg id h).
  { intros x Hx. apply Hin in Hx as (item & Hx & <-). unfold sort_by_offset in Hx.
    rewrite merge_sort_Permutation in Hx. destruct (Hitems item Hx) as (pre & a & post & Hsplit & -> & Hseg).
    apply list_elem_of_fmap. exists a. split; [done|]. apply list_elem_of_filter. split; [done|].
    rewrite Hsplit. apply elem_of_app. right. left. }
  apply NoDup_submseteq in Hsub as Hle; [|done]. apply submseteq_length in Hle. rewrite length_fmap in Hle.
  pose proof (in_seg_count _ _ id Hh). pose proof (ho_size _ _ Hh id).
  replace (2 ^ 32 - 1 <? _) with false by lia. eauto.
Qed.

Lemma index_entries_items h s id item :
  (∀ sid, stream_ok h sid (st_streams s !! sid)) → item ∈ segmentIndexEntriesLocked s id →
  ∃ pre a post, h = pre ++ a :: post ∧ item = item_of pre a ∧ ap_seg a = id.
Proof.
  intros Hs (st & Hst & He & Hseg)%elem_of_index_entries. specialize (Hs (ri_streamID item)).
  rewrite Hst in Hs. destruct Hs as (Hent & _). rewrite Hent in He.
  apply stream_entry_in in He as (pre & a & post & Hsplit & Heq & Hid). exists pre, a, post.
  split; [done|]. split; [|rewrite <- Hseg, Heq; done]. destruct item as [sid e]. simpl in *. by subst.
Qed.

(** ** Rolling the active segment *)

Lemma log_file_some d id f : dk_log d !! id = Some f → log_file d id = f.
Proof. unfold log_file. by intros ->. Qed.

Lemma active_log s d h : store_ok s d h →
  ∃ f, dk_log d !! st_activeSegmentID s = Some f ∧ f_data f = seg_bytes h (st_activeSegmentID s) ∧
    (f_synced f ≤ length (f_data f))%nat.
Proof.
  intros Hs. pose proof (so_logs _ _ _ Hs (st_activeSegmentID s)) as Hl.
  destruct (dk_log d !! st_activeSegmentID s) as [f|].
  - destruct Hl as (_ & Hd & Hsy). exists f. unfold no_tail in Hd. by rewrite app_nil_r in Hd.
  - by destruct Hl.
Qed.

Lemma history_more h active active' :
  history_ok h active → active <= active' < 2 ^ 64 → history_ok h active'.
Proof.
  intros [Hv Hr Ha Hq Hk Hz] Hle. split; try done; [|lia].
  eapply Forall_impl; [exact Hr|]. simpl. intros a. lia.
Qed.

Definition same_store (s s' : Store) : Prop :=
  st_options s' = st_options s ∧ st_streams s' = st_streams s ∧ st_idempotency s' = st_idempotency s.

Lemma roll_ok s d h :
  store_ok s d h → st_activeSegmentID s + 1 < 2 ^ 64 →
  let '(s', d', err) := rollSegmentLocked s d in
  err = None ∧ store_ok s' d' h ∧ same_store s s' ∧
  st_activeSegmentID s' = st_activeSegmentID s + 1 ∧
  seals d (st_activeSegmentID s) d' (st_activeSegmentID s') ∧
  (all_synced d → all_synced d').
Proof.
  intros Hs Ha. pose proof (so_history _ _ _ Hs) as Hh. pose proof (ho_active _ _ Hh) as Hact.
  destruct (active_log s d h Hs) as (f & Hf & Hfd & Hfs).
  unfold rollSegmentLocked, closeActiveFilesLocked, flushActiveIndexLocked. rewrite (so_open _ _ _ Hs).
  replace (st_activeSegmentID s =? 0) with false by lia. cbn [negb orb].
  destruct (write_index_ok h _ (st_activeSegmentID s)
    (segmentIndexEntriesLocked s (st_activeSegmentID s)) Hh) as [b ->].
  { intros item. apply index_entries_items, (so_streams _ _ _ Hs). }
  unfold syncFilesLocked. rewrite (so_open _ _ _ Hs). unfold openActiveFilesLocked. simpl.
  assert (Hu : u64 (st_activeSegmentID s + 1) = st_activeSegmentID s + 1).
  { apply u64_id. unfold in_u64. lia. }
  rewrite Hu. replace (st_activeSegmentID s + 1 =? 0) with false by lia.
  assert (Hnone : dk_log d !! (st_activeSegmentID s + 1) = None).
  { pose proof (so_logs _ _ _ Hs (st_activeSegmentID s + 1)) as Hl.
    destruct (dk_log d !! (st_activeSegmentID s + 1)); [|done]. destruct Hl as ((_ & ?) & _). lia. }
  unfold log_file. simpl. rewrite Hf, lookup_insert_ne, Hnone by lia. simpl.
  assert (Hlog : ∀ id, <[st_activeSegmentID s + 1 := empty_file]>
      (<[st_activeSegmentID s := {| f_data := f_data f; f_synced := length (f_data f) |}]> (dk_log d)) !! id =
    if decide (id = st_activeSegmentID s + 1) then Some empty_file
    else if decide (id = st_activeSegmentID s) then Some {| f_data := f_data f; f_synced := length (f_data f) |}
    else dk_log d !! id).
  { intros id. case_decide; [subst; apply lookup_insert_eq|]. rewrite lookup_insert_ne by done.
    case_decide; [subst; apply lookup_insert_eq|by rewrite lookup_insert_ne]. }
  match goal with |- context [all_synced d → all_synced ?d2] => assert (Hfiles : keeps_files (st_activeSegmentID s) d d2) end.
  { repeat (first [reflexivity|etrans; [|first [apply keeps_index|apply keeps_log]; simpl; lia]]). }
  split_and!; [done| |done|done| |].
  - split; simpl; try done.
    + by apply (history_more _ _ _ Hh); lia.
    + intros id. simpl. rewrite Hlog. case_decide as Hi; [subst id|].
      { rewrite (seg_bytes_fresh _ _ _ Hh) by lia. simpl. split_and!; [lia|lia|done|lia]. }
      pose proof (so_logs _ _ _ Hs id) as Hl. case_decide as Hj.
      { subst id. simpl. unfold no_tail. rewrite app_nil_r. split_and!; [lia|lia|done|lia]. }
      destruct (dk_log d !! id) as [g|]; [|by destruct Hl]. destruct Hl as (? & ? & ?). split_and!; [lia|lia|done|done].
    + by rewrite (seg_bytes_fresh _ _ _ Hh) by lia.
    + apply (so_streams _ _ _ Hs).
    + apply (so_idem _ _ _ Hs).
    + apply (so_ret _ _ _ Hs).
    + apply (so_ret_ok _ _ _ Hs).
    + apply (settled_keeps (st_activeSegmentID s) _ d); [done|simpl; lia|apply (so_settled _ _ _ Hs)].
  - split; [|left; simpl; lia|done]. intros Hsy id g. simpl. rewrite Hlog. case_decide as Hi; [lia|]. case_decide as Hj.
    + intros [= <-] _. done.
    + intros Hg Hlt. apply (Hsy id g Hg). lia.
  - intros Hsy id g. simpl. rewrite Hlog. case_decide as Hi; [by intros [= <-]|]. case_decide as Hj.
    + by intros [= <-].
    + apply Hsy.
Qed.

(** ** Appending *)

Lemma sorted_snoc (R : Z → Z → Prop) l x :
  StronglySorted R l → (∀ y, y ∈ l → R y x) → StronglySorted R (l ++ [x]).
Proof.
  intros Hl Hx. apply StronglySorted_app. split_and!; [|done|repeat constructor].
  intros y z Hy ->%list_elem_of_singleton. by apply Hx.
Qed.

Lemma history_snoc h active a :
  history_ok h active → valid a → ap_seg a = active →
  (∀ x, x ∈ seqs h (StreamID (ap_rec a)) → x < Seq (ap_rec a)) →
  (IdempotencyKey (ap_rec a) ≠ EmptyString →
   ∀ b, b ∈ h → IdempotencyKey (ap_rec b) ≠ EmptyString → rec_key (ap_rec b) ≠ rec_key (ap_rec a)) →
  Z.of_nat (length (seg_bytes h active)) + Z.of_nat (length (ap_enc a)) < 2 ^ 37 →
  history_ok (h ++ [a]) active.
Proof.
  intros Hh Hv Hseg Hseq Hkey Hlen. pose proof Hh as [Hva Hr Ha Hq Hk Hz]. split.
  - apply Forall_app. split; [done|]. by apply Forall_singleton.
  - apply Forall_app. split; [done|]. apply Forall_singleton. lia.
  - done.
  - intros id. rewrite seqs_snoc. case_decide; [subst id|done]. by apply sorted_snoc.
  - unfold keyed. rewrite filter_app, fmap_app, filter_cons, filter_nil. case_decide as He; [|by rewrite app_nil_r].
    apply NoDup_app. split_and!; [done| |apply NoDup_singleton].
    intros k (b & -> & [Hb1 Hb2]%list_elem_of_filter)%list_elem_of_fmap Heq%list_elem_of_singleton. by apply (Hkey He b).
  - intros id. rewrite seg_bytes_app, seg_bytes_one, length_app. case_decide as Hd; [|simpl; specialize (Hz id); lia].
    rewrite <- Hd, Hseg. lia.
Qed.

Lemma stream_seqs_lt h s id x :
  stream_ok h id (st_streams s !! id) → x ∈ seqs h id → x < ss_nextSeq (stream_of s id).
Proof.
  intros Hs Hx. rewrite <- stream_entries_seqs in Hx. apply list_elem_of_fmap in Hx as (e & -> & He).
  unfold stream_of. unfold stream_ok in Hs. destruct (st_streams s !! id) as [st|]; simpl.
  - destruct Hs as (Hent & _ & _ & Hf). rewrite <- Hent in He. by apply (proj1 (Forall_forall _ _) Hf e).
  - rewrite Hs in He. by apply elem_of_nil in He.
Qed.

Lemma stream_of_ok h s id :
  stream_ok h id (st_streams s !! id) →
  ss_entries (stream_of s id) = stream_entries h id ∧
  (0 <= ss_trimBefore (stream_of s id) ∧
   ss_nextSeq (stream_of s id) = Z.max (ss_trimBefore (stream_of s id)) (last_next (ss_entries (stream_of s id)))) ∧
  ss_nextSeq (stream_of s id) < 2 ^ 64 ∧
  Forall (λ e, ie_Seq e < ss_nextSeq (stream_of s id)) (ss_entries (stream_of s id)).
Proof.
  unfold stream_of, stream_ok. destruct (st_streams s !! id) as [st|]; simpl; [done|].
  intros ->. split_and!; [done|done|done|done|constructor].
Qed.

(** Creating the bucket of a stream changes nothing. *)
Lemma touch_ok s d h id : store_ok s d h → store_ok (streamStateLocked s id) d h.
Proof.
  intros [Ho Hh Hl Hb Hst Hi Hr Hrk Hse]. split; try done; simpl.
  - intros sid. destruct (decide (sid = id)) as [->|Hne]; [|by rewrite lookup_insert_ne].
    rewrite lookup_insert_eq. by apply stream_of_ok.
  - intros sid. rewrite (Hr sid). destruct (decide (sid = id)) as [->|Hne]; [|by rewrite lookup_insert_ne].
    rewrite lookup_insert_eq. unfold stream_of. by destruct (st_streams s !! id).
Qed.

Lemma idem_snoc h a idem :
  idem_ok h idem →
  (IdempotencyKey (ap_rec a) ≠ EmptyString → idem !! rec_key (ap_rec a) = None) →
  idem_ok (h ++ [a]) (add_idempotency idem (ap_rec a)).
Proof.
  intros Hi Hnew k r. unfold add_idempotency. destruct (str_empty (IdempotencyKey (ap_rec a))) eqn:He.
  - apply str_empty_true in He. rewrite (Hi k r). split; intros (b & Hb & Hk & Hrest).
    + exists b. split; [apply elem_of_app; by left|done].
    + apply elem_of_app in Hb as [Hb| ->%list_elem_of_singleton]; [by exists b|done].
  - apply str_empty_false in He. specialize (Hnew He). fold (rec_key (ap_rec a)). rewrite lookup_insert_Some. split.
    + intros [[<- <-]|[Hne Hl]].
      * exists a. split_and!; [apply elem_of_app; right; by left|done|done|done].
      * apply Hi in Hl as (b & Hb & ?). exists b. split; [apply elem_of_app; by left|done].
    + intros (b & Hb & Hk & <- & ->). apply elem_of_app in Hb as [Hb| ->%list_elem_of_singleton]; [|by left].
      right. assert (Hl : idem !! rec_key (ap_rec b) = Some (idempotencyRecord (ap_rec b))).
      { apply Hi. by exists b. }
      split; [|done]. intros Heq. congruence.
Qed.

(** The disk after the record is written, before and after the sync. *)
Lemma write_holds s d h a :
  store_ok s d h → ap_seg a = st_activeSegmentID s →
  logs_hold (write_log s d (ap_enc a)) (h ++ [a]) (st_activeSegmentID s) no_tail.
Proof.
  intros Hs Hseg id. destruct (active_log s d h Hs) as (f & Hf & Hfd & Hfs). unfold write_log.
  rewrite (log_file_some _ _ _ Hf). simpl. pose proof (so_logs _ _ _ Hs id) as Hl.
  destruct (decide (id = st_activeSegmentID s)) as [->|Hne].
  - rewrite lookup_insert_eq. simpl. rewrite Hf in Hl. destruct Hl as (? & _ & _).
    rewrite seg_bytes_app, seg_bytes_one, decide_True by done. unfold no_tail. rewrite app_nil_r, Hfd, length_app.
    rewrite Hfd in Hfs. split_and!; [lia|lia|done|lia].
  - rewrite lookup_insert_ne by done. destruct (dk_log d !! id) as [g|].
    2: { destruct Hl as [Hin ?]. split; [|done]. unfold in_seg in *. rewrite filter_app, Hin, filter_cons, decide_False by congruence. done. }
    destruct Hl as (? & Hd & ?). split_and!; [lia|lia| |done].
    unfold no_tail in *. rewrite Hd, seg_bytes_app, seg_bytes_one, decide_False by congruence.
    by rewrite !app_nil_r.
Qed.

Lemma write_seals s d b : seals d (st_activeSegmentID s) (write_log s d b) (st_activeSegmentID s).
Proof.
  unfold write_log. split; [|right; split; [done|]|apply keeps_log; lia].
  - intros Hsy id f. simpl. intros [[<- <-]|[_ Hg]]%lookup_insert_Some Hlt; [lia|by apply (Hsy id f)].
  - intros f Hf. simpl. rewrite lookup_insert_eq, (log_file_some _ _ _ Hf). by eexists.
Qed.

Lemma sync_holds s d h active tail :
  logs_hold d h active tail → dk_log d !! st_activeSegmentID s ≠ None →
  logs_hold (syncFilesLocked s d) h active tail ∧ dk_retention (syncFilesLocked s d) = dk_retention d ∧
  seals d active (syncFilesLocked s d) active ∧
  (st_open s = true → st_activeSegmentID s = active → synced_before d active →
   logs_hold d h active tail → all_synced (syncFilesLocked s d)).
Proof.
  intros Hl Hsome. unfold syncFilesLocked. destruct (st_open s); [|split_and!; try done; apply seals_refl].
  destruct (dk_log d !! st_activeSegmentID s) as [f|] eqn:Hf; [|done].
  rewrite (log_file_some _ _ _ Hf). split_and!; [|done| |].
  - intros id. simpl. destruct (decide (id = st_activeSegmentID s)) as [->|Hne].
    + rewrite lookup_insert_eq. specialize (Hl (st_activeSegmentID s)). rewrite Hf in Hl.
      destruct Hl as (? & ? & ?). simpl. split_and!; [lia|lia|done|lia].
    + rewrite lookup_insert_ne by done. apply Hl.
  - split; [|right; split; [done|]|by apply keeps_log].
    + intros Hsy id g. simpl. intros [[<- <-]|[_ Hg]]%lookup_insert_Some Hlt; [done|by apply (Hsy id g)].
    + intros g Hg. simpl. destruct (decide (st_activeSegmentID s = active)) as [He|Hne].
      * rewrite <- He in Hg |- *. rewrite lookup_insert_eq. eexists. split; [done|]. simpl.
        specialize (Hl (st_activeSegmentID s)). rewrite Hg in Hl, Hf. injection Hf as ->. by destruct Hl as (_ & _ & ?).
      * rewrite lookup_insert_ne by done. by exists g.
  - intros _ Hact Hsy _ id g. simpl. intros [[<- <-]|[Hne Hg]]%lookup_insert_Some; [done|].
    apply (Hsy id g Hg). specialize (Hl id). rewrite Hg in Hl. destruct Hl as ((_ & ?) & _). lia.
Qed.

Lemma ensure_ok s d h len :
  store_ok s d h → st_activeSegmentID s + 1 < 2 ^ 64 →
  ∃ s1 d1, ensureWritableSegmentLocked s d len = (s1, d1, None) ∧ store_ok s1 d1 h ∧ same_store s s1 ∧
    st_activeSegmentBytes s1 <= st_activeSegmentBytes s ∧
    seals d (st_activeSegmentID s) d1 (st_activeSegmentID s1) ∧
    (all_synced d → all_synced d1).
Proof.
  intros Hs Ha. unfold ensureWritableSegmentLocked. rewrite (so_open _ _ _ Hs). cbn [negb].
  destruct ((0 <? st_activeSegmentBytes s) && _) eqn:Hroll.
  - apply andb_true_iff in Hroll as [Hpos%Z.ltb_lt _]. pose proof (roll_ok s d h Hs Ha) as Hr.
    destruct (rollSegmentLocked s d) as [[s1 d1] err]. destruct Hr as (-> & Hs1 & Hsame & Hact & H1 & H2).
    exists s1, d1. split_and!; try done; try apply Hsame.
    rewrite (so_bytes _ _ _ Hs1), Hact.
    rewrite (seg_bytes_fresh h (st_activeSegmentID s)); [simpl; lia|apply (so_history _ _ _ Hs)|lia].
  - exists s, d. split_and!; try done. apply seals_refl.
Qed.

(** The record [Append] writes. *)
Definition new_record (s : Store) (req : AppendRequest) (now : Z) : record :=
  {| StreamID := ar_StreamID req;
     Seq := if ss_nextSeq (stream_of s (ar_StreamID req)) =? 0 then 1 else ss_nextSeq (stream_of s (ar_StreamID req));
     EventType := ar_EventType req; IdempotencyKey := ar_IdempotencyKey req; Payload := ar_Payload req;
     TimestampMs := now; CRC32 := 0; ChecksumTyp := 0 |}.

Lemma new_seq_range s h id :
  stream_ok h id (st_streams s !! id) → ss_nextSeq (stream_of s id) + 1 < 2 ^ 64 →
  let seq := if ss_nextSeq (stream_of s id) =? 0 then 1 else ss_nextSeq (stream_of s id) in
  0 < seq < 2 ^ 64 - 1 ∧ ss_nextSeq (stream_of s id) <= seq ∧ ∀ x, x ∈ seqs h id → x < seq.
Proof.
  intros Hs Hr. destruct (stream_of_ok _ _ _ Hs) as (_ & Ht & _ & _). cbv zeta.
  destruct (_ =? 0) eqn:Hz; split_and!; try lia.
  - intros x Hx. pose proof (stream_seqs_lt _ _ _ _ Hs Hx). lia.
  - intros x Hx. by apply (stream_seqs_lt h).
Qed.

(** The history element of a new record. *)
Lemma new_valid s req now pooled typ encoded' crc seg :
  encodeRecordPooled pooled (new_record s req now) typ = Ok (encoded', crc) →
  ar_StreamID req ≠ EmptyString → in_i64 now → Z.of_nat (length encoded') <= 2 ^ 32 - 1 →
  0 < Seq (new_record s req now) < 2 ^ 64 - 1 → typ ≠ 0 →
  valid {| ap_seg := seg; ap_rec := stamped (new_record s req now) crc typ; ap_enc := encoded' |}.
Proof.
  intros He%encode_pooled_encoded Hsid Hnow Hlen Hseq Htyp.
  assert (Hd : default_typ typ = typ) by (unfold default_typ; replace (typ =? 0) with false by lia; done).
  rewrite Hd in He. pose proof (encoded_length _ _ _ _ He) as Hl. rewrite length_record_body in Hl.
  split; simpl; [|done|simpl in Hseq; lia|lia].
  exists (new_record s req now), typ, crc. split_and!; [done| |done]. split; simpl.
  - unfold in_u64. simpl in Hseq. lia.
  - done.
  - unfold headerSize in Hl. simpl in Hl. lia.
Qed.

(** The state after a successful append. *)
Lemma commit_ok s d h a d' :
  store_ok s d h → valid a → ap_seg a = st_activeSegmentID s →
  (let st := stream_of s (StreamID (ap_rec a)) in
   ss_nextSeq st <= Seq (ap_rec a) < 2 ^ 64 - 1 ∧ ∀ x, x ∈ seqs h (StreamID (ap_rec a)) → x < Seq (ap_rec a)) →
  (IdempotencyKey (ap_rec a) ≠ EmptyString → st_idempotency s !! rec_key (ap_rec a) = None) →
  st_activeSegmentBytes s + Z.of_nat (length (ap_enc a)) < 2 ^ 37 →
  logs_hold d' (h ++ [a]) (st_activeSegmentID s) no_tail → dk_retention d' = dk_retention d →
  settled d' (st_activeSegmentID s) →
  store_ok (append_entry (with_active s (st_open s) (st_activeSegmentID s)
      (i64 (st_activeSegmentBytes s + Z.of_nat (length (ap_enc a))))) (entry_of h a) (ap_rec a)) d' (h ++ [a]).
Proof.
  intros Hs Hv Hseg [Hseq Hlt] Hkey Hsize Hlogs Hret Hset. pose proof (so_bytes _ _ _ Hs) as Hb.
  assert (Hfields : ∀ P : Store → Prop,
    P (let s' := with_streams (with_active s (st_open s) (st_activeSegmentID s)
        (i64 (st_activeSegmentBytes s + Z.of_nat (length (ap_enc a)))))
        (<[StreamID (ap_rec a) := {| ss_nextSeq := u64 (Seq (ap_rec a) + 1);
           ss_trimBefore := ss_trimBefore (stream_of s (StreamID (ap_rec a)));
           ss_entries := ss_entries (stream_of s (StreamID (ap_rec a))) ++ [entry_of h a] |}]> (st_streams s)) in
       with_idempotency s' (add_idempotency (st_idempotency s) (ap_rec a))) →
    P (append_entry (with_active s (st_open s) (st_activeSegmentID s)
      (i64 (st_activeSegmentBytes s + Z.of_nat (length (ap_enc a))))) (entry_of h a) (ap_rec a))).
  { intros P HP. unfold append_entry. unfold add_idempotency in HP. by destruct (str_empty _). }
  apply Hfields. clear Hfields.
  assert (Hu : u64 (Seq (ap_rec a) + 1) = Seq (ap_rec a) + 1).
  { apply u64_id. unfold in_u64. pose proof (va_seq a Hv). lia. }
  destruct (stream_of_ok _ _ _ (so_streams _ _ _ Hs (StreamID (ap_rec a)))) as (Hent & Htrim & _ & Hf).
  split; simpl.
  - apply (so_open _ _ _ Hs).
  - apply history_snoc; try done; [apply (so_history _ _ _ Hs)| |].
    + intros Hk b Hbh Hkb Heq. specialize (Hkey Hk).
      assert (Hl : st_idempotency s !! rec_key (ap_rec b) = Some (idempotencyRecord (ap_rec b))).
      { apply (so_idem _ _ _ Hs). by exists b. }
      rewrite Heq in Hl. congruence.
    + lia.
  - done.
  - rewrite seg_bytes_app, seg_bytes_one, decide_True by done. rewrite length_app, Hb, i64_id; [lia|].
    unfold in_i64. lia.
  - intros id. destruct (decide (id = StreamID (ap_rec a))) as [->|Hne].
    + rewrite lookup_insert_eq, Hu. simpl. rewrite stream_entries_snoc, decide_True by done. rewrite Hent.
      rewrite last_next_snoc. cbn [ie_Seq entry_of]. split_and!; [done|lia|lia|lia|]. apply Forall_app. split.
      * rewrite Hent in Hf. eapply Forall_impl; [exact Hf|]. simpl. intros e. lia.
      * apply Forall_singleton. simpl. lia.
    + rewrite lookup_insert_ne by done. pose proof (so_streams _ _ _ Hs id) as Hst.
      unfold stream_ok in *. rewrite stream_entries_snoc, decide_False by done. done.
  - apply idem_snoc; [apply (so_idem _ _ _ Hs)|done].
  - rewrite Hret. intros id. rewrite (so_ret _ _ _ Hs id).
    destruct (decide (id = StreamID (ap_rec a))) as [->|Hne]; [|by rewrite lookup_insert_ne].
    rewrite lookup_insert_eq. simpl. unfold stream_of. by destruct (st_streams s !! StreamID (ap_rec a)).
  - rewrite Hret. apply (so_ret_ok _ _ _ Hs).
  - done.
Qed.

(** [normalize] leaves options that [Append] accepts. *)
Definition options_ok (opts : Options) : Prop :=
  (op_FsyncPolicy opts = FsyncAlways ∨ op_FsyncPolicy opts = FsyncBatch ∨ op_FsyncPolicy opts = FsyncInterval) ∧
  op_ChecksumType opts ≠ 0.

Lemma normalize_options_ok opts env opts' : normalize opts env = Some opts' → options_ok opts'.
Proof.
  unfold normalize, options_ok. cbv zeta. destruct (_ <? 0); [done|]. destruct (_ || _); [done|]. destruct (_ <? 0); [done|].
  destruct (validateChecksumType _); [|done]. case_decide; [|done]. intros [= <-]. simpl. split; [done|].
  destruct (op_ChecksumType opts =? 0) eqn:Ht; [done|lia].
Qed.

(** The counters and segments have room for one more record. *)
Record room (s : Store) (req : AppendRequest) (io : append_io) : Prop := {
  rm_segments : st_activeSegmentID s + 1 < 2 ^ 64;
  rm_seq : ss_nextSeq (stream_of s (ar_StreamID req)) + 1 < 2 ^ 64;
  rm_bytes : st_activeSegmentBytes s + 2 ^ 32 < 2 ^ 37;
  rm_now : in_i64 (io_now io);
  rm_options : options_ok (st_options s)
}.

(** The policy does not sync now, or the sync succeeds. *)
Definition sync_ok (opts : Options) (io : append_io) : Prop :=
  io_sync io = true ∨ op_FsyncPolicy opts = FsyncBatch ∨
  (op_FsyncPolicy opts = FsyncInterval ∧ io_due io = false).

Lemma sync_policy_ok s d h active tail io :
  options_ok (st_options s) → sync_ok (st_options s) io → st_open s = true → st_activeSegmentID s = active →
  logs_hold d h active tail → dk_log d !! active ≠ None →
  ∃ d', syncForPolicyLocked s d io = (d', true) ∧ logs_hold d' h active tail ∧
    dk_retention d' = dk_retention d ∧ seals d active d' active ∧
    (op_FsyncPolicy (st_options s) = FsyncAlways → synced_before d active → all_synced d').
Proof.
  intros [Hp _] Hs Ho Ha Hl Hf. subst active.
  destruct (sync_holds s d h (st_activeSegmentID s) tail Hl Hf) as (H1 & H2 & H3 & H4).
  unfold syncForPolicyLocked. case_decide as Hd.
  - destruct Hs as [->|[Hb|[Hi _]]]; [|by rewrite Hd in Hb|by rewrite Hd in Hi].
    exists (syncFilesLocked s d). by split_and!; auto.
  - pose proof (seals_refl d (st_activeSegmentID s)). case_decide as Hb; [by exists d|]. case_decide; [|tauto].
    destruct (io_due io) eqn:Hdue; [|by exists d]. destruct Hs as [->|[?|[_ ?]]]; [|done|congruence].
    by exists (syncFilesLocked s d).
Qed.

(** A request whose key is in the log is answered from the log. *)
Lemma append_existing s d h req io r :
  store_ok s d h → ar_StreamID req ≠ EmptyString → ar_EventType req ≠ EmptyString →
  (if str_empty (ar_IdempotencyKey req) then None
   else st_idempotency s !! idempotencyKey (ar_StreamID req) (ar_IdempotencyKey req)) = Some r →
  Append s d req io = (s, d, Ok (r, true)) ∧ ar_IdempotencyKey req ≠ EmptyString ∧
  ∃ a, a ∈ h ∧ IdempotencyKey (ap_rec a) ≠ EmptyString ∧
    rec_key (ap_rec a) = idempotencyKey (ar_StreamID req) (ar_IdempotencyKey req) ∧ r = idempotencyRecord (ap_rec a).
Proof.
  intros Hs H1%str_empty_false H2%str_empty_false Hr. unfold Append. rewrite H1, H2, Hr. split; [done|].
  destruct (str_empty (ar_IdempotencyKey req)) eqn:He; [done|]. split; [by apply str_empty_false|].
  by apply (so_idem _ _ _ Hs) in Hr.
Qed.

Lemma no_existing s d h req :
  store_ok s d h →
  (if str_empty (ar_IdempotencyKey req) then None
   else st_idempotency s !! idempotencyKey (ar_StreamID req) (ar_IdempotencyKey req)) = None →
  ar_IdempotencyKey req ≠ EmptyString →
  st_idempotency s !! idempotencyKey (ar_StreamID req) (ar_IdempotencyKey req) = None ∧
  ∀ a, a ∈ h → IdempotencyKey (ap_rec a) ≠ EmptyString →
    rec_key (ap_rec a) ≠ idempotencyKey (ar_StreamID req) (ar_IdempotencyKey req).
Proof.
  intros Hs Hn Hk%str_empty_false. rewrite Hk in Hn. split; [done|]. intros a Ha Hka Heq.
  assert (Hl : st_idempotency s !! rec_key (ap_rec a) = Some (idempotencyRecord (ap_rec a))).
  { apply (so_idem _ _ _ Hs). by exists a. }
  rewrite Heq in Hl. congruence.
Qed.

(** What a new record carries. *)
Definition appended_by (s : Store) (req : AppendRequest) (now : Z) (r : record) : Prop :=
  StreamID r = ar_StreamID req ∧ EventType r = ar_EventType req ∧ IdempotencyKey r = ar_IdempotencyKey req ∧
  Payload r = ar_Payload req ∧ TimestampMs r = now ∧
  Seq r = (if ss_nextSeq (stream_of s (ar_StreamID req)) =? 0 then 1
           else ss_nextSeq (stream_of s (ar_StreamID req))).

Lemma append_entry_fields s e r :
  st_activeSegmentID (append_entry s e r) = st_activeSegmentID s ∧
  st_options (append_entry s e r) = st_options s.
Proof. unfold append_entry. by destruct (str_empty _). Qed.

(** Writing the record of a fresh request. *)
Lemma append_fresh s d h req io enc crc :
  store_ok s d h → room s req io → io_write io = None → sync_ok (st_options s) io →
  ar_StreamID req ≠ EmptyString → ar_EventType req ≠ EmptyString →
  (if str_empty (ar_IdempotencyKey req) then None
   else st_idempotency s !! idempotencyKey (ar_StreamID req) (ar_IdempotencyKey req)) = None →
  encodeRecordPooled (io_pooled io) (new_record s req (io_now io)) (op_ChecksumType (st_options s)) = Ok (enc, crc) →
  let r := stamped (new_record s req (io_now io)) crc (op_ChecksumType (st_options s)) in
  ∃ s' d', store_ok s' d' (if 2 ^ 32 - 1 <? Z.of_nat (length enc) then h
                           else h ++ [{| ap_seg := st_activeSegmentID s'; ap_rec := r; ap_enc := enc |}]) ∧
    Append s d req io = (s', d', if 2 ^ 32 - 1 <? Z.of_nat (length enc) then Err ErrRecordTooLarge else Ok (r, false)) ∧
    st_options s' = st_options s ∧
    seals d (st_activeSegmentID s) d' (st_activeSegmentID s') ∧
    (op_FsyncPolicy (st_options s) = FsyncAlways → all_synced d → all_synced d') ∧
    (op_FsyncPolicy (st_options s) = FsyncAlways → (2 ^ 32 - 1 <? Z.of_nat (length enc)) = false →
       synced_before d (st_activeSegmentID s) → all_synced d').
Proof.
  intros Hs [Hseg Hseq Hbytes Hnow Hopt] Hw Hsy Hsid Hev Hnone Henc r.
  unfold Append. rewrite (proj2 (str_empty_false _) Hsid), (proj2 (str_empty_false _) Hev), Hnone. cbv zeta.
  cbn [st_options streamStateLocked with_streams]. fold (new_record s req (io_now io)). rewrite Henc. cbn [mbind].
  pose proof (touch_ok s d h (ar_StreamID req) Hs) as Ht.
  destruct (ensure_ok _ d h (Z.of_nat (length enc)) Ht Hseg) as (s1 & d1 & -> & Hs1 & (Ho1 & Hst1 & Hid1) & Hb1 & Hsb & Has).
  simpl in Ho1, Hst1, Hid1, Hb1, Hsb. destruct (2 ^ 32 - 1 <? Z.of_nat (length enc)) eqn:Hlen.
  { exists s1, d1. split_and!; auto. done. }
  rewrite Hw. fold r. set (a := {| ap_seg := st_activeSegmentID s1; ap_rec := r; ap_enc := enc |}).
  pose proof (write_holds s1 d1 h a Hs1 eq_refl) as Hlogs. change (ap_enc a) with enc in Hlogs.
  destruct (sync_policy_ok s1 (write_log s1 d1 enc) (h ++ [a]) (st_activeSegmentID s1) no_tail io) as (d2 & -> & Hl2 & Hr2 & Hsb2 & Has2); try done.
  { by rewrite Ho1. }
  { by rewrite Ho1. }
  { apply (so_open _ _ _ Hs1). }
  { unfold write_log, with_log. cbn [dk_log with_files]. by rewrite lookup_insert_eq. }
  destruct (new_seq_range s h (ar_StreamID req) (so_streams _ _ _ Hs _) Hseq) as (Hq1 & Hq2 & Hq3).
  assert (Hv : valid a).
  { apply (new_valid s req (io_now io) (io_pooled io)); [done|done|done|lia|done|apply Hopt]. }
  assert (Hof : stream_of s1 (ar_StreamID req) = stream_of s (ar_StreamID req)).
  { unfold stream_of. rewrite Hst1. unfold streamStateLocked. simpl. by rewrite lookup_insert_eq. }
  cbn [negb].
  assert (Hent : entry_of h a = {| ie_Seq := Seq r; ie_SegmentID := st_activeSegmentID s1;
      ie_Offset := u64 (st_activeSegmentBytes s1); ie_Length := u32 (Z.of_nat (length enc)) |}).
  { pose proof (so_bytes _ _ _ Hs1) as Hb. rewrite u64_id, u32_id, Hb; [done|unfold in_u32; lia|unfold in_u64; lia]. }
  change (Seq (stamped (new_record s req (io_now io)) crc (op_ChecksumType (st_options s)))) with (Seq r).
  rewrite <- Hent.
  assert (Hall : op_FsyncPolicy (st_options s) = FsyncAlways → synced_before d1 (st_activeSegmentID s1) → all_synced d2).
  { intros Hal Hd. apply Has2; [by rewrite Ho1|].
    intros id f; unfold write_log, with_log; cbn [dk_log with_files].
    intros [[<- <-]|[_ Hg]]%lookup_insert_Some Hlt; [lia|by apply (Hd id f)]. }
  eexists _, d2. split_and!; [|done| | | |].
  - rewrite (proj1 (append_entry_fields _ _ _)). cbn [st_activeSegmentID with_active]. rewrite (so_open _ _ _ Hs1).
    pose proof (commit_ok s1 d1 h a d2 Hs1 Hv eq_refl) as Hc. cbv zeta in Hc.
    rewrite (so_open _ _ _ Hs1) in Hc. apply Hc; [| |simpl; lia|done|by rewrite Hr2|].
    + change (StreamID (ap_rec a)) with (ar_StreamID req). rewrite Hof. split; [split; [done|apply Hq1]|done].
    + intros Hk. rewrite Hid1. apply (no_existing s d h req Hs Hnone). exact Hk.
    + eapply settled_seals; [|apply (so_settled _ _ _ Hs1)]. eapply seals_trans; [apply write_seals|exact Hsb2].
  - by rewrite (proj2 (append_entry_fields _ _ _)).
  - rewrite (proj1 (append_entry_fields _ _ _)). eapply seals_trans; [exact Hsb|]. eapply seals_trans; [apply write_seals|exact Hsb2].
  - intros Hal Hd. apply Hall; [done|]. intros id f Hf _. by apply (Has Hd id f).
  - intros Hal _ Hd. apply Hall; [done|]. by apply (se_sync _ _ _ _ Hsb).
Qed.

(** Why an append that meets no disk error fails. *)
Definition append_refused (s : Store) (req : AppendRequest) (io : append_io) (e : log_error) : Prop :=
  (e = ErrStreamIDRequired ∧ ar_StreamID req = EmptyString) ∨
  (e = ErrEventTypeRequired ∧ ar_EventType req = EmptyString) ∨
  (let enc := encodeRecordPooled (io_pooled io) (new_record s req (io_now io)) (op_ChecksumType (st_options s)) in
   enc = Err e ∨ ∃ b crc, enc = Ok (b, crc) ∧ 2 ^ 32 - 1 < Z.of_nat (length b) ∧ e = ErrRecordTooLarge).

Lemma append_cases s d h req io :
  store_ok s d h → room s req io → io_write io = None → sync_ok (st_options s) io →
  ∃ s' d' res, Append s d req io = (s', d', res) ∧
  match res with
  | Err e => store_ok s' d' h ∧ append_refused s req io e
  | Ok (r, true) => s' = s ∧ d' = d ∧ ar_IdempotencyKey req ≠ EmptyString ∧
      ∃ a, a ∈ h ∧ IdempotencyKey (ap_rec a) ≠ EmptyString ∧
        rec_key (ap_rec a) = idempotencyKey (ar_StreamID req) (ar_IdempotencyKey req) ∧
        r = idempotencyRecord (ap_rec a)
  | Ok (r, false) => appended_by s req (io_now io) r ∧
      (ar_IdempotencyKey req ≠ EmptyString → ∀ a, a ∈ h → IdempotencyKey (ap_rec a) ≠ EmptyString →
         rec_key (ap_rec a) ≠ idempotencyKey (ar_StreamID req) (ar_IdempotencyKey req)) ∧
      ∃ enc, store_ok s' d' (h ++ [{| ap_seg := st_activeSegmentID s'; ap_rec := r; ap_enc := enc |}])
  end ∧ seals d (st_activeSegmentID s) d' (st_activeSegmentID s') ∧
  (op_FsyncPolicy (st_options s) = FsyncAlways → all_synced d → all_synced d') ∧
  (op_FsyncPolicy (st_options s) = FsyncAlways → synced_before d (st_activeSegmentID s) →
     match res with Ok (_, false) => all_synced d' | _ => True end).
Proof.
  intros Hs Hroom Hw Hsy. pose proof (seals_refl d (st_activeSegmentID s)) as Hstay.
  destruct (decide (ar_StreamID req = EmptyString)) as [Hsid|Hsid].
  { exists s, d, (Err ErrStreamIDRequired). unfold Append, append_refused. rewrite Hsid. split_and!; auto. }
  destruct (decide (ar_EventType req = EmptyString)) as [Hev|Hev].
  { exists s, d, (Err ErrEventTypeRequired). unfold Append, append_refused.
    rewrite (proj2 (str_empty_false _) Hsid), Hev. split_and!; auto. }
  destruct (if str_empty (ar_IdempotencyKey req) then None
            else st_idempotency s !! idempotencyKey (ar_StreamID req) (ar_IdempotencyKey req)) as [r|] eqn:Hex.
  { destruct (append_existing s d h req io r Hs Hsid Hev Hex) as (Ha & Hk & Hr).
    exists s, d, (Ok (r, true)). split_and!; auto. }
  destruct (encodeRecordPooled (io_pooled io) (new_record s req (io_now io)) (op_ChecksumType (st_options s)))
    as [[enc crc]|e] eqn:Henc.
  - destruct (append_fresh s d h req io enc crc Hs Hroom Hw Hsy Hsid Hev Hex Henc) as (s' & d' & Hok & Happ & _ & H1 & H2 & Hnew).
    exists s', d', (if 2 ^ 32 - 1 <? Z.of_nat (length enc) then Err ErrRecordTooLarge
      else Ok (stamped (new_record s req (io_now io)) crc (op_ChecksumType (st_options s)), false)).
    split; [done|]. split; [|split; [done|split; [done|]]; intros Hal Hsb; destruct (_ <? _); auto]. destruct (_ <? _) eqn:Hlen.
    + split; [done|]. right; right. right. exists enc, crc. split_and!; [done|lia|done].
    + split_and!; [done| |by exists enc]. intros Hk. apply (no_existing s d h req Hs Hex Hk).
  - exists (streamStateLocked s (ar_StreamID req)), d, (Err e). split; [|split; [split|done]].
    + unfold Append. rewrite (proj2 (str_empty_false _) Hsid), (proj2 (str_empty_false _) Hev), Hex. cbv zeta.
      cbn [st_options streamStateLocked with_streams]. fold (new_record s req (io_now io)). by rewrite Henc.
    + by apply touch_ok.
    + right; right. by left.
Qed.
End Safety.
Close Scope Z_scope.
