(* ===== verification/LogRead.v ===== *)
(** Reads of the log store ([LogStore]) against the abstract log ([LogSafety]):
    [Read] returns exactly the stream's records from the given sequence number
    and the trim mark on, and [ReadRawEach], which gives up the lock between two
    batches, returns the records of its first snapshot whatever is appended
    meanwhile. *)
From S2P Require Import Prelude Bytes Checksum LogRecord RecordCodec SegmentIndex LogStore LogSafety.

Open Scope Z_scope.

(** ** Searching a sorted index *)

Lemma search_spec ES n i x :
  StronglySorted Z.lt (ie_Seq <$> ES) → ES !! i = Some x →
  (i < search_seq ES n)%nat ↔ ie_Seq x < n.
Proof.
  intros Hsort Hi. unfold search_seq. destruct (list_find _ ES) as [[k e]|] eqn:Hf.
  - apply list_find_Some in Hf as (Hk & Hn & Hmin). split; intros Hlt.
    + specialize (Hmin i x Hi Hlt). lia.
    + destruct (decide (i < k)%nat); [done|]. exfalso. destruct (decide (i = k)) as [->|]; [simplify_eq; lia|].
      assert (ie_Seq e < ie_Seq x); [|lia].
      apply (sorted_lookup_lt Z.lt (ie_Seq <$> ES) k i); [done| | |lia]; rewrite list_lookup_fmap.
      * by rewrite Hk.
      * by rewrite Hi.
  - apply list_find_None in Hf. split; intros ?.
    + pose proof (Forall_lookup_1 _ _ _ _ Hf Hi). simpl in *. lia.
    + by eapply lookup_lt_Some.
Qed.

Lemma drop_filter {A} (P : A → Prop) `{!∀ x, Decision (P x)} (l : list A) s :
  (∀ i x, l !! i = Some x → (i < s)%nat ↔ ¬ P x) → drop s l = filter P l.
Proof.
  revert s. induction l as [|y l IH]; intros s Hs; [by rewrite drop_nil|].
  rewrite filter_cons. pose proof (Hs 0%nat y eq_refl) as H0. destruct s as [|s]; simpl.
  - rewrite decide_True by (destruct (decide (P y)); [done|]; apply H0 in n; lia).
    f_equal. rewrite <- (IH 0%nat); [by rewrite drop_0|]. intros i x Hi. rewrite <- (Hs (S i) x Hi). lia.
  - rewrite decide_False by (apply H0; lia). apply IH. intros i x Hi. rewrite <- (Hs (S i) x Hi). lia.
Qed.

Lemma take_filter {A} (P : A → Prop) `{!∀ x, Decision (P x)} (l : list A) s :
  (∀ i x, l !! i = Some x → (i < s)%nat ↔ P x) → take s l = filter P l.
Proof.
  revert s. induction l as [|y l IH]; intros s Hs; [by rewrite take_nil|].
  rewrite filter_cons. pose proof (Hs 0%nat y eq_refl) as H0. destruct s as [|s]; simpl.
  - rewrite decide_False by (intros ?%H0; lia). rewrite <- (IH 0%nat); [by rewrite take_0|].
    intros i x Hi. rewrite <- (Hs (S i) x Hi). lia.
  - rewrite decide_True by (apply H0; lia). f_equal. apply IH.
    intros i x Hi. rewrite <- (Hs (S i) x Hi). lia.
Qed.

Lemma drop_search ES n :
  StronglySorted Z.lt (ie_Seq <$> ES) → drop (search_seq ES n) ES = filter (λ e, n <= ie_Seq e) ES.
Proof. intros Hs. apply drop_filter. intros i x Hi. rewrite (search_spec ES n i x Hs Hi). lia. Qed.

(** The window of entries in [n, m), cut at [b] entries. *)
Lemma window_filter ES n m b :
  StronglySorted Z.lt (ie_Seq <$> ES) →
  take (Nat.min (search_seq ES n + b) (search_seq ES m) - search_seq ES n) (drop (search_seq ES n) ES)
  = take b (filter (λ e, n <= ie_Seq e < m) ES).
Proof.
  intros Hs. rewrite take_drop_commute.
  replace (search_seq ES n + (Nat.min (search_seq ES n + b) (search_seq ES m) - search_seq ES n))%nat
    with (Nat.max (search_seq ES n) (Nat.min (search_seq ES n + b) (search_seq ES m))) by lia.
  assert (HF : filter (λ e, n <= ie_Seq e < m) ES = drop (search_seq ES n) (take (search_seq ES m) ES)).
  { rewrite (take_filter (λ e, ie_Seq e < m)).
    2: { intros i x Hi. apply (search_spec ES m i x Hs Hi). }
    rewrite (drop_filter (λ e, n <= ie_Seq e)).
    - rewrite list_filter_filter. apply list_filter_iff. intros x. lia.
    - intros i x Hi. assert (HE : ES !! i = Some x).
      { rewrite <- (take_filter (λ e, ie_Seq e < m) ES (search_seq ES m)) in Hi.
        - by apply lookup_take_Some in Hi as [Hi _].
        - intros j y Hj. apply (search_spec ES m j y Hs Hj). }
      rewrite (search_spec ES n i x Hs HE). lia. }
  rewrite HF. apply list_eq. intros i. rewrite lookup_drop.
  destruct (decide (i < b)%nat) as [Hb|Hb].
  - rewrite (lookup_take_lt _ b) by done. rewrite lookup_drop.
    destruct (decide (search_seq ES n + i < search_seq ES m)%nat).
    + rewrite !lookup_take_lt by lia. done.
    + rewrite !lookup_take_ge by lia. done.
  - rewrite (lookup_take_ge _ b) by lia. rewrite lookup_take_ge; [done|lia].
Qed.

(** ** Reading one entry *)

Section Reading.
Context `{ChecksumLib, IndexJSON}.

Lemma acquire_reads s d h mmapOk a :
  store_ok s d h → a ∈ h →
  ∃ src, acquireSegmentReader s d mmapOk (ap_seg a) = Ok src ∧ reads src (seg_bytes h (ap_seg a)).
Proof.
  intros Hs Ha. unfold acquireSegmentReader. pose proof (so_logs _ _ _ Hs (ap_seg a)) as Hl.
  pose proof (proj1 (Forall_forall _ _) (ho_range _ _ (so_history _ _ _ Hs)) a Ha) as Hr. simpl in Hr.
  destruct (dk_log d !! ap_seg a) as [f|]; [|by destruct Hl as [Hn _]; destruct (in_its_segment h a Ha)]. destruct Hl as (_ & Hd & _).
  unfold no_tail in Hd. rewrite app_nil_r in Hd. eexists. split; [done|]. rewrite Hd.
  unfold openSegmentReader, reads. destruct (_ && _); auto.
Qed.

(** Both readers check the stream, the sequence number and the length. *)
Lemma indexed_checks {A} h active pre a post (rec : A) (r : result log_error A) sid seq :
  history_ok h active → h = pre ++ a :: post → sid = StreamID (ap_rec a) → seq = Seq (ap_rec a) →
  r = Ok rec →
  (if max_i64 <? ie_Offset (entry_of pre a) then Err ErrCorruptIndex
   else if negb (bool_decide (sid = StreamID (ap_rec a))) || negb (seq =? ie_Seq (entry_of pre a))
     || negb (Z.of_nat (length (seg_bytes pre (ap_seg a)) + length (ap_enc a)) - ie_Offset (entry_of pre a)
              =? ie_Length (entry_of pre a))
   then Err ErrCorruptRecord else r) = Ok rec.
Proof.
  intros Hh Hsplit -> -> ->. destruct (entry_bounds _ _ _ _ _ Hh Hsplit) as (Ho & _ & _).
  replace (max_i64 <? _) with false by (symmetry; apply Z.ltb_ge; unfold max_i64; lia).
  rewrite bool_decide_true by done. simpl. rewrite Z.eqb_refl. simpl.
  rewrite Nat2Z.inj_add. replace (_ + _ - _) with (Z.of_nat (length (ap_enc a))) by lia. by rewrite Z.eqb_refl.
Qed.

Lemma read_entry_ok s d h mmapOk pre a post :
  store_ok s d h → h = pre ++ a :: post →
  read_entry s d mmapOk (StreamID (ap_rec a)) (entry_of pre a) = Ok (ap_rec a) ∧
  read_raw_entry s d mmapOk (StreamID (ap_rec a)) (entry_of pre a) = Ok (raw_rec (ap_rec a)).
Proof.
  intros Hs Hsplit. pose proof (so_history _ _ _ Hs) as Hh.
  assert (Ha : a ∈ h) by (rewrite Hsplit; apply elem_of_app; right; left).
  pose proof (valid_in _ _ _ Hh Ha) as Hv.
  destruct (acquire_reads s d h mmapOk a Hs Ha) as (src & Hsrc & Hreads).
  rewrite Hsplit, split_bytes in Hreads.
  pose proof (valid_read a _ _ src Hv Hreads) as Hr. pose proof (valid_read_raw a _ _ src Hv Hreads) as Hrr.
  unfold read_entry, read_raw_entry. change (ie_SegmentID (entry_of pre a)) with (ap_seg a).
  rewrite Hsrc, !ok_bind. unfold readIndexedRecordFromReader, readIndexedRawRecordFromReader. cbv zeta.
  assert (Hoff : Z.to_nat (ie_Offset (entry_of pre a)) = length (seg_bytes pre (ap_seg a))) by apply Nat2Z.id.
  rewrite Hoff, Hr, Hrr, !ok_bind.
  split; apply (indexed_checks h (st_activeSegmentID s) pre a post _ (Ok _)); done.
Qed.

Lemma emit_all {R} (read : streamIndexEntry → result log_error R) ES XS :
  Forall2 (λ e x, read e = Ok x) ES XS → emit_entries read (λ _, true) ES = (XS, None).
Proof. induction 1 as [|e x ES XS Hx _ IH]; simpl; [done|]. by rewrite Hx, IH. Qed.

(** The records of a stream from a sequence number on. *)
Definition from_seq (h : list appended) (id : string) (n : Z) : list appended :=
  filter (λ a, n <= Seq (ap_rec a)) (of_stream id h).

Lemma entries_sorted h active id :
  history_ok h active → StronglySorted Z.lt (ie_Seq <$> stream_entries h id).
Proof. intros Hh. rewrite stream_entries_seqs. apply (ho_seqs _ _ Hh). Qed.

(** The entries of a window read as the records they stand for. *)
Lemma entries_read s d h mmapOk id :
  store_ok s d h →
  Forall2 (λ e a, read_entry s d mmapOk id e = Ok (ap_rec a) ∧
                  read_raw_entry s d mmapOk id e = Ok (raw_rec (ap_rec a)) ∧
                  ie_Seq e = Seq (ap_rec a))
    (stream_entries h id) (of_stream id h).
Proof.
  intros Hs. eapply Forall2_impl; [apply stream_stands|].
  intros e a (pre & post & Hsplit & -> & <-).
  destruct (read_entry_ok s d h mmapOk pre a post Hs Hsplit). done.
Qed.

Lemma entries_from s d h mmapOk id n :
  store_ok s d h →
  Forall2 (λ e a, read_entry s d mmapOk id e = Ok (ap_rec a) ∧
                  read_raw_entry s d mmapOk id e = Ok (raw_rec (ap_rec a)) ∧
                  ie_Seq e = Seq (ap_rec a))
    (filter (λ e, n <= ie_Seq e) (stream_entries h id)) (from_seq h id n).
Proof.
  intros Hs. apply Forall2_filter; [|by apply entries_read]. by intros e a (_ & _ & ->).
Qed.

Definition trim_of (s : Store) (id : string) : Z := ss_trimBefore (stream_of s id).

Lemma select_reads s d h mmapOk id n limit :
  store_ok s d h → 0 < limit →
  Forall2 (λ e a, read_entry s d mmapOk id e = Ok (ap_rec a))
    (select_entries s id n limit) (take (Z.to_nat limit) (from_seq h id (Z.max n (trim_of s id)))).
Proof.
  intros Hs Hlim. pose proof (so_history _ _ _ Hs) as Hh. unfold select_entries, trim_of, stream_of.
  pose proof (so_streams _ _ _ Hs id) as Hst.
  destruct (st_streams s !! id) as [st|]; simpl in Hst |- *.
  - destruct Hst as (Hent & _). rewrite Hent. replace (0 <? limit) with true by lia.
    set (m := if _ <? _ then _ else _). replace (Z.max n (ss_trimBefore st)) with m by (unfold m; destruct (n <? _) eqn:?; lia).
    replace (take _ (drop _ _)) with (take (Z.to_nat limit) (filter (λ e, m <= ie_Seq e) (stream_entries h id))).
    + apply Forall2_take. eapply Forall2_impl; [apply (entries_from s d h mmapOk id m Hs)|]. by intros e a [? _].
    + rewrite <- drop_search by by eapply entries_sorted.
      destruct (decide (search_seq (stream_entries h id) m + Z.to_nat limit <= length (stream_entries h id))%nat).
      * f_equal. lia.
      * rewrite !take_ge; [done|rewrite length_drop; lia..].
  - pose proof (entries_from s d h mmapOk id (Z.max n 0) Hs) as Hf. rewrite Hst, filter_nil in Hf.
    inversion Hf. rewrite take_nil. constructor.
Qed.

Lemma Read_log s d h mmapOk id from limit :
  store_ok s d h → id ≠ EmptyString →
  Read s d mmapOk id from limit =
  Ok (ap_rec <$> take (Z.to_nat (if limit <=? 0 then 100 else limit))
        (from_seq h id (Z.max (if from =? 0 then 1 else from) (trim_of s id)))).
Proof.
  intros Hs Hid%str_empty_false. unfold Read, ReadEach. rewrite Hid. cbv zeta.
  set (n := if from =? 0 then _ else _). set (l := if limit <=? 0 then _ else _).
  assert (Hl : 0 < l) by (unfold l; destruct (limit <=? 0) eqn:?; lia).
  rewrite (emit_all _ _ (ap_rec <$> take (Z.to_nat l) (from_seq h id (Z.max n (trim_of s id))))); [done|].
  apply Forall2_fmap_r, select_reads; done.
Qed.

(** ** Raw reads, over views of a growing log *)

(** What later critical sections may have done to the store since an earlier
    one: only appended records, at the sequence numbers it had reserved. *)
Definition grown (s0 : Store) (h0 h : list appended) : Prop :=
  ∃ more, h = h0 ++ more ∧ ∀ a, a ∈ more → ss_nextSeq (stream_of s0 (StreamID (ap_rec a))) <= Seq (ap_rec a).
Definition growing (views : nat → Store * Disk) (h : nat → list appended) : Prop :=
  (∀ i, store_ok (views i).1 (views i).2 (h i)) ∧ ∀ i, grown (views 0%nat).1 (h 0%nat) (h i).

(** The snapshot of the first view. *)
Lemma snapshot_stable s0 d0 h0 h id n st :
  store_ok s0 d0 h0 → grown s0 h0 h → st_streams s0 !! id = Some st →
  filter (λ a, n <= Seq (ap_rec a) < ss_nextSeq st) (of_stream id h) = from_seq h0 id n.
Proof.
  intros Hs (more & -> & Hmore) Hst. unfold of_stream. rewrite filter_app.
  fold (of_stream id h0) (of_stream id more). rewrite filter_app.
  assert (Hnil : filter (λ a, n <= Seq (ap_rec a) < ss_nextSeq st) (of_stream id more) = []).
  { apply elem_of_nil_inv. intros a [Ha Hin]%list_elem_of_filter. apply list_elem_of_filter in Hin as [Hid Hin].
    specialize (Hmore a Hin). unfold stream_of in Hmore. rewrite Hid, Hst in Hmore. simpl in Hmore. lia. }
  rewrite Hnil, app_nil_r. unfold from_seq.
  pose proof (so_streams _ _ _ Hs id) as Hok. rewrite Hst in Hok. destruct Hok as (Hent & _ & _ & Hlt).
  assert (Hall : Forall (λ a, Seq (ap_rec a) < ss_nextSeq st) (of_stream id h0)).
  { rewrite Hent in Hlt. pose proof (stream_stands h0 id) as Hf. clear - Hlt Hf.
    induction Hf as [|e a ES l (pre & post & _ & -> & _) _ IH]; [constructor|].
    apply Forall_cons in Hlt as [? ?]. constructor; [done|by apply IH]. }
  clear - Hall. induction Hall as [|a l Ha _ IH]; [done|]. rewrite !filter_cons, IH.
  do 2 case_decide; done || lia.
Qed.

(** What an emitting callback receives: the records up to its first refusal. *)
Fixpoint deliver {R} (emit : R → bool) (xs : list R) : list R * option log_error :=
  match xs with
  | [] => ([], None)
  | x :: xs => if emit x then let (out, err) := deliver emit xs in (x :: out, err) else ([x], Some ErrIO)
  end.
Definition limited {R} (r : Z) (xs : list R) : list R := if 0 <? r then take (Z.to_nat r) xs else xs.

Lemma deliver_app {R} (emit : R → bool) xs ys :
  deliver emit (xs ++ ys) =
  match deliver emit xs with
  | (out, Some e) => (out, Some e)
  | (out, None) => let (out', err) := deliver emit ys in (out ++ out', err)
  end.
Proof.
  induction xs as [|x xs IH]; simpl; [by destruct (deliver emit ys)|].
  destruct (emit x); [|done]. rewrite IH. destruct (deliver emit xs) as [out [e|]]; [done|].
  by destruct (deliver emit ys).
Qed.

Definition next_after (n : Z) (ES : list streamIndexEntry) : Z :=
  match last ES with Some e => u64 (ie_Seq e + 1) | None => n end.

Lemma raw_emit_spec read emit ES XS n r :
  Forall2 (λ e x, read e = Ok x) ES XS → (0 < r → Z.of_nat (length XS) <= r) →
  raw_emit read emit ES n r =
  match deliver emit XS with
  | (out, Some e) => (out, RawError e)
  | (out, None) => (out, if (0 <? r) && (r =? Z.of_nat (length XS)) then RawDone
                         else RawMore (next_after n ES) (if 0 <? r then r - Z.of_nat (length XS) else r))
  end.
Proof.
  intros Hf. revert n r. induction Hf as [|e x ES XS Hx Hf IH]; intros n r Hr;
    cbn [raw_emit deliver length] in *.
  { unfold next_after. destruct (Z.ltb_spec 0 r); cbn [andb]; [|done].
    destruct (Z.eqb_spec r (Z.of_nat 0)); [lia|]. do 2 f_equal. lia. }
  rewrite Hx. destruct (emit x); cbn [negb]; [|done].
  assert (Hna : next_after (u64 (ie_Seq e + 1)) ES = next_after n (e :: ES)).
  { unfold next_after. rewrite last_cons. by destruct (last ES). }
  destruct (Z.ltb_spec 0 r) as [Hp|Hp]; cbn [andb].
  - destruct (Z.eqb_spec (r - 1) 0).
    + destruct XS; [|simpl in Hr; lia]. cbn [deliver length]. destruct (Z.eqb_spec r (Z.of_nat 1)); [done|lia].
    + rewrite IH, Hna by lia. destruct (deliver emit XS) as [out [err|]]; [done|]. f_equal.
      destruct (Z.ltb_spec 0 (r - 1)); [|lia]. cbn [andb].
      destruct (Z.eqb_spec (r - 1) (Z.of_nat (length XS))), (Z.eqb_spec r (Z.of_nat (S (length XS)))); try lia; [done|].
      f_equal. lia.
  - rewrite IH, Hna by lia. destruct (deliver emit XS) as [out [err|]]; [done|].
    destruct (Z.ltb_spec 0 r); [lia|done].
Qed.

(** Reading on after the first [b] records. *)
Lemma from_seq_sorted h active id n :
  history_ok h active → StronglySorted Z.lt ((Seq ∘ ap_rec) <$> from_seq h id n).
Proof.
  intros Hh. pose proof (ho_seqs _ _ Hh id) as Hs. unfold seqs in Hs. unfold from_seq.
  induction (of_stream id h) as [|a l IH]; [constructor|]. rewrite filter_cons. simpl in Hs.
  apply StronglySorted_inv in Hs as [Hs Ha]. case_decide; [|by apply IH]. simpl. constructor; [by apply IH|].
  apply Forall_fmap, Forall_forall. intros y [_ Hy]%list_elem_of_filter.
  apply (proj1 (Forall_forall _ _) Ha). apply list_elem_of_fmap. by exists y.
Qed.

Lemma from_seq_next h active id n b a :
  history_ok h active → n <= Seq (ap_rec a) → last (take b (from_seq h id n)) = Some a →
  from_seq h id (Seq (ap_rec a) + 1) = drop b (from_seq h id n).
Proof.
  intros Hh Hn Hlast. pose proof (from_seq_sorted h active id n Hh) as Hs.
  assert (Hf : from_seq h id (Seq (ap_rec a) + 1) = filter (λ x, Seq (ap_rec a) + 1 <= Seq (ap_rec x)) (from_seq h id n)).
  { unfold from_seq. rewrite list_filter_filter. apply list_filter_iff. intros x. lia. }
  rewrite Hf. symmetry. apply drop_filter. intros i x Hi.
  rewrite last_lookup in Hlast. set (l := take b (from_seq h id n)) in *.
  assert (Hk : from_seq h id n !! Init.Nat.pred (length l) = Some a ∧ (Init.Nat.pred (length l) < b)%nat).
  { apply lookup_take_Some in Hlast. done. }
  destruct Hk as [Hk Hkb]. assert (Hlen : (length l = Nat.min b (length (from_seq h id n)))%nat) by apply length_take.
  pose proof (lookup_lt_Some _ _ _ Hi) as Hib. pose proof (lookup_lt_Some _ _ _ Hk) as Hkl.
  assert (Hc : ∀ j y, from_seq h id n !! j = Some y → ((Seq ∘ ap_rec) <$> from_seq h id n) !! j = Some (Seq (ap_rec y))).
  { intros j y Hj. by rewrite list_lookup_fmap, Hj. }
  destruct (Nat.lt_trichotomy i (Init.Nat.pred (length l))) as [Hlt|[->|Hgt]].
  - pose proof (sorted_lookup_lt Z.lt _ _ _ _ _ Hs (Hc _ _ Hi) (Hc _ _ Hk) Hlt). lia.
  - simplify_eq. lia.
  - pose proof (sorted_lookup_lt Z.lt _ _ _ _ _ Hs (Hc _ _ Hk) (Hc _ _ Hi) Hgt). lia.
Qed.

Definition raw_batch (r : Z) : nat :=
  Z.to_nat (if (0 <? r) && (r <? rawReadBatchEntries) then r else rawReadBatchEntries).

Lemma raw_batch_bounds r : (0 < raw_batch r)%nat ∧ (0 < r → Z.of_nat (raw_batch r) <= r).
Proof.
  unfold raw_batch, rawReadBatchEntries.
  destruct (Z.ltb_spec 0 r), (Z.ltb_spec r 1024); cbn [andb]; lia.
Qed.

(** The first batch of a limited list, and the rest. *)
Lemma limited_batch {A} r (xs : list A) :
  let first := take (raw_batch r) xs in
  limited r xs = first ++
    if (0 <? r) && (r =? Z.of_nat (length first)) then []
    else limited (if 0 <? r then r - Z.of_nat (length first) else r) (drop (raw_batch r) xs).
Proof.
  cbv zeta. destruct (raw_batch_bounds r) as [Hb Hr]. unfold limited.
  destruct (Z.ltb_spec 0 r) as [Hp|Hp]; cbn [andb].
  - specialize (Hr Hp). rewrite length_take. destruct (Z.eqb_spec r (Z.of_nat (Nat.min (raw_batch r) (length xs)))) as [He|He].
    + rewrite app_nil_r. f_equal. lia.
    + destruct (Z.ltb_spec 0 (r - Z.of_nat (Nat.min (raw_batch r) (length xs)))); [|lia].
      destruct (decide (raw_batch r <= length xs)%nat).
      * rewrite <- (take_drop (raw_batch r) xs) at 1. rewrite take_app, take_take, length_take.
        f_equal; f_equal; lia.
      * rewrite drop_ge by lia. rewrite !take_nil, app_nil_r. rewrite !take_ge by lia. done.
  - destruct (Z.ltb_spec 0 r); [lia|]. by rewrite take_drop.
Qed.

Lemma stream_below_next s d h id st :
  store_ok s d h → st_streams s !! id = Some st → ∀ a, a ∈ of_stream id h → Seq (ap_rec a) < ss_nextSeq st.
Proof.
  intros Hs Hst a Ha. pose proof (stream_seqs_lt h s id (Seq (ap_rec a)) (so_streams _ _ _ Hs id)) as Hlt.
  unfold stream_of in Hlt. rewrite Hst in Hlt. apply Hlt. apply list_elem_of_fmap. by exists a.
Qed.

(** The window of a later view. *)
Lemma view_window s0 d0 h0 st0 s d h st mmapOk id n r :
  store_ok s0 d0 h0 → st_streams s0 !! id = Some st0 → store_ok s d h → grown s0 h0 h →
  st_streams s !! id = Some st →
  ∃ sel, raw_window st n (ss_nextSeq st0) r = (if decide (sel = []) then None else Some sel) ∧
    Forall2 (λ e a, read_entry s d mmapOk id e = Ok (ap_rec a) ∧
                    read_raw_entry s d mmapOk id e = Ok (raw_rec (ap_rec a)) ∧
                    ie_Seq e = Seq (ap_rec a)) sel (take (raw_batch r) (from_seq h0 id n)).
Proof.
  intros Hs0 Hst0 Hs Hg Hst. unfold raw_window. destruct (Z.leb_spec (ss_nextSeq st0) n) as [Hle|Hlt].
  { exists []. split; [done|]. assert (Hnil : from_seq h0 id n = []).
    { apply elem_of_nil_inv. intros a [Ha Hin]%list_elem_of_filter.
      pose proof (stream_below_next _ _ _ _ _ Hs0 Hst0 a Hin). lia. }
    rewrite Hnil, take_nil. constructor. }
  cbv zeta. pose proof (so_streams _ _ _ Hs id) as Hok. rewrite Hst in Hok. destruct Hok as (Hent & _).
  pose proof (entries_sorted h _ id (so_history _ _ _ Hs)) as Hsort. rewrite Hent.
  fold (raw_batch r). rewrite window_filter by done.
  exists (take (raw_batch r) (filter (λ e, n <= ie_Seq e < ss_nextSeq st0) (stream_entries h id))). split.
  - by destruct (take _ _).
  - apply Forall2_take. rewrite <- (snapshot_stable s0 d0 h0 h id n st0) by done.
    apply Forall2_filter; [|by apply entries_read]. by intros e a (_ & _ & ->).
Qed.

(** Where a batch leaves off. *)
Lemma window_next h active mmapOk s d id n b sel :
  history_ok h active → sel ≠ [] → (∀ a, a ∈ of_stream id h → Seq (ap_rec a) < 2 ^ 64 - 1) →
  Forall2 (λ e a, read_entry s d mmapOk id e = Ok (ap_rec a) ∧
                  read_raw_entry s d mmapOk id e = Ok (raw_rec (ap_rec a)) ∧
                  ie_Seq e = Seq (ap_rec a)) sel (take b (from_seq h id n)) →
  from_seq h id (next_after n sel) = drop b (from_seq h id n).
Proof.
  intros Hh Hne Hlt Hf. unfold next_after. rewrite last_lookup.
  destruct (sel !! Init.Nat.pred (length sel)) as [e|] eqn:He.
  2: { apply lookup_ge_None in He. destruct sel; [done|]. simpl in He. lia. }
  destruct (Forall2_lookup_l _ _ _ _ _ Hf He) as (a & Ha & _ & _ & Hseq).
  rewrite (Forall2_length _ _ _ Hf), <- last_lookup in Ha. rewrite Hseq.
  assert (Hin : a ∈ from_seq h id n).
  { apply last_Some_elem_of in Ha. by apply elem_of_take_lookup in Ha as (k & _ & ?%list_elem_of_lookup_2). }
  apply list_elem_of_filter in Hin as [Hn [Hid Hin]%list_elem_of_filter].
  specialize (Hlt a ltac:(by apply list_elem_of_filter)) as Hs.
  rewrite u64_id by (pose proof (va_seq a (valid_in _ _ _ Hh Hin)); unfold in_u64; lia).
  by apply (from_seq_next h active).
Qed.

Lemma raw_loop_spec views hs st0 mmapOk id emit fuel :
  growing views hs → st_streams (views 0%nat).1 !! id = Some st0 → ∀ i n r,
  (length (from_seq (hs 0%nat) id n) < fuel)%nat →
  raw_loop fuel views i mmapOk id emit n r (Some (ss_nextSeq st0))
  = Some (deliver emit (limited r ((raw_rec ∘ ap_rec) <$> from_seq (hs 0%nat) id n))).
Proof.
  intros [Hok Hgrow] Hst0. induction fuel as [|fuel IH]; intros i n r Hfuel; [lia|]. cbn [raw_loop].
  pose proof (Hok i) as Hs. pose proof (Hgrow i) as Hg. destruct (views i) as [s d]. cbn [fst snd] in Hs.
  set (X := from_seq (hs 0%nat) id n) in *.
  assert (Hempty : X = [] → deliver emit (limited r ((raw_rec ∘ ap_rec) <$> X)) = ([], None)).
  { intros ->. unfold limited. cbn. rewrite take_nil. by destruct (0 <? r). }
  assert (Hlive : X ≠ [] → ∃ st, st_streams s !! id = Some st ∧ ss_nextSeq st ≠ 0).
  { intros HX. destruct X as [|a X'] eqn:HXa; [done|]. assert (Ha : a ∈ from_seq (hs 0%nat) id n).
    { fold X. rewrite HXa. left. }
    apply list_elem_of_filter in Ha as [_ [Hid Ha]%list_elem_of_filter].
    destruct Hg as (more & Hh & _). assert (Hin : a ∈ of_stream id (hs i)).
    { apply list_elem_of_filter. split; [done|]. rewrite Hh. apply elem_of_app. by left. }
    pose proof (so_streams _ _ _ Hs id) as Hstr. pose proof (stream_stands (hs i) id) as Hf.
    destruct (st_streams s !! id) as [st|] eqn:Hst.
    - exists st. split; [done|]. pose proof (stream_below_next _ _ _ _ _ Hs Hst a Hin).
      apply list_elem_of_filter in Hin as [_ Hin].
      pose proof (va_seq a (valid_in _ _ _ (so_history _ _ _ Hs) Hin)). lia.
    - simpl in Hstr. rewrite Hstr in Hf. inversion Hf as [Hn Hn'|]. rewrite <- Hn' in Hin. by apply elem_of_nil in Hin. }
  destruct (st_streams s !! id) as [st|] eqn:Hst.
  2: { f_equal. symmetry. apply Hempty. destruct X; [done|]. by destruct (Hlive ltac:(done)) as (? & ? & _). }
  destruct (Z.eqb_spec (ss_nextSeq st) 0) as [Hz|Hz].
  { f_equal. symmetry. apply Hempty. destruct X; [done|]. destruct (Hlive ltac:(done)) as (? & ? & ?). by simplify_eq. }
  destruct (view_window _ _ _ _ s d (hs i) st mmapOk id n r (Hok 0%nat) Hst0 Hs Hg Hst) as (sel & -> & Hsel).
  fold X in Hsel. destruct (raw_batch_bounds r) as [Hb Hbr]. case_decide as Hnil.
  { subst sel. inversion Hsel as [Ht|]. f_equal. symmetry. apply Hempty.
    destruct X; [done|]. destruct (raw_batch r); [lia|done]. }
  set (F := (raw_rec ∘ ap_rec) <$> X) in *.
  assert (Hread : Forall2 (λ e x, read_raw_entry s d mmapOk id e = Ok x) sel (take (raw_batch r) F)).
  { unfold F. rewrite <- fmap_take. apply Forall2_fmap_r. eapply Forall2_impl; [exact Hsel|]. by intros e a (_ & ? & _). }
  assert (Hlen : length (take (raw_batch r) F) = Nat.min (raw_batch r) (length X)).
  { unfold F. by rewrite length_take, length_fmap. }
  rewrite (raw_emit_spec _ emit sel _ n r Hread) by (intros Hp; specialize (Hbr Hp); lia).
  rewrite limited_batch. cbv zeta. rewrite deliver_app.
  destruct (deliver emit (take (raw_batch r) F)) as [out [e|]]; [done|].
  destruct ((0 <? r) && _) eqn:Hdone; [cbn [deliver]; by rewrite app_nil_r|].
  assert (Hbelow : ∀ a, a ∈ of_stream id (hs 0%nat) → Seq (ap_rec a) < 2 ^ 64 - 1).
  { intros a Ha. pose proof (stream_below_next _ _ _ _ _ (Hok 0%nat) Hst0 a Ha).
    pose proof (so_streams _ _ _ (Hok 0%nat) id) as Ho. rewrite Hst0 in Ho. destruct Ho as (_ & _ & ? & _). lia. }
  pose proof (window_next (hs 0%nat) _ mmapOk s d id n (raw_batch r) sel
    (so_history _ _ _ (Hok 0%nat)) Hnil Hbelow Hsel) as Hnext.
  rewrite IH, Hnext.
  - fold X. unfold F. rewrite fmap_drop. match goal with |- context [deliver emit ?x] => destruct (deliver emit x) as [o1 e1] end. reflexivity.
  - rewrite Hnext. fold X. rewrite length_drop. destruct X; [|simpl in *; lia].
    rewrite take_nil in Hsel. by apply Forall2_nil_inv_r in Hsel.
Qed.

(** A first batch fixes the snapshot. *)
Lemma ReadRawEach_log fuel views hs mmapOk id from limit emit :
  growing views hs → id ≠ EmptyString → (length (of_stream id (hs 0%nat)) < fuel)%nat →
  ReadRawEach fuel views mmapOk id from limit emit
  = Some (deliver emit (limited limit ((raw_rec ∘ ap_rec) <$>
      from_seq (hs 0%nat) id (Z.max (if from =? 0 then 1 else from) (trim_of (views 0%nat).1 id))))).
Proof.
  intros Hv Hid%str_empty_false Hfuel. unfold ReadRawEach. rewrite Hid.
  set (n := if from =? 0 then _ else _). pose proof Hv as [Hok _]. specialize (Hok 0%nat).
  assert (Hempty : ∀ m, of_stream id (hs 0%nat) = [] →
    deliver emit (limited limit ((raw_rec ∘ ap_rec) <$> from_seq (hs 0%nat) id m)) = ([], None)).
  { intros m Hn. unfold from_seq, limited. rewrite Hn. cbn. rewrite take_nil. by destruct (0 <? limit). }
  pose proof (so_streams _ _ _ Hok id) as Hst. pose proof (stream_stands (hs 0%nat) id) as Hf.
  unfold trim_of, stream_of. destruct (st_streams (views 0%nat).1 !! id) as [st|] eqn:Hs.
  - simpl. destruct (Z.eqb_spec (ss_nextSeq st) 0) as [Hz|Hz].
    + assert (Hnone : of_stream id (hs 0%nat) = []).
      { apply elem_of_nil_inv. intros a Ha. pose proof (stream_below_next _ _ _ _ _ Hok Hs a Ha).
        apply list_elem_of_filter in Ha as [_ Ha].
        pose proof (va_seq a (valid_in _ _ _ (so_history _ _ _ Hok) Ha)). lia. }
      rewrite Hempty by done. destruct fuel; [lia|]. simpl. destruct (views 0%nat) as [s d]. simpl in Hs.
      by rewrite Hs, Hz.
    + set (m := Z.max n (ss_trimBefore st)).
      assert (Hm : (if n <? ss_trimBefore st then ss_trimBefore st else n) = m).
      { unfold m. destruct (Z.ltb_spec n (ss_trimBefore st)); lia. }
      rewrite <- (raw_loop_spec views hs st mmapOk id emit fuel Hv Hs 0 m limit).
      * destruct fuel as [|fuel]; [lia|]. cbn [raw_loop]. destruct (views 0%nat) as [s d]. simpl in Hs. rewrite Hs.
        destruct (Z.eqb_spec (ss_nextSeq st) 0); [done|]. by rewrite Hm.
      * unfold from_seq. pose proof (length_filter (λ a, m <= Seq (ap_rec a)) (of_stream id (hs 0%nat))). lia.
  - simpl in Hst. rewrite Hst in Hf. inversion Hf as [Hn Hn'|]. rewrite Hempty by done.
    destruct fuel; [lia|]. simpl. destruct (views 0%nat) as [s d]. simpl in Hs. by rewrite Hs.
Qed.

(** ** Trimming *)

(** The mark a request sets. *)
Definition new_trim (st : streamState) (beforeSeq : Z) : Z :=
  Z.max (ss_trimBefore st) (Z.max 1 (Z.min beforeSeq (ss_nextSeq st))).

Lemma set_trim_ok s d h id st t :
  store_ok s d h → st_streams s !! id = Some st → ss_trimBefore st <= t <= ss_nextSeq st → id ≠ EmptyString →
  store_ok (set_trim s id st t) (persistRetentionLocked (set_trim s id st t) d) h.
Proof.
  intros Hs Hst Ht Hid. destruct Hs as [Ho Hh Hl Hb Hss Hi Hr Hrk Hse].
  pose proof (Hss id) as Hok. rewrite Hst in Hok. destruct Hok as (He & (Hpos & Hn) & Hn2 & Hf).
  assert (Hlook : ∀ sid, omap (λ state, if ss_trimBefore state =? 0 then None else Some (ss_trimBefore state))
      (st_streams (set_trim s id st t)) !! sid =
    if decide (sid = id) then if t =? 0 then None else Some t
    else st_streams s !! sid ≫= (λ state, if ss_trimBefore state =? 0 then None else Some (ss_trimBefore state))).
  { intros sid. rewrite lookup_omap. simpl. case_decide; [subst; by rewrite lookup_insert_eq|].
    by rewrite lookup_insert_ne. }
  split; try done; simpl.
  - intros sid. destruct (decide (sid = id)) as [->|Hne]; [|by rewrite lookup_insert_ne].
    rewrite lookup_insert_eq. split_and!; try done; simpl; lia.
  - intros sid. simpl. rewrite Hlook. case_decide.
    + subst. rewrite lookup_insert_eq. simpl. by destruct (Z.eqb_spec t 0).
    + rewrite lookup_insert_ne by done. destruct (st_streams s !! sid) as [x|]; simpl; [|done].
      by destruct (Z.eqb_spec (ss_trimBefore x) 0).
  - intros m sid u [= <-]. rewrite Hlook. case_decide.
    + destruct (t =? 0); [done|]. intros [= <-]. subst. split; [done|lia].
    + intros Hu. specialize (Hss sid). destruct (st_streams s !! sid) as [x|] eqn:Hx; [|done]. simpl in Hu.
      destruct (Z.eqb_spec (ss_trimBefore x) 0) as [|Hx0]; [done|]. injection Hu as <-.
      destruct Hss as (_ & (? & ?) & ? & _). split; [|lia].
      specialize (Hr sid). rewrite Hx in Hr. simpl in Hr. destruct (dk_retention d) as [rm|]; simpl in Hr; [|lia].
      destruct (rm !! sid) as [v|] eqn:Hv; simpl in Hr; [|lia]. by destruct (Hrk rm sid v eq_refl Hv).
Qed.

Lemma Trim_log s d h id before :
  store_ok s d h → id ≠ EmptyString → 0 < before →
  match st_streams s !! id with
  | Some st =>
      if ss_nextSeq st =? 0 then Trim s d id before = (s, d, Err (ErrStreamNotFound id))
      else ∃ s' d', Trim s d id before = (s', d', Ok (streamStatsLocked s' id)) ∧ store_ok s' d' h ∧
             st_streams s' = <[id := {| ss_nextSeq := ss_nextSeq st; ss_trimBefore := new_trim st before;
                                        ss_entries := ss_entries st |}]> (st_streams s) ∧
             dk_log d' = dk_log d ∧ dk_index d' = dk_index d ∧
             st_activeSegmentID s' = st_activeSegmentID s ∧ st_options s' = st_options s
  | None => Trim s d id before = (s, d, Err (ErrStreamNotFound id))
  end.
Proof.
  intros Hs Hid Hb. unfold Trim. rewrite (proj2 (str_empty_false _) Hid). destruct (Z.eqb_spec before 0); [lia|].
  destruct (st_streams s !! id) as [st|] eqn:Hst; [|done]. destruct (Z.eqb_spec (ss_nextSeq st) 0) as [|Hn]; [done|].
  pose proof (so_streams _ _ _ Hs id) as Hok. rewrite Hst in Hok. destruct Hok as (_ & Ht & _ & _). cbv zeta.
  set (b := if ss_nextSeq st <? before then ss_nextSeq st else before).
  assert (Hbv : (if b <? 1 then 1 else b) = Z.max 1 (Z.min before (ss_nextSeq st))).
  { assert (Hbm : b = Z.min before (ss_nextSeq st)) by (unfold b; destruct (Z.ltb_spec (ss_nextSeq st) before); lia).
    rewrite Hbm. destruct (Z.ltb_spec (Z.min before (ss_nextSeq st)) 1); lia. }
  rewrite Hbv. clearbody b. clear Hbv. destruct (Z.ltb_spec (ss_trimBefore st) (Z.max 1 (Z.min before (ss_nextSeq st)))) as [Hlt|Hge].
  - eexists _, _. split; [done|]. replace (new_trim st before) with (Z.max 1 (Z.min before (ss_nextSeq st))) by (unfold new_trim; lia).
    split; [|done]. apply set_trim_ok; [done|done|lia|done].
  - exists s, d. split_and!; try done. replace (new_trim st before) with (ss_trimBefore st) by (unfold new_trim; lia).
    rewrite insert_id; [done|]. rewrite Hst. by destruct st.
Qed.
End Reading.

Close Scope Z_scope.
