(* ===== verification/LogRecovery.v ===== *)
(** Recovery of the log store ([LogStore]): [OpenWithOptions] on a disk whose
    log files hold an abstract log, each followed by a torn record, rebuilds a
    store for that log, whatever the index files contain; and so a crash loses
    only a suffix of the unsynced records. *)
From S2P Require Import Prelude Bytes Checksum LogRecord RecordCodec SegmentIndex LogStore LogSafety.

Open Scope Z_scope.

(** ** Rebuilding the streams from index items *)

Definition add_item (m : gmap string streamState) (item : recoveredIndexEntry) : gmap string streamState :=
  add_entry m (ri_streamID item) (ri_entry item).

(** [nextSeq] after the entries of a stream. *)
Definition next_over (es : list streamIndexEntry) : Z :=
  foldl (λ n e, if n <=? ie_Seq e then u64 (ie_Seq e + 1) else n) 0 es.
Definition items_of (id : string) (items : list recoveredIndexEntry) : list streamIndexEntry :=
  ri_entry <$> filter (λ i, ri_streamID i = id) items.

Lemma items_of_snoc id items item :
  items_of id (items ++ [item]) = items_of id items ++ (if decide (ri_streamID item = id) then [ri_entry item] else []).
Proof.
  unfold items_of. rewrite filter_app, fmap_app, filter_cons, filter_nil. by case_decide.
Qed.

Lemma rebuild_lookup items id :
  foldl add_item ∅ items !! id =
  match items_of id items with
  | [] => None
  | es => Some {| ss_nextSeq := next_over es; ss_trimBefore := 0; ss_entries := es |}
  end.
Proof.
  induction items as [|item items IH] using rev_ind; [done|].
  rewrite foldl_snoc, items_of_snoc. unfold add_item at 1, add_entry. case_decide as Hid.
  - rewrite Hid, lookup_insert_eq, IH. unfold next_over.
    destruct (items_of id items) as [|e es]; [done|].
    change (e :: es) with ([e] ++ es). simpl. by rewrite foldl_snoc.
  - rewrite lookup_insert_ne, app_nil_r by done. exact IH.
Qed.

Lemma next_over_spec es :
  Forall (λ e, 0 < ie_Seq e < 2 ^ 64 - 1) es →
  Forall (λ e, ie_Seq e < next_over es) es ∧ 0 <= next_over es < 2 ^ 64 ∧
  (next_over es = 0 ∨ ∃ e, e ∈ es ∧ next_over es = ie_Seq e + 1).
Proof.
  unfold next_over. induction es as [|e es IH] using rev_ind; intros Hall.
  { split_and!; [apply Forall_nil_2|simpl; lia|simpl; lia|by left]. }
  apply Forall_app in Hall as [Hes He]. rewrite Forall_singleton in He. rewrite foldl_snoc.
  destruct (IH Hes) as (H1 & H2 & H3). clear IH. set (n := foldl _ 0 es) in *. clearbody n.
  rewrite u64_id by (unfold in_u64; lia). destruct (Z.leb_spec n (ie_Seq e)).
  - split_and!; [|lia|lia|].
    + apply Forall_app. split; [|apply Forall_singleton; lia]. eapply Forall_impl; [exact H1|]. intros x Hx. simpl in *. lia.
    + right. exists e. split; [apply elem_of_app; right; left|done].
  - split_and!; [|lia|lia|].
    + apply Forall_app. split; [done|apply Forall_singleton; lia].
    + destruct H3 as [|(x & ? & ?)]; [by left|right; exists x]. split; [apply elem_of_app; by left|done].
Qed.

Section Recovery.
Context `{ChecksumLib, IndexJSON}.

Lemma stream_entries_seq_range h active id :
  history_ok h active → Forall (λ e, 0 < ie_Seq e < 2 ^ 64 - 1) (stream_entries h id).
Proof.
  intros Hh. apply Forall_forall. intros e He. apply stream_entry_in in He as (pre & a & post & Hsplit & -> & _).
  simpl. apply (va_seq a). eapply (valid_in _ _ _ Hh). rewrite Hsplit. apply elem_of_app. right. left.
Qed.

(** Sorting a stream's entries by sequence number restores the log's order. *)
Lemma sort_stream_entries h active id es :
  history_ok h active → es ≡ₚ stream_entries h id → merge_sort seq_le es = stream_entries h id.
Proof.
  intros Hh Hp. apply (sort_by_key seq_le ie_Seq); [done| |done].
  rewrite stream_entries_seqs. apply (ho_seqs _ _ Hh).
Qed.

(** ** One segment: the scan, and the index *)

Lemma readAt_reads data : reads (readAtSegmentReader data) data.
Proof. by left. Qed.

Lemma place_cons pre a l : place pre (a :: l) = item_of pre a :: place (pre ++ [a]) l.
Proof. done. Qed.

(** The bytes of segment [id] when [l], all of it in [id], comes after [pre]. *)
Lemma seg_bytes_snoc pre a : seg_bytes (pre ++ [a]) (ap_seg a) = seg_bytes pre (ap_seg a) ++ ap_enc a.
Proof. by rewrite seg_bytes_app, seg_bytes_one, decide_True. Qed.

Definition seg_data (pre l : list appended) (id : Z) (t : bytes) : bytes :=
  seg_bytes pre id ++ concat (map ap_enc l) ++ t.

Lemma seg_data_cons pre a l t :
  seg_data pre (a :: l) (ap_seg a) t = seg_data (pre ++ [a]) l (ap_seg a) t ∧
  seg_data pre (a :: l) (ap_seg a) t = seg_bytes pre (ap_seg a) ++ ap_enc a ++ concat (map ap_enc l) ++ t.
Proof.
  unfold seg_data. rewrite seg_bytes_snoc. simpl. by rewrite <- !app_assoc.
Qed.

Lemma scan_loop_spec id t l : ∀ pre fuel streams idem,
  Forall valid l → Forall (λ a, ap_seg a = id) l → torn t → (length l < fuel)%nat →
  scan_loop fuel id (seg_data pre l id t) (length (seg_bytes pre id)) streams idem =
  Ok (length (seg_bytes (pre ++ l) id), foldl add_item streams (place pre l),
      foldl add_idempotency idem (ap_rec <$> l)).
Proof.
  induction l as [|a l IH]; intros pre fuel streams idem Hv Hid Ht Hfuel; (destruct fuel as [|fuel]; [simpl in Hfuel; lia|]).
  - unfold seg_data. cbn [map concat app scan_loop]. rewrite app_nil_r. simpl.
    by destruct (torn_read (seg_bytes pre id) t Ht) as [-> | ->].
  - apply Forall_cons in Hv as [Hva Hv]. apply Forall_cons in Hid as [<- Hid].
    destruct (seg_data_cons pre a l t) as [Hnext Hdata].
    cbn [scan_loop]. rewrite Hdata at 1.
    rewrite (valid_read a _ _ _ Hva (readAt_reads _)).
    pose proof (valid_length a Hva). pose proof (va_len a Hva).
    assert (Hlen : Z.of_nat (length (seg_bytes pre (ap_seg a)) + length (ap_enc a))
                   - Z.of_nat (length (seg_bytes pre (ap_seg a))) = Z.of_nat (length (ap_enc a))) by lia.
    cbv zeta. rewrite Hlen. destruct (Z.leb_spec (Z.of_nat (length (ap_enc a))) 0); [lia|].
    destruct (Z.ltb_spec (2 ^ 32 - 1) (Z.of_nat (length (ap_enc a)))); [lia|]. cbn [orb].
    rewrite Hnext. replace (length (seg_bytes pre (ap_seg a)) + length (ap_enc a))%nat
      with (length (seg_bytes (pre ++ [a]) (ap_seg a))) by (by rewrite seg_bytes_snoc, length_app).
    rewrite IH by (done || (simpl in Hfuel; lia)). by rewrite <- app_assoc, place_cons.
Qed.

(** What an index may say: whatever it holds, if it covers the file and every
    entry reads back, it lists exactly the segment's records. *)
Lemma hydrate_spec id t l : ∀ pre items idem idem',
  Forall valid l → Forall (λ a, ap_seg a = id) l → torn t →
  Z.of_nat (length (seg_data pre l id t)) < 2 ^ 38 →
  Forall (λ i, ie_SegmentID (ri_entry i) = id) items →
  covers (Z.of_nat (length (seg_bytes pre id))) items (Z.of_nat (length (seg_data pre l id t))) = true →
  hydrate (seg_data pre l id t) items idem = Ok idem' →
  t = [] ∧ items = place pre l ∧ idem' = foldl add_idempotency idem (ap_rec <$> l).
Proof.
  induction l as [|a l IH]; intros pre items idem idem' Hv Hid Ht Hsz Hseg Hcov Hhyd.
  - unfold seg_data in *. cbn [map concat app] in *. destruct items as [|item items]; cbn [covers hydrate] in *.
    + apply Z.eqb_eq in Hcov. rewrite length_app in Hcov. inv_ok. split_and!; [|done|done].
      destruct t; [done|simpl in Hcov; lia].
    + apply andb_true_iff in Hcov as [Hoff%Z.eqb_eq _]. apply result_bind_ok in Hhyd as (rec & Hr & _).
      exfalso. unfold readIndexedRecordFromReader in Hr. rewrite Hoff, Nat2Z.id in Hr.
      destruct (_ <? _); [done|]. by destruct (torn_read (seg_bytes pre id) t Ht) as [He|He]; rewrite He in Hr.
  - apply Forall_cons in Hv as [Hva Hv]. apply Forall_cons in Hid as [<- Hid].
    destruct (seg_data_cons pre a l t) as [Hnext Hdata].
    pose proof (valid_length a Hva) as Hmin. pose proof (va_len a Hva) as Hmax.
    assert (Hpre : length (seg_data pre (a :: l) (ap_seg a) t) =
      (length (seg_bytes pre (ap_seg a)) + length (ap_enc a) + length (concat (map ap_enc l) ++ t))%nat).
    { rewrite Hdata, !length_app. lia. }
    destruct items as [|item items]; cbn [covers hydrate] in *.
    { apply Z.eqb_eq in Hcov. lia. }
    apply andb_true_iff in Hcov as [Hoff%Z.eqb_eq Hcov]. apply result_bind_ok in Hhyd as (rec & Hr & Hhyd).
    apply Forall_cons in Hseg as [Hs Hseg].
    assert (Hitem : item = item_of pre a ∧ rec = ap_rec a).
    { unfold readIndexedRecordFromReader in Hr. rewrite Hoff, Nat2Z.id in Hr. destruct (_ <? _); [done|].
      rewrite Hdata, (valid_read a _ _ _ Hva (readAt_reads _)), ok_bind in Hr.
      case_bool_decide as Hstr; [|done]. cbn [negb orb] in Hr.
      destruct (Z.eqb_spec (Seq (ap_rec a)) (ie_Seq (ri_entry item))) as [Hsq|]; [|done]. cbn [negb orb] in Hr.
      destruct (Z.eqb_spec (Z.of_nat (length (seg_bytes pre (ap_seg a)) + length (ap_enc a)) -
        Z.of_nat (length (seg_bytes pre (ap_seg a)))) (ie_Length (ri_entry item))) as [Hlen|]; [|done].
      cbn [negb] in Hr. inv_ok. split; [|done].
      destruct item as [sid [q g o n]]. unfold item_of, entry_of. simpl in *. subst. do 2 f_equal. lia. }
    destruct Hitem as [-> ->]. rewrite Hnext in Hcov, Hhyd, Hsz.
    replace (u64 _) with (Z.of_nat (length (seg_bytes (pre ++ [a]) (ap_seg a)))) in Hcov.
    2: { rewrite seg_bytes_snoc, length_app, u64_id; simpl; [lia|].
         rewrite Hnext in Hpre. unfold in_u64. lia. }
    destruct (IH (pre ++ [a]) items _ _ Hv Hid Ht Hsz Hseg Hcov Hhyd) as (-> & -> & ->). done.
Qed.

Lemma read_index_segment b id items legacy :
  readSegmentIndex b id = Ok (items, legacy) → Forall (λ i, ie_SegmentID (ri_entry i) = id) items.
Proof.
  assert (Hent : ∀ n sc dict rest l, read_entries n id sc dict rest = Ok l → Forall (λ i, ie_SegmentID (ri_entry i) = id) l).
  { induction n as [|n IH]; cbn [read_entries]; intros sc dict rest l Hl; [inv_ok; constructor|].
    cbv zeta in Hl. destruct (_ || _); [done|]. inv_ok. constructor; [done|by eapply IH]. }
  assert (Hleg : ∀ n rest l, read_legacy n id rest = Ok l → Forall (λ i, ie_SegmentID (ri_entry i) = id) l).
  { induction n as [|n IH]; cbn [read_legacy]; intros rest l Hl; [inv_ok; constructor|].
    case_bool_decide; [inv_ok; constructor|]. case_bool_decide; [done|]. cbv zeta in Hl.
    do 2 (destruct (negb (_ =? _)); [done|]).
    destruct (Z.eqb_spec (get_be (slice (slice rest 0 legacyIndexRecordHeaderSize) 16 24)) id) as [Heq|]; [|done].
    destruct (_ || _); [done|]. case_bool_decide; [done|]. destruct (negb (_ =? _)); [done|]. inv_ok.
    constructor; [done|by eapply IH]. }
  assert (Hjs : ∀ raws eof l, check_json id raws eof = Ok l → Forall (λ i, ie_SegmentID (ri_entry i) = id) l).
  { induction raws as [|raw raws IH]; intros eof l Hl; cbn [check_json] in Hl.
    - destruct eof; [inv_ok; constructor|done].
    - destruct (str_empty _ || _); cbn [orb] in Hl; [done|].
      destruct (Z.eqb_spec (ji_SegmentID raw) id); [|done].
      cbn [negb orb] in Hl. destruct (_ || _); [done|]. inv_ok. constructor; [done|by eapply IH]. }
  unfold readSegmentIndex. case_bool_decide; [intros [= <- <-]; constructor|]. case_bool_decide; [done|].
  destruct (_ =? indexMagic).
  - case_bool_decide; [done|]. cbv zeta. destruct (_ =? indexVersion); [|destruct (_ =? legacyIndexVersion); [|done]].
    + intros Hr. inv_ok. unfold readDictionarySegmentIndex in *. cbv zeta in *.
      revert Ha. repeat (destruct (_ : bool); [done|]). intros Ha.
      apply result_bind_ok in Ha as ([rest dict] & _ & Ha). repeat (destruct (_ : bool); [done|]). by eapply Hent.
    + intros Hr. inv_ok. by eapply Hleg.
  - intros Hr. inv_ok. unfold readJSONSegmentIndex in *. destruct (decode_json_index b). by eapply Hjs.
Qed.

(** ** The log by segments *)

Lemma Permutation_eq {A} (l k : list A) : l = k → l ≡ₚ k.
Proof. by intros ->. Qed.
(** A list in the order of a key. *)
Lemma by_key {A K} `{EqDecision K} (key : A → K) (ids : list K) : ∀ l,
  NoDup ids → Forall (λ a, key a ∈ ids) l → concat (map (λ id, filter (λ a, key a = id) l) ids) ≡ₚ l.
Proof.
  induction ids as [|id ids IH]; intros l Hnd Hall; cbn [map concat].
  { destruct l as [|a l]; [done|]. apply Forall_cons in Hall as [Ha _]. by apply elem_of_nil in Ha. }
  apply NoDup_cons in Hnd as [Hni Hnd]. etransitivity; [|exact (filter_app_complement (λ a, key a = id) l)].
  apply Permutation_app; [done|]. rewrite <- (IH (filter (λ a, ¬ key a = id) l)) by (done || (apply Forall_forall; intros a [Hne Ha]%list_elem_of_filter;
    rewrite Forall_forall in Hall; specialize (Hall a Ha); by apply elem_of_cons in Hall as [?|?])).
  apply Permutation_eq. f_equal. apply map_ext_in. intros id' Hin%list_elem_of_In. rewrite list_filter_filter. apply list_filter_iff.
  intros a. split; [intros <-; split; [done|by intros <-]|tauto].
Qed.
Definition by_segment (h : list appended) (ids : list Z) : list appended := concat (map (λ id, in_seg id h) ids).
Lemma by_segments h ids : NoDup ids → Forall (λ a, ap_seg a ∈ ids) h → by_segment h ids ≡ₚ h.
Proof. apply (by_key ap_seg). Qed.
Lemma in_by_segment h ids : NoDup ids → ∀ id, id ∈ ids → in_seg id (by_segment h ids) = in_seg id h.
Proof.
  unfold by_segment. induction ids as [|x ids IH]; intros Hnd id Hid; [by apply elem_of_nil in Hid|].
  apply NoDup_cons in Hnd as [Hni Hnd]. cbn [map concat]. unfold in_seg at 1. rewrite filter_app. fold (in_seg id (in_seg x h)).
  fold (in_seg id (concat (map (λ id, in_seg id h) ids))). destruct (decide (id = x)) as [->|Hne].
  - etransitivity; [|apply app_nil_r]. f_equal; [unfold in_seg; by rewrite list_filter_filter_l|].
    apply elem_of_nil_inv. intros a [Ha (l & Hl & Hin)%list_elem_of_In%in_concat]%list_elem_of_filter.
    apply in_map_iff in Hl as (y & <- & Hy%list_elem_of_In). apply list_elem_of_In, list_elem_of_filter in Hin as [Hin _]. congruence.
  - rewrite (IH Hnd id) by (by apply elem_of_cons in Hid as [?|?]). replace (in_seg id (in_seg x h)) with (@nil appended); [done|].
    symmetry. apply elem_of_nil_inv. intros a [Ha [Hb _]%list_elem_of_filter]%list_elem_of_filter. congruence.
Qed.
(** The index depends on the order within the segments only. *)
Lemma place_segment id h : ∀ pre,
  filter (λ i, ie_SegmentID (ri_entry i) = id) (place pre h) = place (in_seg id pre) (in_seg id h).
Proof.
  induction h as [|a h IH]; intros pre; [done|]. cbn [place]. rewrite filter_cons, IH.
  change (ie_SegmentID (ri_entry (item_of pre a))) with (ap_seg a).
  assert (in_seg id (a :: h) = in_seg id [a] ++ in_seg id h) as -> by (unfold in_seg; by rewrite <- filter_app).
  assert (in_seg id (pre ++ [a]) = in_seg id pre ++ in_seg id [a]) as -> by (unfold in_seg; by rewrite filter_app).
  assert (in_seg id [a] = if decide (ap_seg a = id) then [a] else []) as -> by (unfold in_seg; by rewrite filter_cons, filter_nil).
  case_decide as Ha; [|by rewrite app_nil_r]. cbn [place app]. f_equal.
  unfold item_of, entry_of. do 2 f_equal. rewrite Ha. unfold seg_bytes, in_seg. by rewrite list_filter_filter_l.
Qed.
Lemma placed_by_segment h ids : NoDup ids → Forall (λ a, ap_seg a ∈ ids) h → placed (by_segment h ids) ≡ₚ placed h.
Proof.
  intros Hnd Hall. assert (Hseg : ∀ h', Forall (λ a, ap_seg a ∈ ids) h' → Forall (λ i, ie_SegmentID (ri_entry i) ∈ ids) (placed h')).
  { intros h' Hh'. eapply Forall2_Forall_l; [apply placed_stands|]. eapply Forall_impl; [exact Hh'|].
    intros a Ha i (pre & post & _ & ->). exact Ha. }
  rewrite <- (by_key (λ i, ie_SegmentID (ri_entry i)) ids (placed h)) by auto.
  rewrite <- (by_key (λ i, ie_SegmentID (ri_entry i)) ids (placed (by_segment h ids))).
  - apply Permutation_eq. f_equal. apply map_ext_in. intros id Hid%list_elem_of_In. unfold placed. rewrite !place_segment.
    by rewrite in_by_segment.
  - done.
  - apply Hseg. by rewrite by_segments.
Qed.

Lemma segment_ids_spec {A} (files : gmap Z A) :
  StronglySorted Z.lt (segment_ids files) ∧ ∀ id, id ∈ segment_ids files ↔ is_Some (files !! id).
Proof.
  unfold segment_ids. split.
  - assert (Hnd : NoDup (merge_sort Z.le (elements (dom files)))).
    { rewrite merge_sort_Permutation. apply NoDup_elements. }
    assert (Hs : StronglySorted Z.le (merge_sort Z.le (elements (dom files)))).
    { apply (StronglySorted_merge_sort Z.le). }
    induction Hs as [|x l _ IH Hx]; [constructor|]. apply NoDup_cons in Hnd as [Hni Hnd].
    constructor; [by apply IH|]. apply Forall_forall. intros y Hy. rewrite Forall_forall in Hx. specialize (Hx y Hy).
    assert (x ≠ y) by congruence. lia.
  - intros id. rewrite merge_sort_Permutation, elem_of_elements. apply elem_of_dom.
Qed.

(** ** The scan of all segments *)

(** The streams and the idempotency table of a log. *)
Definition streams_of (h : list appended) : gmap string streamState := foldl add_item ∅ (placed h).
Definition idem_of (h : list appended) : gmap string record := foldl add_idempotency ∅ (ap_rec <$> h).

Lemma streams_of_app h l : streams_of (h ++ l) = foldl add_item (streams_of h) (place h l).
Proof. unfold streams_of, placed. by rewrite place_app, foldl_app. Qed.
Lemma idem_of_app h l : idem_of (h ++ l) = foldl add_idempotency (idem_of h) (ap_rec <$> l).
Proof. unfold idem_of. by rewrite fmap_app, foldl_app. Qed.

Lemma placed_app h l : placed (h ++ l) = placed h ++ place h l.
Proof. apply place_app. Qed.

(** The log file of a segment after the scan has cut its tail. *)
Definition cut (h : list appended) (id : Z) (f : file) : file :=
  {| f_data := seg_bytes h id; f_synced := Nat.min (length (seg_bytes h id)) (f_synced f) |}.

Definition holds_seg (h : list appended) (tail : Z → bytes) (d : Disk) (id : Z) : Prop :=
  ∃ f, dk_log d !! id = Some f ∧ f_data f = seg_bytes h id ++ tail id.

Lemma in_seg_data h pre id t :
  in_seg id pre = [] → seg_bytes h id ++ t = seg_data pre (in_seg id h) id t ∧ seg_bytes pre id = [].
Proof.
  intros Hn. assert (Hb : seg_bytes pre id = []) by (unfold seg_bytes; by rewrite Hn).
  unfold seg_data. by rewrite Hb.
Qed.

Lemma in_seg_valid h active id : history_ok h active → Forall valid (in_seg id h) ∧ Forall (λ a, ap_seg a = id) (in_seg id h).
Proof.
  intros Hh. split; apply Forall_forall; intros a [Ha Hin]%list_elem_of_filter; [|done].
  by apply (valid_in h active).
Qed.

Lemma recoverSegment_spec h active tail pre s d id :
  history_ok h active → (∀ id, torn (tail id)) → holds_seg h tail d id → in_seg id pre = [] →
  st_streams s = streams_of pre → st_idempotency s = idem_of pre →
  recoverSegment s d id = Ok
    (with_idempotency (with_streams s (streams_of (pre ++ in_seg id h))) (idem_of (pre ++ in_seg id h)),
     with_log d id (cut h id (log_file d id)), Z.of_nat (length (seg_bytes h id))).
Proof.
  intros Hh Ht (f & Hf & Hd) Hpre Hs Hi. unfold recoverSegment. rewrite (log_file_some _ _ _ Hf), Hd.
  destruct (in_seg_data h pre id (tail id) Hpre) as [Hsd Hnil]. destruct (in_seg_valid h active id Hh) as [Hv Hid].
  rewrite Hsd at 2. pose proof (scan_loop_spec id (tail id) (in_seg id h) pre (S (length (seg_bytes h id ++ tail id)))
    (st_streams s) (st_idempotency s) Hv Hid (Ht id)) as Hscan.
  rewrite Hnil in Hscan. cbn [length] in Hscan. rewrite Hscan.
  2: { pose proof (in_seg_count h active id Hh). rewrite length_app. lia. }
  rewrite ok_bind, Hs, Hi, <- streams_of_app, <- idem_of_app.
  assert (Hlen : seg_bytes (pre ++ in_seg id h) id = seg_bytes h id).
  { rewrite seg_bytes_app, Hnil. unfold seg_bytes, in_seg. by rewrite list_filter_filter_l. }
  rewrite Hlen, take_app_length. done.
Qed.

Lemma in_seg_other h id id' : id ≠ id' → in_seg id' (in_seg id h) = [].
Proof.
  intros Hne. apply elem_of_nil_inv. intros a [Ha [Hb _]%list_elem_of_filter]%list_elem_of_filter. congruence.
Qed.

Lemma recover_segments_spec h active tail ids : ∀ pre s d,
  history_ok h active → (∀ id, torn (tail id)) → StronglySorted Z.lt ids →
  (∀ id, id ∈ ids → holds_seg h tail d id ∧ in_seg id pre = []) →
  st_streams s = streams_of pre → st_idempotency s = idem_of pre →
  ∃ s' d', recover_segments s d ids = Ok (s', d') ∧
    st_streams s' = streams_of (pre ++ concat (map (λ id, in_seg id h) ids)) ∧
    st_idempotency s' = idem_of (pre ++ concat (map (λ id, in_seg id h) ids)) ∧
    st_options s' = st_options s ∧ st_activeSegmentID s' = default (st_activeSegmentID s) (last ids) ∧
    dk_index d' = dk_index d ∧ dk_retention d' = dk_retention d ∧ dk_manifest d' = dk_manifest d ∧
    ∀ id, dk_log d' !! id = if decide (id ∈ ids) then cut h id <$> dk_log d !! id else dk_log d !! id.
Proof.
  induction ids as [|id ids IH]; intros pre s d Hh Ht Hids Hall Hs Hi; cbn [recover_segments map concat].
  { rewrite !app_nil_r. exists s, d. split_and!; done. }
  apply StronglySorted_inv in Hids as [Hids Hlt]. rewrite Forall_forall in Hlt.
  destruct (Hall id) as [Hseg Hpre]; [left|].
  rewrite (recoverSegment_spec h active tail pre s d id Hh Ht Hseg Hpre Hs Hi), ok_bind.
  destruct Hseg as (f & Hf & Hd). rewrite (log_file_some _ _ _ Hf).
  destruct (IH (pre ++ in_seg id h)
    (with_active (with_idempotency (with_streams s (streams_of (pre ++ in_seg id h))) (idem_of (pre ++ in_seg id h)))
       (st_open s) id (Z.of_nat (length (seg_bytes h id)))) (with_log d id (cut h id f)))
    as (s' & d' & Hrec & Hs' & Hi' & Ho & Hact & Hix & Hret & Hman & Hlog); try done.
  { intros id' Hin. assert (Hne : id ≠ id') by (specialize (Hlt id' Hin); lia).
    destruct (Hall id') as [(f' & Hf' & Hd') Hpre']; [by right|]. split.
    - exists f'. split; [|done]. simpl. by rewrite lookup_insert_ne.
    - unfold in_seg at 1. rewrite filter_app. fold (in_seg id' pre) (in_seg id' (in_seg id h)).
      by rewrite Hpre', in_seg_other. }
  exists s', d'. rewrite app_assoc. split_and!; try done.
  - rewrite Hact. rewrite last_cons. by destruct (last ids).
  - intros id'. rewrite Hlog. simpl. destruct (decide (id' = id)) as [->|Hne].
    + rewrite decide_False by (intros Hin; specialize (Hlt id Hin); lia).
      rewrite decide_True by left. by rewrite lookup_insert_eq, Hf.
    + rewrite lookup_insert_ne by done. destruct (decide (id' ∈ ids)).
      * rewrite decide_True by by right. done.
      * rewrite decide_False; [done|]. intros [?|?]%elem_of_cons; done.
Qed.

(** ** The indexes of all segments *)

Lemma read_indexes_spec d ids bs legacy :
  read_indexes d ids = Some (bs, legacy) →
  bs.*1 = ids ∧ Forall (λ p : Z * list recoveredIndexEntry, Forall (λ i, ie_SegmentID (ri_entry i) = p.1) p.2) bs.
Proof.
  revert bs legacy. induction ids as [|id ids IH]; intros bs legacy; cbn [read_indexes].
  { intros [= <- <-]. by split. }
  destruct (dk_index d !! id) as [b|]; [|done]. destruct (readSegmentIndex b id) as [[items l]|] eqn:Hr; [|done].
  destruct (read_indexes d ids) as [[rest l']|]; [|done]. intros [= <- <-].
  destruct (IH rest l' eq_refl) as [H1 H2]. split; [simpl; by f_equal|]. constructor; [|done].
  by eapply read_index_segment.
Qed.

Definition hydrate_step (d : Disk) (idem : result log_error (gmap string record))
    (p : Z * list recoveredIndexEntry) : result log_error (gmap string record) :=
  m ← idem; hydrate (f_data (log_file d p.1)) (sort_by_offset p.2) m.
Definition covered (d : Disk) (p : Z * list recoveredIndexEntry) : bool :=
  covers 0 (sort_by_offset p.2) (Z.of_nat (length (f_data (log_file d p.1)))).

Lemma hydrate_err d bs e : foldl (hydrate_step d) (Err e) bs = Err e.
Proof. by induction bs. Qed.

Lemma indexes_spec h active tail d bs : ∀ pre idem,
  history_ok h active → (∀ id, torn (tail id)) → (∀ id, Z.of_nat (length (seg_bytes h id ++ tail id)) < 2 ^ 38) →
  StronglySorted Z.lt bs.*1 → (∀ id, id ∈ bs.*1 → holds_seg h tail d id ∧ in_seg id pre = []) →
  Forall (λ p : Z * list recoveredIndexEntry, Forall (λ i, ie_SegmentID (ri_entry i) = p.1) p.2) bs →
  forallb (covered d) bs = true → foldl (hydrate_step d) (Ok (idem_of pre)) bs = Ok idem →
  (∀ id, id ∈ bs.*1 → tail id = []) ∧
  idem = idem_of (pre ++ concat (map (λ id, in_seg id h) bs.*1)) ∧
  placed pre ++ concat bs.*2 ≡ₚ placed (pre ++ concat (map (λ id, in_seg id h) bs.*1)).
Proof.
  induction bs as [|[id items] bs IH]; intros pre idem Hh Ht Hsz Hids Hall Hseg Hcov Hhyd.
  { simpl in *. inv_ok. rewrite !app_nil_r. split_and!; [|done|done]. intros id Hin. by apply elem_of_nil in Hin. }
  rewrite fmap_cons in Hids. apply StronglySorted_inv in Hids as [Hids Hlt]. rewrite Forall_forall in Hlt. simpl in Hlt.
  apply Forall_cons in Hseg as [Hitems Hseg]. simpl in Hitems.
  cbn [forallb] in Hcov. apply andb_true_iff in Hcov as [Hc Hcov].
  destruct (Hall id) as [(f & Hf & Hd) Hpre]; [left|].
  destruct (in_seg_data h pre id (tail id) Hpre) as [Hsd Hnil]. destruct (in_seg_valid h active id Hh) as [Hv Hid].
  cbn [foldl] in Hhyd. unfold hydrate_step at 2 in Hhyd. unfold covered in Hc. cbn [fst snd] in Hc, Hhyd.
  rewrite (log_file_some _ _ _ Hf), Hd, Hsd in Hc, Hhyd. rewrite ok_bind in Hhyd.
  destruct (hydrate _ _ (idem_of pre)) as [idem1|e] eqn:Hh1; [|by rewrite hydrate_err in Hhyd].
  destruct (hydrate_spec id (tail id) (in_seg id h) pre (sort_by_offset items) (idem_of pre) idem1) as (Htail & Hit & Hid1);
    [done|done|by apply Ht|rewrite <- Hsd; apply Hsz| |by rewrite Hnil|done|].
  { unfold sort_by_offset. by rewrite merge_sort_Permutation. }
  subst idem1. rewrite <- idem_of_app in Hhyd.
  destruct (IH (pre ++ in_seg id h) idem Hh Ht Hsz Hids) as (H1 & H2 & H3); try done.
  { intros id' Hin. specialize (Hlt id' Hin). destruct (Hall id') as [? Hpre']; [by right|]. split; [done|].
    unfold in_seg at 1. rewrite filter_app. fold (in_seg id' pre) (in_seg id' (in_seg id h)).
    rewrite Hpre', in_seg_other; [done|lia]. }
  split_and!.
  - intros id' [->|Hin]%elem_of_cons; [done|by apply H1].
  - rewrite H2. simpl. by rewrite <- app_assoc.
  - transitivity (placed (pre ++ in_seg id h) ++ concat bs.*2).
    + rewrite (placed_app pre (in_seg id h)), <- app_assoc, <- Hit. simpl.
      unfold sort_by_offset. by rewrite merge_sort_Permutation.
    + rewrite H3. simpl. by rewrite <- app_assoc.
Qed.

(** ** The recovered tables *)

Lemma history_prefix h1 h2 active : history_ok (h1 ++ h2) active → history_ok h1 active.
Proof.
  intros [Hv Hr Ha Hq Hk Hz]. split.
  - by apply Forall_app in Hv as [? _].
  - by apply Forall_app in Hr as [? _].
  - done.
  - intros id. specialize (Hq id). unfold seqs, of_stream in Hq. rewrite filter_app, fmap_app in Hq.
    by apply StronglySorted_app_1_l in Hq.
  - unfold keyed in Hk. rewrite filter_app, fmap_app in Hk. by apply NoDup_app in Hk as [? _].
  - intros id. specialize (Hz id). rewrite seg_bytes_app, length_app in Hz. lia.
Qed.

Lemma idem_of_keys h : NoDup (keyed h) → idem_ok h (idem_of h).
Proof.
  induction h as [|a h IH] using rev_ind; intros Hh.
  { intros k r. unfold idem_of. simpl. rewrite lookup_empty. split; [done|]. intros (a & Ha & _). by apply elem_of_nil in Ha. }
  unfold keyed in Hh. rewrite filter_app, fmap_app in Hh. apply NoDup_app in Hh as (Hh & Hnew & _). specialize (IH Hh).
  rewrite idem_of_app. apply idem_snoc; [done|]. intros Hk.
  destruct (idem_of h !! rec_key (ap_rec a)) as [r|] eqn:Hl; [|done]. exfalso.
  apply IH in Hl as (b & Hb & Hkb & Heq & _). apply (Hnew (rec_key (ap_rec a))).
  - apply list_elem_of_fmap. exists b. split; [done|]. by apply list_elem_of_filter.
  - rewrite filter_cons, decide_True by done. left.
Qed.
Lemma idem_of_perm g h active : history_ok h active → g ≡ₚ h → idem_ok h (idem_of g).
Proof.
  intros Hh Hp. assert (Hg : idem_ok g (idem_of g)).
  { apply idem_of_keys. unfold keyed. rewrite Hp. apply (ho_keys _ _ Hh). }
  intros k r. rewrite (Hg k r). split; intros (a & Ha & ?); exists a; (split; [|done]); by rewrite Hp in *.
Qed.

Lemma next_over_last es es' :
  es ≡ₚ es' → StronglySorted Z.lt (ie_Seq <$> es') → Forall (λ e, 0 < ie_Seq e < 2 ^ 64 - 1) es' →
  next_over es = last_next es' ∧ 0 <= next_over es < 2 ^ 64 ∧ Forall (λ e, ie_Seq e < next_over es) es'.
Proof.
  intros Hp Hs Hr. destruct (next_over_spec es) as (H1 & H2 & H3); [by rewrite Hp|]. rewrite Hp in H1.
  split_and!; [|lia|lia|done]. unfold last_next. destruct (last es') as [e|] eqn:Hl.
  - rewrite last_lookup in Hl. pose proof (list_elem_of_lookup_2 _ _ _ Hl) as He.
    rewrite Forall_forall in H1, Hr. pose proof (H1 e He) as Hlt. simpl in Hlt.
    destruct H3 as [Hz|(x & Hx & Hn)]; [specialize (Hr e He); simpl in Hr; lia|].
    rewrite Hp in Hx. apply list_elem_of_lookup in Hx as [j Hj]. rewrite Hn in *.
    destruct (decide (j = Init.Nat.pred (length es'))) as [->|Hne]; [by simplify_eq|].
    pose proof (lookup_lt_Some _ _ _ Hj). exfalso.
    assert (Hc : ∀ k z, es' !! k = Some z → (ie_Seq <$> es') !! k = Some (ie_Seq z)) by (intros k z Hk; by rewrite list_lookup_fmap, Hk).
    pose proof (sorted_lookup_lt Z.lt _ j _ _ _ Hs (Hc _ _ Hj) (Hc _ _ Hl) ltac:(lia)). lia.
  - apply last_None in Hl. subst es'. destruct H3 as [->|(x & Hx & _)]; [done|].
    rewrite Hp in Hx. by apply elem_of_nil in Hx.
Qed.

Lemma sorted_streams_ok h active items id :
  history_ok h active → items ≡ₚ placed h →
  stream_ok h id (sortStreamEntries (foldl add_item ∅ items) !! id) ∧
  ∀ st, sortStreamEntries (foldl add_item ∅ items) !! id = Some st → ss_trimBefore st = 0.
Proof.
  intros Hh Hp. assert (Hes : items_of id items ≡ₚ stream_entries h id).
  { unfold items_of, stream_entries. by rewrite Hp. }
  unfold sortStreamEntries. rewrite lookup_fmap, rebuild_lookup.
  pose proof (sort_stream_entries h active id _ Hh Hes) as Hsort.
  destruct (items_of id items) as [|e es] eqn:Hi; simpl.
  - split; [|done]. by apply Permutation_nil.
  - split; [|by intros st [= <-]].
    destruct (next_over_last (e :: es) (stream_entries h id) Hes) as (H1 & H2 & H3).
    + rewrite stream_entries_seqs. apply (ho_seqs _ _ Hh).
    + by eapply stream_entries_seq_range.
    + rewrite Hsort. split_and!; try done; simpl; [|lia]. rewrite <- H1. lia.
Qed.

(** ** [recover] *)

Lemma torn_length t : torn t → Z.of_nat (length t) < 2 ^ 32.
Proof.
  intros [->|(a & k & Hv & Hk & ->)]; [simpl; lia|]. pose proof (va_len a Hv). rewrite length_take. lia.
Qed.

Record same_but_index (d d' : Disk) : Prop := {
  sb_log : dk_log d' = dk_log d; sb_ret : dk_retention d' = dk_retention d; sb_manifest : dk_manifest d' = dk_manifest d
}.
Lemma write_indexes_ok h active s ids : ∀ d,
  history_ok h active → (∀ id, stream_ok h id (st_streams s !! id)) →
  ∃ d', write_indexes s d ids = Ok d' ∧ same_but_index d d' ∧
    ∀ id, is_Some (dk_index d' !! id) ↔ id ∈ ids ∨ is_Some (dk_index d !! id).
Proof.
  induction ids as [|id ids IH]; intros d Hh Hs; cbn [write_indexes].
  { exists d. split_and!; try done. intros id. split; [by right|]. by intros [?%elem_of_nil|?]. }
  destruct (write_index_ok h active id (segmentIndexEntriesLocked s id) Hh) as [b ->].
  { intros item. by apply index_entries_items. }
  rewrite ok_bind. destruct (IH (with_index d id b) Hh Hs) as (d' & -> & [] & Hi). exists d'. split_and!; [done|done|].
  intros x. rewrite Hi. simpl. rewrite elem_of_cons. destruct (decide (x = id)) as [->|Hne].
  - rewrite lookup_insert_eq. naive_solver.
  - rewrite lookup_insert_ne by done. naive_solver.
Qed.

Lemma rewriteIndex_ok h active s d :
  history_ok h active → (∀ id, stream_ok h id (st_streams s !! id)) →
  ∃ d', rewriteIndex s d = Ok d' ∧ same_but_index d d' ∧
    (∀ id, is_Some (dk_log d !! id) → is_Some (dk_index d' !! id)) ∧
    (∀ id, dk_log d !! id = None → dk_log d ≠ ∅ → dk_index d' !! id = None).
Proof.
  intros Hh Hs. unfold rewriteIndex. cbv zeta. destruct (segment_ids_spec (dk_log d)) as [_ Hids]. simpl.
  match goal with |- context [write_indexes s ?d0 ?ids] =>
    destruct (write_indexes_ok h active s ids d0 Hh Hs) as (d' & -> & [] & Hi) end.
  exists d'. split_and!; [done|done| |]; intros id.
  - intros Hid. rewrite Hi. left. apply Hids in Hid. destruct (segment_ids (dk_log d)); [by apply elem_of_nil in Hid|done].
  - intros Hnone Hne. destruct (dk_index d' !! id) as [b|] eqn:Hb; [|done]. exfalso.
    destruct (proj1 (Hi id) ltac:(by rewrite Hb)) as [Hid|Hid]; [|simpl in Hid; rewrite lookup_empty in Hid; by destruct Hid].
    destruct (segment_ids (dk_log d)) as [|x l] eqn:Hseg; [|apply Hids in Hid; rewrite Hnone in Hid; by destruct Hid].
    apply Hne, map_empty. intros y. apply eq_None_not_Some. intros Hy%Hids. by apply elem_of_nil in Hy.
Qed.
Lemma settled_rewritten d0 d1 active :
  dk_manifest d1 = dk_manifest d0 → dk_log d1 = dk_log d0 → (∀ id, is_Some (dk_log d0 !! id) → is_Some (dk_index d1 !! id)) →
  (∀ id, dk_log d0 !! id = None → dk_index d1 !! id = None) → settled d0 active → settled d1 active.
Proof.
  intros Em El Hs Hn Hset m Hm. rewrite Em in Hm. destruct (Hset m Hm) as [Hd Hc]. rewrite El. split.
  - intros id Hid. destruct (Hd id Hid) as (? & ? & _). split_and!; auto.
  - intros c Hcc. destruct (Hc c Hcc) as ((? & ? & _) & ? & ? & _). split_and!; auto.
Qed.

(** What [recover] establishes. *)
Record recovered (opts : Options) (h : list appended) (active : Z) (d : Disk) (s' : Store) (d' : Disk) : Prop := {
  rc_streams : ∀ id, stream_ok h id (st_streams s' !! id);
  rc_trims : ∀ id st, st_streams s' !! id = Some st → ss_trimBefore st = 0;
  rc_idem : idem_ok h (st_idempotency s');
  rc_options : st_options s' = opts;
  rc_active : st_activeSegmentID s' = active;
  rc_logs : logs_hold d' h active no_tail;
  rc_ret : dk_retention d' = dk_retention d;
  rc_sync : synced_before d active → synced_before d' active;
  rc_durable : ∀ h1, h1 `prefix_of` h → synced_log d h1 active → synced_log d' h1 active;
  rc_settled : settled d active → settled d' active
}.

Lemma log_ids d h active tail :
  logs_hold d h active tail →
  (∀ id, id ∈ segment_ids (dk_log d) → 1 <= id <= active) ∧ active ∈ segment_ids (dk_log d) ∧
  Forall (λ a, ap_seg a ∈ segment_ids (dk_log d)) h.
Proof.
  intros Hl. destruct (segment_ids_spec (dk_log d)) as [_ Hin]. split_and!.
  - intros id [f Hf]%Hin. specialize (Hl id). rewrite Hf in Hl. by destruct Hl.
  - apply Hin. specialize (Hl active). destruct (dk_log d !! active); [by eexists|by destruct Hl].
  - apply Forall_forall. intros a Ha. apply Hin. specialize (Hl (ap_seg a)).
    destruct (dk_log d !! ap_seg a); [by eexists|]. destruct Hl as [Hn _]. by destruct (in_its_segment h a Ha).
Qed.

Lemma last_segment (ids : list Z) active :
  StronglySorted Z.lt ids → (∀ id, id ∈ ids → 1 <= id <= active) → active ∈ ids → last ids = Some active.
Proof.
  intros Hs Hin Hact. apply list_elem_of_lookup in Hact as [i Hi].
  destruct (last ids) as [x|] eqn:Hl; [|apply last_None in Hl; by subst].
  rewrite last_lookup in Hl. destruct (decide (i = Init.Nat.pred (length ids))) as [->|Hne]; [congruence|].
  pose proof (lookup_lt_Some _ _ _ Hi). pose proof (sorted_lookup_lt Z.lt _ i _ _ _ Hs Hi Hl ltac:(lia)).
  apply list_elem_of_lookup_2, Hin in Hl. lia.
Qed.

Lemma load_unfold s d ids :
  loadFromIndexFiles s d ids =
  match read_indexes d ids with
  | None => None
  | Some (bs, legacy) =>
      if forallb (covered d) bs then
        match foldl (hydrate_step d) (Ok (st_idempotency s)) bs with
        | Err _ => None
        | Ok idem =>
            let lastID := default 0 (last ids) in
            Some (with_active (with_idempotency (with_streams s
                    (sortStreamEntries (foldl add_item (st_streams s) (concat bs.*2)))) idem) (st_open s)
                    lastID (Z.of_nat (length (f_data (log_file d lastID)))), legacy)
        end
      else None
  end.
Proof.
  unfold loadFromIndexFiles. destruct (read_indexes d ids) as [[bs legacy]|]; [|done]. cbn [mbind option_bind].
  assert (H1 : ∀ m, foldl (λ m '(_, items), foldl (λ m item, add_entry m (ri_streamID item) (ri_entry item)) m items) m bs
    = foldl add_item m (concat bs.*2)).
  { induction bs as [|[id items] bs IH]; intros m; [done|]. cbn [foldl fmap list_fmap concat snd].
    rewrite IH. simpl. by rewrite foldl_app. }
  assert (H2 : forallb (λ '(id, items), covers 0 (sort_by_offset items) (Z.of_nat (length (f_data (log_file d id))))) bs
    = forallb (covered d) bs).
  { clear H1. induction bs as [|[id items] bs IH]; [done|]. cbn [forallb]. by rewrite IH. }
  assert (H3 : ∀ r, foldl (λ idem '(id, items), m ← idem; hydrate (f_data (log_file d id)) (sort_by_offset items) m) r bs
    = foldl (hydrate_step d) r bs).
  { clear H1 H2. induction bs as [|[id items] bs IH]; intros r; [done|]. cbn [foldl]. by rewrite IH. }
  by rewrite H1, H2, H3.
Qed.

(** The setting of a recovery: log files that hold [h], each with a torn tail. *)
Record on_disk (h : list appended) (active : Z) (tail : Z → bytes) (d : Disk) : Prop := {
  od_history : history_ok h active;
  od_logs : logs_hold d h active tail;
  od_torn : ∀ id, torn (tail id)
}.

Lemma on_disk_ids h active tail d :
  on_disk h active tail d →
  let ids := segment_ids (dk_log d) in
  StronglySorted Z.lt ids ∧ (∀ id, id ∈ ids → holds_seg h tail d id) ∧ last ids = Some active ∧
  by_segment h ids ≡ₚ h ∧ placed (by_segment h ids) ≡ₚ placed h.
Proof.
  intros [Hh Hl Ht]. destruct (segment_ids_spec (dk_log d)) as [Hs Hin]. destruct (log_ids d h active tail Hl) as (Hids & Hact & Hall).
  assert (Hnd : NoDup (segment_ids (dk_log d))) by (unfold segment_ids; rewrite merge_sort_Permutation; apply NoDup_elements).
  cbv zeta. split_and!; [done| | | |].
  - intros id [f Hf]%Hin. exists f. specialize (Hl id). rewrite Hf in Hl. by destruct Hl as (_ & ? & _).
  - by apply last_segment.
  - by apply by_segments.
  - by apply placed_by_segment.
Qed.

(** An accepted set of indexes restores the log. *)
Lemma load_restores opts h active tail d s legacy :
  on_disk h active tail d →
  loadFromIndexFiles (fresh_store opts) d (segment_ids (dk_log d)) = Some (s, legacy) →
  recovered opts h active d s d.
Proof.
  intros Hod. pose proof Hod as [Hh Hl Ht]. destruct (on_disk_ids _ _ _ _ Hod) as (Hs & Hseg & Hlast & Hcat & Hplaced).
  rewrite load_unfold. destruct (read_indexes d _) as [[bs lg]|] eqn:Hr; [|done].
  destruct (read_indexes_spec _ _ _ _ Hr) as [Hfst Hids].
  destruct (forallb _ bs) eqn:Hcov; [|done]. destruct (foldl _ _ bs) as [idem|] eqn:Hhyd; [|done].
  intros [= <- <-].
  destruct (indexes_spec h active tail d bs [] idem Hh Ht) as (Htail & Hidem & Hperm); try done.
  { intros id. rewrite length_app. pose proof (ho_size _ _ Hh id). pose proof (torn_length _ (Ht id)). lia. }
  { by rewrite Hfst. }
  { rewrite Hfst. intros id Hin. split; [by apply Hseg|done]. }
  rewrite Hfst in Htail, Hidem, Hperm. simpl in Hidem, Hperm. fold (by_segment h (segment_ids (dk_log d))) in Hidem, Hperm. rewrite Hplaced in Hperm.
  split; simpl; try done.
  - intros id. by apply (sorted_streams_ok h active).
  - intros id. by apply (sorted_streams_ok h active).
  - rewrite Hidem. by apply (idem_of_perm _ h active).
  - by rewrite Hlast.
  - intros id. specialize (Hl id). destruct (dk_log d !! id) as [f|] eqn:Hf; [|done].
    destruct Hl as (Hr1 & Hd & Hsy). split; [done|]. split; [|done]. rewrite Hd, Htail; [done|].
    apply (segment_ids_spec (dk_log d)). by exists f.
Qed.

(** So does the scan. *)
Lemma scan_restores opts h active tail d :
  on_disk h active tail d →
  ∃ s d', recover_segments (with_idempotency (with_streams (fresh_store opts) ∅) ∅) d (segment_ids (dk_log d)) = Ok (s, d') ∧
    recovered opts h active d (with_streams s (sortStreamEntries (st_streams s))) d'.
Proof.
  intros Hod. pose proof Hod as [Hh Hl Ht]. destruct (on_disk_ids _ _ _ _ Hod) as (Hs & Hseg & Hlast & Hcat & Hplaced).
  destruct (recover_segments_spec h active tail (segment_ids (dk_log d)) []
    (with_idempotency (with_streams (fresh_store opts) ∅) ∅) d Hh Ht Hs)
    as (s & d' & Hrec & Hst & Hid & Ho & Hact & Hix & Hret & Hman & Hlog); try done.
  { intros id Hin. split; [by apply Hseg|done]. }
  exists s, d'. split; [done|]. simpl in Hst, Hid. fold (by_segment h (segment_ids (dk_log d))) in Hst, Hid.
  assert (Hdom : ∀ id, is_Some (dk_log d' !! id) ↔ is_Some (dk_log d !! id)).
  { intros id. rewrite Hlog. case_decide; [|done]. by rewrite fmap_is_Some. }
  split; simpl.
  - intros id. rewrite Hst. by apply (sorted_streams_ok h active).
  - intros id. rewrite Hst. by apply (sorted_streams_ok h active).
  - rewrite Hid. by apply (idem_of_perm _ h active).
  - done.
  - by rewrite Hact, Hlast.
  - intros id. rewrite Hlog. destruct (segment_ids_spec (dk_log d)) as [_ Hin]. specialize (Hin id). specialize (Hl id).
    case_decide as Hd; destruct (dk_log d !! id) as [f|]; simpl; try done.
    + destruct Hl as (? & ? & ?). unfold no_tail. rewrite app_nil_r. split_and!; try done; lia.
    + destruct Hd. apply Hin. by eexists.
  - done.
  - intros Hsy id f. rewrite Hlog. specialize (Hl id). case_decide; [|by apply Hsy].
    destruct (dk_log d !! id) as [g|] eqn:Hg; [|done]. intros [= <-] Hlt. simpl.
    rewrite (Hsy id g Hg Hlt). destruct Hl as (_ & -> & _). rewrite length_app. lia.
  - intros h1 [h2 ->] Hsy f. rewrite Hlog. case_decide; [|apply Hsy]. destruct (dk_log d !! active) as [g|] eqn:Hg; [|done].
    intros [= <-]. specialize (Hsy g Hg). simpl. rewrite seg_bytes_app, length_app. lia.
  - apply settled_keeps; [|done]. split; [done|done|intros id; by rewrite Hdom|by rewrite Hix| |by rewrite Hix].
    intros id _ Hn. apply eq_None_not_Some. rewrite Hdom, Hn. by intros [? ?].
Qed.

Lemma rewrite_recovered opts h active d s d0 d1 :
  recovered opts h active d s d0 → same_but_index d0 d1 → (∀ id, is_Some (dk_log d0 !! id) → is_Some (dk_index d1 !! id)) →
  (∀ id, dk_log d0 !! id = None → dk_log d0 ≠ ∅ → dk_index d1 !! id = None) →
  recovered opts h active d s d1.
Proof.
  intros [H1 H2 H3 H4 H5 H6 H7 H8 H9 H10] [Hl Hr Hm] Hs Hn. split; try done; [|by rewrite Hr| | |].
  - intros id. rewrite Hl. apply H6.
  - intros Hsy id f. rewrite Hl. by apply H8.
  - intros h1 Hp Hsy f. rewrite Hl. by apply H9.
  - intros Hset. eapply settled_rewritten; [done|done|done| |by apply H10]. intros id Hid. apply Hn; [done|].
    intros He. specialize (H6 active). rewrite He, lookup_empty in H6. by destruct H6.
Qed.

Lemma recover_ok opts h active tail d :
  on_disk h active tail d →
  ∃ s' d', recover (fresh_store opts) d = Ok (s', d') ∧ recovered opts h active d s' d'.
Proof.
  intros Hod. pose proof (od_history _ _ _ _ Hod) as Hh. destruct (on_disk_ids _ _ _ _ Hod) as (_ & _ & Hlast & _ & _).
  unfold recover. rewrite bool_decide_false by (intros He; by rewrite He in Hlast).
  destruct (loadFromIndexFiles _ d _) as [[s legacy]|] eqn:Hload.
  - pose proof (load_restores opts h active tail d s legacy Hod Hload) as Hrec. destruct legacy; [|by exists s, d].
    destruct (rewriteIndex_ok h active s d Hh (rc_streams _ _ _ _ _ _ Hrec)) as (d' & -> & Hl & Hr & Hr').
    exists s, d'. split; [done|]. by eapply rewrite_recovered.
  - destruct (scan_restores opts h active tail d Hod) as (s & d1 & -> & Hrec). rewrite ok_bind. cbv beta iota zeta.
    destruct (rewriteIndex_ok h active _ d1 Hh (rc_streams _ _ _ _ _ _ Hrec)) as (d' & -> & Hl & Hr & Hr').
    eexists _, d'. split; [done|]. by eapply rewrite_recovered.
Qed.

(** ** Retention, and opening the active segment *)

Lemma retain_other m sid t id : id ≠ sid → retain m sid t !! id = m !! id.
Proof. intros Hne. unfold retain. destruct (_ || _); [done|]. by rewrite lookup_insert_ne. Qed.

Lemma retain_local m m' id t : m !! id = m' !! id → retain m id t !! id = retain m' id t !! id.
Proof. intros Hm. unfold retain. destruct (_ || _); [done|]. by rewrite !lookup_insert_eq, Hm. Qed.

Definition retain_all (m : gmap string streamState) (l : list (string * Z)) : gmap string streamState :=
  foldl (λ m '(streamID, trimmedBefore), retain m streamID trimmedBefore) m l.

Lemma retain_all_none l : ∀ m id, id ∉ l.*1 → retain_all m l !! id = m !! id.
Proof.
  induction l as [|[sid t] l IH]; intros m id Hni; [done|]. apply not_elem_of_cons in Hni as [? ?].
  unfold retain_all in *. cbn [foldl]. rewrite IH by done. by apply retain_other.
Qed.

Lemma retain_all_some l : ∀ m id t, NoDup l.*1 → (id, t) ∈ l → retain_all m l !! id = retain m id t !! id.
Proof.
  induction l as [|[sid u] l IH]; intros m id t Hnd Hin; [by apply elem_of_nil in Hin|].
  apply NoDup_cons in Hnd as [Hni Hnd]. unfold retain_all in *. cbn [foldl].
  apply elem_of_cons in Hin as [[= -> ->]|Hin].
  - by apply retain_all_none.
  - rewrite (IH _ id t Hnd Hin). apply retain_local, retain_other. intros ->. apply Hni.
    apply list_elem_of_fmap. by exists (sid, t).
Qed.

Lemma retain_map m (meta : gmap string Z) id :
  retain_all m (map_to_list meta) !! id =
  match meta !! id with Some t => retain m id t !! id | None => m !! id end.
Proof.
  destruct (meta !! id) as [t|] eqn:Ht.
  - apply retain_all_some; [apply NoDup_fst_map_to_list|]. by apply elem_of_map_to_list.
  - apply retain_all_none. intros Hin. apply list_elem_of_fmap in Hin as ([sid t] & -> & Hin).
    apply elem_of_map_to_list in Hin. simpl in Ht. congruence.
Qed.

Lemma stream_ok_default h id st :
  stream_ok h id st → (∀ x, st = Some x → ss_trimBefore x = 0) →
  stream_ok h id (Some (default new_stream st)) ∧ ss_trimBefore (default new_stream st) = 0.
Proof.
  intros Hs Ht. destruct st as [x|]; simpl in *; [by split; [|apply Ht]|].
  rewrite Hs. split; [|done]. split_and!; done || constructor.
Qed.

(** Setting the trim mark of a stream whose mark is 0. *)
Lemma retain_ok h m id t :
  stream_ok h id (m !! id) → (∀ x, m !! id = Some x → ss_trimBefore x = 0) → id ≠ EmptyString → 0 <= t < 2 ^ 64 →
  stream_ok h id (retain m id t !! id) ∧ default 0 (ss_trimBefore <$> retain m id t !! id) = t.
Proof.
  intros Hs Ht Hid%str_empty_false Hr. unfold retain. rewrite Hid. cbn [orb].
  destruct (Z.eqb_spec t 0) as [->|Hne].
  { split; [done|]. destruct (m !! id) as [x|]; [|done]. simpl. by apply Ht. }
  rewrite lookup_insert_eq. destruct (stream_ok_default h id _ Hs Ht) as [Hd Hz].
  set (st := default new_stream (m !! id)) in *. destruct Hd as (He & (_ & Hn) & Hlt & Hf).
  split; [|done]. simpl. rewrite Hz in Hn.
  assert (Hn0 : 0 <= ss_nextSeq st) by lia.
  split_and!; [done|lia|lia|lia|]. eapply Forall_impl; [exact Hf|]. simpl. intros e. lia.
Qed.

Lemma loadRetention_ok opts h active d s d' :
  recovered opts h active d s d' → ret_ok (dk_retention d) →
  let s' := restoreRetention s (dk_retention d) in
  (∀ id, stream_ok h id (st_streams s' !! id)) ∧ trims_kept (st_streams s') (dk_retention d) ∧
  st_idempotency s' = st_idempotency s ∧ st_options s' = st_options s ∧
  st_activeSegmentID s' = st_activeSegmentID s.
Proof.
  intros Hrec Hret. unfold restoreRetention. pose proof (rc_streams _ _ _ _ _ _ Hrec) as Hst.
  pose proof (rc_trims _ _ _ _ _ _ Hrec) as Htr.
  assert (H0' : ∀ id, default 0 (ss_trimBefore <$> st_streams s !! id) = 0).
  { intros id. destruct (st_streams s !! id) as [x|] eqn:Hx; [|done]. simpl. by apply (Htr id). }
  destruct (dk_retention d) as [meta|] eqn:Hm; cbv zeta.
  2: { split_and!; try done. intros id. by rewrite H0'. }
  change (foldl _ _ _) with (retain_all (st_streams s) (map_to_list meta)). split_and!; try done; intros id; simpl;
    rewrite retain_map; destruct (meta !! id) as [t|] eqn:Ht; simpl; try done.
  - destruct (Hret meta id t eq_refl Ht). by apply retain_ok; [|intros x; apply Htr| |].
  - destruct (Hret meta id t eq_refl Ht). symmetry. by apply (retain_ok h); [|intros x; apply Htr| |].
Qed.

Lemma remove_absent d id : dk_log d !! id = None → dk_index d !! id = None → removeSegmentFilesOnDisk d id = d.
Proof. intros Hl Hi. unfold removeSegmentFilesOnDisk. rewrite !delete_id by done. by destruct d. Qed.
Lemma has_true {A} (m : gmap Z A) id : is_Some (m !! id) → has m id = true.
Proof. intros. by apply bool_decide_eq_true. Qed.
(** *** Files that a power loss has emptied *)

Lemma readable_manifest d : readable d = true → readCompactionManifest d = Ok (dk_manifest d).
Proof. unfold readable, readCompactionManifest. by intros [->%negb_true_iff _]%andb_true_iff. Qed.
(** What recovery leaves alone. *)
Definition untouched (d : Disk) : gmap Z file * gmap Z bytes * (option (gmap string Z) * lost_contents) :=
  (dk_logTmp d, dk_indexTmp d, (dk_retention d, dk_lost d)).
Lemma write_indexes_untouched s ids : ∀ d d', write_indexes s d ids = Ok d' → untouched d' = untouched d.
Proof.
  induction ids as [|id ids IH]; intros d d'; cbn [write_indexes]; [by intros [= ->]|].
  intros (b & _ & Hw)%result_bind_ok. by apply IH in Hw.
Qed.
Lemma recover_segments_untouched ids : ∀ s d s' d', recover_segments s d ids = Ok (s', d') → untouched d' = untouched d.
Proof.
  induction ids as [|id ids IH]; intros s d s' d'; cbn [recover_segments]; [by intros [= -> ->]|].
  intros ([[s1 d1] n] & Hr & Hw)%result_bind_ok. apply IH in Hw. rewrite Hw. unfold recoverSegment in Hr.
  apply result_bind_ok in Hr as ([[off m] i] & _ & Hr). by simplify_eq.
Qed.
Lemma recover_untouched s0 d s' d' : recover s0 d = Ok (s', d') → untouched d' = untouched d.
Proof.
  unfold recover, rewriteIndex. intros Hrec. case_bool_decide.
  - apply result_bind_ok in Hrec as (d2 & Hw & Hrec). simplify_eq. by apply write_indexes_untouched in Hw.
  - destruct (loadFromIndexFiles _ _ _) as [[s2 []]|]; simplify_eq; [|done|].
    + apply result_bind_ok in Hrec as (d2 & Hw & Hrec). simplify_eq. by apply write_indexes_untouched in Hw.
    + apply result_bind_ok in Hrec as ([s2 d2] & Hw & Hrec). apply result_bind_ok in Hrec as (d3 & Hw2 & Hrec). simplify_eq.
      apply write_indexes_untouched in Hw2. apply recover_segments_untouched in Hw. by rewrite Hw2.
Qed.
Lemma untouched_retention d d' : untouched d' = untouched d → retention_lost d' = retention_lost d.
Proof. intros [= _ _ E1 E2]. unfold retention_lost. by rewrite E1, E2. Qed.
(** Removing and renaming segment files leaves both alone as well. *)
Lemma reconcile_unlost d d' : reconcileCompactionManifestBeforeRecover d = Ok d' → retention_lost d' = retention_lost d.
Proof.
  assert (Hdel : ∀ l d0, retention_lost (foldl removeSegmentFilesOnDisk d0 l) = retention_lost d0).
  { induction l as [|id l IH]; intros d0; [done|]. cbn [foldl]. by rewrite IH. }
  assert (Hcopy : ∀ c d0 d1, reconcileCopiedSegmentBeforeRecover d0 c = Ok d1 → retention_lost d1 = retention_lost d0).
  { intros c d0 d1 Hc. unfold reconcileCopiedSegmentBeforeRecover, rename_log, rename_index in Hc. cbv zeta in Hc. by repeat (case_match; simplify_eq). }
  unfold reconcileCompactionManifestBeforeRecover. intros (m & _ & Hm)%result_bind_ok. destruct m as [m|]; [|by simplify_eq].
  apply result_bind_ok in Hm as (d2 & Hc & Hm). simplify_eq. rewrite Hdel. revert d Hc. induction (cm_CopiedSegments m) as [|c l IH]; cbn [reconcile_copies]; intros d Hc; [by simplify_eq|].
  apply result_bind_ok in Hc as (d3 & Hc1 & Hc2). rewrite (IH _ Hc2). by eapply Hcopy.
Qed.
(** Nothing opens over a file that does not decode. *)
Lemma unreadable_refuses opts d : readable d = false → ∃ e, OpenWithOptions opts d = Err e.
Proof.
  unfold readable, OpenWithOptions. intros Hr. destruct (reconcileCompactionManifestBeforeRecover d) as [d1|e] eqn:Hrec; [|by exists e]. rewrite ok_bind.
  destruct (recover (fresh_store opts) d1) as [[s2 d2]|e] eqn:Hrv; [|by exists e]. rewrite ok_bind. unfold loadRetention.
  rewrite (untouched_retention _ _ (recover_untouched _ _ _ _ Hrv)), (reconcile_unlost _ _ Hrec).
  destruct (retention_lost d); [by exists ErrJSON|]. rewrite andb_true_r in Hr. apply negb_false_iff in Hr.
  unfold reconcileCompactionManifestBeforeRecover, readCompactionManifest in Hrec. by rewrite Hr in Hrec.
Qed.

(** A settled manifest asks for nothing. *)
Lemma settled_reconcile d active : readable d = true → settled d active → reconcileCompactionManifestBeforeRecover d = Ok d.
Proof.
  intros Hr Hs. unfold reconcileCompactionManifestBeforeRecover. rewrite readable_manifest, ok_bind by done. destruct (dk_manifest d) as [m|] eqn:Hm; [|done].
  destruct (Hs m Hm) as [Hd Hc]. clear Hs. induction (cm_CopiedSegments m) as [|c l IH]; cbn [reconcile_copies].
  - rewrite ok_bind. f_equal. clear Hc. induction (cm_DeletedSegments m) as [|id l IH]; [done|]. cbn [foldl].
    destruct (Hd id) as (_ & ? & ?); [left|]. rewrite remove_absent by done. apply IH. intros x Hx. apply Hd. by right.
  - destruct (Hc c) as ((_ & ? & ?) & _ & Hl%has_true & Hi%has_true); [left|]. unfold reconcileCopiedSegmentBeforeRecover.
    cbv zeta. rewrite Hl. cbn [negb andb]. rewrite Hi. cbn [negb andb]. rewrite Hl, Hi. cbn [andb]. rewrite remove_absent by done. rewrite ok_bind.
    apply IH. intros x Hx. apply Hc. by right.
Qed.

(** The disk without its manifest: what the manifest still asks for is a separate matter. *)
Definition forget (d : Disk) : Disk :=
  {| dk_log := dk_log d; dk_index := dk_index d; dk_retention := dk_retention d; dk_manifest := None;
     dk_logTmp := dk_logTmp d; dk_indexTmp := dk_indexTmp d; dk_lost := dk_lost d |}.
Lemma store_forget s d h : store_ok s d h → store_ok s (forget d) h.
Proof. by intros []. Qed.
Lemma store_unforget s d h : store_ok s (forget d) h → settled d (st_activeSegmentID s) → store_ok s d h.
Proof. by intros [] ?. Qed.

(** What was synced of the log is synced. *)
Definition keeps_synced (d d' : Disk) (h : list appended) (active : Z) : Prop :=
  ∀ h1, h1 `prefix_of` h → synced_log d h1 active → synced_log d' h1 active.
Lemma keeps_durable d d' h active : keeps_synced d d' h active → durable d h active → durable d' h active.
Proof. intros Hk (h1 & h2 & -> & H2' & Hsy). exists h1, h2. split_and!; [done|done|]. apply Hk; [by apply prefix_app_r|done]. Qed.
Lemma load_readable s d0 d d1 : readable d0 = true → reconcileCompactionManifestBeforeRecover d0 = Ok d → untouched d1 = untouched d →
  loadRetention s d1 = Ok (restoreRetention s (dk_retention d1)).
Proof.
  intros [_ Hr%negb_true_iff]%andb_true_iff Hrec Hu. unfold loadRetention. by rewrite (untouched_retention _ _ Hu), (reconcile_unlost _ _ Hrec), Hr.
Qed.
Lemma open_reconciled opts h active tail d0 d :
  reconcileCompactionManifestBeforeRecover d0 = Ok d → readable d0 = true → on_disk h active tail d → ret_ok (dk_retention d) →
  ∃ s' d', OpenWithOptions opts d0 = Ok (s', d') ∧ store_ok s' (forget d') h ∧ (settled d active → settled d' active) ∧
    st_options s' = opts ∧ st_activeSegmentID s' = active ∧ (synced_before d active → synced_before d' active) ∧
    keeps_synced d d' h active ∧ dk_retention d' = dk_retention d.
Proof.
  intros Hrecon Hread Hod Hret. pose proof (od_history _ _ _ _ Hod) as Hh. pose proof (ho_active _ _ Hh) as Ha.
  destruct (recover_ok opts h active tail d Hod) as (s & d1 & Hr & Hrec). unfold OpenWithOptions. rewrite Hrecon, ok_bind, Hr, ok_bind.
  pose proof (rc_ret _ _ _ _ _ _ Hrec) as Hr1. rewrite <- Hr1 in Hret.
  assert (Hrec1 : recovered opts h active d1 s d1) by (destruct Hrec; by split).
  destruct (loadRetention_ok opts h active d1 s d1 Hrec1 Hret) as (H1 & H2 & H3 & H4 & H5).
  rewrite (load_readable s d0 d d1 Hread Hrecon (recover_untouched _ _ _ _ Hr)), ok_bind.
  set (s1 := restoreRetention s (dk_retention d1)) in *. unfold openActiveFilesLocked. rewrite H5, (rc_active _ _ _ _ _ _ Hrec).
  destruct (Z.eqb_spec active 0); [lia|]. eexists _, _. split; [done|].
  pose proof (rc_logs _ _ _ _ _ _ Hrec) as Hl.
  assert (Hf : ∃ f, dk_log d1 !! active = Some f ∧ f_data f = seg_bytes h active).
  { pose proof (Hl active) as Hla. destruct (dk_log d1 !! active) as [f|]; [|destruct Hla; lia].
    exists f. split; [done|]. destruct Hla as (_ & -> & _). unfold no_tail. by rewrite app_nil_r. }
  destruct Hf as (f & Hf & Hfd). rewrite (log_file_some _ _ _ Hf). split; [|split; [|split; [|split; [done|split; [|split]]]]].
  - split; simpl; try done.
    + intros id. simpl. rewrite insert_id by done. apply Hl.
    + by rewrite Hfd.
    + rewrite H3. apply (rc_idem _ _ _ _ _ _ Hrec).
  - intros Hset. apply (settled_keeps active active d1); [|lia|by apply (rc_settled _ _ _ _ _ _ Hrec)].
    etrans; [|apply keeps_index; lia]. etrans; [|apply keeps_log; lia]. done.
  - simpl. by rewrite H4, (rc_options _ _ _ _ _ _ Hrec).
  - intros Hs id g. simpl. rewrite insert_id by done. by apply (rc_sync _ _ _ _ _ _ Hrec).
  - intros h1 Hp Hsy g. simpl. rewrite insert_id by done. by apply (rc_durable _ _ _ _ _ _ Hrec).
  - done.
Qed.

Lemma open_ok opts h active tail d :
  on_disk h active tail d → ret_ok (dk_retention d) → settled d active → readable d = true →
  ∃ s' d', OpenWithOptions opts d = Ok (s', d') ∧ store_ok s' d' h ∧ st_options s' = opts ∧
    st_activeSegmentID s' = active ∧ (synced_before d active → synced_before d' active) ∧
    keeps_synced d d' h active ∧ dk_retention d' = dk_retention d.
Proof.
  intros Hod Hret Hset Hread. destruct (open_reconciled opts h active tail d d (settled_reconcile d active Hread Hset) Hread Hod Hret)
    as (s' & d' & Ho & Hs & Hse & Hopt & Ha & Hrest).
  exists s', d'. split_and!; try done; try apply Hrest. apply store_unforget; [done|]. rewrite Ha. auto.
Qed.

Lemma open_fresh opts d :
  dk_log d = ∅ → dk_manifest d = None → ret_ok (dk_retention d) → readable d = true →
  ∃ s' d', OpenWithOptions opts d = Ok (s', d') ∧ store_ok s' d' [] ∧ st_options s' = opts ∧
    synced_before d' (st_activeSegmentID s').
Proof.
  intros Hd Hman Hret Hread. assert (Hids : segment_ids (dk_log d) = []).
  { apply elem_of_nil_inv. intros id Hin. apply (segment_ids_spec (dk_log d)) in Hin as [f Hf].
    by rewrite Hd in Hf. }
  assert (Hh : history_ok [] 1).
  { split; try constructor; try done. }
  pose proof (settled_reconcile d 1 Hread) as Hrecon. unfold settled in Hrecon. rewrite Hman in Hrecon. specialize (Hrecon ltac:(done)).
  unfold OpenWithOptions. rewrite Hrecon, ok_bind. unfold recover. rewrite Hids, bool_decide_true by done.
  set (s0 := with_active (fresh_store opts) _ 1 0).
  destruct (rewriteIndex_ok [] 1 s0 d Hh ltac:(done)) as (d1 & Hw & [Hl Hr Hm1] & _). rewrite Hw, !ok_bind.
  rewrite (load_readable s0 d d d1 Hread Hrecon (write_indexes_untouched _ _ _ _ Hw)), ok_bind.
  rewrite <- Hr in Hret. assert (Hrec : recovered opts [] 1 d1 s0 (with_log d1 1 empty_file)).
  { split; try done.
    - intros k r. split; [done|]. intros (a & Ha & _). by apply elem_of_nil in Ha.
    - intros id. simpl. rewrite Hl, Hd. destruct (decide (id = 1)) as [->|Hne].
      + rewrite lookup_insert_eq. by split_and!.
      + by rewrite lookup_insert_ne, lookup_empty.
    - intros _ id f. simpl. rewrite Hl, Hd, insert_empty. intros [<- <-]%lookup_singleton_Some. done.
    - intros h1 Hh1%prefix_nil_inv _ f _. subst. simpl. lia.
    - intros _ m. simpl. by rewrite Hm1, Hman. }
  destruct (loadRetention_ok opts [] 1 d1 s0 _ Hrec Hret) as (H1 & H2 & H3 & H4 & H5).
  set (s1 := restoreRetention s0 (dk_retention d1)) in *. unfold openActiveFilesLocked. rewrite H5. cbn [st_activeSegmentID s0 with_active].
  unfold log_file. rewrite Hl, Hd, lookup_empty. simpl. eexists _, _. split; [done|]. split; [|split; [done|]].
  - split; simpl; try done.
    + apply (rc_logs _ _ _ _ _ _ Hrec).
    + rewrite H3. apply (rc_idem _ _ _ _ _ _ Hrec).
    + intros m. simpl. by rewrite Hm1, Hman.
  - intros id f. simpl. rewrite Hl, Hd, insert_empty. by intros [<- <-]%lookup_singleton_Some.
Qed.

(** ** Crashes *)

(** A crash keeps at least the synced bytes of every log file. *)
Definition crash_files (files files' : gmap Z file) : Prop :=
  ∀ id, match files !! id, files' !! id with
        | Some f, Some f' => ∃ k, (f_synced f ≤ k)%nat ∧ f_data f' = take k (f_data f) ∧
            (Nat.min (f_synced f) (length (f_data f)) ≤ f_synced f' ≤ length (f_data f'))%nat
        | None, None => True
        | _, _ => False
        end.
(** The directory survives, with the retention snapshot and the manifest, which were
    renamed into place but not synced: either may have lost its contents ([dk_lost] is
    free).  Index files may hold anything. *)
Record crashed (d d' : Disk) : Prop := {
  cr_retention : dk_retention d' = dk_retention d;
  cr_manifest : dk_manifest d' = dk_manifest d;
  cr_log : crash_files (dk_log d) (dk_log d');
  cr_logTmp : crash_files (dk_logTmp d) (dk_logTmp d');
  cr_index : dom (dk_index d') = dom (dk_index d);
  cr_indexTmp : dom (dk_indexTmp d') = dom (dk_indexTmp d)
}.
Lemma crash_files_dom m m' id : crash_files m m' → is_Some (m' !! id) ↔ is_Some (m !! id).
Proof. intros Hc. specialize (Hc id). destruct (m !! id), (m' !! id); try done; by split; eexists. Qed.
Lemma settled_crashed d d' active : crashed d d' → settled d active → settled d' active.
Proof.
  intros [Er Em Hl _ Hi _]. assert (Hd : ∀ id, is_Some (dk_index d' !! id) ↔ is_Some (dk_index d !! id)).
  { intros id. by rewrite <- !elem_of_dom, Hi. }
  apply settled_keeps; [|done]. split; [done|done|intros id; by rewrite (crash_files_dom _ _ _ Hl)|intros id; by rewrite Hd|..];
    intros id _ Hn; apply eq_None_not_Some; rewrite ?(crash_files_dom _ _ _ Hl), ?Hd, Hn; by intros [? ?].
Qed.

Lemma take_torn l t k :
  Forall valid l → torn t →
  ∃ l1 t', take k (concat (map ap_enc l) ++ t) = concat (map ap_enc l1) ++ t' ∧ torn t' ∧ l1 `prefix_of` l ∧
    (∀ l0, l0 `prefix_of` l → (length (concat (map ap_enc l0)) ≤ k)%nat → l0 `prefix_of` l1).
Proof.
  revert k. induction l as [|a l IH]; intros k Hv Ht; cbn [map concat].
  - exists [], (take k t). split_and!; [done| |done|done].
    destruct Ht as [->|(a & j & Hva & Hj & ->)]; [left; by rewrite take_nil|].
    right. exists a, (k `min` j)%nat. split_and!; [done|lia|by rewrite take_take].
  - apply Forall_cons in Hv as [Hva Hv]. destruct (decide (length (ap_enc a) ≤ k)%nat) as [Hle|Hgt].
    + destruct (IH (k - length (ap_enc a))%nat Hv Ht) as (l1 & t' & He & Ht' & Hp & Hall).
      exists (a :: l1), t'. rewrite <- app_assoc, take_app_ge by done. cbn [map concat]. rewrite <- app_assoc, He.
      split_and!; [done|done|by apply prefix_cons|]. intros [|b l0] Hl0 Hk; [apply prefix_nil|].
      pose proof (prefix_cons_inv_1 _ _ _ _ Hl0) as ->. apply prefix_cons_inv_2 in Hl0. apply prefix_cons, Hall; [done|].
      cbn [map concat] in Hk. rewrite length_app in Hk. lia.
    + exists [], (take k (ap_enc a)). rewrite <- app_assoc, take_app_le by lia. split_and!; [done| |by apply prefix_nil|].
      * right. exists a, k. split_and!; [done|lia|done].
      * intros [|b l0] Hl0 Hk; [done|]. pose proof (prefix_cons_inv_1 _ _ _ _ Hl0) as ->.
        cbn [map concat] in Hk. rewrite length_app in Hk. lia.
Qed.

Lemma all_synced_log d h active tail : all_synced d → logs_hold d h active tail → synced_log d h active.
Proof.
  intros Hall Hl f Hf. specialize (Hl active). rewrite Hf in Hl. destruct Hl as (_ & Hd & _).
  rewrite (Hall active f Hf), Hd, length_app. lia.
Qed.

Lemma prefix_app_cases {A} (l h1 h2 : list A) :
  l `prefix_of` h1 ++ h2 → l `prefix_of` h1 ∨ ∃ l2, l = h1 ++ l2 ∧ l2 `prefix_of` h2.
Proof.
  revert l. induction h1 as [|x h1 IH]; intros l Hl; [right; by exists l|].
  destruct l as [|y l]; [left; apply prefix_nil|]. cbn [app] in Hl.
  pose proof (prefix_cons_inv_1 _ _ _ _ Hl) as ->. apply prefix_cons_inv_2 in Hl.
  destruct (IH l Hl) as [?|(l2 & -> & ?)]; [left; by apply prefix_cons|right; by exists l2].
Qed.
Lemma in_seg_all id l : Forall (λ a, ap_seg a = id) l → in_seg id l = l.
Proof. induction 1 as [|b l Hb _ IH]; [done|]. unfold in_seg in *. rewrite filter_cons, decide_True by done. by f_equal. Qed.
Lemma in_seg_none id l : Forall (λ a, ap_seg a ≠ id) l → in_seg id l = [].
Proof. induction 1 as [|b l Hb _ IH]; [done|]. unfold in_seg in *. by rewrite filter_cons, decide_False. Qed.
Lemma in_seg_app id l k : in_seg id (l ++ k) = in_seg id l ++ in_seg id k.
Proof. unfold in_seg. by rewrite filter_app. Qed.

(** What a crash leaves on the disk is a prefix of the log. *)
Lemma crash_prefix h active tail d d' :
  on_disk h active tail d → (∀ id, id ≠ active → tail id = []) → synced_before d active → durable d h active → crashed d d' →
  ∃ h1 tail', h1 `prefix_of` h ∧ on_disk h1 active tail' d' ∧ synced_before d' active ∧ durable d' h1 active ∧
    (∀ hs, hs `prefix_of` h → synced_log d hs active → hs `prefix_of` h1 ∧ synced_log d' hs active) ∧
    (∀ id, id ≠ active → tail' id = [] ∧ in_seg id h1 = in_seg id h).
Proof.
  intros [Hh Hl Ht] Htail Hsync (h0 & hu & Hsplit & Hu & Hsl0) [_ _ Hcr _ _ _].
  pose proof (Hl active) as Hla. pose proof (Hcr active) as Hca.
  destruct (dk_log d !! active) as [f|] eqn:Hf; [|by destruct Hla]. destruct Hla as (_ & Hd & _).
  destruct (dk_log d' !! active) as [f'|] eqn:Hf'; [|done]. destruct Hca as (k & Hk & Hd' & Hsy').
  destruct (in_seg_valid h active active Hh) as [Hv Hids].
  destruct (take_torn (in_seg active h) (tail active) k Hv (Ht active)) as (l1 & t' & Htake & Ht' & Hp & Hfull).
  specialize (Hsl0 f Hf). assert (Hin : in_seg active h = in_seg active h0 ++ hu) by (by rewrite Hsplit, in_seg_app, (in_seg_all active hu)).
  assert (Hl0 : in_seg active h0 `prefix_of` l1).
  { apply Hfull; [rewrite Hin; by apply prefix_app_r|]. unfold seg_bytes in Hsl0. lia. }
  destruct Hl0 as [l2 ->]. rewrite Hin in Hp. apply prefix_app_inv in Hp.
  assert (Hl2 : Forall (λ a, ap_seg a = active) l2) by (destruct Hp as [l3 ->]; by apply Forall_app in Hu as [? _]).
  assert (Hpre : (h0 ++ l2) `prefix_of` h) by (rewrite Hsplit; by apply prefix_app).
  assert (Hdata : f_data f' = seg_bytes (h0 ++ l2) active ++ t').
  { rewrite Hd', Hd. unfold seg_bytes. by rewrite in_seg_app, (in_seg_all active l2). }
  exists (h0 ++ l2), (λ id, if decide (id = active) then t' else []).
  assert (Hother : ∀ id, id ≠ active → in_seg id (h0 ++ l2) = in_seg id h).
  { intros id Hid. rewrite Hsplit, !in_seg_app. f_equal. rewrite !in_seg_none; [done|..]; (eapply Forall_impl; [eassumption|]; cbn; congruence). }
  split_and!; [done| | | | |].
  - split.
    + destruct Hpre as [h2 Hpre]. rewrite Hpre in Hh. by apply history_prefix in Hh.
    + intros id. specialize (Hcr id). specialize (Hl id). case_decide as Hid.
      * subst id. rewrite Hf'. rewrite Hf in Hl. destruct Hl as (? & _ & _). split; [done|]. split; [done|lia].
      * destruct (dk_log d !! id) as [g|] eqn:Hg; destruct (dk_log d' !! id) as [g'|]; try done.
        2: { destruct Hl as [Hn ?]. by rewrite Hother. }
        destruct Hl as (Hrange & Hgd & _). destruct Hcr as (j & Hj & Hgd' & Hs'). split; [done|]. split; [|lia].
        rewrite Hgd', take_ge by (rewrite <- (Hsync id g Hg); [done|lia]). rewrite Hgd, Htail, !app_nil_r by done.
        unfold seg_bytes. by rewrite Hother.
    + intros id. case_decide; [done|by left].
  - intros id g' Hg' Hlt. specialize (Hcr id). rewrite Hg' in Hcr. destruct (dk_log d !! id) as [g|] eqn:Hg; [|done].
    destruct Hcr as (j & Hj & Hgd' & Hs'). rewrite (Hsync id g Hg Hlt) in Hj, Hs'. rewrite Hgd', take_ge in * by lia. lia.
  - exists h0, l2. split_and!; [done|done|]. intros g Hg. assert (g = f') as -> by congruence.
    assert (length (seg_bytes h0 active) ≤ length (f_data f))%nat; [|lia].
    rewrite Hd, Hsplit, seg_bytes_app, !length_app. lia.
  - intros hs Hhs Hsl. specialize (Hsl f Hf). split.
    2: { intros g Hg. assert (g = f') as -> by congruence. apply prefix_length in Hhs as Hle. destruct Hhs as [hr Hhs].
         assert (length (seg_bytes hs active) ≤ length (f_data f))%nat; [|lia]. rewrite Hd, Hhs, seg_bytes_app, !length_app. lia. }
    rewrite Hsplit in Hhs.
    destruct (prefix_app_cases _ _ _ Hhs) as [Hp0|(l0 & -> & Hp0)]; [by apply prefix_app_r|].
    apply prefix_app. assert (Hl0 : Forall (λ a, ap_seg a = active) l0) by (destruct Hp0 as [l3 ->]; by apply Forall_app in Hu as [? _]).
    apply (prefix_app_inv (in_seg active h0)), Hfull; [rewrite Hin; by apply prefix_app|].
    unfold seg_bytes in Hsl. rewrite in_seg_app, (in_seg_all active l0) in Hsl by done. lia.
  - intros id Hid. rewrite decide_False by done. auto.
Qed.

Lemma store_on_disk s d h : store_ok s d h → on_disk h (st_activeSegmentID s) no_tail d.
Proof. intros Hs. split; [apply (so_history _ _ _ Hs)|apply (so_logs _ _ _ Hs)|by left]. Qed.

(** The log a disk holds when an append has stopped anywhere. *)
Definition append_leaves (s : Store) (d : Disk) (h : list appended) (req : AppendRequest) (io : append_io)
    (s' : Store) (d' : Disk) (h' : list appended) : Prop :=
  (h' = h ∨ ∃ a, h' = h ++ [a] ∧ ap_seg a = st_activeSegmentID s' ∧ appended_by s req (io_now io) (ap_rec a)) ∧
  (∃ tail, on_disk h' (st_activeSegmentID s') tail d' ∧ ∀ id, id ≠ st_activeSegmentID s' → tail id = []) ∧
  seals d (st_activeSegmentID s) d' (st_activeSegmentID s') ∧ ret_ok (dk_retention d') ∧
  (op_FsyncPolicy (st_options s) = FsyncAlways → all_synced d → synced_log d' h (st_activeSegmentID s')).

(** The disk after [n] bytes of a record. *)
Lemma partial_write s d h a n :
  store_ok s d h → valid a → ap_seg a = st_activeSegmentID s → history_ok (h ++ [a]) (st_activeSegmentID s) →
  ∃ h' tail, (h' = h ∨ h' = h ++ [a]) ∧ on_disk h' (st_activeSegmentID s) tail (write_log s d (take n (ap_enc a))) ∧
    (∀ id, id ≠ st_activeSegmentID s → tail id = []) ∧ ((length (ap_enc a) ≤ n)%nat → h' = h ++ [a]).
Proof.
  intros Hs Hv Hseg Hh. destruct (decide (length (ap_enc a) ≤ n)%nat) as [Hle|Hgt].
  - exists (h ++ [a]), no_tail. rewrite take_ge by done. split_and!; try done; [by right|].
    split; [done|by apply write_holds|by left].
  - exists h, (λ id, if decide (id = st_activeSegmentID s) then take n (ap_enc a) else []).
    split_and!; [by left| |intros id Hid; by rewrite decide_False|lia]. split.
    + apply (so_history _ _ _ Hs).
    + intros id. pose proof (so_logs _ _ _ Hs id) as Hl. destruct (active_log s d h Hs) as (f & Hf & Hfd & Hfs).
      unfold write_log. rewrite (log_file_some _ _ _ Hf). simpl. case_decide as Hid.
      * subst id. rewrite lookup_insert_eq. rewrite Hf in Hl. destruct Hl as (? & _ & _). simpl. rewrite length_app.
        split_and!; [lia|lia|by rewrite Hfd|lia].
      * rewrite lookup_insert_ne by done. exact Hl.
    + intros id. case_decide; [|by left]. right. exists a, n. split_and!; [done|lia|done].
Qed.

(** A fresh request whose write or sync fails. *)
Lemma append_failed s d h req io enc crc :
  store_ok s d h → room s req io → ar_StreamID req ≠ EmptyString → ar_EventType req ≠ EmptyString →
  (if str_empty (ar_IdempotencyKey req) then None
   else st_idempotency s !! idempotencyKey (ar_StreamID req) (ar_IdempotencyKey req)) = None →
  encodeRecordPooled (io_pooled io) (new_record s req (io_now io)) (op_ChecksumType (st_options s)) = Ok (enc, crc) →
  Z.of_nat (length enc) <= 2 ^ 32 - 1 →
  ∃ s1 d1, let a := {| ap_seg := st_activeSegmentID s1;
                       ap_rec := stamped (new_record s req (io_now io)) crc (op_ChecksumType (st_options s)); ap_enc := enc |} in
    store_ok s1 d1 h ∧ valid a ∧ history_ok (h ++ [a]) (st_activeSegmentID s1) ∧
    seals d (st_activeSegmentID s) d1 (st_activeSegmentID s1) ∧ (all_synced d → all_synced d1) ∧ st_options s1 = st_options s ∧
    (io_write io ≠ None ∨ (syncForPolicyLocked s1 (write_log s1 d1 enc) io).2 = false →
     ∃ n, (io_write io = None → n = length enc) ∧
       Append s d req io = (s1, match io_write io with None => (syncForPolicyLocked s1 (write_log s1 d1 (take n enc)) io).1
                                | _ => write_log s1 d1 (take n enc) end, Err ErrIO)).
Proof.
  intros Hs [Hseg Hseq Hbytes Hnow Hopt] Hsid Hev Hnone Henc Hlen.
  pose proof (touch_ok s d h (ar_StreamID req) Hs) as Ht.
  destruct (ensure_ok _ d h (Z.of_nat (length enc)) Ht Hseg) as (s1 & d1 & Hens & Hs1 & (Ho1 & Hst1 & Hid1) & Hb1 & Hsb & Has).
  simpl in Ho1, Hst1, Hid1, Hb1, Hsb. exists s1, d1. intros a.
  destruct (new_seq_range s h (ar_StreamID req) (so_streams _ _ _ Hs _) Hseq) as (Hq1 & Hq2 & Hq3).
  assert (Hv : valid a).
  { apply (new_valid s req (io_now io) (io_pooled io)); [done|done|done|lia|done|apply Hopt]. }
  split_and!; [done|done| |done|done|done|].
  - apply history_snoc; [apply (so_history _ _ _ Hs1)|done|done|exact Hq3| |].
    + intros Hk b Hb Hkb. by apply (no_existing s d h req Hs Hnone).
    + rewrite <- (so_bytes _ _ _ Hs1). simpl. lia.
  - intros Hbad. unfold Append. rewrite (proj2 (str_empty_false _) Hsid), (proj2 (str_empty_false _) Hev), Hnone. cbv zeta.
    cbn [st_options streamStateLocked with_streams]. fold (new_record s req (io_now io)). rewrite Henc. cbn [mbind].
    rewrite Hens. destruct (Z.ltb_spec (2 ^ 32 - 1) (Z.of_nat (length enc))); [lia|].
    destruct (io_write io) as [n|]; [by exists n|]. exists (length enc). rewrite take_ge by done. split; [done|].
    destruct Hbad as [?|Hbad]; [done|]. destruct (syncForPolicyLocked _ _ _) as [d2 b]. simpl in Hbad. by subst b.
Qed.

#[local] Instance sync_ok_dec opts io : Decision (sync_ok opts io).
Proof. unfold sync_ok. apply _. Defined.

Lemma sync_fails s d io :
  options_ok (st_options s) → ¬ sync_ok (st_options s) io → syncForPolicyLocked s d io = (d, false).
Proof.
  intros [Hp _] Hn. unfold syncForPolicyLocked, sync_ok in *. destruct (io_sync io); [tauto|].
  case_decide; [done|]. case_decide as Hb; [tauto|]. case_decide; [|done]. destruct (io_due io); [done|tauto].
Qed.

(** A request that writes nothing, or a fresh one. *)
Lemma append_split s d h req io :
  store_ok s d h → room s req io →
  (∃ s' d' res, Append s d req io = (s', d', res) ∧ store_ok s' d' h ∧ seals d (st_activeSegmentID s) d' (st_activeSegmentID s') ∧
     (all_synced d → all_synced d') ∧ match res with Ok (_, false) => False | Ok (_, true) => d' = d | Err _ => True end) ∨
  (ar_StreamID req ≠ EmptyString ∧ ar_EventType req ≠ EmptyString ∧
   (if str_empty (ar_IdempotencyKey req) then None
    else st_idempotency s !! idempotencyKey (ar_StreamID req) (ar_IdempotencyKey req)) = None ∧
   ∃ enc crc, encodeRecordPooled (io_pooled io) (new_record s req (io_now io)) (op_ChecksumType (st_options s)) = Ok (enc, crc) ∧
     Z.of_nat (length enc) <= 2 ^ 32 - 1).
Proof.
  intros Hs Hroom. pose proof (touch_ok s d h (ar_StreamID req) Hs) as Ht. pose proof (seals_refl d (st_activeSegmentID s)) as Hstay.
  destruct (decide (ar_StreamID req = EmptyString)) as [Hsid|Hsid].
  { left. exists s, d, (Err ErrStreamIDRequired). unfold Append. by rewrite Hsid. }
  destruct (decide (ar_EventType req = EmptyString)) as [Hev|Hev].
  { left. exists s, d, (Err ErrEventTypeRequired). unfold Append. by rewrite (proj2 (str_empty_false _) Hsid), Hev. }
  destruct (if str_empty (ar_IdempotencyKey req) then None
            else st_idempotency s !! idempotencyKey (ar_StreamID req) (ar_IdempotencyKey req)) as [r|] eqn:Hex.
  { left. destruct (append_existing s d h req io r Hs Hsid Hev Hex) as (Ha & _). by exists s, d, (Ok (r, true)). }
  unfold Append. rewrite (proj2 (str_empty_false _) Hsid), (proj2 (str_empty_false _) Hev), Hex. cbv zeta.
  cbn [st_options streamStateLocked with_streams]. fold (new_record s req (io_now io)).
  destruct (encodeRecordPooled (io_pooled io) (new_record s req (io_now io)) (op_ChecksumType (st_options s)))
    as [[enc crc]|e] eqn:Henc.
  2: { left. by exists (streamStateLocked s (ar_StreamID req)), d, (Err e). }
  destruct (decide (Z.of_nat (length enc) <= 2 ^ 32 - 1)) as [Hlen|Hlen]; [right; split_and!; eauto|left].
  destruct (ensure_ok _ d h (Z.of_nat (length enc)) Ht (rm_segments _ _ _ Hroom)) as (s1 & d1 & -> & Hs1 & _ & _ & Hsb & Has).
  exists s1, d1, (Err ErrRecordTooLarge). destruct (Z.ltb_spec (2 ^ 32 - 1) (Z.of_nat (length enc))); [|lia].
  split_and!; done.
Qed.

Lemma leaves_ok s d h req io s' d' h' :
  (h' = h ∨ ∃ a, h' = h ++ [a] ∧ ap_seg a = st_activeSegmentID s' ∧ appended_by s req (io_now io) (ap_rec a)) →
  store_ok s' d' h' → seals d (st_activeSegmentID s) d' (st_activeSegmentID s') →
  (op_FsyncPolicy (st_options s) = FsyncAlways → all_synced d → all_synced d') →
  append_leaves s d h req io s' d' h'.
Proof.
  intros Hh' Hs' Hsy' Hall. split_and!; [done| |done|apply (so_ret_ok _ _ _ Hs')|].
  - exists no_tail. split; [by apply store_on_disk|done].
  - intros Hp Ha. pose proof (all_synced_log d' h' _ _ (Hall Hp Ha) (so_logs _ _ _ Hs')) as Hl. intros f Hf.
    specialize (Hl f Hf). destruct Hh' as [->|(a & -> & _)]; [done|].
    rewrite seg_bytes_app, length_app in Hl. lia.
Qed.

(** What the disk holds after an append, whatever the disk did. *)
Lemma append_disk s d h req io :
  store_ok s d h → room s req io →
  ∃ s' d' res h', Append s d req io = (s', d', res) ∧ append_leaves s d h req io s' d' h' ∧
    match res with
    | Ok (r, false) => (∃ a, h' = h ++ [a] ∧ ap_rec a = r) ∧
        (op_FsyncPolicy (st_options s) = FsyncAlways → all_synced d → all_synced d')
    | Ok (r, true) => h' = h ∧ d' = d
    | Err _ => True
    end.
Proof.
  intros Hs Hroom.
  destruct (append_split s d h req io Hs Hroom) as [(s' & d' & res & Happ & Hs' & Hsy' & Hall & Hres)|(Hsid & Hev & Hex & enc & crc & Henc & Hlen)].
  { exists s', d', res, h. split; [done|]. split; [apply leaves_ok; [by left|done|done|auto]|].
    by destruct res as [[r []]|e]. }
  destruct (decide (io_write io = None ∧ sync_ok (st_options s) io)) as [[Hw Hsy]|Hbad].
  - destruct (append_fresh s d h req io enc crc Hs Hroom Hw Hsy Hsid Hev Hex Henc) as (s' & d' & Hs' & Happ & _ & H1 & H2 & _).
    destruct (Z.ltb_spec (2 ^ 32 - 1) (Z.of_nat (length enc))) as [|_]; [lia|].
    eexists s', d', _, _. split; [exact Happ|]. split.
    + apply leaves_ok; [right|exact Hs'|exact H1|done]. eexists. by split.
    + split; [|done]. eexists. by split.
  - destruct (append_failed s d h req io enc crc Hs Hroom Hsid Hev Hex Henc Hlen)
      as (s1 & d1 & Hs1 & Hv & Hh1 & Hsy1 & Has1 & Ho1 & Hfail).
    set (a := {| ap_seg := _; ap_rec := _; ap_enc := enc |}) in *.
    pose proof (rm_options _ _ _ Hroom) as Hopt. rewrite <- Ho1 in Hopt, Hbad.
    destruct Hfail as (n & _ & Happ).
    { destruct (io_write io); [by left|right]. by rewrite sync_fails by tauto. }
    assert (Happ' : Append s d req io = (s1, write_log s1 d1 (take n enc), Err ErrIO)).
    { rewrite Happ. destruct (io_write io); [done|]. by rewrite sync_fails by tauto. }
    destruct (partial_write s1 d1 h a n Hs1 Hv eq_refl Hh1) as (h' & tail & Hh' & Hod & Htail & _).
    exists s1, (write_log s1 d1 (take n enc)), (Err ErrIO), h'. split_and!; [done| |done]. split_and!.
    + destruct Hh' as [->| ->]; [by left|]. right. exists a. by split_and!.
    + by exists tail.
    + eapply seals_trans; [exact Hsy1|apply write_seals].
    + apply (so_ret_ok _ _ _ Hs1).
    + intros _ Hall f. pose proof (all_synced_log d1 h _ _ (Has1 Hall) (so_logs _ _ _ Hs1)) as Hl.
      destruct (active_log s1 d1 h Hs1) as (g & Hg & _). specialize (Hl g Hg).
      unfold write_log. rewrite (log_file_some _ _ _ Hg). simpl. rewrite lookup_insert_eq. by intros [= <-].
Qed.
End Recovery.
Close Scope Z_scope.
