(* ===== verification/Compaction.v ===== *)
(** Log compaction: [internal/logstore/compaction.go] on the store and disk of [LogStore].

    [Compact] is one critical section, but not one step: it is a sequence of disk
    operations, each of which may fail, or be the last thing that happens before a
    crash.  It runs in the monad [C] over the store, the disk and a count of the
    operations so far; the environment [CEnv] says what becomes of the n-th one.  A
    failed operation runs the deferred cleanup of [writeCompactedSegmentLocked], a crash
    does not.  Directory entries and the two JSON files are durable at once.  The cache
    of segment readers is an argument: no reader is acquired or released under the lock.

    [reconcileCompactionManifestBeforeRecover] and what it calls are in [LogStore], since
    opening a store runs them.  Theorems are in [CompactionPlan], [CompactionRun] and
    [CompactionTheorems]. *)
From S2P Require Import Prelude Bytes Checksum LogRecord RecordCodec SegmentIndex LogStore.

Open Scope Z_scope.

(** ** Options *)

Record CompactionOptions := {
  co_DeleteFullyTrimmedSegments : bool;
  co_CopyPartialSegments : bool;
  co_CopyLiveRatioThreshold : float64;
  co_MaxBytesPerSecond : Z
}.

Definition DefaultCompactionOptions : CompactionOptions := {|
  co_DeleteFullyTrimmedSegments := true; co_CopyPartialSegments := true;
  co_CopyLiveRatioThreshold := defaultCompactionCopyLiveRatio;
  co_MaxBytesPerSecond := defaultCompactionMaxBytesPerSecond
|}.

(** [CompactionOptions.normalize] *)
Definition normalize_compaction (opts : CompactionOptions) : result log_error CompactionOptions :=
  let opts :=
    if negb (co_DeleteFullyTrimmedSegments opts) && negb (co_CopyPartialSegments opts) then
      {| co_DeleteFullyTrimmedSegments := true; co_CopyPartialSegments := true;
         co_CopyLiveRatioThreshold := if f64_eqb (co_CopyLiveRatioThreshold opts) (f64 0)
           then defaultCompactionCopyLiveRatio else co_CopyLiveRatioThreshold opts;
         co_MaxBytesPerSecond := if co_MaxBytesPerSecond opts =? 0
           then defaultCompactionMaxBytesPerSecond else co_MaxBytesPerSecond opts |}
    else opts in
  let ratio := if f64_eqb (co_CopyLiveRatioThreshold opts) (f64 0) then defaultCompactionCopyLiveRatio
               else co_CopyLiveRatioThreshold opts in
  if f64_ltb ratio (f64 0) || f64_ltb (f64 1) ratio then Err ErrCompactionOptions
  else if co_MaxBytesPerSecond opts <? 0 then Err ErrCompactionOptions
  else Ok {| co_DeleteFullyTrimmedSegments := co_DeleteFullyTrimmedSegments opts;
             co_CopyPartialSegments := co_CopyPartialSegments opts;
             co_CopyLiveRatioThreshold := ratio;
             co_MaxBytesPerSecond := if co_MaxBytesPerSecond opts =? 0
               then defaultCompactionMaxBytesPerSecond else co_MaxBytesPerSecond opts |}.

(** The options of the periodic loop of [startBackgroundCompactor]; [None]: no loop. *)
Definition startBackgroundCompactor (opts : Options) : option CompactionOptions :=
  if op_CompactionInterval opts <=? 0 then None
  else Some {| co_DeleteFullyTrimmedSegments := true; co_CopyPartialSegments := true;
               co_CopyLiveRatioThreshold := op_CompactionCopyLiveRatioThreshold opts;
               co_MaxBytesPerSecond := op_CompactionMaxBytesPerSecond opts |}.

(** ** Statistics *)

(** The six counters of a segment and of a stream in it. *)
Record counters := {
  ct_TotalBytes : Z;
  ct_LiveBytes : Z;
  ct_CompactableBytes : Z;
  ct_TotalRecords : Z;
  ct_LiveRecords : Z;
  ct_CompactableRecords : Z
}.
Definition no_counters : counters :=
  {| ct_TotalBytes := 0; ct_LiveBytes := 0; ct_CompactableBytes := 0;
     ct_TotalRecords := 0; ct_LiveRecords := 0; ct_CompactableRecords := 0 |}.

Record SegmentStreamCompactionStats := {
  sc_StreamID : string;
  sc_MinSeq : Z;
  sc_MaxSeq : Z;
  sc_TrimmedBeforeSeq : Z;
  sc_counters : counters
}.
Record SegmentCompactionStats := {
  sg_SegmentID : Z;
  sg_Active : bool;
  sg_counters : counters;
  sg_FullyCompactable : bool;
  sg_Streams : list SegmentStreamCompactionStats
}.
(** [segmentStatsBuilder] *)
Record segmentStatsBuilder := {
  sb_Active : bool;
  sb_counters : counters;
  sb_streams : gmap string SegmentStreamCompactionStats
}.

(** Whether a sequence number is below a trim mark. *)
Definition is_trimmed (trimBefore seq : Z) : bool := (0 <? trimBefore) && (seq <? trimBefore).

Definition count_entry (c : counters) (trimmed : bool) (length : Z) : counters := {|
  ct_TotalBytes := u64 (ct_TotalBytes c + length);
  ct_LiveBytes := if trimmed then ct_LiveBytes c else u64 (ct_LiveBytes c + length);
  ct_CompactableBytes := if trimmed then u64 (ct_CompactableBytes c + length) else ct_CompactableBytes c;
  ct_TotalRecords := u64 (ct_TotalRecords c + 1);
  ct_LiveRecords := if trimmed then ct_LiveRecords c else u64 (ct_LiveRecords c + 1);
  ct_CompactableRecords := if trimmed then u64 (ct_CompactableRecords c + 1) else ct_CompactableRecords c
|}.

(** The body of the inner loop of [compactabilityStatsLocked]. *)
Definition stats_step (active : Z) (streamID : string) (trimBefore : Z)
    (builders : gmap Z segmentStatsBuilder) (entry : streamIndexEntry) : gmap Z segmentStatsBuilder :=
  let builder := default {| sb_Active := ie_SegmentID entry =? active; sb_counters := no_counters; sb_streams := ∅ |}
                   (builders !! ie_SegmentID entry) in
  let stream := default {| sc_StreamID := streamID; sc_MinSeq := ie_Seq entry; sc_MaxSeq := ie_Seq entry;
                           sc_TrimmedBeforeSeq := trimBefore; sc_counters := no_counters |}
                  (sb_streams builder !! streamID) in
  let trimmed := is_trimmed trimBefore (ie_Seq entry) in
  let stream := {| sc_StreamID := sc_StreamID stream;
                   sc_MinSeq := if ie_Seq entry <? sc_MinSeq stream then ie_Seq entry else sc_MinSeq stream;
                   sc_MaxSeq := if sc_MaxSeq stream <? ie_Seq entry then ie_Seq entry else sc_MaxSeq stream;
                   sc_TrimmedBeforeSeq := sc_TrimmedBeforeSeq stream;
                   sc_counters := count_entry (sc_counters stream) trimmed (ie_Length entry) |} in
  <[ie_SegmentID entry := {| sb_Active := sb_Active builder;
                             sb_counters := count_entry (sb_counters builder) trimmed (ie_Length entry);
                             sb_streams := <[streamID := stream]> (sb_streams builder) |}]> builders.

(** A builder's statistics, its streams sorted. *)
Definition finish_stats (segmentID : Z) (builder : segmentStatsBuilder) : SegmentCompactionStats := {|
  sg_SegmentID := segmentID; sg_Active := sb_Active builder; sg_counters := sb_counters builder;
  sg_FullyCompactable := (0 <? ct_TotalRecords (sb_counters builder)) && (ct_LiveRecords (sb_counters builder) =? 0);
  sg_Streams := omap (λ id, sb_streams builder !! id) (merge_sort String.le (elements (dom (sb_streams builder))))
|}.

Definition stats_builders (s : Store) : gmap Z segmentStatsBuilder :=
  foldl (λ builders '(streamID, state),
    foldl (stats_step (st_activeSegmentID s) streamID (ss_trimBefore state)) builders (ss_entries state))
    ∅ (map_to_list (st_streams s)).

(** [compactabilityStatsLocked]; [CompactabilityStats] returns a copy of it. *)
Definition compactabilityStatsLocked (s : Store) : list SegmentCompactionStats :=
  let builders := stats_builders s in
  omap (λ id, finish_stats id <$> builders !! id) (segment_ids builders).

(** [segmentStatByID] *)
Definition segmentStatByID (stats : list SegmentCompactionStats) (segmentID : Z) : option SegmentCompactionStats :=
  snd <$> list_find (λ stat, sg_SegmentID stat = segmentID) stats.

(** ** Plans *)

(** [segmentCopyPlan] *)
Record segmentCopyPlan := {
  cp_oldSegmentID : Z;
  cp_newSegmentID : Z;
  cp_stats : SegmentCompactionStats;
  cp_entries : list recoveredIndexEntry
}.

(** [liveEntriesForSegmentLocked] *)
Definition liveEntriesForSegmentLocked (s : Store) (segmentID : Z) : list recoveredIndexEntry :=
  sort_by_offset (concat (map (λ '(streamID, state),
    map (λ e, {| ri_streamID := streamID; ri_entry := e |})
      (filter (λ e, ie_SegmentID e = segmentID ∧ is_trimmed (ss_trimBefore state) (ie_Seq e) = false) (ss_entries state)))
    (map_to_list (st_streams s)))).

(** [compactionPlansLocked]: the segments to delete and those to copy; [busy] is
    [segmentReaderBusyLocked]. *)
Definition plan_one (s : Store) (busy : Z → bool) (opts : CompactionOptions) (stat : SegmentCompactionStats) :
    option (Z + segmentCopyPlan) :=
  let c := sg_counters stat in
  if sg_Active stat || (ct_TotalRecords c =? 0) || busy (sg_SegmentID stat) then None
  else if co_DeleteFullyTrimmedSegments opts && sg_FullyCompactable stat then Some (inl (sg_SegmentID stat))
  else if negb (co_CopyPartialSegments opts) || (ct_CompactableRecords c =? 0) || (ct_LiveRecords c =? 0)
          || (ct_TotalBytes c =? 0) then None
  else if f64_ltb (co_CopyLiveRatioThreshold opts) (f64_div (f64 (ct_LiveBytes c)) (f64 (ct_TotalBytes c))) then None
  else Some (inr {| cp_oldSegmentID := sg_SegmentID stat; cp_newSegmentID := 0; cp_stats := stat;
                    cp_entries := liveEntriesForSegmentLocked s (sg_SegmentID stat) |}).
Definition compactionPlansLocked (s : Store) (busy : Z → bool) (stats : list SegmentCompactionStats)
    (opts : CompactionOptions) : list Z * list segmentCopyPlan :=
  let plans := omap (plan_one s busy opts) stats in
  (omap (λ p, match p with inl id => Some id | inr _ => None end) plans,
   omap (λ p, match p with inl _ => None | inr plan => Some plan end) plans).

(** The new segment numbers, from [nextSegmentID] on, and the number after them. *)
Definition with_new (plan : segmentCopyPlan) (id : Z) (entries : list recoveredIndexEntry) : segmentCopyPlan :=
  {| cp_oldSegmentID := cp_oldSegmentID plan; cp_newSegmentID := id; cp_stats := cp_stats plan; cp_entries := entries |}.
Fixpoint number_plans (nextSegmentID : Z) (plans : list segmentCopyPlan) : list segmentCopyPlan * Z :=
  match plans with
  | [] => ([], nextSegmentID)
  | plan :: plans =>
      let (plans, next) := number_plans (u64 (nextSegmentID + 1)) plans in
      (with_new plan nextSegmentID (cp_entries plan) :: plans, next)
  end.

(** [applyCompactionIndexChangesLocked] *)
Definition removed_segments (deletedIDs : list Z) (copyPlans : list segmentCopyPlan) : list Z :=
  deletedIDs ++ map cp_oldSegmentID copyPlans.
Definition new_entries (copyPlans : list segmentCopyPlan) (streamID : string) : list streamIndexEntry :=
  ri_entry <$> filter (λ item, ri_streamID item = streamID) (concat (map cp_entries copyPlans)).
Definition applyCompactionIndexChangesLocked (s : Store) (deletedIDs : list Z) (copyPlans : list segmentCopyPlan) : Store :=
  with_streams s (map_imap (λ streamID state,
    let kept := filter (λ e, ie_SegmentID e ∉ removed_segments deletedIDs copyPlans) (ss_entries state) in
    Some {| ss_nextSeq := if ss_nextSeq state <? ss_trimBefore state then ss_trimBefore state else ss_nextSeq state;
            ss_trimBefore := ss_trimBefore state;
            ss_entries := merge_sort seq_le (kept ++ new_entries copyPlans streamID) |}) (st_streams s)).

(** [compactionSafeBeforeLocked] *)
Definition compactionSafeBeforeLocked (s : Store) : gmap string Z :=
  omap (λ state, if 0 <? ss_trimBefore state then Some (ss_trimBefore state) else None) (st_streams s).

(** [maxSegmentIDOnDisk] *)
Definition maxSegmentIDOnDisk (d : Disk) : Z := default 0 (last (segment_ids (dk_log d))).

(** ** Disk operations that may fail *)

(** What becomes of an operation: it works, or fails, or the machine stops; in the last
    two cases [n] says how much of it was done. *)
Inductive fate := Works | Fails (n : nat) | Crashes (n : nat).

(** The fate of the n-th operation, [ctx.Err() != nil] and the clock at that point, the
    references of the cached reader of a segment, and the pooled buffer in which a record
    is encoded (a compaction encodes a record at most once). *)
Record CEnv := {
  ce_fate : nat → fate;
  ce_canceled : nat → bool;
  ce_nanos : nat → Z;
  ce_reader : Z → option Z;
  ce_pooled : record → bytes
}.
Record CState := { cs_store : Store; cs_disk : Disk; cs_ops : nat }.
Inductive outcome (A : Type) := Done (a : A) | Failed (e : log_error) | Crashed.
Arguments Done {A} a.
Arguments Failed {A} e.
Arguments Crashed {A}.

Definition C (A : Type) : Type := CEnv → CState → CState * outcome A.
#[export] Instance C_ret : MRet C := λ A a _ st, (st, Done a).
#[export] Instance C_bind : MBind C := λ A B f m env st,
  match m env st with
  | (st, Done a) => f a env st
  | (st, Failed e) => (st, Failed e)
  | (st, Crashed) => (st, Crashed)
  end.

Definition fail {A} (e : log_error) : C A := λ _ st, (st, Failed e).
Definition get_env : C CEnv := λ env st, (st, Done env).
Definition get_store : C Store := λ _ st, (st, Done (cs_store st)).
Definition get_disk : C Disk := λ _ st, (st, Done (cs_disk st)).
Definition put_store (s : Store) : C unit := λ _ st,
  ({| cs_store := s; cs_disk := cs_disk st; cs_ops := cs_ops st |}, Done tt).
Definition tick (st : CState) (s : Store) (d : Disk) : CState :=
  {| cs_store := s; cs_disk := d; cs_ops := S (cs_ops st) |}.
Definition lift {A} (r : result log_error A) : C A := match r with Ok a => mret a | Err e => fail e end.

(** One operation: what it does in part, and in full. *)
Definition step (partial : nat → Store → Disk → Store * Disk)
    (full : Store → Disk → Store * Disk * option log_error) : C unit := λ env st,
  let s := cs_store st in let d := cs_disk st in
  match ce_fate env (cs_ops st) with
  | Works => match full s d with
             | (s, d, None) => (tick st s d, Done tt)
             | (s, d, Some e) => (tick st s d, Failed e)
             end
  | Fails n => let (s, d) := partial n s d in (tick st s d, Failed ErrIO)
  | Crashes n => let (s, d) := partial n s d in (tick st s d, Crashed)
  end.
Definition act (partial : nat → Disk → Disk) (full : Disk → Disk) : C unit :=
  step (λ n s d, (s, partial n d)) (λ s d, (s, full d, None)).
(** An operation that happens or not, and one that does not change the disk. *)
Definition atomic (f : Disk → Disk) : C unit := act (λ _ d, d) f.
Definition access : C unit := atomic (λ d, d).

(** [ctx.Err()] *)
Definition check_canceled : C unit := λ env st,
  (tick st (cs_store st) (cs_disk st), if ce_canceled env (cs_ops st) then Failed ErrCanceled else Done tt).
(** [time.Now()] *)
Definition now : C Z := λ env st, (tick st (cs_store st) (cs_disk st), Done (ce_nanos env (cs_ops st))).
(** A call whose error is kept for later, and a deferred cleanup after an error. *)
Definition try (m : C unit) : C (option log_error) := λ env st,
  match m env st with
  | (st, Done _) => (st, Done None)
  | (st, Failed e) => (st, Done (Some e))
  | (st, Crashed) => (st, Crashed)
  end.
Definition on_failure {A} (m : C A) (cleanup : C unit) : C A := λ env st,
  match m env st with
  | (st, Failed e) => match cleanup env st with (st, Crashed) => (st, Crashed) | (st, _) => (st, Failed e) end
  | r => r
  end.
(** A loop over a slice. *)
Fixpoint for_each {A} (f : A → C unit) (l : list A) : C unit :=
  match l with [] => mret tt | a :: l => _ ← f a; for_each f l end.
Fixpoint map_each {A B} (f : A → C B) (l : list A) : C (list B) :=
  match l with [] => mret [] | a :: l => b ← f a; bs ← map_each f l; mret (b :: bs) end.

(** ** The files of a compaction *)

Definition remove_index_file (d : Disk) (id : Z) : Disk := with_files d (dk_log d) (delete id (dk_index d)).
Definition remove_log_file (d : Disk) (id : Z) : Disk := with_files d (delete id (dk_log d)) (dk_index d).
Definition remove_log_tmp (d : Disk) (id : Z) : Disk := with_tmps d (delete id (dk_logTmp d)) (dk_indexTmp d).
Definition remove_index_tmp (d : Disk) (id : Z) : Disk := with_tmps d (dk_logTmp d) (delete id (dk_indexTmp d)).
Definition with_log_tmp (d : Disk) (id : Z) (f : file) : Disk := with_tmps d (<[id := f]> (dk_logTmp d)) (dk_indexTmp d).
Definition with_index_tmp (d : Disk) (id : Z) (b : bytes) : Disk := with_tmps d (dk_logTmp d) (<[id := b]> (dk_indexTmp d)).
Definition with_manifest (d : Disk) (m : option compactionManifest) : Disk :=
  {| dk_log := dk_log d; dk_index := dk_index d; dk_retention := dk_retention d; dk_manifest := m;
     dk_logTmp := dk_logTmp d; dk_indexTmp := dk_indexTmp d;
     dk_lost := {| lc_retention := lc_retention (dk_lost d); lc_manifest := false |} |}.

(** [removeSegmentFilesOnDisk]: both removals are tried. *)
Definition remove_segment (id : Z) : C unit :=
  e1 ← try (atomic (λ d, remove_index_file d id));
  e2 ← try (atomic (λ d, remove_log_file d id));
  match e1, e2 with None, None => mret tt | _, _ => fail ErrIO end.

(** [closeSegmentReaderLocked] *)
Definition closeSegmentReaderLocked (id : Z) : C unit :=
  env ← get_env;
  match ce_reader env id with
  | None => mret tt
  | Some refs => if 0 <? refs then fail (ErrActiveReaders id) else access
  end.
(** [segmentReaderBusyLocked] *)
Definition segmentReaderBusyLocked (env : CEnv) (id : Z) : bool :=
  match ce_reader env id with Some refs => 0 <? refs | None => false end.

(** [writeCompactionManifestLocked]: the temporary file is not read by anything. *)
Definition writeCompactionManifestLocked (m : compactionManifest) : C unit :=
  _ ← access;
  on_failure (atomic (λ d, with_manifest d (Some m))) access.

(** [os.OpenFile(_, O_CREATE|O_EXCL)] of the temporary files *)
Definition create_log_tmp (id : Z) : C unit :=
  step (λ _ s d, (s, d)) (λ s d, if has (dk_logTmp d) id then (s, d, Some ErrIO) else (s, with_log_tmp d id empty_file, None)).
Definition create_index_tmp (id : Z) : C unit :=
  step (λ _ s d, (s, d)) (λ s d, if has (dk_indexTmp d) id then (s, d, Some ErrIO) else (s, with_index_tmp d id [], None)).
(** [Write] and [Sync] on them *)
Definition log_tmp (d : Disk) (id : Z) : file := default empty_file (dk_logTmp d !! id).
Definition append_log_tmp (d : Disk) (id : Z) (b : bytes) : Disk :=
  with_log_tmp d id {| f_data := f_data (log_tmp d id) ++ b; f_synced := f_synced (log_tmp d id) |}.
Definition sync_log_tmp (d : Disk) (id : Z) : Disk :=
  with_log_tmp d id {| f_data := f_data (log_tmp d id); f_synced := length (f_data (log_tmp d id)) |}.
Definition write_log_tmp (id : Z) (b : bytes) : C unit :=
  act (λ n d, append_log_tmp d id (take n b)) (λ d, append_log_tmp d id b).
(** [errors.Join(Sync, Close)]: [Fails 0] is a failed sync, [Fails (S _)] a failed close. *)
Definition sync_close_log_tmp (id : Z) : C unit :=
  act (λ n d, match n with O => d | S _ => sync_log_tmp d id end) (λ d, sync_log_tmp d id).
Definition write_index_tmp (id : Z) (b : bytes) : C unit :=
  act (λ n d, with_index_tmp d id (take n b)) (λ d, with_index_tmp d id b).

(** [os.Open] of a segment's log: its bytes *)
Definition open_log (id : Z) : C bytes :=
  _ ← access;
  d ← get_disk;
  match dk_log d !! id with None => fail ErrNoSegment | Some f => mret (f_data f) end.

(** [closeActiveFilesLocked(true)] may stop before, between or after its flush and its
    sync, [openActiveFilesLocked] after it has created the log file. *)
Section Compact.
Context `{ChecksumLib, IndexJSON}.

Definition close_active_partial (n : nat) (s : Store) (d : Disk) : Store * Disk :=
  let s' := with_active s false (st_activeSegmentID s) (st_activeSegmentBytes s) in
  match n with
  | O => (s', d)
  | S O => (s', (flushActiveIndexLocked s d).1)
  | _ => (s', syncFilesLocked s (flushActiveIndexLocked s d).1)
  end.
Definition close_active : C unit := step close_active_partial closeActiveFilesLocked.
Definition open_active : C unit :=
  step (λ n s d, match n with
                 | O => (s, d)
                 | _ => (s, with_log d (st_activeSegmentID s) (log_file d (st_activeSegmentID s)))
                 end)
       (λ s d, (openActiveFilesLocked s d, None)).

(** [throttleCompactionWrite] *)
Definition throttleCompactionWrite (bytesWritten maxBytesPerSecond : Z) : C unit :=
  _ ← check_canceled;
  if (bytesWritten <=? 0) || (maxBytesPerSecond <=? 0) then mret tt
  else if Z.quot (i64 (bytesWritten * 1000000000)) maxBytesPerSecond <=? 0 then mret tt
  else check_canceled.

(** [readRecordAt] at [int64(offset)] *)
Definition readRecordAt (data : bytes) (offset : Z) : result log_error (record * nat) :=
  if i64 offset <? 0 then Err ErrIO else readRecordAtIO (readAtSegmentReader data) (Z.to_nat (i64 offset)).

(** One round of the copy loop: the item's new entry, and the offset after it. *)
Definition copy_record (data : bytes) (newID : Z) (maxBytesPerSecond : Z) (item : recoveredIndexEntry) (offset : Z) :
    C (recoveredIndexEntry * Z) :=
  let entry := ri_entry item in
  _ ← check_canceled;
  _ ← access;
  '(rec, nextOffset) ← lift (readRecordAt data (ie_Offset entry));
  if negb (bool_decide (StreamID rec = ri_streamID item)) || negb (Seq rec =? ie_Seq entry)
     || negb (i64 (Z.of_nat nextOffset - i64 (ie_Offset entry)) =? ie_Length entry)
  then fail ErrCorruptRecord
  else
    env ← get_env;
    '(encoded, _) ← lift (encodeRecordPooled (ce_pooled env rec) rec (ChecksumTyp rec));
    _ ← write_log_tmp newID encoded;
    let len := Z.of_nat (length encoded) in
    _ ← throttleCompactionWrite len maxBytesPerSecond;
    mret ({| ri_streamID := ri_streamID item;
             ri_entry := {| ie_Seq := ie_Seq entry; ie_SegmentID := newID; ie_Offset := offset; ie_Length := u32 len |} |},
          u64 (offset + len)).
Fixpoint copy_records (data : bytes) (newID maxBytesPerSecond : Z) (items : list recoveredIndexEntry) (offset : Z) :
    C (list recoveredIndexEntry) :=
  match items with
  | [] => mret []
  | item :: items =>
      '(entry, offset) ← copy_record data newID maxBytesPerSecond item offset;
      entries ← copy_records data newID maxBytesPerSecond items offset;
      mret (entry :: entries)
  end.

(** [writeCompactedSegmentLocked]; the deferred cleanup ignores its own errors. *)
Definition cleanup_copy (id : Z) : C unit :=
  _ ← try (atomic (λ d, remove_log_tmp d id));
  _ ← try (atomic (λ d, remove_index_tmp d id));
  _ ← try (atomic (λ d, remove_log_file d id));
  _ ← try (atomic (λ d, remove_index_file d id));
  mret tt.
Definition write_copy (plan : segmentCopyPlan) (maxBytesPerSecond : Z) : C segmentCopyPlan :=
  let id := cp_newSegmentID plan in
  data ← open_log (cp_oldSegmentID plan);
  _ ← create_log_tmp id;
  entries ← copy_records data id maxBytesPerSecond (cp_entries plan) 0;
  _ ← sync_close_log_tmp id;
  _ ← create_index_tmp id;
  b ← lift (writeSegmentIndex id entries);
  _ ← write_index_tmp id b;
  _ ← access;
  _ ← atomic (λ d, rename_log d id);
  _ ← atomic (λ d, rename_index d id);
  mret (with_new plan id entries).
Definition writeCompactedSegmentLocked (plan : segmentCopyPlan) (maxBytesPerSecond : Z) : C segmentCopyPlan :=
  on_failure (write_copy plan maxBytesPerSecond) (cleanup_copy (cp_newSegmentID plan)).

(** [rebuildIdempotencyLocked] *)
Definition entry_segments (s : Store) : list Z :=
  merge_sort Z.le (elements (list_to_set (concat (map (λ '(_, state), map ie_SegmentID (ss_entries state))
    (map_to_list (st_streams s)))) : gset Z)).
Fixpoint rebuild_segments (s : Store) (ids : list Z) (idem : gmap string record) : C (gmap string record) :=
  match ids with
  | [] => mret idem
  | id :: ids =>
      data ← open_log id;
      _ ← access;
      idem ← lift (hydrate data (sort_by_offset (segmentIndexEntriesLocked s id)) idem);
      _ ← access;
      rebuild_segments s ids idem
  end.
Definition rebuildIdempotencyLocked : C unit :=
  s ← get_store;
  idem ← rebuild_segments s (entry_segments s) ∅;
  put_store (with_idempotency s idem).

(** ** [Compact] *)

Record CompactedSegment := { cg_OldSegmentID : Z; cg_NewSegmentID : Z; cg_TotalBytes : Z; cg_LiveBytes : Z }.
Record CompactionResult := {
  cr_CompactionID : string;
  cr_DeletedSegments : list Z;
  cr_CopiedSegments : list CompactedSegment;
  cr_ReclaimedBytes : Z;
  cr_RewrittenBytes : Z;
  cr_CompactableStats : list SegmentCompactionStats
}.

Definition drop_segment (id : Z) : C unit := _ ← closeSegmentReaderLocked id; remove_segment id.
(** The index changes of one phase, when it has segments. *)
Definition apply_changes (deletedIDs : list Z) (copyPlans : list segmentCopyPlan) : C unit :=
  match deletedIDs, copyPlans with
  | [], [] => mret tt
  | _, _ =>
      s ← get_store;
      _ ← put_store (applyCompactionIndexChangesLocked s deletedIDs copyPlans);
      rebuildIdempotencyLocked
  end.
(** A fresh active segment after the copies. *)
Definition reopen_active (copyPlans : list segmentCopyPlan) (nextSegmentID : Z) : C unit :=
  match copyPlans with
  | [] => mret tt
  | _ =>
      _ ← close_active;
      s ← get_store;
      _ ← put_store (with_active s (st_open s) nextSegmentID 0);
      open_active
  end.
Definition reclaimed (stats : list SegmentCompactionStats) (deleteIDs : list Z) (copyPlans : list segmentCopyPlan) : Z :=
  let deleted := foldl (λ n id, match segmentStatByID stats id with
                                | Some stat => u64 (n + ct_TotalBytes (sg_counters stat))
                                | None => n
                                end) 0 deleteIDs in
  foldl (λ n plan, let c := sg_counters (cp_stats plan) in u64 (n + u64 (ct_TotalBytes c - ct_LiveBytes c))) deleted copyPlans.
Definition manifest_of (id : string) (deleteIDs : list Z) (copyPlans : list segmentCopyPlan) (safeBefore : gmap string Z)
    (started completed : Z) : compactionManifest := {|
  cm_CompactionID := id; cm_DeletedSegments := deleteIDs;
  cm_CopiedSegments := map (λ plan, {| mc_OldSegmentID := cp_oldSegmentID plan; mc_NewSegmentID := cp_newSegmentID plan |}) copyPlans;
  cm_SafeBefore := safeBefore; cm_StartedAtMs := started; cm_CompletedAtMs := completed
|}.
(** [time.Now().UnixMilli()] *)
Definition unixMilli (nanos : Z) : Z := Z.div nanos 1000000.

(** What [Compact] does once it has plans: the manifest, the deletions, the copies, the
    removal of what was copied, a fresh active segment, and the manifest again. *)
Definition run_plans (opts : CompactionOptions) (compactionID : string) (safeBefore : gmap string Z) (started : Z)
    (deleteIDs : list Z) (copyPlans : list segmentCopyPlan) (nextSegmentID : Z) : C unit :=
  _ ← writeCompactionManifestLocked (manifest_of compactionID deleteIDs copyPlans safeBefore started 0);
  _ ← for_each drop_segment deleteIDs;
  _ ← apply_changes deleteIDs [];
  copyPlans ← map_each (λ plan, writeCompactedSegmentLocked plan (co_MaxBytesPerSecond opts)) copyPlans;
  _ ← apply_changes [] copyPlans;
  _ ← for_each (λ plan, drop_segment (cp_oldSegmentID plan)) copyPlans;
  _ ← reopen_active copyPlans nextSegmentID;
  nanos ← now;
  writeCompactionManifestLocked (manifest_of compactionID deleteIDs copyPlans safeBefore started (unixMilli nanos)).

Definition Compact (opts : CompactionOptions) : C CompactionResult :=
  opts ← lift (normalize_compaction opts);
  _ ← check_canceled;
  s ← get_store;
  env ← get_env;
  let stats := compactabilityStatsLocked s in
  let (deleteIDs, copyPlans) := compactionPlansLocked s (segmentReaderBusyLocked env) stats opts in
  if bool_decide (deleteIDs = []) && bool_decide (copyPlans = []) then
    mret {| cr_CompactionID := ""; cr_DeletedSegments := []; cr_CopiedSegments := []; cr_ReclaimedBytes := 0;
            cr_RewrittenBytes := 0; cr_CompactableStats := stats |}
  else
    _ ← access;
    d ← get_disk;
    let (copyPlans, nextSegmentID) := number_plans (u64 (maxSegmentIDOnDisk d + 1)) copyPlans in
    idNanos ← now;
    startNanos ← now;
    let compactionID := "compact-" +:+ format_int idNanos in
    _ ← run_plans opts compactionID (compactionSafeBeforeLocked s) (unixMilli startNanos) deleteIDs copyPlans nextSegmentID;
    mret {| cr_CompactionID := compactionID; cr_DeletedSegments := deleteIDs;
            cr_CopiedSegments := map (λ plan, {| cg_OldSegmentID := cp_oldSegmentID plan; cg_NewSegmentID := cp_newSegmentID plan;
                cg_TotalBytes := ct_TotalBytes (sg_counters (cp_stats plan));
                cg_LiveBytes := ct_LiveBytes (sg_counters (cp_stats plan)) |}) copyPlans;
            cr_ReclaimedBytes := reclaimed stats deleteIDs copyPlans;
            cr_RewrittenBytes := foldl (λ n plan, u64 (n + ct_LiveBytes (sg_counters (cp_stats plan)))) 0 copyPlans;
            cr_CompactableStats := stats |}.
End Compact.

Close Scope Z_scope.
