(* ===== verification/CompactionPlan.v ===== *)
(** What a compaction does to the abstract log: it drops records below the trim marks and
    moves others to new segments.  [compacted] says so, [moved] is the log a plan leads to,
    and the index changes of [Compaction] turn the index of a log into that of the moved one. *)
From S2P Require Import Prelude Bytes Checksum LogRecord RecordCodec SegmentIndex LogStore LogSafety LogRead LogRecovery Compaction.

Open Scope Z_scope.

Section Plan.
Context `{ChecksumLib, IndexJSON}.

(** ** Dropping trimmed records *)

Definition trimmed (t : string → Z) (a : appended) : Prop := Seq (ap_rec a) < t (StreamID (ap_rec a)).
#[export] Instance trimmed_dec t a : Decision (trimmed t a).
Proof. unfold trimmed. apply _. Defined.

Inductive compacted (t : string → Z) : list appended → list appended → Prop :=
| co_nil : compacted t [] []
| co_drop a h h' : trimmed t a → compacted t h h' → compacted t (a :: h) h'
| co_keep a b h h' : ap_rec b = ap_rec a → compacted t h h' → compacted t (a :: h) (b :: h').

Lemma compacted_refl t h : compacted t h h.
Proof. induction h; by constructor. Qed.
Lemma compacted_records t h h' : compacted t h h' → (ap_rec <$> h') `sublist_of` (ap_rec <$> h).
Proof. induction 1 as [|a h h' _ _ IH|a b h h' Hr _ IH]; cbn; [constructor|by constructor|rewrite Hr; by constructor]. Qed.
(** Records with some property, as they were. *)
Lemma compacted_live t (P : record → Prop) `{!∀ a : appended, Decision (P (ap_rec a))} h h' :
  (∀ a, a ∈ h → trimmed t a → ¬ P (ap_rec a)) → compacted t h h' →
  ap_rec <$> filter (λ a, P (ap_rec a)) h' = ap_rec <$> filter (λ a, P (ap_rec a)) h.
Proof.
  intros Hp Hc. induction Hc as [|a h h' Ht _ IH|a b h h' Hr _ IH]; [done| |]; rewrite ?filter_cons.
  - rewrite decide_False by (apply Hp; [left|done]). apply IH. intros x Hx. apply Hp. by right.
  - specialize (IH ltac:(intros x Hx; apply Hp; by right)). do 2 case_decide; cbn; rewrite ?Hr, ?IH; congruence.
Qed.
Lemma compacted_some t (P : record → Prop) `{!∀ a : appended, Decision (P (ap_rec a))} h h' : compacted t h h' →
  (ap_rec <$> filter (λ a, P (ap_rec a)) h') `sublist_of` (ap_rec <$> filter (λ a, P (ap_rec a)) h).
Proof.
  induction 1 as [|a h h' _ _ IH|a b h h' Hr _ IH]; rewrite ?filter_cons; [done| |].
  - case_decide; [|done]. by constructor.
  - do 2 case_decide; cbn; rewrite ?Hr in *; [by constructor|done..].
Qed.

Lemma sublist_strongly_sorted {A} (R : A → A → Prop) l k : l `sublist_of` k → StronglySorted R k → StronglySorted R l.
Proof.
  induction 1 as [|x l k Hs IH|x l k Hs IH]; intros Hk; [done| |].
  - apply StronglySorted_inv in Hk as [Hk Hx]. constructor; [by apply IH|]. rewrite Forall_forall in *. intros y Hy.
    apply Hx. by eapply elem_of_sublist.
  - apply StronglySorted_inv in Hk as [Hk _]. by apply IH.
Qed.

Lemma compacted_from_seq t h h' id n : compacted t h h' → t id <= n → ap_rec <$> from_seq h' id n = ap_rec <$> from_seq h id n.
Proof.
  intros Hc Hn. unfold from_seq, of_stream. rewrite !list_filter_filter.
  apply (compacted_live t (λ r, n <= Seq r ∧ StreamID r = id) h h'); [|done].
  intros a _ Ht [Hs Hid]. unfold trimmed in Ht. rewrite Hid in Ht. lia.
Qed.
Lemma compacted_seqs t h h' id : compacted t h h' → seqs h' id `sublist_of` seqs h id.
Proof.
  intros Hc. unfold seqs, of_stream. rewrite !list_fmap_compose. apply fmap_sublist. by apply (compacted_some t (λ r, StreamID r = id)).
Qed.
Lemma compacted_keyed t h h' : compacted t h h' → keyed h' `sublist_of` keyed h.
Proof.
  intros Hc. unfold keyed. rewrite !list_fmap_compose. apply fmap_sublist. by apply (compacted_some t (λ r, IdempotencyKey r ≠ EmptyString)).
Qed.

(** ** Moving records *)

Lemma checksum_of_valid a : valid a → validateChecksumType (ChecksumTyp (ap_rec a)) = Ok tt ∧
  default_typ (ChecksumTyp (ap_rec a)) = ChecksumTyp (ap_rec a).
Proof.
  intros [(rec & typ & crc & He & _ & ->) _ _ _]. cbn. split; [apply He|]. unfold default_typ.
  destruct (Z.eqb_spec typ 0) as [->|]; [|done]. pose proof (enc_typ _ _ _ _ He). done.
Qed.

(** What a copy writes for a record; the reserved bytes of its header are the buffer's. *)
Definition reencoded (pooled : record → bytes) (r : record) : bytes :=
  match encodeRecordPooled (pooled r) r (ChecksumTyp r) with Ok (b, _) => b | Err _ => [] end.
Definition relocate (pooled : record → bytes) (new : Z) (a : appended) : appended :=
  {| ap_seg := new; ap_rec := ap_rec a; ap_enc := reencoded pooled (ap_rec a) |}.

Lemma encode_again pooled r typ : validateChecksumType typ = Ok tt → default_typ typ = typ →
  Z.of_nat (str_len (StreamID r)) <= 0xffff → Z.of_nat (str_len (EventType r)) <= 0xffff →
  Z.of_nat (str_len (IdempotencyKey r)) <= 0xffff → ∀ crc, checksum (record_body r) typ = Ok crc →
  ∃ b, encodeRecordPooled pooled r typ = Ok (b, crc).
Proof.
  intros Hv Hd H1 H2 H3 crc Hc. unfold encodeRecordPooled, encodeRecordWithBuffer. cbv zeta. rewrite !Hd.
  assert (Hs : ∃ n, encodedRecordSize r typ = Ok n).
  { unfold encodedRecordSize. rewrite Hd, Hv. repeat (case_match; [lia|]). eauto. }
  destruct Hs as [n Hs]. rewrite !Hs, !ok_bind, Hc. eauto.
Qed.

Lemma reencode_ok pooled new a : valid a →
  (∃ crc, encodeRecordPooled (pooled (ap_rec a)) (ap_rec a) (ChecksumTyp (ap_rec a)) = Ok (reencoded pooled (ap_rec a), crc)) ∧
  valid (relocate pooled new a) ∧ length (reencoded pooled (ap_rec a)) = length (ap_enc a).
Proof.
  intros Hv. pose proof (checksum_of_valid a Hv) as [Ht Hd]. pose proof Hv as [(rec & typ & crc & He & Hf & Hr) Hs Hq Hl].
  unfold reencoded. destruct (encode_again (pooled (ap_rec a)) (ap_rec a) (ChecksumTyp (ap_rec a)) Ht Hd) with (crc := crc) as [b Hb].
  1-4: rewrite Hr; apply He.
  rewrite Hb. assert (Hb' : encoded (ap_rec a) (ChecksumTyp (ap_rec a)) b crc) by (rewrite <- Hd at 1; by eapply encode_pooled_encoded).
  assert (Hlen : length b = length (ap_enc a)).
  { rewrite (encoded_length _ _ _ _ Hb'), (encoded_length _ _ _ _ He), Hr. done. }
  split_and!; [by exists crc| |done]. split; cbn.
  - exists (ap_rec a), (ChecksumTyp (ap_rec a)), crc. unfold reencoded. rewrite Hb. split_and!; [done| |].
    + rewrite Hr. destruct Hf. by split.
    + rewrite Hr at 1. cbn. by rewrite Hr.
  - done.
  - done.
  - unfold reencoded. rewrite Hb. by rewrite Hlen.
Qed.

(** A plan: the segments to delete, and where the live records of a segment go. *)
Record plan := { pl_trim : string → Z; pl_pooled : record → bytes; pl_deleted : list Z; pl_copies : gmap Z Z }.
Definition live (P : plan) (a : appended) : Prop := ¬ trimmed (pl_trim P) a.
#[export] Instance live_dec P a : Decision (live P a).
Proof. unfold live. apply _. Defined.
Definition move (P : plan) (a : appended) : option appended :=
  if decide (ap_seg a ∈ pl_deleted P) then None
  else match pl_copies P !! ap_seg a with
       | Some new => if decide (live P a) then Some (relocate (pl_pooled P) new a) else None
       | None => Some a
       end.
Definition moved (P : plan) (h : list appended) : list appended := omap (move P) h.
(** What a copy leaves of a segment. *)
Definition copy_of (P : plan) (h : list appended) (old new : Z) : list appended :=
  relocate (pl_pooled P) new <$> filter (live P) (in_seg old h).

(** The plans of a log whose active segment is [active]. *)
Record plan_ok (P : plan) (h : list appended) (active : Z) : Prop := {
  po_deleted : ∀ id, id ∈ pl_deleted P → id < active ∧ Forall (trimmed (pl_trim P)) (in_seg id h);
  po_copies : ∀ old new, pl_copies P !! old = Some new → old < active < new ∧ old ∉ pl_deleted P;
  po_inj : ∀ old1 old2 new, pl_copies P !! old1 = Some new → pl_copies P !! old2 = Some new → old1 = old2
}.

Lemma moved_cons P a h : moved P (a :: h) = match move P a with Some b => b :: moved P h | None => moved P h end.
Proof. done. Qed.

Lemma moved_compacted P h active : plan_ok P h active → compacted (pl_trim P) h (moved P h).
Proof.
  intros Hp. assert (Hd : Forall (λ a, ap_seg a ∈ pl_deleted P → trimmed (pl_trim P) a) h).
  { apply Forall_forall. intros a Ha Hid. destruct (po_deleted _ _ _ Hp _ Hid) as [_ Hall].
    apply (proj1 (Forall_forall _ _) Hall). by apply list_elem_of_filter. }
  clear Hp. induction Hd as [|a h Ha _ IH]; [constructor|]. rewrite moved_cons. unfold move. case_decide; [apply co_drop; auto|].
  destruct (pl_copies P !! ap_seg a); [case_decide as Hl|]; [by apply co_keep| |by apply co_keep].
  apply co_drop; [|done]. unfold live in Hl. by destruct (decide (trimmed (pl_trim P) a)).
Qed.

(** The records of one segment of the moved log. *)
Lemma in_seg_omap f g id (h : list appended) :
  (∀ a, a ∈ h → (f a ≫= λ b, if decide (ap_seg b = id) then Some b else None) = g a) → in_seg id (omap f h) = omap g h.
Proof.
  induction h as [|a h IH]; intros Hg; [done|]. change (omap g (a :: h)) with (match g a with Some b => b :: omap g h | None => omap g h end).
  change (omap f (a :: h)) with (match f a with Some b => b :: omap f h | None => omap f h end).
  rewrite <- (Hg a) by left. rewrite <- IH by (intros x Hx; apply Hg; by right).
  unfold in_seg. destruct (f a) as [b|]; [|done]. rewrite filter_cons. cbn [mbind option_bind]. by case_decide.
Qed.
Lemma omap_none {A B} (l : list A) : omap (λ _, @None B) l = [].
Proof. by induction l. Qed.
Lemma omap_filter {A B} (P : A → Prop) `{!∀ x, Decision (P x)} (f : A → B) (l : list A) :
  omap (λ x, if decide (P x) then Some (f x) else None) l = f <$> filter P l.
Proof.
  induction l as [|x l IH]; [done|]. rewrite filter_cons.
  change (omap ?g (x :: l)) with (match g x with Some b => b :: omap g l | None => omap g l end). cbv beta.
  case_decide; cbn; by rewrite IH.
Qed.

Lemma in_seg_copied P h active old new : plan_ok P h active → Forall (λ a, ap_seg a <= active) h →
  pl_copies P !! old = Some new → in_seg new (moved P h) = copy_of P h old new.
Proof.
  intros [Hd Hc Hinj] Hr Hon. unfold copy_of, in_seg, moved. rewrite list_filter_filter, <- omap_filter. apply in_seg_omap.
  intros a Ha. rewrite Forall_forall in Hr. specialize (Hr a Ha). destruct (Hc _ _ Hon) as [Hlt Hnd]. unfold move.
  case_decide as Hda; [|destruct (pl_copies P !! ap_seg a) as [n|] eqn:Hn; [destruct (decide (live P a)) as [Hl|Hl]|]].
  - rewrite decide_False; [done|]. intros [_ <-]. done.
  - cbn. case_decide as Hs; [subst n|].
    + by rewrite decide_True by (split; [done|by eapply Hinj]).
    + rewrite decide_False; [done|]. intros [_ <-]. congruence.
  - rewrite decide_False; [done|]. by intros [? _].
  - cbn. rewrite !decide_False; [done| |lia]. intros [_ <-]. congruence.
Qed.
Lemma in_seg_kept P h active id : plan_ok P h active → Forall (λ a, ap_seg a <= active) h →
  (∀ old, pl_copies P !! old ≠ Some id) →
  in_seg id (moved P h) = if decide (id ∈ pl_deleted P ∨ is_Some (pl_copies P !! id)) then [] else in_seg id h.
Proof.
  intros [Hd Hc Hinj] Hr Hnew. transitivity (omap (λ a, if decide (ap_seg a = id ∧ (id ∉ pl_deleted P) ∧ (pl_copies P !! id = None))
    then Some (Datatypes.id a) else None) h).
  - apply in_seg_omap. intros a Ha. rewrite Forall_forall in Hr. specialize (Hr a Ha). unfold move.
    case_decide as Hda; [|destruct (pl_copies P !! ap_seg a) as [n|] eqn:Hn; [destruct (decide (live P a)) as [Hl|Hl]|]].
    + rewrite decide_False; [done|]. by intros (<- & ? & _).
    + cbn. rewrite !decide_False; [done|intros (<- & _ & ?); congruence|intros ->; by eapply Hnew].
    + rewrite decide_False; [done|]. intros (<- & _ & ?). congruence.
    + cbn. case_decide as Hs; [subst id|]; [by rewrite decide_True|]. rewrite decide_False; [done|]. by intros [? _].
  - rewrite (omap_filter _ Datatypes.id), list_fmap_id. unfold in_seg. case_decide as Hx.
    + apply elem_of_nil_inv. intros a [(_ & Hnd & Hnc) _]%list_elem_of_filter. destruct Hx as [?|[n Hn]]; [done|congruence].
    + apply list_filter_iff. intros a. split; [tauto|]. intros <-. split_and!; [done|tauto|]. destruct (pl_copies P !! ap_seg a) eqn:Hn; [|done].
      destruct Hx. right. by eexists.
Qed.

Lemma copied_or_not P id : (∃ old, pl_copies P !! old = Some id) ∨ ∀ old, pl_copies P !! old ≠ Some id.
Proof.
  destruct (decide (map_Exists (λ _ new, new = id) (pl_copies P))) as [(old & new & Hn & <-)|Hn]; [left; by exists old|].
  right. intros old Ho. apply Hn. by exists old, id.
Qed.

Lemma concat_relocated P new l : Forall valid l →
  length (concat (map ap_enc (relocate (pl_pooled P) new <$> l))) = length (concat (map ap_enc l)).
Proof.
  induction 1 as [|a l Ha _ IH]; [done|]. rewrite fmap_cons. cbn [map concat]. rewrite !length_app, IH. f_equal.
  cbn. by destruct (reencode_ok (pl_pooled P) new a Ha) as (_ & _ & ->).
Qed.
Lemma filter_bytes (Q : appended → Prop) `{!∀ a, Decision (Q a)} l :
  (length (concat (map ap_enc (filter Q l))) ≤ length (concat (map ap_enc l)))%nat.
Proof. induction l as [|a l IH]; [done|]. rewrite filter_cons. case_decide; cbn [map concat]; rewrite !length_app; lia. Qed.

Lemma copy_size P h active old new : history_ok h active →
  (length (concat (map ap_enc (copy_of P h old new))) ≤ length (seg_bytes h old))%nat.
Proof.
  intros Hh. unfold copy_of. rewrite concat_relocated; [apply filter_bytes|].
  apply Forall_forall. intros a [_ [_ Ha]%list_elem_of_filter]%list_elem_of_filter. by eapply valid_in.
Qed.

Lemma moved_from P h b : b ∈ moved P h → ∃ a, a ∈ h ∧ move P a = Some b.
Proof. intros Hb. unfold moved in Hb. by apply list_elem_of_omap in Hb. Qed.

Lemma history_moved P h active active' : plan_ok P h active → history_ok h active → active <= active' < 2 ^ 64 →
  (∀ old new, pl_copies P !! old = Some new → new <= active') → history_ok (moved P h) active'.
Proof.
  intros Hp Hh Hle Hnew. pose proof (moved_compacted P h active Hp) as Hc.
  assert (Hr : Forall (λ a, ap_seg a <= active) h) by (eapply Forall_impl; [apply (ho_range _ _ Hh)|]; cbn; lia).
  split.
  - apply Forall_forall. intros b (a & Ha & Hm)%moved_from. pose proof (valid_in _ _ _ Hh Ha) as Hv. unfold move in Hm.
    case_decide; [done|]. destruct (pl_copies P !! ap_seg a); [case_decide; [|done]|]; simplify_eq; [|done]. by apply reencode_ok.
  - apply Forall_forall. intros b (a & Ha & Hm)%moved_from. pose proof (proj1 (Forall_forall _ _) (ho_range _ _ Hh) _ Ha) as Hra.
    cbn in Hra. unfold move in Hm. case_decide; [done|]. destruct (pl_copies P !! ap_seg a) as [n|] eqn:Hn; [case_decide; [|done]|]; simplify_eq; cbn; [|lia].
    pose proof (Hnew _ _ Hn). destruct (po_copies _ _ _ Hp _ _ Hn). lia.
  - pose proof (ho_active _ _ Hh). lia.
  - intros id. eapply sublist_strongly_sorted; [by eapply compacted_seqs|]. apply (ho_seqs _ _ Hh).
  - eapply sublist_NoDup; [apply (ho_keys _ _ Hh)|by eapply compacted_keyed].
  - intros id. unfold seg_bytes. destruct (copied_or_not P id) as [[old Ho]|Hno].
    + rewrite (in_seg_copied P h active old id Hp Hr Ho). pose proof (copy_size P h active old id Hh). pose proof (ho_size _ _ Hh old). lia.
    + rewrite (in_seg_kept P h active id Hp Hr Hno). case_decide; [cbn; lia|apply (ho_size _ _ Hh)].
Qed.

(** ** The index of the moved log *)

Lemma same_by_segment (l k : list recoveredIndexEntry) :
  (∀ id, filter (λ i, ie_SegmentID (ri_entry i) = id) l = filter (λ i, ie_SegmentID (ri_entry i) = id) k) → l ≡ₚ k.
Proof.
  intros Hf. set (ids := remove_dups (map (λ i, ie_SegmentID (ri_entry i)) (l ++ k))).
  assert (Hnd : NoDup ids) by apply NoDup_remove_dups.
  assert (Hin : ∀ m, m ⊆ l ++ k → Forall (λ i, ie_SegmentID (ri_entry i) ∈ ids) m).
  { intros m Hm. apply Forall_forall. intros i Hi. apply elem_of_remove_dups, list_elem_of_In, in_map_iff. exists i.
    split; [done|]. by apply list_elem_of_In, Hm. }
  rewrite <- (by_key (λ i, ie_SegmentID (ri_entry i)) ids l) by (done || apply Hin; set_solver).
  rewrite <- (by_key (λ i, ie_SegmentID (ri_entry i)) ids k) by (done || apply Hin; set_solver).
  apply Permutation_eq. f_equal. apply map_ext. intros id. apply Hf.
Qed.

Lemma filter_mapped {A B} (f : A → B) (Q : B → Prop) `{!∀ y, Decision (Q y)} (l : list A) :
  filter Q (f <$> l) = f <$> filter (λ x, Q (f x)) l.
Proof. induction l as [|x l IH]; [done|]. rewrite fmap_cons, !filter_cons. by case_decide; rewrite IH. Qed.

(** Finished copies: the plan's segments, each with the index of what was copied. *)
Record plans_done (P : plan) (h : list appended) (plans : list segmentCopyPlan) : Prop := {
  pd_copies : ∀ old new, pl_copies P !! old = Some new ↔ ∃ p, p ∈ plans ∧ cp_oldSegmentID p = old ∧ cp_newSegmentID p = new;
  pd_news : NoDup (map cp_newSegmentID plans);
  pd_entries : ∀ p, p ∈ plans → cp_entries p = placed (copy_of P h (cp_oldSegmentID p) (cp_newSegmentID p))
}.

Lemma placed_in_seg id l : Forall (λ a, ap_seg a = id) l → Forall (λ i, ie_SegmentID (ri_entry i) = id) (placed l).
Proof.
  intros Hl. eapply Forall2_Forall_l; [apply placed_stands|]. eapply Forall_impl; [exact Hl|]. intros a Ha i (pre & post & _ & ->). done.
Qed.
Lemma copy_in_seg P h old new : Forall (λ a, ap_seg a = new) (copy_of P h old new).
Proof. unfold copy_of. apply Forall_fmap, Forall_forall. done. Qed.

Lemma in_news (p : segmentCopyPlan) plans : p ∈ plans → cp_newSegmentID p ∈ map cp_newSegmentID plans.
Proof. intros Hp. apply list_elem_of_In, in_map_iff. exists p. by rewrite <- list_elem_of_In. Qed.
Lemma copied_entries id (plans : list segmentCopyPlan) :
  NoDup (map cp_newSegmentID plans) → (∀ p, p ∈ plans → Forall (λ i, ie_SegmentID (ri_entry i) = cp_newSegmentID p) (cp_entries p)) →
  (∀ p, p ∈ plans → cp_newSegmentID p = id → filter (λ i, ie_SegmentID (ri_entry i) = id) (concat (map cp_entries plans)) = cp_entries p) ∧
  ((∀ p, p ∈ plans → cp_newSegmentID p ≠ id) → filter (λ i, ie_SegmentID (ri_entry i) = id) (concat (map cp_entries plans)) = []).
Proof.
  induction plans as [|q plans IH]; intros Hnd He; [split; [by intros p Hp%elem_of_nil|done]|].
  cbn [map] in Hnd. apply NoDup_cons in Hnd as [Hni Hnd]. destruct IH as [IH1 IH2]; [done|intros p Hp; apply He; by right|].
  pose proof (He q ltac:(left)) as Hq. cbn [map concat]. rewrite filter_app. split.
  - intros p [->|Hp]%elem_of_cons <-.
    + rewrite filter_all, IH2, app_nil_r; [done| |done]. intros q' Hq' Heq. apply Hni. rewrite <- Heq. by apply in_news.
    + rewrite filter_none; [by rewrite (IH1 p)|]. eapply Forall_impl; [exact Hq|]. cbn. intros i -> Heq. apply Hni. rewrite Heq. by apply in_news.
  - intros Hn. rewrite filter_none, IH2; [done|intros p Hp; apply Hn; by right|]. eapply Forall_impl; [exact Hq|]. cbn. intros i ->. apply Hn. left.
Qed.

Lemma placed_moved P h active plans : plan_ok P h active → history_ok h active → plans_done P h plans →
  filter (λ i, ie_SegmentID (ri_entry i) ∉ removed_segments (pl_deleted P) plans) (placed h) ++ concat (map cp_entries plans)
  ≡ₚ placed (moved P h).
Proof.
  intros Hp Hh [Hc Hnd He]. apply same_by_segment. intros id.
  assert (Hr : Forall (λ a, ap_seg a <= active) h) by (eapply Forall_impl; [apply (ho_range _ _ Hh)|]; cbn; lia).
  destruct (copied_entries id plans) as [C1 C2]; [done|intros p Hin; rewrite (He p Hin); apply placed_in_seg, copy_in_seg|].
  rewrite filter_app, list_filter_filter. unfold placed at 2. rewrite place_segment. change (place (in_seg id []) ?l) with (placed l).
  assert (Hrem : ∀ x, x ∈ removed_segments (pl_deleted P) plans ↔ x ∈ pl_deleted P ∨ is_Some (pl_copies P !! x)).
  { intros x. unfold removed_segments. rewrite elem_of_app, (list_elem_of_In (map _ _)), in_map_iff. split; (intros [?|Hx]; [by left|right]).
    - destruct Hx as (p & Hx & Hin%list_elem_of_In). exists (cp_newSegmentID p). apply Hc. by exists p.
    - destruct Hx as [n (p & Hin & <- & _)%Hc]. exists p. by rewrite <- list_elem_of_In. }
  destruct (copied_or_not P id) as [[old Ho]|Hno].
  - rewrite (in_seg_copied P h active old id Hp Hr Ho). apply Hc in Ho as Ho'. destruct Ho' as (p & Hin & <- & Hid).
    rewrite (C1 p Hin Hid), (He p Hin), <- Hid. rewrite filter_none; [done|].
    eapply Forall2_Forall_l; [apply placed_stands|]. eapply Forall_impl; [exact Hr|]. cbn. intros a Ha i (pre & post & _ & ->) [Hs _].
    cbn in Hs. pose proof (po_copies _ _ _ Hp _ _ Ho). lia.
  - rewrite (in_seg_kept P h active id Hp Hr Hno), C2, app_nil_r. 2: { intros p Hin Heq. apply (Hno (cp_oldSegmentID p)), Hc. by exists p. }
    case_decide as Hx.
    + apply filter_none, Forall_forall. intros i _ [<- Hni]. by apply Hni, Hrem.
    + unfold placed at 2. etransitivity; [|apply (place_segment id h [])]. apply list_filter_iff. intros i. rewrite Hrem. split; [tauto|].
      intros <-. done.
Qed.

(** ** The streams after the index changes *)

Definition seq_next (l : list Z) : Z := match last l with Some q => q + 1 | None => 0 end.
Lemma last_next_seqs h id : last_next (stream_entries h id) = seq_next (seqs h id).
Proof. unfold last_next, seq_next. rewrite <- stream_entries_seqs, fmap_last. by destruct (last _). Qed.
Lemma seq_next_cons q l : StronglySorted Z.lt (q :: l) → 0 < q → q + 1 <= seq_next (q :: l) ∧ Z.max (q + 1) (seq_next l) = seq_next (q :: l).
Proof.
  intros [_ Hl]%StronglySorted_inv Hq. unfold seq_next. rewrite last_cons. destruct (last l) as [x|] eqn:Hx; [|lia].
  rewrite last_lookup in Hx. apply list_elem_of_lookup_2 in Hx. pose proof (proj1 (Forall_forall _ _) Hl x Hx). cbn in *. lia.
Qed.
Lemma seqs_cons a h id : seqs (a :: h) id = if decide (StreamID (ap_rec a) = id) then Seq (ap_rec a) :: seqs h id else seqs h id.
Proof. unfold seqs, of_stream. rewrite filter_cons. by case_decide. Qed.

(** The number after a stream's last record does not go below the trim mark. *)
Lemma compacted_next t h h' id : compacted t h h' → Forall (λ a, 0 < Seq (ap_rec a)) h → StronglySorted Z.lt (seqs h id) →
  Z.max (t id) (seq_next (seqs h' id)) = Z.max (t id) (seq_next (seqs h id)).
Proof.
  intros Hc. induction Hc as [|a h h' Ht Hc IH|a b h h' Hr Hc IH]; intros Hpos Hs; [done| |];
    apply Forall_cons in Hpos as [Ha Hpos]; rewrite !seqs_cons in *.
  - unfold trimmed in Ht. case_decide as Hid; [|by apply IH]. rewrite Hid in Ht. destruct (seq_next_cons _ _ Hs Ha) as [? ?].
    apply StronglySorted_inv in Hs as [Hs _]. rewrite (IH Hpos Hs). lia.
  - rewrite Hr. case_decide as Hid; [|by apply IH]. assert (Hs' : StronglySorted Z.lt (Seq (ap_rec a) :: seqs h' id)).
    { eapply sublist_strongly_sorted; [|exact Hs]. constructor. by eapply compacted_seqs. }
    destruct (seq_next_cons _ _ Hs Ha), (seq_next_cons _ _ Hs' Ha). apply StronglySorted_inv in Hs as [Hs _].
    specialize (IH Hpos Hs). lia.
Qed.

Lemma moved_stream_nil P h active id : plan_ok P h active → stream_entries h id = [] → stream_entries (moved P h) id = [].
Proof.
  intros Hp He. pose proof (compacted_seqs _ _ _ id (moved_compacted P h active Hp)) as Hs.
  rewrite <- !stream_entries_seqs, He in Hs. apply sublist_nil_r in Hs. by apply fmap_nil_inv in Hs.
Qed.

Lemma apply_entries P h active active' plans id : plan_ok P h active → history_ok h active → history_ok (moved P h) active' → plans_done P h plans →
  merge_sort seq_le (filter (λ e, ie_SegmentID e ∉ removed_segments (pl_deleted P) plans) (stream_entries h id) ++ new_entries plans id)
  = stream_entries (moved P h) id.
Proof.
  intros Hp Hh Hm Hd. apply (sort_stream_entries _ active'); [done|]. unfold stream_entries, new_entries.
  rewrite <- (placed_moved P h active plans) by done. rewrite filter_app, fmap_app. apply Permutation_app; [|done].
  apply Permutation_eq. rewrite filter_mapped, !list_filter_filter. f_equal. apply list_filter_iff. intros i. cbn. tauto.
Qed.

Lemma apply_streams P h active active' s plans :
  plan_ok P h active → history_ok h active → history_ok (moved P h) active' → plans_done P h plans →
  (∀ id, stream_ok h id (st_streams s !! id)) → (∀ id, pl_trim P id = trim_of s id) →
  let s' := applyCompactionIndexChangesLocked s (pl_deleted P) plans in
  ∀ id, stream_ok (moved P h) id (st_streams s' !! id) ∧ trim_of s' id = trim_of s id ∧
    ss_trimBefore <$> st_streams s' !! id = ss_trimBefore <$> st_streams s !! id ∧
    ss_nextSeq <$> st_streams s' !! id = ss_nextSeq <$> st_streams s !! id.
Proof.
  intros Hp Hh Hm Hd Hs Ht s' id. specialize (Hs id). specialize (Ht id). unfold trim_of, stream_of in *. subst s'. cbn.
  rewrite map_lookup_imap. destruct (st_streams s !! id) as [st|]; cbn; [|split_and!; [by eapply moved_stream_nil|done..]].
  cbn in Ht, Hs. destruct Hs as (He & [Ht0 Hn] & Hlt & Hf).
  assert (Hnext : (if ss_nextSeq st <? ss_trimBefore st then ss_trimBefore st else ss_nextSeq st) = ss_nextSeq st) by (case_match; lia).
  rewrite Hnext, He. split; [|by split_and!]. rewrite (apply_entries P h active active' plans id) by done.
  assert (Hle : ss_nextSeq st = Z.max (ss_trimBefore st) (last_next (stream_entries (moved P h) id))).
  { rewrite Hn, He, !last_next_seqs, <- Ht. symmetry. apply compacted_next; [by eapply moved_compacted| |apply (ho_seqs _ _ Hh)].
    eapply Forall_impl; [apply (ho_valid _ _ Hh)|]. intros a Ha. pose proof (va_seq a Ha). lia. }
  split_and!; [done|done|exact Hle|done|].
  apply (Forall_fmap ie_Seq (λ q, q < ss_nextSeq st)). rewrite stream_entries_seqs.
  apply Forall_forall. intros q Hq. eapply elem_of_sublist in Hq; [|by eapply compacted_seqs, moved_compacted].
  rewrite <- stream_entries_seqs in Hq. apply list_elem_of_fmap in Hq as (e & -> & Hin). rewrite He in Hf.
  exact (proj1 (Forall_forall _ _) Hf e Hin).
Qed.

(** ** Live entries *)

Lemma trimmed_test t a : valid a → is_trimmed (t (StreamID (ap_rec a))) (Seq (ap_rec a)) = false ↔ ¬ trimmed t a.
Proof. intros Hv. pose proof (va_seq a Hv). unfold is_trimmed, trimmed. lia. Qed.

Lemma offsets_sorted id h : ∀ pre, Forall valid h → Forall (λ a, ap_seg a = id) h →
  StronglySorted Z.lt ((λ i, ie_Offset (ri_entry i)) <$> place pre h) ∧
  Forall (λ i, Z.of_nat (length (seg_bytes pre id)) <= ie_Offset (ri_entry i)) (place pre h).
Proof.
  induction h as [|a h IH]; intros pre Hv Hid; [by split; constructor|]. apply Forall_cons in Hv as [Hva Hv]. apply Forall_cons in Hid as [<- Hid].
  destruct (IH (pre ++ [a]) Hv Hid) as [Hs Hlo]. rewrite seg_bytes_snoc, length_app in Hlo. pose proof (valid_length a Hva).
  cbn [place]. rewrite fmap_cons. split.
  - constructor; [done|]. apply Forall_fmap. eapply Forall_impl; [exact Hlo|]. cbn. lia.
  - constructor; [cbn; lia|]. eapply Forall_impl; [exact Hlo|]. cbn. lia.
Qed.

(** The index entries of the live records of a segment, by offset. *)
Definition live_items (t : string → Z) (h : list appended) (id : Z) : list recoveredIndexEntry :=
  filter (λ i, is_trimmed (t (ri_streamID i)) (ie_Seq (ri_entry i)) = false) (filter (λ i, ie_SegmentID (ri_entry i) = id) (placed h)).
Lemma live_items_stand t h active id : history_ok h active →
  Forall2 (λ i a, ap_seg a = id ∧ ∃ pre post, h = pre ++ a :: post ∧ i = item_of pre a)
    (live_items t h id) (filter (λ a, ¬ trimmed t a) (in_seg id h)).
Proof.
  intros Hh. unfold live_items. apply Forall2_filter.
  { intros i a (_ & pre & post & Hsplit & ->). cbn. apply trimmed_test. eapply valid_in; [exact Hh|]. rewrite Hsplit. apply elem_of_app. right. left. }
  assert (Hf : Forall2 (stands_for h) (filter (λ i, ie_SegmentID (ri_entry i) = id) (placed h)) (in_seg id h)).
  { apply Forall2_filter; [|apply placed_stands]. by intros i a (pre & post & _ & ->). }
  assert (Hid : Forall (λ a, ap_seg a = id) (in_seg id h)) by (apply Forall_forall; by intros a [? _]%list_elem_of_filter).
  revert Hid. induction Hf as [|i a l k Hi _ IH]; intros Hid; constructor; apply Forall_cons in Hid as [? ?]; auto.
Qed.
Lemma live_items_sorted t h active id : history_ok h active →
  StronglySorted Z.lt ((λ i, ie_Offset (ri_entry i)) <$> live_items t h id).
Proof.
  intros Hh. unfold live_items, placed. rewrite place_segment. destruct (in_seg_valid h active id Hh) as [Hv Hid].
  destruct (offsets_sorted id (in_seg id h) (in_seg id []) Hv Hid) as [Hs _].
  eapply sublist_strongly_sorted; [|exact Hs]. apply fmap_sublist, sublist_filter.
Qed.

Lemma items_by_stream h sid :
  filter (λ i, ri_streamID i = sid) (placed h) = (λ e, {| ri_streamID := sid; ri_entry := e |}) <$> stream_entries h sid.
Proof.
  unfold stream_entries. induction (placed h) as [|[x e] l IH]; [done|]. rewrite filter_cons. cbn [ri_streamID].
  case_decide as Hx; [|done]. subst x. rewrite !fmap_cons. by f_equal.
Qed.

(** Going through the streams collects the index, in some order. *)
Lemma collect_items s h (Q : recoveredIndexEntry → Prop) `{!∀ i, Decision (Q i)} (g : string * streamState → list streamIndexEntry) :
  (∀ id, stream_ok h id (st_streams s !! id)) →
  (∀ sid st, st_streams s !! sid = Some st → g (sid, st) = filter (λ e, Q {| ri_streamID := sid; ri_entry := e |}) (ss_entries st)) →
  concat (map (λ p, map (λ e, {| ri_streamID := p.1; ri_entry := e |}) (g p)) (map_to_list (st_streams s))) ≡ₚ filter Q (placed h).
Proof.
  intros Hs Hg. rewrite <- (by_key ri_streamID (map_to_list (st_streams s)).*1 (filter Q (placed h))).
  - apply Permutation_eq. f_equal. change (?l.*1) with (map fst l). rewrite map_map. apply map_ext_in.
    intros [sid st] Hin%list_elem_of_In%elem_of_map_to_list. cbn [fst]. rewrite (Hg sid st Hin).
    transitivity (filter Q (filter (λ i, ri_streamID i = sid) (placed h))).
    + rewrite items_by_stream, filter_mapped. specialize (Hs sid). rewrite Hin in Hs. by destruct Hs as [-> _].
    + rewrite !list_filter_filter. apply list_filter_iff. intros i. tauto.
  - apply NoDup_fst_map_to_list.
  - apply Forall_forall. intros i [_ Hi]%list_elem_of_filter. apply list_elem_of_fmap. specialize (Hs (ri_streamID i)).
    destruct (st_streams s !! ri_streamID i) as [st|] eqn:Hst.
    + exists (ri_streamID i, st). split; [done|]. by apply elem_of_map_to_list.
    + cbn in Hs. assert (Hn : i ∈ filter (λ j, ri_streamID j = ri_streamID i) (placed h)) by (by apply list_elem_of_filter).
      rewrite items_by_stream, Hs in Hn. by apply elem_of_nil in Hn.
Qed.

Lemma sort_items (l l' : list recoveredIndexEntry) :
  StronglySorted Z.lt ((λ i, ie_Offset (ri_entry i)) <$> l) → l' ≡ₚ l → sort_by_offset l' = l.
Proof. intros Hs Hp. by apply (sort_by_key offset_le (λ i, ie_Offset (ri_entry i))). Qed.

Lemma liveEntries_ok s h active id : (∀ sid, stream_ok h sid (st_streams s !! sid)) → history_ok h active →
  liveEntriesForSegmentLocked s id = live_items (trim_of s) h id.
Proof.
  intros Hs Hh. apply sort_items; [by eapply live_items_sorted|]. unfold live_items. rewrite list_filter_filter.
  rewrite <- (collect_items s h _ (λ p, filter (λ e, ie_SegmentID e = id ∧ is_trimmed (ss_trimBefore p.2) (ie_Seq e) = false) (ss_entries p.2)) Hs).
  - apply Permutation_eq. f_equal. apply map_ext. by intros [sid st].
  - intros sid st Hst. apply list_filter_iff. intros e. unfold trim_of, stream_of. cbn. rewrite Hst. cbn. tauto.
Qed.

Lemma segment_items_ok s h active id : (∀ sid, stream_ok h sid (st_streams s !! sid)) → history_ok h active →
  sort_by_offset (segmentIndexEntriesLocked s id) = placed (in_seg id h).
Proof.
  intros Hs Hh. assert (Hpl : placed (in_seg id h) = filter (λ i, ie_SegmentID (ri_entry i) = id) (placed h)).
  { unfold placed at 2. by rewrite place_segment. }
  destruct (in_seg_valid h active id Hh) as [Hv Hid]. apply sort_items; [by apply (offsets_sorted id)|].
  rewrite Hpl, <- (collect_items s h _ (λ p, filter (λ e, ie_SegmentID e = id) (ss_entries p.2)) Hs) by done.
  apply Permutation_eq. unfold segmentIndexEntriesLocked. f_equal. apply map_ext. by intros [sid st].
Qed.

(** ** The statistics *)

Definition dead_item (t : string → Z) (i : recoveredIndexEntry) : bool := is_trimmed (t (ri_streamID i)) (ie_Seq (ri_entry i)).
Definition sizes (l : list recoveredIndexEntry) : Z := foldr Z.add 0 (map (λ i, ie_Length (ri_entry i)) l).
(** The exact counts of a segment's entries. *)
Definition tally (t : string → Z) (l : list recoveredIndexEntry) : counters :=
  let dead := filter (λ i, dead_item t i = true) l in let alive := filter (λ i, dead_item t i = false) l in
  {| ct_TotalBytes := sizes l; ct_LiveBytes := sizes alive; ct_CompactableBytes := sizes dead;
     ct_TotalRecords := Z.of_nat (length l); ct_LiveRecords := Z.of_nat (length alive); ct_CompactableRecords := Z.of_nat (length dead) |}.
Definition wrapped (c : counters) : counters :=
  {| ct_TotalBytes := u64 (ct_TotalBytes c); ct_LiveBytes := u64 (ct_LiveBytes c); ct_CompactableBytes := u64 (ct_CompactableBytes c);
     ct_TotalRecords := u64 (ct_TotalRecords c); ct_LiveRecords := u64 (ct_LiveRecords c); ct_CompactableRecords := u64 (ct_CompactableRecords c) |}.

Lemma sizes_snoc l i : sizes (l ++ [i]) = sizes l + ie_Length (ri_entry i).
Proof. unfold sizes. induction l as [|x l IH]; cbn; [lia|]. rewrite IH. lia. Qed.
Lemma sizes_perm l k : l ≡ₚ k → sizes l = sizes k.
Proof. induction 1 as [|x l k _ IH|x y l|l m k _ IH1 _ IH2]; unfold sizes in *; cbn; lia. Qed.
Lemma tally_perm t l k : l ≡ₚ k → tally t l = tally t k.
Proof. intros Hp. unfold tally. f_equal; first [by apply sizes_perm; rewrite Hp|by rewrite Hp]. Qed.

Lemma u64_add x y : u64 (u64 x + y) = u64 (x + y).
Proof. unfold u64. by rewrite Z.add_mod_idemp_l. Qed.
Lemma tally_snoc t l i :
  wrapped (tally t (l ++ [i])) = count_entry (wrapped (tally t l)) (is_trimmed (t (ri_streamID i)) (ie_Seq (ri_entry i))) (ie_Length (ri_entry i)).
Proof.
  unfold tally, wrapped, count_entry. rewrite !filter_app, !filter_cons, !filter_nil. unfold dead_item.
  cbn [ct_TotalBytes ct_LiveBytes ct_CompactableBytes ct_TotalRecords ct_LiveRecords ct_CompactableRecords].
  destruct (is_trimmed _ _);
    repeat match goal with
    | |- context [decide (?x = ?x)] => rewrite (decide_True (P := x = x)) by reflexivity
    | |- context [decide (?x = ?y)] => rewrite (decide_False (P := x = y)) by discriminate
    end;
    rewrite ?app_nil_r, ?sizes_snoc, ?length_app, ?u64_add; cbn [length]; by rewrite ?Nat2Z.inj_add.
Qed.

(** The loops of [compactabilityStatsLocked], over the entries of all streams. *)
Definition all_items (s : Store) : list recoveredIndexEntry :=
  concat (map (λ p, map (λ e, {| ri_streamID := p.1; ri_entry := e |}) (ss_entries p.2)) (map_to_list (st_streams s))).
Definition stats_item (t : string → Z) (active : Z) (builders : gmap Z segmentStatsBuilder) (i : recoveredIndexEntry) :=
  stats_step active (ri_streamID i) (t (ri_streamID i)) builders (ri_entry i).

Lemma stats_items s : stats_builders s = foldl (stats_item (trim_of s) (st_activeSegmentID s)) ∅ (all_items s).
Proof.
  unfold stats_builders, all_items. assert (Hst : ∀ sid st, (sid, st) ∈ map_to_list (st_streams s) → trim_of s sid = ss_trimBefore st).
  { intros sid st Hin%elem_of_map_to_list. unfold trim_of, stream_of. by rewrite Hin. }
  revert Hst. generalize (∅ : gmap Z segmentStatsBuilder). induction (map_to_list (st_streams s)) as [|[sid st] l IH]; intros b Hst; [done|].
  cbn [map concat foldl]. rewrite foldl_app, <- IH by (intros; apply Hst; by right). f_equal. cbn [fst snd].
  specialize (Hst sid st ltac:(left)). clear IH. revert b. induction (ss_entries st) as [|e es IH]; intros b; [done|].
  cbn [map foldl]. rewrite IH. unfold stats_item. cbn. by rewrite Hst.
Qed.

Lemma builders_spec t active items id :
  match filter (λ i, ie_SegmentID (ri_entry i) = id) items with
  | [] => foldl (stats_item t active) ∅ items !! id = None
  | l => ∃ b, foldl (stats_item t active) ∅ items !! id = Some b ∧ sb_Active b = (id =? active) ∧ sb_counters b = wrapped (tally t l)
  end.
Proof.
  induction items as [|i items IH] using rev_ind; [done|]. rewrite foldl_snoc, filter_app, filter_cons, filter_nil.
  set (m := foldl (stats_item t active) ∅ items) in *. unfold stats_item, stats_step. case_decide as Hid.
  - rewrite Hid. destruct (filter _ items) as [|x l] eqn:Hl; cbn [app].
    + eexists. rewrite lookup_insert_eq, IH. split; [done|]. cbn [sb_Active sb_counters default from_option Datatypes.id]. split; [done|]. exact (eq_sym (tally_snoc t [] i)).
    + destruct IH as (b & -> & Ha & Hc). eexists. rewrite lookup_insert_eq. split; [done|]. cbn [sb_Active sb_counters default from_option Datatypes.id]. split; [done|].
      change (x :: l ++ [i]) with ((x :: l) ++ [i]). by rewrite tally_snoc, Hc.
  - rewrite app_nil_r. rewrite !lookup_insert_ne by done. exact IH.
Qed.

(** What the statistics count, on the log. *)
Definition bytes_of (l : list appended) : Z := Z.of_nat (length (concat (map ap_enc l))).
Definition log_counters (t : string → Z) (l : list appended) : counters :=
  let dead := filter (trimmed t) l in let alive := filter (λ a, ¬ trimmed t a) l in
  {| ct_TotalBytes := bytes_of l; ct_LiveBytes := bytes_of alive; ct_CompactableBytes := bytes_of dead;
     ct_TotalRecords := Z.of_nat (length l); ct_LiveRecords := Z.of_nat (length alive); ct_CompactableRecords := Z.of_nat (length dead) |}.

Definition counts_as (t : string → Z) (i : recoveredIndexEntry) (a : appended) : Prop :=
  ie_Length (ri_entry i) = Z.of_nat (length (ap_enc a)) ∧ (dead_item t i = true ↔ trimmed t a).
Lemma sizes_of t l k : Forall2 (counts_as t) l k → sizes l = bytes_of k.
Proof.
  unfold sizes, bytes_of. induction 1 as [|i a l k [Hi _] _ IH]; [done|]. cbn [map foldr concat]. rewrite length_app, IH, Hi. lia.
Qed.
Lemma tally_log t l k : Forall2 (counts_as t) l k → tally t l = log_counters t k.
Proof.
  intros Hf. assert (Hd : Forall2 (counts_as t) (filter (λ i, dead_item t i = true) l) (filter (trimmed t) k)).
  { apply Forall2_filter; [|done]. by intros i a [_ ?]. }
  assert (Ha : Forall2 (counts_as t) (filter (λ i, dead_item t i = false) l) (filter (λ a, ¬ trimmed t a) k)).
  { apply Forall2_filter; [|done]. intros i a [_ <-]. destruct (dead_item t i); naive_solver. }
  unfold tally, log_counters. f_equal; first [by eapply sizes_of|f_equal; by eapply Forall2_length].
Qed.
Lemma filter_length_le {A} (Q : A → Prop) `{!∀ x, Decision (Q x)} (l : list A) : (length (filter Q l) ≤ length l)%nat.
Proof. induction l as [|x l IH]; [done|]. rewrite filter_cons. case_decide; cbn; lia. Qed.
Lemma counters_bounded t h active id : history_ok h active → wrapped (log_counters t (in_seg id h)) = log_counters t (in_seg id h).
Proof.
  intros Hh. pose proof (ho_size _ _ Hh id) as Hz. pose proof (in_seg_count h active id Hh) as Hn. unfold seg_bytes in *.
  unfold wrapped, log_counters, bytes_of. cbn [ct_TotalBytes ct_LiveBytes ct_CompactableBytes ct_TotalRecords ct_LiveRecords ct_CompactableRecords].
  pose proof (filter_bytes (trimmed t) (in_seg id h)). pose proof (filter_bytes (λ a, ¬ trimmed t a) (in_seg id h)).
  pose proof (filter_length_le (trimmed t) (in_seg id h)). pose proof (filter_length_le (λ a, ¬ trimmed t a) (in_seg id h)).
  rewrite !u64_id by (unfold in_u64; lia). done.
Qed.

Lemma segment_tally t h active id : history_ok h active →
  tally t (filter (λ i, ie_SegmentID (ri_entry i) = id) (placed h)) = log_counters t (in_seg id h).
Proof.
  intros Hh. apply tally_log. assert (Hf : Forall2 (stands_for h) (filter (λ i, ie_SegmentID (ri_entry i) = id) (placed h)) (in_seg id h)).
  { apply Forall2_filter; [|apply placed_stands]. by intros i a (pre & post & _ & ->). }
  eapply Forall2_impl; [exact Hf|]. intros i a (pre & post & Hsplit & ->). split; [done|]. unfold dead_item.
  assert (Hv : valid a) by (eapply valid_in; [exact Hh|]; rewrite Hsplit; apply elem_of_app; right; left).
  pose proof (trimmed_test t a Hv) as Ht. cbn [item_of ri_streamID ri_entry entry_of ie_Seq].
  destruct (is_trimmed _ _), (decide (trimmed t a)); naive_solver.
Qed.

Lemma all_items_placed s h : (∀ id, stream_ok h id (st_streams s !! id)) → all_items s ≡ₚ placed h.
Proof.
  intros Hs. rewrite <- (filter_all (λ _, True) (placed h)) by (by apply Forall_forall).
  apply (collect_items s h (λ _, True) (λ p, ss_entries p.2) Hs). intros sid st _. cbn. symmetry. apply filter_all. by apply Forall_forall.
Qed.

(** The statistics say what is in the log. *)
Lemma stats_builder s h active id : (∀ sid, stream_ok h sid (st_streams s !! sid)) → history_ok h active →
  match stats_builders s !! id with
  | None => in_seg id h = []
  | Some b => in_seg id h ≠ [] ∧ sb_Active b = (id =? st_activeSegmentID s) ∧ sb_counters b = log_counters (trim_of s) (in_seg id h)
  end.
Proof.
  intros Hs Hh. rewrite stats_items. pose proof (builders_spec (trim_of s) (st_activeSegmentID s) (all_items s) id) as Hb.
  set (l := filter _ (all_items s)) in Hb.
  assert (Hp : l ≡ₚ filter (λ i, ie_SegmentID (ri_entry i) = id) (placed h)) by (subst l; by rewrite all_items_placed).
  assert (Hlen : length l = length (in_seg id h)).
  { rewrite Hp. eapply Forall2_length, Forall2_filter; [|apply placed_stands]. by intros i a (pre & post & _ & ->). }
  destruct l as [|i l]; [rewrite Hb; by destruct (in_seg id h)|]. destruct Hb as (b & -> & Ha & Hc).
  split; [by destruct (in_seg id h)|]. split; [done|].
  by rewrite Hc, (tally_perm _ _ _ Hp), (segment_tally _ _ active), (counters_bounded _ _ active).
Qed.

Lemma compaction_stats_exact s h active : (∀ sid, stream_ok h sid (st_streams s !! sid)) → history_ok h active →
  StronglySorted Z.lt (map sg_SegmentID (compactabilityStatsLocked s)) ∧
  (∀ id, id ∈ map sg_SegmentID (compactabilityStatsLocked s) ↔ in_seg id h ≠ []) ∧
  Forall (λ stat, let c := log_counters (trim_of s) (in_seg (sg_SegmentID stat) h) in
    sg_counters stat = c ∧ sg_Active stat = (sg_SegmentID stat =? st_activeSegmentID s) ∧
    (sg_FullyCompactable stat = true ↔ Forall (trimmed (trim_of s)) (in_seg (sg_SegmentID stat) h)))
    (compactabilityStatsLocked s).
Proof.
  intros Hs Hh. pose proof (λ id, stats_builder s h active id Hs Hh) as Hb. unfold compactabilityStatsLocked. cbv zeta.
  destruct (segment_ids_spec (stats_builders s)) as [Hsort Hin].
  assert (Hids : map sg_SegmentID (omap (λ id, finish_stats id <$> stats_builders s !! id) (segment_ids (stats_builders s))) = segment_ids (stats_builders s)).
  { assert (Hall : Forall (λ id, is_Some (stats_builders s !! id)) (segment_ids (stats_builders s))) by (apply Forall_forall; intros id; apply Hin).
    clear Hsort Hin. induction Hall as [|id l [b Hl] _ IH]; [done|].
    change (omap ?f (id :: l)) with (match f id with Some x => x :: omap f l | None => omap f l end). cbv beta.
    rewrite Hl. cbn. by f_equal. }
  rewrite Hids. split_and!; [done| |].
  - intros id. rewrite Hin. specialize (Hb id). destruct (stats_builders s !! id) as [b|].
    + destruct Hb as [? _]. split; [done|by eexists].
    + rewrite Hb. split; [by intros [? ?]|done].
  - apply Forall_forall. intros stat (id & _ & Hst)%list_elem_of_omap. specialize (Hb id).
    destruct (stats_builders s !! id) as [b|]; [|done]. cbn in Hst. injection Hst as <-. destruct Hb as (Hne & Ha & Hc).
    cbn [finish_stats sg_SegmentID sg_counters sg_Active sg_FullyCompactable]. split_and!; [done|done|].
    rewrite Hc. cbn [log_counters ct_TotalRecords ct_LiveRecords]. rewrite andb_true_iff, Z.ltb_lt, Z.eqb_eq. split.
    + intros [_ Hz]. apply Forall_forall. intros a Hain. destruct (decide (trimmed (trim_of s) a)); [done|]. exfalso.
      assert (Hf : a ∈ filter (λ a, ¬ trimmed (trim_of s) a) (in_seg id h)) by (by apply list_elem_of_filter).
      destruct (filter _ (in_seg id h)); [by apply elem_of_nil in Hf|]. cbn in Hz. lia.
    + intros Hall. rewrite filter_none. { split; [destruct (in_seg id h); [done|cbn; lia]|done]. }
      eapply Forall_impl; [exact Hall|]. cbn. tauto.
Qed.

(** ** The plans *)

Lemma omap_keys {A B K} (f : A → option B) (key : A → K) (key' : B → K) (l : list A) :
  (∀ x y, f x = Some y → key' y = key x) → map key' (omap f l) `sublist_of` map key l.
Proof.
  intros Hf. induction l as [|x l IH]; [constructor|].
  change (omap f (x :: l)) with (match f x with Some y => y :: omap f l | None => omap f l end). cbn [map].
  destruct (f x) as [y|] eqn:Hx; [|by constructor]. cbn [map]. rewrite (Hf _ _ Hx). by constructor.
Qed.

Definition plan_key (p : Z + segmentCopyPlan) : Z := match p with inl id => id | inr plan => cp_oldSegmentID plan end.
Lemma split_plans (l : list (Z + segmentCopyPlan)) : NoDup (map plan_key l) →
  let dels := omap (λ p, match p with inl id => Some id | inr _ => None end) l in
  let plans := omap (λ p, match p with inl _ => None | inr plan => Some plan end) l in
  NoDup dels ∧ NoDup (map cp_oldSegmentID plans) ∧ ∀ p, p ∈ plans → cp_oldSegmentID p ∉ dels.
Proof.
  intros Hnd dels plans. split_and!.
  - eapply sublist_NoDup; [exact Hnd|]. rewrite <- (map_id dels). apply omap_keys. intros [id|p] y [= <-]. done.
  - eapply sublist_NoDup; [exact Hnd|]. apply omap_keys. intros [id|p] y [= <-]. done.
  - intros p ([x|q] & Hq & [= <-])%list_elem_of_omap ([x'|q'] & Hq' & [= ->])%list_elem_of_omap.
    apply list_elem_of_lookup in Hq as [i Hi], Hq' as [j Hj].
    assert (Hij : i = j).
    { eapply NoDup_lookup; [exact Hnd| |]; change (map plan_key l) with (plan_key <$> l); rewrite list_lookup_fmap, ?Hi, ?Hj; done. }
    subst j. congruence.
Qed.

(** What is planned for a log. *)
Record planned (s : Store) (busy : Z → bool) (h : list appended) (active : Z) (dels : list Z) (plans : list segmentCopyPlan) : Prop := {
  pn_deleted : ∀ id, id ∈ dels → id < active ∧ in_seg id h ≠ [] ∧ busy id = false ∧ Forall (trimmed (trim_of s)) (in_seg id h);
  pn_copied : ∀ p, p ∈ plans → cp_oldSegmentID p < active ∧ in_seg (cp_oldSegmentID p) h ≠ [] ∧ busy (cp_oldSegmentID p) = false ∧
    cp_entries p = live_items (trim_of s) h (cp_oldSegmentID p) ∧ cp_oldSegmentID p ∉ dels;
  pn_dels : NoDup dels;
  pn_olds : NoDup (map cp_oldSegmentID plans)
}.

Lemma sorted_nodup (l : list Z) : StronglySorted Z.lt l → NoDup l.
Proof.
  induction 1 as [|x l Hs IH Hx]; constructor; [|done]. intros Hin. pose proof (proj1 (Forall_forall _ _) Hx x Hin). cbn in *. lia.
Qed.

Lemma plans_ok s busy opts h : (∀ sid, stream_ok h sid (st_streams s !! sid)) → history_ok h (st_activeSegmentID s) →
  let '(dels, plans) := compactionPlansLocked s busy (compactabilityStatsLocked s) opts in
  planned s busy h (st_activeSegmentID s) dels plans.
Proof.
  intros Hs Hh. unfold compactionPlansLocked. cbv zeta. destruct (compaction_stats_exact s h _ Hs Hh) as (Hsort & Hids & Hst).
  set (l := omap (plan_one s busy opts) (compactabilityStatsLocked s)).
  assert (Hkey : NoDup (map plan_key l)).
  { eapply sublist_NoDup; [by apply sorted_nodup|]. apply omap_keys. intros stat p. unfold plan_one. cbv zeta.
    repeat (case_match; try done); by intros [= <-]. }
  destruct (split_plans l Hkey) as (H1 & H2 & H3).
  assert (Hone : ∀ p, p ∈ l → ∃ stat, plan_one s busy opts stat = Some p ∧ sg_SegmentID stat < st_activeSegmentID s ∧ sg_Active stat = false ∧
    in_seg (sg_SegmentID stat) h ≠ [] ∧ busy (sg_SegmentID stat) = false ∧
    (sg_FullyCompactable stat = true ↔ Forall (trimmed (trim_of s)) (in_seg (sg_SegmentID stat) h))).
  { intros p (stat & Hin & Hp)%list_elem_of_omap. exists stat. split; [done|].
    destruct (proj1 (Forall_forall _ _) Hst stat Hin) as (_ & Ha & Hf). unfold plan_one in Hp. cbv zeta in Hp.
    destruct (sg_Active stat || _ || busy (sg_SegmentID stat)) eqn:Hor; [done|]. apply orb_false_iff in Hor as [Hor Hb].
    apply orb_false_iff in Hor as [Hact _]. assert (Hne : in_seg (sg_SegmentID stat) h ≠ []) by (by apply Hids, list_elem_of_In, in_map, list_elem_of_In).
    split_and!; try done; try apply Hf. rewrite Hact in Ha. symmetry in Ha. apply Z.eqb_neq in Ha.
    destruct (in_seg (sg_SegmentID stat) h) as [|a k] eqn:Hk; [done|]. assert (Hak : a ∈ in_seg (sg_SegmentID stat) h) by (rewrite Hk; left).
    apply list_elem_of_filter in Hak as [Hsa Hah]. pose proof (proj1 (Forall_forall _ _) (ho_range _ _ Hh) a Hah). cbn in *. lia. }
  split; [| |done|done].
  - intros id ([id'|q] & Hq & [= ->])%list_elem_of_omap. destruct (Hone _ Hq) as (stat & Hp & Hlt & Hact & Hne & Hb & Hf).
    unfold plan_one in Hp. cbv zeta in Hp. repeat (case_match; try done). simplify_eq. split_and!; try done.
    apply Hf. by destruct (co_DeleteFullyTrimmedSegments opts), (sg_FullyCompactable stat).
  - intros p Hin. specialize (H3 p Hin). apply list_elem_of_omap in Hin as ([id'|q] & Hq & [= ->]).
    destruct (Hone _ Hq) as (stat & Hp & Hlt & Hact & Hne & Hb & Hf).
    assert (Hpq : cp_oldSegmentID p = sg_SegmentID stat ∧ cp_entries p = liveEntriesForSegmentLocked s (sg_SegmentID stat)).
    { unfold plan_one in Hp. cbv zeta in Hp. repeat (case_match; try done). by simplify_eq. }
    destruct Hpq as [Ho He]. rewrite Ho. split_and!; try done; [|by rewrite <- Ho]. by rewrite He, (liveEntries_ok s h _ _ Hs Hh).
Qed.

Lemma number_plans_spec next plans : 0 <= next → next + Z.of_nat (length plans) < 2 ^ 64 →
  number_plans next plans =
  (imap (λ i p, with_new p (next + Z.of_nat i) (cp_entries p)) plans, next + Z.of_nat (length plans)).
Proof.
  revert next. induction plans as [|p plans IH]; intros next Hn Hlt; cbn [number_plans length imap].
  { by rewrite Z.add_0_r. }
  rewrite u64_id by (unfold in_u64; cbn [length] in Hlt; lia). cbn [length] in Hlt. rewrite IH by lia. cbn [imap].
  f_equal; [|lia]. f_equal; [by rewrite Z.add_0_r|]. apply imap_ext. intros i q _. cbn. f_equal. lia.
Qed.
End Plan.
Close Scope Z_scope.
