(* ===== verification/CompactionDisk.v ===== *)
(** What a compaction that stopped somewhere leaves on the disk ([halfway]), and what
    opening the store makes of it: [reconcileCompactionManifestBeforeRecover] finishes some
    of the copies, undoes the others, finishes the deletions, and what is left holds the
    log of a smaller plan, with the same live records. *)
From S2P Require Import Prelude Bytes Checksum LogRecord RecordCodec SegmentIndex LogStore LogSafety LogRead LogRecovery Compaction CompactionPlan.

Open Scope Z_scope.

(** A log file with the same bytes, of which at least as many are synced. *)
Definition same_file (f g : option file) : Prop :=
  match f, g with
  | Some f, Some g => f_data g = f_data f ∧ (f_synced f ≤ f_synced g ≤ length (f_data g))%nat
  | None, None => True
  | _, _ => False
  end.
(** A whole copy, synced. *)
Definition complete (data : bytes) (f : file) : Prop := f_data f = data ∧ f_synced f = length data.

(** The files of a copy: the old log is there, or both new files are; a new log is whole,
    and so is a temporary one once the temporary index exists. *)
Record copy_stage (old_log : option file) (data : bytes) (d : Disk) (old new : Z) : Prop := {
  cs_old : same_file old_log (dk_log d !! old) ∨
           dk_log d !! old = None ∧ is_Some (dk_log d !! new) ∧ is_Some (dk_index d !! new);
  cs_log : ∀ f, dk_log d !! new = Some f → complete data f;
  cs_tmp : ∀ f, dk_logTmp d !! new = Some f → is_Some (dk_indexTmp d !! new) → complete data f
}.
(** What reconciliation leaves of a copy: it is finished, or undone. *)
Definition copy_finished (data : bytes) (d : Disk) (old new : Z) : Prop :=
  dk_log d !! old = None ∧ dk_index d !! old = None ∧ (∃ f, dk_log d !! new = Some f ∧ complete data f) ∧ is_Some (dk_index d !! new).
Definition copy_undone (old_log : option file) (d : Disk) (old new : Z) : Prop :=
  same_file old_log (dk_log d !! old) ∧ dk_log d !! new = None.

(** The files of other segments are untouched. *)
Record frame (ids : list Z) (d d' : Disk) : Prop := {
  fr_retention : dk_retention d' = dk_retention d;
  fr_manifest : dk_manifest d' = dk_manifest d;
  fr_log : ∀ id, id ∉ ids → dk_log d' !! id = dk_log d !! id;
  fr_index : ∀ id, id ∉ ids → dk_index d' !! id = dk_index d !! id;
  fr_logTmp : ∀ id, id ∉ ids → dk_logTmp d' !! id = dk_logTmp d !! id;
  fr_indexTmp : ∀ id, id ∉ ids → dk_indexTmp d' !! id = dk_indexTmp d !! id
}.
Lemma frame_refl ids d : frame ids d d.
Proof. by split. Qed.
Lemma frame_trans ids d1 d2 d3 : frame ids d1 d2 → frame ids d2 d3 → frame ids d1 d3.
Proof. intros [R1 M1 L1 I1 T1 X1] [R2 M2 L2 I2 T2 X2]. split; try congruence; intros id Hid;
    [rewrite L2, L1|rewrite I2, I1|rewrite T2, T1|rewrite X2, X1]; done. Qed.
Lemma frame_weaken ids ids' d d' : ids ⊆ ids' → frame ids d d' → frame ids' d d'.
Proof. intros Hs []. split; try done; intros id Hid; eauto. Qed.

Lemma frame_files ids d log index :
  (∀ id, id ∉ ids → log !! id = dk_log d !! id) → (∀ id, id ∉ ids → index !! id = dk_index d !! id) → frame ids d (with_files d log index).
Proof. by split. Qed.
Lemma frame_tmps ids d log index :
  (∀ id, id ∉ ids → log !! id = dk_logTmp d !! id) → (∀ id, id ∉ ids → index !! id = dk_indexTmp d !! id) → frame ids d (with_tmps d log index).
Proof. by split. Qed.
Lemma frame_rename_log d id : frame [id] d (rename_log d id).
Proof.
  unfold rename_log. destruct (dk_logTmp d !! id); [|apply frame_refl].
  eapply frame_trans; [|apply frame_tmps]; [apply frame_files| |]; intros x Hx%not_elem_of_cons; cbn;
    rewrite ?lookup_insert_ne, ?lookup_delete_ne by naive_solver; done.
Qed.
Lemma frame_rename_index d id : frame [id] d (rename_index d id).
Proof.
  unfold rename_index. destruct (dk_indexTmp d !! id); [|apply frame_refl].
  eapply frame_trans; [|apply frame_tmps]; [apply frame_files| |]; intros x Hx%not_elem_of_cons; cbn;
    rewrite ?lookup_insert_ne, ?lookup_delete_ne by naive_solver; done.
Qed.
Lemma frame_remove d id : frame [id] d (removeSegmentFilesOnDisk d id).
Proof. apply frame_files; intros x Hx%not_elem_of_cons; rewrite lookup_delete_ne by naive_solver; done. Qed.
Lemma frame_remove_copy d id : frame [id] d (remove_copy d id).
Proof.
  eapply frame_trans; [apply frame_remove|apply frame_tmps]; intros x Hx%not_elem_of_cons; rewrite lookup_delete_ne by naive_solver; done.
Qed.

Lemma has_iff {A} (m : gmap Z A) id : has m id = true ↔ is_Some (m !! id).
Proof. apply bool_decide_eq_true. Qed.
Lemma has_not {A} (m : gmap Z A) id : has m id = false ↔ m !! id = None.
Proof. unfold has. rewrite bool_decide_eq_false. symmetry. apply eq_None_not_Some. Qed.

(** ** One copy *)

Section Copy.
Context (old_log : option file) (data : bytes) (old new : Z).
Hypothesis Hne : old ≠ new.
Abbreviation stage d := (copy_stage old_log data d old new).

Lemma stage_frame ids d d' : frame ids d d' → old ∉ ids → new ∉ ids → stage d → stage d'.
Proof.
  intros Hf Ho Hn [H1 H2 H3]. pose proof (fr_log _ _ _ Hf) as Hl. pose proof (fr_index _ _ _ Hf) as Hi.
  split.
  - by rewrite !Hl, Hi.
  - by rewrite Hl.
  - by rewrite (fr_logTmp _ _ _ Hf), (fr_indexTmp _ _ _ Hf).
Qed.

Lemma stage_rename_log d : dk_log d !! new = None → is_Some (dk_logTmp d !! new) → is_Some (dk_indexTmp d !! new) →
  stage d → stage (rename_log d new) ∧ is_Some (dk_log (rename_log d new) !! new) ∧ dk_indexTmp (rename_log d new) = dk_indexTmp d ∧
    dk_index (rename_log d new) = dk_index d.
Proof.
  intros Hn [f Hf] Hi [H1 H2 H3]. unfold rename_log. rewrite Hf. cbn. rewrite lookup_insert_eq. split; [|by eauto].
  split; cbn.
  - rewrite lookup_insert_ne, lookup_insert_eq by done. destruct H1 as [?|(? & [? ?] & ?)]; [by left|congruence].
  - rewrite lookup_insert_eq. intros g [= <-]. by apply H3.
  - by rewrite lookup_delete_eq.
Qed.
Lemma stage_rename_index d : is_Some (dk_indexTmp d !! new) → stage d →
  stage (rename_index d new) ∧ is_Some (dk_index (rename_index d new) !! new) ∧ dk_log (rename_index d new) = dk_log d.
Proof.
  intros [b Hb] [H1 H2 H3]. unfold rename_index. rewrite Hb. cbn. rewrite lookup_insert_eq. split; [|by eauto].
  split; cbn; [| |].
  - destruct H1 as [?|(? & ? & ?)]; [by left|right]. by rewrite lookup_insert_eq.
  - done.
  - rewrite lookup_delete_eq. by intros ? ? [? ?].
Qed.

(** The end of a reconciliation, once the renames have been done. *)
Definition settle (d : Disk) : result log_error Disk :=
  if has (dk_log d) new && has (dk_index d) new then Ok (removeSegmentFilesOnDisk d old)
  else if has (dk_log d) old then Ok (remove_copy d new)
  else if has (dk_logTmp d) new || has (dk_indexTmp d) new || has (dk_log d) new || has (dk_index d) new
  then Err (ErrIncompleteCompaction new old) else Ok d.
Lemma settle_ok d : is_Some old_log → stage d → ∃ d', settle d = Ok d' ∧ frame [old; new] d d' ∧
  (copy_finished data d' old new ∨ copy_undone old_log d' old new) ∧ (dk_logTmp d = ∅ → dk_indexTmp d = ∅ → dk_logTmp d' = ∅ ∧ dk_indexTmp d' = ∅).
Proof.
  intros [g Hg] [H1 H2 H3]. unfold settle. destruct (has (dk_log d) new && has (dk_index d) new) eqn:Hb.
  - apply andb_true_iff in Hb as [Hl%has_iff Hi%has_iff]. eexists. split; [done|]. split; [|split; [|done]].
    + eapply frame_weaken; [|apply frame_remove]. set_solver.
    + left. unfold copy_finished, removeSegmentFilesOnDisk. cbn. rewrite !lookup_delete_eq, !lookup_delete_ne by done.
      split_and!; [done|done| |done]. destruct Hl as [f Hf]. exists f. auto.
  - destruct H1 as [Ho|(_ & Hl & Hi)]. 2: { apply has_iff in Hl, Hi. by rewrite Hl, Hi in Hb. }
    assert (Hold : is_Some (dk_log d !! old)) by (rewrite Hg in Ho; destruct (dk_log d !! old); [by eexists|done]).
    apply has_iff in Hold. rewrite Hold. eexists. split; [done|]. split; [|split].
    + eapply frame_weaken; [|apply frame_remove_copy]. set_solver.
    + right. unfold copy_undone, remove_copy, removeSegmentFilesOnDisk. cbn. by rewrite lookup_delete_eq, lookup_delete_ne.
    + intros E1 E2. cbn. by rewrite E1, E2, !delete_empty.
Qed.

Lemma reconcile_settle d copied : mc_OldSegmentID copied = old → mc_NewSegmentID copied = new →
  reconcileCopiedSegmentBeforeRecover d copied =
  let d1 := if negb (has (dk_log d) new) && has (dk_logTmp d) new && has (dk_indexTmp d) new then rename_log d new else d in
  let d2 := if negb (has (dk_index d1) new) && has (dk_indexTmp d1) new && has (dk_log d1) new then rename_index d1 new else d1 in
  if has (dk_log d2) new && has (dk_index d2) new then Ok (removeSegmentFilesOnDisk d2 old)
  else if has (dk_log d) old then Ok (remove_copy d2 new)
  else if has (dk_logTmp d2) new || has (dk_indexTmp d2) new || has (dk_log d2) new || has (dk_index d2) new
  then Err (ErrIncompleteCompaction new old) else Ok d2.
Proof. intros <- <-. done. Qed.

Lemma reconcile_one d copied : mc_OldSegmentID copied = old → mc_NewSegmentID copied = new → is_Some old_log → stage d →
  ∃ d', reconcileCopiedSegmentBeforeRecover d copied = Ok d' ∧ frame [old; new] d d' ∧
    (copy_finished data d' old new ∨ copy_undone old_log d' old new) ∧ (dk_logTmp d = ∅ → dk_indexTmp d = ∅ → dk_logTmp d' = ∅ ∧ dk_indexTmp d' = ∅).
Proof.
  intros Eo En Hg Hs. rewrite (reconcile_settle d copied Eo En). cbv zeta.
  set (d1 := if negb (has (dk_log d) new) && _ && _ then _ else d).
  assert (H1 : stage d1 ∧ frame [new] d d1 ∧ (dk_logTmp d = ∅ → d1 = d)).
  { subst d1. destruct (_ && _ && _) eqn:Hb; [|by split_and!; [|apply frame_refl|]].
    apply andb_true_iff in Hb as [[Hl%negb_true_iff%has_not Ht%has_iff]%andb_true_iff Hi%has_iff].
    split_and!; [by apply stage_rename_log|apply frame_rename_log|]. intros E. rewrite E, lookup_empty in Ht. by destruct Ht. }
  clearbody d1. destruct H1 as (Hs1 & Hf1 & He1).
  set (d2 := if negb (has (dk_index d1) new) && _ && _ then _ else d1).
  assert (H2 : stage d2 ∧ frame [new] d1 d2 ∧ (dk_indexTmp d1 = ∅ → d2 = d1)).
  { subst d2. destruct (_ && _ && _) eqn:Hb; [|by split_and!; [|apply frame_refl|]].
    apply andb_true_iff in Hb as [[_ Hi%has_iff]%andb_true_iff Hl%has_iff].
    split_and!; [by apply stage_rename_index|apply frame_rename_index|]. intros E. rewrite E, lookup_empty in Hi. by destruct Hi. }
  clearbody d2. destruct H2 as (Hs2 & Hf2 & He2).
  assert (Hf : frame [new] d d2) by (by eapply frame_trans).
  assert (Hold : has (dk_log d) old = has (dk_log d2) old) by (unfold has; by rewrite (fr_log _ _ _ Hf) by set_solver).
  rewrite Hold. destruct (settle_ok d2 Hg Hs2) as (d' & Hd' & Hfd & Hfin & Hemp). exists d'. split; [exact Hd'|].
  split; [|split; [done|]].
  - eapply frame_trans; [|exact Hfd]. eapply frame_weaken; [|exact Hf]. set_solver.
  - intros E1 E2. specialize (He1 E1). subst d1. specialize (He2 E2). subst d2. auto.
Qed.

Lemma finished_frame ids d d' : frame ids d d' → old ∉ ids → new ∉ ids →
  copy_finished data d old new ∨ copy_undone old_log d old new → copy_finished data d' old new ∨ copy_undone old_log d' old new.
Proof.
  intros Hf Ho Hn. unfold copy_finished, copy_undone.
  by rewrite !(fr_log _ _ _ Hf), !(fr_index _ _ _ Hf).
Qed.
End Copy.

(** ** All copies, and the deletions *)

Definition copy_ids (copies : list compactionManifestCopy) : list Z :=
  concat (map (λ c, [mc_OldSegmentID c; mc_NewSegmentID c]) copies).
Lemma elem_of_copy_ids id copies : id ∈ copy_ids copies ↔ ∃ c, c ∈ copies ∧ (id = mc_OldSegmentID c ∨ id = mc_NewSegmentID c).
Proof.
  unfold copy_ids. rewrite list_elem_of_In, in_concat. split.
  - intros (l & Hl & Hid). apply in_map_iff in Hl as (c & <- & Hc%list_elem_of_In). exists c. split; [done|]. destruct Hid as [<-|[<-|[]]]; auto.
  - intros (c & Hc & Hid). exists [mc_OldSegmentID c; mc_NewSegmentID c]. split; [apply in_map_iff; exists c; by rewrite <- list_elem_of_In|].
    destruct Hid as [->| ->]; [by left|right; by left].
Qed.

Lemma reconcile_all (old_log : Z → option file) (data : Z → Z → bytes) copies : ∀ d,
  NoDup (copy_ids copies) →
  (∀ c, c ∈ copies → is_Some (old_log (mc_OldSegmentID c)) ∧
     copy_stage (old_log (mc_OldSegmentID c)) (data (mc_OldSegmentID c) (mc_NewSegmentID c)) d (mc_OldSegmentID c) (mc_NewSegmentID c)) →
  ∃ d', reconcile_copies d copies = Ok d' ∧ frame (copy_ids copies) d d' ∧
    (∀ c, c ∈ copies → copy_finished (data (mc_OldSegmentID c) (mc_NewSegmentID c)) d' (mc_OldSegmentID c) (mc_NewSegmentID c) ∨
                       copy_undone (old_log (mc_OldSegmentID c)) d' (mc_OldSegmentID c) (mc_NewSegmentID c)) ∧
    (dk_logTmp d = ∅ → dk_indexTmp d = ∅ → dk_logTmp d' = ∅ ∧ dk_indexTmp d' = ∅).
Proof.
  induction copies as [|c copies IH]; intros d Hnd Hst; cbn [reconcile_copies].
  { exists d. split_and!; [done|apply frame_refl|by intros c Hc%elem_of_nil|done]. }
  unfold copy_ids in Hnd. cbn [map concat app] in Hnd. fold (copy_ids copies) in Hnd.
  apply NoDup_cons in Hnd as [Ho Hnd]. apply NoDup_cons in Hnd as [Hn Hnd]. apply not_elem_of_cons in Ho as [Hne Ho].
  destruct (Hst c) as [Hg Hs]; [left|].
  destruct (reconcile_one _ _ _ _ Hne d c eq_refl eq_refl Hg Hs) as (d1 & -> & Hf1 & Hfin1 & He1). rewrite ok_bind.
  destruct (IH d1 Hnd) as (d2 & -> & Hf2 & Hfin2 & He2).
  { intros c' Hc'. destruct (Hst c') as [Hg' Hs']; [by right|]. split; [done|].
    assert (Hni : ∀ x, x ∈ copy_ids copies → x ∉ [mc_OldSegmentID c; mc_NewSegmentID c]).
    { intros x Hx [->|[->|[]%elem_of_nil]%elem_of_cons]%elem_of_cons; done. }
    eapply stage_frame; [exact Hf1|apply Hni, elem_of_copy_ids; eauto..|done]. }
  exists d2. split; [done|]. split; [|split].
  - unfold copy_ids. cbn [map concat app]. fold (copy_ids copies). eapply frame_trans; [|eapply frame_weaken; [|exact Hf2]; set_solver].
    eapply frame_weaken; [|exact Hf1]. set_solver.
  - intros c' [->|Hc']%elem_of_cons; [|by apply Hfin2]. by eapply finished_frame.
  - intros E1 E2. destruct (He1 E1 E2). auto.
Qed.

Definition delete_all (d : Disk) (ids : list Z) : Disk := foldl removeSegmentFilesOnDisk d ids.
Lemma delete_all_spec ids : ∀ d,
  frame ids d (delete_all d ids) ∧ (∀ id, id ∈ ids → dk_log (delete_all d ids) !! id = None ∧ dk_index (delete_all d ids) !! id = None) ∧
  dk_logTmp (delete_all d ids) = dk_logTmp d ∧ dk_indexTmp (delete_all d ids) = dk_indexTmp d.
Proof.
  induction ids as [|id ids IH]; intros d; [split_and!; [apply frame_refl|by intros id Hid%elem_of_nil|done..]|].
  unfold delete_all. cbn [foldl]. fold (delete_all (removeSegmentFilesOnDisk d id) ids). destruct (IH (removeSegmentFilesOnDisk d id)) as (Hf & Hd & Ht1 & Ht2).
  split_and!; [| |done|done].
  - eapply frame_trans; [|eapply frame_weaken; [|exact Hf]; set_solver]. eapply frame_weaken; [|apply frame_remove]. set_solver.
  - intros x Hx. destruct (decide (x ∈ ids)) as [Hin|Hni]; [by apply Hd|]. apply elem_of_cons in Hx as [->|?]; [|done].
    rewrite (fr_log _ _ _ Hf), (fr_index _ _ _ Hf) by done. cbn. by rewrite !lookup_delete_eq.
Qed.

(** ** A compaction that stopped *)

Section Halfway.
Context `{ChecksumLib, IndexJSON}.

Definition copy_data (P : plan) (h : list appended) (old new : Z) : bytes := concat (map ap_enc (copy_of P h old new)).

(** The copies of a plan, as the manifest lists them; [next] is the segment after them. *)
Record listed (P : plan) (h : list appended) (active next : Z) (copies : list compactionManifestCopy) : Prop := {
  li_copies : ∀ old new, pl_copies P !! old = Some new ↔ ∃ c, c ∈ copies ∧ mc_OldSegmentID c = old ∧ mc_NewSegmentID c = new;
  li_ids : NoDup (copy_ids copies);
  li_next : ∀ old new, pl_copies P !! old = Some new → new < next;
  li_old : ∀ old new, pl_copies P !! old = Some new → in_seg old h ≠ [];
  li_bound : active < next < 2 ^ 64
}.

Record halfway (P : plan) (h : list appended) (next : Z) (copies : list compactionManifestCopy) (base d : Disk) : Prop := {
  hw_retention : dk_retention d = dk_retention base;
  hw_manifest : ∃ m, dk_manifest d = Some m ∧ cm_DeletedSegments m = pl_deleted P ∧ cm_CopiedSegments m = copies;
  hw_other : ∀ id, id ∉ pl_deleted P → pl_copies P !! id = None → (∀ old, pl_copies P !! old ≠ Some id) →
    same_file (dk_log base !! id) (dk_log d !! id) ∨ id = next ∧ ∃ f, dk_log d !! id = Some f ∧ f_data f = [] ∧ f_synced f = 0%nat;
  hw_deleted : ∀ id, id ∈ pl_deleted P → dk_log d !! id = None ∨ same_file (dk_log base !! id) (dk_log d !! id);
  hw_copies : ∀ old new, pl_copies P !! old = Some new → copy_stage (dk_log base !! old) (copy_data P h old new) d old new
}.

(** The copies that were finished. *)
Definition finished_plan (P : plan) (d : Disk) : plan :=
  {| pl_trim := pl_trim P; pl_pooled := pl_pooled P; pl_deleted := pl_deleted P;
     pl_copies := filter (λ c, is_Some (dk_log d !! c.2)) (pl_copies P) |}.
Lemma finished_lookup P d old new : pl_copies (finished_plan P d) !! old = Some new ↔ pl_copies P !! old = Some new ∧ is_Some (dk_log d !! new).
Proof. cbn. by rewrite map_lookup_filter_Some. Qed.

Lemma finished_plan_ok P h active d : plan_ok P h active → plan_ok (finished_plan P d) h active.
Proof.
  intros [H1 H2 H3]. split; [done| |].
  - intros old new [Hc _]%finished_lookup. by apply H2.
  - intros o1 o2 new [Hc1 _]%finished_lookup [Hc2 _]%finished_lookup. by eapply H3.
Qed.

Lemma last_file {A} (m : gmap Z A) id : is_Some (m !! id) → ∃ top, is_Some (m !! top) ∧ ∀ x, is_Some (m !! x) → x <= top.
Proof.
  intros Hid. destruct (segment_ids_spec m) as [Hs Hin]. destruct (last (segment_ids m)) as [top|] eqn:Hl.
  - exists top. rewrite last_lookup in Hl. split; [apply Hin; by eapply list_elem_of_lookup_2|]. intros x Hx%Hin.
    apply list_elem_of_lookup in Hx as [i Hi]. pose proof (lookup_lt_Some _ _ _ Hi).
    destruct (decide (i = Nat.pred (length (segment_ids m)))) as [->|Hne]; [by simplify_eq|].
    pose proof (sorted_lookup_lt Z.lt _ _ _ _ _ Hs Hi Hl ltac:(lia)). lia.
  - apply last_None in Hl. apply Hin in Hid. rewrite Hl in Hid. by apply elem_of_nil in Hid.
Qed.

Section Reconcile.
Context (P : plan) (h : list appended) (active next : Z) (copies : list compactionManifestCopy) (tail : Z → bytes) (base d : Disk).
Hypothesis Hp : plan_ok P h active.
Hypothesis Hli : listed P h active next copies.
Hypothesis Hod : on_disk h active tail base.
Hypothesis Htail : ∀ id, id ≠ active → tail id = [].
Hypothesis Hhw : halfway P h next copies base d.

Lemma listed_range c : c ∈ copies → mc_OldSegmentID c < active < mc_NewSegmentID c ∧ (mc_OldSegmentID c ∉ pl_deleted P) ∧
  mc_NewSegmentID c < next ∧ pl_copies P !! mc_OldSegmentID c = Some (mc_NewSegmentID c).
Proof.
  intros Hc. assert (Hl : pl_copies P !! mc_OldSegmentID c = Some (mc_NewSegmentID c)) by (apply (li_copies _ _ _ _ _ Hli); by exists c).
  destruct (po_copies _ _ _ Hp _ _ Hl). pose proof (li_next _ _ _ _ _ Hli _ _ Hl). done.
Qed.
Lemma deleted_range id : id ∈ pl_deleted P → id < active.
Proof. intros Hid. by destruct (po_deleted _ _ _ Hp id Hid). Qed.
Lemma not_listed id : id ∉ copy_ids copies → pl_copies P !! id = None ∧ ∀ old, pl_copies P !! old ≠ Some id.
Proof.
  intros Hni. split.
  - destruct (pl_copies P !! id) as [new|] eqn:Hn; [|done]. apply (li_copies _ _ _ _ _ Hli) in Hn as (c & Hc & <- & _).
    destruct Hni. apply elem_of_copy_ids. eauto.
  - intros old (c & Hc & _ & <-)%(li_copies _ _ _ _ _ Hli). destruct Hni. apply elem_of_copy_ids. eauto.
Qed.
Lemma old_exists old new : pl_copies P !! old = Some new → is_Some (dk_log base !! old).
Proof.
  intros Hc. pose proof (od_logs _ _ _ _ Hod old) as Hl. destruct (dk_log base !! old); [by eexists|]. destruct Hl as [Hn _].
  by destruct (li_old _ _ _ _ _ Hli old new Hc).
Qed.

(** The disk after the reconciliation. *)
Record reconciled (d' : Disk) : Prop := {
  re_log : ∀ id, id ∉ pl_deleted P → id ∉ copy_ids copies → dk_log d' !! id = dk_log d !! id;
  re_deleted : ∀ id, id ∈ pl_deleted P → dk_log d' !! id = None ∧ dk_index d' !! id = None;
  re_copies : ∀ c, c ∈ copies →
    copy_finished (copy_data P h (mc_OldSegmentID c) (mc_NewSegmentID c)) d' (mc_OldSegmentID c) (mc_NewSegmentID c) ∨
    copy_undone (dk_log base !! mc_OldSegmentID c) d' (mc_OldSegmentID c) (mc_NewSegmentID c);
  re_retention : dk_retention d' = dk_retention d;
  re_manifest : dk_manifest d' = dk_manifest d;
  re_tmps : dk_logTmp d = ∅ → dk_indexTmp d = ∅ → dk_logTmp d' = ∅ ∧ dk_indexTmp d' = ∅
}.
Lemma reconcile_runs : readable d = true → ∃ d', reconcileCompactionManifestBeforeRecover d = Ok d' ∧ reconciled d'.
Proof.
  intros Hread. destruct (hw_manifest _ _ _ _ _ _ Hhw) as (m & Hm & Hdel & Hcop). unfold reconcileCompactionManifestBeforeRecover.
  rewrite readable_manifest, ok_bind, Hm, Hcop, Hdel by done.
  destruct (reconcile_all (λ id, dk_log base !! id) (copy_data P h) copies d (li_ids _ _ _ _ _ Hli)) as (d1 & -> & Hf1 & Hfin & He1).
  { intros c Hc. destruct (listed_range c Hc) as (_ & _ & _ & Hl). split; [by eapply old_exists|by apply (hw_copies _ _ _ _ _ _ Hhw)]. }
  rewrite ok_bind. eexists. split; [done|]. fold (delete_all d1 (pl_deleted P)). destruct (delete_all_spec (pl_deleted P) d1) as (Hf2 & Hd & Ht1 & Ht2).
  split.
  - intros id H1 H2. by rewrite (fr_log _ _ _ Hf2), (fr_log _ _ _ Hf1).
  - exact Hd.
  - intros c Hc. destruct (listed_range c Hc) as (Hr & Ho & _). eapply finished_frame; [exact Hf2|done| |by apply Hfin].
    intros Hin%deleted_range. lia.
  - by rewrite (fr_retention _ _ _ Hf2), (fr_retention _ _ _ Hf1).
  - by rewrite (fr_manifest _ _ _ Hf2), (fr_manifest _ _ _ Hf1).
  - rewrite Ht1, Ht2. exact He1.
Qed.

Lemma same_file_data f g : same_file (Some f) g → ∃ g', g = Some g' ∧ f_data g' = f_data f ∧ (f_synced f ≤ f_synced g' ≤ length (f_data g'))%nat.
Proof. destruct g as [g|]; [|done]. intros [? ?]. by exists g. Qed.

(** The active segment is still there. *)
Lemma reconciled_active d' : reconciled d' → is_Some (dk_log d' !! active).
Proof.
  intros Hre. assert (Hnc : active ∉ copy_ids copies).
  { intros (c & Hc & Hid)%elem_of_copy_ids. destruct (listed_range c Hc). lia. }
  assert (Hnd : active ∉ pl_deleted P) by (intros Hd%deleted_range; lia).
  rewrite (re_log _ Hre) by done. destruct (not_listed active Hnc) as [H1 H2].
  destruct (hw_other _ _ _ _ _ _ Hhw active Hnd H1 H2) as [Hs|(_ & f & Hf & _)]; [|by exists f].
  pose proof (od_logs _ _ _ _ Hod active) as Hl. destruct (dk_log base !! active) as [f|]; [|by destruct Hl].
  destruct (same_file_data _ _ Hs) as (g & -> & _). by eexists.
Qed.

(** A finished copy is in the finished plan, an undone one is not. *)
Lemma finished_copy d' c : reconciled d' → c ∈ copies →
  copy_finished (copy_data P h (mc_OldSegmentID c) (mc_NewSegmentID c)) d' (mc_OldSegmentID c) (mc_NewSegmentID c) ∧
    pl_copies (finished_plan P d') !! mc_OldSegmentID c = Some (mc_NewSegmentID c) ∨
  copy_undone (dk_log base !! mc_OldSegmentID c) d' (mc_OldSegmentID c) (mc_NewSegmentID c) ∧
    pl_copies (finished_plan P d') !! mc_OldSegmentID c = None.
Proof.
  intros Hre Hc. destruct (listed_range c Hc) as (_ & _ & _ & Hl).
  destruct (re_copies _ Hre c Hc) as [Hf|Hu]; [left|right]; (split; [done|]).
  - apply finished_lookup. split; [done|]. destruct Hf as (_ & _ & (f & Hf & _) & _). by exists f.
  - destruct (pl_copies (finished_plan P d') !! mc_OldSegmentID c) as [n|] eqn:Hn; [|done]. apply finished_lookup in Hn as [Hn Hs].
    assert (n = mc_NewSegmentID c) as -> by congruence. destruct Hu as [_ Hu]. rewrite Hu in Hs. by destruct Hs.
Qed.

(** Segment [id] after the reconciliation. *)
Definition file_ok (d' : Disk) (id : Z) : Prop :=
  match dk_log d' !! id with
  | None => in_seg id (moved (finished_plan P d') h) = [] ∧ id ≠ active
  | Some f => 1 <= id ∧ f_data f = seg_bytes (moved (finished_plan P d') h) id ++ tail id ∧ (f_synced f ≤ length (f_data f))%nat ∧
      (id <= active ∧ same_file (dk_log base !! id) (Some f) ∨ active < id ∧ f_synced f = length (f_data f))
  end.

Lemma in_range : Forall (λ a, ap_seg a <= active) h.
Proof. eapply Forall_impl; [apply (ho_range _ _ (od_history _ _ _ _ Hod))|]. cbn. lia. Qed.
Lemma beyond id : active < id → in_seg id h = [].
Proof.
  intros Hlt. apply in_seg_none. eapply Forall_impl; [apply in_range|]. cbn. lia.
Qed.

Lemma kept_file d' id : id ∉ pl_deleted P → pl_copies (finished_plan P d') !! id = None →
  (∀ old, pl_copies (finished_plan P d') !! old ≠ Some id) → same_file (dk_log base !! id) (dk_log d' !! id) → file_ok d' id.
Proof.
  intros Hd Hn1 Hn2 Hs. pose proof (in_seg_kept _ h active id (finished_plan_ok P h active d' Hp) in_range Hn2) as Hk.
  rewrite decide_False in Hk by (intros [?|[? ?]]; [done|congruence]). pose proof (od_logs _ _ _ _ Hod id) as Hl. unfold file_ok.
  destruct (dk_log base !! id) as [g|].
  - destruct (same_file_data _ _ Hs) as (f & Hf & Hdata & Hsy). rewrite Hf in Hs |- *. destruct Hl as (Hr & Hg & _).
    split_and!; [lia| |lia|left; split; [lia|done]]. unfold seg_bytes. rewrite Hk, Hdata, Hg. done.
  - destruct (dk_log d' !! id); [done|]. unfold in_seg in *. by rewrite Hk.
Qed.
Lemma gone_file d' id : dk_log d' !! id = None → id ≠ active → in_seg id (moved (finished_plan P d') h) = [] → file_ok d' id.
Proof. intros Hn Ha Hi. unfold file_ok. by rewrite Hn. Qed.

Lemma no_copy_to d' id : id <= active → ∀ old, pl_copies (finished_plan P d') !! old ≠ Some id.
Proof. intros Hle old [Hc _]%finished_lookup. destruct (po_copies _ _ _ Hp _ _ Hc). lia. Qed.

Lemma copied_file d' c id : reconciled d' → c ∈ copies → id = mc_OldSegmentID c ∨ id = mc_NewSegmentID c → file_ok d' id.
Proof.
  intros Hre Hc Hid. destruct (listed_range c Hc) as (Hr & Hnd & _ & Hl). pose proof (finished_plan_ok P h active d' Hp) as Hp'.
  pose proof (ho_active _ _ (od_history _ _ _ _ Hod)) as Ha.
  destruct (finished_copy d' c Hre Hc) as [[(Ho & _ & (f & Hf & Hd & Hsy) & _) Hfin]|[[Ho Hn] Hfin]]; destruct Hid as [->| ->].
  - apply gone_file; [done|lia|]. rewrite (in_seg_kept _ h active _ Hp' in_range) by (apply no_copy_to; lia).
    rewrite decide_True; [done|]. right. by eexists.
  - unfold file_ok. rewrite Hf. unfold seg_bytes. rewrite (in_seg_copied _ h active _ _ Hp' in_range Hfin), Htail, app_nil_r by lia.
    rewrite <- Hd in Hsy. split_and!; [lia|exact Hd|lia|]. right. split; [lia|done].
  - apply kept_file; [done|done|apply no_copy_to; lia|done].
  - apply gone_file; [done|lia|]. rewrite (in_seg_kept _ h active _ Hp' in_range).
    + case_decide; [done|]. apply beyond. lia.
    + intros old [Hc' Hs]%finished_lookup. rewrite Hn in Hs. by destruct Hs.
Qed.

Lemma reconciled_file d' id : reconciled d' → file_ok d' id.
Proof.
  intros Hre. destruct (decide (id ∈ pl_deleted P)) as [Hd|Hnd].
  { pose proof (deleted_range id Hd). apply gone_file; [by apply (re_deleted _ Hre)|lia|].
    rewrite (in_seg_kept _ h active _ (finished_plan_ok P h active d' Hp) in_range) by (apply no_copy_to; lia). rewrite decide_True; [done|by left]. }
  destruct (decide (id ∈ copy_ids copies)) as [(c & Hc & Hid)%elem_of_copy_ids|Hnc]; [by eapply copied_file|].
  destruct (not_listed id Hnc) as [Hn1 Hn2].
  assert (Hf1 : pl_copies (finished_plan P d') !! id = None).
  { destruct (pl_copies (finished_plan P d') !! id) as [n|] eqn:Hn; [|done]. apply finished_lookup in Hn as [? _]. congruence. }
  assert (Hf2 : ∀ old, pl_copies (finished_plan P d') !! old ≠ Some id) by (intros old [? _]%finished_lookup; by eapply Hn2).
  destruct (hw_other _ _ _ _ _ _ Hhw id Hnd Hn1 Hn2) as [Hs|(-> & f & Hf & Hdata & Hsy)].
  - apply kept_file; try done. by rewrite (re_log _ Hre id Hnd Hnc).
  - unfold file_ok. rewrite (re_log _ Hre next Hnd Hnc), Hf. destruct (li_bound _ _ _ _ _ Hli) as [Hlt _].
    pose proof (ho_active _ _ (od_history _ _ _ _ Hod)). unfold seg_bytes.
    rewrite (in_seg_kept _ h active _ (finished_plan_ok P h active d' Hp) in_range Hf2), Htail, Hdata, Hsy by lia.
    assert (Hb : in_seg next h = []) by by apply beyond. case_decide; rewrite ?Hb; split_and!; try done; try lia; right; by split.
Qed.

(** The disk after the reconciliation holds the log of the finished plan. *)
Lemma reconciled_on_disk d' : reconciled d' → ∃ active', active <= active' ∧ is_Some (dk_log d' !! active') ∧
  (∀ id, is_Some (dk_log d' !! id) → id <= active') ∧ on_disk (moved (finished_plan P d') h) active' tail d'.
Proof.
  intros Hre. destruct (last_file _ _ (reconciled_active d' Hre)) as (top & Htop & Hmax). pose proof (Hmax _ (reconciled_active d' Hre)) as Hle.
  exists top. split; [done|]. split; [done|]. split; [done|].
  assert (Hbound : top < 2 ^ 64).
  { destruct (li_bound _ _ _ _ _ Hli) as [Hlt Hb]. pose proof (reconciled_file d' top Hre) as Hf. unfold file_ok in Hf.
    destruct (decide (top <= next)); [lia|]. exfalso. assert (Hnd : top ∉ pl_deleted P) by (intros Hd%deleted_range; lia).
    assert (Hnc : top ∉ copy_ids copies) by (intros (c & Hc & Hid)%elem_of_copy_ids; destruct (listed_range c Hc) as (? & _ & ? & _); lia).
    destruct (not_listed top Hnc) as [H1 H2]. rewrite (re_log _ Hre _ Hnd Hnc) in Htop. destruct (hw_other _ _ _ _ _ _ Hhw top Hnd H1 H2) as [Hs|[? _]]; [|lia].
    pose proof (od_logs _ _ _ _ Hod top) as Hl. destruct (dk_log base !! top); [lia|]. destruct Htop as [f Hf']. by rewrite Hf' in Hs. }
  split.
  - apply (history_moved _ _ active); [by apply finished_plan_ok|apply (od_history _ _ _ _ Hod)|lia|].
    intros old new [_ Hs]%finished_lookup. by apply Hmax.
  - intros id. pose proof (reconciled_file d' id Hre) as Hf. unfold file_ok in Hf. specialize (Hmax id). destruct (dk_log d' !! id) as [f|] eqn:Hl.
    + destruct Hf as (? & ? & ? & _). split_and!; [done|apply Hmax; by eexists|done|done].
    + destruct Hf as [? _]. split; [done|]. intros ->. rewrite Hl in Htop. by destruct Htop.
  - apply (od_torn _ _ _ _ Hod).
Qed.
Lemma reconciled_synced d' : reconciled d' → all_synced base → all_synced d'.
Proof.
  intros Hre Hb id f Hf. pose proof (reconciled_file d' id Hre) as Hok. unfold file_ok in Hok. rewrite Hf in Hok.
  destruct Hok as (_ & _ & Hle & [[_ Hs]|[_ Hs]]); [|done]. specialize (Hb id). destruct (dk_log base !! id) as [g|]; [|done].
  specialize (Hb g eq_refl). destruct Hs as [Hd Hsy]. rewrite Hd in *. lia.
Qed.
(** When every copy was finished, the manifest asks for nothing more. *)
Lemma reconciled_settled d' active' : reconciled d' → active <= active' → (∀ id, is_Some (dk_log d' !! id) → id <= active') →
  (∀ c, c ∈ copies → is_Some (dk_log d' !! mc_NewSegmentID c)) → settled d' active'.
Proof.
  intros Hre Hle Hmax Hall m Hm. destruct (hw_manifest _ _ _ _ _ _ Hhw) as (m' & Hm' & Hdel & Hcop).
  rewrite (re_manifest _ Hre), Hm' in Hm. injection Hm as <-. rewrite Hdel, Hcop. split.
  - intros id Hid. destruct (re_deleted _ Hre id Hid). pose proof (deleted_range id Hid). split_and!; [lia|done|done].
  - intros c Hc. destruct (listed_range c Hc) as (Hr & _). destruct (finished_copy d' c Hre Hc) as [[(H1 & H2 & H3 & H4) _]|[[_ Hn] _]].
    + split_and!; [lia|done|done|by apply Hmax, Hall|by apply Hall|done].
    + specialize (Hall c Hc). rewrite Hn in Hall. by destruct Hall.
Qed.
End Reconcile.

(** ** Crashes *)

Lemma same_file_refl f : (f_synced f ≤ length (f_data f))%nat → same_file (Some f) (Some f).
Proof. by split. Qed.
Lemma crash_full m m' (id : Z) f : crash_files m m' → m !! id = Some f → f_synced f = length (f_data f) →
  ∃ f', m' !! id = Some f' ∧ f_data f' = f_data f ∧ f_synced f' = length (f_data f).
Proof.
  intros Hc Hf Hs. specialize (Hc id). rewrite Hf in Hc. destruct (m' !! id) as [f'|]; [|done]. destruct Hc as (k & Hk & Hd & Hle).
  exists f'. rewrite take_ge in Hd by lia. rewrite Hd in Hle. split_and!; [done|done|lia].
Qed.
Lemma crash_same m m' (id : Z) f : crash_files m m' → f_synced f = length (f_data f) → same_file (Some f) (m !! id) → same_file (Some f) (m' !! id).
Proof.
  intros Hc Hf (g & Hg & Hd & Hs)%same_file_data. rewrite Hd in Hs.
  destruct (crash_full m m' id g Hc Hg) as (g' & -> & Hd' & Hs'); [rewrite Hd; lia|]. split; rewrite ?Hd', ?Hd; [done|rewrite Hs', Hd; lia].
Qed.
Lemma crash_complete m m' (id : Z) data : crash_files m m' → (∀ f, m !! id = Some f → complete data f) → ∀ f, m' !! id = Some f → complete data f.
Proof.
  intros Hc Hall f Hf. assert (Hs : is_Some (m !! id)) by (apply (crash_files_dom _ _ _ Hc); by exists f). destruct Hs as [g Hg].
  destruct (Hall g Hg) as [Hd Hs]. destruct (crash_full m m' id g Hc Hg) as (g' & Hg' & Hd' & Hs'); [by rewrite Hd|].
  assert (g' = f) as -> by congruence. split; congruence.
Qed.

(** The disk before the compaction, crashed the same way in its active segment. *)
Definition crash_base (active : Z) (base d1 : Disk) : Disk :=
  match dk_log d1 !! active with Some f => with_log base active f | None => base end.

Lemma crash_halfway P h active next copies base d d1 :
  plan_ok P h active → listed P h active next copies → on_disk h active no_tail base → synced_before base active → dk_logTmp base = ∅ →
  halfway P h next copies base d → crashed d d1 →
  crashed base (crash_base active base d1) ∧ halfway P h next copies (crash_base active base d1) d1 ∧ is_Some (dk_log d1 !! active).
Proof.
  intros Hp Hli Hod Hsy Htmp Hhw [Er Em Hl Ht Hi Hx]. pose proof (od_logs _ _ _ _ Hod) as Hlogs.
  assert (Hnotin : (active ∉ pl_deleted P) ∧ pl_copies P !! active = None ∧ ∀ old, pl_copies P !! old ≠ Some active).
  { split_and!.
    - intros Hd. destruct (po_deleted _ _ _ Hp _ Hd). lia.
    - destruct (pl_copies P !! active) eqn:Hc; [|done]. destruct (po_copies _ _ _ Hp _ _ Hc). lia.
    - intros old Hc. destruct (po_copies _ _ _ Hp _ _ Hc). lia. }
  destruct Hnotin as (Hn1 & Hn2 & Hn3). pose proof (li_bound _ _ _ _ _ Hli) as [Hlt _].
  assert (Hact : ∃ f g g1, dk_log base !! active = Some f ∧ dk_log d !! active = Some g ∧ dk_log d1 !! active = Some g1 ∧
    f_data g = f_data f ∧ (f_synced f ≤ f_synced g ≤ length (f_data g))%nat).
  { pose proof (Hlogs active) as Hla. destruct (dk_log base !! active) as [f|] eqn:Hf; [|by destruct Hla].
    destruct (hw_other _ _ _ _ _ _ Hhw active Hn1 Hn2 Hn3) as [Hs|[? _]]; [|lia]. rewrite Hf in Hs.
    apply same_file_data in Hs as (g & Hg & Hd & Hs). assert (Hs1 : is_Some (dk_log d1 !! active)) by (apply (crash_files_dom _ _ _ Hl); by exists g).
    destruct Hs1 as [g1 Hg1]. by exists f, g, g1. }
  destruct Hact as (f & g & g1 & Hf & Hg & Hg1 & Hd & Hs). unfold crash_base. rewrite Hg1.
  pose proof (Hl active) as Hla. rewrite Hg, Hg1 in Hla. destruct Hla as (k & Hk & Hdk & Hle).
  assert (Hfull : ∀ id x, id ≠ active → dk_log base !! id = Some x → f_synced x = length (f_data x)).
  { intros id x Hne Hxx. specialize (Hlogs id). rewrite Hxx in Hlogs. apply (Hsy id x Hxx). lia. }
  assert (Hcs : ∀ id, id ≠ active → same_file (dk_log base !! id) (dk_log d !! id) → same_file (dk_log base !! id) (dk_log d1 !! id)).
  { intros id Hne Hsf. destruct (dk_log base !! id) as [x|] eqn:Hxx; [eapply crash_same; [done|by eapply Hfull|done]|].
    cbn in Hsf. specialize (Hl id). destruct (dk_log d !! id), (dk_log d1 !! id); done. }
  split; [|split; [|by eexists]]; split; cbn; try done.
  - intros id. destruct (decide (id = active)) as [->|Hne].
    + rewrite lookup_insert_eq, Hf. exists k. rewrite Hdk, Hd in *. split_and!; [lia|done|lia|lia].
    + rewrite lookup_insert_ne by done. destruct (dk_log base !! id) as [x|] eqn:Hxx; [|done]. exists (length (f_data x)).
      pose proof (Hfull id x Hne Hxx). rewrite take_ge by lia. split_and!; [lia|done|lia|lia].
  - rewrite Htmp. intros id. by rewrite lookup_empty.
  - by rewrite Er, (hw_retention _ _ _ _ _ _ Hhw).
  - rewrite Em. apply (hw_manifest _ _ _ _ _ _ Hhw).
  - intros id H1 H2 H3. destruct (decide (id = active)) as [->|Hne].
    + rewrite lookup_insert_eq, Hg1. left. apply same_file_refl. lia.
    + rewrite lookup_insert_ne by done. destruct (hw_other _ _ _ _ _ _ Hhw id H1 H2 H3) as [Hsf|(-> & x & Hxx & Hxd & Hxs)]; [left; auto|].
      right. split; [done|]. destruct (crash_full _ _ next x Hl Hxx) as (y & -> & Hyd & Hys); [by rewrite Hxd, Hxs|].
      exists y. rewrite Hyd, Hys, Hxd. done.
  - intros id H1. assert (id ≠ active) by (intros ->; done). rewrite lookup_insert_ne by done.
    destruct (hw_deleted _ _ _ _ _ _ Hhw id H1) as [Hn|Hsf]; [left|right; auto]. specialize (Hl id). rewrite Hn in Hl. by destruct (dk_log d1 !! id).
  - intros old new Hc. destruct (po_copies _ _ _ Hp _ _ Hc) as [Hr _]. rewrite lookup_insert_ne by lia.
    destruct (hw_copies _ _ _ _ _ _ Hhw old new Hc) as [C1 C2 C3].
    assert (Hix : ∀ id, is_Some (dk_index d1 !! id) ↔ is_Some (dk_index d !! id)) by (intros id; by rewrite <- !elem_of_dom, Hi).
    assert (Hitx : ∀ id, is_Some (dk_indexTmp d1 !! id) ↔ is_Some (dk_indexTmp d !! id)) by (intros id; by rewrite <- !elem_of_dom, Hx).
    split.
    + destruct C1 as [Hsf|(Hn & Hln & Hin)]; [left; apply Hcs; [lia|done]|right]. rewrite Hix, (crash_files_dom _ _ _ Hl). split; [|done].
      specialize (Hl old). rewrite Hn in Hl. by destruct (dk_log d1 !! old).
    + by apply (crash_complete _ _ _ _ Hl).
    + intros x Hxx Hit%Hitx. eapply (crash_complete _ _ new _ Ht); [|done]. intros y Hy. by apply C3.
Qed.

Lemma crash_base_synced active tail h base d1 : logs_hold base h active tail → synced_before base active →
  crashed base (crash_base active base d1) → is_Some (dk_log d1 !! active) → all_synced d1 ∨ all_synced base → all_synced (crash_base active base d1).
Proof.
  intros Hl Hsy Hcr [g Hg] Hall id f Hf. destruct (decide (id = active)) as [->|Hne].
  - destruct Hall as [Hall|Hall].
    + unfold crash_base in Hf. rewrite Hg in Hf. cbn in Hf. rewrite lookup_insert_eq in Hf. injection Hf as <-. by apply (Hall active).
    + assert (Hs : is_Some (dk_log base !! active)) by (apply (crash_files_dom _ _ _ (cr_log _ _ Hcr)); by exists f). destruct Hs as [x Hx].
      destruct (crash_full _ _ _ _ (cr_log _ _ Hcr) Hx (Hall _ _ Hx)) as (f' & Hf' & Hd & Hs). assert (f' = f) as -> by congruence. by rewrite Hs, Hd.
  - assert (Hb : dk_log (crash_base active base d1) !! id = dk_log base !! id).
    { unfold crash_base. destruct (dk_log d1 !! active); [|done]. cbn. by rewrite lookup_insert_ne. }
    rewrite Hb in Hf. specialize (Hl id). rewrite Hf in Hl. apply (Hsy id f Hf). lia.
Qed.

Lemma plan_same_segments P h h1 active : plan_ok P h active → (∀ id, id ≠ active → in_seg id h1 = in_seg id h) → plan_ok P h1 active.
Proof.
  intros [H1 H2 H3] Hs. split; [|done|done]. intros id Hid. destruct (H1 id Hid) as [? ?]. rewrite Hs by lia. done.
Qed.
Lemma listed_same_segments P h h1 active next copies : plan_ok P h active → listed P h active next copies →
  (∀ id, id ≠ active → in_seg id h1 = in_seg id h) → listed P h1 active next copies.
Proof.
  intros Hp [H1 H2 H3 H4 H5] Hs. split; try done. intros old new Hc. destruct (po_copies _ _ _ Hp _ _ Hc). rewrite Hs by lia. by eapply H4.
Qed.
Lemma halfway_same_segments P h h1 active next copies base d : plan_ok P h active → halfway P h next copies base d →
  (∀ id, id ≠ active → in_seg id h1 = in_seg id h) → halfway P h1 next copies base d.
Proof.
  intros Hp [H1 H2 H3 H4 H5] Hs. split; try done. intros old new Hc. destruct (po_copies _ _ _ Hp _ _ Hc).
  unfold copy_data, copy_of. rewrite Hs by lia. by apply H5.
Qed.

(** The restart after a compaction that stopped anywhere: the store comes back with the
    records that survived, less some that are trimmed. *)
Lemma restart_halfway opts P h active next copies base d d1 :
  plan_ok P h active → listed P h active next copies → on_disk h active no_tail base → synced_before base active → durable base h active →
  dk_logTmp base = ∅ → ret_ok (dk_retention base) → halfway P h next copies base d → crashed d d1 → readable d1 = true →
  ∃ h1 h2 s' d', h1 `prefix_of` h ∧ (∀ hs, hs `prefix_of` h → synced_log base hs active → hs `prefix_of` h1) ∧
    compacted (pl_trim P) h1 h2 ∧ OpenWithOptions opts d1 = Ok (s', d') ∧ store_ok s' (forget d') h2 ∧ st_options s' = opts ∧
    dk_retention d' = dk_retention base ∧
    (copies = [] → settled d' (st_activeSegmentID s')) ∧
    (all_synced d1 ∨ all_synced base → synced_before d' (st_activeSegmentID s') ∧ synced_log d' h2 (st_activeSegmentID s')).
Proof.
  intros Hp Hli Hod Hsy Hdu Htmp Hret Hhw Hcr Hread.
  destruct (crash_halfway P h active next copies base d d1 Hp Hli Hod Hsy Htmp Hhw Hcr) as (Hcb & Hhw1 & Hact1).
  destruct (crash_prefix h active no_tail base _ Hod ltac:(done) Hsy Hdu Hcb) as (h1 & tail & Hpre & Hod1 & Hsy1 & Hdu1 & Hall & Hother).
  assert (Hsame : ∀ id, id ≠ active → in_seg id h1 = in_seg id h) by (intros id Hid; by apply Hother).
  assert (Htail : ∀ id, id ≠ active → tail id = []) by (intros id Hid; by apply Hother).
  pose proof (plan_same_segments P h h1 active Hp Hsame) as Hp1. pose proof (listed_same_segments P h h1 active next copies Hp Hli Hsame) as Hli1.
  pose proof (halfway_same_segments P h h1 active next copies _ d1 Hp Hhw1 Hsame) as Hhw2.
  set (base1 := crash_base active base d1) in *.
  destruct (reconcile_runs P h1 active next copies tail base1 d1 Hp1 Hli1 Hod1 Hhw2 Hread) as (d2 & Hrun & Hre).
  destruct (reconciled_on_disk P h1 active next copies tail base1 d1 Hp1 Hli1 Hod1 Htail Hhw2 d2 Hre) as (act2 & Hle & Hex & Hmax & Hod2).
  assert (Hret2 : dk_retention d2 = dk_retention base).
  { rewrite (re_retention _ _ _ _ _ _ Hre), (hw_retention _ _ _ _ _ _ Hhw2). by apply (cr_retention _ _ Hcb). }
  destruct (open_reconciled opts _ act2 tail d1 d2 Hrun Hread Hod2) as (s' & d' & Ho & Hs' & Hse & Hopt & Hact & Hsb & Hdb & Hr'); [by rewrite Hret2|].
  exists h1, (moved (finished_plan P d2) h1), s', d'. split_and!; try done.
  - intros hs Hhs Hsl. by apply (Hall hs Hhs Hsl).
  - by eapply (moved_compacted (finished_plan P d2)), finished_plan_ok.
  - by rewrite Hr'.
  - intros ->. rewrite Hact. apply Hse. eapply reconciled_settled; try done. by intros c Hc%elem_of_nil.
  - intros Hsn. rewrite Hact. assert (Hb1 : all_synced base1) by (eapply (crash_base_synced active no_tail h); [apply (od_logs _ _ _ _ Hod)|done..]).
    assert (Hs2 : all_synced d2) by (by eapply reconciled_synced). split; [apply Hsb; by intros id f Hf _; apply (Hs2 id)|].
    apply Hdb; [done|]. eapply all_synced_log; [done|apply (od_logs _ _ _ _ Hod2)].
Qed.

(** ** The steps of a compaction *)

Section Steps.
Context (P : plan) (h : list appended) (active next : Z) (copies : list compactionManifestCopy) (base : Disk).
Hypothesis Hp : plan_ok P h active.
Hypothesis Hbase : logs_hold base h active no_tail.
Abbreviation half := (halfway P h next copies base).

Lemma base_refl id : same_file (dk_log base !! id) (dk_log base !! id).
Proof. specialize (Hbase id). destruct (dk_log base !! id) as [f|]; [|done]. apply same_file_refl. by destruct Hbase as (_ & _ & ?). Qed.
Lemma base_beyond id : active < id → dk_log base !! id = None.
Proof. intros Hlt. specialize (Hbase id). destruct (dk_log base !! id); [lia|done]. Qed.

Lemma half_start m : dk_logTmp base = ∅ → cm_DeletedSegments m = pl_deleted P → cm_CopiedSegments m = copies → half (with_manifest base (Some m)).
Proof.
  intros Ht Hd Hc. split; cbn; [done|by exists m|left; apply base_refl|right; apply base_refl|].
  intros old new Hon. destruct (po_copies _ _ _ Hp _ _ Hon). split; cbn; [left; apply base_refl|rewrite base_beyond by lia; done|rewrite Ht, lookup_empty; done].
Qed.
Lemma half_finish d m : cm_DeletedSegments m = pl_deleted P → cm_CopiedSegments m = copies → half d → half (with_manifest d (Some m)).
Proof. intros Hd Hc [H1 H2 H3 H4 H5]. split; cbn; [done|by exists m|done|done|]. intros old new Hon. by destruct (H5 old new Hon). Qed.

(** Index files matter for the new segments only. *)
Lemma half_index d index : (∀ old new, pl_copies P !! old = Some new → is_Some (dk_index d !! new) → is_Some (index !! new)) →
  half d → half (with_files d (dk_log d) index).
Proof.
  intros Hi [H1 H2 H3 H4 H5]. split; cbn; try done. intros old new Hon. destruct (H5 old new Hon) as [C1 C2 C3].
  split; cbn; [|done|done]. destruct C1 as [?|(? & ? & ?)]; [by left|right]. split_and!; try done. by eapply Hi.
Qed.
Lemma half_remove_index d id : (∀ old, pl_copies P !! old ≠ Some id) → half d → half (remove_index_file d id).
Proof. intros Hn. apply half_index. intros old new Hon Hs. rewrite lookup_delete_ne; [done|]. intros ->. by eapply Hn. Qed.
Lemma half_remove_deleted d id : id ∈ pl_deleted P → half d → half (remove_log_file d id).
Proof.
  intros Hid [H1 H2 H3 H4 H5]. destruct (po_deleted _ _ _ Hp id Hid) as [Hlt _]. split; cbn; try done.
  - intros x Hx Hx1 Hx2. rewrite lookup_delete_ne by congruence. auto.
  - intros x Hx. destruct (decide (x = id)) as [->|]; [rewrite lookup_delete_eq; by left|rewrite lookup_delete_ne by done; auto].
  - intros old new Hon. destruct (po_copies _ _ _ Hp _ _ Hon) as [Hr Hnd]. destruct (H5 old new Hon) as [C1 C2 C3].
    assert (old ≠ id) by congruence. split; cbn; rewrite ?lookup_delete_ne by (done || lia); done.
Qed.
Lemma half_remove_old d old new : pl_copies P !! old = Some new → is_Some (dk_log d !! new) → is_Some (dk_index d !! new) →
  half d → half (remove_log_file d old).
Proof.
  intros Hc Hl Hi [H1 H2 H3 H4 H5]. destruct (po_copies _ _ _ Hp _ _ Hc) as [Hr Hnd]. split; cbn; try done.
  - intros x Hx Hx1 Hx2. rewrite lookup_delete_ne by congruence. auto.
  - intros x Hx. rewrite lookup_delete_ne by congruence. auto.
  - intros o n Hon. destruct (po_copies _ _ _ Hp _ _ Hon) as [Hr' Hnd']. destruct (H5 o n Hon) as [C1 C2 C3].
    split; cbn; rewrite ?(lookup_delete_ne _ old n) by lia; [|done|done]. destruct (decide (o = old)) as [->|Hne].
    + assert (n = new) as -> by congruence. right. by rewrite lookup_delete_eq.
    + by rewrite lookup_delete_ne.
Qed.
(** Writing the files of one copy. *)
Lemma half_copy d d' old new : pl_copies P !! old = Some new → frame [new] d d' → same_file (dk_log base !! old) (dk_log d !! old) →
  (∀ f, dk_log d' !! new = Some f → complete (copy_data P h old new) f) →
  (∀ f, dk_logTmp d' !! new = Some f → is_Some (dk_indexTmp d' !! new) → complete (copy_data P h old new) f) → half d → half d'.
Proof.
  intros Hc Hf Hs Hl Ht [H1 H2 H3 H4 H5]. destruct (po_copies _ _ _ Hp _ _ Hc) as [Hr Hnd]. split.
  - by rewrite (fr_retention _ _ _ Hf).
  - by rewrite (fr_manifest _ _ _ Hf).
  - intros x Hx Hx1 Hx2. rewrite (fr_log _ _ _ Hf); [auto|]. intros ->%list_elem_of_singleton. by eapply Hx2.
  - intros x Hx. rewrite (fr_log _ _ _ Hf); [auto|]. intros ->%list_elem_of_singleton. destruct (po_deleted _ _ _ Hp _ Hx). lia.
  - intros o n Hon. destruct (po_copies _ _ _ Hp _ _ Hon) as [Hr' Hnd']. destruct (decide (n = new)) as [->|Hne].
    + assert (o = old) as -> by (by eapply (po_inj _ _ _ Hp)). split; [|done|done]. left. rewrite (fr_log _ _ _ Hf); [done|].
      intros ?%list_elem_of_singleton. lia.
    + eapply stage_frame; [exact Hf| | |by apply H5]; intros ?%list_elem_of_singleton; [lia|done].
Qed.
(** Syncing the active segment, and creating the next one. *)
Lemma half_sync d f : dk_log d !! active = Some f → (f_synced f ≤ length (f_data f))%nat → half d →
  half (with_log d active {| f_data := f_data f; f_synced := length (f_data f) |}).
Proof.
  intros Hf Hsy [H1 H2 H3 H4 H5]. split; cbn; try done.
  - intros x Hx Hx1 Hx2. destruct (decide (x = active)) as [->|]; [|rewrite lookup_insert_ne by done; auto]. rewrite lookup_insert_eq.
    destruct (H3 active Hx Hx1 Hx2) as [Hs|(-> & g & Hg & Hd & _)].
    + left. rewrite Hf in Hs. destruct (dk_log base !! active); [|done]. destruct Hs as [Hd Hle]. split; cbn; [done|lia].
    + right. split; [done|]. assert (g = f) as -> by congruence. eexists. split; [done|]. cbn. by rewrite Hd.
  - intros x Hx. destruct (po_deleted _ _ _ Hp _ Hx). rewrite lookup_insert_ne by lia. auto.
  - intros old new Hon. destruct (po_copies _ _ _ Hp _ _ Hon) as [Hr Hnd]. destruct (H5 old new Hon) as [C1 C2 C3].
    split; cbn; rewrite ?lookup_insert_ne by lia; done.
Qed.
Lemma half_next d : active < next → (∀ old new, pl_copies P !! old = Some new → new < next) → dk_log d !! next = None → half d →
  half (with_log d next empty_file).
Proof.
  intros Hlt Hn Hnone [H1 H2 H3 H4 H5]. split; cbn; try done.
  - intros x Hx Hx1 Hx2. destruct (decide (x = next)) as [->|]; [|rewrite lookup_insert_ne by done; auto]. rewrite lookup_insert_eq.
    right. split; [done|]. by exists empty_file.
  - intros x Hx. destruct (po_deleted _ _ _ Hp _ Hx). rewrite lookup_insert_ne by lia. auto.
  - intros old new Hon. destruct (po_copies _ _ _ Hp _ _ Hon) as [Hr Hnd]. pose proof (Hn _ _ Hon). destruct (H5 old new Hon) as [C1 C2 C3].
    split; cbn; rewrite ?lookup_insert_ne by lia; done.
Qed.
End Steps.
End Halfway.
Close Scope Z_scope.
