(* ===== verification/CompactionRun.v ===== *)
(** Reasoning about [C] programs: what holds when they return, and what holds of the disk
    when they stop, because an operation failed, the context was canceled or the machine
    crashed.  Then the parts of [Compact] one by one. *)
From S2P Require Import Prelude Bytes Checksum LogRecord RecordCodec SegmentIndex LogStore LogSafety LogRead LogRecovery Compaction CompactionPlan CompactionDisk.

Open Scope Z_scope.

(** ** Triples *)

(** Some operation does not work, or the context is canceled. *)
Definition faulty (env : CEnv) : Prop := ∃ n, ce_fate env n ≠ Works ∨ ce_canceled env n = true.

(** From [I], [m] returns with [Q], or stops at a fault with [X]. *)
Definition triple {A} (env : CEnv) (I : CState → Prop) (m : C A) (Q : A → CState → Prop) (X : CState → Prop) : Prop :=
  ∀ st, I st → let '(st', o) := m env st in
    match o with Done a => Q a st' | Failed _ | Crashed => X st' ∧ faulty env end.

Section Triples.
Context (env : CEnv).

Lemma t_ret {A} (a : A) (I : CState → Prop) X : triple env I (mret a) (λ b st, b = a ∧ I st) X.
Proof. by intros st Hst. Qed.
Lemma t_bind {A B} (m : C A) (f : A → C B) I Q R X :
  triple env I m Q X → (∀ a, triple env (Q a) (f a) R X) → triple env I (m ≫= f) R X.
Proof.
  intros Hm Hf st Hst. specialize (Hm st Hst). unfold mbind, C_bind. destruct (m env st) as [st' [a|e|]]; [|done|done].
  exact (Hf a st' Hm).
Qed.
Lemma t_conseq {A} (m : C A) (I I' : CState → Prop) (Q Q' : A → CState → Prop) (X X' : CState → Prop) :
  triple env I m Q X → (∀ st, I' st → I st) → (∀ a st, Q a st → Q' a st) → (∀ st, X st → X' st) → triple env I' m Q' X'.
Proof.
  intros Hm HI HQ HX st Hst. specialize (Hm st (HI st Hst)). destruct (m env st) as [st' [a|e|]]; [auto|..]; destruct Hm; auto.
Qed.
Lemma t_exists {A V} (m : C A) (I : V → CState → Prop) Q X :
  (∀ v, triple env (I v) m Q X) → triple env (λ st, ∃ v, I v st) m Q X.
Proof. intros Hm st [v Hv]. exact (Hm v st Hv). Qed.
Lemma t_pure {A} (φ : Prop) (m : C A) (I : CState → Prop) Q X :
  (φ → triple env I m Q X) → triple env (λ st, φ ∧ I st) m Q X.
Proof. intros Hm st [Hφ Hst]. exact (Hm Hφ st Hst). Qed.

Lemma t_env I X : triple env I get_env (λ e st, e = env ∧ I st) X.
Proof. by intros st Hst. Qed.

(** The state, exactly. *)
Definition at_ (s : Store) (d : Disk) (st : CState) : Prop := cs_store st = s ∧ cs_disk st = d.
Definition on (Φ : Disk → Prop) (st : CState) : Prop := Φ (cs_disk st).

Lemma t_store s d X : triple env (at_ s d) get_store (λ s' st, s' = s ∧ at_ s d st) X.
Proof. intros st [<- <-]. done. Qed.
Lemma t_disk s d X : triple env (at_ s d) get_disk (λ d' st, d' = d ∧ at_ s d st) X.
Proof. intros st [<- <-]. done. Qed.
Lemma t_put s s' d X : triple env (at_ s d) (put_store s') (λ _ st, at_ s' d st) X.
Proof. intros st [<- <-]. done. Qed.

Lemma t_step s d partial full s' d' (X : CState → Prop) :
  full s d = (s', d', None) → (∀ n st, at_ (partial n s d).1 (partial n s d).2 st → X st) →
  triple env (at_ s d) (step partial full) (λ _ st, at_ s' d' st) X.
Proof.
  intros Hf HX st [<- <-]. unfold step. destruct (ce_fate env (cs_ops st)) as [|n|n] eqn:Hfate; [by rewrite Hf|..];
    specialize (HX n); destruct (partial n _ _) as [s2 d2]; (split; [by apply HX|]); exists (cs_ops st); left; congruence.
Qed.
Lemma t_act s d partial full (Φ : Disk → Prop) :
  (∀ n, Φ (partial n d)) → triple env (at_ s d) (act partial full) (λ _ st, at_ s (full d) st) (on Φ).
Proof. intros HΦ. apply t_step; [done|]. intros n st [_ Hd]. unfold on. rewrite Hd. apply HΦ. Qed.
Lemma t_atomic s d f (Φ : Disk → Prop) : Φ d → triple env (at_ s d) (atomic f) (λ _ st, at_ s (f d) st) (on Φ).
Proof. intros HΦ. by apply t_act. Qed.
Lemma t_access s d (Φ : Disk → Prop) : Φ d → triple env (at_ s d) access (λ _ st, at_ s d st) (on Φ).
Proof. apply t_atomic. Qed.
Lemma t_canceled s d (Φ : Disk → Prop) : Φ d → triple env (at_ s d) check_canceled (λ _ st, at_ s d st) (on Φ).
Proof.
  intros HΦ st [<- <-]. unfold check_canceled. destruct (ce_canceled env (cs_ops st)) eqn:Hc; [|done]. split; [done|]. exists (cs_ops st). by right.
Qed.
Lemma t_now s d X : triple env (at_ s d) now (λ _ st, at_ s d st) X.
Proof. intros st [<- <-]. done. Qed.
Lemma t_lift {A} (r : result log_error A) a I X : r = Ok a → triple env I (lift r) (λ b st, b = a ∧ I st) X.
Proof. intros ->. apply t_ret. Qed.

Lemma t_exit {A} (m : C A) (I : CState → Prop) Q X X' : triple env I m Q X → (∀ st, X st → X' st) → triple env I m Q X'.
Proof. intros Hm HX. by eapply t_conseq. Qed.
Lemma t_pre {A} (m : C A) (I I' : CState → Prop) Q X : triple env I m Q X → (∀ st, I' st → I st) → triple env I' m Q X.
Proof. intros Hm HX. by eapply t_conseq. Qed.
Lemma t_post {A} (m : C A) (I : CState → Prop) (Q Q' : A → CState → Prop) X : triple env I m Q X → (∀ a st, Q a st → Q' a st) → triple env I m Q' X.
Proof. intros Hm HX. by eapply t_conseq. Qed.
Lemma t_fail {A} e (I : CState → Prop) (Q : A → CState → Prop) X : faulty env → (∀ st, I st → X st) → triple env I (fail e) Q X.
Proof. intros Hf HX st Hst. split; [by apply HX|done]. Qed.

(** A call whose error is kept: it leaves [X] when it fails. *)
Lemma t_try m I (Q : CState → Prop) X :
  triple env I m (λ _ st, Q st) X →
  triple env I (try m) (λ r st, match r with None => Q st | Some _ => X st ∧ faulty env end) X.
Proof. intros Hm st Hst. specialize (Hm st Hst). unfold try. by destruct (m env st) as [st' [[]|e|]]. Qed.
(** A cleanup that keeps [X]. *)
Lemma t_on_failure {A} (m : C A) cleanup I Q X :
  triple env I m Q X → triple env X cleanup (λ _ st, X st) X → triple env I (on_failure m cleanup) Q X.
Proof.
  intros Hm Hc st Hst. specialize (Hm st Hst). unfold on_failure. destruct (m env st) as [st' [a|e|]]; [done| |done].
  destruct Hm as [HX Hf]. specialize (Hc st' HX). destruct (cleanup env st') as [st2 [?|?|]]; [by split|exact Hc..].
Qed.

Lemma t_each {A} (f : A → C unit) (I : list A → CState → Prop) X l :
  (∀ k a l', l = k ++ a :: l' → triple env (I k) (f a) (λ _ st, I (k ++ [a]) st) X) →
  triple env (I []) (for_each f l) (λ _ st, I l st) X.
Proof.
  intros Hf. assert (Hg : ∀ k l', l = k ++ l' → triple env (I k) (for_each f l') (λ _ st, I l st) X); [|by apply Hg].
  intros k l'. revert k. induction l' as [|a l' IH]; intros k Hl; cbn [for_each].
  - rewrite app_nil_r in Hl. subst k. eapply t_conseq; [apply t_ret|done| |done]. by intros ? ? [_ ?].
  - eapply t_bind; [by eapply Hf|]. intros []. apply IH. by rewrite <- app_assoc.
Qed.
Lemma t_map {A B} (f : A → C B) (I : list A → list B → CState → Prop) X l :
  (∀ k bs a l', l = k ++ a :: l' → triple env (I k bs) (f a) (λ b st, I (k ++ [a]) (bs ++ [b]) st) X) →
  triple env (I [] []) (map_each f l) (λ bs st, I l bs st) X.
Proof.
  intros Hf. assert (Hg : ∀ k bs l', l = k ++ l' → triple env (I k bs) (map_each f l') (λ bs' st, I l (bs ++ bs') st) X); [|by apply Hg].
  intros k bs l'. revert k bs. induction l' as [|a l' IH]; intros k bs Hl; cbn [map_each].
  - rewrite app_nil_r in Hl. subst k. eapply t_conseq; [apply t_ret|done| |done]. intros ? st [-> ?]. by rewrite app_nil_r.
  - eapply t_bind; [by eapply Hf|]. intros b. eapply t_bind; [apply IH; by rewrite <- app_assoc|]. intros bs'.
    eapply t_conseq; [apply t_ret|done| |done]. intros ? st [-> Hst]. by rewrite <- app_assoc in Hst.
Qed.
End Triples.

(** ** Removing segments *)

Section Programs.
Context `{ChecksumLib, IndexJSON} (env : CEnv).

Lemma t_atomic_at s d f : triple env (at_ s d) (atomic f) (λ _ st, at_ s (f d) st) (at_ s d).
Proof. apply t_step; [done|]. by intros n st. Qed.
Lemma on_at s d (Φ : Disk → Prop) : Φ d → ∀ st, at_ s d st → on Φ st.
Proof. intros HΦ st [_ Hd]. unfold on. by rewrite Hd. Qed.

Lemma t_remove_segment s d id (Φ : Disk → Prop) : Φ d → Φ (remove_index_file d id) → Φ (remove_log_file d id) →
  triple env (at_ s d) (remove_segment id) (λ _ st, at_ s (removeSegmentFilesOnDisk d id) st) (on Φ).
Proof.
  intros H1 H2 H3. unfold remove_segment.
  eapply t_bind; [eapply t_exit; [apply t_try, t_atomic_at|by apply on_at]|]. intros [e|].
  - eapply t_pre; [apply (t_pure env (faulty env) _ (at_ s d))|by intros st [? ?]]. intros Hf.
    eapply t_bind; [eapply t_exit; [apply t_try, t_atomic_at|by apply on_at]|]. intros [e'|]; apply t_fail; [done| |done|by apply on_at].
    intros st [Hat _]. by apply (on_at s d).
  - eapply t_bind; [eapply t_exit; [apply t_try, t_atomic_at|by apply on_at]|]. intros [e'|].
    + intros st [Hat Hf]. split; [by apply (on_at s (remove_index_file d id))|done].
    + eapply t_post; [apply t_ret|by intros ? st [_ ?]].
Qed.

Lemma t_close_reader s d id (Φ : Disk → Prop) : Φ d → segmentReaderBusyLocked env id = false →
  triple env (at_ s d) (closeSegmentReaderLocked id) (λ _ st, at_ s d st) (on Φ).
Proof.
  intros HΦ Hb. unfold closeSegmentReaderLocked. eapply t_bind; [apply t_env|]. intros e. apply t_pure. intros ->.
  unfold segmentReaderBusyLocked in Hb. destruct (ce_reader env id) as [refs|]; [rewrite Hb; by apply t_access|].
  eapply t_post; [apply t_ret|by intros ? st [_ ?]].
Qed.
Lemma t_drop_segment s d id (Φ : Disk → Prop) : segmentReaderBusyLocked env id = false → Φ d → Φ (remove_index_file d id) → Φ (remove_log_file d id) →
  triple env (at_ s d) (drop_segment id) (λ _ st, at_ s (removeSegmentFilesOnDisk d id) st) (on Φ).
Proof. intros Hb H1 H2 H3. eapply t_bind; [by apply t_close_reader|]. intros []. by apply t_remove_segment. Qed.

Lemma t_manifest s d m (Φ : Disk → Prop) : Φ d →
  triple env (at_ s d) (writeCompactionManifestLocked m) (λ _ st, at_ s (with_manifest d (Some m)) st) (on Φ).
Proof.
  intros HΦ. eapply t_bind; [by apply t_access|]. intros []. eapply (t_exit _ _ _ _ (at_ s d)); [|by apply on_at].
  apply t_on_failure; apply t_atomic_at.
Qed.

(** ** Copying a segment *)

(** The open file of the old segment: the record of an item of the log. *)
Lemma read_item h active old i a pre post :
  history_ok h active → h = pre ++ a :: post → i = item_of pre a → ap_seg a = old →
  readRecordAt (seg_bytes h old) (ie_Offset (ri_entry i)) = Ok (ap_rec a, (length (seg_bytes pre old) + length (ap_enc a))%nat) ∧
  i64 (Z.of_nat (length (seg_bytes pre old) + length (ap_enc a)) - i64 (ie_Offset (ri_entry i))) = ie_Length (ri_entry i).
Proof.
  intros Hh Hsplit -> <-. destruct (entry_bounds h active pre a post Hh Hsplit) as (Ho & Hl & _).
  assert (Hi : i64 (ie_Offset (entry_of pre a)) = ie_Offset (entry_of pre a)) by (apply i64_id; unfold in_i64; lia).
  cbn [item_of ri_entry]. unfold readRecordAt. rewrite Hi. cbn [entry_of ie_Offset ie_Length] in *.
  rewrite (proj2 (Z.ltb_ge _ 0)), Nat2Z.id by lia. split.
  - rewrite Hsplit, split_bytes. apply (valid_read a (seg_bytes pre (ap_seg a)) (seg_bytes post (ap_seg a))); [|by apply readAt_reads].
    eapply valid_in; [exact Hh|]. rewrite Hsplit. apply elem_of_app. right. left.
  - rewrite i64_id; [lia|]. unfold in_i64. lia.
Qed.

Lemma t_throttle s d n max (Φ : Disk → Prop) : Φ d → triple env (at_ s d) (throttleCompactionWrite n max) (λ _ st, at_ s d st) (on Φ).
Proof.
  intros HΦ. eapply t_bind; [by apply t_canceled|]. intros []. destruct (_ || _); [eapply t_post; [apply t_ret|by intros ? st [_ ?]]|].
  destruct (_ <=? 0); [eapply t_post; [apply t_ret|by intros ? st [_ ?]]|by apply t_canceled].
Qed.

Section Copy.
Context (s : Store) (d : Disk) (new : Z) (max : Z) (Φ : Disk → Prop).
(** The disk with [x] written to the temporary log. *)
Definition writing (x : bytes) : Disk := with_log_tmp d new {| f_data := x; f_synced := 0 |}.
Hypothesis HΦ : ∀ x, Φ (writing x).

Lemma append_writing x b : append_log_tmp (writing x) new b = writing (x ++ b).
Proof. unfold append_log_tmp, log_tmp, writing, with_log_tmp. cbn. rewrite lookup_insert_eq. cbn. by rewrite insert_insert_eq. Qed.
Lemma t_write x b : triple env (at_ s (writing x)) (write_log_tmp new b) (λ _ st, at_ s (writing (x ++ b)) st) (on Φ).
Proof. unfold write_log_tmp. rewrite <- (append_writing x b). apply t_act. intros n. rewrite append_writing. apply HΦ. Qed.

(** The new entry of a copied record. *)
Definition copied_item (x : bytes) (a : appended) : recoveredIndexEntry :=
  {| ri_streamID := StreamID (ap_rec a);
     ri_entry := {| ie_Seq := Seq (ap_rec a); ie_SegmentID := new; ie_Offset := Z.of_nat (length x);
                    ie_Length := Z.of_nat (length (reencoded (ce_pooled env) (ap_rec a))) |} |}.

Lemma t_copy_record h active old x i a pre post :
  history_ok h active → h = pre ++ a :: post → i = item_of pre a → ap_seg a = old → Z.of_nat (length x) < 2 ^ 38 →
  triple env (at_ s (writing x)) (copy_record (seg_bytes h old) new max i (Z.of_nat (length x)))
    (λ r st, r = (copied_item x a, Z.of_nat (length (x ++ reencoded (ce_pooled env) (ap_rec a)))) ∧
             at_ s (writing (x ++ reencoded (ce_pooled env) (ap_rec a))) st) (on Φ).
Proof.
  intros Hh Hsplit Hi Hseg Hx. destruct (read_item h active old i a pre post Hh Hsplit Hi Hseg) as [Hread Hlen].
  assert (Hv : valid a) by (eapply valid_in; [exact Hh|]; rewrite Hsplit; apply elem_of_app; right; left).
  destruct (reencode_ok (ce_pooled env) new a Hv) as ([crc Henc] & _ & Hsame). pose proof (va_len a Hv) as Hshort.
  unfold copy_record. cbv zeta. eapply t_bind; [by apply t_canceled|]. intros []. eapply t_bind; [by apply t_access|]. intros [].
  eapply t_bind; [by apply t_lift|]. intros [rec next]. apply t_pure. intros [= -> ->].
  rewrite Hlen, Z.eqb_refl. replace (StreamID (ap_rec a)) with (ri_streamID i) by (by rewrite Hi).
  replace (ie_Seq (ri_entry i)) with (Seq (ap_rec a)) by (by rewrite Hi). rewrite bool_decide_eq_true_2, Z.eqb_refl by done. cbn [negb orb].
  eapply t_bind; [apply t_env|]. intros e. apply t_pure. intros ->. eapply t_bind; [by apply t_lift|]. intros [b c]. apply t_pure. intros [= -> ->].
  eapply t_bind; [apply t_write|]. intros []. eapply t_bind; [by apply t_throttle|]. intros [].
  eapply t_post; [apply t_ret|]. intros r st [-> Hst]. split; [|done]. rewrite u32_id by (unfold in_u32; lia).
  rewrite u64_id by (unfold in_u64; lia). f_equal; [by rewrite Hi|]. rewrite length_app. lia.
Qed.
(** The copy loop, from what was written for [pre]. *)
Abbreviation rel := (relocate (ce_pooled env) new).
Lemma t_copy_records h active old items l : ∀ pre,
  history_ok h active →
  Forall2 (λ i a, ap_seg a = old ∧ ∃ h1 h2, h = h1 ++ a :: h2 ∧ i = item_of h1 a) items l →
  Z.of_nat (length (seg_bytes (pre ++ (rel <$> l)) new)) < 2 ^ 38 →
  triple env (at_ s (writing (seg_bytes pre new)))
    (copy_records (seg_bytes h old) new max items (Z.of_nat (length (seg_bytes pre new))))
    (λ r st, r = place pre (rel <$> l) ∧ at_ s (writing (seg_bytes (pre ++ (rel <$> l)) new)) st) (on Φ).
Proof.
  intros pre Hh Hf. revert pre. induction Hf as [|i a items l (Hseg & h1 & h2 & Hsplit & Hi) _ IH]; intros pre Hlen; cbn [copy_records].
  { rewrite fmap_nil, app_nil_r. apply t_ret. }
  rewrite fmap_cons in *. change (pre ++ rel a :: (rel <$> l)) with (pre ++ [rel a] ++ (rel <$> l)) in *. rewrite app_assoc in *.
  assert (Hnext : seg_bytes pre new ++ reencoded (ce_pooled env) (ap_rec a) = seg_bytes (pre ++ [rel a]) new).
  { symmetry. apply (seg_bytes_snoc pre (rel a)). }
  assert (Hle : Z.of_nat (length (seg_bytes pre new)) < 2 ^ 38).
  { rewrite !seg_bytes_app, !length_app in Hlen. lia. }
  eapply t_bind; [by eapply (t_copy_record h active old)|]. rewrite Hnext. intros [entry offset]. apply t_pure. intros [= -> ->].
  eapply t_bind; [by apply IH|]. intros r. apply t_pure. intros ->. eapply t_post; [apply t_ret|]. intros r st [-> Hst]. by split.
Qed.
End Copy.
(** *** One whole copy *)

Section WriteCopy.
Context (s : Store) (d : Disk) (P : plan) (h : list appended) (active old new : Z) (max : Z).
Abbreviation data := (copy_data P h old new).
Hypothesis Hh : history_ok h active.
Hypothesis Hpool : pl_pooled P = ce_pooled env.
Hypothesis Hold : ∃ f, dk_log d !! old = Some f ∧ f_data f = seg_bytes h old.
Hypothesis Hlog : dk_log d !! new = None.
Hypothesis Htmp : dk_logTmp d !! new = None ∧ dk_indexTmp d !! new = None.
Hypothesis Hindex : ∃ b, writeSegmentIndex new (placed (copy_of P h old new)) = Ok b.

(** The disk while a copy is made: of the new segment's files, only whole logs can be seen. *)
Record copying (d' : Disk) : Prop := {
  cg_frame : frame [new] d d';
  cg_log : ∀ f, dk_log d' !! new = Some f → complete data f;
  cg_tmp : ∀ f, dk_logTmp d' !! new = Some f → is_Some (dk_indexTmp d' !! new) → complete data f
}.
(** The disk after it. *)
Record copied (d' : Disk) : Prop := {
  ci_frame : frame [new] d d';
  ci_log : ∃ f, dk_log d' !! new = Some f ∧ complete data f;
  ci_index : is_Some (dk_index d' !! new);
  ci_logTmp : dk_logTmp d' = dk_logTmp d;
  ci_indexTmp : dk_indexTmp d' = dk_indexTmp d
}.

Lemma not_new x : x ∉ [new] → x ≠ new.
Proof. by intros [? _]%not_elem_of_cons. Qed.
Lemma frame_log_tmp d' f : frame [new] d d' → frame [new] d (with_log_tmp d' new f).
Proof. intros Hf. eapply frame_trans; [exact Hf|]. apply frame_tmps; intros x Hx%not_new; by rewrite ?lookup_insert_ne. Qed.
Lemma frame_index_tmp d' b : frame [new] d d' → frame [new] d (with_index_tmp d' new b).
Proof. intros Hf. eapply frame_trans; [exact Hf|]. apply frame_tmps; intros x Hx%not_new; by rewrite ?lookup_insert_ne. Qed.

Definition whole : file := {| f_data := data; f_synced := length data |}.
Lemma whole_complete : complete data whole.
Proof. by split. Qed.
(** The stages: the log written, then synced, then with its index. *)
Definition wrote : Disk := with_log_tmp d new whole.
Definition indexed (b : bytes) : Disk := with_index_tmp wrote new b.
Definition renamed (b : bytes) : Disk := rename_log (indexed b) new.

Lemma copying_start : copying d.
Proof. destruct Htmp as [Ht _]. by split; [apply frame_refl|rewrite Hlog|rewrite Ht]. Qed.
Lemma copying_log x : copying (writing d new x).
Proof.
  split; [apply frame_log_tmp, frame_refl|cbn; by rewrite Hlog|]. cbn. destruct Htmp as [_ ->]. by intros ? _ [? ?].
Qed.
Lemma copying_synced : copying wrote.
Proof. split; [apply frame_log_tmp, frame_refl|cbn; by rewrite Hlog|]. cbn. destruct Htmp as [_ ->]. by intros ? _ [? ?]. Qed.
Lemma copying_indexed b : copying (indexed b).
Proof.
  split; [apply frame_index_tmp, frame_log_tmp, frame_refl|cbn; by rewrite Hlog|]. cbn. rewrite lookup_insert_eq.
  intros f [= <-] _. apply whole_complete.
Qed.
Lemma renamed_parts b : dk_log (renamed b) = <[new := whole]> (dk_log d) ∧ dk_index (renamed b) = dk_index d ∧
  dk_logTmp (renamed b) = dk_logTmp d ∧ dk_indexTmp (renamed b) = <[new := b]> (dk_indexTmp d) ∧ frame [new] d (renamed b).
Proof.
  split; [|split; [|split; [|split]]]; [..|eapply frame_trans; [apply copying_indexed|apply frame_rename_log]];
    unfold renamed, rename_log, indexed, wrote; cbn; rewrite lookup_insert_eq; cbn; try done.
  by rewrite delete_insert_id by apply Htmp.
Qed.
Lemma copying_renamed b : copying (renamed b).
Proof.
  destruct (renamed_parts b) as (E1 & E2 & E3 & E4 & Hf). split; [done|rewrite E1, lookup_insert_eq; intros f [= <-]; apply whole_complete|].
  rewrite E3. destruct Htmp as [-> _]. done.
Qed.
Lemma copied_renamed b : copied (rename_index (renamed b) new).
Proof.
  destruct (renamed_parts b) as (E1 & E2 & E3 & E4 & Hf). revert E1 E2 E3 E4 Hf. generalize (renamed b). intros r E1 E2 E3 E4 Hf.
  split; [eapply frame_trans; [exact Hf|apply frame_rename_index]|..]; unfold rename_index; rewrite E4, lookup_insert_eq; cbn.
  - exists whole. split; [by rewrite E1, lookup_insert_eq|apply whole_complete].
  - rewrite lookup_insert_eq. by eexists.
  - done.
  - by rewrite delete_insert_id by apply Htmp.
Qed.

Lemma sync_wrote : sync_log_tmp (writing d new data) new = wrote.
Proof. unfold sync_log_tmp, log_tmp, wrote, writing, with_log_tmp. cbn. rewrite lookup_insert_eq. cbn. by rewrite insert_insert_eq. Qed.
Lemma reindexed x b : with_index_tmp (indexed x) new b = indexed b.
Proof. unfold indexed, with_index_tmp. cbn. by rewrite insert_insert_eq. Qed.

(** The deferred cleanup keeps what a copy may leave. *)
Lemma t_try_keep (f : Disk → Disk) (Φ : Disk → Prop) : (∀ d, Φ d → Φ (f d)) →
  triple env (on Φ) (try (atomic f)) (λ _ st, on Φ st) (on Φ).
Proof.
  intros Hf st Hst. unfold try, atomic, act, step, on in *. destruct (ce_fate env (cs_ops st)) as [|n|n] eqn:Hfate; cbn; [by apply Hf|done|].
  split; [done|]. exists (cs_ops st). left. congruence.
Qed.
Lemma copying_removed d' d2 : copying d' → frame [new] d' d2 →
  dk_log d2 !! new = dk_log d' !! new ∨ dk_log d2 !! new = None →
  (dk_logTmp d2 !! new = dk_logTmp d' !! new ∧ dk_indexTmp d2 !! new = dk_indexTmp d' !! new) ∨
    dk_logTmp d2 !! new = None ∨ dk_indexTmp d2 !! new = None → copying d2.
Proof.
  intros [Hf Hl Ht] Hf2 Hlog2 Htmp2. split; [by eapply frame_trans| |].
  - destruct Hlog2 as [->| ->]; [done|done].
  - destruct Htmp2 as [[-> ->]|[-> | ->]]; [done|done|by intros ? _ [? ?]].
Qed.
Lemma t_cleanup : triple env (on copying) (cleanup_copy new) (λ _ st, on copying st) (on copying).
Proof.
  assert (Hone : ∀ f, (∀ d', copying d' → copying (f d')) → triple env (on copying) (try (atomic f)) (λ _ st, on copying st) (on copying))
    by (intros f; apply t_try_keep).
  assert (Hfr : ∀ x, x ∉ [new] → ∀ A (m : gmap Z A), delete new m !! x = m !! x) by (intros x Hx%not_new A m; by rewrite lookup_delete_ne).
  unfold cleanup_copy. eapply t_bind; [apply Hone|intros e1; eapply t_bind; [apply Hone|intros e2; eapply t_bind; [apply Hone|intros e3; eapply t_bind; [apply Hone|]]]].
  5: { intros e4. eapply t_post; [apply t_ret|]. by intros ? st [_ ?]. }
  all: intros d' Hd'; apply (copying_removed d'); [done| |cbn; rewrite ?lookup_delete_eq; auto..];
    first [apply frame_tmps|apply frame_files]; intros x Hx; rewrite ?Hfr; done.
Qed.

Lemma t_write_copy plan : cp_oldSegmentID plan = old → cp_newSegmentID plan = new → cp_entries plan = live_items (pl_trim P) h old →
  triple env (at_ s d) (write_copy plan max)
    (λ r st, r = with_new plan new (placed (copy_of P h old new)) ∧ ∃ d', at_ s d' st ∧ copied d') (on copying).
Proof.
  intros Ho Hn He. unfold write_copy. cbv zeta. rewrite Ho, Hn, He. destruct Hold as (f & Hf & Hfd).
  eapply t_bind; [unfold open_log; eapply t_bind; [apply t_access, copying_start|]|].
  { intros []. eapply t_bind; [apply t_disk|]. intros d0. apply t_pure. intros ->. rewrite Hf. apply t_ret. }
  intros b. apply t_pure. intros ->. rewrite Hfd.
  eapply t_bind. { apply (t_step env s d _ _ s (writing d new [])); [unfold has; rewrite bool_decide_eq_false_2; [done|by rewrite (proj1 Htmp); intros [? ?]]|]. intros n. apply on_at, copying_start. }
  intros []. pose proof (copy_size P h active old new Hh) as Hsz. pose proof (ho_size _ _ Hh old) as Hsz2.
  assert (Hall : in_seg new (copy_of P h old new) = copy_of P h old new) by apply in_seg_all, copy_in_seg.
  assert (Hbytes : seg_bytes (copy_of P h old new) new = data) by (unfold seg_bytes; by rewrite Hall).
  eapply t_bind.
  { apply (t_copy_records s d new max copying copying_log h active old _ (filter (λ a, ¬ trimmed (pl_trim P) a) (in_seg old h)) []); [done|by eapply live_items_stand|].
    cbn [app]. rewrite <- Hpool. change (relocate (pl_pooled P) new <$> _) with (copy_of P h old new). rewrite Hbytes. unfold copy_data. lia. }
  cbn [app]. rewrite <- Hpool. change (relocate (pl_pooled P) new <$> _) with (copy_of P h old new). rewrite Hbytes.
  intros entries. apply t_pure. intros ->. change (place [] ?l) with (placed l).
  eapply t_bind. { unfold sync_close_log_tmp. apply t_act. intros [|n]; [apply copying_log|rewrite sync_wrote; apply copying_synced]. }
  cbv beta. rewrite sync_wrote. intros []. eapply t_bind.
  { apply (t_step env s wrote _ _ s (indexed [])); [unfold has; rewrite bool_decide_eq_false_2; [done|cbn; rewrite (proj2 Htmp); by intros [? ?]]|].
    intros n. apply on_at, copying_synced. }
  intros []. destruct Hindex as [b Hb]. eapply t_bind; [by apply t_lift|]. intros b'. apply t_pure. intros ->.
  eapply t_bind; [unfold write_index_tmp; apply t_act; intros n; rewrite reindexed; apply copying_indexed|]. cbv beta. rewrite reindexed. intros [].
  eapply t_bind; [apply t_access, copying_indexed|]. intros []. eapply t_bind; [apply t_atomic, copying_indexed|].
  change (rename_log (indexed b) new) with (renamed b). intros []. eapply t_bind; [apply t_atomic, copying_renamed|].
  intros []. eapply t_post; [apply t_ret|]. intros r st [-> Hst]. split; [done|]. eexists. split; [exact Hst|apply copied_renamed].
Qed.
Lemma t_writeCompactedSegment plan : cp_oldSegmentID plan = old → cp_newSegmentID plan = new → cp_entries plan = live_items (pl_trim P) h old →
  triple env (at_ s d) (writeCompactedSegmentLocked plan max)
    (λ r st, r = with_new plan new (placed (copy_of P h old new)) ∧ ∃ d', at_ s d' st ∧ copied d') (on copying).
Proof.
  intros Ho Hn He. apply t_on_failure; [by apply t_write_copy|]. rewrite Hn. apply t_cleanup.
Qed.
End WriteCopy.
(** ** The idempotency table *)

(** A segment's index entries read back its records. *)
Lemma hydrate_placed id l : ∀ pre idem, Forall valid l → Forall (λ a, ap_seg a = id) l → Z.of_nat (length (seg_data pre l id [])) < 2 ^ 38 →
  hydrate (seg_data pre l id []) (place pre l) idem = Ok (foldl add_idempotency idem (ap_rec <$> l)).
Proof.
  induction l as [|a l IH]; intros pre idem Hv Hid Hsz; [done|]. apply Forall_cons in Hv as [Hva Hv]. apply Forall_cons in Hid as [<- Hid].
  destruct (seg_data_cons pre a l []) as [Hnext Hdata]. cbn [place hydrate]. unfold readIndexedRecordFromReader.
  cbn [item_of ri_streamID ri_entry entry_of ie_Offset ie_Seq ie_Length]. rewrite Hdata in Hsz. rewrite length_app in Hsz.
  rewrite (proj2 (Z.ltb_ge max_i64 _)) by (unfold max_i64; lia). rewrite Nat2Z.id. rewrite Hdata at 1.
  rewrite (valid_read a _ _ _ Hva (readAt_reads _)), ok_bind, bool_decide_eq_true_2, Z.eqb_refl by done.
  rewrite (proj2 (Z.eqb_eq _ _)) by lia. cbn [negb orb]. rewrite ok_bind, Hnext, IH; [done..|]. rewrite <- Hnext, Hdata, length_app. lia.
Qed.

(** The segments of the index, all in their files. *)
Definition files_hold (d : Disk) (h : list appended) : Prop :=
  ∀ id, in_seg id h ≠ [] → ∃ f, dk_log d !! id = Some f ∧ f_data f = seg_bytes h id.

Lemma t_open_log s d id f (Φ : Disk → Prop) : Φ d → dk_log d !! id = Some f →
  triple env (at_ s d) (open_log id) (λ b st, b = f_data f ∧ at_ s d st) (on Φ).
Proof.
  intros HΦ Hf. eapply t_bind; [by apply t_access|]. intros []. eapply t_bind; [apply t_disk|]. intros d'. apply t_pure. intros ->.
  rewrite Hf. apply t_ret.
Qed.
Lemma t_rebuild_segments s0 s d h active ids (Φ : Disk → Prop) : Φ d → history_ok h active → files_hold d h →
  (∀ sid, stream_ok h sid (st_streams s !! sid)) → ∀ idem, Forall (λ id, in_seg id h ≠ []) ids →
  triple env (at_ s0 d) (rebuild_segments s ids idem)
    (λ m st, m = foldl add_idempotency idem (ap_rec <$> by_segment h ids) ∧ at_ s0 d st) (on Φ).
Proof.
  intros HΦ Hh Hf Hs. induction ids as [|id ids IH]; intros idem Hids; cbn [rebuild_segments]; [apply t_ret|].
  apply Forall_cons in Hids as [Hid Hids]. destruct (Hf id Hid) as (f & Hlog & Hd). destruct (in_seg_valid h active id Hh) as [Hv Hseg].
  eapply t_bind; [by eapply t_open_log|]. intros b. apply t_pure. intros ->. eapply t_bind; [by apply t_access|]. intros [].
  eapply t_bind.
  { apply t_lift. rewrite Hd, (segment_items_ok s h active id Hs Hh). pose proof (hydrate_placed id (in_seg id h) [] idem Hv Hseg) as Hhy.
    unfold seg_data in Hhy. rewrite app_nil_r in Hhy. apply Hhy. pose proof (ho_size _ _ Hh id) as Hz. unfold seg_bytes in Hz. cbn. lia. }
  intros idem'. apply t_pure. intros ->. eapply t_bind; [by apply t_access|]. intros []. eapply t_post; [by apply IH|].
  intros m st [-> Hst]. split; [|done]. unfold by_segment. cbn [map concat]. by rewrite fmap_app, foldl_app.
Qed.

Lemma entry_segments_spec s h : (∀ sid, stream_ok h sid (st_streams s !! sid)) →
  NoDup (entry_segments s) ∧ ∀ id, id ∈ entry_segments s ↔ in_seg id h ≠ [].
Proof.
  intros Hs. unfold entry_segments. split; [rewrite merge_sort_Permutation; apply NoDup_elements|]. intros id.
  rewrite merge_sort_Permutation, elem_of_elements, elem_of_list_to_set.
  assert (Hall : id ∈ map (λ i, ie_SegmentID (ri_entry i)) (all_items s) ↔ in_seg id h ≠ []).
  { rewrite list_elem_of_In, in_map_iff. pose proof (all_items_placed s h Hs) as Hp. split.
    - intros (i & <- & Hi%list_elem_of_In). rewrite Hp in Hi. apply list_elem_of_lookup in Hi as [k Hk].
      destruct (Forall2_lookup_l _ _ _ _ _ (placed_stands h) Hk) as (a & Ha & pre & post & Hsplit & ->).
      apply (in_its_segment h a). by eapply list_elem_of_lookup_2.
    - intros Hne. destruct (in_seg id h) as [|a l] eqn:Hl; [done|]. assert (Ha : a ∈ in_seg id h) by (rewrite Hl; left).
      apply list_elem_of_filter in Ha as [<- Ha]. apply list_elem_of_lookup in Ha as [k Hk].
      destruct (Forall2_lookup_r _ _ _ _ _ (placed_stands h) Hk) as (i & Hi & pre & post & Hsplit & ->).
      eexists. split; [|rewrite <- list_elem_of_In, Hp; by eapply list_elem_of_lookup_2]. done. }
  rewrite <- Hall. assert (Heq : concat (map (λ '(_, state), map ie_SegmentID (ss_entries state)) (map_to_list (st_streams s))) =
    map (λ i, ie_SegmentID (ri_entry i)) (all_items s)); [|by rewrite Heq].
  unfold all_items. rewrite concat_map, map_map. f_equal. apply map_ext. intros [sid st]. by rewrite map_map.
Qed.

Lemma t_rebuild s d h active (Φ : Disk → Prop) : Φ d → history_ok h active → files_hold d h →
  (∀ sid, stream_ok h sid (st_streams s !! sid)) →
  triple env (at_ s d) rebuildIdempotencyLocked (λ _ st, ∃ idem, idem_ok h idem ∧ at_ (with_idempotency s idem) d st) (on Φ).
Proof.
  intros HΦ Hh Hf Hs. destruct (entry_segments_spec s h Hs) as [Hnd Hids]. unfold rebuildIdempotencyLocked.
  eapply t_bind; [apply t_store|]. intros s'. apply t_pure. intros ->.
  eapply t_bind; [apply (t_rebuild_segments s s d h active); try done; apply Forall_forall; apply Hids|]. intros m. apply t_pure. intros ->.
  eapply t_post; [apply t_put|]. intros [] st Hst. eexists. split; [|exact Hst].
  apply (idem_of_perm (by_segment h (entry_segments s)) h active); [done|]. apply by_segments; [done|].
  apply Forall_forall. intros a Ha. by apply Hids, in_its_segment.
Qed.
End Programs.
Close Scope Z_scope.
