(* ===== verification/CompactionSafe.v ===== *)
(** All of [Compact]: from a store that holds the log [h], it ends with a store that holds
    the log its plan leads to, or stops with the disk halfway to it. *)
From S2P Require Import Prelude Bytes Checksum LogRecord RecordCodec SegmentIndex LogStore LogSafety LogRead LogRecovery Compaction CompactionPlan CompactionDisk CompactionRun.

Open Scope Z_scope.

(** ** The index changes *)

Section Apply.
Context `{ChecksumLib, IndexJSON}.

(** [s] is [s0] with the index of the log [h]; trim marks and counters are the same. *)
Record reindexed (s0 s : Store) (h : list appended) : Prop := {
  ri_streams : ∀ id, stream_ok h id (st_streams s !! id);
  ri_idem : idem_ok h (st_idempotency s);
  ri_trim : ∀ id, ss_trimBefore <$> st_streams s !! id = ss_trimBefore <$> st_streams s0 !! id;
  ri_next : ∀ id, ss_nextSeq <$> st_streams s !! id = ss_nextSeq <$> st_streams s0 !! id;
  ri_options : st_options s = st_options s0;
  ri_open : st_open s = st_open s0;
  ri_active : st_activeSegmentID s = st_activeSegmentID s0;
  ri_bytes : st_activeSegmentBytes s = st_activeSegmentBytes s0
}.
Lemma reindexed_trans s1 s2 s3 h h' : reindexed s1 s2 h → reindexed s2 s3 h' → reindexed s1 s3 h'.
Proof. intros [] []. split; try done; intros; etrans; eauto. Qed.
Lemma trim_of_eq s s' id : ss_trimBefore <$> st_streams s' !! id = ss_trimBefore <$> st_streams s !! id → trim_of s' id = trim_of s id.
Proof. unfold trim_of, stream_of. destruct (st_streams s' !! id), (st_streams s !! id); naive_solver. Qed.

Lemma moved_nothing P h : pl_deleted P = [] → pl_copies P = ∅ → moved P h = h.
Proof.
  intros Hd Hc. induction h as [|a h IH]; [done|]. rewrite moved_cons. unfold move. rewrite Hd, Hc, lookup_empty.
  rewrite decide_False by (apply not_elem_of_nil). by rewrite IH.
Qed.

Lemma t_apply env P h active active' s d plans (Φ : Disk → Prop) :
  plan_ok P h active → history_ok h active → history_ok (moved P h) active' → plans_done P h plans →
  (∀ id, stream_ok h id (st_streams s !! id)) → idem_ok h (st_idempotency s) → (∀ id, pl_trim P id = trim_of s id) →
  files_hold d (moved P h) → Φ d →
  triple env (at_ s d) (apply_changes (pl_deleted P) plans) (λ _ st, ∃ s', reindexed s s' (moved P h) ∧ at_ s' d st) (on Φ).
Proof.
  intros Hp Hh Hm Hd Hs Hi Ht Hf HΦ.
  assert (Hrun : triple env (at_ s d) (s ← get_store; _ ← put_store (applyCompactionIndexChangesLocked s (pl_deleted P) plans); rebuildIdempotencyLocked)
    (λ _ st, ∃ s', reindexed s s' (moved P h) ∧ at_ s' d st) (on Φ)).
  { eapply t_bind; [apply t_store|]. intros s0. apply t_pure. intros ->. eapply t_bind; [apply t_put|]. intros [].
    pose proof (apply_streams P h active active' s plans Hp Hh Hm Hd Hs Ht) as Hst. cbv zeta in Hst.
    eapply t_post; [apply (t_rebuild env _ d (moved P h) active'); try done; apply Hst|]. intros [] st (idem & Hidem & Hat).
    eexists. split; [|exact Hat]. split; try done; cbn; apply Hst. }
  unfold apply_changes. destruct (pl_deleted P) as [|id dels] eqn:Hdel; [|by destruct plans]. destruct plans as [|p plans]; [|done].
  eapply t_post; [apply t_ret|]. intros [] st [_ Hat]. exists s. split; [|done]. rewrite moved_nothing; [by split|done|].
  apply map_empty. intros old. destruct (pl_copies P !! old) as [new|] eqn:Hc; [|done].
  apply (pd_copies _ _ _ Hd) in Hc as (p & Hin & _). by apply elem_of_nil in Hin.
Qed.
End Apply.

(** ** The plan of a compaction *)

Section Plans.
Context `{ChecksumLib, IndexJSON}.

(** The files of an interrupted write are gone: a store does not start with any. *)
Definition no_tmps (d : Disk) : Prop := dk_logTmp d = ∅ ∧ dk_indexTmp d = ∅.

(** The planned segments with their new numbers, all between the active one and [next]. *)
Record numbered (s : Store) (busy : Z → bool) (h : list appended) (active next : Z) (dels : list Z) (plans : list segmentCopyPlan) : Prop := {
  nb_planned : planned s busy h active dels plans;
  nb_news : NoDup (map cp_newSegmentID plans);
  nb_range : ∀ p, p ∈ plans → active < cp_newSegmentID p < next;
  nb_next : active < next < 2 ^ 64
}.

Definition the_plan (env : CEnv) (s : Store) (dels : list Z) (plans : list segmentCopyPlan) : plan :=
  {| pl_trim := trim_of s; pl_pooled := ce_pooled env; pl_deleted := dels;
     pl_copies := list_to_map (map (λ p, (cp_oldSegmentID p, cp_newSegmentID p)) plans) |}.
Definition the_copies (plans : list segmentCopyPlan) : list compactionManifestCopy :=
  map (λ plan, {| mc_OldSegmentID := cp_oldSegmentID plan; mc_NewSegmentID := cp_newSegmentID plan |}) plans.

Lemma in_map_elem {A B} (f : A → B) (l : list A) y : y ∈ map f l ↔ ∃ x, x ∈ l ∧ f x = y.
Proof. rewrite list_elem_of_In, in_map_iff. split; intros (x & H1 & H2); exists x; rewrite list_elem_of_In in *; auto. Qed.

Section Numbered.
Context (env : CEnv) (s : Store) (busy : Z → bool) (h : list appended) (active next : Z) (dels : list Z) (plans : list segmentCopyPlan).
Hypothesis Hnb : numbered s busy h active next dels plans.
Hypothesis Hh : history_ok h active.
Abbreviation P := (the_plan env s dels plans).

Lemma the_copies_map old new : pl_copies P !! old = Some new ↔ ∃ p, p ∈ plans ∧ cp_oldSegmentID p = old ∧ cp_newSegmentID p = new.
Proof.
  cbn. rewrite <- elem_of_list_to_map.
  - rewrite in_map_elem. split; [intros (p & Hp & [= <- <-])|intros (p & Hp & <- & <-)]; by exists p.
  - change (map (λ p, (cp_oldSegmentID p, cp_newSegmentID p)) plans) with ((λ p, (cp_oldSegmentID p, cp_newSegmentID p)) <$> plans).
    rewrite <- list_fmap_compose. apply (pn_olds _ _ _ _ _ _ (nb_planned _ _ _ _ _ _ _ Hnb)).
Qed.
Lemma plan_range p : p ∈ plans → cp_oldSegmentID p < active < cp_newSegmentID p ∧ cp_newSegmentID p < next ∧ (cp_oldSegmentID p ∉ dels) ∧
  pl_copies P !! cp_oldSegmentID p = Some (cp_newSegmentID p).
Proof.
  intros Hp. destruct (nb_range _ _ _ _ _ _ _ Hnb p Hp). destruct (pn_copied _ _ _ _ _ _ (nb_planned _ _ _ _ _ _ _ Hnb) p Hp) as (? & _ & _ & _ & ?).
  split_and!; try lia; [done|]. apply the_copies_map. by exists p.
Qed.
Lemma new_inj p q : p ∈ plans → q ∈ plans → cp_newSegmentID p = cp_newSegmentID q → p = q.
Proof.
  intros [i Hi]%list_elem_of_lookup [j Hj]%list_elem_of_lookup Heq. assert (i = j); [|congruence].
  apply (NoDup_lookup (map cp_newSegmentID plans) i j (cp_newSegmentID p)); [apply (nb_news _ _ _ _ _ _ _ Hnb)|..];
    change (map cp_newSegmentID plans) with (cp_newSegmentID <$> plans); rewrite list_lookup_fmap, ?Hi, ?Hj; cbn; congruence.
Qed.

Lemma the_plan_ok : plan_ok P h active.
Proof.
  pose proof (nb_planned _ _ _ _ _ _ _ Hnb) as Hpl. split.
  - intros id Hid. by destruct (pn_deleted _ _ _ _ _ _ Hpl id Hid) as (? & _ & _ & ?).
  - intros old new (p & Hp & <- & <-)%the_copies_map. by destruct (plan_range p Hp) as (? & _ & ? & _).
  - intros o1 o2 new (p & Hp & <- & Hnp)%the_copies_map (q & Hq & <- & Hnq)%the_copies_map. f_equal. apply new_inj; congruence.
Qed.

Lemma ids_nodup : NoDup (copy_ids (the_copies plans)).
Proof.
  assert (Hr : Forall (λ p, cp_oldSegmentID p < active < cp_newSegmentID p) plans) by (apply Forall_forall; intros p Hp; apply plan_range, Hp).
  pose proof (pn_olds _ _ _ _ _ _ (nb_planned _ _ _ _ _ _ _ Hnb)) as Ho. pose proof (nb_news _ _ _ _ _ _ _ Hnb) as Hn.
  clear Hnb. induction Hr as [|p l Hp Hr IH]; [constructor|]. cbn [map] in Ho, Hn. apply NoDup_cons in Ho as [Ho1 Ho], Hn as [Hn1 Hn].
  assert (Hin : ∀ id, id ∈ copy_ids (the_copies l) → ∃ q, q ∈ l ∧ (id = cp_oldSegmentID q ∨ id = cp_newSegmentID q)).
  { intros id (c & (q & Hq & <-)%in_map_elem & Hid)%elem_of_copy_ids. by exists q. }
  unfold copy_ids, the_copies. cbn [map concat app mc_OldSegmentID mc_NewSegmentID].
  rewrite Forall_forall in Hr. apply NoDup_cons. split; [|apply NoDup_cons; split; [|by apply IH]].
  - intros [?|(q & Hq & [Hid|Hid])%Hin]%elem_of_cons; [lia| |pose proof (Hr q Hq); cbn in *; lia]. apply Ho1, in_map_elem. by exists q.
  - intros (q & Hq & [Hid|Hid])%Hin; [pose proof (Hr q Hq); cbn in *; lia|]. apply Hn1, in_map_elem. by exists q.
Qed.
Lemma the_listed : listed P h active next (the_copies plans).
Proof.
  split; [|apply ids_nodup| | |apply (nb_next _ _ _ _ _ _ _ Hnb)].
  - intros old new. rewrite the_copies_map. split.
    + intros (p & Hp & <- & <-). eexists. split; [apply in_map_elem; by exists p|done].
    + intros (c & (p & Hp & <-)%in_map_elem & <- & <-). by exists p.
  - intros old new (p & Hp & <- & <-)%the_copies_map. by apply plan_range.
  - intros old new (p & Hp & <- & <-)%the_copies_map. apply (pn_copied _ _ _ _ _ _ (nb_planned _ _ _ _ _ _ _ Hnb) p Hp).
Qed.

(** The two phases: first the deletions, then the copies. *)
Definition P_del : plan := {| pl_trim := trim_of s; pl_pooled := ce_pooled env; pl_deleted := dels; pl_copies := ∅ |}.
Definition P_copy : plan := {| pl_trim := trim_of s; pl_pooled := ce_pooled env; pl_deleted := []; pl_copies := pl_copies P |}.
Lemma moved_phases : moved P_copy (moved P_del h) = moved P h.
Proof.
  clear Hh Hnb. induction h as [|a l IH]; [done|]. rewrite (moved_cons P_del), (moved_cons P). destruct (decide (ap_seg a ∈ dels)) as [Hd|Hd].
  - assert (H1 : move P_del a = None ∧ move P a = None) by (unfold move; cbn; by rewrite !(decide_True _ _ Hd)). by destruct H1 as [-> ->].
  - assert (H1 : move P_del a = Some a ∧ move P_copy a = move P a).
    { unfold move. cbn. rewrite lookup_empty, !(decide_False _ _ Hd), decide_False by apply not_elem_of_nil. done. }
    destruct H1 as [-> H2]. by rewrite moved_cons, H2, IH.
Qed.
Lemma P_del_ok : plan_ok P_del h active.
Proof. pose proof the_plan_ok as [H1 H2 H3]. by split. Qed.
Lemma del_history : history_ok (moved P_del h) active.
Proof. pose proof (ho_active _ _ Hh). apply (history_moved P_del h active); [apply P_del_ok|done|lia|done]. Qed.
Lemma in_seg_del id : in_seg id (moved P_del h) = if decide (id ∈ dels) then [] else in_seg id h.
Proof.
  rewrite (in_seg_kept P_del h active id P_del_ok); [|eapply Forall_impl; [apply (ho_range _ _ Hh)|cbn; lia]|done].
  cbn [P_del pl_deleted pl_copies]. rewrite lookup_empty. do 2 case_decide; [done| |naive_solver|done].
  destruct H1 as [?|[? ?]]; done.
Qed.
Lemma P_copy_ok : plan_ok P_copy (moved P_del h) active.
Proof.
  pose proof the_plan_ok as [H1 H2 H3]. split; [intros id Hid; by apply elem_of_nil in Hid| |done].
  intros old new Hc. destruct (H2 old new Hc) as [? _]. split; [done|apply not_elem_of_nil].
Qed.
Lemma the_history : history_ok (moved P h) next.
Proof.
  pose proof (nb_next _ _ _ _ _ _ _ Hnb). apply (history_moved P h active); [apply the_plan_ok|done|lia|].
  intros old new (p & Hp & <- & <-)%the_copies_map. destruct (plan_range p Hp). lia.
Qed.

(** What is left of a plan's segment, with the index of its copy. *)
Definition copied_plan (p : segmentCopyPlan) : segmentCopyPlan :=
  with_new p (cp_newSegmentID p) (placed (copy_of P h (cp_oldSegmentID p) (cp_newSegmentID p))).
Lemma del_done : plans_done P_del h [].
Proof.
  split; [|constructor|intros p Hp; by apply elem_of_nil in Hp]. intros old new. cbn. rewrite lookup_empty. split; [done|].
  intros (p & Hp & _). by apply elem_of_nil in Hp.
Qed.
Lemma copy_done : plans_done P_copy (moved P_del h) (map copied_plan plans).
Proof.
  split.
  - intros old new. change (pl_copies P_copy !! old) with (pl_copies P !! old). rewrite the_copies_map. split.
    + intros (p & Hp & <- & <-). exists (copied_plan p). split; [apply in_map_elem; by exists p|done].
    + intros (q & (p & Hp & <-)%in_map_elem & <- & <-). by exists p.
  - rewrite map_map. apply (nb_news _ _ _ _ _ _ _ Hnb).
  - intros q (p & Hp & <-)%in_map_elem. cbn [copied_plan with_new cp_entries cp_oldSegmentID cp_newSegmentID]. f_equal. unfold copy_of.
    rewrite in_seg_del, decide_False; [done|]. by apply plan_range.
Qed.

Lemma copy_index p : p ∈ plans → ∃ b, writeSegmentIndex (cp_newSegmentID p) (placed (copy_of P h (cp_oldSegmentID p) (cp_newSegmentID p))) = Ok b.
Proof.
  intros Hp. destruct (plan_range p Hp) as (_ & _ & _ & Hc).
  rewrite <- (in_seg_copied P h active _ _ the_plan_ok); [|eapply Forall_impl; [apply (ho_range _ _ Hh)|cbn; lia]|done].
  eapply write_index_ok; [apply the_history|]. intros item Hin.
  assert (Hpl : placed (in_seg (cp_newSegmentID p) (moved P h)) = filter (λ i, ie_SegmentID (ri_entry i) = cp_newSegmentID p) (placed (moved P h))).
  { unfold placed at 2. by rewrite place_segment. }
  rewrite Hpl in Hin. apply list_elem_of_filter in Hin as [Hid Hin]. apply list_elem_of_lookup in Hin as [k Hk].
  destruct (Forall2_lookup_l _ _ _ _ _ (placed_stands _) Hk) as (a & _ & pre & post & Hsplit & ->). by exists pre, a, post.
Qed.
End Numbered.
End Plans.

(** ** The run *)

Section Run.
Context `{ChecksumLib, IndexJSON} (env : CEnv) (s : Store) (base : Disk) (h : list appended) (next : Z) (dels : list Z) (plans : list segmentCopyPlan).
Abbreviation active := (st_activeSegmentID s).
Abbreviation busy := (segmentReaderBusyLocked env).
Abbreviation P := (the_plan env s dels plans).
Abbreviation half := (halfway P h next (the_copies plans) base).
Abbreviation copy p := (copy_data P h (cp_oldSegmentID p) (cp_newSegmentID p)).
Hypothesis Hs : store_ok s base h.
Hypothesis Htmp : no_tmps base.
Hypothesis Hnb : numbered s busy h active next dels plans.
Abbreviation Hh := (so_history _ _ _ Hs).

Lemma run_plan_ok : plan_ok P h active.
Proof. by eapply the_plan_ok. Qed.
Lemma base_logs : logs_hold base h active no_tail.
Proof. apply (so_logs _ _ _ Hs). Qed.

(** How far the run got: the segments removed, and the copies made. *)
Record progress (removed : list Z) (made : list segmentCopyPlan) (d : Disk) : Prop := {
  pg_half : half d;
  pg_tmps : no_tmps d;
  pg_removed : ∀ id, id ∈ removed → dk_log d !! id = None ∧ dk_index d !! id = None;
  pg_made : ∀ p, p ∈ made → (∃ f, dk_log d !! cp_newSegmentID p = Some f ∧ complete (copy p) f) ∧ is_Some (dk_index d !! cp_newSegmentID p);
  pg_rest : ∀ id, id ∉ removed → id ∉ map cp_newSegmentID made → dk_log d !! id = dk_log base !! id
}.

Lemma progress_start m : cm_DeletedSegments m = dels → cm_CopiedSegments m = the_copies plans → progress [] [] (with_manifest base (Some m)).
Proof.
  intros Hd Hc. split; [|done|by intros id Hid%elem_of_nil|by intros id Hid%elem_of_nil|done].
  apply (half_start P h active next); [apply run_plan_ok|apply base_logs|apply Htmp|done|done].
Qed.

(** A segment that may be removed: a deleted one, or one that has been copied. *)
Definition removable (made : list segmentCopyPlan) (id : Z) : Prop := id ∈ dels ∨ ∃ p, p ∈ made ∧ cp_oldSegmentID p = id.
Section Remove.
Context (removed : list Z) (made : list segmentCopyPlan) (d : Disk) (id : Z).
Hypothesis Hmade : ∀ p, p ∈ made → p ∈ plans.
Hypothesis Hid : removable made id.
Hypothesis Hpg : progress removed made d.

Lemma removable_range : id < active.
Proof.
  destruct Hid as [Hd|(p & Hp & <-)]; [by apply (po_deleted _ _ _ run_plan_ok)|]. destruct (plan_range env s busy h active next dels plans Hnb p); [auto|lia].
Qed.
Lemma not_a_copy old : pl_copies P !! old ≠ Some id.
Proof. intros Hc. pose proof removable_range. destruct (po_copies _ _ _ run_plan_ok _ _ Hc). lia. Qed.
Lemma half_drop_index d' : half d' → half (remove_index_file d' id).
Proof. apply half_remove_index, not_a_copy. Qed.
Lemma half_drop_log d' : dk_log d' = dk_log d → (∀ x, x ≠ id → dk_index d' !! x = dk_index d !! x) → half d' → half (remove_log_file d' id).
Proof.
  intros El Ei Hhalf. destruct Hid as [Hd|(p & Hp & Hpid)]; [by apply (half_remove_deleted P h active); [apply run_plan_ok| |]|].
  destruct (plan_range env s busy h active next dels plans Hnb p (Hmade p Hp)) as (Hr & _ & _ & Hc). rewrite Hpid in Hc.
  destruct (pg_made _ _ _ Hpg p Hp) as [(f & Hf & _) Hi].
  apply (half_remove_old P h active next _ _ run_plan_ok _ id (cp_newSegmentID p)); [done|rewrite El, Hf; by eexists|rewrite Ei; [done|lia]|done].
Qed.
Lemma progress_remove : progress (removed ++ [id]) made (removeSegmentFilesOnDisk d id).
Proof.
  destruct Hpg as [H1 [H2 H2'] H3 H4 H5]. split.
  - change (removeSegmentFilesOnDisk d id) with (remove_log_file (remove_index_file d id) id).
    apply half_drop_log; [done|intros x Hx; cbn; by rewrite lookup_delete_ne|by apply half_drop_index].
  - by split.
  - intros x. cbn. destruct (decide (x = id)) as [->|Hx]; [by rewrite !lookup_delete_eq|]. rewrite !lookup_delete_ne by done.
    intros [?|Hy%list_elem_of_singleton]%elem_of_app; [by apply H3|done].
  - intros p Hp. cbn. pose proof removable_range. destruct (plan_range env s busy h active next dels plans Hnb p (Hmade p Hp)) as (Hr & _).
    rewrite !lookup_delete_ne by lia. by apply H4.
  - intros x Hx1 Hx2. cbn. rewrite not_elem_of_app, list_elem_of_singleton in Hx1. destruct Hx1 as [Hx1 Hne].
    rewrite lookup_delete_ne by congruence. by apply H5.
Qed.
Lemma t_drop s' : busy id = false →
  triple env (at_ s' d) (drop_segment id) (λ _ st, ∃ d', progress (removed ++ [id]) made d' ∧ at_ s' d' st) (on half).
Proof.
  intros Hb. eapply t_post; [apply (t_drop_segment env s' d id half); [done|apply (pg_half _ _ _ Hpg)|..]|].
  - apply half_drop_index, (pg_half _ _ _ Hpg).
  - apply half_drop_log; [done|done|apply (pg_half _ _ _ Hpg)].
  - intros [] st Hst. eexists. split; [apply progress_remove|exact Hst].
Qed.
End Remove.

Lemma t_drops removed made ids {A} (f : A → C unit) (key : A → Z) (l : list A) s' :
  (∀ a, f a = drop_segment (key a)) → map key l = ids → (∀ p, p ∈ made → p ∈ plans) →
  (∀ id, id ∈ ids → removable made id ∧ busy id = false) →
  triple env (λ st, ∃ d, progress removed made d ∧ at_ s' d st) (for_each f l) (λ _ st, ∃ d, progress (removed ++ ids) made d ∧ at_ s' d st) (on half).
Proof.
  intros Hf <- Hmade Hall.
  eapply t_pre; [apply (t_each env f (λ k st, ∃ d, progress (removed ++ map key k) made d ∧ at_ s' d st))|intros st; cbn [map]; by rewrite app_nil_r].
  intros k a l' Hl.
  apply t_exists. intros d. apply t_pure. intros Hpg. rewrite Hf, map_app, app_assoc.
  destruct (Hall (key a)) as [Hr Hb]; [apply in_map_elem; exists a; split; [|done]; rewrite Hl; apply elem_of_app; right; left|].
  by apply t_drop.
Qed.

(** *** The copies *)

Lemma progress_copy made d d' p : (∀ q, q ∈ made → q ∈ plans) → p ∈ plans → cp_newSegmentID p ∉ map cp_newSegmentID made →
  progress dels made d → copied d P h (cp_oldSegmentID p) (cp_newSegmentID p) d' → progress dels (made ++ [p]) d'.
Proof.
  intros Hmade Hp Hnew [H1 [H2 H2'] H3 H4 H5] [C1 (f & C2 & C2') C3 C4 C5].
  destruct (plan_range env s busy h active next dels plans Hnb p Hp) as (Hr & _ & Hnd & Hc).
  assert (Hdel : ∀ id, id ∈ dels → id ∉ [cp_newSegmentID p]).
  { intros id Hid Heq%list_elem_of_singleton. subst id. destruct (po_deleted _ _ _ run_plan_ok _ Hid). lia. }
  split.
  - eapply (half_copy P h active next _ _ run_plan_ok d d'); [exact Hc|done|rewrite H5|by intros g Hg; simplify_eq| |done].
    + apply (base_refl h active), base_logs.
    + done.
    + intros (q & Hq & Hqn)%in_map_elem. destruct (plan_range env s busy h active next dels plans Hnb q (Hmade q Hq)). lia.
    + rewrite C4, H2, lookup_empty. done.
  - split; congruence.
  - intros id Hid. rewrite (fr_log _ _ _ C1), (fr_index _ _ _ C1) by auto. by apply H3.
  - intros q [Hq|Hq%list_elem_of_singleton]%elem_of_app; [|subst q; by split; [exists f|]].
    assert (cp_newSegmentID q ∉ [cp_newSegmentID p]).
    { intros Heq%list_elem_of_singleton. apply Hnew, in_map_elem. by exists q. }
    rewrite (fr_log _ _ _ C1), (fr_index _ _ _ C1) by done. by apply H4.
  - intros id Hid. rewrite map_app, not_elem_of_app. intros [Hn1 Hn2]. rewrite (fr_log _ _ _ C1) by done. by apply H5.
Qed.

Lemma t_copies max s' :
  (∀ p, p ∈ plans → cp_entries p = live_items (trim_of s) h (cp_oldSegmentID p)) →
  triple env (λ st, ∃ d, progress dels [] d ∧ at_ s' d st) (map_each (λ plan, writeCompactedSegmentLocked plan max) plans)
    (λ bs st, bs = map (copied_plan env s h dels plans) plans ∧ ∃ d, progress dels plans d ∧ at_ s' d st) (on half).
Proof.
  intros Hentries. eapply t_pre; [apply (t_map env _ (λ k bs st, bs = map (copied_plan env s h dels plans) k ∧ ∃ d, progress dels k d ∧ at_ s' d st))|by intros st ?].
  intros k bs p l Hl. apply t_pure. intros ->. apply t_exists. intros d. apply t_pure. intros Hpg.
  assert (Hp : p ∈ plans) by (rewrite Hl; apply elem_of_app; right; left).
  assert (Hk : ∀ q, q ∈ k → q ∈ plans) by (intros q Hq; rewrite Hl; apply elem_of_app; by left).
  destruct (plan_range env s busy h active next dels plans Hnb p Hp) as (Hr & _ & Hnd & Hc).
  assert (Hnew : cp_newSegmentID p ∉ map cp_newSegmentID k).
  { pose proof (nb_news _ _ _ _ _ _ _ Hnb) as Hnn. rewrite Hl, map_app in Hnn. apply NoDup_app in Hnn as (_ & Hnn & _).
    intros Hin. apply (Hnn _ Hin). left. }
  assert (Hnewd : cp_newSegmentID p ∉ dels) by (intros Hin; destruct (po_deleted _ _ _ run_plan_ok _ Hin); lia).
  assert (Hold : cp_oldSegmentID p ∉ map cp_newSegmentID k).
  { intros (q & Hq & Hqn)%in_map_elem. destruct (plan_range env s busy h active next dels plans Hnb q (Hk q Hq)). lia. }
  destruct (pg_tmps _ _ _ Hpg) as [Ht1 Ht2].
  eapply t_conseq; [apply (t_writeCompactedSegment env s' d P h active (cp_oldSegmentID p) (cp_newSegmentID p) max Hh); try done| |..].
  - rewrite (pg_rest _ _ _ Hpg) by done. pose proof (base_logs (cp_oldSegmentID p)) as Hb.
    destruct (old_exists P h active next (the_copies plans) no_tail base (the_listed env s busy h active next dels plans Hnb) (store_on_disk _ _ _ Hs) _ _ Hc) as [f Hf].
    exists f. split; [done|]. rewrite Hf in Hb. destruct Hb as (_ & Hb & _). unfold no_tail in Hb. by rewrite app_nil_r in Hb.
  - rewrite (pg_rest _ _ _ Hpg) by done. apply (base_beyond h active); [apply base_logs|lia].
  - by rewrite Ht1, Ht2, !lookup_empty.
  - by apply (copy_index env s busy h active next dels plans Hnb Hh).
  - by apply Hentries.
  - done.
  - cbv beta. intros b st [-> (d' & Hat & Hcd)]. rewrite map_app. split; [done|]. exists d'. split; [|done]. by apply (progress_copy k d d').
  - intros st [Hf Hlog Htp]. unfold on. eapply (half_copy P h active next _ _ run_plan_ok d); [exact Hc|exact Hf| |exact Hlog|exact Htp|apply (pg_half _ _ _ Hpg)].
    rewrite (pg_rest _ _ _ Hpg) by done. apply (base_refl h active), base_logs.
Qed.

(** *** The index in between *)

Lemma in_range_h : Forall (λ a, ap_seg a <= active) h.
Proof. eapply Forall_impl; [apply (ho_range _ _ Hh)|]. cbn. lia. Qed.
Lemma base_file id : in_seg id h ≠ [] → ∃ f, dk_log base !! id = Some f ∧ f_data f = seg_bytes h id.
Proof.
  intros Hne. pose proof (base_logs id) as Hl. destruct (dk_log base !! id) as [f|]; [|by destruct Hl as [? _]].
  exists f. split; [done|]. destruct Hl as (_ & -> & _). apply app_nil_r.
Qed.
Lemma deleted_files d : progress dels [] d → files_hold d (moved (P_del env s dels) h).
Proof.
  intros Hpg id Hne. unfold seg_bytes in *. rewrite (in_seg_del env s busy h active next dels plans Hnb Hh) in *. case_decide as Hd; [done|].
  destruct (base_file id Hne) as (f & Hf & Hdata). exists f. split; [|done]. rewrite (pg_rest _ _ _ Hpg); [done|done|apply not_elem_of_nil].
Qed.
Lemma copied_files d : progress dels plans d → files_hold d (moved P h).
Proof.
  intros Hpg id Hne. unfold seg_bytes. destruct (copied_or_not P id) as [[old Hc]|Hno].
  - rewrite (in_seg_copied P h active old id run_plan_ok in_range_h Hc). apply (the_copies_map env s busy h active next dels plans Hnb) in Hc as (p & Hp & <- & <-).
    destruct (pg_made _ _ _ Hpg p Hp) as [(f & Hf & Hd & _) _]. by exists f.
  - rewrite (in_seg_kept P h active id run_plan_ok in_range_h Hno) in *. case_decide as Hx; [done|].
    destruct (base_file id Hne) as (f & Hf & Hd). exists f. split; [|done]. rewrite (pg_rest _ _ _ Hpg); [done|naive_solver|].
    intros (p & Hp & Hpn)%in_map_elem. apply (Hno (cp_oldSegmentID p)), (the_copies_map env s busy h active next dels plans Hnb). by exists p.
Qed.

(** *** The fresh active segment *)

(** The state after it, when there were copies and when there were none. *)
Record reopened (s2 : Store) (d : Disk) (s3 : Store) (d3 : Disk) : Prop := {
  ro_half : half d3;
  ro_tmps : no_tmps d3;
  ro_index : ∀ id, id < active ∨ active < id < next → dk_index d3 !! id = dk_index d !! id;
  ro_case : plans = [] ∧ s3 = s2 ∧ dk_log d3 = dk_log d ∨
    s3 = with_active s2 true next 0 ∧ ∃ f, dk_log d !! active = Some f ∧
      dk_log d3 = <[next := empty_file]> (<[active := {| f_data := f_data f; f_synced := length (f_data f) |}]> (dk_log d))
}.
Lemma not_removed id (removed : list Z) : (∀ x, x ∈ removed → removable plans x) → active <= id → id ∉ removed.
Proof. intros Hr Hle Hin. pose proof (removable_range plans id ltac:(done) (Hr id Hin)). lia. Qed.
Lemma not_made id : id <= active ∨ next <= id → id ∉ map cp_newSegmentID plans.
Proof. intros Hid (p & Hp & <-)%in_map_elem. destruct (nb_range _ _ _ _ _ _ _ Hnb p Hp). lia. Qed.

Lemma t_reopen removed bs s2 d : (∀ x, x ∈ removed → removable plans x) → progress removed plans d → bs = map (copied_plan env s h dels plans) plans →
  reindexed s s2 (moved P h) →
  triple env (at_ s2 d) (reopen_active bs next) (λ _ st, ∃ s3 d3, reopened s2 d s3 d3 ∧ at_ s3 d3 st) (on half).
Proof.
  intros Hrem Hpg Hbs Hri. pose proof (pg_half _ _ _ Hpg) as Hhalf. pose proof (nb_next _ _ _ _ _ _ _ Hnb) as Hnx. pose proof (ho_active _ _ Hh) as Ha.
  destruct bs as [|b0 bs]; cbn [reopen_active].
  { symmetry in Hbs. apply map_eq_nil in Hbs. eapply t_post; [apply t_ret|]. intros [] st [_ Hst]. exists s2, d. split; [|done]. split; [done|apply (pg_tmps _ _ _ Hpg)|done|by left]. }
  clear Hbs. destruct (active_log s base h Hs) as (f & Hf & Hfd & Hfs).
  assert (Hfa : dk_log d !! active = Some f) by (rewrite (pg_rest _ _ _ Hpg); [done|by apply not_removed|apply not_made; lia]).
  assert (Hnone : dk_log d !! next = None).
  { rewrite (pg_rest _ _ _ Hpg); [|apply not_removed; [done|lia]|apply not_made; lia]. apply (base_beyond h active); [apply base_logs|lia]. }
  destruct (write_index_ok (moved P h) next active (segmentIndexEntriesLocked s2 active)) as [b Hb].
  { apply (the_history env s busy h active next dels plans Hnb Hh). } { intros item. apply index_entries_items, (ri_streams _ _ _ Hri). }
  set (d1 := with_index d active b). set (d2 := with_log d1 active {| f_data := f_data f; f_synced := length (f_data f) |}).
  pose proof (ri_active _ _ _ Hri) as Hact. pose proof (ri_open _ _ _ Hri) as Hopen. rewrite (so_open _ _ _ Hs) in Hopen.
  assert (Hflush : flushActiveIndexLocked s2 d = (d1, None)).
  { unfold flushActiveIndexLocked. rewrite Hopen, Hact, Hb. by destruct (Z.eqb_spec active 0); [lia|]. }
  assert (Hsync : syncFilesLocked s2 d1 = d2).
  { unfold syncFilesLocked. rewrite Hopen, Hact. unfold log_file. cbn. by rewrite Hfa. }
  assert (H1 : half d1).
  { apply (half_index P h next _ base d); [|done]. intros old new Hc Hi. destruct (po_copies _ _ _ run_plan_ok _ _ Hc). rewrite lookup_insert_ne by lia. done. }
  assert (H2 : half d2) by (by apply (half_sync P h active next _ base run_plan_ok base_logs d1)).
  assert (H3 : half (with_log d2 next empty_file)).
  { apply (half_next P h active next _ base run_plan_ok); [lia| |cbn; by rewrite lookup_insert_ne by lia|done].
    intros old new (p & Hp & <- & <-)%(the_copies_map env s busy h active next dels plans Hnb). by destruct (nb_range _ _ _ _ _ _ _ Hnb p Hp). }
  eapply t_bind.
  { apply t_step; [unfold closeActiveFilesLocked; rewrite Hflush, Hsync; reflexivity|]. unfold close_active_partial. rewrite Hflush. cbn [fst]. rewrite Hsync.
    intros [|[|n]] st [_ Hst]; unfold on; rewrite Hst; done. }
  intros []. eapply t_bind; [apply t_store|]. intros s'. apply t_pure. intros ->. eapply t_bind; [apply t_put|]. intros [].
  eapply t_post; [apply t_step; [reflexivity|]|].
  - intros [|n] st [_ Hst]; unfold on; rewrite Hst; [done|]. cbn [with_active st_activeSegmentID snd]. unfold log_file. cbn.
    rewrite lookup_insert_ne, Hnone by lia. done.
  - intros [] st Hst. eexists _, _. split; [|exact Hst]. unfold openActiveFilesLocked, log_file. cbn. destruct (Z.eqb_spec next 0); [lia|].
    cbn. rewrite lookup_insert_ne, Hnone by lia. split.
    + apply (half_index P h next _ base (with_log d2 next empty_file)); [|done]. intros old new Hc Hi.
      apply (the_copies_map env s busy h active next dels plans Hnb) in Hc as (p & Hp & <- & <-). destruct (nb_range _ _ _ _ _ _ _ Hnb p Hp). by rewrite lookup_insert_ne by lia.
    + apply (pg_tmps _ _ _ Hpg).
    + intros id Hid. cbn. by rewrite !lookup_insert_ne by lia.
    + right. split; [done|]. by exists f.
Qed.

(** *** The end *)

(** What the store and the disk are in the end. *)
Record ends (s3 : Store) (d3 : Disk) : Prop := {
  en_half : half d3;
  en_tmps : no_tmps d3;
  en_index : ∃ s2, reindexed s s2 (moved P h) ∧ st_streams s3 = st_streams s2 ∧ st_idempotency s3 = st_idempotency s2 ∧ st_options s3 = st_options s2;
  en_open : st_open s3 = true;
  en_removed : ∀ id, id ∈ dels ++ map cp_oldSegmentID plans → dk_log d3 !! id = None ∧ dk_index d3 !! id = None;
  en_made : ∀ p, p ∈ plans → (∃ f, dk_log d3 !! cp_newSegmentID p = Some f ∧ complete (copy p) f) ∧ is_Some (dk_index d3 !! cp_newSegmentID p);
  en_active : ∃ f, dk_log d3 !! st_activeSegmentID s3 = Some f ∧ st_activeSegmentBytes s3 = Z.of_nat (length (f_data f));
  en_top : active <= st_activeSegmentID s3 ∧ ∀ id, is_Some (dk_log d3 !! id) → id <= st_activeSegmentID s3;
  en_fresh : active = st_activeSegmentID s3 ∨ (∃ f, dk_log d3 !! active = Some f ∧ f_synced f = length (f_data f)) ∧
    dk_log d3 !! st_activeSegmentID s3 = Some empty_file
}.

Lemma removed_olds x : x ∈ dels ++ map cp_oldSegmentID plans → removable plans x.
Proof. intros [?|(p & Hp & <-)%in_map_elem]%elem_of_app; [by left|]. right. by exists p. Qed.

Lemma reopened_ends s2 d s3 d3 : progress (dels ++ map cp_oldSegmentID plans) plans d → reindexed s s2 (moved P h) →
  reopened s2 d s3 d3 → ends s3 d3.
Proof.
  intros Hpg Hri [Hhalf Htm Hix Hcase]. pose proof (nb_next _ _ _ _ _ _ _ Hnb) as Hnx.
  destruct (active_log s base h Hs) as (g & Hg & Hgd & Hgs). pose proof (ri_active _ _ _ Hri) as Hact. pose proof (so_bytes _ _ _ Hs) as Hby.
  assert (Hrm : ∀ id, id ∈ dels ++ map cp_oldSegmentID plans → id < active).
  { intros id Hid. apply (removable_range plans id); [done|by apply removed_olds]. }
  assert (Hga : dk_log d !! active = Some g).
  { rewrite (pg_rest _ _ _ Hpg); [done|intros Hin%Hrm; lia|apply not_made; lia]. }
  assert (Hlog : ∀ id, id < active ∨ active < id < next → dk_log d3 !! id = dk_log d !! id).
  { intros id Hid. destruct Hcase as [(_ & _ & ->)|(_ & f & _ & ->)]; [done|]. by rewrite !lookup_insert_ne by lia. }
  assert (Htop : ∀ id, is_Some (dk_log d !! id) → id < next).
  { intros id Hid. destruct (decide (id ∈ map cp_newSegmentID plans)) as [(p & Hp & <-)%in_map_elem|Hn]; [by apply (nb_range _ _ _ _ _ _ _ Hnb)|].
    destruct (decide (id ∈ dels ++ map cp_oldSegmentID plans)) as [Hin%Hrm|Hn2]; [lia|]. rewrite (pg_rest _ _ _ Hpg id Hn2 Hn) in Hid.
    destruct (decide (active < id)); [|lia]. rewrite (base_beyond h active base base_logs id) in Hid by done. by destruct Hid. }
  split; [done|done| | | | | | |].
  - exists s2. destruct Hcase as [(_ & -> & _)|(-> & _)]; done.
  - destruct Hcase as [(_ & -> & _)|(-> & _)]; [|done]. rewrite (ri_open _ _ _ Hri). apply (so_open _ _ _ Hs).
  - intros id Hid. pose proof (Hrm id Hid). rewrite Hlog, Hix by lia. by apply (pg_removed _ _ _ Hpg).
  - intros p Hp. destruct (nb_range _ _ _ _ _ _ _ Hnb p Hp). rewrite Hlog, Hix by lia. by apply (pg_made _ _ _ Hpg).
  - destruct Hcase as [(_ & -> & ->)|(-> & f & _ & ->)]; cbn.
    + exists g. rewrite Hact, (ri_bytes _ _ _ Hri), Hby, Hgd. done.
    + exists empty_file. by rewrite lookup_insert_eq.
  - destruct Hcase as [(Hnil & -> & ->)|(-> & f & _ & ->)]; cbn.
    + rewrite Hact. split; [done|]. intros id Hid. destruct (decide (id ∈ dels ++ map cp_oldSegmentID plans)) as [Hin%Hrm|Hn2]; [lia|].
      rewrite (pg_rest _ _ _ Hpg id Hn2) in Hid by (rewrite Hnil; apply not_elem_of_nil).
      destruct (decide (active < id)); [|lia]. rewrite (base_beyond h active base base_logs id) in Hid by done. by destruct Hid.
    + split; [lia|]. intros id Hid. destruct (decide (id = next)) as [->|Hn]; [done|]. rewrite lookup_insert_ne in Hid by done.
      destruct (decide (id = active)) as [->|Hn']; [lia|]. rewrite lookup_insert_ne in Hid by done. apply Htop in Hid. lia.
  - destruct Hcase as [(_ & -> & ->)|(-> & f & _ & ->)]; [by left|right]. cbn. rewrite lookup_insert_eq, lookup_insert_ne, lookup_insert_eq by lia.
    split; [by eexists|done].
Qed.

Section Ends.
Context (s3 : Store) (d3 : Disk).
Hypothesis Hends : ends s3 d3.

Lemma ends_reconciled : reconciled P h (the_copies plans) base d3 d3.
Proof.
  split; [done| | |done|done|done].
  - intros id Hid. apply (en_removed _ _ Hends), elem_of_app. by left.
  - intros c (p & Hp & <-)%in_map_elem. left. cbn. destruct (en_made _ _ Hends p Hp) as [Hl Hi].
    destruct (en_removed _ _ Hends (cp_oldSegmentID p)) as [? ?]; [apply elem_of_app; right; apply in_map_elem; by exists p|]. by split_and!.
Qed.
Lemma ends_finished : finished_plan P d3 = P.
Proof.
  unfold finished_plan. rewrite map_filter_id; [by destruct P|]. intros old new (p & Hp & <- & <-)%(the_copies_map env s busy h active next dels plans Hnb).
  destruct (en_made _ _ Hends p Hp) as [(f & Hf & _) _]. by eexists.
Qed.
Lemma ends_on_disk : on_disk (moved P h) (st_activeSegmentID s3) no_tail d3 ∧ settled d3 (st_activeSegmentID s3).
Proof.
  destruct (en_top _ _ Hends) as [Hle Htop].
  destruct (reconciled_on_disk P h active next (the_copies plans) no_tail base d3 run_plan_ok (the_listed env s busy h active next dels plans Hnb)
    (store_on_disk _ _ _ Hs) ltac:(done) (en_half _ _ Hends) d3 ends_reconciled) as (a & Ha & Hex & Hmax & Hod).
  rewrite ends_finished in Hod. assert (a = st_activeSegmentID s3) as ->.
  { apply Htop in Hex. destruct (en_active _ _ Hends) as (f & Hf & _). specialize (Hmax (st_activeSegmentID s3) (mk_is_Some _ _ Hf)). lia. }
  split; [done|]. apply (reconciled_settled P h active next (the_copies plans) base d3 run_plan_ok (the_listed env s busy h active next dels plans Hnb)
    (en_half _ _ Hends) d3 _ ends_reconciled Hle Htop).
  intros c (p & Hp & <-)%in_map_elem. destruct (en_made _ _ Hends p Hp) as [(f & Hf & _) _]. by eexists.
Qed.
Lemma ends_store : store_ok s3 d3 (moved P h).
Proof.
  destruct ends_on_disk as [[Hm Hl _] Hset]. destruct (en_index _ _ Hends) as (s2 & Hri & E1 & E2 & _).
  split; [apply (en_open _ _ Hends)|done|done| | | | |by rewrite (hw_retention _ _ _ _ _ _ (en_half _ _ Hends)); apply (so_ret_ok _ _ _ Hs)|done].
  - destruct (en_active _ _ Hends) as (f & Hf & ->). specialize (Hl (st_activeSegmentID s3)). rewrite Hf in Hl. destruct Hl as (_ & -> & _).
    unfold no_tail. by rewrite app_nil_r.
  - rewrite E1. apply (ri_streams _ _ _ Hri).
  - rewrite E2. apply (ri_idem _ _ _ Hri).
  - intros id. rewrite (hw_retention _ _ _ _ _ _ (en_half _ _ Hends)), E1, (ri_trim _ _ _ Hri). apply (so_ret _ _ _ Hs).
Qed.

(** What was synced still is. *)
Lemma ends_file id f : dk_log d3 !! id = Some f → id < st_activeSegmentID s3 ∨ id = active → id ≠ active ∨ active = st_activeSegmentID s3 →
  f_synced f = length (f_data f) ∨ ∃ g, dk_log base !! id = Some g ∧ f_data f = f_data g ∧ (f_synced g ≤ f_synced f ≤ length (f_data f))%nat.
Proof.
  intros Hf Hid Hact. destruct (decide (id ∈ map cp_newSegmentID plans)) as [(p & Hp & <-)%in_map_elem|Hn].
  { left. destruct (en_made _ _ Hends p Hp) as [(g & Hg & Hd & Hsy) _]. congruence. }
  destruct (decide (id ∈ dels ++ map cp_oldSegmentID plans)) as [Hin|Hrm].
  { destruct (en_removed _ _ Hends id Hin). congruence. }
  rewrite not_elem_of_app in Hrm. destruct Hrm as [Hd Ho]. pose proof (the_copies_map env s busy h active next dels plans Hnb) as Hc.
  destruct (hw_other _ _ _ _ _ _ (en_half _ _ Hends) id Hd) as [Hsame|(-> & g & Hg & Hgd & Hgs)].
  - destruct (pl_copies P !! id) as [n|] eqn:Hcp; [|done]. apply Hc in Hcp as (p & Hp & <- & _). destruct Ho. apply in_map_elem. by exists p.
  - intros old (p & Hp & _ & <-)%Hc. destruct Hn. apply in_map_elem. by exists p.
  - right. rewrite Hf in Hsame. destruct (dk_log base !! id) as [g|]; [|done]. exists g. destruct Hsame. auto.
  - left. assert (g = f) as -> by congruence. by rewrite Hgd, Hgs.
Qed.
Lemma ends_synced : synced_before base active → synced_before d3 (st_activeSegmentID s3).
Proof.
  intros Hb id f Hf Hlt. destruct (decide (id = active)) as [->|Hne].
  { destruct (en_fresh _ _ Hends) as [?|[(g & Hg & Hsy) _]]; [lia|congruence]. }
  destruct (ends_file id f Hf) as [?|(g & Hg & Hd & Hle)]; [by left|by left|done|]. pose proof (base_logs id) as Hl. rewrite Hg in Hl.
  pose proof (Hb id g Hg ltac:(lia)) as Hsy. rewrite Hd in *. lia.
Qed.
Lemma ends_all_synced : all_synced base → all_synced d3.
Proof.
  intros Hb id f Hf. destruct (decide (id = st_activeSegmentID s3)) as [->|Hne].
  - destruct (en_fresh _ _ Hends) as [Ha|[_ Hnew]]; [|rewrite Hf in Hnew; by injection Hnew as ->]. rewrite <- Ha in Hf.
    destruct (ends_file active f Hf) as [?|(g & Hg & Hd & Hle)]; [by right|by right|done|]. pose proof (Hb active g Hg). rewrite Hd in *. lia.
  - apply (ends_synced ltac:(intros i g Hg _; by apply (Hb i)) id f Hf). destruct (en_top _ _ Hends) as [_ Htop].
    specialize (Htop id (mk_is_Some _ _ Hf)). lia.
Qed.
Lemma move_active a : ap_seg a = active → move P a = Some a.
Proof.
  intros Hx. unfold move. rewrite Hx, decide_False by (intros Hd; destruct (po_deleted _ _ _ run_plan_ok _ Hd); lia).
  destruct (pl_copies P !! active) eqn:Hc; [destruct (po_copies _ _ _ run_plan_ok _ _ Hc); lia|done].
Qed.
Lemma moved_active l : in_seg active (moved P l) = in_seg active l.
Proof.
  unfold moved. rewrite (in_seg_omap (move P) (λ a, if decide (ap_seg a = active) then Some a else None) active l).
  - rewrite omap_filter. apply list_fmap_id.
  - intros a _. destruct (decide (ap_seg a = active)) as [Hx|Hx].
    + rewrite (move_active a Hx). cbn. by rewrite decide_True.
    + unfold move. case_decide; [done|]. destruct (pl_copies P !! ap_seg a) as [n|] eqn:Hc; [|cbn; by rewrite decide_False].
      case_decide; [|done]. cbn. rewrite decide_False; [done|]. destruct (po_copies _ _ _ run_plan_ok _ _ Hc). lia.
Qed.
(** What was synced of the log stays so, but for its trimmed records. *)
Lemma ends_prefix hs : hs `prefix_of` h → synced_log base hs active → synced_log d3 (moved P hs) (st_activeSegmentID s3).
Proof.
  intros [ht Hsplit] Hsl f Hf. destruct (en_fresh _ _ Hends) as [Ha|[_ Hnew]].
  2: { assert (f = empty_file) as -> by congruence. destruct ends_on_disk as [[_ Hl _] _]. specialize (Hl (st_activeSegmentID s3)).
       rewrite Hnew in Hl. destruct Hl as (_ & Hd & _). unfold no_tail in Hd. rewrite app_nil_r, Hsplit in Hd. unfold moved in Hd.
       rewrite omap_app, seg_bytes_app in Hd. symmetry in Hd. apply app_eq_nil in Hd as [Hd _]. unfold moved. by rewrite Hd. }
  rewrite <- Ha in *. unfold seg_bytes. rewrite moved_active. destruct (active_log s base h Hs) as (g & Hg & Hgd & _).
  destruct (ends_file active f Hf) as [Hfull|(g' & Hg' & Hd & Hle)]; [by right|by right| |].
  - rewrite Hfull. destruct ends_on_disk as [[_ Hl _] _]. specialize (Hl active). rewrite Hf in Hl. destruct Hl as (_ & -> & _).
    unfold no_tail. rewrite app_nil_r. unfold seg_bytes. rewrite moved_active, Hsplit, in_seg_app, map_app, concat_app, length_app. lia.
  - specialize (Hsl g' Hg'). unfold seg_bytes in Hsl. lia.
Qed.
Lemma ends_durable : durable base h active → durable d3 (moved P h) (st_activeSegmentID s3).
Proof.
  intros (h1 & h2 & Hsplit & H2 & Hsl). assert (Hp : h1 `prefix_of` h) by (rewrite Hsplit; by apply prefix_app_r).
  destruct (en_fresh _ _ Hends) as [Ha|[_ Hnew]].
  - exists (moved P h1), (moved P h2). split_and!; [rewrite Hsplit; unfold moved; apply omap_app| |by apply ends_prefix].
    apply Forall_forall. intros b (a & Hin & Hm)%moved_from. rewrite Forall_forall in H2. specialize (H2 a Hin).
    rewrite (move_active a H2) in Hm. congruence.
  - exists (moved P h), []. split_and!; [by rewrite app_nil_r|done|]. intros f Hf. destruct ends_on_disk as [[_ Hl _] _].
    specialize (Hl (st_activeSegmentID s3)). rewrite Hnew in Hl. destruct Hl as (_ & Hd & _). unfold no_tail in Hd. rewrite app_nil_r in Hd. rewrite <- Hd. cbn. lia.
Qed.
End Ends.

(** ** The whole run *)

(** What a compaction keeps of the store's state besides the log. *)
Record same_streams (s3 : Store) (d3 : Disk) : Prop := {
  sm_trim : ∀ id, ss_trimBefore <$> st_streams s3 !! id = ss_trimBefore <$> st_streams s !! id;
  sm_next : ∀ id, ss_nextSeq <$> st_streams s3 !! id = ss_nextSeq <$> st_streams s !! id;
  sm_options : st_options s3 = st_options s;
  sm_retention : dk_retention d3 = dk_retention base
}.
Lemma ends_same s3 d3 : ends s3 d3 → same_streams s3 d3.
Proof.
  intros He. destruct (en_index _ _ He) as (s2 & Hri & E1 & _ & E2). split.
  - intros id. rewrite E1. apply (ri_trim _ _ _ Hri).
  - intros id. rewrite E1. apply (ri_next _ _ _ Hri).
  - rewrite E2. apply (ri_options _ _ _ Hri).
  - apply (hw_retention _ _ _ _ _ _ (en_half _ _ He)).
Qed.
Lemma ends_manifest s3 d3 m : cm_DeletedSegments m = dels → cm_CopiedSegments m = the_copies plans → ends s3 d3 → ends s3 (with_manifest d3 (Some m)).
Proof. intros Hd Hc []. split; try done. by apply half_finish. Qed.

Lemma t_run_plans opts cid safe started :
  triple env (at_ s base) (run_plans opts cid safe started dels plans next) (λ _ st, ∃ s3 d3, ends s3 d3 ∧ at_ s3 d3 st)
    (on (λ d, d = base ∨ half d)).
Proof.
  pose proof (nb_planned _ _ _ _ _ _ _ Hnb) as Hpl.
  assert (Hexit : ∀ st, on half st → on (λ d, d = base ∨ half d) st) by (intros st ?; by right).
  assert (Hbusy : ∀ id, removable plans id → busy id = false).
  { intros id [Hd|(p & Hp & <-)]; [by apply (pn_deleted _ _ _ _ _ _ Hpl)|by apply (pn_copied _ _ _ _ _ _ Hpl)]. }
  unfold run_plans. eapply t_bind; [apply t_manifest; by left|]. intros [].
  set (m := manifest_of cid dels plans safe started 0). eapply t_exit; [|exact Hexit].
  eapply t_bind.
  { eapply t_pre; [apply (t_drops [] [] dels drop_segment (λ id, id) dels s); [done|apply map_id|by intros p Hp%elem_of_nil|]|].
    - intros id Hid. split; [by left|apply Hbusy; by left].
    - intros st Hst. exists (with_manifest base (Some m)). split; [by apply progress_start|exact Hst]. }
  intros []. apply t_exists. intros d1. apply t_pure. cbn [app]. intros Hpg1.
  eapply t_bind.
  { apply (t_apply env (P_del env s dels) h active active s d1 []); [apply (P_del_ok env s busy h active next dels plans Hnb)|apply Hh|apply (del_history env s busy h active next dels plans Hnb Hh)|apply del_done|apply (so_streams _ _ _ Hs)|
      apply (so_idem _ _ _ Hs)|done|by apply deleted_files|apply (pg_half _ _ _ Hpg1)]. }
  intros []. apply t_exists. intros s1. apply t_pure. intros Hri1.
  eapply t_bind.
  { eapply t_pre; [apply t_copies|intros st Hst; by exists d1]. intros p Hp. by apply (pn_copied _ _ _ _ _ _ Hpl). }
  intros bs. apply t_pure. intros Hbs. apply t_exists. intros d2. apply t_pure. intros Hpg2.
  eapply t_bind.
  { apply (t_apply env (P_copy env s dels plans) (moved (P_del env s dels) h) active next s1 d2 bs); [apply (P_copy_ok env s busy h active next dels plans Hnb)|apply (del_history env s busy h active next dels plans Hnb Hh)|
      |rewrite Hbs; apply (copy_done env s busy h active next dels plans Hnb Hh)|apply (ri_streams _ _ _ Hri1)|apply (ri_idem _ _ _ Hri1)| | |apply (pg_half _ _ _ Hpg2)].
    - rewrite moved_phases. apply (the_history env s busy h active next dels plans Hnb Hh).
    - intros id. symmetry. apply trim_of_eq, (ri_trim _ _ _ Hri1).
    - rewrite moved_phases. by apply copied_files. }
  intros []. apply t_exists. intros s2. apply t_pure. rewrite moved_phases. intros Hri2.
  pose proof (reindexed_trans _ _ _ _ _ Hri1 Hri2) as Hri.
  eapply t_bind.
  { eapply t_pre; [apply (t_drops dels plans (map cp_oldSegmentID plans) _ cp_oldSegmentID bs s2); [done|by rewrite Hbs, map_map|done|]|intros st Hst; by exists d2].
    intros id (p & Hp & <-)%in_map_elem. assert (Hr : removable plans (cp_oldSegmentID p)) by (right; by exists p). auto. }
  intros []. apply t_exists. intros d3. apply t_pure. intros Hpg3.
  eapply t_bind; [by apply (t_reopen (dels ++ map cp_oldSegmentID plans)); [apply removed_olds|..]|].
  intros []. apply t_exists. intros s4. apply t_exists. intros d4. apply t_pure. intros Hro.
  pose proof (reopened_ends s2 d3 s4 d4 Hpg3 Hri Hro) as He.
  eapply t_bind; [apply t_now|]. intros nanos. eapply t_post; [apply t_manifest, (en_half _ _ He)|].
  intros [] st Hst. eexists _, _. split; [|exact Hst]. apply ends_manifest; [done| |done]. rewrite Hbs. unfold the_copies. cbn. by rewrite map_map.
Qed.
End Run.
Close Scope Z_scope.
