(* ===== verification/CompactionSpec.v ===== *)
(** The contract of [Compact].  Where nothing fails it returns, with a store that holds
    the log without some of its trimmed records; where an operation fails, the context is
    canceled or the machine crashes, what it leaves on the disk opens again as such a log, if the
    files that are never synced kept their contents. *)
From S2P Require Import Prelude Bytes Checksum LogRecord RecordCodec SegmentIndex LogStore LogSafety LogRead LogRecovery Compaction CompactionPlan CompactionDisk CompactionRun CompactionSafe.

Open Scope Z_scope.

Section Spec.
Context `{ChecksumLib, IndexJSON}.

(** ** Temporary files: appends, trims and recovery touch none *)

Definition temporaries (d : Disk) : gmap Z file * gmap Z bytes := (dk_logTmp d, dk_indexTmp d).
Lemma close_tmps s d s' d' e : closeActiveFilesLocked s d = (s', d', e) → temporaries d' = temporaries d.
Proof.
  unfold closeActiveFilesLocked, flushActiveIndexLocked, syncFilesLocked. repeat case_match; intros; by simplify_eq.
Qed.
Lemma reopen_tmps s d s' d' : openActiveFilesLocked s d = (s', d') → temporaries d' = temporaries d.
Proof. unfold openActiveFilesLocked. intros; by simplify_eq. Qed.
Lemma ensure_tmps s d n s' d' e : ensureWritableSegmentLocked s d n = (s', d', e) → temporaries d' = temporaries d.
Proof.
  unfold ensureWritableSegmentLocked, rollSegmentLocked. intros He.
  repeat case_match; simplify_eq; try done;
    repeat match goal with
    | Hc : closeActiveFilesLocked _ _ = _ |- _ => apply close_tmps in Hc
    | Ho : openActiveFilesLocked _ _ = _ |- _ => apply reopen_tmps in Ho
    end; congruence.
Qed.
Lemma append_tmps s d req io s' d' r : Append s d req io = (s', d', r) → temporaries d' = temporaries d.
Proof.
  unfold Append, syncForPolicyLocked. cbv zeta. intros Ha.
  repeat first [progress simplify_eq | match goal with
   | Hc : ensureWritableSegmentLocked _ _ _ = _ |- _ => apply ensure_tmps in Hc
   | Hc : (if ?b then _ else _) = _ |- _ => destruct b eqn:?
   | Hc : context [match ?x with _ => _ end] |- _ => destruct x eqn:? end]; try done.
  all: unfold syncFilesLocked, temporaries in *; repeat case_match; simplify_eq; cbn; congruence.
Qed.
Lemma trim_tmps s d id b s' d' r : Trim s d id b = (s', d', r) → temporaries d' = temporaries d.
Proof. unfold Trim. repeat case_match; intros; by simplify_eq. Qed.
Lemma open_tmps opts d0 d s' d' : reconcileCompactionManifestBeforeRecover d0 = Ok d → OpenWithOptions opts d0 = Ok (s', d') → temporaries d' = temporaries d.
Proof.
  intros Hr Ho. unfold OpenWithOptions in Ho. rewrite Hr, ok_bind in Ho. apply result_bind_ok in Ho as ([s1 d1] & Hrec & Ho).
  apply recover_untouched in Hrec as [= E1 E2 _ _]. apply result_bind_ok in Ho as (s2 & _ & Ho). unfold openActiveFilesLocked in Ho.
  simplify_eq. unfold temporaries. cbn. congruence.
Qed.
Lemma no_tmps_eq d d' : temporaries d' = temporaries d → no_tmps d → no_tmps d'.
Proof. intros [= E1 E2] [? ?]. split; congruence. Qed.
Lemma rename_no_tmps d id : no_tmps d → rename_log d id = d ∧ rename_index d id = d.
Proof. intros [E1 E2]. unfold rename_log, rename_index. by rewrite E1, E2, !lookup_empty. Qed.
Lemma reconcile_no_tmps d d' : no_tmps d → reconcileCompactionManifestBeforeRecover d = Ok d' → no_tmps d'.
Proof.
  intros Htmp Hr. unfold reconcileCompactionManifestBeforeRecover in Hr. apply result_bind_ok in Hr as (m & _ & Hr).
  destruct m as [m|]; [|by simplify_eq]. apply result_bind_ok in Hr as (d1 & Hc & [= <-]).
  assert (Hdel : ∀ (x : Disk) (l : list Z), no_tmps x → no_tmps (foldl removeSegmentFilesOnDisk x l)) by (intros x l; revert x; induction l as [|id l IH]; [done|]; intros x [? ?]; by apply IH).
  apply Hdel. clear Hdel. revert d Htmp Hc. induction (cm_CopiedSegments m) as [|c l IH]; intros d Htmp Hc; cbn [reconcile_copies] in Hc; [by simplify_eq|].
  apply result_bind_ok in Hc as (d2 & Hc & Hl). apply (IH d2); [|done]. unfold reconcileCopiedSegmentBeforeRecover in Hc. cbv zeta in Hc.
  destruct (rename_no_tmps d (mc_NewSegmentID c) Htmp) as [E1 E2].
  assert (Hif : ∀ (b : bool) (x : Disk), (if b then x else x) = x) by (by intros []). rewrite E1, Hif, E2, Hif in Hc. clear Hif.
  destruct Htmp as [T1 T2]. repeat case_match; simplify_eq; split; cbn; by rewrite ?T1, ?T2, ?delete_empty.
Qed.
Lemma open_no_tmps opts d0 s d : OpenWithOptions opts d0 = Ok (s, d) → no_tmps d0 → no_tmps d.
Proof.
  intros Ho Htmp. pose proof Ho as Ho'. unfold OpenWithOptions in Ho'. apply result_bind_ok in Ho' as (d1 & Hr & _).
  eapply no_tmps_eq; [by eapply open_tmps|by eapply reconcile_no_tmps].
Qed.
Lemma no_tmps_crashed d d' : crashed d d' → no_tmps d → no_tmps d'.
Proof.
  intros [_ _ _ Ht _ Hi] [E1 E2]. split.
  - apply map_empty. intros id. specialize (Ht id). rewrite E1, lookup_empty in Ht. by destruct (dk_logTmp d' !! id).
  - apply dom_empty_inv_L. by rewrite Hi, E2, dom_empty_L.
Qed.

(** A computation that leaves temporary files alone, however it ends. *)
Definition spares {A} (m : C A) : Prop := ∀ env st, temporaries (cs_disk (m env st).1) = temporaries (cs_disk st).
Lemma spares_bind {A B} (m : C A) (f : A → C B) : spares m → (∀ a, spares (f a)) → spares (m ≫= f).
Proof.
  intros Hm Hf env st. specialize (Hm env st). unfold mbind, C_bind. destruct (m env st) as [st1 [a|e|]]; cbn [fst] in *; [|done..].
  by rewrite (Hf a env st1).
Qed.
Lemma spares_pure {A} (m : C A) : (∀ env st, cs_disk (m env st).1 = cs_disk st) → spares m.
Proof. intros Hm env st. by rewrite Hm. Qed.
Lemma spares_ret {A} (a : A) : spares (mret a).
Proof. by apply spares_pure. Qed.
Lemma spares_fail {A} e : spares (@fail A e).
Proof. by apply spares_pure. Qed.
Lemma spares_lift {A} (r : result log_error A) : spares (lift r).
Proof. destruct r; [apply spares_ret|apply spares_fail]. Qed.
Lemma spares_atomic f : (∀ d, temporaries (f d) = temporaries d) → spares (atomic f).
Proof. intros Hf env st. unfold atomic, act, step. destruct (ce_fate _ _); cbn; by rewrite ?Hf. Qed.
Lemma spares_try m : spares m → spares (try m).
Proof. intros Hm env st. specialize (Hm env st). unfold try. by destruct (m env st) as [st1 [a|e|]]. Qed.
Lemma spares_on_failure {A} (m : C A) c : spares m → spares c → spares (on_failure m c).
Proof.
  intros Hm Hc env st. specialize (Hm env st). unfold on_failure. destruct (m env st) as [st1 [a|e|]]; cbn [fst] in *; [done| |done].
  specialize (Hc env st1). destruct (c env st1) as [st2 [b|e'|]]; cbn [fst] in *; congruence.
Qed.
Lemma spares_for_each {A} (f : A → C unit) l : (∀ a, spares (f a)) → spares (Compaction.for_each f l).
Proof. intros Hf. induction l as [|a l IH]; [by intros ? ?|]. cbn [Compaction.for_each]. by apply spares_bind. Qed.
Lemma spares_drop_segment id : spares (drop_segment id).
Proof.
  apply spares_bind; [|intros []; repeat (apply spares_bind; [by apply spares_try, spares_atomic|intros ?]);
    repeat case_match; first [apply spares_ret|apply spares_fail]].
  apply spares_bind; [by apply spares_pure|]. intros e. repeat case_match; first [apply spares_ret|apply spares_fail|by apply spares_atomic].
Qed.
Lemma spares_apply_changes dels plans : spares (apply_changes dels plans).
Proof.
  assert (Hm : spares (s ← get_store; _ ← put_store (applyCompactionIndexChangesLocked s dels plans); rebuildIdempotencyLocked)).
  { apply spares_bind; [by apply spares_pure|]. intros s. apply spares_bind; [by apply spares_pure|]. intros [].
    apply spares_bind; [by apply spares_pure|]. intros s1. apply spares_bind; [|intros m; by apply spares_pure].
    generalize (∅ : gmap string record). induction (entry_segments s1) as [|id ids IH]; intros idem; [apply spares_ret|]. cbn [rebuild_segments].
    apply spares_bind; [apply spares_bind; [by apply spares_atomic|intros []]; apply spares_bind; [by apply spares_pure|];
      intros d; case_match; [apply spares_ret|apply spares_fail]|]. intros data.
    apply spares_bind; [by apply spares_atomic|]. intros []. apply spares_bind; [apply spares_lift|]. intros idem'.
    apply spares_bind; [by apply spares_atomic|]. intros []. apply IH. }
  unfold apply_changes. destruct dels, plans; [apply spares_ret|exact Hm..].
Qed.
Lemma spares_manifest m : spares (writeCompactionManifestLocked m).
Proof.
  apply spares_bind; [by apply spares_atomic|]. intros []. apply spares_on_failure; by apply spares_atomic.
Qed.
Lemma spares_deletes opts id safe started dels next : spares (run_plans opts id safe started dels [] next).
Proof.
  unfold run_plans. apply spares_bind; [apply spares_manifest|]. intros []. apply spares_bind; [apply spares_for_each, spares_drop_segment|]. intros [].
  apply spares_bind; [apply spares_apply_changes|]. intros [].
  assert (Hk : ∀ k : list segmentCopyPlan → C unit, spares (k []) → spares (map_each (λ plan, writeCompactedSegmentLocked plan (co_MaxBytesPerSecond opts)) [] ≫= k)).
  { intros k Hk env st. apply Hk. }
  apply Hk. apply spares_bind; [apply spares_apply_changes|]. intros []. apply spares_bind; [apply spares_ret|]. intros [].
  apply spares_bind; [apply spares_ret|]. intros []. apply spares_bind; [by apply spares_pure|]. intros nanos. apply spares_manifest.
Qed.

(** ** The numbers of the new segments *)

Lemma top_segment s d h : store_ok s d h → maxSegmentIDOnDisk d = st_activeSegmentID s.
Proof.
  intros Hs. destruct (on_disk_ids _ _ _ _ (store_on_disk s d h Hs)) as (_ & _ & Hl & _). unfold maxSegmentIDOnDisk. by rewrite Hl.
Qed.
Lemma plans_count s busy h active dels plans : planned s busy h active dels plans → history_ok h active →
  Z.of_nat (length plans) <= active.
Proof.
  intros Hpl Hh. pose proof (ho_active _ _ Hh). assert (Hsub : map cp_oldSegmentID plans ⊆ seqZ 1 active).
  { intros id (p & Hp & <-)%in_map_elem. destruct (pn_copied _ _ _ _ _ _ Hpl p Hp) as (Hlt & Hne & _). apply elem_of_seqZ.
    destruct (in_seg (cp_oldSegmentID p) h) as [|a l] eqn:Hl; [done|]. assert (Ha : a ∈ in_seg (cp_oldSegmentID p) h) by (rewrite Hl; left).
    apply list_elem_of_filter in Ha as [<- Ha]. pose proof (proj1 (Forall_forall _ _) (ho_range _ _ Hh) a Ha). cbn in *. lia. }
  apply NoDup_submseteq in Hsub; [|apply (pn_olds _ _ _ _ _ _ Hpl)]. apply submseteq_length in Hsub.
  rewrite length_map, length_seqZ in Hsub. lia.
Qed.

(** The plans with the numbers they get. *)
Definition renumbered (next : Z) (plans : list segmentCopyPlan) : list segmentCopyPlan :=
  imap (λ i p, with_new p (next + Z.of_nat i) (cp_entries p)) plans.
Lemma elem_of_renumbered next plans q : q ∈ renumbered next plans →
  ∃ i p, plans !! i = Some p ∧ q = with_new p (next + Z.of_nat i) (cp_entries p).
Proof. intros (i & p & -> & Hp)%elem_of_lookup_imap. by exists i, p. Qed.

Lemma renumbered_ok s busy h active dels plans : planned s busy h active dels plans → history_ok h active → 2 * active + 1 < 2 ^ 64 →
  numbered s busy h active (active + 1 + Z.of_nat (length plans)) dels (renumbered (active + 1) plans).
Proof.
  intros Hpl Hh Hlt. pose proof (plans_count _ _ _ _ _ _ Hpl Hh). split.
  - split; [apply (pn_deleted _ _ _ _ _ _ Hpl)| |apply (pn_dels _ _ _ _ _ _ Hpl)|].
    + intros q (i & p & Hp & ->)%elem_of_renumbered. apply list_elem_of_lookup_2 in Hp. exact (pn_copied _ _ _ _ _ _ Hpl p Hp).
    + assert (Heq : map cp_oldSegmentID (renumbered (active + 1) plans) = map cp_oldSegmentID plans); [|rewrite Heq; apply (pn_olds _ _ _ _ _ _ Hpl)].
      change (map cp_oldSegmentID ?l) with (cp_oldSegmentID <$> l). unfold renumbered. rewrite fmap_imap.
      apply list_eq. intros i. rewrite list_lookup_imap, list_lookup_fmap. by destruct (plans !! i).
  - apply NoDup_alt. intros i j x. change (map cp_newSegmentID ?l) with (cp_newSegmentID <$> l). unfold renumbered. rewrite fmap_imap, !list_lookup_imap.
    destruct (plans !! i), (plans !! j); cbn; intros; simplify_eq. lia.
  - intros q (i & p & Hp & ->)%elem_of_renumbered. apply lookup_lt_Some in Hp. cbn. lia.
  - lia.
Qed.

(** ** What [Compact] does *)

Section Compact.
Context (env : CEnv) (s : Store) (d : Disk) (h : list appended) (opts opts' : CompactionOptions).
Hypothesis Hs : store_ok s d h.
Hypothesis Htmp : no_tmps d.
Hypothesis Hroom : 2 * st_activeSegmentID s + 1 < 2 ^ 64.
Hypothesis Hopts : normalize_compaction opts = Ok opts'.
Abbreviation active := (st_activeSegmentID s).

Definition planned_segments : list Z * list segmentCopyPlan :=
  compactionPlansLocked s (segmentReaderBusyLocked env) (compactabilityStatsLocked s) opts'.
Abbreviation dels := planned_segments.1.
Abbreviation plans := (renumbered (active + 1) planned_segments.2).
Abbreviation next := (active + 1 + Z.of_nat (length planned_segments.2)).
Abbreviation P := (the_plan env s dels plans).

Lemma compact_numbered : numbered s (segmentReaderBusyLocked env) h active next dels plans.
Proof.
  apply renumbered_ok; [|apply (so_history _ _ _ Hs)|done].
  pose proof (plans_ok s (segmentReaderBusyLocked env) opts' h (so_streams _ _ _ Hs) (so_history _ _ _ Hs)) as Hpl.
  unfold planned_segments. by destruct (compactionPlansLocked _ _ _ _).
Qed.

(** It is done: nothing to do, or the run has ended. *)
Definition compact_done (s3 : Store) (d3 : Disk) : Prop :=
  s3 = s ∧ d3 = d ∧ moved P h = h ∨ ends env s d h next dels plans s3 d3.
Lemma t_Compact : triple env (at_ s d) (Compact opts) (λ _ st, ∃ s3 d3, compact_done s3 d3 ∧ at_ s3 d3 st)
  (on (λ d', d' = d ∨ halfway P h next (the_copies plans) d d')).
Proof.
  unfold Compact. eapply t_bind; [by apply t_lift|]. intros o. apply t_pure. intros ->.
  eapply t_bind; [apply t_canceled; by left|]. intros []. eapply t_bind; [apply t_store|]. intros s0. apply t_pure. intros ->.
  eapply t_bind; [apply t_env|]. intros e. apply t_pure. intros ->. cbv zeta. fold planned_segments.
  pose proof compact_numbered as Hnb. destruct planned_segments as [dels0 plans0] eqn:Hpl. cbn [fst snd] in *.
  destruct (_ && _) eqn:Hnone.
  { apply andb_true_iff in Hnone as [Hd%bool_decide_eq_true Hp%bool_decide_eq_true]. eapply t_post; [apply t_ret|]. intros r st [_ Hst].
    exists s, d. split; [|done]. left. split_and!; [done|done|]. rewrite Hpl. apply moved_nothing; cbn; by rewrite ?Hd, ?Hp. }
  eapply t_bind; [apply t_access; by left|]. intros []. eapply t_bind; [apply t_disk|]. intros d0. apply t_pure. intros ->.
  pose proof (nb_next _ _ _ _ _ _ _ Hnb) as Hnx. pose proof (ho_active _ _ (so_history _ _ _ Hs)) as Ha.
  rewrite (top_segment s d h Hs), u64_id by (unfold in_u64; lia). rewrite number_plans_spec by lia.
  change (imap _ plans0) with (renumbered (active + 1) plans0).
  eapply t_bind; [apply t_now|]. intros n1. eapply t_bind; [apply t_now|]. intros n2. cbv zeta.
  eapply t_bind; [by apply (t_run_plans env s d h)|]. intros [].
  apply t_exists. intros s3. apply t_exists. intros d3. apply t_pure. intros He. eapply t_post; [apply t_ret|]. intros r st [_ Hst].
  exists s3, d3. split; [|done]. right. by rewrite Hpl.
Qed.

(** Every way it can end. *)
Definition compaction : CState * outcome CompactionResult := Compact opts env {| cs_store := s; cs_disk := d; cs_ops := 0 |}.
Definition interrupted (d' : Disk) : Prop :=
  d' = d ∨ ∃ P next copies, plan_ok P h active ∧ pl_trim P = trim_of s ∧ listed P h active next copies ∧ halfway P h next copies d d' ∧
    (co_CopyPartialSegments opts' = false → copies = []).
Record compacts (s3 : Store) (d3 : Disk) (h3 : list appended) : Prop := {
  cp_log : compacted (trim_of s) h h3;
  cp_store : store_ok s3 d3 h3;
  cp_tmps : no_tmps d3;
  cp_same : same_streams s d s3 d3;
  cp_sealed : synced_before d active → synced_before d3 (st_activeSegmentID s3);
  cp_durable : durable d h active → durable d3 h3 (st_activeSegmentID s3);
  cp_synced : all_synced d → all_synced d3;
  cp_prefix : ∀ hs, hs `prefix_of` h → synced_log d hs active →
    ∃ hs3, hs3 `prefix_of` h3 ∧ compacted (trim_of s) hs hs3 ∧ synced_log d3 hs3 (st_activeSegmentID s3)
}.
Lemma plan_prefix P hs : plan_ok P h active → hs `prefix_of` h → plan_ok P hs active.
Proof.
  intros [H1 H2 H3] [k Hk]. split; [|done..]. intros id Hid. destruct (H1 id Hid) as [? Hf]. split; [done|].
  rewrite Hk, in_seg_app in Hf. by apply Forall_app in Hf as [? _].
Qed.
Lemma no_copies : co_CopyPartialSegments opts' = false → planned_segments.2 = [].
Proof.
  intros Hc. unfold planned_segments, compactionPlansLocked. cbn [snd]. apply elem_of_nil_inv.
  intros p ([id|q] & (stat & _ & Hq)%list_elem_of_omap & [= ->])%list_elem_of_omap. unfold plan_one in Hq. cbv zeta in Hq. rewrite Hc in Hq. cbn [negb orb] in Hq.
  by repeat (case_match; try done).
Qed.
Lemma done_compacts s3 d3 : compact_done s3 d3 → compacts s3 d3 (moved P h).
Proof.
  pose proof compact_numbered as Hnb.
  assert (Hc : compacted (trim_of s) h (moved P h)) by (by eapply (moved_compacted P), the_plan_ok).
  intros [(-> & -> & Hm)|He].
  - rewrite Hm in *. split; try done. intros hs Hhs Hsl. exists hs. split_and!; [done|apply compacted_refl|done].
  - split; [done|by eapply ends_store|by destruct He|by eapply ends_same|by eapply ends_synced|by eapply ends_durable|by eapply ends_all_synced|].
    intros hs Hhs Hsl. exists (moved P hs). split_and!; [|eapply (moved_compacted P), plan_prefix; [by eapply the_plan_ok|done]|by eapply ends_prefix].
    destruct Hhs as [k ->]. unfold moved. rewrite omap_app. by apply prefix_app_r.
Qed.
Lemma compact_cases : let (st, o) := compaction in
  match o with
  | Done _ => ∃ h3, compacts (cs_store st) (cs_disk st) h3
  | Failed _ | Crashed => interrupted (cs_disk st) ∧ faulty env
  end.
Proof.
  pose proof (t_Compact {| cs_store := s; cs_disk := d; cs_ops := 0 |}) as Hc. unfold compaction.
  assert (Hint : ∀ d', d' = d ∨ halfway P h next (the_copies plans) d d' → interrupted d').
  { pose proof compact_numbered as Hnb. intros d' [->|Hh]; [by left|right]. exists P, next, (the_copies plans).
    split_and!; [by eapply the_plan_ok|done|by eapply the_listed|done|]. intros Hno%no_copies. by rewrite Hno. }
  destruct (Compact opts env _) as [st [r|e|]]; specialize (Hc ltac:(done)); cbn beta iota in Hc.
  - destruct Hc as (s3 & d3 & Hdone & <- & <-). eexists. by apply done_compacts.
  - destruct Hc as [Hst Hf]. auto.
  - destruct Hc as [Hst Hf]. auto.
Qed.
(** A compaction that only deletes segments has no temporary files. *)
Lemma deletes_spare : co_CopyPartialSegments opts' = false → no_tmps (cs_disk compaction.1).
Proof.
  intros Hc%no_copies. apply (no_tmps_eq d); [|done]. unfold compaction, Compact. rewrite Hopts. cbn [lift].
  assert (Hcan : spares check_canceled) by by apply spares_pure. specialize (Hcan env {| cs_store := s; cs_disk := d; cs_ops := 0 |}).
  unfold mbind at 1, C_bind at 1. cbn beta iota delta [mret C_ret]. unfold mbind at 1, C_bind at 1.
  unfold check_canceled in *. cbn [fst snd cs_store cs_disk cs_ops tick] in *. destruct (ce_canceled env 0); [done|].
  unfold mbind at 1, C_bind at 1. cbn [get_store]. unfold mbind at 1, C_bind at 1. cbn [get_env cs_store tick]. fold planned_segments.
  destruct planned_segments as [dels0 plans0]. cbn [snd] in Hc. subst plans0. cbn [number_plans].
  match goal with |- temporaries (cs_disk (?m env ?st).1) = _ => assert (Hm : spares m); [|exact (Hm env st)] end.
  destruct (_ && _); [apply spares_ret|]. apply spares_bind; [by apply spares_atomic|]. intros []. apply spares_bind; [by apply spares_pure|]. intros d0.
  apply spares_bind; [by apply spares_pure|]. intros n1. apply spares_bind; [by apply spares_pure|]. intros n2.
  apply spares_bind; [apply spares_deletes|]. intros []. apply spares_ret.
Qed.
End Compact.

(** ** The next open *)

Lemma interrupted_opens s d h d' d1 opts opts' : store_ok s d h → no_tmps d → synced_before d (st_activeSegmentID s) → durable d h (st_activeSegmentID s) →
  interrupted s d h opts' d' → crashed d' d1 → readable d1 = true →
  ∃ h1 h2 s2 d2, h1 `prefix_of` h ∧ (∀ hs, hs `prefix_of` h → synced_log d hs (st_activeSegmentID s) → hs `prefix_of` h1) ∧
    compacted (trim_of s) h1 h2 ∧ OpenWithOptions opts d1 = Ok (s2, d2) ∧ store_ok s2 (forget d2) h2 ∧ st_options s2 = opts ∧
    dk_retention d2 = dk_retention d ∧ (co_CopyPartialSegments opts' = false → store_ok s2 d2 h2) ∧
    (all_synced d → synced_before d2 (st_activeSegmentID s2) ∧ synced_log d2 h2 (st_activeSegmentID s2)).
Proof.
  intros Hs [Ht1 Ht2] Hsy Hdu [->|(P & next & copies & Hp & Htr & Hli & Hhw & Hno)] Hcr Hread.
  - destruct (crash_prefix h _ no_tail d d1 (store_on_disk _ _ _ Hs) ltac:(done) Hsy Hdu Hcr) as (h1 & tail & Hpre & Hod & Hsy1 & Hdu1 & Hall & _).
    assert (Hret : dk_retention d1 = dk_retention d) by (by destruct Hcr).
    destruct (open_ok opts h1 _ tail d1 Hod) as (s2 & d2 & Ho & Hs2 & Hopt & Hact & Hsb & Hks & Hr).
    { rewrite Hret. apply (so_ret_ok _ _ _ Hs). } { eapply settled_crashed; [done|apply (so_settled _ _ _ Hs)]. } { done. }
    exists h1, h1, s2, d2. split_and!; try done; [intros hs Hhs Hsl; by apply (Hall hs Hhs Hsl)|apply compacted_refl|by apply store_forget|congruence|].
    intros Hsn. rewrite Hact. split; [by apply Hsb|]. apply Hks; [done|].
    assert (Hsl : synced_log d h (st_activeSegmentID s)) by (eapply all_synced_log; [done|apply (so_logs _ _ _ Hs)]).
    destruct (Hall h ltac:(done) Hsl) as [Hp Hsl1]. by rewrite (anti_symm prefix h1 h Hpre Hp).
  - destruct (restart_halfway opts P h _ next copies d d' d1 Hp Hli (store_on_disk _ _ _ Hs) Hsy Hdu Ht1 (so_ret_ok _ _ _ Hs) Hhw Hcr Hread)
      as (h1 & h2 & s2 & d2 & Hpre & Hall & Hc & Ho & Hs2 & Hopt & Hr & Hset & Hsy2).
    exists h1, h2, s2, d2. rewrite Htr in Hc. split_and!; try done; [|auto]. intros ->%Hno. apply store_unforget; auto.
Qed.
End Spec.
Close Scope Z_scope.
