(* ===== verification/LogSpec.v ===== *)
(** The abstract log: what the log store promises, with no files, segments or indexes.
    Each operation, with the answer it gives, is a step; [LogTheorems] shows that the store
    makes these steps and no others. *)
From S2P Require Import Prelude Bytes Checksum LogRecord RecordCodec SegmentIndex LogStore LogSafety CompactionPlan.

Open Scope Z_scope.

(** The records in the order of their appends, those at the front that no crash can take
    back, and each stream's trim mark. *)
Record abs_log := { al_records : list record; al_synced : list record; al_trim : string → Z }.

(** A record that is not below its mark. *)
Definition kept (t : string → Z) (r : record) : Prop := t (StreamID r) <= Seq r.
#[export] Instance kept_dec t r : Decision (kept t r).
Proof. unfold kept. apply _. Defined.

(** The next sequence number of a stream; zero: the stream does not exist. *)
Definition next_of (L : abs_log) (id : string) : Z :=
  Z.max (al_trim L id) (seq_next (Seq <$> filter (λ r, StreamID r = id) (al_records L))).
(** A trim moves the mark up, and not past the next sequence number. *)
Definition new_mark (L : abs_log) (id : string) (before : Z) : Z :=
  if str_empty id || (before =? 0) || (next_of L id =? 0) then al_trim L id
  else Z.max (al_trim L id) (Z.max 1 (Z.min before (next_of L id))).
(** What a read selects. *)
Definition selected (L : abs_log) (id : string) (from limit : Z) : list record :=
  take (Z.to_nat (if limit <=? 0 then 100 else limit))
    (filter (λ r, StreamID r = id ∧ Z.max (if from =? 0 then 1 else from) (al_trim L id) <= Seq r) (al_records L)).

(** The record that a request's idempotency key stands for. *)
Definition answers (L : abs_log) (req : AppendRequest) (r : record) : Prop :=
  r ∈ al_records L ∧ ar_IdempotencyKey req ≠ EmptyString ∧ IdempotencyKey r ≠ EmptyString ∧
  rec_key r = idempotencyKey (ar_StreamID req) (ar_IdempotencyKey req).
(** The record that a fresh request adds. *)
Definition carries (req : AppendRequest) (r : record) : Prop :=
  StreamID r = ar_StreamID req ∧ EventType r = ar_EventType req ∧ IdempotencyKey r = ar_IdempotencyKey req ∧
  Payload r = ar_Payload req.
Definition adds (L : abs_log) (req : AppendRequest) (r : record) : Prop :=
  (∀ r0, ¬ answers L req r0) ∧ carries req r ∧ Seq r = Z.max 1 (next_of L (ar_StreamID req)).
(** Why a request is refused. *)
Definition unwritable `{ChecksumLib} (req : AppendRequest) (e : log_error) : Prop :=
  (e = ErrStreamIDRequired ∧ ar_StreamID req = EmptyString) ∨
  (e = ErrEventTypeRequired ∧ ar_EventType req = EmptyString) ∨
  ∃ pooled r typ, carries req r ∧
    (encodeRecordPooled pooled r typ = Err e ∨
     ∃ b crc, encodeRecordPooled pooled r typ = Ok (b, crc) ∧ 2 ^ 32 - 1 < Z.of_nat (length b) ∧ e = ErrRecordTooLarge).

(** What a compaction does to a list of records: it drops some that are below their marks. *)
Definition drops_trimmed (t : string → Z) (rs rs' : list record) : Prop :=
  rs' `sublist_of` rs ∧ filter (kept t) rs' = filter (kept t) rs.

(** What is seen of a step.  [Appended synced]: under the policy that syncs every append
    or under another; [Restarted req]: the process or the machine stopped, while [req] was
    being appended or between operations, and the store was opened again; [Interrupted]:
    it stopped in a compaction. *)
Inductive log_event :=
| Appended (synced : bool) (req : AppendRequest) (res : result log_error (record * bool))
| Trimmed (id : string) (before : Z)
| ReadOut (id : string) (from limit : Z) (res : result log_error (list record))
| Compacted
| Interrupted
| Restarted (req : option AppendRequest).

Inductive abs_step `{ChecksumLib} : log_event → abs_log → abs_log → Prop :=
| abs_append synced req r L L' :
    adds L req r → al_records L' = al_records L ++ [r] → al_trim L' = al_trim L →
    al_synced L `prefix_of` al_synced L' → (synced = true → al_synced L' = al_records L') →
    abs_step (Appended synced req (Ok (r, false))) L L'
| abs_duplicate synced req r L :
    answers L req r → abs_step (Appended synced req (Ok (idempotencyRecord r, true))) L L
| abs_refused synced req e L :
    unwritable req e → abs_step (Appended synced req (Err e)) L L
| abs_trim id before L L' :
    al_records L' = al_records L → al_synced L' = al_synced L →
    (∀ x, al_trim L' x = if decide (x = id) then new_mark L id before else al_trim L x) →
    abs_step (Trimmed id before) L L'
| abs_read id from limit L :
    abs_step (ReadOut id from limit (Ok (selected L id from limit))) L L
| abs_compact ev rs L L' :
    ev = Compacted ∨ ev = Interrupted →
    drops_trimmed (al_trim L) (al_records L) (al_records L') → al_trim L' = al_trim L →
    al_synced L `prefix_of` rs → rs `prefix_of` al_records L → drops_trimmed (al_trim L) rs (al_synced L') →
    abs_step ev L L'
| abs_restart req L L' :
    al_synced L `prefix_of` al_records L' → al_records L' `prefix_of` al_records L →
    al_synced L' = al_synced L → al_trim L' = al_trim L →
    abs_step (Restarted req) L L'
| abs_restart_append req r L L' :
    adds L req r → al_synced L `prefix_of` al_records L' → al_records L' `prefix_of` al_records L ++ [r] →
    al_synced L' = al_synced L → al_trim L' = al_trim L →
    abs_step (Restarted (Some req)) L L'.

Close Scope Z_scope.
