(* ===== verification/LogTheorems.v ===== *)
(** The log store's contract, proved from [LogSafety], [LogRead], [LogRecovery] and
    [CompactionSpec]: every execution of the operations and of the stops listed in
    [store_step] gives the answers of an abstract log ([LogSpec]) and keeps its records and
    marks; what each operation does; what a crash leaves; and what happens when a sync
    fails.  The last section holds runs in which a disk operation fails, or a stream name
    holds a NUL, and the contract breaks; those of an interrupted compaction are in
    [CompactionTheorems]. *)
From S2P Require Import Prelude Bytes Checksum LogRecord RecordCodec SegmentIndex LogStore LogSafety LogRead LogRecovery Compaction CompactionPlan CompactionSafe CompactionSpec LogSpec.

Open Scope Z_scope.

Section Theorems.
Context `{ChecksumLib, IndexJSON}.

(** The executions: appends that meet no disk error, trims, reads, compactions that return, and
    stops of the process or the machine, be it between operations, in the middle of an append
    that any disk error may have hit, or in the middle of a compaction that only deletes
    segments, on a disk that is synced; each stop is followed by an open that succeeds. *)
Definition syncs (s : Store) : bool := bool_decide (op_FsyncPolicy (st_options s) = FsyncAlways).
Inductive store_step : log_event → Store * Disk → Store * Disk → Prop :=
| step_append s d req io s' d' res :
    room s req io → io_write io = None → sync_ok (st_options s) io →
    Append s d req io = (s', d', res) → store_step (Appended (syncs s) req res) (s, d) (s', d')
| step_trim s d id before s' d' res :
    0 <= before → Trim s d id before = (s', d', res) → store_step (Trimmed id before) (s, d) (s', d')
| step_read s d mmapOk id from limit :
    id ≠ EmptyString → store_step (ReadOut id from limit (Read s d mmapOk id from limit)) (s, d) (s, d)
| step_compact s d env opts opts' st r :
    normalize_compaction opts = Ok opts' → 2 * st_activeSegmentID s + 1 < 2 ^ 64 →
    compaction env s d opts = (st, Done r) → store_step Compacted (s, d) (cs_store st, cs_disk st)
| step_crash s d d1 s' d' :
    crashed d d1 → OpenWithOptions (st_options s) d1 = Ok (s', d') → store_step (Restarted None) (s, d) (s', d')
| step_crash_append s d req io s1 d1 res d2 s' d' :
    room s req io → Append s d req io = (s1, d1, res) → crashed d1 d2 →
    OpenWithOptions (st_options s) d2 = Ok (s', d') → store_step (Restarted (Some req)) (s, d) (s', d')
| step_crash_compact s d env opts opts' st o d1 s' d' :
    normalize_compaction opts = Ok opts' → 2 * st_activeSegmentID s + 1 < 2 ^ 64 → co_CopyPartialSegments opts' = false →
    all_synced d → compaction env s d opts = (st, o) → crashed (cs_disk st) d1 →
    OpenWithOptions (st_options s) d1 = Ok (s', d') → store_step Interrupted (s, d) (s', d').

(** What every reachable store satisfies. *)
Definition sound (p : Store * Disk) (h : list appended) : Prop :=
  store_ok p.1 p.2 h ∧ synced_before p.2 (st_activeSegmentID p.1) ∧ durable p.2 h (st_activeSegmentID p.1).
Definition refines (p : Store * Disk) (h : list appended) : Prop := sound p h ∧ no_tmps p.2.
(** The trim marks on disk; the abstract log of a disk that holds [h], of which [hs] is
    synced; and the abstract logs of a store. *)
Definition marks (d : Disk) (id : string) : Z := default 0 (dk_retention d ≫= λ m, m !! id).
Definition abs_of (d : Disk) (hs h : list appended) : abs_log :=
  {| al_records := ap_rec <$> h; al_synced := ap_rec <$> hs; al_trim := marks d |}.
Definition holds (p : Store * Disk) (L : abs_log) : Prop :=
  ∃ hs h, refines p h ∧ hs `prefix_of` h ∧ synced_log p.2 hs (st_activeSegmentID p.1) ∧ L = abs_of p.2 hs h.

Lemma trim_marks s d h id : store_ok s d h → trim_of s id = marks d id.
Proof.
  intros Hs. unfold marks. rewrite (so_ret _ _ _ Hs). unfold trim_of, stream_of. by destruct (st_streams s !! id).
Qed.
Lemma marks_eq d d' : dk_retention d' = dk_retention d → marks d' = marks d.
Proof. unfold marks. by intros ->. Qed.
Lemma active_exists s d h : store_ok s d h → is_Some (dk_log d !! st_activeSegmentID s).
Proof. intros Hs. destruct (active_log s d h Hs) as (f & Hf & _). by exists f. Qed.
Lemma fresh_segment h active id : history_ok h active → active < id → in_seg id h = [].
Proof.
  intros Hh Hlt. apply in_seg_none. eapply Forall_impl; [apply (ho_range _ _ Hh)|]. simpl. lia.
Qed.
Lemma fresh_prefix h hs active id : history_ok h active → hs `prefix_of` h → active < id → in_seg id hs = [].
Proof. intros Hh [k ->] Hlt. pose proof (fresh_segment _ _ _ Hh Hlt) as Hn. rewrite in_seg_app in Hn. by apply app_eq_nil in Hn as [? _]. Qed.
Lemma durable_nil d h active : synced_log d h active → durable d h active.
Proof. intros Hs. exists h, []. split_and!; [by rewrite app_nil_r|constructor|done]. Qed.
Lemma sound_seals s d h s' d' more :
  sound (s, d) h → seals d (st_activeSegmentID s) d' (st_activeSegmentID s') → store_ok s' d' (h ++ more) →
  Forall (λ a, ap_seg a = st_activeSegmentID s') more → sound (s', d') (h ++ more).
Proof.
  intros (Hs & Hsy & Hd) Hse Hs' Hmore. split_and!; [done|by eapply seals_synced|]. eapply durable_seals; [done|by eapply active_exists| |done|done].
  intros Hlt. eapply fresh_segment; [apply (so_history _ _ _ Hs)|done].
Qed.
Lemma synced_seals s d h s' d' hs :
  store_ok s d h → seals d (st_activeSegmentID s) d' (st_activeSegmentID s') → hs `prefix_of` h →
  synced_log d hs (st_activeSegmentID s) → synced_log d' hs (st_activeSegmentID s').
Proof.
  intros Hs Hse Hp. eapply synced_log_seals; [done|by eapply active_exists|]. intros Hlt. eapply fresh_prefix; [apply (so_history _ _ _ Hs)|done..].
Qed.

Lemma prefix_records (h1 h : list appended) : h1 `prefix_of` h → (ap_rec <$> h1) `prefix_of` (ap_rec <$> h).
Proof. intros [k ->]. rewrite fmap_app. by apply prefix_app_r. Qed.

Lemma ret_crashed d d' : crashed d d' → ret_ok (dk_retention d) → ret_ok (dk_retention d').
Proof. by intros [-> _ _ _ _ _]. Qed.

(** A restart on a crashed disk. *)
Lemma crash_open opts h active tail d d' :
  on_disk h active tail d → (∀ id, id ≠ active → tail id = []) → synced_before d active → durable d h active →
  settled d active → ret_ok (dk_retention d) → crashed d d' → readable d' = true →
  ∃ h' s' d2, OpenWithOptions opts d' = Ok (s', d2) ∧ sound (s', d2) h' ∧ h' `prefix_of` h ∧
    st_options s' = opts ∧ dk_retention d2 = dk_retention d ∧
    ∀ hs, hs `prefix_of` h → synced_log d hs active → hs `prefix_of` h' ∧ synced_log d2 hs (st_activeSegmentID s').
Proof.
  intros Hod Ht Hsy Hdu Hset Hret Hcr Hread.
  destruct (crash_prefix h active tail d d' Hod Ht Hsy Hdu Hcr) as (h' & tail' & Hp & Hod' & Hsy' & Hdu' & Hall & _).
  destruct (open_ok opts h' active tail' d' Hod' (ret_crashed _ _ Hcr Hret) (settled_crashed _ _ _ Hcr Hset) Hread)
    as (s' & d2 & Ho & Hs' & Hopt & Hact & Hs2 & Hd2 & Hr2).
  exists h', s', d2. split_and!; try done; [|rewrite Hr2; by destruct Hcr|].
  - split; [done|]. cbn [fst snd]. rewrite Hact. split; [auto|by apply (keeps_durable _ _ _ _ Hd2)].
  - intros hs Hhs Hsl. destruct (Hall hs Hhs Hsl) as [Hp' Hsl']. split; [done|]. rewrite Hact. by apply Hd2.
Qed.

Lemma trim_sound s d h id before s' d' res :
  sound (s, d) h → 0 <= before → Trim s d id before = (s', d', res) → sound (s', d') h.
Proof.
  intros (Hs & Hsy & Hdu) Hb Ht. simpl in *.
  destruct (decide (id = EmptyString)) as [Hid|Hid].
  { unfold Trim in Ht. rewrite Hid in Ht. simpl in Ht. by simplify_eq. }
  destruct (decide (before = 0)) as [Hz|Hz].
  { unfold Trim in Ht. rewrite (proj2 (str_empty_false _) Hid), Hz in Ht. simpl in Ht. by simplify_eq. }
  pose proof (Trim_log s d h id before Hs Hid ltac:(lia)) as Hl.
  destruct (st_streams s !! id) as [st|]; [|rewrite Ht in Hl; by simplify_eq].
  destruct (ss_nextSeq st =? 0); [rewrite Ht in Hl; by simplify_eq|].
  destruct Hl as (s2 & d2 & Ht2 & Hs2 & _ & Hlog & _ & Hact & _). rewrite Ht in Ht2.
  injection Ht2 as <- <- _. split; [done|]. unfold synced_before, durable, synced_log in *. cbn [fst snd]. by rewrite Hlog, Hact.
Qed.

Lemma append_sound s d h req io s' d' res :
  sound (s, d) h → room s req io → io_write io = None → sync_ok (st_options s) io →
  Append s d req io = (s', d', res) →
  ∃ h', sound (s', d') h' ∧ (h' = h ∨ ∃ a, h' = h ++ [a]) ∧ dk_retention d' = dk_retention d.
Proof.
  intros Hr Hroom Hw Hsync Happ. pose proof (proj1 Hr) as Hs. cbn [fst snd] in Hs.
  destruct (append_cases s d h req io Hs Hroom Hw Hsync) as (s2 & d2 & res2 & Happ2 & Hres & Hse & _).
  rewrite Happ in Happ2. injection Happ2 as <- <- <-. pose proof (seals_retention _ _ _ _ Hse) as Hret.
  destruct res as [[r []]|e].
  - destruct Hres as (-> & -> & _). exists h. split_and!; [done|by left|done].
  - destruct Hres as (_ & _ & enc & Hs2). eexists. split_and!; [|right; by eexists|done].
    eapply sound_seals; [done|done|done|]. by apply Forall_singleton.
  - destruct Hres as [Hs2 _]. exists h. split_and!; [|by left|done]. rewrite <- (app_nil_r h) in Hs2 |- *. by eapply sound_seals.
Qed.

(** The restart after a crash that followed an append. *)
Lemma crash_append s d h req io s1 d1 h1 d2 :
  sound (s, d) h → append_leaves s d h req io s1 d1 h1 → crashed d1 d2 → readable d2 = true →
  ∃ h' s' d3, OpenWithOptions (st_options s) d2 = Ok (s', d3) ∧ sound (s', d3) h' ∧ h' `prefix_of` h1 ∧
    st_options s' = st_options s ∧ dk_retention d3 = dk_retention d1 ∧
    ∀ hs, hs `prefix_of` h1 → synced_log d1 hs (st_activeSegmentID s1) → hs `prefix_of` h' ∧ synced_log d3 hs (st_activeSegmentID s').
Proof.
  intros (Hs & Hsy & Hdu) (Hh1 & (tail & Hod & Htail) & Hse & Hret & _) Hcr Hread. cbn [fst snd] in *.
  eapply crash_open; [exact Hod|exact Htail|by eapply seals_synced| |eapply settled_seals; [exact Hse|apply (so_settled _ _ _ Hs)]|exact Hret|exact Hcr|exact Hread].
  assert (∃ more, h1 = h ++ more ∧ Forall (λ a, ap_seg a = st_activeSegmentID s1) more) as (more & -> & Hmore).
  { destruct Hh1 as [->|(a & -> & Ha & _)]; [exists []; by rewrite app_nil_r|]. exists [a]. split; [done|by apply Forall_singleton]. }
  eapply durable_seals; [done|by eapply active_exists| |done|done].
  intros Hlt. eapply fresh_segment; [apply (so_history _ _ _ Hs)|done].
Qed.

(** *** What the abstract log says of a store *)

Lemma seqs_records h id : Seq <$> filter (λ r, StreamID r = id) (ap_rec <$> h) = seqs h id.
Proof. unfold seqs, of_stream. by rewrite filter_mapped, list_fmap_compose. Qed.
Lemma next_seq_of s d hs h id : store_ok s d h → next_of (abs_of d hs h) id = ss_nextSeq (stream_of s id).
Proof.
  intros Hs. unfold next_of. cbn [abs_of al_records al_trim]. rewrite seqs_records, <- last_next_seqs, <- (trim_marks s d h id Hs).
  destruct (stream_of_ok _ _ _ (so_streams _ _ _ Hs id)) as (<- & (_ & Hn) & _). by rewrite Hn.
Qed.
Lemma selected_of s d hs h mmapOk id from limit : store_ok s d h → id ≠ EmptyString →
  Read s d mmapOk id from limit = Ok (selected (abs_of d hs h) id from limit).
Proof.
  intros Hs Hid. rewrite (Read_log s d h) by done. unfold selected. cbn [abs_of al_records al_trim]. rewrite <- (trim_marks s d h id Hs), fmap_take.
  do 2 f_equal. unfold from_seq, of_stream. rewrite filter_mapped, list_filter_filter. f_equal. apply list_filter_iff. intros a. cbn. tauto.
Qed.
Lemma answers_of d hs h req r : answers (abs_of d hs h) req r ↔
  ar_IdempotencyKey req ≠ EmptyString ∧ ∃ a, a ∈ h ∧ r = ap_rec a ∧ IdempotencyKey (ap_rec a) ≠ EmptyString ∧
    rec_key (ap_rec a) = idempotencyKey (ar_StreamID req) (ar_IdempotencyKey req).
Proof.
  unfold answers. cbn [abs_of al_records]. rewrite list_elem_of_fmap. split.
  - intros ((a & -> & Ha) & Hk & Hr & Heq). split; [done|]. by exists a.
  - intros (Hk & a & Ha & -> & Hr & Heq). split_and!; [by exists a|done..].
Qed.
(** The record of a fresh request is the one the abstract log adds. *)
Lemma adds_of s d hs h req now r :
  store_ok s d h → appended_by s req now r →
  (ar_IdempotencyKey req ≠ EmptyString → ∀ a, a ∈ h → IdempotencyKey (ap_rec a) ≠ EmptyString →
     rec_key (ap_rec a) ≠ idempotencyKey (ar_StreamID req) (ar_IdempotencyKey req)) → adds (abs_of d hs h) req r.
Proof.
  intros Hs (H1 & H2 & H3 & H4 & _ & Hseq) Hk. split; [|split; [done|]].
  - intros r0 (Hk0 & a & Ha & -> & Hr & Heq)%answers_of. by apply (Hk Hk0 a).
  - rewrite (next_seq_of s) by done. destruct (stream_of_ok _ _ _ (so_streams _ _ _ Hs (ar_StreamID req))) as (_ & (Hpos & Hn) & _).
    rewrite Hseq. destruct (Z.eqb_spec (ss_nextSeq (stream_of s (ar_StreamID req))) 0); [lia|].
    assert (0 <= ss_nextSeq (stream_of s (ar_StreamID req))) by lia. lia.
Qed.
(** A log without key collisions: the last record's key was not there before. *)
Lemma fresh_key h a active : history_ok (h ++ [a]) active → IdempotencyKey (ap_rec a) ≠ EmptyString →
  ∀ b, b ∈ h → IdempotencyKey (ap_rec b) ≠ EmptyString → rec_key (ap_rec b) ≠ rec_key (ap_rec a).
Proof.
  intros Hh Hk b Hb Hkb Heq. pose proof (ho_keys _ _ Hh) as Hnd. unfold keyed in Hnd.
  rewrite filter_app, fmap_app, filter_cons, decide_True in Hnd by done. apply NoDup_app in Hnd as (_ & Hnd & _).
  apply (Hnd (rec_key (ap_rec a))); [|cbn; by left]. rewrite <- Heq. apply (list_elem_of_fmap_2 (rec_key ∘ ap_rec)). by apply list_elem_of_filter.
Qed.
Lemma refused_unwritable s req io e : append_refused s req io e → unwritable req e.
Proof.
  intros [?|[?|He]]; [by left|by right; left|]. right; right. exists (io_pooled io), (new_record s req (io_now io)), (op_ChecksumType (st_options s)).
  split; [by split_and!|]. destruct He as [?|(b & crc & ? & ? & ?)]; [by left|right; by exists b, crc].
Qed.

(** *** Each step of the store is one of the abstract log *)

Lemma trim_marks_moved s d hs h id before s' d' res x :
  store_ok s d h → 0 <= before → Trim s d id before = (s', d', res) → store_ok s' d' h →
  marks d' x = if decide (x = id) then new_mark (abs_of d hs h) id before else marks d x.
Proof.
  intros Hs Hb Ht Hs'. rewrite <- (trim_marks s' d' h), <- (trim_marks s d h) by done.
  unfold new_mark. rewrite (next_seq_of s) by done. cbn [abs_of al_trim]. rewrite <- (trim_marks s d h) by done.
  assert (Hstay : s' = s → trim_of s' x = if decide (x = id) then trim_of s id else trim_of s x) by (intros ->; by case_decide; subst).
  destruct (str_empty id) eqn:He; cbn [orb]; [apply Hstay; unfold Trim in Ht; rewrite He in Ht; congruence|].
  destruct (Z.eqb_spec before 0) as [->|Hz]; cbn [orb]; [apply Hstay; unfold Trim in Ht; rewrite He in Ht; cbn in Ht; congruence|].
  pose proof (Trim_log s d h id before Hs (proj1 (str_empty_false _) He) ltac:(lia)) as Hl.
  destruct (st_streams s !! id) as [st|] eqn:Hst.
  2: { assert (stream_of s id = new_stream) as -> by (unfold stream_of; by rewrite Hst). apply Hstay. congruence. }
  assert (stream_of s id = st) as Hof by (unfold stream_of; by rewrite Hst). rewrite Hof.
  destruct (ss_nextSeq st =? 0); [apply Hstay; congruence|]. destruct Hl as (s2 & d2 & Ht2 & _ & Hstr & _). rewrite Ht in Ht2. injection Ht2 as <- <- _.
  unfold trim_of at 1, stream_of. rewrite Hstr. case_decide as Hx; [subst x; rewrite lookup_insert_eq|by rewrite lookup_insert_ne].
  cbn. unfold new_trim, trim_of. by rewrite Hof.
Qed.
Lemma trim_log s d id before s' d' res : Trim s d id before = (s', d', res) →
  dk_log d' = dk_log d ∧ st_activeSegmentID s' = st_activeSegmentID s.
Proof. unfold Trim. repeat case_match; intros; by simplify_eq. Qed.
(** Compactions drop trimmed records only. *)
Lemma compacted_kept t h h' : compacted t h h' → drops_trimmed t (ap_rec <$> h) (ap_rec <$> h').
Proof.
  intros Hc. split; [by eapply compacted_records|]. rewrite !filter_mapped. apply (compacted_live t (kept t)); [|done].
  intros a _ Ht Hk. unfold trimmed, kept in *. lia.
Qed.
Lemma compacted_marks s d h h1 h2 : store_ok s d h → compacted (trim_of s) h1 h2 → drops_trimmed (marks d) (ap_rec <$> h1) (ap_rec <$> h2).
Proof.
  intros Hs [Hsub Hk]%compacted_kept. split; [done|]. assert (Hkk : ∀ x, kept (trim_of s) x ↔ kept (marks d) x) by (intros x; unfold kept; by rewrite (trim_marks s d h)).
  by rewrite !(list_filter_iff _ _ _ Hkk) in Hk.
Qed.

Lemma sim_append s d req io s' d' res L :
  holds (s, d) L → room s req io → io_write io = None → sync_ok (st_options s) io → Append s d req io = (s', d', res) →
  ∃ L', holds (s', d') L' ∧ abs_step (Appended (syncs s) req res) L L'.
Proof.
  intros (hs & h & [Hr Htmp] & Hp & Hsl & ->) Hroom Hw Hsy Happ. cbn [fst snd] in *. pose proof (proj1 Hr) as Hs. cbn [fst snd] in Hs.
  assert (Htmp' : no_tmps d') by (eapply no_tmps_eq; [by eapply append_tmps|done]).
  destruct (append_cases s d h req io Hs Hroom Hw Hsy) as (s2 & d2 & res2 & Happ2 & Hres & Hse & _ & Hnew).
  rewrite Happ in Happ2. injection Happ2 as <- <- <-. pose proof (synced_seals s d h s' d' hs Hs Hse Hp Hsl) as Hsl'.
  destruct res as [[r []]|e].
  - destruct Hres as (-> & -> & Hk & a & Ha & Hka & Heq & ->). exists (abs_of d hs h). split; [by exists hs, h|].
    apply abs_duplicate, answers_of. split; [done|]. by exists a.
  - destruct Hres as (Hby & Hk & enc & Hs'). set (a := {| ap_seg := _; ap_rec := r; ap_enc := enc |}) in Hs'.
    assert (Hr' : refines (s', d') (h ++ [a])) by (split; [|done]; eapply sound_seals; [done|done|done|by apply Forall_singleton]).
    assert (∃ hs', hs `prefix_of` hs' ∧ hs' `prefix_of` h ++ [a] ∧ synced_log d' hs' (st_activeSegmentID s') ∧ (syncs s = true → hs' = h ++ [a])) as (hs' & H1 & H2 & H3 & H4).
    { destruct (syncs s) eqn:Hal.
      - apply bool_decide_eq_true in Hal. exists (h ++ [a]). split_and!; [by apply prefix_app_r|done| |done].
        eapply all_synced_log; [|apply (so_logs _ _ _ Hs')]. apply (Hnew Hal), Hr.
      - exists hs. split_and!; [done|by apply prefix_app_r|done|done]. }
    exists (abs_of d' hs' (h ++ [a])). split; [by exists hs', (h ++ [a])|]. apply abs_append.
    + by eapply adds_of.
    + cbn. by rewrite fmap_app.
    + cbn. by rewrite (marks_eq _ _ (seals_retention _ _ _ _ Hse)).
    + by apply prefix_records.
    + intros Hal. cbn. by rewrite H4.
  - destruct Hres as [Hs' Href]. exists (abs_of d' hs h). split.
    + exists hs, h. split_and!; [|done..]. split; [|done]. rewrite <- (app_nil_r h) in Hs' |- *. by eapply sound_seals.
    + unfold abs_of. rewrite (marks_eq _ _ (seals_retention _ _ _ _ Hse)). by apply abs_refused, (refused_unwritable s req io).
Qed.
Lemma sim_trim s d id before s' d' res L :
  holds (s, d) L → 0 <= before → Trim s d id before = (s', d', res) → ∃ L', holds (s', d') L' ∧ abs_step (Trimmed id before) L L'.
Proof.
  intros (hs & h & [Hr Htmp] & Hp & Hsl & ->) Hb Ht. pose proof (trim_sound _ _ _ _ _ _ _ _ Hr Hb Ht) as Hr'.
  exists (abs_of d' hs h). split; [exists hs, h; split_and!; [split; [done|eapply no_tmps_eq; [by eapply trim_tmps|done]]|done| |done]|].
  - destruct (trim_log s d id before s' d' res Ht) as [Hl Ha]. unfold synced_log. cbn [fst snd] in *. by rewrite Hl, Ha.
  - apply abs_trim; [done..|]. intros x. by eapply trim_marks_moved; [apply Hr| | |apply Hr'].
Qed.
Lemma sim_compact s d env opts opts' st r L :
  holds (s, d) L → normalize_compaction opts = Ok opts' → 2 * st_activeSegmentID s + 1 < 2 ^ 64 →
  compaction env s d opts = (st, Done r) → ∃ L', holds (cs_store st, cs_disk st) L' ∧ abs_step Compacted L L'.
Proof.
  intros (hs & h & [(Hs & Hsy & Hdu) Htmp] & Hp & Hsl & ->) Hopts Hroom Hrun. cbn [fst snd] in *.
  pose proof (compact_cases env s d h opts opts' Hs Htmp Hroom Hopts) as Hc. rewrite Hrun in Hc. destruct Hc as (h3 & Hc).
  destruct (cp_prefix _ _ _ _ _ _ Hc hs Hp Hsl) as (hs3 & Hp3 & Hc3 & Hsl3). exists (abs_of (cs_disk st) hs3 h3). split.
  - exists hs3, h3. split_and!; [|done..]. split; [|apply (cp_tmps _ _ _ _ _ _ Hc)].
    split_and!; [apply (cp_store _ _ _ _ _ _ Hc)|by apply (cp_sealed _ _ _ _ _ _ Hc)|by apply (cp_durable _ _ _ _ _ _ Hc)].
  - apply (abs_compact _ (ap_rec <$> hs)); [by left| | |done|by apply prefix_records|]; cbn.
    + eapply compacted_marks; [done|apply (cp_log _ _ _ _ _ _ Hc)].
    + by rewrite (marks_eq _ _ (sm_retention _ _ _ _ (cp_same _ _ _ _ _ _ Hc))).
    + by eapply compacted_marks.
Qed.


Lemma crash_readable opts d d' s : OpenWithOptions opts d = Ok (s, d') → readable d = true.
Proof. intros Ho. destruct (readable d) eqn:Hr; [done|]. destruct (unreadable_refuses opts d Hr) as [e He]. congruence. Qed.
Lemma sim_crash s d d1 s' d' L :
  holds (s, d) L → crashed d d1 → OpenWithOptions (st_options s) d1 = Ok (s', d') →
  ∃ L', holds (s', d') L' ∧ abs_step (Restarted None) L L'.
Proof.
  intros (hs & h & [(Hs & Hsy & Hdu) Htmp] & Hp & Hsl & ->) Hcr Ho. cbn [fst snd] in *. pose proof (crash_readable _ _ _ _ Ho) as Hread.
  destruct (crash_open (st_options s) h _ no_tail d d1 (store_on_disk _ _ _ Hs) ltac:(done) Hsy Hdu (so_settled _ _ _ Hs) (so_ret_ok _ _ _ Hs) Hcr Hread)
    as (h' & s2 & d2 & Ho2 & Hr2 & Hp2 & _ & Hret & Hall). rewrite Ho in Ho2. injection Ho2 as <- <-. destruct (Hall hs Hp Hsl) as [Hp' Hsl'].
  exists (abs_of d' hs h'). split; [exists hs, h'; split_and!; [split; [done|]|done..]|].
  - eapply no_tmps_eq; [eapply open_tmps; [|done]|by eapply no_tmps_crashed]. eapply settled_reconcile, settled_crashed; [done..|apply (so_settled _ _ _ Hs)].
  - apply abs_restart; cbn; [by apply prefix_records..|done|by apply marks_eq].
Qed.

Lemma sim_crash_append s d req io s1 d1 res d2 s' d' L :
  holds (s, d) L → room s req io → Append s d req io = (s1, d1, res) → crashed d1 d2 →
  OpenWithOptions (st_options s) d2 = Ok (s', d') → ∃ L', holds (s', d') L' ∧ abs_step (Restarted (Some req)) L L'.
Proof.
  intros (hs & h & [Hr Htmp] & Hp & Hsl & ->) Hroom Happ Hcr Ho. cbn [fst snd] in *. pose proof (crash_readable _ _ _ _ Ho) as Hread.
  pose proof (proj1 Hr) as Hs. cbn [fst snd] in Hs.
  destruct (append_disk s d h req io Hs Hroom) as (s3 & d3 & res3 & h3 & Happ3 & Hl3 & _).
  rewrite Happ in Happ3. injection Happ3 as <- <- <-.
  destruct (crash_append s d h req io s1 d1 h3 d2 Hr Hl3 Hcr Hread) as (h' & s4 & d4 & Ho2 & Hr2 & Hp2 & _ & Hret & Hall).
  rewrite Ho in Ho2. injection Ho2 as <- <-. destruct Hl3 as (Hh3 & (tail & Hod & _) & Hse & _). rewrite (seals_retention _ _ _ _ Hse) in Hret.
  assert (Hp3 : hs `prefix_of` h3) by (destruct Hh3 as [->|(a & -> & _)]; [done|by apply prefix_app_r]).
  destruct (Hall hs Hp3 (synced_seals s d h s1 d1 hs Hs Hse Hp Hsl)) as [Hp' Hsl'].
  exists (abs_of d' hs h'). split; [exists hs, h'; split_and!; [split; [done|]|done..]|].
  - eapply no_tmps_eq; [eapply open_tmps; [|done]|eapply no_tmps_crashed; [done|]].
    + eapply settled_reconcile, settled_crashed; [done..|]. eapply settled_seals; [done|apply (so_settled _ _ _ Hs)].
    + eapply no_tmps_eq; [by eapply append_tmps|done].
  - pose proof (prefix_records _ _ Hp') as Hpr'. pose proof (prefix_records _ _ Hp2) as Hpr2.
    destruct Hh3 as [->|(a & -> & Ha & Hby)]; [apply abs_restart; cbn; [done..|by apply marks_eq]|].
    rewrite fmap_app in Hpr2. apply (abs_restart_append req (ap_rec a)); cbn; [|done..|by apply marks_eq].
    eapply (adds_of s); [done|exact Hby|]. intros Hk. destruct Hby as (H1 & H2 & H3 & H4 & _).
    assert (rec_key (ap_rec a) = idempotencyKey (ar_StreamID req) (ar_IdempotencyKey req)) as <- by (unfold rec_key; congruence).
    eapply fresh_key; [apply (od_history _ _ _ _ Hod)|congruence].
Qed.

(** A compaction that only deletes segments was stopped on a synced disk. *)
Lemma interrupted_restart s d h opts' d' d1 s' d2 :
  store_ok s d h → no_tmps d → synced_before d (st_activeSegmentID s) → durable d h (st_activeSegmentID s) → all_synced d →
  co_CopyPartialSegments opts' = false → interrupted s d h opts' d' → crashed d' d1 → readable d1 = true → OpenWithOptions (st_options s) d1 = Ok (s', d2) →
  synced_log d h (st_activeSegmentID s) →
  ∃ h2, store_ok s' d2 h2 ∧ compacted (trim_of s) h h2 ∧ dk_retention d2 = dk_retention d ∧
    synced_before d2 (st_activeSegmentID s') ∧ synced_log d2 h2 (st_activeSegmentID s').
Proof.
  intros Hs Htmp Hsy Hdu Hall Hno Hint Hcr Hread Ho Hsl.
  destruct (interrupted_opens s d h d' d1 (st_options s) opts' Hs Htmp Hsy Hdu Hint Hcr Hread)
    as (h1 & h2 & s2 & d3 & Hp & Hk & Hc & Ho2 & _ & _ & Hret & Hs2 & Hsy2). rewrite Ho in Ho2. injection Ho2 as <- <-.
  pose proof (anti_symm prefix h1 h Hp (Hk h ltac:(done) Hsl)) as ->. destruct (Hsy2 Hall) as [? ?]. exists h2. split_and!; auto.
Qed.
Lemma sim_crash_compact s d env opts opts' st o d1 s' d' L :
  holds (s, d) L → normalize_compaction opts = Ok opts' → 2 * st_activeSegmentID s + 1 < 2 ^ 64 → co_CopyPartialSegments opts' = false →
  all_synced d → compaction env s d opts = (st, o) → crashed (cs_disk st) d1 →
  OpenWithOptions (st_options s) d1 = Ok (s', d') → ∃ L', holds (s', d') L' ∧ abs_step Interrupted L L'.
Proof.
  intros (hs & h & [(Hs & Hsy & Hdu) Htmp] & Hp & Hsl & ->) Hopts Hroom Hno Hall Hrun Hcr Ho. cbn [fst snd] in *.
  pose proof (crash_readable _ _ _ _ Ho) as Hread.
  assert (Hend : ∃ h2, store_ok s' d' h2 ∧ compacted (trim_of s) h h2 ∧ dk_retention d' = dk_retention d ∧
    synced_before d' (st_activeSegmentID s') ∧ synced_log d' h2 (st_activeSegmentID s')).
  { pose proof (compact_cases env s d h opts opts' Hs Htmp Hroom Hopts) as Hc. rewrite Hrun in Hc.
    assert (Hh : synced_log d h (st_activeSegmentID s)) by (eapply all_synced_log; [done|apply (so_logs _ _ _ Hs)]).
    destruct o as [r|e|].
    - destruct Hc as (h3 & Hc). pose proof (cp_synced _ _ _ _ _ _ Hc Hall) as H3. pose proof (cp_store _ _ _ _ _ _ Hc) as Hs3.
      assert (Hsl3 : synced_log (cs_disk st) h3 (st_activeSegmentID (cs_store st))) by (eapply all_synced_log; [done|apply (so_logs _ _ _ Hs3)]).
      destruct (crash_open (st_options s) h3 _ no_tail (cs_disk st) d1 (store_on_disk _ _ _ Hs3) ltac:(done) (cp_sealed _ _ _ _ _ _ Hc Hsy)
        (cp_durable _ _ _ _ _ _ Hc Hdu) (so_settled _ _ _ Hs3) (so_ret_ok _ _ _ Hs3) Hcr Hread) as (h' & s2 & d2 & Ho2 & (Hs2 & Hsy2 & _) & Hp2 & _ & Hret & Hk).
      rewrite Ho in Ho2. injection Ho2 as <- <-. destruct (Hk h3 ltac:(done) Hsl3) as [Hp3 Hsl']. pose proof (anti_symm prefix h3 h' Hp3 Hp2) as <-.
      exists h3. split_and!; [done|apply (cp_log _ _ _ _ _ _ Hc)| |done|done].
      by rewrite Hret, (sm_retention _ _ _ _ (cp_same _ _ _ _ _ _ Hc)).
    - destruct Hc as [Hint _]. by eapply interrupted_restart.
    - destruct Hc as [Hint _]. by eapply interrupted_restart. }
  destruct Hend as (h2 & Hs2 & Hc & Hret & Hsy2 & Hsl2). exists (abs_of d' h2 h2). split.
  - exists h2, h2. split_and!; [|done..]. split; [split_and!; [done..|by apply durable_nil]|].
    pose proof (deletes_spare env s d opts opts' Htmp Hopts Hno) as Hst. rewrite Hrun in Hst.
    eapply open_no_tmps; [exact Ho|]. by eapply no_tmps_crashed.
  - apply (abs_compact _ (ap_rec <$> h)); [by right| | |by apply prefix_records|done|]; cbn.
    + by eapply compacted_marks.
    + by apply marks_eq.
    + by eapply compacted_marks.
Qed.

Lemma step_simulated e p q L : holds p L → store_step e p q → ∃ L', holds q L' ∧ abs_step e L L'.
Proof.
  intros HL Hstep. destruct Hstep.
  - by eapply sim_append.
  - by eapply sim_trim.
  - exists L. split; [done|]. destruct HL as (hs & h & [[Hs _] _] & _ & _ & ->). cbn [fst snd] in Hs.
    rewrite (selected_of s d hs h) by done. apply abs_read.
  - by eapply sim_compact.
  - by eapply sim_crash.
  - by eapply sim_crash_append.
  - by eapply sim_crash_compact.
Qed.

Lemma fresh_refines opts d0 s0 d1 : dk_log d0 = ∅ → dk_manifest d0 = None → no_tmps d0 → ret_ok (dk_retention d0) →
  OpenWithOptions opts d0 = Ok (s0, d1) → refines (s0, d1) [].
Proof.
  intros Hd Hman Htmp Hret Ho. destruct (open_fresh opts d0 Hd Hman Hret (crash_readable _ _ _ _ Ho)) as (s1 & d2 & Ho1 & Hs & _ & Hsy).
  rewrite Ho in Ho1. injection Ho1 as <- <-. split; [|eapply open_no_tmps; [exact Ho|done]].
  split_and!; [done|done|apply durable_nil; intros f _; simpl; lia].
Qed.
Lemma fresh_holds opts d0 s0 d1 : dk_log d0 = ∅ → dk_manifest d0 = None → no_tmps d0 → ret_ok (dk_retention d0) →
  OpenWithOptions opts d0 = Ok (s0, d1) → holds (s0, d1) (abs_of d1 [] []).
Proof.
  intros Hd Hman Htmp Hret Ho. exists [], []. split_and!; [by eapply fresh_refines|done| |done]. intros f _. cbn. lia.
Qed.

(** ** Properties *)

(** C1: in every execution of the log store from a first open on an empty directory, through
    appends, trims, reads, compactions, and stops of the process or the machine at any point of
    an append, between operations or in a compaction that only deletes segments of a synced
    disk, each operation gives the answer that the abstract log gives, and the store's records
    and trim marks stay the abstract log's.  The abstract log ([abs_step]) gains a record only in an
    append that answers with it, or in one that was stopped; answers a repeated key with the
    record that has it; moves a mark as the trim asks; gives a read the selected records; loses
    records below their marks, and no others, in a compaction, and records that were not synced
    in a crash. *)
Theorem log_store_refines_log opts d0 s0 d1 tr s d :
  dk_log d0 = ∅ → dk_manifest d0 = None → no_tmps d0 → ret_ok (dk_retention d0) → OpenWithOptions opts d0 = Ok (s0, d1) →
  runs store_step tr (s0, d1) (s, d) →
  ∃ h L, store_ok s d h ∧ al_records L = ap_rec <$> h ∧ (∀ id, al_trim L id = trim_of s id) ∧
    runs abs_step tr {| al_records := []; al_synced := []; al_trim := marks d1 |} L.
Proof.
  intros Hd Hman Htmp Hret Ho Hrun.
  destruct (simulated_runs store_step abs_step holds _ _ _ _ (λ e p q L, step_simulated e p q L) Hrun (fresh_holds opts d0 s0 d1 Hd Hman Htmp Hret Ho))
    as (L & (hs & h & [[Hs _] _] & _ & _ & ->) & Ha). exists h, (abs_of d hs h). split_and!; [done|done| |done].
  intros id. symmetry. by eapply trim_marks.
Qed.

(** C4: an append on a store that holds the log [h] and meets no disk error
    either answers a request whose idempotency key is in [h] with the earlier
    record, changing nothing; or refuses it, keeping [h]; or adds exactly one
    record, with the request's fields and the sequence number after the
    stream's last one and its trim mark. *)
Theorem append_extends_log s d h req io :
  store_ok s d h → room s req io → io_write io = None → sync_ok (st_options s) io →
  ∃ s' d' res, Append s d req io = (s', d', res) ∧
  match res with
  | Err e => store_ok s' d' h ∧ append_refused s req io e
  | Ok (r, true) => s' = s ∧ d' = d ∧ ar_IdempotencyKey req ≠ EmptyString ∧
      ∃ a, a ∈ h ∧ IdempotencyKey (ap_rec a) ≠ EmptyString ∧
        rec_key (ap_rec a) = idempotencyKey (ar_StreamID req) (ar_IdempotencyKey req) ∧
        r = idempotencyRecord (ap_rec a)
  | Ok (r, false) => appended_by s req (io_now io) r ∧
      Seq r = Z.max 1 (Z.max (trim_of s (ar_StreamID req)) (last_next (stream_entries h (ar_StreamID req)))) ∧
      (ar_IdempotencyKey req ≠ EmptyString → ∀ a, a ∈ h → IdempotencyKey (ap_rec a) ≠ EmptyString →
         rec_key (ap_rec a) ≠ idempotencyKey (ar_StreamID req) (ar_IdempotencyKey req)) ∧
      ∃ enc, store_ok s' d' (h ++ [{| ap_seg := st_activeSegmentID s'; ap_rec := r; ap_enc := enc |}])
  end.
Proof.
  intros Hs Hroom Hw Hsync. destruct (append_cases s d h req io Hs Hroom Hw Hsync) as (s' & d' & res & Happ & Hres & _).
  exists s', d', res. split; [done|]. destruct res as [[r []]|e]; [done| |done].
  destruct Hres as (Hr & Hk & Hs'). split; [done|]. split; [|done].
  destruct Hr as (_ & _ & _ & _ & _ & ->). unfold trim_of.
  destruct (stream_of_ok _ _ _ (so_streams _ _ _ Hs (ar_StreamID req))) as (<- & (Hpos & Hn) & _).
  destruct (Z.eqb_spec (ss_nextSeq (stream_of s (ar_StreamID req))) 0); lia.
Qed.

(** C2: under the policy that syncs every append, once everything is synced, a
    crash at any point during or after an append, whatever the disk did to it, is
    followed by a restart that has every earlier record, no record but possibly the
    new one after them, and certainly the new one when the append had returned it;
    unless the machine stopped before the contents of a manifest were on the disk,
    which are never synced: then the restart is refused. *)
Theorem acknowledged_survive_crash s d h req io s1 d1 res d2 :
  store_ok s d h → room s req io → op_FsyncPolicy (st_options s) = FsyncAlways → all_synced d →
  Append s d req io = (s1, d1, res) → crashed d1 d2 →
  if readable d2 then
    ∃ s2 d3 h', OpenWithOptions (st_options s) d2 = Ok (s2, d3) ∧ store_ok s2 d3 h' ∧
      h `prefix_of` h' ∧ (length h' ≤ S (length h))%nat ∧
      match res with Ok (r, false) => ∃ a, h' = h ++ [a] ∧ ap_rec a = r | _ => True end
  else ∃ e, OpenWithOptions (st_options s) d2 = Err e.
Proof.
  intros Hs Hroom Hpol Hall Happ Hcr. destruct (readable d2) eqn:Hread; [|by apply unreadable_refuses].
  assert (Hr : sound (s, d) h).
  { split_and!; [done|by intros id f Hf _; apply (Hall id)|]. apply durable_nil.
    eapply all_synced_log; [done|apply (so_logs _ _ _ Hs)]. }
  destruct (append_disk s d h req io Hs Hroom) as (s3 & d3 & res3 & h3 & Happ3 & Hl3 & Hres).
  rewrite Happ in Happ3. injection Happ3 as <- <- <-.
  destruct (crash_append s d h req io s1 d1 h3 d2 Hr Hl3 Hcr Hread) as (h' & s4 & d4 & Ho & [Hs4 _] & Hp & _ & _ & Hsl).
  destruct Hl3 as (Hh3 & (tail & Hod & _) & _ & _ & Hkeep).
  assert (Hh : h `prefix_of` h3) by (destruct Hh3 as [->|(a & -> & _)]; [done|by eexists]).
  exists s4, d4, h'. split_and!; [done|done|by apply Hsl; [|apply Hkeep]| |].
  - apply prefix_length in Hp. destruct Hh3 as [->|(a & -> & _)]; [lia|]. rewrite length_app in Hp. simpl in Hp. lia.
  - destruct res as [[r []]|e]; [done| |done]. destruct Hres as ((a & -> & Ha) & Hall').
    exists a. split; [|done]. apply (anti_symm prefix); [done|]. apply Hsl; [done|].
    apply (all_synced_log d1 _ _ tail); [by apply Hall'|apply (od_logs _ _ _ _ Hod)].
Qed.

(** The same disk, with a sync that succeeds. *)
Definition synced_io (io : append_io) : append_io :=
  {| io_pooled := io_pooled io; io_now := io_now io; io_write := io_write io; io_sync := true; io_due := io_due io |}.
(** C8: when [Write] succeeds and [Sync] fails in an append that would otherwise have returned
    the record [r], [Append] returns an error and keeps its counters, but [r] stays in the log
    file: every stream's next sequence number is as before, so that the next append to the
    stream is given [r]'s number; [r] is what a reader finds at the offset that the next append
    records for its own record; and the next open, where the machine kept the file, restores
    [r] after the others, as if its append had succeeded. *)
Theorem failed_sync_keeps_record s d h req io s1 d1 r :
  store_ok s d h → room s req io → io_write io = None → ¬ sync_ok (st_options s) io →
  Append s d req (synced_io io) = (s1, d1, Ok (r, false)) →
  ∃ s2 d2 a, Append s d req io = (s2, d2, Err ErrIO) ∧ ap_rec a = r ∧
    (∀ id, ss_nextSeq (stream_of s2 id) = ss_nextSeq (stream_of s id)) ∧
    (∃ f next, dk_log d2 !! st_activeSegmentID s2 = Some f ∧
       readRecordAtIO (readAtSegmentReader (f_data f)) (Z.to_nat (st_activeSegmentBytes s2)) = Ok (r, next)) ∧
    if readable d2 then ∃ s3 d3, OpenWithOptions (st_options s) d2 = Ok (s3, d3) ∧ store_ok s3 d3 (h ++ [a])
    else ∃ e, OpenWithOptions (st_options s) d2 = Err e.
Proof.
  intros Hs Hroom Hw Hbad Happ. assert (Hroom' : room s req (synced_io io)) by (by destruct Hroom).
  destruct (append_split s d h req (synced_io io) Hs Hroom') as [(s' & d' & res & Happ' & _ & _ & _ & Hres)|(Hsid & Hev & Hex & enc & crc & Henc & Hlen)].
  { rewrite Happ in Happ'. by injection Happ' as _ _ <-. }
  destruct (append_fresh s d h req (synced_io io) enc crc Hs Hroom' Hw ltac:(by left) Hsid Hev Hex Henc) as (s' & d' & _ & Happ' & _).
  rewrite Happ in Happ'. destruct (Z.ltb_spec (2 ^ 32 - 1) (Z.of_nat (length enc))) as [|_]; [lia|]. injection Happ' as _ _ ->.
  destruct (append_failed s d h req io enc crc Hs Hroom Hsid Hev Hex Henc Hlen) as (s2 & d2 & Hs2 & Hv & Hh2 & Hse & _ & Ho & Hfail).
  set (a := {| ap_seg := _; ap_rec := _; ap_enc := enc |}) in *. pose proof (rm_options _ _ _ Hroom) as Hopt. rewrite <- Ho in Hopt, Hbad.
  destruct Hfail as (n & Hn & Ha); [right; by rewrite sync_fails|]. rewrite Hw, sync_fails in Ha by done. rewrite (Hn Hw), take_ge in Ha by done. cbn [fst] in Ha.
  destruct (partial_write s2 d2 h a (length enc) Hs2 Hv eq_refl Hh2) as (h' & tail & _ & Hod & Htail & Hall). rewrite (Hall ltac:(done)) in Hod.
  cbn [ap_enc a] in Hod. rewrite take_ge in Hod by done. pose proof (seals_retention _ _ _ _ Hse) as Hret.
  exists s2, (write_log s2 d2 enc), a. split_and!; [done|done| | |].
  - intros id. rewrite <- (next_seq_of s2 d2 [] h id Hs2), <- (next_seq_of s d [] h id Hs). unfold next_of. cbn [abs_of al_records al_trim].
    by rewrite (marks_eq _ _ Hret).
  - destruct (active_log s2 d2 h Hs2) as (f & Hf & Hfd & _). unfold write_log. rewrite (log_file_some _ _ _ Hf). cbn [dk_log with_log with_files].
    eexists _, _. split; [apply lookup_insert_eq|]. cbn [f_data]. rewrite (so_bytes _ _ _ Hs2), Nat2Z.id, Hfd.
    apply (valid_read a _ []); [done|left]. by rewrite app_nil_r.
  - destruct (readable _) eqn:Hread; [|by apply unreadable_refuses].
    destruct (open_ok (st_options s) (h ++ [a]) (st_activeSegmentID s2) tail (write_log s2 d2 enc) Hod) as (s3 & d3 & Ho3 & Hs3 & _).
    + apply (so_ret_ok _ _ _ Hs2).
    + eapply settled_seals; [apply write_seals|apply (so_settled _ _ _ Hs2)].
    + done.
    + by exists s3, d3.
Qed.

(** C3: opening a disk whose log files hold the log [h], each possibly ending in
    a torn record, restores exactly [h], whatever bytes the index files contain: a
    missing, stale, corrupt or even well-formed but wrong index is never trusted.
    It always succeeds, unless a manifest file has lost its contents; then it is
    refused. *)
Theorem recovery_ignores_indexes opts h active tail d :
  on_disk h active tail d → ret_ok (dk_retention d) → settled d active →
  if readable d then ∃ s' d', OpenWithOptions opts d = Ok (s', d') ∧ store_ok s' d' h ∧ st_activeSegmentID s' = active
  else ∃ e, OpenWithOptions opts d = Err e.
Proof.
  intros Hod Hret Hset. destruct (readable d) eqn:Hread; [|by apply unreadable_refuses].
  destruct (open_ok opts h active tail d Hod Hret Hset Hread) as (s' & d' & H1 & H2 & _ & H3 & _).
  by exists s', d'.
Qed.

(** C5: [Read] returns exactly the stream's records from the requested sequence
    number on, never below the trim mark, in order and cut at the limit. *)
Theorem read_returns_log s d h mmapOk id from limit :
  store_ok s d h → id ≠ EmptyString →
  Read s d mmapOk id from limit =
  Ok (ap_rec <$> take (Z.to_nat (if limit <=? 0 then 100 else limit))
        (from_seq h id (Z.max (if from =? 0 then 1 else from) (trim_of s id)))).
Proof. apply Read_log. Qed.

(** [ReadRawEach], which reads in batches and lets appends run between them,
    delivers to its callback exactly the records that a [Read] of the first
    batch's store would have returned, up to the limit and the callback's first
    refusal; one batch per record is more than enough. *)
Theorem raw_read_is_snapshot fuel views hs mmapOk id from limit emit :
  growing views hs → id ≠ EmptyString → (length (of_stream id (hs 0%nat)) < fuel)%nat →
  ReadRawEach fuel views mmapOk id from limit emit
  = Some (deliver emit (limited limit ((raw_rec ∘ ap_rec) <$>
      from_seq (hs 0%nat) id (Z.max (if from =? 0 then 1 else from) (trim_of (views 0%nat).1 id))))).
Proof. apply ReadRawEach_log. Qed.

(** [Trim] on a stream that exists moves its mark up, never down, to at most
    the next sequence number, makes the mark durable and leaves the log and
    every other stream as they are. *)
Theorem trim_moves_mark s d h id before :
  store_ok s d h → id ≠ EmptyString → 0 < before →
  match st_streams s !! id with
  | Some st =>
      if ss_nextSeq st =? 0 then Trim s d id before = (s, d, Err (ErrStreamNotFound id))
      else ∃ s' d', Trim s d id before = (s', d', Ok (streamStatsLocked s' id)) ∧ store_ok s' d' h ∧
             st_streams s' = <[id := {| ss_nextSeq := ss_nextSeq st; ss_trimBefore := new_trim st before;
                                        ss_entries := ss_entries st |}]> (st_streams s) ∧
             dk_log d' = dk_log d ∧ dk_index d' = dk_index d
  | None => Trim s d id before = (s, d, Err (ErrStreamNotFound id))
  end.
Proof.
  intros Hs Hid Hb. pose proof (Trim_log s d h id before Hs Hid Hb) as Ht.
  destruct (st_streams s !! id) as [st|]; [|done]. destruct (_ =? 0); [done|].
  destruct Ht as (s' & d' & H1 & H2 & H3 & H4 & H5 & _). by exists s', d'.
Qed.
End Theorems.

(** ** Witnesses, with the Castagnoli table and no JSON index *)

#[local] Instance demo_lib : ChecksumLib := castagnoli_lib.
#[local] Instance demo_json : IndexJSON := λ _, ([], false).

Definition demo_opts : Options :=
  {| op_SegmentSizeBytes := 64 * 2 ^ 20; op_FsyncPolicy := FsyncAlways; op_FsyncInterval := 100 * 1000000;
     op_SegmentReaderCacheSize := 64; op_CompactionInterval := 0; op_CompactionCopyLiveRatioThreshold := defaultCompactionCopyLiveRatio;
     op_CompactionMaxBytesPerSecond := 16 * 2 ^ 20;
     op_ChecksumType := ChecksumTypeCRC32C; op_MmapRead := true |}.
Definition demo_req (key payload : string) : AppendRequest :=
  {| ar_StreamID := "orders"; ar_EventType := "TaskSubmitted"; ar_IdempotencyKey := key;
     ar_Payload := str_bytes payload |}.
Definition demo_io (sync : bool) (write : option nat) : append_io :=
  {| io_pooled := []; io_now := 1700000000000; io_write := write; io_sync := sync; io_due := false |}.
Definition good : append_io := demo_io true None.

Definition demo0 : Store * Disk := match OpenWithOptions demo_opts empty_disk with Ok p => p | Err _ => (fresh_store demo_opts, empty_disk) end.
Definition append_to (p : Store * Disk) (req : AppendRequest) (io : append_io) : Store * Disk :=
  let '(s, d, _) := Append p.1 p.2 req io in (s, d).
Definition append_result (p : Store * Disk) (req : AppendRequest) (io : append_io) : result log_error (record * bool) :=
  let '(_, _, r) := Append p.1 p.2 req io in r.
Definition demo1 : Store * Disk := append_to demo0 (demo_req "k1" "one") good.
Definition demo_a1 : appended :=
  {| ap_seg := 1; ap_rec := match append_result demo0 (demo_req "k1" "one") good with Ok (r, _) => r | _ => demo_record end;
     ap_enc := f_data (log_file demo1.2 1) |}.

Lemma demo_room (p : Store * Disk) req :
  st_activeSegmentID p.1 + 1 < 2 ^ 64 → ss_nextSeq (stream_of p.1 (ar_StreamID req)) + 1 < 2 ^ 64 →
  st_activeSegmentBytes p.1 + 2 ^ 32 < 2 ^ 37 → st_options p.1 = demo_opts → ∀ io, io_now io = 1700000000000 →
  room p.1 req io.
Proof.
  intros ? ? ? Ho io Hn. split; try done; [rewrite Hn; unfold in_i64; lia|].
  rewrite Ho. split; [by left|done].
Qed.

Lemma demo0_refines : refines demo0 [].
Proof.
  destruct (open_fresh demo_opts empty_disk) as (s & d & Ho & _); [done|done|by intros m id t|done|].
  unfold demo0. rewrite Ho. by apply (fresh_refines demo_opts empty_disk); [..|by intros m id t|].
Qed.

Lemma demo0_room io key payload : io_now io = 1700000000000 → room demo0.1 (demo_req key payload) io.
Proof. intros Hn. apply (demo_room demo0); [vm_compute; done..|vm_compute; done|done]. Qed.

Lemma demo1_refines : refines demo1 [demo_a1].
Proof.
  pose proof demo0_refines as [(Hs & Hsy & Hdu) Htmp].
  destruct (append_cases demo0.1 demo0.2 [] (demo_req "k1" "one") good Hs (demo0_room good "k1" "one" eq_refl) eq_refl ltac:(by left))
    as (s & d & res & Happ & Hres & Hse & _).
  assert (Hdemo : demo1 = (s, d)) by (unfold demo1, append_to; by rewrite Happ).
  assert (Hr : res = append_result demo0 (demo_req "k1" "one") good) by (unfold append_result; by rewrite Happ).
  assert (Hok : ∃ r, append_result demo0 (demo_req "k1" "one") good = Ok (r, false)) by (eexists; vm_compute; reflexivity).
  destruct Hok as [r Hok]. rewrite Hr, Hok in Hres. destruct Hres as (_ & _ & enc & Hs').
  assert (Hseg : st_activeSegmentID s = 1) by (replace s with (fst demo1) by (by rewrite Hdemo); vm_compute; reflexivity).
  assert (Henc : enc = f_data (log_file demo1.2 1)).
  { rewrite Hdemo. cbn [snd]. pose proof (so_logs _ _ _ Hs' 1) as Hl. unfold log_file.
    destruct (dk_log d !! 1) as [f|]; [|rewrite Hseg in Hl; lia]. destruct Hl as (_ & Hd & _). simpl. rewrite Hd.
    unfold no_tail. rewrite app_nil_r. cbn [app]. rewrite seg_bytes_one. by rewrite decide_True. }
  rewrite Hdemo. change [demo_a1] with ([] ++ [demo_a1]). split.
  2: { eapply no_tmps_eq; [by eapply append_tmps|done]. }
  apply (sound_seals demo0.1 demo0.2); [split_and!; done|exact Hse| |].
  - unfold demo_a1. rewrite Hok, <- Henc. cbn [app] in Hs'. rewrite Hseg in Hs'. exact Hs'.
  - apply Forall_singleton. by rewrite Hseg.
Qed.

Lemma demo_open : OpenWithOptions demo_opts empty_disk = Ok (demo0.1, demo0.2).
Proof.
  destruct (open_fresh demo_opts empty_disk) as (s & d & Ho & _); [done|done|by intros m id t|done|].
  unfold demo0. by rewrite Ho.
Qed.

Abbreviation demo_event := (Appended true (demo_req "k1" "one") (append_result demo0 (demo_req "k1" "one") good)).
Lemma demo1_step : store_step demo_event (demo0.1, demo0.2) (demo1.1, demo1.2).
Proof.
  replace true with (syncs demo0.1) by (vm_compute; reflexivity).
  apply (step_append _ _ (demo_req "k1" "one") good _ _ (append_result demo0 (demo_req "k1" "one") good));
    [by apply demo0_room|done|by left|].
  unfold demo1, append_to, append_result. by destruct (Append _ _ _ _) as [[s d] r].
Qed.

Lemma log_store_refines_log_witness :
  ∃ h L, store_ok demo1.1 demo1.2 h ∧ al_records L = ap_rec <$> h ∧ (∀ id, al_trim L id = trim_of demo1.1 id) ∧
    runs abs_step [demo_event] {| al_records := []; al_synced := []; al_trim := marks demo0.2 |} L.
Proof.
  apply (log_store_refines_log demo_opts empty_disk demo0.1 demo0.2 [demo_event] demo1.1 demo1.2);
    [done|done|done|by intros m id t|apply demo_open|apply runs_one, demo1_step].
Defined.

Lemma append_extends_log_witness :
  ∃ s' d' res, Append demo1.1 demo1.2 (demo_req "k2" "two") good = (s', d', res) ∧
  match res with
  | Err e => store_ok s' d' [demo_a1] ∧ append_refused demo1.1 (demo_req "k2" "two") good e
  | Ok (r, true) => s' = demo1.1 ∧ d' = demo1.2 ∧ "k2"%string ≠ EmptyString ∧
      ∃ a, a ∈ [demo_a1] ∧ IdempotencyKey (ap_rec a) ≠ EmptyString ∧
        rec_key (ap_rec a) = idempotencyKey "orders" "k2" ∧ r = idempotencyRecord (ap_rec a)
  | Ok (r, false) => appended_by demo1.1 (demo_req "k2" "two") 1700000000000 r ∧
      Seq r = Z.max 1 (Z.max (trim_of demo1.1 "orders") (last_next (stream_entries [demo_a1] "orders"))) ∧
      ("k2"%string ≠ EmptyString → ∀ a, a ∈ [demo_a1] → IdempotencyKey (ap_rec a) ≠ EmptyString →
         rec_key (ap_rec a) ≠ idempotencyKey "orders" "k2") ∧
      ∃ enc, store_ok s' d' ([demo_a1] ++ [{| ap_seg := st_activeSegmentID s'; ap_rec := r; ap_enc := enc |}])
  end.
Proof.
  apply (append_extends_log demo1.1 demo1.2 [demo_a1] (demo_req "k2" "two") good);
    [apply demo1_refines|apply (demo_room demo1); vm_compute; done|done|by left].
Defined.

Lemma crashed_refl (p : Store * Disk) h : store_ok p.1 p.2 h → dk_logTmp p.2 = ∅ → crashed p.2 p.2.
Proof.
  intros Hs Htmp. split; try done; intros id.
  - pose proof (so_logs _ _ _ Hs id) as Hl. destruct (dk_log p.2 !! id) as [f|]; [|done]. destruct Hl as (_ & _ & Hsy).
    exists (length (f_data f)). split_and!; [done|by rewrite take_ge|lia|done].
  - by rewrite Htmp, lookup_empty.
Qed.

Lemma acknowledged_survive_crash_witness :
  ∃ s2 d3 h', OpenWithOptions demo_opts demo1.2 = Ok (s2, d3) ∧ store_ok s2 d3 h' ∧
    [] `prefix_of` h' ∧ (length h' ≤ 1)%nat ∧
    match append_result demo0 (demo_req "k1" "one") good with
    | Ok (r, false) => ∃ a, h' = [] ++ [a] ∧ ap_rec a = r | _ => True end.
Proof.
  pose proof (acknowledged_survive_crash demo0.1 demo0.2 [] (demo_req "k1" "one") good demo1.1 demo1.2
    (append_result demo0 (demo_req "k1" "one") good) demo1.2) as Hsurv.
  replace (readable demo1.2) with true in Hsurv by (vm_compute; reflexivity). apply Hsurv; clear Hsurv.
  - apply demo0_refines.
  - by apply demo0_room.
  - by vm_compute.
  - assert (Hlog : dk_log demo0.2 = {[1 := empty_file]}) by (vm_compute; reflexivity).
    intros id f. rewrite Hlog. by intros [<- <-]%lookup_singleton_Some.
  - unfold demo1, append_to, append_result. by destruct (Append _ _ _ _) as [[s d] r].
  - apply (crashed_refl demo1 [demo_a1]); [apply demo1_refines|vm_compute; reflexivity].
Defined.

Lemma recovery_ignores_indexes_witness :
  ∃ s' d', OpenWithOptions demo_opts (with_index demo1.2 1 [x01; x02; x03]) = Ok (s', d') ∧
    store_ok s' d' [demo_a1] ∧ st_activeSegmentID s' = 1.
Proof.
  assert (Ha : st_activeSegmentID demo1.1 = 1) by (vm_compute; reflexivity).
  pose proof (recovery_ignores_indexes demo_opts [demo_a1] 1 no_tail (with_index demo1.2 1 [x01; x02; x03])) as Hrec.
  replace (readable (with_index demo1.2 1 [x01; x02; x03])) with true in Hrec by (vm_compute; reflexivity). apply Hrec.
  - pose proof (store_on_disk _ _ _ (proj1 (proj1 demo1_refines))) as [H1 H2 H3]. rewrite Ha in *. by split.
  - apply (so_ret_ok _ _ _ (proj1 (proj1 demo1_refines))).
  - intros m Hm. vm_compute in Hm. discriminate Hm.
Defined.

Lemma failed_sync_keeps_record_witness :
  match append_result demo0 (demo_req "" "lost") good with
  | Ok (r, false) => ∃ s2 d2 a, Append demo0.1 demo0.2 (demo_req "" "lost") (demo_io false None) = (s2, d2, Err ErrIO) ∧ ap_rec a = r ∧
      ∃ s3 d3, OpenWithOptions demo_opts d2 = Ok (s3, d3) ∧ store_ok s3 d3 ([] ++ [a])
  | _ => False
  end.
Proof.
  assert (Hok : ∃ r, append_result demo0 (demo_req "" "lost") good = Ok (r, false)) by (eexists; vm_compute; reflexivity).
  destruct Hok as [r Hok]. rewrite Hok.
  destruct (failed_sync_keeps_record demo0.1 demo0.2 [] (demo_req "" "lost") (demo_io false None)
    (append_to demo0 (demo_req "" "lost") good).1 (append_to demo0 (demo_req "" "lost") good).2 r) as (s2 & d2 & a & Ha & Hr & _ & _ & Hopen).
  - apply demo0_refines.
  - by apply demo0_room.
  - done.
  - intros [Hs|[Hs|[Hs _]]]; vm_compute in Hs; discriminate Hs.
  - revert Hok. unfold append_result, append_to. change (synced_io (demo_io false None)) with good. by destruct (Append _ _ _ _) as [[x y] z]; intros ->.
  - assert (Hd : readable d2 = true) by (replace d2 with (append_to demo0 (demo_req "" "lost") (demo_io false None)).2 by (unfold append_to; by rewrite Ha); vm_compute; reflexivity).
    rewrite Hd in Hopen. by exists s2, d2, a.
Defined.

Lemma read_returns_log_witness :
  Read demo1.1 demo1.2 true "orders" 0 0 = Ok [ap_rec demo_a1].
Proof.
  rewrite (read_returns_log demo1.1 demo1.2 [demo_a1] true "orders" 0 0);
    [vm_compute; reflexivity|apply demo1_refines|done].
Defined.

Lemma raw_read_is_snapshot_witness :
  ReadRawEach 2 (λ _, demo1) true "orders" 0 0 (λ _, true) = Some ([raw_rec (ap_rec demo_a1)], None).
Proof.
  rewrite (raw_read_is_snapshot 2 (λ _, demo1) (λ _, [demo_a1]) true "orders" 0 0 (λ _, true));
    [vm_compute; reflexivity| |done|vm_compute; lia].
  split; [intros _; apply demo1_refines|]. intros _. exists []. split; [done|]. intros a Ha. destruct (not_elem_of_nil a Ha).
Defined.

Definition demo_st : streamState := stream_of demo1.1 "orders".

Lemma trim_moves_mark_witness :
  ∃ s' d', Trim demo1.1 demo1.2 "orders" 9 = (s', d', Ok (streamStatsLocked s' "orders")) ∧
    store_ok s' d' [demo_a1] ∧ new_trim demo_st 9 = 2.
Proof.
  pose proof (trim_moves_mark demo1.1 demo1.2 [demo_a1] "orders" 9 (proj1 (proj1 demo1_refines)) ltac:(done) ltac:(lia)) as Ht.
  assert (Hst : st_streams demo1.1 !! "orders" = Some demo_st) by (vm_compute; reflexivity). rewrite Hst in Ht.
  assert (Hn : (ss_nextSeq demo_st =? 0) = false) by (vm_compute; reflexivity). rewrite Hn in Ht.
  destruct Ht as (s' & d' & Htrim & Hs' & _). exists s', d'.
  split; [exact Htrim|]. split; [exact Hs'|vm_compute; reflexivity].
Defined.

(** ** Where the contract breaks *)

(** One run of [failed_sync_keeps_record] to its end: the next append is of the same size,
    and is acknowledged; reading the stream returns the failed record in its place. *)
Example failed_sync_shadows_next_append :
  let lost := demo_req "" "lost" in
  let kept := demo_req "" "kept" in
  let p := append_to demo0 lost (demo_io false None) in
  let q := append_to p kept good in
  append_result demo0 lost (demo_io false None) = Err ErrIO ∧
  match append_result p kept good, Read q.1 q.2 false "orders" 0 0 with
  | Ok (r, false), Ok [r'] => Payload r = str_bytes "kept" ∧ Seq r = Seq r' ∧ Payload r' = str_bytes "lost"
  | _, _ => False
  end.
Proof. vm_compute. repeat split. Qed.

(** After a short [Write] the torn bytes stay in the middle of the log file:
    the next append is acknowledged and synced, but reading it fails, and the
    next restart truncates the file there and loses it. *)
Example short_write_loses_acknowledged :
  let lost := demo_req "" "lost" in
  let kept := demo_req "" "kept" in
  let p := append_to demo0 lost (demo_io true (Some 10%nat)) in
  let q := append_to p kept good in
  append_result demo0 lost (demo_io true (Some 10%nat)) = Err ErrIO ∧
  match append_result p kept good, OpenWithOptions demo_opts q.2 with
  | Ok (_, false), Ok (s, d) => Read q.1 q.2 false "orders" 0 0 = Err ErrCorruptRecord ∧
      Read s d false "orders" 0 0 = Ok []
  | _, _ => False
  end.
Proof. vm_compute. repeat split. Qed.

(** The process stops between the [Write] and the [Sync] of an append.  The next open restores
    the record without syncing it, the client's retry is answered as a duplicate, without a sync
    either, and a power loss then takes the record, which has been acknowledged under the
    policy that syncs every append. *)
Example acknowledged_duplicate_not_synced :
  let req := demo_req "k1" "one" in
  match OpenWithOptions demo_opts (append_to demo0 req (demo_io false None)).2 with
  | Ok p => match append_result p req good, dk_log (append_to p req good).2 !! 1 with
            | Ok (r, true), Some f => Seq r = 1 ∧ f_data f ≠ [] ∧ f_synced f = 0%nat
            | _, _ => False
            end
  | Err _ => False
  end.
Proof. vm_compute. by split_and!. Qed.

(** Two pairs of a stream and a key can have one idempotency key, since a
    stream name may contain the separator: the second append is answered with
    a record of another stream and is never written. *)
Example idempotency_keys_collide :
  let nul := String Ascii.zero EmptyString in
  let req1 := {| ar_StreamID := "a"; ar_EventType := "E"; ar_IdempotencyKey := ("b" ++ nul ++ "c")%string; ar_Payload := [] |} in
  let req2 := {| ar_StreamID := ("a" ++ nul ++ "b")%string; ar_EventType := "E"; ar_IdempotencyKey := "c"; ar_Payload := [] |} in
  match append_result (append_to demo0 req1 good) req2 good with
  | Ok (r, true) => StreamID r = "a" ∧ ar_StreamID req2 ≠ "a"
  | _ => False
  end.
Proof. vm_compute. by split. Qed.

Close Scope Z_scope.
