(* ===== verification/CompactionTheorems.v ===== *)
(** The properties of log compaction, with their witnesses on a store of small segments,
    and runs in which an interrupted or concurrent copy loses live records, makes the next
    open fail, or fails a read. *)
From S2P Require Import Prelude Bytes Checksum LogRecord RecordCodec SegmentIndex LogStore LogSafety LogRead LogRecovery Compaction CompactionPlan CompactionDisk CompactionRun CompactionSafe CompactionSpec LogTheorems.

Open Scope Z_scope.

Section Theorems.
Context `{ChecksumLib, IndexJSON}.

(** Reads do not see a compaction. *)
Lemma compacted_reads s d h s' d' h' mmapOk id from limit :
  store_ok s d h → store_ok s' d' h' → compacted (trim_of s) h h' → trim_of s' id = trim_of s id → id ≠ EmptyString →
  Read s' d' mmapOk id from limit = Read s d mmapOk id from limit.
Proof.
  intros Hs Hs' Hc Ht Hid. rewrite (Read_log s' d' h'), (Read_log s d h), Ht by done. rewrite !fmap_take.
  by rewrite (compacted_from_seq (trim_of s) h h') by (done || lia).
Qed.

(** C6: a compaction that returns leaves a store that holds the same log without some
    records below their trim marks; every stream's counter and mark, and every read of
    every stream, are as before; and it does return, unless an operation fails, the
    context is canceled or the machine stops. *)
Theorem compaction_keeps_log env s d h opts opts' :
  store_ok s d h → no_tmps d → 2 * st_activeSegmentID s + 1 < 2 ^ 64 → normalize_compaction opts = Ok opts' →
  let (st, o) := compaction env s d opts in
  match o with
  | Done _ =>
      (∃ h', compacted (trim_of s) h h' ∧ store_ok (cs_store st) (cs_disk st) h') ∧
      (∀ id, ss_nextSeq <$> st_streams (cs_store st) !! id = ss_nextSeq <$> st_streams s !! id ∧
             ss_trimBefore <$> st_streams (cs_store st) !! id = ss_trimBefore <$> st_streams s !! id) ∧
      (∀ mmapOk id from limit, id ≠ EmptyString →
         Read (cs_store st) (cs_disk st) mmapOk id from limit = Read s d mmapOk id from limit)
  | Failed _ | Crashed => faulty env
  end.
Proof.
  intros Hs Htmp Hroom Hopts. pose proof (compact_cases env s d h opts opts' Hs Htmp Hroom Hopts) as Hc.
  destruct (compaction env s d opts) as [st [r|e|]]; [|by destruct Hc..]. destruct Hc as (h' & [Hlog Hs' _ [Htr Hnx _ _] _ _ _ _]).
  split; [by exists h'|]. split; [done|]. intros mmapOk id from limit Hid. eapply (compacted_reads _ _ h _ _ h'); try done. by apply trim_of_eq.
Qed.

(** C7: wherever a compaction of a synced store stops, at a failed operation, a canceled
    context or a crash, and the machine with it, keeping its directories and what was
    synced: if the compaction manifest and the retention snapshot, which are never synced,
    still hold their contents, opening the store on what is left succeeds and finds the log
    without some records below their trim marks, every read is as before, and, when no
    segment was to be copied or the compaction had returned, nothing is left to do.  If one
    of them was lost, the open is refused. *)
Theorem interrupted_compaction_recovers env s d h opts opts' st o d1 :
  store_ok s d h → no_tmps d → all_synced d → 2 * st_activeSegmentID s + 1 < 2 ^ 64 → normalize_compaction opts = Ok opts' →
  compaction env s d opts = (st, o) → crashed (cs_disk st) d1 →
  if readable d1 then
    ∃ s2 d2 h2, OpenWithOptions (st_options s) d1 = Ok (s2, d2) ∧ compacted (trim_of s) h h2 ∧ store_ok s2 (forget d2) h2 ∧
      (∀ id, trim_of s2 id = trim_of s id) ∧
      (∀ mmapOk id from limit, id ≠ EmptyString → Read s2 d2 mmapOk id from limit = Read s d mmapOk id from limit) ∧
      (co_CopyPartialSegments opts' = false ∨ (∃ r, o = Done r) → store_ok s2 d2 h2)
  else ∃ e, OpenWithOptions (st_options s) d1 = Err e.
Proof.
  intros Hs Htmp Hall Hroom Hopts Hrun Hcr. destruct (readable d1) eqn:Hread; [|by apply unreadable_refuses].
  pose proof (compact_cases env s d h opts opts' Hs Htmp Hroom Hopts) as Hc. rewrite Hrun in Hc.
  assert (Hfin : ∀ s2 d2 h2, compacted (trim_of s) h h2 → store_ok s2 (forget d2) h2 → dk_retention d2 = dk_retention d →
    (∀ id, trim_of s2 id = trim_of s id) ∧
    (∀ mmapOk id from limit, id ≠ EmptyString → Read s2 d2 mmapOk id from limit = Read s d mmapOk id from limit)).
  { intros s2 d2 h2 Hcomp Hs2 Hret. assert (Ht : ∀ id, trim_of s2 id = trim_of s id).
    { intros id. rewrite (trim_marks _ _ _ id Hs2), (trim_marks _ _ _ id Hs). unfold marks. cbn. by rewrite Hret. }
    split; [done|]. intros mmapOk id from limit Hid. by apply (compacted_reads s d h s2 (forget d2) h2). }
  assert (Hsl : synced_log d h (st_activeSegmentID s)) by (eapply all_synced_log; [done|apply (so_logs _ _ _ Hs)]).
  assert (Hstop : interrupted s d h opts' (cs_disk st) → ∃ s2 d2 h2, OpenWithOptions (st_options s) d1 = Ok (s2, d2) ∧ compacted (trim_of s) h h2 ∧
    store_ok s2 (forget d2) h2 ∧ dk_retention d2 = dk_retention d ∧ (co_CopyPartialSegments opts' = false → store_ok s2 d2 h2)).
  { intros Hi. destruct (interrupted_opens s d h (cs_disk st) d1 (st_options s) opts' Hs Htmp) as (h1 & h2 & s2 & d2 & Hpre & Hkeep & Hcomp & Ho & Hs2 & _ & Hr & Hset & _); try done.
    - by intros id f Hf _; apply (Hall id).
    - by apply durable_nil.
    - assert (h1 = h) as ->; [|by exists s2, d2, h2]. apply (anti_symm prefix); [done|]. by apply Hkeep. }
  destruct o as [r|e|].
  - destruct Hc as (h3 & [Hlog Hs3 _ [_ _ Hopt Hret] _ _ Hsy _]). specialize (Hsy Hall).
    assert (Hsl3 : synced_log (cs_disk st) h3 (st_activeSegmentID (cs_store st))) by (eapply all_synced_log; [done|apply (so_logs _ _ _ Hs3)]).
    destruct (crash_open (st_options s) h3 _ no_tail (cs_disk st) d1 (store_on_disk _ _ _ Hs3) ltac:(done)) as (h' & s2 & d2 & Ho & [Hs2 _] & Hpre & _ & Hr & Hkeep).
    + by intros id f Hf _; apply (Hsy id).
    + by apply durable_nil.
    + apply (so_settled _ _ _ Hs3).
    + apply (so_ret_ok _ _ _ Hs3).
    + done.
    + done.
    + assert (h' = h3) as -> by (apply (anti_symm prefix); [done|]; by apply Hkeep).
      exists s2, d2, h3. assert (Hs2' : store_ok s2 (forget d2) h3) by by apply store_forget.
      destruct (Hfin s2 d2 h3 Hlog Hs2') as [Ht Hrd]; [congruence|]. by split_and!.
  - destruct (Hstop (proj1 Hc)) as (s2 & d2 & h2 & Ho & Hcomp & Hs2 & Hr & Hset). destruct (Hfin s2 d2 h2 Hcomp Hs2 Hr) as [Ht Hrd].
    exists s2, d2, h2. split_and!; try done. intros [?|[? ?]]; [auto|done].
  - destruct (Hstop (proj1 Hc)) as (s2 & d2 & h2 & Ho & Hcomp & Hs2 & Hr & Hset). destruct (Hfin s2 d2 h2 Hcomp Hs2 Hr) as [Ht Hrd].
    exists s2, d2, h2. split_and!; try done. intros [?|[? ?]]; [auto|done].
Qed.

(** The compactability report lists each segment with records once, in order, with
    the bytes and records of its whole content, of what is below the trim marks and of
    the rest, none of them wrapped, and says rightly which segments nothing live is in. *)
Theorem compactability_stats_exact s d h : store_ok s d h →
  let stats := compactabilityStatsLocked s in
  StronglySorted Z.lt (map sg_SegmentID stats) ∧
  (∀ id, id ∈ map sg_SegmentID stats ↔ in_seg id h ≠ []) ∧
  Forall (λ stat,
    sg_counters stat = log_counters (trim_of s) (in_seg (sg_SegmentID stat) h) ∧
    sg_Active stat = (sg_SegmentID stat =? st_activeSegmentID s) ∧
    (sg_FullyCompactable stat = true ↔ Forall (trimmed (trim_of s)) (in_seg (sg_SegmentID stat) h))) stats.
Proof. intros Hs. apply (compaction_stats_exact s h (st_activeSegmentID s)); [apply (so_streams _ _ _ Hs)|apply (so_history _ _ _ Hs)]. Qed.
End Theorems.

(** ** Witnesses *)

#[local] Instance small_lib : ChecksumLib := castagnoli_lib.
#[local] Instance small_json : IndexJSON := λ _, ([], false).

(** Two records fill a segment. *)
Definition small_opts : Options :=
  {| op_SegmentSizeBytes := 200; op_FsyncPolicy := FsyncAlways; op_FsyncInterval := 100 * 1000000;
     op_SegmentReaderCacheSize := 64; op_CompactionInterval := 0; op_CompactionCopyLiveRatioThreshold := defaultCompactionCopyLiveRatio;
     op_CompactionMaxBytesPerSecond := 16 * 2 ^ 20; op_ChecksumType := ChecksumTypeCRC32C; op_MmapRead := false |}.
Definition open_small (d : Disk) : Store * Disk :=
  match OpenWithOptions small_opts d with Ok p => p | Err _ => (fresh_store small_opts, empty_disk) end.
Definition filler : bytes := replicate 60 x41.
Definition put_req (stream : string) (payload : bytes) : AppendRequest :=
  {| ar_StreamID := stream; ar_EventType := "E"; ar_IdempotencyKey := ""; ar_Payload := payload |}.
Definition put (stream : string) (payload : bytes) (p : Store * Disk) : Store * Disk := append_to p (put_req stream payload) good.
Definition trim_to (stream : string) (beforeSeq : Z) (p : Store * Disk) : Store * Disk :=
  let '(s, d, _) := Trim p.1 p.2 stream beforeSeq in (s, d).

(** Segment 1 holds a trimmed record of stream [a] and a live one of [b], segment 2 a live
    one of [a]. *)
Definition small1 : Store * Disk := put "a" filler (put "b" (str_bytes "live") (put "a" filler (open_small empty_disk))).
Definition small2 : Store * Disk := trim_to "a" 2 small1.

Definition env_of (fates : nat → fate) (canceled : nat → bool) : CEnv :=
  {| ce_fate := fates; ce_canceled := canceled; ce_nanos := λ _, 1700000000000000000; ce_reader := λ _, None; ce_pooled := λ _, [] |}.
Definition fine : CEnv := env_of (λ _, Works) (λ _, false).
(** A context canceled while the copy is made, and a crash between the two renames that end it. *)
Definition canceled : CEnv := env_of (λ _, Works) (Nat.leb 3).
Definition crashing : CEnv := env_of (λ n, if Nat.eqb n 18 then Crashes 0 else Works) (λ _, false).
Definition compacted_by (env : CEnv) (p : Store * Disk) : Store * Disk :=
  let (st, _) := compaction env p.1 p.2 DefaultCompactionOptions in (cs_store st, cs_disk st).
Definition read_seqs (p : Store * Disk) (stream : string) : result log_error (list Z) :=
  match Read p.1 p.2 false stream 0 0 with Ok l => Ok (map Seq l) | Err e => Err e end.
Definition log_sizes (p : Store * Disk) : list (Z * nat) := (λ '(id, f), (id, length (f_data f))) <$> map_to_list (dk_log p.2).

Lemma small_put p h stream payload : refines p h → stream ≠ EmptyString → st_options p.1 = small_opts →
  st_activeSegmentID p.1 + 1 < 2 ^ 64 → ss_nextSeq (stream_of p.1 stream) + 1 < 2 ^ 64 → st_activeSegmentBytes p.1 + 2 ^ 32 < 2 ^ 37 →
  ∃ h', refines (put stream payload p) h'.
Proof.
  intros [Hr Htmp] Hs Ho H1 H2 H3. unfold put, append_to. destruct (Append p.1 p.2 (put_req stream payload) good) as [[s' d'] res] eqn:Happ.
  assert (Hroom : room p.1 (put_req stream payload) good) by (split; [exact H1|exact H2|exact H3|done|rewrite Ho; split; [by left|done]]).
  destruct (append_sound p.1 p.2 h _ good s' d' res ltac:(by destruct p) Hroom eq_refl ltac:(by left) Happ) as (h' & Hr' & _).
  exists h'. split; [done|]. eapply no_tmps_eq; [by eapply append_tmps|done].
Qed.
Lemma small1_refines : ∃ h, refines small1 h.
Proof.
  assert (H0 : refines (open_small empty_disk) []).
  { destruct (open_fresh small_opts empty_disk) as (s & d & Ho & _); [done|done|by intros m id t|done|].
    unfold open_small. rewrite Ho. by apply (fresh_refines small_opts empty_disk); [..|by intros m id t|]. }
  destruct (small_put _ _ "a" filler H0) as [h1 H1]; [done|vm_compute; done..|].
  destruct (small_put _ _ "b" (str_bytes "live") H1) as [h2 H2]; [done|vm_compute; done..|].
  apply (small_put _ _ "a" filler H2); [done|vm_compute; done..].
Qed.
Lemma small2_refines : ∃ h, refines small2 h.
Proof.
  destruct small1_refines as [h [Hr Htmp]]. exists h. unfold small2, trim_to. destruct (Trim small1.1 small1.2 "a" 2) as [[s d] r] eqn:Ht.
  split; [apply (trim_sound small1.1 small1.2 h "a" 2 s d r); [by destruct small1|lia|done]|]. eapply no_tmps_eq; [by eapply trim_tmps|done].
Qed.
Lemma synced_check d : bool_decide (map_Forall (λ _ f, f_synced f = length (f_data f)) (dk_log d)) = true → all_synced d.
Proof. by intros Hd%bool_decide_eq_true id f Hf; apply (Hd id). Qed.
Lemma small2_synced : all_synced small2.2.
Proof. apply synced_check. vm_compute. reflexivity. Qed.

Lemma compaction_keeps_log_witness :
  match (compaction fine small2.1 small2.2 DefaultCompactionOptions).2 with Done _ => True | _ => False end ∧
  Read (compacted_by fine small2).1 (compacted_by fine small2).2 false "b" 0 0 = Read small2.1 small2.2 false "b" 0 0 ∧
  log_sizes small2 = [(2, 102%nat); (1, 148%nat)] ∧ log_sizes (compacted_by fine small2) = [(3, 46%nat); (4, 0%nat); (2, 102%nat)].
Proof.
  assert (Hdone : match (compaction fine small2.1 small2.2 DefaultCompactionOptions).2 with Done _ => True | _ => False end) by (vm_compute; exact I).
  split; [exact Hdone|]. split; [|split; vm_compute; reflexivity]. destruct small2_refines as [h [(Hs & _ & _) Htmp]].
  pose proof (compaction_keeps_log fine small2.1 small2.2 h DefaultCompactionOptions DefaultCompactionOptions Hs Htmp
    ltac:(vm_compute; reflexivity) ltac:(vm_compute; reflexivity)) as Hc. unfold compacted_by.
  destruct (compaction fine small2.1 small2.2 DefaultCompactionOptions) as [st [r|e|]]; [|destruct Hdone..].
  destruct Hc as (_ & _ & Hread). apply Hread. discriminate.
Defined.

Lemma crashed_self d : all_synced d → map_Forall (λ _ f, f_synced f = length (f_data f)) (dk_logTmp d) → crashed d d.
Proof.
  intros Hl Ht. split; try done; intros id.
  - specialize (Hl id). destruct (dk_log d !! id) as [f|]; [|done]. specialize (Hl f eq_refl). exists (length (f_data f)).
    rewrite take_ge, Hl by done. split_and!; [done|done|lia|done].
  - specialize (Ht id). destruct (dk_logTmp d !! id) as [f|]; [|done]. specialize (Ht f eq_refl). cbn in Ht. exists (length (f_data f)).
    rewrite take_ge, Ht by done. split_and!; [done|done|lia|done].
Qed.
Lemma interrupted_compaction_recovers_witness :
  (compaction crashing small2.1 small2.2 DefaultCompactionOptions).2 = Crashed ∧
  dom (dk_indexTmp (compacted_by crashing small2).2) = {[3]} ∧
  ∃ s2 d2 h2, OpenWithOptions small_opts (compacted_by crashing small2).2 = Ok (s2, d2) ∧ store_ok s2 (forget d2) h2 ∧
    Read s2 d2 false "b" 0 0 = Read small2.1 small2.2 false "b" 0 0 ∧ log_sizes (s2, d2) = [(3, 46%nat); (2, 102%nat)].
Proof.
  split; [vm_compute; reflexivity|]. split; [vm_compute; reflexivity|]. destruct small2_refines as [h [(Hs & _ & _) Htmp]].
  assert (Hrun : compaction crashing small2.1 small2.2 DefaultCompactionOptions =
    ((compaction crashing small2.1 small2.2 DefaultCompactionOptions).1, (compaction crashing small2.1 small2.2 DefaultCompactionOptions).2))
    by apply surjective_pairing.
  assert (Hdisk : cs_disk (compaction crashing small2.1 small2.2 DefaultCompactionOptions).1 = (compacted_by crashing small2).2).
  { unfold compacted_by. by rewrite Hrun. }
  assert (Hcr : crashed (compacted_by crashing small2).2 (compacted_by crashing small2).2).
  { apply crashed_self; [apply synced_check; vm_compute; reflexivity|]. eapply bool_decide_eq_true. vm_compute. reflexivity. }
  rewrite <- Hdisk in Hcr at 1.
  pose proof (interrupted_compaction_recovers crashing small2.1 small2.2 h DefaultCompactionOptions DefaultCompactionOptions _ _ _ Hs Htmp small2_synced
    ltac:(vm_compute; reflexivity) ltac:(vm_compute; reflexivity) Hrun Hcr) as Hrec.
  replace (readable (compacted_by crashing small2).2) with true in Hrec by (vm_compute; reflexivity).
  destruct Hrec as (s2 & d2 & h2 & Ho & _ & Hs2 & _ & Hread & _).
  exists s2, d2, h2. split; [exact Ho|]. split; [exact Hs2|]. split; [apply Hread; discriminate|].
  assert (Hsz : match OpenWithOptions small_opts (compacted_by crashing small2).2 with Ok p => log_sizes p | Err _ => [] end = [(3, 46%nat); (2, 102%nat)])
    by (vm_compute; reflexivity).
  change (st_options small2.1) with small_opts in Ho. rewrite Ho in Hsz. exact Hsz.
Defined.

Lemma compactability_stats_exact_witness :
  map (λ stat, (sg_SegmentID stat, ct_TotalBytes (sg_counters stat), ct_LiveBytes (sg_counters stat))) (compactabilityStatsLocked small2.1)
    = [(1, 148, 46); (2, 102, 102)] ∧
  StronglySorted Z.lt (map sg_SegmentID (compactabilityStatsLocked small2.1)).
Proof.
  split; [vm_compute; reflexivity|]. destruct small2_refines as [h [(Hs & _ & _) _]].
  apply (proj1 (compactability_stats_exact small2.1 small2.2 h Hs)).
Defined.

(** ** Where live records are lost *)

(** One run: a compaction whose context is canceled while it copies a segment returns an
    error and leaves its manifest.  The store goes on, and when its active segment gets the
    number that was planned for the copy, the next open takes that segment for the finished
    copy and deletes the old one: records that are live, acknowledged and synced are gone. *)
Example canceled_copy_loses_live_records :
  let p := compacted_by canceled small2 in
  let q := put "a" filler (put "a" filler (put "a" filler p)) in
  match (compaction canceled small2.1 small2.2 DefaultCompactionOptions).2, OpenWithOptions small_opts q.2 with
  | Failed e, Ok r => e = ErrCanceled ∧ read_seqs p "b" = Ok [1] ∧ read_seqs q "b" = Ok [1] ∧ read_seqs r "b" = Ok []
  | _, _ => False
  end.
Proof. vm_compute. repeat split. Qed.

(** [rewriteIndex] begins by removing all index files, which can be rebuilt; but once a
    copy has been made, a store without them cannot be opened any more. *)
Example lost_index_blocks_open :
  let without_index (d : Disk) := with_files d (dk_log d) ∅ in
  match OpenWithOptions small_opts (without_index small2.2) with Ok p => read_seqs p "b" = Ok [1] | Err _ => False end ∧
  OpenWithOptions small_opts (without_index (compacted_by fine small2).2) = Err (ErrIncompleteCompaction 3 1).
Proof. split; vm_compute; reflexivity. Qed.

(** [ReadEach] opens segments after it has released the lock: entries it selected before a
    copy lead to the removed segment. *)
Example read_across_copy_fails :
  let q := compacted_by fine small2 in
  emit_entries (read_entry q.1 q.2 false "b") (λ _, true) (select_entries small2.1 "b" 1 100) = ([], Some ErrNoSegment) ∧
  read_seqs q "b" = Ok [1].
Proof. split; vm_compute; reflexivity. Qed.

Close Scope Z_scope.
