(* ===== verification/TaskHeap.v ===== *)
(** The indexed deadline heap of the sharded task store
    ([taskDeadlineQueueV2] in internal/metadata/memory_v2.go): Go's
    [container/heap] algorithms over a slice with a position map.

    Theorems: every operation keeps the heap order and the position map exact,
    and has the effect of the corresponding operation on the set of entries; so
    a pop returns a least entry. *)
From S2P Require Import Prelude.

Open Scope nat_scope.

(** ** State *)

(** [taskDeadlineV2] *)
Record taskDeadline := { td_taskID : string; td_updatedAtMs : Z; td_leaseEpoch : Z }.
#[export] Instance taskDeadline_eq_dec : EqDecision taskDeadline.
Proof. solve_decision. Defined.

(** [taskDeadlineQueueV2] *)
Record taskDeadlineQueue := { dq_entries : list taskDeadline; dq_positions : gmap string nat }.
Definition empty_queue : taskDeadlineQueue := {| dq_entries := []; dq_positions := ∅ |}.

(** Go's [<] on strings. *)
Definition str_less (a b : string) : bool := negb (bool_decide (String.le b a)).

(** [Less], on two entries. *)
Definition less (a b : taskDeadline) : bool :=
  if (td_updatedAtMs a =? td_updatedAtMs b)%Z then
    if bool_decide (td_taskID a = td_taskID b) then (td_leaseEpoch a <? td_leaseEpoch b)%Z
    else str_less (td_taskID a) (td_taskID b)
  else (td_updatedAtMs a <? td_updatedAtMs b)%Z.
Definition Less (h : taskDeadlineQueue) (i j : nat) : bool :=
  match dq_entries h !! i, dq_entries h !! j with Some a, Some b => less a b | _, _ => false end.

(** [Swap]; an index out of range would panic, and none is. *)
Definition Swap (h : taskDeadlineQueue) (i j : nat) : taskDeadlineQueue :=
  match dq_entries h !! i, dq_entries h !! j with
  | Some a, Some b =>
      {| dq_entries := <[j := a]> (<[i := b]> (dq_entries h));
         dq_positions := <[td_taskID a := j]> (<[td_taskID b := i]> (dq_positions h)) |}
  | _, _ => h
  end.

(** [Push] and [Pop] of [heap.Interface]. *)
Definition push_last (h : taskDeadlineQueue) (e : taskDeadline) : taskDeadlineQueue :=
  {| dq_entries := dq_entries h ++ [e];
     dq_positions := <[td_taskID e := length (dq_entries h)]> (dq_positions h) |}.
Definition pop_last (h : taskDeadlineQueue) : taskDeadlineQueue * option taskDeadline :=
  match last (dq_entries h) with
  | None => (h, None)
  | Some e => ({| dq_entries := take (length (dq_entries h) - 1) (dq_entries h);
                  dq_positions := delete (td_taskID e) (dq_positions h) |}, Some e)
  end.

(** ** [container/heap] *)

(** [heap.up]; every round halves [j]. *)
Fixpoint up (fuel : nat) (h : taskDeadlineQueue) (j : nat) : taskDeadlineQueue :=
  match fuel with
  | O => h
  | S fuel =>
      let i := (j - 1) / 2 in
      if bool_decide (i = j) || negb (Less h j i) then h else up fuel (Swap h i j) i
  end.

(** [heap.down]: the heap and whether the element moved. *)
Fixpoint down_loop (fuel : nat) (h : taskDeadlineQueue) (i n : nat) : taskDeadlineQueue * nat :=
  match fuel with
  | O => (h, i)
  | S fuel =>
      let j1 := 2 * i + 1 in
      if bool_decide (n <= j1) then (h, i)
      else
        let j := if bool_decide (j1 + 1 < n) && Less h (j1 + 1) j1 then j1 + 1 else j1 in
        if negb (Less h j i) then (h, i) else down_loop fuel (Swap h i j) j n
  end.
Definition down (h : taskDeadlineQueue) (i0 n : nat) : taskDeadlineQueue * bool :=
  let (h, i) := down_loop n h i0 n in (h, bool_decide (i0 < i)).

Definition heap_up (h : taskDeadlineQueue) (j : nat) : taskDeadlineQueue := up (S j) h j.
Definition heap_fix (h : taskDeadlineQueue) (i : nat) : taskDeadlineQueue :=
  match down h i (length (dq_entries h)) with (h, true) => h | (h, false) => heap_up h i end.
Definition heap_push (h : taskDeadlineQueue) (e : taskDeadline) : taskDeadlineQueue :=
  let h := push_last h e in heap_up h (length (dq_entries h) - 1).
Definition heap_pop (h : taskDeadlineQueue) : taskDeadlineQueue * option taskDeadline :=
  let n := length (dq_entries h) - 1 in
  let h := Swap h 0 n in
  let (h, _) := down h 0 n in
  pop_last h.
Definition heap_remove (h : taskDeadlineQueue) (i : nat) : taskDeadlineQueue * option taskDeadline :=
  let n := length (dq_entries h) - 1 in
  let h := if bool_decide (n = i) then h
           else let h := Swap h i n in
                match down h i n with (h, true) => h | (h, false) => heap_up h i end in
  pop_last h.

(** ** [taskDeadlineQueueV2]'s methods *)

Definition upsert (h : taskDeadlineQueue) (deadline : taskDeadline) : taskDeadlineQueue :=
  match dq_positions h !! td_taskID deadline with
  | Some idx => heap_fix {| dq_entries := <[idx := deadline]> (dq_entries h); dq_positions := dq_positions h |} idx
  | None => heap_push h deadline
  end.
Definition remove (h : taskDeadlineQueue) (taskID : string) : taskDeadlineQueue :=
  match dq_positions h !! taskID with Some idx => (heap_remove h idx).1 | None => h end.

(** [popRunningBefore] *)
Definition popRunningBefore (h : taskDeadlineQueue) (cutoffMs : Z) : taskDeadlineQueue * option taskDeadline :=
  match dq_entries h with
  | [] => (h, None)
  | e :: _ => if (cutoffMs <? td_updatedAtMs e)%Z then (h, None) else heap_pop h
  end.

(** ** The order *)

(** [a] is not after [b]. *)
Definition le (a b : taskDeadline) : Prop := less b a = false.

Lemma str_less_spec a b : str_less a b = true ↔ String.le a b ∧ a ≠ b.
Proof.
  unfold str_less. rewrite negb_true_iff, bool_decide_eq_false. split.
  - intros Hn. destruct (total String.le a b); [|done]. split; [done|]. by intros ->.
  - intros [Hab Hne] Hba. apply Hne. by apply (anti_symm String.le).
Qed.

Lemma less_spec a b :
  less a b = true ↔
  (td_updatedAtMs a < td_updatedAtMs b)%Z ∨
  (td_updatedAtMs a = td_updatedAtMs b ∧
   ((String.le (td_taskID a) (td_taskID b) ∧ td_taskID a ≠ td_taskID b) ∨
    (td_taskID a = td_taskID b ∧ (td_leaseEpoch a < td_leaseEpoch b)%Z))).
Proof.
  unfold less. destruct (Z.eqb_spec (td_updatedAtMs a) (td_updatedAtMs b)) as [Hu|Hu].
  - case_bool_decide as Hid.
    + rewrite Z.ltb_lt. split; [tauto|]. intros [?|[_ [[_ ?]|[_ ?]]]]; [lia|done|done].
    + rewrite str_less_spec. split; [tauto|]. intros [?|[_ [?|[? _]]]]; [lia|done|done].
  - rewrite Z.ltb_lt. split; [by left|]. intros [?|[? _]]; [done|lia].
Qed.

Lemma less_irrefl a : less a a = false.
Proof. apply not_true_iff_false. rewrite less_spec. intros [?|[_ [[_ ?]|[_ ?]]]]; [lia|done|lia]. Qed.

Lemma less_trans a b c : less a b = true → less b c = true → less a c = true.
Proof.
  rewrite !less_spec. intros [H1|[H1 [[H1a H1b]|[H1a H1b]]]] [H2|[H2 [[H2a H2b]|[H2a H2b]]]];
    try (left; lia); right; (split; [lia|]).
  - left. split; [by etrans|]. intros Heq. rewrite Heq in *. apply H1b. by apply (anti_symm String.le).
  - left. by rewrite <- H2a.
  - left. by rewrite H1a.
  - right. split; [congruence|lia].
Qed.

Lemma less_total a b : less a b = false → less b a = false → a = b.
Proof.
  intros Hab Hba. apply not_true_iff_false in Hab, Hba. rewrite less_spec in Hab, Hba.
  assert (Hu : td_updatedAtMs a = td_updatedAtMs b) by lia.
  assert (Hid : td_taskID a = td_taskID b).
  { destruct (decide (td_taskID a = td_taskID b)); [done|]. exfalso.
    destruct (total String.le (td_taskID a) (td_taskID b)); [apply Hab|apply Hba]; right; split; auto. }
  assert (He : td_leaseEpoch a = td_leaseEpoch b).
  { destruct (Z.lt_trichotomy (td_leaseEpoch a) (td_leaseEpoch b)) as [?|[?|?]]; [|done|]; exfalso;
      [apply Hab|apply Hba]; right; split; auto. }
  destruct a, b. simpl in *. by subst.
Qed.

Lemma le_refl a : le a a.
Proof. apply less_irrefl. Qed.
Lemma less_le a b : less a b = true → le a b.
Proof.
  intros Hab. apply not_true_iff_false. intros Hba. pose proof (less_trans _ _ _ Hab Hba) as H.
  by rewrite less_irrefl in H.
Qed.
Lemma le_trans a b c : le a b → le b c → le a c.
Proof.
  unfold le. intros Hba Hcb. apply not_true_iff_false. intros Hca.
  destruct (less a b) eqn:Hab.
  - pose proof (less_trans _ _ _ Hca Hab) as H. by rewrite Hcb in H.
  - pose proof (less_total _ _ Hab Hba) as ->. by rewrite Hcb in Hca.
Qed.

(** ** The heap order *)

Definition par (j : nat) : nat := (j - 1) / 2.
(** The entry at [i] is not after the one at [j]. *)
Definition ordered (h : taskDeadlineQueue) (i j : nat) : Prop :=
  ∀ a b, dq_entries h !! i = Some a → dq_entries h !! j = Some b → le a b.
(** The first [n] entries are a heap. *)
Definition heap_upto (n : nat) (h : taskDeadlineQueue) : Prop :=
  ∀ k, 0 < k < n → ordered h (par k) k.
(** The position map is the inverse of the slice. *)
Definition positions_ok (h : taskDeadlineQueue) : Prop :=
  ∀ id i, dq_positions h !! id = Some i ↔ td_taskID <$> dq_entries h !! i = Some id.
Definition queue_ok (h : taskDeadlineQueue) : Prop :=
  positions_ok h ∧ heap_upto (length (dq_entries h)) h.
(** The deadlines the queue holds, by task. *)
Definition deadlines (h : taskDeadlineQueue) : gmap string taskDeadline :=
  list_to_map ((λ e, (td_taskID e, e)) <$> dq_entries h).

Lemma par_lt k : 0 < k → par k < k.
Proof. unfold par. intros. apply Nat.Div0.div_lt_upper_bound. lia. Qed.
Lemma par_children c i : 0 < c → par c = i → c = 2 * i + 1 ∨ c = 2 * i + 2.
Proof.
  unfold par. intros Hc Hp. pose proof (Nat.div_mod_eq (c - 1) 2). pose proof (Nat.mod_upper_bound (c - 1) 2). lia.
Qed.
Lemma par_left i : par (2 * i + 1) = i.
Proof. unfold par. replace (2 * i + 1 - 1) with (i * 2) by lia. by rewrite Nat.div_mul. Qed.
Lemma par_right i : par (2 * i + 1 + 1) = i.
Proof. unfold par. replace (2 * i + 1 + 1 - 1) with (1 + i * 2) by lia. by rewrite Nat.div_add. Qed.

Lemma ordered_trans h i j k : j < length (dq_entries h) → ordered h i j → ordered h j k → ordered h i k.
Proof.
  intros Hj Hij Hjk a b Ha Hb. apply lookup_lt_is_Some in Hj as [c Hc].
  eapply le_trans; [by eapply Hij|by eapply Hjk].
Qed.
Lemma ordered_refl h i : ordered h i i.
Proof. intros a b Ha Hb. simplify_eq. apply le_refl. Qed.
Lemma Less_ordered h i j : Less h i j = true → ordered h i j.
Proof. unfold Less, ordered. intros H a b Ha Hb. rewrite Ha, Hb in H. by apply less_le. Qed.
Lemma not_Less_ordered h i j : Less h i j = false → ordered h j i.
Proof. unfold Less, ordered. intros H a b Ha Hb. by rewrite Ha, Hb in H. Qed.

(** ** Swapping *)

(** The transposition of [i] and [j]. *)
Definition transpose (i j k : nat) : nat := if decide (k = i) then j else if decide (k = j) then i else k.
Ltac transposed := unfold transpose; repeat case_decide; subst; try lia; try done.

Lemma Swap_lookup h i j k : i < length (dq_entries h) → j < length (dq_entries h) →
  dq_entries (Swap h i j) !! k = dq_entries h !! transpose i j k.
Proof.
  intros Hi Hj. pose proof Hi as [a Ha]%lookup_lt_is_Some. pose proof Hj as [b Hb]%lookup_lt_is_Some.
  unfold Swap. rewrite Ha, Hb. cbn [dq_entries]. destruct (decide (k = j)) as [->|Hkj].
  - rewrite list_lookup_insert_eq by (by rewrite length_insert). transposed; congruence.
  - rewrite list_lookup_insert_ne by done. destruct (decide (k = i)) as [->|Hki].
    + rewrite list_lookup_insert_eq by done. transposed.
    + rewrite list_lookup_insert_ne by done. transposed.
Qed.

Lemma Swap_length h i j : length (dq_entries (Swap h i j)) = length (dq_entries h).
Proof.
  unfold Swap. destruct (dq_entries h !! i), (dq_entries h !! j); [|done..].
  cbn [dq_entries]. by rewrite !length_insert.
Qed.

Lemma Swap_ordered h i j k l : i < length (dq_entries h) → j < length (dq_entries h) →
  ordered (Swap h i j) k l ↔ ordered h (transpose i j k) (transpose i j l).
Proof. intros Hi Hj. unfold ordered. by rewrite !Swap_lookup. Qed.

Lemma positions_inj h i j a b : positions_ok h → dq_entries h !! i = Some a → dq_entries h !! j = Some b →
  td_taskID a = td_taskID b → i = j.
Proof.
  intros Hp Ha Hb Hid. assert (Hi : dq_positions h !! td_taskID a = Some i) by (apply Hp; by rewrite Ha).
  assert (Hj : dq_positions h !! td_taskID b = Some j) by (apply Hp; by rewrite Hb). congruence.
Qed.

Lemma Swap_positions h i j : positions_ok h → positions_ok (Swap h i j).
Proof.
  intros Hp. destruct (dq_entries h !! i) as [a|] eqn:Ha; [|by unfold Swap; rewrite Ha].
  destruct (dq_entries h !! j) as [b|] eqn:Hb; [|by unfold Swap; rewrite Ha, Hb].
  intros id k. rewrite Swap_lookup by (by eapply lookup_lt_Some). unfold Swap. rewrite Ha, Hb. cbn [dq_positions].
  assert (Hpa : dq_positions h !! td_taskID a = Some i) by (apply Hp; by rewrite Ha).
  assert (Hpb : dq_positions h !! td_taskID b = Some j) by (apply Hp; by rewrite Hb).
  destruct (decide (id = td_taskID a)) as [->|Hna].
  { rewrite lookup_insert_eq. rewrite <- (Hp (td_taskID a)), Hpa. transposed; naive_solver. }
  rewrite lookup_insert_ne by done. destruct (decide (id = td_taskID b)) as [->|Hnb].
  { rewrite lookup_insert_eq. rewrite <- (Hp (td_taskID b)), Hpb. transposed; naive_solver. }
  rewrite lookup_insert_ne by done. rewrite (Hp id k). unfold transpose.
  repeat case_decide; subst; rewrite ?Ha, ?Hb; naive_solver.
Qed.

(** What every heap algorithm keeps: the entries up to their order. *)
Definition shuffled (h h' : taskDeadlineQueue) : Prop :=
  length (dq_entries h') = length (dq_entries h) ∧ (positions_ok h → positions_ok h') ∧
  ∀ e, e ∈ dq_entries h' ↔ e ∈ dq_entries h.

#[export] Instance shuffled_preorder : PreOrder shuffled.
Proof.
  split; [by intros h; split_and!|]. intros h1 h2 h3 (Hl1 & Hp1 & He1) (Hl2 & Hp2 & He2).
  split_and!; [congruence|eauto|]. intros e. by rewrite He2.
Qed.

Lemma Swap_shuffled h i j : shuffled h (Swap h i j).
Proof.
  split_and!; [apply Swap_length|apply Swap_positions|]. intros e.
  destruct (dq_entries h !! i) as [a|] eqn:Ha; [|by unfold Swap; rewrite Ha].
  destruct (dq_entries h !! j) as [b|] eqn:Hb; [|by unfold Swap; rewrite Ha, Hb].
  rewrite !list_elem_of_lookup. split.
  - intros [k Hk]. rewrite Swap_lookup in Hk by (by eapply lookup_lt_Some). eauto.
  - intros [k Hk]. exists (transpose i j k). rewrite Swap_lookup by (by eapply lookup_lt_Some). transposed.
Qed.

(** ** Sifting *)

Section sift.
Context (n : nat).

(** Ordered among the first [n] entries except where [i] is the child. *)
Definition heap_but_up (h : taskDeadlineQueue) (i : nat) : Prop :=
  (∀ k, 0 < k < n → k ≠ i → ordered h (par k) k) ∧
  (∀ c, 0 < i → 0 < c < n → par c = i → ordered h (par i) c).
(** Ordered among the first [n] entries except around [i]. *)
Definition heap_but (h : taskDeadlineQueue) (i : nat) : Prop :=
  (∀ k, 0 < k < n → k ≠ i → par k ≠ i → ordered h (par k) k) ∧
  (∀ c, 0 < i → 0 < c < n → par c = i → ordered h (par i) c).

Lemma up_spec fuel h j :
  j < n → n <= length (dq_entries h) → j < fuel → heap_but_up h j → heap_upto n (up fuel h j).
Proof.
  revert h j. induction fuel as [|fuel IH]; intros h j Hj Hn Hf [Hall Hgp]; [lia|]. cbn [up].
  change ((j - 1) / 2) with (par j).
  case_bool_decide as Hroot; cbn [orb].
  { intros k Hk. apply Hall; [done|]. intros ->. pose proof (par_lt j). lia. }
  assert (Hpos : 0 < j) by (destruct j; [done|lia]). pose proof (par_lt j Hpos) as Hpj.
  destruct (Less h j (par j)) eqn:Hless; cbn [negb].
  - apply Less_ordered in Hless. apply IH; [lia|by rewrite Swap_length|lia|]. split.
    + intros k Hk Hne. rewrite Swap_ordered by lia. pose proof (par_lt k).
      destruct (decide (k = j)) as [->|Hkj]; [by transposed|].
      destruct (decide (par k = par j)) as [Heq|Hpk].
      { rewrite Heq. apply (ordered_trans _ _ (par j)); [lia|by transposed|].
        transposed. rewrite <- Heq. by apply Hall. }
      destruct (decide (par k = j)) as [Heq|Hpkj].
      { rewrite Heq. transposed. by apply Hgp. }
      transposed; by apply Hall.
    + intros c Hi Hc Hpc. pose proof (par_lt (par j) Hi). rewrite Swap_ordered by lia.
      assert (Hup : ordered h (par (par j)) (par j)) by (apply Hall; lia). pose proof (par_lt c).
      destruct (decide (c = j)) as [->|Hcj]; [by transposed|]. transposed.
      apply (ordered_trans _ _ (par j)); [lia|done|]. rewrite <- Hpc. by apply Hall.
  - apply not_Less_ordered in Hless. intros k Hk. destruct (decide (k = j)) as [->|]; [done|by apply Hall].
Qed.

(** The child of [i] the element sinks to. *)
Lemma least_child h i j :
  i < n → n <= length (dq_entries h) → 2 * i + 1 < n →
  j = (if bool_decide (2 * i + 1 + 1 < n) && Less h (2 * i + 1 + 1) (2 * i + 1) then 2 * i + 1 + 1 else 2 * i + 1) →
  0 < j < n ∧ par j = i ∧ ∀ c, 0 < c < n → par c = i → ordered h j c.
Proof.
  intros Hi Hn Hl ->. case_bool_decide as Hr; cbn [andb].
  - destruct (Less h (2 * i + 1 + 1) (2 * i + 1)) eqn:Hless.
    + apply Less_ordered in Hless. split_and!; [lia..|apply par_right|].
      intros c Hc Hpc. apply par_children in Hpc as [->| ->]; [done| |lia].
      replace (2 * i + 2) with (2 * i + 1 + 1) by lia. apply ordered_refl.
    + apply not_Less_ordered in Hless. split_and!; [lia..|apply par_left|].
      intros c Hc Hpc. apply par_children in Hpc as [->| ->]; [apply ordered_refl| |lia].
      by replace (2 * i + 2) with (2 * i + 1 + 1) by lia.
  - split_and!; [lia..|apply par_left|].
    intros c Hc Hpc. apply par_children in Hpc as [->| ->]; [apply ordered_refl|lia..].
Qed.

Lemma down_loop_spec fuel h i h' i' :
  i < n → n <= length (dq_entries h) → n <= fuel + i → heap_but h i → down_loop fuel h i n = (h', i') →
  (i' = i ∧ h' = h ∧ ∀ c, 0 < c < n → par c = i → ordered h i c) ∨ (i < i' ∧ heap_upto n h').
Proof.
  revert h i. induction fuel as [|fuel IH]; intros h i Hi Hn Hf [Hall Hgp] Hd; [lia|]. simpl in Hd.
  case_bool_decide as Hleaf; simplify_eq/=.
  { left. split_and!; [done..|]. intros c Hc Hpc. apply par_children in Hpc; lia. }
  revert Hd. set (j := if bool_decide _ && _ then _ else _). intros Hd.
  destruct (least_child h i j) as (Hj & Hpj & Hmin); [lia|done|lia|reflexivity|]. clearbody j.
  pose proof (par_lt j ltac:(lia)) as Hij. rewrite Hpj in Hij.
  destruct (Less h j i) eqn:Hless; simplify_eq/=.
  - apply Less_ordered in Hless. right.
    assert (Hother : ∀ k, 0 < k < n → par k ≠ j → ordered (Swap h (par j) j) (par k) k).
    { intros k Hk Hpk. rewrite Swap_ordered by lia. pose proof (par_lt k).
      destruct (decide (k = j)) as [->|Hkj]; [by transposed|].
      destruct (decide (par k = par j)) as [Heq|Hpki]; [rewrite Heq; transposed; by apply Hmin|].
      destruct (decide (k = par j)) as [->|Hki]; [transposed; apply Hgp; (done || lia)|].
      transposed; by apply Hall. }
    apply IH in Hd as [(-> & -> & Hch)|[Hlt Hh]]; [|split; [lia|done]|lia|by rewrite Swap_length|lia|].
    + split; [done|]. intros k Hk. destruct (decide (par k = j)) as [Hpk|Hpk]; [|by apply Hother].
      rewrite Hpk. by apply Hch.
    + split; [by intros; apply Hother|]. intros c _ Hc Hpc. pose proof (par_lt c).
      rewrite Swap_ordered by lia. transposed. apply Hall; lia.
  - apply not_Less_ordered in Hless. left. split_and!; [done..|]. intros c Hc Hpc.
    apply (ordered_trans _ _ j); [lia|done|]. by apply Hmin.
Qed.

Lemma up_shuffled fuel h j : shuffled h (up fuel h j).
Proof.
  revert h j. induction fuel as [|fuel IH]; intros h j; simpl; [done|].
  case_match; [done|]. etrans; [apply Swap_shuffled|apply IH].
Qed.
Lemma down_loop_shuffled fuel h i : shuffled h (down_loop fuel h i n).1.
Proof.
  revert h i. induction fuel as [|fuel IH]; intros h i; simpl; [done|].
  case_match; [done|]. case_match; [done|]. etrans; [apply Swap_shuffled|apply IH].
Qed.

(** Sift down, then up when nothing moved: the middle of [heap.Fix] and
    [heap.Remove]. *)
Definition sift (h : taskDeadlineQueue) (i : nat) : taskDeadlineQueue :=
  match down h i n with (h, true) => h | (h, false) => heap_up h i end.

Lemma sift_spec h i :
  i < n → n <= length (dq_entries h) → heap_but h i → shuffled h (sift h i) ∧ heap_upto n (sift h i).
Proof.
  intros Hi Hn Hb. unfold sift, down, heap_up. pose proof (down_loop_shuffled n h i) as Hs.
  destruct (down_loop n h i n) as [h' i'] eqn:Hd. simpl in Hs.
  apply down_loop_spec in Hd as [(-> & -> & Hch)|[Hlt Hh]]; [|by rewrite bool_decide_true by lia|lia|done|lia|done].
  rewrite bool_decide_false by lia. split; [apply up_shuffled|]. apply up_spec; [done..|lia|].
  destruct Hb as [Hall Hgp]. split; [|done]. intros k Hk Hne.
  destruct (decide (par k = i)) as [<-|]; [by apply Hch|by apply Hall].
Qed.
End sift.

(** ** The queue as a map *)

Lemma deadlines_lookup h id e : positions_ok h →
  deadlines h !! id = Some e ↔ e ∈ dq_entries h ∧ td_taskID e = id.
Proof.
  intros Hp. unfold deadlines. rewrite <- elem_of_list_to_map.
  - rewrite list_elem_of_fmap. split.
    + intros (e' & [= -> ->] & He). done.
    + intros [He <-]. by exists e.
  - rewrite <- list_fmap_compose. apply NoDup_alt. intros i j x Hi Hj.
    rewrite list_lookup_fmap, fmap_Some in Hi, Hj. destruct Hi as (a & Ha & ->), Hj as (b & Hb & Hab).
    by eapply positions_inj.
Qed.

Lemma shuffled_deadlines h h' : positions_ok h → shuffled h h' → deadlines h' = deadlines h.
Proof.
  intros Hp (_ & Hp' & He). apply map_eq. intros id. apply option_eq. intros e.
  rewrite !deadlines_lookup by auto. by rewrite He.
Qed.

Lemma positions_lookup h id : positions_ok h → dq_positions h !! id = None ↔ deadlines h !! id = None.
Proof.
  intros Hp. rewrite !eq_None_not_Some. apply not_iff_compat. split.
  - intros [i Hi]. apply Hp, fmap_Some in Hi as (e & He & ->). exists e. apply deadlines_lookup; [done|].
    split; [by eapply list_elem_of_lookup_2|done].
  - intros [e He]. apply deadlines_lookup in He as [[i Hi]%list_elem_of_lookup <-]; [|done].
    exists i. apply Hp. by rewrite Hi.
Qed.

(** The first entry is a least one. *)
Lemma root_least h e : heap_upto (length (dq_entries h)) h → dq_entries h !! 0 = Some e →
  ∀ e', e' ∈ dq_entries h → le e e'.
Proof.
  intros Hh He e' [k Hk]%list_elem_of_lookup. revert e' Hk.
  induction k as [k IH] using lt_wf_ind. intros e' Hk. destruct (decide (k = 0)) as [->|Hk0].
  { rewrite He in Hk. simplify_eq. apply le_refl. }
  pose proof (par_lt k ltac:(lia)). pose proof (lookup_lt_Some _ _ _ Hk).
  destruct (dq_entries h !! par k) as [p|] eqn:Hpk; [|apply lookup_ge_None in Hpk; lia].
  eapply le_trans; [by apply (IH (par k))|]. eapply Hh; [|done..]. lia.
Qed.

(** ** The operations *)

Lemma pop_last_spec h n : positions_ok h → length (dq_entries h) = S n → heap_upto n h →
  ∃ e, pop_last h = (({| dq_entries := take n (dq_entries h); dq_positions := delete (td_taskID e) (dq_positions h) |}), Some e) ∧
    dq_entries h !! n = Some e ∧ queue_ok (pop_last h).1 ∧ deadlines (pop_last h).1 = delete (td_taskID e) (deadlines h).
Proof.
  intros Hp Hl Hh. destruct (lookup_lt_is_Some_2 (dq_entries h) n) as [e He]; [lia|]. exists e.
  unfold pop_last. rewrite last_lookup, Hl. cbn [Init.Nat.pred]. rewrite He.
  replace (S n - 1) with n by lia. cbn [fst]. set (h' := {| dq_entries := _ |}).
  assert (Hlk : ∀ k, k < n → dq_entries h' !! k = dq_entries h !! k) by (intros; by apply lookup_take_lt).
  assert (Hp' : positions_ok h').
  { intros id i. unfold h' at 1. cbn [dq_positions]. destruct (decide (id = td_taskID e)) as [->|Hne].
    - rewrite lookup_delete_eq. split; [done|]. intros (a & Ha & Hid)%fmap_Some.
      apply lookup_take_Some in Ha as [Ha ?]. pose proof (positions_inj h _ _ _ _ Hp Ha He (eq_sym Hid)). lia.
    - rewrite lookup_delete_ne by done. rewrite (Hp id i). destruct (decide (i < n)); [by rewrite Hlk|].
      unfold h'. cbn [dq_entries]. rewrite lookup_take_ge by lia. split; [|done].
      intros (a & Ha & ->)%fmap_Some. pose proof (lookup_lt_Some _ _ _ Ha). assert (i = n) as -> by lia. congruence. }
  assert (Hl' : length (dq_entries h') = n) by (unfold h'; cbn; rewrite length_take; lia).
  split_and!; [done|done|split; [done|]|].
  - rewrite Hl'. intros k Hk a b. rewrite !Hlk by (pose proof (par_lt k); lia). by apply Hh.
  - apply map_eq. intros id. apply option_eq. intros a. rewrite deadlines_lookup by done.
    rewrite lookup_delete_Some, deadlines_lookup by done. rewrite !list_elem_of_lookup. split.
    + intros [[i Hi] <-]. pose proof (lookup_lt_Some _ _ _ Hi). rewrite Hlk in Hi by lia. split_and!; [|eauto|done].
      intros Heq. pose proof (positions_inj h _ _ _ _ Hp Hi He (eq_sym Heq)). lia.
    + intros (Hne & [i Hi] & <-). split; [|done]. exists i. pose proof (lookup_lt_Some _ _ _ Hi).
      rewrite Hlk; [done|]. destruct (decide (i = n)) as [->|]; [congruence|lia].
Qed.

Lemma swap_last_but h i n : length (dq_entries h) = S n → heap_upto (S n) h → i < n → heap_but n (Swap h i n) i.
Proof.
  intros Hl Hh Hi. split.
  - intros k Hk Hki Hpk. rewrite Swap_ordered by lia. pose proof (par_lt k). transposed. apply Hh. lia.
  - intros c Hpos Hc Hpc. rewrite Swap_ordered by lia. pose proof (par_lt c). pose proof (par_lt i). transposed.
    apply (ordered_trans _ _ (par c)); [lia|apply Hh; lia|apply Hh; lia].
Qed.

Lemma replace_but h i d : heap_upto (length (dq_entries h)) h →
  heap_but (length (dq_entries h)) {| dq_entries := <[i := d]> (dq_entries h); dq_positions := dq_positions h |} i.
Proof.
  intros Hh. split.
  - intros k Hk Hki Hpk a b. cbn [dq_entries]. rewrite !list_lookup_insert_ne by done. by apply Hh.
  - intros c Hpos Hc Hpc. pose proof (par_lt c). pose proof (par_lt i Hpos). intros a b. cbn [dq_entries].
    rewrite !list_lookup_insert_ne by lia. apply (ordered_trans _ _ i); [lia|apply Hh; lia|].
    rewrite <- Hpc. by apply Hh.
Qed.

Lemma queue_shuffled h h' : positions_ok h → shuffled h h' → heap_upto (length (dq_entries h)) h' →
  queue_ok h' ∧ deadlines h' = deadlines h.
Proof.
  intros Hp Hs Hh. pose proof Hs as (Hl & Hp' & _). split; [|by apply shuffled_deadlines].
  split; [auto|]. by rewrite Hl.
Qed.

Lemma replace_spec h d idx : queue_ok h → dq_positions h !! td_taskID d = Some idx →
  queue_ok (upsert h d) ∧ deadlines (upsert h d) = <[td_taskID d := d]> (deadlines h).
Proof.
  intros [Hp Hh] Hpos. unfold upsert. rewrite Hpos.
  pose proof Hpos as (old & Hold & Hid)%Hp%fmap_Some. pose proof (lookup_lt_Some _ _ _ Hold) as Hlt.
  set (h1 := {| dq_entries := <[idx := d]> (dq_entries h); dq_positions := dq_positions h |}).
  assert (Hl1 : length (dq_entries h1) = length (dq_entries h)) by (unfold h1; cbn; by rewrite length_insert).
  assert (Hp1 : positions_ok h1).
  { intros id i. unfold h1. cbn [dq_positions dq_entries]. rewrite (Hp id i).
    destruct (decide (i = idx)) as [->|]; [|by rewrite list_lookup_insert_ne].
    rewrite list_lookup_insert_eq, Hold by done. cbn. by rewrite Hid. }
  change (heap_fix h1 idx) with (sift (length (dq_entries h1)) h1 idx).
  destruct (sift_spec (length (dq_entries h1)) h1 idx) as [Hs Hh1]; [lia|lia|rewrite Hl1; by apply replace_but|].
  destruct (queue_shuffled h1 _ Hp1 Hs Hh1) as [Hok ->]. split; [done|].
  apply map_eq. intros id. apply option_eq. intros e. rewrite deadlines_lookup by done.
  rewrite lookup_insert_Some, deadlines_lookup by done. unfold h1. cbn [dq_entries]. split.
  + intros [[i Hi]%list_elem_of_lookup <-]. apply list_lookup_insert_Some in Hi as [(-> & -> & _)|[Hne Hi]]; [by left|].
    right. split; [|split; [by eapply list_elem_of_lookup_2|done]]. intros Heq. apply Hne.
    eapply (positions_inj h); [done..|congruence].
  + intros [[<- <-]|(Hne & [i Hi]%list_elem_of_lookup & <-)]; split; [|done| |done]; apply list_elem_of_lookup.
    * exists idx. by rewrite list_lookup_insert_eq.
    * exists i. rewrite list_lookup_insert_ne; [done|]. congruence.
Qed.

Lemma push_spec h d : queue_ok h → dq_positions h !! td_taskID d = None →
  queue_ok (upsert h d) ∧ deadlines (upsert h d) = <[td_taskID d := d]> (deadlines h).
Proof.
  intros [Hp Hh] Hpos. unfold upsert. rewrite Hpos.
  set (n := length (dq_entries h)). set (h1 := push_last h d).
  assert (Hl1 : length (dq_entries h1) = S n) by (unfold h1, n; cbn; rewrite length_app; cbn; lia).
  assert (Hnone : ∀ i e, dq_entries h !! i = Some e → td_taskID e ≠ td_taskID d).
  { intros i e He Heq. assert (dq_positions h !! td_taskID d = Some i) by (apply Hp; rewrite He; cbn; congruence). congruence. }
  assert (Hlk : ∀ i e, dq_entries h1 !! i = Some e ↔ dq_entries h !! i = Some e ∨ (i = n ∧ e = d)).
  { intros i e. unfold h1. cbn. rewrite lookup_snoc_Some. fold n. split; [naive_solver|].
    intros [He|?]; [left; split; [by eapply lookup_lt_Some|done]|naive_solver]. }
  assert (Hp1 : positions_ok h1).
  { intros id i. rewrite fmap_Some. unfold h1 at 1. cbn [push_last dq_positions]. fold n.
    setoid_rewrite Hlk. rewrite lookup_insert_Some, (Hp id i), fmap_Some. split.
    - intros [[<- <-]|[? (e & ? & ->)]]; eauto.
    - intros (e & [He|[-> ->]] & ->); [right; split; [by eapply not_eq_sym, Hnone|eauto]|by left]. }
  assert (Hh1 : heap_upto (length (dq_entries h1)) (heap_up h1 (length (dq_entries h1) - 1))).
  { apply up_spec; [lia..|]. rewrite Hl1. replace (S n - 1) with n by lia. split.
    - intros k Hk Hne a b Ha Hb. pose proof (par_lt k). apply Hlk in Ha as [Ha|[? _]]; [|lia].
      apply Hlk in Hb as [Hb|[? _]]; [|lia]. eapply Hh; [|done..]. fold n. lia.
    - intros c Hn0 Hc Hpc. pose proof (par_lt c). lia. }
  change (heap_push h d) with (heap_up h1 (length (dq_entries h1) - 1)).
  destruct (queue_shuffled h1 _ Hp1 (up_shuffled _ _ _) Hh1) as [Hok Hd]. split; [done|].
  unfold heap_up in *. rewrite Hd. apply map_eq. intros id. apply option_eq. intros e.
  rewrite deadlines_lookup by done. rewrite lookup_insert_Some, deadlines_lookup by done.
  rewrite !list_elem_of_lookup. setoid_rewrite Hlk. split.
  + intros [[i [Hi|[_ ->]]] <-]; [right|by left]. split; [by eapply not_eq_sym, Hnone|eauto].
  + intros [[<- <-]|(Hne & [i Hi] & <-)]; eauto.
Qed.

Lemma upsert_spec h d : queue_ok h →
  queue_ok (upsert h d) ∧ deadlines (upsert h d) = <[td_taskID d := d]> (deadlines h).
Proof.
  intros Hok. destruct (dq_positions h !! td_taskID d) eqn:Hpos; [by eapply replace_spec|by apply push_spec].
Qed.

Lemma Swap_entry_l h i j : i < length (dq_entries h) → j < length (dq_entries h) →
  dq_entries (Swap h i j) !! j = dq_entries h !! i.
Proof. intros. rewrite Swap_lookup by done. transposed. Qed.

(** Sifting leaves the entry behind the heap alone. *)
Lemma up_last fuel h j n : j < n → n < length (dq_entries h) → dq_entries (up fuel h j) !! n = dq_entries h !! n.
Proof.
  revert h j. induction fuel as [|fuel IH]; intros h j Hj Hn; [done|]. cbn [up]. change ((j - 1) / 2) with (par j).
  case_bool_decide as Hroot; [done|]. cbn [orb]. destruct (negb _); [done|].
  assert (par j < j) by (apply par_lt; destruct j; [done|lia]).
  rewrite IH by (rewrite ?Swap_length; lia). rewrite Swap_lookup by lia. transposed.
Qed.
Lemma down_last fuel h i n : n < length (dq_entries h) →
  dq_entries (down_loop fuel h i n).1 !! n = dq_entries h !! n.
Proof.
  revert h i. induction fuel as [|fuel IH]; intros h i Hn; [done|]. cbn [down_loop].
  case_bool_decide; [done|]. set (j := if bool_decide _ && _ then _ else _).
  assert (i < j < n). { unfold j. case_bool_decide; [destruct (Less _ _ _)|]; cbn [andb]; lia. } clearbody j.
  destruct (negb _); [done|]. rewrite IH by (by rewrite Swap_length). rewrite Swap_lookup by lia. transposed.
Qed.
Lemma sift_last h i n : i < n → n < length (dq_entries h) → dq_entries (sift n h i) !! n = dq_entries h !! n.
Proof.
  intros Hi Hn. unfold sift, down. pose proof (down_last n h i n Hn) as Hd.
  pose proof (down_loop_shuffled n n h i) as (Hl & _ & _). destruct (down_loop n h i n) as [h' i']. simpl in *.
  case_bool_decide; [done|]. unfold heap_up. by rewrite up_last by lia.
Qed.

(** [heap.Remove] takes out the entry at [i], the last one after the swap. *)
Lemma heap_remove_spec h i e : queue_ok h → dq_entries h !! i = Some e →
  (heap_remove h i).2 = Some e ∧ queue_ok (heap_remove h i).1 ∧
  deadlines (heap_remove h i).1 = delete (td_taskID e) (deadlines h).
Proof.
  intros [Hp Hh] He. pose proof (lookup_lt_Some _ _ _ He) as Hi. unfold heap_remove.
  destruct (length (dq_entries h)) as [|n] eqn:Hl; [lia|]. replace (S n - 1) with n by lia.
  case_bool_decide as Hni.
  - subst i. destruct (pop_last_spec h n) as (e' & -> & He' & Hok & Hd); [done..| |].
    { intros k Hk. apply Hh. lia. }
    simplify_eq. done.
  - change (match down (Swap h i n) i n with (h, true) => h | (h, false) => heap_up h i end) with (sift n (Swap h i n) i).
    destruct (sift_spec n (Swap h i n) i) as [Hs Hh']; [lia|rewrite Swap_length; lia|apply swap_last_but; [done..|lia]|].
    assert (Hs2 : shuffled h (sift n (Swap h i n) i)) by (etrans; [apply Swap_shuffled|done]).
    destruct (pop_last_spec (sift n (Swap h i n) i) n) as (e' & -> & He' & Hok & Hd);
      [by apply Hs2|destruct Hs2 as [-> _]; done|done|].
    rewrite sift_last, Swap_entry_l in He' by (rewrite ?Swap_length; lia). simplify_eq.
    rewrite (shuffled_deadlines _ _ Hp Hs2) in Hd. done.
Qed.

Lemma remove_spec h id : queue_ok h → queue_ok (remove h id) ∧ deadlines (remove h id) = delete id (deadlines h).
Proof.
  intros Hok. pose proof Hok as [Hp _]. unfold remove. destruct (dq_positions h !! id) as [i|] eqn:Hpos.
  - apply Hp in Hpos as (e & He & ->)%fmap_Some. by apply heap_remove_spec.
  - split; [done|]. apply positions_lookup in Hpos; [|done]. by rewrite delete_id.
Qed.

Lemma heap_pop_spec h e : queue_ok h → dq_entries h !! 0 = Some e →
  (heap_pop h).2 = Some e ∧ queue_ok (heap_pop h).1 ∧ deadlines (heap_pop h).1 = delete (td_taskID e) (deadlines h).
Proof.
  intros [Hp Hh] He. pose proof (lookup_lt_Some _ _ _ He) as Hi. unfold heap_pop, down.
  destruct (length (dq_entries h)) as [|n] eqn:Hl; [lia|]. replace (S n - 1) with n by lia.
  assert (Hs : shuffled h (down_loop n (Swap h 0 n) 0 n).1) by (etrans; [apply Swap_shuffled|apply down_loop_shuffled]).
  assert (Hlast : dq_entries (down_loop n (Swap h 0 n) 0 n).1 !! n = Some e).
  { rewrite down_last by (rewrite Swap_length; lia). by rewrite Swap_entry_l by lia. }
  assert (Hup : heap_upto n (down_loop n (Swap h 0 n) 0 n).1).
  { destruct (decide (n = 0)) as [->|]; [intros k Hk; lia|].
    destruct (down_loop n (Swap h 0 n) 0 n) as [h' i'] eqn:Hd. simpl.
    apply down_loop_spec in Hd as [(-> & -> & Hch)|[_ ?]];
      [|done|lia|rewrite Swap_length; lia|lia|apply swap_last_but; [done..|lia]].
    destruct (swap_last_but h 0 n Hl Hh) as [Hall _]; [lia|]. intros k Hk.
    destruct (decide (par k = 0)) as [Hpk|]; [rewrite Hpk; by apply Hch|apply Hall; [done|lia|done]]. }
  destruct (down_loop n (Swap h 0 n) 0 n) as [h' i']. cbn [fst] in *.
  destruct (pop_last_spec h' n) as (e' & -> & He' & Hok & Hd); [by apply Hs|destruct Hs as [-> _]; done|done|].
  simplify_eq. by rewrite (shuffled_deadlines _ _ Hp Hs) in Hd.
Qed.

Lemma popRunningBefore_spec h cutoff : queue_ok h →
  match popRunningBefore h cutoff with
  | (h', Some e) =>
      queue_ok h' ∧ deadlines h !! td_taskID e = Some e ∧ (td_updatedAtMs e <= cutoff)%Z ∧
      (∀ id e', deadlines h !! id = Some e' → le e e') ∧ deadlines h' = delete (td_taskID e) (deadlines h)
  | (h', None) => h' = h ∧ ∀ id e, deadlines h !! id = Some e → (cutoff < td_updatedAtMs e)%Z
  end.
Proof.
  intros Hok. pose proof Hok as [Hp Hh]. unfold popRunningBefore.
  destruct (dq_entries h) as [|e l] eqn:He.
  { split; [done|]. intros id e [Hin _]%deadlines_lookup; [|done]. rewrite He in Hin. by apply not_elem_of_nil in Hin. }
  assert (He0 : dq_entries h !! 0 = Some e) by (by rewrite He).
  assert (Hleast : ∀ id e', deadlines h !! id = Some e' → le e e').
  { intros id e' [Hin _]%deadlines_lookup; [|done]. apply (root_least h e); [by rewrite He|done..]. }
  destruct (Z.ltb_spec cutoff (td_updatedAtMs e)) as [Hlt|Hge].
  - split; [done|]. intros id e' He'. apply Hleast in He'. unfold le in He'.
    apply not_true_iff_false in He'. rewrite less_spec in He'. lia.
  - destruct (heap_pop_spec h e) as (Hr & Hok' & Hd); [done..|].
    destruct (heap_pop h) as [h' r]. simpl in *. subst r. split_and!; [done| |done..].
    apply deadlines_lookup; [done|]. split; [rewrite He; by left|done].
Qed.

Lemma empty_queue_ok : queue_ok empty_queue.
Proof. split; [|intros k Hk; simpl in Hk; lia]. intros id i. cbn. by rewrite lookup_empty. Qed.

(** ** The contract *)

(** C40: the indexed heap implements a map from tasks to deadlines: [upsert] and
    [remove] act as insertion and deletion, and [popRunningBefore] takes out a
    least entry exactly when one is due. *)
Theorem deadline_heap_refines_map h : queue_ok h →
  (∀ d, queue_ok (upsert h d) ∧ deadlines (upsert h d) = <[td_taskID d := d]> (deadlines h)) ∧
  (∀ id, queue_ok (remove h id) ∧ deadlines (remove h id) = delete id (deadlines h)) ∧
  (∀ cutoff, match popRunningBefore h cutoff with
    | (h', Some e) =>
        queue_ok h' ∧ deadlines h !! td_taskID e = Some e ∧ (td_updatedAtMs e <= cutoff)%Z ∧
        (∀ id e', deadlines h !! id = Some e' → le e e') ∧ deadlines h' = delete (td_taskID e) (deadlines h)
    | (h', None) => h' = h ∧ ∀ id e, deadlines h !! id = Some e → (cutoff < td_updatedAtMs e)%Z
    end).
Proof.
  intros Hok. split_and!; intros; [by apply upsert_spec|by apply remove_spec|by apply popRunningBefore_spec].
Qed.

Definition demo_deadline (id : string) (at_ms : Z) : taskDeadline :=
  {| td_taskID := id; td_updatedAtMs := at_ms; td_leaseEpoch := 1 |}.
Definition demo_queue : taskDeadlineQueue :=
  foldl upsert empty_queue [demo_deadline "c" 30; demo_deadline "a" 20; demo_deadline "b" 10; demo_deadline "a" 5].

Lemma deadline_heap_refines_map_witness :
  queue_ok demo_queue ∧ (popRunningBefore demo_queue 9).2 = Some (demo_deadline "a" 5) ∧
  deadlines (popRunningBefore demo_queue 9).1 !! "a" = None.
Proof.
  assert (Hok : queue_ok demo_queue).
  { unfold demo_queue. cbn [foldl]. repeat (apply upsert_spec; try apply empty_queue_ok). }
  pose proof (deadline_heap_refines_map demo_queue Hok) as (_ & _ & Hpop). specialize (Hpop 9%Z).
  split; [done|]. assert (Hr : (popRunningBefore demo_queue 9).2 = Some (demo_deadline "a" 5)) by (by vm_compute).
  split; [done|]. destruct (popRunningBefore demo_queue 9) as [h' r]. cbn [fst snd] in *. subst r.
  destruct Hpop as (_ & _ & _ & _ & ->). by rewrite lookup_delete_eq.
Defined.
