(* ===== verification/MetaStore.v ===== *)
(** Task records and the single-lock metadata store: [MemoryStore] of
    internal/metadata/memory.go, its task operations.

    Every operation runs under one mutex, so it is one function; [now] is what
    [time.Now().UnixMilli()] reads.  Values are copied at the store's boundary, so
    a record is a value here.  Go ranges over a map in an arbitrary order: the
    operations that do take the order as an argument [range]. *)
From S2P Require Import Prelude Bytes.

Open Scope Z_scope.

(** ** Data *)

(** [logservepb.TaskStatus]; any [int32] is possible. *)
Definition TASK_STATUS_QUEUED : Z := 1.
Definition TASK_STATUS_RUNNING : Z := 2.
Definition TASK_STATUS_SUCCEEDED : Z := 3.
Definition TASK_STATUS_FAILED : Z := 4.

(** [Task] *)
Record Task := {
  tk_TaskID : string;
  tk_TaskName : string;
  tk_Status : Z;
  tk_ResultJSON : bytes;
  tk_Error : string;
  tk_WorkerID : string;
  tk_WorkflowID : string;
  tk_StepID : string;
  tk_TargetWorkerID : string;
  tk_ActorID : string;
  tk_ActorCallID : string;
  tk_ActorEpoch : Z;
  tk_ActorCommandSeq : Z;
  tk_TaskLeaseEpoch : Z;
  tk_LLMModelName : string;
  tk_LLMModelVersion : string;
  tk_IdempotencyKey : string;
  tk_IdempotencyFingerprint : string;
  tk_CreatedAtMs : Z;
  tk_UpdatedAtMs : Z
}.
#[export] Instance Task_eq_dec : EqDecision Task.
Proof. solve_decision. Defined.

Definition zero_task : Task := {|
  tk_TaskID := ""; tk_TaskName := ""; tk_Status := 0; tk_ResultJSON := []; tk_Error := ""; tk_WorkerID := "";
  tk_WorkflowID := ""; tk_StepID := ""; tk_TargetWorkerID := ""; tk_ActorID := ""; tk_ActorCallID := "";
  tk_ActorEpoch := 0; tk_ActorCommandSeq := 0; tk_TaskLeaseEpoch := 0; tk_LLMModelName := "";
  tk_LLMModelVersion := ""; tk_IdempotencyKey := ""; tk_IdempotencyFingerprint := ""; tk_CreatedAtMs := 0;
  tk_UpdatedAtMs := 0 |}.

(** The assignments the operations make to a record. *)
Definition set_lease (t : Task) (status : Z) (workerID : string) (epoch now : Z) : Task := {|
  tk_TaskID := tk_TaskID t; tk_TaskName := tk_TaskName t; tk_Status := status; tk_ResultJSON := tk_ResultJSON t;
  tk_Error := tk_Error t; tk_WorkerID := workerID; tk_WorkflowID := tk_WorkflowID t; tk_StepID := tk_StepID t;
  tk_TargetWorkerID := tk_TargetWorkerID t; tk_ActorID := tk_ActorID t; tk_ActorCallID := tk_ActorCallID t;
  tk_ActorEpoch := tk_ActorEpoch t; tk_ActorCommandSeq := tk_ActorCommandSeq t; tk_TaskLeaseEpoch := epoch;
  tk_LLMModelName := tk_LLMModelName t; tk_LLMModelVersion := tk_LLMModelVersion t;
  tk_IdempotencyKey := tk_IdempotencyKey t; tk_IdempotencyFingerprint := tk_IdempotencyFingerprint t;
  tk_CreatedAtMs := tk_CreatedAtMs t; tk_UpdatedAtMs := now |}.
Definition set_result (t : Task) (resultJSON : bytes) (taskErr : string) : Task := {|
  tk_TaskID := tk_TaskID t; tk_TaskName := tk_TaskName t; tk_Status := tk_Status t; tk_ResultJSON := resultJSON;
  tk_Error := taskErr; tk_WorkerID := tk_WorkerID t; tk_WorkflowID := tk_WorkflowID t; tk_StepID := tk_StepID t;
  tk_TargetWorkerID := tk_TargetWorkerID t; tk_ActorID := tk_ActorID t; tk_ActorCallID := tk_ActorCallID t;
  tk_ActorEpoch := tk_ActorEpoch t; tk_ActorCommandSeq := tk_ActorCommandSeq t;
  tk_TaskLeaseEpoch := tk_TaskLeaseEpoch t;
  tk_LLMModelName := tk_LLMModelName t; tk_LLMModelVersion := tk_LLMModelVersion t;
  tk_IdempotencyKey := tk_IdempotencyKey t; tk_IdempotencyFingerprint := tk_IdempotencyFingerprint t;
  tk_CreatedAtMs := tk_CreatedAtMs t; tk_UpdatedAtMs := tk_UpdatedAtMs t |}.
Definition set_created (t : Task) (idempotencyKey : string) (now : Z) : Task := {|
  tk_TaskID := tk_TaskID t; tk_TaskName := tk_TaskName t; tk_Status := tk_Status t; tk_ResultJSON := tk_ResultJSON t;
  tk_Error := tk_Error t; tk_WorkerID := tk_WorkerID t; tk_WorkflowID := tk_WorkflowID t; tk_StepID := tk_StepID t;
  tk_TargetWorkerID := tk_TargetWorkerID t; tk_ActorID := tk_ActorID t; tk_ActorCallID := tk_ActorCallID t;
  tk_ActorEpoch := tk_ActorEpoch t; tk_ActorCommandSeq := tk_ActorCommandSeq t;
  tk_TaskLeaseEpoch := tk_TaskLeaseEpoch t;
  tk_LLMModelName := tk_LLMModelName t; tk_LLMModelVersion := tk_LLMModelVersion t;
  tk_IdempotencyKey := idempotencyKey; tk_IdempotencyFingerprint := tk_IdempotencyFingerprint t;
  tk_CreatedAtMs := now; tk_UpdatedAtMs := now |}.

(** A [time.Duration] counts nanoseconds. *)
Definition Milliseconds (d : Z) : Z := Z.quot d 1000000.

Inductive store_error := TaskNotFound | StaleTaskLease.
#[export] Instance store_error_eq_dec : EqDecision store_error.
Proof. solve_decision. Defined.

Definition isTerminalTaskStatus (status : Z) : bool :=
  (status =? TASK_STATUS_SUCCEEDED) || (status =? TASK_STATUS_FAILED).

(** ** The task half of [MemoryStore] *)

Record MemoryStore := { ms_tasks : gmap string Task; ms_taskByIdemKey : gmap string string }.
Definition NewLegacyMemoryStore : MemoryStore := {| ms_tasks := ∅; ms_taskByIdemKey := ∅ |}.

(** [m[key]] yields the zero value for a missing key. *)
Definition task_or_zero (m : gmap string Task) (id : string) : Task := default zero_task (m !! id).

Definition put_task (s : MemoryStore) (id : string) (t : Task) : MemoryStore :=
  {| ms_tasks := <[id := t]> (ms_tasks s); ms_taskByIdemKey := ms_taskByIdemKey s |}.

Definition CreateTask (s : MemoryStore) (task : Task) (idempotencyKey : string) (now : Z) :
    MemoryStore * (Task * bool) :=
  match (if str_empty idempotencyKey then None else ms_taskByIdemKey s !! idempotencyKey) with
  | Some taskID => (s, (task_or_zero (ms_tasks s) taskID, true))
  | None =>
      let task := set_created task idempotencyKey now in
      ({| ms_tasks := <[tk_TaskID task := task]> (ms_tasks s);
          ms_taskByIdemKey := if str_empty idempotencyKey then ms_taskByIdemKey s
                              else <[idempotencyKey := tk_TaskID task]> (ms_taskByIdemKey s) |},
       (task, false))
  end.

Definition GetTask (s : MemoryStore) (taskID : string) : Task * bool :=
  match ms_tasks s !! taskID with Some t => (t, true) | None => (zero_task, false) end.

Definition GetTaskByIdempotencyKey (s : MemoryStore) (idempotencyKey : string) : Task * bool :=
  if str_empty idempotencyKey then (zero_task, false)
  else match ms_taskByIdemKey s !! idempotencyKey with
       | None => (zero_task, false)
       | Some taskID => GetTask s taskID
       end.

Definition ListTasks (s : MemoryStore) (range : list string) : list Task := omap (ms_tasks s !!.) range.

Definition LeaseTask (s : MemoryStore) (taskID workerID : string) (now : Z) :
    MemoryStore * result store_error Task :=
  match ms_tasks s !! taskID with
  | None => (s, Err TaskNotFound)
  | Some task =>
      if isTerminalTaskStatus (tk_Status task) then (s, Ok task)
      else
        let task := set_lease task TASK_STATUS_RUNNING workerID (u64 (tk_TaskLeaseEpoch task + 1)) now in
        (put_task s taskID task, Ok task)
  end.

(** The fence that [ValidateTaskLease] and [CompleteTask] put before a task that
    is not settled. *)
Definition lease_held (task : Task) (workerID : string) (leaseEpoch : Z) : bool :=
  (tk_Status task =? TASK_STATUS_RUNNING) &&
  negb (str_empty (tk_WorkerID task) || str_empty workerID || negb (bool_decide (tk_WorkerID task = workerID))) &&
  negb ((tk_TaskLeaseEpoch task =? 0) || (leaseEpoch =? 0) || negb (tk_TaskLeaseEpoch task =? leaseEpoch)).

Definition ValidateTaskLease (s : MemoryStore) (taskID workerID : string) (leaseEpoch : Z) :
    result store_error Task :=
  match ms_tasks s !! taskID with
  | None => Err TaskNotFound
  | Some task =>
      if isTerminalTaskStatus (tk_Status task) then Ok task
      else if lease_held task workerID leaseEpoch then Ok task else Err StaleTaskLease
  end.

(** What a requeue stores, and the copy it returns, which keeps the worker. *)
Definition requeued_task (task : Task) (now : Z) : Task :=
  set_lease task TASK_STATUS_QUEUED "" (tk_TaskLeaseEpoch task) now.
Definition requeued_copy (task : Task) (now : Z) : Task :=
  set_lease task TASK_STATUS_QUEUED (tk_WorkerID task) (tk_TaskLeaseEpoch task) now.

(** One round of the loop of [RequeueExpiredRunningTasks]. *)
Definition requeue_expired (now cutoffMs : Z) (acc : MemoryStore * list Task) (id : string) :
    MemoryStore * list Task :=
  let (s, requeued) := acc in
  match ms_tasks s !! id with
  | None => acc
  | Some task =>
      if negb (tk_Status task =? TASK_STATUS_RUNNING) then acc
      else if i64 (now - tk_UpdatedAtMs task) <? cutoffMs then acc
      else (put_task s id (requeued_task task now), requeued ++ [requeued_copy task now])
  end.
Definition RequeueExpiredRunningTasks (s : MemoryStore) (maxAge : Z) (now : Z) (range : list string) :
    MemoryStore * list Task :=
  if maxAge <=? 0 then (s, []) else foldl (requeue_expired now (Milliseconds maxAge)) (s, []) range.

Definition RequeueTaskIfLeaseExpired (s : MemoryStore) (taskID : string) (leaseEpoch maxAge now : Z) :
    MemoryStore * (Task * bool) :=
  if (maxAge <=? 0) || str_empty taskID || (leaseEpoch =? 0) then (s, (zero_task, false))
  else
    match ms_tasks s !! taskID with
    | None => (s, (zero_task, false))
    | Some task =>
        if negb (tk_Status task =? TASK_STATUS_RUNNING) || negb (tk_TaskLeaseEpoch task =? leaseEpoch) then
          (s, (task, false))
        else if i64 (now - tk_UpdatedAtMs task) <? Milliseconds maxAge then (s, (task, false))
        else (put_task s taskID (requeued_task task now), (requeued_copy task now, true))
    end.

Definition CompleteTask (s : MemoryStore) (taskID workerID : string) (leaseEpoch status : Z)
    (resultJSON : bytes) (taskErr : string) (now : Z) : MemoryStore * result store_error Task :=
  match ms_tasks s !! taskID with
  | None => (s, Err TaskNotFound)
  | Some task =>
      if isTerminalTaskStatus (tk_Status task) then (s, Ok task)
      else if lease_held task workerID leaseEpoch then
        let task := set_result (set_lease task status workerID (tk_TaskLeaseEpoch task) now) resultJSON taskErr in
        (put_task s taskID task, Ok task)
      else (s, Err StaleTaskLease)
  end.
