(* ===== verification/TaskStore.v ===== *)
(** The sharded task store: [taskStoreV2] of internal/metadata/memory_v2.go.

    Task records live in 64 shards chosen by an FNV-1a hash; beside them are
    indexes by status and worker, the set of all tasks and the heap of lease
    deadlines.  An operation first changes the record under its shard's lock
    ([lease_shard] and the like), then, after releasing it, brings the indexes up
    to date from copies of the record before and after ([replaceTaskIndexes]),
    in up to three critical sections of their own ([index_actions]).  The store
    here runs them one after the other; [TaskStoreRaces] interleaves them. *)
From S2P Require Import Prelude Bytes MetaStore TaskHeap.

Open Scope Z_scope.

(** ** Shards *)

Definition memoryTaskShardCount : nat := 64.

(** [taskShardIndex]: FNV-1a on the bytes of the ID. *)
Fixpoint fnv1a (h : Z) (s : string) : Z :=
  match s with
  | EmptyString => h
  | String c s => fnv1a (u32 (Z.lxor h (Z.of_nat (Ascii.nat_of_ascii c)) * 16777619)) s
  end.
Definition taskShardIndex (taskID : string) : Z := fnv1a 2166136261 taskID mod Z.of_nat memoryTaskShardCount.

(** [taskStoreV2] *)
Record taskStore := {
  ts_shards : list (gmap string Task);
  ts_byIdem : gmap string string;
  ts_allTasks : gset string;
  ts_byStatus : gmap Z (gset string);
  ts_byWorker : gmap string (gset string);
  ts_running : taskDeadlineQueue
}.
Definition init : taskStore := {|
  ts_shards := replicate memoryTaskShardCount ∅; ts_byIdem := ∅; ts_allTasks := ∅; ts_byStatus := ∅;
  ts_byWorker := ∅; ts_running := empty_queue |}.

Definition with_shards (s : taskStore) (shards : list (gmap string Task)) : taskStore := {|
  ts_shards := shards; ts_byIdem := ts_byIdem s; ts_allTasks := ts_allTasks s; ts_byStatus := ts_byStatus s;
  ts_byWorker := ts_byWorker s; ts_running := ts_running s |}.
Definition with_byIdem (s : taskStore) (m : gmap string string) : taskStore := {|
  ts_shards := ts_shards s; ts_byIdem := m; ts_allTasks := ts_allTasks s; ts_byStatus := ts_byStatus s;
  ts_byWorker := ts_byWorker s; ts_running := ts_running s |}.
Definition with_index (s : taskStore) (all : gset string) (byStatus : gmap Z (gset string))
    (byWorker : gmap string (gset string)) : taskStore := {|
  ts_shards := ts_shards s; ts_byIdem := ts_byIdem s; ts_allTasks := all; ts_byStatus := byStatus;
  ts_byWorker := byWorker; ts_running := ts_running s |}.
Definition with_running (s : taskStore) (q : taskDeadlineQueue) : taskStore := {|
  ts_shards := ts_shards s; ts_byIdem := ts_byIdem s; ts_allTasks := ts_allTasks s; ts_byStatus := ts_byStatus s;
  ts_byWorker := ts_byWorker s; ts_running := q |}.

(** [s.shard(taskID).tasks[taskID]] and its assignment. *)
Definition shard (taskID : string) : nat := Z.to_nat (taskShardIndex taskID).
Definition shard_get (s : taskStore) (taskID : string) : option Task :=
  ts_shards s !! shard taskID ≫= (.!! taskID).
Definition shard_put (s : taskStore) (taskID : string) (t : Task) : taskStore :=
  with_shards s (alter (insert taskID t) (shard taskID) (ts_shards s)).

(** ** Indexes *)

Definition indexedTaskStatus (status : Z) : bool := (status =? TASK_STATUS_QUEUED) || (status =? TASK_STATUS_RUNNING).

(** [addStatusIndexLocked] and [addWorkerIndexLocked]: a missing set is made. *)
Definition add_to {K} `{Countable K} (ids : gmap K (gset string)) (k : K) (taskID : string) : gmap K (gset string) :=
  <[k := {[taskID]} ∪ default ∅ (ids !! k)]> ids.
(** [removeStatusIndexLocked] and [removeWorkerIndexLocked]: an empty set is dropped. *)
Definition remove_from {K} `{Countable K} (ids : gmap K (gset string)) (k : K) (taskID : string) :
    gmap K (gset string) :=
  match ids !! k with
  | None => ids
  | Some set =>
      let set := set ∖ {[taskID]} in
      if bool_decide (size set = 0%nat) then delete k ids else <[k := set]> ids
  end.

Definition is_running (t : Task) : bool := tk_Status t =? TASK_STATUS_RUNNING.

(** The section of [replaceTaskIndexes] under [indexMu]. *)
Definition replace_lists (previous : option Task) (current : Task) (s : taskStore) : taskStore :=
  let byStatus := match previous with
    | Some p => if indexedTaskStatus (tk_Status p) then remove_from (ts_byStatus s) (tk_Status p) (tk_TaskID p)
                else ts_byStatus s
    | None => ts_byStatus s end in
  let byWorker := match previous with
    | Some p => if is_running p && negb (str_empty (tk_WorkerID p))
                then remove_from (ts_byWorker s) (tk_WorkerID p) (tk_TaskID p) else ts_byWorker s
    | None => ts_byWorker s end in
  with_index s ({[tk_TaskID current]} ∪ ts_allTasks s)
    (if indexedTaskStatus (tk_Status current) then add_to byStatus (tk_Status current) (tk_TaskID current)
     else byStatus)
    (if is_running current && negb (str_empty (tk_WorkerID current))
     then add_to byWorker (tk_WorkerID current) (tk_TaskID current) else byWorker).

Definition trackRunning (t : Task) (s : taskStore) : taskStore :=
  if negb (is_running t) || (tk_TaskLeaseEpoch t =? 0) then s
  else with_running s (upsert (ts_running s)
         {| td_taskID := tk_TaskID t; td_updatedAtMs := tk_UpdatedAtMs t; td_leaseEpoch := tk_TaskLeaseEpoch t |}).
Definition untrackRunning (taskID : string) (s : taskStore) : taskStore :=
  with_running s (remove (ts_running s) taskID).

(** The critical sections of [replaceTaskIndexes], in order. *)
Inductive index_action :=
| ReplaceLists (previous : option Task) (current : Task)
| Untrack (taskID : string)
| Track (t : Task).
Definition index_actions (previous : option Task) (current : Task) : list index_action :=
  [ReplaceLists previous current] ++
  match previous with
  | Some p => if is_running p && (negb (is_running current) || negb (tk_TaskLeaseEpoch current =? tk_TaskLeaseEpoch p))
              then [Untrack (tk_TaskID p)] else []
  | None => []
  end ++
  (if is_running current then [Track current] else []).
Definition run_action (s : taskStore) (a : index_action) : taskStore :=
  match a with
  | ReplaceLists previous current => replace_lists previous current s
  | Untrack taskID => untrackRunning taskID s
  | Track t => trackRunning t s
  end.
Definition replaceTaskIndexes (previous : option Task) (current : Task) (s : taskStore) : taskStore :=
  foldl run_action s (index_actions previous current).

(** ** The critical sections under the shard's lock

    Each returns the store, the reply, and the copies for the indexes when the
    record changed. *)
Definition change : Type := option (option Task * Task).

Definition create_shard (s : taskStore) (task : Task) (idempotencyKey : string) (now : Z) :
    taskStore * Task * change :=
  let stored := set_created task idempotencyKey now in
  let previous := shard_get s (tk_TaskID stored) in
  (shard_put s (tk_TaskID stored) stored, stored, Some (previous, stored)).

Definition lease_shard (s : taskStore) (taskID workerID : string) (now : Z) :
    taskStore * result store_error Task * change :=
  match shard_get s taskID with
  | None => (s, Err TaskNotFound, None)
  | Some task =>
      if isTerminalTaskStatus (tk_Status task) then (s, Ok task, None)
      else
        let current := set_lease task TASK_STATUS_RUNNING workerID (u64 (tk_TaskLeaseEpoch task + 1)) now in
        (shard_put s taskID current, Ok current, Some (Some task, current))
  end.

Definition requeue_shard (s : taskStore) (taskID : string) (leaseEpoch maxAge nowMs : Z) :
    taskStore * (Task * bool) * change :=
  if (maxAge <=? 0) || str_empty taskID || (leaseEpoch =? 0) then (s, (zero_task, false), None)
  else
    match shard_get s taskID with
    | None => (s, (zero_task, false), None)
    | Some task =>
        if negb (is_running task) || negb (tk_TaskLeaseEpoch task =? leaseEpoch) then (s, (task, false), None)
        else if i64 (nowMs - tk_UpdatedAtMs task) <? Milliseconds maxAge then (s, (task, false), None)
        else
          let stored := requeued_task task nowMs in
          (shard_put s taskID stored, (requeued_copy task nowMs, true), Some (Some task, stored))
    end.

Definition complete_shard (s : taskStore) (taskID workerID : string) (leaseEpoch status : Z)
    (resultJSON : bytes) (taskErr : string) (now : Z) : taskStore * result store_error Task * change :=
  match shard_get s taskID with
  | None => (s, Err TaskNotFound, None)
  | Some task =>
      if isTerminalTaskStatus (tk_Status task) then (s, Ok task, None)
      else if lease_held task workerID leaseEpoch then
        let current := set_result (set_lease task status workerID (tk_TaskLeaseEpoch task) now) resultJSON taskErr in
        (shard_put s taskID current, Ok current, Some (Some task, current))
      else (s, Err StaleTaskLease, None)
  end.

(** ** The operations *)

(** The shard's section, then the indexes'. *)
Definition and_indexes {A} (r : taskStore * A * change) : taskStore * A :=
  match r with
  | (s, reply, Some (previous, current)) => (replaceTaskIndexes previous current s, reply)
  | (s, reply, None) => (s, reply)
  end.

Definition createWithoutIdemLock (s : taskStore) (task : Task) (idempotencyKey : string) (now : Z) :
    taskStore * Task := and_indexes (create_shard s task idempotencyKey now).

Definition get (s : taskStore) (taskID : string) : Task * bool :=
  match shard_get s taskID with Some t => (t, true) | None => (zero_task, false) end.

Definition create (s : taskStore) (task : Task) (idempotencyKey : string) (now : Z) :
    taskStore * (Task * bool) :=
  if str_empty idempotencyKey then
    let (s, created) := createWithoutIdemLock s task "" now in (s, (created, false))
  else
    let fresh s :=
      let (s, created) := createWithoutIdemLock s task idempotencyKey now in
      (with_byIdem s (<[idempotencyKey := tk_TaskID created]> (ts_byIdem s)), (created, false)) in
    match ts_byIdem s !! idempotencyKey with
    | Some taskID =>
        let (existing, ok) := get s taskID in
        if ok then (s, (existing, true)) else fresh (with_byIdem s (delete idempotencyKey (ts_byIdem s)))
    | None => fresh s
    end.

Definition getByIdempotencyKey (s : taskStore) (idempotencyKey : string) : Task * bool :=
  if str_empty idempotencyKey then (zero_task, false)
  else match ts_byIdem s !! idempotencyKey with
       | None => (zero_task, false)
       | Some taskID => get s taskID
       end.

(** [sort.Strings] *)
Definition sort_strings (ids : list string) : list string := merge_sort String.le ids.
Definition allIndexedTaskIDs (s : taskStore) : list string := sort_strings (elements (ts_allTasks s)).
Definition indexedTaskIDsByStatus (s : taskStore) (status : Z) : list string :=
  let ids := if indexedTaskStatus status then default ∅ (ts_byStatus s !! status) else ts_allTasks s in
  sort_strings (elements ids).
Definition list_tasks (s : taskStore) : list Task :=
  omap (λ id, let (task, ok) := get s id in if ok then Some task else None) (allIndexedTaskIDs s).
Definition listByStatus (s : taskStore) (status : Z) : list Task :=
  omap (λ id, let (task, ok) := get s id in if ok && (tk_Status task =? status) then Some task else None)
    (indexedTaskIDsByStatus s status).

Definition lease (s : taskStore) (taskID workerID : string) (now : Z) := and_indexes (lease_shard s taskID workerID now).

Definition validateLease (s : taskStore) (taskID workerID : string) (leaseEpoch : Z) : result store_error Task :=
  match shard_get s taskID with
  | None => Err TaskNotFound
  | Some task =>
      if isTerminalTaskStatus (tk_Status task) then Ok task
      else if lease_held task workerID leaseEpoch then Ok task else Err StaleTaskLease
  end.

Definition requeueTaskAt (s : taskStore) (taskID : string) (leaseEpoch maxAge nowMs : Z) :=
  and_indexes (requeue_shard s taskID leaseEpoch maxAge nowMs).
Definition requeueTaskIfLeaseExpired := requeueTaskAt.

Definition pop_running (s : taskStore) (cutoffMs : Z) : taskStore * option taskDeadline :=
  let (q, deadline) := popRunningBefore (ts_running s) cutoffMs in (with_running s q, deadline).

(** The [for] loop of [requeueExpiredRunning]; [clock] are the readings of the
    clock to come. *)
Fixpoint requeue_loop (fuel : nat) (s : taskStore) (cutoff maxAge : Z) (clock : nat → Z) (requeued : list Task) :
    option (taskStore * list Task) :=
  match fuel with
  | O => None
  | S fuel =>
      match pop_running s cutoff with
      | (s, None) => Some (s, requeued)
      | (s, Some deadline) =>
          let '(s, (task, ok)) := requeueTaskAt s (td_taskID deadline) (td_leaseEpoch deadline) maxAge (clock 0%nat) in
          requeue_loop fuel s cutoff maxAge (λ k, clock (S k)) (if ok then requeued ++ [task] else requeued)
      end
  end.
Definition requeueExpiredRunning (fuel : nat) (s : taskStore) (maxAge : Z) (clock : nat → Z) :
    option (taskStore * list Task) :=
  if maxAge <=? 0 then Some (s, [])
  else
    let cutoff := i64 (clock 0%nat - Milliseconds maxAge) in
    requeue_loop fuel s cutoff maxAge (λ k, clock (S k)) [].

Definition complete (s : taskStore) (taskID workerID : string) (leaseEpoch status : Z)
    (resultJSON : bytes) (taskErr : string) (now : Z) :=
  and_indexes (complete_shard s taskID workerID leaseEpoch status resultJSON taskErr now).
