(* ===== verification/TaskStoreSpec.v ===== *)
(** The sharded task store implements the single-lock one.

    For each task [exact_on] says what every index must hold given the task's
    record.  [replaceTaskIndexes] makes it true again after a change and leaves
    the other tasks' entries alone, so that [store_rel] relates the two stores
    after any sequence of operations, and they give the same replies. *)
From S2P Require Import Prelude Bytes MetaStore TaskHeap TaskStore.

Open Scope Z_scope.

(** ** Shards *)

Lemma shard_bound id : (shard id < memoryTaskShardCount)%nat.
Proof.
  unfold shard, taskShardIndex, memoryTaskShardCount.
  pose proof (Z.mod_pos_bound (fnv1a 2166136261 id) (Z.of_nat 64) ltac:(lia)). lia.
Qed.

(** The shards hold the tasks of [m]. *)
Definition holds (s : taskStore) (m : gmap string Task) : Prop :=
  length (ts_shards s) = memoryTaskShardCount ∧ ∀ id, shard_get s id = m !! id.

Lemma holds_put s m id t : holds s m → holds (shard_put s id t) (<[id := t]> m).
Proof.
  intros [Hl Hg]. pose proof (shard_bound id) as Hb.
  split; [unfold shard_put; cbn; by rewrite length_alter|]. intros id'.
  unfold shard_get, shard_put. cbn [ts_shards with_shards].
  destruct (lookup_lt_is_Some_2 (ts_shards s) (shard id)) as [sh Hsh]; [lia|].
  destruct (decide (shard id' = shard id)) as [Heq|Hne].
  - rewrite Heq, list_lookup_alter_eq, Hsh. cbn. destruct (decide (id' = id)) as [->|Hid].
    + by rewrite !lookup_insert_eq.
    + rewrite !lookup_insert_ne by done. rewrite <- Hg. unfold shard_get. by rewrite Heq, Hsh.
  - rewrite list_lookup_alter_ne by done. rewrite lookup_insert_ne by congruence. apply Hg.
Qed.

(** ** The indexes of one task *)

Definition deadline_of (t : Task) : option taskDeadline :=
  if is_running t && negb (tk_TaskLeaseEpoch t =? 0)
  then Some {| td_taskID := tk_TaskID t; td_updatedAtMs := tk_UpdatedAtMs t; td_leaseEpoch := tk_TaskLeaseEpoch t |}
  else None.
Definition worker_of (t : Task) : option string :=
  if is_running t && negb (str_empty (tk_WorkerID t)) then Some (tk_WorkerID t) else None.
Definition status_of (t : Task) : option Z :=
  if indexedTaskStatus (tk_Status t) then Some (tk_Status t) else None.

(** What the indexes say of one task. *)
Record view := {
  vw_listed : bool;
  vw_status : gset Z;
  vw_worker : gset string;
  vw_deadline : option taskDeadline
}.
Definition keys_with {K} `{Countable K} (ids : gmap K (gset string)) (id : string) : gset K :=
  dom (filter (λ kv, id ∈ kv.2) ids).
Definition view_of_task (s : taskStore) (id : string) : view := {|
  vw_listed := bool_decide (id ∈ ts_allTasks s); vw_status := keys_with (ts_byStatus s) id;
  vw_worker := keys_with (ts_byWorker s) id; vw_deadline := deadlines (ts_running s) !! id |}.

Definition set_of {A} `{Countable A} (o : option A) : gset A := match o with Some a => {[a]} | None => ∅ end.
(** What they must say, given its record. *)
Definition exact_view (o : option Task) : view :=
  match o with
  | Some t => {| vw_listed := true; vw_status := set_of (status_of t); vw_worker := set_of (worker_of t);
                 vw_deadline := deadline_of t |}
  | None => {| vw_listed := false; vw_status := ∅; vw_worker := ∅; vw_deadline := None |}
  end.
Definition exact_on (s : taskStore) (id : string) (o : option Task) : Prop := view_of_task s id = exact_view o.

Section keys.
Context {K : Type} `{Countable K}.
Implicit Types (ids : gmap K (gset string)) (k : K).

Lemma elem_of_keys ids k id : k ∈ keys_with ids id ↔ id ∈ default ∅ (ids !! k).
Proof.
  unfold keys_with. rewrite elem_of_dom. split.
  - intros [x Hx]. apply map_lookup_filter_Some in Hx as [-> Hin]. done.
  - destruct (ids !! k) as [x|] eqn:Hk; cbn; [|set_solver]. intros Hin. exists x.
    by apply map_lookup_filter_Some.
Qed.

Lemma add_to_elem ids k id k' id' :
  id' ∈ default ∅ (add_to ids k id !! k') ↔ (k' = k ∧ id' = id) ∨ id' ∈ default ∅ (ids !! k').
Proof.
  unfold add_to. destruct (decide (k' = k)) as [->|Hne].
  - rewrite lookup_insert_eq. cbn. set_solver.
  - rewrite lookup_insert_ne by done. naive_solver.
Qed.

Lemma remove_from_elem ids k id k' id' :
  id' ∈ default ∅ (remove_from ids k id !! k') ↔ ¬ (k' = k ∧ id' = id) ∧ id' ∈ default ∅ (ids !! k').
Proof.
  unfold remove_from. destruct (ids !! k) as [x|] eqn:Hk.
  - case_bool_decide as Hsz.
    + apply size_empty_inv in Hsz. destruct (decide (k' = k)) as [->|Hne].
      * rewrite lookup_delete_eq, Hk. cbn. set_solver.
      * rewrite lookup_delete_ne by done. naive_solver.
    + destruct (decide (k' = k)) as [->|Hne].
      * rewrite lookup_insert_eq, Hk. cbn. set_solver.
      * rewrite lookup_insert_ne by done. naive_solver.
  - split; [|naive_solver]. intros Hin. split; [|done]. intros [-> ->]. rewrite Hk in Hin. set_solver.
Qed.

Lemma keys_add ids k id : keys_with (add_to ids k id) id = {[k]} ∪ keys_with ids id.
Proof. apply set_eq. intros k'. rewrite elem_of_union, elem_of_singleton, !elem_of_keys, add_to_elem. naive_solver. Qed.
Lemma keys_add_ne ids k id id' : id' ≠ id → keys_with (add_to ids k id) id' = keys_with ids id'.
Proof. intros. apply set_eq. intros k'. rewrite !elem_of_keys, add_to_elem. naive_solver. Qed.
Lemma keys_remove ids k id : keys_with (remove_from ids k id) id = keys_with ids id ∖ {[k]}.
Proof.
  apply set_eq. intros k'. rewrite elem_of_difference, elem_of_singleton, !elem_of_keys, remove_from_elem. naive_solver.
Qed.
Lemma keys_remove_ne ids k id id' : id' ≠ id → keys_with (remove_from ids k id) id' = keys_with ids id'.
Proof. intros. apply set_eq. intros k'. rewrite !elem_of_keys, remove_from_elem. naive_solver. Qed.
End keys.

(** ** What the index sections do to a view *)

Definition action_task (a : index_action) : string :=
  match a with ReplaceLists _ t => tk_TaskID t | Untrack id => id | Track t => tk_TaskID t end.
(** The record before and the one after have the same ID. *)
Definition action_ok (a : index_action) : Prop :=
  match a with ReplaceLists (Some p) t => tk_TaskID p = tk_TaskID t | _ => True end.

Definition act_view (v : view) (a : index_action) : view :=
  match a with
  | ReplaceLists previous t =>
      {| vw_listed := true;
         vw_status := set_of (status_of t) ∪ (vw_status v ∖ set_of (previous ≫= status_of));
         vw_worker := set_of (worker_of t) ∪ (vw_worker v ∖ set_of (previous ≫= worker_of));
         vw_deadline := vw_deadline v |}
  | Untrack _ =>
      {| vw_listed := vw_listed v; vw_status := vw_status v; vw_worker := vw_worker v; vw_deadline := None |}
  | Track t =>
      {| vw_listed := vw_listed v; vw_status := vw_status v; vw_worker := vw_worker v;
         vw_deadline := match deadline_of t with Some d => Some d | None => vw_deadline v end |}
  end.

Lemma lists_view_status s p t id : action_ok (ReplaceLists p t) →
  keys_with (ts_byStatus (replace_lists p t s)) id =
  if decide (id = tk_TaskID t) then set_of (status_of t) ∪ (keys_with (ts_byStatus s) id ∖ set_of (p ≫= status_of))
  else keys_with (ts_byStatus s) id.
Proof.
  intros Hok. unfold replace_lists. cbn [ts_byStatus with_index].
  set (removed := match p with Some p0 => _ | None => ts_byStatus s end).
  assert (Hr : keys_with removed id =
    if decide (id = tk_TaskID t) then keys_with (ts_byStatus s) id ∖ set_of (p ≫= status_of) else keys_with (ts_byStatus s) id).
  { unfold removed. destruct p as [p|]; cbn; [|case_decide; by rewrite ?difference_empty_L].
    cbn in Hok. unfold status_of. destruct (indexedTaskStatus (tk_Status p)); cbn; case_decide as Hid; rewrite ?difference_empty_L; [| |done..].
    - subst id. rewrite Hok. apply keys_remove.
    - apply keys_remove_ne. congruence. }
  clearbody removed. unfold status_of at 1. destruct (indexedTaskStatus (tk_Status t)); case_decide; subst; cbn.
  - by rewrite keys_add, Hr.
  - by rewrite keys_add_ne, Hr.
  - by rewrite Hr, union_empty_l_L.
  - by rewrite Hr.
Qed.

Lemma lists_view_worker s p t id : action_ok (ReplaceLists p t) →
  keys_with (ts_byWorker (replace_lists p t s)) id =
  if decide (id = tk_TaskID t) then set_of (worker_of t) ∪ (keys_with (ts_byWorker s) id ∖ set_of (p ≫= worker_of))
  else keys_with (ts_byWorker s) id.
Proof.
  intros Hok. unfold replace_lists. cbn [ts_byWorker with_index].
  set (removed := match p with Some p0 => _ | None => ts_byWorker s end).
  assert (Hr : keys_with removed id =
    if decide (id = tk_TaskID t) then keys_with (ts_byWorker s) id ∖ set_of (p ≫= worker_of) else keys_with (ts_byWorker s) id).
  { unfold removed. destruct p as [p|]; cbn; [|case_decide; by rewrite ?difference_empty_L].
    cbn in Hok. unfold worker_of. destruct (is_running p && negb (str_empty (tk_WorkerID p))); cbn; case_decide as Hid; rewrite ?difference_empty_L; [| |done..].
    - subst id. rewrite Hok. apply keys_remove.
    - apply keys_remove_ne. congruence. }
  clearbody removed. unfold worker_of at 1. destruct (is_running t && negb (str_empty (tk_WorkerID t))); case_decide; subst; cbn.
  - by rewrite keys_add, Hr.
  - by rewrite keys_add_ne, Hr.
  - by rewrite Hr, union_empty_l_L.
  - by rewrite Hr.
Qed.

Definition queue_fine (s : taskStore) : Prop := queue_ok (ts_running s).

Lemma run_action_view s a id : queue_fine s → action_ok a →
  queue_fine (run_action s a) ∧
  view_of_task (run_action s a) id =
    if decide (id = action_task a) then act_view (view_of_task s id) a else view_of_task s id.
Proof.
  intros Hq Hok. unfold queue_fine. destruct a as [p t|tid|t]; cbn [run_action action_task].
  - split; [done|]. unfold view_of_task at 1. rewrite lists_view_status, lists_view_worker by done.
    cbn [ts_allTasks ts_running replace_lists with_index].
    case_decide as Hid; [subst; rewrite bool_decide_true by set_solver; done|].
    unfold view_of_task. f_equal. apply bool_decide_ext. set_solver.
  - pose proof (remove_spec _ tid Hq) as [Hq' Hd]. split; [done|]. unfold view_of_task. cbn. rewrite Hd.
    case_decide as Hid; [subst; by rewrite lookup_delete_eq|by rewrite lookup_delete_ne by congruence].
  - unfold trackRunning, act_view, deadline_of. destruct (is_running t); cbn;
      [|split; [done|]; case_decide; done].
    destruct (tk_TaskLeaseEpoch t =? 0); cbn; [split; [done|]; case_decide; done|].
    edestruct upsert_spec as [Hq' Hd]; [exact Hq|]. split; [exact Hq'|].
    unfold view_of_task. cbn. rewrite Hd. cbn [td_taskID].
    case_decide as Hid; [subst; by rewrite lookup_insert_eq|by rewrite lookup_insert_ne by congruence].
Qed.

Lemma index_actions_ok p t : action_ok (ReplaceLists p t) →
  Forall (λ a, action_ok a ∧ action_task a = tk_TaskID t) (index_actions p t).
Proof.
  intros Hok. unfold index_actions. apply Forall_app. split; [by repeat constructor|]. apply Forall_app. split.
  - destruct p as [p|]; [|done]. cbn in Hok. case_match; [|done]. repeat constructor. done.
  - case_match; [|done]. repeat constructor.
Qed.

Lemma run_actions_view acts s id : queue_fine s → Forall (λ a, action_ok a ∧ action_task a = id) acts →
  queue_fine (foldl run_action s acts) ∧
  view_of_task (foldl run_action s acts) id = foldl act_view (view_of_task s id) acts ∧
  ∀ id', id' ≠ id → view_of_task (foldl run_action s acts) id' = view_of_task s id'.
Proof.
  revert s. induction acts as [|a acts IH]; intros s Hq Hall; [done|].
  apply Forall_cons in Hall as [[Hok Ha] Hall]. cbn [foldl].
  pose proof (run_action_view s a id Hq Hok) as [Hq' Hv]. rewrite decide_True in Hv by done.
  destruct (IH _ Hq' Hall) as (Hq'' & Hv' & Ho). split_and!; [done|by rewrite Hv', Hv|].
  intros id' Hne. rewrite Ho by done. pose proof (run_action_view s a id' Hq Hok) as [_ ->].
  rewrite decide_False; [done|congruence].
Qed.

(** Replacing the record before by the one after keeps a view exact. *)
Lemma actions_exact p t : action_ok (ReplaceLists p t) →
  foldl act_view (exact_view p) (index_actions p t) = exact_view (Some t).
Proof.
  intros Hok. unfold index_actions. rewrite !foldl_app. cbn [foldl act_view].
  assert (Hd : ∀ {A} `{Countable A} (o o' : option A), set_of o' ∪ (set_of o ∖ set_of o) = set_of o') by set_solver.
  assert (Hs : set_of (status_of t) ∪ (vw_status (exact_view p) ∖ set_of (p ≫= status_of)) = set_of (status_of t)).
  { destruct p; cbn; [apply Hd|set_solver]. }
  assert (Hw : set_of (worker_of t) ∪ (vw_worker (exact_view p) ∖ set_of (p ≫= worker_of)) = set_of (worker_of t)).
  { destruct p; cbn; [apply Hd|set_solver]. }
  rewrite Hs, Hw. clear Hd Hs Hw. destruct p as [p|]; cbn; unfold deadline_of; cbn.
  - destruct (is_running p), (is_running t) eqn:Ht; cbn; try done.
    + destruct (Z.eqb_spec (tk_TaskLeaseEpoch t) (tk_TaskLeaseEpoch p)) as [He|He]; cbn;
        unfold deadline_of; rewrite Ht, ?He; cbn;
        [by destruct (tk_TaskLeaseEpoch p =? 0)|by destruct (tk_TaskLeaseEpoch t =? 0)].
    + unfold deadline_of. rewrite Ht. cbn. by destruct (tk_TaskLeaseEpoch t =? 0).
  - destruct (is_running t) eqn:Ht; cbn; [|done]. unfold deadline_of. rewrite Ht. cbn.
    by destruct (tk_TaskLeaseEpoch t =? 0).
Qed.

(** All indexes are exact for the records of [m]. *)
Definition indexes_ok (s : taskStore) (m : gmap string Task) : Prop :=
  queue_fine s ∧ ∀ id, exact_on s id (m !! id).

Lemma replace_exact s m t : indexes_ok s m → action_ok (ReplaceLists (m !! tk_TaskID t) t) →
  indexes_ok (replaceTaskIndexes (m !! tk_TaskID t) t s) (<[tk_TaskID t := t]> m).
Proof.
  intros [Hq Hex] Hok. unfold replaceTaskIndexes.
  destruct (run_actions_view (index_actions (m !! tk_TaskID t) t) s (tk_TaskID t) Hq) as (Hq' & Hv & Ho);
    [by apply index_actions_ok|].
  split; [done|]. intros id. unfold exact_on. destruct (decide (id = tk_TaskID t)) as [->|Hne].
  - rewrite Hv, (Hex (tk_TaskID t)), actions_exact, lookup_insert_eq by done. done.
  - rewrite Ho, lookup_insert_ne by congruence. apply Hex.
Qed.

Lemma run_actions_store acts s :
  ts_shards (foldl run_action s acts) = ts_shards s ∧ ts_byIdem (foldl run_action s acts) = ts_byIdem s.
Proof.
  revert s. induction acts as [|a acts IH]; intros s; [done|]. cbn [foldl].
  destruct (IH (run_action s a)) as [-> ->]. destruct a as [p t|tid|t]; cbn; [done..|].
  unfold trackRunning. by case_match.
Qed.

(** ** The two stores *)

(** Times on which [int64] arithmetic does not wrap. *)
Definition sane_time (t : Z) : Prop := 0 <= t < 2 ^ 62.

(** A record of the single-lock store: kept under its ID, which is not empty,
    stamped with a sane time, and with a lease epoch other than 0 while it runs. *)
Definition record_ok (id : string) (t : Task) : Prop :=
  tk_TaskID t = id ∧ id ≠ ""%string ∧ sane_time (tk_UpdatedAtMs t) ∧ (is_running t = true → tk_TaskLeaseEpoch t ≠ 0).
Definition legacy_ok (l : MemoryStore) : Prop :=
  map_Forall record_ok (ms_tasks l) ∧ map_Forall (λ _ id, is_Some (ms_tasks l !! id)) (ms_taskByIdemKey l).

Definition store_rel (s : taskStore) (l : MemoryStore) : Prop :=
  holds s (ms_tasks l) ∧ ts_byIdem s = ms_taskByIdemKey l ∧ indexes_ok s (ms_tasks l) ∧ legacy_ok l.

Lemma exact_init id : exact_on init id None.
Proof.
  unfold exact_on, view_of_task, init, keys_with. cbn [ts_allTasks ts_byStatus ts_byWorker ts_running].
  rewrite bool_decide_false by set_solver. by rewrite !map_filter_empty, !dom_empty_L.
Qed.

Lemma init_rel : store_rel init NewLegacyMemoryStore.
Proof.
  split_and!; [|done|split; [apply empty_queue_ok|intros id; cbn; rewrite lookup_empty; apply exact_init]|split; apply map_Forall_empty].
  split; [done|]. intros id. unfold shard_get, init. cbn [ts_shards ms_tasks NewLegacyMemoryStore].
  rewrite lookup_replicate_2 by apply shard_bound. cbn. by rewrite !lookup_empty.
Qed.

(** The two stores change the record of [id] alike, or not at all. *)
Definition same_change (id : string) (s : taskStore) (l : MemoryStore) (s' : taskStore) (c : change) (l' : MemoryStore) : Prop :=
  match c with
  | None => s' = s ∧ l' = l
  | Some (p, t) =>
      tk_TaskID t = id ∧ s' = shard_put s id t ∧ p = ms_tasks l !! id ∧ l' = put_task l id t ∧ record_ok id t
  end.

Lemma change_action_ok l t : legacy_ok l → action_ok (ReplaceLists (ms_tasks l !! tk_TaskID t) t).
Proof.
  intros [Hall _]. cbn. destruct (ms_tasks l !! tk_TaskID t) as [p|] eqn:Hp; [|done]. by apply Hall in Hp as [? _].
Qed.

Lemma legacy_put l t : legacy_ok l → record_ok (tk_TaskID t) t → legacy_ok (put_task l (tk_TaskID t) t).
Proof.
  intros [Hall Hidem] Hok. split; cbn.
  - by apply map_Forall_insert_2.
  - intros k id Hk. apply Hidem in Hk. destruct (decide (id = tk_TaskID t)) as [->|].
    + rewrite lookup_insert_eq. by eexists.
    + by rewrite lookup_insert_ne.
Qed.

Lemma and_indexes_rel {A} (reply : A) id s l s' c l' : store_rel s l → same_change id s l s' c l' →
  store_rel (and_indexes (s', reply, c)).1 l' ∧ (and_indexes (s', reply, c)).2 = reply.
Proof.
  intros (Hh & Hi & Hx & Hl) Hc. destruct c as [[p t]|]; [|by destruct Hc as [-> ->]].
  destruct Hc as (<- & -> & -> & -> & Hok). cbn [and_indexes fst snd]. split; [|done].
  unfold replaceTaskIndexes. pose proof (run_actions_store (index_actions (ms_tasks l !! tk_TaskID t) t)
    (shard_put s (tk_TaskID t) t)) as [Hsh Hid].
  split_and!.
  - pose proof (holds_put s _ (tk_TaskID t) t Hh) as [Hlen Hg]. split; [by rewrite Hsh|].
    intros id. unfold shard_get. rewrite Hsh. apply Hg.
  - by rewrite Hid.
  - apply replace_exact; [done|]. by apply change_action_ok.
  - by apply legacy_put.
Qed.

Lemma create_change s l task key now :
  holds s (ms_tasks l) → legacy_ok l → sane_time now → tk_TaskID task ≠ ""%string →
  (is_running task = true → tk_TaskLeaseEpoch task ≠ 0) →
  let '(s', t, c) := create_shard s task key now in
  same_change (tk_TaskID task) s l s' c (put_task l (tk_TaskID task) (set_created task key now)) ∧ t = set_created task key now.
Proof.
  intros Hh _ Hnow Hne Hrun. cbn. split; [|done]. split_and!; [done..|apply Hh|done|]. by split_and!.
Qed.

Lemma lease_change s l id w now : holds s (ms_tasks l) → legacy_ok l → sane_time now →
  (∀ t, ms_tasks l !! id = Some t → u64 (tk_TaskLeaseEpoch t + 1) ≠ 0) →
  let '(s', r, c) := lease_shard s id w now in
  same_change id s l s' c (LeaseTask l id w now).1 ∧ r = (LeaseTask l id w now).2.
Proof.
  intros Hh [Hl _] Hnow Hep. unfold lease_shard, LeaseTask. rewrite (proj2 Hh).
  destruct (ms_tasks l !! id) as [t|] eqn:Ht; [|done]. destruct (isTerminalTaskStatus _); [done|].
  pose proof (Hl _ _ Ht) as (Hid & Hne & _). cbn. rewrite Hid. split_and!; [done..| |done].
  split_and!; [done..|]. intros _. by apply Hep.
Qed.

Lemma requeue_change s l id e maxAge now : holds s (ms_tasks l) → legacy_ok l → sane_time now →
  let '(s', r, c) := requeue_shard s id e maxAge now in
  same_change id s l s' c (RequeueTaskIfLeaseExpired l id e maxAge now).1 ∧
  r = (RequeueTaskIfLeaseExpired l id e maxAge now).2.
Proof.
  intros Hh [Hl _] Hnow. unfold requeue_shard, RequeueTaskIfLeaseExpired. rewrite (proj2 Hh).
  destruct (_ || _); [done|]. destruct (ms_tasks l !! id) as [t|] eqn:Ht; [|done].
  unfold is_running. destruct (_ || _); [done|]. destruct (_ <? _); [done|].
  pose proof (Hl _ _ Ht) as (Hid & Hne & _). cbn. rewrite Hid. split_and!; [done..| |done]. by split_and!.
Qed.

Lemma lease_held_epoch t w e : lease_held t w e = true → is_running t = true ∧ tk_TaskLeaseEpoch t ≠ 0.
Proof. unfold lease_held, is_running. intros H. split; [by destruct (_ =? TASK_STATUS_RUNNING)|]. intros He. rewrite He in H. by rewrite andb_false_r in H. Qed.

Lemma complete_change s l id w e st res err now : holds s (ms_tasks l) → legacy_ok l → sane_time now →
  let '(s', r, c) := complete_shard s id w e st res err now in
  same_change id s l s' c (CompleteTask l id w e st res err now).1 ∧ r = (CompleteTask l id w e st res err now).2.
Proof.
  intros Hh [Hl _] Hnow. unfold complete_shard, CompleteTask. rewrite (proj2 Hh).
  destruct (ms_tasks l !! id) as [t|] eqn:Ht; [|done]. destruct (isTerminalTaskStatus _); [done|].
  destruct (lease_held t w e) eqn:Hheld; [|done]. apply lease_held_epoch in Hheld as [_ Hep].
  pose proof (Hl _ _ Ht) as (Hid & Hne & _). cbn. rewrite Hid. split_and!; [done..| |done]. by split_and!.
Qed.

(** ** Expired leases *)

(** Running, and last stamped at least [ms] milliseconds before [now]. *)
Definition expired (now ms : Z) (t : Task) : bool := is_running t && negb (i64 (now - tk_UpdatedAtMs t) <? ms).
(** The records after all expired leases were requeued, each at its own time. *)
Definition requeue_all (now ms : Z) (stamp : string → Z) (m : gmap string Task) : gmap string Task :=
  map_imap (λ id t, Some (if expired now ms t then requeued_task t (stamp id) else t)) m.
Definition requeued_copies (now ms : Z) (stamp : string → Z) (m : gmap string Task) : list Task :=
  omap (λ kv, if expired now ms kv.2 then Some (requeued_copy kv.2 (stamp kv.1)) else None) (map_to_list m).

Lemma expired_sane now ms t : sane_time now → sane_time (tk_UpdatedAtMs t) →
  expired now ms t = is_running t && (tk_UpdatedAtMs t <=? now - ms).
Proof.
  unfold sane_time, expired. intros. rewrite i64_id by (unfold in_i64; lia). f_equal.
  destruct (Z.ltb_spec (now - tk_UpdatedAtMs t) ms), (Z.leb_spec (tk_UpdatedAtMs t) (now - ms)); cbn; lia || done.
Qed.

Lemma not_expired_idle now ms t : is_running t = false → expired now ms t = false.
Proof. unfold expired. by intros ->. Qed.

Lemma requeue_all_lookup now ms stamp m id :
  requeue_all now ms stamp m !! id =
  (λ t, if expired now ms t then requeued_task t (stamp id) else t) <$> m !! id.
Proof. unfold requeue_all. rewrite map_lookup_imap. by destruct (m !! id). Qed.

(** A list computed from the entries of a map depends on the entries alone. *)
Lemma omap_entries_ext {B} (f g : string * Task → option B) (m : gmap string Task) :
  (∀ id t, m !! id = Some t → f (id, t) = g (id, t)) → omap f (map_to_list m) = omap g (map_to_list m).
Proof.
  intros H. apply list_omap_ext, Forall_Forall2_diag, Forall_forall.
  intros [id t] Hin%elem_of_map_to_list. by apply H.
Qed.

Lemma requeue_none now ms stamp m : map_Forall (λ _ t, expired now ms t = false) m →
  requeue_all now ms stamp m = m ∧ requeued_copies now ms stamp m = [].
Proof.
  intros Hall. split.
  - apply map_eq. intros id. rewrite requeue_all_lookup. destruct (m !! id) eqn:Hid; [|done]. cbn.
    by rewrite (Hall _ _ Hid).
  - unfold requeued_copies. rewrite (omap_entries_ext _ (λ _, None)).
    + by induction (map_to_list m).
    + intros id t Hid. cbn. by rewrite (Hall _ _ Hid).
Qed.

Lemma requeued_copies_insert now ms stamp m id t : m !! id = None →
  requeued_copies now ms stamp (<[id := t]> m) ≡ₚ
  (if expired now ms t then [requeued_copy t (stamp id)] else []) ++ requeued_copies now ms stamp m.
Proof. intros Hm. unfold requeued_copies. rewrite map_to_list_insert by done. cbn. by destruct (expired now ms t). Qed.

(** Requeuing one expired task first, then the rest. *)
Definition stamp_at (stamp : string → Z) (id : string) (at_ms : Z) (x : string) : Z :=
  if bool_decide (x = id) then at_ms else stamp x.
Lemma requeue_one now ms stamp m id t at_ms : m !! id = Some t → expired now ms t = true →
  let m1 := <[id := requeued_task t at_ms]> m in
  requeue_all now ms (stamp_at stamp id at_ms) m = requeue_all now ms stamp m1 ∧
  requeued_copies now ms (stamp_at stamp id at_ms) m ≡ₚ requeued_copy t at_ms :: requeued_copies now ms stamp m1.
Proof.
  intros Hid Hx m1. unfold m1, stamp_at. split.
  - apply map_eq. intros x. rewrite !requeue_all_lookup. destruct (decide (x = id)) as [->|Hne].
    + rewrite lookup_insert_eq, Hid, bool_decide_true by done. cbn. by rewrite Hx.
    + by rewrite lookup_insert_ne, bool_decide_false by done.
  - rewrite <- (insert_delete_id m id t) at 1 by done. rewrite <- (insert_delete_eq m id).
    rewrite !requeued_copies_insert by apply lookup_delete_eq.
    rewrite Hx, (not_expired_idle now ms (requeued_task t at_ms)), bool_decide_true by done. cbn.
    apply Permutation_skip. unfold requeued_copies. apply reflexive_eq, omap_entries_ext.
    intros x v [Hne _]%lookup_delete_Some. cbn. by rewrite bool_decide_false.
Qed.

(** ** The loop of [requeueExpiredRunning] *)

Lemma tracked_task s l id d : store_rel s l → deadlines (ts_running s) !! id = Some d →
  ∃ t, ms_tasks l !! id = Some t ∧ is_running t = true ∧
       d = {| td_taskID := id; td_updatedAtMs := tk_UpdatedAtMs t; td_leaseEpoch := tk_TaskLeaseEpoch t |}.
Proof.
  intros (_ & _ & [_ Hx] & Hl & _) Hd. specialize (Hx id). apply (f_equal vw_deadline) in Hx.
  cbn [view_of_task vw_deadline] in Hx. rewrite Hd in Hx. destruct (ms_tasks l !! id) as [t|] eqn:Ht; [|done].
  cbn in Hx. unfold deadline_of in Hx. destruct (is_running t) eqn:Hr; [|done]. cbn in Hx. case_match; [|done].
  simplify_eq. exists t. split_and!; [done..|]. by apply Hl in Ht as [-> _].
Qed.

Lemma running_tracked s l id t : store_rel s l → ms_tasks l !! id = Some t → is_running t = true →
  ∃ d, deadlines (ts_running s) !! id = Some d.
Proof.
  intros (_ & _ & [_ Hx] & Hl & _) Ht Hr. specialize (Hx id). apply (f_equal vw_deadline) in Hx.
  cbn [view_of_task vw_deadline] in Hx. rewrite Hx, Ht. cbn. unfold deadline_of. rewrite Hr.
  pose proof (Hl _ _ Ht) as (_ & _ & _ & Hep). destruct (Z.eqb_spec (tk_TaskLeaseEpoch t) 0) as [He|]; [|cbn; eauto].
  by destruct (Hep Hr).
Qed.

(** The requeue of a task whose deadline was just popped. *)
Lemma requeue_popped s l q t id maxAge now :
  store_rel s l → ms_tasks l !! id = Some t → is_running t = true →
  queue_ok q → deadlines q = delete id (deadlines (ts_running s)) →
  0 < maxAge → sane_time now → (i64 (now - tk_UpdatedAtMs t) <? Milliseconds maxAge) = false →
  let r := requeueTaskAt (with_running s q) id (tk_TaskLeaseEpoch t) maxAge now in
  store_rel r.1 (put_task l id (requeued_task t now)) ∧ r.2 = (requeued_copy t now, true).
Proof.
  intros (Hh & Hi & [Hq Hx] & Hl) Ht Hr Hq' Hd Hage Hnow Hold.
  pose proof (proj1 Hl _ _ Ht) as (Hid & Hne & _ & Hep).
  unfold requeueTaskAt, requeue_shard. change (shard_get (with_running s q) id) with (shard_get s id).
  rewrite (proj2 Hh), Ht, Hr, Hold, Z.eqb_refl. destruct (Z.leb_spec maxAge 0); [lia|].
  rewrite (proj2 (str_empty_false id)) by done. destruct (Z.eqb_spec (tk_TaskLeaseEpoch t) 0); [by destruct (Hep Hr)|].
  cbn [orb negb and_indexes fst snd]. split; [|done].
  set (s1 := shard_put (with_running s q) id (requeued_task t now)).
  unfold replaceTaskIndexes. set (acts := index_actions _ _).
  assert (Hacts : Forall (λ a, action_ok a ∧ action_task a = id) acts).
  { rewrite <- Hid. apply (index_actions_ok (Some t) (requeued_task t now)). done. }
  destruct (run_actions_view acts s1 id Hq' Hacts) as (Hq'' & Hv & Ho).
  destruct (run_actions_store acts s1) as [Hsh Hid'].
  split_and!.
  - pose proof (holds_put s _ id (requeued_task t now) Hh) as [Hlen Hg]. split; [by rewrite Hsh|].
    intros x. unfold shard_get. rewrite Hsh. apply Hg.
  - by rewrite Hid'.
  - split; [done|]. intros x. unfold exact_on. cbn [ms_tasks put_task]. destruct (decide (x = id)) as [->|Hxid].
    + rewrite Hv, lookup_insert_eq. pose proof (actions_exact (Some t) (requeued_task t now) ltac:(done)) as <-.
      fold acts. specialize (Hx id). rewrite Ht in Hx. rewrite <- Hx. unfold acts, index_actions.
      rewrite Hr. done.
    + rewrite Ho, lookup_insert_ne by done. specialize (Hx x). unfold exact_on in Hx. rewrite <- Hx.
      unfold s1, view_of_task. cbn. by rewrite Hd, lookup_delete_ne.
  - pose proof (legacy_put l (requeued_task t now) Hl) as Hput. cbn in Hput. rewrite Hid in Hput.
    apply Hput. by split_and!.
Qed.

Definition running_count (m : gmap string Task) : nat := size (filter (λ kv, is_running kv.2 = true) m).

Lemma running_count_requeue m id t now : m !! id = Some t → is_running t = true →
  running_count m = S (running_count (<[id := requeued_task t now]> m)).
Proof.
  intros Ht Hr. unfold running_count. rewrite map_filter_insert_False by done.
  rewrite map_filter_delete. set (f := filter _ _).
  assert (Hf : f !! id = Some t) by (by apply map_lookup_filter_Some).
  rewrite map_size_delete_Some by (by eexists).
  assert (size f ≠ 0%nat); [|lia]. intros H0. apply map_size_empty_inv in H0. by rewrite H0, lookup_empty in Hf.
Qed.

Lemma requeue_loop_spec fuel s l now maxAge clock acc :
  store_rel s l → (running_count (ms_tasks l) < fuel)%nat → 0 < maxAge → sane_time now → sane_time (Milliseconds maxAge) →
  (∀ k, sane_time (clock k) ∧ now <= clock k) →
  ∃ s' stamp out,
    requeue_loop fuel s (i64 (now - Milliseconds maxAge)) maxAge clock acc = Some (s', acc ++ out) ∧
    (∀ id, stamp id = now ∨ ∃ k, stamp id = clock k) ∧
    out ≡ₚ requeued_copies now (Milliseconds maxAge) stamp (ms_tasks l) ∧
    store_rel s' {| ms_tasks := requeue_all now (Milliseconds maxAge) stamp (ms_tasks l);
                    ms_taskByIdemKey := ms_taskByIdemKey l |}.
Proof.
  revert s l clock acc. induction fuel as [|fuel IH]; intros s l clock acc Hrel Hfuel Hage Hnow Hms Hclock; [lia|].
  set (ms := Milliseconds maxAge) in *. rewrite i64_id by (unfold sane_time, in_i64 in *; lia).
  cbn [requeue_loop]. unfold pop_running. pose proof Hrel as (_ & _ & [Hq _] & Hl & _).
  pose proof (popRunningBefore_spec (ts_running s) (now - ms) Hq) as Hpop.
  destruct (popRunningBefore (ts_running s) (now - ms)) as [q [d|]].
  - destruct Hpop as (Hq' & Hd & Hdue & _ & Hdel).
    destruct (tracked_task s l _ d Hrel Hd) as (t & Ht & Hr & Hdt).
    set (id := td_taskID d) in *. destruct d as [d1 d2 d3]. injection Hdt as -> ->. cbn [td_updatedAtMs] in Hdue.
    destruct (Hclock 0%nat) as [Hc0 Hle]. pose proof (Hl _ _ Ht) as (_ & _ & Hupd & _).
    destruct (requeue_popped s l q t id maxAge (clock 0%nat)) as [Hrel' Hreply]; [done..| |].
    { fold ms. unfold sane_time in *. rewrite i64_id by (unfold in_i64; lia). apply Z.ltb_ge. lia. }
    cbn [td_leaseEpoch]. destruct (requeueTaskAt _ _ _ _ _) as [s2 r]. cbn [fst snd] in *. subst r.
    destruct (IH s2 _ (λ k, clock (S k)) (acc ++ [requeued_copy t (clock 0%nat)]) Hrel')
      as (s' & stamp & out & Hloop & Hstamp & Hout & Hrel'').
    { cbn [ms_tasks put_task]. pose proof (running_count_requeue _ id t (clock 0%nat) Ht Hr). lia. }
    1-3: done. { intros k. apply Hclock. }
    fold ms in Hloop. rewrite i64_id in Hloop by (unfold sane_time, in_i64 in *; lia).
    assert (Hexp : expired now ms t = true) by (rewrite expired_sane, Hr by done; apply Z.leb_le; lia).
    destruct (requeue_one now ms stamp (ms_tasks l) id t (clock 0%nat) Ht Hexp) as [Hall Hcopies].
    exists s', (stamp_at stamp id (clock 0%nat)), (requeued_copy t (clock 0%nat) :: out). split_and!.
    + by rewrite Hloop, <- app_assoc.
    + intros x. unfold stamp_at. case_bool_decide; [eauto|]. destruct (Hstamp x) as [?|[k ?]]; eauto.
    + by rewrite Hcopies, Hout.
    + rewrite Hall. apply Hrel''.
  - destruct Hpop as [-> Hnone]. exists s, (λ _, now), [].
    destruct (requeue_none now ms (λ _, now) (ms_tasks l)) as [Hall Hcopies].
    { intros id t Ht. destruct (is_running t) eqn:Hr; [|by apply not_expired_idle].
      rewrite expired_sane, Hr by (done || by apply Hl in Ht as (_ & _ & ? & _)).
      destruct (running_tracked s l id t Hrel Ht Hr) as [d Hd]. destruct (tracked_task s l id d Hrel Hd) as (t' & Ht' & _ & ->).
      simplify_eq. apply Hnone in Hd. cbn in Hd. apply Z.leb_gt. lia. }
    split_and!; [|by left|by rewrite Hcopies|rewrite Hall; by destruct l].
    rewrite app_nil_r. by destruct s.
Qed.

(** ** The same loop of the single-lock store *)

Definition requeued_at (now ms : Z) (t : Task) : option Task :=
  if expired now ms t then Some (requeued_copy t now) else None.

Lemma requeue_expired_loop now ms range l acc :
  NoDup range →
  foldl (requeue_expired now ms) (l, acc) range =
  ({| ms_tasks := map_imap (λ id t, Some (if bool_decide (id ∈ range) && expired now ms t then requeued_task t now else t)) (ms_tasks l);
      ms_taskByIdemKey := ms_taskByIdemKey l |},
   acc ++ omap (λ id, ms_tasks l !! id ≫= requeued_at now ms) range).
Proof.
  revert l acc. induction range as [|id range IH]; intros l acc Hnd.
  { cbn. rewrite app_nil_r. f_equal. destruct l as [m k]. cbn. f_equal. apply map_eq. intros x.
    rewrite map_lookup_imap. by destruct (m !! x). }
  apply NoDup_cons in Hnd as [Hni Hnd]. cbn [foldl omap list_omap].
  assert (Hstep : requeue_expired now ms (l, acc) id =
    ({| ms_tasks := alter (λ t, if expired now ms t then requeued_task t now else t) id (ms_tasks l); ms_taskByIdemKey := ms_taskByIdemKey l |},
     acc ++ match ms_tasks l !! id ≫= requeued_at now ms with Some t => [t] | None => [] end)).
  { unfold requeue_expired, requeued_at, expired, is_running, put_task. destruct l as [m k]. cbn [ms_tasks ms_taskByIdemKey].
    destruct (m !! id) as [t|] eqn:Ht; cbn;
      [|rewrite app_nil_r; f_equal; f_equal; apply map_eq; intros x; destruct (decide (x = id)) as [->|Hne];
        [by rewrite lookup_alter_eq, Ht|by rewrite lookup_alter_ne]].
    destruct (tk_Status t =? TASK_STATUS_RUNNING) eqn:Hs, (i64 (now - tk_UpdatedAtMs t) <? ms) eqn:Ha; cbn;
      rewrite ?app_nil_r; f_equal; f_equal; apply map_eq; intros x; (destruct (decide (x = id)) as [->|Hne];
        [rewrite lookup_alter_eq, Ht, ?lookup_insert_eq; cbn; by rewrite ?Hs, ?Ha
        |by rewrite lookup_alter_ne, ?lookup_insert_ne by done]). }
  rewrite Hstep, IH by done. cbn [ms_tasks ms_taskByIdemKey]. f_equal.
  - f_equal. apply map_eq. intros x. rewrite !map_lookup_imap. destruct (decide (x = id)) as [->|Hne].
    + rewrite lookup_alter_eq. destruct (ms_tasks l !! id) as [t|]; [|done]. cbn.
      rewrite bool_decide_false, bool_decide_true by (done || by left). done.
    + rewrite lookup_alter_ne by done. destruct (ms_tasks l !! x); [|done]. cbn.
      by rewrite (bool_decide_ext (x ∈ id :: range) (x ∈ range)) by set_solver.
  - rewrite <- app_assoc. f_equal.
    assert (Hr : omap (λ x, alter (λ t, if expired now ms t then requeued_task t now else t) id (ms_tasks l) !! x ≫= requeued_at now ms) range =
      omap (λ x, ms_tasks l !! x ≫= requeued_at now ms) range).
    { apply list_omap_ext, Forall_Forall2_diag, Forall_forall. intros x Hx. rewrite lookup_alter_ne; [done|congruence]. }
    rewrite Hr. by destruct (ms_tasks l !! id ≫= requeued_at now ms).
Qed.

(** An order in which Go may range over the keys of [m]. *)
Definition range_of (m : gmap string Task) (range : list string) : Prop := range ≡ₚ (map_to_list m).*1.

Lemma range_nodup m range : range_of m range → NoDup range.
Proof. intros Hr. rewrite (Hr : _ ≡ₚ _). apply NoDup_fst_map_to_list. Qed.
Lemma range_elem m range id : range_of m range → id ∈ range ↔ is_Some (m !! id).
Proof.
  intros Hr. rewrite (Hr : _ ≡ₚ _), list_elem_of_fmap. split.
  - intros ([k t] & -> & Hin%elem_of_map_to_list). by eexists.
  - intros [t Ht]. exists (id, t). split; [done|]. by apply elem_of_map_to_list.
Qed.
Lemma range_omap {B} (f : string → option B) m range : range_of m range →
  omap f range ≡ₚ omap (λ kv, f kv.1) (map_to_list m).
Proof.
  intros Hr. rewrite (Hr : _ ≡ₚ _). apply reflexive_eq.
  induction (map_to_list m) as [|[k t] l IH]; [done|]. cbn. by rewrite IH.
Qed.

Lemma legacy_requeue_spec l maxAge now range : 0 < maxAge → range_of (ms_tasks l) range →
  ∃ out, RequeueExpiredRunningTasks l maxAge now range =
    ({| ms_tasks := requeue_all now (Milliseconds maxAge) (λ _, now) (ms_tasks l);
        ms_taskByIdemKey := ms_taskByIdemKey l |}, out) ∧
    out ≡ₚ requeued_copies now (Milliseconds maxAge) (λ _, now) (ms_tasks l).
Proof.
  intros Hage Hr. unfold RequeueExpiredRunningTasks. destruct (Z.leb_spec maxAge 0); [lia|].
  rewrite requeue_expired_loop by (by eapply range_nodup). eexists. split.
  - f_equal. f_equal. unfold requeue_all. apply map_eq. intros id. rewrite !map_lookup_imap.
    destruct (ms_tasks l !! id) eqn:Hid; [|done]. cbn.
    by rewrite bool_decide_true by (apply (range_elem _ _ _ Hr); by eexists).
  - cbn. rewrite (range_omap _ _ _ Hr). unfold requeued_copies. apply reflexive_eq, omap_entries_ext.
    intros id t Ht. cbn. by rewrite Ht.
Qed.

(** ** Sequences of operations *)

Inductive task_op :=
| OpCreate (task : Task) (idempotencyKey : string)
| OpGet (taskID : string)
| OpGetByKey (idempotencyKey : string)
| OpList
| OpListByStatus (status : Z)
| OpLease (taskID workerID : string)
| OpValidate (taskID workerID : string) (leaseEpoch : Z)
| OpRequeueExpired (maxAge : Z)
| OpRequeueOne (taskID : string) (leaseEpoch maxAge : Z)
| OpComplete (taskID workerID : string) (leaseEpoch status : Z) (resultJSON : bytes) (taskErr : string).
Inductive reply :=
| RTask (t : Task) (b : bool)
| RResult (r : result store_error Task)
| RTasks (ts : list Task).
#[export] Instance reply_eq_dec : EqDecision reply.
Proof. solve_decision. Defined.

(** The single-lock store at time [now], when Go ranges over its tasks in order
    [range]; a caller lists tasks by status by filtering [ListTasks]. *)
Definition legacy_op (l : MemoryStore) (op : task_op) (now : Z) (range : list string) : MemoryStore * reply :=
  match op with
  | OpCreate task key => let '(l, (t, b)) := CreateTask l task key now in (l, RTask t b)
  | OpGet id => let (t, b) := GetTask l id in (l, RTask t b)
  | OpGetByKey key => let (t, b) := GetTaskByIdempotencyKey l key in (l, RTask t b)
  | OpList => (l, RTasks (ListTasks l range))
  | OpListByStatus st => (l, RTasks (filter (λ t, tk_Status t = st) (ListTasks l range)))
  | OpLease id w => let (l, r) := LeaseTask l id w now in (l, RResult r)
  | OpValidate id w e => (l, RResult (ValidateTaskLease l id w e))
  | OpRequeueExpired maxAge => let (l, ts) := RequeueExpiredRunningTasks l maxAge now range in (l, RTasks ts)
  | OpRequeueOne id e maxAge => let '(l, (t, b)) := RequeueTaskIfLeaseExpired l id e maxAge now in (l, RTask t b)
  | OpComplete id w e st res err => let (l, r) := CompleteTask l id w e st res err now in (l, RResult r)
  end.

(** The sharded store at time [now]; [None] when [fuel] runs out. *)
Definition sharded_op (fuel : nat) (s : taskStore) (op : task_op) (now : Z) : option (taskStore * reply) :=
  match op with
  | OpCreate task key => let '(s, (t, b)) := create s task key now in Some (s, RTask t b)
  | OpGet id => let (t, b) := get s id in Some (s, RTask t b)
  | OpGetByKey key => let (t, b) := getByIdempotencyKey s key in Some (s, RTask t b)
  | OpList => Some (s, RTasks (list_tasks s))
  | OpListByStatus st => Some (s, RTasks (listByStatus s st))
  | OpLease id w => let (s, r) := lease s id w now in Some (s, RResult r)
  | OpValidate id w e => Some (s, RResult (validateLease s id w e))
  | OpRequeueExpired maxAge =>
      '(s, ts) ← requeueExpiredRunning fuel s maxAge (λ _, now); Some (s, RTasks ts)
  | OpRequeueOne id e maxAge => let '(s, (t, b)) := requeueTaskIfLeaseExpired s id e maxAge now in Some (s, RTask t b)
  | OpComplete id w e st res err => let (s, r) := complete s id w e st res err now in Some (s, RResult r)
  end.

(** Replies agree up to the order of lists. *)
Inductive reply_eq : reply → reply → Prop :=
| reply_same r : reply_eq r r
| reply_tasks ts ts' : ts ≡ₚ ts' → reply_eq (RTasks ts) (RTasks ts').

(** Conditions on a call: a created task has an ID, and a lease epoch if it is
    created running; lease epochs do not wrap; ages are below 2^62 ms. *)
Definition op_ok (l : MemoryStore) (op : task_op) : Prop :=
  match op with
  | OpCreate task _ => tk_TaskID task ≠ ""%string ∧ (is_running task = true → tk_TaskLeaseEpoch task ≠ 0)
  | OpLease id _ => ∀ t, ms_tasks l !! id = Some t → u64 (tk_TaskLeaseEpoch t + 1) ≠ 0
  | OpRequeueExpired maxAge => 0 < maxAge → sane_time (Milliseconds maxAge)
  | _ => True
  end.

(** ** Lists *)

Lemma omap_same_support {A B} `{EqDecision A} (f : A → option B) (l l' : list A) :
  NoDup l → NoDup l' → (∀ x, is_Some (f x) → x ∈ l ↔ x ∈ l') → omap f l ≡ₚ omap f l'.
Proof.
  intros Hnd Hnd' Hsup.
  assert (Hf : ∀ l : list A, omap f l = omap f (filter (λ x, is_Some (f x)) l)).
  { clear. induction l as [|x l IH]; [done|]. rewrite filter_cons. cbn. case_decide as Hx; cbn.
    - by rewrite IH.
    - apply eq_None_not_Some in Hx. by rewrite Hx. }
  rewrite (Hf l), (Hf l'). apply omap_Permutation, NoDup_Permutation; [by apply NoDup_filter..|].
  intros x. rewrite !list_elem_of_filter. naive_solver.
Qed.

Lemma sort_strings_perm ids : sort_strings ids ≡ₚ ids.
Proof. apply merge_sort_Permutation. Qed.

Lemma listed_exact s m id : indexes_ok s m → id ∈ ts_allTasks s ↔ is_Some (m !! id).
Proof.
  intros [_ Hx]. specialize (Hx id). apply (f_equal vw_listed) in Hx. cbn in Hx.
  rewrite <- (bool_decide_spec (id ∈ ts_allTasks s)), Hx. destruct (m !! id); cbn; [|by split; [|intros [? ?]]].
  split; [by eexists|done].
Qed.

Lemma status_exact s m st id : indexes_ok s m → indexedTaskStatus st = true →
  id ∈ default ∅ (ts_byStatus s !! st) ↔ tk_Status <$> m !! id = Some st.
Proof.
  intros [_ Hx] Hst. specialize (Hx id). apply (f_equal vw_status) in Hx. cbn in Hx.
  rewrite <- elem_of_keys, Hx. destruct (m !! id) as [t|]; cbn; [|set_solver].
  unfold status_of. destruct (indexedTaskStatus (tk_Status t)) eqn:Ht; cbn.
  - rewrite elem_of_singleton. naive_solver.
  - split; [set_solver|]. intros [= Heq]. congruence.
Qed.

Lemma get_holds s m id : holds s m → get s id = match m !! id with Some t => (t, true) | None => (zero_task, false) end.
Proof. intros [_ Hg]. unfold get. by rewrite Hg. Qed.

Lemma list_tasks_spec s l range : store_rel s l → range_of (ms_tasks l) range → list_tasks s ≡ₚ ListTasks l range.
Proof.
  intros (Hh & _ & Hx & _) Hr. unfold list_tasks, ListTasks, allIndexedTaskIDs.
  rewrite sort_strings_perm. trans (omap (ms_tasks l !!.) (elements (ts_allTasks s))).
  - apply reflexive_eq, list_omap_ext, Forall_Forall2_diag, Forall_forall. intros id _.
    rewrite (get_holds s (ms_tasks l)) by done. by destruct (ms_tasks l !! id).
  - apply omap_same_support; [apply NoDup_elements|by eapply range_nodup|].
    intros id Hid. by rewrite elem_of_elements, (listed_exact s (ms_tasks l)), (range_elem _ _ _ Hr).
Qed.

Lemma listByStatus_spec s l range st : store_rel s l → range_of (ms_tasks l) range →
  listByStatus s st ≡ₚ filter (λ t, tk_Status t = st) (ListTasks l range).
Proof.
  intros (Hh & _ & Hx & _) Hr. unfold listByStatus, ListTasks.
  set (f := λ id, t ← ms_tasks l !! id; if tk_Status t =? st then Some t else None).
  trans (omap f range).
  - trans (omap f (indexedTaskIDsByStatus s st)).
    + apply reflexive_eq, list_omap_ext, Forall_Forall2_diag, Forall_forall. intros id _.
      rewrite (get_holds s (ms_tasks l)) by done. unfold f. by destruct (ms_tasks l !! id).
    + assert (Hf : ∀ id, is_Some (f id) → tk_Status <$> ms_tasks l !! id = Some st).
      { intros id [t Ht]. unfold f in Ht. destruct (ms_tasks l !! id) as [t'|]; [|done]. cbn in *.
        destruct (Z.eqb_spec (tk_Status t') st); congruence. }
      unfold indexedTaskIDsByStatus. rewrite sort_strings_perm.
      apply omap_same_support; [apply NoDup_elements|by eapply range_nodup|].
      intros id Hid%Hf. rewrite (range_elem _ _ _ Hr), elem_of_elements.
      destruct (indexedTaskStatus st) eqn:Hst; [rewrite (status_exact s (ms_tasks l)) by done|by apply listed_exact].
      split; [|done]. intros _. by destruct (ms_tasks l !! id).
  - apply reflexive_eq. unfold f. clear. induction range as [|id range IH]; [done|]. cbn.
    destruct (ms_tasks l !! id) as [t|]; cbn; [|done].
    destruct (Z.eqb_spec (tk_Status t) st); case_decide; rewrite ?IH; done.
Qed.

(** ** Creation *)

Lemma with_idem_rel s l key id t : store_rel s l → ms_tasks l !! id = Some t →
  store_rel (with_byIdem s (<[key := id]> (ts_byIdem s)))
    {| ms_tasks := ms_tasks l; ms_taskByIdemKey := <[key := id]> (ms_taskByIdemKey l) |}.
Proof.
  intros (Hh & Hi & Hx & Hl & Hk) Ht. split_and!; [done|cbn; by rewrite Hi|done|].
  split; [done|]. apply map_Forall_insert_2; [by eexists|done].
Qed.

Lemma create_fresh_rel s l task key now :
  store_rel s l → sane_time now → tk_TaskID task ≠ ""%string → (is_running task = true → tk_TaskLeaseEpoch task ≠ 0) →
  let r := createWithoutIdemLock s task key now in
  store_rel r.1 (put_task l (tk_TaskID task) (set_created task key now)) ∧ r.2 = set_created task key now.
Proof.
  intros Hrel Hnow Hne Hrun. pose proof Hrel as (Hh & _ & _ & Hl). pose proof (create_change s l task key now Hh Hl Hnow Hne Hrun) as Hc.
  unfold createWithoutIdemLock. destruct (create_shard s task key now) as [[s' t] c]. destruct Hc as [Hc ->].
  by eapply and_indexes_rel.
Qed.

Lemma create_rel s l task key now :
  store_rel s l → sane_time now → tk_TaskID task ≠ ""%string → (is_running task = true → tk_TaskLeaseEpoch task ≠ 0) →
  store_rel (create s task key now).1 (CreateTask l task key now).1 ∧
  (create s task key now).2 = (CreateTask l task key now).2.
Proof.
  intros Hrel Hnow Hne Hrun. unfold create, CreateTask. destruct (str_empty key) eqn:Hkey.
  - apply bool_decide_eq_true in Hkey as ->.
    destruct (create_fresh_rel s l task "" now) as [Hrel' Heq]; [done..|].
    destruct (createWithoutIdemLock s task "" now). cbn in *. by subst.
  - pose proof Hrel as (Hh & Hi & _ & _ & Hk). rewrite Hi. destruct (ms_taskByIdemKey l !! key) as [id|] eqn:Hid.
    + destruct (Hk _ _ Hid) as [t Ht]. rewrite (get_holds s (ms_tasks l)) by done. unfold task_or_zero. by rewrite Ht.
    + destruct (create_fresh_rel s l task key now) as [Hrel' Heq]; [done..|].
      destruct (createWithoutIdemLock s task key now). cbn in *. subst. split; [|done].
      eapply (with_idem_rel _ _ key _ _ Hrel'). cbn. apply lookup_insert_eq.
Qed.

(** ** The refinement *)

Lemma running_le_size m : (running_count m <= size m)%nat.
Proof. unfold running_count. apply map_subseteq_size, map_filter_subseteq. Qed.

Lemma get_rel s l id : store_rel s l → get s id = GetTask l id.
Proof. intros (Hh & _). unfold GetTask. by rewrite (get_holds s (ms_tasks l)). Qed.

(** One operation. *)
Lemma op_rel fuel s l op now range :
  store_rel s l → op_ok l op → sane_time now → range_of (ms_tasks l) range → (size (ms_tasks l) < fuel)%nat →
  ∃ s' r, sharded_op fuel s op now = Some (s', r) ∧
    store_rel s' (legacy_op l op now range).1 ∧ reply_eq r (legacy_op l op now range).2.
Proof.
  intros Hrel Hok Hnow Hrange Hfuel. destruct op as [task key|id|key| |st|id w|id w e|maxAge|id e maxAge|id w e st res err].
  - destruct Hok as [Hne Hrun]. pose proof (create_rel s l task key now Hrel Hnow Hne Hrun) as [Hrel' Hr].
    cbn. destruct (create s task key now) as [s' [t b]], (CreateTask l task key now) as [l' [t' b']]. cbn in *.
    simplify_eq. eauto using reply_same.
  - cbn. rewrite (get_rel s l) by done. destruct (GetTask l id). eauto using reply_same.
  - cbn. unfold getByIdempotencyKey, GetTaskByIdempotencyKey. pose proof Hrel as (_ & -> & _).
    destruct (str_empty key); [eauto using reply_same|]. destruct (ms_taskByIdemKey l !! key); [|eauto using reply_same].
    rewrite (get_rel s l) by done. destruct (GetTask l _). eauto using reply_same.
  - do 2 eexists. split_and!; [done..|]. apply reply_tasks. by apply list_tasks_spec.
  - do 2 eexists. split_and!; [done..|]. apply reply_tasks. by apply listByStatus_spec.
  - pose proof Hrel as (Hh & _ & _ & Hl). pose proof (lease_change s l id w now Hh Hl Hnow Hok) as Hc. cbn. unfold lease.
    destruct (lease_shard s id w now) as [[s' r] c]. destruct Hc as [Hc ->].
    destruct (and_indexes_rel (LeaseTask l id w now).2 _ _ _ _ _ _ Hrel Hc) as [Hrel' Hr].
    destruct (and_indexes _) as [s'' r'], (LeaseTask l id w now) as [l' r'']. cbn in *. subst. eauto using reply_same.
  - cbn. unfold validateLease, ValidateTaskLease. pose proof Hrel as ((_ & ->) & _). eauto using reply_same.
  - cbn. unfold requeueExpiredRunning. destruct (Z.leb_spec maxAge 0) as [Hle|Hgt].
    { unfold RequeueExpiredRunningTasks. rewrite (proj2 (Z.leb_le maxAge 0)) by done. eauto using reply_same. }
    destruct (requeue_loop_spec fuel s l now maxAge (λ _, now) []) as (s' & stamp & out & Hloop & Hst & Hout & Hrel');
      [done|pose proof (running_le_size (ms_tasks l)); lia|done|done|by apply Hok|by split|].
    destruct (legacy_requeue_spec l maxAge now range Hgt Hrange) as (out' & -> & Hout'). rewrite Hloop. cbn.
    assert (Hs : ∀ id, stamp id = now) by (intros id; by destruct (Hst id) as [?|[? ?]]).
    assert (Hall : requeue_all now (Milliseconds maxAge) stamp (ms_tasks l) = requeue_all now (Milliseconds maxAge) (λ _, now) (ms_tasks l)).
    { apply map_eq. intros id. by rewrite !requeue_all_lookup, Hs. }
    rewrite Hall in Hrel'. do 2 eexists. split_and!; [done..|]. apply reply_tasks. rewrite Hout, Hout'.
    apply reflexive_eq, omap_entries_ext. intros id t _. cbn. by rewrite Hs.
  - pose proof Hrel as (Hh & _ & _ & Hl). pose proof (requeue_change s l id e maxAge now Hh Hl Hnow) as Hc. cbn. unfold requeueTaskIfLeaseExpired, requeueTaskAt.
    destruct (requeue_shard s id e maxAge now) as [[s' r] c]. destruct Hc as [Hc ->].
    destruct (and_indexes_rel (RequeueTaskIfLeaseExpired l id e maxAge now).2 _ _ _ _ _ _ Hrel Hc) as [Hrel' Hr].
    destruct (and_indexes _) as [s'' [t b]], (RequeueTaskIfLeaseExpired l id e maxAge now) as [l' [t' b']]. cbn in *.
    simplify_eq. eauto using reply_same.
  - pose proof Hrel as (Hh & _ & _ & Hl). pose proof (complete_change s l id w e st res err now Hh Hl Hnow) as Hc. cbn. unfold complete.
    destruct (complete_shard s id w e st res err now) as [[s' r] c]. destruct Hc as [Hc ->].
    destruct (and_indexes_rel (CompleteTask l id w e st res err now).2 _ _ _ _ _ _ Hrel Hc) as [Hrel' Hr].
    destruct (and_indexes _) as [s'' r'], (CompleteTask l id w e st res err now) as [l' r'']. cbn in *. subst.
    eauto using reply_same.
Qed.

(** A call: the operation, the time, and Go's order over the single-lock store's
    map. *)
Definition call : Type := task_op * Z * list string.
Fixpoint legacy_run (l : MemoryStore) (calls : list call) : MemoryStore * list reply :=
  match calls with
  | [] => (l, [])
  | (op, now, range) :: calls =>
      let (l, r) := legacy_op l op now range in
      let (l, rs) := legacy_run l calls in (l, r :: rs)
  end.
Fixpoint sharded_run (fuel : nat) (s : taskStore) (calls : list call) : option (taskStore * list reply) :=
  match calls with
  | [] => Some (s, [])
  | (op, now, _) :: calls =>
      '(s, r) ← sharded_op fuel s op now;
      '(s, rs) ← sharded_run fuel s calls;
      Some (s, r :: rs)
  end.
Fixpoint calls_ok (l : MemoryStore) (calls : list call) : Prop :=
  match calls with
  | [] => True
  | (op, now, range) :: calls =>
      op_ok l op ∧ sane_time now ∧ range_of (ms_tasks l) range ∧ calls_ok (legacy_op l op now range).1 calls
  end.

Lemma put_task_size l id t : (size (ms_tasks (put_task l id t)) <= S (size (ms_tasks l)))%nat.
Proof.
  cbn. destruct (ms_tasks l !! id) eqn:Hid.
  - rewrite map_size_insert_Some by (by eexists). lia.
  - rewrite map_size_insert_None by done. lia.
Qed.

Lemma requeue_all_size now ms stamp m : size (requeue_all now ms stamp m) = size m.
Proof.
  rewrite <- !size_dom. f_equal. apply set_eq. intros id. rewrite !elem_of_dom, requeue_all_lookup.
  by rewrite fmap_is_Some.
Qed.

Lemma legacy_op_size l op now range : range_of (ms_tasks l) range →
  (size (ms_tasks (legacy_op l op now range).1) <= S (size (ms_tasks l)))%nat.
Proof.
  intros Hr. destruct op; cbn -[put_task].
  - unfold CreateTask. repeat case_match; simplify_eq; cbn; try lia; apply put_task_size.
  - destruct (GetTask _ _). cbn. lia.
  - destruct (GetTaskByIdempotencyKey _ _). cbn. lia.
  - lia.
  - lia.
  - unfold LeaseTask. repeat case_match; simplify_eq; cbn -[put_task]; try lia; apply put_task_size.
  - lia.
  - destruct (decide (0 < maxAge)) as [Hage|].
    + destruct (legacy_requeue_spec l maxAge now range Hage Hr) as (out & -> & _). cbn. rewrite requeue_all_size. lia.
    + unfold RequeueExpiredRunningTasks. rewrite (proj2 (Z.leb_le maxAge 0)) by lia. cbn. lia.
  - unfold RequeueTaskIfLeaseExpired. repeat case_match; simplify_eq; cbn -[put_task]; try lia; apply put_task_size.
  - unfold CompleteTask. repeat case_match; simplify_eq; cbn -[put_task]; try lia; apply put_task_size.
Qed.

Lemma run_rel fuel s l calls :
  store_rel s l → calls_ok l calls → (size (ms_tasks l) + length calls < fuel)%nat →
  ∃ s' rs, sharded_run fuel s calls = Some (s', rs) ∧
    store_rel s' (legacy_run l calls).1 ∧ Forall2 reply_eq rs (legacy_run l calls).2.
Proof.
  revert s l. induction calls as [|[[op now] range] calls IH]; intros s l Hrel Hok Hfuel.
  { exists s, []. split_and!; [done..|constructor]. }
  destruct Hok as (Hop & Hnow & Hrange & Hok). cbn [length] in Hfuel.
  destruct (op_rel fuel s l op now range) as (s1 & r & Hs & Hrel1 & Hr); [done..|lia|].
  pose proof (legacy_op_size l op now range Hrange) as Hsz. cbn [sharded_run legacy_run]. rewrite Hs. cbn.
  destruct (legacy_op l op now range) as [l1 r1]. cbn [fst snd] in *.
  destruct (IH s1 l1 Hrel1 Hok ltac:(lia)) as (s2 & rs & -> & Hrel2 & Hrs). cbn.
  destruct (legacy_run l1 calls) as [l2 rs2]. cbn in *. eauto 10 using Forall2_cons_2.
Qed.

(** C25: any sequence of operations gets the same replies, up to the order of
    lists, from the sharded store with its indexes and deadline heap as from the
    single-lock store, and the loop of [requeueExpiredRunning] ends: more rounds
    than calls so far are never needed. *)
Theorem sharded_store_refines_legacy fuel calls :
  calls_ok NewLegacyMemoryStore calls → (length calls < fuel)%nat →
  ∃ s rs, sharded_run fuel init calls = Some (s, rs) ∧
    Forall2 reply_eq rs (legacy_run NewLegacyMemoryStore calls).2 ∧
    ∀ id, get s id = GetTask (legacy_run NewLegacyMemoryStore calls).1 id.
Proof.
  intros Hok Hfuel. destruct (run_rel fuel init NewLegacyMemoryStore calls) as (s & rs & Hrun & Hrel & Hrs);
    [apply init_rel|done|done|].
  exists s, rs. split_and!; [done..|]. intros id. by apply get_rel.
Qed.

Definition demo_task (id : string) : Task := {|
  tk_TaskID := id; tk_TaskName := "sum"; tk_Status := TASK_STATUS_QUEUED; tk_ResultJSON := []; tk_Error := "";
  tk_WorkerID := ""; tk_WorkflowID := ""; tk_StepID := ""; tk_TargetWorkerID := ""; tk_ActorID := "";
  tk_ActorCallID := ""; tk_ActorEpoch := 0; tk_ActorCommandSeq := 0; tk_TaskLeaseEpoch := 0; tk_LLMModelName := "";
  tk_LLMModelVersion := ""; tk_IdempotencyKey := ""; tk_IdempotencyFingerprint := ""; tk_CreatedAtMs := 0;
  tk_UpdatedAtMs := 0 |}.
(** One millisecond of lease; the second worker completes, the first is fenced. *)
Definition demo_calls : list call := [
  (OpCreate (demo_task "a") "key", 100, []);
  (OpLease "a" "w1", 101, ["a"]);
  (OpRequeueExpired 1000000, 200, ["a"]);
  (OpLease "a" "w2", 201, ["a"]);
  (OpComplete "a" "w1" 1 TASK_STATUS_SUCCEEDED [] "", 202, ["a"]);
  (OpComplete "a" "w2" 2 TASK_STATUS_SUCCEEDED [] "", 203, ["a"]);
  (OpListByStatus TASK_STATUS_SUCCEEDED, 204, ["a"])].

Lemma sharded_store_refines_legacy_witness :
  calls_ok NewLegacyMemoryStore demo_calls ∧
  ∃ s rs, sharded_run 8 init demo_calls = Some (s, rs) ∧ rs !! 4%nat = Some (RResult (Err StaleTaskLease)) ∧
    tk_WorkerID (get s "a").1 = "w2"%string.
Proof.
  assert (Hok : calls_ok NewLegacyMemoryStore demo_calls).
  { cbn [demo_calls calls_ok]. repeat match goal with
      | |- _ ∧ _ => split
      | |- sane_time _ => unfold sane_time; lia
      | |- range_of _ _ => unfold range_of; apply reflexive_eq; vm_compute; reflexivity
      | |- op_ok _ (OpLease _ _) =>
          intros t Ht; vm_compute in Ht; injection Ht as <-; vm_compute; discriminate
      | |- op_ok _ (OpRequeueExpired _) => intros _; vm_compute; split; congruence
      | |- op_ok _ _ => by split || exact I
      | |- True => exact I
      end. }
  split; [done|].
  destruct (sharded_store_refines_legacy 8 demo_calls Hok) as (s & rs & Hrun & Hrs & Hget); [cbn; lia|].
  exists s, rs. split; [done|]. split; [|rewrite Hget; by vm_compute].
  assert (Hl : (legacy_run NewLegacyMemoryStore demo_calls).2 !! 4%nat = Some (RResult (Err StaleTaskLease))) by (by vm_compute).
  pose proof (Forall2_lookup_r _ _ _ _ _ Hrs Hl) as (r & Hr & Heq). inversion Heq; subst; done.
Defined.
