(* ===== verification/TaskStoreRaces.v ===== *)
(** Interleaved executions of the sharded task store.

    A goroutine changes a record under its shard's lock and updates the indexes
    afterwards, in critical sections of their own; [requeueExpiredRunning] pops a
    deadline in one section and requeues the task in another.  [mstep] interleaves
    these sections freely.  A [create] with an idempotency key holds [idemMu]
    throughout, and every access to the key index is under that lock, so its
    update is taken at the shard's section.

    Theorems: the records always are those of the single-lock store after the
    operations in the order of their shard sections, with the same replies; a
    completion is accepted only from the holder of the latest lease; indexes are
    exact for every task whose updates did not overlap.  Two executions show what
    overlapping updates and a clock set back do to the deadline heap. *)
From S2P Require Import Prelude Bytes MetaStore TaskHeap TaskStore TaskStoreSpec.

Open Scope Z_scope.

(** ** The machine *)

(** The operations that change records. *)
Inductive write_op :=
| WCreate (task : Task) (idempotencyKey : string)
| WLease (taskID workerID : string)
| WRequeue (taskID : string) (leaseEpoch maxAge : Z)
| WComplete (taskID workerID : string) (leaseEpoch status : Z) (resultJSON : bytes) (taskErr : string).

(** The critical section under the shard's lock. *)
Definition write_shard (s : taskStore) (op : write_op) (now : Z) : taskStore * reply * change :=
  match op with
  | WCreate task key =>
      match (if str_empty key then None else ts_byIdem s !! key ≫= shard_get s) with
      | Some existing => (s, RTask existing true, None)
      | None =>
          let '(s, t, c) := create_shard s task key now in
          (if str_empty key then s else with_byIdem s (<[key := tk_TaskID t]> (ts_byIdem s)), RTask t false, c)
      end
  | WLease id w => let '(s, r, c) := lease_shard s id w now in (s, RResult r, c)
  | WRequeue id e maxAge => let '(s, (t, b), c) := requeue_shard s id e maxAge now in (s, RTask t b, c)
  | WComplete id w e st res err => let '(s, r, c) := complete_shard s id w e st res err now in (s, RResult r, c)
  end.

(** The store, the index updates under way (each with its task), the deadlines
    popped but not yet acted on (with the age to check), and the history of
    shard sections. *)
Definition event : Type := write_op * Z * reply.
Record machine := {
  mc_store : taskStore;
  mc_pending : list (string * list index_action);
  mc_popped : list (taskDeadline * Z);
  mc_now : Z;
  mc_trace : list event
}.
Definition start (now : Z) : machine :=
  {| mc_store := init; mc_pending := []; mc_popped := []; mc_now := now; mc_trace := [] |}.

Definition started (c : change) : list (string * list index_action) :=
  match c with None => [] | Some (p, t) => [(tk_TaskID t, index_actions p t)] end.

(** A shard section at time [now]. *)
Definition write_step (m : machine) (op : write_op) (now : Z) (popped : list (taskDeadline * Z)) : machine :=
  let '(s, r, c) := write_shard (mc_store m) op now in
  {| mc_store := s; mc_pending := mc_pending m ++ started c; mc_popped := popped; mc_now := now;
     mc_trace := mc_trace m ++ [(op, now, r)] |}.

Inductive mstep : machine → machine → Prop :=
| step_write m op now : mstep m (write_step m op now (mc_popped m))
| step_index m k id a acts :
    mc_pending m !! k = Some (id, a :: acts) →
    mstep m {| mc_store := run_action (mc_store m) a; mc_pending := <[k := (id, acts)]> (mc_pending m);
               mc_popped := mc_popped m; mc_now := mc_now m; mc_trace := mc_trace m |}
| step_pop m now maxAge s d :
    0 < maxAge →
    pop_running (mc_store m) (i64 (now - Milliseconds maxAge)) = (s, Some d) →
    mstep m {| mc_store := s; mc_pending := mc_pending m; mc_popped := mc_popped m ++ [(d, maxAge)];
               mc_now := now; mc_trace := mc_trace m |}
| step_requeue m k d maxAge now :
    mc_popped m !! k = Some (d, maxAge) →
    mstep m (write_step m (WRequeue (td_taskID d) (td_leaseEpoch d) maxAge) now (delete k (mc_popped m))).

(** A scheduler's choice, executed; [None] when it is not enabled. *)
Inductive choice := Write (op : write_op) (now : Z) | Act (k : nat) | Pop (now maxAge : Z) | Requeue (k : nat) (now : Z).
Definition run_choice (m : machine) (c : choice) : option machine :=
  match c with
  | Write op now => Some (write_step m op now (mc_popped m))
  | Act k =>
      match mc_pending m !! k with
      | Some (id, a :: acts) =>
          Some {| mc_store := run_action (mc_store m) a; mc_pending := <[k := (id, acts)]> (mc_pending m);
                  mc_popped := mc_popped m; mc_now := mc_now m; mc_trace := mc_trace m |}
      | _ => None
      end
  | Pop now maxAge =>
      if 0 <? maxAge then
        match pop_running (mc_store m) (i64 (now - Milliseconds maxAge)) with
        | (s, Some d) =>
            Some {| mc_store := s; mc_pending := mc_pending m; mc_popped := mc_popped m ++ [(d, maxAge)];
                    mc_now := now; mc_trace := mc_trace m |}
        | (_, None) => None
        end
      else None
  | Requeue k now =>
      match mc_popped m !! k with
      | Some (d, maxAge) => Some (write_step m (WRequeue (td_taskID d) (td_leaseEpoch d) maxAge) now (delete k (mc_popped m)))
      | None => None
      end
  end.
Fixpoint run_choices (m : machine) (cs : list choice) : option machine :=
  match cs with [] => Some m | c :: cs => m ← run_choice m c; run_choices m cs end.

Lemma run_choices_star m cs m' : run_choices m cs = Some m' → star mstep m m'.
Proof.
  revert m. induction cs as [|c cs IH]; intros m Hrun; [injection Hrun as ->; constructor|].
  cbn in Hrun. apply bind_Some in Hrun as (m1 & Hc & Hrun). eapply star_step; [|by apply IH].
  destruct c as [op now|k|now maxAge|k now]; cbn in Hc.
  - simplify_eq. constructor.
  - destruct (mc_pending m !! k) as [[id [|a acts]]|] eqn:Hk; simplify_eq. by econstructor.
  - destruct (Z.ltb_spec 0 maxAge); [|done]. destruct (pop_running _ _) as [s [d|]] eqn:Hpop; simplify_eq. by econstructor.
  - destruct (mc_popped m !! k) as [[d maxAge]|] eqn:Hk; simplify_eq. by econstructor.
Qed.

(** No index update is under way. *)
Definition quiet (m : machine) : bool := forallb (λ th, match th.2 with [] => true | _ => false end) (mc_pending m) &&
  match mc_popped m with [] => true | _ => false end.

(** ** Records linearise *)

Definition write_legacy (l : MemoryStore) (op : write_op) (now : Z) : MemoryStore * reply :=
  legacy_op l (match op with
               | WCreate task key => OpCreate task key
               | WLease id w => OpLease id w
               | WRequeue id e maxAge => OpRequeueOne id e maxAge
               | WComplete id w e st res err => OpComplete id w e st res err
               end) now [].

(** The single-lock store after a history with exactly these replies. *)
Fixpoint replay (l : MemoryStore) (tr : list event) : option MemoryStore :=
  match tr with
  | [] => Some l
  | (op, now, r) :: tr => let '(l', r') := write_legacy l op now in if decide (r' = r) then replay l' tr else None
  end.

Definition records_rel (s : taskStore) (l : MemoryStore) : Prop :=
  holds s (ms_tasks l) ∧ ts_byIdem s = ms_taskByIdemKey l ∧
  map_Forall (λ _ id, is_Some (ms_tasks l !! id)) (ms_taskByIdemKey l).

Lemma records_put s l id t : records_rel s l → records_rel (shard_put s id t) (put_task l id t).
Proof.
  intros (Hh & Hi & Hk). split_and!; [by apply holds_put|done|]. intros k x Hx. cbn.
  destruct (decide (x = id)) as [->|]; [rewrite lookup_insert_eq; by eexists|].
  rewrite lookup_insert_ne by done. by eapply Hk.
Qed.

Lemma records_key s l key id : records_rel s l → is_Some (ms_tasks l !! id) →
  records_rel (with_byIdem s (<[key := id]> (ts_byIdem s)))
    {| ms_tasks := ms_tasks l; ms_taskByIdemKey := <[key := id]> (ms_taskByIdemKey l) |}.
Proof.
  intros (Hh & Hi & Hk) Hid. split_and!; [done|cbn; by rewrite Hi|]. by apply map_Forall_insert_2.
Qed.

Lemma write_legacy_sim s l op now : records_rel s l →
  let '(s', r, c) := write_shard s op now in
  (write_legacy l op now).2 = r ∧ records_rel s' (write_legacy l op now).1.
Proof.
  intros Hrel. pose proof Hrel as (Hh & Hi & Hk). destruct op as [task key|id w|id e maxAge|id w e st res err]; cbn.
  - unfold CreateTask. rewrite Hi. destruct (str_empty key) eqn:Hkey.
    { cbn. split; [done|]. apply (records_put s l (tk_TaskID task) (set_created task key now) Hrel). }
    destruct (ms_taskByIdemKey l !! key) as [id|] eqn:Hid; cbn.
    + destruct (Hk _ _ Hid) as [t Ht]. rewrite (proj2 Hh), Ht. cbn. unfold task_or_zero. by rewrite Ht.
    + split; [done|].
      pose proof (records_put s l (tk_TaskID task) (set_created task key now) Hrel) as Hput.
      apply (records_key _ _ key (tk_TaskID task)) in Hput; [change (ts_byIdem (shard_put _ _ _)) with (ts_byIdem s) in Hput; by rewrite Hi in Hput|].
      cbn. rewrite lookup_insert_eq. by eexists.
  - unfold lease_shard, LeaseTask. rewrite (proj2 Hh). destruct (ms_tasks l !! id) as [t|]; [|done].
    destruct (isTerminalTaskStatus _); [done|]. split; [done|by apply records_put].
  - unfold requeue_shard, RequeueTaskIfLeaseExpired, is_running. rewrite (proj2 Hh). destruct (_ || _); [done|].
    destruct (ms_tasks l !! id) as [t|]; [|done]. destruct (_ || _); [done|]. destruct (_ <? _); [done|].
    split; [done|by apply records_put].
  - unfold complete_shard, CompleteTask. rewrite (proj2 Hh). destruct (ms_tasks l !! id) as [t|]; [|done].
    destruct (isTerminalTaskStatus _); [done|]. destruct (lease_held t w e); [|done]. split; [done|by apply records_put].
Qed.

Lemma replay_app l tr tr' : replay l (tr ++ tr') = replay l tr ≫= λ l, replay l tr'.
Proof.
  revert l. induction tr as [|[[op now] r] tr IH]; intros l; [done|]. cbn.
  destruct (write_legacy l op now) as [l' r']. case_decide; [apply IH|done].
Qed.

Definition linear (m : machine) : Prop :=
  ∃ l, replay NewLegacyMemoryStore (mc_trace m) = Some l ∧ records_rel (mc_store m) l.

Lemma write_step_linear m op now popped : linear m → linear (write_step m op now popped).
Proof.
  intros (l & Hl & Hrel). pose proof (write_legacy_sim (mc_store m) l op now Hrel) as Hsim.
  unfold write_step. destruct (write_shard (mc_store m) op now) as [[s r] c]. destruct Hsim as [Hr Hrel'].
  destruct (write_legacy l op now) as [l' r'] eqn:Hw. cbn in *. subst r'. exists l'. cbn. split; [|done].
  rewrite replay_app, Hl. cbn. rewrite Hw. by rewrite decide_True.
Qed.

Lemma same_records s s' l : ts_shards s' = ts_shards s → ts_byIdem s' = ts_byIdem s → records_rel s l → records_rel s' l.
Proof.
  intros Hs Hi ([Hlen Hg] & Hi' & Hk). split_and!; [split; [by rewrite Hs|]|congruence|done].
  intros id. unfold shard_get. rewrite Hs. apply Hg.
Qed.

Lemma mstep_linear m m' : linear m → mstep m m' → linear m'.
Proof.
  intros Hlin Hstep. destruct Hstep as [m op now|m k id a acts Hk|m now maxAge s d Hage Hpop|m k d maxAge now Hk].
  - by apply write_step_linear.
  - destruct Hlin as (l & Hl & Hrel). exists l. split; [done|]. cbn [mc_store].
    destruct (run_actions_store [a] (mc_store m)) as [Hs Hi]. by eapply same_records.
  - destruct Hlin as (l & Hl & Hrel). exists l. split; [done|]. unfold pop_running in Hpop.
    destruct (popRunningBefore _ _) as [q d']. injection Hpop as <- _. done.
  - by apply write_step_linear.
Qed.

(** C26: in every interleaving of the sharded store's critical sections the
    records are those of the single-lock store after the operations in the order
    of their sections under the shard's lock, and every operation got the reply it
    gets there. *)
Theorem sharded_records_linearise now m :
  star mstep (start now) m →
  ∃ l, replay NewLegacyMemoryStore (mc_trace m) = Some l ∧ ∀ id, get (mc_store m) id = GetTask l id.
Proof.
  intros Hrun. assert (Hlin : linear m).
  { eapply (star_invariant mstep); [apply mstep_linear| |done]. exists NewLegacyMemoryStore. split; [done|].
    destruct init_rel as (Hh & Hi & _ & _ & Hk). done. }
  destruct Hlin as (l & Hl & Hh & _). exists l. split; [done|]. intros id.
  unfold GetTask. by apply get_holds.
Qed.

(** ** Leases fence completions *)

(** What a history must keep for the leases of [id] to fence: no other task is created under
    the ID, and a completion of the task gives it a final status. *)
Definition fencing_event (id : string) (ev : event) : Prop :=
  match ev.1.1 with
  | WCreate task _ => tk_TaskID task ≠ id
  | WComplete id' _ _ st _ _ => id' = id → isTerminalTaskStatus st = true
  | _ => True
  end.

(** The record is the leased one, or its lease is over for good. *)
Definition lease_current_or_over (t0 : Task) (n : nat) (t : Task) : Prop :=
  t = t0 ∨
  (tk_TaskLeaseEpoch t0 <= tk_TaskLeaseEpoch t <= tk_TaskLeaseEpoch t0 + Z.of_nat n ∧
   (tk_TaskLeaseEpoch t = tk_TaskLeaseEpoch t0 → is_running t = false)).

Lemma terminal_not_running st : isTerminalTaskStatus st = true → (st =? TASK_STATUS_RUNNING) = false.
Proof.
  unfold isTerminalTaskStatus, TASK_STATUS_SUCCEEDED, TASK_STATUS_FAILED, TASK_STATUS_RUNNING. intros H.
  destruct (Z.eqb_spec st 3), (Z.eqb_spec st 4), (Z.eqb_spec st 2); simpl in H; done || lia.
Qed.

(** An operation on another task. *)
Ltac elsewhere := repeat case_match; simplify_eq; cbn; rewrite ?lookup_insert_ne by done; done.
Lemma write_other l op now id t :
  fencing_event id (op, now, (write_legacy l op now).2) → ms_tasks l !! id = Some t →
  ms_tasks (write_legacy l op now).1 !! id = Some t ∨
  ∃ t', ms_tasks (write_legacy l op now).1 !! id = Some t' ∧
    (tk_TaskLeaseEpoch t' = u64 (tk_TaskLeaseEpoch t + 1) ∨
     (tk_TaskLeaseEpoch t' = tk_TaskLeaseEpoch t ∧ is_running t' = false)).
Proof.
  intros Hf Ht. destruct op as [task key|id' w|id' e maxAge|id' w e st res err]; cbn in Hf |- *.
  - left. unfold CreateTask. elsewhere.
  - unfold LeaseTask. destruct (decide (id' = id)) as [->|Hne].
    + rewrite Ht. destruct (isTerminalTaskStatus _); cbn; [by left|]. right. rewrite lookup_insert_eq. eauto.
    + left. elsewhere.
  - unfold RequeueTaskIfLeaseExpired. destruct (decide (id' = id)) as [->|Hne].
    + destruct (_ || _); [by left|]. rewrite Ht. destruct (_ || _); [by left|]. destruct (_ <? _); [by left|].
      right. cbn. rewrite lookup_insert_eq. eauto.
    + left. elsewhere.
  - unfold CompleteTask. destruct (decide (id' = id)) as [->|Hne].
    + rewrite Ht. destruct (isTerminalTaskStatus (tk_Status t)); [by left|]. destruct (lease_held t w e); [|by left].
      right. cbn. rewrite lookup_insert_eq. eexists. split; [done|]. right. split; [done|]. by apply terminal_not_running, Hf.
    + left. elsewhere.
Qed.

Lemma replay_fences id t0 tr l l' n t :
  replay l tr = Some l' → Forall (fencing_event id) tr →
  0 <= tk_TaskLeaseEpoch t0 → tk_TaskLeaseEpoch t0 + Z.of_nat (n + length tr) < 2 ^ 64 →
  ms_tasks l !! id = Some t → lease_current_or_over t0 n t →
  ∃ t', ms_tasks l' !! id = Some t' ∧ lease_current_or_over t0 (n + length tr) t'.
Proof.
  revert l n t. induction tr as [|[[op now] r] tr IH]; intros l n t Hrep Hf H0 Hb Ht Hl.
  { cbn in Hrep. simplify_eq. exists t. rewrite Nat.add_0_r. done. }
  cbn in Hrep. destruct (write_legacy l op now) as [l1 r1] eqn:Hw. case_decide as Hr; [|done]. subst r1.
  apply Forall_cons in Hf as [Hev Hf]. cbn [length] in *. rewrite <- Nat.add_succ_comm in *.
  pose proof (write_other l op now id t) as Ho. rewrite Hw in Ho. destruct (Ho Hev Ht) as [Ht1|(t1 & Ht1 & Hcase)].
  - apply (IH l1 (S n) t); [done|done|done|lia|done|]. destruct Hl as [->|[? ?]]; [by left|right; split; [lia|done]].
  - apply (IH l1 (S n) t1); [done|done|done|lia|done|]. right. destruct Hl as [->|[Hrange Hover]], Hcase as [He|[He Hnr]].
    + rewrite u64_id in He by (unfold in_u64; lia). split; lia.
    + split; [lia|done].
    + rewrite u64_id in He by (unfold in_u64; lia). split; lia.
    + split; [lia|done].
Qed.

Lemma get_some s l id t : records_rel s l → get s id = (t, true) → ms_tasks l !! id = Some t.
Proof. intros (Hh & _). rewrite (get_holds s (ms_tasks l)) by done. destruct (ms_tasks l !! id); congruence. Qed.

Lemma lease_held_inv t w e : lease_held t w e = true →
  is_running t = true ∧ tk_WorkerID t = w ∧ tk_TaskLeaseEpoch t = e.
Proof.
  unfold lease_held. intros [[Hr Hw]%andb_true_iff He]%andb_true_iff.
  apply negb_true_iff, orb_false_iff in Hw as [_ Hw]. apply negb_true_iff, orb_false_iff in He as [_ He].
  apply negb_false_iff, bool_decide_eq_true in Hw. apply negb_false_iff, Z.eqb_eq in He. done.
Qed.

(** C27: completions are fenced by leases.  Suppose that a task runs under a lease of worker
    [w1] under the epoch [e], and that afterwards, however the store's sections interleave, no
    task is created under its ID again and it is completed with final statuses only
    ([fencing_event]; fewer than 2^64 leases).  Then [CompleteTask] under [e] behaves like this:
    once the task is settled it returns the record; while the record is still the leased one it
    accepts the completion of [w1], which settles it, and of no other worker; and otherwise,
    after the task was requeued or leased again, it refuses every worker's, [w1]'s included,
    and changes nothing. *)
Theorem completion_fenced now m m' id t w1 tr :
  star mstep (start now) m → star mstep m m' →
  mc_trace m' = mc_trace m ++ tr → Forall (fencing_event id) tr →
  get (mc_store m) id = (t, true) → lease_held t w1 (tk_TaskLeaseEpoch t) = true → 0 <= tk_TaskLeaseEpoch t →
  tk_TaskLeaseEpoch t + Z.of_nat (length tr) < 2 ^ 64 →
  ∃ t', get (mc_store m') id = (t', true) ∧ ∀ w st res err at_,
    complete_shard (mc_store m') id w (tk_TaskLeaseEpoch t) st res err at_ =
      if isTerminalTaskStatus (tk_Status t') then (mc_store m', Ok t', None)
      else if decide (t' = t ∧ w = w1) then
        let settled := set_result (set_lease t st w1 (tk_TaskLeaseEpoch t) at_) res err in
        (shard_put (mc_store m') id settled, Ok settled, Some (Some t, settled))
      else (mc_store m', Err StaleTaskLease, None).
Proof.
  intros Hrun Hrun' Htr Hf Hget Hheld H0 Hb.
  assert (Hlin : linear m ∧ linear m').
  { assert (Hstart : linear (start now)).
    { exists NewLegacyMemoryStore. split; [done|]. destruct init_rel as (Hh & Hi & _ & _ & Hk). done. }
    pose proof (star_invariant mstep linear _ _ mstep_linear Hstart Hrun) as Hm.
    split; [done|]. by apply (star_invariant mstep linear _ _ mstep_linear Hm Hrun'). }
  destruct Hlin as [(l & Hl & Hrel) (l' & Hl' & Hrel')].
  rewrite Htr, replay_app, Hl in Hl'. cbn in Hl'.
  destruct (replay_fences id t tr l l' 0 t Hl' Hf H0) as (t1 & Ht1 & Hcase); [lia|by eapply get_some|by left|].
  assert (Hget' : get (mc_store m') id = (t1, true)).
  { destruct Hrel' as (Hh & _). by rewrite (get_holds (mc_store m') (ms_tasks l')), Ht1. }
  exists t1. split; [done|]. intros w st res err at_. unfold complete_shard. unfold get in Hget'.
  destruct (shard_get (mc_store m') id) as [t2|]; [|done]. injection Hget' as ->.
  destruct (isTerminalTaskStatus (tk_Status t1)); [done|]. destruct (lease_held_inv _ _ _ Hheld) as (Hr & Hw & _).
  destruct (lease_held t1 w (tk_TaskLeaseEpoch t)) eqn:Hh.
  - destruct (lease_held_inv _ _ _ Hh) as (Hr1 & Hw1 & He1).
    assert (t1 = t) as -> by (destruct Hcase as [|[_ Hover]]; [done|by rewrite Hover in Hr1]).
    rewrite decide_True by (split; congruence). by rewrite <- Hw1, Hw.
  - rewrite decide_False; [done|]. intros [-> ->]. congruence.
Qed.

(** A lease by [w1], its requeue 99 ms later, and a lease by [w2]: the first
    worker's completion is refused. *)
Definition fenced_choices : list choice := [
  Write (WCreate (demo_task "a") "") 100; Act 0;
  Write (WLease "a" "w1") 101; Act 1; Act 1].
Definition fenced_rest : list choice := [
  Pop 200 1000000; Requeue 0 200; Act 2; Act 2; Write (WLease "a" "w2") 201; Act 3; Act 3;
  Write (WComplete "a" "w1" 1 TASK_STATUS_SUCCEEDED [] "") 202].
Definition run_demo (cs : list choice) : machine := default (start 0) (run_choices (start 0) cs).

Lemma run_choices_app m cs cs' : run_choices m (cs ++ cs') = run_choices m cs ≫= λ m, run_choices m cs'.
Proof. revert m. induction cs as [|c cs IH]; intros m; [done|]. cbn. destruct (run_choice m c); [apply IH|done]. Qed.

(** Demo executions are executions. *)
Lemma run_demo_star cs cs' : match run_choices (start 0) (cs ++ cs') with Some _ => true | None => false end = true →
  star mstep (start 0) (run_demo cs) ∧ star mstep (run_demo cs) (run_demo (cs ++ cs')).
Proof.
  unfold run_demo. rewrite run_choices_app. destruct (run_choices (start 0) cs) as [m|] eqn:Hm; [|done]. cbn.
  destruct (run_choices m cs') as [m'|] eqn:Hm'; [|done]. intros _. split; by eapply run_choices_star.
Qed.

Lemma sharded_records_linearise_witness :
  star mstep (start 0) (run_demo (fenced_choices ++ fenced_rest)) ∧
  ∃ l, replay NewLegacyMemoryStore (mc_trace (run_demo (fenced_choices ++ fenced_rest))) = Some l ∧
    (GetTask l "a").1 = set_lease (set_created (demo_task "a") "" 100) TASK_STATUS_RUNNING "w2" 2 201.
Proof.
  assert (Hrun : star mstep (start 0) (run_demo (fenced_choices ++ fenced_rest))).
  { destruct (run_demo_star fenced_choices fenced_rest) as [H1 H2]; [by vm_compute|]. by eapply star_trans. }
  split; [done|]. destruct (sharded_records_linearise 0 _ Hrun) as (l & Hl & Hget). exists l. split; [done|].
  rewrite <- Hget. vm_compute. reflexivity.
Defined.

Lemma completion_fenced_witness :
  let m := run_demo (fenced_choices ++ take 5 fenced_rest) in
  (get (mc_store m) "a").2 = true ∧
  complete_shard (mc_store m) "a" "w1" 1 TASK_STATUS_SUCCEEDED [] "" 202 = (mc_store m, Err StaleTaskLease, None).
Proof.
  cbn zeta. set (m := run_demo fenced_choices). set (m' := run_demo (fenced_choices ++ take 5 fenced_rest)).
  split; [by vm_compute|].
  destruct (run_demo_star fenced_choices (take 5 fenced_rest)) as [Hrun Hrun']; [by vm_compute|].
  set (t := set_lease (set_created (demo_task "a") "" 100) TASK_STATUS_RUNNING "w1" 1 101).
  destruct (completion_fenced 0 m m' "a" t "w1" (drop 2 (mc_trace m'))) as (t' & Ht' & Hc);
    [exact Hrun|exact Hrun'|vm_compute; reflexivity|vm_compute; repeat constructor; discriminate|vm_compute; reflexivity
    |vm_compute; reflexivity|vm_compute; discriminate|vm_compute; reflexivity|].
  specialize (Hc "w1" TASK_STATUS_SUCCEEDED [] "" 202).
  assert (Hne : isTerminalTaskStatus (tk_Status t') = false ∧ tk_WorkerID t' = "w2") by (vm_compute in Ht'; injection Ht' as <-; by split).
  destruct Hne as [Hnt Hw]. rewrite Hnt, decide_False in Hc; [exact Hc|]. intros [-> _]. discriminate Hw.
Defined.

(** ** Overlapping updates *)

(** A requeue of [w1]'s lease is between its two index sections when [w2] leases
    the task again. *)
Definition overlapping : list choice := fenced_choices ++ [
  Write (WRequeue "a" 1 1000000) 200; Act 2; Write (WLease "a" "w2") 201; Act 3; Act 3; Act 2].

(** updates of one task may overlap: the requeue's [untrackRunning] then
    removes the deadline of the lease that followed.  With every operation done,
    the task runs but no scan will ever requeue it; the single-lock store's
    does. *)
Theorem late_untrack_loses_lease :
  let m := run_demo overlapping in
  star mstep (start 0) m ∧ quiet m = true ∧ is_running (get (mc_store m) "a").1 = true ∧
  (requeueExpiredRunning 2 (mc_store m) 1000000 (λ _, 2 ^ 40)) = Some (mc_store m, []) ∧
  match replay NewLegacyMemoryStore (mc_trace m) with
  | Some l => length (RequeueExpiredRunningTasks l 1000000 (2 ^ 40) ["a"]).2 = 1%nat
  | None => False
  end.
Proof.
  cbn zeta. split_and!; [|by vm_compute..].
  destruct (run_demo_star overlapping []) as [H _]; [by vm_compute|exact H].
Qed.

(** a clock set back between the scan's two readings loses a deadline too:
    the popped lease is too young to requeue and is not put back. *)
Theorem clock_step_loses_lease :
  let m := run_demo (fenced_choices ++ [Pop 200 50000000; Requeue 0 120]) in
  star mstep (start 0) m ∧ quiet m = true ∧ is_running (get (mc_store m) "a").1 = true ∧
  requeueExpiredRunning 2 (mc_store m) 50000000 (λ _, 2 ^ 40) = Some (mc_store m, []).
Proof.
  cbn zeta. split_and!; [|by vm_compute..].
  destruct (run_demo_star (fenced_choices ++ [Pop 200 50000000; Requeue 0 120]) []) as [H _]; [by vm_compute|exact H].
Qed.
