(* ===== verification/TaskStoreSerial.v ===== *)
(** When the sharded store's index updates of one task do not overlap with
    another change of that task, and the clock does not go back, the indexes are
    exact once everything is done - whatever else runs at the same time. *)
From S2P Require Import Prelude Bytes MetaStore TaskHeap TaskStore TaskStoreSpec TaskStoreRaces.

Open Scope Z_scope.

(** ** The discipline *)

(** The sections of [id]'s index updates still to run. *)
Definition todo (pend : list (string * list index_action)) (id : string) : list index_action :=
  mjoin ((λ th, if decide (th.1 = id) then th.2 else []) <$> pend).

Definition op_task (op : write_op) : string :=
  match op with WCreate t _ => tk_TaskID t | WLease id _ => id | WRequeue id _ _ => id | WComplete id _ _ _ _ _ => id end.
Definition write_ok (l : MemoryStore) (op : write_op) : Prop :=
  match op with
  | WCreate t _ => tk_TaskID t ≠ ""%string ∧ (is_running t = true → tk_TaskLeaseEpoch t ≠ 0)
  | WLease id _ => ∀ t, ms_tasks l !! id = Some t → u64 (tk_TaskLeaseEpoch t + 1) ≠ 0
  | _ => True
  end.
Definition clock_ok (m : machine) (now : Z) : Prop := mc_now m <= now ∧ sane_time now.

Definition choice_ok (m : machine) (l : MemoryStore) (c : choice) : Prop :=
  match c with
  | Write op now => clock_ok m now ∧ write_ok l op ∧ todo (mc_pending m) (op_task op) = []
  | Act _ => True
  | Pop now maxAge => clock_ok m now ∧ sane_time (Milliseconds maxAge)
  | Requeue k now => clock_ok m now ∧ ∀ d maxAge, mc_popped m !! k = Some (d, maxAge) → todo (mc_pending m) (td_taskID d) = []
  end.
(** Every choice of the run keeps the discipline. *)
Fixpoint serial (m : machine) (cs : list choice) : Prop :=
  match cs with
  | [] => True
  | c :: cs =>
      match replay NewLegacyMemoryStore (mc_trace m) with Some l => choice_ok m l c | None => True end ∧
      match run_choice m c with Some m' => serial m' cs | None => True end
  end.

(** ** Pending updates *)

Lemma todo_app pend pend' id : todo (pend ++ pend') id = todo pend id ++ todo pend' id.
Proof. unfold todo. by rewrite fmap_app, join_app. Qed.
Lemma todo_cons id acts pend id' : todo ((id, acts) :: pend) id' = (if decide (id = id') then acts else []) ++ todo pend id'.
Proof. done. Qed.

Lemma todo_nil pend id : todo pend id = [] ↔ ∀ a acts, (id, a :: acts) ∉ pend.
Proof.
  induction pend as [|[id' acts'] pend IH]; [split; [set_solver|done]|].
  rewrite todo_cons, app_nil, IH. split.
  - intros [Hh Ht] a acts Hin. apply elem_of_cons in Hin as [[= -> <-]|Hin]; [by rewrite decide_True in Hh|].
    by apply (Ht a acts).
  - intros Hno. split; [|set_solver]. case_decide as Hid; [subst|done]. destruct acts' as [|a acts]; [done|].
    destruct (Hno a acts). by left.
Qed.

(** At most one update of each task is under way. *)
Definition no_overlap (pend : list (string * list index_action)) : Prop :=
  ∀ i j id a acts a' acts', pend !! i = Some (id, a :: acts) → pend !! j = Some (id, a' :: acts') → i = j.

Lemma todo_act pend k id a acts : no_overlap pend → pend !! k = Some (id, a :: acts) →
  todo pend id = a :: acts ∧ todo (<[k := (id, acts)]> pend) id = acts ∧
  ∀ id', id' ≠ id → todo (<[k := (id, acts)]> pend) id' = todo pend id'.
Proof.
  intros Hno Hk. pose proof (take_drop_middle _ _ _ Hk) as Hsplit.
  assert (Hlt : (k < length pend)%nat) by (by eapply lookup_lt_Some).
  assert (H1 : todo (take k pend) id = []).
  { apply todo_nil. intros a' acts' [j Hj]%list_elem_of_lookup. apply lookup_take_Some in Hj as [Hj ?].
    pose proof (Hno _ _ _ _ _ _ _ Hj Hk). lia. }
  assert (H2 : todo (drop (S k) pend) id = []).
  { apply todo_nil. intros a' acts' [j Hj]%list_elem_of_lookup. rewrite lookup_drop in Hj.
    pose proof (Hno _ _ _ _ _ _ _ Hj Hk). lia. }
  rewrite insert_take_drop by done. rewrite <- Hsplit at 1. rewrite !todo_app, !todo_cons, H1, H2, !decide_True, !app_nil_r by done.
  split_and!; [done..|]. intros id' Hne. rewrite <- Hsplit at 3. by rewrite !todo_app, !todo_cons, !decide_False by done.
Qed.

Lemma no_overlap_act pend k id a acts : no_overlap pend → pend !! k = Some (id, a :: acts) →
  no_overlap (<[k := (id, acts)]> pend).
Proof.
  intros Hno Hk.
  assert (Hold : ∀ i id' b bs, <[k := (id, acts)]> pend !! i = Some (id', b :: bs) → ∃ b' bs', pend !! i = Some (id', b' :: bs')).
  { intros i id' b bs [(-> & [= -> ->] & _)|[_ Hi]]%list_lookup_insert_Some; eauto. }
  intros i j id' b bs b' bs' (? & ? & Hi)%Hold (? & ? & Hj)%Hold. by eapply Hno.
Qed.

Lemma no_overlap_start pend id acts : no_overlap pend → todo pend id = [] → no_overlap (pend ++ [(id, acts)]).
Proof.
  intros Hno Htodo. rewrite todo_nil in Htodo.
  intros i j id' b bs b' bs'. rewrite !lookup_snoc_Some.
  intros [[_ Hi]|[-> [= -> ->]]] [[_ Hj]|[-> Heq]]; [by eapply Hno| | |done].
  - injection Heq as -> ->. destruct (Htodo b bs). by eapply list_elem_of_lookup_2.
  - destruct (Htodo b' bs'). by eapply list_elem_of_lookup_2.
Qed.

(** ** A popped deadline *)

(** The view without the task's deadline. *)
Definition forget (v : view) : view :=
  {| vw_listed := vw_listed v; vw_status := vw_status v; vw_worker := vw_worker v; vw_deadline := None |}.

Lemma fold_forget acts v :
  foldl act_view (forget v) acts = foldl act_view v acts ∨
  (foldl act_view (forget v) acts = forget (foldl act_view v acts) ∧
   vw_deadline (foldl act_view v acts) = vw_deadline v).
Proof.
  revert v. induction acts as [|a acts IH]; intros v; [by right|]. cbn [foldl].
  destruct a as [p t|tid|t].
  - apply (IH (act_view v (ReplaceLists p t))).
  - by left.
  - cbn [act_view]. destruct (deadline_of t) eqn:Hd; [by left|]. apply (IH {| vw_listed := vw_listed v; vw_status := vw_status v;
      vw_worker := vw_worker v; vw_deadline := vw_deadline v |}).
Qed.

Lemma fold_forget_track acts v t d : deadline_of t = Some d →
  foldl act_view (forget v) (acts ++ [Track t]) = foldl act_view v (acts ++ [Track t]).
Proof.
  intros Hd. rewrite !foldl_app. destruct (fold_forget acts v) as [->|[-> _]]; [done|]. cbn. by rewrite Hd.
Qed.

(** A new change of the task makes up for a deadline popped before. *)
Lemma restart_exact p t d : action_ok (ReplaceLists (Some p) t) → deadline_of p = Some d →
  foldl act_view (forget (exact_view (Some p))) (index_actions (Some p) t) = exact_view (Some t).
Proof.
  intros Hok Hd. rewrite <- (actions_exact (Some p) t Hok).
  destruct (fold_forget (index_actions (Some p) t) (exact_view (Some p))) as [|[_ Hdl]]; [done|].
  rewrite actions_exact in Hdl by done. cbn in Hdl. rewrite Hd in Hdl.
  assert (Ht : is_running t = true) by (unfold deadline_of in Hdl; by destruct (is_running t)).
  unfold index_actions. rewrite Ht, app_assoc. by eapply fold_forget_track.
Qed.

(** ** The invariant *)

(** Once its pending updates have run, the view of [id] is exact; or it lacks
    the deadline, which was popped and is old enough to be acted on. *)
Definition settles (m : machine) (id : string) (o : option Task) : Prop :=
  let v := foldl act_view (view_of_task (mc_store m) id) (todo (mc_pending m) id) in
  v = exact_view o ∨
  ∃ t d maxAge, o = Some t ∧ deadline_of t = Some d ∧ (d, maxAge) ∈ mc_popped m ∧ 0 < maxAge ∧
    sane_time (Milliseconds maxAge) ∧ td_updatedAtMs d + Milliseconds maxAge <= mc_now m ∧
    v = forget (exact_view o).

Definition pending_ok (m : machine) : Prop :=
  no_overlap (mc_pending m) ∧
  Forall (λ th, Forall (λ a, action_ok a ∧ action_task a = th.1) th.2) (mc_pending m).

Definition serial_inv (m : machine) (l : MemoryStore) : Prop :=
  records_rel (mc_store m) l ∧ legacy_ok l ∧ queue_fine (mc_store m) ∧ pending_ok m ∧
  ∀ id, settles m id (ms_tasks l !! id).

Lemma settles_ext m m' id o :
  view_of_task (mc_store m') id = view_of_task (mc_store m) id →
  todo (mc_pending m') id = todo (mc_pending m) id →
  (∀ e, e ∈ mc_popped m → e ∈ mc_popped m') → mc_now m <= mc_now m' →
  settles m id o → settles m' id o.
Proof.
  intros Hv Ht Hp Hn. unfold settles. rewrite Hv, Ht. intros [?|(t & d & a & ? & ? & ? & ? & ? & ? & ?)]; [by left|].
  right. exists t, d, a. split_and!; eauto. lia.
Qed.

Lemma act_inv m l k id a acts : serial_inv m l → mc_pending m !! k = Some (id, a :: acts) →
  serial_inv {| mc_store := run_action (mc_store m) a; mc_pending := <[k := (id, acts)]> (mc_pending m);
                mc_popped := mc_popped m; mc_now := mc_now m; mc_trace := mc_trace m |} l.
Proof.
  intros (Hrec & Hl & Hq & (Hno & Hall) & Hset) Hk.
  pose proof (Forall_lookup_1 _ _ _ _ Hall Hk) as [[Hok Ha] Hacts]%Forall_cons. cbn in Ha.
  pose proof (todo_act _ _ _ _ _ Hno Hk) as (Htodo & Htodo' & Hother).
  split_and!.
  - destruct (run_actions_store [a] (mc_store m)) as [Hs Hi]. by eapply same_records.
  - done.
  - by apply run_action_view.
  - split; [by eapply no_overlap_act|]. by apply Forall_insert.
  - intros x. pose proof (run_action_view (mc_store m) a x Hq Hok) as [_ Hv]. rewrite Ha in Hv.
    destruct (decide (x = id)) as [->|Hne].
    + specialize (Hset id). unfold settles in *. cbn [mc_store mc_pending mc_popped mc_now]. rewrite Htodo', Hv.
      rewrite Htodo in Hset. cbn [foldl] in Hset. done.
    + eapply settles_ext; [| | | |apply Hset]; cbn; [done|by apply Hother|done|lia].
Qed.

Lemma pop_inv m l now maxAge s d : serial_inv m l → clock_ok m now → 0 < maxAge → sane_time (Milliseconds maxAge) →
  pop_running (mc_store m) (i64 (now - Milliseconds maxAge)) = (s, Some d) →
  serial_inv {| mc_store := s; mc_pending := mc_pending m; mc_popped := mc_popped m ++ [(d, maxAge)];
                mc_now := now; mc_trace := mc_trace m |} l.
Proof.
  intros (Hrec & Hl & Hq & Hpend & Hset) [Hle Hnow] Hage Hms Hpop.
  rewrite i64_id in Hpop by (unfold sane_time, in_i64 in *; lia). unfold pop_running in Hpop.
  pose proof (popRunningBefore_spec (ts_running (mc_store m)) (now - Milliseconds maxAge) Hq) as Hspec.
  destruct (popRunningBefore _ _) as [q d']. injection Hpop as <- ->.
  destruct Hspec as (Hq' & Hd & Hdue & _ & Hdel).
  split_and!; [done..|]. intros x. destruct (decide (x = td_taskID d)) as [->|Hne].
  - specialize (Hset (td_taskID d)). unfold settles in *. cbn [mc_store mc_pending mc_popped mc_now].
    set (v := view_of_task (mc_store m) (td_taskID d)) in *.
    assert (Hv : view_of_task (with_running (mc_store m) q) (td_taskID d) = forget v).
    { unfold view_of_task, forget. cbn. by rewrite Hdel, lookup_delete_eq. }
    assert (Hvd : vw_deadline v = Some d) by done. rewrite Hv. clearbody v.
    destruct (fold_forget (todo (mc_pending m) (td_taskID d)) v) as [->|[-> Hdl]].
    + destruct Hset as [?|(t & e & a & ? & ? & ? & ? & ? & ? & ?)]; [by left|].
      right. exists t, e, a. split_and!; [done..|set_solver|done|done|lia|done].
    + rewrite Hvd in Hdl. destruct Hset as [Hex|(t & e & a & _ & _ & _ & _ & _ & _ & Hf)].
      * right. rewrite Hex in *. destruct (ms_tasks l !! td_taskID d) as [t|]; [|done]. cbn in Hdl.
        exists t, d, maxAge. split_and!; [done..|set_solver|done|done|lia|done].
      * by rewrite Hf in Hdl.
  - eapply settles_ext; [| | | |apply Hset]; cbn; [|done|set_solver|lia].
    unfold view_of_task. cbn. by rewrite Hdel, lookup_delete_ne.
Qed.

(** ** Shard sections *)

(** What a shard section does to records, and that it leaves the indexes alone. *)
Definition section_ok (s : taskStore) (l : MemoryStore) (op : write_op) (s' : taskStore) (c : change) (l' : MemoryStore) : Prop :=
  ts_running s' = ts_running s ∧ (∀ id, view_of_task s' id = view_of_task s id) ∧
  match c with
  | None => ms_tasks l' = ms_tasks l
  | Some (p, t) =>
      tk_TaskID t = op_task op ∧ p = ms_tasks l !! op_task op ∧
      ms_tasks l' = <[op_task op := t]> (ms_tasks l) ∧ record_ok (op_task op) t
  end.

Lemma same_change_section s l op s' c l' : same_change (op_task op) s l s' c l' → section_ok s l op s' c l'.
Proof.
  destruct c as [[p t]|]; [|by intros [-> ->]]. intros (Hid & -> & -> & -> & Hok). by split_and!.
Qed.

Lemma write_change s l op now :
  records_rel s l → legacy_ok l → sane_time now → write_ok l op →
  let '(s', r, c) := write_shard s op now in section_ok s l op s' c (write_legacy l op now).1.
Proof.
  intros (Hh & Hi & Hk) Hl Hnow Hok. destruct op as [task key|id w|id e maxAge|id w e st res err];
    cbn [write_shard write_legacy legacy_op].
  - destruct Hok as [Hne Hrun]. pose proof (create_change s l task key now Hh Hl Hnow Hne Hrun) as Hc.
    unfold CreateTask. rewrite Hi. destruct (str_empty key) eqn:Hkey; cbn in Hc |- *.
    { by apply (same_change_section s l (WCreate task key) _ (Some _)), Hc. }
    destruct (ms_taskByIdemKey l !! key) as [id|] eqn:Hid; cbn.
    + destruct (Hk _ _ Hid) as [t Ht]. rewrite (proj2 Hh), Ht. done.
    + destruct Hc as [(_ & _ & Hp & _ & Hrec) _]. by split_and!.
  - pose proof (lease_change s l id w now Hh Hl Hnow Hok) as Hc.
    destruct (lease_shard s id w now) as [[s' r] c], (LeaseTask l id w now) as [l' r']. destruct Hc as [Hc _].
    by apply (same_change_section s l (WLease id w)).
  - pose proof (requeue_change s l id e maxAge now Hh Hl Hnow) as Hc.
    destruct (requeue_shard s id e maxAge now) as [[s' [t b]] c], (RequeueTaskIfLeaseExpired l id e maxAge now) as [l' [t' b']].
    destruct Hc as [Hc _]. by apply (same_change_section s l (WRequeue id e maxAge)).
  - pose proof (complete_change s l id w e st res err now Hh Hl Hnow) as Hc.
    destruct (complete_shard s id w e st res err now) as [[s' r] c], (CompleteTask l id w e st res err now) as [l' r'].
    destruct Hc as [Hc _]. by apply (same_change_section s l (WComplete id w e st res err)).
Qed.

(** A popped deadline that is still the task's lease is requeued. *)
Lemma requeue_due s l t d maxAge now :
  records_rel s l → legacy_ok l → ms_tasks l !! td_taskID d = Some t → deadline_of t = Some d → 0 < maxAge →
  sane_time (Milliseconds maxAge) → sane_time now → td_updatedAtMs d + Milliseconds maxAge <= now →
  ∃ s' r p t', write_shard s (WRequeue (td_taskID d) (td_leaseEpoch d) maxAge) now = (s', r, Some (p, t')).
Proof.
  intros (Hh & _) [Hl _] Ht Hd Hage Hms Hnow Hdue. pose proof (Hl _ _ Ht) as (_ & Hne & Hupd & _).
  unfold deadline_of in Hd. destruct (is_running t) eqn:Hr; [|done]. cbn in Hd.
  destruct (Z.eqb_spec (tk_TaskLeaseEpoch t) 0) as [|Hep]; [done|]. cbn in Hd. injection Hd as <-.
  cbn [td_taskID td_updatedAtMs td_leaseEpoch] in *. cbn [write_shard]. unfold requeue_shard.
  rewrite (proj2 Hh), Ht, Hr, Z.eqb_refl. destruct (Z.leb_spec maxAge 0); [lia|].
  rewrite (proj2 (str_empty_false _)) by done. destruct (Z.eqb_spec (tk_TaskLeaseEpoch t) 0); [done|]. cbn [orb negb].
  unfold sane_time in *. rewrite i64_id by (unfold in_i64; lia).
  destruct (Z.ltb_spec (now - tk_UpdatedAtMs t) (Milliseconds maxAge)); [lia|]. by do 4 eexists.
Qed.

(** The popped deadlines after a section: all, or all but the one it acted on. *)
Definition popped_after (op : write_op) (popped popped' : list (taskDeadline * Z)) : Prop :=
  ∀ e, e ∈ popped → e ∈ popped' ∨ op = WRequeue (td_taskID e.1) (td_leaseEpoch e.1) e.2.

Lemma write_inv m l op now popped' :
  serial_inv m l → clock_ok m now → write_ok l op → todo (mc_pending m) (op_task op) = [] →
  popped_after op (mc_popped m) popped' →
  serial_inv (write_step m op now popped') (write_legacy l op now).1.
Proof.
  intros (Hrec & Hl & Hq & (Hno & Hall) & Hset) [Hle Hnow] Hok Htodo Hpop.
  pose proof (write_change (mc_store m) l op now Hrec Hl Hnow Hok) as Hc.
  pose proof (write_legacy_sim (mc_store m) l op now Hrec) as Hsim.
  assert (Hdue : ∀ e t, e ∈ mc_popped m → e ∉ popped' → ms_tasks l !! td_taskID e.1 = Some t → deadline_of t = Some e.1 →
    0 < e.2 → sane_time (Milliseconds e.2) → td_updatedAtMs e.1 + Milliseconds e.2 <= mc_now m →
    ∃ s' r p t', write_shard (mc_store m) op now = (s', r, Some (p, t'))).
  { intros e t He He' Ht Hd Hage Hms Hd'. destruct (Hpop e He) as [|Hop]; [done|]. rewrite Hop.
    eapply requeue_due; [done..|]. lia. }
  unfold write_step. destruct (write_shard (mc_store m) op now) as [[s' r] c].
  destruct Hc as (Hrun & Hview & Hc), Hsim as [_ Hrec'].
  assert (Hother : ∀ x, (∀ p t, c = Some (p, t) → x ≠ op_task op) → ∀ pend', todo pend' x = todo (mc_pending m) x →
    settles {| mc_store := s'; mc_pending := pend'; mc_popped := popped'; mc_now := now; mc_trace := mc_trace m ++ [(op, now, r)] |}
      x (ms_tasks l !! x)).
  { intros x Hx pend' Hpend. specialize (Hset x). unfold settles in *. cbn [mc_store mc_pending mc_popped mc_now]. rewrite Hview, Hpend.
    destruct Hset as [?|(t & d & a & Ht & Hd & He & Hage & Hms & Hd' & Hv)]; [by left|].
    right. exists t, d, a. split_and!; try done; [|lia]. destruct (decide ((d, a) ∈ popped')) as [|Hne]; [done|].
    assert (Hxd : x = td_taskID d).
    { unfold deadline_of in Hd. destruct (is_running t && _) in Hd; [|done]. injection Hd as <-. by apply (proj1 Hl) in Ht as [<- _]. }
    exfalso. rewrite Hxd in Ht. destruct (Hdue (d, a) t) as (? & ? & p & t' & [= -> -> ->]); [done..|].
    destruct (Hpop _ He) as [|Hop]; [done|]. apply (Hx p t'); [done|]. by rewrite Hop, Hxd. }
  destruct c as [[p t]|]; cbn [started].
  - destruct Hc as (Hid & -> & Htasks & Hrok). split_and!.
    + done.
    + split; [rewrite Htasks; by apply map_Forall_insert_2; [|apply Hl]|apply Hrec'].
    + unfold queue_fine. cbn. by rewrite Hrun.
    + split; cbn; [apply no_overlap_start; [done|by rewrite Hid]|]. apply Forall_app. split; [done|]. constructor; [|done].
      apply index_actions_ok. rewrite <- Hid. by apply change_action_ok.
    + intros x. cbn [mc_store mc_pending]. rewrite Htasks. destruct (decide (x = op_task op)) as [->|Hne].
      * left. cbn [mc_store mc_pending]. rewrite lookup_insert_eq, Hview, todo_app, Htodo, todo_cons, decide_True by done. cbn [app].
        rewrite app_nil_r. pose proof (change_action_ok l t Hl) as Hact. rewrite Hid in Hact.
        specialize (Hset (op_task op)). unfold settles in Hset. rewrite Htodo in Hset. cbn [foldl] in Hset.
        destruct Hset as [->|(t0 & d & a & Ht0 & Hd & _ & _ & _ & _ & ->)]; [by apply actions_exact|].
        rewrite Ht0 in *. by eapply restart_exact.
      * rewrite lookup_insert_ne by done. apply Hother; [by intros ?? _|].
        rewrite todo_app, todo_cons, decide_False by congruence. by rewrite app_nil_r.
  - split_and!.
    + done.
    + split; [rewrite Hc; apply Hl|apply Hrec'].
    + unfold queue_fine. cbn. by rewrite Hrun.
    + split; cbn; by rewrite app_nil_r.
    + intros x. rewrite Hc. apply Hother; [done|]. by rewrite app_nil_r.
Qed.

(** ** Disciplined executions *)

Definition serial_ok (m : machine) : Prop :=
  ∃ l, replay NewLegacyMemoryStore (mc_trace m) = Some l ∧ serial_inv m l.

Lemma write_step_serial m l op now popped' :
  replay NewLegacyMemoryStore (mc_trace m) = Some l → serial_inv m l → clock_ok m now → write_ok l op →
  todo (mc_pending m) (op_task op) = [] → popped_after op (mc_popped m) popped' → serial_ok (write_step m op now popped').
Proof.
  intros Hl Hinv Hclock Hok Htodo Hpop. exists (write_legacy l op now).1. split; [|by apply write_inv].
  pose proof (write_legacy_sim (mc_store m) l op now (proj1 Hinv)) as Hsim. unfold write_step.
  destruct (write_shard (mc_store m) op now) as [[s r] c]. destruct Hsim as [Hr _].
  destruct (write_legacy l op now) as [l' r'] eqn:Hw. cbn in *. subst r'. rewrite replay_app, Hl. cbn.
  rewrite Hw. by rewrite decide_True.
Qed.

Lemma choice_serial m l c m' :
  replay NewLegacyMemoryStore (mc_trace m) = Some l → serial_inv m l → choice_ok m l c → run_choice m c = Some m' →
  serial_ok m'.
Proof.
  intros Hl Hinv Hok Hrun. destruct c as [op now|k|now maxAge|k now]; cbn in Hrun, Hok.
  - simplify_eq. destruct Hok as (Hclock & Hok & Htodo). eapply write_step_serial; [done..|]. intros e. by left.
  - destruct (mc_pending m !! k) as [[id [|a acts]]|] eqn:Hk; simplify_eq. exists l. split; [done|by apply act_inv].
  - destruct Hok as [Hclock Hms]. destruct (Z.ltb_spec 0 maxAge); [|done].
    destruct (pop_running _ _) as [s [d|]] eqn:Hpop; simplify_eq. exists l. split; [done|by apply pop_inv].
  - destruct Hok as [Hclock Htodo]. destruct (mc_popped m !! k) as [[d maxAge]|] eqn:Hk; simplify_eq.
    eapply write_step_serial; [done..|by eapply Htodo|]. intros e [j Hj]%list_elem_of_lookup.
    destruct (decide (j = k)) as [->|Hne]; [right; by simplify_eq|left].
    rewrite (delete_take_drop (mc_popped m)). apply elem_of_app. destruct (decide (j < k)%nat).
    + left. apply elem_of_take_lookup. eauto.
    + right. apply (list_elem_of_lookup_2 _ (j - S k)). rewrite lookup_drop. rewrite <- Hj. f_equal. lia.
Qed.

Lemma run_serial m cs m' : serial_ok m → serial m cs → run_choices m cs = Some m' → serial_ok m'.
Proof.
  revert m. induction cs as [|c cs IH]; intros m Hm Hser Hrun; [cbn in Hrun; by simplify_eq|].
  destruct Hm as (l & Hl & Hinv). cbn in Hser, Hrun. rewrite Hl in Hser. destruct Hser as [Hok Hser].
  destruct (run_choice m c) as [m1|] eqn:Hc; [|done]. eapply IH; [by eapply choice_serial|done|done].
Qed.

Lemma start_serial now : serial_ok (start now).
Proof.
  exists NewLegacyMemoryStore. split; [done|]. destruct init_rel as (Hh & Hi & [Hq Hx] & Hl).
  refine (conj (conj Hh (conj Hi (proj2 Hl))) (conj Hl (conj Hq (conj (conj _ _) _)))); [|constructor|].
  - intros i j id a acts a' acts' Hi'. by apply lookup_lt_Some, Nat.nlt_0_r in Hi'.
  - intros id. left. apply Hx.
Qed.

Lemma quiet_settled m l : serial_inv m l → quiet m = true → store_rel (mc_store m) l.
Proof.
  intros ((Hh & Hi & Hk) & Hl & Hq & _ & Hset) [Hpend Hpop]%andb_true_iff. refine (conj Hh (conj Hi (conj (conj Hq _) Hl))).
  destruct (mc_popped m) eqn:Hp; [|done]. intros id.
  assert (Htodo : todo (mc_pending m) id = []).
  { apply todo_nil. intros a acts Hin. rewrite forallb_forall in Hpend.
    apply list_elem_of_In in Hin. by apply Hpend in Hin. }
  destruct (Hset id) as [Hv|(t & d & a & _ & _ & Hin & _)].
  - by rewrite Htodo in Hv.
  - rewrite Hp in Hin. by apply not_elem_of_nil in Hin.
Qed.

(** in an interleaved execution where the index updates of one task never
    overlap with another change of that task and the clock does not go back, the
    store is, once everything is done, indistinguishable from the single-lock
    store after the same operations: any further calls get the same replies, scans
    of expired leases and lists by status included. *)
Theorem serial_updates_keep_indexes now cs m fuel calls :
  serial (start now) cs → run_choices (start now) cs = Some m → quiet m = true →
  ∃ l, replay NewLegacyMemoryStore (mc_trace m) = Some l ∧
    (calls_ok l calls → (size (ms_tasks l) + length calls < fuel)%nat →
     ∃ s rs, sharded_run fuel (mc_store m) calls = Some (s, rs) ∧ Forall2 reply_eq rs (legacy_run l calls).2).
Proof.
  intros Hser Hrun Hquiet. destruct (run_serial _ _ _ (start_serial now) Hser Hrun) as (l & Hl & Hinv).
  exists l. split; [done|]. intros Hok Hfuel.
  destruct (run_rel fuel (mc_store m) l calls) as (s & rs & Hs & _ & Hrs); [by apply quiet_settled|done|done|].
  eauto.
Qed.

(** The discipline, decided. *)
Definition sane_b (t : Z) : bool := (0 <=? t) && (t <? 2 ^ 62).
Definition clock_b (m : machine) (now : Z) : bool := (mc_now m <=? now) && sane_b now.
Definition empty_b {A} (l : list A) : bool := match l with [] => true | _ => false end.
Definition choice_check (m : machine) (l : MemoryStore) (c : choice) : bool :=
  match c with
  | Write op now =>
      clock_b m now && empty_b (todo (mc_pending m) (op_task op)) &&
      match op with
      | WCreate t _ => negb (str_empty (tk_TaskID t)) && (negb (is_running t) || negb (tk_TaskLeaseEpoch t =? 0))
      | WLease id _ => match ms_tasks l !! id with Some t => negb (u64 (tk_TaskLeaseEpoch t + 1) =? 0) | None => true end
      | _ => true
      end
  | Act _ => true
  | Pop now maxAge => clock_b m now && sane_b (Milliseconds maxAge)
  | Requeue k now =>
      clock_b m now && match mc_popped m !! k with Some (d, _) => empty_b (todo (mc_pending m) (td_taskID d)) | None => true end
  end.
Fixpoint serial_check (m : machine) (cs : list choice) : bool :=
  match cs with
  | [] => true
  | c :: cs =>
      match replay NewLegacyMemoryStore (mc_trace m) with Some l => choice_check m l c | None => true end &&
      match run_choice m c with Some m' => serial_check m' cs | None => true end
  end.

Lemma clock_b_ok m now : clock_b m now = true → clock_ok m now.
Proof. unfold clock_b, sane_b, clock_ok, sane_time. intros [? [? ?]%andb_true_iff]%andb_true_iff. lia. Qed.
Lemma empty_b_ok {A} (l : list A) : empty_b l = true → l = [].
Proof. by destruct l. Qed.

Lemma choice_check_ok m l c : choice_check m l c = true → choice_ok m l c.
Proof.
  destruct c as [op now|k|now maxAge|k now]; cbn [choice_check choice_ok].
  - intros [[Hc Ht]%andb_true_iff Hop]%andb_true_iff. split_and!; [by apply clock_b_ok| |by apply empty_b_ok].
    destruct op; cbn; try done.
    + apply andb_true_iff in Hop as [Hid Hrun]. split; [by apply str_empty_false, negb_true_iff|].
      intros Hr. rewrite Hr in Hrun. cbn in Hrun. by apply Z.eqb_neq, negb_true_iff.
    + intros t Ht'. rewrite Ht' in Hop. by apply Z.eqb_neq, negb_true_iff.
  - done.
  - intros [Hc Hms]%andb_true_iff. split; [by apply clock_b_ok|]. unfold sane_b, sane_time in *. lia.
  - intros [Hc Hp]%andb_true_iff. split; [by apply clock_b_ok|]. intros d a Hk. rewrite Hk in Hp. by apply empty_b_ok.
Qed.

Lemma serial_check_ok m cs : serial_check m cs = true → serial m cs.
Proof.
  revert m. induction cs as [|c cs IH]; intros m; [done|]. cbn. intros [Hc Hrun]%andb_true_iff. split.
  - destruct (replay _ _); [by apply choice_check_ok|done].
  - destruct (run_choice m c); [by apply IH|done].
Qed.

Lemma serial_updates_keep_indexes_witness :
  let m := run_demo (fenced_choices ++ fenced_rest) in
  serial_check (start 0) (fenced_choices ++ fenced_rest) = true ∧
  ∃ l, replay NewLegacyMemoryStore (mc_trace m) = Some l ∧
    (calls_ok l [(OpListByStatus TASK_STATUS_RUNNING, 300, ["a"])] → (size (ms_tasks l) + 1 < 4)%nat →
     ∃ s rs, sharded_run 4 (mc_store m) [(OpListByStatus TASK_STATUS_RUNNING, 300, ["a"])] = Some (s, rs) ∧
       Forall2 reply_eq rs (legacy_run l [(OpListByStatus TASK_STATUS_RUNNING, 300, ["a"])]).2).
Proof.
  cbn zeta. assert (Hs : serial_check (start 0) (fenced_choices ++ fenced_rest) = true) by (by vm_compute).
  split; [done|]. apply (serial_updates_keep_indexes 0 (fenced_choices ++ fenced_rest)).
  - by apply serial_check_ok.
  - unfold run_demo. assert (Hok : is_Some (run_choices (start 0) (fenced_choices ++ fenced_rest))).
    { destruct (run_choices (start 0) (fenced_choices ++ fenced_rest)) eqn:Hr; [by eexists|].
      assert (Hb : match run_choices (start 0) (fenced_choices ++ fenced_rest) with Some _ => true | None => false end = true) by (by vm_compute).
      by rewrite Hr in Hb. }
    destruct Hok as [m Hm]. by rewrite Hm.
  - by vm_compute.
Defined.
