(* ===== verification/WorkerStore.v ===== *)
(** Worker records: the worker half of [MemoryStore] (internal/metadata/memory.go)
    and [workerStoreV2] (memory_v2.go), whose records keep load, capacity and
    heartbeat in atomics.

    Theorems: both stores give the same replies to the same calls; under any
    interleaving of atomic increments and compare-and-swap decrements the load is
    the number of increments less the decrements that took effect, never below
    zero; the first [upsert] of a worker can erase increments made meanwhile. *)
From S2P Require Import Prelude Placement.

Open Scope Z_scope.

(** ** Data *)

(** [metadata.Worker]: the fields the scheduler reads, an address and labels. *)
Record workerInfo := { wi_Address : string; wi_Labels : gmap string string; wi_worker : Worker }.
Definition zero_worker : workerInfo := {|
  wi_Address := ""; wi_Labels := ∅;
  wi_worker := {| wk_WorkerID := ""; wk_CachedModels := ∅; wk_Capacity := 0; wk_RunningTasks := 0; wk_LastHeartbeat := 0 |} |}.
Definition default_worker (workerID : string) : workerInfo := {|
  wi_Address := ""; wi_Labels := ∅;
  wi_worker := {| wk_WorkerID := workerID; wk_CachedModels := ∅; wk_Capacity := 1; wk_RunningTasks := 0; wk_LastHeartbeat := 0 |} |}.
Definition with_worker (w : workerInfo) (cached : gmap string bool) (capacity running heartbeat : Z) : workerInfo := {|
  wi_Address := wi_Address w; wi_Labels := wi_Labels w;
  wi_worker := {| wk_WorkerID := wk_WorkerID (wi_worker w); wk_CachedModels := cached; wk_Capacity := capacity;
                  wk_RunningTasks := running; wk_LastHeartbeat := heartbeat |} |}.
Definition one_if_zero (capacity : Z) : Z := if capacity =? 0 then 1 else capacity.

(** [cloneWorker]: a copy, with the capacity normalised. *)
Definition cloneWorker (w : workerInfo) : workerInfo :=
  with_worker w (wk_CachedModels (wi_worker w)) (one_if_zero (wk_Capacity (wi_worker w))) (wk_RunningTasks (wi_worker w))
    (wk_LastHeartbeat (wi_worker w)).

(** A fresh heartbeat, or any when [maxAge] is not positive. *)
Definition fresh_enough (now maxAge : Z) (w : workerInfo) : bool :=
  (maxAge <=? 0) || (i64 (now - wk_LastHeartbeat (wi_worker w)) <=? Z.quot maxAge 1000000).

(** ** [MemoryStore] *)
Module Legacy.

Abbreviation store := (gmap string workerInfo).

Definition UpsertWorker (s : store) (w : workerInfo) (now : Z) : store :=
  let id := wk_WorkerID (wi_worker w) in
  let running := match s !! id with Some existing => wk_RunningTasks (wi_worker existing) | None => wk_RunningTasks (wi_worker w) end in
  let heartbeat := if wk_LastHeartbeat (wi_worker w) =? 0 then now else wk_LastHeartbeat (wi_worker w) in
  <[id := cloneWorker (with_worker w (wk_CachedModels (wi_worker w)) (one_if_zero (wk_Capacity (wi_worker w))) running heartbeat)]> s.

Definition GetWorker (s : store) (id : string) : workerInfo * bool :=
  match s !! id with Some w => (cloneWorker w, true) | None => (cloneWorker zero_worker, false) end.

Definition ActiveWorkers (s : store) (maxAge now : Z) (range : list string) : list workerInfo :=
  omap (λ id, w ← s !! id; if fresh_enough now maxAge w then Some (cloneWorker w) else None) range.
Definition ListWorkers (s : store) (range : list string) : list workerInfo :=
  omap (λ id, cloneWorker <$> s !! id) range.

Definition Heartbeat (s : store) (id : string) (cachedModels : option (gmap string bool)) (now : Z) :
    store * (workerInfo * bool) :=
  let w := default (default_worker id) (s !! id) in
  let w := with_worker w (default (wk_CachedModels (wi_worker w)) cachedModels) (one_if_zero (wk_Capacity (wi_worker w)))
             (wk_RunningTasks (wi_worker w)) now in
  (<[id := w]> s, (cloneWorker w, bool_decide (is_Some (s !! id)))).

Definition IncrementWorkerLoad (s : store) (id : string) (now : Z) : store :=
  let w := default (default_worker id) (s !! id) in
  <[id := with_worker w (wk_CachedModels (wi_worker w)) (one_if_zero (wk_Capacity (wi_worker w)))
            (u32 (wk_RunningTasks (wi_worker w) + 1)) now]> s.

Definition DecrementWorkerLoad (s : store) (id : string) : store :=
  match s !! id with
  | None => s
  | Some w =>
      let running := wk_RunningTasks (wi_worker w) in
      <[id := with_worker w (wk_CachedModels (wi_worker w)) (wk_Capacity (wi_worker w))
                (if 0 <? running then running - 1 else running) (wk_LastHeartbeat (wi_worker w))]> s
  end.
End Legacy.

(** ** [workerStoreV2] *)

(** [workerRecordV2] *)
Record workerRecord := {
  wr_workerID : string; wr_address : string; wr_labels : gmap string string;
  wr_capacity : Z; wr_runningTasks : Z; wr_lastHeartbeat : Z; wr_cachedModels : gmap string bool
}.
Abbreviation workerStore := (gmap string workerRecord).

(** [getOrCreate]: the store, the record and whether it existed. *)
Definition getOrCreate (s : workerStore) (id : string) : workerStore * workerRecord * bool :=
  match s !! id with
  | Some r => (s, r, true)
  | None =>
      let r := {| wr_workerID := id; wr_address := ""; wr_labels := ∅; wr_capacity := 1; wr_runningTasks := 0;
                  wr_lastHeartbeat := 0; wr_cachedModels := ∅ |} in
      (<[id := r]> s, r, false)
  end.

(** [snapshot] *)
Definition snapshot (r : workerRecord) : workerInfo := {|
  wi_Address := wr_address r; wi_Labels := wr_labels r;
  wi_worker := {| wk_WorkerID := wr_workerID r; wk_CachedModels := wr_cachedModels r;
                  wk_Capacity := one_if_zero (wr_capacity r); wk_RunningTasks := wr_runningTasks r;
                  wk_LastHeartbeat := wr_lastHeartbeat r |} |}.

Definition upsert (s : workerStore) (w : workerInfo) (now : Z) : workerStore :=
  let id := wk_WorkerID (wi_worker w) in
  let '(s, r, existed) := getOrCreate s id in
  <[id := {| wr_workerID := id; wr_address := wi_Address w; wr_labels := wi_Labels w;
             wr_capacity := one_if_zero (wk_Capacity (wi_worker w));
             wr_runningTasks := if existed : bool then wr_runningTasks r else wk_RunningTasks (wi_worker w);
             wr_lastHeartbeat := if wk_LastHeartbeat (wi_worker w) =? 0 then now else wk_LastHeartbeat (wi_worker w);
             wr_cachedModels := wk_CachedModels (wi_worker w) |}]> s.

Definition get (s : workerStore) (id : string) : workerInfo * bool :=
  match s !! id with Some r => (snapshot r, true) | None => (zero_worker, false) end.
Definition active (s : workerStore) (maxAge now : Z) (range : list string) : list workerInfo :=
  omap (λ id, r ← s !! id; if fresh_enough now maxAge (snapshot r) then Some (snapshot r) else None) range.
Definition list_workers (s : workerStore) (range : list string) : list workerInfo := omap (λ id, snapshot <$> s !! id) range.

Definition set_record (r : workerRecord) (cached : gmap string bool) (running heartbeat : Z) : workerRecord := {|
  wr_workerID := wr_workerID r; wr_address := wr_address r; wr_labels := wr_labels r;
  wr_capacity := one_if_zero (wr_capacity r); wr_runningTasks := running; wr_lastHeartbeat := heartbeat;
  wr_cachedModels := cached |}.

Definition heartbeat (s : workerStore) (id : string) (cachedModels : option (gmap string bool)) (now : Z) :
    workerStore * (workerInfo * bool) :=
  let '(s, r, existed) := getOrCreate s id in
  let r := set_record r (default (wr_cachedModels r) cachedModels) (wr_runningTasks r) now in
  (<[id := r]> s, (snapshot r, existed)).
Definition incrementLoad (s : workerStore) (id : string) (now : Z) : workerStore :=
  let '(s, r, _) := getOrCreate s id in
  <[id := set_record r (wr_cachedModels r) (u32 (wr_runningTasks r + 1)) now]> s.

(** [decrementLoad] run alone: its compare-and-swap succeeds at once. *)
Definition decrementLoad (s : workerStore) (id : string) : workerStore :=
  match s !! id with
  | None => s
  | Some r =>
      if wr_runningTasks r =? 0 then s
      else <[id := {| wr_workerID := wr_workerID r; wr_address := wr_address r; wr_labels := wr_labels r;
                      wr_capacity := wr_capacity r; wr_runningTasks := wr_runningTasks r - 1;
                      wr_lastHeartbeat := wr_lastHeartbeat r; wr_cachedModels := wr_cachedModels r |}]> s
  end.

(** ** The two stores agree *)

Inductive worker_op :=
| WUpsert (w : workerInfo)
| WGet (id : string)
| WActive (maxAge : Z) (range : list string)
| WList (range : list string)
| WHeartbeat (id : string) (cached : option (gmap string bool))
| WIncrement (id : string)
| WDecrement (id : string).
(** What a caller sees: workers found. *)
Definition found (r : workerInfo * bool) : list workerInfo := if r.2 then [r.1] else [].
Definition legacy_worker_op (s : Legacy.store) (op : worker_op) (now : Z) : Legacy.store * list workerInfo :=
  match op with
  | WUpsert w => (Legacy.UpsertWorker s w now, [])
  | WGet id => (s, found (Legacy.GetWorker s id))
  | WActive maxAge range => (s, Legacy.ActiveWorkers s maxAge now range)
  | WList range => (s, Legacy.ListWorkers s range)
  | WHeartbeat id cached => let '(s, r) := Legacy.Heartbeat s id cached now in (s, found r)
  | WIncrement id => (Legacy.IncrementWorkerLoad s id now, [])
  | WDecrement id => (Legacy.DecrementWorkerLoad s id, [])
  end.
Definition worker_store_op (s : workerStore) (op : worker_op) (now : Z) : workerStore * list workerInfo :=
  match op with
  | WUpsert w => (upsert s w now, [])
  | WGet id => (s, found (get s id))
  | WActive maxAge range => (s, active s maxAge now range)
  | WList range => (s, list_workers s range)
  | WHeartbeat id cached => let '(s, r) := heartbeat s id cached now in (s, found r)
  | WIncrement id => (incrementLoad s id now, [])
  | WDecrement id => (decrementLoad s id, [])
  end.

Definition worker_ok (id : string) (w : workerInfo) : Prop :=
  wk_WorkerID (wi_worker w) = id ∧ wk_Capacity (wi_worker w) ≠ 0 ∧ 0 <= wk_RunningTasks (wi_worker w).
(** Records seen as workers. *)
Definition workers_of (s : workerStore) : Legacy.store := snapshot <$> s.
Definition stores_agree (s : workerStore) (l : Legacy.store) : Prop := workers_of s = l ∧ map_Forall worker_ok l.

Lemma clone_ok id w : worker_ok id w → cloneWorker w = w.
Proof.
  intros (_ & Hc & _). destruct w as [a l [i c cap r h]]. unfold cloneWorker, with_worker, one_if_zero. cbn in *.
  by destruct (Z.eqb_spec cap 0).
Qed.
Lemma one_if_zero_pos c : one_if_zero c ≠ 0.
Proof. unfold one_if_zero. by destruct (Z.eqb_spec c 0). Qed.
Lemma one_if_zero_idem c : one_if_zero (one_if_zero c) = one_if_zero c.
Proof. unfold one_if_zero. destruct (Z.eqb_spec c 0); [done|]. by destruct (Z.eqb_spec c 0). Qed.
Lemma one_if_zero_id c : c ≠ 0 → one_if_zero c = c.
Proof. unfold one_if_zero. by destruct (Z.eqb_spec c 0). Qed.

Lemma insert_agree s l id r : stores_agree s l → worker_ok id (snapshot r) →
  stores_agree (<[id := r]> s) (<[id := snapshot r]> l).
Proof.
  intros [<- Hl] Hok. split; [unfold workers_of; by rewrite fmap_insert|]. by apply map_Forall_insert_2.
Qed.

Lemma agree_lookup s l id : stores_agree s l → l !! id = snapshot <$> s !! id.
Proof. intros [<- _]. apply lookup_fmap. Qed.

(** Writing the updated record of [id], created first when it is missing. *)
Lemma getOrCreate_agree s l id (f : workerRecord → workerRecord) (g : workerInfo → workerInfo) :
  stores_agree s l →
  (∀ r, worker_ok id (snapshot r) → snapshot (f r) = g (snapshot r) ∧ worker_ok id (snapshot (f r))) →
  let '(s', r, existed) := getOrCreate s id in
  stores_agree (<[id := f r]> s') (<[id := g (default (default_worker id) (l !! id))]> l) ∧
  existed = bool_decide (is_Some (l !! id)) ∧ snapshot (f r) = g (default (default_worker id) (l !! id)).
Proof.
  intros Hag Hf. pose proof (agree_lookup s l id Hag) as Hid. pose proof Hag as [_ Hl]. unfold getOrCreate.
  destruct (s !! id) as [r|] eqn:Hr; cbn in Hid.
  - rewrite Hid. destruct (Hf r) as [Hg Hok]; [by apply Hl|]. cbn. rewrite <- Hg.
    split_and!; [by apply insert_agree|done|done].
  - rewrite Hid. set (r := {| wr_workerID := id |}). destruct (Hf r) as [Hg Hok]; [by split_and!|].
    change (snapshot r) with (default_worker id) in Hg. cbn. rewrite <- Hg. rewrite insert_insert_eq.
    split_and!; [by apply insert_agree|done|done].
Qed.

Lemma omap_lookup_agree {B} (f : workerInfo → option B) s l (range : list string) : stores_agree s l →
  omap (λ id, r ← s !! id; f (snapshot r)) range = omap (λ id, w ← l !! id; f w) range.
Proof.
  intros Hag. apply list_omap_ext, Forall_Forall2_diag, Forall_forall. intros id _.
  rewrite (agree_lookup s l id Hag). by destruct (s !! id).
Qed.

Lemma clone_listed {B} (f : workerInfo → workerInfo → option B) (l : Legacy.store) (range : list string) : map_Forall worker_ok l →
  omap (λ id, w ← l !! id; f w (cloneWorker w)) range = omap (λ id, w ← l !! id; f w w) range.
Proof.
  intros Hl. apply list_omap_ext, Forall_Forall2_diag, Forall_forall. intros id _.
  destruct (l !! id) as [w|] eqn:Hw; [|done]. cbn. by rewrite (clone_ok id) by (by apply Hl).
Qed.

Lemma worker_op_agree s l op now : stores_agree s l →
  (∀ w, op = WUpsert w → 0 <= wk_RunningTasks (wi_worker w)) →
  stores_agree (worker_store_op s op now).1 (legacy_worker_op l op now).1 ∧
  (worker_store_op s op now).2 = (legacy_worker_op l op now).2.
Proof.
  intros Hag Hup. pose proof Hag as [_ Hl]. destruct op as [w|id|maxAge range|range|id cached|id|id]; cbn.
  - specialize (Hup w eq_refl). split; [|done]. unfold upsert, Legacy.UpsertWorker. set (id := wk_WorkerID (wi_worker w)).
    pose proof (agree_lookup s l id Hag) as Hid. unfold getOrCreate.
    destruct (s !! id) as [r|] eqn:Hr; cbn in Hid; rewrite Hid; cbn; rewrite ?insert_insert_eq;
      match goal with |- stores_agree (<[_ := ?r']> _) (<[_ := ?w']> _) =>
        assert (Hw : w' = snapshot r') by done;
        rewrite Hw; apply insert_agree; [done|split_and!; [done|apply one_if_zero_pos|]] end; cbn; [|done].
    apply Hl in Hid as (_ & _ & H). done.
  - split; [done|]. unfold get, Legacy.GetWorker, found. rewrite (agree_lookup s l id Hag).
    destruct (s !! id) as [r|] eqn:Hr; cbn; [|done]. f_equal. symmetry. apply (clone_ok id), Hl.
    by rewrite (agree_lookup s l id Hag), Hr.
  - split; [done|]. unfold active, Legacy.ActiveWorkers.
    rewrite (clone_listed (λ w w', if fresh_enough now maxAge w then Some w' else None)) by done.
    by apply (omap_lookup_agree (λ w, if fresh_enough now maxAge w then Some w else None)).
  - split; [done|]. unfold list_workers, Legacy.ListWorkers.
    pose proof (clone_listed (λ _ w', Some w') l range Hl) as Hc.
    pose proof (omap_lookup_agree Some s l range Hag) as Ho.
    assert (Hf : ∀ {A} (m : gmap string A) (f : A → workerInfo) id, f <$> m !! id = (x ← m !! id; Some (f x))) by (intros; by destruct (_ !! _)).
    etrans; [|etrans; [exact Ho|etrans; [symmetry; exact Hc|]]];
      apply list_omap_ext, Forall_Forall2_diag, Forall_forall; intros id _; [by destruct (s !! id)|by destruct (l !! id)].
  - unfold heartbeat, Legacy.Heartbeat.
    pose proof (getOrCreate_agree s l id (λ r, set_record r (default (wr_cachedModels r) cached) (wr_runningTasks r) now)
      (λ w, with_worker w (default (wk_CachedModels (wi_worker w)) cached) (one_if_zero (wk_Capacity (wi_worker w)))
             (wk_RunningTasks (wi_worker w)) now) Hag) as H.
    destruct (getOrCreate s id) as [[s' r] existed]. destruct H as (Hag' & He & Hs).
    { intros r0 (Hid & Hc & Hr). split; [unfold snapshot, with_worker, set_record; cbn; by rewrite !one_if_zero_idem|].
      split_and!; [done|cbn; apply one_if_zero_pos|done]. }
    cbn. split; [done|]. unfold found. cbn. rewrite He, Hs. case_bool_decide; [|done]. f_equal. symmetry.
    apply (clone_ok id). apply Hag'. apply lookup_insert_eq.
  - unfold incrementLoad, Legacy.IncrementWorkerLoad.
    pose proof (getOrCreate_agree s l id (λ r, set_record r (wr_cachedModels r) (u32 (wr_runningTasks r + 1)) now)
      (λ w, with_worker w (wk_CachedModels (wi_worker w)) (one_if_zero (wk_Capacity (wi_worker w)))
             (u32 (wk_RunningTasks (wi_worker w) + 1)) now) Hag) as H.
    destruct (getOrCreate s id) as [[s' r] existed]. destruct H as (Hag' & He & Hs); [|done].
    intros r0 (Hid & Hc & Hr). split; [unfold snapshot, with_worker, set_record; cbn; by rewrite !one_if_zero_idem|].
    split_and!; [done|cbn; apply one_if_zero_pos|]. cbn. apply u32_range.
  - split; [|done]. unfold decrementLoad, Legacy.DecrementWorkerLoad. pose proof (agree_lookup s l id Hag) as Hid.
    destruct (s !! id) as [r|] eqn:Hr; cbn in Hid; rewrite Hid; [|done]. pose proof (Hl _ _ Hid) as (Hi & Hc & Hrun).
    cbn in Hrun |- *. destruct (Z.eqb_spec (wr_runningTasks r) 0) as [H0|H0].
    + rewrite H0. cbn. rewrite insert_id; [done|]. rewrite Hid. f_equal. unfold snapshot, with_worker. cbn. by rewrite H0.
    + destruct (Z.ltb_spec 0 (wr_runningTasks r)); [|lia].
      match goal with |- stores_agree (<[_ := ?r']> _) (<[_ := ?w']> _) => change w' with (snapshot r') end.
      apply insert_agree; [done|]. split_and!; [done|done|cbn; lia].
Qed.

Fixpoint legacy_worker_run (s : Legacy.store) (ops : list (worker_op * Z)) : list (list workerInfo) :=
  match ops with [] => [] | (op, now) :: ops => let (s, r) := legacy_worker_op s op now in r :: legacy_worker_run s ops end.
Fixpoint worker_store_run (s : workerStore) (ops : list (worker_op * Z)) : list (list workerInfo) :=
  match ops with [] => [] | (op, now) :: ops => let (s, r) := worker_store_op s op now in r :: worker_store_run s ops end.

(** the worker store with atomic counters gives every caller the workers the
    single-lock store gives, whatever the sequence of calls. *)
Theorem worker_stores_agree ops :
  Forall (λ o, ∀ w, o.1 = WUpsert w → 0 <= wk_RunningTasks (wi_worker w)) ops →
  worker_store_run ∅ ops = legacy_worker_run ∅ ops.
Proof.
  assert (H : ∀ s l, stores_agree s l → Forall (λ o, ∀ w, o.1 = WUpsert w → 0 <= wk_RunningTasks (wi_worker w)) ops →
    worker_store_run s ops = legacy_worker_run l ops).
  { induction ops as [|[op now] ops IH]; intros s l Hag Hall; [done|]. apply Forall_cons in Hall as [Hop Hall].
    destruct (worker_op_agree s l op now Hag Hop) as [Hag' Hr]. cbn.
    destruct (worker_store_op s op now) as [s' r], (legacy_worker_op l op now) as [l' r']. cbn in *. subst.
    f_equal. by apply IH. }
  apply H. split; [by unfold workers_of; rewrite fmap_empty|apply map_Forall_empty].
Qed.

Definition demo_ops : list (worker_op * Z) := [
  (WUpsert {| wi_Address := "a:1"; wi_Labels := ∅; wi_worker := {| wk_WorkerID := "w"; wk_CachedModels := ∅; wk_Capacity := 0;
     wk_RunningTasks := 0; wk_LastHeartbeat := 0 |} |}, 10);
  (WIncrement "w", 20); (WIncrement "w", 21); (WDecrement "w", 30); (WHeartbeat "w" None, 40); (WGet "w", 41); (WGet "v", 41)].
Lemma worker_stores_agree_witness :
  map (map (λ w, wk_RunningTasks (wi_worker w))) (worker_store_run ∅ demo_ops) = [[]; []; []; []; [1]; [1]; []].
Proof.
  rewrite worker_stores_agree; [by vm_compute|]. unfold demo_ops.
  repeat first [apply Forall_nil_2 | apply Forall_cons_2; [intros w Hw; cbn in Hw; simplify_eq; done|]].
Defined.

(** ** The load counter

    One record's [runningTasks] under goroutines that add, decrement in a
    compare-and-swap loop, or store the count a first [upsert] carries. *)
Inductive load_pc :=
| AddLoad
| LoadCurrent
| SwapLoad (current : Z)
| SeedLoad (count : Z)
| Added
| Removed
| NothingToRemove
| Seeded.

Definition load_step (load : Z) (pc : load_pc) : option (Z * load_pc) :=
  match pc with
  | AddLoad => Some (u32 (load + 1), Added)
  | LoadCurrent => Some (load, if load =? 0 then NothingToRemove else SwapLoad load)
  | SwapLoad current => Some (if load =? current then (current - 1, Removed) else (load, LoadCurrent))
  | SeedLoad count => Some (count, Seeded)
  | _ => None
  end.
Inductive load_step_of : Z * list load_pc → Z * list load_pc → Prop :=
| load_one load pcs k pc load' pc' :
    pcs !! k = Some pc → load_step load pc = Some (load', pc') → load_step_of (load, pcs) (load', <[k := pc']> pcs).

Definition total (f : load_pc → Z) (pcs : list load_pc) : Z := foldr (λ pc z, f pc + z) 0 pcs.
Lemma total_insert f pcs k pc pc' : pcs !! k = Some pc → total f (<[k := pc']> pcs) = total f pcs - f pc + f pc'.
Proof.
  revert k. induction pcs as [|x pcs IH]; intros [|k] Hk; [done|done|injection Hk as ->; unfold total; cbn; lia|].
  change (f x + total f (<[k := pc']> pcs) = f x + total f pcs - f pc + f pc'). rewrite (IH k) by done. lia.
Qed.
Lemma total_nonneg f pcs : (∀ pc, 0 <= f pc) → 0 <= total f pcs.
Proof. intros Hf. induction pcs as [|pc pcs IH]; cbn; [lia|]. specialize (Hf pc). unfold total in IH. lia. Qed.

Definition adds (pc : load_pc) : Z := match pc with AddLoad | Added => 1 | _ => 0 end.
Definition removes (pc : load_pc) : Z := match pc with LoadCurrent | SwapLoad _ | Removed | NothingToRemove => 1 | _ => 0 end.
Definition to_add (pc : load_pc) : Z := match pc with AddLoad => 1 | _ => 0 end.
Definition to_remove (pc : load_pc) : Z := match pc with LoadCurrent | SwapLoad _ | NothingToRemove => 1 | _ => 0 end.
Definition finished (pc : load_pc) : bool := match load_step 0 pc with None => true | _ => false end.
Definition removable (pc : load_pc) : Prop := match pc with SeedLoad _ | Seeded | NothingToRemove => False | SwapLoad c => c ≠ 0 | _ => True end.

(** The count covers the decrements to come and leaves room for the increments;
    both balances are those of the start. *)
Definition load_inv (start : Z) (pcs : list load_pc) (st : Z * list load_pc) : Prop :=
  let '(load, pcs') := st in
  Forall removable pcs' ∧ total to_remove pcs' <= load ∧ load + total to_add pcs' < 2 ^ 32 ∧
  load - total to_remove pcs' + total to_add pcs' = start - total to_remove pcs + total to_add pcs.

Lemma load_inv_step start pcs st st' : load_inv start pcs st → load_step_of st st' → load_inv start pcs st'.
Proof.
  destruct st as [load1 pcs1]. intros (Hr & Hl & Hh & Heq) Hstep.
  inversion Hstep as [? ? k pc load' pc' Hk Hpc]; subst.
  pose proof (Forall_lookup_1 _ _ _ _ Hr Hk) as Hpcr. unfold load_inv.
  rewrite !(total_insert _ _ _ pc pc' Hk).
  assert (Hnn : 0 <= total to_add (<[k := Added]> pcs1)) by (apply total_nonneg; by intros []).
  assert (Hnn' : 0 <= total to_remove (<[k := Removed]> pcs1)) by (apply total_nonneg; by intros []).
  rewrite (total_insert _ _ _ pc _ Hk) in Hnn. rewrite (total_insert _ _ _ pc _ Hk) in Hnn'.
  destruct pc; cbn in Hpc, Hpcr, Hnn, Hnn'; simplify_eq; cbn.
  - rewrite u32_id by (unfold in_u32; lia). split; [by apply Forall_insert|]. lia.
  - destruct (Z.eqb_spec load' 0); [lia|]. split; [by apply Forall_insert|]. cbn. lia.
  - destruct (Z.eqb_spec load1 current); simplify_eq; (split; [by apply Forall_insert|]); cbn; lia.
  - done.
Qed.

(** What the finished goroutines did to the count. *)
Definition added (pc : load_pc) : Z := match pc with Added => 1 | _ => 0 end.
Definition removed (pc : load_pc) : Z := match pc with Removed => 1 | _ => 0 end.
Definition swaps_positive (pc : load_pc) : Prop := match pc with SeedLoad _ | Seeded => False | SwapLoad c => c ≠ 0 | _ => True end.
Definition count_inv (start room : Z) (st : Z * list load_pc) : Prop :=
  let '(load, pcs) := st in
  Forall swaps_positive pcs ∧ load = start + total added pcs - total removed pcs ∧ 0 <= load ∧
  load + total to_add pcs <= room.

Lemma count_inv_step start room st st' : room < 2 ^ 32 →
  count_inv start room st → load_step_of st st' → count_inv start room st'.
Proof.
  intros Hroom. destruct st as [load1 pcs1]. intros (Hs & Hc & Hl & Hh) Hstep.
  inversion Hstep as [? ? k pc load' pc' Hk Hpc]; subst.
  pose proof (Forall_lookup_1 _ _ _ _ Hs Hk) as Hpcs. unfold count_inv.
  rewrite !(total_insert _ _ _ pc pc' Hk).
  assert (Hnn : 0 <= total to_add (<[k := Added]> pcs1)) by (apply total_nonneg; by intros []).
  rewrite (total_insert _ _ _ pc _ Hk) in Hnn.
  destruct pc; cbn in Hpc, Hpcs, Hnn; simplify_eq; cbn.
  - rewrite u32_id by (unfold in_u32; lia). split; [by apply Forall_insert|]. lia.
  - destruct (Z.eqb_spec (start + total added pcs1 - total removed pcs1) 0); (split; [by apply Forall_insert|]); cbn; lia.
  - destruct (Z.eqb_spec (start + total added pcs1 - total removed pcs1) current); simplify_eq;
      (split; [by apply Forall_insert|]); cbn; lia.
  - done.
Qed.

(** C28: under every interleaving of atomic increments and compare-and-swap
    decrements the count is exactly the start plus the increments less the
    decrements that took effect, never negative and never wrapped; and when the
    start covers the decrements none of them is dropped. *)
Theorem load_counter_exact start pcs load pcs' :
  star load_step_of (start, pcs) (load, pcs') → 0 <= start →
  Forall (λ pc, pc = AddLoad ∨ pc = LoadCurrent) pcs → start + total adds pcs < 2 ^ 32 →
  load = start + total added pcs' - total removed pcs' ∧ 0 <= load < 2 ^ 32 ∧
  (total removes pcs <= start → forallb finished pcs' = true → load = start + total adds pcs - total removes pcs).
Proof.
  intros Hrun Hpos Hall Hhigh.
  assert (Hstart : Forall removable pcs ∧ Forall swaps_positive pcs ∧ total to_remove pcs = total removes pcs ∧
    total to_add pcs = total adds pcs ∧ total added pcs = 0 ∧ total removed pcs = 0).
  { clear -Hall. induction Hall as [|pc pcs [-> | ->] _ (IH1 & IH1' & IH2 & IH3 & IH4 & IH5)]; [done|..];
      (split; [by constructor|split; [by constructor|]]); unfold total in *; cbn; lia. }
  destruct Hstart as (Hrem & Hswap & Htr & Hta & Hz1 & Hz2).
  assert (Hcount : count_inv start (start + total adds pcs) (load, pcs')).
  { eapply (star_invariant load_step_of (count_inv start (start + total adds pcs)));
      [intros; by eapply count_inv_step| |done]. unfold count_inv. split; [done|lia]. }
  destruct Hcount as (_ & Hc & Hl0 & Hl1).
  assert (0 <= total to_add pcs') by (apply total_nonneg; by intros []).
  split_and!; [done|done|lia|]. intros Hlow Hfin.
  assert (Hinv : load_inv start pcs (load, pcs')).
  { eapply (star_invariant load_step_of (load_inv start pcs)); [by intros; eapply load_inv_step| |done]. by split_and!; [done|lia..]. }
  destruct Hinv as (Hr & _ & _ & Heq).
  assert (total to_remove pcs' = 0 ∧ total to_add pcs' = 0); [|lia].
  clear -Hfin Hr. induction pcs' as [|pc pcs' IH]; [done|]. apply Forall_cons in Hr as [Hpc Hr].
  cbn in Hfin. apply andb_true_iff in Hfin as [Hf Hfin]. destruct (IH Hfin Hr) as [H1 H2]. unfold total in *. cbn.
  destruct pc; cbn in *; done || (rewrite H1, H2; done).
Qed.

Lemma load_counter_exact_witness :
  star load_step_of (1, [AddLoad; LoadCurrent]) (1, [Added; Removed]) ∧ (1 = 1 + 1 - 1).
Proof.
  assert (Hrun : star load_step_of (1, [AddLoad; LoadCurrent]) (1, [Added; Removed])).
  { eapply star_step; [apply (load_one 1 _ 1 LoadCurrent 1 (SwapLoad 1)); done|].
    eapply star_step; [apply (load_one 1 _ 0 AddLoad 2 Added); done|]. cbn.
    eapply star_step; [apply (load_one 2 _ 1 (SwapLoad 1) 2 LoadCurrent); done|].
    eapply star_step; [apply (load_one 2 _ 1 LoadCurrent 2 (SwapLoad 2)); done|].
    eapply star_step; [apply (load_one 2 _ 1 (SwapLoad 2) 1 Removed); done|]. constructor. }
  split; [done|].
  destruct (load_counter_exact 1 [AddLoad; LoadCurrent] 1 [Added; Removed] Hrun) as (H & _); [done| |cbn; lia|exact H].
  apply Forall_cons_2; [by left|]. apply Forall_cons_2; [by right|apply Forall_nil_2].
Defined.

(** The first [upsert] of a worker stores its count after the record is visible:
    an increment in between is erased. *)
Lemma seed_erases_increment :
  star load_step_of (0, [SeedLoad 0; AddLoad]) (0, [Seeded; Added]).
Proof.
  eapply star_step; [apply (load_one 0 _ 1 AddLoad 1 Added); done|].
  eapply star_step; [apply (load_one 1 _ 0 (SeedLoad 0) 0 Seeded); done|]. constructor.
Qed.
