(* ===== verification/TaskSpec.v ===== *)
(** Task specifications and request fingerprints: [TaskSpec] of the wire
    protocol, [cloneSpec] (internal/control/service.go), the function identity
    (functions.go) and internal/control/idempotency.go.

    JSON and SHA-256 come as one class, [FingerprintLib].  The requests that use
    the fingerprints are in [ControlService]. *)
From S2P Require Import Prelude Bytes.

Open Scope Z_scope.

(** [logservepb.TaskSpec] *)
Record TaskSpec := {
  ts_TaskId : string;
  ts_TaskName : string;
  ts_FunctionName : string;
  ts_FunctionSource : string;
  ts_FunctionRef : string;
  ts_FunctionHash : string;
  ts_ArgsJson : bytes;
  ts_IdempotencyKey : string;
  ts_WorkflowId : string;
  ts_StepId : string;
  ts_TargetWorkerId : string;
  ts_ActorId : string;
  ts_ActorCallId : string;
  ts_ActorClassName : string;
  ts_ActorClassSource : string;
  ts_ActorMethod : string;
  ts_ActorStateJson : bytes;
  ts_ActorInitArgsJson : bytes;
  ts_ActorEpoch : Z;
  ts_LlmModelName : string;
  ts_LlmModelVersion : string;
  ts_LlmAdapter : string;
  ts_LlmMaxTokens : Z;
  ts_TimeoutMs : Z;
  ts_TaskLeaseEpoch : Z
}.
#[export] Instance TaskSpec_eq_dec : EqDecision TaskSpec.
Proof. solve_decision. Defined.

Definition zero_spec : TaskSpec := {|
  ts_TaskId := ""; ts_TaskName := ""; ts_FunctionName := ""; ts_FunctionSource := ""; ts_FunctionRef := "";
  ts_FunctionHash := ""; ts_ArgsJson := []; ts_IdempotencyKey := ""; ts_WorkflowId := ""; ts_StepId := "";
  ts_TargetWorkerId := ""; ts_ActorId := ""; ts_ActorCallId := ""; ts_ActorClassName := "";
  ts_ActorClassSource := ""; ts_ActorMethod := ""; ts_ActorStateJson := []; ts_ActorInitArgsJson := [];
  ts_ActorEpoch := 0; ts_LlmModelName := ""; ts_LlmModelVersion := ""; ts_LlmAdapter := "";
  ts_LlmMaxTokens := 0; ts_TimeoutMs := 0; ts_TaskLeaseEpoch := 0 |}.

(** [cloneSpec]; nil stays nil. *)
Definition cloneSpec (spec : option TaskSpec) : option TaskSpec :=
  match spec with
  | None => None
  | Some s => Some {|
      ts_TaskId := ts_TaskId s; ts_TaskName := ts_TaskName s; ts_FunctionName := ts_FunctionName s;
      ts_FunctionSource := ts_FunctionSource s; ts_FunctionRef := ts_FunctionRef s;
      ts_FunctionHash := ts_FunctionHash s; ts_ArgsJson := ts_ArgsJson s;
      ts_IdempotencyKey := ts_IdempotencyKey s; ts_WorkflowId := ts_WorkflowId s; ts_StepId := ts_StepId s;
      ts_TargetWorkerId := ts_TargetWorkerId s; ts_ActorId := ts_ActorId s; ts_ActorCallId := ts_ActorCallId s;
      ts_ActorClassName := ts_ActorClassName s; ts_ActorClassSource := ts_ActorClassSource s;
      ts_ActorMethod := ts_ActorMethod s; ts_ActorStateJson := ts_ActorStateJson s;
      ts_ActorInitArgsJson := ts_ActorInitArgsJson s; ts_ActorEpoch := ts_ActorEpoch s;
      ts_LlmModelName := ts_LlmModelName s; ts_LlmModelVersion := ts_LlmModelVersion s;
      ts_LlmAdapter := ts_LlmAdapter s; ts_LlmMaxTokens := ts_LlmMaxTokens s; ts_TimeoutMs := ts_TimeoutMs s;
      ts_TaskLeaseEpoch := ts_TaskLeaseEpoch s |}
  end.

Lemma cloneSpec_id spec : cloneSpec spec = spec.
Proof. by destruct spec as [[]|]. Qed.

(** The assignment [spec.TaskLeaseEpoch = epoch]. *)
Definition with_lease_epoch (s : TaskSpec) (epoch : Z) : TaskSpec := {|
  ts_TaskId := ts_TaskId s; ts_TaskName := ts_TaskName s; ts_FunctionName := ts_FunctionName s;
  ts_FunctionSource := ts_FunctionSource s; ts_FunctionRef := ts_FunctionRef s;
  ts_FunctionHash := ts_FunctionHash s; ts_ArgsJson := ts_ArgsJson s;
  ts_IdempotencyKey := ts_IdempotencyKey s; ts_WorkflowId := ts_WorkflowId s; ts_StepId := ts_StepId s;
  ts_TargetWorkerId := ts_TargetWorkerId s; ts_ActorId := ts_ActorId s; ts_ActorCallId := ts_ActorCallId s;
  ts_ActorClassName := ts_ActorClassName s; ts_ActorClassSource := ts_ActorClassSource s;
  ts_ActorMethod := ts_ActorMethod s; ts_ActorStateJson := ts_ActorStateJson s;
  ts_ActorInitArgsJson := ts_ActorInitArgsJson s; ts_ActorEpoch := ts_ActorEpoch s;
  ts_LlmModelName := ts_LlmModelName s; ts_LlmModelVersion := ts_LlmModelVersion s;
  ts_LlmAdapter := ts_LlmAdapter s; ts_LlmMaxTokens := ts_LlmMaxTokens s; ts_TimeoutMs := ts_TimeoutMs s;
  ts_TaskLeaseEpoch := epoch |}.

(** ** Fingerprints *)

(** JSON values and SHA-256.  A map is the list of its entries, in the order of
    the literal; [json.Marshal] sorts the keys, so the order does not matter. *)
Class FingerprintLib := {
  json_any : Type;
  json_CompactArgs : bytes → option bytes;
  json_Unmarshal_any : bytes → option json_any;
  json_Marshal : list (string * (string + Z + option json_any)) → option bytes;
  sha256_Sum256 : bytes → bytes
}.

Definition hex_digit (z : Z) : Ascii.ascii := Ascii.ascii_of_N (Z.to_N (if z <? 10 then 48 + z else 87 + z)).
(** [hex.EncodeToString] *)
Fixpoint hex_EncodeToString (b : bytes) : string :=
  match b with
  | [] => ""
  | x :: b => String.String (hex_digit (Z_of_byte x / 16)) (String.String (hex_digit (Z_of_byte x mod 16)) (hex_EncodeToString b))
  end.

Inductive idempotency_error := ErrFingerprint | ErrIdempotencyConflict (kind key : string).
#[export] Instance idempotency_error_eq_dec : EqDecision idempotency_error.
Proof. solve_decision. Defined.

(** [ensureIdempotencyFingerprint] *)
Definition ensureIdempotencyFingerprint (kind key existing requested : string) : result idempotency_error unit :=
  if str_empty key || str_empty existing || bool_decide (existing = requested) then Ok ()
  else Err (ErrIdempotencyConflict kind key).

Section Fingerprints.
Context `{FingerprintLib}.

Definition hashFunctionSource (source : string) : string :=
  "sha256:" +:+ hex_EncodeToString (sha256_Sum256 (str_bytes source)).

Definition requiresPythonFunction (spec : TaskSpec) : bool :=
  str_empty (ts_LlmModelName spec) && str_empty (ts_ActorId spec).

Definition taskFunctionIdentity (spec : option TaskSpec) : string :=
  match spec with
  | None => ""
  | Some spec =>
      if negb (str_empty (ts_FunctionHash spec)) then ts_FunctionHash spec
      else if negb (str_empty (ts_FunctionSource spec)) then hashFunctionSource (ts_FunctionSource spec)
      else ""
  end.

(** [jsonValueForFingerprint]; no data is a nil value. *)
Definition jsonValueForFingerprint (data : bytes) : result idempotency_error (option json_any) :=
  match data with
  | [] => Ok None
  | _ =>
      match json_CompactArgs data with
      | None => Err ErrFingerprint
      | Some compact => match json_Unmarshal_any compact with None => Err ErrFingerprint | Some v => Ok (Some v) end
      end
  end.

Definition stableFingerprint (value : list (string * (string + Z + option json_any))) : result idempotency_error string :=
  match json_Marshal value with
  | None => Err ErrFingerprint
  | Some data => Ok (hex_EncodeToString (sha256_Sum256 data))
  end.

(** What a task is identified by. *)
Definition spec_identity (spec : TaskSpec) (args : option json_any) : list (string * (string + Z + option json_any)) := [
  ("task_name", inl (inl (ts_TaskName spec)));
  ("function_name", inl (inl (ts_FunctionName spec)));
  ("function_hash", inl (inl (taskFunctionIdentity (Some spec))));
  ("args_json", inr args);
  ("workflow_id", inl (inl (ts_WorkflowId spec)));
  ("step_id", inl (inl (ts_StepId spec)));
  ("actor_id", inl (inl (ts_ActorId spec)));
  ("actor_class_name", inl (inl (ts_ActorClassName spec)));
  ("actor_class_source", inl (inl (ts_ActorClassSource spec)));
  ("actor_method", inl (inl (ts_ActorMethod spec)));
  ("llm_model_name", inl (inl (ts_LlmModelName spec)));
  ("llm_model_version", inl (inl (ts_LlmModelVersion spec)));
  ("llm_adapter", inl (inl (ts_LlmAdapter spec)));
  ("llm_max_tokens", inl (inr (ts_LlmMaxTokens spec)));
  ("timeout_ms", inl (inr (ts_TimeoutMs spec)))].

Definition taskSpecFingerprint (spec : TaskSpec) : result idempotency_error string :=
  args ← jsonValueForFingerprint (ts_ArgsJson spec);
  stableFingerprint (spec_identity spec args).
End Fingerprints.
