(* ===== verification/TaskReplay.v ===== *)
(** Task replay: the task lifecycle events and their codec
    (internal/control/lifecycle_codec.go, service.go) and the state machine that
    rebuilds a task from its stream (task_replay.go, and the older one in
    bootstrap.go).

    Protobuf and the JSON codec are the class [TaskCodecLib].  The theorems are in
    [TaskReplaySpec]. *)
From S2P Require Import Prelude Bytes LogRecord EventCodec TaskSpec MetaStore.

Open Scope Z_scope.

(** [taskLifecyclePayload]; [None] is a nil [json.RawMessage]. *)
Record taskLifecyclePayload := {
  lp_TaskLeaseEpoch : Z;
  lp_WorkerID : string;
  lp_ResultJSON : option bytes;
  lp_Error : string;
  lp_TimestampMs : Z
}.
Definition zero_lifecycle : taskLifecyclePayload :=
  {| lp_TaskLeaseEpoch := 0; lp_WorkerID := ""; lp_ResultJSON := None; lp_Error := ""; lp_TimestampMs := 0 |}.

(** Protobuf, protojson and JSON, as the code relies on them: what was encoded is
    decoded; JSON text starts with a brace. *)
Class TaskCodecLib := {
  proto_Marshal : TaskSpec → option bytes;
  proto_Unmarshal : bytes → option TaskSpec;
  (** [json.Unmarshal] of the legacy wrapper and [protojson.Unmarshal] of what it holds *)
  json_Submitted : bytes → option bytes;
  protojson_Unmarshal : bytes → option TaskSpec;
  (** [json.Unmarshal] of a lifecycle payload, its error ignored, and [json.Marshal] of an empty one *)
  json_Lifecycle : bytes → taskLifecyclePayload;
  json_EmptyLifecycle : bytes;
  (** [json.Marshal] of the map of a redelivery: task, name, epoch, time *)
  json_Redelivered : string → string → Z → Z → bytes;
  proto_roundtrip : ∀ spec data, proto_Marshal spec = Some data →
    proto_Unmarshal data = Some spec ∧ (data = [] → spec = zero_spec);
  json_empty : json_Lifecycle json_EmptyLifecycle = zero_lifecycle ∧ ∃ rest, json_EmptyLifecycle = x7b :: rest;
  json_redelivered : ∀ id name epoch now, in_u64 epoch →
    lp_TaskLeaseEpoch (json_Lifecycle (json_Redelivered id name epoch now)) = epoch ∧
    ∃ rest, json_Redelivered id name epoch now = x7b :: rest
}.

Inductive replay_error :=
| ErrTaskIterator
| ErrTaskPayload (e : codec_error)
| ErrTaskSpec
| ErrTaskFingerprint (e : idempotency_error).

(** [taskLifecycleEventKind] *)
Definition taskLifecycleEventKind : Kind := 4.

(** [taskReplayState] *)
Record taskReplayState := {
  rs_spec : option TaskSpec;
  rs_task : Task;
  rs_status : Z;
  rs_leaseEpoch : Z;
  rs_redeliveredLeaseEpoch : Z;
  rs_ok : bool
}.
(** [&taskReplayState{status: QUEUED}] *)
Definition initial_replay : taskReplayState := {|
  rs_spec := None; rs_task := zero_task; rs_status := TASK_STATUS_QUEUED; rs_leaseEpoch := 0;
  rs_redeliveredLeaseEpoch := 0; rs_ok := false |}.

(** The assignments of a transition to [status] under [worker]. *)
Definition set_status (s : taskReplayState) (status : Z) (worker : string) (epoch redelivered : Z) (task : Task) :
    taskReplayState := {|
  rs_spec := rs_spec s; rs_task := set_lease task status worker (tk_TaskLeaseEpoch task) (tk_UpdatedAtMs task);
  rs_status := status; rs_leaseEpoch := epoch; rs_redeliveredLeaseEpoch := redelivered; rs_ok := rs_ok s |}.

Record TaskIterator := { ti_records : list RawRecord; ti_fails : bool }.

Section Codec.
Context `{MsgpackLib} `{TaskCodecLib}.

(** [marshalTaskLifecyclePayload] *)
Definition lifecycle_entries (p : taskLifecyclePayload) : list (string * option any) := [
  ("task_lease_epoch", opt_int KUint64 (lp_TaskLeaseEpoch p));
  ("worker_id", opt_str (lp_WorkerID p));
  ("result_json", opt_bytes (lp_ResultJSON p));
  ("error", opt_str (lp_Error p));
  ("timestamp_ms", opt_int KInt64 (lp_TimestampMs p))].
Definition marshalTaskLifecyclePayload (p : taskLifecyclePayload) : result codec_error bytes :=
  let fields := sparse (lifecycle_entries p) ∅ in
  if decide (fields = ∅) then Ok json_EmptyLifecycle else Marshal taskLifecycleEventKind fields.

Definition decodeTaskLifecyclePayload (data : bytes) : taskLifecyclePayload :=
  match data with
  | [] => zero_lifecycle
  | _ =>
      match Unmarshal taskLifecycleEventKind data with
      | Err _ => zero_lifecycle
      | Ok (Some m) => {|
          lp_TaskLeaseEpoch := Uint64Value (m !! "task_lease_epoch");
          lp_WorkerID := StringValue (m !! "worker_id");
          lp_ResultJSON := BytesValue (m !! "result_json");
          lp_Error := StringValue (m !! "error");
          lp_TimestampMs := Int64Value (m !! "timestamp_ms") |}
      | Ok None => json_Lifecycle data
      end
  end.

(** [marshalTaskSubmittedPayload] *)
Definition marshalTaskSubmittedPayload (spec : TaskSpec) : result replay_error bytes :=
  match cloneSpec (Some spec) with
  | None => Err ErrTaskSpec
  | Some spec =>
      match proto_Marshal spec with
      | None => Err ErrTaskSpec
      | Some specData =>
          match Marshal KindTaskSubmitted {["task_spec" := ABytes specData]} with
          | Err e => Err (ErrTaskPayload e)
          | Ok data => Ok data
          end
      end
  end.

(** [unmarshalTaskSubmittedSpec] *)
Definition unmarshalTaskSubmittedSpec (data : bytes) : result replay_error TaskSpec :=
  match Unmarshal KindTaskSubmitted data with
  | Err e => Err (ErrTaskPayload e)
  | Ok (Some fields) =>
      match default [] (BytesValue (fields !! "task_spec")) with
      | [] => Ok zero_spec
      | specData => match proto_Unmarshal specData with None => Err ErrTaskSpec | Some spec => Ok spec end
      end
  | Ok None =>
      match json_Submitted data with
      | None => Err ErrTaskSpec
      | Some [] => Ok zero_spec
      | Some specData => match protojson_Unmarshal specData with None => Err ErrTaskSpec | Some spec => Ok spec end
      end
  end.

(** ** The replay state machine *)

Definition taskEventLeaseEpoch (payload : bytes) : Z := lp_TaskLeaseEpoch (decodeTaskLifecyclePayload payload).

Definition taskTerminalEventApplies (status currentLeaseEpoch redeliveredLeaseEpoch : Z) (payload : bytes) : bool :=
  if isTerminalTaskStatus status then false
  else
    let eventLeaseEpoch := taskEventLeaseEpoch payload in
    if eventLeaseEpoch =? 0 then (currentLeaseEpoch =? 0) && (redeliveredLeaseEpoch =? 0)
    else if negb (status =? TASK_STATUS_RUNNING) then false
    else (eventLeaseEpoch =? currentLeaseEpoch) && (redeliveredLeaseEpoch <? eventLeaseEpoch).

Definition terminalEventApplies (s : taskReplayState) (payload : bytes) : bool :=
  taskTerminalEventApplies (rs_status s) (rs_leaseEpoch s) (rs_redeliveredLeaseEpoch s) payload.

(** The record of a replayed submission. *)
Definition submitted_task (spec : TaskSpec) (fingerprint : string) : Task := {|
  tk_TaskID := ts_TaskId spec; tk_TaskName := ts_TaskName spec; tk_Status := TASK_STATUS_QUEUED; tk_ResultJSON := [];
  tk_Error := ""; tk_WorkerID := ""; tk_WorkflowID := ts_WorkflowId spec; tk_StepID := ts_StepId spec;
  tk_TargetWorkerID := ts_TargetWorkerId spec; tk_ActorID := ts_ActorId spec; tk_ActorCallID := ts_ActorCallId spec;
  tk_ActorEpoch := ts_ActorEpoch spec; tk_ActorCommandSeq := 0; tk_TaskLeaseEpoch := ts_TaskLeaseEpoch spec;
  tk_LLMModelName := ts_LlmModelName spec; tk_LLMModelVersion := ts_LlmModelVersion spec;
  tk_IdempotencyKey := ts_IdempotencyKey spec; tk_IdempotencyFingerprint := fingerprint;
  tk_CreatedAtMs := 0; tk_UpdatedAtMs := 0 |}.

Section Replay.
Context `{FingerprintLib}.

Definition apply_submitted (s : taskReplayState) (payload : bytes) : result replay_error taskReplayState :=
  decoded ← unmarshalTaskSubmittedSpec payload;
  if str_empty (ts_TaskId decoded) then Ok s
  else
    match taskSpecFingerprint decoded with
    | Err e => Err (ErrTaskFingerprint e)
    | Ok fingerprint => Ok {|
        rs_spec := Some decoded; rs_task := submitted_task decoded fingerprint; rs_status := TASK_STATUS_QUEUED;
        rs_leaseEpoch := ts_TaskLeaseEpoch decoded; rs_redeliveredLeaseEpoch := 0; rs_ok := true |}
    end.

Definition apply_started (s : taskReplayState) (payload : bytes) : taskReplayState :=
  if isTerminalTaskStatus (rs_status s) then s
  else
    let p := decodeTaskLifecyclePayload payload in
    let epoch := lp_TaskLeaseEpoch p in
    if epoch =? 0 then
      if (rs_leaseEpoch s =? 0) && (rs_redeliveredLeaseEpoch s =? 0)
      then set_status s TASK_STATUS_RUNNING (lp_WorkerID p) (rs_leaseEpoch s) (rs_redeliveredLeaseEpoch s) (rs_task s)
      else s
    else if epoch <=? rs_redeliveredLeaseEpoch s then s
    else if rs_leaseEpoch s <=? epoch
    then set_status s TASK_STATUS_RUNNING (lp_WorkerID p) epoch (rs_redeliveredLeaseEpoch s)
           (set_lease (rs_task s) TASK_STATUS_RUNNING (lp_WorkerID p) epoch (tk_UpdatedAtMs (rs_task s)))
    else s.

Definition apply_redelivered (s : taskReplayState) (payload : bytes) : taskReplayState :=
  if isTerminalTaskStatus (rs_status s) then s
  else
    let epoch := taskEventLeaseEpoch payload in
    let redelivered := Z.max (rs_redeliveredLeaseEpoch s) epoch in
    if (epoch =? 0) || (rs_leaseEpoch s <=? epoch)
    then set_status s TASK_STATUS_QUEUED "" (rs_leaseEpoch s) redelivered (rs_task s)
    else {| rs_spec := rs_spec s; rs_task := rs_task s; rs_status := rs_status s; rs_leaseEpoch := rs_leaseEpoch s;
            rs_redeliveredLeaseEpoch := redelivered; rs_ok := rs_ok s |}.

Definition apply_terminal (s : taskReplayState) (status : Z) (payload : bytes) : taskReplayState :=
  if terminalEventApplies s payload then
    let p := decodeTaskLifecyclePayload payload in
    set_status s status (lp_WorkerID p) (rs_leaseEpoch s) (rs_redeliveredLeaseEpoch s)
      (set_result (rs_task s) (default [] (lp_ResultJSON p))
         (if status =? TASK_STATUS_SUCCEEDED then "" else lp_Error p))
  else s.

(** [applyRaw] *)
Definition applyRaw (s : taskReplayState) (rec : RawRecord) : result replay_error taskReplayState :=
  if decide (raw_EventType rec = "TaskSubmitted") then apply_submitted s (raw_Payload rec)
  else if decide (raw_EventType rec = "TaskStarted") then Ok (apply_started s (raw_Payload rec))
  else if decide (raw_EventType rec = "TaskRedelivered") then Ok (apply_redelivered s (raw_Payload rec))
  else if decide (raw_EventType rec = "TaskCompleted") then Ok (apply_terminal s TASK_STATUS_SUCCEEDED (raw_Payload rec))
  else if decide (raw_EventType rec = "TaskFailed") then Ok (apply_terminal s TASK_STATUS_FAILED (raw_Payload rec))
  else Ok s.
(** [apply] *)
Definition apply (s : taskReplayState) (rec : option ProtoLogRecord) : result replay_error taskReplayState :=
  applyRaw s (FromProto rec).

Fixpoint apply_all (s : taskReplayState) (records : list RawRecord) : result replay_error taskReplayState :=
  match records with [] => Ok s | rec :: records => s ← applyRaw s rec; apply_all s records end.

(** [replayTaskMetadataRawEach]; a nil iterator or initial state is [None]. *)
Definition replayTaskMetadataRawEach (it : option TaskIterator) (initial : option taskReplayState) :
    result replay_error taskReplayState :=
  let state :=
    match initial with
    | None => initial_replay
    | Some s => {| rs_spec := cloneSpec (rs_spec s); rs_task := rs_task s; rs_status := rs_status s;
                   rs_leaseEpoch := rs_leaseEpoch s; rs_redeliveredLeaseEpoch := rs_redeliveredLeaseEpoch s;
                   rs_ok := rs_ok s |}
    end in
  match it with
  | None => Ok state
  | Some it => s ← apply_all state (ti_records it); if ti_fails it then Err ErrTaskIterator else Ok s
  end.
(** [replayTaskMetadataEach] *)
Definition replayTaskMetadataEach (it : option (list (option ProtoLogRecord) * bool)) (initial : option taskReplayState) :
    result replay_error taskReplayState :=
  replayTaskMetadataRawEach ((λ p, {| ti_records := map FromProto p.1; ti_fails := p.2 |}) <$> it) initial.

(** [taskReplayStateFromCheckpoint]; the lease that was redelivered last is not in a checkpoint. *)
Definition taskReplayStateFromCheckpoint (task : Task) (spec : option TaskSpec) : taskReplayState :=
  let task := if tk_Status task =? 0 then set_lease task TASK_STATUS_QUEUED (tk_WorkerID task) (tk_TaskLeaseEpoch task) (tk_UpdatedAtMs task)
              else task in
  {| rs_spec := cloneSpec spec; rs_task := task; rs_status := tk_Status task; rs_leaseEpoch := tk_TaskLeaseEpoch task;
     rs_redeliveredLeaseEpoch := 0; rs_ok := negb (str_empty (tk_TaskID task)) |}.

(** [finalTask]; it also stores the epoch in the spec. *)
Definition final_spec (s : taskReplayState) : option TaskSpec := (λ sp, with_lease_epoch sp (rs_leaseEpoch s)) <$> rs_spec s.
Definition finalTask (s : taskReplayState) : Task :=
  if rs_status s =? TASK_STATUS_RUNNING
  then set_lease (rs_task s) TASK_STATUS_QUEUED "" (rs_leaseEpoch s) (tk_UpdatedAtMs (rs_task s))
  else set_lease (rs_task s) (rs_status s) (tk_WorkerID (rs_task s)) (rs_leaseEpoch s) (tk_UpdatedAtMs (rs_task s)).

(** ** The older engine: [replayTaskSpecEach] *)

Record specReplay := { sr_spec : option TaskSpec; sr_status : Z; sr_leaseEpoch : Z; sr_redelivered : Z }.
Definition spec_step (s : specReplay) (rec : RawRecord) : result replay_error specReplay :=
  let put spec status epoch redelivered := {| sr_spec := spec; sr_status := status; sr_leaseEpoch := epoch; sr_redelivered := redelivered |} in
  if decide (raw_EventType rec = "TaskSubmitted") then
    decoded ← unmarshalTaskSubmittedSpec (raw_Payload rec);
    if str_empty (ts_TaskId decoded) then Ok s
    else Ok (put (Some decoded) TASK_STATUS_QUEUED (sr_leaseEpoch s) (sr_redelivered s))
  else if decide (raw_EventType rec = "TaskStarted") then
    if isTerminalTaskStatus (sr_status s) then Ok s
    else
      let epoch := taskEventLeaseEpoch (raw_Payload rec) in
      if epoch =? 0 then
        if (sr_leaseEpoch s =? 0) && (sr_redelivered s =? 0)
        then Ok (put (sr_spec s) TASK_STATUS_RUNNING (sr_leaseEpoch s) (sr_redelivered s)) else Ok s
      else if epoch <=? sr_redelivered s then Ok s
      else if sr_leaseEpoch s <=? epoch then Ok (put (sr_spec s) TASK_STATUS_RUNNING epoch (sr_redelivered s))
      else Ok s
  else if decide (raw_EventType rec = "TaskRedelivered") then
    if isTerminalTaskStatus (sr_status s) then Ok s
    else
      let epoch := taskEventLeaseEpoch (raw_Payload rec) in
      let redelivered := Z.max (sr_redelivered s) epoch in
      Ok (put (sr_spec s) (if (epoch =? 0) || (sr_leaseEpoch s <=? epoch) then TASK_STATUS_QUEUED else sr_status s)
            (sr_leaseEpoch s) redelivered)
  else if decide (raw_EventType rec = "TaskCompleted") then
    if taskTerminalEventApplies (sr_status s) (sr_leaseEpoch s) (sr_redelivered s) (raw_Payload rec)
    then Ok (put (sr_spec s) TASK_STATUS_SUCCEEDED (sr_leaseEpoch s) (sr_redelivered s)) else Ok s
  else if decide (raw_EventType rec = "TaskFailed") then
    if taskTerminalEventApplies (sr_status s) (sr_leaseEpoch s) (sr_redelivered s) (raw_Payload rec)
    then Ok (put (sr_spec s) TASK_STATUS_FAILED (sr_leaseEpoch s) (sr_redelivered s)) else Ok s
  else Ok s.
Fixpoint spec_steps (s : specReplay) (records : list RawRecord) : result replay_error specReplay :=
  match records with [] => Ok s | rec :: records => s ← spec_step s rec; spec_steps s records end.

(** The spec with its epoch, the status and the epoch; [None] when there is no spec. *)
Definition replayTaskSpecEach (it : option (list (option ProtoLogRecord) * bool)) :
    result replay_error (option TaskSpec * Z * Z * bool) :=
  match it with
  | None => Ok (None, TASK_STATUS_QUEUED, 0, false)
  | Some (records, fails) =>
      s ← spec_steps {| sr_spec := None; sr_status := TASK_STATUS_QUEUED; sr_leaseEpoch := 0; sr_redelivered := 0 |}
            (map FromProto records);
      if fails : bool then Err ErrTaskIterator
      else
        match sr_spec s with
        | None => Ok (None, sr_status s, sr_leaseEpoch s, false)
        | Some spec =>
            Ok (Some (with_lease_epoch spec (sr_leaseEpoch s)),
                if sr_status s =? TASK_STATUS_RUNNING then TASK_STATUS_QUEUED else sr_status s, sr_leaseEpoch s, true)
        end
  end.
(** [replayTaskSpec] *)
Definition replayTaskSpec (records : list (option ProtoLogRecord)) : result replay_error (option TaskSpec * Z * Z * bool) :=
  replayTaskSpecEach (Some (records, false)).
End Replay.
End Codec.
