(* ===== verification/TaskReplaySpec.v ===== *)
(** Theorems on task replay ([TaskReplay]): payloads round-trip; the two replay
    engines agree; a task is settled exactly by the first outcome whose lease was
    started, is the latest and was not redelivered. *)
From S2P Require Import Prelude Bytes LogRecord EventCodec TaskSpec MetaStore TaskReplay.

Open Scope Z_scope.

Section Codec.
Context `{MsgpackLib} `{TaskCodecLib}.

(** ** Payloads round-trip *)

Record lifecycle_ok (p : taskLifecyclePayload) : Prop := {
  lo_epoch : in_u64 (lp_TaskLeaseEpoch p);
  lo_result : lp_ResultJSON p ≠ Some [];
  lo_timestamp : in_i64 (lp_TimestampMs p)
}.

Lemma lifecycle_keys p : NoDup ((lifecycle_entries p).*1).
Proof.
  change ((lifecycle_entries p).*1) with ((lifecycle_entries zero_lifecycle).*1).
  apply (bool_decide_unpack _). vm_compute. exact I.
Qed.
Lemma lifecycle_lookup p k o : (k, o) ∈ lifecycle_entries p → sparse (lifecycle_entries p) ∅ !! k = o.
Proof. apply sparse_lookup; [apply lifecycle_keys|apply lookup_empty]. Qed.

Ltac lifecycle_field :=
  apply lifecycle_lookup; unfold lifecycle_entries;
  repeat (first [apply list_elem_of_here|apply list_elem_of_further]).

(** Text that starts with a brace is left to the JSON decoder. *)
Lemma decode_brace rest : decodeTaskLifecyclePayload (x7b :: rest) = json_Lifecycle (x7b :: rest).
Proof.
  unfold decodeTaskLifecyclePayload. rewrite legacy_falls_through; [done|].
  unfold slice, magic. cbn. by intros [=].
Qed.

Lemma lifecycle_map p m :
  lifecycle_ok p → fields_sim (sparse (lifecycle_entries p) ∅) m →
  {| lp_TaskLeaseEpoch := Uint64Value (m !! "task_lease_epoch"); lp_WorkerID := StringValue (m !! "worker_id");
     lp_ResultJSON := BytesValue (m !! "result_json"); lp_Error := StringValue (m !! "error");
     lp_TimestampMs := Int64Value (m !! "timestamp_ms") |} = p.
Proof.
  intros [He Hr Ht] Hs. destruct p as [epoch worker data err ts]; cbn [lp_TaskLeaseEpoch lp_WorkerID lp_ResultJSON lp_Error lp_TimestampMs] in *. f_equal;
    match goal with
    | |- StringValue _ = _ => apply (StringValue_field _ _ _ _ Hs); lifecycle_field
    | |- BytesValue _ = _ => apply (BytesValue_field _ _ _ _ Hs); [lifecycle_field|assumption]
    | |- Uint64Value _ = _ => apply (Uint64Value_field _ _ _ _ Hs); [lifecycle_field|assumption]
    | |- Int64Value _ = _ => apply (Int64Value_field _ _ _ _ Hs); [lifecycle_field|assumption]
    end.
Qed.

Lemma lifecycle_decoded p data :
  lifecycle_ok p → marshalTaskLifecyclePayload p = Ok data → decodeTaskLifecyclePayload data = p.
Proof.
  intros Hp. unfold marshalTaskLifecyclePayload. case_decide as He.
  - intros [= <-]. destruct json_empty as [Hj (rest & Hr)]. rewrite Hr, decode_brace, <- Hr, Hj.
    rewrite <- (lifecycle_map p ∅ Hp); [done|]. rewrite He. intros k. by rewrite lookup_empty.
  - intros (_ & body & Hb & ->)%Marshal_ok. unfold decodeTaskLifecyclePayload, Unmarshal.
    rewrite Body_enveloped by (unfold taskLifecycleEventKind; lia). rewrite Z.eqb_refl. cbn [mbind result_bind].
    destruct (msgpack_roundtrip _ _ Hb) as (m' & Hu & Hsim). cbn. rewrite Hu. by apply lifecycle_map.
Qed.

Lemma redelivered_decoded id name epoch t :
  in_u64 epoch → taskEventLeaseEpoch (json_Redelivered id name epoch t) = epoch.
Proof.
  intros He. destruct (json_redelivered id name epoch t He) as [Hj (rest & Hr)].
  unfold taskEventLeaseEpoch. by rewrite Hr, decode_brace, <- Hr.
Qed.

Lemma submitted_decoded spec data :
  marshalTaskSubmittedPayload spec = Ok data → unmarshalTaskSubmittedSpec data = Ok spec.
Proof.
  unfold marshalTaskSubmittedPayload. rewrite cloneSpec_id.
  destruct (proto_Marshal spec) as [specData|] eqn:Hm; [|done].
  destruct (Marshal _ _) as [d|] eqn:Hd; [|done]. intros [= <-].
  apply Marshal_ok in Hd as (_ & body & Hb & ->). unfold unmarshalTaskSubmittedSpec, Unmarshal.
  rewrite Body_enveloped by (unfold KindTaskSubmitted; lia). rewrite Z.eqb_refl. cbn [mbind result_bind].
  destruct (msgpack_roundtrip _ _ Hb) as (m' & Hu & Hsim). cbn. rewrite Hu.
  rewrite (BytesValue_sim _ _ "task_spec" Hsim), lookup_singleton_eq. cbn.
  destruct (proto_roundtrip _ _ Hm) as [Hp Hz]. destruct specData; [by rewrite Hz|by rewrite Hp].
Qed.

(** what the control service writes about a task it reads back when it replays
    the log: the submitted specification, the epoch, worker, result and error of a
    start or an outcome, and the epoch of a redelivery. *)
Theorem task_payloads_roundtrip :
  (∀ spec data, marshalTaskSubmittedPayload spec = Ok data → unmarshalTaskSubmittedSpec data = Ok spec) ∧
  (∀ p data, lifecycle_ok p → marshalTaskLifecyclePayload p = Ok data → decodeTaskLifecyclePayload data = p) ∧
  (∀ id name epoch t, in_u64 epoch → taskEventLeaseEpoch (json_Redelivered id name epoch t) = epoch).
Proof. split_and!; [exact submitted_decoded|exact lifecycle_decoded|exact redelivered_decoded]. Qed.
(** ** The two engines *)

Section Engines.
Context `{FingerprintLib}.

(** What a record is to the replay. *)
Inductive task_event := EvSubmitted | EvStarted | EvRedelivered | EvFinished (status : Z) | EvOther.
#[export] Instance task_event_eq_dec : EqDecision task_event.
Proof. solve_decision. Defined.
Definition event_of (rec : RawRecord) : task_event :=
  if decide (raw_EventType rec = "TaskSubmitted") then EvSubmitted
  else if decide (raw_EventType rec = "TaskStarted") then EvStarted
  else if decide (raw_EventType rec = "TaskRedelivered") then EvRedelivered
  else if decide (raw_EventType rec = "TaskCompleted") then EvFinished TASK_STATUS_SUCCEEDED
  else if decide (raw_EventType rec = "TaskFailed") then EvFinished TASK_STATUS_FAILED
  else EvOther.
Definition epoch_of (rec : RawRecord) : Z := taskEventLeaseEpoch (raw_Payload rec).

(** The older engine's state for the same history. *)
Definition engines_agree (s : taskReplayState) (o : specReplay) : Prop :=
  sr_spec o = rs_spec s ∧ sr_status o = rs_status s ∧ sr_leaseEpoch o = rs_leaseEpoch s ∧
  sr_redelivered o = rs_redeliveredLeaseEpoch s.

Lemma applyRaw_event s rec :
  applyRaw s rec =
  match event_of rec with
  | EvSubmitted => apply_submitted s (raw_Payload rec)
  | EvStarted => Ok (apply_started s (raw_Payload rec))
  | EvRedelivered => Ok (apply_redelivered s (raw_Payload rec))
  | EvFinished status => Ok (apply_terminal s status (raw_Payload rec))
  | EvOther => Ok s
  end.
Proof. unfold applyRaw, event_of. by repeat case_decide. Qed.

(** Events after the submission leave the rest of the task alone. *)
Definition same_task (t t' : Task) : Prop :=
  t' = set_result (set_lease t (tk_Status t') (tk_WorkerID t') (tk_TaskLeaseEpoch t') (tk_UpdatedAtMs t))
         (tk_ResultJSON t') (tk_Error t').
#[global] Instance same_task_refl : Reflexive same_task.
Proof. by intros []. Qed.
#[global] Instance same_task_trans : Transitive same_task.
Proof. intros t1 t2 t3 H12 H23. unfold same_task in *. rewrite H23, H12. by destruct t1. Qed.

Lemma later_events s rec s' :
  event_of rec ≠ EvSubmitted → applyRaw s rec = Ok s' →
  rs_spec s' = rs_spec s ∧ rs_ok s' = rs_ok s ∧ same_task (rs_task s) (rs_task s').
Proof.
  intros Hns. rewrite applyRaw_event. unfold apply_started, apply_redelivered, apply_terminal.
  destruct (event_of rec); try done; intros [= <-]; repeat case_match; (split_and!; [done..|]); cbn; try reflexivity;
    by destruct (rs_task s).
Qed.
Lemma later_events_all records s s' :
  Forall (λ r, event_of r ≠ EvSubmitted) records → apply_all s records = Ok s' →
  rs_spec s' = rs_spec s ∧ rs_ok s' = rs_ok s ∧ same_task (rs_task s) (rs_task s').
Proof.
  revert s. induction records as [|rec records IH]; intros s Hf; cbn [apply_all].
  { intros [= <-]. by split_and!. }
  apply Forall_cons in Hf as [Hns Hf]. intros (s1 & Hs1 & Hr)%result_bind_ok.
  destruct (later_events _ _ _ Hns Hs1) as (Hsp & Hok & Ht). destruct (IH _ Hf Hr) as (Hsp' & Hok' & Ht').
  split_and!; [congruence..|]. by etrans.
Qed.

Lemma engines_step s o rec s' :
  engines_agree s o → event_of rec ≠ EvSubmitted → applyRaw s rec = Ok s' →
  ∃ o', spec_step o rec = Ok o' ∧ engines_agree s' o'.
Proof.
  intros (E1 & E2 & E3 & E4). unfold event_of, applyRaw, spec_step. rewrite E2, E3, E4.
  unfold apply_started, apply_redelivered, apply_terminal, terminalEventApplies, taskEventLeaseEpoch.
  repeat case_decide; try done; intros _ [= <-];
    repeat case_match; eexists; (split; [reflexivity|]); unfold engines_agree; cbn; try congruence; split_and!; congruence.
Qed.

Lemma engines_steps records s o s' :
  engines_agree s o → Forall (λ r, event_of r ≠ EvSubmitted) records → apply_all s records = Ok s' →
  ∃ o', spec_steps o records = Ok o' ∧ engines_agree s' o'.
Proof.
  revert s o. induction records as [|rec records IH]; intros s o Hag Hf; cbn [apply_all spec_steps].
  { intros [= <-]. eauto. }
  intros (s1 & Hs1 & Hr)%result_bind_ok. apply Forall_cons in Hf as [Hns Hf].
  destruct (engines_step _ _ _ _ Hag Hns Hs1) as (o1 & -> & Hag1). by eapply IH.
Qed.

(** C30: on a task's stream, that is its submission under epoch 0 and then other
    events, the older engine finds the same specification, status and lease epoch
    as the one the restart uses. *)
Theorem replay_engines_agree sub rest (records : list (option ProtoLogRecord)) spec s :
  map FromProto records = sub :: rest →
  event_of sub = EvSubmitted → unmarshalTaskSubmittedSpec (raw_Payload sub) = Ok spec →
  ts_TaskId spec ≠ EmptyString → ts_TaskLeaseEpoch spec = 0 →
  Forall (λ r, event_of r ≠ EvSubmitted) rest →
  replayTaskMetadataEach (Some (records, false)) None = Ok s →
  replayTaskSpec records = Ok (final_spec s, tk_Status (finalTask s), rs_leaseEpoch s, true).
Proof.
  intros Hrec Hsub Hspec Hid Hep Hrest. unfold replayTaskMetadataEach, replayTaskMetadataRawEach. cbn [fmap option_fmap option_map fst snd ti_records ti_fails].
  rewrite Hrec. intros (s' & Hall & [= <-])%result_bind_ok. cbn [apply_all] in Hall.
  apply result_bind_ok in Hall as (s1 & Hs1 & Hall).
  unfold replayTaskSpec, replayTaskSpecEach. rewrite Hrec. cbn [spec_steps].
  rewrite applyRaw_event, Hsub in Hs1. assert (raw_EventType sub = "TaskSubmitted") as Hty.
  { revert Hsub. unfold event_of. by repeat case_decide. }
  unfold spec_step, apply_submitted in *. rewrite decide_True by done.
  rewrite Hspec in *. cbn [mbind result_bind] in *. rewrite (proj2 (str_empty_false _) Hid) in *.
  destruct (taskSpecFingerprint spec) as [fp|]; [|done]. injection Hs1 as Hs1.
  cbn [mbind result_bind].
  match goal with |- context [spec_steps ?o rest] =>
    assert (engines_agree s1 o) as Hag by (unfold engines_agree; by rewrite <- Hs1, <- Hep) end.
  destruct (engines_steps rest _ _ _ Hag Hrest Hall) as (o & -> & E1 & E2 & E3 & E4).
  cbn [mbind result_bind]. rewrite E1, E2, E3. unfold final_spec, finalTask.
  destruct (later_events_all _ _ _ Hrest Hall) as (Hsp & _). rewrite Hsp, <- Hs1. cbn.
  by destruct (rs_status s' =? TASK_STATUS_RUNNING).
Qed.
(** ** The replayed outcome *)

(** An outcome counts when its lease was started, no later one was, and the lease
    had not been redelivered. *)
Record outcome_counts (seen : list RawRecord) (rec : RawRecord) : Prop := {
  oc_started : ∃ r, r ∈ seen ∧ event_of r = EvStarted ∧ epoch_of r = epoch_of rec;
  oc_latest : ∀ r, r ∈ seen → event_of r = EvStarted → epoch_of r <= epoch_of rec;
  oc_live : ∀ r, r ∈ seen → event_of r = EvRedelivered → epoch_of r < epoch_of rec
}.

(** The state after events none of which is an outcome that counts. *)
Record pending (s : taskReplayState) (seen : list RawRecord) : Prop := {
  pn_status : rs_status s = if rs_redeliveredLeaseEpoch s <? rs_leaseEpoch s then TASK_STATUS_RUNNING else TASK_STATUS_QUEUED;
  pn_range : 0 <= rs_leaseEpoch s ∧ 0 <= rs_redeliveredLeaseEpoch s;
  pn_started : ∀ r, r ∈ seen → event_of r = EvStarted →
    epoch_of r <= rs_leaseEpoch s ∨ epoch_of r <= rs_redeliveredLeaseEpoch s;
  pn_lease : rs_leaseEpoch s = 0 ∨ ∃ r, r ∈ seen ∧ event_of r = EvStarted ∧ epoch_of r = rs_leaseEpoch s;
  pn_redelivered : ∀ r, r ∈ seen → event_of r = EvRedelivered → epoch_of r <= rs_redeliveredLeaseEpoch s;
  pn_fence : rs_redeliveredLeaseEpoch s = 0 ∨
    ∃ r, r ∈ seen ∧ event_of r = EvRedelivered ∧ epoch_of r = rs_redeliveredLeaseEpoch s;
  pn_worker : rs_status s = TASK_STATUS_QUEUED → tk_WorkerID (rs_task s) = EmptyString
}.

Lemma pending_applies s seen rec :
  pending s seen → 0 < epoch_of rec →
  terminalEventApplies s (raw_Payload rec) = true ↔ outcome_counts seen rec.
Proof.
  intros [Hst [H2 H3] Hs Hl Hr Hf _] Hep. unfold terminalEventApplies, taskTerminalEventApplies.
  fold (epoch_of rec). rewrite Hst.
  assert (isTerminalTaskStatus (if rs_redeliveredLeaseEpoch s <? rs_leaseEpoch s then TASK_STATUS_RUNNING else TASK_STATUS_QUEUED) = false)
    as -> by (by case_match).
  rewrite (proj2 (Z.eqb_neq _ _)) by lia. split.
  - destruct (Z.ltb_spec (rs_redeliveredLeaseEpoch s) (rs_leaseEpoch s)); [|done]. cbn [negb].
    intros [Heq Hlt]%andb_prop. apply Z.eqb_eq in Heq. apply Z.ltb_lt in Hlt. split.
    + destruct Hl as [|(r & ? & ? & ?)]; [lia|]. exists r. by rewrite Heq.
    + intros r Hin Hev. destruct (Hs r Hin Hev); lia.
    + intros r Hin Hev. specialize (Hr r Hin Hev). lia.
  - intros [(r & Hin & Hev & Her) Hle Hlv].
    assert (rs_redeliveredLeaseEpoch s < epoch_of rec) as Hlt by (destruct Hf as [|(r' & Hin' & Hev' & <-)]; [lia|by apply Hlv]).
    assert (rs_leaseEpoch s = epoch_of rec) as Heq.
    { destruct (Hs r Hin Hev); [|lia]. destruct Hl as [|(r' & Hin' & Hev' & Hr')]; [lia|]. specialize (Hle r' Hin' Hev'). lia. }
    rewrite Heq. rewrite (proj2 (Z.ltb_lt _ _) Hlt). cbn. by rewrite Z.eqb_refl.
Qed.

(** Facts about a history with one more event. *)
Lemma forall_snoc {A} (P : A → Prop) l x : (∀ y, y ∈ l → P y) → P x → ∀ y, y ∈ l ++ [x] → P y.
Proof. intros Hl Hx y [Hy| ->%list_elem_of_singleton]%elem_of_app; auto. Qed.
Lemma exists_more {A} (P : A → Prop) l x : (∃ y, y ∈ l ∧ P y) → ∃ y, y ∈ l ++ [x] ∧ P y.
Proof. intros (y & ? & ?). exists y. split; [|done]. apply elem_of_app. by left. Qed.
Lemma exists_last {A} (P : A → Prop) l x : P x → ∃ y, y ∈ l ++ [x] ∧ P y.
Proof. intros Hx. exists x. split; [|done]. apply elem_of_app. right. by apply list_elem_of_singleton. Qed.

(** An event that changes nothing. *)
Lemma pending_more s seen rec :
  pending s seen →
  (event_of rec = EvStarted → epoch_of rec <= rs_leaseEpoch s ∨ epoch_of rec <= rs_redeliveredLeaseEpoch s) →
  (event_of rec = EvRedelivered → epoch_of rec <= rs_redeliveredLeaseEpoch s) →
  pending s (seen ++ [rec]).
Proof.
  intros [Hst Hrg Hs Hl Hr Hf Hw] H1' H2'. split; [done|done|by refine (forall_snoc _ _ _ _ _)| |by refine (forall_snoc _ _ _ _ _)| |done].
  - destruct Hl; [by left|right]. by apply exists_more.
  - destruct Hf; [by left|right]. by apply exists_more.
Qed.

Lemma pending_started s seen rec :
  pending s seen → event_of rec = EvStarted → 0 < epoch_of rec →
  pending (apply_started s (raw_Payload rec)) (seen ++ [rec]).
Proof.
  intros Hp Hev Hep. unfold apply_started.
  assert (isTerminalTaskStatus (rs_status s) = false) as -> by (rewrite (pn_status _ _ Hp); by case_match).
  fold (taskEventLeaseEpoch (raw_Payload rec)). fold (epoch_of rec). rewrite (proj2 (Z.eqb_neq _ _)) by lia.
  destruct (Z.leb_spec (epoch_of rec) (rs_redeliveredLeaseEpoch s)); [apply pending_more; [done|auto|congruence]|].
  destruct (Z.leb_spec (rs_leaseEpoch s) (epoch_of rec)); [|apply pending_more; [done|left; lia|congruence]].
  destruct Hp as [Hst [H5 H6] Hs Hl Hr Hf Hw].
  split; cbn [set_status rs_status rs_leaseEpoch rs_redeliveredLeaseEpoch].
  - by rewrite (proj2 (Z.ltb_lt _ _)).
  - lia.
  - refine (forall_snoc _ _ _ _ _); [|lia]. intros r Hin Hr'. destruct (Hs r Hin Hr'); lia.
  - right. by apply exists_last.
  - refine (forall_snoc _ _ _ _ _); [done|congruence].
  - destruct Hf; [by left|right]. by apply exists_more.
  - done.
Qed.

Lemma pending_redelivered s seen rec :
  pending s seen → event_of rec = EvRedelivered → 0 < epoch_of rec →
  pending (apply_redelivered s (raw_Payload rec)) (seen ++ [rec]).
Proof.
  intros Hp Hev Hep. unfold apply_redelivered.
  assert (isTerminalTaskStatus (rs_status s) = false) as -> by (rewrite (pn_status _ _ Hp); by case_match).
  fold (epoch_of rec). rewrite (proj2 (Z.eqb_neq _ 0)) by lia. cbn [orb].
  destruct Hp as [Hst [H5 H6] Hs Hl Hr Hf Hw].
  assert (∀ s', rs_leaseEpoch s' = rs_leaseEpoch s →
    rs_redeliveredLeaseEpoch s' = Z.max (rs_redeliveredLeaseEpoch s) (epoch_of rec) →
    rs_status s' = (if rs_leaseEpoch s <=? epoch_of rec then TASK_STATUS_QUEUED else rs_status s) →
    (rs_status s' = TASK_STATUS_QUEUED → tk_WorkerID (rs_task s') = EmptyString) → pending s' (seen ++ [rec])) as Hgo.
  { intros s' E1 E2 E3 E4. split; rewrite ?E1, ?E2.
    - rewrite E3, Hst. destruct (Z.leb_spec (rs_leaseEpoch s) (epoch_of rec)).
      + by rewrite (proj2 (Z.ltb_ge _ _)) by lia.
      + destruct (Z.ltb_spec (rs_redeliveredLeaseEpoch s) (rs_leaseEpoch s)).
        * by rewrite (proj2 (Z.ltb_lt _ _)) by lia.
        * by rewrite (proj2 (Z.ltb_ge _ _)) by lia.
    - lia.
    - refine (forall_snoc _ _ _ _ _); [|congruence]. intros r Hin Hr'. destruct (Hs r Hin Hr'); lia.
    - destruct Hl; [by left|right]. by apply exists_more.
    - refine (forall_snoc _ _ _ _ _); [|lia]. intros r Hin Hr'. specialize (Hr r Hin Hr'). lia.
    - right. destruct (Z.max_spec (rs_redeliveredLeaseEpoch s) (epoch_of rec)) as [[? ->]|[? ->]]; [by apply exists_last|].
      destruct Hf; [lia|by apply exists_more].
    - done. }
  destruct (Z.leb_spec (rs_leaseEpoch s) (epoch_of rec)) as [Hle|Hle]; apply Hgo; try done;
    destruct (Z.leb_spec (rs_leaseEpoch s) (epoch_of rec)); done || lia.
Qed.

Lemma finished_terminal rec status : event_of rec = EvFinished status → isTerminalTaskStatus status = true.
Proof. unfold event_of. repeat case_decide; by intros [= <-]. Qed.

(** A settled task stays as it is. *)
Lemma settled_step s rec :
  isTerminalTaskStatus (rs_status s) = true → event_of rec ≠ EvSubmitted → applyRaw s rec = Ok s.
Proof.
  intros Hs Hns. rewrite applyRaw_event. unfold apply_started, apply_redelivered, apply_terminal, terminalEventApplies, taskTerminalEventApplies.
  rewrite Hs. by destruct (event_of rec).
Qed.
Lemma settled_all s records :
  isTerminalTaskStatus (rs_status s) = true → Forall (λ r, event_of r ≠ EvSubmitted) records → apply_all s records = Ok s.
Proof.
  intros Hs. induction records as [|rec records IH]; [done|]. intros [Hns Hf]%Forall_cons. cbn [apply_all].
  rewrite settled_step by done. by apply IH.
Qed.

(** Events of a stream after its submission, under real lease epochs. *)
Abbreviation later := (Forall (λ r, event_of r ≠ EvSubmitted ∧ 0 < epoch_of r)).

(** No outcome among [records] counts. *)
Definition undecided (seen records : list RawRecord) : Prop :=
  ∀ pre rec post status, records = pre ++ rec :: post → event_of rec = EvFinished status → ¬ outcome_counts (seen ++ pre) rec.
Lemma undecided_cons seen rec records :
  (∀ status, event_of rec = EvFinished status → ¬ outcome_counts seen rec) →
  undecided (seen ++ [rec]) records → undecided seen (rec :: records).
Proof.
  intros Hrec Hrest [|x pre] rec' post status [= -> ->] Hev; [rewrite app_nil_r; by eapply Hrec|].
  rewrite cons_middle, app_assoc. by eapply Hrest.
Qed.

Lemma pending_step s seen rec :
  pending s seen → event_of rec ≠ EvSubmitted → 0 < epoch_of rec →
  (∀ status, event_of rec = EvFinished status → ¬ outcome_counts seen rec) →
  ∃ s', applyRaw s rec = Ok s' ∧ pending s' (seen ++ [rec]).
Proof.
  intros Hp Hns Hep Hno. rewrite applyRaw_event. destruct (event_of rec) as [| | |status|] eqn:Hev; [done|..];
    (eexists; split; [reflexivity|]).
  - by apply pending_started.
  - by apply pending_redelivered.
  - unfold apply_terminal. destruct (terminalEventApplies s (raw_Payload rec)) eqn:Ha.
    + by apply (pending_applies _ _ _ Hp Hep), (Hno status) in Ha.
    + apply pending_more; [done|congruence..].
  - apply pending_more; [done|congruence..].
Qed.

(** The first outcome that counts decides; until then the task is pending. *)
Lemma pending_all records s seen :
  pending s seen → later records →
  (∃ s', apply_all s records = Ok s' ∧ pending s' (seen ++ records) ∧ undecided seen records) ∨
  (∃ pre rec post status s1, records = pre ++ rec :: post ∧ event_of rec = EvFinished status ∧
     outcome_counts (seen ++ pre) rec ∧ undecided seen pre ∧ pending s1 (seen ++ pre) ∧ apply_all s pre = Ok s1 ∧
     apply_all s records = Ok (apply_terminal s1 status (raw_Payload rec))).
Proof.
  revert s seen. induction records as [|rec records IH]; intros s seen Hp Hl.
  { left. exists s. rewrite app_nil_r. split_and!; [done..|]. intros [|??] ???; discriminate. }
  apply Forall_cons in Hl as [[Hns Hep] Hl].
  assert ((∃ status, event_of rec = EvFinished status ∧ outcome_counts seen rec) ∨
          (∀ status, event_of rec = EvFinished status → ¬ outcome_counts seen rec)) as [(status & Hev & Hc)|Hno].
  { pose proof (pending_applies _ _ _ Hp Hep). destruct (terminalEventApplies s (raw_Payload rec)) eqn:Ha;
      destruct (event_of rec) as [| | |status|]; naive_solver. }
  - right. exists [], rec, records, status, s. rewrite app_nil_r. split_and!; [done..| |done|done|].
    { intros [|??] ???; discriminate. }
    cbn [apply_all]. rewrite applyRaw_event, Hev. cbn [mbind result_bind]. apply settled_all.
    + unfold apply_terminal. rewrite (proj2 (pending_applies _ _ _ Hp Hep) Hc). by apply finished_terminal in Hev.
    + eapply Forall_impl; [exact Hl|]. naive_solver.
  - destruct (pending_step _ _ _ Hp Hns Hep Hno) as (s1 & Hs1 & Hp1).
    destruct (IH _ _ Hp1 Hl) as [(s' & Hall & Hp' & Hu)|(pre & r & post & status & s2 & -> & Hev & Hc & Hu & Hp2 & Hpre & Hall)].
    + left. exists s'. cbn [apply_all]. rewrite Hs1. cbn [mbind result_bind]. rewrite cons_middle, app_assoc.
      split_and!; [done..|]. by apply undecided_cons.
    + right. exists (rec :: pre), r, post, status, s2. cbn [apply_all app]. rewrite Hs1. cbn [mbind result_bind].
      rewrite <- app_assoc in Hc, Hp2. cbn [app] in Hc, Hp2. split_and!; [done..| |done|done|done]. by apply undecided_cons.
Qed.

(** The task a counted outcome leaves behind. *)
Record settled_by (task : Task) (rec : RawRecord) (status : Z) : Prop := {
  sb_status : tk_Status task = status;
  sb_epoch : tk_TaskLeaseEpoch task = epoch_of rec;
  sb_worker : tk_WorkerID task = lp_WorkerID (decodeTaskLifecyclePayload (raw_Payload rec));
  sb_result : tk_ResultJSON task = default [] (lp_ResultJSON (decodeTaskLifecyclePayload (raw_Payload rec)));
  sb_error : tk_Error task =
    if status =? TASK_STATUS_SUCCEEDED then EmptyString else lp_Error (decodeTaskLifecyclePayload (raw_Payload rec))
}.

Lemma terminal_epoch s seen rec :
  pending s seen → 0 < epoch_of rec → outcome_counts seen rec → rs_leaseEpoch s = epoch_of rec.
Proof.
  intros Hp Hep Hc. apply (pending_applies _ _ _ Hp Hep) in Hc. revert Hc.
  unfold terminalEventApplies, taskTerminalEventApplies. fold (epoch_of rec).
  case_match; [done|]. rewrite (proj2 (Z.eqb_neq _ _)) by lia. case_match; [done|].
  intros [Heq _]%andb_prop. by apply Z.eqb_eq in Heq.
Qed.

Lemma settled_final s seen rec status :
  pending s seen → 0 < epoch_of rec → event_of rec = EvFinished status → outcome_counts seen rec →
  settled_by (finalTask (apply_terminal s status (raw_Payload rec))) rec status.
Proof.
  intros Hp Hep Hev Hc. pose proof (terminal_epoch _ _ _ Hp Hep Hc) as Hle.
  apply finished_terminal in Hev. unfold apply_terminal. rewrite (proj2 (pending_applies _ _ _ Hp Hep) Hc).
  unfold finalTask. cbn [set_status rs_status].
  assert ((status =? TASK_STATUS_RUNNING) = false) as ->.
  { apply Z.eqb_neq. intros ->. discriminate. }
  split; done.
Qed.

Lemma pending_final s seen :
  pending s seen → tk_Status (finalTask s) = TASK_STATUS_QUEUED ∧ tk_WorkerID (finalTask s) = EmptyString.
Proof.
  intros Hp. pose proof (pn_status _ _ Hp) as Hs. pose proof (pn_worker _ _ Hp) as Hw. unfold finalTask.
  destruct (rs_redeliveredLeaseEpoch s <? rs_leaseEpoch s); rewrite Hs; cbn; [done|]. auto.
Qed.

Lemma submitted_pending spec fingerprint :
  ts_TaskLeaseEpoch spec = 0 →
  pending {| rs_spec := Some spec; rs_task := submitted_task spec fingerprint; rs_status := TASK_STATUS_QUEUED;
             rs_leaseEpoch := ts_TaskLeaseEpoch spec; rs_redeliveredLeaseEpoch := 0; rs_ok := true |} [].
Proof.
  intros Hep. split; cbn; rewrite ?Hep; try done; try (intros r Hin; by apply elem_of_nil in Hin); by left.
Qed.

(** C31: replaying a task's stream settles the task exactly by its first outcome
    whose lease had been started, was not followed by the start of a later lease
    and had not been redelivered, with that outcome's status, worker, result and
    error; if there is none, the task comes back queued and unassigned. *)
Theorem replay_outcome_exact sub rest spec :
  event_of sub = EvSubmitted → unmarshalTaskSubmittedSpec (raw_Payload sub) = Ok spec →
  ts_TaskId spec ≠ EmptyString → ts_TaskLeaseEpoch spec = 0 → is_ok (taskSpecFingerprint spec) = true → later rest →
  ∃ s, replayTaskMetadataRawEach (Some {| ti_records := sub :: rest; ti_fails := false |}) None = Ok s ∧
    tk_TaskID (finalTask s) = ts_TaskId spec ∧
    ((∃ pre rec post status, rest = pre ++ rec :: post ∧ event_of rec = EvFinished status ∧ outcome_counts pre rec ∧
        undecided [] pre ∧ settled_by (finalTask s) rec status) ∨
     (undecided [] rest ∧ tk_Status (finalTask s) = TASK_STATUS_QUEUED ∧ tk_WorkerID (finalTask s) = EmptyString)).
Proof.
  intros Hsub Hspec Hid Hep Hfp Hl. unfold replayTaskMetadataRawEach. cbn [ti_records ti_fails apply_all].
  rewrite applyRaw_event, Hsub. unfold apply_submitted. rewrite Hspec. cbn [mbind result_bind].
  rewrite (proj2 (str_empty_false _) Hid). destruct (taskSpecFingerprint spec) as [fp|]; [|done]. cbn [mbind result_bind].
  pose proof (submitted_pending spec fp Hep) as Hp.
  assert (Forall (λ r, event_of r ≠ EvSubmitted) rest) as Hns by (eapply Forall_impl; [exact Hl|naive_solver]).
  destruct (pending_all rest _ _ Hp Hl) as [(s' & Hall & Hp' & Hu)|(pre & rec & post & status & s1 & -> & Hev & Hc & Hu & Hp1 & _ & Hall)];
    rewrite Hall; eexists; (split; [reflexivity|]);
    destruct (later_events_all _ _ _ Hns Hall) as (_ & _ & Ht); cbn in Ht.
  - split; [unfold finalTask; rewrite Ht; by case_match|]. right. split; [done|]. by eapply pending_final.
  - split; [unfold finalTask; rewrite Ht; by case_match|]. left. exists pre, rec, post, status. split_and!; [done..|].
    eapply settled_final; [done| |done|done]. eapply Forall_app in Hl as [_ [[_ ?] _]%Forall_cons]. done.
Qed.
End Engines.
End Codec.

(** ** A concrete codec, for the witnesses *)

Definition spec_code (s : TaskSpec) : list string * list bytes * list Z :=
  ([ts_TaskId s; ts_TaskName s; ts_FunctionName s; ts_FunctionSource s; ts_FunctionRef s; ts_FunctionHash s;
    ts_IdempotencyKey s; ts_WorkflowId s; ts_StepId s; ts_TargetWorkerId s; ts_ActorId s; ts_ActorCallId s;
    ts_ActorClassName s; ts_ActorClassSource s; ts_ActorMethod s; ts_LlmModelName s; ts_LlmModelVersion s; ts_LlmAdapter s],
   [ts_ArgsJson s; ts_ActorStateJson s; ts_ActorInitArgsJson s],
   [ts_ActorEpoch s; ts_LlmMaxTokens s; ts_TimeoutMs s; ts_TaskLeaseEpoch s]).
Definition spec_decode (c : list string * list bytes * list Z) : option TaskSpec :=
  match c with
  | ([a1; a2; a3; a4; a5; a6; a7; a8; a9; a10; a11; a12; a13; a14; a15; a16; a17; a18], [b1; b2; b3], [z1; z2; z3; z4]) => Some {|
      ts_TaskId := a1; ts_TaskName := a2; ts_FunctionName := a3; ts_FunctionSource := a4; ts_FunctionRef := a5;
      ts_FunctionHash := a6; ts_ArgsJson := b1; ts_IdempotencyKey := a7; ts_WorkflowId := a8; ts_StepId := a9;
      ts_TargetWorkerId := a10; ts_ActorId := a11; ts_ActorCallId := a12; ts_ActorClassName := a13;
      ts_ActorClassSource := a14; ts_ActorMethod := a15; ts_ActorStateJson := b2; ts_ActorInitArgsJson := b3;
      ts_ActorEpoch := z1; ts_LlmModelName := a16; ts_LlmModelVersion := a17; ts_LlmAdapter := a18;
      ts_LlmMaxTokens := z2; ts_TimeoutMs := z3; ts_TaskLeaseEpoch := z4 |}
  | _ => None
  end.
#[export] Instance TaskSpec_countable : Countable TaskSpec.
Proof. apply (inj_countable spec_code spec_decode). by intros []. Defined.

Lemma bytes_positive_bytes p : bytes_positive (positive_bytes p) = p.
Proof. induction p; simpl; congruence. Qed.

Definition toy_proto (s : TaskSpec) : option bytes := Some (x00 :: positive_bytes (encode s)).
Definition toy_unproto (data : bytes) : option TaskSpec :=
  match data with [] => Some zero_spec | _ :: data => decode (bytes_positive data) end.
Definition toy_lifecycle (data : bytes) : taskLifecyclePayload :=
  match data with
  | _ :: (x :: _) as rest =>
      {| lp_TaskLeaseEpoch := default 0 (decode (bytes_positive (drop 1 data))); lp_WorkerID := ""; lp_ResultJSON := None;
         lp_Error := ""; lp_TimestampMs := 0 |}
  | _ => zero_lifecycle
  end.

Lemma toy_proto_roundtrip spec data :
  toy_proto spec = Some data → toy_unproto data = Some spec ∧ (data = [] → spec = zero_spec).
Proof. intros [= <-]. split; [|done]. unfold toy_unproto. by rewrite bytes_positive_bytes, decode_encode. Qed.
Lemma toy_redelivered (id name : string) (epoch now : Z) :
  in_u64 epoch →
  lp_TaskLeaseEpoch (toy_lifecycle (x7b :: positive_bytes (encode epoch))) = epoch ∧
  ∃ rest, x7b :: positive_bytes (encode epoch) = x7b :: rest.
Proof.
  intros _. split; [|eauto]. unfold toy_lifecycle.
  pose proof (bytes_positive_bytes (encode epoch)) as Hp. pose proof (decode_encode epoch) as Hd. rewrite <- Hp in Hd.
  destruct (positive_bytes (encode epoch)) as [|x l] eqn:He; cbn [drop lp_TaskLeaseEpoch].
  - cbn in Hd. by injection Hd as <-.
  - by rewrite Hd.
Qed.

Definition toy_taskcodec : TaskCodecLib := {|
  proto_Marshal := toy_proto; proto_Unmarshal := toy_unproto; json_Submitted := λ _, None;
  protojson_Unmarshal := toy_unproto; json_Lifecycle := toy_lifecycle; json_EmptyLifecycle := [x7b];
  json_Redelivered := λ _ _ epoch _, x7b :: positive_bytes (encode epoch);
  proto_roundtrip := toy_proto_roundtrip;
  json_empty := conj eq_refl (ex_intro _ [] eq_refl);
  json_redelivered := toy_redelivered |}.
Definition toy_fingerprint : FingerprintLib := {|
  json_any := bytes; json_CompactArgs := Some; json_Unmarshal_any := Some; json_Marshal := λ _, Some [];
  sha256_Sum256 := λ b, b |}.

Definition demo_spec : TaskSpec := with_lease_epoch {|
  ts_TaskId := "t1"; ts_TaskName := "add"; ts_FunctionName := "add"; ts_FunctionSource := ""; ts_FunctionRef := "r";
  ts_FunctionHash := "h"; ts_ArgsJson := []; ts_IdempotencyKey := "k"; ts_WorkflowId := ""; ts_StepId := "";
  ts_TargetWorkerId := ""; ts_ActorId := ""; ts_ActorCallId := ""; ts_ActorClassName := "";
  ts_ActorClassSource := ""; ts_ActorMethod := ""; ts_ActorStateJson := []; ts_ActorInitArgsJson := [];
  ts_ActorEpoch := 0; ts_LlmModelName := ""; ts_LlmModelVersion := ""; ts_LlmAdapter := "";
  ts_LlmMaxTokens := 0; ts_TimeoutMs := 0; ts_TaskLeaseEpoch := 0 |} 0.
Definition demo_lifecycle (epoch : Z) (worker : string) (resultJSON : option bytes) : taskLifecyclePayload := {|
  lp_TaskLeaseEpoch := epoch; lp_WorkerID := worker; lp_ResultJSON := resultJSON; lp_Error := ""; lp_TimestampMs := 7 |}.
Definition ok_or_nil {E} (r : result E bytes) : bytes := match r with Ok b => b | Err _ => [] end.
Definition demo_rec (eventType : string) (payload : bytes) : RawRecord := {|
  raw_StreamID := "task:t1"; raw_Seq := 1; raw_EventType := eventType; raw_IdempotencyKey := ""; raw_Payload := payload;
  raw_TimestampMs := 0; raw_CRC32 := 0 |}.
Section Demo.
#[local] Existing Instance toy_msgpack.
#[local] Existing Instance toy_taskcodec.
#[local] Existing Instance toy_fingerprint.
Definition demo_sub : RawRecord := demo_rec "TaskSubmitted" (ok_or_nil (marshalTaskSubmittedPayload demo_spec)).
Definition demo_event_rec (eventType : string) (p : taskLifecyclePayload) : RawRecord :=
  demo_rec eventType (ok_or_nil (marshalTaskLifecyclePayload p)).
(** Lease 1 is started and redelivered, lease 2 started; the outcome of lease 1 arrives late. *)
Definition demo_history : list RawRecord := [
  demo_event_rec "TaskStarted" (demo_lifecycle 1 "w1" None);
  demo_rec "TaskRedelivered" (json_Redelivered "t1" "add" 1 5);
  demo_event_rec "TaskStarted" (demo_lifecycle 2 "w2" None);
  demo_event_rec "TaskCompleted" (demo_lifecycle 1 "w1" (Some [x31]));
  demo_event_rec "TaskCompleted" (demo_lifecycle 2 "w2" (Some [x32]))].
Definition demo_proto : list (option ProtoLogRecord) := map (λ r, Some (ToProto r)) (demo_sub :: demo_history).

Lemma task_payloads_roundtrip_witness :
  unmarshalTaskSubmittedSpec (raw_Payload demo_sub) = Ok demo_spec ∧
  decodeTaskLifecyclePayload (ok_or_nil (marshalTaskLifecyclePayload (demo_lifecycle 2 "w2" (Some [x32])))) =
    demo_lifecycle 2 "w2" (Some [x32]).
Proof.
  split.
  - apply (proj1 task_payloads_roundtrip). vm_compute. reflexivity.
  - apply (proj1 (proj2 task_payloads_roundtrip)); [|vm_compute; reflexivity].
    split; [unfold in_u64; cbn; lia|done|unfold in_i64; cbn; lia].
Defined.

Lemma demo_later : Forall (λ r, event_of r ≠ EvSubmitted ∧ 0 < epoch_of r) demo_history.
Proof. repeat constructor; vm_compute; done. Qed.

Lemma replay_engines_agree_witness :
  match replayTaskMetadataEach (Some (demo_proto, false)) None with
  | Ok s => replayTaskSpec demo_proto = Ok (final_spec s, tk_Status (finalTask s), rs_leaseEpoch s, true)
  | Err _ => False
  end.
Proof.
  destruct (replayTaskMetadataEach (Some (demo_proto, false)) None) as [s|] eqn:Hr; [|vm_compute in Hr; discriminate].
  apply (replay_engines_agree demo_sub demo_history demo_proto demo_spec s ltac:(vm_compute; reflexivity)
    ltac:(vm_compute; reflexivity) ltac:(vm_compute; reflexivity) ltac:(vm_compute; discriminate) ltac:(vm_compute; reflexivity)).
  - eapply Forall_impl; [exact demo_later|]. by intros ? [? _].
  - exact Hr.
Defined.

Lemma replay_outcome_exact_witness :
  ∃ s, replayTaskMetadataRawEach (Some {| ti_records := demo_sub :: demo_history; ti_fails := false |}) None = Ok s ∧
    tk_Status (finalTask s) = TASK_STATUS_SUCCEEDED ∧ tk_ResultJSON (finalTask s) = [x32] ∧
    ∃ pre rec post status, demo_history = pre ++ rec :: post ∧ event_of rec = EvFinished status ∧
      settled_by (finalTask s) rec status.
Proof.
  destruct (replay_outcome_exact demo_sub demo_history demo_spec ltac:(vm_compute; reflexivity) ltac:(vm_compute; reflexivity)
    ltac:(vm_compute; discriminate) ltac:(vm_compute; reflexivity) ltac:(vm_compute; reflexivity) demo_later)
    as (s & Hs & _ & H).
  exists s. split; [exact Hs|]. vm_compute in Hs. injection Hs as <-. split; [vm_compute; reflexivity|].
  split; [vm_compute; reflexivity|]. destruct H as [(pre & rec & post & status & H1 & H2 & _ & _ & H3)|(_ & Hq & _)].
  - exists pre, rec, post, status. split; [exact H1|]. split; [exact H2|exact H3].
  - exfalso. vm_compute in Hq. discriminate Hq.
Defined.
End Demo.
