(* ===== verification/ObjectStore.v ===== *)
(** The local object store: [internal/objectstore/local.go] and [store.go].

    Objects are files named by their SHA-256 below one root directory. [Put] writes a
    temporary file and renames it; every operating-system call can fail, the process can
    die before any call, and other writers may change the files between two calls. *)
From stdpp Require Import pretty.
From S2P Require Import Prelude Bytes Paths TaskSpec.

Open Scope Z_scope.

(** [crypto/sha256] *)
Class Sha256 := sha256_Sum : bytes → bytes.
(** What the process meets: whether its [n]th call works and whether it lives to make it,
    whether the context is canceled at the [n]th check, what other processes did before
    the call, how much a failing write wrote, random bytes, and its working directory. *)
Class ObjEnv := {
  obj_works : nat → bool;
  obj_lives : nat → bool;
  obj_canceled : nat → bool;
  obj_others : nat → gmap string bytes → gmap string bytes;
  obj_short : nat → nat;
  obj_random : nat → bytes;
  obj_pid : Z;
  obj_cwd : string
}.

Inductive obj_error := ErrCtx | ErrOS | ErrNotExist | ErrRead | ErrSize | ErrDifferent | ErrScheme | ErrInvalidRef | ErrEscapes | ErrNoStore | ErrTooLarge.
#[export] Instance obj_error_eq_dec : EqDecision obj_error.
Proof. solve_decision. Defined.

(** ** Paths and references *)

(** [filepath.Base]: the last element that is not empty. *)
Definition Base (path : string) : string :=
  if str_empty path then "." else default "/" (last (filter (λ p, str_empty p = false) (split_at slash path))).
(** [strings.TrimSuffix(name, filepath.Ext(name))] for a name without slashes *)
Definition dot : Ascii.ascii := Ascii.ascii_of_nat 46.
Definition hashFromObjectName (name : string) : string :=
  match split_at dot name with
  | [_] => name
  | parts => String.concat "." (removelast parts)
  end.
(** [filepath.Abs] *)
Definition Abs (cwd path : string) : string := if IsAbs path then Clean path else Join [cwd; path].

Definition trimmed (s : string) : string := bytes_str (trim_space (str_bytes s)).
Definition backslash : Ascii.ascii := Ascii.ascii_of_nat 92.
(** [strings.ReplaceAll(s, "\\", "/")] *)
Fixpoint to_slashes (s : string) : string :=
  match s with
  | EmptyString => EmptyString
  | String.String a s => String.String (if Ascii.eqb a backslash then slash else a) (to_slashes s)
  end.
Definition namespace_parts (namespace : string) : list string :=
  filter (λ part, negb (str_empty part) && negb (bool_decide (part = ".")) && negb (bool_decide (part = "..")) = true)
    (map trimmed (split_at slash (to_slashes namespace))).
Definition cleanNamespace (namespace : string) : string :=
  match namespace_parts namespace with [] => "default" | cleaned => Join cleaned end.

(** [strings.TrimPrefix] *)
Definition trim_prefix (p s : string) : string := if has_prefix p s then String.substring (String.length p) (String.length s - String.length p) s else s.
Definition local_scheme : string := "local://".
(** [pathForRef]: the absolute path and the path below the root. *)
Definition pathForRef (cwd dir ref : string) : result obj_error (string * string) :=
  if negb (has_prefix local_scheme ref) then Err ErrScheme
  else let rawRel := trim_prefix local_scheme ref in
  if str_empty rawRel then Err ErrInvalidRef
  else let rel := Clean rawRel in
  if bool_decide (rel = ".") || IsAbs rel then Err ErrInvalidRef
  else let path := Join [dir; rel] in
  let cleanDir := Clean dir in
  let cleanPath := Abs cwd path in
  if negb (bool_decide (cleanPath = cleanDir)) && negb (has_prefix (cleanDir +:+ "/") cleanPath) then Err ErrEscapes
  else Ok (cleanPath, rel).

(** ** Operations *)

Record ObjFS := { fs_files : gmap string bytes; fs_tick : nat }.
Inductive outcome (A : Type) := Done (r : result obj_error A) | Died.
Arguments Done {A} r.
Arguments Died {A}.
Definition IO (A : Type) : Type := ObjFS → ObjFS * outcome A.

Section Ops.
Context `{ObjEnv, Sha256}.

#[export] Instance IO_ret : MRet IO := λ A a s, (s, Done (Ok a)).
#[export] Instance IO_bind : MBind IO := λ A B f m s,
  match m s with
  | (s, Done (Ok a)) => f a s
  | (s, Done (Err e)) => (s, Done (Err e))
  | (s, Died) => (s, Died)
  end.
Definition throw {A} (e : obj_error) : IO A := λ s, (s, Done (Err e)).
Definition try {A} (m : IO A) : IO (result obj_error A) := λ s,
  match m s with (s, Done r) => (s, Done (Ok r)) | (s, Died) => (s, Died) end.
Definition of_result {A} (r : result obj_error A) : IO A := λ s, (s, Done r).

(** One operating-system call: [good] if it works, [bad] if it fails. *)
Definition os_or {A} (good : gmap string bytes → gmap string bytes * result obj_error A) (bad : gmap string bytes → gmap string bytes) : IO A := λ s,
  let n := fs_tick s in
  if obj_lives n then
    let files := obj_others n (fs_files s) in
    let (files', r) := if obj_works n then good files else (bad files, Err ErrOS) in
    ({| fs_files := files'; fs_tick := S n |}, Done r)
  else (s, Died).
Definition os {A} (good : gmap string bytes → gmap string bytes * result obj_error A) : IO A := os_or good (λ files, files).
(** A call that changes no file: [MkdirAll], [Sync], [Close], opening a directory. *)
Definition touch : IO unit := os (λ files, (files, Ok ())).
Definition ctx_err : IO unit := λ s,
  let n := fs_tick s in
  ({| fs_files := fs_files s; fs_tick := S n |}, Done (if obj_canceled n then Err ErrCtx else Ok ())).

Definition open_excl (path : string) : IO unit :=
  os (λ files, match files !! path with Some _ => (files, Err ErrOS) | None => (<[path := []]> files, Ok ()) end).
Definition write_file (path : string) (chunk : bytes) : IO unit := λ s,
  os_or (λ files, (<[path := default [] (files !! path) ++ chunk]> files, Ok ()))
        (λ files, <[path := default [] (files !! path) ++ take (obj_short (fs_tick s)) chunk]> files) s.
Definition open_file (path : string) : IO bytes :=
  os (λ files, (files, match files !! path with Some data => Ok data | None => Err ErrNotExist end)).
Definition rename (from to_ : string) : IO unit :=
  os (λ files, match files !! from with Some data => (<[to_ := data]> (delete from files), Ok ()) | None => (files, Err ErrNotExist) end).
Definition remove (path : string) : IO unit :=
  os (λ files, match files !! path with Some _ => (delete path files, Ok ()) | None => (files, Err ErrNotExist) end).

(** A reader: the chunks it delivers, whether it ends with an error, and whether its reads
    are calls to the operating system. *)
Record reader := { rd_os : bool; rd_chunks : list bytes; rd_fails : bool }.
Fixpoint chunks_of (fuel : nat) (n : nat) (data : bytes) : list bytes :=
  match fuel, data with
  | S fuel, _ :: _ => take n data :: chunks_of fuel n (drop n data)
  | _, _ => []
  end.
Definition buffer_size : nat := Z.to_nat 32768.
(** [bytes.NewReader], and a file, read 32 KiB at a time *)
Definition bytes_reader (data : bytes) : reader := {| rd_os := false; rd_chunks := chunks_of (length data) buffer_size data; rd_fails := false |}.
Definition file_reader (data : bytes) : reader := {| rd_os := true; rd_chunks := chunks_of (length data) buffer_size data; rd_fails := false |}.

(** [copyWithContext]; the result is everything that was written. *)
Fixpoint copy_chunks (write : bytes → IO unit) (read : IO unit) (fails : bool) (chunks : list bytes) (written : bytes) : IO bytes :=
  _ ← ctx_err;
  _ ← read;
  match chunks with
  | [] => if fails then throw ErrRead else mret written
  | chunk :: chunks => _ ← write chunk; copy_chunks write read fails chunks (written ++ chunk)
  end.
Definition copyWithContext (write : bytes → IO unit) (r : reader) : IO bytes :=
  copy_chunks write (if rd_os r then touch else mret ()) (rd_fails r) (rd_chunks r) [].

Definition fileSHA256Matches (path wantHex : string) : IO bool :=
  data ← open_file path;
  content ← copyWithContext (λ _, mret ()) (file_reader data);
  mret (bool_decide (hex_EncodeToString (sha256_Sum content) = wantHex)).

(** [object.tmp.<pid>.<random>] *)
Definition temp_name (n : nat) : string := "object.tmp." +:+ pretty obj_pid +:+ "." +:+ hex_EncodeToString (obj_random n).
Definition object_name (sumHex : string) : string := sumHex +:+ ".json".

(** Write, check and rename; the flag says whether the temporary file is still to be removed. *)
Definition publish (tmp dir ns : string) (r : reader) (size : Z) : IO (bool * string) :=
  content ← copyWithContext (write_file tmp) r;
  if (0 <=? size) && negb (Z.of_nat (length content) =? size) then throw ErrSize
  else
    _ ← touch;
    let sumHex := hex_EncodeToString (sha256_Sum content) in
    let rel := Join [ns; object_name sumHex] in
    let final := Join [dir; rel] in
    let ref := local_scheme +:+ rel in
    matched ← try (fileSHA256Matches final sumHex);
    match matched with
    | Ok true => mret (true, ref)
    | Ok false => throw ErrDifferent
    | Err ErrNotExist =>
        renamed ← try (rename tmp final);
        match renamed with
        | Ok _ => mret (false, ref)
        | Err e =>
            matched ← try (fileSHA256Matches final sumHex);
            match matched with Ok true => mret (true, ref) | _ => throw e end
        end
    | Err e => throw e
    end.
Definition Put (dir namespace : string) (r : reader) (size : Z) : IO string :=
  _ ← ctx_err;
  let ns := cleanNamespace namespace in
  let d := Join [dir; ns] in
  _ ← touch;
  tmp ← (λ s, (s, Done (Ok (Join [d; temp_name (fs_tick s)]))));
  _ ← open_excl tmp;
  done_ ← try (publish tmp dir ns r size);
  match done_ with
  | Ok (false, ref) => _ ← touch; mret ref
  | Ok (true, ref) => _ ← try (remove tmp); mret ref
  | Err e => _ ← try (remove tmp); throw e
  end.

(** [ObjectInfo], as the local store fills it *)
Record ObjectInfo := { oi_Ref : string; oi_Size : Z; oi_SHA256 : string }.
Definition Get (dir ref : string) : IO (bytes * ObjectInfo) :=
  _ ← ctx_err;
  '(path, rel) ← of_result (pathForRef obj_cwd dir ref);
  data ← open_file path;
  _ ← touch;
  mret (data, {| oi_Ref := ref; oi_Size := Z.of_nat (length data); oi_SHA256 := hashFromObjectName (Base rel) |}).

(** ** The store interface *)

(** [Store] *)
Record Store := {
  st_Put : string → reader → Z → IO string;
  st_Get : string → IO (bytes * ObjectInfo)
}.
(** [OpenLocal] *)
Definition OpenLocal (dir : string) : IO (string * Store) :=
  let abs := Abs obj_cwd dir in
  _ ← touch;
  mret (abs, {| st_Put := Put abs; st_Get := Get abs |}).
Definition PutBytes (s : option Store) (ns : string) (data : bytes) : IO string :=
  match s with
  | None => throw ErrNoStore
  | Some s => st_Put s ns (bytes_reader data) (Z.of_nat (length data))
  end.
Definition GetBytes (s : option Store) (ref : string) (maxBytes : Z) : IO bytes :=
  match s with
  | None => throw ErrNoStore
  | Some s =>
      '(content, info) ← st_Get s ref;
      if (0 <=? maxBytes) && (maxBytes <? oi_Size info) then throw ErrTooLarge
      else if maxBytes <? 0 then _ ← touch; mret content
      else
        _ ← touch;
        let data := take (Z.to_nat (maxBytes + 1)) content in
        if maxBytes <? Z.of_nat (length data) then throw ErrTooLarge else mret data
  end.
End Ops.
