(* ===== verification/ObjectStoreSpec.v ===== *)
(** Correctness of the local object store ([ObjectStore]): a reference never leads out of
    the root directory; whatever fails or dies and whatever other writers do, every object
    file holds the content its name says; and what was put is what is got. *)
From stdpp Require Import pretty.
From S2P Require Import Prelude Bytes TaskSpec Paths ObjectStore.

Open Scope Z_scope.

(** ** Strings *)

Definition chars (s : string) : list Ascii.ascii := String.list_ascii_of_string s.
Lemma chars_app s t : chars (s +:+ t) = chars s ++ chars t.
Proof. unfold chars. induction s as [|a s IH]; rewrite ?str_nil_app, ?str_cons_app; cbn; [done|]. by rewrite IH. Qed.
Lemma free_app c s t : free_of c (s +:+ t) = free_of c s && free_of c t.
Proof. unfold free_of. change String.list_ascii_of_string with chars. by rewrite chars_app, forallb_app. Qed.
Lemma trim_prefix_app p t : trim_prefix p (p +:+ t) = t.
Proof.
  unfold trim_prefix. rewrite (proj2 (has_prefix_app p _)) by (by exists t).
  assert (∀ p : string, String.length (p +:+ t) = (String.length p + String.length t)%nat) as Hl.
  { intros q. induction q as [|a q IH]; rewrite ?str_nil_app, ?str_cons_app; cbn; [done|]. by rewrite IH. }
  rewrite Hl, Nat.add_comm, Nat.add_sub. induction p as [|a p IH]; rewrite ?str_nil_app, ?str_cons_app; cbn [String.length String.substring].
  - clear Hl. induction t as [|a t IH]; cbn; [done|]. by rewrite IH.
  - exact IH.
Qed.

Definition hex_char (a : Ascii.ascii) : bool :=
  negb (Ascii.eqb a slash) && negb (Ascii.eqb a dot) && negb (Ascii.eqb a (Ascii.ascii_of_nat 110)).
Lemma hex_digits x : hex_char (hex_digit (Z_of_byte x / 16)) = true ∧ hex_char (hex_digit (Z_of_byte x mod 16)) = true.
Proof. destruct x; by split. Qed.
Lemma hex_chars b : Forall (λ a, hex_char a = true) (chars (hex_EncodeToString b)).
Proof.
  induction b as [|x b IH]; [constructor|]. destruct (hex_digits x). unfold chars in *. cbn [hex_EncodeToString String.list_ascii_of_string]. by repeat constructor.
Qed.
Lemma hex_free b : free_of slash (hex_EncodeToString b) = true.
Proof.
  unfold free_of. apply forallb_forall. intros a Ha%list_elem_of_In. pose proof (proj1 (Forall_forall _ _) (hex_chars b) a Ha) as Hc.
  unfold hex_char in Hc. by apply andb_true_iff in Hc as [[Hc _]%andb_true_iff _].
Qed.
Lemma hex_dotless b : free_of dot (hex_EncodeToString b) = true.
Proof.
  unfold free_of. apply forallb_forall. intros a Ha%list_elem_of_In. pose proof (proj1 (Forall_forall _ _) (hex_chars b) a Ha) as Hc.
  unfold hex_char in Hc. by apply andb_true_iff in Hc as [[_ Hc]%andb_true_iff _].
Qed.
(** Hexadecimal text determines the bytes. *)
Definition hex_val (a : Ascii.ascii) : Z := let n := Z.of_N (Ascii.N_of_ascii a) in if n <? 58 then n - 48 else n - 87.
Fixpoint unhex (s : string) : bytes :=
  match s with
  | String.String a (String.String b s) => byte_of_Z (16 * hex_val a + hex_val b) :: unhex s
  | _ => []
  end.
Lemma unhex_hex b : unhex (hex_EncodeToString b) = b.
Proof.
  induction b as [|x b IH]; [done|]. cbn [hex_EncodeToString unhex]. rewrite IH. f_equal. by destruct x.
Qed.
Lemma hex_inj b c : hex_EncodeToString b = hex_EncodeToString c → b = c.
Proof. intros He. by rewrite <- (unhex_hex b), <- (unhex_hex c), He. Qed.
Lemma pretty_char_free n : negb (Ascii.eqb (pretty_N_char n) slash) = true.
Proof. destruct n as [|[[[[]|[]|]|[[]|[]|]|]|[[[]|[]|]|[[]|[]|]|]|]]; done. Qed.
Lemma pretty_go_free n : ∀ s, free_of slash s = true → free_of slash (pretty_N_go n s) = true.
Proof.
  induction (N.lt_wf_0 n) as [n _ IH]. intros s Hs. destruct (decide (0 < n)%N) as [Hn|Hn].
  - rewrite pretty_N_go_step by done. apply IH; [by apply N.div_lt|]. unfold free_of in *. cbn [String.list_ascii_of_string forallb]. by rewrite pretty_char_free, Hs.
  - assert (n = 0%N) as -> by lia. by rewrite pretty_N_go_0.
Qed.
Lemma pretty_free (z : Z) : free_of slash (pretty z) = true.
Proof.
  assert (∀ n : N, free_of slash (pretty n) = true) as Hn.
  { intros n. unfold pretty, pretty_N. case_decide; [done|]. by apply pretty_go_free. }
  destruct z as [|p|p]; [done|exact (Hn (Npos p))|]. change (pretty (Zneg p)) with ("-" +:+ pretty (Npos p)). by rewrite free_app, Hn.
Qed.

Lemma path_of_inj c d : Forall (λ p, plain p = true) c → Forall (λ p, plain p = true) d → path_of true c = path_of true d → c = d.
Proof.
  intros Hc Hd He. apply (f_equal (split_at slash)) in He. rewrite !split_rooted in He by (by apply plain_free). injection He as He.
  destruct c as [|x c], d as [|y d]; try done; exfalso.
  - injection He as He _. apply Forall_cons in Hd as [(Hy & _)%plain_parts _]. done.
  - injection He as He _. apply Forall_cons in Hc as [(Hx & _)%plain_parts _]. done.
Qed.

Section Store.
Context `{ObjEnv, Sha256}.

Lemma plain_name s : free_of slash s = true → (2 < length (chars s))%nat → plain s = true.
Proof.
  intros Hf Hl. unfold plain. rewrite Hf, (proj2 (str_empty_false _)) by (by intros ->; cbn in Hl; lia).
  by rewrite !bool_decide_eq_false_2 by (by intros ->; cbn in Hl; lia).
Qed.
Lemma object_plain b : plain (object_name (hex_EncodeToString b)) = true.
Proof.
  unfold object_name. apply plain_name; [by rewrite free_app, hex_free|]. rewrite chars_app, length_app. cbn. lia.
Qed.
Lemma temp_plain n : plain (temp_name n) = true.
Proof.
  unfold temp_name. apply plain_name; [by rewrite !free_app, pretty_free, hex_free|]. rewrite chars_app, length_app. cbn. lia.
Qed.
(** A temporary file is no object: its name ends in a digit or a dot. *)
Lemma temp_not_object n h : temp_name n ≠ object_name h.
Proof.
  intros He. apply (f_equal (λ s, last (chars s))) in He.
  assert (last (chars (object_name h)) = Some (Ascii.ascii_of_nat 110)) as Hj by (unfold object_name; by rewrite chars_app, last_app).
  rewrite Hj in He. unfold temp_name in He. rewrite <- !str_app_assoc, chars_app, last_app in He.
  destruct (last (chars (hex_EncodeToString (obj_random n)))) as [a|] eqn:Ha.
  - injection He as ->. apply last_Some_elem_of in Ha. pose proof (proj1 (Forall_forall _ _) (hex_chars (obj_random n)) _ Ha). done.
  - by rewrite chars_app, last_app in He.
Qed.

(** ** Namespaces *)

Lemma trim_left_suffix fuel pats b : ∃ k, trim_left fuel pats b = drop k b.
Proof.
  revert b. induction fuel as [|fuel IH]; intros b; cbn [trim_left]; [by exists 0%nat|]. destruct (List.find _ pats) as [p|]; [|by exists 0%nat].
  destruct (IH (drop (length p) b)) as [k ->]. exists (length p + k)%nat. by rewrite drop_drop.
Qed.
Lemma free_bytes c s : free_of c s = forallb (λ x, negb (Ascii.eqb (Ascii.ascii_of_byte x) c)) (str_bytes s).
Proof.
  unfold free_of, str_bytes, String.list_byte_of_string. induction (String.list_ascii_of_string s) as [|a l IH]; [done|]. cbn.
  by rewrite Ascii.ascii_of_byte_of_ascii, IH.
Qed.
Lemma forallb_drop {A} (f : A → bool) k l : forallb f l = true → forallb f (drop k l) = true.
Proof. intros Hl. rewrite <- (take_drop k l), forallb_app in Hl. by apply andb_true_iff in Hl as [_ ?]. Qed.
Lemma forallb_rev {A} (f : A → bool) l : forallb f (rev l) = forallb f l.
Proof. induction l as [|x l IH]; [done|]. cbn. rewrite forallb_app, IH. cbn. rewrite andb_true_r. apply andb_comm. Qed.
Lemma trimmed_free c s : free_of c s = true → free_of c (trimmed s) = true.
Proof.
  unfold trimmed. rewrite !free_bytes, str_bytes_str. intros Hf. unfold trim_space.
  destruct (trim_left_suffix (length (str_bytes s)) spaces (str_bytes s)) as [k Hk]. rewrite Hk. set (b := drop k (str_bytes s)).
  destruct (trim_left_suffix (length b) (map (@rev byte) spaces) (rev b)) as [j Hj]. rewrite Hj, forallb_rev. apply forallb_drop. rewrite forallb_rev.
  by apply forallb_drop.
Qed.
Lemma namespace_plain ns : Forall (λ p, plain p = true) (namespace_parts ns).
Proof.
  apply Forall_forall. intros p [Hp Hin]%list_elem_of_filter. rewrite !andb_true_iff, !negb_true_iff in Hp. destruct Hp as [[He Hd] Hdd].
  apply list_elem_of_In, in_map_iff in Hin as (part & <- & Hin%list_elem_of_In). unfold plain. rewrite He, Hd, Hdd. cbn.
  apply trimmed_free. exact (proj1 (Forall_forall _ _) (split_free _ _) part Hin).
Qed.
Lemma Join_plain elems : elems ≠ [] → Forall (λ p, plain p = true) elems → Join elems = join_slash elems.
Proof.
  intros Hne Hp. destruct elems as [|e l]; [done|]. cbn [Join]. pose proof Hp as Hp'. apply Forall_cons in Hp' as [(He & _)%plain_parts _].
  rewrite (proj2 (str_empty_false _) He). by apply Clean_relative.
Qed.
(** A namespace is a relative path of plain elements. *)
Lemma cleanNamespace_plain ns : ∃ elems, elems ≠ [] ∧ Forall (λ p, plain p = true) elems ∧ cleanNamespace ns = join_slash elems.
Proof.
  unfold cleanNamespace. pose proof (namespace_plain ns) as Hp. destruct (namespace_parts ns) as [|e l]; [by exists ["default"]; repeat constructor|].
  exists (e :: l). split_and!; [done|done|by apply Join_plain].
Qed.

(** ** References *)

(** The root: an absolute cleaned path other than the root of the file system. *)
Context (root : list string) (Hroot : Forall (λ p, plain p = true) root) (Hdeep : root ≠ []).
Abbreviation dir := (path_of true root).

Lemma relative_parts rel : IsAbs rel = false → Clean rel ≠ "." →
  ∃ n rest, Clean rel = join_slash (replicate n ".." ++ rest) ∧ Forall (λ p, plain p = true) rest ∧ replicate n ".." ++ rest ≠ [].
Proof.
  intros Habs Hd. unfold Clean in *. rewrite Habs in *. destruct (climb_clean false (split_at slash rel) (split_free _ _)) as (n & rest & He & Hp & _).
  rewrite He in *. exists n, rest. destruct (replicate n ".." ++ rest) as [|x l] eqn:Hl; [done|]. by split_and!.
Qed.
Lemma clean_abs path : IsAbs path = true → IsAbs (Clean path) = true.
Proof. intros Ha. unfold Clean. rewrite Ha. apply rooted_abs. Qed.
Lemma Abs_rooted cwd c : Forall (λ p, plain p = true) c → Abs cwd (path_of true c) = path_of true c.
Proof. intros Hc. unfold Abs. rewrite rooted_abs. by apply Clean_rooted. Qed.

(** C13: a resolved reference never leaves the store: whatever text it is, the path is the
    root directory with plain elements below it. *)
Theorem reference_stays_inside ref path rel :
  pathForRef obj_cwd dir ref = Ok (path, rel) → ∃ below, path = path_of true (root ++ below) ∧ Forall (λ p, plain p = true) below.
Proof.
  unfold pathForRef. destruct (has_prefix _ _); [|done]. cbn [negb]. set (raw := trim_prefix _ _). destruct (str_empty raw); [done|].
  destruct (bool_decide_reflect (Clean raw = ".")) as [|Hd]; [done|]. destruct (IsAbs (Clean raw)) eqn:Habs; [done|]. cbn [orb].
  assert (IsAbs raw = false) as Hraw by (destruct (IsAbs raw) eqn:Ha; [by rewrite clean_abs in Habs|done]).
  destruct (relative_parts raw Hraw Hd) as (n & rest & -> & Hp & Hne). rewrite Join_climb, Clean_rooted by done.
  assert (Forall (λ p, plain p = true) (take (length root - n) root ++ rest)) as Hall by (apply Forall_app; split; [by apply Forall_take|done]).
  rewrite Abs_rooted by done. destruct (bool_decide_reflect (path_of true (take (length root - n) root ++ rest) = dir)) as [He|_]; cbn [negb andb].
  - intros Heq. injection Heq as <- _. exists []. rewrite app_nil_r. split; [exact He|constructor].
  - destruct (has_prefix _ _) eqn:Hb; [|done]. cbn [negb]. intros [= <- _]. apply below_iff in Hb as (_ & below & _ & He); [|done..].
    exists below. rewrite He. split; [done|]. rewrite He in Hall. by apply Forall_app in Hall as [_ ?].
Qed.
(** The references [Put] returns are resolved to the object's path. *)
Lemma reference_resolves elems : elems ≠ [] → Forall (λ p, plain p = true) elems →
  pathForRef obj_cwd dir (local_scheme +:+ join_slash elems) = Ok (path_of true (root ++ elems), join_slash elems).
Proof.
  intros Hne Hp. unfold pathForRef. rewrite (proj2 (has_prefix_app _ _)) by (by eexists). cbn [negb]. rewrite trim_prefix_app.
  rewrite (proj2 (str_empty_false _)); [|destruct elems as [|e l]; [done|]; apply Forall_cons in Hp as [(He & _)%plain_parts _];
    destruct l; [done|]; rewrite join_cons; by destruct e].
  rewrite Clean_relative, join_not_abs by done. rewrite bool_decide_eq_false_2; cbn [orb].
  2: { intros He. apply (f_equal (split_at slash)) in He. rewrite split_join in He by (done || by apply plain_free). subst elems.
       by apply Forall_cons in Hp as [(_ & Hd & _)%plain_parts _]. }
  rewrite Join_below, Clean_rooted, Abs_rooted by (done || by apply Forall_app).
  assert (Forall (λ p, plain p = true) (root ++ elems)) as Hall by (by apply Forall_app).
  rewrite (proj2 (below_iff root _ Hroot Hall)); [by rewrite andb_false_r|]. split; [done|]. by exists elems.
Qed.

(** ** What holds of the files *)

(** Every object file below the root holds the content its name says. *)
Definition hashed (files : gmap string bytes) : Prop := ∀ elems h data,
  Forall (λ p, plain p = true) (elems ++ [object_name h]) →
  files !! path_of true (root ++ elems ++ [object_name h]) = Some data → hex_EncodeToString (sha256_Sum data) = h.
Definition is_object (path : string) : Prop := ∃ elems h, Forall (λ p, plain p = true) (elems ++ [object_name h]) ∧ path = path_of true (root ++ elems ++ [object_name h]).
Definition is_temp (path : string) : Prop := ∃ elems n, Forall (λ p, plain p = true) elems ∧ path = path_of true (root ++ elems ++ [temp_name n]).
(** Objects do not disappear. *)
Definition kept (files files' : gmap string bytes) : Prop := ∀ path, is_object path → is_Some (files !! path) → is_Some (files' !! path).
#[export] Instance kept_preorder : PreOrder kept.
Proof. split; [by intros f p|]. intros f g h Hfg Hgh p Hp Hs. auto. Qed.

(** What other writers may do: anything that keeps objects and their content right and
    leaves this process's temporary files alone. *)
Record polite : Prop := {
  po_hashed : ∀ n files, hashed files → hashed (obj_others n files);
  po_kept : ∀ n files, kept files (obj_others n files);
  po_temp : ∀ n files path, is_temp path → obj_others n files !! path = files !! path
}.

Lemma temp_no_object path : is_temp path → ¬ is_object path.
Proof.
  intros (elems & n & He & ->) (elems' & h & Ho & Heq). apply path_of_inj in Heq.
  - apply app_inv_head in Heq. apply app_inj_tail in Heq as [_ Heq]. by apply temp_not_object in Heq.
  - apply Forall_app; split; [done|]. apply Forall_app; split; [done|]. constructor; [apply temp_plain|done].
  - by apply Forall_app.
Qed.
Lemma object_of elems h : Forall (λ p, plain p = true) (elems ++ [object_name h]) → is_object (path_of true (root ++ elems ++ [object_name h])).
Proof. intros Hp. by exists elems, h. Qed.
Lemma hashed_other files path data : ¬ is_object path → hashed files → hashed (<[path := data]> files).
Proof.
  intros Hn Hh elems h data' Hp Hl. rewrite lookup_insert_ne in Hl; [by apply (Hh elems h data')|]. intros ->. by apply Hn, object_of.
Qed.
Lemma kept_other files path data : kept files (<[path := data]> files).
Proof. intros p Hp Hs. destruct (decide (p = path)) as [->|]; [by rewrite lookup_insert_eq|by rewrite lookup_insert_ne]. Qed.
Lemma hashed_delete files path : hashed files → hashed (delete path files).
Proof. intros Hh elems h data Hp Hl. apply lookup_delete_Some in Hl as [_ Hl]. by apply (Hh elems h data). Qed.
Lemma kept_delete files path : ¬ is_object path → kept files (delete path files).
Proof. intros Hn p Hp Hs. destruct (decide (p = path)) as [->|]; [done|by rewrite lookup_delete_ne]. Qed.

(** ** Rules *)

Definition opost {A} (m : IO A) (Q : outcome A → gmap string bytes → Prop) (s : ObjFS) : Prop := Q (snd (m s)) (fs_files (fst (m s))).
Lemma opost_mono {A} (m : IO A) (Q R : outcome A → gmap string bytes → Prop) s : opost m Q s → (∀ r f, Q r f → R r f) → opost m R s.
Proof. unfold opost. auto. Qed.
(** A step after a computation; errors and deaths pass. *)
Lemma opost_bind {A B} (m : IO A) (f : A → IO B) (Q : outcome B → gmap string bytes → Prop) s :
  opost m (λ r files, match r with
    | Done (Ok a) => ∀ t, fs_files t = files → opost (f a) Q t
    | Done (Err e) => Q (Done (Err e)) files
    | Died => Q Died files
    end) s → opost (m ≫= f) Q s.
Proof.
  unfold opost, mbind, IO_bind. destruct (m s) as [s' [[a|e]|]]; cbn; [|done..]. intros Hf. specialize (Hf s' eq_refl). by destruct (f a s').
Qed.
Lemma opost_try {A} (m : IO A) (Q : outcome (result obj_error A) → gmap string bytes → Prop) s :
  opost m (λ r files, match r with Done r => Q (Done (Ok r)) files | Died => Q Died files end) s → opost (try m) Q s.
Proof. unfold opost, try. by destruct (m s) as [s' [r|]]. Qed.
Lemma opost_ctx (Q : outcome unit → gmap string bytes → Prop) s : (∀ r, Q (Done r) (fs_files s)) → opost ctx_err Q s.
Proof. intros HQ. apply HQ. Qed.

(** One call: dead, failed or done, after what the others did. *)
Lemma opost_os_or {A} good bad (Q : outcome A → gmap string bytes → Prop) s :
  Q Died (fs_files s) →
  (∀ n, let files := obj_others n (fs_files s) in Q (Done (Err ErrOS)) (bad files) ∧ Q (Done (snd (good files))) (fst (good files))) →
  opost (os_or good bad) Q s.
Proof.
  intros Hd Hc. unfold opost, os_or. destruct (obj_lives _); [|done]. destruct (Hc (fs_tick s)) as [Hb Hg].
  destruct (obj_works _); cbn; [by destruct (good _)|done].
Qed.

(** [safe files0 files]: the files are still right, and no object of [files0] is gone. *)
Record safe (files0 files : gmap string bytes) : Prop := { sf_hashed : hashed files; sf_kept : kept files0 files }.
Context (Hpolite : polite).
Lemma safe_others n files0 files : safe files0 files → safe files0 (obj_others n files).
Proof. intros [Hh Hk]. split; [by apply Hpolite|]. etrans; [exact Hk|apply Hpolite]. Qed.

Lemma opost_touch files0 (Q : outcome unit → gmap string bytes → Prop) s : safe files0 (fs_files s) →
  (∀ r files, safe files0 files → (∀ p, is_temp p → files !! p = fs_files s !! p) → Q r files) → opost touch Q s.
Proof.
  intros Hs HQ. apply opost_os_or; [by apply HQ|]. intros n. split; cbn; apply HQ; try (by apply safe_others); intros p Hp; by apply Hpolite.
Qed.
Lemma opost_open files0 path (Q : outcome bytes → gmap string bytes → Prop) s : safe files0 (fs_files s) →
  (∀ r files, safe files0 files → (∀ p, is_temp p → files !! p = fs_files s !! p) →
     match r with Done (Ok data) => files !! path = Some data | Done (Err e) => e = ErrOS ∨ e = ErrNotExist ∧ files !! path = None | Died => True end → Q r files) →
  opost (open_file path) Q s.
Proof.
  intros Hs HQ. apply opost_os_or; [by apply HQ|]. intros n. assert (safe files0 (obj_others n (fs_files s))) by (by apply safe_others).
  split; cbn; apply HQ; try done; try (by intros p Hp; apply Hpolite); [by left|]. destruct (_ !! path) eqn:Hp; auto.
Qed.
Lemma opost_read files0 (osr : bool) (Q : outcome unit → gmap string bytes → Prop) s : safe files0 (fs_files s) →
  (∀ r files, safe files0 files → (∀ p, is_temp p → files !! p = fs_files s !! p) → Q r files) → opost (if osr then touch else mret ()) Q s.
Proof. intros Hs HQ. destruct osr; [by apply (opost_touch files0)|]. by apply HQ. Qed.

(** Copying, where [W w files] says that [w] has been written, and [R] what holds anyway. *)
Lemma opost_copy files0 (write : bytes → IO unit) (W : bytes → gmap string bytes → Prop) (R : gmap string bytes → Prop) (osr fails : bool) chunks :
  (∀ w f f', W w f → (∀ p, is_temp p → f' !! p = f !! p) → W w f') → (∀ w f, W w f → R f) →
  (∀ w c s, safe files0 (fs_files s) → W w (fs_files s) →
    opost (write c) (λ r files, safe files0 files ∧ match r with Done (Ok _) => W (w ++ c) files | _ => R files end) s) →
  ∀ written s, safe files0 (fs_files s) → W written (fs_files s) →
  opost (copy_chunks write (if osr then touch else mret ()) fails chunks written)
    (λ r files, safe files0 files ∧ match r with Done (Ok data) => data = written ++ concat chunks ∧ fails = false ∧ W data files | _ => R files end) s.
Proof.
  intros Hstable Hany Hwrite. induction chunks as [|c chunks IH]; intros written s Hs Hw; cbn [copy_chunks];
    apply opost_bind, opost_ctx; (intros [[]|e]; [|by eauto]); intros t Ht; apply opost_bind, (opost_read files0); rewrite ?Ht; try done;
    intros r files Hsf Htmp; assert (W written files) as Hw' by (by eapply Hstable); (destruct r as [[[]|e]|]; [|by eauto..]); intros t' Ht'; subst files.
  - destruct fails; unfold opost; cbn; [by eauto|]. split; [done|]. by rewrite app_nil_r.
  - apply opost_bind. eapply opost_mono; [by apply (Hwrite written)|]. intros [[[]|e]|] files [Hsf2 Hw2]; [|done..].
    intros t2 Ht2. subst files. eapply opost_mono; [by apply IH|]. intros [[data|e]|] files [? Hd]; [|done..]. cbn. by rewrite <- app_assoc in Hd.
Qed.
Lemma concat_chunks fuel n data : (length data <= fuel)%nat → (0 < n)%nat → concat (chunks_of fuel n data) = data.
Proof.
  revert data. induction fuel as [|fuel IH]; intros data Hl Hn; [destruct data; [done|cbn in Hl; lia]|]. destruct data as [|x data]; [done|].
  cbn [chunks_of concat]. rewrite IH, take_drop; [done| |done]. rewrite length_drop. cbn in *. lia.
Qed.
Lemma opost_matches files0 path want s : safe files0 (fs_files s) →
  opost (fileSHA256Matches path want)
    (λ r files, safe files0 files ∧ (∀ p, is_temp p → files !! p = fs_files s !! p) ∧
       match r with
       | Done (Ok true) => is_object path → ∃ data, files !! path = Some data ∧ hex_EncodeToString (sha256_Sum data) = want
       | _ => True
       end) s.
Proof.
  intros Hs. unfold fileSHA256Matches. apply opost_bind, (opost_open files0); [done|].
  intros [[data|e]|] files Hsf Htmp Hr; [|done..]. intros t Ht. subst files. apply opost_bind.
  set (same_temps := λ f : gmap string bytes, ∀ p, is_temp p → f !! p = fs_files s !! p).
  assert (safe (fs_files t) (fs_files t)) as Hst by (split; [apply Hsf|done]).
  eapply opost_mono; [apply (opost_copy (fs_files t) (λ _, mret ()) (λ _, same_temps) same_temps) with (written := []); try done|].
  - intros w f f' Hf Hf' p Hp. by rewrite Hf', Hf.
  - intros r files [[Hh Hk] Hc]. assert (safe files0 files) as Hsf2 by (split; [done|by etrans; [apply Hsf|]]).
    destruct r as [[content|e]|]; [|by split_and!..]. destruct Hc as (-> & _ & Htmp2). intros t2 Ht2. subst files. cbn [app].
    cbn [file_reader rd_chunks]. rewrite concat_chunks by (unfold buffer_size; lia). cbn. split; [done|]. split; [done|]. case_bool_decide as Hw; [|done]. intros Hobj.
    destruct (Hk path Hobj) as [data' Hd']; [by rewrite Hr|]. exists data'. split; [done|]. destruct Hobj as (elems & h & Hp & ->).
    rewrite <- Hw. rewrite (Hh elems h data' Hp Hd'). symmetry. by apply (sf_hashed _ _ Hsf elems h data).
Qed.

(** ** Put and Get *)

Lemma safe_temp files0 files tmp data : is_temp tmp → safe files0 files → safe files0 (<[tmp := data]> files).
Proof.
  intros Ht [Hh Hk]. split; [apply hashed_other; [by apply temp_no_object|done]|]. etrans; [exact Hk|apply kept_other].
Qed.
Lemma safe_remove files0 files tmp : is_temp tmp → safe files0 files → safe files0 (delete tmp files).
Proof.
  intros Ht [Hh Hk]. split; [by apply hashed_delete|]. etrans; [exact Hk|by apply kept_delete, temp_no_object].
Qed.
Lemma opost_write files0 tmp w c s : is_temp tmp → safe files0 (fs_files s) → fs_files s !! tmp = Some w →
  opost (write_file tmp c) (λ r files, safe files0 files ∧ match r with Done (Ok _) => files !! tmp = Some (w ++ c) | _ => True end) s.
Proof.
  intros Ht Hs Hw. unfold opost, write_file. apply (opost_os_or _ _ (λ r files, safe files0 files ∧ match r with Done (Ok _) => files !! tmp = Some (w ++ c) | _ => True end)); [done|].
  intros n. cbn. assert (obj_others n (fs_files s) !! tmp = Some w) as Hw' by (by rewrite (po_temp Hpolite)). rewrite Hw'. cbn.
  split; (split; [by apply safe_temp, safe_others|]); [done|]. by rewrite lookup_insert_eq.
Qed.
(** Renaming a complete temporary file makes an object. *)
Lemma opost_rename files0 tmp elems content s : let h := hex_EncodeToString (sha256_Sum content) in let final := path_of true (root ++ elems ++ [object_name h]) in
  is_temp tmp → safe files0 (fs_files s) → fs_files s !! tmp = Some content → Forall (λ p, plain p = true) (elems ++ [object_name h]) →
  opost (rename tmp final) (λ r files, safe files0 files ∧ match r with Done (Ok _) => is_Some (files !! final) | _ => True end) s.
Proof.
  intros h final Ht Hs Hc Hp. apply opost_os_or; [done|]. intros n. cbn. rewrite (po_temp Hpolite) by done. rewrite Hc. cbn.
  split; (split; [|try done]); [by apply safe_others|..].
  - destruct (safe_remove files0 _ tmp Ht (safe_others n _ _ Hs)) as [Hh Hk]. split; [|etrans; [exact Hk|apply kept_other]].
    intros elems' h' data Hp' Hl. destruct (decide (path_of true (root ++ elems' ++ [object_name h']) = final)) as [He|He].
    + apply path_of_inj in He; [|by apply Forall_app..]. apply app_inv_head, app_inj_tail in He as [-> Hname].
      assert (h' = h) as ->.
      { unfold object_name in Hname. apply (f_equal (λ s, rev (chars s))) in Hname. rewrite !chars_app, !rev_app_distr in Hname. cbn in Hname.
        injection Hname as Hname. apply (f_equal (@rev _)) in Hname. rewrite !rev_involutive in Hname.
        apply (f_equal String.string_of_list_ascii) in Hname. unfold chars in Hname. by rewrite !String.string_of_list_ascii_of_string in Hname. }
      rewrite lookup_insert_eq in Hl. injection Hl as <-. done.
    + rewrite lookup_insert_ne in Hl by done. by apply (Hh elems' h' data).
  - by rewrite lookup_insert_eq.
Qed.

(** What [Put] promises when it returns a reference. *)
Definition published (elems : list string) (r : reader) (size : Z) (ref : string) (files : gmap string bytes) : Prop :=
  let content := concat (rd_chunks r) in let name := object_name (hex_EncodeToString (sha256_Sum content)) in
  ref = local_scheme +:+ join_slash (elems ++ [name]) ∧ is_Some (files !! path_of true (root ++ elems ++ [name])) ∧
  rd_fails r = false ∧ (0 <= size → size = Z.of_nat (length content)).
Lemma opost_publish files0 tmp elems r size s :
  Forall (λ p, plain p = true) elems → elems ≠ [] → is_temp tmp → safe files0 (fs_files s) → fs_files s !! tmp = Some [] →
  opost (publish tmp dir (join_slash elems) r size)
    (λ res files, safe files0 files ∧ match res with Done (Ok (_, ref)) => published elems r size ref files | _ => True end) s.
Proof.
  intros He Hne Htmp Hs Hempty. unfold publish. apply opost_bind. eapply opost_mono.
  { apply (opost_copy files0 (write_file tmp) (λ w f, f !! tmp = Some w) (λ _, True)) with (written := []); try done.
    - intros w f f' Hw Hf. by rewrite Hf.
    - intros w c t Ht Hw. by apply opost_write. }
  intros [[content|e]|] files [Hsf Hc]; [|done..]. destruct Hc as (-> & Hfails & Hw). intros t Ht. subst files. cbn [app]. set (content := concat (rd_chunks r)) in *.
  destruct ((0 <=? size) && negb (Z.of_nat (length content) =? size)) eqn:Hsize; [done|].
  assert (0 <= size → size = Z.of_nat (length content)) as Hsz by (intros Hz; destruct (Z.leb_spec 0 size); [|lia]; destruct (Z.eqb_spec (Z.of_nat (length content)) size); [done|done]).
  apply opost_bind, (opost_touch files0); [done|]. intros [[[]|e]|] files Hsf2 Hsame; [|done..]. intros t2 Ht2. subst files.
  assert (fs_files t2 !! tmp = Some content) as Hw2 by (by rewrite Hsame).
  set (h := hex_EncodeToString (sha256_Sum content)). assert (Forall (λ p, plain p = true) (elems ++ [object_name h])) as Hp.
  { apply Forall_app; split; [done|]. constructor; [apply object_plain|done]. }
  assert (Join [join_slash elems; object_name h] = join_slash (elems ++ [object_name h])) as ->.
  { cbn [Join]. rewrite (proj2 (str_empty_false _)); [|destruct elems as [|x l]; [done|]; apply Forall_cons in He as [(Hx & _)%plain_parts _]; destruct l; [done|]; rewrite join_cons; by destruct x].
    rewrite join_app by done. change (join_slash [join_slash elems; object_name h]) with (join_slash elems +:+ String.String slash (join_slash [object_name h])).
    rewrite <- join_app by done. apply Clean_relative; [by destruct elems|done]. }
  rewrite Join_below by (done || by destruct elems).
  set (final := path_of true (root ++ elems ++ [object_name h])).
  assert (is_object final) as Hobj by (by apply object_of).
  assert (∀ fs, is_Some (fs !! final) → published elems r size (local_scheme +:+ join_slash (elems ++ [object_name h])) fs) as Hpub by (intros fs Hfs; by split_and!).
  apply opost_bind, opost_try. eapply opost_mono; [by apply (opost_matches files0)|]. cbn beta. intros [m|] files (Hsf3 & Hsame3 & Hm); [|done]. intros t3 Ht3. subst files.
  destruct m as [[]|[]]; unfold opost; cbn; try done.
  { split; [done|]. apply Hpub. destruct (Hm Hobj) as (d & Hd & _). by exists d. }
  apply (opost_bind (try (rename tmp final)) _ (λ res files, safe files0 files ∧ match res with Done (Ok (_, ref)) => published elems r size ref files | _ => True end)).
  apply opost_try. eapply opost_mono; [apply (opost_rename files0 tmp elems content); [done|done|by rewrite Hsame3|done]|]. cbn beta.
  intros [m|] files (Hsf4 & Hm4); [|done]. intros t4 Ht4. subst files. destruct m as [[]|e]; [unfold opost; cbn; by auto|].
  apply opost_bind, opost_try. eapply opost_mono; [by apply (opost_matches files0)|]. cbn beta. intros [m|] files (Hsf5 & Hsame5 & Hm5); [|done]. intros t5 Ht5. subst files.
  destruct m as [[]|e']; unfold opost; cbn; try done. split; [done|]. apply Hpub. destruct (Hm5 Hobj) as (d & Hd & _). by exists d.
Qed.

Lemma published_kept elems r size ref f f' : Forall (λ p, plain p = true) elems → kept f f' → published elems r size ref f → published elems r size ref f'.
Proof.
  intros He Hk (Hr & Hsm & Hrest). split; [done|]. split; [|done]. apply Hk; [|done]. apply object_of. apply Forall_app; split; [done|].
  constructor; [apply object_plain|done].
Qed.
Lemma opost_touch_kept files0 s : safe files0 (fs_files s) →
  opost touch (λ r files, (safe files0 files ∧ kept (fs_files s) files) ∧ match r with Done (Err e) => e = ErrOS | _ => True end) s.
Proof.
  intros Hs. apply opost_os_or; [by split|]. intros n. split; cbn; (split; [split; [by apply safe_others|apply (po_kept Hpolite)]|done]).
Qed.
Lemma opost_check (Q : outcome unit → gmap string bytes → Prop) s : Q (Done (Ok ())) (fs_files s) → Q (Done (Err ErrCtx)) (fs_files s) → opost ctx_err Q s.
Proof. intros Ho He. unfold opost, ctx_err. cbn. by destruct (obj_canceled _). Qed.
Lemma opost_remove files0 tmp s : is_temp tmp → safe files0 (fs_files s) →
  opost (try (remove tmp)) (λ _ files, safe files0 files ∧ kept (fs_files s) files) s.
Proof.
  intros Ht Hs. apply opost_try, opost_os_or; [by split|]. intros n. cbn. pose proof (safe_others n _ _ Hs) as Ho. pose proof (po_kept Hpolite n (fs_files s)) as Hk.
  split; [by split|]. destruct (obj_others n (fs_files s) !! tmp); cbn; [|by split]. split; [by apply safe_remove|]. etrans; [exact Hk|by apply kept_delete, temp_no_object].
Qed.
Lemma opost_Put namespace r size s : hashed (fs_files s) → ∃ elems, Forall (λ p, plain p = true) elems ∧
  opost (Put dir namespace r size) (λ res files, safe (fs_files s) files ∧ match res with Done (Ok ref) => published elems r size ref files | _ => True end) s.
Proof.
  intros Hh. destruct (cleanNamespace_plain namespace) as (elems & Hne & He & Hns). exists elems. split; [done|].
  assert (safe (fs_files s) (fs_files s)) as Hs by by split.
  unfold Put. rewrite Hns, Join_below by done. apply opost_bind, opost_ctx. intros [[]|e]; [|done]. intros t Ht. apply opost_bind, (opost_touch (fs_files s)); rewrite ?Ht; [done|].
  intros [[[]|e]|] files Hsf _; [|done..]. intros t2 Ht2. subst files. apply opost_bind. unfold opost at 1. cbn [fst snd].
  intros t3 Ht3. replace (Join [path_of true (root ++ elems); temp_name (fs_tick t2)]) with (path_of true (root ++ elems ++ [temp_name (fs_tick t2)])).
  2: { change (temp_name (fs_tick t2)) with (join_slash [temp_name (fs_tick t2)]) at 2. rewrite Join_below; [by rewrite <- app_assoc|by apply Forall_app| |done].
       constructor; [apply temp_plain|done]. }
  set (tmp := path_of true (root ++ elems ++ [temp_name (fs_tick t2)])). assert (is_temp tmp) as Htmp by (by exists elems, (fs_tick t2)). clearbody tmp.
  apply opost_bind. apply opost_os_or; [by rewrite Ht3|]. intros n. rewrite Ht3. cbn. pose proof (safe_others n _ _ Hsf) as Hsf'.
  split; [done|]. destruct (obj_others n (fs_files t2) !! tmp) as [d|] eqn:Hd; cbn [fst snd]; [by split|]. intros t4 Ht4. apply opost_bind, opost_try.
  eapply opost_mono; [apply (opost_publish (fs_files s) tmp elems); [done|done|done| |]|].
  - rewrite Ht4. by apply safe_temp.
  - rewrite Ht4. by rewrite lookup_insert_eq.
  - cbn beta. intros [[[[] ref]|e]|] files [Hsf5 Hpub]; [| | |done]; intros t5 Ht5; subst files; apply opost_bind.
    + eapply opost_mono; [by apply opost_remove|]. intros [[m|e]|] files [Hsf6 Hk6]; [|by split..]. intros t6 Ht6. unfold opost. cbn. subst files.
      split; [done|]. by eapply published_kept.
    + eapply opost_mono; [by apply opost_touch_kept|]. intros [[m|e]|] files [[Hsf6 Hk6] _]; [|by split..]. intros t6 Ht6. unfold opost. cbn. subst files.
      split; [done|]. by eapply published_kept.
    + eapply opost_mono; [by apply opost_remove|]. intros [[m|e']|] files [Hsf6 Hk6]; [|by split..]. intros t6 Ht6. unfold opost. cbn. by subst files.
Qed.
Lemma published_path elems r size ref files : Forall (λ p, plain p = true) elems → published elems r size ref files →
  ∃ path rel, pathForRef obj_cwd dir ref = Ok (path, rel) ∧ is_object path ∧ is_Some (files !! path) ∧
    (∀ files' data, hashed files' → files' !! path = Some data → sha256_Sum data = sha256_Sum (concat (rd_chunks r))).
Proof.
  intros He (-> & Hdata & Hf & Hsz). set (h := hex_EncodeToString (sha256_Sum (concat (rd_chunks r)))) in *.
  assert (Forall (λ p, plain p = true) (elems ++ [object_name h])) as Hp by (apply Forall_app; split; [done|]; constructor; [apply object_plain|done]).
  eexists _, _. split; [apply reference_resolves; [by destruct elems|done]|]. split; [by apply object_of|]. split; [done|].
  intros files' data Hh Hl. apply hex_inj. by apply (Hh elems h).
Qed.

(** C11: wherever [Put] ends, by returning, failing or dying before any call, every object file
    holds the content its name says and none is gone; if it returns a reference, the
    reference leads to a file with the content that was put, of the announced size. *)
Theorem put_publishes_object namespace r size s :
  hashed (fs_files s) →
  opost (Put dir namespace r size) (λ res files, hashed files ∧ kept (fs_files s) files ∧
    match res with
    | Done (Ok ref) => ∃ path rel data, pathForRef obj_cwd dir ref = Ok (path, rel) ∧ files !! path = Some data ∧
        sha256_Sum data = sha256_Sum (concat (rd_chunks r)) ∧
        rd_fails r = false ∧ (0 <= size → size = Z.of_nat (length (concat (rd_chunks r))))
    | _ => True
    end) s.
Proof.
  intros Hh. destruct (opost_Put namespace r size s Hh) as (elems & He & Hput). eapply opost_mono; [exact Hput|].
  intros res files [[Hh' Hk] Hr]. split; [done|]. split; [done|]. destruct res as [[ref|e]|]; [|done..].
  destruct (published_path _ _ _ _ _ He Hr) as (path & rel & Hpath & _ & [data Hdata] & Hsum). destruct Hr as (_ & _ & Hf & Hsz).
  exists path, rel, data. split_and!; eauto.
Qed.

(** C12: what was put is what is got: from any later state, [GetBytes] of the reference returns
    the bytes, or fails because a call failed, the context was canceled, or the object is
    longer than the limit. (No other content has the same SHA-256.) *)
Theorem put_get_roundtrip namespace content maxBytes s s1 s2 ref :
  hashed (fs_files s) → Put dir namespace (bytes_reader content) (Z.of_nat (length content)) s = (s1, Done (Ok ref)) →
  hashed (fs_files s2) → kept (fs_files s1) (fs_files s2) →
  (∀ other, sha256_Sum other = sha256_Sum content → other = content) →
  opost (GetBytes (Some {| st_Put := Put dir; st_Get := Get dir |}) ref maxBytes) (λ res _,
    match res with
    | Done (Ok data) => data = content ∧ (0 <= maxBytes → Z.of_nat (length content) <= maxBytes)
    | Done (Err e) => e = ErrOS ∨ e = ErrCtx ∨ e = ErrTooLarge ∧ 0 <= maxBytes < Z.of_nat (length content)
    | Died => True
    end) s2.
Proof.
  intros Hh Hput Hh2 Hk Hinj. destruct (opost_Put namespace (bytes_reader content) (Z.of_nat (length content)) s Hh) as (elems & He & Hp).
  unfold opost in Hp. rewrite Hput in Hp. cbn [fst snd] in Hp. destruct Hp as [_ Hpub].
  destruct (published_path _ _ _ _ _ He Hpub) as (path & rel & Hpath & Hobj & Hsome & Hsum). cbn [bytes_reader rd_chunks] in Hsum.
  rewrite concat_chunks in Hsum by (unfold buffer_size; lia).
  assert (∀ t, safe (fs_files s1) (fs_files t) → opost touch (λ r files, safe (fs_files s1) files ∧ match r with Done (Err e) => e = ErrOS | _ => True end) t) as Htouch.
  { intros t Ht. eapply opost_mono; [by apply opost_touch_kept|]. by intros r files [[? _] ?]. }
  unfold GetBytes. cbn [st_Get]. apply opost_bind. unfold Get. apply opost_bind, opost_check; [|by auto]. intros t Ht.
  apply opost_bind. unfold opost at 1, of_result. rewrite Hpath. cbn [fst snd]. intros t2 Ht2. apply opost_bind.
  assert (safe (fs_files s1) (fs_files t2)) as Hs2 by (rewrite Ht2, Ht; by split). apply (opost_open (fs_files s1)); [done|].
  intros [[data|e]|] files Hsf _ Hr; [| |done].
  2: { destruct Hr as [->|[-> Hn]]; [by auto|]. destruct (sf_kept _ _ Hsf path Hobj Hsome) as [d Hd]. congruence. }
  assert (data = content) as -> by (apply Hinj, (Hsum files); [apply Hsf|exact Hr]).
  intros t3 Ht3. apply opost_bind. eapply opost_mono; [apply Htouch; by rewrite Ht3|]. intros [[[]|e]|] files' [Hsf' He']; [|by left|done].
  intros t4 Ht4. unfold opost at 1. cbn [fst snd mret IO_ret oi_Size]. intros t5 Ht5.
  assert (safe (fs_files s1) (fs_files t5)) as Hsf5 by (by rewrite Ht5, Ht4).
  destruct (Z.leb_spec 0 maxBytes) as [Hm|Hm]; cbn [andb].
  - destruct (Z.ltb_spec maxBytes (Z.of_nat (length content))) as [Hl|Hl]; [unfold opost, throw; cbn; auto|].
    rewrite (proj2 (Z.ltb_ge maxBytes 0)) by done. apply opost_bind. eapply opost_mono; [by apply Htouch|]. intros [[[]|e]|] files2 [_ He2]; [|by left|done].
    intros t6 _. rewrite take_ge by lia. rewrite (proj2 (Z.ltb_ge maxBytes (Z.of_nat (length content)))) by done. unfold opost. by cbn.
  - rewrite (proj2 (Z.ltb_lt maxBytes 0)) by done. apply opost_bind. eapply opost_mono; [by apply Htouch|]. intros [[[]|e]|] files2 [_ He2]; [|by left|done].
    intros t6 _. unfold opost. cbn. split; [done|lia].
Qed.

End Store.

(** ** A concrete store *)

Definition toy_object_env (others : gmap string bytes → gmap string bytes) : ObjEnv := {|
  obj_works := λ _, true; obj_lives := λ _, true; obj_canceled := λ _, false; obj_others := λ _, others; obj_short := λ _, 0%nat;
  obj_random := λ n, [byte_of_Z (Z.of_nat n)]; obj_pid := 7; obj_cwd := "/" |}.
(** Another writer that adds a file outside the store at every call. *)
Definition busy : gmap string bytes → gmap string bytes := λ files, <["/tmp/other" := [x00]]> files.
Definition toy_sha : Sha256 := λ data, data.
Definition demo_root : list string := ["srv"; "objects"].
Definition demo_content : bytes := [x68; x69].
Definition object_start : ObjFS := {| fs_files := ∅; fs_tick := 0 |}.

Lemma demo_polite : @polite (toy_object_env busy) toy_sha demo_root.
Proof.
  assert (∀ elems, path_of true (demo_root ++ elems) ≠ "/tmp/other") as Hne.
  { intros elems He. unfold path_of, demo_root in He. cbn [app] in He. destruct elems; rewrite !join_cons in He; discriminate He. }
  split; cbn; unfold busy.
  - intros _ files Hh elems h data Hp Hl. rewrite lookup_insert_ne in Hl; [by apply (Hh elems h)|]. intros He. by apply (Hne (elems ++ [object_name h])).
  - intros _ files p _ Hs. destruct (decide (p = "/tmp/other")) as [->|]; [by rewrite lookup_insert_eq|by rewrite lookup_insert_ne].
  - intros _ files p (elems & n & _ & ->). rewrite lookup_insert_ne; [done|]. intros He. by apply (Hne (elems ++ [@temp_name (toy_object_env busy) n])).
Qed.
Lemma hashed_empty : @hashed toy_sha demo_root ∅.
Proof. intros elems h data _ Hl. by rewrite lookup_empty in Hl. Qed.

Lemma reference_stays_inside_witness : ∃ below, "/srv/objects/a/b.json" = path_of true (demo_root ++ below) ∧ Forall (λ p, plain p = true) below.
Proof.
  apply (@reference_stays_inside (toy_object_env busy) demo_root) with (ref := "local://x/../a/./b.json") (rel := "a/b.json").
  - repeat constructor.
  - vm_compute. reflexivity.
Defined.
Definition demo_put : ObjFS * outcome string :=
  @Put (toy_object_env busy) toy_sha "/srv/objects" " a\\../b" (bytes_reader demo_content) 2 object_start.
Lemma put_publishes_object_witness :
  ∃ path rel data, pathForRef "/" "/srv/objects" "local://a/b/6869.json" = Ok (path, rel) ∧ fs_files demo_put.1 !! path = Some data ∧ data = demo_content.
Proof.
  pose proof (@put_publishes_object (toy_object_env busy) toy_sha demo_root ltac:(repeat constructor) ltac:(discriminate) demo_polite
    " a\\../b" (bytes_reader demo_content) 2 object_start hashed_empty) as (_ & _ & Hp).
  change (@Put (toy_object_env busy) toy_sha (path_of true demo_root) " a\\../b" (bytes_reader demo_content) 2 object_start) with demo_put in Hp.
  assert (snd demo_put = Done (Ok "local://a/b/6869.json")) as He by (vm_compute; reflexivity). rewrite He in Hp.
  destruct Hp as (path & rel & data & Hpath & Hdata & _ & _). exists path, rel, data. split; [exact Hpath|]. split; [exact Hdata|].
  vm_compute in Hpath. injection Hpath as <- <-. vm_compute in Hdata. by injection Hdata as <-.
Defined.
Lemma put_get_roundtrip_witness :
  match snd (@GetBytes (toy_object_env busy) (Some {| st_Put := @Put (toy_object_env busy) toy_sha "/srv/objects"; st_Get := @Get (toy_object_env busy) "/srv/objects" |})
    "local://a/b/6869.json" 10 demo_put.1) with Done (Ok data) => data = demo_content | _ => False end.
Proof.
  assert (snd demo_put = Done (Ok "local://a/b/6869.json")) as He by (vm_compute; reflexivity).
  assert (@hashed toy_sha demo_root (fs_files demo_put.1)) as Hh.
  { pose proof (@opost_Put (toy_object_env busy) toy_sha demo_root ltac:(repeat constructor) demo_polite
      " a\\../b" (bytes_reader demo_content) 2 object_start hashed_empty) as Hp. destruct Hp as (elems & _ & Hput). unfold opost in Hput. change (path_of true demo_root) with "/srv/objects" in Hput. fold demo_put in Hput. destruct Hput as [[Hh _] _]. exact Hh. }
  pose proof (@put_get_roundtrip (toy_object_env busy) toy_sha demo_root ltac:(repeat constructor) ltac:(discriminate) demo_polite
    " a\\../b" demo_content 10 object_start demo_put.1 demo_put.1 "local://a/b/6869.json" hashed_empty
    ltac:(change (demo_put = (demo_put.1, Done (Ok "local://a/b/6869.json"))); rewrite <- He; by destruct demo_put)
    Hh ltac:(done) ltac:(done)) as Hr.
  unfold opost in Hr. change (path_of true demo_root) with "/srv/objects" in Hr.
  destruct (snd (GetBytes _ _ _ _)) as [[data|e]|] eqn:Hg; [apply Hr|vm_compute in Hg; discriminate Hg..].
Defined.
(** A store at the root of the file system refuses every reference it hands out. *)
Example root_store_refuses : pathForRef "/" "/" "local://a/b.json" = Err ErrEscapes.
Proof. vm_compute. reflexivity. Qed.
