(* ===== verification/MetaDomains.v ===== *)
(** Workflows, actors and models in the single-lock metadata store
    (internal/metadata/memory.go).

    Each is a map under the store's mutex, with an index by idempotency key; a
    workflow is cloned at the boundary, which may rebuild its runtime graph. *)
From S2P Require Import Prelude Bytes WorkflowState Actor Placement.

Open Scope Z_scope.

Record Domain (A : Type) := { dm_states : gmap string A; dm_byIdemKey : gmap string string }.
Arguments dm_states {A}.
Arguments dm_byIdemKey {A}.
Arguments Build_Domain {A}.
Definition empty_domain {A} : Domain A := {| dm_states := ∅; dm_byIdemKey := ∅ |}.

(** ** Operations common to workflows and actors *)
Section Domain.
Context {A : Type} (zero : A) (id_of key_of : A → string) (with_key : A → string → A) (touch : A → Z → A) (clone : A → A).

Definition put (d : Domain A) (id : string) (state : A) (key : string) : Domain A := {|
  dm_states := <[id := clone state]> (dm_states d);
  dm_byIdemKey := if str_empty key then dm_byIdemKey d else <[key := id]> (dm_byIdemKey d) |}.

Definition create_in (d : Domain A) (state : A) (idempotencyKey : string) : Domain A * (A * bool) :=
  match (if str_empty idempotencyKey then None else dm_byIdemKey d !! idempotencyKey) with
  | Some id => (d, (clone (default zero (dm_states d !! id)), true))
  | None =>
      let state := with_key state idempotencyKey in
      (put d (id_of state) state idempotencyKey, (clone state, false))
  end.

Definition get_in (d : Domain A) (id : string) : option A := clone <$> dm_states d !! id.

Definition get_by_key (d : Domain A) (idempotencyKey : string) : option A :=
  if str_empty idempotencyKey then None
  else id ← dm_byIdemKey d !! idempotencyKey; get_in d id.

Definition list_in (d : Domain A) (range : list string) : list A := omap (get_in d) range.

(** [fn] is applied to the stored state and the result is committed; no caller's [fn] fails. *)
Definition update_in (d : Domain A) (id : string) (fn : A → A) (now : Z) : Domain A * option A :=
  match dm_states d !! id with
  | None => (d, None)
  | Some state =>
      let state := touch (fn state) now in
      ({| dm_states := <[id := clone state]> (dm_states d); dm_byIdemKey := dm_byIdemKey d |}, Some (clone state))
  end.

Definition upsert_in (d : Domain A) (state : A) : Domain A := put d (id_of state) state (key_of state).
End Domain.

(** ** Workflows *)

Definition with_wsIdempotencyKey (s : WorkflowState) (key : string) : WorkflowState :=
  {| wsWorkflowID := wsWorkflowID s; wsWorkflowName := wsWorkflowName s; wsStatus := wsStatus s;
     wsDefinition := wsDefinition s; wsStepOrder := wsStepOrder s; wsResultJSON := wsResultJSON s;
     wsResultRef := wsResultRef s; wsError := wsError s; wsIdempotencyKey := key;
     wsIdempotencyFingerprint := wsIdempotencyFingerprint s; wsCreatedAtMs := wsCreatedAtMs s;
     wsUpdatedAtMs := wsUpdatedAtMs s; wsCompletedAtMs := wsCompletedAtMs s; wsDag := wsDag s |}.

Abbreviation Workflows := (Domain WorkflowState).
Definition CreateWorkflow : Workflows → WorkflowState → string → Workflows * (WorkflowState * bool) :=
  create_in zero_state wsWorkflowID with_wsIdempotencyKey CloneState.
(** A missing workflow reads as the clone of the zero state. *)
Definition GetWorkflow (d : Workflows) (id : string) : WorkflowState * bool :=
  match get_in CloneState d id with Some s => (s, true) | None => (CloneState zero_state, false) end.
Definition GetWorkflowByIdempotencyKey : Workflows → string → option WorkflowState := get_by_key CloneState.
Definition ListWorkflows : Workflows → list string → list WorkflowState := list_in CloneState.
Definition UpdateWorkflow : Workflows → string → (WorkflowState → WorkflowState) → Z → Workflows * option WorkflowState :=
  update_in with_UpdatedAtMs CloneState.
Definition UpsertWorkflow : Workflows → WorkflowState → Workflows := upsert_in wsWorkflowID wsIdempotencyKey CloneState.

(** ** Actors *)

Definition with_asIdempotencyKey (s : ActorState) (key : string) : ActorState :=
  {| asActorID := asActorID s; asClassName := asClassName s; asClassSource := asClassSource s;
     asInitArgsJSON := asInitArgsJSON s; asStatus := asStatus s; asOwnerWorkerID := asOwnerWorkerID s;
     asEpoch := asEpoch s; asCommandCount := asCommandCount s; asSubmittedCommandCount := asSubmittedCommandCount s;
     asSnapshotEvery := asSnapshotEvery s; asSnapshotRef := asSnapshotRef s;
     asSnapshotCommandCount := asSnapshotCommandCount s; asStateJSON := asStateJSON s; asIdempotencyKey := key;
     asIdempotencyFingerprint := asIdempotencyFingerprint s; asCreatedAtMs := asCreatedAtMs s;
     asUpdatedAtMs := asUpdatedAtMs s |}.
Definition with_asUpdatedAtMs (s : ActorState) (now : Z) : ActorState :=
  {| asActorID := asActorID s; asClassName := asClassName s; asClassSource := asClassSource s;
     asInitArgsJSON := asInitArgsJSON s; asStatus := asStatus s; asOwnerWorkerID := asOwnerWorkerID s;
     asEpoch := asEpoch s; asCommandCount := asCommandCount s; asSubmittedCommandCount := asSubmittedCommandCount s;
     asSnapshotEvery := asSnapshotEvery s; asSnapshotRef := asSnapshotRef s;
     asSnapshotCommandCount := asSnapshotCommandCount s; asStateJSON := asStateJSON s;
     asIdempotencyKey := asIdempotencyKey s; asIdempotencyFingerprint := asIdempotencyFingerprint s;
     asCreatedAtMs := asCreatedAtMs s; asUpdatedAtMs := now |}.
(** [cloneActor]: values are copied as they are. *)
Definition cloneActor (s : ActorState) : ActorState := s.

Abbreviation Actors := (Domain ActorState).
Definition CreateActor : Actors → ActorState → string → Actors * (ActorState * bool) :=
  create_in zero_actor asActorID with_asIdempotencyKey cloneActor.
Definition GetActor (d : Actors) (id : string) : ActorState * bool :=
  match get_in cloneActor d id with Some s => (s, true) | None => (cloneActor zero_actor, false) end.
Definition GetActorByIdempotencyKey : Actors → string → option ActorState := get_by_key cloneActor.
Definition ListActors : Actors → list string → list ActorState := list_in cloneActor.
Definition UpdateActor : Actors → string → (ActorState → ActorState) → Z → Actors * option ActorState :=
  update_in with_asUpdatedAtMs cloneActor.
Definition UpsertActor : Actors → ActorState → Actors := upsert_in asActorID asIdempotencyKey cloneActor.

(** ** Models *)

(** [logservepb.ModelInfo] *)
Record ModelInfo := { mi_Name : string; mi_Version : string; mi_SizeBytes : Z; mi_Path : string; mi_Adapter : string }.
Definition first_nonempty (a b : string) : string := if str_empty a then b else a.
Definition RegisterModel (models : gmap string ModelInfo) (m : ModelInfo) : gmap string ModelInfo * ModelInfo :=
  let clone := {| mi_Name := mi_Name m; mi_Version := first_nonempty (mi_Version m) "v1";
                  mi_SizeBytes := mi_SizeBytes m; mi_Path := mi_Path m;
                  mi_Adapter := first_nonempty (mi_Adapter m) "mock" |} in
  (<[ModelKey (mi_Name clone) (mi_Version clone) := clone]> models, clone).
Definition GetModel (models : gmap string ModelInfo) (name version : string) : option ModelInfo :=
  models !! ModelKey name (first_nonempty version "v1").
Definition ListModels (models : gmap string ModelInfo) (range : list string) : list ModelInfo := omap (models !!.) range.

(** ** Laws *)

Section Laws.
Context {A : Type} (zero : A) (id_of key_of : A → string) (with_key : A → string → A) (touch : A → Z → A) (clone : A → A).

Lemma get_update d id fn now id' :
  get_in clone (update_in touch clone d id fn now).1 id' =
  if decide (id' = id) then clone <$> (clone <$> ((λ s, touch (fn s) now) <$> dm_states d !! id)) else get_in clone d id'.
Proof.
  unfold update_in, get_in. destruct (dm_states d !! id) as [s|] eqn:Hs; case_decide as Hid; subst; cbn.
  - by rewrite lookup_insert_eq.
  - by rewrite lookup_insert_ne by done.
  - by rewrite Hs.
  - done.
Qed.

Lemma get_put d id s key id' :
  get_in clone (put clone d id s key) id' = if decide (id' = id) then Some (clone (clone s)) else get_in clone d id'.
Proof. unfold put, get_in. cbn. case_decide; subst; [by rewrite lookup_insert_eq|by rewrite lookup_insert_ne]. Qed.

(** A repeated creation answers with the state stored under the key. *)
Lemma create_twice d s s' key :
  key ≠ EmptyString → dm_byIdemKey d !! key = None →
  let d' := (create_in zero id_of with_key clone d s key).1 in
  (create_in zero id_of with_key clone d' s' key) =
  (d', (clone (default zero (dm_states d' !! id_of (with_key s key))), true)).
Proof.
  intros Hk Hn. unfold create_in. rewrite (proj2 (str_empty_false key) Hk), Hn. cbn.
  rewrite (proj2 (str_empty_false key) Hk). by rewrite lookup_insert_eq.
Qed.
End Laws.
