(* ===== verification/WorkflowArgs.v ===== *)
(** Step arguments: internal/workflow/args.go.  A reference object in a step's
    arguments stands for the result of another step.

    JSON and SHA-256 come from [ArgsLib]. *)
From S2P Require Import Prelude Bytes TaskSpec WorkflowDef WorkflowState.

Open Scope Z_scope.

(** A decoded JSON value; numbers are kept as text, an object's keys are distinct. *)
Inductive json :=
| JNull
| JBool (b : bool)
| JNumber (text : string)
| JString (s : string)
| JArray (l : list json)
| JObject (entries : list (string * json)).

Class ArgsLib := {
  args_Unmarshal : bytes → option json;
  args_Marshal : json → option bytes;
  args_Sum256 : bytes → bytes
}.

Inductive args_error := ErrArgsJSON | ErrRefNotString | ErrRefNotFound | ErrNoLoader | ErrLoadRef.

Definition refKey : string := "__step_ref__".

Section Args.
Context `{ArgsLib}.

(** [decodeJSON] *)
Definition decodeJSON (data : bytes) : result args_error json :=
  match data with
  | [] => Ok JNull
  | _ => match args_Unmarshal data with None => Err ErrArgsJSON | Some v => Ok v end
  end.

(** What a reference to [ref] stands for. *)
Definition resolve_ref (ref : json) (state : WorkflowState) (loader : option (string → option bytes)) : result args_error json :=
  match ref with
  | JString stepID =>
      match Step state stepID with
      | None => Err ErrRefNotFound
      | Some step =>
          match ssResultJSON step, str_empty (ssResultRef step) with
          | [], false =>
              match loader with
              | None => Err ErrNoLoader
              | Some load => match load (ssResultRef step) with None => Err ErrLoadRef | Some data => decodeJSON data end
              end
          | data, _ => decodeJSON data
          end
      end
  | _ => Err ErrRefNotString
  end.

(** [resolveValue]; the first error in an array stops it, an object's entries are
    visited in the order of the list. *)
Fixpoint resolveValue (value : json) (state : WorkflowState) (loader : option (string → option bytes)) :
    result args_error json :=
  match value with
  | JArray l =>
      out ← (fix go l := match l with
                         | [] => Ok []
                         | item :: l => resolved ← resolveValue item state loader; out ← go l; Ok (resolved :: out)
                         end) l;
      Ok (JArray out)
  | JObject entries =>
      match entries with
      | [(k, ref)] => if decide (k = refKey) then resolve_ref ref state loader
                      else resolved ← resolveValue ref state loader; Ok (JObject [(k, resolved)])
      | _ =>
          out ← (fix go l := match l with
                             | [] => Ok []
                             | (k, v) :: l => resolved ← resolveValue v state loader; out ← go l; Ok ((k, resolved) :: out)
                             end) entries;
          Ok (JObject out)
      end
  | _ => Ok value
  end.

(** [ResolveArgs]: the canonical text and its hash. *)
Definition ResolveArgs (step : StepDefinition) (state : WorkflowState) (loader : option (string → option bytes)) :
    result args_error (bytes * string) :=
  value ← (match sdArgsJSON step with
           | [] => Ok (JObject [("args", JArray []); ("kwargs", JObject [])])
           | data => match args_Unmarshal data with None => Err ErrArgsJSON | Some v => Ok v end
           end);
  resolved ← resolveValue value state loader;
  match args_Marshal resolved with
  | None => Err ErrArgsJSON
  | Some data => Ok (data, hex_EncodeToString (args_Sum256 data))
  end.

(** [ResolveCachedArgs] *)
Definition ResolveCachedArgs (step : StepDefinition) (stepState : StepState) (state : WorkflowState)
    (loader : option (string → option bytes)) : result args_error (bytes * string) :=
  if negb (str_empty (ssLastInputHash stepState)) && negb (bool_decide (ssResolvedArgsJSON stepState = []))
  then Ok (ssResolvedArgsJSON stepState, ssLastInputHash stepState)
  else ResolveArgs step state loader.
End Args.
