(* ===== verification/ServiceState.v ===== *)
(** The control service's state and the effects its handlers use
    (internal/control/service.go, log_read.go, actor.go, hardening.go).

    A handler is a function on the state that may block for ever ([None]), fail
    keeping the changes made so far, or return ([M]).  What it cannot know comes
    from [Env]: clock readings, random identifiers, the outcome of log appends and
    of object-store writes, the order of ranges over maps.  The log server is the
    abstract log that [LogTheorems] proves the log store to be: appends at the end
    of a stream, an idempotency key answered with the earlier record, a trim mark. *)
From S2P Require Import Prelude Bytes LogRecord EventCodec TaskSpec MetaStore TaskReplay Placement Scheduler WorkerStore WorkflowDef WorkflowState WorkflowReplay Actor MetaDomains WorkflowArgs.

Open Scope Z_scope.

(** ** State *)

(** [functionRegisteredPayload] *)
Record functionRegisteredPayload := {
  fp_FunctionHash : string; fp_SourceRef : string; fp_Language : string; fp_Entrypoint : string; fp_TimestampMs : Z
}.

(** [llmStatsKey] *)
Record llmStatsKey := { lk_modelName : string; lk_modelVersion : string; lk_workerID : string }.
#[export] Instance llmStatsKey_eq_dec : EqDecision llmStatsKey.
Proof. solve_decision. Defined.
#[export] Instance llmStatsKey_countable : Countable llmStatsKey.
Proof.
  apply (inj_countable (λ k, (lk_modelName k, lk_modelVersion k, lk_workerID k))
    (λ '(a, b, c), Some {| lk_modelName := a; lk_modelVersion := b; lk_workerID := c |})). by intros [].
Defined.

(** [logservepb.SchedulingPolicy] *)
Definition SCHEDULING_POLICY_RESOURCE_ONLY : Z := 1.
Definition SCHEDULING_POLICY_LOCALITY_AWARE : Z := 2.
Definition SCHEDULING_POLICY_PREDICTED_LATENCY : Z := 3.

(** The fields under [configMu] and those fixed at start; durations in nanoseconds. *)
Record Config := {
  cf_schedulerV2 : bool;
  cf_schedulingPolicy : Z;
  cf_queueHighWatermark : Z;
  cf_redeliveryTimeout : Z;
  cf_logAppendSlowLimit : Z;
  cf_resultInlineThreshold : Z;
  cf_resultStore : bool
}.

(** [Service]; [s.meta] is the in-memory store, [sv_log] to [sv_objects] are the
    log server and the object store.  [sv_tick] counts the uses of [Env]. *)
Record Service := {
  sv_meta : MemoryStore;
  sv_actors : Actors;
  sv_workflows : Workflows;
  sv_workers : WorkerStore.Legacy.store;
  sv_models : gmap string ModelInfo;
  sv_log : list RawRecord;
  sv_trims : gmap string Z;
  sv_objects : gmap string bytes;
  sv_queue : list string;
  sv_scheduler : Scheduler;
  sv_specs : gmap string TaskSpec;
  sv_functions : gmap string functionRegisteredPayload;
  sv_llmStats : gmap llmStatsKey llmWorkerStats;
  sv_config : Config;
  sv_lastLogAppendMs : Z;
  sv_tick : nat
}.

Definition set_meta (x : MemoryStore) (s : Service) : Service :=
  {| sv_meta := x; sv_actors := sv_actors s; sv_workflows := sv_workflows s; sv_workers := sv_workers s;
     sv_models := sv_models s; sv_log := sv_log s; sv_trims := sv_trims s; sv_objects := sv_objects s;
     sv_queue := sv_queue s; sv_scheduler := sv_scheduler s; sv_specs := sv_specs s; sv_functions := sv_functions s;
     sv_llmStats := sv_llmStats s; sv_config := sv_config s; sv_lastLogAppendMs := sv_lastLogAppendMs s;
     sv_tick := sv_tick s |}.
Definition set_actors (x : Actors) (s : Service) : Service :=
  {| sv_meta := sv_meta s; sv_actors := x; sv_workflows := sv_workflows s; sv_workers := sv_workers s;
     sv_models := sv_models s; sv_log := sv_log s; sv_trims := sv_trims s; sv_objects := sv_objects s;
     sv_queue := sv_queue s; sv_scheduler := sv_scheduler s; sv_specs := sv_specs s; sv_functions := sv_functions s;
     sv_llmStats := sv_llmStats s; sv_config := sv_config s; sv_lastLogAppendMs := sv_lastLogAppendMs s;
     sv_tick := sv_tick s |}.
Definition set_workflows (x : Workflows) (s : Service) : Service :=
  {| sv_meta := sv_meta s; sv_actors := sv_actors s; sv_workflows := x; sv_workers := sv_workers s;
     sv_models := sv_models s; sv_log := sv_log s; sv_trims := sv_trims s; sv_objects := sv_objects s;
     sv_queue := sv_queue s; sv_scheduler := sv_scheduler s; sv_specs := sv_specs s; sv_functions := sv_functions s;
     sv_llmStats := sv_llmStats s; sv_config := sv_config s; sv_lastLogAppendMs := sv_lastLogAppendMs s;
     sv_tick := sv_tick s |}.
Definition set_workers (x : WorkerStore.Legacy.store) (s : Service) : Service :=
  {| sv_meta := sv_meta s; sv_actors := sv_actors s; sv_workflows := sv_workflows s; sv_workers := x;
     sv_models := sv_models s; sv_log := sv_log s; sv_trims := sv_trims s; sv_objects := sv_objects s;
     sv_queue := sv_queue s; sv_scheduler := sv_scheduler s; sv_specs := sv_specs s; sv_functions := sv_functions s;
     sv_llmStats := sv_llmStats s; sv_config := sv_config s; sv_lastLogAppendMs := sv_lastLogAppendMs s;
     sv_tick := sv_tick s |}.
Definition set_models (x : gmap string ModelInfo) (s : Service) : Service :=
  {| sv_meta := sv_meta s; sv_actors := sv_actors s; sv_workflows := sv_workflows s; sv_workers := sv_workers s;
     sv_models := x; sv_log := sv_log s; sv_trims := sv_trims s; sv_objects := sv_objects s; sv_queue := sv_queue s;
     sv_scheduler := sv_scheduler s; sv_specs := sv_specs s; sv_functions := sv_functions s;
     sv_llmStats := sv_llmStats s; sv_config := sv_config s; sv_lastLogAppendMs := sv_lastLogAppendMs s;
     sv_tick := sv_tick s |}.
Definition set_log (x : list RawRecord) (s : Service) : Service :=
  {| sv_meta := sv_meta s; sv_actors := sv_actors s; sv_workflows := sv_workflows s; sv_workers := sv_workers s;
     sv_models := sv_models s; sv_log := x; sv_trims := sv_trims s; sv_objects := sv_objects s; sv_queue := sv_queue s;
     sv_scheduler := sv_scheduler s; sv_specs := sv_specs s; sv_functions := sv_functions s;
     sv_llmStats := sv_llmStats s; sv_config := sv_config s; sv_lastLogAppendMs := sv_lastLogAppendMs s;
     sv_tick := sv_tick s |}.
Definition set_trims (x : gmap string Z) (s : Service) : Service :=
  {| sv_meta := sv_meta s; sv_actors := sv_actors s; sv_workflows := sv_workflows s; sv_workers := sv_workers s;
     sv_models := sv_models s; sv_log := sv_log s; sv_trims := x; sv_objects := sv_objects s; sv_queue := sv_queue s;
     sv_scheduler := sv_scheduler s; sv_specs := sv_specs s; sv_functions := sv_functions s;
     sv_llmStats := sv_llmStats s; sv_config := sv_config s; sv_lastLogAppendMs := sv_lastLogAppendMs s;
     sv_tick := sv_tick s |}.
Definition set_objects (x : gmap string bytes) (s : Service) : Service :=
  {| sv_meta := sv_meta s; sv_actors := sv_actors s; sv_workflows := sv_workflows s; sv_workers := sv_workers s;
     sv_models := sv_models s; sv_log := sv_log s; sv_trims := sv_trims s; sv_objects := x; sv_queue := sv_queue s;
     sv_scheduler := sv_scheduler s; sv_specs := sv_specs s; sv_functions := sv_functions s;
     sv_llmStats := sv_llmStats s; sv_config := sv_config s; sv_lastLogAppendMs := sv_lastLogAppendMs s;
     sv_tick := sv_tick s |}.
Definition set_queue (x : list string) (s : Service) : Service :=
  {| sv_meta := sv_meta s; sv_actors := sv_actors s; sv_workflows := sv_workflows s; sv_workers := sv_workers s;
     sv_models := sv_models s; sv_log := sv_log s; sv_trims := sv_trims s; sv_objects := sv_objects s; sv_queue := x;
     sv_scheduler := sv_scheduler s; sv_specs := sv_specs s; sv_functions := sv_functions s;
     sv_llmStats := sv_llmStats s; sv_config := sv_config s; sv_lastLogAppendMs := sv_lastLogAppendMs s;
     sv_tick := sv_tick s |}.
Definition set_scheduler (x : Scheduler) (s : Service) : Service :=
  {| sv_meta := sv_meta s; sv_actors := sv_actors s; sv_workflows := sv_workflows s; sv_workers := sv_workers s;
     sv_models := sv_models s; sv_log := sv_log s; sv_trims := sv_trims s; sv_objects := sv_objects s;
     sv_queue := sv_queue s; sv_scheduler := x; sv_specs := sv_specs s; sv_functions := sv_functions s;
     sv_llmStats := sv_llmStats s; sv_config := sv_config s; sv_lastLogAppendMs := sv_lastLogAppendMs s;
     sv_tick := sv_tick s |}.
Definition set_specs (x : gmap string TaskSpec) (s : Service) : Service :=
  {| sv_meta := sv_meta s; sv_actors := sv_actors s; sv_workflows := sv_workflows s; sv_workers := sv_workers s;
     sv_models := sv_models s; sv_log := sv_log s; sv_trims := sv_trims s; sv_objects := sv_objects s;
     sv_queue := sv_queue s; sv_scheduler := sv_scheduler s; sv_specs := x; sv_functions := sv_functions s;
     sv_llmStats := sv_llmStats s; sv_config := sv_config s; sv_lastLogAppendMs := sv_lastLogAppendMs s;
     sv_tick := sv_tick s |}.
Definition set_functions (x : gmap string functionRegisteredPayload) (s : Service) : Service :=
  {| sv_meta := sv_meta s; sv_actors := sv_actors s; sv_workflows := sv_workflows s; sv_workers := sv_workers s;
     sv_models := sv_models s; sv_log := sv_log s; sv_trims := sv_trims s; sv_objects := sv_objects s;
     sv_queue := sv_queue s; sv_scheduler := sv_scheduler s; sv_specs := sv_specs s; sv_functions := x;
     sv_llmStats := sv_llmStats s; sv_config := sv_config s; sv_lastLogAppendMs := sv_lastLogAppendMs s;
     sv_tick := sv_tick s |}.
Definition set_llmStats (x : gmap llmStatsKey llmWorkerStats) (s : Service) : Service :=
  {| sv_meta := sv_meta s; sv_actors := sv_actors s; sv_workflows := sv_workflows s; sv_workers := sv_workers s;
     sv_models := sv_models s; sv_log := sv_log s; sv_trims := sv_trims s; sv_objects := sv_objects s;
     sv_queue := sv_queue s; sv_scheduler := sv_scheduler s; sv_specs := sv_specs s; sv_functions := sv_functions s;
     sv_llmStats := x; sv_config := sv_config s; sv_lastLogAppendMs := sv_lastLogAppendMs s; sv_tick := sv_tick s |}.
Definition set_config (x : Config) (s : Service) : Service :=
  {| sv_meta := sv_meta s; sv_actors := sv_actors s; sv_workflows := sv_workflows s; sv_workers := sv_workers s;
     sv_models := sv_models s; sv_log := sv_log s; sv_trims := sv_trims s; sv_objects := sv_objects s;
     sv_queue := sv_queue s; sv_scheduler := sv_scheduler s; sv_specs := sv_specs s; sv_functions := sv_functions s;
     sv_llmStats := sv_llmStats s; sv_config := x; sv_lastLogAppendMs := sv_lastLogAppendMs s; sv_tick := sv_tick s |}.
Definition set_lastLogAppendMs (x : Z) (s : Service) : Service :=
  {| sv_meta := sv_meta s; sv_actors := sv_actors s; sv_workflows := sv_workflows s; sv_workers := sv_workers s;
     sv_models := sv_models s; sv_log := sv_log s; sv_trims := sv_trims s; sv_objects := sv_objects s;
     sv_queue := sv_queue s; sv_scheduler := sv_scheduler s; sv_specs := sv_specs s; sv_functions := sv_functions s;
     sv_llmStats := sv_llmStats s; sv_config := sv_config s; sv_lastLogAppendMs := x; sv_tick := sv_tick s |}.
Definition set_tick (x : nat) (s : Service) : Service :=
  {| sv_meta := sv_meta s; sv_actors := sv_actors s; sv_workflows := sv_workflows s; sv_workers := sv_workers s;
     sv_models := sv_models s; sv_log := sv_log s; sv_trims := sv_trims s; sv_objects := sv_objects s;
     sv_queue := sv_queue s; sv_scheduler := sv_scheduler s; sv_specs := sv_specs s; sv_functions := sv_functions s;
     sv_llmStats := sv_llmStats s; sv_config := sv_config s; sv_lastLogAppendMs := sv_lastLogAppendMs s; sv_tick := x |}.

(** [NewServiceWithResultStore] *)
Definition NewService (schedulerV2 : bool) (threshold : Z) : Service := {|
  sv_meta := NewLegacyMemoryStore; sv_actors := empty_domain; sv_workflows := empty_domain; sv_workers := ∅; sv_models := ∅;
  sv_log := []; sv_trims := ∅; sv_objects := ∅; sv_queue := []; sv_scheduler := newScheduler; sv_specs := ∅;
  sv_functions := ∅; sv_llmStats := ∅;
  sv_config := {| cf_schedulerV2 := schedulerV2; cf_schedulingPolicy := SCHEDULING_POLICY_LOCALITY_AWARE;
                  cf_queueHighWatermark := 1024; cf_redeliveryTimeout := 30000000000; cf_logAppendSlowLimit := 0;
                  cf_resultInlineThreshold := if threshold <=? 0 then 4096 else threshold; cf_resultStore := true |};
  sv_lastLogAppendMs := 0; sv_tick := 0 |}.

(** ** Handlers *)

Inductive svc_error :=
| ErrSvcStore (e : store_error)
| ErrSvcIdempotency (e : idempotency_error)
| ErrSvcPayload
| ErrSvcAppend
| ErrSvcObjectStore
| ErrSvcBackpressureLog
| ErrSvcBackpressureQueue
| ErrSvcCompleteStatus
| ErrSvcFunction
| ErrSvcActorNotFound
| ErrSvcStaleActor
| ErrSvcActorOrder
| ErrSvcSpecNotFound
| ErrSvcNoActiveActorWorker
| ErrSvcWorkflowNotFound
| ErrSvcStepNotFound
| ErrSvcArgs (e : args_error)
| ErrSvcWorkerRequired
| ErrSvcTaskNotFound
| ErrSvcNameRequired
| ErrSvcReplay.

Definition M (A : Type) : Type := Service → option (Service * result svc_error A).
#[export] Instance M_ret : MRet M := λ A a s, Some (s, Ok a).
#[export] Instance M_bind : MBind M := λ A B f m s,
  match m s with
  | None => None
  | Some (s, Err e) => Some (s, Err e)
  | Some (s, Ok a) => f a s
  end.
Definition gets {A} (f : Service → A) : M A := λ s, Some (s, Ok (f s)).
Definition modify (f : Service → Service) : M unit := λ s, Some (f s, Ok ()).
Definition throw {A} (e : svc_error) : M A := λ s, Some (s, Err e).
(** A result of the environment, its error mapped. *)
Definition of_result {E A} (f : E → svc_error) (r : result E A) : M A :=
  match r with Ok a => mret a | Err e => throw (f e) end.
(** [v, err := m]: the error is a value. *)
Definition try {A} (m : M A) : M (result svc_error A) := λ s,
  match m s with None => None | Some (s, r) => Some (s, Ok r) end.
Fixpoint for_each {A} (l : list A) (f : A → M unit) : M unit :=
  match l with [] => mret () | x :: l => _ ← f x; for_each l f end.

(** ** The environment *)

Class Env := {
  env_nanos : nat → Z;
  env_elapsed : nat → Z;
  env_append : nat → bool;
  env_put : nat → option string;
  env_fresh : nat → string;
  env_stamp : nat → string;
  env_order : nat → list string → list string;
  env_order_perm : ∀ n l, env_order n l ≡ₚ l
}.

Section Effects.
Context `{Env}.

Definition ticked {A} (f : nat → A) : M A := λ s, Some (set_tick (S (sv_tick s)) s, Ok (f (sv_tick s))).
(** [time.Now()] in nanoseconds and as [UnixMilli], and a formatted nanosecond time *)
Definition nowNanos : M Z := ticked env_nanos.
Definition now : M Z := ticked (λ n, env_nanos n / 1000000).
Definition stamp : M string := ticked env_stamp.
(** [randomHex] *)
Definition fresh_id : M string := ticked env_fresh.

(** ** The log server *)

Record AppendLogRequest := { al_StreamId : string; al_EventType : string; al_IdempotencyKey : string; al_Payload : bytes }.

Definition stream (log : list RawRecord) (id : string) : list RawRecord := filter (λ r, raw_StreamID r = id) log.
Definition find_key (log : list RawRecord) (id key : string) : option RawRecord :=
  if str_empty key then None
  else snd <$> list_find (λ r, raw_StreamID r = id ∧ raw_IdempotencyKey r = key) log.
Definition new_record (log : list RawRecord) (req : AppendLogRequest) (ts : Z) : RawRecord := {|
  raw_StreamID := al_StreamId req; raw_Seq := Z.of_nat (length (stream log (al_StreamId req))) + 1;
  raw_EventType := al_EventType req; raw_IdempotencyKey := al_IdempotencyKey req; raw_Payload := al_Payload req;
  raw_TimestampMs := ts; raw_CRC32 := 0 |}.
Definition log_append (log : list RawRecord) (req : AppendLogRequest) (ts : Z) : list RawRecord * RawRecord :=
  match find_key log (al_StreamId req) (al_IdempotencyKey req) with
  | Some r => (log, r)
  | None => (log ++ [new_record log req ts], new_record log req ts)
  end.
(** Records of a stream from [fromSeq] on, above the trim mark. *)
Definition read_stream (s : Service) (id : string) (fromSeq : Z) : list RawRecord :=
  filter (λ r, fromSeq <= raw_Seq r ∧ default 0 (sv_trims s !! id) <= raw_Seq r) (stream (sv_log s) id).
Definition stream_ids (log : list RawRecord) : list string := merge_sort String.le (remove_dups (raw_StreamID <$> log)).

(** [appendLog]: a failed append leaves the log as it was. *)
Definition appendLog (req : AppendLogRequest) : M RawRecord :=
  elapsed ← ticked env_elapsed;
  ts ← now;
  ok ← ticked env_append;
  _ ← modify (set_lastLogAppendMs (if elapsed =? 0 then 1 else elapsed));
  if ok : bool then
    s ← gets id;
    let (log, rec) := log_append (sv_log s) req ts in
    _ ← modify (set_log log);
    mret rec
  else throw ErrSvcAppend.

(** [TrimStream] *)
Definition trimStream (id : string) (beforeSeq : Z) : M unit :=
  modify (λ s, set_trims (<[id := Z.max (default 0 (sv_trims s !! id))
    (Z.min beforeSeq (Z.of_nat (length (stream (sv_log s) id)) + 1))]> (sv_trims s)) s).

(** [forEachRawLogRecord], the whole of it. *)
Definition forEachRawLogRecord (id : string) (fromSeq : Z) : M (list RawRecord) :=
  gets (λ s, read_stream s id (if fromSeq =? 0 then 1 else fromSeq)).
Definition listStreams (prefix : string) : M (list string) :=
  gets (λ s, filter (λ id, has_prefix prefix id = true) (stream_ids (sv_log s))).

Definition taskStream (taskID : string) : string := "task:" +:+ taskID.
Definition workflowStream (workflowID : string) : string := "wf:" +:+ workflowID.
Definition actorStream (actorID : string) : string := "actor:" +:+ actorID.
Definition llmStream (taskID : string) : string := "llm:" +:+ taskID.

(** ** The object store *)

Definition putBytes (data : bytes) : M string :=
  ref ← ticked env_put;
  match ref with
  | None => throw ErrSvcObjectStore
  | Some ref => _ ← modify (λ s, set_objects (<[ref := data]> (sv_objects s)) s); mret ref
  end.
(** [LoadResult] *)
Definition LoadResult (s : Service) (ref : string) : option bytes :=
  if cf_resultStore (sv_config s) then sv_objects s !! ref else None.

(** ** Metadata calls *)

(** A call on a part of the state. *)
Definition on {S A} (get : Service → S) (set : S → Service → Service) (f : S → S * A) : M A := λ s,
  let (x, a) := f (get s) in Some (set x s, Ok a).

(** [metadataPersisted]: the in-memory stores report no persistence error. *)
Definition metadataPersisted : M unit := mret ().

Definition getTask (taskID : string) : M (Task * bool) := gets (λ s, GetTask (sv_meta s) taskID).
Definition getWorker (workerID : string) : M (workerInfo * bool) := gets (λ s, WorkerStore.Legacy.GetWorker (sv_workers s) workerID).
Definition leaseTask (taskID workerID : string) : M Task :=
  t ← now; r ← on sv_meta set_meta (λ m, LeaseTask m taskID workerID t); of_result ErrSvcStore r.
Definition updateActor (id : string) (fn : ActorState → ActorState) : M ActorState :=
  t ← now;
  r ← on sv_actors set_actors (λ d, UpdateActor d id fn t);
  match r with None => throw ErrSvcActorNotFound | Some a => mret a end.
Definition updateWorkflow (id : string) (fn : WorkflowState → WorkflowState) : M WorkflowState :=
  t ← now;
  r ← on sv_workflows set_workflows (λ d, UpdateWorkflow d id fn t);
  match r with None => throw ErrSvcWorkflowNotFound | Some a => mret a end.
Definition activeWorkers (maxAge : Z) : M (list workerInfo) :=
  t ← now;
  s ← gets id;
  range ← ticked (λ n, env_order n (elements (dom (sv_workers s))));
  mret (WorkerStore.Legacy.ActiveWorkers (sv_workers s) maxAge t range).
Definition incrementWorkerLoad (workerID : string) : M unit :=
  t ← now; modify (λ s, set_workers (WorkerStore.Legacy.IncrementWorkerLoad (sv_workers s) workerID t) s).
Definition decrementWorkerLoad (workerID : string) : M unit :=
  modify (λ s, set_workers (WorkerStore.Legacy.DecrementWorkerLoad (sv_workers s) workerID) s).

(** ** The scheduler's mutex

    [sync.Mutex] is not reentrant: a call while [held] never returns. *)
Definition locked {A} (held : bool) (f : Scheduler → Scheduler * A) : M A := λ s,
  if held then None else let (x, a) := f (sv_scheduler s) in Some (set_scheduler x s, Ok a).
Definition schedule (f : Scheduler → Scheduler) : M unit := locked false (λ s, (f s, ())).
End Effects.
