(* ===== verification/ControlTasks.v ===== *)
(** Tasks in the control service: submission, function registration, dispatch to
    polling workers and redelivery of expired leases
    (internal/control/service.go, functions.go, llm.go, hardening.go).

    The scheduler of [NewService] is never nil, so the branches for a nil scheduler
    are left out; wake-ups of long polls ([notifyTaskAvailable]) have no state here. *)
From S2P Require Import Prelude Bytes LogRecord EventCodec TaskSpec MetaStore TaskReplay Placement Scheduler WorkerStore WorkflowDef WorkflowState WorkflowReplay Actor MetaDomains WorkflowArgs ServiceState.

Open Scope Z_scope.

(** [json.Marshal] and [json.Unmarshal] of a registry payload *)
Class RegistryJSON := {
  json_Registered : functionRegisteredPayload → option bytes;
  json_RegisteredPayload : bytes → option functionRegisteredPayload
}.

(** [strings.TrimSpace] *)
Definition TrimSpace (s : string) : string := bytes_str (trim_space (str_bytes s)).

Section Tasks.
Context `{Env, MsgpackLib, TaskCodecLib, FingerprintLib, RegistryJSON}.

(** ** The function registry *)

Fixpoint has_colon (s : string) : bool :=
  match s with EmptyString => false | String.String c s => Ascii.eqb c (Ascii.ascii_of_nat 58) || has_colon s end.
Definition functionEntrypoint (name : string) : string :=
  let name := TrimSpace name in
  if str_empty name || has_colon name then name else "module:" +:+ name.

Definition functionRegistryStream : string := "system:functions".

(** [ensureFunctionRegistered]: the reference and the hash. *)
Definition ensureFunctionRegistered (entrypoint source requestedRef requestedHash : string) : M (string * string) :=
  let requestedRef := TrimSpace requestedRef in
  let requestedHash := TrimSpace requestedHash in
  if str_empty source && str_empty requestedRef && str_empty requestedHash then throw ErrSvcFunction
  else
    let computed := hashFunctionSource source in
    if negb (str_empty source) && negb (str_empty requestedHash) && negb (bool_decide (requestedHash = computed))
    then throw ErrSvcFunction
    else
      let hash := if str_empty source then requestedHash else computed in
      if str_empty hash then throw ErrSvcFunction
      else
        registered ← gets (λ s, sv_functions s !! hash);
        match registered with
        | Some p => mret (fp_SourceRef p, hash)
        | None =>
            ref ← (if negb (str_empty requestedRef) then mret requestedRef
                   else if str_empty source then throw ErrSvcFunction
                   else putBytes (str_bytes source));
            t ← now;
            let payload := {| fp_FunctionHash := hash; fp_SourceRef := ref; fp_Language := "python";
                              fp_Entrypoint := functionEntrypoint entrypoint; fp_TimestampMs := t |} in
            match json_Registered payload with
            | None => throw ErrSvcPayload
            | Some data =>
                _ ← appendLog {| al_StreamId := functionRegistryStream; al_EventType := "FunctionRegistered";
                                 al_IdempotencyKey := hash +:+ ":registered"; al_Payload := data |};
                _ ← modify (λ s, set_functions (<[hash := payload]> (sv_functions s)) s);
                mret (ref, hash)
            end
        end.

Definition with_function (spec : TaskSpec) (source ref hash : string) : TaskSpec := {|
  ts_TaskId := ts_TaskId spec; ts_TaskName := ts_TaskName spec; ts_FunctionName := ts_FunctionName spec;
  ts_FunctionSource := source; ts_FunctionRef := ref; ts_FunctionHash := hash; ts_ArgsJson := ts_ArgsJson spec;
  ts_IdempotencyKey := ts_IdempotencyKey spec; ts_WorkflowId := ts_WorkflowId spec; ts_StepId := ts_StepId spec;
  ts_TargetWorkerId := ts_TargetWorkerId spec; ts_ActorId := ts_ActorId spec; ts_ActorCallId := ts_ActorCallId spec;
  ts_ActorClassName := ts_ActorClassName spec; ts_ActorClassSource := ts_ActorClassSource spec;
  ts_ActorMethod := ts_ActorMethod spec; ts_ActorStateJson := ts_ActorStateJson spec;
  ts_ActorInitArgsJson := ts_ActorInitArgsJson spec; ts_ActorEpoch := ts_ActorEpoch spec;
  ts_LlmModelName := ts_LlmModelName spec; ts_LlmModelVersion := ts_LlmModelVersion spec;
  ts_LlmAdapter := ts_LlmAdapter spec; ts_LlmMaxTokens := ts_LlmMaxTokens spec; ts_TimeoutMs := ts_TimeoutMs spec;
  ts_TaskLeaseEpoch := ts_TaskLeaseEpoch spec |}.
Definition with_TaskId (spec : TaskSpec) (id : string) : TaskSpec := {|
  ts_TaskId := id; ts_TaskName := ts_TaskName spec; ts_FunctionName := ts_FunctionName spec;
  ts_FunctionSource := ts_FunctionSource spec; ts_FunctionRef := ts_FunctionRef spec;
  ts_FunctionHash := ts_FunctionHash spec; ts_ArgsJson := ts_ArgsJson spec;
  ts_IdempotencyKey := ts_IdempotencyKey spec; ts_WorkflowId := ts_WorkflowId spec; ts_StepId := ts_StepId spec;
  ts_TargetWorkerId := ts_TargetWorkerId spec; ts_ActorId := ts_ActorId spec; ts_ActorCallId := ts_ActorCallId spec;
  ts_ActorClassName := ts_ActorClassName spec; ts_ActorClassSource := ts_ActorClassSource spec;
  ts_ActorMethod := ts_ActorMethod spec; ts_ActorStateJson := ts_ActorStateJson spec;
  ts_ActorInitArgsJson := ts_ActorInitArgsJson spec; ts_ActorEpoch := ts_ActorEpoch spec;
  ts_LlmModelName := ts_LlmModelName spec; ts_LlmModelVersion := ts_LlmModelVersion spec;
  ts_LlmAdapter := ts_LlmAdapter spec; ts_LlmMaxTokens := ts_LlmMaxTokens spec; ts_TimeoutMs := ts_TimeoutMs spec;
  ts_TaskLeaseEpoch := ts_TaskLeaseEpoch spec |}.

(** [normalizeTaskFunction] *)
Definition normalizeTaskFunction (spec : TaskSpec) : M TaskSpec :=
  if negb (requiresPythonFunction spec) then mret spec
  else
    '(ref, hash) ← ensureFunctionRegistered (ts_FunctionName spec) (ts_FunctionSource spec) (ts_FunctionRef spec) (ts_FunctionHash spec);
    mret (with_function spec "" ref hash).

(** [bootstrapFunctions] *)
Definition bootstrapFunctions : M unit :=
  records ← forEachRawLogRecord functionRegistryStream 1;
  for_each records (λ rec,
    if negb (bool_decide (raw_EventType rec = "FunctionRegistered")) then mret ()
    else
      match json_RegisteredPayload (raw_Payload rec) with
      | None => throw ErrSvcReplay
      | Some p =>
          if str_empty (fp_FunctionHash p) || str_empty (fp_SourceRef p) then mret ()
          else modify (λ s, set_functions (<[fp_FunctionHash p := p]> (sv_functions s)) s)
      end).

(** ** Scheduler glue *)

Definition useSchedulerV2 : M bool := gets (λ s, cf_schedulerV2 (sv_config s)).

(** [schedulerMetaFromTask]; the kind is set on entry to the scheduler. *)
Definition schedulerMetaFromTask (task : Task) : SchedMeta := {|
  sm_TaskID := tk_TaskID task; sm_TaskType := TaskKindGeneral; sm_TargetWorker := tk_TargetWorkerID task;
  sm_ActorID := tk_ActorID task; sm_CommandSeq := tk_ActorCommandSeq task; sm_ModelName := tk_LLMModelName task;
  sm_ModelVersion := tk_LLMModelVersion task; sm_CreatedAtMs := tk_CreatedAtMs task;
  sm_LeaseEpoch := tk_TaskLeaseEpoch task; sm_RunningWorker := tk_WorkerID task |}.

Definition schedulerLeaseDeadlineMs (task : Task) (timeout : Z) : Z :=
  if (timeout <=? 0) || (tk_UpdatedAtMs task =? 0) then 0
  else i64 (tk_UpdatedAtMs task + Milliseconds timeout).

Definition schedulerWorkerLease : Z := 5000000000.
Definition syncActiveSchedulerWorkers (held : bool) : M unit :=
  workers ← activeWorkers schedulerWorkerLease;
  for_each workers (λ w, locked held (λ sc, (Scheduler_UpsertWorker sc (wi_worker w), ()))).
Definition hydrateSchedulerWorkersIfNeeded : M unit :=
  count ← locked false (λ sc, (sc, WorkerCount (sc_placement sc)));
  if decide (0 < count)%nat then mret () else syncActiveSchedulerWorkers false.
Definition updateSchedulerWorker (workerID : string) : M unit :=
  if str_empty workerID then mret ()
  else
    '(worker, ok) ← getWorker workerID;
    if ok : bool then schedule (λ sc, Scheduler_UpsertWorker sc (wi_worker worker)) else mret ().
Definition completeSchedulerRunning (taskID : string) : M unit := schedule (λ sc, CompleteRunning sc taskID).

(** [schedulerSnapshot]; the actor IDs are sorted, whatever order they are listed in. *)
Definition schedulerSnapshot (workerID : string) : M workerSnapshot :=
  s ← gets id;
  let (worker, ok) := WorkerStore.Legacy.GetWorker (sv_workers s) workerID in
  range ← ticked (λ n, env_order n (elements (dom (dm_states (sv_actors s)))));
  let owned := filter (λ a, asOwnerWorkerID a = workerID) (ListActors (sv_actors s) range) in
  mret {| ws_WorkerID := workerID;
          ws_ActorIDs := merge_sort String.le (map asActorID owned);
          ws_ActorNextSeq := foldl (λ m a, <[asActorID a := u64 (asCommandCount a + 1)]> m) ∅ owned;
          ws_CachedModels := if ok then modelKeySet (wk_CachedModels (wi_worker worker)) else ∅ |}.

(** ** Submission *)

(** The record [enqueueTaskWithMetadata] creates, before [mutate]. *)
Definition task_record (spec : TaskSpec) (fingerprint : string) : Task := {|
  tk_TaskID := ts_TaskId spec; tk_TaskName := ts_TaskName spec; tk_Status := TASK_STATUS_QUEUED; tk_ResultJSON := [];
  tk_Error := ""; tk_WorkerID := ""; tk_WorkflowID := ts_WorkflowId spec; tk_StepID := ts_StepId spec;
  tk_TargetWorkerID := ts_TargetWorkerId spec; tk_ActorID := ts_ActorId spec; tk_ActorCallID := ts_ActorCallId spec;
  tk_ActorEpoch := ts_ActorEpoch spec; tk_ActorCommandSeq := 0; tk_TaskLeaseEpoch := ts_TaskLeaseEpoch spec;
  tk_LLMModelName := ts_LlmModelName spec; tk_LLMModelVersion := ts_LlmModelVersion spec;
  tk_IdempotencyKey := ""; tk_IdempotencyFingerprint := fingerprint; tk_CreatedAtMs := 0; tk_UpdatedAtMs := 0 |}.

(** The backpressure tests. *)
Definition backpressure : M unit :=
  s ← gets id;
  let cf := sv_config s in
  if (0 <? cf_logAppendSlowLimit cf) && (cf_logAppendSlowLimit cf <=? i64 (sv_lastLogAppendMs s * 1000000))
  then throw ErrSvcBackpressureLog
  else if (0 <? cf_queueHighWatermark cf) &&
          (cf_queueHighWatermark cf <=? Z.of_nat (if cf_schedulerV2 cf then QueueDepth (sv_scheduler s) else length (sv_queue s)))
  then throw ErrSvcBackpressureQueue
  else mret ().

(** A new task enters the scheduler or the queue. *)
Definition enqueue_record (task : Task) : M unit :=
  v2 ← useSchedulerV2;
  if v2 : bool then schedule (λ sc, Enqueue sc (schedulerMetaFromTask task))
  else modify (λ s, set_queue (sv_queue s ++ [tk_TaskID task]) s).

(** [enqueueTaskWithMetadata]; [commandSeq] is what [mutate] stores. *)
Definition enqueueTaskWithMetadata (spec : TaskSpec) (commandSeq : option Z) : M (Task * bool) :=
  spec ← (if str_empty (ts_TaskId spec) then id ← fresh_id; mret (with_TaskId spec id) else mret spec);
  spec ← normalizeTaskFunction spec;
  fingerprint ← of_result ErrSvcIdempotency (taskSpecFingerprint spec);
  let key := ts_IdempotencyKey spec in
  '(task, ok) ← gets (λ s, GetTaskByIdempotencyKey (sv_meta s) key);
  if ok : bool then
    _ ← of_result ErrSvcIdempotency (ensureIdempotencyFingerprint "task" key (tk_IdempotencyFingerprint task) fingerprint);
    mret (task, true)
  else
    _ ← backpressure;
    payload ← of_result (λ _, ErrSvcPayload) (marshalTaskSubmittedPayload spec);
    _ ← appendLog {| al_StreamId := taskStream (ts_TaskId spec); al_EventType := "TaskSubmitted";
                     al_IdempotencyKey := ts_TaskId spec +:+ ":submitted"; al_Payload := payload |};
    let record := task_record spec fingerprint in
    let record := match commandSeq with
                  | None => record
                  | Some seq => {|
                      tk_TaskID := tk_TaskID record; tk_TaskName := tk_TaskName record; tk_Status := tk_Status record;
                      tk_ResultJSON := tk_ResultJSON record; tk_Error := tk_Error record; tk_WorkerID := tk_WorkerID record;
                      tk_WorkflowID := tk_WorkflowID record; tk_StepID := tk_StepID record;
                      tk_TargetWorkerID := tk_TargetWorkerID record; tk_ActorID := tk_ActorID record;
                      tk_ActorCallID := tk_ActorCallID record; tk_ActorEpoch := tk_ActorEpoch record;
                      tk_ActorCommandSeq := seq; tk_TaskLeaseEpoch := tk_TaskLeaseEpoch record;
                      tk_LLMModelName := tk_LLMModelName record; tk_LLMModelVersion := tk_LLMModelVersion record;
                      tk_IdempotencyKey := tk_IdempotencyKey record;
                      tk_IdempotencyFingerprint := tk_IdempotencyFingerprint record;
                      tk_CreatedAtMs := tk_CreatedAtMs record; tk_UpdatedAtMs := tk_UpdatedAtMs record |}
                  end in
    t ← now;
    '(task, duplicate) ← on sv_meta set_meta (λ m, CreateTask m record key t);
    if duplicate : bool then
      _ ← of_result ErrSvcIdempotency (ensureIdempotencyFingerprint "task" key (tk_IdempotencyFingerprint task) fingerprint);
      mret (task, true)
    else
      _ ← metadataPersisted;
      _ ← modify (λ s, set_specs (<[tk_TaskID task := spec]> (sv_specs s)) s);
      _ ← enqueue_record task;
      mret (task, false).
(** [enqueueTask] *)
Definition enqueueTask (spec : TaskSpec) : M (Task * bool) := enqueueTaskWithMetadata spec None.
End Tasks.
