(* ===== verification/ControlDispatch.v ===== *)
(** Dispatch in the control service: which task a polling worker gets, and the
    redelivery of expired leases (internal/control/service.go, llm.go, hardening.go,
    actor.go).

    The indexed path runs its eligibility check inside [Scheduler.Assign], that is
    while the scheduler's mutex is held. *)
From S2P Require Import Prelude Bytes LogRecord EventCodec TaskSpec MetaStore TaskReplay Placement Scheduler WorkerStore WorkflowDef WorkflowState WorkflowReplay Actor MetaDomains WorkflowArgs ServiceState ControlTasks.

Open Scope Z_scope.

(** [defaultPollBatchLimit] *)
Definition defaultPollBatchLimit : Z := 64.
Definition pollBatchLimit (requested : Z) : Z :=
  if requested =? 0 then 1 else if defaultPollBatchLimit <? requested then defaultPollBatchLimit else requested.
Definition maxPollWaitTimeout : Z := 5000000000.
Definition pollWaitTimeout (waitMs : Z) : Z :=
  if waitMs <=? 0 then 0
  else let wait := i64 (waitMs * 1000000) in if maxPollWaitTimeout <? wait then maxPollWaitTimeout else wait.

(** [PollTaskResponse] *)
Record PollTaskResponse := { pr_HasTask : bool; pr_Task : option TaskSpec; pr_Tasks : list TaskSpec }.
Definition pollTaskResponse (tasks : list TaskSpec) : PollTaskResponse :=
  match tasks with
  | [] => {| pr_HasTask := false; pr_Task := None; pr_Tasks := [] |}
  | t :: _ => {| pr_HasTask := true; pr_Task := Some t; pr_Tasks := tasks |}
  end.

(** [workerHasCapacity] *)
Definition workerHasCapacity (w : workerInfo) : bool :=
  let capacity := wk_Capacity (wi_worker w) in
  let capacity := if capacity =? 0 then 1 else capacity in
  wk_RunningTasks (wi_worker w) <? capacity.

Definition with_dispatch (spec : TaskSpec) (target : string) (actorEpoch : Z) (stateJSON : bytes) : TaskSpec := {|
  ts_TaskId := ts_TaskId spec; ts_TaskName := ts_TaskName spec; ts_FunctionName := ts_FunctionName spec;
  ts_FunctionSource := ts_FunctionSource spec; ts_FunctionRef := ts_FunctionRef spec;
  ts_FunctionHash := ts_FunctionHash spec; ts_ArgsJson := ts_ArgsJson spec;
  ts_IdempotencyKey := ts_IdempotencyKey spec; ts_WorkflowId := ts_WorkflowId spec; ts_StepId := ts_StepId spec;
  ts_TargetWorkerId := target; ts_ActorId := ts_ActorId spec; ts_ActorCallId := ts_ActorCallId spec;
  ts_ActorClassName := ts_ActorClassName spec; ts_ActorClassSource := ts_ActorClassSource spec;
  ts_ActorMethod := ts_ActorMethod spec; ts_ActorStateJson := stateJSON;
  ts_ActorInitArgsJson := ts_ActorInitArgsJson spec; ts_ActorEpoch := actorEpoch;
  ts_LlmModelName := ts_LlmModelName spec; ts_LlmModelVersion := ts_LlmModelVersion spec;
  ts_LlmAdapter := ts_LlmAdapter spec; ts_LlmMaxTokens := ts_LlmMaxTokens spec; ts_TimeoutMs := ts_TimeoutMs spec;
  ts_TaskLeaseEpoch := ts_TaskLeaseEpoch spec |}.

Section Dispatch.
Context `{Env, MsgpackLib, TaskCodecLib, FingerprintLib, RegistryJSON}.

(** ** Eligibility *)

(** [actorMailboxReady] *)
Definition actorMailboxReady (s : Service) (task : Task) (workerID : string) : bool :=
  if str_empty (tk_ActorID task) then true
  else
    let (state, ok) := GetActor (sv_actors s) (tk_ActorID task) in
    if negb ok || str_empty (asOwnerWorkerID state) || negb (bool_decide (asOwnerWorkerID state = workerID)) then false
    else
      let commandSeq := if tk_ActorCommandSeq task =? 0 then u64 (asCommandCount state + 1) else tk_ActorCommandSeq task in
      commandSeq =? u64 (asCommandCount state + 1).

(** [specForTask] *)
Definition specForTask (s : Service) (taskID : string) : option TaskSpec := cloneSpec (sv_specs s !! taskID).

(** [predictedLLMWorker]; [held] tells whether the caller holds the scheduler's mutex. *)
Definition predictedLLMWorker (held : bool) (taskID : string) (spec : TaskSpec) : M string :=
  '(task, _) ← getTask taskID;
  t ← (if 0 <? tk_CreatedAtMs task then nowNanos else mret 0);
  let queueDelayMs := if 0 <? tk_CreatedAtMs task then Milliseconds (t - tk_CreatedAtMs task * 1000000) else 0 in
  count ← locked held (λ sc, (sc, WorkerCount (sc_placement sc)));
  _ ← (if decide (count = 0%nat) then syncActiveSchedulerWorkers held else mret ());
  locked held (λ sc,
    let (pl, w) := PreferredPredictedWorker (sc_placement sc)
      (modelKeyFromParts (ts_LlmModelName spec) (ts_LlmModelVersion spec)) queueDelayMs localityQueueWait in
    (with_placement sc pl, w)).

(** [preferredLLMWorker] *)
Definition preferredLLMWorker (held : bool) (taskID : string) (spec : TaskSpec) : M string :=
  '(task, ok) ← getTask taskID;
  t ← now;
  locked held (λ sc,
    let (pl, w) := PreferredLocalityWorker (sc_placement sc)
      (modelKeyFromParts (ts_LlmModelName spec) (ts_LlmModelVersion spec))
      (if ok : bool then tk_CreatedAtMs task else 0) t localityQueueWait in
    (with_placement sc pl, w)).

Definition other_target (spec : TaskSpec) (workerID : string) : bool :=
  str_empty (ts_ActorId spec) && negb (str_empty (ts_TargetWorkerId spec)) && negb (bool_decide (ts_TargetWorkerId spec = workerID)).
Definition accepts (workerID preferred : string) : bool := str_empty preferred || bool_decide (preferred = workerID).

(** [canAssignTaskToWorkerIndexed] *)
Definition canAssignTaskToWorkerIndexed (held : bool) (taskID : string) (spec : TaskSpec) (workerID : string) : M bool :=
  if other_target spec workerID then mret false
  else if str_empty (ts_LlmModelName spec) then mret true
  else
    '(worker, ok) ← getWorker workerID;
    if negb ok || negb (workerHasCapacity worker) then mret false
    else
      policy ← gets (λ s, cf_schedulingPolicy (sv_config s));
      if policy =? SCHEDULING_POLICY_RESOURCE_ONLY then mret true
      else if policy =? SCHEDULING_POLICY_PREDICTED_LATENCY
      then preferred ← predictedLLMWorker held taskID spec; mret (accepts workerID preferred)
      else mret true.

(** [canAssignTaskToWorker] *)
Definition canAssignTaskToWorker (held : bool) (taskID : string) (spec : TaskSpec) (workerID : string) : M bool :=
  v2 ← useSchedulerV2;
  if v2 : bool then canAssignTaskToWorkerIndexed held taskID spec workerID
  else if other_target spec workerID then mret false
  else if str_empty (ts_LlmModelName spec) then mret true
  else
    '(worker, ok) ← getWorker workerID;
    if negb ok || negb (workerHasCapacity worker) then mret false
    else
      policy ← gets (λ s, cf_schedulingPolicy (sv_config s));
      if policy =? SCHEDULING_POLICY_RESOURCE_ONLY then mret true
      else if policy =? SCHEDULING_POLICY_PREDICTED_LATENCY
      then preferred ← predictedLLMWorker held taskID spec; mret (accepts workerID preferred)
      else preferred ← preferredLLMWorker held taskID spec; mret (accepts workerID preferred).

(** The [check] callback of [pollTaskIndexed]. *)
Definition check_task (workerID : string) (meta : SchedMeta) : M schedulerDecision :=
  spec ← gets (λ s, specForTask s (sm_TaskID meta));
  match spec with
  | None => mret schedulerDrop
  | Some spec =>
      '(task, ok) ← getTask (sm_TaskID meta);
      if negb ok || isTerminalTaskStatus (tk_Status task) then mret schedulerDrop
      else if negb (tk_Status task =? TASK_STATUS_QUEUED) then mret schedulerDrop
      else
        ready ← gets (λ s, actorMailboxReady s task workerID);
        if negb ready then mret schedulerSkip
        else
          can ← canAssignTaskToWorker true (sm_TaskID meta) spec workerID;
          mret (if can : bool then schedulerAssign else schedulerSkip)
  end.
(** The callback as [Assign] calls it: it never fails, and changes nothing while the mutex is held. *)
Definition check_callback (s : Service) (workerID : string) (meta : SchedMeta) : call schedulerDecision :=
  match check_task workerID meta s with
  | None => None
  | Some (_, Ok d) => Some d
  | Some (_, Err _) => Some schedulerSkip
  end.

(** ** Polling *)

(** [leasedTaskSpec] *)
Definition leasedTaskSpec (s : Service) (spec : TaskSpec) (leased : Task) : TaskSpec :=
  let spec := with_lease_epoch spec (tk_TaskLeaseEpoch leased) in
  if str_empty (tk_ActorID leased) then spec
  else
    let (state, ok) := GetActor (sv_actors s) (tk_ActorID leased) in
    if negb ok then spec else with_dispatch spec (asOwnerWorkerID state) (asEpoch state) (asStateJSON state).

(** One round of the loop of [pollTaskIndexed]. *)
Inductive poll_round := RoundDone | RoundAgain | RoundTask (spec : TaskSpec).
Definition assign_section (workerID : string) : M (option SchedMeta) :=
  snapshot ← schedulerSnapshot workerID;
  t ← now;
  ((λ s, match Assign (sv_scheduler s) snapshot t (check_callback s workerID) with
         | None => None
         | Some (sc, res) => Some (set_scheduler sc s, Ok res)
         end) : M (option SchedMeta)).
(** What follows a successful [Assign]. *)
Definition lease_assigned (workerID : string) (redeliveryTimeout : Z) (meta : SchedMeta) : M poll_round :=
  spec ← gets (λ s, specForTask s (sm_TaskID meta));
  match spec with
  | None => _ ← schedule (λ sc, Forget sc (sm_TaskID meta)); mret RoundAgain
  | Some spec =>
      '(before, ok) ← getTask (sm_TaskID meta);
      if negb ok || negb (tk_Status before =? TASK_STATUS_QUEUED)
      then _ ← schedule (λ sc, Forget sc (sm_TaskID meta)); mret RoundAgain
      else
        leased ← leaseTask (sm_TaskID meta) workerID;
        _ ← (if tk_Status before =? TASK_STATUS_QUEUED
             then _ ← incrementWorkerLoad workerID; updateSchedulerWorker workerID else mret ());
        _ ← schedule (λ sc, TrackRunning sc (tk_TaskID leased) (schedulerLeaseDeadlineMs leased redeliveryTimeout)
                              (tk_TaskLeaseEpoch leased));
        s ← gets id;
        mret (RoundTask (leasedTaskSpec s spec leased))
  end.
Definition indexed_round (workerID : string) (redeliveryTimeout : Z) : M poll_round :=
  res ← assign_section workerID;
  match res with None => mret RoundDone | Some meta => lease_assigned workerID redeliveryTimeout meta end.
Fixpoint indexed_loop (fuel : nat) (workerID : string) (redeliveryTimeout maxTasks : Z) (tasks : list TaskSpec) :
    M (list TaskSpec) :=
  if maxTasks <=? Z.of_nat (length tasks) then mret tasks
  else
    match fuel with
    | O => λ _, None
    | S fuel =>
        round ← indexed_round workerID redeliveryTimeout;
        match round with
        | RoundDone => mret tasks
        | RoundAgain => indexed_loop fuel workerID redeliveryTimeout maxTasks tasks
        | RoundTask spec => indexed_loop fuel workerID redeliveryTimeout maxTasks (tasks ++ [spec])
        end
    end.
(** [pollTaskIndexed]; a round that goes again has forgotten a queued task. *)
Definition pollTaskIndexed (workerID : string) (maxTasks : Z) : M (list TaskSpec) :=
  _ ← hydrateSchedulerWorkersIfNeeded;
  s ← gets id;
  indexed_loop (Z.to_nat maxTasks + QueueDepth (sv_scheduler s)) workerID (cf_redeliveryTimeout (sv_config s)) maxTasks [].

(** [pollTaskLegacy]: position [i] of the queue; each round removes an element or moves on. *)
Fixpoint legacy_loop (fuel : nat) (workerID : string) (maxTasks : Z) (i : nat) (tasks : list TaskSpec) : M (list TaskSpec) :=
  queue ← gets sv_queue;
  match queue !! i with
  | None => mret tasks
  | Some taskID =>
      if maxTasks <=? Z.of_nat (length tasks) then mret tasks
      else
        match fuel with
        | O => ((λ _, None) : M (list TaskSpec))
        | S fuel =>
            let remove := modify (λ s, set_queue (delete i (sv_queue s)) s) in
            spec ← gets (λ s, sv_specs s !! taskID);
            match spec with
            | None => _ ← remove; legacy_loop fuel workerID maxTasks i tasks
            | Some spec =>
                '(before, ok) ← getTask taskID;
                if negb ok then _ ← remove; legacy_loop fuel workerID maxTasks i tasks
                else
                  ready ← gets (λ s, actorMailboxReady s before workerID);
                  if negb ready then legacy_loop fuel workerID maxTasks (S i) tasks
                  else
                    can ← canAssignTaskToWorker false taskID spec workerID;
                    if negb can then legacy_loop fuel workerID maxTasks (S i) tasks
                    else
                      leased ← leaseTask taskID workerID;
                      _ ← (if tk_Status before =? TASK_STATUS_QUEUED then incrementWorkerLoad workerID else mret ());
                      _ ← remove;
                      s ← gets id;
                      legacy_loop fuel workerID maxTasks i (tasks ++ [leasedTaskSpec s spec leased])
            end
        end
  end.
Definition pollTaskLegacy (workerID : string) (maxTasks : Z) : M (list TaskSpec) :=
  queue ← gets sv_queue; legacy_loop (length queue) workerID maxTasks 0 [].

(** ** Redelivery *)

(** [json.Marshal] of the payload of [appendTaskRedelivered]. *)
Definition appendTaskRedelivered (task : Task) : M unit :=
  t ← now;
  text ← stamp;
  _ ← appendLog {| al_StreamId := taskStream (tk_TaskID task); al_EventType := "TaskRedelivered";
                   al_IdempotencyKey := tk_TaskID task +:+ ":redelivered:" +:+ text;
                   al_Payload := json_Redelivered (tk_TaskID task) (tk_TaskName task) (tk_TaskLeaseEpoch task) t |};
  mret ().

(** [resyncSchedulerTask] *)
Definition resyncSchedulerTask (task : Task) (redeliveryTimeout : Z) : M unit :=
  if tk_Status task =? TASK_STATUS_QUEUED then schedule (λ sc, Enqueue sc (schedulerMetaFromTask task))
  else if tk_Status task =? TASK_STATUS_RUNNING
  then schedule (λ sc, TrackRunning sc (tk_TaskID task) (schedulerLeaseDeadlineMs task redeliveryTimeout) (tk_TaskLeaseEpoch task))
  else schedule (λ sc, Forget sc (tk_TaskID task)).

(** [time.Since(time.UnixMilli(ms)) < timeout], at the time [t] in nanoseconds. *)
Definition since_below (t ms timeout : Z) : bool := t - ms * 1000000 <? timeout.

(** The three loops of [redeliverExpiredTasksIndexed]: select, log, requeue. *)
Fixpoint select_expired (timeout : Z) (expired valid : list runningLease) : M (list runningLease) :=
  match expired with
  | [] => mret valid
  | lease :: expired =>
      '(task, ok) ← getTask (rl_taskID lease);
      if negb ok then _ ← schedule (λ sc, Forget sc (rl_taskID lease)); select_expired timeout expired valid
      else if negb (tk_Status task =? TASK_STATUS_RUNNING) || negb (tk_TaskLeaseEpoch task =? rl_leaseEpoch lease)
      then _ ← resyncSchedulerTask task timeout; select_expired timeout expired valid
      else
        t ← (if tk_UpdatedAtMs task =? 0 then mret 0 else nowNanos);
        if (tk_UpdatedAtMs task =? 0) || since_below t (tk_UpdatedAtMs task) timeout
        then _ ← schedule (λ sc, TrackRunning sc (tk_TaskID task) (schedulerLeaseDeadlineMs task timeout) (tk_TaskLeaseEpoch task));
             select_expired timeout expired valid
        else select_expired timeout expired (valid ++ [lease])
  end.
(** A failed append tracks the valid leases again before the error is returned. *)
Definition track_again (timeout : Z) (valid : list runningLease) : M unit :=
  for_each valid (λ pending,
    '(current, ok) ← getTask (rl_taskID pending);
    if ok && (tk_Status current =? TASK_STATUS_RUNNING)
    then schedule (λ sc, TrackRunning sc (tk_TaskID current) (schedulerLeaseDeadlineMs current timeout) (tk_TaskLeaseEpoch current))
    else mret ()).
Fixpoint log_expired (timeout : Z) (valid rest : list runningLease) : M unit :=
  match rest with
  | [] => mret ()
  | lease :: rest =>
      '(task, ok) ← getTask (rl_taskID lease);
      if negb ok then _ ← schedule (λ sc, Forget sc (rl_taskID lease)); log_expired timeout valid rest
      else
        r ← try (appendTaskRedelivered task);
        match r with
        | Err e => _ ← track_again timeout valid; throw e
        | Ok _ => log_expired timeout valid rest
        end
  end.
Definition requeue_lease (timeout : Z) (lease : runningLease) : M unit :=
  t ← now;
  '(task, requeued) ← on sv_meta set_meta (λ m, RequeueTaskIfLeaseExpired m (rl_taskID lease) (rl_leaseEpoch lease) timeout t);
  if negb requeued then
    '(current, ok) ← getTask (rl_taskID lease);
    if ok : bool then resyncSchedulerTask current timeout else schedule (λ sc, Forget sc (rl_taskID lease))
  else
    _ ← schedule (λ sc, Enqueue sc (schedulerMetaFromTask task));
    if str_empty (tk_WorkerID task) then mret ()
    else _ ← decrementWorkerLoad (tk_WorkerID task); updateSchedulerWorker (tk_WorkerID task).

Definition redeliverExpiredTasksIndexed : M unit :=
  timeout ← gets (λ s, cf_redeliveryTimeout (sv_config s));
  if timeout <=? 0 then mret ()
  else
    t ← now;
    expired ← locked false (λ sc, PopExpiredRunning sc t);
    valid ← select_expired timeout expired [];
    _ ← log_expired timeout valid valid;
    for_each valid (requeue_lease timeout).

(** [redeliverExpiredTasksLegacy]; both in-memory stores list the running tasks. *)
Definition redeliverExpiredTasksLegacy : M unit :=
  timeout ← gets (λ s, cf_redeliveryTimeout (sv_config s));
  if timeout <=? 0 then mret ()
  else
    t ← nowNanos;
    s ← gets id;
    range ← ticked (λ n, env_order n (elements (dom (ms_tasks (sv_meta s)))));
    let expired := filter (λ task, tk_Status task = TASK_STATUS_RUNNING ∧ tk_UpdatedAtMs task ≠ 0 ∧
                                    since_below t (tk_UpdatedAtMs task) timeout = false)
                     (ListTasks (sv_meta s) range) in
    if decide (expired = []) then mret ()
    else
      _ ← for_each expired appendTaskRedelivered;
      t ← now;
      range ← ticked (λ n, env_order n (elements (dom (ms_tasks (sv_meta s)))));
      requeued ← on sv_meta set_meta (λ m, RequeueExpiredRunningTasks m timeout t range);
      for_each requeued (λ task,
        _ ← modify (λ s, set_queue (sv_queue s ++ [tk_TaskID task]) s);
        if str_empty (tk_WorkerID task) then mret () else decrementWorkerLoad (tk_WorkerID task)).
(** [redeliverExpiredTasks] *)
Definition redeliverExpiredTasks : M unit :=
  v2 ← useSchedulerV2; if v2 : bool then redeliverExpiredTasksIndexed else redeliverExpiredTasksLegacy.

(** [pollTaskNow] *)
Definition pollTaskNow (workerID : string) (maxTasks : Z) : M PollTaskResponse :=
  _ ← redeliverExpiredTasks;
  v2 ← useSchedulerV2;
  tasks ← (if v2 : bool then pollTaskIndexed workerID maxTasks else pollTaskLegacy workerID maxTasks);
  mret (pollTaskResponse tasks).
End Dispatch.
