(* ===== verification/ControlActors.v ===== *)
(** Actors in the control service: creation, ownership, commands and snapshots
    (internal/control/actor.go).

    [CallActor] is [submitActorCommand] followed by waiting for the task, which has
    no effect of its own; [waitActorOwner] is given the number of its attempts. *)
From stdpp Require Import pretty.
From S2P Require Import Prelude Bytes LogRecord EventCodec TaskSpec MetaStore TaskReplay Placement Scheduler WorkerStore WorkflowDef WorkflowState WorkflowReplay Actor MetaDomains WorkflowArgs ServiceState ControlTasks ControlDispatch.

Open Scope Z_scope.

(** [payload, _ := ...]: nil on an error *)
Definition payload_or_nil {E} (r : result E bytes) : bytes := match r with Ok data => data | Err _ => [] end.
(** The text of empty call arguments; the quotes are written as apostrophes. *)
Definition empty_args : bytes :=
  map (λ b, if decide (b = x27) then x22 else b) (str_bytes "{'args':[],'kwargs':{}}").
Definition defaultJSON (value fallback : bytes) : bytes := match value with [] => fallback | _ => value end.

(** [actorOwnerLease] *)
Definition actorOwnerLease : Z := 750000000.

Record CreateActorRequest := {
  ca_ClassName : string; ca_ClassSource : string; ca_InitArgsJson : bytes; ca_SnapshotEvery : Z; ca_IdempotencyKey : string
}.
Record CallActorRequest := { cl_ActorId : string; cl_MethodName : string; cl_ArgsJson : bytes; cl_IdempotencyKey : string }.
(** [CompleteTaskRequest] *)
Record CompleteTaskRequest := {
  cr_TaskId : string; cr_WorkerId : string; cr_Status : Z; cr_ResultJson : bytes; cr_Error : string;
  cr_ActorStateJson : bytes; cr_ActorEpoch : Z; cr_TaskLeaseEpoch : Z
}.

(** The assignments to an actor's state. *)
Definition set_owner (owner : string) (epoch : Z) (a : ActorState) : ActorState := {|
  asActorID := asActorID a; asClassName := asClassName a; asClassSource := asClassSource a; asInitArgsJSON := asInitArgsJSON a;
  asStatus := ACTOR_STATUS_ACTIVE; asOwnerWorkerID := owner; asEpoch := epoch; asCommandCount := asCommandCount a;
  asSubmittedCommandCount := asSubmittedCommandCount a; asSnapshotEvery := asSnapshotEvery a; asSnapshotRef := asSnapshotRef a;
  asSnapshotCommandCount := asSnapshotCommandCount a; asStateJSON := asStateJSON a; asIdempotencyKey := asIdempotencyKey a;
  asIdempotencyFingerprint := asIdempotencyFingerprint a; asCreatedAtMs := asCreatedAtMs a; asUpdatedAtMs := asUpdatedAtMs a |}.
Definition set_command (count submitted : Z) (stateJSON : bytes) (owner : string) (epoch : Z) (a : ActorState) : ActorState := {|
  asActorID := asActorID a; asClassName := asClassName a; asClassSource := asClassSource a; asInitArgsJSON := asInitArgsJSON a;
  asStatus := asStatus a; asOwnerWorkerID := owner; asEpoch := epoch; asCommandCount := count;
  asSubmittedCommandCount := submitted; asSnapshotEvery := asSnapshotEvery a; asSnapshotRef := asSnapshotRef a;
  asSnapshotCommandCount := asSnapshotCommandCount a; asStateJSON := stateJSON; asIdempotencyKey := asIdempotencyKey a;
  asIdempotencyFingerprint := asIdempotencyFingerprint a; asCreatedAtMs := asCreatedAtMs a; asUpdatedAtMs := asUpdatedAtMs a |}.
Definition set_snapshot (ref : string) (count : Z) (a : ActorState) : ActorState := {|
  asActorID := asActorID a; asClassName := asClassName a; asClassSource := asClassSource a; asInitArgsJSON := asInitArgsJSON a;
  asStatus := asStatus a; asOwnerWorkerID := asOwnerWorkerID a; asEpoch := asEpoch a; asCommandCount := asCommandCount a;
  asSubmittedCommandCount := asSubmittedCommandCount a; asSnapshotEvery := asSnapshotEvery a; asSnapshotRef := ref;
  asSnapshotCommandCount := count; asStateJSON := asStateJSON a; asIdempotencyKey := asIdempotencyKey a;
  asIdempotencyFingerprint := asIdempotencyFingerprint a; asCreatedAtMs := asCreatedAtMs a; asUpdatedAtMs := asUpdatedAtMs a |}.
Definition set_created_key (key fingerprint : string) (a : ActorState) : ActorState := {|
  asActorID := asActorID a; asClassName := asClassName a; asClassSource := asClassSource a; asInitArgsJSON := asInitArgsJSON a;
  asStatus := asStatus a; asOwnerWorkerID := asOwnerWorkerID a; asEpoch := asEpoch a; asCommandCount := asCommandCount a;
  asSubmittedCommandCount := asSubmittedCommandCount a; asSnapshotEvery := asSnapshotEvery a; asSnapshotRef := asSnapshotRef a;
  asSnapshotCommandCount := asSnapshotCommandCount a; asStateJSON := asStateJSON a; asIdempotencyKey := key;
  asIdempotencyFingerprint := fingerprint; asCreatedAtMs := asCreatedAtMs a; asUpdatedAtMs := asUpdatedAtMs a |}.

(** An event payload from its non-zero fields. *)
Definition actor_event_of (id worker : string) (epoch ts : Z) : ActorEventPayload := {|
  apActorID := id; apClassName := ""; apClassSource := ""; apInitArgsJSON := None; apWorkerID := worker; apEpoch := epoch;
  apCallID := ""; apCommandSeq := 0; apMethodName := ""; apArgsJSON := None; apResultJSON := None; apStateJSON := None;
  apSnapshotRef := ""; apSnapshotEvery := 0; apCommandCount := 0; apSnapshotCommandCount := 0; apError := "";
  apIdempotencyKey := ""; apIdempotencyFingerprint := ""; apTimestampMs := ts |}.
Definition command_of (id call : string) (seq : Z) (methodName : string) (args : bytes) (result state : option bytes)
    (err worker : string) (epoch count ts : Z) : ActorEventPayload := {|
  apActorID := id; apClassName := ""; apClassSource := ""; apInitArgsJSON := None; apWorkerID := worker; apEpoch := epoch;
  apCallID := call; apCommandSeq := seq; apMethodName := methodName; apArgsJSON := Some args; apResultJSON := result;
  apStateJSON := state; apSnapshotRef := ""; apSnapshotEvery := 0; apCommandCount := count; apSnapshotCommandCount := 0;
  apError := err; apIdempotencyKey := ""; apIdempotencyFingerprint := ""; apTimestampMs := ts |}.
Definition snapshot_of (a : ActorState) (ref : string) (ts : Z) : ActorEventPayload := {|
  apActorID := asActorID a; apClassName := asClassName a; apClassSource := asClassSource a;
  apInitArgsJSON := Some (asInitArgsJSON a); apWorkerID := asOwnerWorkerID a; apEpoch := asEpoch a; apCallID := "";
  apCommandSeq := 0; apMethodName := ""; apArgsJSON := None; apResultJSON := None; apStateJSON := None; apSnapshotRef := ref;
  apSnapshotEvery := asSnapshotEvery a; apCommandCount := 0; apSnapshotCommandCount := asCommandCount a; apError := "";
  apIdempotencyKey := ""; apIdempotencyFingerprint := ""; apTimestampMs := ts |}.
Definition created_of (a : ActorState) (ts : Z) : ActorEventPayload := {|
  apActorID := asActorID a; apClassName := asClassName a; apClassSource := asClassSource a;
  apInitArgsJSON := Some (asInitArgsJSON a); apWorkerID := ""; apEpoch := 0; apCallID := ""; apCommandSeq := 0;
  apMethodName := ""; apArgsJSON := None; apResultJSON := None; apStateJSON := None; apSnapshotRef := "";
  apSnapshotEvery := asSnapshotEvery a; apCommandCount := 0; apSnapshotCommandCount := 0; apError := "";
  apIdempotencyKey := asIdempotencyKey a; apIdempotencyFingerprint := asIdempotencyFingerprint a; apTimestampMs := ts |}.

(** [sortedWorkers] *)
Definition worker_le (a b : workerInfo) : Prop := String.le (wk_WorkerID (wi_worker a)) (wk_WorkerID (wi_worker b)).
#[export] Instance worker_le_dec : RelDecision worker_le.
Proof. unfold worker_le. intros a b. apply _. Defined.
Definition sortedWorkers (workers : list workerInfo) : list workerInfo := merge_sort worker_le workers.

Section Actors.
Context `{Env, MsgpackLib, TaskCodecLib, FingerprintLib, RegistryJSON, ActorJSON}.

Definition append_actor (id eventType key : string) (p : ActorEventPayload) : M RawRecord :=
  appendLog {| al_StreamId := actorStream id; al_EventType := eventType; al_IdempotencyKey := key;
               al_Payload := payload_or_nil (Actor.MarshalEventPayload p) |}.

(** [actorCreateFingerprint] *)
Definition actorCreateFingerprint (req : CreateActorRequest) (initArgs : bytes) (snapshotEvery : Z) :
    result idempotency_error string :=
  initArgsValue ← jsonValueForFingerprint initArgs;
  stableFingerprint [("class_name", inl (inl (ca_ClassName req))); ("class_source", inl (inl (ca_ClassSource req)));
                     ("init_args_json", inr initArgsValue); ("snapshot_every", inl (inr snapshotEvery))].

(** [ensureActorOwner]; [time.Since(heartbeat) <= actorOwnerLease]. *)
Definition ensureActorOwner (actorID : string) : M ActorState :=
  '(state, ok) ← gets (λ s, GetActor (sv_actors s) actorID);
  if negb ok then throw ErrSvcActorNotFound
  else
    owner_active ←
      (if str_empty (asOwnerWorkerID state) then mret false
       else
         '(worker, found) ← getWorker (asOwnerWorkerID state);
         if negb found then mret false
         else t ← nowNanos; mret (t - wk_LastHeartbeat (wi_worker worker) * 1000000 <=? actorOwnerLease));
    if owner_active : bool then mret state
    else
      workers ← activeWorkers actorOwnerLease;
      match sortedWorkers workers with
      | [] => throw ErrSvcNoActiveActorWorker
      | first :: _ =>
          let owner := wk_WorkerID (wi_worker first) in
          let epoch := u64 (asEpoch state + 1) in
          t ← now;
          _ ← append_actor actorID "ActorOwnershipGranted" (actorID +:+ ":ownership:" +:+ format_uint epoch)
                (actor_event_of actorID owner epoch t);
          updateActor actorID (set_owner owner epoch)
      end.

(** [waitActorOwner]: an inactive owner is waited for, any other error is not. *)
Fixpoint waitActorOwner (attempts : nat) (actorID : string) : M ActorState :=
  r ← try (ensureActorOwner actorID);
  match r, attempts with
  | Ok state, _ => mret state
  | Err ErrSvcNoActiveActorWorker, S attempts => waitActorOwner attempts actorID
  | Err e, _ => throw e
  end.

(** [CreateActor] *)
Definition CreateActor (req : CreateActorRequest) : M ActorState :=
  if str_empty (ca_ClassName req) || str_empty (ca_ClassSource req) then throw ErrSvcPayload
  else
    let initArgs := defaultJSON (ca_InitArgsJson req) empty_args in
    let snapshotEvery := if ca_SnapshotEvery req =? 0 then 25 else ca_SnapshotEvery req in
    fingerprint ← of_result ErrSvcIdempotency (actorCreateFingerprint req initArgs snapshotEvery);
    let key := ca_IdempotencyKey req in
    existing ← gets (λ s, GetActorByIdempotencyKey (sv_actors s) key);
    match existing with
    | Some a =>
        _ ← of_result ErrSvcIdempotency (ensureIdempotencyFingerprint "actor" key (asIdempotencyFingerprint a) fingerprint);
        mret a
    | None =>
        actorID ← fresh_id;
        t ← now;
        let state := set_created_key key fingerprint
          (Actor.NewState actorID (ca_ClassName req) (ca_ClassSource req) initArgs snapshotEvery t) in
        _ ← append_actor actorID "ActorCreated" (actorID +:+ ":created") (created_of state t);
        '(created, duplicate) ← on sv_actors set_actors (λ d, MetaDomains.CreateActor d state key);
        if duplicate : bool then
          _ ← of_result ErrSvcIdempotency (ensureIdempotencyFingerprint "actor" key (asIdempotencyFingerprint created) fingerprint);
          mret created
        else
          _ ← metadataPersisted;
          owned ← try (ensureActorOwner actorID);
          mret (match owned with Ok a => a | Err _ => created end)
    end.

(** ** Replay *)

(** [replayActor], with the service as the loader of results *)
Definition replayActor (actorID : string) : M ReplayResult :=
  records ← forEachRawLogRecord (actorStream actorID) 1;
  s ← gets id;
  of_result (λ _, ErrSvcReplay)
    (Actor.ReplayRawEach actorID (Some {| Actor.it_records := records; Actor.it_fails := false |}) (Some (LoadResult s))).

(** [submitActorCommand] *)
Definition submitActorCommand (attempts : nat) (req : CallActorRequest) : M Task :=
  state ← waitActorOwner attempts (cl_ActorId req);
  stateJSON ← (if (0 <? asCommandCount state) && bool_decide (asStateJSON state = [])
               then r ← replayActor (cl_ActorId req); mret (asStateJSON (rrState r))
               else mret (asStateJSON state));
  callID ← fresh_id;
  let argsJSON := defaultJSON (cl_ArgsJson req) empty_args in
  let idem := if str_empty (cl_IdempotencyKey req) then callID else cl_IdempotencyKey req in
  let submittedCount := Z.max (asSubmittedCommandCount state) (asCommandCount state) in
  let commandSeq := u64 (submittedCount + 1) in
  let spec := {|
    ts_TaskId := callID; ts_TaskName := "actor:" +:+ cl_MethodName req; ts_FunctionName := cl_MethodName req;
    ts_FunctionSource := ""; ts_FunctionRef := ""; ts_FunctionHash := ""; ts_ArgsJson := argsJSON; ts_IdempotencyKey := idem;
    ts_WorkflowId := ""; ts_StepId := ""; ts_TargetWorkerId := asOwnerWorkerID state; ts_ActorId := asActorID state;
    ts_ActorCallId := callID; ts_ActorClassName := asClassName state; ts_ActorClassSource := asClassSource state;
    ts_ActorMethod := cl_MethodName req; ts_ActorStateJson := stateJSON; ts_ActorInitArgsJson := asInitArgsJSON state;
    ts_ActorEpoch := asEpoch state; ts_LlmModelName := ""; ts_LlmModelVersion := ""; ts_LlmAdapter := "";
    ts_LlmMaxTokens := 0; ts_TimeoutMs := 0; ts_TaskLeaseEpoch := 0 |} in
  fingerprint ← of_result ErrSvcIdempotency (taskSpecFingerprint spec);
  '(existing, ok) ← gets (λ s, GetTaskByIdempotencyKey (sv_meta s) idem);
  if ok : bool then
    _ ← of_result ErrSvcIdempotency (ensureIdempotencyFingerprint "task" idem (tk_IdempotencyFingerprint existing) fingerprint);
    mret existing
  else
    t ← now;
    _ ← append_actor (asActorID state) "ActorCommandSubmitted" (asActorID state +:+ ":" +:+ callID +:+ ":submitted")
          (command_of (asActorID state) callID commandSeq (cl_MethodName req) argsJSON None None ""
             (asOwnerWorkerID state) (asEpoch state) 0 t);
    '(created, _) ← enqueueTaskWithMetadata spec (Some commandSeq);
    _ ← updateActor (asActorID state) (λ a,
          set_command (asCommandCount a) (Z.max (asSubmittedCommandCount a) commandSeq) (asStateJSON a) (asOwnerWorkerID a) (asEpoch a) a);
    mret created.

(** ** Completion *)

(** [createActorSnapshot]; a failed trim is only reported. *)
Definition createActorSnapshot (a : ActorState) : M unit :=
  store ← gets (λ s, cf_resultStore (sv_config s));
  if negb store then mret ()
  else
    ref ← putBytes (asStateJSON a);
    t ← now;
    rec ← append_actor (asActorID a) "ActorSnapshotCreated" (asActorID a +:+ ":snapshot:" +:+ format_uint (asCommandCount a))
            (snapshot_of a ref t);
    trimmed ← ticked env_append;
    _ ← (if (1 <? raw_Seq rec) && trimmed then trimStream (actorStream (asActorID a)) (raw_Seq rec) else mret ());
    _ ← updateActor (asActorID a) (set_snapshot ref (asCommandCount a));
    mret ().

(** [failActorCommand] *)
Definition failActorCommand (task : Task) (req : CompleteTaskRequest) (spec : TaskSpec) (commandSeq : Z) : M unit :=
  t ← now;
  _ ← append_actor (tk_ActorID task) "ActorCommandFailed" (tk_ActorID task +:+ ":" +:+ tk_ActorCallID task +:+ ":failed")
        (command_of (tk_ActorID task) (tk_ActorCallID task) commandSeq (ts_ActorMethod spec) (ts_ArgsJson spec) None None
           (cr_Error req) (cr_WorkerId req) (cr_ActorEpoch req) commandSeq t);
  _ ← updateActor (tk_ActorID task) (λ a,
        set_command commandSeq (Z.max (asSubmittedCommandCount a) commandSeq) (asStateJSON a) (cr_WorkerId req) (cr_ActorEpoch req) a);
  mret ().

(** [completeActorCall] *)
Definition completeActorCall (task : Task) (req : CompleteTaskRequest) : M unit :=
  '(state, ok) ← gets (λ s, GetActor (sv_actors s) (tk_ActorID task));
  if negb ok then throw ErrSvcActorNotFound
  else if negb (bool_decide (cr_WorkerId req = asOwnerWorkerID state)) || negb (cr_ActorEpoch req =? asEpoch state)
  then throw ErrSvcStaleActor
  else
    let next := u64 (asCommandCount state + 1) in
    let commandSeq := if tk_ActorCommandSeq task =? 0 then next else tk_ActorCommandSeq task in
    if negb (commandSeq =? next) then throw ErrSvcActorOrder
    else
      spec ← gets (λ s, specForTask s (tk_TaskID task));
      match spec with
      | None => throw ErrSvcSpecNotFound
      | Some spec =>
          if cr_Status req =? TASK_STATUS_FAILED then failActorCommand task req spec commandSeq
          else
            let stateJSON := NormalizeJSON (cr_ActorStateJson req) in
            t ← now;
            _ ← append_actor (tk_ActorID task) "ActorCommandApplied" (tk_ActorID task +:+ ":" +:+ tk_ActorCallID task +:+ ":applied")
                  (command_of (tk_ActorID task) (tk_ActorCallID task) commandSeq (ts_ActorMethod spec) (ts_ArgsJson spec)
                     (Some (cr_ResultJson req)) (Some stateJSON) "" (cr_WorkerId req) (cr_ActorEpoch req) commandSeq t);
            updated ← updateActor (tk_ActorID task) (λ a,
              set_command commandSeq (asSubmittedCommandCount a) stateJSON (cr_WorkerId req) (cr_ActorEpoch req) a);
            if (0 <? asSnapshotEvery updated) && (asCommandCount updated mod asSnapshotEvery updated =? 0)
            then createActorSnapshot updated else mret ()
      end.

(** [bootstrapActors]; an actor whose replay fails is left out. *)
Fixpoint drop_prefix (n : nat) (s : string) : string :=
  match n, s with S n, String.String _ s => drop_prefix n s | _, _ => s end.
Definition bootstrapActorStream (streamID : string) : M unit :=
  replayed ← try (replayActor (drop_prefix 6 streamID));
  match replayed with
  | Err _ => mret ()
  | Ok r => modify (λ s, set_actors (UpsertActor (sv_actors s) (rrState r)) s)
  end.
Definition bootstrapActors : M unit :=
  streams ← listStreams "actor:";
  for_each streams bootstrapActorStream.
End Actors.
