(* ===== verification/ControlWorkflows.v ===== *)
(** Workflows and LLM statistics in the control service: normalisation of a
    submitted definition, scheduling of ready steps, step and workflow completion,
    and the statistics of finished LLM tasks (internal/control/service.go,
    functions.go, llm.go).

    [scheduleReadySteps] takes one round per step it schedules; the fuel is the
    number of steps. *)
From S2P Require Import Prelude Bytes LogRecord EventCodec TaskSpec MetaStore TaskReplay Placement Scheduler WorkerStore WorkflowDef WorkflowState WorkflowReplay Actor MetaDomains WorkflowArgs ServiceState ControlTasks ControlDispatch ControlActors.

Open Scope Z_scope.

(** [llmEventPayload] *)
Record llmEventPayload := {
  le_TaskID : string; le_ModelName : string; le_ModelVersion : string; le_WorkerID : string; le_CacheHit : bool;
  le_CheckpointFetchMs : Z; le_CacheUsedBytes : Z; le_CacheCapacityBytes : Z; le_EvictionCount : Z; le_ModelLoadMs : Z;
  le_FirstTokenMs : Z; le_TotalLatencyMs : Z; le_TimestampMs : Z
}.
(** JSON of definitions, LLM events and prompts *)
Class ControlJSON := {
  json_LLMEvent : bytes → option llmEventPayload;
  json_Definition : WorkflowDefinition → option bytes;
  json_Prompt : string → option bytes
}.

(** Event payloads from their non-zero fields. *)
Definition step_event (workflowID stepID taskID : string) (ts : Z) : WorkflowEventPayload :=
  {| wpWorkflowID := workflowID; wpWorkflowName := ""; wpDefinitionJSON := None; wpStepID := stepID; wpTaskID := taskID;
     wpAttempt := 0; wpInputHash := ""; wpResolvedArgsJSON := None; wpResultJSON := None; wpResultRef := ""; wpError := "";
     wpIdempotencyKey := ""; wpIdempotencyFingerprint := ""; wpTimestampMs := ts; wpLatencyMs := 0 |}.
Definition scheduled_event (workflowID stepID taskID : string) (attempt : Z) (inputHash : string) (args : bytes) (ts : Z) :
    WorkflowEventPayload :=
  {| wpWorkflowID := workflowID; wpWorkflowName := ""; wpDefinitionJSON := None; wpStepID := stepID; wpTaskID := taskID;
     wpAttempt := attempt; wpInputHash := inputHash; wpResolvedArgsJSON := Some args; wpResultJSON := None; wpResultRef := "";
     wpError := ""; wpIdempotencyKey := ""; wpIdempotencyFingerprint := ""; wpTimestampMs := ts; wpLatencyMs := 0 |}.
Definition outcome_event (workflowID stepID taskID : string) (resultJSON : option bytes) (ref err : string) (ts latency : Z) :
    WorkflowEventPayload :=
  {| wpWorkflowID := workflowID; wpWorkflowName := ""; wpDefinitionJSON := None; wpStepID := stepID; wpTaskID := taskID;
     wpAttempt := 0; wpInputHash := ""; wpResolvedArgsJSON := None; wpResultJSON := resultJSON; wpResultRef := ref; wpError := err;
     wpIdempotencyKey := ""; wpIdempotencyFingerprint := ""; wpTimestampMs := ts; wpLatencyMs := latency |}.
Definition started_event (workflowID name : string) (definition : bytes) (key fingerprint : string) (ts : Z) : WorkflowEventPayload :=
  {| wpWorkflowID := workflowID; wpWorkflowName := name; wpDefinitionJSON := Some definition; wpStepID := ""; wpTaskID := "";
     wpAttempt := 0; wpInputHash := ""; wpResolvedArgsJSON := None; wpResultJSON := None; wpResultRef := ""; wpError := "";
     wpIdempotencyKey := key; wpIdempotencyFingerprint := fingerprint; wpTimestampMs := ts; wpLatencyMs := 0 |}.

(** The assignments of [completeWorkflow] and [failWorkflow]. *)
Definition set_outcome (status : WorkflowStatus) (resultJSON : bytes) (ref err : string) (completedAt : Z) (s : WorkflowState) : WorkflowState :=
  {| wsWorkflowID := wsWorkflowID s; wsWorkflowName := wsWorkflowName s; wsStatus := status; wsDefinition := wsDefinition s;
     wsStepOrder := wsStepOrder s; wsResultJSON := resultJSON; wsResultRef := ref; wsError := err;
     wsIdempotencyKey := wsIdempotencyKey s; wsIdempotencyFingerprint := wsIdempotencyFingerprint s;
     wsCreatedAtMs := wsCreatedAtMs s; wsUpdatedAtMs := wsUpdatedAtMs s; wsCompletedAtMs := completedAt; wsDag := wsDag s |}.

Definition with_step_function (st : StepDefinition) (name source ref hash : string) : StepDefinition := {|
  sdStepID := sdStepID st; sdTaskName := sdTaskName st; sdFunctionName := name; sdFunctionSource := source;
  sdFunctionRef := ref; sdFunctionHash := hash; sdArgsJSON := sdArgsJSON st; sdDependsOn := sdDependsOn st;
  sdMaxAttempts := sdMaxAttempts st; sdTimeoutMs := sdTimeoutMs st; sdLLMModelName := sdLLMModelName st;
  sdLLMModelVersion := sdLLMModelVersion st; sdLLMAdapter := sdLLMAdapter st; sdLLMMaxTokens := sdLLMMaxTokens st |}.
Definition with_step_model (st : StepDefinition) (name version adapter : string) (maxTokens : Z) : StepDefinition := {|
  sdStepID := sdStepID st; sdTaskName := sdTaskName st; sdFunctionName := sdFunctionName st;
  sdFunctionSource := sdFunctionSource st; sdFunctionRef := sdFunctionRef st; sdFunctionHash := sdFunctionHash st;
  sdArgsJSON := sdArgsJSON st; sdDependsOn := sdDependsOn st; sdMaxAttempts := sdMaxAttempts st; sdTimeoutMs := sdTimeoutMs st;
  sdLLMModelName := name; sdLLMModelVersion := version; sdLLMAdapter := adapter; sdLLMMaxTokens := maxTokens |}.
Definition with_definition (def : WorkflowDefinition) (name source ref hash : string) (steps : list StepDefinition) (result : string) :
    WorkflowDefinition :=
  {| dfWorkflowName := name; dfFunctionSource := source; dfFunctionRef := ref; dfFunctionHash := hash;
     dfArgsJSON := dfArgsJSON def; dfSteps := steps; dfResultStepID := result; dfMaxAttempts := dfMaxAttempts def;
     dfTimeoutMs := dfTimeoutMs def |}.

(** [updateEWMA]; Go's division truncates. *)
Definition updateEWMA (previous sample count : Z) : Z :=
  if count <=? 1 then sample else Z.quot (i64 (i64 (previous * 7) + i64 (sample * 3))) 10.

Section Workflows.
Context `{Env, MsgpackLib, TaskCodecLib, FingerprintLib, RegistryJSON, ActorJSON, ArgsLib, ControlJSON, DefinitionJSON}.

Definition append_workflow (id eventType key : string) (p : WorkflowEventPayload) : M RawRecord :=
  appendLog {| al_StreamId := workflowStream id; al_EventType := eventType; al_IdempotencyKey := key;
               al_Payload := payload_or_nil (WorkflowReplay.MarshalEventPayload p) |}.

(** ** Definitions *)

Definition isWorkflowLLMStep (st : StepDefinition) : bool :=
  negb (str_empty (TrimSpace (sdLLMModelName st))) || bool_decide (TrimSpace (sdFunctionName st) = "__logserve_llm__").

(** [normalizeWorkflowLLMStep] *)
Definition normalizeWorkflowLLMStep (st : StepDefinition) : M StepDefinition :=
  let name := TrimSpace (sdLLMModelName st) in
  if str_empty name then throw ErrSvcFunction
  else
    let version := first_nonempty (TrimSpace (sdLLMModelVersion st)) "v1" in
    model ← gets (λ s, GetModel (sv_models s) name version);
    match model with
    | None => throw ErrSvcFunction
    | Some model =>
        let adapter := first_nonempty (first_nonempty (TrimSpace (sdLLMAdapter st)) (mi_Adapter model)) "mock" in
        mret (with_step_model (with_step_function st "__logserve_llm__" "" "" "") name version adapter
                (if sdLLMMaxTokens st =? 0 then 64 else sdLLMMaxTokens st))
    end.

Fixpoint normalize_steps (steps : list StepDefinition) : M (list StepDefinition) :=
  match steps with
  | [] => mret []
  | st :: steps =>
      st ← (if isWorkflowLLMStep st then normalizeWorkflowLLMStep st
            else
              '(ref, hash) ← ensureFunctionRegistered (sdFunctionName st) (sdFunctionSource st) (sdFunctionRef st) (sdFunctionHash st);
              mret (with_step_function st (sdFunctionName st) "" ref hash));
      rest ← normalize_steps steps;
      mret (st :: rest)
  end.
(** [normalizeWorkflowDefinition] *)
Definition normalizeWorkflowDefinition (def : WorkflowDefinition) : M WorkflowDefinition :=
  let blank x := str_empty (TrimSpace x) in
  def ← (if blank (dfFunctionSource def) && blank (dfFunctionHash def) && blank (dfFunctionRef def) then mret def
         else
           '(ref, hash) ← ensureFunctionRegistered (dfWorkflowName def) (dfFunctionSource def) (dfFunctionRef def) (dfFunctionHash def);
           mret (with_definition def (dfWorkflowName def) "" ref hash (dfSteps def) (dfResultStepID def)));
  steps ← normalize_steps (dfSteps def);
  mret (with_Steps def steps).

(** ** Scheduling *)

(** The task of a step's attempt. *)
Definition step_spec (workflowID taskID : string) (st : StepDefinition) (argsJSON : bytes) (key : string) : TaskSpec := {|
  ts_TaskId := taskID; ts_TaskName := sdTaskName st; ts_FunctionName := sdFunctionName st;
  ts_FunctionSource := sdFunctionSource st; ts_FunctionRef := sdFunctionRef st; ts_FunctionHash := sdFunctionHash st;
  ts_ArgsJson := argsJSON; ts_IdempotencyKey := key; ts_WorkflowId := workflowID; ts_StepId := sdStepID st;
  ts_TargetWorkerId := ""; ts_ActorId := ""; ts_ActorCallId := ""; ts_ActorClassName := ""; ts_ActorClassSource := "";
  ts_ActorMethod := ""; ts_ActorStateJson := []; ts_ActorInitArgsJson := []; ts_ActorEpoch := 0;
  ts_LlmModelName := sdLLMModelName st; ts_LlmModelVersion := sdLLMModelVersion st; ts_LlmAdapter := sdLLMAdapter st;
  ts_LlmMaxTokens := sdLLMMaxTokens st; ts_TimeoutMs := sdTimeoutMs st; ts_TaskLeaseEpoch := 0 |}.

Definition attempt_key (workflowID stepID inputHash : string) (attempt : Z) : string :=
  workflowID +:+ ":" +:+ stepID +:+ ":" +:+ inputHash +:+ ":attempt:" +:+ format_uint attempt.

(** The body of the loop: schedule one ready step. *)
Definition schedule_step (workflowID : string) (state : WorkflowState) (stepDef : StepDefinition) (step : StepState) : M unit :=
  s ← gets id;
  '(argsJSON, inputHash) ← of_result ErrSvcArgs (ResolveCachedArgs stepDef step state (Some (LoadResult s)));
  let attempt := u32 (ssAttempts step + 1) in
  taskID ← fresh_id;
  t ← now;
  '(task, _) ← enqueueTask (step_spec workflowID taskID stepDef argsJSON (attempt_key workflowID (sdStepID stepDef) inputHash attempt));
  _ ← append_workflow workflowID "StepScheduled"
        (workflowID +:+ ":" +:+ sdStepID stepDef +:+ ":" +:+ inputHash +:+ ":scheduled:" +:+ format_uint attempt)
        (scheduled_event workflowID (sdStepID stepDef) (tk_TaskID task) attempt inputHash argsJSON t);
  _ ← updateWorkflow workflowID (λ w, (SetStepScheduled w (sdStepID stepDef) (tk_TaskID task) attempt inputHash (Some argsJSON) t).1);
  mret ().
Fixpoint schedule_loop (fuel : nat) (workflowID : string) (state : WorkflowState) : M unit :=
  match PopReadyStep state with
  | (_, None) => mret ()
  | (state, Some (stepDef, step)) =>
      match fuel with
      | O => λ _, None
      | S fuel =>
          _ ← schedule_step workflowID state stepDef step;
          '(state, _) ← gets (λ s, GetWorkflow (sv_workflows s) workflowID);
          schedule_loop fuel workflowID state
      end
  end.
(** [scheduleReadySteps] *)
Definition scheduleReadySteps (workflowID : string) : M unit :=
  '(state, ok) ← gets (λ s, GetWorkflow (sv_workflows s) workflowID);
  if negb ok then throw ErrSvcWorkflowNotFound
  else if negb (bool_decide (wsStatus state = WORKFLOW_STATUS_RUNNING)) then mret ()
  else schedule_loop (length (dfSteps (wsDefinition state))) workflowID state.

(** ** Progress of steps *)

(** [markWorkflowStepStarted] *)
Definition markWorkflowStepStarted (task : Task) (workerID : string) : M unit :=
  '(state, ok) ← gets (λ s, GetWorkflow (sv_workflows s) (tk_WorkflowID task));
  if negb ok then throw ErrSvcWorkflowNotFound
  else
    match Step state (tk_StepID task) with
    | None => throw ErrSvcStepNotFound
    | Some step =>
        if bool_decide (ssStatus step = WORKFLOW_STEP_STATUS_SUCCEEDED) || bool_decide (ssStatus step = WORKFLOW_STEP_STATUS_FAILED)
        then mret ()
        else
          t ← now;
          _ ← append_workflow (tk_WorkflowID task) "StepStarted"
                (tk_WorkflowID task +:+ ":" +:+ tk_StepID task +:+ ":" +:+ tk_TaskID task +:+ ":started:" +:+ workerID)
                (step_event (tk_WorkflowID task) (tk_StepID task) (tk_TaskID task) t);
          _ ← updateWorkflow (tk_WorkflowID task) (λ w, (SetStepStarted w (tk_StepID task) (tk_TaskID task) t).1);
          mret ()
    end.

(** [materializeResult]: inline bytes and reference. *)
Definition materializeResult (resultJSON : bytes) : M (bytes * string) :=
  cf ← gets sv_config;
  if (cf_resultInlineThreshold cf <? Z.of_nat (length resultJSON)) && cf_resultStore cf
  then ref ← putBytes resultJSON; mret ([], ref)
  else mret (resultJSON, "").

(** [workflowDone] *)
Definition workflowDone (state : WorkflowState) : bool := AllStepsSucceeded state.

(** [completeWorkflow] *)
Definition completeWorkflow (state : WorkflowState) : M unit :=
  match Step state (dfResultStepID (wsDefinition state)) with
  | None => throw ErrSvcStepNotFound
  | Some resultStep =>
      resultJSON ← (match ssResultJSON resultStep, str_empty (ssResultRef resultStep) with
                    | [], false =>
                        s ← gets id;
                        match LoadResult s (ssResultRef resultStep) with None => throw ErrSvcObjectStore | Some data => mret data end
                    | data, _ => mret data
                    end);
      '(inline, ref) ← materializeResult resultJSON;
      t ← now;
      _ ← append_workflow (wsWorkflowID state) "WorkflowCompleted" (wsWorkflowID state +:+ ":completed")
            (outcome_event (wsWorkflowID state) "" "" (Some inline) ref "" t (i64 (t - wsCreatedAtMs state)));
      _ ← updateWorkflow (wsWorkflowID state) (set_outcome WORKFLOW_STATUS_COMPLETED inline ref "" t);
      mret ()
  end.

(** [failWorkflow] *)
Definition failWorkflow (state : WorkflowState) (taskErr : string) : M unit :=
  t ← now;
  _ ← append_workflow (wsWorkflowID state) "WorkflowFailed" (wsWorkflowID state +:+ ":failed")
        (outcome_event (wsWorkflowID state) "" "" None "" taskErr t 0);
  _ ← updateWorkflow (wsWorkflowID state) (λ w, set_outcome WORKFLOW_STATUS_FAILED (wsResultJSON w) (wsResultRef w) taskErr t w);
  mret ().

(** [completeWorkflowStep]: whether more steps should be scheduled *)
Definition completeWorkflowStep (task : Task) (status : Z) (resultJSON : bytes) (taskErr : string) : M bool :=
  let workflowID := tk_WorkflowID task in
  let stepID := tk_StepID task in
  '(state, ok) ← gets (λ s, GetWorkflow (sv_workflows s) workflowID);
  if negb ok then throw ErrSvcWorkflowNotFound
  else
    match Step state stepID with
    | None => throw ErrSvcStepNotFound
    | Some step =>
        if bool_decide (ssStatus step = WORKFLOW_STEP_STATUS_SUCCEEDED) then mret false
        else
          t ← now;
          let latencyMs := if 0 <? ssStartedAtMs step then i64 (t - ssStartedAtMs step) else 0 in
          if status =? TASK_STATUS_SUCCEEDED then
            '(inline, ref) ← materializeResult resultJSON;
            _ ← append_workflow workflowID "StepSucceeded"
                  (workflowID +:+ ":" +:+ stepID +:+ ":" +:+ ssLastInputHash step +:+ ":succeeded")
                  (outcome_event workflowID stepID (tk_TaskID task) (Some inline) ref "" t latencyMs);
            updated ← updateWorkflow workflowID (λ w, (SetStepSucceeded w stepID (tk_TaskID task) inline ref t latencyMs).1);
            if workflowDone updated then _ ← completeWorkflow updated; mret false else mret true
          else
            _ ← append_workflow workflowID "StepFailed"
                  (workflowID +:+ ":" +:+ stepID +:+ ":" +:+ tk_TaskID task +:+ ":failed")
                  (outcome_event workflowID stepID (tk_TaskID task) None "" taskErr t latencyMs);
            let retry := ssAttempts step <? StepMaxAttempts (wsDefinition state) stepID in
            updated ← updateWorkflow workflowID (λ w, (SetStepFailed w stepID (tk_TaskID task) taskErr retry t latencyMs).1);
            if retry then mret true else _ ← failWorkflow updated taskErr; mret false
    end.

(** ** LLM statistics *)

(** [materializeLLMCompleted] *)
Definition materializeLLMCompleted (p : llmEventPayload) : M unit :=
  if str_empty (le_ModelName p) || str_empty (le_WorkerID p) || (le_TotalLatencyMs p <=? 0) then mret ()
  else
    let version := first_nonempty (le_ModelVersion p) "v1" in
    updatedAt ← (if le_TimestampMs p =? 0 then now else mret (le_TimestampMs p));
    let key := {| lk_modelName := le_ModelName p; lk_modelVersion := version; lk_workerID := le_WorkerID p |} in
    old ← gets (λ s, default zero_stats (sv_llmStats s !! key));
    let count := u64 (ls_RequestCount old + 1) in
    let stats := {|
      ls_RequestCount := count;
      ls_CacheHitCount := if le_CacheHit p then u64 (ls_CacheHitCount old + 1) else ls_CacheHitCount old;
      ls_EWMATotalLatencyMs := updateEWMA (ls_EWMATotalLatencyMs old) (le_TotalLatencyMs p) count;
      ls_EWMAModelLoadMs := updateEWMA (ls_EWMAModelLoadMs old) (le_ModelLoadMs p) count;
      ls_EWMACheckpointFetchMs := updateEWMA (ls_EWMACheckpointFetchMs old) (le_CheckpointFetchMs p) count;
      ls_LastEvictionCount := le_EvictionCount p; ls_LastUpdatedMs := updatedAt |} in
    _ ← modify (λ s, set_llmStats (<[key := stats]> (sv_llmStats s)) s);
    schedule (λ sc, Scheduler_UpdateLLMStats sc (le_ModelName p) version (le_WorkerID p) stats).

Definition with_le_Timestamp (p : llmEventPayload) (ts : Z) : llmEventPayload :=
  {| le_TaskID := le_TaskID p; le_ModelName := le_ModelName p; le_ModelVersion := le_ModelVersion p; le_WorkerID := le_WorkerID p;
     le_CacheHit := le_CacheHit p; le_CheckpointFetchMs := le_CheckpointFetchMs p; le_CacheUsedBytes := le_CacheUsedBytes p;
     le_CacheCapacityBytes := le_CacheCapacityBytes p; le_EvictionCount := le_EvictionCount p; le_ModelLoadMs := le_ModelLoadMs p;
     le_FirstTokenMs := le_FirstTokenMs p; le_TotalLatencyMs := le_TotalLatencyMs p; le_TimestampMs := ts |}.
(** [materializeLLMTaskCompletion]: the first completion event of the task's LLM stream *)
Definition materializeLLMTaskCompletion (taskID : string) : M unit :=
  records ← forEachRawLogRecord (llmStream taskID) 1;
  match List.find (λ r, bool_decide (raw_EventType r = "LLMCompleted")) records with
  | None => mret ()
  | Some rec =>
      match json_LLMEvent (raw_Payload rec) with
      | None => throw ErrSvcReplay
      | Some p => materializeLLMCompleted (if le_TimestampMs p =? 0 then with_le_Timestamp p (raw_TimestampMs rec) else p)
      end
  end.
End Workflows.
