(* ===== verification/ControlService.v ===== *)
(** The control service's requests and its restart (internal/control/service.go,
    llm.go, bootstrap.go): submission, start and completion of tasks, workers, and the
    parts of the replay that rebuilds the state from the log; [Checkpoint] puts them
    together. *)
From S2P Require Import Prelude Bytes LogRecord EventCodec TaskSpec MetaStore TaskReplay Placement Scheduler WorkerStore WorkflowDef WorkflowState WorkflowReplay Actor MetaDomains WorkflowArgs ServiceState ControlTasks ControlDispatch ControlActors ControlWorkflows.

Open Scope Z_scope.

Record SubmitTaskRequest := {
  sb_TaskName : string; sb_FunctionName : string; sb_FunctionSource : string; sb_FunctionRef : string; sb_FunctionHash : string;
  sb_ArgsJson : bytes; sb_IdempotencyKey : string
}.
Record SubmitLLMRequest := {
  sl_ModelName : string; sl_ModelVersion : string; sl_Adapter : string; sl_Prompt : string; sl_MaxTokens : Z; sl_IdempotencyKey : string
}.
Record SubmitWorkflowRequest := { sw_WorkflowName : string; sw_DefinitionJson : bytes; sw_IdempotencyKey : string }.
Record RegisterWorkerRequest := {
  rw_WorkerId : string; rw_Address : string; rw_Labels : gmap string string; rw_CachedModels : list (string * string); rw_Capacity : Z
}.
(** [json.Marshal] of a registration and the decoder of [bootstrapWorkers]; the
    other system streams' decoders; a JSON object is decoded into a payload that
    keeps the fields it does not name *)
Class SystemJSON := {
  json_WorkerRegistered : RegisterWorkerRequest → bytes;
  json_WorkerPayload : bytes → option RegisterWorkerRequest;
  json_Model : bytes → option ModelInfo;
  json_Policy : bytes → option (option Z);
  json_Backpressure : Z * Z * Z → bytes → option (Z * Z * Z)
}.

(** [modelCacheFromProto] *)
Definition modelCacheFromProto (entries : list (string * string)) : gmap string bool :=
  foldl (λ m '(name, version), if str_empty name then m else <[ModelKey name version := true]> m) ∅ entries.

Definition with_policy (policy : Z) (cf : Config) : Config := {|
  cf_schedulerV2 := cf_schedulerV2 cf; cf_schedulingPolicy := policy; cf_queueHighWatermark := cf_queueHighWatermark cf;
  cf_redeliveryTimeout := cf_redeliveryTimeout cf; cf_logAppendSlowLimit := cf_logAppendSlowLimit cf;
  cf_resultInlineThreshold := cf_resultInlineThreshold cf; cf_resultStore := cf_resultStore cf |}.
Definition with_limits (watermark timeout slow : Z) (cf : Config) : Config := {|
  cf_schedulerV2 := cf_schedulerV2 cf; cf_schedulingPolicy := cf_schedulingPolicy cf;
  cf_queueHighWatermark := if 0 <? watermark then watermark else cf_queueHighWatermark cf;
  cf_redeliveryTimeout := if 0 <? timeout then i64 (timeout * 1000000) else cf_redeliveryTimeout cf;
  cf_logAppendSlowLimit := if 0 <? slow then i64 (slow * 1000000) else cf_logAppendSlowLimit cf;
  cf_resultInlineThreshold := cf_resultInlineThreshold cf; cf_resultStore := cf_resultStore cf |}.

Section Control.
Context `{Env, MsgpackLib, TaskCodecLib, FingerprintLib, RegistryJSON, ActorJSON, ArgsLib, ControlJSON, DefinitionJSON, WorkflowEventJSON, SystemJSON}.

(** ** Submission *)

(** [SubmitTask]: the task's ID and status *)
Definition SubmitTask (req : SubmitTaskRequest) : M (string * Z) :=
  if str_empty (sb_TaskName req) || str_empty (sb_FunctionName req) ||
     (str_empty (sb_FunctionSource req) && str_empty (sb_FunctionRef req) && str_empty (sb_FunctionHash req))
  then throw ErrSvcFunction
  else
    taskID ← fresh_id;
    '(task, _) ← enqueueTask {|
      ts_TaskId := taskID; ts_TaskName := sb_TaskName req; ts_FunctionName := sb_FunctionName req;
      ts_FunctionSource := sb_FunctionSource req; ts_FunctionRef := sb_FunctionRef req; ts_FunctionHash := sb_FunctionHash req;
      ts_ArgsJson := sb_ArgsJson req; ts_IdempotencyKey := sb_IdempotencyKey req; ts_WorkflowId := ""; ts_StepId := "";
      ts_TargetWorkerId := ""; ts_ActorId := ""; ts_ActorCallId := ""; ts_ActorClassName := ""; ts_ActorClassSource := "";
      ts_ActorMethod := ""; ts_ActorStateJson := []; ts_ActorInitArgsJson := []; ts_ActorEpoch := 0; ts_LlmModelName := "";
      ts_LlmModelVersion := ""; ts_LlmAdapter := ""; ts_LlmMaxTokens := 0; ts_TimeoutMs := 0; ts_TaskLeaseEpoch := 0 |};
    mret (tk_TaskID task, tk_Status task).

(** [SubmitLLM] *)
Definition SubmitLLM (req : SubmitLLMRequest) : M (string * Z) :=
  if str_empty (sl_ModelName req) || str_empty (sl_Prompt req) then throw ErrSvcFunction
  else
    let version := first_nonempty (sl_ModelVersion req) "v1" in
    model ← gets (λ s, GetModel (sv_models s) (sl_ModelName req) version);
    match model with
    | None => throw ErrSvcFunction
    | Some model =>
        let adapter := first_nonempty (first_nonempty (sl_Adapter req) (mi_Adapter model)) "mock" in
        match json_Prompt (sl_Prompt req) with
        | None => throw ErrSvcPayload
        | Some argsJSON =>
            taskID ← fresh_id;
            '(task, _) ← enqueueTask {|
              ts_TaskId := taskID; ts_TaskName := "llm:" +:+ sl_ModelName req; ts_FunctionName := "__logserve_llm__";
              ts_FunctionSource := ""; ts_FunctionRef := ""; ts_FunctionHash := ""; ts_ArgsJson := argsJSON;
              ts_IdempotencyKey := sl_IdempotencyKey req; ts_WorkflowId := ""; ts_StepId := ""; ts_TargetWorkerId := "";
              ts_ActorId := ""; ts_ActorCallId := ""; ts_ActorClassName := ""; ts_ActorClassSource := ""; ts_ActorMethod := "";
              ts_ActorStateJson := []; ts_ActorInitArgsJson := []; ts_ActorEpoch := 0; ts_LlmModelName := sl_ModelName req;
              ts_LlmModelVersion := version; ts_LlmAdapter := adapter;
              ts_LlmMaxTokens := if sl_MaxTokens req =? 0 then 64 else sl_MaxTokens req; ts_TimeoutMs := 0; ts_TaskLeaseEpoch := 0 |};
            mret (tk_TaskID task, tk_Status task)
        end
    end.

(** [workflowFingerprint] *)
Definition workflowFingerprint (name : string) (def : WorkflowDefinition) : result idempotency_error string :=
  match json_Definition def with
  | None => Err ErrFingerprint
  | Some definition =>
      value ← jsonValueForFingerprint definition;
      stableFingerprint [("workflow_name", inl (inl name)); ("definition_json", inr value)]
  end.

(** [SubmitWorkflow] *)
Definition SubmitWorkflow (req : SubmitWorkflowRequest) : M (string * WorkflowStatus) :=
  if str_empty (sw_WorkflowName req) || bool_decide (sw_DefinitionJson req = []) then throw ErrSvcPayload
  else
    def ← of_result (λ _, ErrSvcPayload) (ParseDefinition (sw_DefinitionJson req));
    let name := first_nonempty (dfWorkflowName def) (sw_WorkflowName req) in
    match last (dfSteps def) with
    | None => throw ErrSvcPayload
    | Some lastStep =>
        let result := first_nonempty (dfResultStepID def) (sdStepID lastStep) in
        def ← normalizeWorkflowDefinition
                (with_definition def name (dfFunctionSource def) (dfFunctionRef def) (dfFunctionHash def) (dfSteps def) result);
        fingerprint ← of_result ErrSvcIdempotency (workflowFingerprint (sw_WorkflowName req) def);
        let key := sw_IdempotencyKey req in
        existing ← gets (λ s, GetWorkflowByIdempotencyKey (sv_workflows s) key);
        match existing with
        | Some w =>
            _ ← of_result ErrSvcIdempotency (ensureIdempotencyFingerprint "workflow" key (wsIdempotencyFingerprint w) fingerprint);
            mret (wsWorkflowID w, wsStatus w)
        | None =>
            workflowID ← fresh_id;
            t ← now;
            let state := with_idempotency (WorkflowState.NewState workflowID def t) key fingerprint in
            match json_Definition def with
            | None => throw ErrSvcPayload
            | Some definitionJSON =>
                _ ← append_workflow workflowID "WorkflowStarted" (workflowID +:+ ":started")
                      (started_event workflowID (dfWorkflowName def) definitionJSON key fingerprint t);
                '(created, duplicate) ← on sv_workflows set_workflows (λ d, CreateWorkflow d state key);
                if duplicate : bool then
                  _ ← of_result ErrSvcIdempotency (ensureIdempotencyFingerprint "workflow" key (wsIdempotencyFingerprint created) fingerprint);
                  mret (wsWorkflowID created, wsStatus created)
                else
                  _ ← metadataPersisted;
                  _ ← scheduleReadySteps workflowID;
                  mret (workflowID, WORKFLOW_STATUS_RUNNING)
            end
        end
    end.

(** ** Workers *)

(** [RegisterWorker] *)
Definition RegisterWorker (req : RegisterWorkerRequest) : M unit :=
  if str_empty (rw_WorkerId req) then throw ErrSvcWorkerRequired
  else
    text ← stamp;
    _ ← appendLog {| al_StreamId := "system:workers"; al_EventType := "WorkerRegistered";
                     al_IdempotencyKey := rw_WorkerId req +:+ ":registered:" +:+ text; al_Payload := json_WorkerRegistered req |};
    t ← now;
    _ ← modify (λ s, set_workers (WorkerStore.Legacy.UpsertWorker (sv_workers s)
          {| wi_Address := rw_Address req; wi_Labels := rw_Labels req;
             wi_worker := {| wk_WorkerID := rw_WorkerId req; wk_CachedModels := modelCacheFromProto (rw_CachedModels req);
                             wk_Capacity := rw_Capacity req; wk_RunningTasks := 0; wk_LastHeartbeat := 0 |} |} t) s);
    _ ← updateSchedulerWorker (rw_WorkerId req);
    metadataPersisted.

(** [Heartbeat]; the request's models are always a non-nil map. *)
Definition Heartbeat (workerID : string) (cachedModels : list (string * string)) : M unit :=
  if str_empty workerID then throw ErrSvcWorkerRequired
  else
    t ← now;
    _ ← on sv_workers set_workers (λ w, WorkerStore.Legacy.Heartbeat w workerID (Some (modelCacheFromProto cachedModels)) t);
    _ ← updateSchedulerWorker workerID;
    metadataPersisted.

(** ** Start and completion of a task *)

(** [appendTaskStarted] *)
Definition started_key (taskID workerID : string) (epoch : Z) : string :=
  taskID +:+ ":started:" +:+ workerID +:+ ":" +:+ format_uint epoch.
Definition appendTaskStarted (task : Task) (workerID : string) : M unit :=
  t ← now;
  payload ← of_result (λ _, ErrSvcPayload) (marshalTaskLifecyclePayload
    {| lp_TaskLeaseEpoch := tk_TaskLeaseEpoch task; lp_WorkerID := workerID; lp_ResultJSON := None; lp_Error := ""; lp_TimestampMs := t |});
  _ ← appendLog {| al_StreamId := taskStream (tk_TaskID task); al_EventType := "TaskStarted";
                   al_IdempotencyKey := started_key (tk_TaskID task) workerID (tk_TaskLeaseEpoch task); al_Payload := payload |};
  mret ().

(** [taskTerminalIdempotencyKey] *)
Definition taskTerminalIdempotencyKey (taskID eventType workerID : string) (leaseEpoch : Z) : string :=
  taskID +:+ ":" +:+ eventType +:+ ":" +:+ workerID +:+ ":" +:+ format_uint leaseEpoch.
(** [taskTerminalLogPayload] *)
Definition taskTerminalLogPayload (task : Task) (resultJSON : bytes) (taskErr : string) (t : Z) : bytes :=
  payload_or_nil (marshalTaskLifecyclePayload
    {| lp_TaskLeaseEpoch := tk_TaskLeaseEpoch task; lp_WorkerID := tk_WorkerID task; lp_ResultJSON := Some resultJSON;
       lp_Error := taskErr; lp_TimestampMs := t |}).
(** [appendTaskTerminal] *)
Definition terminal_event (status : Z) : string := if status =? TASK_STATUS_FAILED then "TaskFailed" else "TaskCompleted".
Definition appendTaskTerminal (task : Task) (status : Z) (resultJSON : bytes) (taskErr : string) : M unit :=
  t ← now;
  let eventType := terminal_event status in
  _ ← appendLog {| al_StreamId := taskStream (tk_TaskID task); al_EventType := eventType;
                   al_IdempotencyKey := taskTerminalIdempotencyKey (tk_TaskID task) eventType (tk_WorkerID task) (tk_TaskLeaseEpoch task);
                   al_Payload := taskTerminalLogPayload task resultJSON taskErr t |};
  mret ().

Definition validateTaskLease (taskID workerID : string) (epoch : Z) : M Task :=
  r ← gets (λ s, ValidateTaskLease (sv_meta s) taskID workerID epoch); of_result ErrSvcStore r.

(** [StartTask] *)
Definition StartTask (taskID workerID : string) (epoch : Z) : M unit :=
  task ← validateTaskLease taskID workerID epoch;
  if isTerminalTaskStatus (tk_Status task) then mret ()
  else
    _ ← appendTaskStarted task workerID;
    if negb (str_empty (tk_ActorID task)) then mret ()
    else if negb (str_empty (tk_WorkflowID task)) then markWorkflowStepStarted task workerID
    else mret ().

(** The store's completion and the release of the worker's load. *)
Definition settle_task (req : CompleteTaskRequest) (existing : Task) (ok : bool) : M Task :=
  t ← now;
  r ← on sv_meta set_meta (λ m, MetaStore.CompleteTask m (cr_TaskId req) (cr_WorkerId req) (cr_TaskLeaseEpoch req) (cr_Status req)
                                 (cr_ResultJson req) (cr_Error req) t);
  task ← of_result ErrSvcStore r;
  _ ← (if ok && (tk_Status existing =? TASK_STATUS_RUNNING) then decrementWorkerLoad (cr_WorkerId req) else mret ());
  _ ← completeSchedulerRunning (cr_TaskId req);
  _ ← updateSchedulerWorker (cr_WorkerId req);
  mret task.

(** [CompleteTask] *)
Definition CompleteTask (req : CompleteTaskRequest) : M unit :=
  if negb (cr_Status req =? TASK_STATUS_SUCCEEDED) && negb (cr_Status req =? TASK_STATUS_FAILED) then throw ErrSvcCompleteStatus
  else
    '(existing, ok) ← getTask (cr_TaskId req);
    if ok && isTerminalTaskStatus (tk_Status existing) then completeSchedulerRunning (cr_TaskId req)
    else
      validated ← validateTaskLease (cr_TaskId req) (cr_WorkerId req) (cr_TaskLeaseEpoch req);
      if negb (str_empty (tk_ActorID validated)) then
        _ ← completeActorCall validated req;
        _ ← appendTaskTerminal validated (cr_Status req) (cr_ResultJson req) (cr_Error req);
        _ ← settle_task req existing ok;
        mret ()
      else
        _ ← appendTaskTerminal validated (cr_Status req) (cr_ResultJson req) (cr_Error req);
        task ← settle_task req existing ok;
        _ ← (if negb (str_empty (tk_LLMModelName task)) && (cr_Status req =? TASK_STATUS_SUCCEEDED)
                && negb (ok && isTerminalTaskStatus (tk_Status existing))
             then _ ← try (materializeLLMTaskCompletion (tk_TaskID task)); mret () else mret ());
        if str_empty (tk_WorkflowID task) then mret ()
        else
          shouldSchedule ← completeWorkflowStep task (cr_Status req) (cr_ResultJson req) (cr_Error req);
          if shouldSchedule : bool then scheduleReadySteps (tk_WorkflowID task) else mret ().

(** [CompleteTasks]: per request its outcome; [None] is a nil request. *)
Fixpoint complete_all (reqs : list (option CompleteTaskRequest)) (accepted : bool) (results : list (string * bool)) :
    M (bool * list (string * bool)) :=
  match reqs with
  | [] => mret (accepted, results)
  | None :: reqs => complete_all reqs false (results ++ [(EmptyString, false)])
  | Some req :: reqs =>
      r ← try (CompleteTask req);
      complete_all reqs (accepted && is_ok r) (results ++ [(cr_TaskId req, is_ok r)])
  end.
Definition CompleteTasks (reqs : list (option CompleteTaskRequest)) : M (bool * list (string * bool)) := complete_all reqs true [].

(** ** Restart *)

(** Back into the scheduler or the queue; a task is not queued twice. *)
Definition restore_queue (task : Task) (taskID : string) : M unit :=
  v2 ← useSchedulerV2;
  if v2 : bool then schedule (λ sc, Enqueue sc (schedulerMetaFromTask task))
  else modify (λ s, if decide (taskID ∈ sv_queue s) then s else set_queue (sv_queue s ++ [taskID]) s).

(** [restoreTaskReplayState] *)
Definition restoreTaskReplayState (state : taskReplayState) : M unit :=
  match rs_ok state, rs_spec state with
  | true, Some _ =>
      let task := finalTask state in
      t ← now;
      '(created, _) ← on sv_meta set_meta (λ m, CreateTask m task (tk_IdempotencyKey task) t);
      _ ← modify (λ s, set_specs (match final_spec state with Some sp => <[tk_TaskID task := sp]> (sv_specs s) | None => sv_specs s end) s);
      if (tk_Status created =? TASK_STATUS_QUEUED) || (tk_Status created =? TASK_STATUS_RUNNING)
      then restore_queue created (tk_TaskID created) else mret ()
  | _, _ => mret ()
  end.

(** One stream of [bootstrapTasks], and [bootstrapTasks] *)
Definition bootstrapTaskStream (streamID : string) : M unit :=
  records ← forEachRawLogRecord streamID 1;
  state ← of_result (λ _, ErrSvcReplay) (replayTaskMetadataRawEach (Some {| ti_records := records; ti_fails := false |}) None);
  restoreTaskReplayState state.
Definition bootstrapTasks : M unit :=
  streams ← listStreams "task:";
  for_each streams bootstrapTaskStream.

(** [prepareRetryableFailedSteps] *)
Definition prepareRetryableFailedSteps (state : WorkflowState) : WorkflowState :=
  if negb (bool_decide (wsStatus state = WORKFLOW_STATUS_RUNNING)) then state
  else
    foldl (λ w step,
      if negb (bool_decide (ssStatus step = WORKFLOW_STEP_STATUS_FAILED)) || (StepMaxAttempts (wsDefinition w) (ssStepID step) <=? ssAttempts step)
      then w
      else (SetStepFailed w (ssStepID step) (ssTaskID step) (ssError step) true (ssCompletedAtMs step) (ssLatencyMs step)).1)
      state (StepStatesInOrder state).

(** [restoreWorkflowTasks] *)
Definition restoreWorkflowTasks (state : WorkflowState) : M unit :=
  if negb (bool_decide (wsStatus state = WORKFLOW_STATUS_RUNNING)) then mret ()
  else
    for_each (dfSteps (wsDefinition state)) (λ stepDef,
      match Step state (sdStepID stepDef) with
      | None => mret ()
      | Some step =>
          if str_empty (ssTaskID step) || negb (bool_decide (ssStatus step = WORKFLOW_STEP_STATUS_SCHEDULED) ||
                                                bool_decide (ssStatus step = WORKFLOW_STEP_STATUS_STARTED))
          then mret ()
          else
            s ← gets id;
            '(argsJSON, inputHash) ← of_result ErrSvcArgs (ResolveCachedArgs stepDef step state (Some (LoadResult s)));
            let attempt := if ssAttempts step =? 0 then 1 else ssAttempts step in
            let key := attempt_key (wsWorkflowID state) (sdStepID stepDef) inputHash attempt in
            let spec := step_spec (wsWorkflowID state) (ssTaskID step) stepDef argsJSON key in
            fingerprint ← of_result ErrSvcIdempotency (taskSpecFingerprint spec);
            t ← now;
            '(created, _) ← on sv_meta set_meta (λ m, CreateTask m (task_record spec fingerprint) key t);
            _ ← modify (λ s, set_specs (<[ssTaskID step := spec]> (sv_specs s)) s);
            restore_queue created (ssTaskID step)
      end).

(** What follows the replay of a workflow, in [bootstrapWorkflowsWithScheduling] and in
    [bootstrapCheckpointWorkflows] *)
Definition restoreWorkflowState (schedule : bool) (state : WorkflowState) : M unit :=
  let state := prepareRetryableFailedSteps state in
  _ ← modify (λ s, set_workflows (UpsertWorkflow (sv_workflows s) state) s);
  if negb schedule then mret ()
  else
    _ ← restoreWorkflowTasks state;
    if bool_decide (wsStatus state = WORKFLOW_STATUS_RUNNING) then scheduleReadySteps (wsWorkflowID state) else mret ().

(** One stream of [bootstrapWorkflowsWithScheduling]; a stream whose replay fails is left out. *)
Definition bootstrapWorkflowStream (schedule : bool) (streamID : string) : M unit :=
  let workflowID := drop_prefix 3 streamID in
  records ← forEachRawLogRecord streamID 1;
  match WorkflowReplay.ReplayRawEach workflowID (Some {| WorkflowReplay.it_records := records; WorkflowReplay.it_fails := false |}) with
  | Err _ => mret ()
  | Ok state => restoreWorkflowState schedule state
  end.
Definition bootstrapWorkflowsWithScheduling (schedule : bool) : M unit :=
  streams ← listStreams "wf:";
  for_each streams (bootstrapWorkflowStream schedule).
(** [bootstrapWorkflows] *)
Definition bootstrapWorkflows : M unit := bootstrapWorkflowsWithScheduling true.

(** The records of a stream of one type, decoded; a decoder's error stops the replay. *)
Definition events_from {A} (id : string) (fromSeq : Z) (eventType : string) (decode : bytes → option A) (f : RawRecord → A → M unit) : M unit :=
  records ← forEachRawLogRecord id fromSeq;
  for_each records (λ rec,
    if negb (bool_decide (raw_EventType rec = eventType)) then mret ()
    else match decode (raw_Payload rec) with None => throw ErrSvcReplay | Some a => f rec a end).
Definition system_events {A} (id eventType : string) (decode : bytes → option A) (f : RawRecord → A → M unit) : M unit :=
  events_from id 1 eventType decode f.
(** [bootstrapModels] *)
Definition bootstrapModels : M unit :=
  system_events "system:models" "ModelRegistered" json_Model
    (λ _ m, modify (λ s, set_models (RegisterModel (sv_models s) m).1 s)).
(** [bootstrapWorkers] *)
Definition bootstrapWorkers : M unit :=
  system_events "system:workers" "WorkerRegistered" json_WorkerPayload (λ rec p,
    if str_empty (rw_WorkerId p) then mret ()
    else
      t ← now;
      _ ← modify (λ s, set_workers (WorkerStore.Legacy.UpsertWorker (sv_workers s)
            {| wi_Address := rw_Address p; wi_Labels := rw_Labels p;
               wi_worker := {| wk_WorkerID := rw_WorkerId p; wk_CachedModels := modelCacheFromProto (rw_CachedModels p);
                               wk_Capacity := rw_Capacity p; wk_RunningTasks := 0; wk_LastHeartbeat := raw_TimestampMs rec |} |} t) s);
      updateSchedulerWorker (rw_WorkerId p)).
(** The records of a system stream of one type, folded into a value; a decoder's error stops the replay. *)
Fixpoint fold_events {A} (eventType : string) (decode : A → bytes → option A) (a : A) (records : list RawRecord) : option A :=
  match records with
  | [] => Some a
  | rec :: records =>
      a ← (if bool_decide (raw_EventType rec = eventType) then decode a (raw_Payload rec) else Some a);
      fold_events eventType decode a records
  end.
Definition replay_events {A} (id eventType : string) (decode : A → bytes → option A) (a : A) : M A :=
  records ← forEachRawLogRecord id 1;
  match fold_events eventType decode a records with None => throw ErrSvcReplay | Some a => mret a end.
(** [bootstrapScheduler]: the last known policy; an unknown name decodes to [Some None]. *)
Definition bootstrapScheduler : M unit :=
  policy ← replay_events "system:scheduler" "SchedulingPolicyChanged"
    (λ policy data, p ← json_Policy data; Some (default policy p)) 0;
  if policy =? 0 then mret () else modify (λ s, set_config (with_policy policy (sv_config s)) s).
(** [bootstrapBackpressure]: all the records are decoded into one payload. *)
Definition bootstrapBackpressure : M unit :=
  '(watermark, timeout, slow) ← replay_events "system:backpressure" "BackpressureConfigured" json_Backpressure (0, 0, 0);
  modify (λ s, set_config (with_limits watermark timeout slow (sv_config s)) s).
(** [materializeLLMStreamFromSeq], which is also the body of [bootstrapLLMStats] *)
Definition materializeLLMStreamFromSeq (streamID : string) (fromSeq : Z) : M unit :=
  events_from streamID fromSeq "LLMCompleted" json_LLMEvent (λ rec p,
    materializeLLMCompleted (if le_TimestampMs p =? 0 then with_le_Timestamp p (raw_TimestampMs rec) else p)).
(** [bootstrapLLMStats] *)
Definition bootstrapLLMStats : M unit :=
  streams ← listStreams "llm:";
  _ ← modify (set_llmStats ∅);
  for_each streams (λ streamID, materializeLLMStreamFromSeq streamID 1).
(** [syncSchedulerLLMStats] *)
Definition syncSchedulerLLMStats : M unit :=
  s ← gets id;
  schedule (λ sc, with_placement sc (syncLLMStatsLocked (sc_placement sc)
    (map (λ '(k, st), ({| mk_name := lk_modelName k; mk_version := lk_modelVersion k |}, lk_workerID k, st)) (map_to_list (sv_llmStats s))))).
(** [syncSchedulerWorkers] *)
Definition syncSchedulerWorkers : M unit :=
  s ← gets id;
  range ← ticked (λ n, env_order n (elements (dom (sv_workers s))));
  _ ← for_each (WorkerStore.Legacy.ListWorkers (sv_workers s) range) (λ w, schedule (λ sc, Scheduler_UpsertWorker sc (wi_worker w)));
  syncSchedulerLLMStats.
End Control.
