(* ===== verification/ControlAdmin.v ===== *)
(** Administrative requests and read-only views of the control service
    (internal/control/llm.go, hardening.go, service.go, actor.go): models, the
    scheduling policy, backpressure limits; statuses, replays, the dashboard.

    Responses are records with the fields of the protocol messages; a list a range
    over a Go map produced is sorted as the code sorts it. *)
From S2P Require Import Prelude Bytes LogRecord EventCodec TaskSpec MetaStore TaskReplay Placement Scheduler WorkerStore WorkflowDef WorkflowState WorkflowReplay Actor MetaDomains WorkflowArgs ServiceState ControlTasks ControlDispatch ControlActors ControlWorkflows ControlService.

Open Scope Z_scope.

(** [json.Marshal] of the payloads: a model; a policy and a time; the three limits and a time *)
Class AdminJSON := {
  json_ModelPayload : ModelInfo → bytes;
  json_PolicyChanged : Z → Z → bytes;
  json_BackpressureChanged : Z * Z * Z → Z → bytes
}.
(** [GetStreamStats] of the log server: compactable records and bytes per stream, or an error *)
Class LogStats := { log_stats : nat → option (list (Z * Z)) }.

(** [normalizeModelInfo] *)
Definition normalizeModelInfo (m : ModelInfo) : ModelInfo := {|
  mi_Name := mi_Name m; mi_Version := first_nonempty (mi_Version m) "v1"; mi_SizeBytes := mi_SizeBytes m;
  mi_Path := mi_Path m; mi_Adapter := first_nonempty (mi_Adapter m) "mock" |}.

Definition with_durations (watermark timeout slow : Z) (cf : Config) : Config := {|
  cf_schedulerV2 := cf_schedulerV2 cf; cf_schedulingPolicy := cf_schedulingPolicy cf; cf_queueHighWatermark := watermark;
  cf_redeliveryTimeout := timeout; cf_logAppendSlowLimit := slow;
  cf_resultInlineThreshold := cf_resultInlineThreshold cf; cf_resultStore := cf_resultStore cf |}.

(** [GetTaskStatusResponse] *)
Record TaskStatusResponse := {
  tr_TaskId : string; tr_Status : Z; tr_ResultJson : bytes; tr_Error : string; tr_WorkerId : string;
  tr_CreatedAtMs : Z; tr_UpdatedAtMs : Z
}.
Definition taskStatusResponse (task : Task) : TaskStatusResponse := {|
  tr_TaskId := tk_TaskID task; tr_Status := tk_Status task; tr_ResultJson := tk_ResultJSON task; tr_Error := tk_Error task;
  tr_WorkerId := tk_WorkerID task; tr_CreatedAtMs := tk_CreatedAtMs task; tr_UpdatedAtMs := tk_UpdatedAtMs task |}.

(** [WorkflowStepState] and [GetWorkflowStatusResponse] *)
Record StepStatusResponse := {
  sr_StepId : string; sr_DependsOn : list string; sr_TaskName : string; sr_Status : WorkflowStepStatus; sr_Attempts : Z;
  sr_TaskId : string; sr_ResultJson : bytes; sr_ResultRef : string; sr_Error : string; sr_StartedAtMs : Z;
  sr_CompletedAtMs : Z; sr_LatencyMs : Z
}.
Record WorkflowStatusResponse := {
  wr_WorkflowId : string; wr_WorkflowName : string; wr_Status : WorkflowStatus; wr_Steps : list StepStatusResponse;
  wr_ResultJson : bytes; wr_ResultRef : string; wr_Error : string; wr_CreatedAtMs : Z; wr_UpdatedAtMs : Z;
  wr_CompletedAtMs : Z; wr_LatencyMs : Z
}.
Definition workflowStepDependsOn (def : WorkflowDefinition) (stepID : string) : list string :=
  match StepDefinitionByID def stepID with Some step => sdDependsOn step | None => [] end.
Definition workflowStatusResponse (state : WorkflowState) : WorkflowStatusResponse := {|
  wr_WorkflowId := wsWorkflowID state; wr_WorkflowName := wsWorkflowName state; wr_Status := wsStatus state;
  wr_Steps := map (λ step, {|
    sr_StepId := ssStepID step; sr_DependsOn := workflowStepDependsOn (wsDefinition state) (ssStepID step);
    sr_TaskName := ssTaskName step; sr_Status := ssStatus step; sr_Attempts := ssAttempts step; sr_TaskId := ssTaskID step;
    sr_ResultJson := ssResultJSON step; sr_ResultRef := ssResultRef step; sr_Error := ssError step;
    sr_StartedAtMs := ssStartedAtMs step; sr_CompletedAtMs := ssCompletedAtMs step; sr_LatencyMs := ssLatencyMs step |})
    (StepStatesInOrder state);
  wr_ResultJson := wsResultJSON state; wr_ResultRef := wsResultRef state; wr_Error := wsError state;
  wr_CreatedAtMs := wsCreatedAtMs state; wr_UpdatedAtMs := wsUpdatedAtMs state; wr_CompletedAtMs := wsCompletedAtMs state;
  wr_LatencyMs := WorkflowLatencyMs state |}.
(** [ReplayWorkflowResponse] *)
Record ReplayWorkflowResponse := { rw_Replayed : WorkflowStatusResponse; rw_Consistent : bool }.

(** [GetActorStatusResponse] and [ReplayActorResponse] *)
Record ActorStatusResponse := {
  ar_ActorId : string; ar_ClassName : string; ar_Status : ActorStatus; ar_OwnerWorkerId : string; ar_Epoch : Z;
  ar_CommandCount : Z; ar_SnapshotRef : string; ar_SnapshotCommandCount : Z; ar_StateJson : bytes;
  ar_CreatedAtMs : Z; ar_UpdatedAtMs : Z
}.
Definition actorStatusResponse (state : ActorState) : ActorStatusResponse := {|
  ar_ActorId := asActorID state; ar_ClassName := asClassName state; ar_Status := asStatus state;
  ar_OwnerWorkerId := asOwnerWorkerID state; ar_Epoch := asEpoch state; ar_CommandCount := asCommandCount state;
  ar_SnapshotRef := asSnapshotRef state; ar_SnapshotCommandCount := asSnapshotCommandCount state;
  ar_StateJson := asStateJSON state; ar_CreatedAtMs := asCreatedAtMs state; ar_UpdatedAtMs := asUpdatedAtMs state |}.
Record ReplayActorResponse := {
  ra_Replayed : ActorStatusResponse; ra_Consistent : bool; ra_FullReplayCommands : Z; ra_SnapshotReplayCommands : Z
}.

(** [ReplayLLMResponse]; an [LLMEvent] is a payload with the record's type. *)
Record ReplayLLMResponse := {
  rl_TaskId : string; rl_Events : list (string * llmEventPayload); rl_ModelName : string; rl_ModelVersion : string;
  rl_WorkerId : string; rl_CacheHit : bool; rl_CheckpointFetchMs : Z; rl_CacheUsedBytes : Z; rl_CacheCapacityBytes : Z;
  rl_EvictionCount : Z; rl_ModelLoadMs : Z; rl_FirstTokenMs : Z; rl_TotalLatencyMs : Z
}.
Definition empty_llm_replay (taskID : string) : ReplayLLMResponse := {|
  rl_TaskId := taskID; rl_Events := []; rl_ModelName := ""; rl_ModelVersion := ""; rl_WorkerId := ""; rl_CacheHit := false;
  rl_CheckpointFetchMs := 0; rl_CacheUsedBytes := 0; rl_CacheCapacityBytes := 0; rl_EvictionCount := 0; rl_ModelLoadMs := 0;
  rl_FirstTokenMs := 0; rl_TotalLatencyMs := 0 |}.
Definition zero_llm_event : llmEventPayload := {|
  le_TaskID := ""; le_ModelName := ""; le_ModelVersion := ""; le_WorkerID := ""; le_CacheHit := false; le_CheckpointFetchMs := 0;
  le_CacheUsedBytes := 0; le_CacheCapacityBytes := 0; le_EvictionCount := 0; le_ModelLoadMs := 0; le_FirstTokenMs := 0;
  le_TotalLatencyMs := 0; le_TimestampMs := 0 |}.
(** The body of the loop of [ReplayLLM] after decoding. *)
Definition llm_step (out : ReplayLLMResponse) (eventType : string) (p : llmEventPayload) : ReplayLLMResponse :=
  let loaded := bool_decide (eventType = "ModelLoaded") in
  let completed := bool_decide (eventType = "LLMCompleted") in
  let either := loaded || completed in
  {| rl_TaskId := rl_TaskId out; rl_Events := rl_Events out ++ [(eventType, p)];
     rl_ModelName := first_nonempty (le_ModelName p) (rl_ModelName out);
     rl_ModelVersion := first_nonempty (le_ModelVersion p) (rl_ModelVersion out);
     rl_WorkerId := first_nonempty (le_WorkerID p) (rl_WorkerId out);
     rl_CacheHit := if either then le_CacheHit p else rl_CacheHit out;
     rl_CheckpointFetchMs := if either then le_CheckpointFetchMs p else rl_CheckpointFetchMs out;
     rl_CacheUsedBytes := if either then le_CacheUsedBytes p else rl_CacheUsedBytes out;
     rl_CacheCapacityBytes := if either then le_CacheCapacityBytes p else rl_CacheCapacityBytes out;
     rl_EvictionCount := if either then le_EvictionCount p else rl_EvictionCount out;
     rl_ModelLoadMs := if loaded then le_ModelLoadMs p else rl_ModelLoadMs out;
     rl_FirstTokenMs := if completed then le_FirstTokenMs p else rl_FirstTokenMs out;
     rl_TotalLatencyMs := if completed then le_TotalLatencyMs p else rl_TotalLatencyMs out |}.

(** ** Dashboard rows *)

(** Lexicographic orders of the comparison functions. *)
Definition str_lt (a b : string) : bool := negb (bool_decide (a = b)) && bool_decide (String.le a b).
Definition pair_le {A} (first second : A → string) (a b : A) : Prop :=
  str_lt (first a) (first b) = true ∨ (first a = first b ∧ String.le (second a) (second b)).
#[export] Instance pair_le_dec {A} (first second : A → string) : RelDecision (pair_le first second).
Proof. intros a b. unfold pair_le. apply _. Defined.
Definition created_le {A} (created : A → Z) (id_of : A → string) (a b : A) : Prop :=
  created a < created b ∨ (created a = created b ∧ String.le (id_of a) (id_of b)).
#[export] Instance created_le_dec {A} (created : A → Z) (id_of : A → string) : RelDecision (created_le created id_of).
Proof. intros a b. unfold created_le. apply _. Defined.
Definition actor_le (a b : ActorState) : Prop := asCreatedAtMs a <= asCreatedAtMs b.
#[export] Instance actor_le_dec : RelDecision actor_le.
Proof. intros a b. unfold actor_le. apply _. Defined.

(** [cacheEntries] *)
Definition cacheEntries (worker : Worker) (range : list string) : list (string * string) :=
  merge_sort (pair_le fst snd) (map splitModelKey range).

(** [DashboardTask], [DashboardWorkflow], [DashboardWorker], [DashboardSnapshot] *)
Record DashboardTask := {
  dt_TaskId : string; dt_TaskName : string; dt_Status : Z; dt_WorkerId : string; dt_WorkflowId : string; dt_StepId : string;
  dt_ActorId : string; dt_LlmModelName : string; dt_LlmModelVersion : string; dt_CreatedAtMs : Z; dt_UpdatedAtMs : Z
}.
Record DashboardWorkflow := {
  dw_WorkflowId : string; dw_WorkflowName : string; dw_Status : WorkflowStatus; dw_Steps : list StepStatusResponse
}.
Record DashboardWorker := {
  dk_WorkerId : string; dk_Capacity : Z; dk_RunningTasks : Z; dk_CachedModels : list (string * string); dk_LastHeartbeatMs : Z
}.
Record DashboardSnapshot := {
  ds_QueueDepth : Z; ds_QueueHighWatermark : Z; ds_RedeliveryTimeoutMs : Z; ds_SchedulingPolicy : Z;
  ds_Tasks : list DashboardTask; ds_Workflows : list DashboardWorkflow; ds_Actors : list ActorStatusResponse;
  ds_Workers : list DashboardWorker; ds_Models : list ModelInfo; ds_LastLogAppendMs : Z; ds_LogAppendSlowMs : Z;
  ds_CompactableLogRecords : Z; ds_CompactableLogBytes : Z
}.
Definition dashboard_task (task : Task) : DashboardTask := {|
  dt_TaskId := tk_TaskID task; dt_TaskName := tk_TaskName task; dt_Status := tk_Status task; dt_WorkerId := tk_WorkerID task;
  dt_WorkflowId := tk_WorkflowID task; dt_StepId := tk_StepID task; dt_ActorId := tk_ActorID task;
  dt_LlmModelName := tk_LLMModelName task; dt_LlmModelVersion := tk_LLMModelVersion task;
  dt_CreatedAtMs := tk_CreatedAtMs task; dt_UpdatedAtMs := tk_UpdatedAtMs task |}.
Definition dashboard_workflow (state : WorkflowState) : DashboardWorkflow :=
  let status := workflowStatusResponse state in
  {| dw_WorkflowId := wr_WorkflowId status; dw_WorkflowName := wr_WorkflowName status; dw_Status := wr_Status status;
     dw_Steps := wr_Steps status |}.

Section Admin.
Context `{Env, MsgpackLib, TaskCodecLib, FingerprintLib, RegistryJSON, ActorJSON, ArgsLib, ControlJSON, DefinitionJSON, WorkflowEventJSON, SystemJSON, AdminJSON, LogStats}.

(** ** Settings *)

(** [RegisterModel] *)
Definition RegisterModel (model : ModelInfo) : M ModelInfo :=
  if str_empty (mi_Name model) then throw ErrSvcNameRequired
  else
    let registered := normalizeModelInfo model in
    nanos ← nowNanos;
    _ ← appendLog {| al_StreamId := "system:models"; al_EventType := "ModelRegistered";
                     al_IdempotencyKey := ModelKey (mi_Name registered) (mi_Version registered) +:+ ":registered:" +:+ format_int nanos;
                     al_Payload := json_ModelPayload registered |};
    stored ← on sv_models set_models (λ models, MetaDomains.RegisterModel models registered);
    _ ← metadataPersisted;
    mret stored.

(** [SetSchedulingPolicy] *)
Definition policy_key (policy nanos : Z) : string := "policy:" +:+ format_int policy +:+ ":" +:+ format_int nanos.
Definition SetSchedulingPolicy (requested : Z) : M Z :=
  let policy := if requested =? 0 then SCHEDULING_POLICY_LOCALITY_AWARE else requested in
  t ← now;
  nanos ← nowNanos;
  _ ← appendLog {| al_StreamId := "system:scheduler"; al_EventType := "SchedulingPolicyChanged";
                   al_IdempotencyKey := policy_key policy nanos; al_Payload := json_PolicyChanged policy t |};
  _ ← modify (λ s, set_config (with_policy policy (sv_config s)) s);
  mret policy.

(** [SetBackpressure]: the three limits in force afterwards, durations in milliseconds *)
Definition SetBackpressure (watermark timeoutMs slowMs : Z) : M (Z * Z * Z) :=
  cf ← gets sv_config;
  let cf' := with_limits watermark timeoutMs slowMs cf in
  let limits := (cf_queueHighWatermark cf', Milliseconds (cf_redeliveryTimeout cf'), Milliseconds (cf_logAppendSlowLimit cf')) in
  t ← now;
  text ← stamp;
  _ ← appendLog {| al_StreamId := "system:backpressure"; al_EventType := "BackpressureConfigured";
                   al_IdempotencyKey := "backpressure:" +:+ text; al_Payload := json_BackpressureChanged limits t |};
  _ ← modify (λ s, set_config (with_durations (cf_queueHighWatermark cf') (cf_redeliveryTimeout cf') (cf_logAppendSlowLimit cf') (sv_config s)) s);
  mret limits.

(** ** Statuses and replays *)

(** [GetTaskStatus] *)
Definition GetTaskStatus (taskID : string) : M TaskStatusResponse :=
  '(task, ok) ← getTask taskID;
  if negb ok then throw ErrSvcTaskNotFound else mret (taskStatusResponse task).

(** [GetWorkflowStatus] *)
Definition GetWorkflowStatus (workflowID : string) : M WorkflowStatusResponse :=
  '(state, ok) ← gets (λ s, GetWorkflow (sv_workflows s) workflowID);
  if negb ok then throw ErrSvcWorkflowNotFound else mret (workflowStatusResponse state).

(** [GetActorStatus] *)
Definition GetActorStatus (actorID : string) : M ActorStatusResponse :=
  '(state, ok) ← gets (λ s, GetActor (sv_actors s) actorID);
  if negb ok then throw ErrSvcActorNotFound else mret (actorStatusResponse state).

(** [ReplayWorkflow] *)
Definition ReplayWorkflow (workflowID : string) : M ReplayWorkflowResponse :=
  records ← forEachRawLogRecord (workflowStream workflowID) 1;
  replayed ← of_result (λ _, ErrSvcReplay)
    (WorkflowReplay.ReplayRawEach workflowID (Some {| WorkflowReplay.it_records := records; WorkflowReplay.it_fails := false |}));
  '(current, ok) ← gets (λ s, GetWorkflow (sv_workflows s) workflowID);
  mret {| rw_Replayed := workflowStatusResponse replayed; rw_Consistent := ok && WorkflowReplay.Consistent replayed current |}.

(** [ReplayActor] *)
Definition ReplayActor (actorID : string) : M ReplayActorResponse :=
  replayed ← replayActor actorID;
  '(current, ok) ← gets (λ s, GetActor (sv_actors s) actorID);
  mret {| ra_Replayed := actorStatusResponse (rrState replayed);
          ra_Consistent := ok && Actor.Consistent (rrState replayed) current;
          ra_FullReplayCommands := rrFullReplayCommands replayed; ra_SnapshotReplayCommands := rrSnapshotReplayCommands replayed |}.

(** [ReplayLLM]; a record's empty payload decodes to the zero event. *)
Fixpoint replay_llm (out : ReplayLLMResponse) (records : list RawRecord) : option ReplayLLMResponse :=
  match records with
  | [] => Some out
  | rec :: records =>
      p ← (if decide (raw_Payload rec = []) then Some zero_llm_event else json_LLMEvent (raw_Payload rec));
      let p := if le_TimestampMs p =? 0 then with_le_Timestamp p (raw_TimestampMs rec) else p in
      replay_llm (llm_step out (raw_EventType rec) p) records
  end.
Definition ReplayLLM (taskID : string) : M ReplayLLMResponse :=
  if str_empty taskID then throw ErrSvcNameRequired
  else
    records ← forEachRawLogRecord (llmStream taskID) 1;
    match replay_llm (empty_llm_replay taskID) records with None => throw ErrSvcReplay | Some out => mret out end.

(** ** The dashboard *)

(** [compactableLogStats]; the sums wrap around. *)
Definition compactableLogStats : M (Z * Z) :=
  streams ← ticked log_stats;
  mret (match streams with
        | None => (0, 0)
        | Some l => foldl (λ '(records, size) '(r, b), (u64 (records + r), u64 (size + b))) (0, 0) l
        end).
Definition ranged {A} (m : gmap string A) : M (list string) := ticked (λ n, env_order n (elements (dom m))).

Fixpoint dashboard_workers (workers : list workerInfo) : M (list DashboardWorker) :=
  match workers with
  | [] => mret []
  | w :: workers =>
      range ← ranged (wk_CachedModels (wi_worker w));
      rest ← dashboard_workers workers;
      mret ({| dk_WorkerId := wk_WorkerID (wi_worker w); dk_Capacity := wk_Capacity (wi_worker w);
               dk_RunningTasks := wk_RunningTasks (wi_worker w); dk_CachedModels := cacheEntries (wi_worker w) range;
               dk_LastHeartbeatMs := wk_LastHeartbeat (wi_worker w) |} :: rest)
  end.
(** [GetDashboardSnapshot]; neither in-memory store reports materializer statistics. *)
Definition GetDashboardSnapshot : M DashboardSnapshot :=
  v2 ← useSchedulerV2;
  s ← gets id;
  let queueDepth := u32 (Z.of_nat (if v2 : bool then QueueDepth (sv_scheduler s) else length (sv_queue s))) in
  range ← ranged (ms_tasks (sv_meta s));
  let tasks := merge_sort (created_le tk_CreatedAtMs tk_TaskID) (ListTasks (sv_meta s) range) in
  range ← ranged (dm_states (sv_workflows s));
  let workflows := merge_sort (created_le wsCreatedAtMs wsWorkflowID) (ListWorkflows (sv_workflows s) range) in
  range ← ranged (dm_states (sv_actors s));
  let actors := merge_sort actor_le (ListActors (sv_actors s) range) in
  range ← ranged (sv_workers s);
  workers ← dashboard_workers (sortedWorkers (WorkerStore.Legacy.ListWorkers (sv_workers s) range));
  range ← ranged (sv_models s);
  let models := merge_sort (pair_le mi_Name mi_Version) (ListModels (sv_models s) range) in
  '(records, size) ← compactableLogStats;
  let cf := sv_config s in
  mret {| ds_QueueDepth := queueDepth; ds_QueueHighWatermark := cf_queueHighWatermark cf;
          ds_RedeliveryTimeoutMs := Milliseconds (cf_redeliveryTimeout cf); ds_SchedulingPolicy := cf_schedulingPolicy cf;
          ds_Tasks := map dashboard_task tasks; ds_Workflows := map dashboard_workflow workflows;
          ds_Actors := map actorStatusResponse actors; ds_Workers := workers; ds_Models := models;
          ds_LastLogAppendMs := sv_lastLogAppendMs s; ds_LogAppendSlowMs := Milliseconds (cf_logAppendSlowLimit cf);
          ds_CompactableLogRecords := records; ds_CompactableLogBytes := size |}.
End Admin.
