(* ===== verification/Checkpoint.v ===== *)
(** Metadata checkpoints and the start of the control service
    (internal/control/checkpoint.go, bootstrap.go): a snapshot of tasks, workflows,
    actors and LLM statistics with the last sequence number of each stream, written to
    a stream of its own; the restart from the newest one, which replays only the
    streams' tails; and the check that compares both ways of restarting.

    JSON and protojson are the class [CheckpointJSON].  A nil map of streams and an empty
    one are the same here. *)
From S2P Require Import Prelude Bytes LogRecord EventCodec TaskSpec MetaStore TaskReplay Placement Scheduler WorkerStore WorkflowDef WorkflowState WorkflowReplay WorkflowJSON Actor MetaDomains WorkflowArgs ServiceState ControlTasks ControlDispatch ControlActors ControlWorkflows ControlService ControlAdmin.

Open Scope Z_scope.

(** ** Data *)

Definition metadataCheckpointStream : string := "system:checkpoints".
Definition metadataCheckpointEvent : string := "MetadataCheckpointCreated".

(** [MetadataCheckpointStream], [metadataCheckpointTask], [metadataCheckpointLLMStats];
    [State] is a state here and its JSON text in [checkpointJSON]. *)
Record MetadataCheckpointStream := { cs_Kind : string; cs_LastSeq : Z }.
Record metadataCheckpointTask := { ct_Task : Task; ct_Spec : bytes }.
Record metadataCheckpointWorkflow (State : Type) := { cw_WorkflowID : string; cw_State : State }.
Arguments cw_WorkflowID {State}.
Arguments cw_State {State}.
Record metadataCheckpointActor := { ca_ActorID : string; ca_State : ActorState }.
Record metadataCheckpointLLMStats := {
  cl_ModelName : string; cl_ModelVersion : string; cl_WorkerID : string; cl_Stats : llmWorkerStats
}.
(** [MetadataCheckpoint] *)
Record Checkpoint (State : Type) := {
  cp_ID : string;
  cp_CreatedAtMs : Z;
  cp_Streams : gmap string MetadataCheckpointStream;
  cp_Tasks : list metadataCheckpointTask;
  cp_Workflows : list (metadataCheckpointWorkflow State);
  cp_Actors : list metadataCheckpointActor;
  cp_LLMStats : list metadataCheckpointLLMStats
}.
Arguments cp_ID {State}.
Arguments cp_CreatedAtMs {State}.
Arguments cp_Streams {State}.
Arguments cp_Tasks {State}.
Arguments cp_Workflows {State}.
Arguments cp_Actors {State}.
Arguments cp_LLMStats {State}.
Abbreviation MetadataCheckpoint := (Checkpoint WorkflowState).
Abbreviation checkpointJSON := (Checkpoint bytes).

(** The JSON object with its raw messages compacted. *)
Definition compact_checkpoint (f : bytes → bytes) (cp : checkpointJSON) : checkpointJSON := {|
  cp_ID := cp_ID cp; cp_CreatedAtMs := cp_CreatedAtMs cp; cp_Streams := cp_Streams cp;
  cp_Tasks := map (λ t, {| ct_Task := ct_Task t; ct_Spec := f (ct_Spec t) |}) (cp_Tasks cp);
  cp_Workflows := map (λ w, {| cw_WorkflowID := cw_WorkflowID w; cw_State := f (cw_State w) |}) (cp_Workflows cp);
  cp_Actors := cp_Actors cp; cp_LLMStats := cp_LLMStats cp |}.

(** [json.Marshal] and [json.Unmarshal] of a checkpoint, [protojson.Marshal] of a
    specification, as the code relies on them.  [checkpoint_text]: the strings in it are
    valid UTF-8. *)
Class CheckpointJSON `{TaskCodecLib, StateJSON} := {
  protojson_Marshal : TaskSpec → option bytes;
  checkpoint_text : checkpointJSON → Prop;
  json_Checkpoint : checkpointJSON → option bytes;
  json_CheckpointDecode : bytes → option checkpointJSON;
  protojson_roundtrip : ∀ spec data, protojson_Marshal spec = Some data →
    protojson_Unmarshal (json_compact data) = Some spec ∧ json_compact data ≠ [];
  json_state_compact : ∀ w data, json_State w = Some data → json_compact data = data;
  json_checkpoint_roundtrip : ∀ cp data, checkpoint_text cp → json_Checkpoint cp = Some data →
    json_CheckpointDecode data = Some (compact_checkpoint json_compact cp)
}.

(** [MetadataCheckpointConsistency] *)
Record MetadataCheckpointConsistency := {
  mc_Consistent : bool; mc_CheckedCount : Z; mc_FailureKeys : list string; mc_CheckpointID : string; mc_CheckpointAge : Z
}.

(** ** Pure parts *)

(** [json.Marshal] of a checkpoint and [json.Unmarshal] into one, through the states' own methods *)
Definition set_workflows_of {S T} (cp : Checkpoint S) (l : list (metadataCheckpointWorkflow T)) : Checkpoint T := {|
  cp_ID := cp_ID cp; cp_CreatedAtMs := cp_CreatedAtMs cp; cp_Streams := cp_Streams cp; cp_Tasks := cp_Tasks cp;
  cp_Workflows := l; cp_Actors := cp_Actors cp; cp_LLMStats := cp_LLMStats cp |}.
Definition map_states {S T} (f : S → option T) (cp : Checkpoint S) : option (Checkpoint T) :=
  set_workflows_of cp <$>
    mapM (λ w, (λ state, {| cw_WorkflowID := cw_WorkflowID w; cw_State := state |}) <$> f (cw_State w)) (cp_Workflows cp).
Definition marshal_checkpoint `{CheckpointJSON} (cp : MetadataCheckpoint) : option bytes := map_states MarshalJSON cp ≫= json_Checkpoint.
Definition unmarshal_checkpoint `{CheckpointJSON} (data : bytes) : option MetadataCheckpoint :=
  json_CheckpointDecode data ≫= map_states UnmarshalJSON.

(** [checkpointStreamKind], [normalizeStreamKinds] *)
Definition checkpointStreamKind (streamID : string) : string :=
  if has_prefix "task:" streamID then "task"
  else if has_prefix "wf:" streamID then "workflow"
  else if has_prefix "actor:" streamID then "actor"
  else if has_prefix "llm:" streamID then "llm"
  else "".
Definition normalizeStreamKinds {S} (cp : Checkpoint S) : Checkpoint S := {|
  cp_ID := cp_ID cp; cp_CreatedAtMs := cp_CreatedAtMs cp;
  cp_Streams := map_imap (λ streamID entry, Some (if str_empty (cs_Kind entry)
    then {| cs_Kind := checkpointStreamKind streamID; cs_LastSeq := cs_LastSeq entry |} else entry)) (cp_Streams cp);
  cp_Tasks := cp_Tasks cp; cp_Workflows := cp_Workflows cp; cp_Actors := cp_Actors cp; cp_LLMStats := cp_LLMStats cp |}.

(** [cp.Streams[streamID].LastSeq + 1], and the first record replayed after a snapshot:
    record 1 is in the snapshot even when its sequence number is not. *)
Definition next_seq {S} (cp : Checkpoint S) (streamID : string) : Z :=
  u64 (match cp_Streams cp !! streamID with Some entry => cs_LastSeq entry | None => 0 end + 1).
Definition tail_start {S} (cp : Checkpoint S) (streamID : string) : Z :=
  let fromSeq := next_seq cp streamID in if fromSeq =? 1 then 2 else fromSeq.

(** [llmStatsFromCheckpoint], [checkpointLLMStreams] *)
Definition llmStatsFromCheckpoint {S} (cp : Checkpoint S) : gmap llmStatsKey llmWorkerStats :=
  foldl (λ m item, <[{| lk_modelName := cl_ModelName item; lk_modelVersion := first_nonempty (cl_ModelVersion item) "v1";
                        lk_workerID := cl_WorkerID item |} := cl_Stats item]> m) ∅ (cp_LLMStats cp).
Definition checkpointLLMStreams {S} (cp : Checkpoint S) : list string :=
  merge_sort String.le (omap (λ '(streamID, entry),
    if negb (has_prefix "llm:" streamID) then None
    else if negb (str_empty (cs_Kind entry)) && negb (bool_decide (cs_Kind entry = "llm")) then None
    else Some streamID) (map_to_list (cp_Streams cp))).

(** [metadataTasksConsistent] *)
Definition metadataTasksConsistent (a b : Task) : bool :=
  bool_decide (tk_TaskID a = tk_TaskID b) && bool_decide (tk_TaskName a = tk_TaskName b) && (tk_Status a =? tk_Status b) &&
  bool_decide (tk_Error a = tk_Error b) && bool_decide (tk_WorkerID a = tk_WorkerID b) &&
  bool_decide (tk_WorkflowID a = tk_WorkflowID b) && bool_decide (tk_StepID a = tk_StepID b) &&
  bool_decide (tk_TargetWorkerID a = tk_TargetWorkerID b) && bool_decide (tk_ActorID a = tk_ActorID b) &&
  bool_decide (tk_ActorCallID a = tk_ActorCallID b) && (tk_ActorEpoch a =? tk_ActorEpoch b) &&
  (tk_ActorCommandSeq a =? tk_ActorCommandSeq b) && (tk_TaskLeaseEpoch a =? tk_TaskLeaseEpoch b) &&
  bool_decide (tk_LLMModelName a = tk_LLMModelName b) && bool_decide (tk_LLMModelVersion a = tk_LLMModelVersion b) &&
  bool_decide (tk_IdempotencyKey a = tk_IdempotencyKey b) &&
  bool_decide (tk_IdempotencyFingerprint a = tk_IdempotencyFingerprint b) && bool_decide (tk_ResultJSON a = tk_ResultJSON b).

#[export] Instance llmWorkerStats_eq_dec : EqDecision llmWorkerStats.
Proof. solve_decision. Defined.
(** [llmStatsMapsConsistent] *)
Definition llmStatsMapsConsistent (a b : gmap llmStatsKey llmWorkerStats) : bool :=
  Nat.eqb (size a) (size b) &&
  forallb (λ '(key, av), match b !! key with Some bv => bool_decide (av = bv) | None => false end) (map_to_list a).

Definition by_id_le {A} (id_of : A → string) (a b : A) : Prop := String.le (id_of a) (id_of b).
#[export] Instance by_id_le_dec {A} (id_of : A → string) : RelDecision (by_id_le id_of).
Proof. intros a b. unfold by_id_le. apply _. Defined.
Definition llm_key_le (a b : llmStatsKey) : Prop :=
  str_lt (lk_modelName a) (lk_modelName b) = true ∨
  (lk_modelName a = lk_modelName b ∧ pair_le lk_modelVersion lk_workerID a b).
#[export] Instance llm_key_le_dec : RelDecision llm_key_le.
Proof. intros a b. unfold llm_key_le. apply _. Defined.

Section Checkpoints.
Context `{Env, MsgpackLib} `{!TaskCodecLib, FingerprintLib, RegistryJSON, ActorJSON, ArgsLib, ControlJSON, DefinitionJSON, WorkflowEventJSON, SystemJSON} `{!StateJSON, !CheckpointJSON}.

(** ** Creation *)

(** [GetStreamStats] of the log server: the next sequence number of each stream *)
Definition getStreamStats (prefix : string) : M (list (string * Z)) :=
  streams ← listStreams prefix;
  gets (λ s, map (λ streamID, (streamID, Z.of_nat (length (stream (sv_log s) streamID)) + 1)) streams).

(** [streamLastSeqByRead] *)
Definition streamLastSeqByRead (streamID : string) : M Z :=
  records ← forEachRawLogRecord streamID 1;
  mret (foldl (λ last rec, if last <? raw_Seq rec then raw_Seq rec else last) 0 records).
Fixpoint last_by_read (streams : list string) (out : gmap string Z) : M (gmap string Z) :=
  match streams with
  | [] => mret out
  | streamID :: streams => lastSeq ← streamLastSeqByRead streamID; last_by_read streams (<[streamID := lastSeq]> out)
  end.
(** [streamLastSeqs] *)
Fixpoint last_seqs (prefixes : list string) (out : gmap string Z) : M (gmap string Z) :=
  match prefixes with
  | [] => mret out
  | prefix :: prefixes =>
      stats ← getStreamStats prefix;
      let out := foldl (λ m '(streamID, next), if 1 <? next then <[streamID := next - 1]> m else m) out stats in
      match stats with
      | _ :: _ => last_seqs prefixes out
      | [] =>
          streams ← listStreams prefix;
          out ← last_by_read streams out;
          last_seqs prefixes out
      end
  end.
Definition streamLastSeqs (prefixes : list string) : M (gmap string Z) := last_seqs prefixes ∅.

Definition last_seq_of (lastSeqs : gmap string Z) (streamID : string) : Z := default 0 (lastSeqs !! streamID).
Definition position (kind : string) (lastSeqs : gmap string Z) (streamID : string) : MetadataCheckpointStream :=
  {| cs_Kind := kind; cs_LastSeq := last_seq_of lastSeqs streamID |}.

(** [snapshotTasks]: the items; a task without a specification is left out *)
Definition snapshotTasks (s : Service) (range : list string) : list metadataCheckpointTask :=
  omap (λ task,
    spec ← specForTask s (tk_TaskID task);
    specJSON ← (cloneSpec (Some spec) ≫= protojson_Marshal);
    Some {| ct_Task := task; ct_Spec := specJSON |})
    (merge_sort (by_id_le tk_TaskID) (ListTasks (sv_meta s) range)).
(** [snapshotWorkflows], [snapshotActors] *)
Definition snapshotWorkflows (s : Service) (range : list string) : list (metadataCheckpointWorkflow WorkflowState) :=
  map (λ state, {| cw_WorkflowID := wsWorkflowID state; cw_State := state |})
    (merge_sort (by_id_le wsWorkflowID) (ListWorkflows (sv_workflows s) range)).
Definition snapshotActors (s : Service) (range : list string) : list metadataCheckpointActor :=
  map (λ state, {| ca_ActorID := asActorID state; ca_State := state |})
    (merge_sort (by_id_le asActorID) (ListActors (sv_actors s) range)).
(** [snapshotLLMStats] *)
Definition snapshotLLMStats (s : Service) : list metadataCheckpointLLMStats :=
  omap (λ key, (λ stats, {| cl_ModelName := lk_modelName key; cl_ModelVersion := lk_modelVersion key;
                            cl_WorkerID := lk_workerID key; cl_Stats := stats |}) <$> sv_llmStats s !! key)
    (merge_sort llm_key_le (map fst (map_to_list (sv_llmStats s)))).

(** The positions each snapshot records, in their order. *)
Definition snapshot_streams (lastSeqs : gmap string Z) (tasks : list metadataCheckpointTask)
    (workflows : list (metadataCheckpointWorkflow WorkflowState)) (actors : list metadataCheckpointActor) :
    gmap string MetadataCheckpointStream :=
  let add kind m streamID := <[streamID := position kind lastSeqs streamID]> m in
  let m := foldl (add "task") ∅ (map (λ t, taskStream (tk_TaskID (ct_Task t))) tasks) in
  let m := foldl (add "workflow") m (map (λ w, workflowStream (cw_WorkflowID w)) workflows) in
  let m := foldl (add "actor") m (map (λ a, actorStream (ca_ActorID a)) actors) in
  foldl (add "llm") m (filter (λ streamID, has_prefix "llm:" streamID = true) (map fst (map_to_list lastSeqs))).

(** The part of [CreateMetadataCheckpoint] after the positions are read; other requests
    may run between the two. *)
Definition checkpoint_from (id : string) (createdAtMs : Z) (lastSeqs : gmap string Z) : M MetadataCheckpoint :=
  m ← gets (λ s, ms_tasks (sv_meta s));
  range ← ranged m;
  tasks ← gets (λ s, snapshotTasks s range);
  m ← gets (λ s, dm_states (sv_workflows s));
  range ← ranged m;
  workflows ← gets (λ s, snapshotWorkflows s range);
  m ← gets (λ s, dm_states (sv_actors s));
  range ← ranged m;
  actors ← gets (λ s, snapshotActors s range);
  stats ← gets snapshotLLMStats;
  mret {| cp_ID := id; cp_CreatedAtMs := createdAtMs; cp_Streams := snapshot_streams lastSeqs tasks workflows actors;
          cp_Tasks := tasks; cp_Workflows := workflows; cp_Actors := actors; cp_LLMStats := stats |}.
Definition write_checkpoint (cp : MetadataCheckpoint) (retention : Z) : M MetadataCheckpoint :=
  match marshal_checkpoint cp with
  | None => throw ErrSvcPayload
  | Some payload =>
      rec ← appendLog {| al_StreamId := metadataCheckpointStream; al_EventType := metadataCheckpointEvent;
                         al_IdempotencyKey := cp_ID cp; al_Payload := payload |};
      _ ← (if (0 <? retention) && (retention <? raw_Seq rec)
           then trimStream metadataCheckpointStream (raw_Seq rec - retention + 1) else mret ());
      mret cp
  end.
Definition checkpoint_prefixes : list string := ["task:"; "wf:"; "actor:"; "llm:"].
(** [CreateMetadataCheckpoint] *)
Definition CreateMetadataCheckpoint (retention : Z) : M MetadataCheckpoint :=
  t ← now;
  id ← fresh_id;
  lastSeqs ← streamLastSeqs checkpoint_prefixes;
  cp ← checkpoint_from ("checkpoint-" +:+ id) t lastSeqs;
  write_checkpoint cp retention.

(** ** Restart *)

(** [loadLatestMetadataCheckpoint]: undecodable records are skipped. *)
Definition newer (latest : option MetadataCheckpoint) (rec : RawRecord) : option MetadataCheckpoint :=
  if negb (bool_decide (raw_EventType rec = metadataCheckpointEvent)) then latest
  else
    match unmarshal_checkpoint (raw_Payload rec) with
    | None => latest
    | Some cp =>
        match latest with
        | None => Some cp
        | Some l => if cp_CreatedAtMs l <=? cp_CreatedAtMs cp then Some cp else latest
        end
    end.
Definition loadLatestMetadataCheckpoint : M (option MetadataCheckpoint) :=
  records ← forEachRawLogRecord metadataCheckpointStream 1;
  mret (foldl newer None records).

(** A stream of the log that the checkpoint has no item for. *)
Definition for_unseen (prefix : string) (seen : list string) (f : string → M unit) : M unit :=
  streams ← listStreams prefix;
  for_each streams (λ streamID, if decide (streamID ∈ seen) then mret () else f streamID).

(** [bootstrapCheckpointTasks] *)
Definition restore_task_item (cp : MetadataCheckpoint) (item : metadataCheckpointTask) : M unit :=
  spec ← match ct_Spec item with
         | [] => mret zero_spec
         | data => match protojson_Unmarshal data with None => throw ErrSvcReplay | Some spec => mret spec end
         end;
  let streamID := taskStream (tk_TaskID (ct_Task item)) in
  records ← forEachRawLogRecord streamID (tail_start cp streamID);
  state ← of_result (λ _, ErrSvcReplay) (apply_all (taskReplayStateFromCheckpoint (ct_Task item) (Some spec)) records);
  restoreTaskReplayState state.
Definition bootstrapCheckpointTasks (cp : MetadataCheckpoint) : M unit :=
  _ ← for_each (cp_Tasks cp) (restore_task_item cp);
  for_unseen "task:" (map (λ item, taskStream (tk_TaskID (ct_Task item))) (cp_Tasks cp)) bootstrapTaskStream.

(** [bootstrapCheckpointWorkflows]; here a tail that does not replay ends the start. *)
Definition restore_workflow_item (cp : MetadataCheckpoint) (schedule : bool) (item : metadataCheckpointWorkflow WorkflowState) : M unit :=
  let streamID := workflowStream (cw_WorkflowID item) in
  records ← forEachRawLogRecord streamID (tail_start cp streamID);
  tail ← of_result (λ _, ErrSvcReplay)
    (WorkflowReplay.ReplayFromRawEach (cw_State item) (Some {| WorkflowReplay.it_records := records; WorkflowReplay.it_fails := false |}));
  restoreWorkflowState schedule tail.
Definition bootstrapCheckpointWorkflows (cp : MetadataCheckpoint) (schedule : bool) : M unit :=
  _ ← for_each (cp_Workflows cp) (restore_workflow_item cp schedule);
  for_unseen "wf:" (map (λ item, workflowStream (cw_WorkflowID item)) (cp_Workflows cp)) (bootstrapWorkflowStream schedule).

(** [bootstrapCheckpointActors] *)
Definition restore_actor_item (cp : MetadataCheckpoint) (item : metadataCheckpointActor) : M unit :=
  let streamID := actorStream (ca_ActorID item) in
  records ← forEachRawLogRecord streamID (tail_start cp streamID);
  s ← gets id;
  replayed ← of_result (λ _, ErrSvcReplay)
    (Actor.ReplayFromStateRawEach (ca_ActorID item) (ca_State item)
       (Some {| Actor.it_records := records; Actor.it_fails := false |}) (Some (LoadResult s)));
  modify (λ s, set_actors (UpsertActor (sv_actors s) (rrState replayed)) s).
Definition bootstrapCheckpointActors (cp : MetadataCheckpoint) : M unit :=
  _ ← for_each (cp_Actors cp) (restore_actor_item cp);
  for_unseen "actor:" (map (λ item, actorStream (ca_ActorID item)) (cp_Actors cp)) bootstrapActorStream.

(** [restoreCheckpointLLMStats], [materializeLLMTailsFromCheckpoint], [bootstrapCheckpointLLMStats] *)
Definition restoreCheckpointLLMStats (cp : MetadataCheckpoint) : M unit :=
  _ ← modify (set_llmStats (llmStatsFromCheckpoint cp));
  syncSchedulerLLMStats.
Definition materializeLLMTailsFromCheckpoint (cp : MetadataCheckpoint) : M unit :=
  _ ← for_each (checkpointLLMStreams cp) (λ streamID, materializeLLMStreamFromSeq streamID (next_seq cp streamID));
  for_unseen "llm:" (checkpointLLMStreams cp) (λ streamID, materializeLLMStreamFromSeq streamID 1).
Definition bootstrapCheckpointLLMStats (cp : MetadataCheckpoint) : M unit :=
  _ ← restoreCheckpointLLMStats cp;
  materializeLLMTailsFromCheckpoint cp.

(** [bootstrapMetadataFromCheckpointWithScheduling], [bootstrapMetadataFromCheckpoint] *)
Definition bootstrapMetadataFromCheckpointWithScheduling (cp : MetadataCheckpoint) (schedule : bool) : M unit :=
  _ ← bootstrapCheckpointTasks cp;
  _ ← bootstrapCheckpointWorkflows cp schedule;
  _ ← bootstrapCheckpointActors cp;
  bootstrapCheckpointLLMStats cp.
Definition bootstrapMetadataFromCheckpoint (cp : MetadataCheckpoint) : M unit :=
  bootstrapMetadataFromCheckpointWithScheduling cp true.

(** [BootstrapFromLog]: when the checkpoint's way fails, the streams are replayed from
    their start over what it left behind. *)
Definition bootstrapFromStreams : M unit :=
  _ ← bootstrapTasks;
  _ ← bootstrapWorkflows;
  _ ← bootstrapActors;
  _ ← bootstrapLLMStats;
  syncSchedulerWorkers.
Definition BootstrapFromLog : M unit :=
  _ ← bootstrapModels;
  _ ← bootstrapWorkers;
  _ ← bootstrapScheduler;
  _ ← bootstrapBackpressure;
  _ ← bootstrapFunctions;
  checkpoint ← loadLatestMetadataCheckpoint;
  match checkpoint with
  | None => bootstrapFromStreams
  | Some cp =>
      r ← try (bootstrapMetadataFromCheckpoint (normalizeStreamKinds cp));
      match r with Ok _ => mret () | Err _ => bootstrapFromStreams end
  end.

(** A new process over the log and the objects that survive. *)
Definition crash (s : Service) : Service :=
  set_tick (sv_tick s) (set_objects (sv_objects s) (set_trims (sv_trims s) (set_log (sv_log s)
    (NewService (cf_schedulerV2 (sv_config s)) (cf_resultInlineThreshold (sv_config s)))))).
Definition restart : M unit := λ s, BootstrapFromLog (crash s).

(** ** The consistency check *)

(** [m] in a new service over the same log and object store, and the state it leaves there. *)
Definition isolated {A} (m : M A) : M Service := λ s,
  match m (crash s) with
  | None => None
  | Some (s', r) =>
      Some (set_tick (sv_tick s') (set_objects (sv_objects s') (set_trims (sv_trims s') (set_log (sv_log s') s))),
            match r with Ok _ => Ok s' | Err e => Err e end)
  end.

(** The keys of one kind that the two states disagree on. *)
Definition failures {A} (prefix : string) (id_of : A → string) (l : list A) (lookup : string → option A) (same : A → A → bool) : list string :=
  omap (λ a, match lookup (id_of a) with
             | Some b => if same a b then None else Some (prefix +:+ id_of a)
             | None => Some (prefix +:+ id_of a)
             end) l.
Definition found {A} (p : A * bool) : option A := if p.2 then Some p.1 else None.

(** [llmStatsFromCheckpointTail] *)
Definition llmStatsFromCheckpointTail (cp : MetadataCheckpoint) : M (gmap llmStatsKey llmWorkerStats) :=
  verifier ← isolated (_ ← restoreCheckpointLLMStats cp; materializeLLMTailsFromCheckpoint cp);
  mret (sv_llmStats verifier).

(** [CheckMetadataCheckpointConsistency]; the verdict of the comparison, then the whole *)
Definition compare_services (full fast : Service) (tasks : list Task) (workflows : list WorkflowState) (actors : list ActorState)
    (expected : gmap llmStatsKey llmWorkerStats) (id : string) (age : Z) : MetadataCheckpointConsistency :=
  let keys :=
    failures "task:" tk_TaskID tasks (λ id, found (GetTask (sv_meta fast) id)) metadataTasksConsistent ++
    failures "wf:" wsWorkflowID workflows (λ id, found (GetWorkflow (sv_workflows fast) id)) WorkflowReplay.Consistent ++
    failures "actor:" asActorID actors (λ id, found (GetActor (sv_actors fast) id)) Actor.Consistent in
  let llm := llmStatsMapsConsistent expected (sv_llmStats fast) in
  {| mc_Consistent := bool_decide (keys = []) && llm;
     mc_CheckedCount := Z.of_nat (length tasks + length workflows + length actors) + (if llm then 0 else 1);
     mc_FailureKeys := merge_sort String.le (keys ++ if llm then [] else ["llm_stats"]);
     mc_CheckpointID := id; mc_CheckpointAge := age |}.
Definition CheckMetadataCheckpointConsistency : M MetadataCheckpointConsistency :=
  checkpoint ← loadLatestMetadataCheckpoint;
  match checkpoint with
  | None => mret {| mc_Consistent := true; mc_CheckedCount := 0; mc_FailureKeys := []; mc_CheckpointID := ""; mc_CheckpointAge := 0 |}
  | Some cp =>
      let cp := normalizeStreamKinds cp in
      full ← isolated (_ ← bootstrapTasks; _ ← bootstrapWorkflowsWithScheduling false; bootstrapActors);
      fast ← isolated (bootstrapMetadataFromCheckpointWithScheduling cp false);
      expected ← llmStatsFromCheckpointTail cp;
      t ← now;
      range ← ranged (ms_tasks (sv_meta full));
      let tasks := ListTasks (sv_meta full) range in
      range ← ranged (dm_states (sv_workflows full));
      let workflows := ListWorkflows (sv_workflows full) range in
      range ← ranged (dm_states (sv_actors full));
      let actors := ListActors (sv_actors full) range in
      mret (compare_services full fast tasks workflows actors expected (cp_ID cp) (i64 (t - cp_CreatedAtMs cp)))
  end.
End Checkpoints.
