(* ===== verification/Trees.v ===== *)
(** A concrete JSON library for snapshots, on which the witnesses about checkpoints are
    computed: values as trees, trees as bytes. *)
From stdpp Require Import countable.
From S2P Require Import Prelude Bytes LogRecord EventCodec TaskSpec MetaStore TaskReplay TaskReplaySpec Placement WorkflowDef WorkflowState WorkflowReplay WorkflowJSON Actor ServiceState Checkpoint.

Open Scope Z_scope.

Abbreviation tree := (gen_tree (string + bytes + Z)).

(** Types whose values are trees. *)
Class Treed (A : Type) := {
  to_tree : A → tree;
  of_tree : tree → option A;
  of_to_tree : ∀ a, of_tree (to_tree a) = Some a
}.
Lemma treed_iso {A B} `{Treed B} (f : A → B) (g : B → A) : (∀ a, g (f a) = a) → Treed A.
Proof.
  intros Hg. refine {| to_tree := λ a, to_tree (f a); of_tree := λ t, g <$> of_tree t |}.
  intros a. rewrite of_to_tree. cbn. by rewrite Hg.
Defined.
#[export] Instance tree_string : Treed string :=
  {| to_tree := λ s, GenLeaf (inl (inl s)); of_tree := λ t, match t with GenLeaf (inl (inl s)) => Some s | _ => None end;
     of_to_tree := λ _, eq_refl |}.
#[export] Instance tree_bytes : Treed bytes :=
  {| to_tree := λ b, GenLeaf (inl (inr b)); of_tree := λ t, match t with GenLeaf (inl (inr b)) => Some b | _ => None end;
     of_to_tree := λ _, eq_refl |}.
#[export] Instance tree_Z : Treed Z :=
  {| to_tree := λ z, GenLeaf (inr z); of_tree := λ t, match t with GenLeaf (inr z) => Some z | _ => None end;
     of_to_tree := λ _, eq_refl |}.
#[export] Instance tree_pair {A B} `{Treed A, Treed B} : Treed (A * B).
Proof.
  refine {| to_tree := λ p, GenNode 0 [to_tree p.1; to_tree p.2];
            of_tree := λ t, match t with GenNode 0 [a; b] => a ← of_tree a; b ← of_tree b; Some (a, b) | _ => None end |}.
  intros [a b]. cbn. by rewrite of_to_tree, of_to_tree.
Defined.
#[export] Instance tree_list {A} `{Treed A} : Treed (list A).
Proof.
  refine {| to_tree := λ l, GenNode 1 (map to_tree l); of_tree := λ t, match t with GenNode 1 l => mapM of_tree l | _ => None end |}.
  intros l. induction l as [|a l IH]; [done|]. cbn in *. by rewrite of_to_tree, IH.
Defined.
#[export] Instance tree_map {A} `{Treed A} : Treed (gmap string A).
Proof. apply (treed_iso (B:=list (string * A)) map_to_list list_to_map). apply list_to_map_to_list. Defined.

Definition workflow_status_code (s : WorkflowStatus) : Z :=
  match s with WORKFLOW_STATUS_UNSPECIFIED => 0 | WORKFLOW_STATUS_RUNNING => 1 | WORKFLOW_STATUS_COMPLETED => 2 | WORKFLOW_STATUS_FAILED => 3 end.
#[export] Instance tree_workflow_status : Treed WorkflowStatus.
Proof.
  apply (treed_iso workflow_status_code (λ z, if z =? 0 then WORKFLOW_STATUS_UNSPECIFIED else if z =? 1 then WORKFLOW_STATUS_RUNNING
    else if z =? 2 then WORKFLOW_STATUS_COMPLETED else WORKFLOW_STATUS_FAILED)). by intros [].
Defined.
Definition step_status_code (s : WorkflowStepStatus) : Z :=
  match s with WORKFLOW_STEP_STATUS_UNSPECIFIED => 0 | WORKFLOW_STEP_STATUS_SCHEDULED => 1 | WORKFLOW_STEP_STATUS_STARTED => 2
  | WORKFLOW_STEP_STATUS_SUCCEEDED => 3 | WORKFLOW_STEP_STATUS_FAILED => 4 end.
#[export] Instance tree_step_status : Treed WorkflowStepStatus.
Proof.
  apply (treed_iso step_status_code (λ z, if z =? 0 then WORKFLOW_STEP_STATUS_UNSPECIFIED else if z =? 1 then WORKFLOW_STEP_STATUS_SCHEDULED
    else if z =? 2 then WORKFLOW_STEP_STATUS_STARTED else if z =? 3 then WORKFLOW_STEP_STATUS_SUCCEEDED else WORKFLOW_STEP_STATUS_FAILED)). by
    intros [].
Defined.
Definition actor_status_code (s : ActorStatus) : Z :=
  match s with ACTOR_STATUS_UNSPECIFIED => 0 | ACTOR_STATUS_ACTIVE => 1 | ACTOR_STATUS_UNAVAILABLE => 2 end.
#[export] Instance tree_actor_status : Treed ActorStatus.
Proof.
  apply (treed_iso actor_status_code (λ z, if z =? 0 then ACTOR_STATUS_UNSPECIFIED else if z =? 1 then ACTOR_STATUS_ACTIVE
    else ACTOR_STATUS_UNAVAILABLE)). by intros [].
Defined.
#[export] Instance tree_step_def : Treed (StepDefinition).
Proof. apply (treed_iso (λ r, (sdStepID r, (sdTaskName r, (sdFunctionName r, (sdFunctionSource r, (sdFunctionRef r, (sdFunctionHash r, (sdArgsJSON
    r, (sdDependsOn r, (sdMaxAttempts r, (sdTimeoutMs r, (sdLLMModelName r, (sdLLMModelVersion r, (sdLLMAdapter r, sdLLMMaxTokens r))))))))))))))
  (λ '(v0, (v1, (v2, (v3, (v4, (v5, (v6, (v7, (v8, (v9, (v10, (v11, (v12, v13))))))))))))), {| sdStepID := v0; sdTaskName := v1; sdFunctionName :=
    v2; sdFunctionSource := v3; sdFunctionRef := v4; sdFunctionHash := v5; sdArgsJSON := v6; sdDependsOn := v7; sdMaxAttempts := v8; sdTimeoutMs :=
    v9; sdLLMModelName := v10; sdLLMModelVersion := v11; sdLLMAdapter := v12; sdLLMMaxTokens := v13 |})). by intros []. Defined.
#[export] Instance tree_definition : Treed (WorkflowDefinition).
Proof. apply (treed_iso (λ r, (dfWorkflowName r, (dfFunctionSource r, (dfFunctionRef r, (dfFunctionHash r, (dfArgsJSON r, (dfSteps r,
    (dfResultStepID r, (dfMaxAttempts r, dfTimeoutMs r)))))))))
  (λ '(v0, (v1, (v2, (v3, (v4, (v5, (v6, (v7, v8)))))))), {| dfWorkflowName := v0; dfFunctionSource := v1; dfFunctionRef := v2; dfFunctionHash :=
    v3; dfArgsJSON := v4; dfSteps := v5; dfResultStepID := v6; dfMaxAttempts := v7; dfTimeoutMs := v8 |})). by intros []. Defined.
#[export] Instance tree_step_state : Treed (StepState).
Proof. apply (treed_iso (λ r, (ssStepID r, (ssTaskName r, (ssStatus r, (ssAttempts r, (ssTaskID r, (ssResultJSON r, (ssResultRef r, (ssError r,
    (ssStartedAtMs r, (ssCompletedAtMs r, (ssLatencyMs r, (ssLastInputHash r, (ssResolvedArgsJSON r, ssLastScheduledAtMs r))))))))))))))
  (λ '(v0, (v1, (v2, (v3, (v4, (v5, (v6, (v7, (v8, (v9, (v10, (v11, (v12, v13))))))))))))), {| ssStepID := v0; ssTaskName := v1; ssStatus := v2;
    ssAttempts := v3; ssTaskID := v4; ssResultJSON := v5; ssResultRef := v6; ssError := v7; ssStartedAtMs := v8; ssCompletedAtMs := v9; ssLatencyMs
    := v10; ssLastInputHash := v11; ssResolvedArgsJSON := v12; ssLastScheduledAtMs := v13 |})). by intros []. Defined.
#[export] Instance tree_state : Treed (stateJSON).
Proof. apply (treed_iso (λ r, (sj_WorkflowID r, (sj_WorkflowName r, (sj_Status r, (sj_Definition r, (sj_StepOrder r, (sj_Steps r, (sj_ResultJSON r,
    (sj_ResultRef r, (sj_Error r, (sj_IdempotencyKey r, (sj_IdempotencyFingerprint r, (sj_CreatedAtMs r, (sj_UpdatedAtMs r, sj_CompletedAtMs
    r))))))))))))))
  (λ '(v0, (v1, (v2, (v3, (v4, (v5, (v6, (v7, (v8, (v9, (v10, (v11, (v12, v13))))))))))))), {| sj_WorkflowID := v0; sj_WorkflowName := v1;
    sj_Status := v2; sj_Definition := v3; sj_StepOrder := v4; sj_Steps := v5; sj_ResultJSON := v6; sj_ResultRef := v7; sj_Error := v8;
    sj_IdempotencyKey := v9; sj_IdempotencyFingerprint := v10; sj_CreatedAtMs := v11; sj_UpdatedAtMs := v12; sj_CompletedAtMs := v13 |})). by
    intros []. Defined.
#[export] Instance tree_actor : Treed (ActorState).
Proof. apply (treed_iso (λ r, (asActorID r, (asClassName r, (asClassSource r, (asInitArgsJSON r, (asStatus r, (asOwnerWorkerID r, (asEpoch r,
    (asCommandCount r, (asSubmittedCommandCount r, (asSnapshotEvery r, (asSnapshotRef r, (asSnapshotCommandCount r, (asStateJSON r,
    (asIdempotencyKey r, (asIdempotencyFingerprint r, (asCreatedAtMs r, asUpdatedAtMs r)))))))))))))))))
  (λ '(v0, (v1, (v2, (v3, (v4, (v5, (v6, (v7, (v8, (v9, (v10, (v11, (v12, (v13, (v14, (v15, v16)))))))))))))))), {| asActorID := v0; asClassName :=
    v1; asClassSource := v2; asInitArgsJSON := v3; asStatus := v4; asOwnerWorkerID := v5; asEpoch := v6; asCommandCount := v7;
    asSubmittedCommandCount := v8; asSnapshotEvery := v9; asSnapshotRef := v10; asSnapshotCommandCount := v11; asStateJSON := v12; asIdempotencyKey
    := v13; asIdempotencyFingerprint := v14; asCreatedAtMs := v15; asUpdatedAtMs := v16 |})). by intros []. Defined.
#[export] Instance tree_task : Treed (Task).
Proof. apply (treed_iso (λ r, (tk_TaskID r, (tk_TaskName r, (tk_Status r, (tk_ResultJSON r, (tk_Error r, (tk_WorkerID r, (tk_WorkflowID r,
    (tk_StepID r, (tk_TargetWorkerID r, (tk_ActorID r, (tk_ActorCallID r, (tk_ActorEpoch r, (tk_ActorCommandSeq r, (tk_TaskLeaseEpoch r,
    (tk_LLMModelName r, (tk_LLMModelVersion r, (tk_IdempotencyKey r, (tk_IdempotencyFingerprint r, (tk_CreatedAtMs r, tk_UpdatedAtMs
    r))))))))))))))))))))
  (λ '(v0, (v1, (v2, (v3, (v4, (v5, (v6, (v7, (v8, (v9, (v10, (v11, (v12, (v13, (v14, (v15, (v16, (v17, (v18, v19))))))))))))))))))), {| tk_TaskID
    := v0; tk_TaskName := v1; tk_Status := v2; tk_ResultJSON := v3; tk_Error := v4; tk_WorkerID := v5; tk_WorkflowID := v6; tk_StepID := v7;
    tk_TargetWorkerID := v8; tk_ActorID := v9; tk_ActorCallID := v10; tk_ActorEpoch := v11; tk_ActorCommandSeq := v12; tk_TaskLeaseEpoch := v13;
    tk_LLMModelName := v14; tk_LLMModelVersion := v15; tk_IdempotencyKey := v16; tk_IdempotencyFingerprint := v17; tk_CreatedAtMs := v18;
    tk_UpdatedAtMs := v19 |})). by intros []. Defined.
#[export] Instance tree_llm : Treed (llmWorkerStats).
Proof. apply (treed_iso (λ r, (ls_RequestCount r, (ls_CacheHitCount r, (ls_EWMATotalLatencyMs r, (ls_EWMAModelLoadMs r, (ls_EWMACheckpointFetchMs
    r, (ls_LastEvictionCount r, ls_LastUpdatedMs r)))))))
  (λ '(v0, (v1, (v2, (v3, (v4, (v5, v6)))))), {| ls_RequestCount := v0; ls_CacheHitCount := v1; ls_EWMATotalLatencyMs := v2; ls_EWMAModelLoadMs :=
    v3; ls_EWMACheckpointFetchMs := v4; ls_LastEvictionCount := v5; ls_LastUpdatedMs := v6 |})). by intros []. Defined.
#[export] Instance tree_cp_stream : Treed (MetadataCheckpointStream).
Proof. apply (treed_iso (λ r, (cs_Kind r, cs_LastSeq r))
  (λ '(v0, v1), {| cs_Kind := v0; cs_LastSeq := v1 |})). by intros []. Defined.
#[export] Instance tree_cp_task : Treed (metadataCheckpointTask).
Proof. apply (treed_iso (λ r, (ct_Task r, ct_Spec r))
  (λ '(v0, v1), {| ct_Task := v0; ct_Spec := v1 |})). by intros []. Defined.
#[export] Instance tree_cp_workflow : Treed (metadataCheckpointWorkflow bytes).
Proof. apply (treed_iso (λ r, (cw_WorkflowID r, cw_State r))
  (λ '(v0, v1), {| cw_WorkflowID := v0; cw_State := v1 |})). by intros []. Defined.
#[export] Instance tree_cp_actor : Treed (metadataCheckpointActor).
Proof. apply (treed_iso (λ r, (ca_ActorID r, ca_State r))
  (λ '(v0, v1), {| ca_ActorID := v0; ca_State := v1 |})). by intros []. Defined.
#[export] Instance tree_cp_llm : Treed (metadataCheckpointLLMStats).
Proof. apply (treed_iso (λ r, (cl_ModelName r, (cl_ModelVersion r, (cl_WorkerID r, cl_Stats r))))
  (λ '(v0, (v1, (v2, v3))), {| cl_ModelName := v0; cl_ModelVersion := v1; cl_WorkerID := v2; cl_Stats := v3 |})). by intros []. Defined.
#[export] Instance tree_cp : Treed (checkpointJSON).
Proof. apply (treed_iso (λ r, (cp_ID r, (cp_CreatedAtMs r, (cp_Streams r, (cp_Tasks r, (cp_Workflows r, (cp_Actors r, cp_LLMStats r)))))))
  (λ '(v0, (v1, (v2, (v3, (v4, (v5, v6)))))), {| cp_ID := v0; cp_CreatedAtMs := v1; cp_Streams := v2; cp_Tasks := v3; cp_Workflows := v4; cp_Actors
    := v5; cp_LLMStats := v6 |})). by intros []. Defined.

(** Trees as bytes. *)
Definition tree_data {A} `{Treed A} (a : A) : bytes := positive_bytes (encode (to_tree a)).
Definition data_tree {A} `{Treed A} (data : bytes) : option A := decode (bytes_positive data) ≫= of_tree.
Lemma data_tree_data {A} `{Treed A} (a : A) : data_tree (tree_data a) = Some a.
Proof. unfold data_tree, tree_data. rewrite bytes_positive_bytes, decode_encode. apply of_to_tree. Qed.

(** A list of steps is written in brackets. *)
Definition bracketed (b : bytes) : bytes := [x5b] ++ b ++ [x5d].
Definition unbracketed (b : bytes) : bytes := take (length b - 2) (drop 1 b).
Lemma unbracketed_bracketed b : unbracketed (bracketed b) = b.
Proof.
  unfold unbracketed, bracketed. cbn [app drop length]. rewrite length_app. cbn [length].
  replace (S (length b + 1) - 2)%nat with (length b) by lia. apply take_app_length.
Qed.

Definition toy_steps (l : list StepState) : option bytes := Some (bracketed (tree_data l)).
Definition toy_step_list (data : bytes) : option (list StepState) := data_tree (unbracketed data).
Definition same_bytes (b : bytes) : bytes := b.
Lemma compact_state_same w : compact_state same_bytes w = w.
Proof.
  destruct w as [? ? ? [? ? ? ? ? steps ? ? ?]]. unfold compact_state, compact_def, same_bytes. cbn. do 2 f_equal.
  induction steps as [|[] steps IH]; [done|]. cbn. by rewrite IH.
Qed.
#[export] Instance toy_state_json : StateJSON.
Proof.
  refine {| json_compact := same_bytes; json_text := λ _, True; json_Steps := toy_steps; json_StepList := toy_step_list;
            json_StepMap := λ _, None; json_State := λ w, Some (tree_data w); json_StateDecode := data_tree |}.
  - intros l data [= <-]. split_and!; [|done|by eexists]. unfold toy_step_list. by rewrite unbracketed_bracketed, data_tree_data.
  - intros w data _ [= <-]. by rewrite data_tree_data, compact_state_same.
Defined.
Lemma compact_checkpoint_same cp : compact_checkpoint same_bytes cp = cp.
Proof.
  destruct cp as [? ? ? tasks workflows ? ?]. unfold compact_checkpoint, same_bytes. cbn. f_equal.
  - induction tasks as [|[] l IH]; [done|]. cbn. by rewrite IH.
  - induction workflows as [|[] l IH]; [done|]. cbn. by rewrite IH.
Qed.
#[export] Existing Instance toy_taskcodec.
#[export] Instance toy_checkpoint_json : CheckpointJSON.
Proof.
  refine {| protojson_Marshal := toy_proto; checkpoint_text := λ _, True; json_Checkpoint := λ cp, Some (tree_data cp);
            json_CheckpointDecode := data_tree |}.
  - intros spec data Hd. cbn. unfold same_bytes. split; [by apply toy_proto_roundtrip|]. by injection Hd as <-.
  - by intros w data [= <-].
  - intros cp data _ [= <-]. cbn. by rewrite data_tree_data, compact_checkpoint_same.
Defined.
Close Scope Z_scope.
