(* ===== verification/CheckpointTails.v ===== *)
(** Replaying a tail on top of a snapshot ([Checkpoint]): for a task, a workflow and an
    actor, a snapshot that agrees with the replay of a prefix of the stream still agrees
    after the tail, in the sense of the code's own consistency checks. *)
From S2P Require Import Prelude Bytes LogRecord EventCodec TaskSpec MetaStore TaskReplay TaskReplaySpec Placement WorkflowDef WorkflowState WorkflowReplay Actor ServiceState ControlTasks ControlService Checkpoint.

Open Scope Z_scope.

(** ** Tasks *)

(** What no lifecycle event changes, times aside. *)
Definition durable (t : Task) : Task := set_result (set_created (set_lease t 0 "" 0 0) (tk_IdempotencyKey t) 0) [] "".
Definition same_spec (a b : option TaskSpec) : Prop :=
  (λ sp, with_lease_epoch sp 0) <$> a = (λ sp, with_lease_epoch sp 0) <$> b.
Lemma same_spec_epoch a b e : same_spec a b → (λ sp, with_lease_epoch sp e) <$> a = (λ sp, with_lease_epoch sp e) <$> b.
Proof.
  unfold same_spec. destruct a as [[]|], b as [[]|]; cbn; try done. intros Hs. by injection Hs as -> -> -> -> -> -> -> -> -> -> -> -> -> -> -> -> -> -> -> -> -> -> -> ->.
Qed.
Definition same_result (a b : Task) : Prop := tk_ResultJSON a = tk_ResultJSON b ∧ tk_Error a = tk_Error b.

Lemma consistent_tasks a b :
  durable a = durable b → same_result a b → tk_Status a = tk_Status b → tk_WorkerID a = tk_WorkerID b →
  tk_TaskLeaseEpoch a = tk_TaskLeaseEpoch b → metadataTasksConsistent a b = true.
Proof.
  destruct a, b. unfold durable, same_result, metadataTasksConsistent. cbn. intros [= -> -> -> -> -> -> -> -> -> -> -> -> ->] [-> ->] -> -> ->.
  by rewrite !bool_decide_eq_true_2, !Z.eqb_refl.
Qed.
Lemma consistent_created a b key t : metadataTasksConsistent a b = true → key = tk_IdempotencyKey b →
  metadataTasksConsistent a (set_created b key t) = true.
Proof. intros Hc ->. exact Hc. Qed.

Section Tasks.
Context `{MsgpackLib, TaskCodecLib, FingerprintLib}.

(** The replay [s] of a stream's prefix and the state [t] that the same records made from a
    snapshot, where [red0] and [lease0] are the fence and the lease at the snapshot.  The
    fence is not in a snapshot; [requeued]: the task ran, and is queued in the snapshot
    because the service had restarted. *)
Record resumed (red0 lease0 : Z) (requeued : Prop) (s t : taskReplayState) : Prop := {
  rm_ok : rs_ok s = true ∧ rs_ok t = true;
  rm_spec : same_spec (rs_spec s) (rs_spec t);
  rm_task : durable (rs_task s) = durable (rs_task t) ∧ same_result (rs_task s) (rs_task t);
  rm_lease : rs_leaseEpoch s = rs_leaseEpoch t;
  rm_fence : rs_redeliveredLeaseEpoch t <= rs_redeliveredLeaseEpoch s <= Z.max red0 (rs_redeliveredLeaseEpoch t);
  rm_live : rs_status s = TASK_STATUS_RUNNING → rs_redeliveredLeaseEpoch s < rs_leaseEpoch s;
  rm_mode :
    (rs_status s = rs_status t ∧ tk_WorkerID (rs_task s) = tk_WorkerID (rs_task t)) ∨
    (requeued ∧ rs_status s = TASK_STATUS_RUNNING ∧ rs_status t = TASK_STATUS_QUEUED ∧
     tk_WorkerID (rs_task t) = EmptyString ∧ rs_leaseEpoch s = lease0)
}.

(** An event after the snapshot: every epoch is positive, no lease starts at or below the
    fence, and [requeued]: no outcome belongs to the lease of the snapshot. *)
Record tail_event (red0 lease0 : Z) (requeued : Prop) (rec : RawRecord) : Prop := {
  te_later : event_of rec ≠ EvSubmitted;
  te_epoch : event_of rec ≠ EvOther → 0 < epoch_of rec;
  te_fresh : event_of rec = EvStarted → red0 < epoch_of rec;
  te_lease : requeued → ∀ status, event_of rec = EvFinished status → epoch_of rec ≠ lease0
}.

Lemma resumed_started red0 lease0 requeued s t payload :
  resumed red0 lease0 requeued s t → red0 < taskEventLeaseEpoch payload → 0 < taskEventLeaseEpoch payload →
  resumed red0 lease0 requeued (apply_started s payload) (apply_started t payload).
Proof.
  intros Hr Hfr He. destruct Hr as [Hok Hsp [Hd Hres] Hl Hf Hlive Hm]. unfold apply_started. unfold taskEventLeaseEpoch in *.
  set (p := decodeTaskLifecyclePayload payload) in *.
  assert (isTerminalTaskStatus (rs_status s) = isTerminalTaskStatus (rs_status t)) as Ht by (by destruct Hm as [[-> _]|(_ & -> & -> & _)]).
  rewrite <- Ht. destruct (isTerminalTaskStatus (rs_status s)); [by split|].
  rewrite (proj2 (Z.eqb_neq _ _)) by lia. rewrite <- Hl.
  destruct (Z.leb_spec (lp_TaskLeaseEpoch p) (rs_redeliveredLeaseEpoch s)), (Z.leb_spec (lp_TaskLeaseEpoch p) (rs_redeliveredLeaseEpoch t));
    [by split|lia|lia|].
  destruct (Z.leb_spec (rs_leaseEpoch s) (lp_TaskLeaseEpoch p)); [|by split].
  split; cbn; try done. by left.
Qed.
Lemma resumed_redelivered red0 lease0 requeued s t payload :
  resumed red0 lease0 requeued s t → 0 < taskEventLeaseEpoch payload →
  resumed red0 lease0 requeued (apply_redelivered s payload) (apply_redelivered t payload).
Proof.
  intros Hr He. destruct Hr as [Hok Hsp [Hd Hres] Hl Hf Hlive Hm]. unfold apply_redelivered.
  assert (isTerminalTaskStatus (rs_status s) = isTerminalTaskStatus (rs_status t)) as Ht by (by destruct Hm as [[-> _]|(_ & -> & -> & _)]).
  rewrite <- Ht. destruct (isTerminalTaskStatus (rs_status s)); [by split|].
  rewrite (proj2 (Z.eqb_neq _ _)) by lia. cbn [orb]. rewrite <- Hl.
  destruct (Z.leb_spec (rs_leaseEpoch s) (taskEventLeaseEpoch payload)).
  - split; cbn; try done; [lia|by left].
  - split; cbn; try done; [lia|]. intros Hrun. specialize (Hlive Hrun). lia.
Qed.
Lemma resumed_terminal red0 lease0 requeued s t status payload :
  isTerminalTaskStatus status = true → resumed red0 lease0 requeued s t →
  0 < taskEventLeaseEpoch payload → (requeued → taskEventLeaseEpoch payload ≠ lease0) →
  resumed red0 lease0 requeued (apply_terminal s status payload) (apply_terminal t status payload).
Proof.
  intros Hterm Hr He Hq. pose proof Hr as [Hok Hsp [Hd Hres] Hl Hf Hlive Hm].
  assert (terminalEventApplies s payload = terminalEventApplies t payload) as Ha.
  { unfold terminalEventApplies, taskTerminalEventApplies.
    destruct Hm as [[Hst _]|(Hrq & Hs & Ht & _ & Hl0)].
    - rewrite <- Hst, <- Hl. destruct (isTerminalTaskStatus (rs_status s)); [done|]. rewrite (proj2 (Z.eqb_neq _ _)) by lia.
      destruct (Z.eqb_spec (rs_status s) TASK_STATUS_RUNNING) as [Hrun|]; [|done]. cbn [negb]. specialize (Hlive Hrun).
      destruct (Z.eqb_spec (taskEventLeaseEpoch payload) (rs_leaseEpoch s)) as [->|]; [|done]. cbn [andb].
      by rewrite !(proj2 (Z.ltb_lt _ _)) by lia.
    - rewrite Hs, Ht. cbn. rewrite (proj2 (Z.eqb_neq _ 0)) by lia. specialize (Hq Hrq). rewrite Hl0.
      by rewrite (proj2 (Z.eqb_neq _ _)) by done. }
  unfold apply_terminal. rewrite Ha. destruct (terminalEventApplies t payload); [|done].
  split; cbn; try done; [by intros ->|by left].
Qed.

Lemma resumed_step red0 lease0 requeued s t rec s' :
  resumed red0 lease0 requeued s t → tail_event red0 lease0 requeued rec → applyRaw s rec = Ok s' →
  ∃ t', applyRaw t rec = Ok t' ∧ resumed red0 lease0 requeued s' t'.
Proof.
  intros Hr [Hl He Hf Hq]. rewrite !applyRaw_event. unfold epoch_of in *.
  destruct (event_of rec) as [| | |status|] eqn:Hev; [done|..]; intros [= <-]; eexists; (split; [reflexivity|]).
  - apply resumed_started; auto.
  - apply resumed_redelivered; auto.
  - apply resumed_terminal; [|done|auto|intros Hrq; by apply (Hq Hrq status)]. by eapply finished_terminal.
  - done.
Qed.
Lemma apply_all_app l l' s : apply_all s (l ++ l') = apply_all s l ≫= λ s', apply_all s' l'.
Proof. revert s. induction l as [|rec l IH]; intros s; [done|]. cbn [apply_all app]. by destruct (applyRaw s rec); cbn; [apply IH|]. Qed.
Lemma resumed_all red0 lease0 requeued tail : ∀ s t s',
  resumed red0 lease0 requeued s t → Forall (tail_event red0 lease0 requeued) tail → apply_all s tail = Ok s' →
  ∃ t', apply_all t tail = Ok t' ∧ resumed red0 lease0 requeued s' t'.
Proof.
  induction tail as [|rec tail IH]; intros s t s' Hr Hf; cbn [apply_all]; [intros [= <-]; by exists t|].
  apply Forall_cons in Hf as [Hrec Hf]. intros (s1 & Hs1 & Hs)%result_bind_ok.
  destruct (resumed_step _ _ _ _ _ _ _ Hr Hrec Hs1) as (t1 & -> & Hr1). cbn. by apply (IH s1).
Qed.

(** Both are settled, or queued again under the same lease. *)
Lemma resumed_final red0 lease0 requeued s t :
  resumed red0 lease0 requeued s t → metadataTasksConsistent (finalTask s) (finalTask t) = true ∧ final_spec s = final_spec t.
Proof.
  intros [_ Hsp [Hd Hres] Hl _ _ Hm]. split; [|unfold final_spec; rewrite Hl; by apply same_spec_epoch].
  unfold finalTask. rewrite <- Hl.
  destruct Hm as [[Hst Hw]|(_ & Hs & Ht & Hw & _)].
  - rewrite <- Hst. destruct (_ =? _); apply consistent_tasks; try exact Hd; try exact Hres; try exact Hw; done.
  - rewrite Hs, Ht. cbn [Z.eqb Pos.eqb]. apply consistent_tasks; try exact Hd; try exact Hres; by rewrite ?Hw.
Qed.

(** A checkpointed task that holds what the stream's replay [s] holds. *)
Record captures (item : Task) (spec : TaskSpec) (s : taskReplayState) : Prop := {
  ca_ok : rs_ok s = true ∧ tk_TaskID item ≠ EmptyString ∧ tk_Status item ≠ 0;
  ca_spec : same_spec (rs_spec s) (Some spec);
  ca_task : durable (rs_task s) = durable item ∧ same_result (rs_task s) item;
  ca_epoch : rs_leaseEpoch s = tk_TaskLeaseEpoch item ∧ 0 <= rs_redeliveredLeaseEpoch s;
  ca_live : rs_status s = TASK_STATUS_RUNNING → rs_redeliveredLeaseEpoch s < rs_leaseEpoch s;
  ca_status :
    (rs_status s = tk_Status item ∧ tk_WorkerID (rs_task s) = tk_WorkerID item) ∨
    (rs_status s = TASK_STATUS_RUNNING ∧ tk_Status item = TASK_STATUS_QUEUED ∧ tk_WorkerID item = EmptyString)
}.
Definition task_tail_ok (item : Task) (s : taskReplayState) (tail : list RawRecord) : Prop :=
  Forall (tail_event (rs_redeliveredLeaseEpoch s) (rs_leaseEpoch s) (tk_Status item ≠ rs_status s)) tail.

Lemma task_tail_resumes item spec s tail s' :
  captures item spec s → task_tail_ok item s tail → apply_all s tail = Ok s' →
  ∃ t, apply_all (taskReplayStateFromCheckpoint item (Some spec)) tail = Ok t ∧ rs_ok t = true ∧ is_Some (rs_spec t) ∧
    metadataTasksConsistent (finalTask s') (finalTask t) = true ∧ final_spec s' = final_spec t.
Proof.
  intros [[Hok [Hid Hst]] Hsp Ht [He Hr0] Hlive Hm] Htail Hs.
  destruct (resumed_all (rs_redeliveredLeaseEpoch s) (rs_leaseEpoch s) (tk_Status item ≠ rs_status s) tail s (taskReplayStateFromCheckpoint item (Some spec)) s') as (t & Ha & Hr); [|exact Htail|exact Hs|].
  { unfold taskReplayStateFromCheckpoint. rewrite (proj2 (Z.eqb_neq _ _) Hst), cloneSpec_id.
    split; cbn; [by rewrite (proj2 (str_empty_false _) Hid)|done|done|done|lia|done|].
    destruct Hm as [?|(Hs1 & Hs2 & Hs3)]; [by left|right]. split_and!; [rewrite Hs1, Hs2; discriminate|done..]. }
  exists t. split; [exact Ha|]. split; [apply Hr|]. split; [|by eapply resumed_final].
  pose proof (rm_spec _ _ _ _ _ Hr) as Hspec. unfold same_spec in *.
  assert (is_Some (rs_spec s')) as [sp Hs'].
  { destruct (later_events_all tail s s') as (-> & _); [|exact Hs|].
    - eapply Forall_impl; [exact Htail|]. by intros r [].
    - destruct (rs_spec s); [by eexists|done]. }
  rewrite Hs' in Hspec. destruct (rs_spec t); [by eexists|done].
Qed.
End Tasks.

(** ** Workflows *)

(** A state without its times, its counters and its ready queue. *)
Definition timeless_step (st : StepState) : StepState := {|
  ssStepID := ssStepID st; ssTaskName := ssTaskName st; ssStatus := ssStatus st; ssAttempts := ssAttempts st;
  ssTaskID := ssTaskID st; ssResultJSON := ssResultJSON st; ssResultRef := ssResultRef st; ssError := ssError st;
  ssStartedAtMs := 0; ssCompletedAtMs := 0; ssLatencyMs := ssLatencyMs st; ssLastInputHash := ssLastInputHash st;
  ssResolvedArgsJSON := ssResolvedArgsJSON st; ssLastScheduledAtMs := 0 |}.
Definition timeless (w : WorkflowState) : WorkflowState := {|
  wsWorkflowID := wsWorkflowID w; wsWorkflowName := wsWorkflowName w; wsStatus := wsStatus w;
  wsDefinition := wsDefinition w; wsStepOrder := wsStepOrder w; wsResultJSON := wsResultJSON w;
  wsResultRef := wsResultRef w; wsError := wsError w; wsIdempotencyKey := wsIdempotencyKey w;
  wsIdempotencyFingerprint := wsIdempotencyFingerprint w; wsCreatedAtMs := 0; wsUpdatedAtMs := 0; wsCompletedAtMs := 0;
  wsDag := (λ d, with_rdSteps (core_dag d) (map timeless_step (rdSteps d))) <$> wsDag w |}.
Record alike (s t : WorkflowState) : Prop := {
  al_started : started s ∧ started t;
  al_same : timeless s = timeless t
}.

Lemma timeless_core s : timeless (core s) = timeless s.
Proof. unfold timeless, core, with_runtime. cbn. by destruct (wsDag s). Qed.
Lemma core_timeless s t : core s = core t → timeless s = timeless t.
Proof. intros Hc. by rewrite <- (timeless_core s), Hc, timeless_core. Qed.

Lemma timeless_started s t : started s → timeless s = timeless t → started t.
Proof.
  intros [Hdef Ho (d & Hd & [Hids Hnames Hby])] Ht.
  assert (wsDefinition s = wsDefinition t) as Hd1 by (apply (f_equal wsDefinition) in Ht; exact Ht).
  assert (wsStepOrder s = wsStepOrder t) as Ho1 by (apply (f_equal wsStepOrder) in Ht; exact Ht).
  apply (f_equal wsDag) in Ht. cbn in Ht. rewrite Hd in Ht. destruct (wsDag t) as [d'|] eqn:Hd'; [|done]. injection Ht as Hsteps Hbyid.
  assert (∀ (f : StepState → string), (∀ st, f (timeless_step st) = f st) → map f (rdSteps d') = map f (rdSteps d)) as Hmap.
  { intros f Hf. transitivity (map f (map timeless_step (rdSteps d'))); [|rewrite <- Hsteps]; rewrite map_map; apply map_ext; intros st; by rewrite Hf. }
  rewrite Hd1, Ho1 in *. split; [done|done|]. exists d'. split; [done|]. split; [by rewrite Hmap| |congruence].
  intros i sd st Hsd Hst Hn. assert (map ssTaskName (rdSteps d) !! i = Some (ssTaskName st)) as Hi.
  { rewrite <- (Hmap ssTaskName) by done. exact (list_lookup_fmap_Some_2 ssTaskName _ _ _ Hst). }
  apply list_lookup_fmap_Some_1 in Hi as (st0 & Hname & Hst0). eapply Hnames; [exact Hsd|exact Hst0|congruence].
Qed.
Lemma alike_dag s t : alike s t → ∃ d d', wsDag s = Some d ∧ wsDag t = Some d' ∧
  rdByID d = rdByID d' ∧ map timeless_step (rdSteps d) = map timeless_step (rdSteps d').
Proof.
  intros [[[_ _ (d & Hd & _)] [_ _ (d' & Hd' & _)]] Ht]. exists d, d'. split_and!; [done..| |];
    apply (f_equal wsDag) in Ht; cbn in Ht; rewrite Hd, Hd' in Ht; by injection Ht.
Qed.
Lemma alike_fields s t : alike s t → wsWorkflowID s = wsWorkflowID t ∧ wsStatus s = wsStatus t ∧ wsDefinition s = wsDefinition t ∧
  wsError s = wsError t ∧ wsResultJSON s = wsResultJSON t ∧ wsResultRef s = wsResultRef t.
Proof.
  intros [_ Ht]. split_and!; [apply (f_equal wsWorkflowID) in Ht|apply (f_equal wsStatus) in Ht|apply (f_equal wsDefinition) in Ht
    |apply (f_equal wsError) in Ht|apply (f_equal wsResultJSON) in Ht|apply (f_equal wsResultRef) in Ht]; exact Ht.
Qed.

(** Two setters of one step that differ in their times. *)
Definition same_put (f g : StepState → option (StepState * Z)) : Prop :=
  ∀ a b, timeless_step a = timeless_step b →
    match f a, g b with Some (x, _), Some (y, _) => timeless_step x = timeless_step y | None, None => True | _, _ => False end.
Lemma timeless_put s t d d' i a b u v :
  timeless s = timeless t → rdByID d = rdByID d' → map timeless_step (rdSteps d) = map timeless_step (rdSteps d') →
  timeless_step a = timeless_step b → timeless (put_step s d i a u) = timeless (put_step t d' i b v).
Proof.
  intros Ht Hb Hs Hab. unfold timeless, put_step, with_UpdatedAtMs, with_dag, with_runtime in *. cbn.
  injection Ht as Ha1 Ha2 Ha3 Ha4 Ha5 Ha6 Ha7 Ha8 Ha9 Ha11 _. rewrite Ha1, Ha2, Ha3, Ha4, Ha5, Ha6, Ha7, Ha8, Ha9, Ha11.
  do 2 f_equal. unfold with_rdSteps, core_dag. cbn. rewrite Hb. f_equal. rewrite !(list_fmap_insert timeless_step), Hab. by f_equal.
Qed.

Lemma sets_alike op op' f g id s t :
  sets op f id → sets op' g id → same_put f g → alike s t → alike (op s) (op' t).
Proof.
  intros Ho Ho' Hfg Hal. destruct (alike_dag _ _ Hal) as (d & d' & Hd & Hd' & Hb & Hs). destruct Hal as [[Hst Htt] Ht].
  split; [split; [apply (setter_started op s)|apply (setter_started op' t)]; try done; by eapply sets_like|].
  rewrite (core_timeless _ _ (proj2 Ho s d Hst Hd)), (core_timeless _ _ (proj2 Ho' t d' Htt Hd')). unfold find_step. rewrite Hb.
  destruct (rdByID d' !! id) as [i|]; [|done]. cbn.
  assert (timeless_step <$> rdSteps d !! i = timeless_step <$> rdSteps d' !! i) as Hi.
  { rewrite <- !list_lookup_fmap. by f_equal. }
  destruct (rdSteps d !! i) as [a|], (rdSteps d' !! i) as [b|]; try done. injection Hi as Hi.
  assert (timeless_step a = timeless_step b) as Hab by (unfold timeless_step; congruence). cbn. specialize (Hfg a b Hab).
  destruct (f a) as [[x u]|], (g b) as [[y v]|]; try done. by apply timeless_put.
Qed.

Lemma scheduled_put taskID attempt hash args now : same_put (scheduled_step taskID attempt hash args now) (scheduled_step taskID attempt hash args now).
Proof. intros [] [] [=]. unfold scheduled_step, timeless_step. cbn in *. by subst. Qed.
Lemma started_put taskID now : same_put (started_step taskID now) (started_step taskID now).
Proof. intros [] [] [=]. unfold started_step, timeless_step. cbn in *. subst. by case_bool_decide. Qed.
Lemma succeeded_put taskID res ref now lat : same_put (succeeded_step taskID res ref now lat) (succeeded_step taskID res ref now lat).
Proof. intros [] [] [=]. unfold succeeded_step, timeless_step. cbn in *. by subst. Qed.
Lemma failed_put taskID err retry now now' lat : same_put (failed_step taskID err retry now lat) (failed_step taskID err retry now' lat).
Proof. intros [] [] [=]. unfold failed_step, timeless_step. cbn in *. by subst. Qed.

Lemma alike_completion st s t a b c ts : alike s t → alike (with_completion s st a b c ts) (with_completion t st a b c ts).
Proof.
  intros [[[? ? ?] [? ? ?]] Ht]. split; [by split|]. unfold timeless, with_completion in *. cbn. injection Ht. intros. congruence.
Qed.
Lemma alike_refl s : started s → alike s s.
Proof. by split. Qed.

Section Workflows.
Context `{MsgpackLib, DefinitionJSON, WorkflowEventJSON}.

Lemma event_alike et p wid s t s' :
  alike s t → wsWorkflowID s = wid → (et = "WorkflowStarted" → wpWorkflowID p = EmptyString ∨ wpWorkflowID p = wid) →
  apply_event s wid et p false = Ok s' →
  ∃ t', apply_event t wid et p true = Ok t' ∧ alike s' t' ∧ wsWorkflowID s' = wid.
Proof.
  intros Hal Hid Hw Hs. destruct (decide (et = "WorkflowStarted")) as [->|Hne].
  - exists s'. unfold apply_event in *. cbn in *. destruct (ParseDefinition _) as [def|] eqn:Hp; [|done]. injection Hs as <-.
    assert ((if negb (str_empty (wpWorkflowID p)) then wpWorkflowID p else wid) = wid) as ->.
    { destruct (Hw eq_refl) as [-> | ->]; [done|]. by destruct (str_empty wid). }
    split; [done|]. split; [|done]. apply alike_refl. by eapply start_event_started.
  - destruct (other_event et p s Hne) as (op & Hop & Hid' & _). rewrite Hop in Hs. injection Hs as <-. rewrite Hid'.
    assert (∃ t', apply_event t wid et p true = Ok t' ∧ alike (op s) t') as (t' & ? & ?); [|by exists t'].
    specialize (Hop s wid false) as Hs. unfold apply_event in *. destruct (alike_fields _ _ Hal) as (_ & _ & _ & Herr & Hres & Href).
    repeat case_decide; subst; try done; injection Hs as <-; eexists; (split; [reflexivity|]); rewrite <- ?Herr, <- ?Hres, <- ?Href;
      first [by apply alike_completion|exact Hal
            |exact (sets_alike _ _ _ _ _ _ _ (scheduled_sets _ _ _ _ _ _) (scheduled_sets _ _ _ _ _ _) (scheduled_put _ _ _ _ _) Hal)
            |exact (sets_alike _ _ _ _ _ _ _ (started_sets _ _ _) (started_sets _ _ _) (started_put _ _) Hal)
            |exact (sets_alike _ _ _ _ _ _ _ (succeeded_sets _ _ _ _ _ _) (succeeded_sets _ _ _ _ _ _) (succeeded_put _ _ _ _ _) Hal)
            |exact (sets_alike _ _ _ _ _ _ _ (failed_sets _ _ _ _ _ _) (failed_sets _ _ _ _ _ _) (failed_put _ _ _ _ _ _) Hal)].
Qed.
Lemma records_alike wid tail : ∀ s t s',
  alike s t → wsWorkflowID s = wid → Forall (same_workflow wid) tail → apply_records s wid false tail = Ok s' →
  ∃ t', apply_records t wid true tail = Ok t' ∧ alike s' t' ∧ wsWorkflowID s' = wid.
Proof.
  induction tail as [|rec tail IH]; intros s t s' Hal Hid Hf; cbn [apply_records]; [intros [= <-]; by exists t|].
  apply Forall_cons in Hf as [Hrec Hf]. intros (s1 & Hs1 & Hs)%result_bind_ok. unfold applyWorkflowRecord in *.
  apply result_bind_ok in Hs1 as (p & Hp & Hs1). rewrite Hp. cbn.
  destruct (event_alike (raw_EventType rec) p wid s t s1 Hal Hid) as (t1 & -> & Hal1 & Hid1); [|exact Hs1|].
  { intros He. by apply Hrec. }
  by apply (IH s1).
Qed.

(** What a restart stores of a replayed workflow. *)
Lemma alike_rebuild s t : alike s t → alike (RebuildRuntime s) (RebuildRuntime t).
Proof.
  intros [[Hs Ht] Hst]. split; [by split; apply runtime_started, rebuild_runtime_ok|].
  by rewrite (core_timeless _ _ (core_rebuild s Hs)), (core_timeless _ _ (core_rebuild t Ht)).
Qed.
Lemma started_steps s d : wsDag s = Some d → StepStatesInOrder s = rdSteps d.
Proof. intros Hd. unfold StepStatesInOrder, dag_of, rebuilt. by rewrite !Hd. Qed.
Lemma alike_prepare_steps l : ∀ l' s t, alike s t → map timeless_step l = map timeless_step l' →
  let retry w step :=
    if negb (bool_decide (ssStatus step = WORKFLOW_STEP_STATUS_FAILED)) || (StepMaxAttempts (wsDefinition w) (ssStepID step) <=? ssAttempts step)
    then w
    else (SetStepFailed w (ssStepID step) (ssTaskID step) (ssError step) true (ssCompletedAtMs step) (ssLatencyMs step)).1 in
  alike (foldl retry s l) (foldl retry t l').
Proof.
  induction l as [|a l IH]; intros [|b l'] s t Hal Hl retry; try done. injection Hl as Hid Hname Hst Hat Htask Hres Href Herr Hlat Hhash Hargs Hl.
  cbn [foldl]. apply IH; [|done]. unfold retry. destruct (alike_fields _ _ Hal) as (_ & _ & Hdef & _). rewrite Hid, Hst, Hat, Htask, Herr, Hlat, Hdef.
  destruct (_ || _); [done|]. exact (sets_alike _ _ _ _ _ _ _ (failed_sets _ _ _ _ _ _) (failed_sets _ _ _ _ _ _) (failed_put _ _ _ _ _ _) Hal).
Qed.
Lemma alike_prepare s t : alike s t → alike (prepareRetryableFailedSteps s) (prepareRetryableFailedSteps t).
Proof.
  intros Hal. unfold prepareRetryableFailedSteps. destruct (alike_fields _ _ Hal) as (_ & -> & _).
  destruct (negb _); [done|]. destruct (alike_dag _ _ Hal) as (d & d' & Hd & Hd' & _ & Hs).
  rewrite (started_steps _ _ Hd), (started_steps _ _ Hd'). by apply alike_prepare_steps.
Qed.
Lemma alike_consistent s t : alike s t → WorkflowReplay.Consistent s t = true.
Proof.
  intros Hal. destruct (alike_fields _ _ Hal) as (Hid & Hst & _ & Herr & Hres & Href). destruct (alike_dag _ _ Hal) as (d & d' & Hd & Hd' & _ & Hs).
  unfold WorkflowReplay.Consistent. rewrite Hid, Hst, Herr, Hres, Href, !bool_decide_eq_true_2 by done. cbn [andb].
  rewrite (started_steps _ _ Hd), (started_steps _ _ Hd'). revert Hs. generalize (rdSteps d), (rdSteps d'). clear.
  induction l as [|a l IH]; intros [|b l']; try done. intros [=]. cbn [steps_consistent]. rewrite IH by done.
  unfold step_consistent. by rewrite !bool_decide_eq_true_2 by congruence.
Qed.

(** A workflow's snapshot that holds what the replay of a prefix holds, times aside. *)
Definition captures_workflow (wid : string) (prefix : list RawRecord) (w : WorkflowState) : Prop :=
  ∃ s, apply_records WorkflowState.zero_state wid false prefix = Ok s ∧ timeless s = timeless w ∧ wsWorkflowID s = wid.
Lemma captured_alike wid prefix w : wid ≠ EmptyString → captures_workflow wid prefix w →
  ∃ s, apply_records WorkflowState.zero_state wid false prefix = Ok s ∧ alike s w ∧ wsWorkflowID s = wid.
Proof.
  intros Hw (s & Hs & Ht & Hid). exists s. split; [done|]. split; [|done].
  destruct (records_replaying wid prefix WorkflowState.zero_state s (or_introl eq_refl) Hs) as [He|[Hst _]]; [congruence|].
  split; [split; [done|by eapply timeless_started]|done].
Qed.

Lemma workflow_tail_resumes wid prefix tail w full :
  wid ≠ EmptyString → captures_workflow wid prefix w → Forall (same_workflow wid) tail →
  WorkflowReplay.ReplayRawEach wid (Some {| WorkflowReplay.it_records := prefix ++ tail; WorkflowReplay.it_fails := false |}) = Ok full →
  ∃ fast, WorkflowReplay.ReplayFromRawEach w (Some {| WorkflowReplay.it_records := tail; WorkflowReplay.it_fails := false |}) = Ok fast ∧
    alike full fast ∧ wsWorkflowID full = wid.
Proof.
  intros Hw (s & Hs & Hal & Hid)%captured_alike Hf; [|done]. unfold WorkflowReplay.ReplayRawEach, WorkflowReplay.ReplayFromRawEach, WorkflowReplay.iterate. cbn.
  rewrite apply_records_app, Hs. cbn. intros (s' & (s1 & Hs1 & [= <-])%result_bind_ok & Hfin)%result_bind_ok.
  destruct (records_alike wid tail s w s1 Hal Hid Hf Hs1) as (t1 & Ht1 & Hal1 & Hid1).
  destruct (alike_dag _ _ Hal) as (_ & d' & _ & Hd' & _). unfold CloneState, rebuilt. rewrite Hd'.
  destruct (alike_fields _ _ Hal) as [Hwid _]. rewrite <- Hwid, Hid, Ht1. cbn. unfold finish in *.
  destruct (alike_fields _ _ Hal1) as [Hwid1 _]. rewrite <- Hwid1, Hid1, (proj2 (str_empty_false wid) Hw) in *. injection Hfin as <-.
  exists (RebuildRuntime t1). split; [done|]. split; [by apply alike_rebuild|exact Hid1].
Qed.
End Workflows.

Lemma failed_id w id taskID err retry now lat : wsWorkflowID (SetStepFailed w id taskID err retry now lat).1 = wsWorkflowID w.
Proof.
  unfold SetStepFailed. destruct (find_step _ _) as [[i st]|]; [|apply ensure_id]. destruct (_ && _); apply ensure_id.
Qed.
Lemma prepare_id w : wsWorkflowID (prepareRetryableFailedSteps w) = wsWorkflowID w.
Proof.
  unfold prepareRetryableFailedSteps. destruct (negb _); [done|]. generalize (StepStatesInOrder w). intros l. revert w.
  induction l as [|a l IH]; intros w; [done|]. cbn [foldl]. rewrite IH. destruct (_ || _); [done|]. apply failed_id.
Qed.

(** ** Actors *)

(** An actor without its times and without the key it was created under. *)
Definition timeless_actor (s : ActorState) : ActorState := {|
  asActorID := asActorID s; asClassName := asClassName s; asClassSource := asClassSource s;
  asInitArgsJSON := asInitArgsJSON s; asStatus := asStatus s; asOwnerWorkerID := asOwnerWorkerID s;
  asEpoch := asEpoch s; asCommandCount := asCommandCount s; asSubmittedCommandCount := asSubmittedCommandCount s;
  asSnapshotEvery := asSnapshotEvery s; asSnapshotRef := asSnapshotRef s;
  asSnapshotCommandCount := asSnapshotCommandCount s; asStateJSON := asStateJSON s;
  asIdempotencyKey := EmptyString; asIdempotencyFingerprint := EmptyString;
  asCreatedAtMs := 0; asUpdatedAtMs := 0 |}.
Definition same_actor (a b : ActorState) : Prop := timeless_actor a = timeless_actor b.

Section Actors.
Context `{MsgpackLib, ActorJSON}.

Lemma same_actor_consistent a b : same_actor a b → Actor.Consistent a b = true.
Proof.
  destruct a, b. unfold same_actor, timeless_actor, Actor.Consistent. cbn. intros [= -> -> -> -> -> -> -> -> -> -> -> -> ->].
  by rewrite !bool_decide_eq_true_2.
Qed.
Lemma same_actor_fields a b : same_actor a b → asActorID a = asActorID b ∧ asStateJSON a = asStateJSON b.
Proof. intros Hab. split; [apply (f_equal asActorID) in Hab|apply (f_equal asStateJSON) in Hab]; exact Hab. Qed.
Ltac same_actor Hab a b :=
  destruct a, b; revert Hab; unfold same_actor, timeless_actor; cbn; intros Hab; injection Hab; intros; subst; try done.
Lemma created_same id a b p : same_actor a b → same_actor (created_event id a p) (created_event id b p).
Proof. intros Hab. unfold created_event. same_actor Hab a b. by destruct (str_empty _). Qed.
Lemma ownership_same a b p : same_actor a b → same_actor (ownership_event a p) (ownership_event b p).
Proof. intros Hab. same_actor Hab a b. Qed.
Lemma submitted_same a b p : same_actor a b → same_actor (submitted_event a p) (submitted_event b p).
Proof. intros Hab. same_actor Hab a b. Qed.
Lemma command_same a b p st : same_actor a b → same_actor (command_event a p st) (command_event b p st).
Proof. intros Hab. same_actor Hab a b. Qed.
Lemma snapshot_same id a b p st : same_actor a b → same_actor (snapshot_event id a p st) (snapshot_event id b p st).
Proof. intros Hab. same_actor Hab a b. Qed.

Lemma actor_event_same loader id a b n et p a' n' :
  same_actor a b → actor_event tail_mode loader id (a, n) et p = Ok (a', n') →
  ∃ b', actor_event tail_mode loader id (b, n) et p = Ok (b', n') ∧ same_actor a' b'.
Proof.
  intros Hab. destruct (same_actor_fields a b Hab) as [_ Hst]. unfold actor_event, skipped. cbn [md_skip md_load tail_mode andb]. rewrite Hst.
  case_decide; [intros [= <- <-]; eexists; split; [done|by apply created_same]|].
  case_decide; [intros [= <- <-]; eexists; split; [done|by apply ownership_same]|].
  case_decide; [intros [= <- <-]; eexists; split; [done|by apply submitted_same]|].
  case_decide; [intros [= <- <-]; eexists; split; [done|by apply command_same]|].
  case_decide; [intros [= <- <-]; eexists; split; [done|by apply command_same]|].
  case_decide; [|intros [= <- <-]; by exists b].
  destruct (negb (str_empty (apSnapshotRef p))); [intros (data & -> & [= <- <-])%result_bind_ok; cbn|intros [= <- <-]];
    eexists; (split; [done|by apply snapshot_same]).
Qed.
Lemma actor_records_same loader id tail : ∀ a b n a' n',
  same_actor a b → fold_records (actor_record tail_mode loader id) (a, n) tail = Ok (a', n') →
  ∃ b', fold_records (actor_record tail_mode loader id) (b, n) tail = Ok (b', n') ∧ same_actor a' b'.
Proof.
  induction tail as [|rec tail IH]; intros a b n a' n' Hab; cbn [fold_records]; [intros [= <- <-]; by exists b|].
  intros ([a1 n1] & Ha1 & Ha)%result_bind_ok. unfold actor_record in Ha1. apply result_bind_ok in Ha1 as (p & Hp & Ha1). rewrite (actor_record_event loader id tail_mode (b, n) rec p Hp).
  destruct (actor_event_same _ _ _ b _ _ _ _ _ Hab Ha1) as (b1 & -> & Hab1). by apply (IH a1 b1).
Qed.

(** An actor's snapshot [a] that holds what the prefix wrote. *)
Lemma actor_tail_resumes loader id prefix tail s s' a :
  id ≠ EmptyString → wrote loader id prefix s → asActorID s ≠ EmptyString → same_actor s a → wrote_from loader id s tail s' →
  ∃ r, ReplayFromStateRawEach id a (Some {| Actor.it_records := tail; Actor.it_fails := false |}) loader = Ok r ∧ same_actor s' (rrState r).
Proof.
  intros Hid Hpre Hs Ha Htail. pose proof (actor_checkpoint_resume loader id prefix s tail s' Hid Hpre Hs Htail) as Hr.
  unfold ReplayFromStateRawEach, Actor.iterate in *. cbn [Actor.it_records Actor.it_fails] in *.
  rewrite <- (proj1 (same_actor_fields _ _ Ha)).
  rewrite (proj2 (str_empty_false _) Hs) in *. apply result_bind_ok in Hr as ([s1 n1] & (acc & Hf & [= ->])%result_bind_ok & Hr).
  destruct (actor_records_same _ _ _ _ a _ _ _ Ha Hf) as (b1 & -> & Hb). cbn.
  rewrite <- (proj1 (same_actor_fields _ _ Hb)).
  destruct (str_empty (asActorID s1)); [done|]. injection Hr as Hr _. rewrite <- Hr in *. by eexists.
Qed.

(** A replay is of the actor that was asked for. *)
Definition of_actor (id : string) (a : ActorState) : Prop := asActorID a = EmptyString ∨ asActorID a = id.
Lemma snapshot_record_id loader id acc rec acc' :
  snapshot_record loader id acc rec = Ok acc' → of_actor id acc.1 → of_actor id acc'.1.
Proof.
  destruct acc as [a n]. unfold snapshot_record. case_decide; [|by intros [= <-]]. intros (p & _ & Hp)%result_bind_ok.
  destruct (str_empty _); [by injection Hp as <-|]. apply result_bind_ok in Hp as (data & _ & [= <-]). by right.
Qed.
Lemma actor_event_id md loader id acc et p acc' :
  actor_event md loader id acc et p = Ok acc' → of_actor id acc.1 → of_actor id acc'.1.
Proof.
  destruct acc as [a n]. unfold actor_event. case_decide.
  { intros [= <-] Ha. unfold created_event. cbn. destruct (str_empty (asActorID a)); by right. }
  repeat (case_decide; [try case_match; intros [= <-] Ha; done|]). case_decide; [|by intros [= <-]].
  case_match; [intros (data & _ & [= <-])%result_bind_ok|intros [= <-]]; by right.
Qed.
Lemma fold_records_id (f : ActorState * Z → RawRecord → result actor_error (ActorState * Z)) id l :
  (∀ acc rec acc', f acc rec = Ok acc' → of_actor id acc.1 → of_actor id acc'.1) →
  ∀ acc acc', fold_records f acc l = Ok acc' → of_actor id acc.1 → of_actor id acc'.1.
Proof.
  intros Hf. induction l as [|rec l IH]; intros acc acc'; cbn [fold_records]; [by intros [= <-]|].
  intros (acc1 & Hr & Hl)%result_bind_ok Ha. eapply IH; [exact Hl|]. by eapply Hf.
Qed.
Lemma actor_record_id md loader id acc rec acc' : actor_record md loader id acc rec = Ok acc' → of_actor id acc.1 → of_actor id acc'.1.
Proof. unfold actor_record. intros (p & _ & Hp)%result_bind_ok. by eapply actor_event_id. Qed.
Lemma replay_actor_id id it loader r : Actor.ReplayRawEach id (Some it) loader = Ok r → asActorID (rrState r) = id.
Proof.
  unfold Actor.ReplayRawEach. intros (n & _ & (r2 & Hr & [= <-])%result_bind_ok)%result_bind_ok. cbn. revert Hr. unfold replayEach, Actor.iterate.
  intros ([a0 k] & (acc0 & Ha0 & Hf0)%result_bind_ok & ([a1 m] & (acc1 & Ha1 & Hf1)%result_bind_ok & Hr)%result_bind_ok)%result_bind_ok.
  destruct (Actor.it_fails it); [done|]. injection Hf0 as ->. injection Hf1 as ->. destruct (str_empty (asActorID a1)) eqn:He; [done|]. injection Hr as <-. cbn.
  apply str_empty_false in He. assert (of_actor id (a1, m).1) as [|]; [|done|done].
  eapply (fold_records_id _ id); [intros acc rec acc'; apply actor_record_id|exact Ha1|].
  exact (fold_records_id _ id _ (snapshot_record_id loader id) (Actor.zero_actor, 0) (a0, k) Ha0 (or_introl eq_refl)).
Qed.
(** The snapshot replay of a whole log. *)
Lemma actor_replay_whole loader id recs s : id ≠ EmptyString → wrote loader id recs s → asActorID s ≠ EmptyString →
  ∃ r, Actor.ReplayRawEach id (Some {| Actor.it_records := recs; Actor.it_fails := false |}) loader = Ok r ∧ rrState r = s.
Proof.
  intros Hid Hw Hborn. destruct (snapshot_replay loader id recs s Hid Hw) as (t & k & Hf & Hs).
  unfold Actor.ReplayRawEach. rewrite (replayEach_full loader id recs s _ (wrote_full loader id recs s Hid Hw) Hborn), ok_bind.
  rewrite (replayEach_snapshot loader id recs t k s _ Hf Hs Hborn), ok_bind. by eexists.
Qed.
(** A log makes one state. *)
Lemma writes_unique loader id s et p s1 s2 : writes loader id s et p s1 → writes loader id s et p s2 → s1 = s2.
Proof.
  intros H1 H2. destruct H1 as [| | | | |p data| ]; inversion H2 as [| | | | | |et' p' Hne]; subst; try done;
    try (exfalso; apply Hne; unfold actor_events; set_solver); exfalso; unfold actor_events in *; set_solver.
Qed.
Lemma wrote_from_unique loader id s0 l s1 : wrote_from loader id s0 l s1 → ∀ s2, wrote_from loader id s0 l s2 → s1 = s2.
Proof.
  induction 1 as [|recs s rec p s' Hw IH Hp _ Hs]; intros s2 Hw2.
  - remember [] as l eqn:Hl. destruct Hw2 as [|r1 x rec1 p1 y _ _ _ _]; [done|by destruct r1].
  - remember (recs ++ [rec]) as l eqn:Hl. destruct Hw2 as [|r1 x rec1 p1 y Hx Hp1 _ Hy]; [by destruct recs|].
    apply app_inj_tail in Hl as [-> ->]. rewrite (IH x Hx) in Hs. rewrite Hp in Hp1. injection Hp1 as ->. by eapply writes_unique.
Qed.
(** The log trimmed at its last snapshot, which no submitted command was waiting at. *)
Definition settled (loader : option ResultLoader) (id : string) (dropped : list RawRecord) : Prop :=
  ∀ F, wrote loader id dropped F → asSubmittedCommandCount F = asCommandCount F.
Lemma actor_replay_trimmed loader id dropped snap post s :
  id ≠ EmptyString → wrote loader id (dropped ++ snap :: post) s → raw_EventType snap = "ActorSnapshotCreated" → no_snapshot post →
  settled loader id dropped →
  ∃ r, Actor.ReplayRawEach id (Some {| Actor.it_records := snap :: post; Actor.it_fails := false |}) loader = Ok r ∧ same_actor s (rrState r).
Proof.
  intros Hid Hw Ht Hn Hset. destruct (trimmed_replay loader id dropped snap post s Hid Hw Ht Hn) as (F & u & HF & Hr & Hmax & Hle & Hmono).
  specialize (Hset F HF). eexists. split; [exact Hr|]. cbn [rrState]. assert (u = asSubmittedCommandCount s) as -> by lia. by destruct s.
Qed.
Lemma wrote_from_trans loader id s0 l s1 l' s2 :
  wrote_from loader id s0 l s1 → wrote_from loader id s1 l' s2 → wrote_from loader id s0 (l ++ l') s2.
Proof.
  intros Hw. induction 1 as [|recs s rec p s' Hw' IH Hp Hne Hs]; [by rewrite app_nil_r|].
  rewrite app_assoc. by eapply wrote_snoc.
Qed.
Lemma wrote_from_born loader id s l s' : id ≠ EmptyString → wrote_from loader id s l s' → asActorID s ≠ EmptyString → asActorID s' ≠ EmptyString.
Proof.
  intros Hid. induction 1 as [|recs s1 rec p s2 Hw IH Hp Hne Hs]; [done|]. intros Hb. specialize (IH Hb). inversion Hs; subst; cbn in *; done.
Qed.
End Actors.
