(* ===== verification/ServiceDemo.v ===== *)
(** A concrete environment and concrete codecs for the control service, on which its
    handlers can be run: the witnesses of its theorems and the closed runs.

    The clock moves a millisecond per use, and further where a run lets time pass;
    identifiers are the ticks; the log server refuses the appends a run names. *)
From stdpp Require Import pretty.
From S2P Require Import Prelude Bytes LogRecord EventCodec TaskSpec MetaStore TaskReplay TaskReplaySpec Placement Scheduler WorkerStore WorkflowDef WorkflowState WorkflowReplay WorkflowJSON Actor MetaDomains WorkflowArgs ServiceState ControlTasks ControlDispatch ControlActors ControlWorkflows ControlService ControlAdmin Checkpoint Trees.

Open Scope Z_scope.

(** ** Codecs *)

(** Values as bytes, by their enumeration. *)
Definition toy_encode `{Countable A} (a : A) : bytes := positive_bytes (encode a).
Definition toy_decode `{Countable A} (data : bytes) : option A := decode (bytes_positive data).
Lemma toy_decode_encode `{Countable A} (a : A) : toy_decode (toy_encode a) = Some a.
Proof. unfold toy_decode, toy_encode. by rewrite bytes_positive_bytes, decode_encode. Qed.

#[export] Instance registered_eq_dec : EqDecision functionRegisteredPayload.
Proof. solve_decision. Defined.
#[export] Instance registered_countable : Countable functionRegisteredPayload.
Proof.
  apply (inj_countable' (λ p, (fp_FunctionHash p, fp_SourceRef p, fp_Language p, fp_Entrypoint p, fp_TimestampMs p))
    (λ '(a, b, c, d, e), {| fp_FunctionHash := a; fp_SourceRef := b; fp_Language := c; fp_Entrypoint := d; fp_TimestampMs := e |})).
  by intros [].
Defined.
#[export] Instance model_eq_dec : EqDecision ModelInfo.
Proof. solve_decision. Defined.
#[export] Instance model_countable : Countable ModelInfo.
Proof.
  apply (inj_countable' (λ m, (mi_Name m, mi_Version m, mi_SizeBytes m, mi_Path m, mi_Adapter m))
    (λ '(a, b, c, d, e), {| mi_Name := a; mi_Version := b; mi_SizeBytes := c; mi_Path := d; mi_Adapter := e |})).
  by intros [].
Defined.
#[export] Instance worker_request_eq_dec : EqDecision RegisterWorkerRequest.
Proof. solve_decision. Defined.
#[export] Instance worker_request_countable : Countable RegisterWorkerRequest.
Proof.
  apply (inj_countable' (λ w, (rw_WorkerId w, rw_Address w, rw_Labels w, rw_CachedModels w, rw_Capacity w))
    (λ '(a, b, c, d, e), {| rw_WorkerId := a; rw_Address := b; rw_Labels := c; rw_CachedModels := d; rw_Capacity := e |})).
  by intros [].
Defined.

Definition toy_registry : RegistryJSON := {| json_Registered := λ p, Some (toy_encode p); json_RegisteredPayload := toy_decode |}.
Definition toy_system : SystemJSON := {|
  json_WorkerRegistered := toy_encode; json_WorkerPayload := toy_decode; json_Model := toy_decode;
  json_Policy := λ data, policy ← toy_decode (A:=Z) data; Some (if decide (policy ∈ [0; 1; 2; 3]) then Some policy else None);
  json_Backpressure := λ _, toy_decode |}.
Definition toy_admin : AdminJSON := {|
  json_ModelPayload := toy_encode; json_PolicyChanged := λ policy _, toy_encode policy;
  json_BackpressureChanged := λ limits _, toy_encode limits |}.
(** The identity of a request: its texts and numbers, separated. *)
Definition toy_identity (l : list (string * (string + Z + option bytes))) : bytes :=
  concat (map (λ '(_, v), match v with
                          | inl (inl s) => str_bytes s
                          | inl (inr z) => str_bytes (pretty z)
                          | inr data => default [] data
                          end ++ [x2c]) l).
Definition toy_prints : FingerprintLib := {|
  json_any := bytes; json_CompactArgs := Some; json_Unmarshal_any := Some; json_Marshal := λ l, Some (toy_identity l);
  sha256_Sum256 := λ b, b |}.
Definition toy_actor : ActorJSON := {| json_Compact := Some; unmarshalActorEvent := λ _, None |}.
Definition toy_args : ArgsLib := {| args_Unmarshal := λ _, Some JNull; args_Marshal := λ _, Some [x30]; args_Sum256 := λ b, b |}.

(** A workflow of one step. *)
Definition demo_step : StepDefinition := {|
  sdStepID := "a"; sdTaskName := "add"; sdFunctionName := "add"; sdFunctionSource := "def add(): pass"; sdFunctionRef := "";
  sdFunctionHash := ""; sdArgsJSON := [x30]; sdDependsOn := []; sdMaxAttempts := 1; sdTimeoutMs := 0; sdLLMModelName := "";
  sdLLMModelVersion := ""; sdLLMAdapter := ""; sdLLMMaxTokens := 0 |}.
Definition demo_definition : WorkflowDefinition := {|
  dfWorkflowName := "flow"; dfFunctionSource := ""; dfFunctionRef := ""; dfFunctionHash := ""; dfArgsJSON := [];
  dfSteps := [demo_step]; dfResultStepID := "a"; dfMaxAttempts := 1; dfTimeoutMs := 0 |}.
Definition toy_definition : DefinitionJSON := {|
  unmarshalDefinition := λ data, if bool_decide (data = [x30]) then Some demo_definition else data_tree data |}.
Definition toy_workflow_event : WorkflowEventJSON := {| unmarshalWorkflowEvent := λ _, None |}.
Definition toy_control : ControlJSON := {|
  json_LLMEvent := λ _, None; json_Definition := λ def, Some (tree_data def); json_Prompt := λ p, Some (str_bytes p) |}.

#[export] Existing Instance toy_msgpack.
#[export] Existing Instance toy_taskcodec.
#[export] Existing Instance toy_registry.
#[export] Existing Instance toy_system.
#[export] Existing Instance toy_admin.
#[export] Existing Instance toy_prints.
#[export] Existing Instance toy_actor.
#[export] Existing Instance toy_args.
#[export] Existing Instance toy_definition.
#[export] Existing Instance toy_workflow_event.
#[export] Existing Instance toy_control.

(** ** Environments *)

Lemma toy_order (n : nat) (l : list string) : l ≡ₚ l.
Proof. done. Qed.
(** [late n]: the milliseconds that passed before tick [n]; [works n]: an append at tick [n] succeeds. *)
Definition toy_env (late : nat → Z) (works : nat → bool) : Env := {|
  env_nanos := λ n, (1000 + Z.of_nat n + late n) * 1000000; env_elapsed := λ _, 1; env_append := works;
  env_put := λ n, Some ("object-" +:+ pretty n); env_fresh := λ n, "id-" +:+ pretty n; env_stamp := λ n, pretty n;
  env_order := λ _ l, l; env_order_perm := toy_order |}.
Definition on_time : nat → Z := λ _, 0.
(** A minute passes before tick [n]. *)
Definition minute_before (n : nat) : nat → Z := λ k, if decide (n ≤ k)%nat then 60000 else 0.
Definition all_work : nat → bool := λ _, true.
Definition all_but (l : list nat) : nat → bool := λ n, bool_decide (n ∉ l).

(** ** Requests *)

Definition demo_submit (name key : string) : SubmitTaskRequest := {|
  sb_TaskName := name; sb_FunctionName := "f"; sb_FunctionSource := "def f(): pass"; sb_FunctionRef := ""; sb_FunctionHash := "";
  sb_ArgsJson := []; sb_IdempotencyKey := key |}.
Definition demo_worker (id : string) (capacity : Z) : RegisterWorkerRequest := {|
  rw_WorkerId := id; rw_Address := ""; rw_Labels := ∅; rw_CachedModels := []; rw_Capacity := capacity |}.
Definition demo_complete (id worker : string) (epoch : Z) (data : bytes) : CompleteTaskRequest := {|
  cr_TaskId := id; cr_WorkerId := worker; cr_Status := TASK_STATUS_SUCCEEDED; cr_ResultJson := data; cr_Error := "";
  cr_ActorStateJson := []; cr_ActorEpoch := 0; cr_TaskLeaseEpoch := epoch |}.

(** What a run shows: its result, and the state if it came back. *)
Definition result_of {A} (r : option (Service * result svc_error A)) : option (result svc_error A) := snd <$> r.
Definition state_of {A} (r : option (Service * result svc_error A)) : Service :=
  match r with Some (s, _) => s | None => NewService true 0 end.
Definition status_of (s : Service) (id : string) : Z := tk_Status (GetTask (sv_meta s) id).1.
