(* ===== verification/ServiceLogic.v ===== *)
(** A program logic for the control service's handlers ([ServiceState]).

    [post blk m Q s]: from [s] the handler [m] ends in [Q], or blocks for ever and
    [blk] holds; [post False] is total correctness, [post True] partial.  [framed m]:
    [m] touches none of the task records, specifications, queues and configuration,
    and appends to no task's stream.  The tactic [framed] walks through a handler's code. *)
From S2P Require Import Prelude Bytes LogRecord EventCodec TaskSpec MetaStore TaskReplay Placement Scheduler WorkerStore WorkflowDef WorkflowState WorkflowReplay WorkflowJSON Actor MetaDomains WorkflowArgs ServiceState ControlTasks ControlDispatch ControlActors ControlWorkflows ControlService ControlAdmin Checkpoint.

Open Scope Z_scope.

(** ** Outcomes *)

Definition post (blk : Prop) {A} (m : M A) (Q : result svc_error A → Service → Prop) (s : Service) : Prop :=
  match m s with None => blk | Some (s', r) => Q r s' end.

(** The continuation of a bind. *)
Definition then_ (blk : Prop) {A B} (f : A → M B) (Q : result svc_error B → Service → Prop)
    (r : result svc_error A) (s : Service) : Prop :=
  match r with Ok a => post blk (f a) Q s | Err e => Q (Err e) s end.

Section Rules.
Context (blk : Prop).

Lemma post_ret {A} (a : A) Q s : post blk (mret a) Q s ↔ Q (Ok a) s.
Proof. done. Qed.
Lemma post_throw {A} e (Q : result svc_error A → _) s : post blk (throw e) Q s ↔ Q (Err e) s.
Proof. done. Qed.
Lemma post_gets {A} (f : Service → A) Q s : post blk (gets f) Q s ↔ Q (Ok (f s)) s.
Proof. done. Qed.
Lemma post_modify f Q s : post blk (modify f) Q s ↔ Q (Ok ()) (f s).
Proof. done. Qed.
Lemma post_on {S A} (get : Service → S) set (f : S → S * A) Q s :
  post blk (on get set f) Q s ↔ Q (Ok (f (get s)).2) (set (f (get s)).1 s).
Proof. unfold post, on. by destruct (f (get s)). Qed.
Lemma post_bind {A B} (m : M A) (f : A → M B) Q s : post blk (m ≫= f) Q s ↔ post blk m (then_ blk f Q) s.
Proof. unfold post, then_, mbind, M_bind. by destruct (m s) as [[s' [a|e]]|]. Qed.
Lemma post_try {A} (m : M A) Q s : post blk (try m) Q s ↔ post blk m (λ r, Q (Ok r)) s.
Proof. unfold post, try. by destruct (m s) as [[s' r]|]. Qed.
Lemma post_mono {A} (m : M A) (Q Q' : result svc_error A → Service → Prop) s :
  post blk m Q s → (∀ r s', Q r s' → Q' r s') → post blk m Q' s.
Proof. unfold post. destruct (m s) as [[s' r]|]; auto. Qed.
Lemma post_of_result {E A} (f : E → svc_error) (r : result E A) Q s :
  post blk (of_result f r) Q s ↔ Q (match r with Ok a => Ok a | Err e => Err (f e) end) s.
Proof. by destruct r. Qed.
End Rules.

(** A conjunction of two facts about the same run. *)
Lemma post_and blk {A} (m : M A) Q Q' s :
  post blk m Q s → post True m Q' s → post blk m (λ r s', Q r s' ∧ Q' r s') s.
Proof. unfold post. by destruct (m s) as [[s' r]|]. Qed.

(** ** Frames *)

(** The scheduler without its placement part. *)
Definition sched_core (sc : Scheduler) : Scheduler := with_placement sc emptyPlacement.

(** What a framed handler leaves alone; the environment is used in order. *)
Record frame (s s' : Service) : Prop := {
  fr_meta : sv_meta s' = sv_meta s;
  fr_specs : sv_specs s' = sv_specs s;
  fr_queue : sv_queue s' = sv_queue s;
  fr_sched : sched_core (sv_scheduler s') = sched_core (sv_scheduler s);
  fr_config : sv_config s' = sv_config s;
  fr_log : ∀ id, stream (sv_log s') (taskStream id) = stream (sv_log s) (taskStream id);
  fr_tick : (sv_tick s ≤ sv_tick s')%nat
}.
#[export] Instance frame_preorder : PreOrder frame.
Proof.
  split; [by intros s; split|]. intros s1 s2 s3 [] []. split; first [congruence|lia|intros id; congruence].
Qed.

Definition framed {A} (m : M A) : Prop := ∀ s, post True m (λ _ s', frame s s') s.

Create HintDb framed discriminated.

Lemma framed_ret {A} (a : A) : framed (mret a).
Proof. by intros s. Qed.
Lemma framed_throw {A} e : framed (A:=A) (throw e).
Proof. by intros s. Qed.
Lemma framed_gets {A} (f : Service → A) : framed (gets f).
Proof. by intros s. Qed.
Lemma framed_of_result {E A} (f : E → svc_error) (r : result E A) : framed (of_result f r).
Proof. by destruct r. Qed.
Lemma framed_bind {A B} (m : M A) (f : A → M B) : framed m → (∀ a, framed (f a)) → framed (m ≫= f).
Proof.
  intros Hm Hf s. apply post_bind. eapply post_mono; [apply Hm|]. intros [a|e] s' Hs; [|done].
  cbn. eapply post_mono; [apply Hf|]. intros r s2 Hs2. by etrans.
Qed.
Lemma framed_try {A} (m : M A) : framed m → framed (try m).
Proof. intros Hm s. apply post_try, Hm. Qed.
Lemma framed_modify f : (∀ s, frame s (f s)) → framed (modify f).
Proof. intros Hf s. apply Hf. Qed.
Lemma framed_on {S A} (get : Service → S) set (f : S → S * A) : (∀ x s, frame s (set x s)) → framed (on get set f).
Proof. intros Hs s. apply post_on, Hs. Qed.
Lemma framed_for_each {A} (l : list A) (f : A → M unit) : (∀ x, framed (f x)) → framed (for_each l f).
Proof. intros Hf. induction l as [|x l IH]; [apply framed_ret|]. cbn. by apply framed_bind. Qed.
Lemma framed_blocked {A} : framed (A:=A) (λ _, None).
Proof. by intros s. Qed.

#[export] Hint Resolve framed_ret framed_throw framed_gets framed_of_result framed_blocked : framed.

(** Walk through a handler: binds, cases, loops; the leaves are in the database. *)
Ltac framed :=
  repeat first
    [ solve [eauto 2 with framed nocore]
    | apply framed_bind; [|intros ?]
    | apply framed_try
    | apply framed_for_each; intros ?
    | progress cbv beta iota
    | case_match ].

(** ** Other relations between the states before and after

    [moves R m]: [R] relates them, for a preorder [R] that frames satisfy; with
    [R s s' := I s → I s'] this says that [m] preserves the invariant [I]. *)
Definition moves (R : relation Service) {A} (m : M A) : Prop := ∀ s, post True m (λ _ s', R s s') s.

Section Moves.
Context (R : relation Service) `{!PreOrder R} (HR : ∀ s s', frame s s' → R s s').

Lemma moves_framed {A} (m : M A) : framed m → moves R m.
Proof using HR. intros Hm s. eapply post_mono; [apply Hm|]. intros r s'. apply HR. Qed.
Lemma moves_bind {A B} (m : M A) (f : A → M B) : moves R m → (∀ a, moves R (f a)) → moves R (m ≫= f).
Proof using PreOrder0.
  intros Hm Hf s. apply post_bind. eapply post_mono; [apply Hm|]. intros [a|e] s' Hs; [|done].
  cbn. eapply post_mono; [apply Hf|]. intros r s2 Hs2. by etrans.
Qed.
Lemma moves_try {A} (m : M A) : moves R m → moves R (try m).
Proof using Type. intros Hm s. apply post_try, Hm. Qed.
Lemma moves_for_each {A} (l : list A) (f : A → M unit) : (∀ x, moves R (f x)) → moves R (for_each l f).
Proof using PreOrder0. intros Hf. induction l as [|x l IH]; [by intros s; apply post_ret|]. cbn. by apply moves_bind. Qed.
End Moves.

Definition kept_by (I : Service → Prop) (s s' : Service) : Prop := I s → I s'.
#[export] Instance kept_preorder I : PreOrder (kept_by I).
Proof. split; unfold kept_by; [by intros s|by intros s1 s2 s3 H1 H2 Hs; auto]. Qed.

Create HintDb moves discriminated.
(** As [framed], with leaves from the database [moves] or framed. *)
Ltac moves HR :=
  repeat first
    [ solve [eauto 2 with moves nocore]
    | solve [apply (moves_framed _ HR); eauto 2 with framed nocore]
    | apply moves_bind; [apply _| |intros ?]
    | apply moves_try
    | apply moves_for_each; [apply _|intros ?]
    | progress cbv beta iota
    | case_match ].

(** ** The effects *)

Section Effects.
Context `{Env}.

Lemma framed_ticked {A} (f : nat → A) : framed (ticked f).
Proof. intros s. split; cbn; try done. lia. Qed.
Lemma framed_nowNanos : framed nowNanos.
Proof. apply framed_ticked. Qed.
Lemma framed_now : framed now.
Proof. apply framed_ticked. Qed.
Lemma framed_stamp : framed stamp.
Proof. apply framed_ticked. Qed.
Lemma framed_fresh_id : framed fresh_id.
Proof. apply framed_ticked. Qed.
Lemma framed_getTask id : framed (getTask id).
Proof. apply framed_gets. Qed.
Lemma framed_getWorker id : framed (getWorker id).
Proof. apply framed_gets. Qed.

Lemma framed_set_actors x s : frame s (set_actors x s).
Proof. by split. Qed.
Lemma framed_set_workflows x s : frame s (set_workflows x s).
Proof. by split. Qed.
Lemma framed_set_workers x s : frame s (set_workers x s).
Proof. by split. Qed.
Lemma framed_set_functions x s : frame s (set_functions x s).
Proof. by split. Qed.
Lemma framed_set_objects x s : frame s (set_objects x s).
Proof. by split. Qed.
Lemma framed_set_trims x s : frame s (set_trims x s).
Proof. by split. Qed.
Lemma framed_set_llmStats x s : frame s (set_llmStats x s).
Proof. by split. Qed.
Lemma framed_set_models x s : frame s (set_models x s).
Proof. by split. Qed.
Lemma framed_set_last x s : frame s (set_lastLogAppendMs x s).
Proof. by split. Qed.
End Effects.
#[export] Hint Resolve framed_ticked framed_nowNanos framed_now framed_stamp framed_fresh_id framed_getTask framed_getWorker : framed.
#[export] Hint Resolve framed_set_actors framed_set_workflows framed_set_workers framed_set_functions framed_set_objects
  framed_set_trims framed_set_llmStats framed_set_models framed_set_last : framed.
#[export] Hint Extern 4 (framed (modify _)) => apply framed_modify; intros; solve [auto with framed nocore] : framed.
#[export] Hint Extern 4 (framed (on _ _ _)) => apply framed_on; intros; solve [auto with framed nocore] : framed.

(** A stream that is not a task's. *)
Definition not_task (s : string) : bool := negb (has_prefix "task:" s).
Lemma not_task_ne s id : not_task s = true → s ≠ taskStream id.
Proof. intros Hs ->. discriminate. Qed.

Lemma stream_app log rec id : stream (log ++ [rec]) id = stream log id ++ (if decide (raw_StreamID rec = id) then [rec] else []).
Proof. unfold stream. by rewrite filter_app. Qed.

Lemma taskStream_inj a b : taskStream a = taskStream b → a = b.
Proof. unfold taskStream. intros Hab. injection Hab. done. Qed.
Lemma stream_ids_nodup log : NoDup (stream_ids log).
Proof. unfold stream_ids. rewrite merge_sort_Permutation. apply NoDup_remove_dups. Qed.
Lemma stream_ids_in log st : st ∈ stream_ids log ↔ ∃ r, r ∈ log ∧ raw_StreamID r = st.
Proof.
  unfold stream_ids. rewrite merge_sort_Permutation, elem_of_remove_dups, list_elem_of_fmap.
  split; intros (r & ? & ?); exists r; split; congruence.
Qed.
Lemma prefix_app p s : has_prefix p s = true → ∃ rest, s = p +:+ rest.
Proof.
  revert s. induction p as [|a p IH]; intros s; [by exists s|]. destruct s as [|b s]; [done|]. cbn [has_prefix].
  intros [->%Ascii.eqb_eq (rest & ->)%IH]%andb_prop. by exists rest.
Qed.
Lemma drop_workflow st : has_prefix "wf:" st = true → workflowStream (drop_prefix 3 st) = st.
Proof. by intros (id & ->)%prefix_app. Qed.
Lemma drop_actor st : has_prefix "actor:" st = true → actorStream (drop_prefix 6 st) = st.
Proof. by intros (id & ->)%prefix_app. Qed.

(** What an append does to the streams. *)
Lemma log_append_spec log req ts :
  let '(log', rec) := log_append log req ts in
  raw_StreamID rec = al_StreamId req ∧
  ((log' = log ∧ rec ∈ stream log (al_StreamId req) ∧ raw_IdempotencyKey rec = al_IdempotencyKey req ∧ al_IdempotencyKey req ≠ EmptyString) ∨
   (log' = log ++ [rec] ∧ rec = new_record log req ts ∧
    ∀ r, r ∈ stream log (al_StreamId req) → al_IdempotencyKey req ≠ EmptyString → raw_IdempotencyKey r ≠ al_IdempotencyKey req)).
Proof.
  unfold log_append, find_key. destruct (str_empty (al_IdempotencyKey req)) eqn:He.
  { split; [done|right]. split_and!; [done..|]. intros r _ Hne. by apply str_empty_true in He. }
  destruct (list_find _ log) as [[i r]|] eqn:Hf; cbn.
  - apply list_find_Some in Hf as (Hi & [Hs Hk] & _). split; [done|left].
    split_and!; [done| |done|by apply str_empty_false]. unfold stream. apply list_elem_of_filter. split; [done|].
    by eapply list_elem_of_lookup_2.
  - split; [done|right]. split_and!; [done..|]. intros r Hr _ Hk. unfold stream in Hr.
    apply list_elem_of_filter in Hr as [Hs Hin]. apply list_find_None in Hf. rewrite Forall_forall in Hf.
    by apply (Hf r Hin).
Qed.

Section Appends.
Context `{Env}.

(** A failed append changes nothing; a successful one adds the record, or finds the one stored under the key. *)
Definition appended (req : AppendLogRequest) (s s' : Service) (rec : RawRecord) : Prop :=
  ∃ ts, log_append (sv_log s) req ts = (sv_log s', rec).
Record same_but_log (s s' : Service) : Prop := {
  sl_meta : sv_meta s' = sv_meta s; sl_specs : sv_specs s' = sv_specs s; sl_queue : sv_queue s' = sv_queue s;
  sl_sched : sv_scheduler s' = sv_scheduler s; sl_config : sv_config s' = sv_config s;
  sl_actors : sv_actors s' = sv_actors s; sl_workflows : sv_workflows s' = sv_workflows s;
  sl_workers : sv_workers s' = sv_workers s; sl_tick : sv_tick s' = S (S (S (sv_tick s)))
}.
Lemma appendLog_spec req s :
  post False (appendLog req) (λ r s', same_but_log s s' ∧
    match r with
    | Ok rec => env_append (S (S (sv_tick s))) = true ∧ appended req s s' rec
    | Err _ => env_append (S (S (sv_tick s))) = false ∧ sv_log s' = sv_log s
    end) s.
Proof.
  unfold post, appendLog, ticked, now, modify, mbind, M_bind, gets, throw, mret, M_ret. cbn -[log_append].
  destruct (env_append (S (S (sv_tick s)))) eqn:Ha; cbn -[log_append].
  - destruct (log_append (sv_log s) req _) as [log rec] eqn:Hl. cbn. split; [by split|]. split; [done|]. eexists. exact Hl.
  - split; [by split|done].
Qed.

Lemma framed_appendLog req : not_task (al_StreamId req) = true → framed (appendLog req).
Proof.
  intros Hn s. pose proof (appendLog_spec req s) as Hp. unfold post in *. destruct (appendLog req s) as [[s' r]|]; [|done].
  destruct Hp as [[] Hr]. split; try congruence; [|lia]. intros id. destruct r as [rec|e]; [|by destruct Hr as [_ ->]].
  destruct Hr as (_ & ts & Hl). pose proof (log_append_spec (sv_log s) req ts) as Hs. rewrite Hl in Hs.
  destruct Hs as (Hid & [(-> & _)|(-> & _ & _)]); [done|]. rewrite stream_app, decide_False, app_nil_r; [done|].
  rewrite Hid. by apply not_task_ne.
Qed.
End Appends.
#[export] Hint Extern 3 (framed (appendLog _)) => apply framed_appendLog; reflexivity : framed.

(** ** The scheduler *)

Section Scheduling.
Context `{Env}.

Lemma framed_locked {A} held (f : Scheduler → Scheduler * A) :
  (∀ sc, sched_core (f sc).1 = sched_core sc) → framed (locked held f).
Proof.
  intros Hf s. unfold post, locked. destruct held; [done|]. specialize (Hf (sv_scheduler s)).
  destruct (f (sv_scheduler s)). by split.
Qed.
(** [post] over an update of the scheduler. *)
Lemma post_schedule blk f Q s : post blk (schedule f) Q s ↔ Q (Ok ()) (set_scheduler (f (sv_scheduler s)) s).
Proof. done. Qed.
Lemma framed_schedule f : (∀ sc, sched_core (f sc) = sched_core sc) → framed (schedule f).
Proof. intros Hf. by apply framed_locked. Qed.
End Scheduling.
Lemma sched_core_placement sc pl : sched_core (with_placement sc pl) = sched_core sc.
Proof. done. Qed.
Lemma sched_core_worker sc w : sched_core (Scheduler_UpsertWorker sc w) = sched_core sc.
Proof. done. Qed.
Lemma sched_core_stats sc a b c st : sched_core (Scheduler_UpdateLLMStats sc a b c st) = sched_core sc.
Proof. done. Qed.
#[export] Hint Extern 4 (framed (locked _ _)) => apply framed_locked; intros ?; cbn; try case_match; reflexivity : framed.
#[export] Hint Extern 4 (framed (schedule _)) => apply framed_schedule; intros ?; reflexivity : framed.

(** ** Handlers that leave the tasks alone *)

Section Handlers.
Context `{Env, MsgpackLib, TaskCodecLib, FingerprintLib, RegistryJSON, ActorJSON, ArgsLib, ControlJSON, DefinitionJSON, WorkflowEventJSON, SystemJSON}.

Lemma framed_forEach id from : framed (forEachRawLogRecord id from).
Proof. apply framed_gets. Qed.
Lemma framed_listStreams p : framed (listStreams p).
Proof. apply framed_gets. Qed.
Lemma framed_putBytes data : framed (putBytes data).
Proof. unfold putBytes. framed. Qed.
Lemma framed_updateActor id fn : framed (updateActor id fn).
Proof. unfold updateActor. framed. Qed.
Lemma framed_updateWorkflow id fn : framed (updateWorkflow id fn).
Proof. unfold updateWorkflow. framed. Qed.
Lemma framed_activeWorkers age : framed (activeWorkers age).
Proof. unfold activeWorkers. framed. Qed.
Lemma framed_increment id : framed (incrementWorkerLoad id).
Proof. unfold incrementWorkerLoad. framed. Qed.
Lemma framed_decrement id : framed (decrementWorkerLoad id).
Proof. unfold decrementWorkerLoad. framed. Qed.
Lemma framed_trim id seq : framed (trimStream id seq).
Proof. unfold trimStream. framed. Qed.
Lemma framed_persisted : framed metadataPersisted.
Proof. apply framed_ret. Qed.
#[local] Hint Resolve framed_forEach framed_listStreams framed_putBytes framed_updateActor framed_updateWorkflow
  framed_activeWorkers framed_increment framed_decrement framed_trim framed_persisted : framed.
Lemma framed_updateSchedulerWorker w : framed (updateSchedulerWorker w).
Proof. unfold updateSchedulerWorker. framed. Qed.
#[local] Hint Resolve framed_updateSchedulerWorker : framed.
Lemma framed_syncActiveSchedulerWorkers held : framed (syncActiveSchedulerWorkers held).
Proof. unfold syncActiveSchedulerWorkers. framed. Qed.
#[local] Hint Resolve framed_syncActiveSchedulerWorkers : framed.
Lemma framed_hydrateSchedulerWorkersIfNeeded : framed (hydrateSchedulerWorkersIfNeeded).
Proof. unfold hydrateSchedulerWorkersIfNeeded. framed. Qed.
#[local] Hint Resolve framed_hydrateSchedulerWorkersIfNeeded : framed.
Lemma framed_schedulerSnapshot w : framed (schedulerSnapshot w).
Proof. unfold schedulerSnapshot. framed. Qed.
#[local] Hint Resolve framed_schedulerSnapshot : framed.
Lemma framed_useSchedulerV2 : framed (useSchedulerV2).
Proof. unfold useSchedulerV2. framed. Qed.
#[local] Hint Resolve framed_useSchedulerV2 : framed.
Lemma framed_ensureFunctionRegistered a b c d : framed (ensureFunctionRegistered a b c d).
Proof. unfold ensureFunctionRegistered. framed. Qed.
#[local] Hint Resolve framed_ensureFunctionRegistered : framed.
Lemma framed_normalizeTaskFunction spec : framed (normalizeTaskFunction spec).
Proof. unfold normalizeTaskFunction. framed. Qed.
#[local] Hint Resolve framed_normalizeTaskFunction : framed.
Lemma framed_bootstrapFunctions : framed (bootstrapFunctions).
Proof. unfold bootstrapFunctions. framed. Qed.
#[local] Hint Resolve framed_bootstrapFunctions : framed.
Lemma framed_backpressure : framed (backpressure).
Proof. unfold backpressure. framed. Qed.
#[local] Hint Resolve framed_backpressure : framed.
Lemma framed_predictedLLMWorker held id spec : framed (predictedLLMWorker held id spec).
Proof. unfold predictedLLMWorker. framed. Qed.
#[local] Hint Resolve framed_predictedLLMWorker : framed.
Lemma framed_preferredLLMWorker held id spec : framed (preferredLLMWorker held id spec).
Proof. unfold preferredLLMWorker. framed. Qed.
#[local] Hint Resolve framed_preferredLLMWorker : framed.
Lemma framed_canAssignTaskToWorkerIndexed held id spec w : framed (canAssignTaskToWorkerIndexed held id spec w).
Proof. unfold canAssignTaskToWorkerIndexed. framed. Qed.
#[local] Hint Resolve framed_canAssignTaskToWorkerIndexed : framed.
Lemma framed_canAssignTaskToWorker held id spec w : framed (canAssignTaskToWorker held id spec w).
Proof. unfold canAssignTaskToWorker. framed. Qed.
#[local] Hint Resolve framed_canAssignTaskToWorker : framed.
Lemma framed_append_actor id ty k p : framed (append_actor id ty k p).
Proof. unfold append_actor. framed. Qed.
#[local] Hint Resolve framed_append_actor : framed.
Lemma framed_ensureActorOwner id : framed (ensureActorOwner id).
Proof. unfold ensureActorOwner. framed. Qed.
#[local] Hint Resolve framed_ensureActorOwner : framed.
Lemma framed_waitActorOwner n id : framed (waitActorOwner n id).
Proof. induction n as [|n IH]; cbn [waitActorOwner]; framed. Qed.
#[local] Hint Resolve framed_waitActorOwner : framed.
Lemma framed_CreateActor req : framed (ControlActors.CreateActor req).
Proof. unfold ControlActors.CreateActor. framed. Qed.
#[local] Hint Resolve framed_CreateActor : framed.
Lemma framed_replayActor id : framed (replayActor id).
Proof. unfold replayActor. framed. Qed.
#[local] Hint Resolve framed_replayActor : framed.
Lemma framed_createActorSnapshot a : framed (createActorSnapshot a).
Proof. unfold createActorSnapshot. framed. Qed.
#[local] Hint Resolve framed_createActorSnapshot : framed.
Lemma framed_failActorCommand a b c d : framed (failActorCommand a b c d).
Proof. unfold failActorCommand. framed. Qed.
#[local] Hint Resolve framed_failActorCommand : framed.
Lemma framed_completeActorCall a b : framed (completeActorCall a b).
Proof. unfold completeActorCall. framed. Qed.
#[local] Hint Resolve framed_completeActorCall : framed.
Lemma framed_bootstrapActors : framed (bootstrapActors).
Proof. unfold bootstrapActors. framed. Qed.
#[local] Hint Resolve framed_bootstrapActors : framed.
Lemma framed_append_workflow id ty k p : framed (append_workflow id ty k p).
Proof. unfold append_workflow. framed. Qed.
#[local] Hint Resolve framed_append_workflow : framed.
Lemma framed_normalizeWorkflowLLMStep st : framed (normalizeWorkflowLLMStep st).
Proof. unfold normalizeWorkflowLLMStep. framed. Qed.
#[local] Hint Resolve framed_normalizeWorkflowLLMStep : framed.
Lemma framed_normalize_steps steps : framed (normalize_steps steps).
Proof. induction steps as [|st steps IH]; cbn [normalize_steps]; framed. Qed.
#[local] Hint Resolve framed_normalize_steps : framed.
Lemma framed_normalizeWorkflowDefinition def : framed (normalizeWorkflowDefinition def).
Proof. unfold normalizeWorkflowDefinition. framed. Qed.
#[local] Hint Resolve framed_normalizeWorkflowDefinition : framed.
Lemma framed_markWorkflowStepStarted a b : framed (markWorkflowStepStarted a b).
Proof. unfold markWorkflowStepStarted. framed. Qed.
#[local] Hint Resolve framed_markWorkflowStepStarted : framed.
Lemma framed_materializeResult d : framed (materializeResult d).
Proof. unfold materializeResult. framed. Qed.
#[local] Hint Resolve framed_materializeResult : framed.
Lemma framed_completeWorkflow s : framed (completeWorkflow s).
Proof. unfold completeWorkflow. framed. Qed.
#[local] Hint Resolve framed_completeWorkflow : framed.
Lemma framed_failWorkflow s e : framed (failWorkflow s e).
Proof. unfold failWorkflow. framed. Qed.
#[local] Hint Resolve framed_failWorkflow : framed.
Lemma framed_completeWorkflowStep a b c d : framed (completeWorkflowStep a b c d).
Proof. unfold completeWorkflowStep. framed. Qed.
#[local] Hint Resolve framed_completeWorkflowStep : framed.
Lemma framed_materializeLLMCompleted p : framed (materializeLLMCompleted p).
Proof. unfold materializeLLMCompleted. framed. Qed.
#[local] Hint Resolve framed_materializeLLMCompleted : framed.
Lemma framed_materializeLLMTaskCompletion id : framed (materializeLLMTaskCompletion id).
Proof. unfold materializeLLMTaskCompletion. framed. Qed.
#[local] Hint Resolve framed_materializeLLMTaskCompletion : framed.
Lemma framed_RegisterWorker req : framed (RegisterWorker req).
Proof. unfold RegisterWorker. framed. Qed.
#[local] Hint Resolve framed_RegisterWorker : framed.
Lemma framed_Heartbeat w m : framed (ControlService.Heartbeat w m).
Proof. unfold ControlService.Heartbeat. framed. Qed.
#[local] Hint Resolve framed_Heartbeat : framed.
Lemma framed_system_events {A} id ty decode (f : RawRecord → A → M unit) :
  (∀ r a, framed (f r a)) → framed (system_events id ty decode f).
Proof. intros Hf. unfold system_events. framed. Qed.
Lemma framed_bootstrapModels : framed (bootstrapModels).
Proof. unfold bootstrapModels. apply framed_system_events; intros. framed. Qed.
#[local] Hint Resolve framed_bootstrapModels : framed.
Lemma framed_bootstrapWorkers : framed (bootstrapWorkers).
Proof. unfold bootstrapWorkers. apply framed_system_events; intros. framed. Qed.
#[local] Hint Resolve framed_bootstrapWorkers : framed.
Lemma framed_bootstrapLLMStats : framed (bootstrapLLMStats).
Proof. unfold bootstrapLLMStats. framed. Qed.
#[local] Hint Resolve framed_bootstrapLLMStats : framed.
Lemma framed_syncSchedulerWorkers : framed (syncSchedulerWorkers).
Proof. unfold syncSchedulerWorkers. framed. Qed.
#[local] Hint Resolve framed_syncSchedulerWorkers : framed.
End Handlers.
#[export] Hint Resolve framed_forEach framed_listStreams framed_putBytes framed_updateActor framed_updateWorkflow
  framed_activeWorkers framed_increment framed_decrement framed_trim framed_persisted : framed.
#[export] Hint Resolve framed_updateSchedulerWorker framed_syncActiveSchedulerWorkers
  framed_hydrateSchedulerWorkersIfNeeded framed_schedulerSnapshot framed_useSchedulerV2
  framed_ensureFunctionRegistered framed_normalizeTaskFunction framed_bootstrapFunctions framed_backpressure
  framed_predictedLLMWorker framed_preferredLLMWorker framed_canAssignTaskToWorkerIndexed
  framed_canAssignTaskToWorker framed_append_actor framed_ensureActorOwner framed_CreateActor
  framed_replayActor framed_createActorSnapshot framed_failActorCommand framed_completeActorCall
  framed_bootstrapActors framed_append_workflow framed_normalizeWorkflowLLMStep
  framed_normalizeWorkflowDefinition framed_markWorkflowStepStarted framed_materializeResult
  framed_completeWorkflow framed_failWorkflow framed_completeWorkflowStep framed_materializeLLMCompleted
  framed_materializeLLMTaskCompletion framed_RegisterWorker framed_Heartbeat framed_bootstrapModels
  framed_bootstrapWorkers framed_bootstrapLLMStats framed_syncSchedulerWorkers framed_normalize_steps
  framed_waitActorOwner : framed.
