(* ===== verification/DispatchTotal.v ===== *)
(** Polling ends ([ControlDispatch]): every poll returns unless the predicted-latency
    policy is used with the indexed scheduler, in which case the eligibility check of
    an LLM task locks the scheduler's mutex a second time and blocks for ever. *)
From S2P Require Import Prelude Bytes LogRecord EventCodec TaskSpec MetaStore TaskReplay Placement Scheduler WorkerStore WorkflowDef WorkflowState WorkflowReplay WorkflowJSON Actor MetaDomains WorkflowArgs ServiceState ControlTasks ControlDispatch ControlActors ControlWorkflows ControlService ControlAdmin Checkpoint Trees ServiceDemo ServiceLogic.

Open Scope Z_scope.

(** ** Handlers that never block *)

Definition total {A} (m : M A) : Prop := ∀ s, is_Some (m s).
Create HintDb total discriminated.

Lemma total_ret {A} (a : A) : total (mret a).
Proof. intros s. by eexists. Qed.
Lemma total_throw {A} e : total (A:=A) (throw e).
Proof. intros s. by eexists. Qed.
Lemma total_gets {A} (f : Service → A) : total (gets f).
Proof. intros s. by eexists. Qed.
Lemma total_modify f : total (modify f).
Proof. intros s. by eexists. Qed.
Lemma total_on {S A} (get : Service → S) set (f : S → S * A) : total (on get set f).
Proof. intros s. unfold on. by destruct (f (get s)). Qed.
Lemma total_of_result {E A} (f : E → svc_error) (r : result E A) : total (of_result f r).
Proof. destruct r; [apply total_ret|apply total_throw]. Qed.
Lemma total_bind {A B} (m : M A) (f : A → M B) : total m → (∀ a, total (f a)) → total (m ≫= f).
Proof.
  intros Hm Hf s. destruct (Hm s) as [[s' [a|e]] Hs]; unfold mbind, M_bind; rewrite Hs; [apply Hf|by eexists].
Qed.
Lemma total_try {A} (m : M A) : total m → total (try m).
Proof. intros Hm s. unfold try. destruct (Hm s) as [[s' r] ->]. by eexists. Qed.
Lemma total_for_each {A} (l : list A) (f : A → M unit) : (∀ x, total (f x)) → total (for_each l f).
Proof. intros Hf. induction l as [|x l IH]; [apply total_ret|]. cbn. by apply total_bind. Qed.
Lemma total_locked {A} (f : Scheduler → Scheduler * A) : total (locked false f).
Proof. intros s. unfold locked. by destruct (f (sv_scheduler s)). Qed.
Lemma total_schedule f : total (schedule f).
Proof. apply total_locked. Qed.
#[export] Hint Resolve total_ret total_throw total_gets total_modify total_on total_of_result total_locked total_schedule : total.

Ltac total :=
  repeat first
    [ solve [eauto 2 with total nocore]
    | apply total_bind; [|intros ?]
    | apply total_try
    | apply total_for_each; intros ?
    | progress cbv beta iota
    | case_match ].

Section Total.
Context `{Env, MsgpackLib, TaskCodecLib, FingerprintLib, RegistryJSON}.

Lemma total_ticked {A} (f : nat → A) : total (ticked f).
Proof. intros s. by eexists. Qed.
Lemma total_now : total now.
Proof. apply total_ticked. Qed.
Lemma total_nowNanos : total nowNanos.
Proof. apply total_ticked. Qed.
Lemma total_stamp : total stamp.
Proof. apply total_ticked. Qed.
Lemma total_getTask id : total (getTask id).
Proof. apply total_gets. Qed.
Lemma total_getWorker id : total (getWorker id).
Proof. apply total_gets. Qed.
Lemma total_useV2 : total useSchedulerV2.
Proof. apply total_gets. Qed.
#[local] Hint Resolve total_ticked total_now total_nowNanos total_stamp total_getTask total_getWorker total_useV2 : total.

Lemma total_appendLog req : total (appendLog req).
Proof. unfold appendLog. total. Qed.
Lemma total_leaseTask id w : total (leaseTask id w).
Proof. unfold leaseTask. total. Qed.
Lemma total_increment w : total (incrementWorkerLoad w).
Proof. unfold incrementWorkerLoad. total. Qed.
Lemma total_decrement w : total (decrementWorkerLoad w).
Proof. unfold decrementWorkerLoad. total. Qed.
Lemma total_updateWorker w : total (updateSchedulerWorker w).
Proof. unfold updateSchedulerWorker. total. Qed.
Lemma total_activeWorkers age : total (activeWorkers age).
Proof. unfold activeWorkers. total. Qed.
#[local] Hint Resolve total_appendLog total_leaseTask total_increment total_decrement total_updateWorker total_activeWorkers : total.
Lemma total_syncActive : total (syncActiveSchedulerWorkers false).
Proof. unfold syncActiveSchedulerWorkers. total. Qed.
#[local] Hint Resolve total_syncActive : total.
Lemma total_hydrate : total hydrateSchedulerWorkersIfNeeded.
Proof. unfold hydrateSchedulerWorkersIfNeeded. total. Qed.
Lemma total_snapshot w : total (schedulerSnapshot w).
Proof. unfold schedulerSnapshot. total. Qed.
Lemma total_predicted id spec : total (predictedLLMWorker false id spec).
Proof. unfold predictedLLMWorker. total. Qed.
Lemma total_preferred id spec : total (preferredLLMWorker false id spec).
Proof. unfold preferredLLMWorker. total. Qed.
#[local] Hint Resolve total_hydrate total_snapshot total_predicted total_preferred : total.
Lemma total_canIndexed id spec w : total (canAssignTaskToWorkerIndexed false id spec w).
Proof. unfold canAssignTaskToWorkerIndexed. total. Qed.
#[local] Hint Resolve total_canIndexed : total.
Lemma total_can id spec w : total (canAssignTaskToWorker false id spec w).
Proof. unfold canAssignTaskToWorker. total. Qed.
Lemma total_redelivered task : total (appendTaskRedelivered task).
Proof. unfold appendTaskRedelivered. total. Qed.
Lemma total_resync task timeout : total (resyncSchedulerTask task timeout).
Proof. unfold resyncSchedulerTask. total. Qed.
#[local] Hint Resolve total_can total_redelivered total_resync : total.
Lemma total_select timeout expired : ∀ valid, total (select_expired timeout expired valid).
Proof. induction expired as [|lease expired IH]; intros valid; cbn [select_expired]; total. Qed.
Lemma total_track_again timeout valid : total (track_again timeout valid).
Proof. unfold track_again. total. Qed.
#[local] Hint Resolve total_select total_track_again : total.
Lemma total_log_expired timeout valid rest : total (log_expired timeout valid rest).
Proof. induction rest as [|lease rest IH]; cbn [log_expired]; total. Qed.
Lemma total_requeue timeout lease : total (requeue_lease timeout lease).
Proof. unfold requeue_lease. total. Qed.
#[local] Hint Resolve total_log_expired total_requeue : total.
Lemma total_redeliver : total redeliverExpiredTasks.
Proof. unfold redeliverExpiredTasks, redeliverExpiredTasksIndexed, redeliverExpiredTasksLegacy. total. Qed.

(** Redelivery keeps the configuration. *)
Definition same_config (s s' : Service) : Prop := sv_config s' = sv_config s.
#[local] Instance same_config_preorder : PreOrder same_config.
Proof. split; unfold same_config; congruence. Qed.
Lemma config_schedule f : moves same_config (schedule f).
Proof. by intros s. Qed.
Lemma config_locked {A} (f : Scheduler → Scheduler * A) : moves same_config (locked false f).
Proof. intros s. unfold post, locked. by destruct (f (sv_scheduler s)). Qed.
Lemma config_modify f : (∀ s, sv_config (f s) = sv_config s) → moves same_config (modify f).
Proof. intros Hf s. apply Hf. Qed.
Lemma config_on {A} (f : MemoryStore → MemoryStore * A) : moves same_config (on sv_meta set_meta f).
Proof. intros s. by apply post_on. Qed.
Lemma config_appendLog req : moves same_config (appendLog req).
Proof. intros s. eapply post_mono with (Q := λ _ s', same_config s s'); [|done]. pose proof (appendLog_spec req s) as Hp.
  unfold post in *. destruct (appendLog req s) as [[s' r]|]; [|done]. by destruct Hp as [[] _]. Qed.
#[local] Hint Resolve config_schedule config_locked config_on config_appendLog : moves.
#[local] Hint Extern 4 (moves same_config (modify _)) => apply config_modify; reflexivity : moves.
Lemma redeliver_config_moves : moves same_config redeliverExpiredTasks.
Proof.
  unfold redeliverExpiredTasks, redeliverExpiredTasksIndexed, redeliverExpiredTasksLegacy.
  assert (∀ timeout expired valid, moves same_config (select_expired timeout expired valid)) as Hselect.
  { intros timeout expired. induction expired as [|lease expired IH]; intros valid; cbn [select_expired]; unfold resyncSchedulerTask; moves fr_config. }
  assert (∀ timeout valid rest, moves same_config (log_expired timeout valid rest)) as Hlog.
  { intros timeout valid rest. induction rest as [|lease rest IH]; cbn [log_expired]; unfold appendTaskRedelivered, track_again; moves fr_config. }
  unfold requeue_lease, resyncSchedulerTask, appendTaskRedelivered. moves fr_config.
Qed.

(** ** The queue scan *)

Lemma is_Some_post {A} (m : M A) s : is_Some (m s) ↔ post False m (λ _ _, True) s.
Proof. unfold post. destruct (m s) as [[s' r]|]; split; [done|intros _; eexists; reflexivity|by intros [? ?]|done]. Qed.
Lemma total_framed {A} (m : M A) Q s :
  total m → framed m → (∀ r s', frame s s' → Q r s') → post False m Q s.
Proof.
  intros Ht Hf HQ. specialize (Hf s). unfold post in *. destruct (Ht s) as [[s' r] Hs]. rewrite Hs in *. by apply HQ.
Qed.

Lemma total_moves R {A} (m : M A) s : total m → moves R m → post False m (λ _ s', R s s') s.
Proof. intros Ht Hm. specialize (Hm s). unfold post in *. destruct (Ht s) as [[s' r] Hs]. by rewrite Hs in *. Qed.

(** The queue shrinks or the position advances. *)
Lemma legacy_loop_total fuel w maxTasks : ∀ i tasks s,
  (length (sv_queue s) ≤ fuel + i)%nat → is_Some (legacy_loop fuel w maxTasks i tasks s).
Proof.
  assert (∀ i (q : list string) taskID, q !! i = Some taskID → (length (delete i q) < length q)%nat) as Hdel.
  { intros i q x Hx. rewrite length_delete by done. apply lookup_lt_Some in Hx. lia. }
  induction fuel as [|fuel IH]; intros i tasks s Hlen; cbn [legacy_loop]; apply is_Some_post;
    rewrite post_bind, post_gets; cbn [then_]; destruct (sv_queue s !! i) as [taskID|] eqn:Hi; try done;
    destruct (maxTasks <=? Z.of_nat (length tasks)); try done.
  { apply lookup_lt_Some in Hi. lia. }
  pose proof (Hdel _ _ _ Hi) as Hd. apply lookup_lt_Some in Hi as Hlt.
  rewrite post_bind, post_gets. cbn [then_]. destruct (sv_specs s !! taskID) as [spec|].
  2:{ rewrite post_bind, post_modify. apply is_Some_post, IH. cbn. lia. }
  rewrite post_bind. unfold getTask at 1. rewrite post_gets. cbn [then_].
  destruct (GetTask (sv_meta s) taskID) as [before ok]. destruct ok; cbn [negb].
  2:{ rewrite post_bind, post_modify. apply is_Some_post, IH. cbn. lia. }
  rewrite post_bind, post_gets. cbn [then_]. destruct (actorMailboxReady s before w); cbn [negb]; [|apply is_Some_post, IH; lia].
  rewrite post_bind. apply total_framed; [apply total_can|eauto with framed|]. intros [can|e] s1 Hf1; [|done]. cbn [then_].
  pose proof (fr_queue _ _ Hf1) as Hq1. destruct can; cbn [negb]; [|apply is_Some_post, IH; rewrite Hq1; lia].
  rewrite post_bind. unfold leaseTask. rewrite post_bind. apply total_framed; [apply total_now|eauto with framed|].
  intros [t|e] s2 Hf2; [|done]. cbn [then_]. rewrite post_bind, post_on. cbn [then_].
  destruct (LeaseTask _ _ _ _) as [ms [leased|e]]; [|done]. cbn [fst snd of_result]. rewrite post_ret. cbn [then_].
  rewrite post_bind. apply total_framed; [case_match; total|case_match; framed|]. intros [[]|e] s3 Hf3; [|done]. cbn [then_].
  rewrite post_bind, post_modify. cbn [then_]. rewrite post_bind, post_gets. cbn [then_]. apply is_Some_post, IH. cbn.
  rewrite (fr_queue _ _ Hf3). cbn. rewrite (fr_queue _ _ Hf2), Hq1. lia.
Qed.

(** ** The indexed loop *)

Lemma depth_cleanup s r m : QueueDepth (maybeCleanupQueueLocked s r m) = QueueDepth s.
Proof. unfold QueueDepth. by destruct (cleanup_fields s r m) as (_ & -> & _). Qed.
Lemma depth_delete (m : gmap string TaskKind) t : (size (delete t m) ≤ size m)%nat.
Proof. destruct (m !! t) eqn:Ht; [rewrite map_size_delete_Some by eauto; lia|by rewrite delete_id]. Qed.

Definition taken_one (res : option SchedMeta) : nat := if res is Some _ then 1 else 0.
Lemma next_depth fuel s r check s' res :
  next_loop fuel s r check = Some (s', res) → (QueueDepth s' + taken_one res ≤ QueueDepth s)%nat.
Proof.
  revert s. induction fuel as [|fuel IH]; intros s; cbn [next_loop]; [intros [= <- <-]; cbn; lia|].
  destruct (Front (q_of s r)) as [t|]; [|intros [= <- <-]; cbn; lia].
  destruct (live_meta s (qref_kind r) t) as [m|] eqn:Hm; [|by intros ?%IH].
  destruct (check m) as [d|]; [|done]. cbn [mbind option_bind]. apply live_meta_Some in Hm as [_ Hq].
  destruct d; [by intros [= <- <-]; cbn; lia| |].
  - intros [= <- <-]. rewrite depth_cleanup. unfold QueueDepth. cbn. rewrite map_size_delete_Some by eauto.
    assert (size (sc_queued s) ≠ 0%nat) by (intros Hz%map_size_empty_inv; by rewrite Hz, lookup_empty in Hq). lia.
  - intros Hn%IH. rewrite depth_cleanup in Hn. unfold QueueDepth in *. cbn in Hn. pose proof (depth_delete (sc_queued s) t). lia.
Qed.
Lemma first_of_depth {A} (next : Scheduler → A → call (Scheduler * option SchedMeta)) l : ∀ s s' res,
  (∀ s x s' res, next s x = Some (s', res) → (QueueDepth s' + taken_one res ≤ QueueDepth s)%nat) →
  first_of next s l = Some (s', res) → (QueueDepth s' + taken_one res ≤ QueueDepth s)%nat.
Proof.
  induction l as [|x l IH]; intros s s' res Hn; cbn [first_of]; [intros [= <- <-]; cbn; lia|].
  destruct (next s x) as [[s1 [m|]]|] eqn:Hx; [| |done]; cbn [mbind option_bind]; apply Hn in Hx.
  - by intros [= <- <-].
  - intros Hl%IH; [|done]. cbn in *. lia.
Qed.
Lemma front_depth fuel s r : QueueDepth (front_loop fuel s r).1 = QueueDepth s.
Proof.
  revert s. induction fuel as [|fuel IH]; intros s; cbn [front_loop]; [done|].
  destruct (Front _) as [t|]; [|done]. destruct (live_meta _ _ t); [done|]. by rewrite IH.
Qed.
Lemma candidates_depth s snapshot nowMs : QueueDepth (llmCandidateModelsLocked s snapshot nowMs).1 = QueueDepth s.
Proof.
  unfold llmCandidateModelsLocked.
  assert (∀ keys acc, QueueDepth (foldl (cold_candidate nowMs) acc keys).1 = QueueDepth acc.1) as Hcold.
  { induction keys as [|key keys IH]; intros [s0 c]; [done|]. cbn [foldl]. rewrite IH. unfold cold_candidate.
    case_decide; [done|]. case_decide; [done|]. pose proof (front_depth (dq_Len (q_of s0 (QLLM key))) s0 (QLLM key)) as Hf.
    unfold frontMetaLocked. destruct (front_loop _ _ _) as [s1 [m|]]; cbn in *; [by case_match|done]. }
  match goal with |- context [foldl _ (?s0, ?c) ?l] => specialize (Hcold l (s0, c)); destruct (foldl (cold_candidate nowMs) (s0, c) l) as [s1 cands] end.
  cbn in Hcold. case_decide; [done|]. cbn. rewrite <- Hcold. clear. revert s1.
  induction cands as [|key cands IH]; intros s1; [done|]. cbn. rewrite IH. apply front_depth.
Qed.
Lemma Assign_depth s snapshot nowMs check s' res :
  Assign s snapshot nowMs check = Some (s', res) → (QueueDepth s' + taken_one res ≤ QueueDepth s)%nat.
Proof.
  unfold Assign. destruct (str_empty _); [intros [= <- <-]; cbn; lia|].
  destruct (nextFromQueueLocked s _ check) as [[s1 [m|]]|] eqn:D1; [| |done]; cbn [mbind option_bind]; apply next_depth in D1;
    [by intros [= <- <-]|].
  destruct (first_of _ s1 _) as [[s2 [m|]]|] eqn:D2; [| |done]; cbn [mbind option_bind];
    (apply first_of_depth in D2; [|intros; by eapply next_depth]); [intros [= <- <-]; cbn in *; lia|].
  pose proof (candidates_depth s2 snapshot nowMs) as D3. destruct (llmCandidateModelsLocked s2 snapshot nowMs) as [s3 cands].
  destruct (first_of _ s3 cands) as [[s4 [m|]]|] eqn:D4; [| |done]; cbn [mbind option_bind];
    (apply first_of_depth in D4; [|intros; by eapply next_depth]); [intros [= <- <-]; cbn in *; lia|].
  intros D5%next_depth. cbn in *. lia.
Qed.

(** The check of the indexed path does not block under the other policies. *)
Lemma check_returns s w m :
  cf_schedulerV2 (sv_config s) = true → cf_schedulingPolicy (sv_config s) ≠ SCHEDULING_POLICY_PREDICTED_LATENCY →
  is_Some (check_callback s w m).
Proof.
  intros Hv Hp. apply Z.eqb_neq in Hp. assert (post False (check_task w m) (λ _ _, True) s) as Ht.
  { unfold check_task, getTask, canAssignTaskToWorker, canAssignTaskToWorkerIndexed, useSchedulerV2, getWorker.
    rewrite post_bind, post_gets. cbn [then_]. destruct (specForTask s (sm_TaskID m)) as [spec|]; [|done].
    rewrite post_bind, post_gets. cbn [then_]. destruct (GetTask _ _) as [task ok].
    case_match; [done|]. case_match; [done|]. rewrite post_bind, post_gets. cbn [then_]. case_match; [done|].
    rewrite !post_bind, post_gets. cbn [then_]. rewrite Hv. case_match; [done|]. case_match; [done|].
    rewrite post_bind, post_gets. cbn [then_]. destruct (WorkerStore.Legacy.GetWorker _ _) as [worker found].
    case_match; [done|]. rewrite post_bind, post_gets. cbn [then_]. rewrite Hp. by case_match. }
  unfold check_callback. revert Ht. unfold post. destruct (check_task w m s) as [[s' [d|e]]|]; [by eexists..|done].
Qed.

(** The configuration is kept and the queues do not grow. *)
Definition calm (s s' : Service) : Prop :=
  sv_config s' = sv_config s ∧ (QueueDepth (sv_scheduler s') ≤ QueueDepth (sv_scheduler s))%nat.
#[local] Instance calm_preorder : PreOrder calm.
Proof. split; [by split|]. intros s1 s2 s3 [? ?] [? ?]. split; [congruence|lia]. Qed.
Lemma frame_calm s s' : frame s s' → calm s s'.
Proof. intros Hf. split; [apply (fr_config _ _ Hf)|]. pose proof (f_equal QueueDepth (fr_sched _ _ Hf)) as Hd. unfold QueueDepth in *. cbn in Hd. lia. Qed.

Definition calming {A} (m : M A) : Prop := ∀ s, post False m (λ _ s', calm s s') s.
Lemma calming_framed {A} (m : M A) : total m → framed m → calming m.
Proof. intros Ht Hf s. apply total_framed; [done..|]. intros r s'. apply frame_calm. Qed.
Lemma calming_bind {A B} (m : M A) (f : A → M B) : calming m → (∀ a, calming (f a)) → calming (m ≫= f).
Proof.
  intros Hm Hf s. rewrite post_bind. eapply post_mono; [apply Hm|]. intros [a|e] s' Hs; [|done]. cbn.
  eapply post_mono; [apply Hf|]. intros r s2 Hs2. by etrans.
Qed.
Lemma calming_schedule f : (∀ sc, (QueueDepth (f sc) ≤ QueueDepth sc)%nat) → calming (schedule f).
Proof. intros Hf s. split; [done|]. apply Hf. Qed.
Lemma calming_leaseTask id w : calming (leaseTask id w).
Proof.
  apply calming_bind; [apply calming_framed; eauto with total framed|]. intros t s.
  rewrite post_bind, post_on. cbn [then_]. rewrite post_of_result. by split.
Qed.
Lemma depth_forget sc t : (QueueDepth (Forget sc t) ≤ QueueDepth sc)%nat.
Proof. unfold Forget. destruct (str_empty t); [done|]. apply depth_delete. Qed.
Lemma depth_track sc t d e : QueueDepth (TrackRunning sc t d e) = QueueDepth sc.
Proof. unfold TrackRunning. destruct (_ || _); [done|]. cbn. by destruct (sc_taskMeta sc !! t). Qed.

Lemma lease_assigned_calm w timeout m s :
  post False (lease_assigned w timeout m) (λ r s', calm s s' ∧ r ≠ Ok RoundDone) s.
Proof.
  unfold lease_assigned. rewrite post_bind, post_gets. cbn [then_].
  assert (∀ s1, calm s s1 → post False (_ ← schedule (λ sc, Forget sc (sm_TaskID m)); mret RoundAgain) (λ r s', calm s s' ∧ r ≠ Ok RoundDone) s1) as Hforget.
  { intros s1 Hs1. rewrite post_bind. eapply post_mono; [apply calming_schedule; intros; apply depth_forget|].
    intros [[]|e] s2 Hs2; cbn; (split; [by etrans|done]). }
  destruct (specForTask s (sm_TaskID m)) as [spec|]; [|by apply Hforget].
  rewrite post_bind. unfold getTask at 1. rewrite post_gets. cbn [then_]. destruct (GetTask _ _) as [before ok].
  case_match; [by apply Hforget|]. rewrite post_bind. eapply post_mono; [apply calming_leaseTask|].
  intros [leased|e] s1 Hs1; [|by split]. cbn [then_].
  rewrite post_bind. eapply post_mono; [apply calming_framed; [case_match; total|case_match; framed]|].
  intros [[]|e] s2 Hs2; [|split; [by transitivity s1|done]]. cbn [then_].
  rewrite post_bind. eapply post_mono; [apply calming_schedule; intros; by rewrite depth_track|].
  intros [[]|e] s3 Hs3; (split; [transitivity s1; [done|by transitivity s2]|done]).
Qed.

(** A round ends the loop or takes a task out of the queues. *)
Lemma indexed_round_returns w timeout s :
  cf_schedulerV2 (sv_config s) = true → cf_schedulingPolicy (sv_config s) ≠ SCHEDULING_POLICY_PREDICTED_LATENCY →
  post False (indexed_round w timeout) (λ r s', ∀ round, r = Ok round → sv_config s' = sv_config s ∧
    (round = RoundDone ∨ (QueueDepth (sv_scheduler s') < QueueDepth (sv_scheduler s))%nat)) s.
Proof.
  intros Hv Hp. unfold indexed_round, assign_section. rewrite !post_bind.
  apply total_framed; [apply total_snapshot|eauto with framed|]. intros [snapshot|e] s1 Hf1; [|done]. cbn [then_].
  rewrite post_bind. apply total_framed; [apply total_now|eauto with framed|]. intros [t|e] s2 Hf2; [|done]. cbn [then_].
  pose proof (frame_calm _ _ Hf1) as [C1 _]. pose proof (frame_calm _ _ Hf2) as [C2 _].
  unfold post at 1. destruct (Assign_returns (sv_scheduler s2) snapshot t (check_callback s2 w)) as [[sc res] Hassign].
  { intros m. apply check_returns; congruence. }
  rewrite Hassign. apply Assign_depth in Hassign. cbn [then_].
  set (s3 := set_scheduler sc s2).
  destruct res as [m|]; [|intros round [= <-]; split; [cbn; congruence|by left]].
  eapply post_mono; [apply lease_assigned_calm|]. intros r s4 [[C4 D4] Hr] round _. split; [rewrite C4; cbn; congruence|right].
  cbn in D4, Hassign. pose proof (f_equal QueueDepth (fr_sched _ _ Hf1)) as D1. pose proof (f_equal QueueDepth (fr_sched _ _ Hf2)) as D2.
  unfold QueueDepth in *. cbn in D1, D2. lia.
Qed.

Lemma indexed_loop_returns fuel w timeout maxTasks : ∀ tasks s,
  cf_schedulerV2 (sv_config s) = true → cf_schedulingPolicy (sv_config s) ≠ SCHEDULING_POLICY_PREDICTED_LATENCY →
  (maxTasks <= Z.of_nat (length tasks) ∨ (QueueDepth (sv_scheduler s) < fuel)%nat) →
  is_Some (indexed_loop fuel w timeout maxTasks tasks s).
Proof.
  induction fuel as [|fuel IH]; intros tasks s Hv Hp Hm; cbn [indexed_loop]; (destruct (Z.leb_spec maxTasks (Z.of_nat (length tasks))); [by eexists|]);
    [lia|]. apply is_Some_post. rewrite post_bind. eapply post_mono; [by apply indexed_round_returns|].
  intros [round|e] s' Hround; [|done]. cbn [then_]. destruct (Hround round eq_refl) as [Hc [->|Hlt]]; [done|].
  destruct round; [done|..]; (apply is_Some_post, IH; [congruence|congruence|right; lia]).
Qed.

(** C29: a poll always comes back, whatever the queues hold: with the scan queue under
    every policy, with the indexed scheduler under every policy but the
    predicted-latency one. *)
Theorem poll_returns w maxTasks s :
  (cf_schedulerV2 (sv_config s) = true → cf_schedulingPolicy (sv_config s) ≠ SCHEDULING_POLICY_PREDICTED_LATENCY) →
  is_Some (pollTaskNow w maxTasks s).
Proof.
  intros Hp. apply is_Some_post. unfold pollTaskNow. rewrite post_bind.
  eapply post_mono; [apply (total_moves same_config); [apply total_redeliver|apply redeliver_config_moves]|]. intros [[]|e] s1 Hc1; [|done]. cbn [then_]. unfold useSchedulerV2.
  rewrite post_bind, post_gets. cbn [then_]. rewrite Hc1. destruct (cf_schedulerV2 (sv_config s)) eqn:Hv.
  - rewrite post_bind. unfold pollTaskIndexed. rewrite post_bind.
    apply total_framed; [apply total_hydrate|eauto with framed|]. intros [[]|e] s2 Hf2; [|done]. cbn [then_].
    pose proof (fr_config _ _ Hf2) as Hc2. rewrite post_bind, post_gets. cbn [then_ id].
    eapply post_mono; [apply is_Some_post, indexed_loop_returns; [congruence|rewrite Hc2, Hc1; auto|]|].
    + destruct (Z.leb_spec maxTasks 0); [by left|right; lia].
    + by intros [tasks|e] s3 _.
  - rewrite post_bind. unfold pollTaskLegacy. rewrite post_bind, post_gets. cbn [then_].
    eapply post_mono; [apply is_Some_post, legacy_loop_total; lia|]. by intros [tasks|e] s3 _.
Qed.
End Total.

(** A poll on a state with a queued task, in a concrete environment. *)
Definition queued_run : Service :=
  let E := toy_env on_time all_work in
  state_of ((_ ← RegisterWorker (demo_worker "w" 4); SubmitTask (demo_submit "t" "k")) (NewService true 0)).
Lemma poll_returns_witness :
  let E := toy_env on_time all_work in
  cf_schedulingPolicy (sv_config queued_run) = SCHEDULING_POLICY_LOCALITY_AWARE ∧ is_Some (pollTaskNow "w" 1 queued_run).
Proof.
  split; [vm_compute; reflexivity|]. apply (@poll_returns (toy_env on_time all_work)). intros _ Hp.
  vm_compute in Hp. discriminate Hp.
Defined.
