(* ===== verification/ServiceFaults.v ===== *)
(** Behaviours of the control service that its design does not mean: the scheduler
    deadlocks itself under the predicted-latency policy, and acknowledged work can
    be undone by a restart.

    The runs take the concrete environment of [ServiceDemo]: when time passes and
    which append fails is theirs to choose, everything else is the code's. *)
From S2P Require Import Prelude Bytes LogRecord EventCodec TaskSpec MetaStore TaskReplay Placement Scheduler WorkerStore WorkflowDef WorkflowState WorkflowReplay WorkflowJSON Actor MetaDomains WorkflowArgs ServiceState ControlTasks ControlDispatch ControlActors ControlWorkflows ControlService ControlAdmin Checkpoint Trees ServiceDemo ServiceLogic.

Open Scope Z_scope.

(** ** The scheduler's mutex is locked twice *)

Section Deadlock.
Context `{Env, MsgpackLib, TaskCodecLib, FingerprintLib, RegistryJSON, ActorJSON, ArgsLib, ControlJSON, DefinitionJSON, WorkflowEventJSON, SystemJSON}.

(** What the check of a task needs to reach the policy. *)
Record llm_candidate (s : Service) (workerID : string) (meta : SchedMeta) : Prop := {
  lc_spec : ∃ spec, sv_specs s !! sm_TaskID meta = Some spec ∧ ts_LlmModelName spec ≠ EmptyString ∧ other_target spec workerID = false;
  lc_task : ∃ task, GetTask (sv_meta s) (sm_TaskID meta) = (task, true) ∧ tk_Status task = TASK_STATUS_QUEUED ∧ tk_ActorID task = EmptyString;
  lc_worker : ∃ worker, WorkerStore.Legacy.GetWorker (sv_workers s) workerID = (worker, true) ∧ workerHasCapacity worker = true
}.

(** under the predicted-latency policy the indexed scheduler blocks for ever on the
    first queued LLM task it considers for a worker with capacity: [Assign] holds the
    scheduler's mutex while its callback asks for the worker count, which locks it again. *)
Theorem predicted_check_deadlocks s workerID meta :
  cf_schedulerV2 (sv_config s) = true → cf_schedulingPolicy (sv_config s) = SCHEDULING_POLICY_PREDICTED_LATENCY →
  llm_candidate s workerID meta → check_callback s workerID meta = None.
Proof.
  intros Hv Hp [(spec & Hspec & Hmodel & Hother) (task & Htask & Hq & Hactor) (worker & Hw & Hcap)].
  assert (post True (check_task workerID meta) (λ _ _, False) s) as Hblocks.
  { unfold check_task, getTask. rewrite post_bind, post_gets. cbn [then_]. unfold specForTask. rewrite Hspec, cloneSpec_id.
    rewrite post_bind, post_gets. cbn [then_]. rewrite Htask, Hq.
    change (isTerminalTaskStatus TASK_STATUS_QUEUED) with false. rewrite Z.eqb_refl. cbn [negb orb].
    rewrite post_bind, post_gets. cbn [then_]. unfold actorMailboxReady.
    rewrite Hactor. change (str_empty EmptyString) with true. cbn [negb].
    unfold canAssignTaskToWorker, useSchedulerV2. rewrite !post_bind, post_gets. cbn [then_]. rewrite Hv.
    unfold canAssignTaskToWorkerIndexed. rewrite Hother, (proj2 (str_empty_false _) Hmodel).
    unfold getWorker. rewrite post_bind, post_gets. cbn [then_]. rewrite Hw, Hcap. cbn [negb orb].
    rewrite post_bind, post_gets. cbn [then_]. rewrite Hp.
    change (SCHEDULING_POLICY_PREDICTED_LATENCY =? SCHEDULING_POLICY_RESOURCE_ONLY) with false. rewrite Z.eqb_refl.
    unfold predictedLLMWorker, getTask. rewrite !post_bind, post_gets. cbn [then_]. rewrite Htask.
    rewrite post_bind. by case_match. }
  revert Hblocks. unfold check_callback, post. by destruct (check_task workerID meta s) as [[s' r]|].
Qed.
End Deadlock.

(** A model, a worker and a queued LLM task, the policy switched to predicted latency. *)
Section DeadlockRun.
#[local] Instance deadlock_env : Env := toy_env on_time all_work.
Definition deadlock_run : M unit :=
  _ ← RegisterWorker (demo_worker "w" 4);
  _ ← RegisterModel {| mi_Name := "m"; mi_Version := "v1"; mi_SizeBytes := 1; mi_Path := ""; mi_Adapter := "" |};
  _ ← SubmitLLM {| sl_ModelName := "m"; sl_ModelVersion := "v1"; sl_Adapter := ""; sl_Prompt := "p"; sl_MaxTokens := 0; sl_IdempotencyKey := "" |};
  _ ← SetSchedulingPolicy SCHEDULING_POLICY_PREDICTED_LATENCY;
  mret ().
Definition deadlock_state : Service := state_of (deadlock_run (NewService true 0)).
Definition deadlock_meta : SchedMeta := schedulerMetaFromTask (default zero_task (snd <$> head (map_to_list (ms_tasks (sv_meta deadlock_state))))).
End DeadlockRun.

Lemma predicted_check_deadlocks_witness :
  @check_callback (toy_env on_time all_work) deadlock_state "w" deadlock_meta = None ∧
  result_of (@pollTaskNow (toy_env on_time all_work) _ "w" 1 deadlock_state) = None.
Proof.
  split; [|vm_compute; reflexivity].
  apply (@predicted_check_deadlocks (toy_env on_time all_work)); [vm_compute; reflexivity|vm_compute; reflexivity|].
  split.
  - eexists. split; [vm_compute; reflexivity|]. split; [vm_compute; discriminate|vm_compute; reflexivity].
  - eexists. split; [vm_compute; reflexivity|]. split; vm_compute; reflexivity.
  - eexists. split; vm_compute; reflexivity.
Defined.

(** ** Acknowledged work undone by a restart *)

Definition poll_ids (p : PollTaskResponse) : list (string * Z) := map (λ t, (ts_TaskId t, ts_TaskLeaseEpoch t)) (pr_Tasks p).

(** A lease that is redelivered before its worker reported the start makes the service
    lose a result across two restarts: the redelivery fences epoch 1, the restarted
    service leases the task under epoch 1 again, accepts the start and the completion of
    that lease, and after the next restart the task is queued as if it had never run. *)
Example redelivered_epoch_reused :
  let E := toy_env (minute_before 20) all_work in
  result_of ((
    _ ← RegisterWorker (demo_worker "w" 4);
    '(id, _) ← SubmitTask (demo_submit "t" "k");
    first ← pollTaskNow "w" 1;
    _ ← redeliverExpiredTasks;
    _ ← restart;
    _ ← RegisterWorker (demo_worker "w" 4);
    second ← pollTaskNow "w" 1;
    started ← try (StartTask id "w" 1);
    completed ← try (CompleteTask (demo_complete id "w" 1 [x31]));
    before ← gets (λ s, status_of s id);
    _ ← restart;
    after ← gets (λ s, status_of s id);
    mret (bool_decide (poll_ids first = [(id, 1)]), bool_decide (poll_ids second = [(id, 1)]), started, completed, before, after))
    (NewService true 0)) =
  Some (Ok (true, true, Ok (), Ok (), TASK_STATUS_SUCCEEDED, TASK_STATUS_QUEUED)).
Proof. vm_compute. reflexivity. Qed.

(** a failed append in the middle of a redelivery loses a result: the first expired
    lease is logged as redelivered, the append for the second fails and the poll returns
    the error with both tasks still running; the worker completes the first task, is told
    so, and after a restart the replay ignores that completion. *)
Example failed_redelivery_loses_result :
  let E := toy_env (minute_before 37) (all_but [49%nat]) in
  result_of ((
    _ ← RegisterWorker (demo_worker "w" 4);
    '(id, _) ← SubmitTask (demo_submit "t1" "k1");
    '(id2, _) ← SubmitTask (demo_submit "t2" "k2");
    first ← pollTaskNow "w" 2;
    _ ← StartTask id "w" 1;
    _ ← StartTask id2 "w" 1;
    poll ← try (pollTaskNow "w" 1);
    completed ← try (CompleteTask (demo_complete id "w" 1 [x31]));
    before ← gets (λ s, status_of s id);
    _ ← restart;
    after ← gets (λ s, status_of s id);
    mret (bool_decide (poll_ids first = [(id, 1); (id2, 1)]), is_ok poll, completed, before, after))
    (NewService true 0)) =
  Some (Ok (true, false, Ok (), TASK_STATUS_SUCCEEDED, TASK_STATUS_QUEUED)).
Proof. vm_compute. reflexivity. Qed.

(** a failed append of a step's success strands its workflow: the task's completion is
    logged, the step's is not; the worker's retry is accepted without touching the
    workflow, and neither polling nor a restart makes the workflow finish. *)
Example failed_step_event_strands_workflow :
  let E := toy_env on_time (all_but [47%nat]) in
  result_of ((
    _ ← RegisterWorker (demo_worker "w" 4);
    '(wf, _) ← SubmitWorkflow {| sw_WorkflowName := "flow"; sw_DefinitionJson := [x30]; sw_IdempotencyKey := "k" |};
    first ← pollTaskNow "w" 1;
    let id := default EmptyString (ts_TaskId <$> pr_Task first) in
    _ ← StartTask id "w" 1;
    completed ← try (CompleteTask (demo_complete id "w" 1 [x31]));
    retried ← try (CompleteTask (demo_complete id "w" 1 [x31]));
    _ ← restart;
    _ ← RegisterWorker (demo_worker "w" 4);
    second ← pollTaskNow "w" 1;
    task ← gets (λ s, status_of s id);
    workflow ← gets (λ s, wsStatus (GetWorkflow (sv_workflows s) wf).1);
    mret (completed, retried, pr_HasTask second, task, workflow))
    (NewService true 0)) =
  Some (Ok (Err ErrSvcAppend, Ok (), false, TASK_STATUS_SUCCEEDED, WORKFLOW_STATUS_RUNNING)).
Proof. vm_compute. reflexivity. Qed.
