(* ===== verification/TasksHeld.v ===== *)
(** No task is lost ([ControlService], with the indexed scheduler): in every reachable
    state a queued task waits in the queue its record names and the lease of a running
    one is tracked with its deadline, so that it is handed out or redelivered.

    [inv X]: the invariant, except for the tasks of [X], which a handler holds in its
    hands: between [Assign] and the lease, between [PopExpiredRunning] and the requeue. *)
From S2P Require Import Prelude Bytes LogRecord EventCodec TaskSpec MetaStore TaskReplay TaskReplaySpec Placement Scheduler WorkerStore WorkflowDef WorkflowState WorkflowReplay WorkflowJSON Actor MetaDomains WorkflowArgs ServiceState ControlTasks ControlDispatch ControlActors ControlWorkflows ControlService ControlAdmin Checkpoint Trees ServiceDemo ServiceLogic.

Open Scope Z_scope.

(** ** The scheduler *)

(** The tasks the scheduler names in a queue or in its metadata. *)
Definition mentions (sc : Scheduler) (id : string) : Prop := is_Some (sc_taskMeta sc !! id) ∨ ∃ r, id ∈ waiting sc r.

Lemma sched_ok_ext route route' sc :
  (∀ id, mentions sc id → route id = route' id) → sched_ok route sc → sched_ok route' sc.
Proof.
  intros Hr [[Hd He] Hq Hm Hl Hdl Hp]. split; try done.
  - split; [done|]. intros r t Ht. rewrite <- Hr by (right; by exists r). by apply He.
  - intros t k Ht. destruct (Hq t k Ht) as (Hk & Hin & Hmeta). by rewrite <- Hr by (left; exact Hmeta).
  - intros t m Ht. rewrite <- Hr by (left; by exists m). by apply Hm.
Qed.
Lemma core_ok route sc : sched_ok route sc → sched_ok route (sched_core sc).
Proof. intros [He Hq Hm Hl Hd _]. split; try done. constructor. Qed.

(** What an operation leaves queued and tracked, up to the tasks in [X]; [Y] it may name anew. *)
Record sched_keeps (Y X : list string) (sc sc' : Scheduler) : Prop := {
  sk_mentions : ∀ id, mentions sc' id → mentions sc id ∨ id ∈ Y;
  sk_queued : ∀ id, id ∉ X → is_Some (sc_queued sc !! id) → is_Some (sc_queued sc' !! id);
  sk_leases : ∀ id, id ∉ X → is_Some (sc_runningLeases sc !! id) → sc_runningLeases sc' !! id = sc_runningLeases sc !! id
}.

Lemma keeps_forget sc id : sched_keeps [] [id] sc (Forget sc id).
Proof.
  unfold Forget. destruct (str_empty id) eqn:He; [split; auto|]. split.
  - intros x [[m Hm]|[r Hr]]; left; [left|right; by exists r]. cbn in Hm. apply lookup_delete_Some in Hm as [_ Hm]. by exists m.
  - intros x Hx. cbn. rewrite lookup_delete_ne by set_solver. done.
  - intros x Hx _. cbn. by rewrite lookup_delete_ne by set_solver.
Qed.
Lemma keeps_track sc id deadline epoch : sched_keeps [] [id] sc (TrackRunning sc id deadline epoch).
Proof.
  unfold TrackRunning. destruct (_ || _); [split; auto|]. cbn [with_leases sc_taskMeta].
  destruct (sc_taskMeta sc !! id) as [m|] eqn:Hm; (split; [|done|by intros x Hx _; cbn; rewrite lookup_insert_ne by set_solver]).
  - intros x [[m' Hm']|[r Hr]]; left; [left|right; by exists r]. cbn in Hm'.
    apply lookup_insert_Some in Hm' as [[<- _]|[_ Hm']]; [by exists m|by exists m'].
  - intros x [[m' Hm']|[r Hr]]; left; [left; by exists m'|right; by exists r].
Qed.
Lemma track_tracks sc id deadline epoch :
  id ≠ EmptyString → 0 < deadline → epoch ≠ 0 →
  sc_runningLeases (TrackRunning sc id deadline epoch) !! id = Some {| rl_taskID := id; rl_deadlineMs := deadline; rl_leaseEpoch := epoch |}.
Proof.
  intros Hid Hd He. unfold TrackRunning. rewrite (proj2 (str_empty_false _) Hid), (proj2 (Z.leb_gt _ _)) by done.
  rewrite (proj2 (Z.eqb_neq _ _)) by done. cbn. by case_match; cbn; rewrite lookup_insert_eq.
Qed.
Lemma queues_of_placed {P} (b : {P} + {¬ P}) sc meta queued pl r :
  q_of (if b then with_placement (with_tasks sc meta queued) pl else with_tasks sc meta queued) r = q_of sc r.
Proof. by destruct b, r. Qed.
Lemma enqueue_waiting sc m r id : id ∈ waiting (Enqueue sc m) r → deques_ok sc → id ∈ waiting sc r ∨ id = sm_TaskID m.
Proof.
  unfold Enqueue, waiting. destruct (str_empty (sm_TaskID m)); [by left|].
  destruct (sc_queued sc !! sm_TaskID (typed m)); [by left|]. intros Hin Hd. rewrite q_of_with_q in Hin.
  rewrite !queues_of_placed in Hin. revert Hin. case_decide as Hr; [|by left]. subst r.
  destruct (PushBack_elem (λ _, QGeneral) (q_of sc (queueForLocked (typed m))) (sm_TaskID (typed m)) (Hd _)) as [_ ->]. cbn. naive_solver.
Qed.
Lemma enqueue_meta sc m id : is_Some (sc_taskMeta (Enqueue sc m) !! id) → is_Some (sc_taskMeta sc !! id) ∨ id = sm_TaskID m.
Proof.
  unfold Enqueue. destruct (str_empty (sm_TaskID m)); [by left|].
  destruct (sc_queued sc !! sm_TaskID (typed m)); [|case_decide]; cbn;
    (destruct (decide (sm_TaskID m = id)) as [->|]; [by right|rewrite lookup_insert_ne by done; by left]).
Qed.
Lemma enqueue_queued sc m id : sm_TaskID m ≠ EmptyString →
  is_Some (sc_queued sc !! id) ∨ id = sm_TaskID m → is_Some (sc_queued (Enqueue sc m) !! id).
Proof.
  intros Hm Hid. unfold Enqueue. rewrite (proj2 (str_empty_false _) Hm). cbn [typed sm_TaskID].
  destruct (sc_queued sc !! sm_TaskID m) as [k|] eqn:Hk; [cbn; by destruct Hid as [?| ->]; [|exists k]|].
  case_decide; cbn; (destruct (decide (sm_TaskID m = id)) as [<-|]; [rewrite lookup_insert_eq; by eexists|
    rewrite lookup_insert_ne by done; by destruct Hid as [|Hid]; [|congruence]]).
Qed.
Lemma keeps_enqueue sc m : deques_ok sc → sched_keeps [sm_TaskID m] [] sc (Enqueue sc m).
Proof.
  intros Hd. split.
  - intros id [Hm%enqueue_meta|[r Hr%enqueue_waiting]]; [|..|done].
    + destruct Hm as [?| ->]; [by left; left|right; by left].
    + destruct Hr as [?| ->]; [left; right; by exists r|right; by left].
  - intros id _ Hq. destruct (decide (sm_TaskID m = EmptyString)) as [He|He]; [unfold Enqueue; by rewrite He|].
    apply enqueue_queued; [done|by left].
  - intros id _ _. unfold Enqueue. destruct (str_empty _); [done|]. destruct (sc_queued sc !! _); [done|]. by case_decide.
Qed.
Lemma enqueue_core sc m : sched_core (Enqueue sc m) = sched_core (Enqueue (sched_core sc) m).
Proof.
  unfold Enqueue. destruct (str_empty _); [done|]. cbn [sched_core with_placement sc_queued typed sm_TaskID].
  destruct (sc_queued sc !! sm_TaskID m); [done|]. case_decide; unfold sched_core; cbn; by destruct (queueForLocked _).
Qed.

(** ** The invariant *)

Definition live_status (status : Z) : Prop :=
  status = TASK_STATUS_QUEUED ∨ status = TASK_STATUS_RUNNING ∨ status = TASK_STATUS_SUCCEEDED ∨ status = TASK_STATUS_FAILED.
Definition clocked (ms : Z) : Prop := 0 < ms < 2 ^ 61.
(** The queue a record names. *)
Definition route_of (t : Task) : qref := queueForLocked (typed (schedulerMetaFromTask t)).
Definition route_in (m : MemoryStore) (id : string) : qref := route_of (task_or_zero (ms_tasks m) id).

(** A task is in the scheduler's hands: queued, or tracked under its epoch.  An epoch
    counter that has wrapped around to zero names no lease. *)
Definition held_by (sc : Scheduler) (t : Task) : Prop :=
  (tk_Status t = TASK_STATUS_QUEUED → is_Some (sc_queued sc !! tk_TaskID t)) ∧
  (tk_Status t = TASK_STATUS_RUNNING → tk_TaskLeaseEpoch t ≠ 0 →
    ∃ l, sc_runningLeases sc !! tk_TaskID t = Some l ∧ rl_leaseEpoch l = tk_TaskLeaseEpoch t).
Lemma keeps_held Y X sc sc' t : sched_keeps Y X sc sc' → tk_TaskID t ∉ X → held_by sc t → held_by sc' t.
Proof.
  intros [_ Hq Hl] Hn [Hqt Hr]. split; [by auto|]. intros Hs He. destruct (Hr Hs He) as (l & Hlt & Hel).
  exists l. split; [|done]. rewrite Hl; [done|done|by eexists].
Qed.
Lemma settled_held sc t : isTerminalTaskStatus (tk_Status t) = true → held_by sc t.
Proof. intros Ht. by split; intros Hs; rewrite Hs in Ht. Qed.

Section Invariant.
Context `{Env, MsgpackLib, TaskCodecLib, FingerprintLib}.

Definition tasks (s : Service) : gmap string Task := ms_tasks (sv_meta s).
(** Identifiers come from the random source. *)
Definition known_id (s : Service) (id : string) : Prop := ∃ n, (n < sv_tick s)%nat ∧ id = env_fresh n.
Definition unused_id (s : Service) (id : string) : Prop := known_id s id ∧ tasks s !! id = None.

Record task_ok (s : Service) (id : string) (t : Task) : Prop := {
  to_id : tk_TaskID t = id;
  to_known : known_id s id;
  to_status : live_status (tk_Status t);
  to_clock : clocked (tk_UpdatedAtMs t)
}.
Record inv (X : list string) (s : Service) : Prop := {
  in_v2 : cf_schedulerV2 (sv_config s) = true;
  in_task : ∀ id t, tasks s !! id = Some t → task_ok s id t;
  in_spec : ∀ id, is_Some (tasks s !! id) → is_Some (sv_specs s !! id);
  in_sched : sched_ok (route_in (sv_meta s)) (sched_core (sv_scheduler s));
  in_mentions : ∀ id, mentions (sv_scheduler s) id → is_Some (tasks s !! id);
  in_held : ∀ id t, tasks s !! id = Some t → id ∉ X → held_by (sv_scheduler s) t;
  in_log : ∀ id r, r ∈ stream (sv_log s) (taskStream id) → event_of r = EvSubmitted →
    ∃ spec, unmarshalTaskSubmittedSpec (raw_Payload r) = Ok spec ∧ ts_TaskId spec = id ∧ known_id s id
}.

Lemma known_tick s s' id : (sv_tick s ≤ sv_tick s')%nat → known_id s id → known_id s' id.
Proof. intros Ht (n & Hn & ->). exists n. split; [lia|done]. Qed.

Lemma core_waiting sc r : waiting (sched_core sc) r = waiting sc r.
Proof. by destruct r. Qed.
Lemma core_parts sc sc' : sched_core sc' = sched_core sc →
  (∀ id, mentions sc' id → mentions sc id) ∧ (∀ t, held_by sc t → held_by sc' t).
Proof.
  intros Hc. assert (∀ A (f : Scheduler → A), f (sched_core sc') = f (sched_core sc)) as Hf by (intros; by rewrite Hc). split.
  - intros id [Hm|[r Hr]]; [left; pose proof (Hf _ sc_taskMeta) as Hw; cbn in Hw; by rewrite <- Hw|right; exists r].
    by rewrite <- (core_waiting sc), <- Hc, core_waiting.
  - intros t [Hq Hr]. pose proof (Hf _ sc_queued) as E1. pose proof (Hf _ sc_runningLeases) as E2. cbn in E1, E2.
    unfold held_by. by rewrite E1, E2.
Qed.

Lemma inv_frame X s s' : frame s s' → inv X s → inv X s'.
Proof.
  intros [Em Es _ Esc Ec El Et] [Hv Htk Hsp Hsc Hmn Hh Hl]. destruct (core_parts _ _ Esc) as [Hm' Hh']. split.
  - by rewrite Ec.
  - unfold tasks in *. rewrite Em. intros id t Ht. destruct (Htk id t Ht) as [? Hk ? ?]. split; [done|by eapply known_tick|done..].
  - unfold tasks in *. by rewrite Em, Es.
  - by rewrite Em, Esc.
  - unfold tasks in *. rewrite Em. intros id Hm. by apply Hmn, Hm'.
  - unfold tasks in *. rewrite Em. intros id t Ht Hn. by apply Hh', (Hh id).
  - intros id r. rewrite El. intros Hr Hev. destruct (Hl id r Hr Hev) as (spec & Hd & Hid & Hk). exists spec.
    split_and!; [done|done|by eapply known_tick].
Qed.
Lemma inv_weaken X X' s : (∀ id, id ∈ X → id ∈ X') → inv X s → inv X' s.
Proof. intros Hx [Hv Htk Hsp Hsc Hmn Hh Hl]. split; try done. intros id t Ht Hn. apply (Hh id t Ht). auto. Qed.
Lemma inv_release id X s : inv (id :: X) s → (∀ t, tasks s !! id = Some t → held_by (sv_scheduler s) t) → inv X s.
Proof.
  intros [Hv Htk Hsp Hsc Hmn Hh Hl] Hid. split; try done. intros x t Ht Hn. destruct (decide (x = id)) as [->|]; [auto|].
  apply (Hh x t Ht). rewrite elem_of_cons. naive_solver.
Qed.

(** An operation of the scheduler. *)
Lemma inv_sched Y Z X X' s sc' :
  inv X s → sched_ok (route_in (sv_meta s)) (sched_core sc') → sched_keeps Y Z (sv_scheduler s) sc' →
  (∀ id, id ∈ Y → is_Some (tasks s !! id)) →
  (∀ id t, tasks s !! id = Some t → (id ∉ X') → ((id ∉ Z) ∧ (id ∉ X)) ∨ held_by sc' t) →
  inv X' (set_scheduler sc' s).
Proof.
  intros [Hv Htk Hsp Hsc Hmn Hh Hl] Hok Hk HY HX. split; try done.
  - intros id t Ht. by destruct (Htk id t Ht).
  - intros id [Hm|Hm]%(sk_mentions _ _ _ _ Hk); [by apply Hmn|by apply HY].
  - intros id t Ht Hn. destruct (HX id t Ht Hn) as [[Hz Hx]|Hd]; [|done].
    eapply keeps_held; [exact Hk| |by apply (Hh id)]. by rewrite (to_id _ _ _ (Htk id t Ht)).
Qed.

Lemma inv_forget id X s :
  inv (id :: X) s → (∀ t, tasks s !! id = Some t → isTerminalTaskStatus (tk_Status t) = true) →
  inv X (set_scheduler (Forget (sv_scheduler s) id) s).
Proof.
  intros Hi Ht. eapply inv_sched; [exact Hi| |apply keeps_forget|by intros ? ?%elem_of_nil|].
  - replace (sched_core (Forget _ _)) with (Forget (sched_core (sv_scheduler s)) id) by (unfold Forget; by destruct (str_empty id)).
    apply Forget_ok, Hi.
  - intros x t Hx Hn. destruct (decide (x = id)) as [->|]; [right; apply settled_held; auto|left; set_solver].
Qed.
Lemma inv_track id X s t deadline :
  inv (id :: X) s → tasks s !! id = Some t → id ≠ EmptyString → tk_Status t = TASK_STATUS_RUNNING → 0 < deadline →
  inv X (set_scheduler (TrackRunning (sv_scheduler s) id deadline (tk_TaskLeaseEpoch t)) s).
Proof.
  intros Hi Ht Hid Hs Hd. eapply inv_sched; [exact Hi| |apply keeps_track|by intros ? ?%elem_of_nil|].
  - replace (sched_core (TrackRunning _ _ _ _)) with (sched_core (TrackRunning (sched_core (sv_scheduler s)) id deadline (tk_TaskLeaseEpoch t)))
      by (unfold TrackRunning; destruct (_ || _); [done|]; cbn; by destruct (sc_taskMeta (sv_scheduler s) !! id)).
    apply core_ok, TrackRunning_ok, Hi.
  - intros x t' Hx Hn. destruct (decide (x = id)) as [->|]; [right|left; set_solver].
    rewrite Ht in Hx. injection Hx as <-. split; [by rewrite Hs|]. intros _ He.
    rewrite (to_id _ _ _ (in_task _ _ Hi id t Ht)), track_tracks by done. by eexists.
Qed.
Lemma inv_enqueue id X s t m :
  inv (id :: X) s → tasks s !! id = Some t → id ≠ EmptyString → tk_Status t = TASK_STATUS_QUEUED →
  sm_TaskID m = id → queueForLocked (typed m) = route_of t →
  inv X (set_scheduler (Enqueue (sv_scheduler s) m) s).
Proof.
  intros Hi Ht Hid Hs Hm Hr. pose proof (so_entries _ _ (in_sched _ _ Hi)) as [Hdq _].
  assert (deques_ok (sv_scheduler s)) as Hdq' by (intros r; specialize (Hdq r); by destruct r).
  eapply inv_sched; [exact Hi| |by apply keeps_enqueue| |].
  - rewrite enqueue_core. apply core_ok, Enqueue_ok; [apply Hi|]. unfold route_in, task_or_zero. fold (tasks s). rewrite Hm, Ht. done.
  - intros x ->%list_elem_of_singleton. rewrite Hm, Ht. by eexists.
  - intros x t' Hx Hn. destruct (decide (x = id)) as [->|]; [right|left; set_solver].
    rewrite Ht in Hx. injection Hx as <-. split; [|by rewrite Hs]. intros _.
    rewrite (to_id _ _ _ (in_task _ _ Hi id t Ht)). apply enqueue_queued; [by rewrite Hm|by right].
Qed.
(** A task may be queued once more. *)
Lemma inv_enqueue_again id X s t m :
  inv X s → tasks s !! id = Some t → sm_TaskID m = id → queueForLocked (typed m) = route_of t →
  inv X (set_scheduler (Enqueue (sv_scheduler s) m) s).
Proof.
  intros Hi Ht Hm Hr. pose proof (so_entries _ _ (in_sched _ _ Hi)) as [Hdq _].
  assert (deques_ok (sv_scheduler s)) as Hdq' by (intros r; specialize (Hdq r); by destruct r).
  eapply inv_sched; [exact Hi| |by apply keeps_enqueue| |].
  - rewrite enqueue_core. apply core_ok, Enqueue_ok; [apply Hi|]. unfold route_in, task_or_zero. fold (tasks s). rewrite Hm, Ht. done.
  - intros x ->%list_elem_of_singleton. rewrite Hm, Ht. by eexists.
  - intros x t' Hx Hn. left. split; [apply not_elem_of_nil|done].
Qed.
Lemma inv_specs X s id spec : inv X s → inv X (set_specs (<[id := spec]> (sv_specs s)) s).
Proof.
  intros [Hv Htk Hsp Hsc Hmn Hh Hl]. split; try done; [intros x t Ht; by destruct (Htk x t Ht)|].
  intros x Hx. cbn. destruct (decide (id = x)) as [->|]; [rewrite lookup_insert_eq; by eexists|rewrite lookup_insert_ne by done; by apply Hsp].
Qed.

(** A record changes but keeps its place. *)
Definition same_place (t t' : Task) : Prop := tk_TaskID t' = tk_TaskID t ∧ route_of t' = route_of t.
Lemma inv_put id X s t t' :
  inv X s → tasks s !! id = Some t → same_place t t' → live_status (tk_Status t') → clocked (tk_UpdatedAtMs t') →
  inv (id :: X) (set_meta (put_task (sv_meta s) id t') s).
Proof.
  intros [Hv Htk Hsp Hsc Hmn Hh Hl] Ht [Hid Hr] Hst Hc.
  assert (∀ x, is_Some (<[id := t']> (tasks s) !! x) ↔ is_Some (tasks s !! x)) as Hdom.
  { intros x. destruct (decide (id = x)) as [->|]; [rewrite lookup_insert_eq, Ht; by split; eexists|by rewrite lookup_insert_ne]. }
  split; try done.
  - intros x y. cbn. intros [[<- <-]|[Hne Hx]]%lookup_insert_Some; [|by destruct (Htk x y Hx)].
    destruct (Htk id t Ht) as [? ? _ _]. split; [congruence|done..].
  - intros x Hx. apply Hsp, Hdom, Hx.
  - eapply sched_ok_ext; [|exact Hsc]. intros x _. unfold route_in, task_or_zero. cbn. destruct (decide (id = x)) as [<-|].
    + fold (tasks s). rewrite lookup_insert_eq, Ht. cbn. by rewrite Hr.
    + by rewrite lookup_insert_ne.
  - intros x Hx. apply Hdom. by apply Hmn.
  - intros x y. cbn. intros [[<- <-]|[Hne Hx]]%lookup_insert_Some Hn; [by destruct Hn; left|].
    apply (Hh x y Hx). rewrite elem_of_cons in Hn. naive_solver.
Qed.

(** A new record, its specification and its place in the queue. *)
Lemma inv_new X s t key spec ms :
  inv X s → unused_id s (tk_TaskID t) → tk_TaskID t ≠ EmptyString → live_status (tk_Status t) → clocked (tk_UpdatedAtMs t) →
  ms = {| ms_tasks := <[tk_TaskID t := t]> (tasks s); ms_taskByIdemKey := key |} →
  inv (tk_TaskID t :: X) (set_specs (<[tk_TaskID t := spec]> (sv_specs s)) (set_meta ms s)).
Proof.
  intros [Hv Htk Hsp Hsc Hmn Hh Hl] [Hk Hno] Hne Hs Hc ->. split; try done.
  - intros x y. cbn. intros [[<- <-]|[Hx Hy]]%lookup_insert_Some; [|by destruct (Htk x y Hy)].
    by split.
  - intros x. cbn. destruct (decide (tk_TaskID t = x)) as [->|]; [rewrite !lookup_insert_eq; by eexists|].
    rewrite !lookup_insert_ne by done. apply Hsp.
  - eapply sched_ok_ext; [|exact Hsc]. intros x Hx. unfold route_in, task_or_zero. cbn. destruct (decide (tk_TaskID t = x)) as [<-|].
    + exfalso. destruct (Hmn (tk_TaskID t)) as [y Hy]; [|by rewrite Hno in Hy]. destruct Hx as [Hx|[r Hr]]; [by left|right; exists r].
      by rewrite core_waiting in Hr.
    + by rewrite lookup_insert_ne.
  - intros x Hx. cbn. destruct (decide (tk_TaskID t = x)) as [->|]; [rewrite lookup_insert_eq; by eexists|].
    rewrite lookup_insert_ne by done. by apply Hmn.
  - intros x y. cbn. intros [[<- <-]|[Hx Hy]]%lookup_insert_Some Hn; [by destruct Hn; left|].
    apply (Hh x y Hy). rewrite elem_of_cons in Hn. naive_solver.
Qed.

(** What may be appended: a submission names its stream's task. *)
Definition submission_ok (s : Service) (req : AppendLogRequest) : Prop :=
  ∀ id, al_StreamId req = taskStream id → al_EventType req = "TaskSubmitted" →
    ∃ spec, unmarshalTaskSubmittedSpec (al_Payload req) = Ok spec ∧ ts_TaskId spec = id ∧ known_id s id.
Lemma event_submitted r : event_of r = EvSubmitted → raw_EventType r = "TaskSubmitted".
Proof. unfold event_of. by repeat case_decide. Qed.
Lemma inv_append X s req :
  inv X s → submission_ok s req → post True (appendLog req) (λ _ s', inv X s' ∧ same_but_log s s') s.
Proof.
  intros [Hv Htk Hsp Hsc Hmn Hh Hl] Hreq. pose proof (appendLog_spec req s) as Hp. unfold post in *.
  destruct (appendLog req s) as [[s' r]|]; [|done]. destruct Hp as [Hs Hr]. split; [|done].
  destruct Hs as [Em Es _ Esc Ec _ _ _ Et].
  assert (∀ id, known_id s id → known_id s' id) as Hk by (intros id; apply known_tick; lia).
  split; unfold tasks in *; rewrite ?Em, ?Es, ?Esc, ?Ec; try done.
  - intros id t Ht. destruct (Htk id t Ht). split; auto.
  - intros id rec Hin Hev. assert (rec ∈ stream (sv_log s) (taskStream id) ∨ ∃ ts, rec = new_record (sv_log s) req ts ∧ raw_StreamID rec = taskStream id) as Hcase.
    { destruct r as [rec'|e]; [|destruct Hr as [_ Hr]; rewrite Hr in Hin; by left].
      destruct Hr as (_ & ts & Hlog). pose proof (log_append_spec (sv_log s) req ts) as Hla. rewrite Hlog in Hla.
      destruct Hla as (Hid & [(Hlg & _)|(Hlg & Hrec & _)]); rewrite Hlg in Hin; [by left|].
      rewrite stream_app in Hin. apply elem_of_app in Hin as [Hin|Hin]; [by left|right]. case_decide; [|by apply elem_of_nil in Hin].
      apply list_elem_of_singleton in Hin as ->. by exists ts. }
    destruct Hcase as [Hold|(ts & -> & Hsid)].
    + destruct (Hl id rec Hold Hev) as (spec & ? & ? & ?). exists spec. auto.
    + apply event_submitted in Hev. destruct (Hreq id Hsid Hev) as (spec & ? & ? & ?). exists spec. auto.
Qed.
Lemma append_frame X s req : inv X s → submission_ok s req →
  post True (appendLog req) (λ _ s', inv X s' ∧ sv_meta s' = sv_meta s ∧ sv_config s' = sv_config s ∧ (sv_tick s ≤ sv_tick s')%nat) s.
Proof.
  intros Hi Hr. eapply post_mono; [by apply inv_append|]. intros r s' [? []]. split_and!; [done..|lia].
Qed.
End Invariant.
