(* ===== verification/TasksHeldSteps.v ===== *)
(** The handlers of the control service keep every task in the scheduler's hands
    ([TasksHeld]), and so does every sequence of requests and restarts.

    The environment is what [EnvLaws] says: a clock between 1970 and far from the end
    of its range, identifiers that are never handed out twice. *)
From S2P Require Import Prelude Bytes LogRecord EventCodec TaskSpec MetaStore TaskReplay TaskReplaySpec Placement Scheduler WorkerStore WorkflowDef WorkflowState WorkflowReplay WorkflowJSON Actor MetaDomains WorkflowArgs ServiceState ControlTasks ControlDispatch ControlActors ControlWorkflows ControlService ControlAdmin Checkpoint Trees ServiceDemo ServiceLogic TasksHeld.

Open Scope Z_scope.

(** What the handlers rely on. *)
Class EnvLaws `{Env} : Prop := {
  clock_range : ∀ n, clocked (env_nanos n / 1000000);
  fresh_inj : ∀ n m, env_fresh n = env_fresh m → n = m;
  fresh_nonempty : ∀ n, env_fresh n ≠ EmptyString
}.

(** Deadlines lie after the lease. *)
Definition timeout_ok (cf : Config) : Prop := 0 < cf_redeliveryTimeout cf < 2 ^ 63.

Section Steps.
Context `{EnvLaws} `{MsgpackLib, TaskCodecLib, FingerprintLib, RegistryJSON, ActorJSON, ArgsLib, ControlJSON, DefinitionJSON, WorkflowEventJSON, SystemJSON, AdminJSON, LogStats}.

Record steady (X : list string) (s : Service) : Prop := { st_inv : inv X s; st_timeout : timeout_ok (sv_config s) }.
Lemma steady_frame X s s' : frame s s' → steady X s → steady X s'.
Proof. intros Hf [Hi Ht]. split; [by eapply inv_frame|]. by rewrite (fr_config _ _ Hf). Qed.
Lemma steady_kept s s' : frame s s' → kept_by (steady []) s s'.
Proof. intros Hf Hs. by eapply steady_frame. Qed.

(** A framed part of a handler. *)
Lemma post_framed {A} (m : M A) Q s : framed m → (∀ r s', frame s s' → Q r s') → post True m Q s.
Proof. intros Hm HQ. eapply post_mono; [apply Hm|]. intros r s'. apply HQ. Qed.
Lemma post_ticked {A} (f : nat → A) Q s : (∀ a s', frame s s' → Q (Ok a) s') → post True (ticked f) Q s.
Proof. intros HQ. apply HQ. split; cbn; try done. lia. Qed.
Lemma post_now Q s :
  (∀ t s', clocked t → frame s s' → Q (Ok t) s') → post True now Q s.
Proof. intros HQ. apply HQ; [apply clock_range|]. split; cbn; try done. lia. Qed.

Lemma unused_frame s s' id : frame s s' → unused_id s id → unused_id s' id.
Proof. intros [Em _ _ _ _ _ Et] [Hk Hn]. split; [by eapply known_tick|]. unfold tasks. by rewrite Em. Qed.
Lemma unused_nonempty s id : unused_id s id → id ≠ EmptyString.
Proof. intros [(n & _ & ->) _]. apply fresh_nonempty. Qed.
Lemma known_nonempty s id : known_id s id → id ≠ EmptyString.
Proof. intros (n & _ & ->). apply fresh_nonempty. Qed.
Lemma post_fresh X Q s :
  inv X s → (∀ id s', frame s s' → unused_id s' id → Q (Ok id) s') → post True fresh_id Q s.
Proof.
  intros Hi HQ. apply HQ; [split; cbn; try done; lia|]. split.
  - exists (sv_tick s). split; [cbn; lia|done].
  - cbn. destruct (tasks s !! env_fresh (sv_tick s)) as [t|] eqn:Ht; [|exact Ht].
    destruct (to_known _ _ _ (in_task _ _ Hi _ _ Ht)) as (m & Hm & He). apply fresh_inj in He. lia.
Qed.

(** ** Submission *)

Lemma normalize_id spec Q s :
  (∀ r s', frame s s' → (∀ spec', r = Ok spec' → ts_TaskId spec' = ts_TaskId spec) → Q r s') →
  post True (normalizeTaskFunction spec) Q s.
Proof.
  intros HQ. unfold normalizeTaskFunction. case_match; [apply HQ; [reflexivity|by intros ? [= <-]]|].
  rewrite post_bind. apply post_framed; [framed|]. intros [[ref hash]|e] s' Hf; apply HQ; try done; by intros ? [= <-].
Qed.

(** The record, its specification and its place are written together. *)
Lemma enqueue_created X s record key t spec ms task :
  steady X s → unused_id s (tk_TaskID record) → tk_Status record = TASK_STATUS_QUEUED → clocked t →
  CreateTask (sv_meta s) record key t = (ms, (task, false)) →
  post True (_ ← metadataPersisted; _ ← modify (λ s, set_specs (<[tk_TaskID task := spec]> (sv_specs s)) s);
             _ ← enqueue_record task; mret (task, false)) (λ _ s', steady X s') (set_meta ms s).
Proof.
  intros [Hi Ht] Hu Hs Hc Hcreate. unfold CreateTask in Hcreate.
  assert (task = set_created record key t ∧ ∃ ik, ms = {| ms_tasks := <[tk_TaskID task := task]> (tasks s); ms_taskByIdemKey := ik |}) as [Htask [ik Hms]].
  { case_match; [done|]. injection Hcreate as <- <-. split; [done|]. eexists. reflexivity. }
  assert (tk_TaskID task = tk_TaskID record) as Hid by (by rewrite Htask).
  unfold metadataPersisted, enqueue_record, useSchedulerV2.
  rewrite post_bind, post_ret. cbn [then_]. rewrite post_bind, post_modify. cbn [then_]. rewrite !post_bind, post_gets. cbn [then_].
  cbn [set_specs set_meta sv_config]. rewrite (in_v2 _ _ Hi), post_schedule. cbn [then_]. rewrite post_ret.
  rewrite <- Hid in Hu. split; [|exact Ht].
  assert (inv (tk_TaskID task :: X) (set_specs (<[tk_TaskID task := spec]> (sv_specs s)) (set_meta ms s))) as Hn.
  { eapply inv_new; [exact Hi|exact Hu|by eapply unused_nonempty| | |exact Hms]; rewrite Htask; [by left|exact Hc]. }
  eapply (inv_enqueue _ _ _ task); [exact Hn| |by eapply unused_nonempty|by rewrite Htask|done|done].
  cbn. rewrite Hms. apply lookup_insert_eq.
Qed.

(** From the chosen identifier on. *)
Lemma steady_submit X spec seq s :
  steady X s → unused_id s (ts_TaskId spec) → post True (enqueueTaskWithMetadata spec seq) (λ _ s', steady X s') s.
Proof.
  intros Hst Hu. pose proof (unused_nonempty _ _ Hu) as Hne. unfold enqueueTaskWithMetadata.
  rewrite (proj2 (str_empty_false _) Hne), post_bind, post_ret. cbn [then_]. rewrite post_bind. apply normalize_id. intros [spec'|e] s1 Hf1 Hid; [|by eapply steady_frame].
  cbn [then_]. specialize (Hid spec' eq_refl). rewrite <- Hid in Hu, Hne. clear spec Hid.
  apply (steady_frame _ _ _ Hf1) in Hst. apply (unused_frame _ _ _ Hf1) in Hu. clear s Hf1.
  rewrite post_bind, post_of_result. destruct (taskSpecFingerprint spec') as [fingerprint|]; [|done]. cbn [then_].
  rewrite post_bind, post_gets. cbn [then_]. destruct (GetTaskByIdempotencyKey _ _) as [existing [|]].
  { rewrite post_bind, post_of_result. by case_match. }
  rewrite post_bind. apply post_framed; [eauto with framed|]. intros [[]|e] s2 Hf2; [|by eapply steady_frame]. cbn [then_].
  apply (steady_frame _ _ _ Hf2) in Hst. apply (unused_frame _ _ _ Hf2) in Hu. clear s1 Hf2.
  rewrite post_bind, post_of_result. destruct (marshalTaskSubmittedPayload spec') as [payload|] eqn:Hm; [|done]. cbn [then_].
  rewrite post_bind. eapply post_mono.
  { apply (append_frame X); [apply Hst|]. intros id Hs _. cbn in Hs |- *. exists spec'. split; [by apply submitted_decoded|].
    apply taskStream_inj in Hs as <-. split; [done|apply Hu]. }
  intros [rec|e] s3 (Hi3 & Em & Ec & Et); (assert (steady X s3) as Hst3 by (split; [done|rewrite Ec; apply Hst])); [|done]. cbn [then_].
  assert (unused_id s3 (ts_TaskId spec')) as Hu3.
  { destruct Hu as [Hk Hn]. split; [by eapply known_tick|]. unfold tasks. by rewrite Em. }
  rewrite post_bind. apply post_now. intros t s4 Hc Hf4. cbn [then_].
  apply (steady_frame _ _ _ Hf4) in Hst3. apply (unused_frame _ _ _ Hf4) in Hu3. rewrite post_bind, post_on. cbn [then_].
  destruct (CreateTask (sv_meta s4) _ _ t) as [ms [task [|]]] eqn:Hcreate; cbn [fst snd].
  - rewrite post_bind, post_of_result. assert (ms = sv_meta s4) as ->.
    { unfold CreateTask in Hcreate. case_match; [by injection Hcreate as <- _|done]. }
    assert (steady X (set_meta (sv_meta s4) s4)) by (eapply steady_frame; [|exact Hst3]; by split). by destruct (ensureIdempotencyFingerprint _ _ _ _).
  - eapply enqueue_created; [exact Hst3| | |exact Hc|exact Hcreate]; by destruct seq.
Qed.
Lemma steady_fresh X {A} (f : string → M A) s :
  steady X s → (∀ id s', steady X s' → unused_id s' id → post True (f id) (λ _ s', steady X s') s') →
  post True (id ← fresh_id; f id) (λ _ s', steady X s') s.
Proof.
  intros Hst Hf. rewrite post_bind. eapply (post_fresh X); [apply Hst|]. intros id s' Hfr Hu. cbn [then_]. apply Hf; [|done].
  by eapply steady_frame.
Qed.
(** A framed part between the choice of the identifier and the submission. *)
Lemma carry X {A B} (m : M A) (f : A → M B) id s :
  framed m → steady X s → unused_id s id →
  (∀ a s', steady X s' → unused_id s' id → post True (f a) (λ _ s', steady X s') s') →
  post True (m ≫= f) (λ _ s', steady X s') s.
Proof.
  intros Hm Hst Hu Hf. rewrite post_bind. apply post_framed; [done|]. intros [a|e] s' Hfr; [|by eapply steady_frame].
  cbn [then_]. apply Hf; [by eapply steady_frame|by eapply unused_frame].
Qed.
Lemma carry_done X {A B} (m : M A) (f : A → M B) s :
  (∀ a, framed (f a)) → post True m (λ _ s', steady X s') s → post True (m ≫= f) (λ _ s', steady X s') s.
Proof.
  intros Hf Hm. rewrite post_bind. eapply post_mono; [exact Hm|]. intros [a|e] s' Hst; [|done]. cbn [then_].
  apply post_framed; [apply Hf|]. intros r s2 Hfr. by eapply steady_frame.
Qed.

Abbreviation keeps := (moves (kept_by (steady []))).
Lemma keeps_intro {A} (m : M A) : (∀ s, steady [] s → post True m (λ _ s', steady [] s') s) → keeps m.
Proof. intros Hm s. specialize (Hm s). unfold post, kept_by in *. destruct (m s) as [[s' r]|]; auto. Qed.
Lemma keeps_elim {A} (m : M A) s : keeps m → steady [] s → post True m (λ _ s', steady [] s') s.
Proof. intros Hm Hs. eapply post_mono; [apply Hm|]. intros r s' Hk. by apply Hk. Qed.
Lemma keeps_fresh {A} (f : string → M A) :
  (∀ id s, steady [] s → unused_id s id → post True (f id) (λ _ s', steady [] s') s) → keeps (fresh_id ≫= f).
Proof. intros Hf. apply keeps_intro. intros s Hs. by apply steady_fresh; [|intros id s' ??; apply Hf]. Qed.

(** A fresh identifier, framed code, then the submission under it. *)
Ltac submits :=
  lazymatch goal with
  | Hs : steady _ ?s, Hu : unused_id ?s ?id |- post True (enqueueTask _ ≫= _) _ ?s =>
      apply carry_done; [intros [? ?]; framed|apply steady_submit; [exact Hs|exact Hu]]
  | Hs : steady _ ?s, Hu : unused_id ?s ?id |- post True (enqueueTaskWithMetadata _ _ ≫= _) _ ?s =>
      apply carry_done; [intros [? ?]; framed|apply steady_submit; [exact Hs|exact Hu]]
  | Hs : steady _ ?s, Hu : unused_id ?s ?id |- post True (?m ≫= _) _ ?s =>
      eapply (carry _ m _ id); [eauto with framed nocore|exact Hs|exact Hu|]; clear Hs Hu; intros ? ? ? ?; submits
  | Hs : steady _ ?s |- post True (if ?b then ?x else ?y) _ ?s =>
      destruct b; [apply post_framed; [framed|intros ? ? Hf; exact (steady_frame _ _ _ Hf Hs)]|submits]
  | |- post True (let (_, _) := ?p in _) _ _ => destruct p; submits
  end.
#[local] Hint Extern 1 (moves _ (fresh_id ≫= _)) => apply keeps_fresh; intros ? ? ? ?; cbn zeta beta; submits : moves.

Lemma keeps_SubmitTask req : keeps (SubmitTask req).
Proof. unfold SubmitTask. moves steady_kept. Qed.
Lemma keeps_SubmitLLM req : keeps (SubmitLLM req).
Proof. unfold SubmitLLM. moves steady_kept. Qed.
Lemma keeps_schedule_step w state def step : keeps (schedule_step w state def step).
Proof. unfold schedule_step. moves steady_kept. Qed.
#[local] Hint Resolve keeps_SubmitTask keeps_SubmitLLM keeps_schedule_step : moves.
Lemma keeps_schedule_loop fuel w : ∀ state, keeps (schedule_loop fuel w state).
Proof. induction fuel as [|fuel IH]; intros state; cbn [schedule_loop]; moves steady_kept. Qed.
#[local] Hint Resolve keeps_schedule_loop : moves.
Lemma keeps_scheduleReadySteps w : keeps (scheduleReadySteps w).
Proof. unfold scheduleReadySteps. moves steady_kept. Qed.
#[local] Hint Resolve keeps_scheduleReadySteps : moves.
Lemma keeps_SubmitWorkflow req : keeps (SubmitWorkflow req).
Proof. unfold SubmitWorkflow. moves steady_kept. Qed.
Lemma keeps_submitActorCommand attempts req : keeps (submitActorCommand attempts req).
Proof. unfold submitActorCommand. moves steady_kept. Qed.
(** ** Handing out *)

Lemma post_any {A} (m : M A) s : post True m (λ _ _, True) s.
Proof. unfold post. by destruct (m s) as [[s' r]|]. Qed.

(** A queued task is never dropped, and only a queued task is accepted. *)
Lemma check_task_post w m s :
  (∀ t, tasks s !! sm_TaskID m = Some t → is_Some (sv_specs s !! sm_TaskID m)) →
  post True (check_task w m) (λ r _,
    (r = Ok schedulerDrop → ∀ t, tasks s !! sm_TaskID m = Some t → tk_Status t ≠ TASK_STATUS_QUEUED) ∧
    (r = Ok schedulerAssign → ∃ t, tasks s !! sm_TaskID m = Some t ∧ tk_Status t = TASK_STATUS_QUEUED)) s.
Proof.
  intros Hspec. unfold check_task, getTask. rewrite post_bind, post_gets. cbn [then_]. unfold specForTask. rewrite cloneSpec_id.
  destruct (sv_specs s !! sm_TaskID m) as [spec|].
  2:{ rewrite post_ret. split; [|done]. intros _ t Ht. by destruct (Hspec t Ht). }
  rewrite post_bind, post_gets. cbn [then_]. unfold GetTask. fold (tasks s).
  destruct (tasks s !! sm_TaskID m) as [t|]; [|by split]. cbn [negb orb].
  destruct (isTerminalTaskStatus (tk_Status t)) eqn:Hterm.
  { rewrite post_ret. split; [|done]. intros _ ? [= <-] Hq. by rewrite Hq in Hterm. }
  destruct (Z.eqb_spec (tk_Status t) TASK_STATUS_QUEUED) as [Hq|Hq]; cbn [negb].
  2:{ rewrite post_ret. split; [|done]. by intros _ ? [= <-]. }
  rewrite post_bind, post_gets. cbn [then_]. destruct (actorMailboxReady s t w); cbn [negb]; [|by rewrite post_ret].
  rewrite post_bind. eapply post_mono; [apply post_any|]. intros [[|]|e] s' _; cbn [then_]; rewrite ?post_ret; split; try done.
  intros _. by exists t.
Qed.
Lemma check_callback_spec w m s :
  (∀ t, tasks s !! sm_TaskID m = Some t → is_Some (sv_specs s !! sm_TaskID m)) →
  (check_callback s w m = Some schedulerDrop → ∀ t, tasks s !! sm_TaskID m = Some t → tk_Status t ≠ TASK_STATUS_QUEUED) ∧
  (check_callback s w m = Some schedulerAssign → ∃ t, tasks s !! sm_TaskID m = Some t ∧ tk_Status t = TASK_STATUS_QUEUED).
Proof.
  intros Hs. pose proof (check_task_post w m s Hs) as Hp. unfold check_callback, post in *.
  destruct (check_task w m s) as [[s' [d|e]]|]; [|by split..]. destruct Hp as [Hd Ha]. split; intros [= ->]; auto.
Qed.

(** [Assign] under the invariant. *)
Lemma steady_assign w s snapshot t sc res :
  steady [] s → Assign (sv_scheduler s) snapshot t (check_callback s w) = Some (sc, res) →
  match res with
  | None => steady [] (set_scheduler sc s)
  | Some m => steady [sm_TaskID m] (set_scheduler sc s) ∧ ∃ t, tasks s !! sm_TaskID m = Some t ∧ tk_Status t = TASK_STATUS_QUEUED
  end.
Proof.
  intros [Hi Ht] Ha. pose proof (in_sched _ _ Hi) as Hsc. destruct (decide (ws_WorkerID snapshot = EmptyString)) as [He|He].
  { unfold Assign in Ha. rewrite He in Ha. injection Ha as <- <-. split; [|done]. eapply inv_frame; [|exact Hi]. by split. }
  pose proof (so_entries _ _ Hsc) as [Hdq Hent].
  assert (entries_ok (route_in (sv_meta s)) (sv_scheduler s)) as Hent'.
  { split; [intros r; specialize (Hdq r); by destruct r|]. intros r x Hx. apply Hent. by rewrite core_waiting. }
  destruct (Assign_core _ snapshot (check_callback s w) _ _ _ _ Hent' He Ha) as [Hev Hres].
  assert (∀ x y, sc_taskMeta (sv_scheduler s) !! x = Some y → sm_TaskID y = x) as Hmeta.
  { intros x y Hx. by apply (so_meta _ _ Hsc x y). }
  set (P := gone (route_in (sv_meta s)) (check_callback s w) (sv_scheduler s) res) in Hev.
  assert (evolves P (sched_core (sv_scheduler s)) (sched_core sc)) as Hevc.
  { by destruct Hev; split. }
  assert (∀ x, P x → ∃ m, sm_TaskID m = x ∧ (check_callback s w m = Some schedulerDrop ∨ res = Some m)) as HP.
  { intros x (m & Hlive & Hc). exists m. apply live_meta_Some in Hlive as [Hm _]. split; [by apply Hmeta|done]. }
  assert (∀ x t, tasks s !! x = Some t → P x → res = None ∨ (∃ m, res = Some m ∧ sm_TaskID m ≠ x) → held_by sc t) as Hdropped.
  { intros x y Hx HPx Hres'. destruct (HP x HPx) as (m & <- & [Hd|Hm]); [|destruct Hres' as [|(m' & Hm' & Hne)]; congruence].
    destruct (in_held _ _ Hi _ y Hx (not_elem_of_nil _)) as [_ Hr]. split; [|by rewrite (ev_leases _ _ _ Hev)].
    intros Hq. exfalso. eapply (proj1 (check_callback_spec w m s (λ t Ht, in_spec _ _ Hi _ (mk_is_Some _ _ Ht)))); [exact Hd|exact Hx|exact Hq]. }
  assert (inv (match res with Some m => [sm_TaskID m] | None => [] end) (set_scheduler sc s)) as Hinv.
  { eapply (inv_sched [] (elements (dom (tasks s)))); [exact Hi| | |by intros ? ?%elem_of_nil|].
    - by eapply evolves_ok.
    - assert (∀ x, x ∉ elements (dom (tasks s)) → is_Some (sc_queued (sv_scheduler s) !! x) → False) as Hno.
      { intros x Hx [k Hk]. apply Hx, elem_of_elements, elem_of_dom, (in_mentions _ _ Hi). left. by apply (so_queued _ _ Hsc x k). }
      split; [|by intros x Hx Hq; destruct (Hno x Hx Hq)|by intros; rewrite (ev_leases _ _ _ Hev)].
      intros x [[m Hm]|[r Hr]]; left.
      + left. destruct (ev_task _ _ _ Hev x) as [[_ E]|(_ & _ & [E|E])]; rewrite E in Hm; [by exists m|by exists m|done].
      + right. exists r. destruct (ev_waiting _ _ _ Hev (proj1 Hent') r) as (pre & -> & _). apply elem_of_app. by right.
    - intros x y Hx Hn. right. destruct (decide (is_Some (sc_queued sc !! x) ∨ sc_queued sc !! x = sc_queued (sv_scheduler s) !! x)) as [Hd|Hd].
      + pose proof (in_held _ _ Hi x y Hx (not_elem_of_nil _)) as [Hq Hr]. split; [|by rewrite (ev_leases _ _ _ Hev)].
        rewrite (to_id _ _ _ (in_task _ _ Hi x y Hx)) in *. destruct Hd as [Hd| ->]; auto.
      + destruct (ev_task _ _ _ Hev x) as [[E _]|[HPx _]]; [destruct Hd; by right|]. apply (Hdropped x y Hx HPx).
        destruct res as [m|]; [right|by left]. exists m. split; [done|]. intros <-. by destruct Hn; left. }
  destruct res as [m|]; [|by split]. split; [by split|].
  destruct Hres as (r & _ & [Hc _] & _). destruct (check_callback_spec w m s (λ t Ht, in_spec _ _ Hi _ (mk_is_Some _ _ Ht))) as [_ Hacc].
  apply Hacc. revert Hc. clear. unfold check_of, actor_check. by repeat case_match.
Qed.
(** A deadline is a positive time. *)
Lemma deadline_positive t timeout : clocked (tk_UpdatedAtMs t) → 0 < timeout < 2 ^ 63 → 0 < schedulerLeaseDeadlineMs t timeout.
Proof.
  intros Hc Ht. unfold clocked in Hc. unfold schedulerLeaseDeadlineMs, Milliseconds.
  rewrite (proj2 (Z.leb_gt _ _)), (proj2 (Z.eqb_neq _ _)) by lia. cbn [orb].
  assert (0 <= Z.quot timeout 1000000 <= timeout).
  { rewrite Z.quot_div_nonneg by lia. split; [apply Z.div_pos; lia|]. apply Z.div_le_upper_bound; lia. }
  assert (Z.quot timeout 1000000 < 2 ^ 45).
  { rewrite Z.quot_div_nonneg by lia. apply Z.div_lt_upper_bound; lia. }
  unfold i64. rewrite Z.mod_small; lia.
Qed.

(** A task under lease is tracked. *)
Lemma steady_track id X s t :
  steady (id :: X) s → tasks s !! id = Some t → tk_Status t = TASK_STATUS_RUNNING →
  steady X (set_scheduler (TrackRunning (sv_scheduler s) id (schedulerLeaseDeadlineMs t (cf_redeliveryTimeout (sv_config s)))
    (tk_TaskLeaseEpoch t)) s).
Proof.
  intros [Hi Ht] Hid Hs. pose proof (in_task _ _ Hi id t Hid) as [_ Hk _ Hc]. split; [|done].
  eapply inv_track; [exact Hi|exact Hid|by eapply known_nonempty|exact Hs|]. by apply deadline_positive.
Qed.
Lemma steady_requeue id X s t m :
  steady (id :: X) s → tasks s !! id = Some t → tk_Status t = TASK_STATUS_QUEUED → sm_TaskID m = id →
  queueForLocked (typed m) = route_of t → steady X (set_scheduler (Enqueue (sv_scheduler s) m) s).
Proof.
  intros [Hi Ht] Hid Hs Hm Hr. pose proof (in_task _ _ Hi id t Hid) as [_ Hk _ _]. split; [|done].
  eapply inv_enqueue; [exact Hi|exact Hid|by eapply known_nonempty|done..].
Qed.
Lemma steady_forget id X s :
  steady (id :: X) s → (∀ t, tasks s !! id = Some t → isTerminalTaskStatus (tk_Status t) = true) →
  steady X (set_scheduler (Forget (sv_scheduler s) id) s).
Proof. intros [Hi Ht] Hid. split; [by apply inv_forget|done]. Qed.
Lemma steady_put id X s t t' :
  steady X s → tasks s !! id = Some t → same_place t t' → live_status (tk_Status t') → clocked (tk_UpdatedAtMs t') →
  steady (id :: X) (set_meta (put_task (sv_meta s) id t') s).
Proof. intros [Hi Ht] ????. split; [by eapply inv_put|done]. Qed.
Lemma steady_weaken X X' s : (∀ id, id ∈ X → id ∈ X') → steady X s → steady X' s.
Proof. intros Hx [Hi Ht]. split; [by eapply inv_weaken|done]. Qed.

(** [resyncSchedulerTask] puts a task back where its record says. *)
Lemma steady_resync id X s t :
  steady (id :: X) s → tasks s !! id = Some t →
  post True (resyncSchedulerTask t (cf_redeliveryTimeout (sv_config s))) (λ r s', steady X s' ∧ r = Ok () ∧ sv_meta s' = sv_meta s ∧ sv_config s' = sv_config s) s.
Proof.
  intros Hs Hid. pose proof (in_task _ _ (st_inv _ _ Hs) id t Hid) as [Ht _ Hst _]. unfold resyncSchedulerTask.
  destruct (Z.eqb_spec (tk_Status t) TASK_STATUS_QUEUED) as [Hq|Hq].
  { rewrite post_schedule. split; [|done]. eapply steady_requeue; [exact Hs|exact Hid|exact Hq|exact Ht|done]. }
  destruct (Z.eqb_spec (tk_Status t) TASK_STATUS_RUNNING) as [Hr|Hr]; rewrite post_schedule; (split; [|done]); rewrite Ht.
  - by eapply steady_track.
  - apply steady_forget; [done|]. intros t' Ht'. rewrite Hid in Ht'. injection Ht' as <-.
    by destruct Hst as [|[|[-> | ->]]].
Qed.

(** ** Leasing *)

(** The load counters never fail. *)
Lemma post_updateWorker w Q s : (∀ s', frame s s' → Q (Ok ()) s') → post True (updateSchedulerWorker w) Q s.
Proof.
  intros HQ. unfold updateSchedulerWorker. case_match; [by apply HQ|]. unfold getWorker. rewrite post_bind, post_gets. cbn [then_].
  destruct (WorkerStore.Legacy.GetWorker _ _) as [worker [|]]; [|by apply HQ]. rewrite post_schedule. apply HQ. by split.
Qed.
Lemma post_increment w Q s :
  (∀ s', frame s s' → Q (Ok ()) s') → post True (_ ← incrementWorkerLoad w; updateSchedulerWorker w) Q s.
Proof.
  intros HQ. unfold incrementWorkerLoad. rewrite !post_bind. apply post_now. intros t s1 _ Hf. cbn [then_]. rewrite post_modify.
  cbn [then_]. apply post_updateWorker. intros s' Hf'. apply HQ. etrans; [exact Hf|]. etrans; [|exact Hf']. by split.
Qed.
Lemma post_decrement w Q s :
  (∀ s', frame s s' → Q (Ok ()) s') → post True (_ ← decrementWorkerLoad w; updateSchedulerWorker w) Q s.
Proof.
  intros HQ. unfold decrementWorkerLoad. rewrite post_bind, post_modify. cbn [then_]. apply post_updateWorker.
  intros s' Hf'. apply HQ. etrans; [|exact Hf']. by split.
Qed.

Lemma steady_lease w s m :
  steady [sm_TaskID m] s → (∃ t, tasks s !! sm_TaskID m = Some t ∧ tk_Status t = TASK_STATUS_QUEUED) →
  post True (lease_assigned w (cf_redeliveryTimeout (sv_config s)) m) (λ _ s', steady [] s' ∧ sv_config s' = sv_config s) s.
Proof.
  intros Hs (t & Hid & Hq). unfold lease_assigned. rewrite post_bind, post_gets. cbn [then_]. unfold specForTask. rewrite cloneSpec_id.
  destruct (in_spec _ _ (st_inv _ _ Hs) _ (mk_is_Some _ _ Hid)) as [spec ->].
  rewrite post_bind. unfold getTask. rewrite post_gets. cbn [then_]. unfold GetTask. fold (tasks s). rewrite Hid, Hq. cbn [negb].
  rewrite Z.eqb_refl. cbn [negb orb]. unfold leaseTask. rewrite !post_bind. apply post_now. intros now s1 Hnow Hf1. cbn [then_].
  pose proof (steady_frame _ _ _ Hf1 Hs) as Hs1. rewrite <- (fr_config _ _ Hf1).
  assert (tasks s1 !! sm_TaskID m = Some t) as Hid1 by (unfold tasks in *; by rewrite (fr_meta _ _ Hf1)).
  rewrite post_bind, post_on. cbn [then_]. unfold LeaseTask. fold (tasks s1). rewrite Hid1, Hq.
  change (isTerminalTaskStatus TASK_STATUS_QUEUED) with false. cbn [fst snd of_result]. rewrite post_ret. cbn [then_].
  set (leased := set_lease t TASK_STATUS_RUNNING w (u64 (tk_TaskLeaseEpoch t + 1)) now).
  assert (steady [sm_TaskID m] (set_meta (put_task (sv_meta s1) (sm_TaskID m) leased) s1)) as Hs2.
  { eapply (steady_weaken [sm_TaskID m; sm_TaskID m]); [set_solver|]. eapply steady_put; [exact Hs1|exact Hid1|by split|by right; left|exact Hnow]. }
  set (s2 := set_meta _ s1) in *. rewrite post_bind. apply post_increment. intros s3 Hf3.
  cbn [then_]. rewrite post_bind, post_schedule. cbn [then_]. rewrite post_bind, post_gets. cbn [then_]. rewrite post_ret.
  pose proof (steady_frame _ _ _ Hf3 Hs2) as Hs3. pose proof (to_id _ _ _ (in_task _ _ (st_inv _ _ Hs1) _ _ Hid1)) as Ht.
  change (sv_config s1) with (sv_config s2). rewrite <- (fr_config _ _ Hf3). split; [|done].
  change (tk_TaskID leased) with (tk_TaskID t). rewrite Ht.
  eapply steady_track; [exact Hs3| |done]. unfold tasks. rewrite (fr_meta _ _ Hf3). cbn. by rewrite lookup_insert_eq.
Qed.

(** Handlers that keep the configuration as well. *)
Definition hold (X : list string) (cf : Config) (s : Service) : Prop := steady X s ∧ sv_config s = cf.
Lemma hold_frame X cf s s' : frame s s' → hold X cf s → hold X cf s'.
Proof. intros Hf [Hs <-]. split; [by eapply steady_frame|apply (fr_config _ _ Hf)]. Qed.
Lemma hold_weaken X X' cf s : (∀ id, id ∈ X → id ∈ X') → hold X cf s → hold X' cf s.
Proof. intros Hx [Hs Hc]. split; [by eapply steady_weaken|done]. Qed.
Lemma hold_resync id X cf s t :
  hold (id :: X) cf s → tasks s !! id = Some t →
  post True (resyncSchedulerTask t (cf_redeliveryTimeout cf)) (λ r s', r = Ok () ∧ hold X cf s' ∧ sv_meta s' = sv_meta s) s.
Proof. intros [Hs <-] Ht. eapply post_mono; [by eapply steady_resync|]. intros r s' (? & ? & ? & ?). done. Qed.

Lemma hold_round w cf s :
  hold [] cf s → post True (indexed_round w (cf_redeliveryTimeout cf)) (λ _ s', hold [] cf s') s.
Proof.
  intros Hs. unfold indexed_round, assign_section. rewrite !post_bind.
  apply post_framed; [eauto with framed|]. intros [snapshot|e] s1 Hf1; [|by eapply hold_frame]. cbn [then_]. rewrite post_bind.
  apply post_now. intros t s2 _ Hf2. cbn [then_]. assert (hold [] cf s2) as [Hs2 <-] by (eapply hold_frame; [exact Hf2|by eapply hold_frame]).
  unfold post at 1. destruct (Assign _ _ _ _) as [[sc res]|] eqn:Ha; [|done]. apply steady_assign in Ha; [|done].
  cbn [then_]. destruct res as [m|]; [|by split]. destruct Ha as [Ha Hm].
  eapply post_mono; [apply (steady_lease w _ m Ha Hm)|]. intros r s3 [Hs3 Hc3]. by split.
Qed.
Lemma hold_loop fuel w cf maxTasks : ∀ acc s,
  hold [] cf s → post True (indexed_loop fuel w (cf_redeliveryTimeout cf) maxTasks acc) (λ _ s', hold [] cf s') s.
Proof.
  induction fuel as [|fuel IH]; intros acc s Hs; cbn [indexed_loop]; (case_match; [done|]); [done|].
  rewrite post_bind. eapply post_mono; [by apply hold_round|]. intros [[| |spec]|e] s' Hs'; [done| | |done]; by apply IH.
Qed.
Lemma keeps_pollTaskIndexed w maxTasks : keeps (pollTaskIndexed w maxTasks).
Proof.
  unfold pollTaskIndexed. apply moves_bind; [apply _|apply (moves_framed _ steady_kept); eauto with framed|]. intros _.
  apply keeps_intro. intros s Hs. rewrite post_bind, post_gets. cbn [then_ id].
  eapply post_mono; [by apply (hold_loop _ w (sv_config s))|]. by intros r s' [? _].
Qed.
(** ** Redelivery *)

Definition ids (l : list runningLease) : list string := rl_taskID <$> l.
Definition expiring (s : Service) (lease : runningLease) : Prop :=
  ∃ t, tasks s !! rl_taskID lease = Some t ∧ tk_Status t = TASK_STATUS_RUNNING.
Lemma expiring_meta s s' : sv_meta s' = sv_meta s → expiring s = expiring s'.
Proof. intros Em. unfold expiring, tasks. by rewrite Em. Qed.

Lemma hold_forget id X cf s :
  hold (id :: X) cf s → tasks s !! id = None → hold X cf (set_scheduler (Forget (sv_scheduler s) id) s).
Proof. intros [Hs Hc] Hn. split; [|done]. apply steady_forget; [done|]. intros t Ht. by rewrite Hn in Ht. Qed.
Lemma hold_track id X cf s t :
  hold (id :: X) cf s → tasks s !! id = Some t → tk_Status t = TASK_STATUS_RUNNING →
  hold X cf (set_scheduler (TrackRunning (sv_scheduler s) (tk_TaskID t) (schedulerLeaseDeadlineMs t (cf_redeliveryTimeout cf)) (tk_TaskLeaseEpoch t)) s).
Proof.
  intros [Hs <-] Ht Hr. split; [|done]. rewrite (to_id _ _ _ (in_task _ _ (st_inv _ _ Hs) id t Ht)). by apply steady_track.
Qed.

Lemma hold_select cf expired : ∀ valid s,
  hold (ids expired ++ ids valid) cf s → Forall (expiring s) valid →
  post True (select_expired (cf_redeliveryTimeout cf) expired valid)
    (λ r s', ∃ valid', r = Ok valid' ∧ hold (ids valid') cf s' ∧ Forall (expiring s') valid') s.
Proof.
  induction expired as [|lease expired IH]; intros valid s Hs Hv; cbn [select_expired]; [by exists valid|].
  cbn [ids fmap list_fmap app] in Hs. fold (ids expired) in Hs.
  rewrite post_bind. unfold getTask. rewrite post_gets. cbn [then_]. unfold GetTask. fold (tasks s).
  destruct (tasks s !! rl_taskID lease) as [t|] eqn:Ht; cbn [negb].
  2:{ rewrite post_bind, post_schedule. cbn [then_]. apply IH; [by apply hold_forget|exact Hv]. }
  destruct (Z.eqb_spec (tk_Status t) TASK_STATUS_RUNNING) as [Hr|Hr]; cbn [negb orb].
  2:{ rewrite post_bind. eapply post_mono; [by eapply hold_resync|]. intros r s' (-> & Hs' & Em). cbn [then_].
      apply IH; [done|]. by rewrite <- (expiring_meta _ _ Em). }
  destruct (Z.eqb_spec (tk_TaskLeaseEpoch t) (rl_leaseEpoch lease)) as [He|He]; cbn [negb].
  2:{ rewrite post_bind. eapply post_mono; [by eapply hold_resync|]. intros r s' (-> & Hs' & Em). cbn [then_].
      apply IH; [done|]. by rewrite <- (expiring_meta _ _ Em). }
  assert (clocked (tk_UpdatedAtMs t)) as Hc by (by destruct Hs as [[Hi _] _]; apply (to_clock _ _ _ (in_task _ _ Hi _ _ Ht))).
  rewrite (proj2 (Z.eqb_neq _ _)) by (unfold clocked in Hc; lia). cbn [orb]. rewrite post_bind.
  assert (∀ t' s', frame s s' → post True (if since_below t' (tk_UpdatedAtMs t) (cf_redeliveryTimeout cf)
    then _ ← schedule (λ sc, TrackRunning sc (tk_TaskID t) (schedulerLeaseDeadlineMs t (cf_redeliveryTimeout cf)) (tk_TaskLeaseEpoch t));
         select_expired (cf_redeliveryTimeout cf) expired valid
    else select_expired (cf_redeliveryTimeout cf) expired (valid ++ [lease]))
    (λ r s', ∃ valid', r = Ok valid' ∧ hold (ids valid') cf s' ∧ Forall (expiring s') valid') s') as Hrest.
  { intros t' s' Hf. apply (hold_frame _ _ _ _ Hf) in Hs. rewrite (expiring_meta s s') in Hv by apply Hf.
    assert (tasks s' !! rl_taskID lease = Some t) as Ht' by (unfold tasks in *; by rewrite (fr_meta _ _ Hf)).
    destruct (since_below _ _ _).
    - rewrite post_bind, post_schedule. cbn [then_]. apply IH; [by eapply hold_track|exact Hv].
    - apply IH; [|apply Forall_app; split; [done|]; constructor; [by exists t|constructor]].
      eapply hold_weaken; [|exact Hs]. unfold ids. intros x. rewrite fmap_app. set_solver. }
  apply post_ticked. intros t' s' Hf. cbn [then_]. by apply Hrest.
Qed.

(** Logging the redelivery of a lease. *)
Lemma hold_redelivered X cf task s :
  hold X cf s → post True (appendTaskRedelivered task) (λ _ s', hold X cf s' ∧ sv_meta s' = sv_meta s) s.
Proof.
  intros Hs. unfold appendTaskRedelivered. rewrite post_bind. apply post_now. intros t s1 _ Hf1. cbn [then_]. rewrite post_bind.
  apply post_ticked. intros text s2 Hf2. cbn [then_]. assert (frame s s2) as Hf by (by etrans).
  destruct (hold_frame _ _ _ _ Hf Hs) as [[Hi Ht] Hc]. rewrite post_bind.
  eapply post_mono; [apply (append_frame X _ _ Hi); intros ? _ Hev; discriminate Hev|]. intros r s3 (Hi3 & Em & Ec & _).
  assert (hold X cf s3 ∧ sv_meta s3 = sv_meta s) as Hs3 by (split; [split; [split; [done|by rewrite Ec]|by rewrite Ec]|by rewrite Em, (fr_meta _ _ Hf)]).
  by destruct r.
Qed.
Lemma hold_track_again cf l : ∀ s,
  hold (ids l) cf s → Forall (expiring s) l →
  post True (track_again (cf_redeliveryTimeout cf) l) (λ r s', r = Ok () ∧ hold [] cf s') s.
Proof.
  unfold track_again. induction l as [|lease l IH]; intros s Hs Hl; cbn [for_each]; [by split|].
  apply Forall_cons in Hl as [(t & Ht & Hr) Hl]. rewrite post_bind. unfold getTask at 1. rewrite post_bind, post_gets. cbn [then_].
  unfold GetTask. fold (tasks s). rewrite Ht, Hr. rewrite Z.eqb_refl. cbn [andb]. rewrite post_schedule. cbn [then_].
  apply IH; [by eapply hold_track|exact Hl].
Qed.
Lemma hold_log cf valid rest : ∀ s,
  hold (ids valid) cf s → Forall (expiring s) valid → (∀ l, l ∈ rest → l ∈ valid) →
  post True (log_expired (cf_redeliveryTimeout cf) valid rest) (λ r s', match r with Ok _ => hold (ids valid) cf s' | Err _ => hold [] cf s' end) s.
Proof.
  induction rest as [|lease rest IH]; intros s Hs Hv Hin; cbn [log_expired]; [done|].
  rewrite post_bind. unfold getTask. rewrite post_gets. cbn [then_]. unfold GetTask. fold (tasks s).
  destruct (proj1 (Forall_forall _ _) Hv lease ltac:(apply Hin; left)) as (t & Ht & Hr). rewrite Ht. cbn [negb].
  rewrite post_bind, post_try. eapply post_mono; [by apply hold_redelivered|]. intros r s' [Hs' Em]. cbn [then_].
  rewrite (expiring_meta s s') in Hv by done. destruct r as [[]|e].
  - apply IH; [done..|]. intros l Hl. apply Hin. by right.
  - rewrite post_bind. eapply post_mono; [by apply hold_track_again|]. intros r2 s2 [-> Hs2]. exact Hs2.
Qed.
Lemma hold_requeue X cf lease s :
  hold (rl_taskID lease :: X) cf s →
  post True (requeue_lease (cf_redeliveryTimeout cf) lease) (λ r s', r = Ok () ∧ hold X cf s') s.
Proof.
  intros Hs. unfold requeue_lease. rewrite post_bind. apply post_now. intros now s1 Hnow Hf. cbn [then_].
  apply (hold_frame _ _ _ _ Hf) in Hs. clear Hf. rewrite post_bind, post_on. cbn [then_].
  assert (∀ t, hold (rl_taskID lease :: X) cf (set_meta (sv_meta s1) s1) → post True
    (if negb false then '(current, ok) ← getTask (rl_taskID lease);
       if ok : bool then resyncSchedulerTask current (cf_redeliveryTimeout cf) else schedule (λ sc, Forget sc (rl_taskID lease))
     else t) (λ r s', r = Ok () ∧ hold X cf s') (set_meta (sv_meta s1) s1)) as Hkept.
  { intros t Hs'. cbn [negb]. rewrite post_bind. unfold getTask. rewrite post_gets. cbn [then_]. unfold GetTask.
    set (s2 := set_meta _ _) in *. fold (tasks s2). destruct (tasks s2 !! rl_taskID lease) as [task|] eqn:Ht.
    - eapply post_mono; [by eapply hold_resync|]. naive_solver.
    - rewrite post_schedule. split; [done|]. by apply hold_forget. }
  assert (hold (rl_taskID lease :: X) cf (set_meta (sv_meta s1) s1)) as Hs1 by (eapply hold_frame; [|exact Hs]; by split).
  unfold RequeueTaskIfLeaseExpired. destruct (_ || _); [cbn [fst snd]; by apply Hkept|]. fold (tasks s1).
  destruct (tasks s1 !! rl_taskID lease) as [t|] eqn:Ht; [|cbn [fst snd]; by apply Hkept]. destruct (_ || _); [cbn [fst snd]; by apply Hkept|].
  destruct (_ <? _); [cbn [fst snd]; by apply Hkept|]. clear Hkept Hs1. cbn [fst snd negb]. rewrite post_bind, post_schedule. cbn [then_].
  destruct Hs as [Hs <-]. pose proof (in_task _ _ (st_inv _ _ Hs) _ _ Ht) as [Hid Hk _ _].
  assert (steady X (set_scheduler (Enqueue (sv_scheduler s1) (schedulerMetaFromTask (requeued_copy t now)))
    (set_meta (put_task (sv_meta s1) (rl_taskID lease) (requeued_task t now)) s1))) as Hs2.
  { eapply (steady_requeue (rl_taskID lease) X (set_meta (put_task (sv_meta s1) (rl_taskID lease) (requeued_task t now)) s1) (requeued_task t now)).
    - eapply (steady_weaken (rl_taskID lease :: rl_taskID lease :: X)); [set_solver|].
      eapply steady_put; [exact Hs|exact Ht|by split|by left|exact Hnow].
    - cbn. apply lookup_insert_eq.
    - done.
    - exact Hid.
    - done. }
  case_match; [by split|]. apply post_decrement. intros s' Hf. split; [done|]. eapply hold_frame; [exact Hf|]. by split.
Qed.
Lemma hold_requeues cf l : ∀ s,
  hold (ids l) cf s → post True (for_each l (requeue_lease (cf_redeliveryTimeout cf))) (λ _ s', hold [] cf s') s.
Proof.
  induction l as [|lease l IH]; intros s Hs; cbn [for_each]; [done|]. rewrite post_bind.
  eapply post_mono; [by eapply hold_requeue|]. intros r s' [-> Hs']. cbn [then_]. by apply IH.
Qed.
Lemma hold_pop cf s nowMs :
  hold [] cf s → hold (ids (PopExpiredRunning (sv_scheduler s) nowMs).2) cf (set_scheduler (PopExpiredRunning (sv_scheduler s) nowMs).1 s).
Proof.
  intros [[Hi Ht] Hc]. split; [split; [|done]|done]. pose proof (in_sched _ _ Hi) as Hsc.
  pose proof (PopExpired_ok _ _ nowMs Hsc) as Hok. unfold PopExpiredRunning in *. cbn [sched_core with_placement sc_runningLeases sc_deadlines] in Hok.
  pose proof (pop_expired_spec nowMs _ _ (so_leases _ _ Hsc) (so_deadlines _ _ Hsc)) as Hp.
  cbn [sched_core with_placement sc_runningLeases sc_deadlines] in Hp.
  destruct (pop_expired _ _ _) as [[leases deadlines] expired]. cbn [fst snd] in *. destruct Hp as (Hl & _ & _ & _ & _ & _ & Hiff).
  eapply (inv_sched [] (ids expired)); [exact Hi|exact Hok| |by intros ? ?%elem_of_nil|intros; left; split; [done|apply not_elem_of_nil]].
  split; cbn [with_leases sc_queued sc_runningLeases].
  - intros id [Hm|[r Hr]]; left; [by left|right; exists r; by destruct r].
  - done.
  - intros id Hn [l Hid]. rewrite Hl, Hid. apply map_lookup_filter_Some. split; [done|]. cbn. destruct (Z.le_gt_cases (rl_deadlineMs l) nowMs); [|lia].
    destruct (so_leases _ _ Hsc id l Hid) as [Hlid _]. destruct Hn. unfold ids. apply list_elem_of_fmap. exists l. split; [done|].
    apply Hiff. by rewrite Hlid.
Qed.
Lemma keeps_redeliver : keeps redeliverExpiredTasksIndexed.
Proof.
  apply keeps_intro. intros s Hs. unfold redeliverExpiredTasksIndexed. rewrite post_bind, post_gets. cbn [then_].
  case_match; [done|]. rewrite post_bind. apply post_now. intros t s1 _ Hf. cbn [then_]. assert (hold [] (sv_config s) s1) as Hs1 by (by eapply hold_frame).
  rewrite post_bind. unfold locked. unfold post at 1. pose proof (hold_pop _ _ t Hs1) as Hpop.
  destruct (PopExpiredRunning (sv_scheduler s1) t) as [sc expired]. cbn [fst snd then_] in *.
  rewrite post_bind. eapply post_mono; [apply (hold_select _ expired []); [by rewrite app_nil_r|constructor]|].
  intros r s2 (valid & -> & Hs2 & Hv). cbn [then_]. rewrite post_bind. eapply post_mono; [by apply hold_log|].
  intros [[]|e] s3 Hs3; cbn [then_]; [|apply Hs3]. eapply post_mono; [by apply hold_requeues|]. by intros r s4 [? _].
Qed.
#[local] Hint Resolve keeps_redeliver keeps_pollTaskIndexed : moves.
Lemma keeps_v2 {A} (m m' : M A) : keeps m → keeps (v2 ← useSchedulerV2; if v2 : bool then m else m').
Proof.
  intros Hm. apply keeps_intro. intros s Hs. unfold useSchedulerV2. rewrite post_bind, post_gets. cbn [then_].
  rewrite (in_v2 _ _ (st_inv _ _ Hs)). by apply keeps_elim.
Qed.
Lemma keeps_pollTaskNow w maxTasks : keeps (pollTaskNow w maxTasks).
Proof.
  unfold pollTaskNow. apply moves_bind; [apply _|apply keeps_v2, keeps_redeliver|]. intros _.
  apply keeps_intro. intros s Hs. unfold useSchedulerV2. rewrite post_bind, post_gets. cbn [then_].
  rewrite (in_v2 _ _ (st_inv _ _ Hs)). apply carry_done; [intros; framed|]. apply keeps_elim; [apply keeps_pollTaskIndexed|done].
Qed.

(** ** Start and completion *)

Lemma keeps_append req : (∀ s, submission_ok s req) → keeps (appendLog req).
Proof.
  intros Hr. apply keeps_intro. intros s [Hi Ht]. eapply post_mono; [by apply append_frame|]. intros r s' (? & _ & Ec & _).
  split; [done|]. by rewrite Ec.
Qed.
#[local] Hint Extern 2 (moves _ (appendLog _)) => 
  apply keeps_append; intros ? ? _ Hev; cbn in Hev; unfold terminal_event in Hev; repeat case_match; discriminate Hev : moves.
Lemma keeps_terminal task status data err : keeps (appendTaskTerminal task status data err).
Proof. unfold appendTaskTerminal. moves steady_kept. Qed.
Lemma keeps_StartTask id w epoch : keeps (StartTask id w epoch).
Proof. unfold StartTask, validateTaskLease, appendTaskStarted. moves steady_kept. Qed.
#[local] Hint Resolve keeps_terminal : moves.

Lemma steady_done id s :
  steady [] s → (∀ t, tasks s !! id = Some t → isTerminalTaskStatus (tk_Status t) = true) →
  steady [] (set_scheduler (CompleteRunning (sv_scheduler s) id) s).
Proof. intros Hs Ht. apply steady_forget; [|done]. eapply steady_weaken; [|exact Hs]. set_solver. Qed.
Lemma steady_settle req existing ok s :
  steady [] s → isTerminalTaskStatus (cr_Status req) = true → post True (settle_task req existing ok) (λ _ s', steady [] s') s.
Proof.
  intros Hs Hst. unfold settle_task. rewrite post_bind. apply post_now. intros now s1 Hnow Hf1. cbn [then_].
  apply (steady_frame _ _ _ Hf1) in Hs. clear Hf1. rewrite post_bind, post_on. cbn [then_].
  assert (∀ ms (task : Task), steady [] (set_meta ms s1) → (∀ t, ms_tasks ms !! cr_TaskId req = Some t → isTerminalTaskStatus (tk_Status t) = true) →
    post True ((_ ← (if ok && (tk_Status existing =? TASK_STATUS_RUNNING) then decrementWorkerLoad (cr_WorkerId req) else mret ());
      _ ← completeSchedulerRunning (cr_TaskId req); _ ← updateSchedulerWorker (cr_WorkerId req); mret task) : M Task) (λ _ s', steady [] s') (set_meta ms s1)) as Hrest.
  { intros ms task Hm Ht. rewrite post_bind. apply post_framed; [case_match; framed|]. intros [[]|e] s2 Hf2; [|by eapply steady_frame].
    cbn [then_]. unfold completeSchedulerRunning. rewrite post_bind, post_schedule. cbn [then_]. apply post_framed; [framed|].
    intros r s3 Hf3. eapply steady_frame; [exact Hf3|]. apply steady_done; [by eapply steady_frame|].
    unfold tasks. by rewrite (fr_meta _ _ Hf2). }
  assert (steady [] (set_meta (sv_meta s1) s1)) as Hs1 by (eapply steady_frame; [|exact Hs]; by split).
  unfold MetaStore.CompleteTask. fold (tasks s1). destruct (tasks s1 !! cr_TaskId req) as [t|] eqn:Ht; cbn [fst snd]; [|by rewrite post_bind, post_of_result].
  destruct (isTerminalTaskStatus (tk_Status t)) eqn:Hterm; cbn [fst snd].
  { rewrite post_bind, post_of_result. cbn [then_]. apply Hrest; [done|]. fold (tasks s1). rewrite Ht. by intros ? [= <-]. }
  destruct (lease_held _ _ _); cbn [fst snd]; [|by rewrite post_bind, post_of_result].
  rewrite post_bind, post_of_result. cbn [then_]. apply Hrest; [|cbn; rewrite lookup_insert_eq; by intros ? [= <-]].
  destruct Hs as [Hi Hto]. split; [|done]. eapply inv_release.
  - eapply inv_put; [exact Hi|exact Ht|by split| |exact Hnow]. cbn. unfold isTerminalTaskStatus in Hst.
    apply orb_true_iff in Hst as [Hst%Z.eqb_eq|Hst%Z.eqb_eq]; rewrite Hst; unfold live_status; auto.
  - cbn. rewrite lookup_insert_eq. intros ? [= <-]. by apply settled_held.
Qed.
Lemma keeps_settle req existing ok : isTerminalTaskStatus (cr_Status req) = true → keeps (settle_task req existing ok).
Proof. intros Hst. apply keeps_intro. intros s Hs. by apply steady_settle. Qed.
#[local] Hint Extern 2 (moves _ (settle_task _ _ _)) => apply keeps_settle; assumption : moves.
#[local] Hint Resolve keeps_StartTask : moves.

Lemma keeps_CompleteTask req : keeps (ControlService.CompleteTask req).
Proof.
  unfold ControlService.CompleteTask. destruct (isTerminalTaskStatus (cr_Status req)) eqn:Hst.
  2:{ unfold isTerminalTaskStatus in Hst. apply orb_false_iff in Hst as [-> ->]. moves steady_kept. }
  case_match; [moves steady_kept|].
  assert (∀ existing ok, keeps (validated ← validateTaskLease (cr_TaskId req) (cr_WorkerId req) (cr_TaskLeaseEpoch req);
      if negb (str_empty (tk_ActorID validated)) then
        _ ← completeActorCall validated req;
        _ ← appendTaskTerminal validated (cr_Status req) (cr_ResultJson req) (cr_Error req);
        _ ← settle_task req existing ok;
        mret ()
      else
        _ ← appendTaskTerminal validated (cr_Status req) (cr_ResultJson req) (cr_Error req);
        task ← settle_task req existing ok;
        _ ← (if negb (str_empty (tk_LLMModelName task)) && (cr_Status req =? TASK_STATUS_SUCCEEDED)
                && negb (ok && isTerminalTaskStatus (tk_Status existing))
             then _ ← try (materializeLLMTaskCompletion (tk_TaskID task)); mret () else mret ());
        if str_empty (tk_WorkflowID task) then mret ()
        else
          shouldSchedule ← completeWorkflowStep task (cr_Status req) (cr_ResultJson req) (cr_Error req);
          if shouldSchedule : bool then scheduleReadySteps (tk_WorkflowID task) else mret ())) as Hrest.
  { intros existing ok. unfold validateTaskLease. moves steady_kept. }
  apply keeps_intro. intros s Hs. rewrite post_bind. unfold getTask. rewrite post_gets. cbn [then_].
  destruct (GetTask (sv_meta s) (cr_TaskId req)) as [existing ok] eqn:Hget.
  destruct (ok && isTerminalTaskStatus (tk_Status existing)) eqn:Hterm; [|by apply keeps_elim; [rewrite <- Hterm; apply Hrest|]].
  apply andb_prop in Hterm as [-> Hterm]. unfold completeSchedulerRunning. rewrite post_schedule. apply steady_done; [done|].
  unfold GetTask in Hget. fold (tasks s) in Hget. intros t Ht. rewrite Ht in Hget. by injection Hget as <-.
Qed.
#[local] Hint Resolve keeps_CompleteTask : moves.
Lemma keeps_complete_all reqs : ∀ accepted results, keeps (complete_all reqs accepted results).
Proof. induction reqs as [|[req|] reqs IH]; intros accepted results; cbn [complete_all]; moves steady_kept. Qed.
(** ** Restart *)

(** What the first parts of a restart leave alone. *)
Record idle_step (s s' : Service) : Prop := {
  is_meta : sv_meta s' = sv_meta s; is_specs : sv_specs s' = sv_specs s;
  is_sched : sched_core (sv_scheduler s') = sched_core (sv_scheduler s);
  is_log : sv_log s' = sv_log s; is_trims : sv_trims s' = sv_trims s; is_v2 : cf_schedulerV2 (sv_config s') = cf_schedulerV2 (sv_config s);
  is_tick : (sv_tick s ≤ sv_tick s')%nat
}.
#[export] Instance idle_preorder : PreOrder idle_step.
Proof. split; [by split|]. intros s1 s2 s3 [] []. split; first [congruence|lia]. Qed.
Lemma inv_idle X s s' : idle_step s s' → inv X s → inv X s'.
Proof.
  intros [Em Es Esc El _ Ev Et] Hi. destruct (core_parts _ _ Esc) as [Hm' Hh']. destruct Hi as [Hv Htk Hsp Hsc Hmn Hh Hl].
  split; unfold tasks in *; rewrite ?Em, ?Es, ?Esc, ?El, ?Ev; try done.
  - intros id t Ht. destruct (Htk id t Ht) as [? Hk ? ?]. split; [done|by eapply known_tick|done..].
  - intros id Hx. by apply Hmn, Hm'.
  - intros id t Ht Hn. by apply Hh', (Hh id).
  - intros id r Hr Hev. destruct (Hl id r Hr Hev) as (spec & ? & ? & Hk). exists spec. split_and!; [done|done|by eapply known_tick].
Qed.
Lemma idle_ticked {A} (f : nat → A) : moves idle_step (ticked f).
Proof. intros s. split; cbn; try done. lia. Qed.
Lemma idle_gets {A} (f : Service → A) : moves idle_step (gets f).
Proof. by intros s. Qed.
Lemma idle_throw {A} e : moves idle_step (throw (A:=A) e).
Proof. by intros s. Qed.
Lemma idle_ret {A} (a : A) : moves idle_step (mret a).
Proof. by intros s. Qed.
Lemma idle_modify f : (∀ s, idle_step s (f s)) → moves idle_step (modify f).
Proof. intros Hf s. apply Hf. Qed.
Lemma idle_updateWorker w : moves idle_step (updateSchedulerWorker w).
Proof.
  unfold updateSchedulerWorker, getWorker. intros s. case_match; [done|]. rewrite post_bind, post_gets. cbn [then_].
  destruct (WorkerStore.Legacy.GetWorker _ _) as [worker [|]]; [|done]. rewrite post_schedule. by split.
Qed.
#[local] Hint Resolve idle_ticked idle_gets idle_throw idle_ret idle_updateWorker : moves.
#[local] Hint Extern 2 (moves idle_step (modify _)) => apply idle_modify; intros; split; reflexivity : moves.
Lemma idle_models : moves idle_step bootstrapModels.
Proof. unfold bootstrapModels, system_events, forEachRawLogRecord. moves I. Qed.
Lemma idle_workers : moves idle_step bootstrapWorkers.
Proof. unfold bootstrapWorkers, system_events, forEachRawLogRecord, now. moves I. Qed.
Lemma idle_scheduler : moves idle_step bootstrapScheduler.
Proof. unfold bootstrapScheduler, replay_events, forEachRawLogRecord. moves I. Qed.
Lemma idle_backpressure : moves idle_step bootstrapBackpressure.
Proof. unfold bootstrapBackpressure, replay_events, forEachRawLogRecord. moves I. Qed.
Lemma idle_functions : moves idle_step bootstrapFunctions.
Proof. unfold bootstrapFunctions, forEachRawLogRecord. moves I. Qed.
(** A replayed task was submitted in its stream. *)
Definition replayed (seen : list RawRecord) (rs : taskReplayState) : Prop :=
  live_status (rs_status rs) ∧
  (rs_ok rs = true → ∃ r spec, r ∈ seen ∧ event_of r = EvSubmitted ∧ unmarshalTaskSubmittedSpec (raw_Payload r) = Ok spec ∧
    tk_TaskID (rs_task rs) = ts_TaskId spec).
Lemma replayed_step seen rs rec rs' : applyRaw rs rec = Ok rs' → replayed seen rs → replayed (seen ++ [rec]) rs'.
Proof.
  intros Ha [Hst Hok]. assert (rs_ok rs = true → ∃ r spec, r ∈ seen ++ [rec] ∧ event_of r = EvSubmitted ∧
    unmarshalTaskSubmittedSpec (raw_Payload r) = Ok spec ∧ tk_TaskID (rs_task rs) = ts_TaskId spec) as Hok'.
  { intros (r & spec & Hin & Hr)%Hok. exists r, spec. split; [apply elem_of_app; by left|done]. }
  rewrite applyRaw_event in Ha. destruct (event_of rec) as [| | |status|] eqn:Hev.
  - unfold apply_submitted in Ha. apply result_bind_ok in Ha as (spec & Hspec & Ha).
    destruct (str_empty (ts_TaskId spec)); [injection Ha as <-; by split|]. destruct (taskSpecFingerprint spec); [|done]. injection Ha as <-.
    split; [by left|]. intros _. exists rec, spec. split_and!; [apply elem_of_app; right; by left|done..].
  - injection Ha as <-. unfold apply_started. repeat (case_match; [try by split|]); try (by split); (split; [right; by left|exact Hok']).
  - injection Ha as <-. unfold apply_redelivered. case_match; [by split|]. case_match; (split; [|exact Hok']); [by left|done].
  - injection Ha as <-. unfold apply_terminal. case_match; [|by split]. split; [|exact Hok'].
    revert Hev. unfold event_of. unfold live_status. repeat case_decide; try done; intros [= <-]; cbn; auto.
  - injection Ha as <-. by split.
Qed.
Lemma replayed_all records : ∀ seen rs rs', apply_all rs records = Ok rs' → replayed seen rs → replayed (seen ++ records) rs'.
Proof.
  induction records as [|rec records IH]; intros seen rs rs'; cbn [apply_all]; [intros [= <-]; by rewrite app_nil_r|].
  intros (rs1 & Hr1 & Hr)%result_bind_ok Hp. replace (seen ++ rec :: records) with ((seen ++ [rec]) ++ records) by (by rewrite <- app_assoc).
  eapply IH; [exact Hr|]. by eapply replayed_step.
Qed.
Lemma replay_task records rs :
  replayTaskMetadataRawEach (Some {| ti_records := records; ti_fails := false |}) None = Ok rs → replayed records rs.
Proof.
  unfold replayTaskMetadataRawEach. cbn [ti_records ti_fails]. intros (rs' & Hr & [= <-])%result_bind_ok.
  by eapply (replayed_all records [] initial_replay rs' Hr); split; [left|].
Qed.

(** The restored state so far: the records come from the streams in [done]. *)
Record booting (log : list RawRecord) (done : list string) (s : Service) : Prop := {
  bo_inv : inv [] s;
  bo_log : sv_log s = log;
  bo_done : ∀ id, is_Some (tasks s !! id) → taskStream id ∈ done
}.
Lemma booting_idle log done s s' : idle_step s s' → booting log done s → booting log done s'.
Proof.
  intros Hid [Hi Hl Hd]. split; [by eapply inv_idle|by rewrite (is_log _ _ Hid)|].
  unfold tasks. by rewrite (is_meta _ _ Hid).
Qed.
Lemma booting_queue log done id t s :
  booting log done s → tasks s !! id = Some t → post True (restore_queue t (tk_TaskID t)) (λ r s', r = Ok () ∧ booting log done s') s.
Proof.
  intros [Hi Hl Hd] Ht. unfold restore_queue, useSchedulerV2. rewrite post_bind, post_gets. cbn [then_]. rewrite (in_v2 _ _ Hi), post_schedule.
  split; [done|]. split; [|done..]. eapply inv_enqueue_again; [exact Hi|exact Ht|exact (to_id _ _ _ (in_task _ _ Hi id t Ht))|done].
Qed.
Lemma booting_more log done st s : booting log done s → booting log (st :: done) s.
Proof. intros [Hi Hl Hd]. split; [done|done|]. intros id Hid. right. by apply Hd. Qed.
Lemma booting_restore log done task sp s :
  booting log done s → known_id s (tk_TaskID task) → taskStream (tk_TaskID task) ∉ done →
  (tk_Status task = TASK_STATUS_QUEUED ∨ isTerminalTaskStatus (tk_Status task) = true) → live_status (tk_Status task) →
  post True (t ← now;
      '(created, _) ← on sv_meta set_meta (λ m, CreateTask m task (tk_IdempotencyKey task) t);
      _ ← modify (λ s, set_specs (<[tk_TaskID task := sp]> (sv_specs s)) s);
      if (tk_Status created =? TASK_STATUS_QUEUED) || (tk_Status created =? TASK_STATUS_RUNNING)
      then restore_queue created (tk_TaskID created) else mret ())
    (λ r s', r = Ok () ∧ booting log (taskStream (tk_TaskID task) :: done) s') s.
Proof.
  intros Hb Hk Hn Hq Hst. rewrite post_bind. unfold now, ticked, post at 1. cbn [then_].
  set (s1 := set_tick _ s). assert (idle_step s s1) as Hid by (split; cbn; try done; lia).
  apply (booting_idle _ _ _ _ Hid) in Hb. assert (known_id s1 (tk_TaskID task)) as Hk1 by (eapply known_tick; [apply (is_tick _ _ Hid)|done]).
  assert (clocked (env_nanos (sv_tick s) / 1000000)) as Hc by apply clock_range. revert Hc. generalize (env_nanos (sv_tick s) / 1000000).
  intros t Hc. clearbody s1. clear s Hid Hk.
  pose proof Hb as [Hi Hl Hd]. rewrite post_bind, post_on. cbn [then_]. destruct (CreateTask _ _ _ _) as [ms [created dup]] eqn:Hcreate. cbn [fst snd].
  rewrite post_bind, post_modify. cbn [then_]. unfold CreateTask in Hcreate. destruct (if str_empty _ then None else _) as [id'|].
  - injection Hcreate as <- <- _. fold (tasks s1). unfold task_or_zero. set (s2 := set_specs _ _).
    assert (booting log (taskStream (tk_TaskID task) :: done) s2) as Hb2.
    { apply booting_more. split; [|done|exact Hd]. apply inv_specs. eapply inv_idle; [|exact Hi]. by split. }
    destruct (tasks s1 !! id') as [t'|] eqn:Ht'; cbn [default]; [|by split]. case_match; [|by split]. by eapply booting_queue.
  - injection Hcreate as <- <- _. set (t' := set_created _ _ _). cbn [set_meta sv_specs].
    assert (tasks s1 !! tk_TaskID task = None) as Hnone.
    { destruct (tasks s1 !! tk_TaskID task) eqn:Hx; [|done]. destruct Hn. apply Hd. by rewrite Hx. }
    match goal with |- post _ _ _ ?s2 => set (s3 := s2); assert (inv [tk_TaskID t'] s3) as Hi3 end.
    { eapply (inv_new [] s1 t'); [exact Hi|by split|by eapply known_nonempty|exact Hst|exact Hc|reflexivity]. }
    assert (tasks s3 !! tk_TaskID t' = Some t') as Ht3 by (cbn; apply lookup_insert_eq).
    assert (∀ id, is_Some (tasks s3 !! id) → taskStream id ∈ taskStream (tk_TaskID task) :: done) as Hd3.
    { intros id. cbn. destruct (decide (tk_TaskID t' = id)) as [<-|]; [by left|]. rewrite lookup_insert_ne by done. right. by apply Hd. }
    destruct Hq as [Hq|Hq].
    + rewrite (proj2 (Z.eqb_eq (tk_Status t') _) Hq). cbn [orb]. unfold restore_queue, useSchedulerV2. rewrite post_bind, post_gets. cbn [then_].
      rewrite (in_v2 _ _ Hi3), post_schedule. split; [done|]. split; [|exact Hl|exact Hd3].
      eapply inv_enqueue; [exact Hi3|exact Ht3|by eapply known_nonempty|done..].
    + unfold isTerminalTaskStatus in Hq. assert ((tk_Status t' =? TASK_STATUS_QUEUED) || (tk_Status t' =? TASK_STATUS_RUNNING) = false) as ->.
      { apply orb_true_iff in Hq as [Hq%Z.eqb_eq|Hq%Z.eqb_eq]; change (tk_Status t') with (tk_Status task); by rewrite Hq. }
      split; [done|]. split; [|exact Hl|exact Hd3]. eapply inv_release; [exact Hi3|]. rewrite Ht3. intros ? [= <-]. by apply settled_held.
Qed.

Lemma booting_stream log done st s records state :
  booting log done s → st ∉ done → has_prefix "task:" st = true → (∀ r, r ∈ records → r ∈ stream log st) →
  replayTaskMetadataRawEach (Some {| ti_records := records; ti_fails := false |}) None = Ok state →
  post True (restoreTaskReplayState state) (λ r s', r = Ok () ∧ booting log (st :: done) s') s.
Proof.
  intros Hb Hn Hp Hrec [Hst Hok]%replay_task. unfold restoreTaskReplayState. destruct (rs_ok state); [|by split; [|apply booting_more]].
  destruct (rs_spec state) as [sp|] eqn:Hsp; [|by split; [|apply booting_more]].
  destruct (Hok eq_refl) as (r & spec & Hin & Hev & Hspec & Hid). destruct (prefix_app _ _ Hp) as [id ->].
  pose proof (bo_inv _ _ _ Hb) as Hi. pose proof (bo_log _ _ _ Hb) as Hlog. apply Hrec in Hin. rewrite <- Hlog in Hin.
  destruct (in_log _ _ Hi id r Hin Hev) as (spec' & Hspec' & Hid' & Hk). rewrite Hspec in Hspec'. injection Hspec' as <-.
  assert (tk_TaskID (finalTask state) = id) as Hfid by (unfold finalTask; case_match; cbn; congruence).
  unfold final_spec. rewrite Hsp. cbn [fmap option_fmap option_map].
  change ("task:" +:+ id) with (taskStream id) in *. rewrite <- Hfid in Hn, Hk |- *. apply booting_restore; [done..| |]; unfold finalTask;
    destruct (Z.eqb_spec (rs_status state) TASK_STATUS_RUNNING) as [Hr|Hr]; cbn; [by left| |by left|done].
  destruct Hst as [|[|[-> | ->]]]; auto; congruence.
Qed.
Lemma booting_tasks log l : ∀ done s,
  booting log done s → NoDup l → (∀ st, st ∈ l → (st ∉ done) ∧ has_prefix "task:" st = true) →
  post True (for_each l (λ streamID,
    records ← forEachRawLogRecord streamID 1;
    state ← of_result (λ _, ErrSvcReplay) (replayTaskMetadataRawEach (Some {| ti_records := records; ti_fails := false |}) None);
    restoreTaskReplayState state)) (λ _ s', inv [] s' ∧ sv_log s' = log) s.
Proof.
  induction l as [|st l IH]; intros done s Hb Hnd Hl; cbn [for_each]; [by destruct Hb|].
  apply NoDup_cons in Hnd as [Hst Hnd]. destruct (Hl st ltac:(by left)) as [Hn Hp].
  rewrite 2!post_bind. unfold forEachRawLogRecord at 1. rewrite post_gets. cbn [then_]. rewrite post_bind, post_of_result.
  destruct (replayTaskMetadataRawEach _ _) as [state|] eqn:Hr; cbn [then_]; [|by destruct Hb].
  eapply post_mono; [eapply booting_stream; [exact Hb|exact Hn|exact Hp| |exact Hr]|].
  { intros r. unfold read_stream. rewrite <- (bo_log _ _ _ Hb). by intros [_ ?]%list_elem_of_filter. }
  intros r s' [-> Hb']. cbn [then_]. eapply IH; [exact Hb'|done|]. intros x Hx. destruct (Hl x ltac:(by right)) as [Hnx Hpx]. split; [|done].
  intros [->|?]%elem_of_cons; done.
Qed.
End Steps.
