(* ===== verification/RestartHeld.v ===== *)
(** A restart puts every task back in the scheduler's hands: the tasks of the log, one stream
    after the other, then the workflows, whose steps in flight find their tasks among them. *)
From S2P Require Import Prelude Bytes LogRecord EventCodec TaskSpec MetaStore TaskReplay TaskReplaySpec Placement Scheduler WorkerStore WorkflowDef WorkflowState WorkflowReplay WorkflowJSON Actor MetaDomains WorkflowArgs ServiceState ControlTasks ControlDispatch ControlActors ControlWorkflows ControlService ControlAdmin Checkpoint Trees CheckpointTails ServiceDemo ServiceLogic TasksHeld TasksHeldSteps.

Open Scope Z_scope.

Section Restart.
Context `{EnvLaws} `{MsgpackLib, TaskCodecLib, FingerprintLib, RegistryJSON, ActorJSON, ArgsLib, ControlJSON, DefinitionJSON, WorkflowEventJSON, SystemJSON, AdminJSON, LogStats} `{!StateJSON, !CheckpointJSON}.

(** ** The log a restart starts from *)

(** What [restoreWorkflowTasks] looks at: a step whose task is scheduled or started. *)
Definition in_flight (step : StepState) : bool :=
  negb (str_empty (ssTaskID step)) &&
  (bool_decide (ssStatus step = WORKFLOW_STEP_STATUS_SCHEDULED) || bool_decide (ssStatus step = WORKFLOW_STEP_STATUS_STARTED)).
(** A task's stream has a task with this idempotency key. *)
Definition holds_key (records : list RawRecord) (key : string) : bool :=
  match replayTaskMetadataRawEach (Some {| ti_records := records; ti_fails := false |}) None with
  | Ok rs => rs_ok rs && bool_decide (is_Some (rs_spec rs)) && bool_decide (tk_IdempotencyKey (finalTask rs) = key)
  | Err _ => false
  end.
Definition key_logged (s : Service) (key : string) : bool :=
  existsb (λ st, has_prefix "task:" st && holds_key (read_stream s st 1) key) (stream_ids (sv_log s)).
(** A step in flight has its arguments, and its task is in the log under the key of the attempt. *)
Definition step_logged (s : Service) (state : WorkflowState) (stepDef : StepDefinition) : bool :=
  match Step state (sdStepID stepDef) with
  | None => true
  | Some step =>
      negb (in_flight step) ||
      negb (str_empty (ssLastInputHash step)) && negb (bool_decide (ssResolvedArgsJSON step = [])) &&
      key_logged s (attempt_key (wsWorkflowID state) (sdStepID stepDef) (ssLastInputHash step) (if ssAttempts step =? 0 then 1 else ssAttempts step))
  end.
Definition workflow_logged (s : Service) (streamID : string) : bool :=
  match WorkflowReplay.ReplayRawEach (drop_prefix 3 streamID)
          (Some {| WorkflowReplay.it_records := read_stream s streamID 1; WorkflowReplay.it_fails := false |}) with
  | Err _ => true
  | Ok state =>
      let state := prepareRetryableFailedSteps state in
      negb (bool_decide (wsStatus state = WORKFLOW_STATUS_RUNNING)) || forallb (step_logged s state) (dfSteps (wsDefinition state))
  end.
(** No metadata checkpoint, and each step in flight after its task, as [scheduleReadySteps] logs them. *)
Definition restartable (s : Service) : bool :=
  forallb (λ st, negb (bool_decide (st = metadataCheckpointStream)) && (negb (has_prefix "wf:" st) || workflow_logged s st))
    (stream_ids (sv_log s)).

(** ** What the parts of a restart leave alone *)

Definition has_key (s : Service) (key : string) : Prop := is_Some (ms_taskByIdemKey (sv_meta s) !! key).
Record apart (P : string → Prop) (s s' : Service) : Prop := {
  ap_config : sv_config s' = sv_config s;
  ap_trims : sv_trims s' = sv_trims s;
  ap_keys : ∀ key, has_key s key → has_key s' key;
  ap_streams : ∀ st, P st → stream (sv_log s') st = stream (sv_log s) st
}.
#[export] Instance apart_preorder P : PreOrder (apart P).
Proof.
  split; [by intros s; split|]. intros s1 s2 s3 [] []. split; [congruence|congruence|auto|]. intros st Hst. rewrite <- (ap_streams0 st Hst). auto.
Qed.
Lemma apart_ticked P {A} (f : nat → A) : moves (apart P) (ticked f).
Proof. by intros s. Qed.
Lemma apart_gets P {A} (f : Service → A) : moves (apart P) (gets f).
Proof. by intros s. Qed.
Lemma apart_throw P {A} e : moves (apart P) (throw (A:=A) e).
Proof. by intros s. Qed.
Lemma apart_ret P {A} (a : A) : moves (apart P) (mret a).
Proof. by intros s. Qed.
Lemma apart_of_result P {E A} (f : E → svc_error) (r : result E A) : moves (apart P) (of_result f r).
Proof. by destruct r. Qed.
Lemma apart_blocked P {A} : moves (apart P) (λ _, @None (Service * result svc_error A)).
Proof. by intros s. Qed.
Lemma apart_modify P f : (∀ s, apart P s (f s)) → moves (apart P) (modify f).
Proof. intros Hf s. apply Hf. Qed.
Lemma apart_schedule P f : moves (apart P) (schedule f).
Proof. intros s. by split. Qed.
Lemma create_keys m t key now k : is_Some (ms_taskByIdemKey m !! k) → is_Some (ms_taskByIdemKey (CreateTask m t key now).1 !! k).
Proof.
  intros Hk. unfold CreateTask. destruct (str_empty key); cbn; [done|]. destruct (ms_taskByIdemKey m !! key) eqn:He; cbn; [done|].
  destruct (decide (key = k)) as [->|]; [rewrite lookup_insert_eq; by eexists|by rewrite lookup_insert_ne].
Qed.
Lemma created_key m t key now : key ≠ EmptyString → is_Some (ms_taskByIdemKey (CreateTask m t key now).1 !! key).
Proof.
  intros Hk. unfold CreateTask. rewrite (proj2 (str_empty_false _) Hk). destruct (ms_taskByIdemKey m !! key) eqn:He; cbn; [by rewrite He|].
  rewrite lookup_insert_eq. by eexists.
Qed.
Lemma apart_create P t key now : moves (apart P) (on sv_meta set_meta (λ m, CreateTask m t key now)).
Proof. intros s. rewrite post_on. split; [done|done|intros k; apply create_keys|done]. Qed.
Lemma apart_append P req : ¬ P (al_StreamId req) → moves (apart P) (appendLog req).
Proof.
  intros Hn s. unfold post, appendLog, ticked, now, modify, mbind, M_bind, gets, throw, mret, M_ret. cbn -[log_append].
  destruct (env_append (S (S (sv_tick s)))); cbn -[log_append]; [|by split].
  destruct (log_append (sv_log s) req _) as [log rec] eqn:Hl. pose proof (log_append_spec (sv_log s) req (env_nanos (S (sv_tick s)) / 1000000)) as Hs.
  rewrite Hl in Hs. cbn. split; [done..|]. intros st Hst. cbn. destruct Hs as (Hid & [(-> & _)|(-> & _)]); [done|].
  change (stream (sv_log s ++ [rec]) st = stream (sv_log s) st). rewrite stream_app, decide_False, app_nil_r; [done|]. rewrite Hid. by intros <-.
Qed.
#[local] Hint Resolve apart_ticked apart_gets apart_throw apart_ret apart_of_result apart_blocked apart_schedule apart_create : moves.
#[local] Hint Extern 2 (moves (apart _) (modify _)) => apply apart_modify; intros; repeat case_decide; split; done : moves.

(** Scheduling a workflow's steps writes to no other workflow's stream. *)
Definition elsewhere (w : string) (st : string) : Prop := has_prefix "wf:" st = true ∧ st ≠ workflowStream w.
Lemma apart_log w req : has_prefix "wf:" (al_StreamId req) = false → moves (apart (elsewhere w)) (appendLog req).
Proof. intros Hn. apply apart_append. intros [Hp _]. congruence. Qed.
Lemma apart_workflow w eventType key p : moves (apart (elsewhere w)) (append_workflow w eventType key p).
Proof. apply apart_append. by intros [_ Hp]. Qed.
#[local] Hint Extern 2 (moves (apart (elsewhere _)) (appendLog _)) => apply apart_log; reflexivity : moves.
#[local] Hint Resolve apart_workflow : moves.
Lemma apart_put w data : moves (apart (elsewhere w)) (putBytes data).
Proof. unfold putBytes. moves I. Qed.
#[local] Hint Resolve apart_put : moves.
Lemma apart_function w a b c d : moves (apart (elsewhere w)) (ensureFunctionRegistered a b c d).
Proof. unfold ensureFunctionRegistered, now. moves I. Qed.
#[local] Hint Resolve apart_function : moves.
Lemma apart_enqueue w spec : moves (apart (elsewhere w)) (enqueueTask spec).
Proof.
  unfold enqueueTask, enqueueTaskWithMetadata, normalizeTaskFunction, backpressure, enqueue_record, useSchedulerV2, metadataPersisted, fresh_id, now.
  moves I.
Qed.
#[local] Hint Resolve apart_enqueue : moves.
Lemma apart_update w fn : moves (apart (elsewhere w)) (updateWorkflow w fn).
Proof. unfold updateWorkflow, now. moves I. intros s. rewrite post_on. by split. Qed.
#[local] Hint Resolve apart_update : moves.
Lemma apart_step w state def step : moves (apart (elsewhere w)) (schedule_step w state def step).
Proof. unfold schedule_step, fresh_id, now. moves I. Qed.
#[local] Hint Resolve apart_step : moves.
Lemma apart_loop fuel w : ∀ state, moves (apart (elsewhere w)) (schedule_loop fuel w state).
Proof. induction fuel as [|fuel IH]; intros state; cbn [schedule_loop]; moves I. Qed.
#[local] Hint Resolve apart_loop : moves.
Lemma apart_ready w : moves (apart (elsewhere w)) (scheduleReadySteps w).
Proof. unfold scheduleReadySteps. moves I. Qed.

(** ** The tasks *)

Lemma apart_read P s s' st n : apart P s s' → P st → read_stream s' st n = read_stream s st n.
Proof. intros [_ Ht _ Hs] Hp. unfold read_stream. by rewrite Ht, Hs. Qed.
Abbreviation anywhere := (λ _ : string, True).
Lemma apart_restore state : moves (apart anywhere) (restoreTaskReplayState state).
Proof. unfold restoreTaskReplayState, restore_queue, useSchedulerV2, now. moves I. Qed.
#[local] Hint Resolve apart_restore : moves.
Lemma apart_task_stream st : moves (apart anywhere) (bootstrapTaskStream st).
Proof. unfold bootstrapTaskStream, forEachRawLogRecord. moves I. Qed.

Lemma restored_key state s : rs_ok state = true → is_Some (rs_spec state) → tk_IdempotencyKey (finalTask state) ≠ EmptyString →
  post True (restoreTaskReplayState state) (λ _ s', has_key s' (tk_IdempotencyKey (finalTask state))) s.
Proof.
  intros Hok [sp Hsp] Hk. unfold restoreTaskReplayState. rewrite Hok, Hsp, post_bind.
  apply post_ticked. intros t s1 _. cbn [then_]. rewrite post_bind, post_on. cbn [then_].
  pose proof (created_key (sv_meta s1) (finalTask state) (tk_IdempotencyKey (finalTask state)) t Hk) as Hkey.
  destruct (CreateTask _ _ _ _) as [ms [created dup]]. cbn [fst snd] in *.
  match goal with |- post True ?m _ ?s2 => assert (Hap : moves (apart anywhere) m); [|eapply post_mono; [apply Hap|]; intros r s3 Hs3; by apply (ap_keys _ _ _ Hs3)] end.
  unfold restore_queue, useSchedulerV2. moves I.
Qed.
Lemma tasks_keys l : ∀ s,
  post True (for_each l bootstrapTaskStream) (λ r s', r = Ok () →
    ∀ st key, st ∈ l → holds_key (read_stream s st 1) key = true → key ≠ EmptyString → has_key s' key) s.
Proof.
  induction l as [|st l IH]; intros s; cbn [for_each]; [by intros _ st key ?%elem_of_nil|].
  rewrite post_bind. eapply post_mono; [apply (post_and _ _ (λ _ s1, apart anywhere s s1) (λ r s1, r = Ok () →
      ∀ key, holds_key (read_stream s st 1) key = true → key ≠ EmptyString → has_key s1 key))|].
  - apply apart_task_stream.
  - unfold bootstrapTaskStream, forEachRawLogRecord. rewrite post_bind, post_gets. cbn [then_ Z.eqb]. rewrite post_bind, post_of_result.
    unfold holds_key. destruct (replayTaskMetadataRawEach _ _) as [rs|]; cbn [then_]; [|done].
    destruct (decide (rs_ok rs = true ∧ is_Some (rs_spec rs) ∧ tk_IdempotencyKey (finalTask rs) ≠ EmptyString)) as [(Hok & Hsp & Hk)|Hn].
    + eapply post_mono; [by apply restored_key|]. intros r s1 Hk1 _ key [[_ _]%andb_prop <-%bool_decide_eq_true]%andb_prop _. exact Hk1.
    + eapply post_mono; [apply post_any|]. intros r s1 _ _ key [[Hok Hsp%bool_decide_eq_true]%andb_prop Hkey%bool_decide_eq_true]%andb_prop Hk.
      destruct Hn. by rewrite Hkey.
  - intros [[]|e] s1 [Hap Hst]; cbn [then_]; [|done]. eapply post_mono; [apply (post_and _ _ _ (λ _ s2, apart anywhere s1 s2) _ (IH s1))|].
    + apply moves_for_each; [apply _|intros st']. apply apart_task_stream.
    + intros r s2 [Hl Hap2] -> st' key [->|Hin]%elem_of_cons Hh Hk; [by apply (ap_keys _ _ _ Hap2), Hst|].
      apply (Hl eq_refl st' key Hin); [|done]. by rewrite (apart_read anywhere s s1).
Qed.

Lemma tasks_restored s : post True bootstrapTasks (λ r s', apart anywhere s s' ∧ (r = Ok () →
    ∀ st key, st ∈ filter (λ id, has_prefix "task:" id = true) (stream_ids (sv_log s)) →
      holds_key (read_stream s st 1) key = true → key ≠ EmptyString → has_key s' key)) s.
Proof.
  unfold bootstrapTasks, listStreams. rewrite post_bind, post_gets. cbn [then_]. apply post_and; [|apply tasks_keys].
  apply (moves_for_each (apart anywhere)). intros st. apply apart_task_stream.
Qed.

(** ** The workflows *)

Definition step_known (s : Service) (state : WorkflowState) (stepDef : StepDefinition) : Prop :=
  ∀ step, Step state (sdStepID stepDef) = Some step → in_flight step = true →
    ssLastInputHash step ≠ EmptyString ∧ ssResolvedArgsJSON step ≠ [] ∧
    has_key s (attempt_key (wsWorkflowID state) (sdStepID stepDef) (ssLastInputHash step) (if ssAttempts step =? 0 then 1 else ssAttempts step)).
Lemma apart_requeue task t taskID spec :
  moves (apart anywhere) (_ ← modify (λ s, set_specs (<[taskID := spec]> (sv_specs s)) s); restore_queue task t).
Proof. unfold restore_queue, useSchedulerV2. moves I. Qed.
Lemma attempt_key_ne w st hash n : attempt_key w st hash n ≠ EmptyString.
Proof. unfold attempt_key. by destruct w. Qed.

(** A task that is found is queued, and its specification recorded. *)
Lemma steady_requeued s t task taskID spec :
  steady [] s → (∃ id, task = task_or_zero (tasks s) id) →
  post True (_ ← modify (λ s, set_specs (<[taskID := spec]> (sv_specs s)) s); restore_queue task t) (λ r s', r = Ok () ∧ steady [] s') s.
Proof.
  intros [Hi Ht] [id Hid]. rewrite post_bind, post_modify. cbn [then_]. set (s1 := set_specs _ s).
  assert (Hi1 : inv [] s1) by by apply inv_specs. unfold restore_queue, useSchedulerV2. rewrite post_bind, post_gets. cbn [then_].
  rewrite (in_v2 _ _ Hi1), post_schedule. split; [done|]. split; [|exact Ht]. unfold task_or_zero in Hid.
  destruct (tasks s !! id) as [t'|] eqn:Hl; cbn in Hid; subst task.
  - eapply inv_enqueue_again; [exact Hi1|exact Hl|exact (to_id _ _ _ (in_task _ _ Hi1 id t' Hl))|done].
  - eapply inv_idle; [|exact Hi1]. by split.
Qed.

Lemma for_each_keeps {A} (I : Service → Prop) (f : A → M unit) l : ∀ s, I s →
  (∀ x s, x ∈ l → I s → post True (f x) (λ _ s', I s') s) → post True (for_each l f) (λ _ s', I s') s.
Proof.
  induction l as [|x l IH]; intros s Hs Hf; cbn [for_each]; [by apply post_ret|]. rewrite post_bind. eapply post_mono; [apply Hf; [by left|done]|].
  intros [[]|e] s' Hs'; cbn [then_]; [|done]. apply IH; [done|]. intros y s2 Hy. apply Hf. by right.
Qed.
Lemma apart_steps state : moves (apart anywhere) (restoreWorkflowTasks state).
Proof. unfold restoreWorkflowTasks, restore_queue, useSchedulerV2, now. moves I. Qed.
Lemma restored_steps state s : steady [] s →
  (wsStatus state = WORKFLOW_STATUS_RUNNING → ∀ stepDef, stepDef ∈ dfSteps (wsDefinition state) → step_known s state stepDef) →
  post True (restoreWorkflowTasks state) (λ _ s', steady [] s') s.
Proof.
  intros Hs Hk. unfold restoreWorkflowTasks. case_bool_decide as Hr; cbn [negb]; [|by apply post_ret]. specialize (Hk Hr).
  eapply post_mono; [apply (for_each_keeps (λ s', steady [] s' ∧ ∀ key, has_key s key → has_key s' key)); [done|]|by intros ? ? [? _]].
  intros stepDef s1 Hin [Hs1 Hkeys]. specialize (Hk stepDef Hin). unfold step_known in Hk. destruct (Step state (sdStepID stepDef)) as [step|]; [|by apply post_ret].
  destruct (_ || _) eqn:Hf; [by apply post_ret|]. apply orb_false_iff in Hf as [Hf1 Hf2%negb_false_iff].
  destruct (Hk step eq_refl) as (Hh & Ha & Hkey%Hkeys); [unfold in_flight; by rewrite Hf1, Hf2|].
  rewrite post_bind, post_gets. cbn [then_]. rewrite post_bind, post_of_result. unfold ResolveCachedArgs.
  rewrite (proj2 (str_empty_false _) Hh), bool_decide_eq_false_2 by done. cbn [negb andb then_]. rewrite post_bind, post_of_result.
  destruct (taskSpecFingerprint _) as [fingerprint|]; cbn [then_]; [|done]. rewrite post_bind. apply post_ticked. intros t s2 Hf. cbn [then_].
  apply (steady_frame _ _ _ Hf) in Hs1. rewrite post_bind, post_on. cbn [then_]. unfold CreateTask. rewrite (proj2 (str_empty_false _) (attempt_key_ne _ _ _ _)).
  assert (Hm : sv_meta s2 = sv_meta s1) by apply (fr_meta _ _ Hf). rewrite Hm. destruct Hkey as [id Hid]. rewrite Hid. cbn [fst snd].
  rewrite <- Hm. eapply post_mono; [apply post_and; [apply steady_requeued|apply (apart_requeue _ _ _ _)]|].
  - eapply steady_frame; [|exact Hs1]. by split.
  - by exists id.
  - intros r s3 [[_ Hs3] Hap]. split; [done|]. intros key Hk0. apply (ap_keys _ _ _ Hap). cbn. rewrite Hm. by apply Hkeys.
Qed.

Lemma apart_weaken P Q s s' : (∀ st, Q st → P st) → apart P s s' → apart Q s s'.
Proof. intros Hq []. split; auto. Qed.
Lemma moves_weaken P Q {A} (m : M A) : (∀ st, Q st → P st) → moves (apart P) m → moves (apart Q) m.
Proof. intros Hq Hm s. eapply post_mono; [apply Hm|]. intros r s'. by apply apart_weaken. Qed.

Lemma apart_state state : moves (apart (elsewhere (wsWorkflowID state))) (restoreWorkflowState true state).
Proof.
  unfold restoreWorkflowState. cbn [negb]. rewrite prepare_id. apply moves_bind; [apply _|apply apart_modify; by split|]. intros _.
  apply moves_bind; [apply _|by apply (moves_weaken anywhere), apart_steps|]. intros _. case_match; [apply apart_ready|apply apart_ret].
Qed.
Lemma restored_workflow state s : steady [] s →
  (let state := prepareRetryableFailedSteps state in wsStatus state = WORKFLOW_STATUS_RUNNING →
     ∀ stepDef, stepDef ∈ dfSteps (wsDefinition state) → step_known s state stepDef) →
  post True (restoreWorkflowState true state) (λ _ s', steady [] s') s.
Proof.
  intros Hs Hk. unfold restoreWorkflowState. cbv zeta in *. cbn [negb]. rewrite post_bind, post_modify. cbn [then_]. set (s1 := set_workflows _ s).
  assert (Hs1 : steady [] s1) by (eapply steady_frame; [|exact Hs]; by split).
  rewrite post_bind. eapply post_mono; [apply restored_steps; [exact Hs1|exact Hk]|]. intros [[]|e] s2 Hs2; cbn [then_]; [|done].
  case_match; [|by apply post_ret]. eapply post_mono; [by apply keeps_elim; [apply keeps_scheduleReadySteps|]|]. done.
Qed.

Lemma apart_workflow_stream st : moves (apart (elsewhere (drop_prefix 3 st))) (bootstrapWorkflowStream true st).
Proof.
  unfold bootstrapWorkflowStream, forEachRawLogRecord. apply moves_bind; [apply _|apply apart_gets|]. intros records.
  destruct (WorkflowReplay.ReplayRawEach _ _) as [state|] eqn:Hr; [|apply apart_ret].
  apply replay_state_ok in Hr as [<- _]. apply apart_state.
Qed.
Lemma restored_workflows s0 l : ∀ s, NoDup l → steady [] s → (∀ key, key_logged s0 key = true → key ≠ EmptyString → has_key s key) →
  (∀ st, st ∈ l → has_prefix "wf:" st = true ∧ workflow_logged s0 st = true ∧ read_stream s st 1 = read_stream s0 st 1) →
  post True (for_each l (bootstrapWorkflowStream true)) (λ _ s', steady [] s') s.
Proof.
  induction l as [|st l IH]; intros s Hnd Hs Hkeys Hl; cbn [for_each]; [by apply post_ret|]. apply NoDup_cons in Hnd as [Hst Hnd].
  destruct (Hl st ltac:(by left)) as (Hp & Hlog & Hread). rewrite post_bind.
  eapply post_mono; [apply (post_and _ _ (λ _ s1, steady [] s1) (λ _ s1, apart (elsewhere (drop_prefix 3 st)) s s1)); [|apply apart_workflow_stream]|].
  - unfold bootstrapWorkflowStream, forEachRawLogRecord. rewrite post_bind, post_gets. cbn [then_ Z.eqb]. rewrite Hread. unfold workflow_logged in Hlog.
    destruct (WorkflowReplay.ReplayRawEach _ _) as [state|]; [|by apply post_ret]. apply restored_workflow; [done|]. cbv zeta. intros Hrun stepDef Hin step Hstep Hf.
    rewrite bool_decide_eq_true_2 in Hlog by done. cbn [negb orb] in Hlog. rewrite forallb_forall in Hlog. specialize (Hlog stepDef ltac:(by apply list_elem_of_In)).
    unfold step_logged in Hlog. rewrite Hstep, Hf in Hlog. cbn [negb orb] in Hlog.
    apply andb_prop in Hlog as [[Hh%negb_true_iff Ha%negb_true_iff%bool_decide_eq_false]%andb_prop Hk]. split_and!; [by apply str_empty_false|done|].
    apply Hkeys; [done|apply attempt_key_ne].
  - intros [[]|e] s1 [Hs1 Hap]; cbn [then_]; [|done]. apply IH; [done|done|intros key Hk1 Hk2; apply (ap_keys _ _ _ Hap); by apply Hkeys|].
    intros st' Hin. destruct (Hl st' ltac:(by right)) as (Hp' & Hlog' & Hread'). split_and!; [done|done|]. rewrite <- Hread'.
    apply (apart_read _ _ _ _ _ Hap). split; [done|]. rewrite drop_workflow by done. by intros ->.
Qed.
End Restart.
Close Scope Z_scope.
