(* ===== verification/NoTaskLost.v ===== *)
(** Runs of the control service: a sequence of requests and restarts, and what holds
    in every state such a run reaches ([TasksHeldSteps] is the invariant's proof for
    the handlers). *)
From stdpp Require Import pretty.
From S2P Require Import Prelude Bytes LogRecord EventCodec TaskSpec MetaStore TaskReplay TaskReplaySpec Placement Scheduler WorkerStore WorkflowDef WorkflowState WorkflowReplay WorkflowJSON Actor MetaDomains WorkflowArgs ServiceState ControlTasks ControlDispatch ControlActors ControlWorkflows ControlService ControlAdmin Checkpoint Trees CheckpointTails ServiceDemo ServiceLogic TasksHeld TasksHeldSteps RestartHeld.

Open Scope Z_scope.

(** ** Requests *)

(** What a client, a worker or an operator may ask for; [ReqCall n]: a call that looks
    for its actor's owner at most [n] times; [ReqRestart]: the process ends and starts
    again over its log. *)
Inductive request :=
| ReqSubmitTask (req : SubmitTaskRequest)
| ReqSubmitLLM (req : SubmitLLMRequest)
| ReqSubmitWorkflow (req : SubmitWorkflowRequest)
| ReqCreateActor (req : CreateActorRequest)
| ReqCall (attempts : nat) (req : CallActorRequest)
| ReqRegisterWorker (req : RegisterWorkerRequest)
| ReqHeartbeat (workerID : string) (cached : list (string * string))
| ReqPoll (workerID : string) (maxTasks : Z)
| ReqStart (taskID workerID : string) (epoch : Z)
| ReqComplete (req : CompleteTaskRequest)
| ReqCompleteAll (reqs : list (option CompleteTaskRequest))
| ReqRegisterModel (model : ModelInfo)
| ReqSetPolicy (policy : Z)
| ReqSetLimits (watermark timeoutMs slowMs : Z)
| ReqRestart.

Section Runs.
Context `{EnvLaws} `{MsgpackLib, TaskCodecLib, FingerprintLib, RegistryJSON, ActorJSON, ArgsLib, ControlJSON, DefinitionJSON, WorkflowEventJSON, SystemJSON, AdminJSON, LogStats} `{!StateJSON, !CheckpointJSON}.

Definition silent {A} (m : M A) : M unit := _ ← m; mret ().
Definition serve (r : request) : M unit :=
  match r with
  | ReqSubmitTask req => silent (SubmitTask req)
  | ReqSubmitLLM req => silent (SubmitLLM req)
  | ReqSubmitWorkflow req => silent (SubmitWorkflow req)
  | ReqCreateActor req => silent (ControlActors.CreateActor req)
  | ReqCall attempts req => silent (submitActorCommand attempts req)
  | ReqRegisterWorker req => RegisterWorker req
  | ReqHeartbeat workerID cached => ControlService.Heartbeat workerID cached
  | ReqPoll workerID maxTasks => silent (pollTaskNow workerID maxTasks)
  | ReqStart taskID workerID epoch => StartTask taskID workerID epoch
  | ReqComplete req => ControlService.CompleteTask req
  | ReqCompleteAll reqs => silent (CompleteTasks reqs)
  | ReqRegisterModel model => silent (ControlAdmin.RegisterModel model)
  | ReqSetPolicy policy => silent (SetSchedulingPolicy policy)
  | ReqSetLimits watermark timeoutMs slowMs => silent (SetBackpressure watermark timeoutMs slowMs)
  | ReqRestart => restart
  end.

(** The states of a service that runs the indexed scheduler; a request may fail, and leave
    what it had done before it failed.  A restart is over a log without a metadata
    checkpoint, in which each workflow step in flight comes with its task ([restartable]):
    what it would do with another log is not covered. *)
Inductive reachable (threshold : Z) : Service → Prop :=
| reach_start : reachable threshold (NewService true threshold)
| reach_serve s r s' answer :
    reachable threshold s → serve r s = Some (s', answer) →
    timeout_ok (sv_config s') → (r = ReqRestart → restartable s = true) →
    reachable threshold s'.

(** ** The invariant along a run *)

Lemma inv_start threshold : inv [] (NewService true threshold).
Proof.
  assert (∀ id, tasks (NewService true threshold) !! id = None) as Hn by (intros; apply lookup_empty).
  split.
  - reflexivity.
  - intros id t. by rewrite Hn.
  - intros id. rewrite Hn. by intros [? ?].
  - apply core_ok, newScheduler_ok.
  - intros id [[m Hm]|[r Hr]]; [cbn in Hm; by rewrite lookup_empty in Hm|]. destruct (newScheduler_ok (λ _, QGeneral)) as [[_ Hw] _ _ _ _ _].
    destruct r; unfold waiting in Hr; cbn in Hr; rewrite ?lookup_empty in Hr; by apply elem_of_nil in Hr.
  - intros id t. by rewrite Hn.
  - by intros id r ?%elem_of_nil.
Qed.
Lemma inv_config X s f : cf_schedulerV2 (f (sv_config s)) = cf_schedulerV2 (sv_config s) → inv X s → inv X (set_config (f (sv_config s)) s).
Proof. intros Hf. apply inv_idle. by split. Qed.
Lemma inv_crash X s : inv X s → inv [] (crash s).
Proof.
  intros [Hv _ _ _ _ _ Hl]. pose proof (inv_start 0) as [_ _ Hsp Hsc Hmn Hh _]. split; [exact Hv| |exact Hsp|exact Hsc|exact Hmn|exact Hh|exact Hl].
  intros id t Ht. unfold tasks in Ht. cbn in Ht. by rewrite lookup_empty in Ht.
Qed.

(** ** Restart *)

Lemma inv_bootstrapTasks s : inv [] s → tasks s = ∅ → post True bootstrapTasks (λ _ s', inv [] s' ∧ sv_log s' = sv_log s) s.
Proof.
  intros Hi Hn. unfold bootstrapTasks, listStreams. rewrite post_bind, post_gets. cbn [then_]. eapply (booting_tasks _ _ []).
  - split; [done..|]. intros id. rewrite Hn, lookup_empty. by intros [? ?].
  - apply NoDup_filter, stream_ids_nodup.
  - intros st [Hp _]%list_elem_of_filter. split; [apply not_elem_of_nil|done].
Qed.
Lemma restartable_stream s st : restartable s = true → st ∈ stream_ids (sv_log s) →
  st ≠ metadataCheckpointStream ∧ (has_prefix "wf:" st = true → workflow_logged s st = true).
Proof.
  unfold restartable. rewrite forallb_forall. intros Hr Hin%list_elem_of_In. apply Hr in Hin as [Hc%negb_true_iff%bool_decide_eq_false Hw]%andb_prop.
  split; [done|]. intros Hp. by rewrite Hp in Hw.
Qed.
Lemma no_checkpoint s : restartable s = true → loadLatestMetadataCheckpoint s = Some (s, Ok None).
Proof.
  intros Hr. assert (stream (sv_log s) metadataCheckpointStream = []) as Hn.
  { apply elem_of_nil_inv. intros r [Hs Hin]%list_elem_of_filter.
    destruct (restartable_stream s metadataCheckpointStream Hr) as [Hne _]; [apply stream_ids_in; by exists r|done]. }
  unfold loadLatestMetadataCheckpoint, forEachRawLogRecord, read_stream, gets, mbind, M_bind. by rewrite Hn.
Qed.
Lemma restartable_same s s' : sv_log s' = sv_log s → sv_trims s' = sv_trims s → restartable s' = restartable s.
Proof.
  intros Hl Ht. assert (Hr : ∀ st, read_stream s' st 1 = read_stream s st 1) by (intros st; unfold read_stream; by rewrite Hl, Ht).
  assert (Hk : ∀ key, key_logged s' key = key_logged s key).
  { intros key. unfold key_logged. rewrite Hl. induction (stream_ids (sv_log s)) as [|st l IH]; [done|]. cbn [existsb]. by rewrite Hr, IH. }
  unfold restartable. rewrite Hl. induction (stream_ids (sv_log s)) as [|st l IH]; [done|]. cbn [forallb]. rewrite IH. f_equal. f_equal. f_equal.
  unfold workflow_logged. rewrite Hr. destruct (WorkflowReplay.ReplayRawEach _ _) as [w|]; [|done]. cbv zeta. f_equal.
  induction (dfSteps _) as [|def ds IHd]; [done|]. cbn [forallb]. rewrite IHd. f_equal. unfold step_logged. destruct (Step _ _); [|done]. by rewrite Hk.
Qed.
(** The workflows, after all the tasks of the log. *)
Lemma inv_workflows s0 s : restartable s0 = true → steady [] s → apart (λ _, True) s0 s → sv_log s = sv_log s0 →
  (∀ st key, st ∈ filter (λ id, has_prefix "task:" id = true) (stream_ids (sv_log s0)) →
     holds_key (read_stream s0 st 1) key = true → key ≠ EmptyString → has_key s key) →
  post True bootstrapWorkflows (λ _ s', steady [] s') s.
Proof.
  intros Hr Hs Hap Hl Hk. unfold bootstrapWorkflows, bootstrapWorkflowsWithScheduling, listStreams. rewrite post_bind, post_gets. cbn [then_].
  apply (restored_workflows s0); [apply NoDup_filter, stream_ids_nodup|done| |].
  - intros key Hkey Hne. unfold key_logged in Hkey. apply existsb_exists in Hkey as (st & Hin%list_elem_of_In & [Hp Hh]%andb_prop).
    apply (Hk st key); [by apply list_elem_of_filter|done|done].
  - intros st [Hp Hin]%list_elem_of_filter. rewrite Hl in Hin. split_and!; [done| |by apply (apart_read (λ _, True))].
    by apply (restartable_stream s0 st Hr Hin).
Qed.

Lemma boot_idle {A B} (m : M A) (f : A → M B) (Q : Service → Prop) s0 s :
  moves idle_step m → idle_step s0 s → (∀ s', idle_step s0 s' → Q s') →
  (∀ a s', idle_step s0 s' → post True (f a) (λ _ s'', Q s'') s') → post True (m ≫= f) (λ _ s', Q s') s.
Proof.
  intros Hm Hs HQ Hf. rewrite post_bind. eapply post_mono; [apply Hm|]. intros [a|e] s' Hs'; cbn [then_].
  - apply Hf. by etrans.
  - apply HQ. by etrans.
Qed.

Lemma apart_bootstrapWorkflows : moves (apart (λ _, False)) bootstrapWorkflows.
Proof.
  intros s. unfold bootstrapWorkflows, bootstrapWorkflowsWithScheduling, listStreams. rewrite post_bind, post_gets. cbn [then_].
  apply moves_for_each; [apply _|]. intros st. by eapply moves_weaken, apart_workflow_stream.
Qed.
(** From the workflows on, the configuration is that of the end. *)
Lemma inv_rest s : inv [] s → (timeout_ok (sv_config s) → post True bootstrapWorkflows (λ _ s', steady [] s') s) →
  post True (_ ← bootstrapWorkflows; _ ← bootstrapActors; _ ← bootstrapLLMStats; syncSchedulerWorkers)
    (λ _ s', timeout_ok (sv_config s') → inv [] s') s.
Proof.
  intros Hi Hw. assert (framed (_ ← bootstrapActors; _ ← bootstrapLLMStats; syncSchedulerWorkers)) as Hf by framed.
  assert (Hd : Decision (timeout_ok (sv_config s))) by (unfold timeout_ok; apply _). rewrite post_bind. destruct Hd as [Ht|Hn].
  - eapply post_mono; [by apply Hw|]. intros [[]|e] s1 [Hi1 _]; cbn [then_]; [|by intros _].
    eapply post_mono; [apply Hf|]. intros r s2 Hs2 _. exact (inv_frame _ _ _ Hs2 Hi1).
  - eapply post_mono; [apply apart_bootstrapWorkflows|]. intros [[]|e] s1 Hap; cbn [then_]; [|intros Ht; destruct Hn; by rewrite (ap_config _ _ _ Hap) in Ht].
    eapply post_mono; [apply Hf|]. intros r s2 Hs2 Ht. destruct Hn. by rewrite (fr_config _ _ Hs2), (ap_config _ _ _ Hap) in Ht.
Qed.
Lemma inv_bootstrap s : inv [] s → tasks s = ∅ → restartable s = true →
  post True BootstrapFromLog (λ _ s', timeout_ok (sv_config s') → inv [] s') s.
Proof.
  intros Hi Hn Hw. assert (∀ s', idle_step s s' → inv [] s') as Hi' by (intros; by eapply inv_idle).
  assert (∀ s', idle_step s s' → timeout_ok (sv_config s') → inv [] s') as Hi'' by auto.
  unfold BootstrapFromLog.
  eapply (boot_idle _ _ _ s); [apply idle_models|done|exact Hi''|]. intros _ s1 Hs1.
  eapply (boot_idle _ _ _ s); [apply idle_workers|exact Hs1|exact Hi''|]. intros _ s2 Hs2.
  eapply (boot_idle _ _ _ s); [apply idle_scheduler|exact Hs2|exact Hi''|]. intros _ s3 Hs3.
  eapply (boot_idle _ _ _ s); [apply idle_backpressure|exact Hs3|exact Hi''|]. intros _ s4 Hs4.
  eapply (boot_idle _ _ _ s); [apply idle_functions|exact Hs4|exact Hi''|]. intros _ s5 Hs5.
  assert (Hw5 : restartable s5 = true) by (by rewrite (restartable_same s s5 (is_log _ _ Hs5) (is_trims _ _ Hs5))).
  rewrite post_bind. unfold post at 1. rewrite (no_checkpoint _ Hw5). cbn [then_]. unfold bootstrapFromStreams.
  assert (tasks s5 = ∅) as Hn5 by (unfold tasks in *; by rewrite (is_meta _ _ Hs5)).
  rewrite post_bind. eapply post_mono; [apply post_and; [apply inv_bootstrapTasks; [by apply Hi'|exact Hn5]|apply tasks_restored]|].
  intros [[]|e] s6 [[Hi6 Hl6] [Hap6 Hk6]]; cbn [then_]; [|by intros _]. apply inv_rest; [done|]. intros Ht.
  apply (inv_workflows s5); [done|by split|done|done|by apply Hk6].
Qed.

(** ** Requests *)

Lemma inv_append_system X s req Q :
  inv X s → (∀ id, al_StreamId req ≠ taskStream id) → (∀ r s', inv X s' → Q r s') → post True (appendLog req) Q s.
Proof.
  intros Hi Hn HQ. eapply post_mono; [apply append_frame; [exact Hi|]|].
  - intros id Hid. by destruct (Hn id).
  - intros r s' [? _]. by apply HQ.
Qed.
Lemma inv_RegisterModel model s : inv [] s → post True (ControlAdmin.RegisterModel model) (λ _ s', inv [] s') s.
Proof.
  intros Hi. assert (framed (ControlAdmin.RegisterModel model)) as Hf by (unfold ControlAdmin.RegisterModel; framed).
  eapply post_mono; [apply Hf|]. intros r s' Hs. eapply inv_frame; [exact Hs|exact Hi].
Qed.
Lemma inv_set_config X s cf : cf_schedulerV2 cf = true → inv X s → inv X (set_config cf s).
Proof. intros Hc Hi. eapply inv_idle; [|exact Hi]. split; cbn; try done. by rewrite Hc, (in_v2 _ _ Hi). Qed.
Lemma inv_SetPolicy policy s : inv [] s → post True (SetSchedulingPolicy policy) (λ _ s', inv [] s') s.
Proof.
  intros Hi. unfold SetSchedulingPolicy. cbn zeta. rewrite post_bind. apply post_framed; [framed|]. intros [t|e] s1 Hf1; cbn [then_]; [|exact (inv_frame _ _ _ Hf1 Hi)].
  rewrite post_bind. apply post_framed; [framed|]. intros [n|e] s2 Hf2; cbn [then_]; [|exact (inv_frame _ _ _ Hf2 (inv_frame _ _ _ Hf1 Hi))].
  rewrite post_bind. eapply inv_append_system; [exact (inv_frame _ _ _ Hf2 (inv_frame _ _ _ Hf1 Hi))|done|].
  intros [rec|e] s3 Hi3; cbn [then_]; [|done]. rewrite post_bind, post_modify. cbn [then_]. rewrite post_ret.
  apply inv_set_config; [apply Hi3|done].
Qed.
Lemma inv_SetLimits watermark timeout slow s : inv [] s → post True (SetBackpressure watermark timeout slow) (λ _ s', inv [] s') s.
Proof.
  intros Hi. unfold SetBackpressure. rewrite post_bind, post_gets. cbn [then_]. cbn zeta. rewrite post_bind. apply post_framed; [framed|].
  intros [t|e] s1 Hf1; cbn [then_]; [|exact (inv_frame _ _ _ Hf1 Hi)].
  rewrite post_bind. apply post_framed; [framed|]. intros [n|e] s2 Hf2; cbn [then_]; [|exact (inv_frame _ _ _ Hf2 (inv_frame _ _ _ Hf1 Hi))].
  rewrite post_bind. eapply inv_append_system; [exact (inv_frame _ _ _ Hf2 (inv_frame _ _ _ Hf1 Hi))|done|].
  intros [rec|e] s3 Hi3; cbn [then_]; [|done]. rewrite post_bind, post_modify. cbn [then_]. rewrite post_ret.
  apply inv_set_config; [apply Hi3|done].
Qed.

Abbreviation keeps := (moves (kept_by (steady []))).
Lemma keeps_serve {A} (m : M A) s : keeps m → steady [] s → post True m (λ _ s', inv [] s') s.
Proof. intros Hm Hs. eapply post_mono; [by apply keeps_elim|]. by intros r s' []. Qed.
Lemma keeps_silent {A} (m : M A) s : keeps m → steady [] s → post True (silent m) (λ _ s', inv [] s') s.
Proof.
  intros Hm Hs. unfold silent. rewrite post_bind. eapply post_mono; [by apply keeps_serve|]. by intros [a|e] s' Hi.
Qed.
Lemma silent_inv {A} (m : M A) s : post True m (λ _ s', inv [] s') s → post True (silent m) (λ _ s', inv [] s') s.
Proof. intros Hm. unfold silent. rewrite post_bind. eapply post_mono; [exact Hm|]. by intros [a|e] s' Hi. Qed.

Lemma inv_serve r s : steady [] s → (r = ReqRestart → restartable s = true) →
  post True (serve r) (λ _ s', timeout_ok (sv_config s') → inv [] s') s.
Proof.
  intros Hs Hw. assert (Hd : r = ReqRestart ∨ post True (serve r) (λ _ s', inv [] s') s); [|destruct Hd as [->|Hp];
    [apply inv_bootstrap; [eapply inv_crash, Hs|done|by rewrite (restartable_same s (crash s) eq_refl eq_refl), (Hw eq_refl)]|eapply post_mono; [exact Hp|by intros]]].
  destruct r; cbn [serve]; [right..|by left].
  - apply keeps_silent; [apply keeps_SubmitTask|done].
  - apply keeps_silent; [apply keeps_SubmitLLM|done].
  - apply keeps_silent; [apply keeps_SubmitWorkflow|done].
  - apply keeps_silent; [moves steady_kept|done].
  - apply keeps_silent; [apply keeps_submitActorCommand|done].
  - apply keeps_serve; [moves steady_kept|done].
  - apply keeps_serve; [moves steady_kept|done].
  - apply keeps_silent; [apply keeps_pollTaskNow|done].
  - apply keeps_serve; [apply keeps_StartTask|done].
  - apply keeps_serve; [apply keeps_CompleteTask|done].
  - apply keeps_silent; [apply keeps_complete_all|done].
  - apply silent_inv, inv_RegisterModel, Hs.
  - apply silent_inv, inv_SetPolicy, Hs.
  - apply silent_inv, inv_SetLimits, Hs.
Qed.
Lemma reachable_steady threshold s : reachable threshold s → steady [] s.
Proof.
  induction 1 as [|s r s' answer Hr IH Hserve Ht Hw]; [split; [apply inv_start|done]|].
  pose proof (inv_serve r s IH Hw) as Hp. unfold post in Hp. rewrite Hserve in Hp. split; auto.
Qed.
(** C9: no task is lost.  In every state that a service with the indexed scheduler comes to
    through the requests of [request], failed ones included, and through restarts over logs
    without a metadata checkpoint in which each workflow step in flight comes with its task
    ([restartable]): a recorded task is queued, running, succeeded or failed; its
    specification is kept; if it is queued it waits in the queue its record names, and
    if it is running its lease is tracked under its epoch with a deadline, after which
    the next poll takes it back.  (An epoch of zero, after 2^64 leases, names no lease.) *)
Theorem no_task_lost threshold s id t :
  reachable threshold s → tasks s !! id = Some t →
  tk_TaskID t = id ∧ live_status (tk_Status t) ∧ is_Some (sv_specs s !! id) ∧
  (tk_Status t = TASK_STATUS_QUEUED →
    is_Some (sc_queued (sv_scheduler s) !! id) ∧ id ∈ waiting (sv_scheduler s) (route_of t)) ∧
  (tk_Status t = TASK_STATUS_RUNNING → tk_TaskLeaseEpoch t ≠ 0 →
    ∃ l, sc_runningLeases (sv_scheduler s) !! id = Some l ∧ rl_leaseEpoch l = tk_TaskLeaseEpoch t ∧
         l ∈ sc_deadlines (sv_scheduler s)).
Proof.
  intros [Hi _]%reachable_steady Ht. destruct (in_task _ _ Hi id t Ht) as [Hid _ Hst _].
  destruct (in_held _ _ Hi id t Ht (not_elem_of_nil id)) as [Hq Hr]. rewrite Hid in Hq, Hr.
  destruct (in_sched _ _ Hi) as [_ Hqueued _ Hleases _ _]. cbn in Hqueued, Hleases.
  split_and!; [exact Hid|exact Hst|apply (in_spec _ _ Hi); by eexists|..].
  - intros [k Hk]%Hq. split; [by eexists|]. destruct (Hqueued id k Hk) as (_ & Hw & _). rewrite core_waiting in Hw.
    unfold route_in, task_or_zero in Hw. fold (tasks s) in Hw. by rewrite Ht in Hw.
  - intros Hs He. destruct (Hr Hs He) as (l & Hl & Hel). exists l. split_and!; [exact Hl|exact Hel|by apply (Hleases id)].
Qed.

(** ** Runs, computed *)

Definition run (l : list request) (s : Service) : Service := foldl (λ s r, state_of (serve r s)) s l.
(** Every request comes back, with a timeout in range, and restarts find a restartable log. *)
Fixpoint run_ok (l : list request) (s : Service) : bool :=
  match l with
  | [] => true
  | r :: l =>
      match serve r s with
      | Some (s', _) =>
          bool_decide (timeout_ok (sv_config s')) && (match r with ReqRestart => restartable s | _ => true end) && run_ok l s'
      | None => false
      end
  end.
Lemma reachable_run threshold l : ∀ s, reachable threshold s → run_ok l s = true → reachable threshold (run l s).
Proof.
  induction l as [|r l IH]; intros s Hs; [done|]. cbn [run_ok run foldl]. destruct (serve r s) as [[s' answer]|] eqn:Hr; [|done].
  intros [[Ht%bool_decide_eq_true Hw]%andb_prop Hl]%andb_prop. apply IH; [|exact Hl].
  eapply reach_serve; [exact Hs|exact Hr|exact Ht|]. by intros ->.
Qed.
End Runs.

(** A clock that passes a minute before tick [k] and stands still after a thousand ticks. *)
Definition slow_clock (k : nat) (n : nat) : Z := minute_before k n - Z.max 0 (Z.of_nat n - 1000).
#[export] Instance toy_env_laws k works : @EnvLaws (toy_env (slow_clock k) works).
Proof.
  split; cbn; intros n.
  - rewrite Z.div_mul by done. unfold clocked, slow_clock, minute_before. case_decide; lia.
  - intros m Hm. by apply (inj (String.append "id-")), (inj pretty) in Hm.
  - done.
Qed.

(** Three tasks and a workflow: one task is finished, one is taken back after its worker fell
    silent and again by a restart, one waits, and so does that of the workflow's step, which was
    scheduled before the restart. *)
Definition demo_run : list request := [
  ReqRegisterWorker (demo_worker "w" 4);
  ReqSubmitTask (demo_submit "t1" "k1");
  ReqSubmitTask (demo_submit "t2" "k2");
  ReqPoll "w" 1;
  ReqStart "id-5" "w" 1;
  ReqComplete (demo_complete "id-5" "w" 1 [x31]);
  ReqPoll "w" 1;
  ReqStart "id-15" "w" 1;
  ReqPoll "w" 1;
  ReqSubmitWorkflow {| sw_WorkflowName := "flow"; sw_DefinitionJson := [x30]; sw_IdempotencyKey := "k" |};
  ReqRestart;
  ReqRegisterWorker (demo_worker "w" 4);
  ReqPoll "w" 1;
  ReqSubmitTask (demo_submit "t3" "k3")].
Definition demo_end : Service := let E := toy_env (slow_clock 40) all_work in run demo_run (NewService true 0).
Lemma no_task_lost_witness :
  let E := toy_env (slow_clock 40) all_work in
  (∃ t, tasks demo_end !! "id-15" = Some t ∧ tk_Status t = TASK_STATUS_RUNNING ∧
    ∃ l, sc_runningLeases (sv_scheduler demo_end) !! "id-15" = Some l ∧ rl_leaseEpoch l = 2 ∧ l ∈ sc_deadlines (sv_scheduler demo_end)) ∧
  (∃ t, tasks demo_end !! "id-65" = Some t ∧ tk_StepID t = "a" ∧ tk_Status t = TASK_STATUS_QUEUED ∧
    "id-65" ∈ waiting (sv_scheduler demo_end) (route_of t)).
Proof.
  intros E. assert (@reachable E toy_msgpack toy_taskcodec toy_prints toy_registry toy_actor toy_args toy_control toy_definition toy_workflow_event toy_system toy_admin toy_state_json toy_checkpoint_json 0 demo_end) as Hr.
  { apply (@reachable_run E). { apply reach_start. } vm_compute. reflexivity. }
  split.
  - destruct (tasks demo_end !! "id-15") as [t|] eqn:Ht; [|vm_compute in Ht; discriminate Ht].
    assert (tk_Status t = TASK_STATUS_RUNNING ∧ tk_TaskLeaseEpoch t = 2) as [Hs He] by (vm_compute in Ht; injection Ht as <-; by split).
    exists t. split; [reflexivity|]. split; [exact Hs|]. rewrite <- He.
    destruct (no_task_lost 0 demo_end "id-15" t Hr Ht) as (_ & _ & _ & _ & Hl). apply Hl; [exact Hs|by rewrite He].
  - destruct (tasks demo_end !! "id-65") as [t|] eqn:Ht; [|vm_compute in Ht; discriminate Ht].
    assert (tk_Status t = TASK_STATUS_QUEUED ∧ tk_StepID t = "a") as [Hs Hstep] by (vm_compute in Ht; injection Ht as <-; by split).
    exists t. split; [reflexivity|]. split; [exact Hstep|]. split; [exact Hs|].
    destruct (no_task_lost 0 demo_end "id-65" t Hr Ht) as (_ & _ & _ & Hq & _). by apply Hq.
Defined.
