(* ===== verification/WorkerExec.v ===== *)
(** The execution of one task by a worker: [internal/worker/agent.go] from [executeTask]
    down, and the function source cache ([internal/worker/function_cache.go]).

    A runner is a Python process behind two pipes: what it has written and nobody has read
    yet is part of the state, and so is whether it still runs. RPCs, the clock, the
    contexts, the process and the model server are given by the environment. *)
From stdpp Require Import pretty.
From S2P Require Import Prelude Bytes EventCodec Paths TaskSpec MetaStore Placement.

Open Scope Z_scope.

(** ** Data *)

(** [executorRequest], [actorExecutorRequest] *)
Record executorRequest := { xr_FunctionSource : string; xr_FunctionRef : string; xr_FunctionHash : string; xr_FunctionName : string; xr_ArgsJSON : bytes }.
Record actorExecutorRequest := { xa_Mode : string; xa_ClassSource : string; xa_ClassName : string; xa_MethodName : string;
  xa_ArgsJSON : bytes; xa_StateJSON : bytes; xa_InitArgsJSON : bytes }.
Abbreviation execRequest := (executorRequest + actorExecutorRequest)%type.
(** [executorResponse] *)
Record executorResponse := { xs_OK : bool; xs_Result : bytes; xs_State : bytes; xs_Error : string }.

(** An error: whether it is [context.DeadlineExceeded], and its text. *)
Record exec_error := { ee_deadline : bool; ee_text : string }.
Definition plain_error (text : string) : exec_error := {| ee_deadline := false; ee_text := text |}.
Definition ctx_error (deadline : bool) : exec_error :=
  {| ee_deadline := deadline; ee_text := if deadline then "context deadline exceeded" else "context canceled" |}.

(** [pythonRunner]: [rn_out] is the unread part of the process's standard output. *)
Record Runner := { rn_json : bool; rn_alive : bool; rn_out : bytes; rn_known : gset string }.

(** [checkpointLoadResult], [llmEventPayload] *)
Record checkpointLoadResult := { cl_CacheHit : bool; cl_CheckpointFetchMs : Z; cl_ModelLoadMs : Z; cl_CacheUsedBytes : Z; cl_CacheCapacityBytes : Z; cl_EvictionCount : Z }.
Record llmEventPayload := { lv_TaskID : string; lv_ModelName : string; lv_ModelVersion : string; lv_WorkerID : string; lv_CacheHit : bool;
  lv_CheckpointFetchMs : Z; lv_CacheUsedBytes : Z; lv_CacheCapacityBytes : Z; lv_EvictionCount : Z; lv_ModelLoadMs : Z;
  lv_FirstTokenMs : Z; lv_TotalLatencyMs : Z; lv_TimestampMs : Z }.

(** [CompleteTaskRequest] as the worker fills it *)
Record Completion := { cn_TaskId : string; cn_WorkerId : string; cn_Status : Z; cn_ResultJson : bytes; cn_Error : string;
  cn_ActorStateJson : bytes; cn_ActorEpoch : Z; cn_TaskLeaseEpoch : Z }.

(** The calls a worker makes. *)
Inductive event :=
| EvStart (taskID : string) (epoch : Z)
| EvLog (eventType : string) (idempotencyKey : string) (payload : llmEventPayload)
| EvHeartbeat
| EvExecute (req : bytes).

(** The part of [Config] that execution reads. *)
Record WorkerConfig := { wc_WorkerID : string; wc_VLLMBaseURL : string }.

(** ** The environment *)

Class WorkerEnv := {
  we_rpc : nat → bool;                       (* does the [n]th RPC succeed *)
  we_text : nat → string;                    (* the text of its error *)
  we_ctx : nat → option bool;                (* the context at a check: expired ([true]), canceled, or neither *)
  we_wait : nat → option bool;               (* how a blocked read ends, if it does *)
  we_now : nat → Z;
  we_elapsed : nat → Z;
  we_python : nat → bytes → bytes * bool;    (* what the process prints in time, and whether it still runs *)
  we_stderr : nat → string;
  we_restart : nat → option string;          (* why the process cannot be started again *)
  we_store : option (nat → string → result exec_error bytes);  (* reading an object *)
  we_http : nat → string → bytes → result exec_error (Z * string * bytes)  (* url and body; status code, status and body *)
}.
(** Decoders: the replies of the Python executor, JSON arguments and strings. *)
Class ExecutorLib := {
  exec_Unmarshal : bytes → option (gmap string (bool + any));
  exec_value_json : bool + any → option bytes;
  json_request : execRequest → option bytes;
  json_response : bytes → option executorResponse;
  json_llm_args : bytes → option (list bytes * gmap string bytes);
  json_unquote : bytes → option string;
  json_quote : string → bytes;
  json_chat : string → string → Z → bytes;                              (* the request's body: model, prompt, token limit *)
  json_choices : bytes → option (list (string * string))                (* each choice's message content and text *)
}.
(** What a worker needs of its model cache; [ModelCache] provides it. *)
Class CacheOps (C : Type) := {
  cache_has : C → string → string → C * bool;
  cache_add : C → string → string → C;
  cache_used : C → Z;
  cache_capacity : C → Z;
  cache_usesCheckpointStore : C → bool;
  cache_ensureCheckpoint : C → string → string → C * result exec_error checkpointLoadResult
}.

Record Worker (C : Type) := { wk_tick : nat; wk_events : list event; wk_sources : gmap string string; wk_cache : C; wk_runner : option Runner }.
Arguments wk_tick {C}. Arguments wk_events {C}. Arguments wk_sources {C}. Arguments wk_cache {C}. Arguments wk_runner {C}.
Arguments Build_Worker {C}.

Section Exec.
Context `{WorkerEnv, ExecutorLib, MsgpackLib, FingerprintLib} {C : Type} `{!CacheOps C}.

(** [None]: the call never comes back. *)
Definition W (A : Type) : Type := Worker C → option (Worker C * result exec_error A).
#[export] Instance W_ret : MRet W := λ A a s, Some (s, Ok a).
#[export] Instance W_bind : MBind W := λ A B f m s,
  match m s with
  | Some (s, Ok a) => f a s
  | Some (s, Err e) => Some (s, Err e)
  | None => None
  end.
Definition fail {A} (e : exec_error) : W A := λ s, Some (s, Err e).
Definition attempt {A} (m : W A) : W (result exec_error A) := λ s,
  match m s with Some (s, r) => Some (s, Ok r) | None => None end.
Definition gets {A} (f : Worker C → A) : W A := λ s, Some (s, Ok (f s)).
Definition tick : W nat := λ s,
  Some ({| wk_tick := S (wk_tick s); wk_events := wk_events s; wk_sources := wk_sources s; wk_cache := wk_cache s; wk_runner := wk_runner s |}, Ok (wk_tick s)).
Definition emit (ev : event) : W unit := λ s,
  Some ({| wk_tick := wk_tick s; wk_events := wk_events s ++ [ev]; wk_sources := wk_sources s; wk_cache := wk_cache s; wk_runner := wk_runner s |}, Ok ()).
Definition set_sources (m : gmap string string) : W unit := λ s,
  Some ({| wk_tick := wk_tick s; wk_events := wk_events s; wk_sources := m; wk_cache := wk_cache s; wk_runner := wk_runner s |}, Ok ()).
Definition set_cache (c : C) : W unit := λ s,
  Some ({| wk_tick := wk_tick s; wk_events := wk_events s; wk_sources := wk_sources s; wk_cache := c; wk_runner := wk_runner s |}, Ok ()).
Definition set_runner (r : Runner) : W unit := λ s,
  Some ({| wk_tick := wk_tick s; wk_events := wk_events s; wk_sources := wk_sources s; wk_cache := wk_cache s; wk_runner := Some r |}, Ok ()).
Definition blocked {A} : W A := λ _, None.

(** An RPC; the call is made whether it succeeds or not. *)
Definition rpc (ev : event) : W unit :=
  n ← tick;
  _ ← emit ev;
  if we_rpc n then mret () else fail (plain_error (we_text n)).
Definition ctx_check : W unit :=
  n ← tick;
  match we_ctx n with None => mret () | Some deadline => fail (ctx_error deadline) end.
Definition now : W Z := n ← tick; mret (we_now n).
Definition elapsed : W Z := n ← tick; mret (we_elapsed n).

(** ** Frames *)

Definition maxExecutorFrameBytes : Z := 16777216.
(** [writeExecutorFrame]: the bytes it writes *)
Definition writeExecutorFrame (data : bytes) : result exec_error bytes :=
  if maxExecutorFrameBytes <? Z.of_nat (length data) then Err (plain_error "executor frame exceeds max")
  else Ok (put_be 4 (Z.of_nat (length data)) ++ data).

(** A read that cannot go on: the process is gone, or the wait ends with the context and
    the process is killed. [eof] says whether nothing was read. *)
Definition executorReadError (stderr : string) (eof : bool) : exec_error :=
  plain_error (if negb (str_empty stderr) then stderr else if eof then "python executor stopped" else "unexpected EOF").
Definition starve {A} (r : Runner) (eof : bool) : W A :=
  n ← tick;
  if rn_alive r then
    match we_wait n with
    | None => blocked
    | Some deadline => _ ← set_runner {| rn_json := rn_json r; rn_alive := false; rn_out := []; rn_known := rn_known r |}; fail (ctx_error deadline)
    end
  else _ ← set_runner {| rn_json := rn_json r; rn_alive := false; rn_out := []; rn_known := rn_known r |}; fail (executorReadError (we_stderr n) eof).
(** [io.ReadFull] of [k] bytes *)
Definition read_full (r : Runner) (k : nat) : W (Runner * bytes) :=
  if (k <=? length (rn_out r))%nat then
    let r' := {| rn_json := rn_json r; rn_alive := rn_alive r; rn_out := drop k (rn_out r); rn_known := rn_known r |} in
    _ ← set_runner r'; mret (r', take k (rn_out r))
  else starve r (bool_decide (rn_out r = [])).
(** [readExecutorFrame]; the header is consumed even when the size is refused. *)
Definition readExecutorFrame (r : Runner) : W bytes :=
  '(r, header) ← read_full r 4;
  let size := get_be header in
  if maxExecutorFrameBytes <? size then fail (plain_error "executor frame exceeds max")
  else '(_, data) ← read_full r (Z.to_nat size); mret data.
(** [stdout.ReadBytes('\n')] *)
Definition newline : byte := x0a.
Definition read_line (r : Runner) : W bytes :=
  match list_find (λ b, b = newline) (rn_out r) with
  | Some (i, _) =>
      _ ← set_runner {| rn_json := rn_json r; rn_alive := rn_alive r; rn_out := drop (S i) (rn_out r); rn_known := rn_known r |};
      mret (take (S i) (rn_out r))
  | None => starve r true
  end.

(** ** Requests and replies *)

Definition opt_field (key value : string) : list (string * any) := if str_empty value then [] else [(key, AString value)].
(** [marshalExecutorRequestMsgpack] *)
Definition request_fields (req : execRequest) : gmap string any :=
  list_to_map (match req with
  | inl f => opt_field "function_source" (xr_FunctionSource f) ++ opt_field "function_ref" (xr_FunctionRef f) ++ opt_field "function_hash" (xr_FunctionHash f) ++
             [("function_name", AString (xr_FunctionName f)); ("args_json", ABytes (xr_ArgsJSON f))]
  | inr a => [("mode", AString (xa_Mode a)); ("class_source", AString (xa_ClassSource a)); ("class_name", AString (xa_ClassName a)); ("method_name", AString (xa_MethodName a));
              ("args_json", ABytes (xa_ArgsJSON a)); ("state_json", ABytes (xa_StateJSON a)); ("init_args_json", ABytes (xa_InitArgsJSON a))]
  end).
Definition marshalExecutorRequestMsgpack (req : execRequest) : result exec_error bytes :=
  match msgpack_Marshal (request_fields req) with Some data => Ok data | None => Err (plain_error "msgpack") end.
(** The [any] of a reply's field; a boolean is none. *)
Definition field_any (v : option (bool + any)) : option any := match v with Some (inr a) => Some a | _ => None end.
(** A field: raw JSON bytes, or a value to be marshaled. *)
Definition response_field (fields : gmap string (bool + any)) (raw legacy : string) : result exec_error bytes :=
  match BytesValue (field_any (fields !! raw)) with
  | Some (b :: data) => Ok (b :: data)
  | _ => match fields !! legacy with
         | Some value => match exec_value_json value with Some data => Ok data | None => Err (plain_error "json") end
         | None => Ok []
         end
  end.
Definition boolValue (v : option (bool + any)) : bool := match v with Some (inl b) => b | _ => false end.
Definition unmarshalExecutorResponseMsgpack (data : bytes) : result exec_error executorResponse :=
  match exec_Unmarshal data with
  | None => Err (plain_error "msgpack")
  | Some fields =>
      res ← response_field fields "result_json" "result";
      state ← response_field fields "state_json" "state";
      Ok {| xs_OK := boolValue (fields !! "ok"); xs_Result := res; xs_State := state; xs_Error := StringValue (field_any (fields !! "error")) |}
  end.

(** ** Runners *)

Definition of_result {A} (r : result exec_error A) : W A := λ s, Some (s, r).
(** Writing to the process: a pipe without a reader is an error; a process that runs may
    print, and may end. *)
Definition send (r : Runner) (req : bytes) : W Runner :=
  if rn_alive r then
    n ← tick;
    _ ← emit (EvExecute req);
    let (out, alive) := we_python n req in
    let r' := {| rn_json := rn_json r; rn_alive := alive; rn_out := rn_out r ++ out; rn_known := rn_known r |} in
    _ ← set_runner r'; mret r'
  else fail (plain_error "broken pipe").
Definition executeJSONLocked (r : Runner) (req : execRequest) : W executorResponse :=
  match json_request req with
  | None => fail (plain_error "json")
  | Some data =>
      r ← send r (data ++ [newline]);
      line ← read_line r;
      match json_response (trim_space line) with Some resp => mret resp | None => fail (plain_error "json") end
  end.
Definition executeMsgpackLocked (r : Runner) (req : execRequest) : W executorResponse :=
  data ← of_result (marshalExecutorRequestMsgpack req);
  frame ← of_result (writeExecutorFrame data);
  r ← send r frame;
  reply ← readExecutorFrame r;
  of_result (unmarshalExecutorResponseMsgpack reply).
(** [Execute] *)
Definition Execute (r : Runner) (req : execRequest) : W executorResponse :=
  _ ← ctx_check;
  if rn_json r then executeJSONLocked r req else executeMsgpackLocked r req.
Definition knowsFunction (r : Runner) (hash : string) : bool := negb (str_empty hash) && bool_decide (hash ∈ rn_known r).
Definition markFunction (hash : string) : W unit :=
  r ← gets wk_runner;
  match r with
  | Some r => if str_empty hash then mret () else set_runner {| rn_json := rn_json r; rn_alive := rn_alive r; rn_out := rn_out r; rn_known := {[hash]} ∪ rn_known r |}
  | None => mret ()
  end.
(** [Restart]: the old process is killed first. *)
Definition Restart (r : Runner) : W unit :=
  n ← tick;
  match we_restart n with
  | Some text => _ ← set_runner {| rn_json := rn_json r; rn_alive := false; rn_out := rn_out r; rn_known := rn_known r |}; fail (plain_error text)
  | None => set_runner {| rn_json := rn_json r; rn_alive := true; rn_out := []; rn_known := ∅ |}
  end.

(** ** Function sources *)

(** [storeSource] *)
Definition storeSource (hash source : string) : W unit :=
  if str_empty hash || str_empty source then mret () else m ← gets wk_sources; set_sources (<[hash := source]> m).
(** [SourceForTask] *)
Definition SourceForTask (task : TaskSpec) : W string :=
  let hash := ts_FunctionHash task in
  let inline := ts_FunctionSource task in
  if str_empty hash then mret inline
  else if negb (str_empty inline) then
    if negb (bool_decide (hashFunctionSource inline = hash)) then fail (plain_error "function hash mismatch")
    else _ ← storeSource hash inline; mret inline
  else
    m ← gets wk_sources;
    match m !! hash with
    | Some cached => mret cached
    | None =>
        if str_empty (ts_FunctionRef task) then fail (plain_error "function source is not cached and function_ref is empty")
        else match we_store with
        | None => fail (plain_error "function object store is not configured")
        | Some get =>
            n ← tick;
            match get n (ts_FunctionRef task) with
            | Err e => fail e
            | Ok data =>
                let source := bytes_str data in
                if negb (bool_decide (hashFunctionSource source = hash)) then fail (plain_error "function object hash mismatch")
                else _ ← storeSource hash source; mret source
            end
        end
    end.

(** ** Executors *)

Definition json_null : bytes := [x6e; x75; x6c; x6c].
(** [runPythonExecutor] *)
Definition runPythonExecutor (task : TaskSpec) : W bytes :=
  runner ← gets wk_runner;
  match runner with
  | None => fail (plain_error "python runner is required for task execution")
  | Some r =>
      let hash := ts_FunctionHash task in
      source ← (if negb (str_empty hash) && negb (knowsFunction r hash) then SourceForTask task else mret (ts_FunctionSource task));
      resp ← Execute r (inl {| xr_FunctionSource := source; xr_FunctionRef := ts_FunctionRef task; xr_FunctionHash := hash;
                              xr_FunctionName := ts_FunctionName task; xr_ArgsJSON := ts_ArgsJson task |});
      if negb (xs_OK resp) then fail (plain_error (xs_Error resp))
      else
        _ ← (if negb (str_empty hash) && negb (str_empty source) then markFunction hash else mret ());
        mret (match xs_Result resp with [] => json_null | res => res end)
  end.
(** [runActorExecutor] *)
Definition runActorExecutor (task : TaskSpec) : W (bytes * bytes) :=
  runner ← gets wk_runner;
  match runner with
  | None => fail (plain_error "python runner is required for actor execution")
  | Some r =>
      resp ← Execute r (inr {| xa_Mode := "actor"; xa_ClassSource := ts_ActorClassSource task; xa_ClassName := ts_ActorClassName task;
                              xa_MethodName := ts_ActorMethod task; xa_ArgsJSON := ts_ArgsJson task; xa_StateJSON := ts_ActorStateJson task;
                              xa_InitArgsJSON := ts_ActorInitArgsJson task |});
      if negb (xs_OK resp) then fail (plain_error (xs_Error resp))
      else mret (match xs_Result resp with [] => json_null | res => res end, match xs_State resp with [] => [x7b; x7d] | state => state end)
  end.
(** [promptFromArgs] *)
Definition promptFromArgs (data : bytes) : result exec_error string :=
  match json_llm_args data with
  | None => Err (plain_error "json")
  | Some (arg :: _, _) => Ok (default (bytes_str arg) (json_unquote arg))
  | Some ([], kwargs) =>
      match kwargs !! "prompt" with
      | Some raw => Ok (default (bytes_str raw) (json_unquote raw))
      | None => Err (plain_error "llm prompt is required")
      end
  end.
Definition version_of (task : TaskSpec) : string := if str_empty (ts_LlmModelVersion task) then "v1" else ts_LlmModelVersion task.
(** [appendLLMEvent] *)
Definition appendLLMEvent (cfg : WorkerConfig) (task : TaskSpec) (eventType : string) (c : checkpointLoadResult) (loadMs firstMs totalMs : Z) : W unit :=
  ts ← now;
  rpc (EvLog eventType (ts_TaskId task +:+ ":" +:+ eventType) {|
    lv_TaskID := ts_TaskId task; lv_ModelName := ts_LlmModelName task; lv_ModelVersion := version_of task; lv_WorkerID := wc_WorkerID cfg;
    lv_CacheHit := cl_CacheHit c; lv_CheckpointFetchMs := cl_CheckpointFetchMs c; lv_CacheUsedBytes := cl_CacheUsedBytes c;
    lv_CacheCapacityBytes := cl_CacheCapacityBytes c; lv_EvictionCount := cl_EvictionCount c; lv_ModelLoadMs := loadMs;
    lv_FirstTokenMs := firstMs; lv_TotalLatencyMs := totalMs; lv_TimestampMs := ts |}).
Definition no_load : checkpointLoadResult := {| cl_CacheHit := false; cl_CheckpointFetchMs := 0; cl_ModelLoadMs := 0; cl_CacheUsedBytes := 0; cl_CacheCapacityBytes := 0; cl_EvictionCount := 0 |}.
Definition with_hit (c : checkpointLoadResult) (hit : bool) : checkpointLoadResult := {| cl_CacheHit := hit; cl_CheckpointFetchMs := cl_CheckpointFetchMs c;
  cl_ModelLoadMs := cl_ModelLoadMs c; cl_CacheUsedBytes := cl_CacheUsedBytes c; cl_CacheCapacityBytes := cl_CacheCapacityBytes c; cl_EvictionCount := cl_EvictionCount c |}.
(** At least one millisecond is reported. *)
Definition at_least_one (ms : Z) : Z := if ms =? 0 then 1 else ms.
(** [strings.TrimRight(s, "/")] *)
Fixpoint trim_right_slash (s : string) : string :=
  match s with
  | EmptyString => EmptyString
  | String c rest =>
      match trim_right_slash rest with
      | EmptyString => if Ascii.eqb c slash then EmptyString else String c EmptyString
      | rest => String c rest
      end
  end.
(** The text of a reply: the first choice's content, else its text. *)
Definition vllm_text (body : bytes) : result exec_error string :=
  match json_choices body with
  | None => Err (plain_error "json")
  | Some [] => Err (plain_error "vllm response has no choices")
  | Some ((content, text) :: _) => Ok (if negb (str_empty content) then content else text)
  end.
(** [callVLLM] *)
Definition callVLLM (cfg : WorkerConfig) (modelName version prompt : string) (maxTokens : Z) : W string :=
  if str_empty (wc_VLLMBaseURL cfg) then fail (plain_error "LOGSERVE_VLLM_BASE_URL is required for vllm adapter")
  else
    let model := if negb (str_empty version) && negb (bool_decide (version = "v1")) then modelName +:+ ":" +:+ version else modelName in
    n ← tick;
    '(code, status, body) ← of_result (we_http n (trim_right_slash (wc_VLLMBaseURL cfg) +:+ "/v1/chat/completions") (json_chat model prompt maxTokens));
    if 300 <=? code then fail (plain_error ("vllm request failed: " +:+ status +:+ ": " +:+ bytes_str body))
    else of_result (vllm_text body).

(** Bringing the model into the cache: the result and the load time. *)
Definition warm_model (task : TaskSpec) (adapter : string) (cacheHit : bool) : W (checkpointLoadResult * bool) :=
  c ← gets wk_cache;
  if cache_usesCheckpointStore c then
    let (c', r) := cache_ensureCheckpoint c (ts_LlmModelName task) (version_of task) in
    _ ← set_cache c';
    checkpoint ← of_result r;
    mret (checkpoint, cl_CacheHit checkpoint)
  else
    let checkpoint := {| cl_CacheHit := cacheHit; cl_CheckpointFetchMs := 0; cl_ModelLoadMs := 0; cl_CacheUsedBytes := cache_used c;
                         cl_CacheCapacityBytes := cache_capacity c; cl_EvictionCount := 0 |} in
    _ ← (if negb cacheHit && bool_decide (adapter = "mock") then ctx_check else mret ());
    mret (checkpoint, cacheHit).
(** [runLLMExecutor] *)
Definition runLLMExecutor (cfg : WorkerConfig) (task : TaskSpec) : W bytes :=
  let version := version_of task in
  let adapter := if str_empty (ts_LlmAdapter task) then "mock" else ts_LlmAdapter task in
  prompt ← of_result (promptFromArgs (ts_ArgsJson task));
  c ← gets wk_cache;
  let (c', cacheHit) := cache_has c (ts_LlmModelName task) version in
  _ ← set_cache c';
  _ ← appendLLMEvent cfg task "ModelLoadStarted" (with_hit no_load cacheHit) 0 0 0;
  '(checkpoint, cacheHit) ← warm_model task adapter cacheHit;
  loadMs ← (if cacheHit then mret (cl_ModelLoadMs checkpoint)
            else if cl_ModelLoadMs checkpoint =? 0 then ms ← elapsed; mret (at_least_one ms) else mret (cl_ModelLoadMs checkpoint));
  _ ← (if cacheHit then mret ()
       else
         c ← gets wk_cache;
         _ ← (if cache_usesCheckpointStore c then mret () else set_cache (cache_add c (ts_LlmModelName task) version));
         _ ← attempt (rpc EvHeartbeat); mret ());
  _ ← appendLLMEvent cfg task "ModelLoaded" (with_hit checkpoint cacheHit) loadMs 0 0;
  text ← (if bool_decide (adapter = "vllm") then attempt (callVLLM cfg (ts_LlmModelName task) version prompt (ts_LlmMaxTokens task))
          else _ ← ctx_check; mret (Ok ("mock:" +:+ ts_LlmModelName task +:+ ":" +:+ version +:+ ":" +:+ prompt)));
  firstTokenMs ← elapsed;
  text ← of_result text;
  totalMs ← elapsed;
  _ ← appendLLMEvent cfg task "LLMCompleted" (with_hit checkpoint cacheHit) loadMs (at_least_one firstTokenMs) (at_least_one totalMs);
  mret (json_quote text).

(** [runExecutor] *)
Definition runExecutor (cfg : WorkerConfig) (task : TaskSpec) : W (bytes * bytes) :=
  if negb (str_empty (ts_LlmModelName task)) then res ← runLLMExecutor cfg task; mret (res, [])
  else if negb (str_empty (ts_ActorId task)) then runActorExecutor task
  else res ← runPythonExecutor task; mret (res, []).

Definition execution_error (task : TaskSpec) (e : exec_error) : string :=
  if ee_deadline e && (0 <? ts_TimeoutMs task) then "task timed out after " +:+ pretty (ts_TimeoutMs task) +:+ "ms" else ee_text e.
(** [executeTask]: the completion to report, if any, and the error to log. *)
Definition executeTask (cfg : WorkerConfig) (task : TaskSpec) : W (option Completion * option exec_error) :=
  claimed ← attempt (rpc (EvStart (ts_TaskId task) (ts_TaskLeaseEpoch task)));
  match claimed with
  | Err e => mret (None, Some e)
  | Ok _ =>
      executed ← attempt (runExecutor cfg task);
      runner ← gets wk_runner;
      _ ← (match executed, runner with
           | Err e, Some r => if ee_deadline e && str_empty (ts_LlmModelName task) then _ ← attempt (Restart r); mret () else mret ()
           | _, _ => mret ()
           end);
      let completion status res text state := {| cn_TaskId := ts_TaskId task; cn_WorkerId := wc_WorkerID cfg; cn_Status := status; cn_ResultJson := res;
        cn_Error := text; cn_ActorStateJson := state; cn_ActorEpoch := ts_ActorEpoch task; cn_TaskLeaseEpoch := ts_TaskLeaseEpoch task |} in
      match executed with
      | Ok (res, state) => mret (Some (completion TASK_STATUS_SUCCEEDED res EmptyString state), None)
      | Err e => mret (Some (completion TASK_STATUS_FAILED [] (execution_error task e) []), Some e)
      end
  end.
(** [runPythonWorker]: the jobs of one executor, one after the other. *)
Fixpoint runJobs (cfg : WorkerConfig) (tasks : list TaskSpec) : W (list (option Completion * option exec_error)) :=
  match tasks with
  | [] => mret []
  | task :: rest => out ← executeTask cfg task; outs ← runJobs cfg rest; mret (out :: outs)
  end.
End Exec.
