(* ===== verification/WorkerExecSpec.v ===== *)
(** Theorems on the execution of a task ([WorkerExec]): what the reported completion says,
    which events it leaves, and what a runner whose process has gone, or whose output is out
    of step, does to later tasks. *)
From S2P Require Import Prelude Bytes EventCodec TaskSpec MetaStore Placement WorkerExec.

Open Scope Z_scope.

Section Spec.
Context `{WorkerEnv, ExecutorLib, MsgpackLib, FingerprintLib} {C : Type} `{!CacheOps C}.

(** ** A program logic: [Q] holds if the computation comes back. *)

Definition wpost {A} (m : W A) (Q : result exec_error A → Worker C → Prop) (s : Worker C) : Prop :=
  match m s with Some (s', r) => Q r s' | None => True end.
Lemma wpost_mono {A} (m : W A) (Q R : result exec_error A → Worker C → Prop) s : wpost m Q s → (∀ r s', Q r s' → R r s') → wpost m R s.
Proof. unfold wpost. destruct (m s) as [[s' r]|]; auto. Qed.
Lemma wpost_bind {A B} (m : W A) (f : A → W B) (Q : result exec_error B → Worker C → Prop) s :
  wpost m (λ r s', match r with Ok a => wpost (f a) Q s' | Err e => Q (Err e) s' end) s → wpost (m ≫= f) Q s.
Proof. unfold wpost, mbind, W_bind. by destruct (m s) as [[s' [a|e]]|]. Qed.
Lemma wpost_attempt {A} (m : W A) (Q : result exec_error (result exec_error A) → Worker C → Prop) s :
  wpost m (λ r s', Q (Ok r) s') s → wpost (attempt m) Q s.
Proof. unfold wpost, attempt. by destruct (m s) as [[s' r]|]. Qed.
Lemma wpost_seq {A B} (m : W A) (f : A → W B) (Q : result exec_error B → Worker C → Prop) (I : Worker C → Prop) s :
  wpost m (λ r s', I s' ∧ match r with Err e => Q (Err e) s' | _ => True end) s →
  (∀ a s', I s' → wpost (f a) Q s') → wpost (m ≫= f) Q s.
Proof. intros Hm Hf. apply wpost_bind. eapply wpost_mono; [exact Hm|]. intros [a|e] s' [? ?]; auto. Qed.

(** Computations that keep a property of the state. *)
Definition maintains {A} (I : Worker C → Prop) (m : W A) : Prop := ∀ s, I s → wpost m (λ _ s', I s') s.
Lemma maintains_ret {A} I (a : A) : maintains I (mret a).
Proof. by intros s Hs. Qed.
Lemma maintains_fail {A} I e : maintains I (fail e : W A).
Proof. by intros s Hs. Qed.
Lemma maintains_blocked {A} I : maintains I (blocked : W A).
Proof. by intros s Hs. Qed.
Lemma maintains_result {A} I (r : result exec_error A) : maintains I (of_result r).
Proof. by intros s Hs. Qed.
Lemma maintains_gets {A} I (f : Worker C → A) : maintains I (gets f).
Proof. by intros s Hs. Qed.
Lemma maintains_bind {A B} I (m : W A) (f : A → W B) : maintains I m → (∀ a, maintains I (f a)) → maintains I (m ≫= f).
Proof. intros Hm Hf s Hs. apply wpost_bind. eapply wpost_mono; [by apply Hm|]. intros [a|e] s' Hs'; [by apply Hf|done]. Qed.
Lemma maintains_attempt {A} I (m : W A) : maintains I m → maintains I (attempt m).
Proof. intros Hm s Hs. apply wpost_attempt. by apply Hm. Qed.
Create HintDb maintains.
Hint Resolve maintains_ret maintains_fail maintains_blocked maintains_result maintains_gets maintains_attempt : maintains.

(** ** Which calls are made *)

(** The log events among the calls. *)
Definition log_types (evs : list event) : list string := omap (λ ev, match ev with EvLog t _ _ => Some t | _ => None end) evs.
(** [grows s l]: the calls made since [s] log the events [l]. *)
Definition logged (s0 : Worker C) (l : list string) (s : Worker C) : Prop := ∃ evs, wk_events s = wk_events s0 ++ evs ∧ log_types evs = l.
Lemma logged_refl s : logged s [] s.
Proof. exists []. by rewrite app_nil_r. Qed.
Lemma logged_same s0 l s s' : wk_events s' = wk_events s → logged s0 l s → logged s0 l s'.
Proof. intros He (evs & Hs & Hl). exists evs. by rewrite He. Qed.
Lemma logged_emit s0 l s s' ev : wk_events s' = wk_events s ++ [ev] → logged s0 l s →
  logged s0 (l ++ match ev with EvLog t _ _ => [t] | _ => [] end) s'.
Proof.
  intros He (evs & Hs & Hl). exists (evs ++ [ev]). rewrite He, Hs, <- app_assoc. split; [done|]. unfold log_types in *. rewrite omap_app, Hl. by destruct ev.
Qed.
(** A computation that makes no log call. *)
Abbreviation quiet m := (∀ s0 l, maintains (logged s0 l) m).
Lemma quiet_tick : quiet (tick).
Proof. intros s0 l s Hs. exact Hs. Qed.
Lemma quiet_set_cache c : quiet (set_cache c).
Proof. intros s0 l s Hs. exact Hs. Qed.
Lemma quiet_set_runner r : quiet (set_runner r).
Proof. intros s0 l s Hs. exact Hs. Qed.
Lemma quiet_set_sources m : quiet (set_sources m).
Proof. intros s0 l s Hs. exact Hs. Qed.
Lemma quiet_emit ev : match ev with EvLog _ _ _ => False | _ => True end → quiet (emit ev).
Proof.
  intros Hev s0 l s (evs & He & Hl). exists (evs ++ [ev]). cbn. rewrite He, app_assoc. split; [done|]. unfold log_types in *. rewrite omap_app, Hl.
  by destruct ev; cbn; rewrite ?app_nil_r.
Qed.
Lemma quiet_rpc ev : match ev with EvLog _ _ _ => False | _ => True end → quiet (rpc ev).
Proof.
  intros Hev s0 l. unfold rpc. apply maintains_bind; [apply quiet_tick|]. intros n. apply maintains_bind; [by apply quiet_emit|]. intros _.
  destruct (we_rpc n); auto with maintains.
Qed.
Lemma quiet_ctx : quiet ctx_check.
Proof. intros s0 l. apply maintains_bind; [apply quiet_tick|]. intros n. destruct (we_ctx n); auto with maintains. Qed.
Lemma quiet_elapsed : quiet elapsed.
Proof. intros s0 l. apply maintains_bind; [apply quiet_tick|]. auto with maintains. Qed.
(** A log call, successful or not. *)
Lemma wpost_log s0 l cfg task t c a b d s : logged s0 l s →
  wpost (appendLLMEvent cfg task t c a b d) (λ r s', logged s0 (l ++ [t]) s') s.
Proof.
  intros Hs. unfold appendLLMEvent, now, rpc. unfold wpost, mbind, W_bind, tick, emit, mret, W_ret. cbn.
  assert (∀ n p src ca ru, logged s0 (l ++ [t]) {| wk_tick := n; wk_events := wk_events s ++ [EvLog t p src]; wk_sources := wk_sources s; wk_cache := ca; wk_runner := ru |}) as Hl.
  { intros n p src ca ru. apply (logged_emit s0 l s {| wk_tick := n; wk_events := _; wk_sources := _; wk_cache := ca; wk_runner := ru |} (EvLog t p src)); [reflexivity|exact Hs]. }
  destruct (we_rpc (S (wk_tick s))); apply Hl.
Qed.

(** The rest of execution makes no log call. *)
Ltac walk leaf :=
  repeat match goal with
  | |- maintains _ (_ ≫= _) => apply maintains_bind
  | |- maintains _ (attempt _) => apply maintains_attempt
  | |- maintains _ (if ?b then _ else _) => destruct b
  | |- maintains _ (match ?x with _ => _ end) => destruct x
  | |- maintains _ (let '(_, _) := ?x in _) => destruct x
  | |- ∀ _, maintains _ _ => intros ?
  | |- maintains _ _ => leaf ()
  end.
Ltac quietly := walk ltac:(fun _ => first
  [ solve [auto with maintains] | apply quiet_tick | apply quiet_ctx | apply quiet_elapsed | by apply quiet_rpc | by apply quiet_emit
  | apply quiet_set_runner | apply quiet_set_cache | apply quiet_set_sources ]).
Lemma quiet_source task : quiet (SourceForTask task).
Proof. intros s0 l. unfold SourceForTask, storeSource. quietly. Qed.
Lemma quiet_execute r req : quiet (Execute r req).
Proof. intros s0 l. unfold Execute, executeJSONLocked, executeMsgpackLocked, send, readExecutorFrame, read_line, read_full, starve. quietly. Qed.
Hint Resolve quiet_source quiet_execute : maintains.
Lemma quiet_python task : quiet (runPythonExecutor task).
Proof. intros s0 l. unfold runPythonExecutor, markFunction. quietly. Qed.
Lemma quiet_actor task : quiet (runActorExecutor task).
Proof. intros s0 l. unfold runActorExecutor. quietly. Qed.
Lemma quiet_restart r : quiet (Restart r).
Proof. intros s0 l. unfold Restart. quietly. Qed.
Lemma quiet_warm task adapter hit : quiet (warm_model task adapter hit).
Proof. intros s0 l. unfold warm_model. quietly. Qed.
Lemma quiet_vllm cfg name version prompt limit : quiet (callVLLM cfg name version prompt limit).
Proof. intros s0 l. unfold callVLLM. quietly. Qed.
Hint Resolve quiet_python quiet_actor quiet_restart quiet_warm quiet_vllm : maintains.

(** ** Language model tasks *)

Definition llm_events : list string := ["ModelLoadStarted"; "ModelLoaded"; "LLMCompleted"].
Definition llm_done (s0 : Worker C) {A} (r : result exec_error A) (s : Worker C) : Prop :=
  ∃ l, logged s0 l s ∧ match r with Ok _ => l = llm_events | Err _ => l `prefix_of` llm_events end.
(** A quiet step: what was logged stays, and the rest is as from the new state. *)
Lemma wpost_quiet {A B} (m : W A) (f : A → W B) (Q : result exec_error B → Worker C → Prop) s0 l s :
  quiet m → logged s0 l s → (∀ e s', logged s0 l s' → Q (Err e) s') → (∀ a s', logged s0 l s' → wpost (f a) Q s') → wpost (m ≫= f) Q s.
Proof. intros Hm Hs He Hf. apply wpost_bind. eapply wpost_mono; [by apply Hm|]. intros [a|e] s' Hs'; auto. Qed.
Lemma wpost_llm cfg task s : wpost (runLLMExecutor cfg task) (llm_done s) s.
Proof.
  assert (∀ l, l `prefix_of` llm_events → ∀ {A} (e : exec_error) s', logged s l s' → llm_done s (Err e : result exec_error A) s') as Hpre by (intros l Hl A e s' Hs'; by exists l).
  assert (∀ l t f cfg task c a b d s', logged s l s' → (l ++ [t]) `prefix_of` llm_events →
    (∀ s'', logged s (l ++ [t]) s'' → wpost (f ()) (llm_done s) s'') → wpost (appendLLMEvent cfg task t c a b d ≫= f : W bytes) (llm_done s) s') as Hlog.
  { intros l t f cfg' task' c a b d s' Hs' Hp Hf. apply wpost_bind. eapply wpost_mono; [by apply wpost_log|]. intros [[]|e] s'' Hs''; [by apply Hf|by apply (Hpre (l ++ [t]))]. }
  unfold runLLMExecutor. set (adapter := if str_empty (ts_LlmAdapter task) then _ else _).
  assert (([] : list string) `prefix_of` llm_events) as Hp0 by apply prefix_nil.
  assert (["ModelLoadStarted"] `prefix_of` llm_events) as Hp1 by (by eexists). assert (["ModelLoadStarted"; "ModelLoaded"] `prefix_of` llm_events) as Hp2 by (by eexists).
  apply (wpost_quiet _ _ _ s []); [intros ? ?; quietly|apply logged_refl|by apply Hpre|]. intros prompt s1 Hs1.
  apply (wpost_quiet _ _ _ s []); [intros ? ?; quietly|done|by apply Hpre|]. intros c s2 Hs2. destruct (cache_has c (ts_LlmModelName task) (version_of task)) as [c' hit].
  apply (wpost_quiet _ _ _ s []); [intros ? ?; quietly|done|by apply Hpre|]. intros _ s3 Hs3.
  apply (Hlog []); [done|done|]. intros s4 Hs4. cbn [app] in Hs4.
  apply (wpost_quiet _ _ _ s ["ModelLoadStarted"]); [intros ? ?; quietly|done|by apply Hpre|]. intros [checkpoint hit'] s5 Hs5.
  apply (wpost_quiet _ _ _ s ["ModelLoadStarted"]); [intros ? ?; quietly|done|by apply Hpre|]. intros loadMs s6 Hs6.
  apply (wpost_quiet _ _ _ s ["ModelLoadStarted"]); [intros ? ?; quietly|done|by apply Hpre|]. intros _ s7 Hs7.
  apply (Hlog ["ModelLoadStarted"]); [done|done|]. intros s8 Hs8. cbn [app] in Hs8.
  apply (wpost_quiet _ _ _ s ["ModelLoadStarted"; "ModelLoaded"]); [intros ? ?; quietly|done|by apply Hpre|]. intros text s9 Hs9.
  apply (wpost_quiet _ _ _ s ["ModelLoadStarted"; "ModelLoaded"]); [intros ? ?; quietly|done|by apply Hpre|]. intros first s10 Hs10.
  apply (wpost_quiet _ _ _ s ["ModelLoadStarted"; "ModelLoaded"]); [intros ? ?; quietly|done|by apply Hpre|]. intros text' s11 Hs11.
  apply (wpost_quiet _ _ _ s ["ModelLoadStarted"; "ModelLoaded"]); [intros ? ?; quietly|done|by apply Hpre|]. intros total s12 Hs12.
  apply (Hlog ["ModelLoadStarted"; "ModelLoaded"]); [done|done|]. intros s13 Hs13. by exists llm_events.
Qed.

(** ** Completions *)

(** What a completion says of an execution. *)
Definition reports (cfg : WorkerConfig) (task : TaskSpec) (cn : Completion) (err : option exec_error) : Prop :=
  cn_TaskId cn = ts_TaskId task ∧ cn_WorkerId cn = wc_WorkerID cfg ∧ cn_TaskLeaseEpoch cn = ts_TaskLeaseEpoch task ∧ cn_ActorEpoch cn = ts_ActorEpoch task ∧
  match err with
  | None => cn_Status cn = TASK_STATUS_SUCCEEDED ∧ cn_Error cn = EmptyString
  | Some e => cn_Status cn = TASK_STATUS_FAILED ∧ cn_Error cn = execution_error task e ∧ cn_ResultJson cn = [] ∧ cn_ActorStateJson cn = []
  end.
Lemma wpost_rpc ev (Q : result exec_error unit → Worker C → Prop) s :
  (∀ s1 r, wk_events s1 = wk_events s ++ [ev] → wk_runner s1 = wk_runner s → Q r s1) → wpost (rpc ev) Q s.
Proof.
  intros HQ. unfold rpc. apply wpost_bind. unfold wpost at 1, tick. apply wpost_bind. unfold wpost at 1, emit. destruct (we_rpc _); by apply HQ.
Qed.
(** [executeTask] around any property of the executor. *)
Lemma wpost_executeTask cfg task (Q : result exec_error (bytes * bytes) → Worker C → Prop) (R : option Completion * option exec_error → Worker C → Prop) s :
  (∀ s1, wk_events s1 = wk_events s ++ [EvStart (ts_TaskId task) (ts_TaskLeaseEpoch task)] → wk_runner s1 = wk_runner s → wpost (runExecutor cfg task) Q s1) →
  (∀ s1 e, wk_events s1 = wk_events s ++ [EvStart (ts_TaskId task) (ts_TaskLeaseEpoch task)] → wk_runner s1 = wk_runner s → R (None, Some e) s1) →
  (∀ r s1 s2 cn err, Q r s1 → match r with Ok _ => err = None | Err e => err = Some e end →
     (s2 = s1 ∨ ∃ e rn, r = Err e ∧ ee_deadline e = true ∧ ts_LlmModelName task = EmptyString ∧ wk_runner s1 = Some rn ∧ ∀ s0 l, logged s0 l s1 → logged s0 l s2) →
     reports cfg task cn err → R (Some cn, err) s2) →
  wpost (executeTask cfg task) (λ r s', ∃ out, r = Ok out ∧ R out s') s.
Proof.
  intros Hexec Hrefused Hdone. unfold executeTask. apply wpost_bind, wpost_attempt, wpost_rpc. intros s1 r He Hr.
  destruct r as [[]|e]; [|eexists; split; [reflexivity|by apply Hrefused]].
  apply wpost_bind, wpost_attempt. eapply wpost_mono; [by apply Hexec|]. cbn beta. intros r s2 HQ. apply wpost_bind. unfold wpost at 1, gets.
  apply wpost_bind.
  destruct r as [[res state]|e].
  - unfold wpost at 1, mret, W_ret. unfold wpost. cbn. eexists. split; [reflexivity|]. apply (Hdone _ _ _ _ None HQ); [done|by left|by split_and!].
  - assert (∀ s3, (s3 = s2 ∨ ∃ rn, ee_deadline e = true ∧ ts_LlmModelName task = EmptyString ∧ wk_runner s2 = Some rn ∧ ∀ s0 l, logged s0 l s2 → logged s0 l s3) →
      ∃ out, Ok (Some {| cn_TaskId := ts_TaskId task; cn_WorkerId := wc_WorkerID cfg; cn_Status := TASK_STATUS_FAILED; cn_ResultJson := [];
        cn_Error := execution_error task e; cn_ActorStateJson := []; cn_ActorEpoch := ts_ActorEpoch task; cn_TaskLeaseEpoch := ts_TaskLeaseEpoch task |}, Some e) = (Ok out : result exec_error _) ∧ R out s3) as Hfail.
    { intros s3 Hs3. eexists. split; [reflexivity|]. apply (Hdone _ _ _ _ (Some e) HQ); [done| |by split_and!].
      destruct Hs3 as [->|(rn & ? & ? & ? & ?)]; [by left|right; by exists e, rn]. }
    destruct (wk_runner s2) as [rn|] eqn:Hrn; [|unfold wpost at 1, mret, W_ret; apply Hfail; by left].
    destruct (ee_deadline e && str_empty (ts_LlmModelName task)) eqn:Hd; [|unfold wpost at 1, mret, W_ret; apply Hfail; by left].
    apply andb_true_iff in Hd as [Hd Hm%str_empty_true]. apply wpost_bind, wpost_attempt. unfold wpost at 1, Restart, mbind, W_bind, tick. cbn.
    destruct (we_restart _); cbn; apply Hfail; right; exists rn; split_and!; try done; intros s0 l Hl; by apply (logged_same s0 l s2).
Qed.

(** A completion is a report of the task's execution. *)
Lemma executeTask_reports cfg task (s s' : Worker C) cn err : executeTask cfg task s = Some (s', Ok (Some cn, err)) → reports cfg task cn err.
Proof.
  intros Hrun. pose proof (wpost_executeTask cfg task (λ _ _, True) (λ out _, match out.1 with Some cn => reports cfg task cn out.2 | None => True end) s) as H3.
  unfold wpost in H3 at 2. rewrite Hrun in H3. destruct H3 as (out & [= <-] & Hrep); [| |by intros|exact Hrep]; [|done].
  intros s1 _ _. unfold wpost. by destruct (runExecutor cfg task s1) as [[]|].
Qed.

(** ** Coming back *)

(** A computation that comes back from every state. *)
Definition returns {A} (m : W (C:=C) A) : Prop := ∀ s, is_Some (m s).
Lemma returns_bind {A B} (m : W (C:=C) A) (f : A → W (C:=C) B) : returns m → (∀ a, returns (f a)) → returns (m ≫= f).
Proof. intros Hm Hf s. unfold mbind, W_bind. destruct (Hm s) as [[s' [a|e]] ->]; [apply Hf|by eexists]. Qed.
Lemma returns_attempt {A} (m : W (C:=C) A) : returns m → returns (attempt m).
Proof. intros Hm s. unfold attempt. destruct (Hm s) as [[s' r] ->]. by eexists. Qed.
(** Every blocked read ends, with the context. *)
Context (Hwait : ∀ n, we_wait n ≠ None).
Lemma returns_starve {A} r eof : returns (starve r eof : W (C:=C) A).
Proof.
  intros s. unfold starve, mbind, W_bind, tick. cbn. destruct (rn_alive r); [|by eexists]. destruct (we_wait _) eqn:Hw; [by eexists|by apply Hwait in Hw].
Qed.
Ltac coming_back :=
  repeat match goal with
  | |- returns (_ ≫= _) => apply returns_bind
  | |- returns (attempt _) => apply returns_attempt
  | |- returns (starve _ _) => apply returns_starve
  | |- returns (if ?b then _ else _) => destruct b
  | |- returns (match ?x with _ => _ end) => destruct x
  | |- returns (let '(_, _) := ?x in _) => destruct x
  | |- ∀ _, returns _ => intros ?
  | |- returns _ => solve [intros ?; eexists; reflexivity]
  end.
Lemma runExecutor_returns cfg task : returns (runExecutor (C:=C) cfg task).
Proof.
  unfold runExecutor, runLLMExecutor, runActorExecutor, runPythonExecutor, markFunction, SourceForTask, storeSource, warm_model, appendLLMEvent,
    callVLLM, now, elapsed, rpc, Execute, executeJSONLocked, executeMsgpackLocked, send, readExecutorFrame, read_line, read_full, ctx_check, rpc. coming_back.
Qed.
Lemma executeTask_returns cfg task : returns (executeTask (C:=C) cfg task).
Proof.
  unfold executeTask, runExecutor, runLLMExecutor, runActorExecutor, runPythonExecutor, markFunction, SourceForTask, storeSource, Restart, warm_model, appendLLMEvent,
    callVLLM, now, elapsed, rpc, Execute, executeJSONLocked, executeMsgpackLocked, send, readExecutorFrame, read_line, read_full, ctx_check, rpc. coming_back.
Qed.
Lemma wpost_total {A} (m : W (C:=C) A) (Q : result exec_error A → Worker C → Prop) s : returns m → wpost m Q s → ∃ s' r, m s = Some (s', r) ∧ Q r s'.
Proof. intros Hr. unfold wpost. destruct (Hr s) as [[s' r] ->]. intros HQ. by exists s', r. Qed.

Lemma logged_start (s s1 s2 : Worker C) l ev : wk_events s1 = wk_events s ++ [ev] → logged s1 l s2 → ∃ evs, wk_events s2 = wk_events s ++ ev :: evs ∧ log_types evs = l.
Proof. intros He (evs & Hs & Hl). exists evs. by rewrite Hs, He, <- app_assoc. Qed.

(** The completion of an execution, and the error that is logged. *)
Definition completion_of (cfg : WorkerConfig) (task : TaskSpec) (r : result exec_error (bytes * bytes)) : Completion := {|
  cn_TaskId := ts_TaskId task; cn_WorkerId := wc_WorkerID cfg;
  cn_Status := match r with Ok _ => TASK_STATUS_SUCCEEDED | Err _ => TASK_STATUS_FAILED end;
  cn_ResultJson := match r with Ok (res, _) => res | Err _ => [] end;
  cn_Error := match r with Ok _ => EmptyString | Err e => execution_error task e end;
  cn_ActorStateJson := match r with Ok (_, state) => state | Err _ => [] end;
  cn_ActorEpoch := ts_ActorEpoch task; cn_TaskLeaseEpoch := ts_TaskLeaseEpoch task |}.
Definition error_of {A} (r : result exec_error A) : option exec_error := match r with Ok _ => None | Err e => Some e end.

(** What the executors log. *)
Lemma executor_logs cfg task (s : Worker C) :
  wpost (runExecutor cfg task) (λ r s', ∃ l, logged s l s' ∧
    if str_empty (ts_LlmModelName task) then l = [] else match r with Ok _ => l = llm_events | Err _ => l `prefix_of` llm_events end) s.
Proof.
  unfold runExecutor. destruct (str_empty (ts_LlmModelName task)) eqn:Hm; cbn [negb].
  - assert (maintains (logged s []) (if negb (str_empty (ts_ActorId task)) then runActorExecutor task else res ← runPythonExecutor task; mret (res, []))) as Hq by quietly.
    eapply wpost_mono; [apply Hq, logged_refl|]. intros r s2 Hl. by exists [].
  - apply wpost_bind. eapply wpost_mono; [apply wpost_llm|]. intros [res|e] s2 (l & Hl & Hd); [unfold wpost, mret, W_ret|]; by exists l.
Qed.
(** What follows the executor logs nothing, and cannot change the outcome. *)
Lemma after_executor cfg task (s s1 s2 : Worker C) r :
  rpc (EvStart (ts_TaskId task) (ts_TaskLeaseEpoch task)) s = Some (s1, Ok ()) → runExecutor cfg task s1 = Some (s2, r) →
  ∃ s3, executeTask cfg task s = Some (s3, Ok (Some (completion_of cfg task r), error_of r)) ∧ ∀ s0 l, logged s0 l s2 → logged s0 l s3.
Proof.
  intros Hrpc Hrun. unfold executeTask, mbind, W_bind, attempt. rewrite Hrpc. unfold mret, W_ret. cbn beta iota. rewrite Hrun. unfold gets. cbn beta iota.
  destruct r as [[res state]|e]; [by eexists|]. destruct (wk_runner s2) as [rn|]; [|by eexists]. destruct (_ && _); [|by eexists].
  unfold Restart, mbind, W_bind, tick. cbn. destruct (we_restart _); cbn; eexists; (split; [reflexivity|]); intros x l Hl; by apply (logged_same x l s2).
Qed.

(** C14: a task's execution always comes back, when every blocked read ends with its context.
    It begins with the call that starts the task.  If that call is refused, nothing else is
    done and nothing is reported.  If it is accepted the executor of the task's kind runs, and
    its outcome is reported, whatever else happens: a success with its result and actor state
    if it returned them, and otherwise a failure with its error; with the task, worker, lease
    and actor epochs.  A language model task that succeeds has logged its three events, in
    order, and one that fails the first of them; other tasks log none. *)
Theorem completion_reports_execution cfg task (s : Worker C) :
  ∃ s1 claimed, rpc (EvStart (ts_TaskId task) (ts_TaskLeaseEpoch task)) s = Some (s1, claimed) ∧
    wk_events s1 = wk_events s ++ [EvStart (ts_TaskId task) (ts_TaskLeaseEpoch task)] ∧
    (claimed = Ok () ↔ we_rpc (wk_tick s) = true) ∧
    match claimed with
    | Err e => executeTask cfg task s = Some (s1, Ok (None, Some e))
    | Ok _ => ∃ s2 r s3, runExecutor cfg task s1 = Some (s2, r) ∧
        executeTask cfg task s = Some (s3, Ok (Some (completion_of cfg task r), error_of r)) ∧
        ∃ evs, wk_events s3 = wk_events s1 ++ evs ∧
          if str_empty (ts_LlmModelName task) then log_types evs = []
          else match r with Ok _ => log_types evs = llm_events | Err _ => log_types evs `prefix_of` llm_events end
    end.
Proof.
  set (start := EvStart (ts_TaskId task) (ts_TaskLeaseEpoch task)).
  assert (Hrpc : ∃ s1 claimed, rpc start s = Some (s1, claimed) ∧ wk_events s1 = wk_events s ++ [start] ∧ (claimed = Ok () ↔ we_rpc (wk_tick s) = true)).
  { unfold rpc, mbind, W_bind, tick, emit. cbn. destruct (we_rpc (wk_tick s)); eexists _, _; by split_and!. }
  destruct Hrpc as (s1 & claimed & Hrpc & He & Hok). exists s1, claimed. split; [done|]. split; [done|]. split; [done|].
  destruct claimed as [[]|e]; [|unfold executeTask, mbind, W_bind, attempt; fold start; by rewrite Hrpc].
  destruct (wpost_total (runExecutor cfg task) _ s1 (runExecutor_returns cfg task) (executor_logs cfg task s1)) as (s2 & r & Hrun & l & Hl & Hev).
  destruct (after_executor cfg task s s1 s2 r Hrpc Hrun) as (s3 & Hex & Hlog). exists s2, r, s3. split_and!; [done|done|].
  destruct (Hlog s1 l Hl) as (evs & Hs3 & Ht). exists evs. by rewrite Ht.
Qed.

(** ** Function sources *)

Definition sound_sources (s : Worker C) : Prop := ∀ hash source, wk_sources s !! hash = Some source → hashFunctionSource source = hash.
(** Everything but the cache of sources leaves it alone. *)
Ltac unsourced := walk ltac:(fun _ => first [solve [auto with maintains] | solve [let s := fresh in let Hs := fresh in intros s Hs; exact Hs]]).
Lemma sound_store hash source : hashFunctionSource source = hash → maintains sound_sources (storeSource hash source).
Proof.
  intros Hh s Hs. unfold storeSource. destruct (_ || _); [exact Hs|]. intros h src. cbn [wk_sources set_sources gets mbind W_bind].
  destruct (decide (hash = h)) as [<-|]; [rewrite lookup_insert_eq; by intros [= <-]|rewrite lookup_insert_ne by done; apply Hs].
Qed.
Lemma wpost_source task (s : Worker C) : sound_sources s →
  wpost (SourceForTask task) (λ r s', sound_sources s' ∧ ∀ source, r = Ok source → ts_FunctionHash task ≠ EmptyString → hashFunctionSource source = ts_FunctionHash task) s.
Proof.
  intros Hs. unfold SourceForTask. destruct (str_empty (ts_FunctionHash task)) eqn:He; [apply str_empty_true in He; by split|].
  assert (∀ src s', sound_sources s' → hashFunctionSource src = ts_FunctionHash task →
    wpost (_ ← storeSource (ts_FunctionHash task) src; mret src : W (C:=C) string) (λ r s', sound_sources s' ∧ ∀ source, r = Ok source → ts_FunctionHash task ≠ EmptyString → hashFunctionSource source = ts_FunctionHash task) s') as Hst.
  { intros src s' Hs' Hh. apply wpost_bind. eapply wpost_mono; [by apply sound_store|]. intros [[]|e] s2 Hs2; (split; [done|]); intros src' [= <-]; done. }
  assert (∀ e s', sound_sources s' → wpost (fail e : W (C:=C) string) (λ r s', sound_sources s' ∧ ∀ source, r = Ok source → ts_FunctionHash task ≠ EmptyString → hashFunctionSource source = ts_FunctionHash task) s') as Hfail
    by (intros e s' Hs'; split; [done|]; discriminate).
  cbv zeta. destruct (str_empty (ts_FunctionSource task)); cbn [negb].
  - apply wpost_bind. unfold wpost at 1, gets. destruct (wk_sources s !! _) as [c|] eqn:Hc; [split; [done|]; intros src [= <-] _; by apply Hs|].
    destruct (str_empty (ts_FunctionRef task)); [by apply Hfail|]. destruct we_store as [get|]; [|by apply Hfail]. apply wpost_bind. unfold wpost at 1, tick.
    destruct (get _ _) as [data|e]; [|by apply Hfail]. case_bool_decide as Hh; cbn [negb]; [by apply Hst|by apply Hfail].
  - case_bool_decide as Hh; cbn [negb]; [by apply Hst|by apply Hfail].
Qed.
Lemma sound_source task : maintains sound_sources (SourceForTask task).
Proof. intros s Hs. eapply wpost_mono; [by apply wpost_source|]. by intros r s' []. Qed.
Lemma sound_execute r req : maintains sound_sources (Execute r req).
Proof. unfold Execute, ctx_check, executeJSONLocked, executeMsgpackLocked, send, readExecutorFrame, read_line, read_full, starve. unsourced. Qed.
Hint Resolve sound_source sound_execute : maintains.
Lemma sound_executeTask cfg task : maintains sound_sources (executeTask cfg task).
Proof.
  unfold executeTask, runExecutor, runLLMExecutor, runActorExecutor, runPythonExecutor, markFunction, Restart, warm_model, appendLLMEvent, callVLLM, now, elapsed, rpc, ctx_check. unsourced.
Qed.
Hint Resolve sound_executeTask : maintains.
Lemma sound_jobs cfg tasks : maintains sound_sources (runJobs cfg tasks).
Proof. induction tasks; cbn [runJobs]; unsourced. Qed.
(** whatever a worker that started with no function source has executed, a source it
    takes for a task that names a hash has that hash, whether it was inline, remembered or
    fetched from the object store. *)
Theorem source_has_the_hash cfg tasks (s s1 s2 : Worker C) outs task source :
  wk_sources s = ∅ → runJobs cfg tasks s = Some (s1, outs) → SourceForTask task s1 = Some (s2, Ok source) → ts_FunctionHash task ≠ EmptyString →
  hashFunctionSource source = ts_FunctionHash task.
Proof.
  intros Hs Hrun Hsrc Hne. assert (sound_sources s) as Hs0 by (intros h src; rewrite Hs, lookup_empty; done).
  pose proof (sound_jobs cfg tasks s Hs0) as Hs1. unfold wpost in Hs1. rewrite Hrun in Hs1.
  pose proof (wpost_source task s1 Hs1) as Hs2. unfold wpost in Hs2. rewrite Hsrc in Hs2. by apply Hs2.
Qed.

(** ** A runner whose process has gone *)

Definition dead (s : Worker C) : Prop := ∃ r, wk_runner s = Some r ∧ rn_alive r = false.
(** Nothing but the context reports that a deadline has passed, and it does not pass. *)
Context (Hctx : ∀ n, we_ctx n ≠ Some true).
Context (Hstore : ∀ get n ref e, we_store = Some get → get n ref = Err e → ee_deadline e = false).
(** A computation that leaves the runner alone and fails, if it does, without a deadline. *)
Definition tame {A} (m : W (C:=C) A) : Prop := ∀ s, wpost m (λ r s', wk_runner s' = wk_runner s ∧ ∀ e, r = Err e → ee_deadline e = false) s.
(** … and one that always fails. *)
Definition barren {A} (rn : option Runner) (m : W (C:=C) A) : Prop :=
  ∀ s, wk_runner s = rn → wpost m (λ r s', wk_runner s' = rn ∧ ∃ e, r = Err e ∧ ee_deadline e = false) s.
Lemma barren_bind {A B} rn (m : W (C:=C) A) (f : A → W (C:=C) B) : tame m → (∀ a, barren rn (f a)) → barren rn (m ≫= f).
Proof.
  intros Hm Hf s Hs. apply wpost_bind. eapply wpost_mono; [apply Hm|]. intros [a|e] s' [Hr He]; [apply Hf; congruence|]. split; [congruence|]. exists e. auto.
Qed.
Lemma barren_stop {A B} rn (m : W (C:=C) A) (f : A → W (C:=C) B) : barren rn m → barren rn (m ≫= f).
Proof. intros Hm s Hs. apply wpost_bind. eapply wpost_mono; [by apply Hm|]. intros [a|e] s' (Hr & e' & He & Hd); [done|]. split; [done|]. exists e'. split; [congruence|done]. Qed.
Lemma barren_fail {A} rn text : barren rn (fail (plain_error text) : W (C:=C) A).
Proof. intros s Hs. split; [done|]. by eexists. Qed.
Lemma tame_ctx : tame ctx_check.
Proof.
  intros s. unfold ctx_check. apply wpost_bind. unfold wpost at 1, tick. pose proof (Hctx (wk_tick s)) as Hc.
  destruct (we_ctx _) as [[]|]; [done| |]; (split; [done|]); intros e [= <-]; done.
Qed.
Lemma tame_result {A} (r : result exec_error A) : (∀ e, r = Err e → ee_deadline e = false) → tame (of_result r).
Proof. by intros Hr s. Qed.
Lemma tame_ret {A} (a : A) : tame (mret a : W (C:=C) A).
Proof. by intros s. Qed.
Lemma tame_source task : tame (SourceForTask task).
Proof.
  intros s. unfold SourceForTask. destruct (str_empty (ts_FunctionHash task)); [by split|].
  assert (∀ text, wpost (fail (plain_error text) : W (C:=C) string) (λ r s', wk_runner s' = wk_runner s ∧ ∀ e, r = Err e → ee_deadline e = false) s) as Hf
    by (intros text; split; [done|]; by intros e [= <-]).
  assert (∀ h src s', wk_runner s' = wk_runner s → wpost (_ ← storeSource h src; mret src : W (C:=C) string) (λ r s', wk_runner s' = wk_runner s ∧ ∀ e, r = Err e → ee_deadline e = false) s') as Hs
    by (intros h src s' Hs'; unfold storeSource; by destruct (_ || _)).
  destruct (negb _); [destruct (negb _); [apply Hf|by apply Hs]|]. apply wpost_bind. unfold wpost at 1, gets.
  destruct (wk_sources s !! _); [by split|]. destruct (str_empty _); [apply Hf|]. destruct we_store as [get|] eqn:Hg; [|apply Hf].
  apply wpost_bind. unfold wpost at 1, tick. destruct (get _ _) as [data|e] eqn:Hget; [|split; [done|]; intros e' [= <-]; by eapply Hstore].
  cbv zeta. destruct (negb _); [split; [done|]; by intros e [= <-]|by apply Hs].
Qed.
Lemma barren_execute r req : rn_alive r = false → ∀ rn, barren rn (Execute (C:=C) r req).
Proof.
  intros Hr rn. apply barren_bind; [apply tame_ctx|]. intros _. destruct (rn_json r).
  - unfold executeJSONLocked. destruct (json_request req); [|apply barren_fail]. apply barren_stop. unfold send. rewrite Hr. apply barren_fail.
  - unfold executeMsgpackLocked. apply barren_bind; [apply tame_result; unfold marshalExecutorRequestMsgpack; destruct (msgpack_Marshal _); intros e [= <-]; done|]. intros data.
    apply barren_bind; [apply tame_result; unfold writeExecutorFrame; destruct (_ <? _); intros e [= <-]; done|]. intros frame.
    apply barren_stop. unfold send. rewrite Hr. apply barren_fail.
Qed.
Lemma barren_executor cfg task r : rn_alive r = false → ts_LlmModelName task = EmptyString → barren (Some r) (runExecutor (C:=C) cfg task).
Proof.
  intros Hr Hm. unfold runExecutor. rewrite Hm. cbn [str_empty negb].
  destruct (negb (str_empty (ts_ActorId task))).
  - intros s Hs. unfold runActorExecutor. apply wpost_bind. unfold wpost at 1, gets. rewrite Hs. by apply (barren_stop _ _ _ (barren_execute _ _ Hr _)).
  - apply barren_stop. intros s Hs. unfold runPythonExecutor. apply wpost_bind. unfold wpost at 1, gets. rewrite Hs. revert s Hs.
    apply barren_bind; [destruct (_ && _); [apply tame_source|apply tame_ret]|]. intros source. by apply barren_stop, barren_execute.
Qed.

(** What a failed execution on such a runner gives. *)
Definition failed (cfg : WorkerConfig) (task : TaskSpec) (out : option Completion * option exec_error) : Prop :=
  match out.1 with Some cn => reports cfg task cn out.2 ∧ cn_Status cn = TASK_STATUS_FAILED | None => is_Some out.2 end.
Lemma dead_execute cfg task (s : Worker C) r : rn_alive r = false → wk_runner s = Some r → ts_LlmModelName task = EmptyString →
  wpost (executeTask cfg task) (λ res s', ∃ out, res = Ok out ∧ wk_runner s' = Some r ∧ failed cfg task out) s.
Proof.
  intros Hr Hs Hm. eapply wpost_mono.
  - apply (wpost_executeTask cfg task (λ res s', wk_runner s' = Some r ∧ ∃ e, res = Err e ∧ ee_deadline e = false) (λ out s', wk_runner s' = Some r ∧ failed cfg task out)).
    + intros s1 _ Hs1. apply barren_executor; [done..|]. congruence.
    + intros s1 e _ Hs1. split; [congruence|by eexists].
    + intros res s1 s2 cn err (Hs1 & e & -> & Hd) -> Hs2 Hrep. destruct Hs2 as [->|(e' & rn & [= <-] & ? & _)]; [|congruence].
      split; [done|]. split; [done|]. apply Hrep.
  - intros res s' (out & -> & Hout). by exists out.
Qed.
(** C15: nothing starts a runner's process again once it has ended by itself: as long as no
    deadline passes, every later task of that runner that the control plane lets it start
    is reported as failed, and the runner stays as it is. *)
Theorem ended_runner_fails_every_task cfg tasks (s : Worker C) r :
  wk_runner s = Some r → rn_alive r = false → Forall (λ task, ts_LlmModelName task = EmptyString) tasks →
  ∃ s' outs, runJobs cfg tasks s = Some (s', Ok outs) ∧ wk_runner s' = Some r ∧ Forall2 (failed cfg) tasks outs.
Proof.
  intros Hs Hr Ht. revert s Hs. induction Ht as [|task tasks Hm Ht IH]; intros s Hs; [by exists s, []|].
  destruct (wpost_total _ _ s (executeTask_returns cfg task) (dead_execute cfg task s r Hr Hs Hm)) as (s1 & res & Hrun & out & -> & Hs1 & Hf).
  destruct (IH s1 Hs1) as (s2 & outs & Hruns & Hs2 & Hfs). exists s2, (out :: outs). cbn [runJobs]. unfold mbind, W_bind. rewrite Hrun, Hruns. by split_and!; [| |constructor].
Qed.

(** ** Frames and the order of replies *)

(** A payload that fits, and the frames of some payloads. *)
Definition fits (data : bytes) : Prop := Z.of_nat (length data) <= maxExecutorFrameBytes.
Definition frame (data : bytes) : bytes := put_be 4 (Z.of_nat (length data)) ++ data.
Lemma writeExecutorFrame_ok data : fits data → writeExecutorFrame data = Ok (frame data).
Proof. unfold writeExecutorFrame. intros Hf. by rewrite (proj2 (Z.ltb_ge _ _) Hf). Qed.
Lemma read_full_prefix (r : Runner) a b (s : Worker C) : rn_out r = a ++ b →
  read_full r (length a) s = let r' := {| rn_json := rn_json r; rn_alive := rn_alive r; rn_out := b; rn_known := rn_known r |} in
    Some ({| wk_tick := wk_tick s; wk_events := wk_events s; wk_sources := wk_sources s; wk_cache := wk_cache s; wk_runner := Some r' |}, Ok (r', a)).
Proof.
  intros Hr. unfold read_full. rewrite Hr, length_app, (proj2 (Nat.leb_le _ _)) by lia. rewrite drop_app_length, take_app_length. done.
Qed.
(** Reading takes exactly the first frame. *)
Lemma readExecutorFrame_frame (r : Runner) data rest (s : Worker C) : fits data → rn_out r = frame data ++ rest →
  readExecutorFrame r s = Some ({| wk_tick := wk_tick s; wk_events := wk_events s; wk_sources := wk_sources s; wk_cache := wk_cache s;
    wk_runner := Some {| rn_json := rn_json r; rn_alive := rn_alive r; rn_out := rest; rn_known := rn_known r |} |}, Ok data).
Proof.
  intros Hf Hr. unfold frame in Hr. rewrite <- app_assoc in Hr. unfold readExecutorFrame, mbind, W_bind.
  pose proof (read_full_prefix r _ _ s Hr) as H4. rewrite length_put_be in H4. rewrite H4. cbv zeta. unfold fits, maxExecutorFrameBytes in *.
  rewrite get_put_be by (split; [lia|]; change (2 ^ (8 * Z.of_nat 4)) with 4294967296; lia). unfold maxExecutorFrameBytes. rewrite (proj2 (Z.ltb_ge _ _)) by lia.
  rewrite Nat2Z.id, (read_full_prefix _ data rest) by done. reflexivity.
Qed.
(** C16: replies are taken in the order in which their frames were written: a request is
    answered by the first frame the process has ever written and nobody has read, whether
    it wrote it in answer to this request or before, and the others stay for the next. *)
Theorem replies_in_order (r : Runner) req data pending written reply rest alive (s : Worker C) :
  rn_json r = false → rn_alive r = true → rn_out r = concat (map frame pending) → we_ctx (wk_tick s) = None →
  msgpack_Marshal (request_fields req) = Some data → fits data → we_python (S (wk_tick s)) (frame data) = (concat (map frame written), alive) →
  pending ++ written = reply :: rest → fits reply →
  Execute r req s = Some ({| wk_tick := S (S (wk_tick s)); wk_events := wk_events s ++ [EvExecute (frame data)]; wk_sources := wk_sources s; wk_cache := wk_cache s;
    wk_runner := Some {| rn_json := false; rn_alive := alive; rn_out := concat (map frame rest); rn_known := rn_known r |} |}, unmarshalExecutorResponseMsgpack reply).
Proof.
  intros Hj Ha Ho Hc Hm Hfits Hp Hrep Hfr. unfold Execute, ctx_check, mbind, W_bind, tick. rewrite Hc. cbn [mret W_ret]. unfold mret, W_ret. rewrite Hj.
  unfold executeMsgpackLocked, marshalExecutorRequestMsgpack, of_result, mbind, W_bind. rewrite Hm, (writeExecutorFrame_ok _ Hfits). unfold send. rewrite Ha.
  unfold mbind, W_bind, tick, emit. cbn [wk_tick]. rewrite Hp. unfold set_runner, mret, W_ret. cbn [wk_tick wk_events wk_sources wk_cache].
  rewrite (readExecutorFrame_frame _ reply (concat (map frame rest))) by (try done; cbn; rewrite Ho, <- concat_app, <- map_app, Hrep; done).
  cbn. by rewrite Hj.
Qed.
End Spec.
