(* ===== verification/WorkerExecDemo.v ===== *)
(** Witnesses of the theorems on task execution, and a run in which a task's output answers
    the request of the next. *)
From stdpp Require Import pretty.
From S2P Require Import Prelude Bytes EventCodec TaskSpec MetaStore TaskReplay ControlTasks ServiceDemo WorkerExec WorkerExecSpec.

Open Scope Z_scope.

(** A process that answers a request with the frames [out n]; [alive]: whether it is there. *)
Definition toy_worker (out : nat → list bytes) : WorkerEnv := {|
  we_rpc := λ _, true; we_text := λ _, ""; we_ctx := λ _, None; we_wait := λ _, Some false; we_now := Z.of_nat; we_elapsed := λ _, 0;
  we_python := λ n _, (concat (map frame (out n)), true); we_stderr := λ _, ""; we_restart := λ _, None; we_store := None;
  we_http := λ _ _ _, Err (plain_error "no server") |}.
(** A reply is taken as the result it carries. *)
Definition toy_executor : ExecutorLib := {|
  exec_Unmarshal := λ data, Some {[ "ok" := inl true; "result_json" := inr (ABytes data) ]};
  exec_value_json := λ _, None; json_request := λ _, None; json_response := λ _, None; json_llm_args := λ _, Some ([], ∅);
  json_unquote := λ _, None; json_quote := str_bytes;
  json_chat := λ _ prompt _, str_bytes prompt; json_choices := λ body, Some [(bytes_str body, EmptyString)] |}.
Definition toy_cache : CacheOps unit := {|
  cache_has := λ c _ _, (c, false); cache_add := λ c _ _, c; cache_used := λ _, 0; cache_capacity := λ _, 0;
  cache_usesCheckpointStore := λ _, false; cache_ensureCheckpoint := λ c _ _, (c, Ok no_load) |}.
#[local] Existing Instances toy_executor toy_cache.

Definition job (id source hash : string) : TaskSpec := with_function (with_TaskId zero_spec id) source "" hash.
Definition demo_worker : WorkerConfig := {| wc_WorkerID := "w1"; wc_VLLMBaseURL := "" |}.
Definition worker_with (alive : bool) : Worker unit := {| wk_tick := 0; wk_events := []; wk_sources := ∅; wk_cache := ();
  wk_runner := Some {| rn_json := false; rn_alive := alive; rn_out := []; rn_known := ∅ |} |}.
(** What a run of jobs reports: each task's status and result. *)
Definition reported (r : option (Worker unit * result exec_error (list (option Completion * option exec_error)))) : list (string * Z * string) :=
  match r with
  | Some (_, Ok outs) => omap (λ out, (λ cn, (cn_TaskId cn, cn_Status cn, bytes_str (cn_ResultJson cn))) <$> out.1) outs
  | _ => []
  end.

Lemma completion_reports_execution_witness :
  let E := toy_worker (λ _, [str_bytes "1"]) in
  let task := job "t1" "def f(): return 1" "" in
  ∃ s', @executeTask E _ _ _ unit _ demo_worker task (worker_with true) = Some (s', Ok (Some (completion_of demo_worker task (Ok (str_bytes "1", []))), None)).
Proof.
  intros E task. destruct (@completion_reports_execution E _ _ _ unit _ (λ _, ltac:(discriminate)) demo_worker task (worker_with true))
    as (s1 & claimed & Hrpc & _ & [_ Hok] & Hout).
  assert (claimed = Ok ()) as -> by by apply Hok. destruct Hout as (s2 & r & s3 & Hrun & Hex & _). exists s3.
  vm_compute in Hrpc. injection Hrpc as <-. vm_compute in Hrun. injection Hrun as <- <-. exact Hex.
Defined.

(** A process that has ended: two tasks, both failed. *)
Lemma ended_runner_fails_every_task_witness :
  let E := toy_worker (λ _, [str_bytes "1"]) in
  let tasks := [job "t1" "def f(): return 1" ""; job "t2" "def f(): return 1" ""] in
  ∃ s' outs, @runJobs E _ _ _ unit _ demo_worker tasks (worker_with false) = Some (s', Ok outs) ∧ Forall2 (failed demo_worker) tasks outs ∧
    reported (Some (s', Ok outs)) = [("t1", TASK_STATUS_FAILED, EmptyString); ("t2", TASK_STATUS_FAILED, EmptyString)].
Proof.
  intros E tasks.
  destruct (@ended_runner_fails_every_task E _ _ _ unit _ (λ _, ltac:(discriminate)) (λ _, ltac:(discriminate)) (λ _ _ _ _, ltac:(discriminate)) demo_worker tasks (worker_with false)
    {| rn_json := false; rn_alive := false; rn_out := []; rn_known := ∅ |}) as (s' & outs & Hrun & _ & Hf); [reflexivity..|by repeat constructor|].
  exists s', outs. split_and!; [done|done|]. vm_compute in Hrun. injection Hrun as <- <-. reflexivity.
Defined.

Definition toy_hash (source : string) : string := @hashFunctionSource toy_prints source.
(** A task whose source comes with it; a later one names its hash alone. *)
Lemma source_has_the_hash_witness :
  let E := toy_worker (λ _, [str_bytes "1"]) in
  let hash := toy_hash "def f(): return 1" in
  ∃ s1 outs s2, @runJobs E _ _ _ unit _ demo_worker [job "t1" "def f(): return 1" hash] (worker_with true) = Some (s1, outs) ∧
    @SourceForTask E _ unit (job "t2" "" hash) s1 = Some (s2, Ok "def f(): return 1") ∧ toy_hash "def f(): return 1" = hash.
Proof.
  intros E hash. eexists _, _, _. split_and!; [vm_compute; reflexivity|vm_compute; reflexivity|].
  eapply (@source_has_the_hash E _ _ _ unit _ demo_worker [job "t1" "def f(): return 1" hash] (worker_with true) _ _ _ (job "t2" "" hash) "def f(): return 1");
    [reflexivity|vm_compute; reflexivity|vm_compute; reflexivity|by vm_compute].
Defined.

(** Two frames in answer to one request: the second is left for the next. *)
Lemma replies_in_order_witness :
  let E := toy_worker (λ _, [str_bytes "1"; str_bytes "2"]) in
  let req : execRequest := inl {| xr_FunctionSource := ""; xr_FunctionRef := ""; xr_FunctionHash := ""; xr_FunctionName := "f"; xr_ArgsJSON := [] |} in
  let r := {| rn_json := false; rn_alive := true; rn_out := []; rn_known := ∅ |} in
  ∃ s', @Execute E _ _ unit r req (worker_with true) = Some (s', @unmarshalExecutorResponseMsgpack toy_executor (str_bytes "1")) ∧
    rn_out <$> wk_runner s' = Some (frame (str_bytes "2")).
Proof.
  intros E req r. assert (∃ data, msgpack_Marshal (request_fields req) = Some data ∧ fits data) as (data & Hm & Hf).
  { eexists. split; [vm_compute; reflexivity|]. by vm_compute. }
  eexists. split.
  - apply (@replies_in_order E _ _ unit r req data [] [str_bytes "1"; str_bytes "2"] (str_bytes "1") [str_bytes "2"] true (worker_with true)); try done.
  - vm_compute. reflexivity.
Defined.

(** A function that writes to standard output, which the executor's sandbox lets it do,
    can write a frame of its own: the worker takes it as the task's reply, and the reply
    itself as the next task's, so that the second task is reported with the first one's
    result, as a success. *)
Example printed_frame_answers_next_task :
  let E := toy_worker (λ n, if (n =? 2)%nat then [str_bytes "printed"; str_bytes "result of t1"] else [str_bytes "result of t2"]) in
  reported (@runJobs E _ _ _ unit _ demo_worker [job "t1" "def f(): print(...)" ""; job "t2" "def g(): ..." ""] (worker_with true)) =
  [("t1", TASK_STATUS_SUCCEEDED, "printed"); ("t2", TASK_STATUS_SUCCEEDED, "result of t1")].
Proof. vm_compute. reflexivity. Qed.
