(* ===== verification/WorkerLoop.v ===== *)
(** The worker's main loop and its local executors: [Run], [localExecutorPool] and the
    helpers between them ([internal/worker/agent.go]).

    [Run] is one goroutine over its own counters; executors are others. They meet in three
    queues, one channel of results and the actor lock table ([ActorLock]). A step is what
    one goroutine does between two of its channel or lock operations. RPCs answer anything;
    what the execution of a task returns is a parameter, which [WorkerExec] instantiates. *)
From S2P Require Import Prelude Bytes TaskSpec MetaStore Placement ActorLock WorkerExec.

Open Scope Z_scope.

(** ** Configuration *)

(** The part of [Config] that the loop reads; intervals in milliseconds. *)
Record LoopConfig := { wl_Capacity : Z; wl_TaskPoolSize : Z; wl_LLMPoolSize : Z; wl_ActorPoolSize : Z; wl_PollInterval : Z; wl_MaxTasks : Z }.
(** [positiveInt] *)
Definition positiveInt (value fallback : Z) : Z := if 0 <? value then value else fallback.
(** The defaults [Run] starts with. *)
Definition with_defaults (cfg : LoopConfig) : LoopConfig :=
  let capacity := if wl_Capacity cfg =? 0 then 1 else wl_Capacity cfg in
  let pool n := if n <=? 0 then capacity else n in
  {| wl_Capacity := capacity; wl_TaskPoolSize := pool (wl_TaskPoolSize cfg); wl_LLMPoolSize := pool (wl_LLMPoolSize cfg);
     wl_ActorPoolSize := pool (wl_ActorPoolSize cfg); wl_PollInterval := if wl_PollInterval cfg =? 0 then 200 else wl_PollInterval cfg;
     wl_MaxTasks := wl_MaxTasks cfg |}.
Definition localCapacity (cfg : LoopConfig) : Z := if wl_Capacity cfg <=? 0 then 1 else wl_Capacity cfg.
(** The size of the queues and of the results channel. *)
Definition queueSize (cfg : LoopConfig) : nat := Z.to_nat (positiveInt (wl_Capacity cfg) 1).

(** ** State *)

Inductive pool := PTask | PLLM | PActor.
#[export] Instance pool_eq_dec : EqDecision pool.
Proof. solve_decision. Defined.
(** The queue a task belongs to ([Dispatch]). *)
Definition pool_of (task : TaskSpec) : pool :=
  if negb (str_empty (ts_LlmModelName task)) then PLLM else if negb (str_empty (ts_ActorId task)) then PActor else PTask.
(** [startLocalExecutorPool]: the executors, each with the queue it serves. *)
Definition executors (cfg : LoopConfig) : list pool :=
  replicate (Z.to_nat (positiveInt (wl_TaskPoolSize cfg) 1)) PTask ++ replicate (Z.to_nat (positiveInt (wl_ActorPoolSize cfg) 1)) PActor ++
  replicate (Z.to_nat (positiveInt (wl_LLMPoolSize cfg) 1)) PLLM.

(** [workerJobResult] *)
Record JobResult := { jr_task : TaskSpec; jr_completion : option Completion; jr_err : option exec_error }.
Inductive phase :=
| Selecting                                   (* at the loop's select *)
| Draining                                    (* in drainWorkerResults *)
| Dispatching (rest : list (option TaskSpec)) (* in the loop over the polled tasks *)
| Returned (canceled : bool).
Inductive timer := Armed (delay : Z) | Fired | Consumed.
(** [Run]'s own variables *)
Record Main := { mn_phase : phase; mn_timer : timer; mn_inFlight : Z; mn_completed : Z; mn_dispatched : Z; mn_pending : list Completion }.
(** Where an executor stands. *)
Inductive stage := Idle | Locking (task : TaskSpec) | Running (task : TaskSpec) | Unlocking (r : JobResult) | Finishing (r : JobResult) | Exited.
(** [localExecutorPool], the executors and the context *)
Record Loop := { lp_main : Main; lp_task : list TaskSpec; lp_llm : list TaskSpec; lp_actor : list TaskSpec; lp_results : list JobResult;
  lp_stages : list stage; lp_locks : ActorLock.State; lp_canceled : bool }.

Definition queue (p : pool) (s : Loop) : list TaskSpec := match p with PTask => lp_task s | PLLM => lp_llm s | PActor => lp_actor s end.
Definition set_main (m : Main) (s : Loop) : Loop := {| lp_main := m; lp_task := lp_task s; lp_llm := lp_llm s; lp_actor := lp_actor s;
  lp_results := lp_results s; lp_stages := lp_stages s; lp_locks := lp_locks s; lp_canceled := lp_canceled s |}.
Definition set_queue (p : pool) (q : list TaskSpec) (s : Loop) : Loop := {| lp_main := lp_main s;
  lp_task := match p with PTask => q | _ => lp_task s end; lp_llm := match p with PLLM => q | _ => lp_llm s end; lp_actor := match p with PActor => q | _ => lp_actor s end;
  lp_results := lp_results s; lp_stages := lp_stages s; lp_locks := lp_locks s; lp_canceled := lp_canceled s |}.
Definition set_results (l : list JobResult) (s : Loop) : Loop := {| lp_main := lp_main s; lp_task := lp_task s; lp_llm := lp_llm s; lp_actor := lp_actor s;
  lp_results := l; lp_stages := lp_stages s; lp_locks := lp_locks s; lp_canceled := lp_canceled s |}.
Definition set_stage (i : nat) (st : stage) (s : Loop) : Loop := {| lp_main := lp_main s; lp_task := lp_task s; lp_llm := lp_llm s; lp_actor := lp_actor s;
  lp_results := lp_results s; lp_stages := <[i := st]> (lp_stages s); lp_locks := lp_locks s; lp_canceled := lp_canceled s |}.
Definition set_locks (l : ActorLock.State) (s : Loop) : Loop := {| lp_main := lp_main s; lp_task := lp_task s; lp_llm := lp_llm s; lp_actor := lp_actor s;
  lp_results := lp_results s; lp_stages := lp_stages s; lp_locks := l; lp_canceled := lp_canceled s |}.
Definition cancel (s : Loop) : Loop := {| lp_main := lp_main s; lp_task := lp_task s; lp_llm := lp_llm s; lp_actor := lp_actor s;
  lp_results := lp_results s; lp_stages := lp_stages s; lp_locks := lp_locks s; lp_canceled := true |}.

(** ** The main loop's sections *)

Section Main.
Context (cfg : LoopConfig).

(** [resetTimer]: a pending tick is drained, then the timer is set. *)
Definition resetTimer (m : Main) (delay : Z) (ph : phase) : Main := {| mn_phase := ph; mn_timer := Armed delay; mn_inFlight := mn_inFlight m;
  mn_completed := mn_completed m; mn_dispatched := mn_dispatched m; mn_pending := mn_pending m |}.
Definition set_phase (ph : phase) (m : Main) : Main := {| mn_phase := ph; mn_timer := mn_timer m; mn_inFlight := mn_inFlight m;
  mn_completed := mn_completed m; mn_dispatched := mn_dispatched m; mn_pending := mn_pending m |}.
Definition set_timer (t : timer) (m : Main) : Main := {| mn_phase := mn_phase m; mn_timer := t; mn_inFlight := mn_inFlight m;
  mn_completed := mn_completed m; mn_dispatched := mn_dispatched m; mn_pending := mn_pending m |}.
(** [collectWorkerResult] *)
Definition collectWorkerResult (r : JobResult) (m : Main) : Main := {| mn_phase := Draining; mn_timer := mn_timer m;
  mn_inFlight := if 0 <? mn_inFlight m then mn_inFlight m - 1 else mn_inFlight m; mn_completed := mn_completed m + 1; mn_dispatched := mn_dispatched m;
  mn_pending := match jr_completion r with Some c => mn_pending m ++ [c] | None => mn_pending m end |}.
(** After [drainWorkerResults] and [flushCompletions]: the batch is forgotten whether the
    control plane took it or not. *)
Definition flushed (m : Main) : Main :=
  let m' := {| mn_phase := Selecting; mn_timer := mn_timer m; mn_inFlight := mn_inFlight m; mn_completed := mn_completed m; mn_dispatched := mn_dispatched m; mn_pending := [] |} in
  if (0 <? wl_MaxTasks cfg) && (wl_MaxTasks cfg <=? mn_completed m) then set_phase (Returned false) m'
  else if mn_inFlight m <? localCapacity cfg then resetTimer m' 0 Selecting
  else m'.
Definition exhausted (m : Main) : bool := (0 <? wl_MaxTasks cfg) && (wl_MaxTasks cfg <=? mn_dispatched m).
(** What a poll asks for: the number of tasks and the wait; none when there is no room. *)
Definition poll_request (m : Main) : option (Z * Z) :=
  if (localCapacity cfg <=? mn_inFlight m) || exhausted m then None
  else
    let idle := localCapacity cfg - mn_inFlight m in
    let idle := if 0 <? wl_MaxTasks cfg then let remaining := wl_MaxTasks cfg - mn_dispatched m in if remaining <? idle then remaining else idle else idle in
    if idle <=? 0 then None else Some (idle, if mn_inFlight m =? 0 then wl_PollInterval cfg else 0).
(** [PollTaskResponse] and [pollTasks] *)
Record PollResponse := { rp_Tasks : list (option TaskSpec); rp_HasTask : bool; rp_Task : option TaskSpec }.
Definition pollTasks (resp : option PollResponse) : list (option TaskSpec) :=
  match resp with
  | None => []
  | Some resp =>
      match rp_Tasks resp with
      | [] => match rp_Task resp with Some t => if rp_HasTask resp then [Some t] else [] | None => [] end
      | tasks => tasks
      end
  end.
(** The answer to a poll; [None]: the call failed. *)
Definition polled (reply : option (option PollResponse)) (m : Main) : Main :=
  match reply with
  | None => resetTimer m (wl_PollInterval cfg) Selecting
  | Some resp =>
      match pollTasks resp with
      | [] => resetTimer m (if mn_inFlight m =? 0 then 0 else wl_PollInterval cfg) Selecting
      | tasks => set_phase (Dispatching tasks) m
      end
  end.
(** The end of the loop over the polled tasks. *)
Definition dispatch_end (m : Main) : Main :=
  resetTimer m (if (mn_inFlight m <? localCapacity cfg) && ((wl_MaxTasks cfg =? 0) || (mn_dispatched m <? wl_MaxTasks cfg)) then 0 else wl_PollInterval cfg) Selecting.
(** The next task to dispatch and those after it; none when the loop breaks or ends. *)
Definition next_dispatch (m : Main) : option (TaskSpec * list (option TaskSpec)) :=
  match mn_phase m with
  | Dispatching (Some task :: rest) => if (localCapacity cfg <=? mn_inFlight m) || exhausted m then None else Some (task, rest)
  | _ => None
  end.
Definition dispatched (rest : list (option TaskSpec)) (m : Main) : Main := {| mn_phase := Dispatching rest; mn_timer := mn_timer m;
  mn_inFlight := mn_inFlight m + 1; mn_completed := mn_completed m; mn_dispatched := mn_dispatched m + 1; mn_pending := mn_pending m |}.

(** ** Steps *)

Inductive label := LTau | LPoll (tasks waitMs : Z) | LDispatch (task : TaskSpec) | LResult (r : JobResult) | LFlush (batch : list Completion) (accepted : bool) | LDrop (r : JobResult).
Definition tid_of (i : nat) : positive := Pos.of_succ_nat i.
Definition lock_pc (i : nat) (s : Loop) : ActorLock.pc := ActorLock.pc_of (lp_locks s) (tid_of i).
Definition set_lock (i : nat) (t : ActorLock.Table) (c : ActorLock.pc) (s : Loop) : Loop := set_locks (ActorLock.set_pc t (lp_locks s) (tid_of i) c) s.

(** What the execution of a task by executor [i] may return. *)
Context (outcome : nat → TaskSpec → JobResult → Prop).

(** [Run] *)
Inductive main_step : Loop → label → Loop → Prop :=
| run_canceled s : mn_phase (lp_main s) = Selecting → lp_canceled s = true → main_step s LTau (set_main (set_phase (Returned true) (lp_main s)) s)
| run_result s r rest : mn_phase (lp_main s) = Selecting ∨ mn_phase (lp_main s) = Draining → lp_results s = r :: rest →
    main_step s (LResult r) (set_results rest (set_main (collectWorkerResult r (lp_main s)) s))
| run_flush s accepted : mn_phase (lp_main s) = Draining → lp_results s = [] → main_step s (LFlush (mn_pending (lp_main s)) accepted) (set_main (flushed (lp_main s)) s)
| run_heartbeat s : mn_phase (lp_main s) = Selecting → main_step s LTau s
| run_no_poll s : mn_phase (lp_main s) = Selecting → mn_timer (lp_main s) = Fired → poll_request (lp_main s) = None →
    main_step s LTau (set_main (resetTimer (lp_main s) (wl_PollInterval cfg) Selecting) s)
| run_poll s n w reply : mn_phase (lp_main s) = Selecting → mn_timer (lp_main s) = Fired → poll_request (lp_main s) = Some (n, w) →
    main_step s (LPoll n w) (set_main (polled reply (set_timer Consumed (lp_main s))) s)
| run_dispatch s task rest : next_dispatch (lp_main s) = Some (task, rest) → (length (queue (pool_of task) s) < queueSize cfg)%nat →
    main_step s (LDispatch task) (set_queue (pool_of task) (queue (pool_of task) s ++ [task]) (set_main (dispatched rest (lp_main s)) s))
| run_dispatch_canceled s task rest : next_dispatch (lp_main s) = Some (task, rest) → lp_canceled s = true → main_step s LTau (set_main (dispatch_end (lp_main s)) s)
| run_dispatch_end s rest : mn_phase (lp_main s) = Dispatching rest → next_dispatch (lp_main s) = None → main_step s LTau (set_main (dispatch_end (lp_main s)) s).

(** [runPythonWorker], [runLLMWorker], [finish]; [lockActor] and its unlock closure are cut
    as in [ActorLock]. *)
Inductive executor_step (i : nat) : Loop → label → Loop → Prop :=
| ex_take s p task rest : lp_stages s !! i = Some Idle → executors cfg !! i = Some p → queue p s = task :: rest →
    executor_step i s LTau (set_stage i (if bool_decide (p = PActor) then Locking task else Running task) (set_queue p rest s))
| ex_lock s task : lp_stages s !! i = Some (Locking task) → lock_pc i s = ActorLock.Outside → ts_ActorId task ≠ EmptyString →
    executor_step i s LTau (let '(t, p) := ActorLock.lock_lookup (ActorLock.st_table (lp_locks s)) (ts_ActorId task) in set_lock i t (ActorLock.Waiting (ts_ActorId task) p) s)
| ex_locked s task a p t : lp_stages s !! i = Some (Locking task) → lock_pc i s = ActorLock.Waiting a p → ActorLock.entry_lock (ActorLock.st_table (lp_locks s)) p = Some t →
    executor_step i s LTau (set_stage i (Running task) (set_lock i t (ActorLock.Holding a p) s))
| ex_run s task r : lp_stages s !! i = Some (Running task) → outcome i task r → jr_task r = task →
    executor_step i s LTau (set_stage i (if bool_decide (executors cfg !! i = Some PActor) then Unlocking r else Finishing r) s)
| ex_unlock s r a p t : lp_stages s !! i = Some (Unlocking r) → lock_pc i s = ActorLock.Holding a p → ActorLock.entry_unlock (ActorLock.st_table (lp_locks s)) p = Some t →
    executor_step i s LTau (set_lock i t (ActorLock.Releasing a p) s)
| ex_unlocked s r a p : lp_stages s !! i = Some (Unlocking r) → lock_pc i s = ActorLock.Releasing a p →
    executor_step i s LTau (set_stage i (Finishing r) (set_lock i (ActorLock.unlock_table (ActorLock.st_table (lp_locks s)) a p) ActorLock.Outside s))
| ex_finish s r : lp_stages s !! i = Some (Finishing r) → (length (lp_results s) < queueSize cfg)%nat →
    executor_step i s LTau (set_stage i Idle (set_results (lp_results s ++ [r]) s))
| ex_drop s r : lp_stages s !! i = Some (Finishing r) → lp_canceled s = true → executor_step i s (LDrop r) (set_stage i Idle s)
| ex_exit s : lp_stages s !! i = Some Idle → lp_canceled s = true ∨ (∃ b, mn_phase (lp_main s) = Returned b) ∧ (∃ p, executors cfg !! i = Some p ∧ queue p s = []) →
    executor_step i s LTau (set_stage i Exited s).

Inductive step : Loop → label → Loop → Prop :=
| step_main s l s' : main_step s l s' → step s l s'
| step_executor i s l s' : executor_step i s l s' → step s l s'
| step_cancel s : step s LTau (cancel s)
| step_tick s d : mn_timer (lp_main s) = Armed d → step s LTau (set_main (set_timer Fired (lp_main s)) s).

(** The loop as [Run] enters it. *)
Definition start : Loop := {| lp_main := {| mn_phase := Selecting; mn_timer := Armed 0; mn_inFlight := 0; mn_completed := 0; mn_dispatched := 0; mn_pending := [] |};
  lp_task := []; lp_llm := []; lp_actor := []; lp_results := []; lp_stages := replicate (length (executors cfg)) Idle;
  lp_locks := ActorLock.init; lp_canceled := false |}.
(** The states the loop comes to, with what it did, last first. *)
Inductive reachable : list label → Loop → Prop :=
| reach_start : reachable [] start
| reach_step tr s l s' : reachable tr s → step s l s' → reachable (l :: tr) s'.
End Main.
