(* ===== verification/WorkerLoopSpec.v ===== *)
(** Theorems on the worker's main loop ([WorkerLoop]): where every dispatched task is, that no
    goroutine of the pool waits for another for ever, and how the loop stops. *)
From stdpp Require Import list_tactics.
From S2P Require Import Prelude Bytes EventCodec TaskSpec MetaStore Placement ActorLock WorkerExec WorkerExecSpec WorkerLoop.

Open Scope Z_scope.

(** ** Where the tasks are *)

Definition jobs_at (st : stage) : list TaskSpec := match st with Idle | Exited => [] | Locking t | Running t => [t] | Unlocking r | Finishing r => [jr_task r] end.
Definition queued (s : Loop) : list TaskSpec := lp_task s ++ lp_llm s ++ lp_actor s.
Definition executing (s : Loop) : list TaskSpec := concat (map jobs_at (lp_stages s)).
Definition in_flight (s : Loop) : list TaskSpec := queued s ++ executing s ++ map jr_task (lp_results s).
(** What the loop did, in the order in which it did it. *)
Definition project {A} (f : label → list A) (tr : list label) : list A := concat (map f (rev tr)).
Lemma project_cons {A} (f : label → list A) l tr : project f (l :: tr) = project f tr ++ f l.
Proof. unfold project. cbn [rev]. rewrite map_app, concat_app. cbn. by rewrite app_nil_r. Qed.
Definition dispatches (l : label) : list TaskSpec := match l with LDispatch t => [t] | _ => [] end.
Definition collects (l : label) : list JobResult := match l with LResult r => [r] | _ => [] end.
Definition drops (l : label) : list JobResult := match l with LDrop r => [r] | _ => [] end.
Definition flushes (l : label) : list Completion := match l with LFlush batch _ => batch | _ => [] end.

Lemma queued_set p q s : queued (set_queue p q s) ++ queue p s ≡ₚ queued s ++ q.
Proof. unfold queued. destruct p; cbn; solve_Permutation. Qed.
Lemma executing_set i st old s : lp_stages s !! i = Some old → executing (set_stage i st s) ++ jobs_at old ≡ₚ executing s ++ jobs_at st.
Proof.
  unfold executing, set_stage. cbn. generalize (lp_stages s). intros l. revert i. induction l as [|x l IH]; intros [|i]; cbn; try done.
  - intros [= ->]. solve_Permutation.
  - intros Hi%IH. rewrite <- !app_assoc, Hi. solve_Permutation.
Qed.

(** The moves of a task. *)
Lemma in_flight_enqueue p t s : in_flight (set_queue p (queue p s ++ [t]) s) ≡ₚ in_flight s ++ [t].
Proof.
  unfold in_flight. change (executing (set_queue _ _ s)) with (executing s). change (lp_results (set_queue _ _ s)) with (lp_results s).
  assert (queued (set_queue p (queue p s ++ [t]) s) ≡ₚ queued s ++ [t]) as ->; [|solve_Permutation].
  apply (Permutation_app_inv_r (queue p s)). rewrite queued_set. solve_Permutation.
Qed.
Lemma queued_dequeue p t rest s : queue p s = t :: rest → queued s ≡ₚ t :: queued (set_queue p rest s).
Proof.
  intros Hq. apply (Permutation_app_inv_r rest). rewrite <- (queued_set p rest s). unfold queued. destruct p; cbn in *; rewrite Hq; solve_Permutation.
Qed.
Lemma in_flight_stage i st old s : lp_stages s !! i = Some old → in_flight (set_stage i st s) ++ jobs_at old ≡ₚ in_flight s ++ jobs_at st.
Proof.
  intros Hi. unfold in_flight. change (queued (set_stage i st s)) with (queued s). change (lp_results (set_stage i st s)) with (lp_results s).
  pose proof (executing_set i st old s Hi) as He. transitivity (queued s ++ (executing (set_stage i st s) ++ jobs_at old) ++ map jr_task (lp_results s)); [solve_Permutation|].
  rewrite He. solve_Permutation.
Qed.
Lemma in_flight_take i p t rest st s : lp_stages s !! i = Some Idle → queue p s = t :: rest → jobs_at st = [t] →
  in_flight (set_stage i st (set_queue p rest s)) ≡ₚ in_flight s.
Proof.
  intros Hi Hq Hst. pose proof (in_flight_stage i st Idle (set_queue p rest s) Hi) as Hs. rewrite Hst, app_nil_r in Hs. rewrite Hs.
  unfold in_flight. change (executing (set_queue _ _ s)) with (executing s). change (lp_results (set_queue _ _ s)) with (lp_results s).
  rewrite (queued_dequeue p t rest s Hq). solve_Permutation.
Qed.
Lemma in_flight_restage i old st s : lp_stages s !! i = Some old → jobs_at st = jobs_at old → in_flight (set_stage i st s) ≡ₚ in_flight s.
Proof. intros Hi Hj. apply (Permutation_app_inv_r (jobs_at old)). by rewrite (in_flight_stage i st old s Hi), Hj. Qed.
Lemma in_flight_finish i r s : lp_stages s !! i = Some (Finishing r) → in_flight (set_stage i Idle (set_results (lp_results s ++ [r]) s)) ≡ₚ in_flight s.
Proof.
  intros Hi. pose proof (in_flight_stage i Idle (Finishing r) (set_results (lp_results s ++ [r]) s) Hi) as Hs. cbn [jobs_at] in Hs.
  apply (Permutation_app_inv_r [jr_task r]). rewrite Hs. unfold in_flight. cbn. rewrite map_app. unfold executing, queued. cbn. solve_Permutation.
Qed.
Lemma in_flight_collect m r rest s : lp_results s = r :: rest → in_flight s ≡ₚ jr_task r :: in_flight (set_results rest (set_main m s)).
Proof. intros Hr. unfold in_flight, executing, queued. rewrite Hr. cbn. solve_Permutation. Qed.
Lemma in_flight_main m s : in_flight (set_main m s) = in_flight s.
Proof. reflexivity. Qed.
Lemma in_flight_lock i t c s : in_flight (set_lock i t c s) = in_flight s.
Proof. reflexivity. Qed.

Section Spec.
Context (cfg : LoopConfig) (outcome : nat → TaskSpec → JobResult → Prop).
Abbreviation stepw := (step cfg outcome).

Lemma capacity_size : localCapacity cfg = Z.of_nat (queueSize cfg).
Proof. unfold localCapacity, queueSize, positiveInt. destruct (Z.leb_spec (wl_Capacity cfg) 0), (Z.ltb_spec 0 (wl_Capacity cfg)); lia. Qed.

Lemma queueSize_pos : (0 < queueSize cfg)%nat.
Proof. unfold queueSize, positiveInt. destruct (Z.ltb_spec 0 (wl_Capacity cfg)); lia. Qed.

(** ** The loop's counters *)

Record Counts (tr : list label) (s : Loop) : Prop := {
  ct_jobs : project dispatches tr ≡ₚ map jr_task (project collects tr) ++ map jr_task (project drops tr) ++ in_flight s;
  ct_inFlight : mn_inFlight (lp_main s) = Z.of_nat (length (project drops tr) + length (in_flight s));
  ct_completed : mn_completed (lp_main s) = Z.of_nat (length (project collects tr));
  ct_dispatched : mn_dispatched (lp_main s) = Z.of_nat (length (project dispatches tr));
  ct_capacity : mn_inFlight (lp_main s) <= localCapacity cfg;
  ct_max : 0 < wl_MaxTasks cfg → mn_dispatched (lp_main s) <= wl_MaxTasks cfg;
  ct_pending : project flushes tr ++ mn_pending (lp_main s) = omap jr_completion (project collects tr);
  ct_flushed : mn_phase (lp_main s) ≠ Draining → mn_pending (lp_main s) = [];
  ct_timer : mn_timer (lp_main s) = Consumed → ∃ rest, mn_phase (lp_main s) = Dispatching rest;
  ct_dropped : lp_canceled s = false → project drops tr = [];
  ct_returned : mn_phase (lp_main s) = Returned false → 0 < wl_MaxTasks cfg <= mn_completed (lp_main s)
}.

(** A step that moves tasks around, and leaves [Run] alone. *)
Lemma counts_moved tr s s' : Counts tr s → in_flight s' ≡ₚ in_flight s → lp_main s' = lp_main s → lp_canceled s' = lp_canceled s ∨ lp_canceled s' = true → Counts (LTau :: tr) s'.
Proof.
  intros [] Hf Hm Hc. split; rewrite ?Hm; try setoid_rewrite project_cons; cbn [dispatches collects drops flushes]; rewrite ?app_nil_r, ?Hf; try done.
  intros Hc'. destruct Hc as [Hc|Hc]; [|congruence]. apply ct_dropped0. congruence.
Qed.
(** A step of [Run] that keeps its counters and the tasks. *)
Lemma counts_main tr s l m : Counts tr s → mn_inFlight m = mn_inFlight (lp_main s) → mn_completed m = mn_completed (lp_main s) → mn_dispatched m = mn_dispatched (lp_main s) →
  dispatches l = [] → collects l = [] → drops l = [] → flushes l ++ mn_pending m = mn_pending (lp_main s) → (mn_phase m ≠ Draining → mn_pending m = []) →
  (mn_timer m = Consumed → ∃ rest, mn_phase m = Dispatching rest) → (mn_phase m = Returned false → 0 < wl_MaxTasks cfg <= mn_completed m) → Counts (l :: tr) (set_main m s).
Proof.
  intros [] H1 H2 H3 Hd Hc Hdr Hf Hp Ht Hr. split; cbn [lp_main set_main]; rewrite ?in_flight_main, ?project_cons, ?Hd, ?Hc, ?Hdr, ?app_nil_r, ?H1, ?H2, ?H3; try done.
  - by rewrite <- app_assoc, Hf.
  - rewrite <- H2. exact Hr.
Qed.
Lemma counts_collect tr s r rest : Counts tr s → mn_phase (lp_main s) = Selecting ∨ mn_phase (lp_main s) = Draining → lp_results s = r :: rest →
  Counts (LResult r :: tr) (set_results rest (set_main (collectWorkerResult r (lp_main s)) s)).
Proof.
  intros [] Hph Hr. set (s' := set_results _ _). pose proof (in_flight_collect (collectWorkerResult r (lp_main s)) r rest s Hr) as Hf. fold s' in Hf.
  pose proof (Permutation_length Hf) as Hl. cbn [length] in Hl.
  assert (mn_inFlight (collectWorkerResult r (lp_main s)) = mn_inFlight (lp_main s) - 1) as Hi by (cbn; rewrite (proj2 (Z.ltb_lt _ _)) by lia; done).
  split; rewrite ?project_cons; cbn [dispatches collects drops flushes]; rewrite ?app_nil_r; cbn [s' lp_main set_results set_main lp_canceled]; rewrite ?Hi; try done.
  - rewrite ct_jobs0, Hf, map_app. cbn. solve_Permutation.
  - lia.
  - cbn. rewrite length_app. cbn. lia.
  - lia.
  - rewrite omap_app, <- ct_pending0, <- app_assoc. f_equal. cbn. by destruct (jr_completion r); rewrite ?app_nil_r.
  - cbn. intros Ht. destruct (ct_timer0 Ht) as [l Hl']. destruct Hph; congruence.
Qed.
Lemma next_dispatch_room m task rest : next_dispatch cfg m = Some (task, rest) →
  mn_inFlight m < localCapacity cfg ∧ (0 < wl_MaxTasks cfg → mn_dispatched m < wl_MaxTasks cfg) ∧ mn_phase m = Dispatching (Some task :: rest).
Proof.
  unfold next_dispatch, exhausted. destruct (mn_phase m) as [| |[|[t|] l]|]; try done.
  destruct (Z.leb_spec (localCapacity cfg) (mn_inFlight m)); [done|]. destruct (Z.ltb_spec 0 (wl_MaxTasks cfg)), (Z.leb_spec (wl_MaxTasks cfg) (mn_dispatched m)); cbn; try done;
    intros [= -> ->]; split_and!; (done || lia).
Qed.
Lemma counts_dispatch tr s task rest : Counts tr s → next_dispatch cfg (lp_main s) = Some (task, rest) →
  Counts (LDispatch task :: tr) (set_queue (pool_of task) (queue (pool_of task) s ++ [task]) (set_main (dispatched rest (lp_main s)) s)).
Proof.
  intros [] (Hroom & Hmax & Hph)%next_dispatch_room. set (s' := set_queue _ _ _).
  assert (in_flight s' ≡ₚ in_flight s ++ [task]) as Hf by apply (in_flight_enqueue (pool_of task) task (set_main (dispatched rest (lp_main s)) s)).
  pose proof (Permutation_length Hf) as Hl. rewrite length_app in Hl. cbn [length] in Hl.
  split; rewrite ?project_cons; cbn [dispatches collects drops flushes]; rewrite ?app_nil_r; cbn [s' lp_main set_queue set_main lp_canceled dispatched mn_phase mn_timer mn_inFlight mn_completed mn_dispatched mn_pending]; try done.
  - rewrite ct_jobs0, Hf. solve_Permutation.
  - lia.
  - rewrite length_app. cbn. lia.
  - lia.
  - intros H. specialize (Hmax H). lia.
  - intros _. apply ct_flushed0. congruence.
  - intros _. by eexists.
Qed.
Lemma flushed_spec m : mn_inFlight (flushed cfg m) = mn_inFlight m ∧ mn_completed (flushed cfg m) = mn_completed m ∧ mn_dispatched (flushed cfg m) = mn_dispatched m ∧
  mn_pending (flushed cfg m) = [] ∧ (mn_timer (flushed cfg m) = Consumed → mn_timer m = Consumed) ∧
  (mn_phase (flushed cfg m) = Returned false → 0 < wl_MaxTasks cfg <= mn_completed m).
Proof.
  unfold flushed. destruct (Z.ltb_spec 0 (wl_MaxTasks cfg)), (Z.leb_spec (wl_MaxTasks cfg) (mn_completed m)), (mn_inFlight m <? localCapacity cfg); cbn; by split_and!.
Qed.
Lemma counts_step tr s l s' : Counts tr s → stepw s l s' → Counts (l :: tr) s'.
Proof.
  intros HC Hstep. destruct Hstep as [s l s' Hm|i s l s' He|s|s d Ht].
  - destruct Hm as [s Hph Hc|s r rest Hph Hr|s acc Hph Hr|s Hph|s Hph Ht Hn|s n w reply Hph Ht Hn|s task rest Hn Hq|s task rest Hn Hc|s rest Hph Hn].
    + apply counts_main; try done; cbn; [intros _; apply (ct_flushed _ _ HC); by rewrite Hph|]. intros Ht. destruct (ct_timer _ _ HC Ht). congruence.
    + by apply counts_collect.
    + destruct (flushed_spec (lp_main s)) as (H1 & H2 & H3 & H4 & H5 & H6). apply counts_main; try done.
      * rewrite H4. apply app_nil_r.
      * intros Ht. destruct (ct_timer _ _ HC (H5 Ht)). congruence.
      * rewrite H2. exact H6.
    + by apply (counts_moved tr s); auto.
    + apply counts_main; try done. cbn. intros _. apply (ct_flushed _ _ HC). by rewrite Hph.
    + assert (mn_pending (lp_main s) = []) as Hp by (apply (ct_flushed _ _ HC); by rewrite Hph).
      unfold polled. destruct reply as [resp|]; [|by apply counts_main].
      destruct (pollTasks resp) as [|t ts]; apply counts_main; try done. cbn. by eexists.
    + by apply counts_dispatch.
    + apply next_dispatch_room in Hn as (_ & _ & Hph). apply counts_main; try done. cbn. intros _. apply (ct_flushed _ _ HC). by rewrite Hph.
    + apply counts_main; try done. cbn. intros _. apply (ct_flushed _ _ HC). by rewrite Hph.
  - destruct He as [s p task rest Hi Hp Hq|s task Hi Hpc Ha|s task a p t Hi Hpc Ht|s task r Hi Ho Hr|s r a p t Hi Hpc Ht|s r a p Hi Hpc|s r Hi Hn|s r Hi Hc|s Hi Hx].
    + apply (counts_moved tr s); [done| |done|by left]. apply (in_flight_take i p task); [done..|]. by case_bool_decide.
    + destruct (ActorLock.lock_lookup _ _) as [t p]. by apply (counts_moved tr s); auto.
    + apply (counts_moved tr s); [done| |done|by left]. rewrite <- (in_flight_lock i t (ActorLock.Holding a p) s). by apply (in_flight_restage i (Locking task)).
    + apply (counts_moved tr s); [done| |done|by left]. apply (in_flight_restage i (Running task)); [done|]. case_bool_decide; cbn; by rewrite Hr.
    + by apply (counts_moved tr s); auto.
    + apply (counts_moved tr s); [done| |done|by left]. rewrite <- (in_flight_lock i (ActorLock.unlock_table (ActorLock.st_table (lp_locks s)) a p) ActorLock.Outside s).
      by apply (in_flight_restage i (Unlocking r)).
    + apply (counts_moved tr s); [done| |done|by left]. by apply in_flight_finish.
    + destruct HC. pose proof (in_flight_stage i Idle (Finishing r) s Hi) as Hf. rewrite app_nil_r in Hf. cbn [jobs_at] in Hf.
      pose proof (Permutation_length Hf) as Hl. rewrite length_app in Hl. cbn [length] in Hl.
      split; rewrite ?project_cons; cbn [dispatches collects drops flushes]; rewrite ?app_nil_r; cbn [lp_main set_stage lp_canceled]; try done.
      * rewrite ct_jobs0, <- Hf, map_app. cbn. solve_Permutation.
      * rewrite length_app. cbn [length]. lia.
      * congruence.
    + apply (counts_moved tr s); [done| |done|by left]. by apply (in_flight_restage i Idle).
  - apply (counts_moved tr s); auto.
  - apply counts_main; try done; [apply (ct_flushed _ _ HC)|]. intros Hr. by apply (ct_returned _ _ HC).
Qed.
Lemma counts_reachable tr s : reachable cfg outcome tr s → Counts tr s.
Proof.
  induction 1 as [|tr s l s' _ IH Hs]; [|by eapply counts_step].
  assert (in_flight (start cfg) = []) as Hf.
  { unfold in_flight, queued, executing. cbn. rewrite app_nil_r. generalize (length (executors cfg)). by induction n. }
  split; rewrite ?Hf; cbn; try done; try lia. rewrite capacity_size. lia.
Qed.

(** ** Executors, their queues and the lock table *)

(** Where the lock table sees an executor. *)
Definition stage_pc (st : option stage) (c : ActorLock.pc) : Prop :=
  match st with
  | Some (Locking t) => c = ActorLock.Outside ∨ ∃ p, c = ActorLock.Waiting (ts_ActorId t) p
  | Some (Running t) => if bool_decide (pool_of t = PActor) then ∃ p, c = ActorLock.Holding (ts_ActorId t) p else c = ActorLock.Outside
  | Some (Unlocking r) => ∃ a p, c = ActorLock.Holding a p ∨ c = ActorLock.Releasing a p
  | _ => c = ActorLock.Outside
  end.
Definition result_at (st : stage) : option JobResult := match st with Unlocking r | Finishing r => Some r | _ => None end.
Definition came_back (r : JobResult) : Prop := ∃ i, outcome i (jr_task r) r.
Record Pools (tr : list label) (s : Loop) : Prop := {
  pl_locks : ActorLock.Inv (lp_locks s);
  pl_queue p t : t ∈ queue p s → pool_of t = p;
  pl_job i st t : lp_stages s !! i = Some st → t ∈ jobs_at st → executors cfg !! i = Some (pool_of t);
  pl_lock i t : lp_stages s !! i = Some (Locking t) → pool_of t = PActor;
  pl_pc i : stage_pc (lp_stages s !! i) (lock_pc i s);
  pl_stage_result i st r : lp_stages s !! i = Some st → result_at st = Some r → came_back r;
  pl_results : Forall came_back (lp_results s);
  pl_collected : Forall came_back (project collects tr)
}.
Lemma lock_pc_set i j t c s : lock_pc j (set_lock i t c s) = if decide (i = j) then c else lock_pc j s.
Proof.
  unfold lock_pc, set_lock, set_locks. cbn. rewrite ActorLock.pc_of_set. unfold tid_of.
  destruct (decide (i = j)) as [->|Hne]; [by rewrite decide_True|]. rewrite decide_False; [done|]. intros Heq%SuccNat2Pos.inj. done.
Qed.
(** Steps that touch neither queues, stages nor locks. *)
Lemma pools_main tr s l m : Pools tr s → collects l = [] → Pools (l :: tr) (set_main m s).
Proof. intros [] Hl. split; rewrite ?project_cons, ?Hl, ?app_nil_r; done. Qed.
(** One executor moves, perhaps with its lock: [L] is the lock table's new state. *)
Lemma pools_stage tr s l i st old L c : Pools tr s → lp_stages s !! i = Some old → collects l = [] →
  ActorLock.Inv L → (∀ j, ActorLock.pc_of L (tid_of j) = if decide (i = j) then c else lock_pc j s) → stage_pc (Some st) c →
  (∀ u, u ∈ jobs_at st → executors cfg !! i = Some (pool_of u)) → (∀ u, st = Locking u → pool_of u = PActor) → (∀ r, result_at st = Some r → came_back r) →
  Pools (l :: tr) (set_stage i st (set_locks L s)).
Proof.
  intros [] Hi Hl HI HL Hpc Hj Hlk Hr. pose proof (lookup_lt_Some _ _ _ Hi) as Hlen.
  assert (∀ j st', lp_stages (set_stage i st (set_locks L s)) !! j = Some st' → (j = i ∧ st' = st) ∨ (j ≠ i ∧ lp_stages s !! j = Some st')) as Hlook.
  { intros j st'. cbn. destruct (decide (j = i)) as [->|Hne]; [rewrite list_lookup_insert_eq by done; intros [= ->]; by left|]. rewrite list_lookup_insert_ne by done. by right. }
  split; rewrite ?project_cons, ?Hl, ?app_nil_r; try done.
  - intros j st' u [[-> ->]|[_ Hst]]%Hlook; eauto.
  - intros j u [[-> <-]|[_ Hst]]%Hlook; eauto.
  - intros j. change (lock_pc j _) with (ActorLock.pc_of L (tid_of j)). rewrite HL. cbn.
    destruct (decide (i = j)) as [<-|Hne]; [by rewrite list_lookup_insert_eq by done|]. by rewrite list_lookup_insert_ne by done.
  - intros j st' r [[-> ->]|[_ Hst]]%Hlook; eauto.
Qed.
Lemma pools_restage tr s l i st old : Pools tr s → lp_stages s !! i = Some old → collects l = [] → stage_pc (Some st) (lock_pc i s) →
  (∀ u, u ∈ jobs_at st → executors cfg !! i = Some (pool_of u)) → (∀ u, st = Locking u → pool_of u = PActor) → (∀ r, result_at st = Some r → came_back r) → Pools (l :: tr) (set_stage i st s).
Proof.
  intros HP Hi Hl Hpc Hj Hlk Hr. assert (set_locks (lp_locks s) s = s) as Hs by (by destruct s).
  pose proof (pools_stage tr s l i st old (lp_locks s) (lock_pc i s) HP Hi Hl (pl_locks _ _ HP)) as H. rewrite Hs in H. apply H; try done.
  intros j. by destruct (decide (i = j)) as [->|].
Qed.
Lemma pools_relock tr s l i st old t c : Pools tr s → lp_stages s !! i = Some old → collects l = [] →
  ActorLock.step (lp_locks s) (ActorLock.set_pc t (lp_locks s) (tid_of i) c) → stage_pc (Some st) c →
  (∀ u, u ∈ jobs_at st → executors cfg !! i = Some (pool_of u)) → (∀ u, st = Locking u → pool_of u = PActor) → (∀ r, result_at st = Some r → came_back r) →
  Pools (l :: tr) (set_stage i st (set_lock i t c s)).
Proof.
  intros HP Hi Hl Hs Hpc Hj Hlk Hr. apply (pools_stage tr s l i st old _ c); try done.
  - eapply ActorLock.step_inv; [apply (pl_locks _ _ HP)|exact Hs].
  - intros j. apply lock_pc_set.
Qed.
(** Setting a stage to what it is. *)
Lemma set_stage_id i st s : lp_stages s !! i = Some st → set_stage i st s = s.
Proof. intros Hi. destruct s. unfold set_stage. cbn in *. f_equal. by apply list_insert_id. Qed.
Lemma pool_actor t : pool_of t = PActor → ts_ActorId t ≠ EmptyString.
Proof. unfold pool_of. destruct (negb _); [done|]. intros H He. by rewrite He in H. Qed.
Lemma pools_queue tr s p q : Pools tr s → (∀ t, t ∈ q → pool_of t = p) → Pools tr (set_queue p q s).
Proof.
  intros [] Hq. split; try done. intros p' t Ht. destruct (decide (p' = p)) as [->|Hne]; [apply Hq|apply pl_queue0]; revert Ht; [by destruct p|by destruct p, p'].
Qed.
Lemma pools_label tr s l : Pools tr s → collects l = [] → Pools (l :: tr) s.
Proof. intros HP Hl. assert (s = set_main (lp_main s) s) as -> by (by destruct s). by apply pools_main. Qed.
Lemma jobs_done (b : bool) r : jobs_at (if b then Unlocking r else Finishing r) = [jr_task r].
Proof. by destruct b. Qed.
Lemma result_done (b : bool) r : result_at (if b then Unlocking r else Finishing r) = Some r.
Proof. by destruct b. Qed.
Lemma pools_executor tr s i l s' : Pools tr s → executor_step cfg outcome i s l s' → Pools (l :: tr) s'.
Proof.
  intros HP He. destruct He as [s p task rest Hi Hp Hq|s task Hi Hpc Ha|s task a p t Hi Hpc Ht|s task r Hi Ho Hr|s r a p t Hi Hpc Ht|s r a p Hi Hpc|s r Hi Hn|s r Hi Hc|s Hi Hx];
    pose proof (pl_pc _ _ HP i) as Hst; rewrite Hi in Hst; cbn [stage_pc] in Hst.
  - assert (pool_of task = p) as Hpt by (apply (pl_queue _ _ HP); rewrite Hq; apply list_elem_of_here).
    assert (Pools tr (set_queue p rest s)) as HP' by (apply pools_queue; [done|]; intros t Ht; apply (pl_queue _ _ HP); rewrite Hq; by apply list_elem_of_further).
    apply (pools_restage tr (set_queue p rest s) _ i _ Idle); try done.
    + change (lock_pc i (set_queue p rest s)) with (lock_pc i s). rewrite Hst. case_bool_decide as Hpa; cbn; [by left|]. rewrite bool_decide_eq_false_2; congruence.
    + intros u Hu. assert (u = task) as -> by (revert Hu; case_bool_decide; cbn; intros Hu%list_elem_of_singleton; done). congruence.
    + intros u. case_bool_decide; intros [= <-]. congruence.
    + intros r. by case_bool_decide.
  - destruct (ActorLock.lock_lookup _ _) as [t p] eqn:Hl. rewrite <- (set_stage_id i (Locking task) (set_lock i t (ActorLock.Waiting (ts_ActorId task) p) s)) by done.
    apply (pools_relock tr s _ i _ (Locking task)); try done.
    + pose proof (ActorLock.step_lock_lookup (lp_locks s) (tid_of i) (ts_ActorId task) Hpc Ha) as Hs. by rewrite Hl in Hs.
    + right. by eexists.
    + intros u Hu. by apply (pl_job _ _ HP i (Locking task)).
    + intros u [= <-]. by apply (pl_lock _ _ HP i).
  - destruct Hst as [Hst|[q Hst]]; [congruence|]. assert (a = ts_ActorId task ∧ q = p) as [-> ->] by (by rewrite Hpc in Hst; injection Hst as -> ->).
    pose proof (pl_lock _ _ HP i task Hi) as Hpa. apply (pools_relock tr s _ i _ (Locking task)); try done.
    + by eapply ActorLock.step_entry_lock.
    + cbn. rewrite bool_decide_eq_true_2 by done. by eexists.
    + intros u Hu. by apply (pl_job _ _ HP i (Locking task)).
  - assert (executors cfg !! i = Some (pool_of task)) as Hex by (apply (pl_job _ _ HP i (Running task) task Hi); apply list_elem_of_here).
    apply (pools_restage tr s _ i _ (Running task)); try done.
    + rewrite Hex. rewrite (bool_decide_ext (Some (pool_of task) = Some PActor) (pool_of task = PActor)) by (split; congruence).
      case_bool_decide; [|done]. destruct Hst as [p Hst]. exists (ts_ActorId task), p. by left.
    + intros u Hu. rewrite jobs_done, Hr in Hu. apply list_elem_of_singleton in Hu as ->. done.
    + intros u Hu. exfalso. revert Hu. destruct (bool_decide (executors cfg !! i = Some PActor)); intros [=].
    + intros r' Hr'. rewrite result_done in Hr'. injection Hr' as <-. exists i. by rewrite Hr.
  - rewrite <- (set_stage_id i (Unlocking r) (set_lock i t (ActorLock.Releasing a p) s)) by done. apply (pools_relock tr s _ i _ (Unlocking r)); try done.
    + by eapply ActorLock.step_entry_unlock.
    + exists a, p. by right.
    + intros u Hu. by apply (pl_job _ _ HP i (Unlocking r)).
    + intros r' Hr'. by apply (pl_stage_result _ _ HP i (Unlocking r)).
  - apply (pools_relock tr s _ i _ (Unlocking r)); try done.
    + by apply ActorLock.step_unlock_table.
    + intros u Hu. by apply (pl_job _ _ HP i (Unlocking r)).
    + intros r' Hr'. by apply (pl_stage_result _ _ HP i (Unlocking r)).
  - apply (pools_restage tr (set_results (lp_results s ++ [r]) s) _ i _ (Finishing r)); try done; try (by intros ? ?%not_elem_of_nil).
    destruct HP. split; try done. apply Forall_app. split; [done|]. constructor; [|done]. by apply (pl_stage_result0 i (Finishing r)).
  - by apply (pools_restage tr s _ i _ (Finishing r)); try done; try (by intros ? ?%not_elem_of_nil).
  - by apply (pools_restage tr s _ i _ Idle); try done; try (by intros ? ?%not_elem_of_nil).
Qed.
Lemma pools_step tr s l s' : Pools tr s → stepw s l s' → Pools (l :: tr) s'.
Proof.
  intros HP Hstep. destruct Hstep as [s l s' Hm|i s l s' He|s|s d Ht]; [|by eapply pools_executor| |by apply pools_main].
  - destruct Hm as [s Hph Hc|s r rest Hph Hr|s acc Hph Hr|s Hph|s Hph Ht Hn|s n w reply Hph Ht Hn|s task rest Hn Hq|s task rest Hn Hc|s rest Hph Hn]; try (by apply pools_main).
    + destruct HP. rewrite Hr in pl_results0. apply Forall_cons in pl_results0 as [Hr0 Hrest]. split; rewrite ?project_cons; cbn [collects]; try done.
      apply Forall_app. by split; [|constructor].
    + by apply pools_label.
    + change (queue (pool_of task) s) with (queue (pool_of task) (set_main (dispatched rest (lp_main s)) s)).
      apply pools_queue; [by apply pools_main|]. intros t [Ht|Ht%list_elem_of_singleton]%elem_of_app; [by apply (pl_queue _ _ HP)|by subst].
  - destruct (pools_label tr s LTau HP) as []; [done|]. by split.
Qed.
Lemma pools_reachable tr s : reachable cfg outcome tr s → Pools tr s.
Proof.
  induction 1 as [|tr s l s' _ IH Hs]; [|by eapply pools_step].
  assert (∀ i st, lp_stages (start cfg) !! i = Some st → st = Idle) as Hidle by (intros i st; cbn; intros [? _]%lookup_replicate; done).
  split.
  - apply ActorLock.init_inv.
  - intros [] t Ht; by apply not_elem_of_nil in Ht.
  - intros i st t ->%Hidle Ht. by apply not_elem_of_nil in Ht.
  - intros i t Hi. by apply Hidle in Hi.
  - intros i. destruct (lp_stages (start cfg) !! i) as [st|] eqn:Hi; [|done]. apply Hidle in Hi as ->. done.
  - intros i st r ->%Hidle. done.
  - constructor.
  - constructor.
Qed.

(** ** The executors' lives *)

Record Lives (s : Loop) : Prop := {
  lv_length : length (lp_stages s) = length (executors cfg);
  lv_exited i : lp_stages s !! i = Some Exited → lp_canceled s = true ∨ ∃ b, mn_phase (lp_main s) = Returned b
}.
Lemma lives_step s l s' : Lives s → stepw s l s' → Lives s'.
Proof.
  intros [Hlen Hex] Hstep. destruct Hstep as [s l s' Hm|i s l s' He|s|s d Ht].
  - assert (lp_stages s' = lp_stages s ∧ lp_canceled s' = lp_canceled s ∧ ∀ b, mn_phase (lp_main s) ≠ Returned b ∨ s' = s) as (Hst & Hc & Hb).
    { destruct Hm as [s Hph Hc|s r rest Hph Hr|s acc Hph Hr|s Hph|s Hph Ht Hn|s n w reply Hph Ht Hn|s task rest Hn Hq|s task rest Hn Hc|s rest Hph Hn];
        (split_and!; [done..|]); intros b; left; try congruence; [destruct Hph; congruence|by apply next_dispatch_room in Hn as (_ & _ & ->)..]. }
    split; rewrite Hst; [done|]. rewrite Hc. intros i Hi. destruct (Hex i Hi) as [Hcan|[b Hret]]; [by left|]. right. destruct (Hb b) as [Hn| ->]; [done|by exists b].
  - assert (∃ st, lp_stages s' = <[i := st]> (lp_stages s) ∧ lp_canceled s' = lp_canceled s ∧ lp_main s' = lp_main s ∧ (st = Exited → lp_canceled s = true ∨ ∃ b, mn_phase (lp_main s) = Returned b))
      as (st & Hst & Hc & Hm & Hx).
    { destruct He as [s p task rest Hi Hp Hq|s task Hi Hpc Ha|s task a p t Hi Hpc Ht|s task r Hi Ho Hr|s r a p t Hi Hpc Ht|s r a p Hi Hpc|s r Hi Hn|s r Hi Hc|s Hi Hx];
        try (eexists; split_and!; [reflexivity|done..|]; intros Hx'; exfalso; revert Hx'; (discriminate || (destruct (bool_decide _); discriminate))).
      - exists (Locking task). destruct (ActorLock.lock_lookup _ _). split_and!; [cbn; by rewrite list_insert_id|done..].
      - exists (Unlocking r). split_and!; [cbn; by rewrite list_insert_id|done..].
      - exists Exited. split_and!; [done..|]. intros _. destruct Hx as [Hc|[Hb _]]; [by left|by right]. }
    split; rewrite Hst; [by rewrite length_insert|]. rewrite Hc, Hm. intros j Hj. destruct (decide (j = i)) as [->|Hne]; [|rewrite list_lookup_insert_ne in Hj by done; eauto].
    destruct (decide (i < length (lp_stages s))%nat); [|rewrite list_insert_ge in Hj by lia; eauto]. rewrite list_lookup_insert_eq in Hj by done. injection Hj as ->. auto.
  - split; [done|]. by left.
  - by split.
Qed.
Lemma lives_reachable tr s : reachable cfg outcome tr s → Lives s.
Proof.
  induction 1 as [|tr s l s' _ IH Hs]; [|by eapply lives_step].
  split; [apply length_replicate|]. intros i. cbn. by intros [? _]%lookup_replicate.
Qed.

(** ** What is in flight can always be finished *)

Definition weight (st : stage) (c : ActorLock.pc) : nat :=
  match st, c with
  | Idle, _ | Exited, _ => 0
  | Locking _, ActorLock.Waiting _ _ => 8
  | Locking _, _ => 9
  | Running _, _ => 7
  | Unlocking _, ActorLock.Releasing _ _ => 5
  | Unlocking _, _ => 6
  | Finishing _, _ => 4
  end.
Definition stage_weights (s : Loop) : list nat := imap (λ i st, weight st (lock_pc i s)) (lp_stages s).
Definition work (s : Loop) : nat := 10 * length (queued s) + sum_list (stage_weights s) + length (lp_results s).
Lemma sum_list_insert (l : list nat) (i x y : nat) : l !! i = Some x → (sum_list (<[i := y]> l) + x = sum_list l + y)%nat.
Proof. revert i. induction l as [|z l IH]; intros [|i]; csimpl; try done; [intros [= ->]; lia|]. intros Hi%IH. csimpl in *. lia. Qed.
Lemma weights_move s i st old L c : lp_stages s !! i = Some old → (∀ j, ActorLock.pc_of L (tid_of j) = if decide (i = j) then c else lock_pc j s) →
  (sum_list (stage_weights (set_stage i st (set_locks L s))) + weight old (lock_pc i s) = sum_list (stage_weights s) + weight st c)%nat.
Proof.
  intros Hi HL. pose proof (lookup_lt_Some _ _ _ Hi) as Hlen.
  rewrite <- (sum_list_insert (stage_weights s) i (weight old (lock_pc i s)) (weight st c)) by (unfold stage_weights; rewrite list_lookup_imap, Hi; done).
  f_equal. f_equal. apply list_eq. intros j. unfold stage_weights. rewrite list_lookup_imap. cbn. change (lock_pc j (set_stage i st (set_locks L s))) with (ActorLock.pc_of L (tid_of j)). rewrite HL.
  destruct (decide (i = j)) as [<-|Hne].
  - rewrite !list_lookup_insert_eq by (rewrite ?length_imap; done). done.
  - rewrite !list_lookup_insert_ne by done. by rewrite list_lookup_imap.
Qed.
Lemma weights_restage s i st old : lp_stages s !! i = Some old →
  (sum_list (stage_weights (set_stage i st s)) + weight old (lock_pc i s) = sum_list (stage_weights s) + weight st (lock_pc i s))%nat.
Proof.
  intros Hi. assert (set_locks (lp_locks s) s = s) as Hs by (by destruct s). pose proof (weights_move s i st old (lp_locks s) (lock_pc i s) Hi) as H. rewrite Hs in H. apply H.
  intros j. by destruct (decide (i = j)) as [->|].
Qed.
Lemma weights_relock s i st old t c : lp_stages s !! i = Some old →
  (sum_list (stage_weights (set_stage i st (set_lock i t c s))) + weight old (lock_pc i s) = sum_list (stage_weights s) + weight st c)%nat.
Proof. intros Hi. apply weights_move; [done|]. intros j. apply lock_pc_set. Qed.

(** A move of an executor, or a result taken by [Run]: work is done. *)
Definition works (s : Loop) : Prop := ∃ l s', stepw s l s' ∧ (∀ t, l ≠ LDispatch t) ∧ lp_canceled s' = lp_canceled s ∧ (work s' < work s)%nat ∧
  (mn_phase (lp_main s') = mn_phase (lp_main s) ∨ mn_phase (lp_main s') = Draining).
Lemma works_stage s i st old L c : lp_stages s !! i = Some old → (∀ j, ActorLock.pc_of L (tid_of j) = if decide (i = j) then c else lock_pc j s) →
  executor_step cfg outcome i s LTau (set_stage i st (set_locks L s)) → (weight st c < weight old (lock_pc i s))%nat → works s.
Proof.
  intros Hi HL Hs Hw. exists LTau, (set_stage i st (set_locks L s)). split_and!; [by eapply step_executor|done|done| |by left].
  pose proof (weights_move s i st old L c Hi HL) as H. unfold work. change (queued (set_stage _ _ _)) with (queued s). change (lp_results (set_stage _ _ _)) with (lp_results s). lia.
Qed.
Lemma works_relock s i st old t c : lp_stages s !! i = Some old →
  executor_step cfg outcome i s LTau (set_stage i st (set_lock i t c s)) → (weight st c < weight old (lock_pc i s))%nat → works s.
Proof. intros Hi. apply (works_stage s i st old _ c Hi). intros j. apply lock_pc_set. Qed.
Lemma works_restage s i st old : lp_stages s !! i = Some old → executor_step cfg outcome i s LTau (set_stage i st s) → (weight st (lock_pc i s) < weight old (lock_pc i s))%nat → works s.
Proof.
  intros Hi. assert (set_locks (lp_locks s) s = s) as Hs by (by destruct s). rewrite <- Hs at 2. apply (works_stage s i st old _ _ Hi).
  intros j. by destruct (decide (i = j)) as [->|].
Qed.
(** An executor that holds a lock, or needs none, moves. *)
Lemma works_running tr s i t : Pools tr s → (∀ i t, ∃ r, outcome i t r ∧ jr_task r = t) → lp_stages s !! i = Some (Running t) → works s.
Proof.
  intros HP Hout Hi. destruct (Hout i t) as (r & Ho & Hr). eapply (works_restage s i _ _ Hi); [by eapply ex_run|]. destruct (bool_decide _); cbn; [|lia]. by destruct (lock_pc i s); cbn; lia.
Qed.
Lemma held_entry s i a p : ActorLock.Inv (lp_locks s) → lock_pc i s = ActorLock.Holding a p → ∃ t, ActorLock.entry_unlock (ActorLock.st_table (lp_locks s)) p = Some t.
Proof.
  intros HI Hpc. unfold lock_pc in Hpc. pose proof (ActorLock.inv_current _ HI (tid_of i) a p) as Hcur. rewrite Hpc in Hcur. specialize (Hcur eq_refl).
  destruct (ActorLock.inv_live _ HI a p Hcur) as (e & He & _). destruct (ActorLock.inv_counts _ HI p e He) as [_ Hl].
  assert (0 < ActorLock.count (ActorLock.holds p) (ActorLock.st_pcs (lp_locks s)))%nat as Hpos.
  { apply (ActorLock.count_pos _ _ (tid_of i) (ActorLock.Holding a p)); [by apply ActorLock.pc_of_lookup|]. cbn. by apply bool_decide_eq_true. }
  unfold ActorLock.entry_unlock. rewrite He. cbn. destruct (ActorLock.e_locked e); [by eexists|lia].
Qed.
Lemma works_unlocking tr s i r : Pools tr s → lp_stages s !! i = Some (Unlocking r) → works s.
Proof.
  intros HP Hi. pose proof (pl_pc _ _ HP i) as Hpc. rewrite Hi in Hpc. destruct Hpc as (a & p & [Hpc|Hpc]).
  - destruct (held_entry s i a p (pl_locks _ _ HP) Hpc) as [t Ht].
    apply (works_relock s i (Unlocking r) (Unlocking r) t (ActorLock.Releasing a p)); [done| |rewrite Hpc; cbn; lia].
    rewrite set_stage_id by done. by eapply ex_unlock.
  - apply (works_relock s i (Finishing r) (Unlocking r) (ActorLock.unlock_table (ActorLock.st_table (lp_locks s)) a p) ActorLock.Outside); [done|by eapply ex_unlocked|rewrite Hpc; cbn; lia].
Qed.
(** A locked entry has a holder among the executors. *)
Lemma lock_holder s p e : ActorLock.Inv (lp_locks s) → ActorLock.t_heap (ActorLock.st_table (lp_locks s)) !! p = Some e → ActorLock.e_locked e = true →
  ∃ j a, lock_pc j s = ActorLock.Holding a p.
Proof.
  intros HI He Hl. destruct (ActorLock.inv_counts _ HI p e He) as [_ Hc]. rewrite Hl in Hc.
  destruct (ActorLock.count_zero_inv (ActorLock.holds p) (ActorLock.st_pcs (lp_locks s))) as (k & c & Hk & Hh); [lia|].
  destruct c as [|a q|a q|a q|]; try done. cbn in Hh. apply bool_decide_eq_true in Hh as ->. destruct (Pos2Nat.is_succ k) as [n Hn]. exists n, a.
  assert (tid_of n = k) as Hnk by (apply Pos2Nat.inj; unfold tid_of; rewrite SuccNat2Pos.id_succ; lia).
  unfold lock_pc, ActorLock.pc_of. by rewrite Hnk, Hk.
Qed.
Lemma works_locking tr s i t : Pools tr s → (∀ i t, ∃ r, outcome i t r ∧ jr_task r = t) → lp_stages s !! i = Some (Locking t) → works s.
Proof.
  intros HP Hout Hi. pose proof (pl_pc _ _ HP i) as Hpc. rewrite Hi in Hpc. pose proof (pool_actor t (pl_lock _ _ HP i t Hi)) as Hne. destruct Hpc as [Hpc|[p Hpc]].
  - pose proof (ex_lock cfg outcome i s t Hi Hpc Hne) as Hs. destruct (ActorLock.lock_lookup _ _) as [tb p].
    apply (works_relock s i (Locking t) (Locking t) tb (ActorLock.Waiting (ts_ActorId t) p)); [done|by rewrite set_stage_id|rewrite Hpc; cbn; lia].
  - pose proof (ActorLock.inv_current _ (pl_locks _ _ HP) (tid_of i) (ts_ActorId t) p) as Hcur. unfold lock_pc in Hpc. rewrite Hpc in Hcur. specialize (Hcur eq_refl).
    destruct (ActorLock.inv_live _ (pl_locks _ _ HP) _ p Hcur) as (e & He & _). destruct (ActorLock.e_locked e) eqn:Hl.
    + destruct (lock_holder s p e (pl_locks _ _ HP) He Hl) as (j & a & Hj). pose proof (pl_pc _ _ HP j) as Hst. rewrite Hj in Hst.
      destruct (lp_stages s !! j) as [[|u|u|r|r|]|] eqn:Hjs; try done; [by destruct Hst as [|[]]|by eapply works_running|by eapply works_unlocking].
    + apply (works_relock s i (Running t) (Locking t) (ActorLock.MkTable (ActorLock.t_locks (ActorLock.st_table (lp_locks s)))
        (<[p := ActorLock.Entry true (ActorLock.e_refs e)]> (ActorLock.t_heap (ActorLock.st_table (lp_locks s))))) (ActorLock.Holding (ts_ActorId t) p)); [done| |unfold lock_pc; rewrite Hpc; cbn; lia].
      eapply ex_locked; [done|exact Hpc|]. unfold ActorLock.entry_lock. rewrite He. cbn. by rewrite Hl.
Qed.
Lemma executors_pool p : ∃ i, executors cfg !! i = Some p.
Proof.
  assert (∀ n, (0 < Z.to_nat (positiveInt n 1))%nat) as Hn by (intros n; unfold positiveInt; destruct (Z.ltb_spec 0 n); lia).
  pose proof (Hn (wl_TaskPoolSize cfg)) as Ht. pose proof (Hn (wl_ActorPoolSize cfg)) as Ha. pose proof (Hn (wl_LLMPoolSize cfg)) as Hl. clear Hn.
  apply list_elem_of_lookup. unfold executors. rewrite !elem_of_app. destruct p; [left|right; right|right; left]; apply elem_of_replicate; (split; [done|lia]).
Qed.
Lemma works_queued s p : Lives s → lp_canceled s = false → (∀ b, mn_phase (lp_main s) ≠ Returned b) → executing s = [] → queue p s ≠ [] → works s.
Proof.
  intros [Hlen Hex] Hc Hb He Hq. destruct (executors_pool p) as [i Hi]. destruct (queue p s) as [|t rest] eqn:Hqs; [done|].
  destruct (lp_stages s !! i) as [st|] eqn:Hst; [|apply lookup_ge_None in Hst; apply lookup_lt_Some in Hi; lia].
  assert (jobs_at st = []) as Hj.
  { unfold executing in He. assert (jobs_at st ⊆ []) as Hsub; [|destruct (jobs_at st) as [|x l]; [done|]; exfalso; by apply (not_elem_of_nil x), Hsub, list_elem_of_here].
    intros x Hx. rewrite <- He. apply list_elem_of_In, in_concat. exists (jobs_at st). split; [|by apply list_elem_of_In]. apply in_map, list_elem_of_In. by eapply list_elem_of_lookup_2. }
  destruct st; try done; [|destruct (Hex i Hst) as [|[b Hr]]; [congruence|by apply Hb in Hr]].
  pose proof (ex_take cfg outcome i s p t rest Hst Hi Hqs) as Hstep. eexists _, _. split_and!; [by eapply step_executor|done|done| |by left].
  pose proof (weights_restage (set_queue p rest s) i (if bool_decide (p = PActor) then Locking t else Running t) Idle Hst) as Hw. cbn [weight] in Hw.
  change (stage_weights (set_queue p rest s)) with (stage_weights s) in Hw. change (lock_pc i (set_queue p rest s)) with (lock_pc i s) in Hw.
  assert (weight (if bool_decide (p = PActor) then Locking t else Running t) (lock_pc i s) <= 9)%nat as Hle by (case_bool_decide; destruct (lock_pc i s); cbn; lia).
  pose proof (Permutation_length (queued_dequeue p t rest s Hqs)) as Hql. cbn [length] in Hql.
  unfold work. change (queued (set_stage _ _ ?x)) with (queued x). change (lp_results (set_stage _ _ ?x)) with (lp_results x). change (lp_results (set_queue _ _ s)) with (lp_results s). lia.
Qed.
Definition at_select (s : Loop) : Prop := mn_phase (lp_main s) = Selecting ∨ mn_phase (lp_main s) = Draining.
Lemma works_any tr s : Pools tr s → Lives s → (∀ i t, ∃ r, outcome i t r ∧ jr_task r = t) → lp_canceled s = false → at_select s → in_flight s ≠ [] → works s.
Proof.
  intros HP HL Hout Hc Hph Hne. destruct (lp_results s) as [|r rest] eqn:Hr.
  2: { exists (LResult r), (set_results rest (set_main (collectWorkerResult r (lp_main s)) s)). split_and!; [by apply step_main, run_result|done|done| |by right].
       unfold work. rewrite Hr. cbn [lp_results set_results length]. change (stage_weights (set_results _ _)) with (stage_weights s). change (queued (set_results _ _)) with (queued s). lia. }
  destruct (executing s) as [|t l] eqn:He.
  - assert (∃ p, queue p s ≠ []) as [p Hp].
    { unfold in_flight in Hne. rewrite He, Hr in Hne. cbn in Hne. rewrite app_nil_r in Hne. unfold queued in Hne.
      destruct (lp_task s) eqn:H1; [|by exists PTask; cbn; rewrite H1]. destruct (lp_llm s) eqn:H2; [|by exists PLLM; cbn; rewrite H2].
      destruct (lp_actor s) eqn:H3; [done|by exists PActor; cbn; rewrite H3]. }
    apply (works_queued s p); try done. intros b. destruct Hph; congruence.
  - assert (t ∈ executing s) as Ht by (rewrite He; apply list_elem_of_here). unfold executing in Ht. apply list_elem_of_In, in_concat in Ht as (jobs & Hj & Ht).
    apply list_elem_of_In in Ht. apply list_elem_of_In, list_elem_of_fmap in Hj as (st & -> & [i Hi]%list_elem_of_lookup).
    destruct st as [|u|u|r|r|]; try (by apply not_elem_of_nil in Ht); [by eapply works_locking|by eapply works_running|by eapply works_unlocking|].
    assert (length (lp_results s) < queueSize cfg)%nat as Hroom by (rewrite Hr; apply queueSize_pos).
    exists LTau, (set_stage i Idle (set_results (lp_results s ++ [r]) s)). split_and!; [by eapply step_executor, ex_finish|done|done| |by left].
    pose proof (weights_restage (set_results (lp_results s ++ [r]) s) i Idle (Finishing r) Hi) as Hw. cbn [weight] in Hw.
    change (stage_weights (set_results _ s)) with (stage_weights s) in Hw. unfold work. rewrite Hr in *. cbn [lp_results set_stage set_results length app] in *.
    change (queued (set_stage _ _ ?x)) with (queued x). change (queued (set_results _ s)) with (queued s). lia.
Qed.
(** C17: no goroutine of the worker waits for ever for another: from whatever state it is in,
    unless it was canceled, and provided executions return, a worker at its select that is
    handed no further task can collect the result of every task it has taken and report all
    of them. *)
Theorem worker_drains tr s :
  reachable cfg outcome tr s → lp_canceled s = false → at_select s → (∀ i t, ∃ r, outcome i t r ∧ jr_task r = t) →
  ∃ tr' s', reachable cfg outcome (tr' ++ tr) s' ∧ project dispatches tr' = [] ∧ lp_canceled s' = false ∧ in_flight s' = [] ∧
    mn_phase (lp_main s') ≠ Draining ∧ project flushes (tr' ++ tr) = omap jr_completion (project collects (tr' ++ tr)).
Proof.
  intros Hs Hc Hph Hout. remember (work s) as n eqn:Hn. revert tr s Hs Hc Hph Hn. induction (Nat.lt_wf_0 n) as [n _ IH]. intros tr s Hs Hc Hph ->.
  destruct (in_flight s) as [|t l] eqn:Hf.
  - assert (∃ tr' s', reachable cfg outcome (tr' ++ tr) s' ∧ project dispatches tr' = [] ∧ lp_canceled s' = false ∧ in_flight s' = [] ∧ mn_phase (lp_main s') ≠ Draining) as (tr' & s' & Hs' & Hd & Hc' & Hf' & Hph').
    { destruct Hph as [Hph|Hph]; [exists [], s; split_and!; try done; congruence|].
      assert (lp_results s = []) as Hr by (unfold in_flight in Hf; apply app_nil in Hf as [_ [_ Hr]%app_nil]; by destruct (lp_results s)).
      exists [LFlush (mn_pending (lp_main s)) true], (set_main (flushed cfg (lp_main s)) s). split_and!; try done.
      - eapply reach_step; [exact Hs|]. by apply step_main, run_flush.
      - cbn. unfold flushed. destruct (_ && _); [done|]. by destruct (_ <? _). }
    exists tr', s'. split_and!; try done. pose proof (counts_reachable _ _ Hs') as HC. rewrite <- (ct_pending _ _ HC), (ct_flushed _ _ HC) by done. by rewrite app_nil_r.
  - destruct (works_any tr s (pools_reachable _ _ Hs) (lives_reachable _ _ Hs) Hout Hc Hph) as (lb & s1 & Hstep & Hnd & Hc1 & Hw & Hph1); [congruence|].
    destruct (IH (work s1) Hw (lb :: tr) s1) as (tr' & s' & Hs' & Hd & Hrest); [by eapply reach_step|congruence| |done|].
    + destruct Hph1 as [Hph1|Hph1]; [unfold at_select; by rewrite Hph1|by right].
    + exists (tr' ++ [lb]), s'. rewrite <- app_assoc. cbn [app]. split; [done|]. split; [|done]. unfold project in *. rewrite rev_app_distr. cbn. rewrite Hd, app_nil_r.
      destruct lb; try done. by specialize (Hnd task).
Qed.

Lemma queue_room tr s task rest : Counts tr s → next_dispatch cfg (lp_main s) = Some (task, rest) → (length (queue (pool_of task) s) < queueSize cfg)%nat.
Proof.
  intros [] (Hroom & _ & _)%next_dispatch_room. rewrite capacity_size in Hroom.
  assert (length (queue (pool_of task) s) <= length (in_flight s))%nat; [|lia]. unfold in_flight, queued. rewrite !length_app. destruct (pool_of task); cbn; lia.
Qed.
Lemma results_room tr s i r : Counts tr s → lp_stages s !! i = Some (Finishing r) → (length (lp_results s) < queueSize cfg)%nat.
Proof.
  intros [] Hi. rewrite capacity_size in ct_capacity0. pose proof (Permutation_length (executing_set i Idle _ s Hi)) as Hl. rewrite !length_app in Hl. cbn [jobs_at length] in Hl.
  assert (length (in_flight s) = length (queued s) + (length (executing s) + length (lp_results s)))%nat by (unfold in_flight; rewrite !length_app, length_map; done). lia.
Qed.
(** C18: every task the loop has dispatched is in exactly one place: collected with its
    result, dropped with its result after a cancellation, or in the pool; the counter of
    tasks in flight is exact and stays within the capacity, no more than the configured
    number of tasks is dispatched, every collected result is what its execution returned,
    and the completions among them are those flushed or about to be. *)
Theorem worker_accounts_for_every_task tr s : reachable cfg outcome tr s →
  project dispatches tr ≡ₚ map jr_task (project collects tr) ++ map jr_task (project drops tr) ++ in_flight s ∧
  mn_inFlight (lp_main s) = Z.of_nat (length (project drops tr) + length (in_flight s)) ∧ mn_inFlight (lp_main s) <= localCapacity cfg ∧
  (0 < wl_MaxTasks cfg → Z.of_nat (length (project dispatches tr)) <= wl_MaxTasks cfg) ∧
  (lp_canceled s = false → project drops tr = []) ∧ Forall came_back (project collects tr) ∧
  project flushes tr ++ mn_pending (lp_main s) = omap jr_completion (project collects tr) ∧
  (∀ task rest, next_dispatch cfg (lp_main s) = Some (task, rest) → (length (queue (pool_of task) s) < queueSize cfg)%nat) ∧
  (∀ i r, lp_stages s !! i = Some (Finishing r) → (length (lp_results s) < queueSize cfg)%nat).
Proof.
  intros Hs. pose proof (counts_reachable _ _ Hs) as HC. pose proof (pl_collected _ _ (pools_reachable _ _ Hs)) as Hb. pose proof HC as []. split_and!; try done; [by rewrite <- ct_dispatched0| |].
  - intros task rest Hn. by eapply queue_room.
  - intros i r Hi. by eapply results_room.
Qed.
(** C20: a worker that stops because of its limit has dispatched exactly that many tasks, has
    nothing left in its pool, and has flushed the completion of every one that has any. *)
Theorem worker_stops_clean tr s : reachable cfg outcome tr s → mn_phase (lp_main s) = Returned false →
  in_flight s = [] ∧ project drops tr = [] ∧ Z.of_nat (length (project dispatches tr)) = wl_MaxTasks cfg ∧ project dispatches tr ≡ₚ map jr_task (project collects tr) ∧
  project flushes tr = omap jr_completion (project collects tr).
Proof.
  intros Hs Hph. pose proof (counts_reachable _ _ Hs) as []. specialize (ct_returned0 Hph). specialize (ct_max0 ltac:(lia)).
  pose proof (Permutation_length ct_jobs0) as Hl. rewrite !length_app, !length_map in Hl.
  assert (in_flight s = []) as Hf by (destruct (in_flight s); [done|]; cbn in Hl; lia). assert (project drops tr = []) as Hd by (destruct (project drops tr); [done|]; cbn in Hl; lia).
  split_and!; [done..|lia| |].
  - rewrite ct_jobs0, Hd, Hf. cbn. by rewrite !app_nil_r.
  - rewrite <- ct_pending0, ct_flushed0 by congruence. by rewrite app_nil_r.
Qed.
(** C19: two executors never run tasks of one actor at the same time. *)
Theorem one_task_per_actor tr s i j t u : reachable cfg outcome tr s → lp_stages s !! i = Some (Running t) → lp_stages s !! j = Some (Running u) →
  pool_of t = PActor → pool_of u = PActor → ts_ActorId t = ts_ActorId u → i = j.
Proof.
  intros Hs Hi Hj Ht Hu Hid. pose proof (pools_reachable _ _ Hs) as HP. pose proof (pl_pc _ _ HP i) as Hpi. pose proof (pl_pc _ _ HP j) as Hpj.
  rewrite Hi in Hpi. rewrite Hj in Hpj. cbn in Hpi, Hpj. rewrite bool_decide_eq_true_2 in Hpi by done. rewrite bool_decide_eq_true_2 in Hpj by done.
  destruct Hpi as [p Hp], Hpj as [q Hq]. rewrite Hid in Hp. pose proof (ActorLock.holder_unique _ _ _ _ _ _ (pl_locks _ _ HP) Hp Hq) as He.
  unfold tid_of in He. by apply SuccNat2Pos.inj in He.
Qed.
End Spec.

(** ** With the execution of [WorkerExec] *)

Section Executed.
Context `{WorkerEnv, ExecutorLib, MsgpackLib, FingerprintLib} {C : Type} `{!CacheOps C} (cfg : LoopConfig) (wcfg : WorkerConfig).

(** What an executor gets from [executeTask], whatever state it is in. *)
Definition executes (i : nat) (task : TaskSpec) (r : JobResult) : Prop :=
  ∃ s s' : Worker C, executeTask wcfg task s = Some (s', Ok (jr_completion r, jr_err r)) ∧ jr_task r = task.
(** C21: whatever the loop flushes to the control plane is the report of an execution of a
    task it has dispatched. *)
Theorem flushed_completions_report tr s cn : reachable cfg executes tr s → cn ∈ project flushes tr →
  ∃ task err, task ∈ project dispatches tr ∧ reports wcfg task cn err.
Proof.
  intros Hs Hcn. pose proof (counts_reachable _ _ _ _ Hs) as HC.
  assert (cn ∈ omap jr_completion (project collects tr)) as (r & Hr & Hc)%list_elem_of_omap by (rewrite <- (ct_pending _ _ _ HC); apply elem_of_app; by left).
  pose proof (pl_collected _ _ _ _ (pools_reachable _ _ _ _ Hs)) as Hb. rewrite Forall_forall in Hb. destruct (Hb r Hr) as (i & w & w' & Hrun & _).
  exists (jr_task r), (jr_err r). split; [|rewrite Hc in Hrun; by eapply executeTask_reports].
  rewrite (ct_jobs _ _ _ HC). apply elem_of_app. left. apply list_elem_of_fmap. by exists r.
Qed.
End Executed.
