(* ===== verification/WorkerLoopDemo.v ===== *)
(** A run of the worker's loop, for the witnesses of [WorkerLoopSpec]: one actor task is polled,
    executed and reported, and the worker stops. *)
From S2P Require Import Prelude Bytes EventCodec TaskSpec MetaStore Placement ActorLock TaskReplay ControlTasks ServiceDemo.
From S2P Require Import WorkerExec WorkerExecSpec WorkerExecDemo WorkerLoop WorkerLoopSpec.

Open Scope Z_scope.

Definition demo_loop : LoopConfig := with_defaults {| wl_Capacity := 0; wl_TaskPoolSize := 0; wl_LLMPoolSize := 0; wl_ActorPoolSize := 0; wl_PollInterval := 0; wl_MaxTasks := 1 |}.
Definition with_ActorId (id : string) (t : TaskSpec) : TaskSpec := {|
  ts_TaskId := ts_TaskId t; ts_TaskName := ts_TaskName t; ts_FunctionName := ts_FunctionName t; ts_FunctionSource := ts_FunctionSource t; ts_FunctionRef := ts_FunctionRef t;
  ts_FunctionHash := ts_FunctionHash t; ts_ArgsJson := ts_ArgsJson t; ts_IdempotencyKey := ts_IdempotencyKey t; ts_WorkflowId := ts_WorkflowId t; ts_StepId := ts_StepId t;
  ts_TargetWorkerId := ts_TargetWorkerId t; ts_ActorId := id; ts_ActorCallId := ts_ActorCallId t; ts_ActorClassName := ts_ActorClassName t;
  ts_ActorClassSource := ts_ActorClassSource t; ts_ActorMethod := ts_ActorMethod t; ts_ActorStateJson := ts_ActorStateJson t; ts_ActorInitArgsJson := ts_ActorInitArgsJson t;
  ts_ActorEpoch := ts_ActorEpoch t; ts_LlmModelName := ts_LlmModelName t; ts_LlmModelVersion := ts_LlmModelVersion t; ts_LlmAdapter := ts_LlmAdapter t;
  ts_LlmMaxTokens := ts_LlmMaxTokens t; ts_TimeoutMs := ts_TimeoutMs t; ts_TaskLeaseEpoch := ts_TaskLeaseEpoch t |}.
Definition actor_job : TaskSpec := with_ActorId "a1" (job "t1" "" "").

Section Run.
Context (outcome : nat → TaskSpec → JobResult → Prop) (r : JobResult) (Ho : outcome 1%nat actor_job r) (Hr : jr_task r = actor_job).
Abbreviation comes := (reachable demo_loop outcome).

(** One more step, of [Run] or of the actor executor. *)
Ltac forward H tac := match type of H with reachable _ _ ?tr ?s => let H' := fresh "Hs" in
  eassert (reachable demo_loop outcome (_ :: tr) _) as H' by (eapply reach_step; [exact H|tac s]); clear H; rename H' into H end.
(** Up to the start of the execution. *)
Ltac to_running H :=
  pose proof (reach_start demo_loop outcome) as H;
  forward H ltac:(fun s => exact (step_tick demo_loop outcome s 0 eq_refl));
  forward H ltac:(fun s => exact (step_main _ _ _ _ _ (run_poll demo_loop s 1 200 (Some (Some {| rp_Tasks := [Some actor_job]; rp_HasTask := false; rp_Task := None |})) eq_refl eq_refl eq_refl)));
  forward H ltac:(fun s => exact (step_main _ _ _ _ _ (run_dispatch demo_loop s actor_job [] eq_refl (le_n 1))));
  forward H ltac:(fun s => exact (step_main _ _ _ _ _ (run_dispatch_end demo_loop s [] eq_refl eq_refl)));
  forward H ltac:(fun s => exact (step_executor _ _ 1%nat _ _ _ (ex_take demo_loop outcome 1 s PActor actor_job [] eq_refl eq_refl eq_refl)));
  forward H ltac:(fun s => exact (step_executor _ _ 1%nat _ _ _ (ex_lock demo_loop outcome 1 s actor_job eq_refl eq_refl ltac:(discriminate))));
  forward H ltac:(fun s => exact (step_executor _ _ 1%nat _ _ _ (ex_locked demo_loop outcome 1 s actor_job "a1" 1 _ eq_refl eq_refl eq_refl))).
Lemma demo_running : ∃ tr s, comes tr s ∧ at_select s ∧ lp_canceled s = false ∧ lp_stages s !! 1%nat = Some (Running actor_job).
Proof. to_running Hrun. eexists _, _. split; [exact Hrun|]. split_and!; [by left|done|done]. Qed.
(** To the end. *)
Lemma demo_stopped : ∃ tr s, comes tr s ∧ mn_phase (lp_main s) = Returned false ∧ project dispatches tr = [actor_job] ∧ project flushes tr = omap jr_completion [r].
Proof.
  to_running Hrun.
  forward Hrun ltac:(fun s => exact (step_executor _ _ 1%nat _ _ _ (ex_run demo_loop outcome 1 s actor_job r eq_refl Ho Hr))).
  forward Hrun ltac:(fun s => exact (step_executor _ _ 1%nat _ _ _ (ex_unlock demo_loop outcome 1 s r "a1" 1 _ eq_refl eq_refl eq_refl))).
  forward Hrun ltac:(fun s => exact (step_executor _ _ 1%nat _ _ _ (ex_unlocked demo_loop outcome 1 s r "a1" 1 eq_refl eq_refl))).
  forward Hrun ltac:(fun s => exact (step_executor _ _ 1%nat _ _ _ (ex_finish demo_loop outcome 1 s r eq_refl (le_n 1)))).
  forward Hrun ltac:(fun s => exact (step_main _ _ _ _ _ (run_result demo_loop s r [] (or_introl eq_refl) eq_refl))).
  forward Hrun ltac:(fun s => exact (step_main _ _ _ _ _ (run_flush demo_loop s true eq_refl eq_refl))).
  eexists _, _. split; [exact Hrun|]. split_and!; [reflexivity|reflexivity|]. cbn. by destruct (jr_completion r).
Qed.
End Run.

(** ** Witnesses *)

(** An execution that reports nothing. *)
Definition silent (i : nat) (task : TaskSpec) (r : JobResult) : Prop := r = {| jr_task := task; jr_completion := None; jr_err := None |}.
Lemma silent_returns i t : ∃ r, silent i t r ∧ jr_task r = t.
Proof. by eexists. Qed.
Lemma worker_accounts_for_every_task_witness : ∃ tr s, reachable demo_loop silent tr s ∧ lp_stages s !! 1%nat = Some (Running actor_job) ∧
  project dispatches tr ≡ₚ map jr_task (project collects tr) ++ map jr_task (project drops tr) ++ in_flight s.
Proof.
  destruct (demo_running silent) as (tr & s & Hs & _ & _ & Hi). exists tr, s. split_and!; [done|done|]. by apply (worker_accounts_for_every_task demo_loop silent tr s).
Defined.
Lemma worker_drains_witness : ∃ tr s tr' s', reachable demo_loop silent tr s ∧ lp_stages s !! 1%nat = Some (Running actor_job) ∧
  reachable demo_loop silent (tr' ++ tr) s' ∧ in_flight s' = [].
Proof.
  destruct (demo_running silent) as (tr & s & Hs & Hsel & Hc & Hi).
  destruct (worker_drains demo_loop silent tr s Hs Hc Hsel silent_returns) as (tr' & s' & Hs' & _ & _ & Hf & _). by exists tr, s, tr', s'.
Defined.
Lemma worker_stops_clean_witness : ∃ tr s, reachable demo_loop silent tr s ∧ mn_phase (lp_main s) = Returned false ∧ in_flight s = [].
Proof.
  destruct (demo_stopped silent {| jr_task := actor_job; jr_completion := None; jr_err := None |} eq_refl eq_refl) as (tr & s & Hs & Hph & _).
  exists tr, s. split_and!; [done|done|]. by apply (worker_stops_clean demo_loop silent tr s).
Defined.
Lemma one_task_per_actor_witness : ∃ tr s, reachable demo_loop silent tr s ∧ lp_stages s !! 1%nat = Some (Running actor_job) ∧ 1%nat = 1%nat.
Proof.
  destruct (demo_running silent) as (tr & s & Hs & _ & _ & Hi). exists tr, s. split_and!; [done|done|].
  by apply (one_task_per_actor demo_loop silent tr s 1 1 actor_job actor_job).
Defined.

(** The whole of it, with the execution of the task. *)
Definition demo_executes : nat → TaskSpec → JobResult → Prop :=
  @executes (toy_worker (λ _, [str_bytes "1"])) toy_executor toy_msgpack toy_prints unit toy_cache demo_worker.
Lemma demo_execution : ∃ r cn, demo_executes 1 actor_job r ∧ jr_task r = actor_job ∧ jr_completion r = Some cn.
Proof.
  set (E := toy_worker (λ _, [str_bytes "1"])).
  destruct (@executeTask E toy_executor toy_msgpack toy_prints unit toy_cache demo_worker actor_job (worker_with true)) as [[s' [[cn err]|e]]|] eqn:Hrun.
  - destruct cn as [cn|]; [|exfalso; vm_compute in Hrun; discriminate]. exists {| jr_task := actor_job; jr_completion := Some cn; jr_err := err |}, cn. split_and!; [|done|done].
    unfold demo_executes, executes. exists (worker_with true), s'. split; [exact Hrun|reflexivity].
  - exfalso. vm_compute in Hrun. discriminate.
  - exfalso. vm_compute in Hrun. discriminate.
Qed.
Lemma flushed_completions_report_witness : ∃ tr s cn task err, reachable demo_loop demo_executes tr s ∧ cn ∈ project flushes tr ∧
  task ∈ project dispatches tr ∧ reports demo_worker task cn err.
Proof.
  destruct demo_execution as (r & cn & Ho & Hr & Hcn). destruct (demo_stopped demo_executes r Ho Hr) as (tr & s & Hs & _ & _ & Hfl).
  assert (cn ∈ project flushes tr) as Hin by (rewrite Hfl; cbn; rewrite Hcn; apply list_elem_of_here).
  destruct (@flushed_completions_report (toy_worker (λ _, [str_bytes "1"])) toy_executor toy_msgpack toy_prints unit toy_cache demo_loop demo_worker tr s cn Hs Hin) as (task & err & Ht & Hrep).
  by exists tr, s, cn, task, err.
Defined.
