(* ===== verification/ModelCache.v ===== *)
(** The worker's model cache ([modelCache] in [internal/worker/agent.go]): an LRU list of
    checkpoint files with an index into it, the manifests beside the files, and the table of
    loads in flight.

    The first part is the sections that run under the cache's mutex, as functions on the
    cache and the files; the second the operations of a single caller, which are what
    [WorkerExec] needs of a cache ([CacheOps]); the third the interleaving of several callers.
    List elements are named by pointers, because the index holds pointers. The manifests are
    kept decoded ([None]: not valid JSON). Sizes and their sum are below 2^63. *)
From S2P Require Import Prelude Bytes Paths EventCodec Placement ObjectStore WorkerExec.

Open Scope Z_scope.

(** ** Names *)

Definition or_v1 (version : string) : string := if str_empty version then "v1" else version.
(** [modelKey] is [Placement.ModelKey]. *)
Definition safe_char (a : Ascii.ascii) : Ascii.ascii :=
  if existsb (Ascii.eqb a) (String.list_ascii_of_string "/\: ") then Ascii.ascii_of_nat 95 else a.
Definition safe_text (s : string) : string := String.string_of_list_ascii (map safe_char (String.list_ascii_of_string s)).
(** [safeModelFileName] *)
Definition safeModelFileName (name version : string) : string := safe_text name +:+ "-" +:+ safe_text (or_v1 version).
(** [checkpointManifestPath] *)
Definition checkpointManifestPath (checkpointPath : string) : string := checkpointPath +:+ ".manifest.json".

(** ** Data *)

(** [cacheEntry], [modelCacheManifest] *)
Record cacheEntry := { ce_key : string; ce_path : string; ce_size : Z; ce_lastAccess : Z }.
Record modelCacheManifest := { mf_Name : string; mf_Version : string; mf_CheckpointFile : string; mf_SizeBytes : Z; mf_LastAccessMs : Z }.
Record CacheConfig := { cc_sourceDir : string; cc_cacheDir : string; cc_capacityBytes : Z }.
(** [modelCache]; a load in flight is named by a number. *)
Record modelCache := { mc_models : gset string; mc_entries : gmap string positive; mc_lru : list (positive * cacheEntry); mc_usedBytes : Z }.
(** The files, by path ([None]: a directory), and the manifests of the cache directory. *)
Record Files := { fl_files : gmap string (option bytes); fl_manifests : gmap string (option modelCacheManifest) }.

Definition empty_cache : modelCache := {| mc_models := ∅; mc_entries := ∅; mc_lru := []; mc_usedBytes := 0 |}.
Definition clamp (n : Z) : Z := if n <? 0 then 0 else n.
Fixpoint lru_get (p : positive) (l : list (positive * cacheEntry)) : option cacheEntry :=
  match l with [] => None | (q, e) :: l => if bool_decide (q = p) then Some e else lru_get p l end.
Definition lru_remove (p : positive) (l : list (positive * cacheEntry)) : list (positive * cacheEntry) := filter (λ x, x.1 ≠ p) l.

(** ** Sections under the mutex *)

(** [putEntryLocked] *)
Definition putEntryLocked (entry : cacheEntry) (c : modelCache) : modelCache :=
  match mc_entries c !! ce_key entry with
  | Some p =>
      let current := match lru_get p (mc_lru c) with Some e => ce_size e | None => 0 end in
      {| mc_models := {[ce_key entry]} ∪ mc_models c; mc_entries := mc_entries c; mc_lru := (p, entry) :: lru_remove p (mc_lru c);
         mc_usedBytes := clamp (mc_usedBytes c + (ce_size entry - current)) |}
  | None =>
      let p := fresh (list_to_set (map fst (mc_lru c)) : gset positive) in
      {| mc_models := {[ce_key entry]} ∪ mc_models c; mc_entries := <[ce_key entry := p]> (mc_entries c); mc_lru := (p, entry) :: mc_lru c;
         mc_usedBytes := clamp (mc_usedBytes c + ce_size entry) |}
  end.
(** [removeElementLocked] *)
Definition removeElementLocked (element : positive * cacheEntry) (c : modelCache) : modelCache :=
  {| mc_models := mc_models c ∖ {[ce_key element.2]}; mc_entries := delete (ce_key element.2) (mc_entries c); mc_lru := lru_remove element.1 (mc_lru c);
     mc_usedBytes := clamp (mc_usedBytes c - ce_size element.2) |}.
Definition remove_file (path : string) (f : Files) : Files := {| fl_files := delete path (fl_files f); fl_manifests := fl_manifests f |}.
Definition remove_manifest (path : string) (f : Files) : Files := {| fl_files := fl_files f; fl_manifests := delete path (fl_manifests f) |}.

Section Cache.
Context (cfg : CacheConfig).

(** [checkpointPath] *)
Definition checkpointPath (name version : string) : string := Join [cc_cacheDir cfg; safeModelFileName name version +:+ ".checkpoint"].
(** [evictForLocked]: [refused] says which removals fail for another reason than a missing
    file; the loop runs at most once per element. *)
Fixpoint evict_loop (fuel : nat) (refused : string → bool) (incoming : Z) (evictions : Z) (c : modelCache) (f : Files) : modelCache * Files * result exec_error Z :=
  match fuel, last (mc_lru c) with
  | S fuel, Some element =>
      if cc_capacityBytes cfg <? mc_usedBytes c + incoming then
        if refused (ce_path element.2) then (c, f, Err (plain_error "remove"))
        else
          let f := remove_file (ce_path element.2) f in
          if refused (checkpointManifestPath (ce_path element.2)) then (c, f, Err (plain_error "remove"))
          else evict_loop fuel refused incoming (evictions + 1) (removeElementLocked element c) (remove_manifest (checkpointManifestPath (ce_path element.2)) f)
      else (c, f, Ok evictions)
  | _, _ => (c, f, Ok evictions)
  end.
Definition evictForLocked (refused : string → bool) (incoming : Z) (c : modelCache) (f : Files) : modelCache * Files * result exec_error Z :=
  if cc_capacityBytes cfg <=? 0 then (c, f, Ok 0) else evict_loop (length (mc_lru c)) refused incoming 0 c f.

(** [cachedCheckpoint] up to its first unlock. *)
Definition touch_entry (name version : string) (at_ : Z) (c : modelCache) (f : Files) : modelCache * option cacheEntry :=
  let key := ModelKey name version in
  match mc_entries c !! key with
  | None => (c, None)
  | Some p =>
      match lru_get p (mc_lru c) with
      | None => (c, None)
      | Some e =>
          match fl_files f !! ce_path e with
          | Some _ =>
              let e' := {| ce_key := ce_key e; ce_path := ce_path e; ce_size := ce_size e; ce_lastAccess := at_ |} in
              ({| mc_models := {[key]} ∪ mc_models c; mc_entries := mc_entries c; mc_lru := (p, e') :: lru_remove p (mc_lru c); mc_usedBytes := mc_usedBytes c |}, Some e')
          | None => (removeElementLocked (p, e) c, None)
          end
      end
  end.
(** The rest of it: a file by the model's name, put in the cache with what [os.Stat] saw. *)
Definition stat_file (path : string) (f : Files) : option Z := data ← fl_files f !! path; (λ d, Z.of_nat (length d)) <$> data.
Definition discovered (name version : string) (at_ : Z) (f : Files) : option cacheEntry :=
  size ← stat_file (checkpointPath name version) f;
  Some {| ce_key := ModelKey name version; ce_path := checkpointPath name version; ce_size := size; ce_lastAccess := at_ |}.
(** [writeCheckpointManifest] *)
Definition writeCheckpointManifest (path name version : string) (size lastAccess : Z) (f : Files) : Files :=
  {| fl_files := fl_files f; fl_manifests := <[checkpointManifestPath path := Some {| mf_Name := name; mf_Version := or_v1 version;
     mf_CheckpointFile := Base path; mf_SizeBytes := size; mf_LastAccessMs := lastAccess |}]> (fl_manifests f) |}.
(** [sourcePath] *)
Definition source_candidates (name version : string) : list string :=
  let version := or_v1 version in
  [Join [cc_sourceDir cfg; name +:+ "-" +:+ version; "checkpoint.bin"]; Join [cc_sourceDir cfg; name; version; "checkpoint.bin"];
   Join [cc_sourceDir cfg; name +:+ "-" +:+ version +:+ ".bin"]; Join [cc_sourceDir cfg; safeModelFileName name version +:+ ".bin"]].
Definition sourcePath (name version : string) (f : Files) : result exec_error string :=
  match list_find (λ path, is_Some (stat_file path f)) (source_candidates name version) with
  | Some (_, path) => Ok path
  | None => Err (plain_error "checkpoint source not found")
  end.
(** [loadCheckpoint] up to the copy: the source's path and its size. *)
Definition find_source (name version : string) (f : Files) : result exec_error (string * Z) :=
  source ← sourcePath name version f;
  match stat_file source f with
  | None => Err (plain_error "stat")
  | Some size => if (0 <? cc_capacityBytes cfg) && (cc_capacityBytes cfg <? size) then Err (plain_error "checkpoint exceeds cache capacity") else Ok (source, size)
  end.
(** [copyCheckpoint]'s effect when it succeeds. *)
Definition copyCheckpoint (source target : string) (f : Files) : result exec_error Files :=
  match fl_files f !! source with
  | Some (Some data) => Ok {| fl_files := <[target := Some data]> (fl_files f); fl_manifests := fl_manifests f |}
  | _ => Err (plain_error "open")
  end.
(** [loadCheckpoint]'s last section. *)
Definition insert_loaded (refused : string → bool) (name version : string) (size at_ : Z) (c : modelCache) (f : Files) : modelCache * Files * result exec_error Z :=
  match evictForLocked refused size c f with
  | (c, f, Err e) => (c, f, Err e)
  | (c, f, Ok evictions) =>
      (putEntryLocked {| ce_key := ModelKey name version; ce_path := checkpointPath name version; ce_size := size; ce_lastAccess := at_ |} c, f, Ok evictions)
  end.
(** [loadCheckpointManifests]: oldest first; among equals the source's order is free. *)
Definition manifest_entry (mtime : string → Z) (f : Files) (m : option modelCacheManifest) : option cacheEntry :=
  m ← m;
  let file := Base (mf_CheckpointFile m) in
  if str_empty (mf_Name m) || bool_decide (file = ".") || bool_decide (file = "/") || str_empty file then None
  else
    let path := Join [cc_cacheDir cfg; file] in
    size ← stat_file path f;
    Some {| ce_key := ModelKey (mf_Name m) (mf_Version m); ce_path := path; ce_size := size; ce_lastAccess := if mf_LastAccessMs m =? 0 then mtime path else mf_LastAccessMs m |}.
Definition access_le (e1 e2 : cacheEntry) : Prop := ce_lastAccess e1 <= ce_lastAccess e2.
#[export] Instance access_le_dec : RelDecision access_le.
Proof. unfold access_le. intros e1 e2. apply _. Defined.
Definition loadCheckpointManifests (mtime : string → Z) (f : Files) (c : modelCache) : modelCache :=
  foldl (λ c e, putEntryLocked e c) c (merge_sort access_le (omap (manifest_entry mtime f) (map snd (map_to_list (fl_manifests f))))).
(** [splitModelKey] of the worker *)
Definition splitConfigured (value : string) : string * string :=
  let value := bytes_str (trim_space (str_bytes value)) in
  match split_colon value with
  | None => if str_empty value then (EmptyString, EmptyString) else (value, "v1"%string)
  | Some (name, version) => if str_empty name then (EmptyString, EmptyString) else (name, or_v1 version)
  end.
(** [newModelCache] *)
Definition newModelCache (mtime : string → Z) (models : list string) (f : Files) : modelCache :=
  let c := if str_empty (cc_cacheDir cfg) then empty_cache else loadCheckpointManifests mtime f empty_cache in
  {| mc_models := mc_models c ∪ list_to_set (map (λ '(name, version), ModelKey name version) (filter (λ m, m.1 ≠ EmptyString) (map splitConfigured models)));
     mc_entries := mc_entries c; mc_lru := mc_lru c; mc_usedBytes := mc_usedBytes c |}.
(** [snapshotEntries]: the keys in the list's order, then the other warm models. *)
Definition snapshot_keys (c : modelCache) : list string :=
  let listed := filter (λ key, key ∈ mc_models c) (map (ce_key ∘ snd) (mc_lru c)) in
  listed ++ filter (λ key, key ∉ listed) (elements (mc_models c)).

(** ** One caller *)

(** The clock and the outcomes of file operations, by the number of the operation. *)
Class CacheEnv := {
  kv_now : nat → Z;
  kv_elapsed : nat → Z;
  kv_copy : nat → option exec_error;       (* why a copy fails *)
  kv_read : nat → option exec_error;       (* why reading a checkpoint fails *)
  kv_manifest : nat → option exec_error;   (* why a manifest is not written *)
  kv_refused : nat → string → bool
}.
Context `{CacheEnv}.
Record CacheState := { kc_cache : modelCache; kc_files : Files; kc_tick : nat }.
Definition at_tick (c : modelCache) (f : Files) (s : CacheState) : CacheState := {| kc_cache := c; kc_files := f; kc_tick := S (kc_tick s) |}.
(** Writing a manifest when its failure is ignored. *)
Definition try_manifest (n : nat) (path name version : string) (size at_ : Z) (f : Files) : Files :=
  match kv_manifest n with None => writeCheckpointManifest path name version size at_ f | Some _ => f end.
(** [cachedCheckpoint] *)
Definition cachedCheckpoint (name version : string) (s : CacheState) : CacheState * option cacheEntry :=
  let n := kc_tick s in
  let found c e := (at_tick c (try_manifest n (ce_path e) name version (ce_size e) (kv_now n) (kc_files s)) s, Some e) in
  match touch_entry name version (kv_now n) (kc_cache s) (kc_files s) with
  | (c, Some e) => found c e
  | (c, None) =>
      match discovered name version (kv_now n) (kc_files s) with
      | Some e => found (putEntryLocked e c) e
      | None => (at_tick c (kc_files s) s, None)
      end
  end.
(** [has], [add], [used], [capacity], [usesCheckpointStore] *)
Definition has (s : CacheState) (name version : string) : CacheState * bool :=
  let warm s := (s, bool_decide (ModelKey name version ∈ mc_models (kc_cache s))) in
  if str_empty (cc_cacheDir cfg) then warm s
  else match cachedCheckpoint name version s with (s, Some _) => (s, true) | (s, None) => warm s end.
Definition add (s : CacheState) (name version : string) : CacheState :=
  let c := kc_cache s in
  {| kc_cache := {| mc_models := {[ModelKey name version]} ∪ mc_models c; mc_entries := mc_entries c; mc_lru := mc_lru c; mc_usedBytes := mc_usedBytes c |};
     kc_files := kc_files s; kc_tick := kc_tick s |}.
Definition usesCheckpointStore : bool := negb (str_empty (cc_sourceDir cfg)) && negb (str_empty (cc_cacheDir cfg)).
(** [positiveElapsedMs] *)
Definition positiveElapsedMs (n : nat) : Z := at_least_one (kv_elapsed n).
(** [loadCheckpoint] *)
Definition loadCheckpoint (name version : string) (s : CacheState) : CacheState * result exec_error checkpointLoadResult :=
  let n := kc_tick s in
  let target := checkpointPath name version in
  let ends f e := (at_tick (kc_cache s) f s, Err e) in
  match find_source name version (kc_files s) with
  | Err e => ends (kc_files s) e
  | Ok (source, size) =>
      match kv_copy n, copyCheckpoint source target (kc_files s) with
      | Some e, _ | None, Err e => ends (kc_files s) e
      | None, Ok f =>
          match kv_read n, kv_manifest n with
          | Some e, _ => ends f e
          | None, Some e => ends f e
          | None, None =>
              let f := writeCheckpointManifest target name version size (kv_now n) f in
              match insert_loaded (kv_refused n) name version size (kv_now n) (kc_cache s) f with
              | (c, f, Err e) => (at_tick c f s, Err e)
              | (c, f, Ok evictions) =>
                  (at_tick c f s, Ok {| cl_CacheHit := false; cl_CheckpointFetchMs := positiveElapsedMs n; cl_ModelLoadMs := positiveElapsedMs (S n);
                                       cl_CacheUsedBytes := mc_usedBytes c; cl_CacheCapacityBytes := cc_capacityBytes cfg; cl_EvictionCount := evictions |})
              end
          end
      end
  end.
(** [ensureCheckpoint]; alone, the caller never finds another's load to wait for. *)
Definition ensureCheckpoint (s : CacheState) (name version : string) : CacheState * result exec_error checkpointLoadResult :=
  if negb usesCheckpointStore then (s, Err (plain_error "checkpoint cache is not configured"))
  else
    match cachedCheckpoint name version s with
    | (s, None) => loadCheckpoint name version s
    | (s, Some _) =>
        match kv_read (kc_tick s) with
        | Some e => (s, Err e)
        | None => (s, Ok {| cl_CacheHit := true; cl_CheckpointFetchMs := 0; cl_ModelLoadMs := positiveElapsedMs (kc_tick s);
                           cl_CacheUsedBytes := mc_usedBytes (kc_cache s); cl_CacheCapacityBytes := cc_capacityBytes cfg; cl_EvictionCount := 0 |})
        end
    end.
#[export] Instance model_cache_ops : CacheOps CacheState := {|
  cache_has := has; cache_add := add; cache_used := λ s, mc_usedBytes (kc_cache s); cache_capacity := λ _, cc_capacityBytes cfg;
  cache_usesCheckpointStore := λ _, usesCheckpointStore; cache_ensureCheckpoint := ensureCheckpoint |}.

(** ** Several callers *)

(** Where a load stands ([loadCheckpoint], then [finishLoadCall]). *)
Inductive load_stage := LSource | LCopy (source : string) (size : Z) | LRead (size : Z) | LManifest (size : Z) | LInsert (size at_ : Z) | LFinish (failed : bool).
(** Where a caller stands; [hasOnly] tells a call of [has] from one of [ensureCheckpoint]. *)
Inductive caller := Away | Touching (name version : string) (hasOnly : bool) | Discovering (name version : string) (hasOnly : bool) |
  Joining (name version : string) | Waiting (name version : string) (call : positive) | Producing (name version : string) (call : positive) (st : load_stage).
(** The cache, the files, the loads in flight by key, the finished ones with whether they
    failed, and the callers. *)
Record Shared := { sh_cache : modelCache; sh_files : Files; sh_inflight : gmap string positive; sh_finished : gmap positive bool; sh_callers : gmap nat caller }.
Definition caller_at (i : nat) (s : Shared) : caller := default Away (sh_callers s !! i).
Definition moved (i : nat) (pc : caller) (c : modelCache) (f : Files) (s : Shared) : Shared :=
  {| sh_cache := c; sh_files := f; sh_inflight := sh_inflight s; sh_finished := sh_finished s; sh_callers := <[i := pc]> (sh_callers s) |}.
Definition goes (i : nat) (pc : caller) (s : Shared) : Shared := moved i pc (sh_cache s) (sh_files s) s.
(** [loadCallForKey] *)
Definition loadCallForKey (i : nat) (name version : string) (s : Shared) : Shared :=
  let key := ModelKey name version in
  match sh_inflight s !! key with
  | Some call => goes i (Waiting name version call) s
  | None =>
      let call := fresh (map_img (sh_inflight s) ∪ dom (sh_finished s) : gset positive) in
      {| sh_cache := sh_cache s; sh_files := sh_files s; sh_inflight := <[key := call]> (sh_inflight s); sh_finished := sh_finished s;
         sh_callers := <[i := Producing name version call LSource]> (sh_callers s) |}
  end.
(** [finishLoadCall] *)
Definition finishLoadCall (i : nat) (name version : string) (call : positive) (failed : bool) (s : Shared) : Shared :=
  let key := ModelKey name version in
  if bool_decide (sh_inflight s !! key = Some call) then
    {| sh_cache := sh_cache s; sh_files := sh_files s; sh_inflight := delete key (sh_inflight s); sh_finished := <[call := failed]> (sh_finished s); sh_callers := <[i := Away]> (sh_callers s) |}
  else goes i Away s.
Inductive shared_step (i : nat) : Shared → Shared → Prop :=
| sh_call s name version hasOnly : caller_at i s = Away → shared_step i s (goes i (Touching name version hasOnly) s)
| sh_touch s name version hasOnly at_ c e : caller_at i s = Touching name version hasOnly → touch_entry name version at_ (sh_cache s) (sh_files s) = (c, Some e) →
    shared_step i s (moved i Away c (sh_files s) s)
| sh_miss s name version hasOnly at_ c : caller_at i s = Touching name version hasOnly → touch_entry name version at_ (sh_cache s) (sh_files s) = (c, None) →
    shared_step i s (moved i (Discovering name version hasOnly) c (sh_files s) s)
| sh_discover s name version hasOnly at_ seen e : caller_at i s = Discovering name version hasOnly → discovered name version at_ seen = Some e →
    shared_step i s (moved i Away (putEntryLocked e (sh_cache s)) (sh_files s) s)
| sh_absent s name version (hasOnly : bool) : caller_at i s = Discovering name version hasOnly → shared_step i s (goes i (if hasOnly then Away else Joining name version) s)
| sh_join s name version : caller_at i s = Joining name version → shared_step i s (loadCallForKey i name version s)
| sh_woken s name version call (failed : bool) : caller_at i s = Waiting name version call → sh_finished s !! call = Some failed →
    shared_step i s (goes i (if failed then Away else Touching name version false) s)
| sh_abandon s name version call : caller_at i s = Waiting name version call → shared_step i s (goes i Away s)
| sh_source s name version call source size : caller_at i s = Producing name version call LSource → find_source name version (sh_files s) = Ok (source, size) →
    shared_step i s (goes i (Producing name version call (LCopy source size)) s)
| sh_copy s name version call source size f : caller_at i s = Producing name version call (LCopy source size) → copyCheckpoint source (checkpointPath name version) (sh_files s) = Ok f →
    shared_step i s (moved i (Producing name version call (LRead size)) (sh_cache s) f s)
| sh_read s name version call size : caller_at i s = Producing name version call (LRead size) → shared_step i s (goes i (Producing name version call (LManifest size)) s)
| sh_manifest s name version call size at_ : caller_at i s = Producing name version call (LManifest size) →
    shared_step i s (moved i (Producing name version call (LInsert size at_)) (sh_cache s) (writeCheckpointManifest (checkpointPath name version) name version size at_ (sh_files s)) s)
| sh_insert s name version call size at_ refused c f r : caller_at i s = Producing name version call (LInsert size at_) →
    insert_loaded refused name version size at_ (sh_cache s) (sh_files s) = (c, f, r) →
    shared_step i s (moved i (Producing name version call (LFinish (match r with Ok _ => false | Err _ => true end))) c f s)
| sh_fail s name version call st : caller_at i s = Producing name version call st → (∀ b, st ≠ LFinish b) → shared_step i s (goes i (Producing name version call (LFinish true)) s)
| sh_finish s name version call failed : caller_at i s = Producing name version call (LFinish failed) → shared_step i s (finishLoadCall i name version call failed s).
(** A caller's step ([sh_discover] enters what [os.Stat] saw at an earlier moment), a warm
    mark ([add]), or another process changing the files. *)
Inductive cache_step : Shared → Shared → Prop :=
| step_caller i s s' : shared_step i s s' → cache_step s s'
| step_add s name version : cache_step s {| sh_cache := {| mc_models := {[ModelKey name version]} ∪ mc_models (sh_cache s); mc_entries := mc_entries (sh_cache s);
    mc_lru := mc_lru (sh_cache s); mc_usedBytes := mc_usedBytes (sh_cache s) |}; sh_files := sh_files s; sh_inflight := sh_inflight s; sh_finished := sh_finished s; sh_callers := sh_callers s |}
| step_files s f : cache_step s {| sh_cache := sh_cache s; sh_files := f; sh_inflight := sh_inflight s; sh_finished := sh_finished s; sh_callers := sh_callers s |}.
(** The cache as the worker starts it. *)
Definition cache_start (mtime : string → Z) (models : list string) (f : Files) : Shared :=
  {| sh_cache := newModelCache mtime models f; sh_files := f; sh_inflight := ∅; sh_finished := ∅; sh_callers := ∅ |}.
End Cache.
