(* ===== verification/ModelCacheSpec.v ===== *)
(** Theorems on the model cache ([ModelCache]): its index, its accounting, what an insertion
    evicts, and that a model is loaded by one caller at a time. *)
From S2P Require Import Prelude Bytes Paths EventCodec Placement ObjectStore WorkerExec ModelCache.

Open Scope Z_scope.

(** ** The list and its index *)

Fixpoint total (l : list (positive * cacheEntry)) : Z := match l with [] => 0 | x :: l => ce_size x.2 + total l end.
Record well_formed (c : modelCache) : Prop := {
  wf_pointers : NoDup (map fst (mc_lru c));
  wf_index key p : mc_entries c !! key = Some p ↔ ∃ e, (p, e) ∈ mc_lru c ∧ ce_key e = key;
  wf_used : mc_usedBytes c = total (mc_lru c);
  wf_sizes : Forall (λ x, 0 <= ce_size x.2) (mc_lru c);
  wf_warm p e : (p, e) ∈ mc_lru c → ce_key e ∈ mc_models c
}.
Lemma total_sizes_nonneg l : Forall (λ x, 0 <= ce_size x.2) l → 0 <= total l.
Proof. induction 1; cbn in *; lia. Qed.
Lemma total_app l1 l2 : total (l1 ++ l2) = total l1 + total l2.
Proof. induction l1; cbn in *; lia. Qed.
Lemma in_remove p q e l : (q, e) ∈ lru_remove p l ↔ q ≠ p ∧ (q, e) ∈ l.
Proof. unfold lru_remove. by rewrite list_elem_of_filter. Qed.
Lemma pointer_in p e (l : list (positive * cacheEntry)) : (p, e) ∈ l → p ∈ map fst l.
Proof. intros Hin. apply list_elem_of_fmap. by exists (p, e). Qed.
Lemma get_in p e l : NoDup (map fst l) → (p, e) ∈ l ↔ lru_get p l = Some e.
Proof.
  induction l as [|[q d] l IH]; cbn; intros Hn; [split; [intros ?%not_elem_of_nil|]; done|].
  apply NoDup_cons in Hn as [Hq Hn]. rewrite elem_of_cons. case_bool_decide as Hp; [subst q|].
  - split; [|intros [= ->]; by left]. intros [[= ->]|Hin]; [done|]. by apply pointer_in in Hin.
  - rewrite <- (IH Hn). split; [|by right]. intros [[= -> _]|]; done.
Qed.
Lemma remove_cons p q e l : lru_remove p ((q, e) :: l) = if decide (q = p) then lru_remove p l else (q, e) :: lru_remove p l.
Proof. unfold lru_remove. destruct (decide (q = p)); [rewrite filter_cons_False by (cbn; auto)|rewrite filter_cons_True by done]; done. Qed.
Lemma lru_remove_absent p l : p ∉ map fst l → lru_remove p l = l.
Proof.
  induction l as [|[q d] l IH]; [done|]. intros [Hq Hp]%not_elem_of_cons. cbn [fst] in Hq. rewrite remove_cons, decide_False by congruence. by rewrite IH.
Qed.
Lemma total_remove p e l : NoDup (map fst l) → (p, e) ∈ l → total (lru_remove p l) = total l - ce_size e.
Proof.
  induction l as [|[q d] l IH]; [by intros _ ?%not_elem_of_nil|]. intros [Hq Hn]%NoDup_cons. rewrite remove_cons, elem_of_cons. cbn [total snd fst] in *. intros [[= <- <-]|Hin].
  - rewrite decide_True, lru_remove_absent by done. lia.
  - rewrite decide_False by (intros ->; by apply pointer_in in Hin). cbn [total snd]. rewrite IH by done. lia.
Qed.
Lemma nodup_remove p l : NoDup (map fst l) → NoDup (map fst (lru_remove p l)).
Proof.
  induction l as [|[q d] l IH]; [done|]. intros [Hq Hn]%NoDup_cons. rewrite remove_cons. destruct (decide (q = p)); [auto|]. apply NoDup_cons. split; [|auto].
  intros Hin. apply Hq. apply list_elem_of_fmap in Hin as ([q' d'] & Heq & Hin). apply in_remove in Hin as [_ Hin]. cbn [fst] in *. subst. by eapply pointer_in.
Qed.
(** A pointer has one entry, and a key one pointer. *)
Lemma entry_unique c p e e' : well_formed c → (p, e) ∈ mc_lru c → (p, e') ∈ mc_lru c → e = e'.
Proof. intros [Hn _ _ _ _] H1 H2. apply (get_in p e _ Hn) in H1. apply (get_in p e' _ Hn) in H2. congruence. Qed.
Lemma key_unique c p q e e' : well_formed c → (p, e) ∈ mc_lru c → (q, e') ∈ mc_lru c → ce_key e = ce_key e' → p = q.
Proof.
  intros [_ Hi _ _ _] H1 H2 Hk. assert (mc_entries c !! ce_key e = Some p) as Hp by (apply Hi; by exists e).
  assert (mc_entries c !! ce_key e = Some q) as Hq by (apply Hi; by exists e'). congruence.
Qed.
Lemma indexed_entry c key p : well_formed c → mc_entries c !! key = Some p → ∃ e, lru_get p (mc_lru c) = Some e ∧ (p, e) ∈ mc_lru c ∧ ce_key e = key.
Proof. intros Hwf Hp. pose proof Hwf as [Hn Hi _ _ _]. apply Hi in Hp as (e & Hin & Hk). exists e. by rewrite <- (get_in p e _ Hn). Qed.
Lemma clamp_nonneg n : 0 <= n → clamp n = n.
Proof. unfold clamp. destruct (Z.ltb_spec n 0); lia. Qed.

(** ** The sections keep it *)

Lemma wf_empty : well_formed empty_cache.
Proof. split; cbn; try done; [constructor| | by intros p e ?%not_elem_of_nil]. intros key p. rewrite lookup_empty. split; [done|]. by intros (e & ?%not_elem_of_nil & _). Qed.
Lemma wf_models c m : well_formed c → mc_models c ⊆ m →
  well_formed {| mc_models := m; mc_entries := mc_entries c; mc_lru := mc_lru c; mc_usedBytes := mc_usedBytes c |}.
Proof. intros [] Hm. split; cbn; try done. intros p e Hin. apply Hm. by eapply wf_warm0. Qed.
(** An entry is replaced by one with the same key, at the front. *)
Lemma wf_replace c p e e' : well_formed c → (p, e) ∈ mc_lru c → ce_key e' = ce_key e → 0 <= ce_size e' →
  well_formed {| mc_models := {[ce_key e]} ∪ mc_models c; mc_entries := mc_entries c; mc_lru := (p, e') :: lru_remove p (mc_lru c); mc_usedBytes := mc_usedBytes c + (ce_size e' - ce_size e) |}.
Proof.
  intros Hwf Hin Hk Hs. pose proof Hwf as []. split; cbn.
  - apply NoDup_cons. split; [|by apply nodup_remove]. intros Hp. apply list_elem_of_fmap in Hp as ([q d] & -> & Hp). by apply in_remove in Hp as [].
  - intros key q. rewrite wf_index0. setoid_rewrite elem_of_cons. setoid_rewrite in_remove. split.
    + intros (d & Hd & Hkd). destruct (decide (q = p)) as [->|Hne]; [|exists d; auto]. exists e'. assert (d = e) as -> by (by apply (entry_unique c p)). split; [by left|congruence].
    + intros (d & [[= -> ->]|[Hne Hd]] & Hkd); [|by exists d]. exists e. split; [done|congruence].
  - rewrite (total_remove p e) by done. lia.
  - constructor; [done|]. apply Forall_forall. intros x Hx. apply list_elem_of_filter in Hx as [_ Hx]. rewrite Forall_forall in wf_sizes0. auto.
  - intros q d. rewrite elem_of_cons, in_remove. intros [[= -> ->]|[_ Hd]]; [rewrite Hk; set_solver|]. apply elem_of_union. right. by eapply wf_warm0.
Qed.
Lemma wf_put e c : well_formed c → 0 <= ce_size e → well_formed (putEntryLocked e c).
Proof.
  intros Hwf Hs. pose proof Hwf as []. unfold putEntryLocked. destruct (mc_entries c !! ce_key e) as [p|] eqn:Hp.
  - destruct (indexed_entry c _ p Hwf Hp) as (d & Hd & Hin & Hk). rewrite Hd. rewrite clamp_nonneg.
    + rewrite <- Hk at 1. by apply wf_replace.
    + rewrite wf_used0. pose proof (total_remove p d _ wf_pointers0 Hin) as Ht.
      assert (0 <= total (lru_remove p (mc_lru c))) by (apply total_sizes_nonneg, Forall_forall; intros x Hx; apply list_elem_of_filter in Hx as [_ Hx]; rewrite Forall_forall in wf_sizes0; auto). lia.
  - set (p := fresh _). assert (p ∉ map fst (mc_lru c)) as Hfresh by (intros Hin; apply (is_fresh (list_to_set (map fst (mc_lru c)) : gset positive)), elem_of_list_to_set; exact Hin).
    pose proof (total_sizes_nonneg _ wf_sizes0) as Ht. rewrite clamp_nonneg by lia. split; cbn.
    + by apply NoDup_cons.
    + intros key q. setoid_rewrite elem_of_cons. destruct (decide (key = ce_key e)) as [->|Hne].
      * rewrite lookup_insert_eq. split; [intros [= <-]; exists e; split; [by left|done]|]. intros (d & [[= -> ->]|Hd] & Hk); [done|]. exfalso.
        assert (mc_entries c !! ce_key e = Some q) by (apply wf_index0; by exists d). congruence.
      * rewrite lookup_insert_ne, wf_index0 by done. split; intros (d & Hd & Hk); exists d; (split; [|done]); [by right|]. destruct Hd as [[= -> ->]|]; [congruence|done].
    + lia.
    + by constructor.
    + intros q d. rewrite elem_of_cons. intros [[= -> ->]|Hd]; [set_solver|]. apply elem_of_union. right. by eapply wf_warm0.
Qed.
Lemma wf_remove p e c : well_formed c → (p, e) ∈ mc_lru c → well_formed (removeElementLocked (p, e) c).
Proof.
  intros Hwf Hin. pose proof Hwf as []. unfold removeElementLocked. cbn [fst snd].
  assert (Forall (λ x, 0 <= ce_size x.2) (lru_remove p (mc_lru c))) as Hsz by (apply Forall_forall; intros x Hx; apply list_elem_of_filter in Hx as [_ Hx]; rewrite Forall_forall in wf_sizes0; auto).
  pose proof (total_remove p e _ wf_pointers0 Hin) as Ht. pose proof (total_sizes_nonneg _ Hsz) as Hpos. rewrite clamp_nonneg by lia. split; cbn.
  - by apply nodup_remove.
  - intros key q. rewrite lookup_delete_Some, wf_index0. setoid_rewrite in_remove. split.
    + intros [Hne (d & Hd & Hk)]. exists d. split_and!; try done. intros ->. assert (d = e) by (by apply (entry_unique c p)). congruence.
    + intros (d & [Hne Hd] & Hk). split; [|by exists d]. intros Hke. apply Hne. apply (key_unique c q p d e); congruence.
  - lia.
  - done.
  - intros q d. rewrite in_remove. intros [Hne Hd]. apply elem_of_difference. split; [by eapply wf_warm0|]. rewrite elem_of_singleton. intros Hk. apply Hne. by apply (key_unique c q p d e).
Qed.

Section Spec.
Context (cfg : CacheConfig).

Lemma wf_touch name version at_ c f : well_formed c → well_formed (touch_entry name version at_ c f).1.
Proof.
  intros Hwf. unfold touch_entry. destruct (mc_entries c !! ModelKey name version) as [p|] eqn:Hp; [|done].
  destruct (indexed_entry c _ p Hwf Hp) as (e & -> & Hin & Hk). destruct (fl_files f !! ce_path e); cbn [fst]; [|by apply wf_remove].
  pose proof (wf_replace c p e {| ce_key := ce_key e; ce_path := ce_path e; ce_size := ce_size e; ce_lastAccess := at_ |} Hwf Hin eq_refl) as H. cbn [ce_size] in H.
  rewrite Z.sub_diag, Z.add_0_r, Hk in H. rewrite Hk. apply H. pose proof Hwf as []. rewrite Forall_forall in wf_sizes0. by apply (wf_sizes0 _ Hin).
Qed.

(** ** Eviction *)

Lemma remove_last p e l : NoDup (map fst (l ++ [(p, e)])) → lru_remove p (l ++ [(p, e)]) = l.
Proof.
  rewrite map_app, NoDup_app. intros (_ & Hd & _). induction l as [|[q d] l IH]; cbn [app].
  - rewrite remove_cons, decide_True by done. done.
  - rewrite remove_cons, decide_False. { rewrite IH; [done|]. intros x Hx. apply Hd. by right. }
    intros ->. apply (Hd p); [by left|]. by apply list_elem_of_here.
Qed.
Definition first_out (gone : list (positive * cacheEntry)) (kept : list (positive * cacheEntry)) (incoming : Z) : Prop :=
  match gone with [] => True | x :: _ => cc_capacityBytes cfg < total kept + ce_size x.2 + incoming end.
Lemma evict_spec refused incoming fuel : ∀ k c f c' f' r, well_formed c → (length (mc_lru c) <= fuel)%nat →
  evict_loop cfg fuel refused incoming k c f = (c', f', r) →
  well_formed c' ∧ ∃ gone, mc_lru c = mc_lru c' ++ gone ∧ first_out gone (mc_lru c') incoming ∧
    (∀ path, fl_files f !! path = None → fl_files f' !! path = None) ∧ Forall (λ x, fl_files f' !! ce_path x.2 = None) gone ∧
    match r with
    | Ok n => n = k + Z.of_nat (length gone) ∧ (mc_usedBytes c' + incoming <= cc_capacityBytes cfg ∨ mc_lru c' = [])
    | Err _ => ∃ x, x ∈ mc_lru c ∧ (refused (ce_path x.2) = true ∨ refused (checkpointManifestPath (ce_path x.2)) = true)
    end.
Proof.
  induction fuel as [|fuel IH]; intros k c f c' f' r Hwf Hlen; cbn [evict_loop].
  - assert (mc_lru c = []) as Hl by (destruct (mc_lru c); [done|cbn in Hlen; lia]). intros [= <- <- <-]. split; [done|]. exists []. rewrite app_nil_r. split_and!; try done; [cbn; lia|by right].
  - destruct (last (mc_lru c)) as [[p e]|] eqn:Hlast.
    2: { apply last_None in Hlast. intros [= <- <- <-]. split; [done|]. exists []. rewrite app_nil_r. split_and!; try done; [cbn; lia|by right]. }
    apply last_Some in Hlast as [l Hl]. destruct (Z.ltb_spec (cc_capacityBytes cfg) (mc_usedBytes c + incoming)) as [Hover|Hfits].
    2: { intros [= <- <- <-]. split; [done|]. exists []. rewrite app_nil_r. split_and!; try done; [cbn; lia|by left]. }
    assert ((p, e) ∈ mc_lru c) as Hin by (rewrite Hl; apply elem_of_app; right; apply list_elem_of_here). cbn [snd].
    destruct (refused (ce_path e)) eqn:Hr1.
    { intros [= <- <- <-]. split; [done|]. exists []. rewrite app_nil_r. split_and!; try done. exists (p, e). split; [done|by left]. }
    destruct (refused (checkpointManifestPath (ce_path e))) eqn:Hr2.
    { intros [= <- <- <-]. split; [done|]. exists []. rewrite app_nil_r. split_and!; try done; [|exists (p, e); split; [done|by right]].
      intros path Hpath. cbn. by rewrite lookup_delete_None; right. }
    pose proof (wf_pointers _ Hwf) as Hn. rewrite Hl in Hn.
    assert (mc_lru (removeElementLocked (p, e) c) = l) as Hl' by (cbn; rewrite Hl; by apply remove_last).
    intros Hev. eassert _ as Hres; [apply (IH _ _ _ _ _ _ (wf_remove p e c Hwf Hin)) in Hev; [exact Hev|]|destruct Hres as (Hwf' & gone & Hg & Hfirst & Hmono & Hgone & Hr)].
    { rewrite Hl'. rewrite Hl, length_app in Hlen. cbn in Hlen. lia. }
    split; [done|]. exists (gone ++ [(p, e)]). rewrite Hl' in Hg. rewrite Hl, Hg, app_assoc. split_and!; try done.
    + destruct gone as [|x gone]; [|done]. cbn. rewrite app_nil_r in Hg. rewrite (wf_used _ Hwf), Hl, total_app in Hover. cbn in Hover. rewrite <- Hg. lia.
    + intros path Hpath. apply Hmono. cbn. rewrite lookup_delete_None. by right.
    + apply Forall_app. split; [done|]. constructor; [|done]. apply Hmono. cbn. apply lookup_delete_eq.
    + destruct r as [n|err].
      * destruct Hr as [-> Hr]. split; [rewrite length_app; cbn; lia|done].
      * destruct Hr as (x & Hx & Hrf). exists x. split; [|done]. rewrite Hl', Hg in Hx. set_solver.
Qed.
(** An insertion into a well-formed cache. *)
Lemma wf_insert refused name version size at_ c f c' f' r : well_formed c → 0 <= size → insert_loaded cfg refused name version size at_ c f = (c', f', r) → well_formed c'.
Proof.
  intros Hwf Hs. unfold insert_loaded, evictForLocked. destruct (cc_capacityBytes cfg <=? 0); [intros [= <- <- <-]; by apply wf_put|].
  destruct (evict_loop _ _ _ _ _ _ _) as [[c1 f1] [n|e]] eqn:Hev; intros [= <- <- <-].
  - apply wf_put; [|done]. by eapply (evict_spec refused size) in Hev as [? _].
  - by eapply (evict_spec refused size) in Hev as [? _].
Qed.
Lemma put_used e c : well_formed c → 0 <= ce_size e → mc_usedBytes (putEntryLocked e c) <= mc_usedBytes c + ce_size e.
Proof.
  intros Hwf Hs. unfold putEntryLocked. pose proof Hwf as []. pose proof (total_sizes_nonneg _ wf_sizes0) as Ht. destruct (mc_entries c !! ce_key e) as [p|] eqn:Hp; cbn [mc_usedBytes].
  - destruct (indexed_entry c _ p Hwf Hp) as (d & -> & Hin & _). rewrite Forall_forall in wf_sizes0. specialize (wf_sizes0 _ Hin). cbn in wf_sizes0. unfold clamp. destruct (_ <? _); lia.
  - rewrite clamp_nonneg; lia.
Qed.
(** C23: an insertion evicts from the least recently used end exactly as many checkpoints as
    it takes, deletes their files, keeps the order of the others and the cache within its
    capacity, and puts the new one in front; it fails only if a removal is refused. *)
Theorem insertion_evicts_least_recent refused name version size at_ c f c' f' r :
  well_formed c → 0 < cc_capacityBytes cfg → 0 <= size <= cc_capacityBytes cfg → insert_loaded cfg refused name version size at_ c f = (c', f', r) →
  well_formed c' ∧
  match r with
  | Ok evictions => ∃ kept gone p, mc_lru c = kept ++ gone ∧ evictions = Z.of_nat (length gone) ∧ first_out gone kept size ∧
      Forall (λ x, fl_files f' !! ce_path x.2 = None) gone ∧ mc_usedBytes c' <= cc_capacityBytes cfg ∧
      mc_entries c' !! ModelKey name version = Some p ∧
      mc_lru c' = (p, {| ce_key := ModelKey name version; ce_path := checkpointPath cfg name version; ce_size := size; ce_lastAccess := at_ |}) :: lru_remove p kept
  | Err _ => ∃ x, x ∈ mc_lru c ∧ (refused (ce_path x.2) = true ∨ refused (checkpointManifestPath (ce_path x.2)) = true)
  end.
Proof.
  intros Hwf Hcap Hs Hins. split; [apply (wf_insert refused name version size at_ c f c' f' r); [done|lia|done]|]. revert Hins. unfold insert_loaded, evictForLocked. rewrite (proj2 (Z.leb_gt _ _)) by lia.
  destruct (evict_loop _ _ _ _ _ _ _) as [[c1 f1] [n|e]] eqn:Hev; intros [= <- <- <-]; apply (evict_spec refused size) in Hev as (Hwf1 & gone & Hl & Hfirst & _ & Hgone & Hr); try done.
  destruct Hr as [-> Hfit]. set (e := {| ce_key := _; ce_path := _; ce_size := size; ce_lastAccess := at_ |}). pose proof (put_used e c1 Hwf1 ltac:(cbn; lia)) as Hu.
  exists (mc_lru c1), gone. unfold putEntryLocked in *. change (ce_key e) with (ModelKey name version) in *. change (ce_size e) with size in *.
  assert (mc_usedBytes c1 + size <= cc_capacityBytes cfg) as Hle by (destruct Hfit as [|Hnil]; [done|]; rewrite (wf_used _ Hwf1), Hnil; cbn; lia).
  destruct (mc_entries c1 !! ModelKey name version) as [p|] eqn:Hp; [exists p|exists (fresh (list_to_set (map fst (mc_lru c1)) : gset positive))];
    (split; [done|]); (split; [lia|]); (split; [done|]); (split; [done|]); (split; [cbn [mc_usedBytes] in *; lia|]); cbn [mc_entries mc_lru]; (split; [done || apply lookup_insert_eq|]).
  - done.
  - rewrite lru_remove_absent; [done|]. intros Hin. by apply (is_fresh (list_to_set (map fst (mc_lru c1)) : gset positive)), elem_of_list_to_set.
Qed.

(** ** The cache in every interleaving *)

Lemma stat_nonneg path f size : stat_file path f = Some size → 0 <= size.
Proof. unfold stat_file. destruct (fl_files f !! path) as [[data|]|]; cbn; try done. intros [= <-]. lia. Qed.
Lemma discovered_size name version at_ f e : discovered cfg name version at_ f = Some e → 0 <= ce_size e.
Proof. unfold discovered. destruct (stat_file _ f) as [size|] eqn:Hs; cbn; [|done]. intros [= <-]. cbn. by eapply stat_nonneg. Qed.
Lemma manifest_size mtime f m e : manifest_entry cfg mtime f m = Some e → 0 <= ce_size e.
Proof.
  unfold manifest_entry. destruct m as [m|]; cbn [mbind option_bind]; [|done]. cbv zeta. destruct (_ || _); [done|].
  destruct (stat_file _ f) as [size|] eqn:Hs; cbn; [|done]. intros [= <-]. cbn. by eapply stat_nonneg.
Qed.
Lemma wf_puts l c : well_formed c → Forall (λ e, 0 <= ce_size e) l → well_formed (foldl (λ c e, putEntryLocked e c) c l).
Proof. intros Hc Hl. revert c Hc. induction Hl as [|e l He Hl IH]; intros c Hc; cbn; [done|]. by apply IH, wf_put. Qed.
Lemma wf_new mtime models f : well_formed (newModelCache cfg mtime models f).
Proof.
  unfold newModelCache. apply wf_models; [|set_solver]. destruct (str_empty _); [apply wf_empty|]. apply wf_puts; [apply wf_empty|].
  apply Forall_forall. intros e He. rewrite merge_sort_Permutation in He. apply list_elem_of_omap in He as (m & _ & Hm). by eapply manifest_size.
Qed.

Lemma caller_insert i j pc s c f fl fin : caller_at j {| sh_cache := c; sh_files := f; sh_inflight := fl; sh_finished := fin; sh_callers := <[i := pc]> (sh_callers s) |} =
  if decide (i = j) then pc else caller_at j s.
Proof. unfold caller_at. cbn. destruct (decide (i = j)) as [->|]; [by rewrite lookup_insert_eq|by rewrite lookup_insert_ne]. Qed.

(** What the callers and the table of loads in flight say of each other. *)
Record Flights (s : Shared) : Prop := {
  fl_producer i name version call st : caller_at i s = Producing name version call st → sh_inflight s !! ModelKey name version = Some call;
  fl_produced key call : sh_inflight s !! key = Some call → ∃ i name version st, caller_at i s = Producing name version call st ∧ ModelKey name version = key;
  fl_unique i j name version call st name' version' st' : caller_at i s = Producing name version call st → caller_at j s = Producing name' version' call st' → i = j;
  fl_waiting i name version call : caller_at i s = Waiting name version call → is_Some (sh_finished s !! call) ∨ sh_inflight s !! ModelKey name version = Some call;
  fl_size i name version call st : caller_at i s = Producing name version call st → match st with LCopy _ n | LRead n | LManifest n | LInsert n _ => 0 <= n | _ => True end
}.
(** A caller that neither was nor becomes a producer. *)
Lemma flights_moved i pc c f s : Flights s → match caller_at i s with Producing _ _ _ _ => False | _ => True end →
  match pc with Producing _ _ _ _ => False | Waiting name version call => sh_inflight s !! ModelKey name version = Some call | _ => True end → Flights (moved i pc c f s).
Proof.
  intros [] Hold Hnew. split; unfold moved; cbn [sh_inflight sh_finished].
  - intros j n v k st. rewrite caller_insert. destruct (decide (i = j)); [intros ->; done|eauto].
  - intros key k Hk. destruct (fl_produced0 key k Hk) as (j & n & v & st & Hj & Hkey). exists j, n, v, st. rewrite caller_insert. destruct (decide (i = j)) as [->|]; [by rewrite Hj in Hold|done].
  - intros j j' n v k st n' v' st'. rewrite !caller_insert. destruct (decide (i = j)), (decide (i = j')); try (intros ->; done); try (intros _ ->; done). eauto.
  - intros j n v k. rewrite caller_insert. destruct (decide (i = j)); [intros ->; by right|eauto].
  - intros j n v k st. rewrite caller_insert. destruct (decide (i = j)); [intros ->; done|apply fl_size0].
Qed.
(** A producer goes on. *)
Lemma flights_produce i name version call st st' c f s : Flights s → caller_at i s = Producing name version call st →
  match st' with LCopy _ n | LRead n | LManifest n | LInsert n _ => 0 <= n | _ => True end → Flights (moved i (Producing name version call st') c f s).
Proof.
  intros [] Hi Hsz. split; unfold moved; cbn [sh_inflight sh_finished].
  - intros j n v k st1. rewrite caller_insert. destruct (decide (i = j)); [intros [= <- <- <- <-]; eauto|eauto].
  - intros key k Hk. destruct (fl_produced0 key k Hk) as (j & n & v & st1 & Hj & Hkey). destruct (decide (i = j)) as [<-|Hne].
    + exists i, name, version, st'. rewrite caller_insert, decide_True by done. rewrite Hi in Hj. by injection Hj as <- <- <- _.
    + exists j, n, v, st1. by rewrite caller_insert, decide_False by done.
  - intros j j' n v k st1 n' v' st1'. rewrite !caller_insert. destruct (decide (i = j)) as [<-|], (decide (i = j')) as [<-|]; [done| | |eauto].
    + intros [= <- <- <- <-] Hj'. by eapply fl_unique0.
    + intros Hj [= <- <- <- <-]. by eapply fl_unique0.
  - intros j n v k. rewrite caller_insert. destruct (decide (i = j)); [done|eauto].
  - intros j n v k st1. rewrite caller_insert. destruct (decide (i = j)); [intros [= <- <- <- <-]; done|apply fl_size0].
Qed.
Lemma flights_join i name version s : Flights s → caller_at i s = Joining name version → Flights (loadCallForKey i name version s).
Proof.
  intros HF Hi. unfold loadCallForKey. destruct (sh_inflight s !! ModelKey name version) as [call|] eqn:Hc.
  - apply flights_moved; [done|by rewrite Hi|done].
  - set (call := fresh _). assert (call ∉ (map_img (sh_inflight s) ∪ dom (sh_finished s) : gset positive)) as Hfresh by apply is_fresh.
    assert (∀ key, sh_inflight s !! key ≠ Some call) as Hnew by (intros key Hk; apply Hfresh, elem_of_union; left; by eapply elem_of_map_img_2).
    pose proof HF as []. split; cbn [sh_inflight sh_finished].
    + intros j n v k st. rewrite caller_insert. destruct (decide (i = j)); [intros [= <- <- <- <-]; apply lookup_insert_eq|]. intros Hj. pose proof (fl_producer0 _ _ _ _ _ Hj) as Hk.
      rewrite lookup_insert_ne; [done|]. intros Heq. congruence.
    + intros key k Hk. apply lookup_insert_Some in Hk as [[<- <-]|[Hne Hk]].
      * exists i, name, version, LSource. by rewrite caller_insert, decide_True by done.
      * destruct (fl_produced0 key k Hk) as (j & n & v & st & Hj & Hkey). exists j, n, v, st. rewrite caller_insert, decide_False by (intros <-; congruence). done.
    + intros j j' n v k st n' v' st'. rewrite !caller_insert. destruct (decide (i = j)) as [<-|], (decide (i = j')) as [<-|]; [done| | |eauto].
      * intros [= <- <- <- <-] Hj'. by apply fl_producer0, Hnew in Hj'.
      * intros Hj [= <- <- <- <-]. by apply fl_producer0, Hnew in Hj.
    + intros j n v k. rewrite caller_insert. destruct (decide (i = j)); [done|]. intros Hj. destruct (fl_waiting0 _ _ _ _ Hj) as [|Hk]; [by left|right]. rewrite lookup_insert_ne; [done|congruence].
    + intros j n v k st. rewrite caller_insert. destruct (decide (i = j)); [by intros [= <- <- <- <-]|apply fl_size0].
Qed.
Lemma flights_finish i name version call b s : Flights s → caller_at i s = Producing name version call (LFinish b) → Flights (finishLoadCall i name version call b s).
Proof.
  intros HF Hi. pose proof HF as []. unfold finishLoadCall. rewrite bool_decide_eq_true_2 by eauto.
  assert (∀ j n v k st, i ≠ j → caller_at j s = Producing n v k st → ModelKey n v ≠ ModelKey name version) as Hother.
  { intros j n v k st Hne Hj Hk. apply Hne. pose proof (fl_producer0 _ _ _ _ _ Hi) as H1. pose proof (fl_producer0 _ _ _ _ _ Hj) as H2. rewrite Hk, H1 in H2. injection H2 as <-. by eapply fl_unique0. }
  split; cbn [sh_inflight sh_finished].
  - intros j n v k st. rewrite caller_insert. destruct (decide (i = j)); [done|]. intros Hj. rewrite lookup_delete_ne by (by eapply not_eq_sym, Hother). eauto.
  - intros key k [Hne Hk]%lookup_delete_Some. destruct (fl_produced0 key k Hk) as (j & n & v & st & Hj & Hkey). exists j, n, v, st. rewrite caller_insert, decide_False; [done|].
    intros <-. rewrite Hi in Hj. injection Hj as <- <- _ _. congruence.
  - intros j j' n v k st n' v' st'. rewrite !caller_insert. destruct (decide (i = j)), (decide (i = j')); try done. eauto.
  - intros j n v k. rewrite caller_insert. destruct (decide (i = j)); [done|]. intros Hj. destruct (fl_waiting0 _ _ _ _ Hj) as [Hf|Hk].
    + left. destruct (decide (k = call)) as [->|]; [rewrite lookup_insert_eq; by eexists|by rewrite lookup_insert_ne].
    + destruct (decide (ModelKey n v = ModelKey name version)) as [He|Hne]; [|right; by rewrite lookup_delete_ne by done].
      left. rewrite He, (fl_producer0 _ _ _ _ _ Hi) in Hk. injection Hk as <-. rewrite lookup_insert_eq. by eexists.
  - intros j n v k st. rewrite caller_insert. destruct (decide (i = j)); [done|apply fl_size0].
Qed.
Lemma source_size name version f source size : find_source cfg name version f = Ok (source, size) → 0 <= size.
Proof.
  unfold find_source. destruct (sourcePath _ _ _ _) as [p|]; cbn; [|done]. destruct (stat_file p f) as [n|] eqn:Hs; [|done]. destruct (_ && _); [done|]. intros [= <- <-]. by eapply stat_nonneg.
Qed.
Definition kept (s : Shared) : Prop := well_formed (sh_cache s) ∧ Flights s.
Lemma kept_step s s' : kept s → cache_step cfg s s' → kept s'.
Proof.
  intros [Hwf HF] Hstep. destruct Hstep as [i s s' Hs|s name version|s f].
  2: { split; [apply wf_models; [done|set_solver]|]. destruct HF. by split. }
  2: { split; [done|]. destruct HF. by split. }
  destruct Hs as [s name version h Hi|s name version h at_ c e Hi Ht|s name version h at_ c Hi Ht|s name version h at_ seen e Hi Hd|s name version h Hi|s name version Hi|s name version call b Hi Hb|
    s name version call Hi|s name version call source size Hi Hf|s name version call source size f Hi Hf|s name version call size Hi|s name version call size at_ Hi|
    s name version call size at_ refused c f r Hi Hins|s name version call st Hi Hst|s name version call b Hi].
  - split; [done|]. apply flights_moved; [done|by rewrite Hi|done].
  - pose proof (wf_touch name version at_ _ (sh_files s) Hwf) as Hw. rewrite Ht in Hw. split; [done|]. apply flights_moved; [done|by rewrite Hi|done].
  - pose proof (wf_touch name version at_ _ (sh_files s) Hwf) as Hw. rewrite Ht in Hw. split; [done|]. apply flights_moved; [done|by rewrite Hi|done].
  - split; [apply wf_put; [done|by eapply discovered_size]|]. apply flights_moved; [done|by rewrite Hi|done].
  - split; [done|]. apply flights_moved; [done|by rewrite Hi|by destruct h].
  - split; [|by apply flights_join]. unfold loadCallForKey. by destruct (sh_inflight s !! _).
  - split; [done|]. apply flights_moved; [done|by rewrite Hi|by destruct b].
  - split; [done|]. apply flights_moved; [done|by rewrite Hi|done].
  - split; [done|]. eapply flights_produce; [done|done|]. by eapply source_size.
  - split; [done|]. eapply flights_produce; [done|done|]. by apply (fl_size _ HF _ _ _ _ _ Hi).
  - split; [done|]. eapply flights_produce; [done|done|]. by apply (fl_size _ HF _ _ _ _ _ Hi).
  - split; [done|]. eapply flights_produce; [done|done|]. by apply (fl_size _ HF _ _ _ _ _ Hi).
  - split; [|by eapply flights_produce]. eapply wf_insert; [exact Hwf|by apply (fl_size _ HF _ _ _ _ _ Hi)|exact Hins].
  - split; [done|]. by eapply flights_produce.
  - split; [|by apply flights_finish]. unfold finishLoadCall. by destruct (bool_decide _).
Qed.
Definition cache_reachable (s : Shared) : Prop := ∃ mtime models f, star (cache_step cfg) (cache_start cfg mtime models f) s.
Lemma kept_reachable s : cache_reachable s → kept s.
Proof.
  intros (mtime & models & f & Hs). eapply (star_invariant _ kept); [intros a b; apply kept_step| |exact Hs].
  split; [apply wf_new|]. unfold cache_start. split; cbn; unfold caller_at; cbn; intros *; rewrite ?lookup_empty; done.
Qed.
(** C22: in every interleaving of callers, with files coming and going, the cache is well
    formed: each element has its own pointer, the index maps exactly the keys in the list to
    their elements, every cached model is advertised as warm, and the bytes used are the sum
    of the entries' sizes. *)
Theorem cache_stays_well_formed s : cache_reachable s → well_formed (sh_cache s).
Proof. by intros [Hwf _]%kept_reachable. Qed.
(** C24: a model is loaded by one caller at a time, and a caller waiting for another's load
    waits for one that has finished or whose producer is still at work. *)
Theorem one_load_per_model s : cache_reachable s →
  (∀ i j name version name' version' call call' st st', caller_at i s = Producing name version call st → caller_at j s = Producing name' version' call' st' →
     ModelKey name version = ModelKey name' version' → i = j) ∧
  (∀ i name version call, caller_at i s = Waiting name version call →
     is_Some (sh_finished s !! call) ∨ ∃ j name' version' st, caller_at j s = Producing name' version' call st ∧ ModelKey name' version' = ModelKey name version).
Proof.
  intros [_ HF]%kept_reachable. split.
  - intros i j name version name' version' call call' st st' Hi Hj Hk. pose proof (fl_producer _ HF _ _ _ _ _ Hi) as H1. pose proof (fl_producer _ HF _ _ _ _ _ Hj) as H2.
    rewrite Hk, H2 in H1. injection H1 as <-. by eapply (fl_unique _ HF).
  - intros i name version call Hi. destruct (fl_waiting _ HF _ _ _ _ Hi) as [|Hk]; [by left|right]. destruct (fl_produced _ HF _ _ Hk) as (j & n & v & st & Hj & Hkey). by exists j, n, v, st.
Qed.
End Spec.
