(* ===== verification/ModelCacheDemo.v ===== *)
(** Witnesses of the theorems on the model cache, and runs in which names and capacities do not
    mean what they should. *)
From S2P Require Import Prelude Bytes Paths EventCodec Placement ObjectStore WorkerExec ModelCache ModelCacheSpec.

Open Scope Z_scope.

Definition demo_cache_cfg : CacheConfig := {| cc_sourceDir := "/models"; cc_cacheDir := "/cache"; cc_capacityBytes := 10 |}.
Definition files (l : list (string * string)) : Files := {| fl_files := list_to_map (map (λ '(path, text), (path, Some (str_bytes text))) l); fl_manifests := ∅ |}.
Definition toy_disk : CacheEnv := {| kv_now := Z.of_nat; kv_elapsed := λ _, 1; kv_copy := λ _, None; kv_read := λ _, None; kv_manifest := λ _, None; kv_refused := λ _ _, false |}.
#[local] Existing Instance toy_disk.
Definition fresh_state (f : Files) : CacheState := {| kc_cache := newModelCache demo_cache_cfg (λ _, 0) [] f; kc_files := f; kc_tick := 0 |}.
Definition demo_entry (key path : string) (size : Z) : cacheEntry := {| ce_key := key; ce_path := path; ce_size := size; ce_lastAccess := 0 |}.

(** ** Witnesses *)

Definition two_models : modelCache := putEntryLocked (demo_entry "b:v1" "/cache/b-v1.checkpoint" 3) (putEntryLocked (demo_entry "a:v1" "/cache/a-v1.checkpoint" 6) empty_cache).
Lemma insertion_evicts_least_recent_witness :
  let f := files [("/cache/a-v1.checkpoint", "aaaaaa"); ("/cache/b-v1.checkpoint", "bbb"); ("/cache/c-v1.checkpoint", "ccccc")]%string in
  ∃ c' f', insert_loaded demo_cache_cfg (λ _, false) "c" "v1" 5 1 two_models f = (c', f', Ok 1) ∧ well_formed c' ∧ map (ce_key ∘ snd) (mc_lru c') = ["c:v1"; "b:v1"].
Proof.
  intros f. destruct (insert_loaded demo_cache_cfg (λ _, false) "c" "v1" 5 1 two_models f) as [[c' f'] r] eqn:Hins.
  destruct (insertion_evicts_least_recent demo_cache_cfg (λ _, false) "c" "v1" 5 1 two_models f c' f' r) as [Hwf _];
    [apply wf_put; [apply wf_put; [apply wf_empty|done]|done]|done|done|exact Hins|].
  vm_compute in Hins. injection Hins as <- <- <-. eexists _, _. split_and!; [reflexivity|exact Hwf|reflexivity].
Defined.

(** A caller loading a model. *)
Lemma demo_loading : ∃ s call, cache_reachable demo_cache_cfg s ∧ caller_at 0 s = Producing "m" "v1" call LSource.
Proof.
  eexists _, _. split.
  - exists (λ _, 0), [], (files []).
    eapply star_step; [by apply (step_caller _ 0), (sh_call _ _ _ "m" "v1" false)|].
    eapply star_step; [by apply (step_caller _ 0), (sh_miss _ _ _ "m" "v1" false 0)|].
    eapply star_step; [by apply (step_caller _ 0), (sh_absent _ _ _ "m" "v1" false)|].
    eapply star_step; [by apply (step_caller _ 0), (sh_join _ _ _ "m" "v1")|]. apply star_refl.
  - reflexivity.
Qed.
Lemma cache_stays_well_formed_witness : ∃ s, cache_reachable demo_cache_cfg s ∧ well_formed (sh_cache s).
Proof. destruct demo_loading as (s & call & Hs & _). exists s. split; [done|]. by apply (cache_stays_well_formed demo_cache_cfg). Defined.
Lemma one_load_per_model_witness : ∃ s call, cache_reachable demo_cache_cfg s ∧ caller_at 0 s = Producing "m" "v1" call LSource ∧ 0%nat = 0%nat.
Proof.
  destruct demo_loading as (s & call & Hs & Hi). exists s, call. split_and!; [done|done|].
  by apply (proj1 (one_load_per_model demo_cache_cfg s Hs) 0%nat 0%nat "m"%string "v1"%string "m"%string "v1"%string call call LSource LSource).
Defined.

(** ** Names and capacities *)

(** Two models whose names join to the same file: the second, which has no source, is served
    the first one's checkpoint, as a hit. *)
Example colliding_models_share_a_file :
  let s := fresh_state (files [("/models/a-b-c.bin", "weights")])%string in
  let (s1, r1) := ensureCheckpoint demo_cache_cfg s "a" "b-c" in
  let (s2, r2) := ensureCheckpoint demo_cache_cfg s1 "a-b" "c" in
  match r1, r2 with
  | Ok l1, Ok l2 => cl_CacheHit l1 = false ∧ cl_CacheHit l2 = true ∧ map (λ x, (ce_key x.2, ce_path x.2)) (mc_lru (kc_cache s2)) =
      [("a-b:c", "/cache/a-b-c.checkpoint"); ("a:b-c", "/cache/a-b-c.checkpoint")]%string
  | _, _ => False
  end.
Proof. vm_compute. by split_and!. Qed.
(** A model's name is joined to the source directory as it is, and leads out of it. *)
Example source_leaves_its_directory :
  sourcePath demo_cache_cfg "../private/x" "v1" (files [("/private/x-v1/checkpoint.bin", "secret")])%string = Ok "/private/x-v1/checkpoint.bin"%string.
Proof. by vm_compute. Qed.
(** Files found in the cache directory are entered without evicting anything. *)
Example discovery_exceeds_capacity :
  let s := fresh_state (files [("/cache/a-v1.checkpoint", "aaaaaa"); ("/cache/b-v1.checkpoint", "bbbbbb")])%string in
  let (s1, a) := has demo_cache_cfg s "a" "v1" in let (s2, b) := has demo_cache_cfg s1 "b" "v1" in
  (a, b, mc_usedBytes (kc_cache s2)) = (true, true, 12).
Proof. by vm_compute. Qed.
