(* ===== verification/CheckpointCheck.v ===== *)
(** The code's own consistency check of a metadata checkpoint
    ([CheckMetadataCheckpointConsistency]): it restores the checkpoint with the streams' tails
    and replays the whole log, both without scheduling, and accepts a checkpoint under the
    conditions of [sound_checkpoint]. *)
From S2P Require Import Prelude Bytes LogRecord EventCodec TaskSpec MetaStore TaskReplay TaskReplaySpec Placement Scheduler WorkerStore WorkflowDef WorkflowState WorkflowReplay WorkflowJSON Actor MetaDomains WorkflowArgs ServiceState ControlTasks ControlDispatch ControlActors ControlWorkflows ControlService ControlAdmin Checkpoint CheckpointTails ServiceLogic.

Open Scope Z_scope.

(** ** The parts of the state a replay writes *)

Inductive part := PTasks | PWorkflows | PActors | PStats.
#[export] Instance part_eq_dec : EqDecision part.
Proof. solve_decision. Defined.
(** Only one part changes; what replays read is as before. *)
Record only (p : part) (s s' : Service) : Prop := {
  on_log : sv_log s' = sv_log s ∧ sv_trims s' = sv_trims s;
  on_objects : sv_objects s' = sv_objects s ∧ sv_config s' = sv_config s;
  on_tasks : p ≠ PTasks → sv_meta s' = sv_meta s;
  on_workflows : p ≠ PWorkflows → sv_workflows s' = sv_workflows s;
  on_actors : p ≠ PActors → sv_actors s' = sv_actors s;
  on_stats : p ≠ PStats → sv_llmStats s' = sv_llmStats s
}.
#[export] Instance only_preorder p : PreOrder (only p).
Proof.
  split; [by split|]. intros s1 s2 s3 [[] [] Hm Hw Ha Hs] [[] [] Hm' Hw' Ha' Hs'].
  split; [split; congruence|split; congruence|intros Hp; specialize (Hm Hp); specialize (Hm' Hp)|intros Hp; specialize (Hw Hp); specialize (Hw' Hp)
         |intros Hp; specialize (Ha Hp); specialize (Ha' Hp)|intros Hp; specialize (Hs Hp); specialize (Hs' Hp)]; congruence.
Qed.
Lemma only_read p s s' st from : only p s s' → read_stream s' st from = read_stream s st from.
Proof. intros [[Hl Ht] _ _ _ _ _]. unfold read_stream. by rewrite Hl, Ht. Qed.
Lemma only_loader p s s' : only p s s' → LoadResult s' = LoadResult s.
Proof. intros [_ [Ho Hc] _ _ _ _]. unfold LoadResult. by rewrite Ho, Hc. Qed.

Lemma elem_of_rev {A} (x : A) l : x ∈ rev l ↔ x ∈ l.
Proof. by rewrite !list_elem_of_In, <- in_rev. Qed.
(** The streams of the items, then the others. *)
Lemma seen_then_rest (seen l : list string) st : (∀ x, x ∈ seen → x ∈ l) → st ∈ rev (filter (λ x, x ∉ seen) l) ++ rev seen ↔ st ∈ l.
Proof.
  intros Hs. rewrite elem_of_app, !elem_of_rev, list_elem_of_filter. split; [by intros [[_ ?]|?]; auto|].
  intros Hst. destruct (decide (st ∈ seen)); auto.
Qed.
(** A loop over elements with distinct labels: [I] of the labels that are done. *)
Lemma post_each {A} blk (label : A → string) (I : list string → Service → Prop) (f : A → M unit) l : ∀ done s,
  I done s → NoDup (map label l) → (∀ x, x ∈ l → label x ∉ done) →
  (∀ x done s, x ∈ l → label x ∉ done → I done s → post blk (f x) (λ r s', r = Ok () ∧ I (label x :: done) s') s) →
  post blk (for_each l f) (λ r s', r = Ok () ∧ I (rev (map label l) ++ done) s') s.
Proof.
  induction l as [|x l IH]; intros done s Hi Hnd Hn Hf; cbn [for_each map rev app]; [by rewrite post_ret|].
  apply NoDup_cons in Hnd as [Hx Hnd]. rewrite post_bind. eapply post_mono; [apply (Hf x done s); [by left|apply Hn; by left|done]|].
  intros r s' [-> Hi']. cbn [then_]. rewrite <- app_assoc. apply IH; [exact Hi'|done| |].
  - intros y Hy [Heq|Hin]%elem_of_cons; [|by apply (Hn y); [right|]]. destruct Hx. rewrite <- Heq. by apply list_elem_of_fmap_2.
  - intros y done' s2 Hy. apply Hf. by right.
Qed.

(** The first item of a stream, when the streams of the items are distinct. *)
Lemma find_label {A} (label : A → string) l x : NoDup (map label l) → x ∈ l →
  List.find (λ y, bool_decide (label y = label x)) l = Some x.
Proof.
  induction l as [|y l IH]; intros Hnd Hin; [by apply not_elem_of_nil in Hin|]. cbn [map List.find] in *. apply NoDup_cons in Hnd as [Hy Hnd].
  case_bool_decide as He; apply elem_of_cons in Hin as [->|Hin]; [done| |done|by apply IH]. destruct Hy. rewrite He. by apply list_elem_of_fmap_2.
Qed.
Lemma find_unlabelled {A} (label : A → string) l st : st ∉ map label l → List.find (λ y, bool_decide (label y = st)) l = None.
Proof.
  intros Hn. destruct (List.find _ l) as [y|] eqn:Hf; [|done]. apply find_some in Hf as [Hin%list_elem_of_In Hy%bool_decide_eq_true_1].
  destruct Hn. rewrite <- Hy. by apply list_elem_of_fmap_2.
Qed.

(** A map from identifiers holds what [W] gives for the streams in [done]. *)
Section Domains.
Context {A : Type} (stream_of : string → string) `{!Inj (=) (=) stream_of} (W : string → option A).
Definition domain_is (done : list string) (m : gmap string A) : Prop :=
  ∀ id, m !! id = if decide (stream_of id ∈ done) then W (stream_of id) else None.
Lemma domain_none : domain_is [] ∅.
Proof. intros id. rewrite decide_False by apply not_elem_of_nil. apply lookup_empty. Qed.
Lemma domain_put done m id w : domain_is done m → W (stream_of id) = Some w → domain_is (stream_of id :: done) (<[id := w]> m).
Proof.
  intros Hm Hw id'. destruct (decide (id' = id)) as [->|Hne].
  - rewrite lookup_insert_eq, decide_True by (by left). done.
  - rewrite lookup_insert_ne, Hm by done. apply decide_ext. rewrite elem_of_cons. split; [by right|]. intros [Heq%(inj stream_of)|?]; done.
Qed.
Lemma domain_skip done m st : domain_is done m → W st = None → domain_is (st :: done) m.
Proof.
  intros Hm Hw id. rewrite Hm. destruct (decide (stream_of id = st)) as [He|Hne].
  - rewrite He, Hw. by repeat case_decide.
  - apply decide_ext. rewrite elem_of_cons. split; [by right|]. by intros [?|?].
Qed.
End Domains.

Section Check.
Context `{Env, MsgpackLib} `{!TaskCodecLib, FingerprintLib, RegistryJSON, ActorJSON, ArgsLib, ControlJSON, DefinitionJSON, WorkflowEventJSON, SystemJSON} `{!StateJSON, !CheckpointJSON}.

(** ** Tasks *)

Definition kept (rs : taskReplayState) : Prop := rs_ok rs = true ∧ is_Some (rs_spec rs).
#[export] Instance kept_dec rs : Decision (kept rs).
Proof. apply and_dec; apply _. Defined.

(** [G]: the state that is restored for a stream. *)
Record replays (G : string → option taskReplayState) : Prop := {
  gr_kept : ∀ st rs, G st = Some rs → kept rs ∧ st = taskStream (tk_TaskID (rs_task rs));
  gr_keys : ∀ st st' rs rs', G st = Some rs → G st' = Some rs' → tk_IdempotencyKey (rs_task rs) = tk_IdempotencyKey (rs_task rs') →
    tk_IdempotencyKey (rs_task rs) ≠ EmptyString → st = st'
}.
(** The tasks of the streams in [done] are restored, and no others. *)
Record tasks_are (G : string → option taskReplayState) (done : list string) (s : Service) : Prop := {
  ta_only : ∀ id t, ms_tasks (sv_meta s) !! id = Some t → taskStream id ∈ done ∧
    ∃ rs ts, G (taskStream id) = Some rs ∧ t = set_created (finalTask rs) (tk_IdempotencyKey (rs_task rs)) ts;
  ta_all : ∀ id rs, taskStream id ∈ done → G (taskStream id) = Some rs → is_Some (ms_tasks (sv_meta s) !! id);
  ta_keys : ∀ key id, ms_taskByIdemKey (sv_meta s) !! key = Some id →
    ∃ rs, taskStream id ∈ done ∧ G (taskStream id) = Some rs ∧ tk_IdempotencyKey (rs_task rs) = key
}.

Lemma final_fields rs : tk_TaskID (finalTask rs) = tk_TaskID (rs_task rs) ∧ tk_IdempotencyKey (finalTask rs) = tk_IdempotencyKey (rs_task rs).
Proof. unfold finalTask. by case_match. Qed.
Lemma post_restore_queue t id Q s :
  (∀ s', only PTasks s s' → sv_meta s' = sv_meta s → Q (Ok ()) s') → post False (restore_queue t id) Q s.
Proof.
  intros HQ. unfold restore_queue, useSchedulerV2. rewrite post_bind, post_gets. cbn [then_].
  destruct (cf_schedulerV2 _); [rewrite post_schedule; by apply HQ|]. rewrite post_modify. apply HQ; by case_decide.
Qed.

Lemma tasks_skip G done st s : tasks_are G done s → G st = None → tasks_are G (st :: done) s.
Proof.
  intros [Ho Ha Hk] Hg. split.
  - intros id t Ht. destruct (Ho id t Ht) as [? ?]. split; [by right|done].
  - intros id rs [->|Hin]%elem_of_cons Hrs; [congruence|by eapply Ha].
  - intros key id Hid. destruct (Hk key id Hid) as (rs & ? & ?). exists rs. split; [by right|done].
Qed.
Lemma restore_kept G done st rs s :
  replays G → tasks_are G done s → st ∉ done → G st = Some rs →
  post False (restoreTaskReplayState rs) (λ r s', r = Ok () ∧ tasks_are G (st :: done) s' ∧ only PTasks s s') s.
Proof.
  intros [Hkept Hkeys] [Ho Ha Hk] Hn Hg. destruct (Hkept st rs Hg) as [[Hok [spec Hspec]] Hst]. destruct (final_fields rs) as [Hid Hkey].
  unfold restoreTaskReplayState. rewrite Hok, Hspec, post_bind. unfold now, ticked, post at 1. cbn [then_].
  rewrite post_bind, post_on. cbn [then_ set_tick sv_meta sv_tick]. unfold CreateTask. rewrite Hid, Hkey.
  assert ((if str_empty (tk_IdempotencyKey (rs_task rs)) then None else ms_taskByIdemKey (sv_meta s) !! tk_IdempotencyKey (rs_task rs)) = None) as ->.
  { destruct (str_empty _) eqn:He; [done|]. apply str_empty_false in He. destruct (ms_taskByIdemKey _ !! _) as [id|] eqn:Hi; [|done].
    destruct (Hk _ _ Hi) as (rs' & Hin & Hg' & Hke). destruct Hn. by rewrite (Hkeys _ _ _ _ Hg Hg' (eq_sym Hke) He). }
  cbn [fst snd]. set (t := set_created _ _ _). assert (tk_TaskID t = tk_TaskID (rs_task rs)) as Ht by exact Hid.
  assert (t = set_created (finalTask rs) (tk_IdempotencyKey (rs_task rs)) (env_nanos (sv_tick s) / 1000000)) as Htd by done. clearbody t.
  rewrite post_bind, post_modify. cbn [then_].
  match goal with |- post _ _ _ ?x => set (s1 := x) end.
  assert (tasks_are G (st :: done) s1 ∧ only PTasks s s1) as [Hta Hon].
  { split; [|by split]. split; cbn.
    - intros id t'. destruct (decide (id = tk_TaskID t)) as [->|Hne].
      + rewrite lookup_insert_eq. intros [= <-]. rewrite Ht, <- Hst. split; [by left|]. subst t. by eexists rs, _.
      + rewrite lookup_insert_ne by done. intros Hl. destruct (Ho _ _ Hl). split; [by right|done].
    - intros id rs' Hin Hg'. destruct (decide (id = tk_TaskID t)) as [->|Hne]; [by rewrite lookup_insert_eq|].
      rewrite lookup_insert_ne by done. apply elem_of_cons in Hin as [Hin|Hin]; [|by eapply Ha]. destruct Hne. rewrite Ht.
      apply taskStream_inj. by rewrite Hin, <- Hst.
    - intros key id Hl. destruct (str_empty _).
      + destruct (Hk _ _ Hl) as (rs' & ? & ?). exists rs'. split; [by right|done].
      + destruct (decide (key = tk_IdempotencyKey (rs_task rs))) as [->|Hne].
        * rewrite lookup_insert_eq in Hl. injection Hl as <-. exists rs. rewrite Ht, <- Hst. split; [by left|done].
        * rewrite lookup_insert_ne in Hl by done. destruct (Hk _ _ Hl) as (rs' & ? & ?). exists rs'. split; [by right|done]. }
  destruct (_ || _); [|by split_and!]. apply post_restore_queue. intros s2 Hon2 Hm2. split; [done|]. split; [|by etrans].
  destruct Hta as [Ho' Ha' Hk']. by split; rewrite Hm2.
Qed.
Lemma restore_unkept rs s : ¬ kept rs → restoreTaskReplayState rs s = Some (s, Ok ()).
Proof.
  unfold kept, restoreTaskReplayState. intros Hk. destruct (rs_ok rs); [|done]. destruct (rs_spec rs); [|done]. by destruct Hk.
Qed.

(** A loop that restores one stream after the other. *)
Lemma restore_each {A} G (label : A → string) (g : A → taskReplayState) (f : A → M unit) l done s0 s :
  replays G → tasks_are G done s → only PTasks s0 s → NoDup (map label l) → (∀ x, x ∈ l → label x ∉ done) →
  (∀ x, x ∈ l → G (label x) = if decide (kept (g x)) then Some (g x) else None) →
  (∀ x s, x ∈ l → only PTasks s0 s → f x s = restoreTaskReplayState (g x) s) →
  post False (for_each l f) (λ r s', r = Ok () ∧ tasks_are G (rev (map label l) ++ done) s' ∧ only PTasks s0 s') s.
Proof.
  intros Hr Hta Hon Hnd Hn Hg Hf. apply (post_each False label (λ d s, tasks_are G d s ∧ only PTasks s0 s)); [done..|].
  intros x d s1 Hx Hxd [Hta1 Hon1]. unfold post. rewrite (Hf x s1 Hx Hon1). specialize (Hg x Hx). case_decide as Hk.
  - eapply post_mono; [by apply (restore_kept G d (label x) (g x) s1)|]. intros r s' (-> & ? & ?). split; [done|]. split; [done|by etrans].
  - rewrite restore_unkept by done. split; [done|]. split; [|done]. by apply tasks_skip.
Qed.

(** What the two restarts read of a stream. *)
Definition streams_of (prefix : string) (s : Service) : list string := filter (λ id, has_prefix prefix id = true) (stream_ids (sv_log s)).
Definition whole (s : Service) (st : string) : list RawRecord := read_stream s st 1.
Definition tail_of (s : Service) (cp : MetadataCheckpoint) (st : string) : list RawRecord :=
  read_stream s st (if tail_start cp st =? 0 then 1 else tail_start cp st).

Definition full_task (s : Service) (st : string) : option taskReplayState :=
  if decide (st ∈ streams_of "task:" s) then
    match apply_all initial_replay (whole s st) with Ok rs => if decide (kept rs) then Some rs else None | Err _ => None end
  else None.
Definition decoded_spec (data : bytes) : option TaskSpec := match data with [] => Some zero_spec | data => protojson_Unmarshal data end.
Definition item_stream (item : metadataCheckpointTask) : string := taskStream (tk_TaskID (ct_Task item)).
Definition resumed_task (s : Service) (cp : MetadataCheckpoint) (item : metadataCheckpointTask) : option taskReplayState :=
  spec ← decoded_spec (ct_Spec item);
  match apply_all (taskReplayStateFromCheckpoint (ct_Task item) (Some spec)) (tail_of s cp (item_stream item)) with
  | Ok rs => Some rs
  | Err _ => None
  end.
Definition item_of (cp : MetadataCheckpoint) (st : string) : option metadataCheckpointTask :=
  List.find (λ item, bool_decide (item_stream item = st)) (cp_Tasks cp).
Definition fast_task (s : Service) (cp : MetadataCheckpoint) (st : string) : option taskReplayState :=
  match item_of cp st with Some item => resumed_task s cp item | None => full_task s st end.

Lemma only_streams p s s' prefix : only p s s' → streams_of prefix s' = streams_of prefix s.
Proof. intros [[Hl _] _ _ _ _ _]. unfold streams_of. by rewrite Hl. Qed.
Lemma streams_nodup prefix s : NoDup (streams_of prefix s).
Proof. apply NoDup_filter, stream_ids_nodup. Qed.
Lemma replay_whole records : replayTaskMetadataRawEach (Some {| ti_records := records; ti_fails := false |}) None = apply_all initial_replay records.
Proof. unfold replayTaskMetadataRawEach. cbn [ti_records ti_fails]. by destruct (apply_all initial_replay records). Qed.

(** Every task stream replays to a task of its own, with a key of its own. *)
Record task_logs (s : Service) : Prop := {
  tl_replays : ∀ st, st ∈ streams_of "task:" s →
    ∃ rs, apply_all initial_replay (whole s st) = Ok rs ∧ (kept rs → st = taskStream (tk_TaskID (rs_task rs)));
  tl_keys : ∀ st st' rs rs', full_task s st = Some rs → full_task s st' = Some rs' →
    tk_IdempotencyKey (rs_task rs) = tk_IdempotencyKey (rs_task rs') → tk_IdempotencyKey (rs_task rs) ≠ EmptyString → st = st'
}.
Lemma full_replays s : task_logs s → replays (full_task s).
Proof.
  intros [Hr Hk]. split; [|exact Hk]. unfold full_task. intros st rs. case_decide as Hst; [|done].
  destruct (Hr st Hst) as (rs' & -> & Hid). case_decide; [|done]. intros [= <-]. auto.
Qed.

Lemma bootstrap_stream s0 st s : only PTasks s0 s → st ∈ streams_of "task:" s0 → ∀ rs, apply_all initial_replay (whole s0 st) = Ok rs →
  bootstrapTaskStream st s = restoreTaskReplayState rs s.
Proof.
  intros Hon Hst rs Hrs. unfold bootstrapTaskStream, forEachRawLogRecord, mbind, M_bind, gets. cbn [Z.eqb].
  rewrite (only_read _ _ _ _ _ Hon), replay_whole. unfold whole in Hrs. by rewrite Hrs.
Qed.

(** The replay of all task streams that the loop over [l] reads. *)
Lemma boot_streams G s0 l done s :
  task_logs s0 → replays G → (∀ st, st ∈ l → G st = full_task s0 st) → NoDup l → (∀ st, st ∈ l → st ∈ streams_of "task:" s0 ∧ (st ∉ done)) →
  tasks_are G done s → only PTasks s0 s →
  post False (for_each l bootstrapTaskStream) (λ r s', r = Ok () ∧ tasks_are G (rev l ++ done) s' ∧ only PTasks s0 s') s.
Proof.
  intros Hl HG Hsame Hnd Hin Hta Hon.
  set (g := λ st, match apply_all initial_replay (whole s0 st) with Ok rs => rs | Err _ => initial_replay end).
  replace (rev l) with (rev (map (λ st, st) l)) by (by rewrite map_id). apply (restore_each G (λ st, st) g); [done|done|done|by rewrite map_id|intros x Hx; by apply Hin| |].
  - intros st Hst. rewrite (Hsame st Hst). unfold full_task, g. destruct (Hin st Hst) as [Hst' _]. rewrite decide_True by done.
    by destruct (tl_replays _ Hl st Hst') as (rs & -> & _).
  - intros st s1 Hst Hon1. destruct (Hin st Hst) as [Hst' _]. destruct (tl_replays _ Hl st Hst') as (rs & Hrs & _).
    rewrite (bootstrap_stream s0 st s1 Hon1 Hst' rs Hrs). unfold g. by rewrite Hrs.
Qed.
Lemma tasks_none G s : sv_meta s = NewLegacyMemoryStore → tasks_are G [] s.
Proof. intros Hm. split; rewrite Hm; cbn; intros *; rewrite ?lookup_empty; try done. by intros ?%not_elem_of_nil. Qed.
Lemma boot_full s : task_logs s → sv_meta s = NewLegacyMemoryStore →
  post False bootstrapTasks (λ r s', r = Ok () ∧ tasks_are (full_task s) (rev (streams_of "task:" s) ++ []) s' ∧ only PTasks s s') s.
Proof.
  intros Hl Hm. unfold bootstrapTasks, listStreams. rewrite post_bind, post_gets. cbn [then_].
  apply (boot_streams (full_task s) s); [done|by apply full_replays|done|apply streams_nodup| |by apply tasks_none|done].
  intros st Hst. split; [done|apply not_elem_of_nil].
Qed.

(** ** Positions *)

(** The checkpoint's position of a stream is the end of [pre]; position 0 stands for the
    first record too.  What is trimmed of the stream is before that position. *)
Record position_in (s : Service) (cp : MetadataCheckpoint) (st : string) (pre tail : list RawRecord) : Prop := {
  po_stream : stream (sv_log s) st = pre ++ tail;
  po_numbered : ∀ i r, (pre ++ tail) !! i = Some r → raw_Seq r = Z.of_nat i + 1;
  po_trimmed : default 0 (sv_trims s !! st) <= Z.of_nat (length pre) + 1;
  po_short : Z.of_nat (length pre) + 1 < 2 ^ 64;
  po_last : let last := default 0 (cs_LastSeq <$> cp_Streams cp !! st) in
    last = Z.of_nat (length pre) ∧ (0 < length pre)%nat ∨ last = 0 ∧ length pre = 1%nat
}.
Record position_ok (s : Service) (cp : MetadataCheckpoint) (st : string) (pre tail : list RawRecord) : Prop := {
  po_in : position_in s cp st pre tail;
  po_untrimmed : default 0 (sv_trims s !! st) <= 1
}.
Lemma position_start s cp st pre tail : position_in s cp st pre tail → tail_start cp st = Z.of_nat (length pre) + 1.
Proof.
  intros [_ _ _ Hs Hl]. cbn in Hl. unfold tail_start, next_seq.
  replace (match cp_Streams cp !! st with Some entry => cs_LastSeq entry | None => 0 end) with (default 0 (cs_LastSeq <$> cp_Streams cp !! st))
    by (by destruct (cp_Streams cp !! st)).
  destruct Hl as [[-> Hp]|[-> ->]]; [|done]. rewrite u64_id by (unfold in_u64; lia). by rewrite (proj2 (Z.eqb_neq _ _)) by lia.
Qed.
(** A read of a numbered stream drops what is before its start and what is trimmed. *)
Lemma numbered_read s st l from : stream (sv_log s) st = l → (∀ i r, l !! i = Some r → raw_Seq r = Z.of_nat i + 1) →
  read_stream s st from = drop (Z.to_nat (Z.max from (default 0 (sv_trims s !! st)) - 1)) l.
Proof.
  intros <- Hnum. unfold read_stream. set (t := default 0 (sv_trims s !! st)). set (k := Z.to_nat (Z.max from t - 1)).
  rewrite <- (take_drop k (stream (sv_log s) st)) at 1. rewrite filter_app, filter_none, filter_all; [done| |]; apply Forall_forall; intros r (i & Hi)%list_elem_of_lookup.
  - rewrite lookup_drop in Hi. specialize (Hnum _ _ Hi). unfold k in *. lia.
  - apply lookup_take_Some in Hi as [Hi Hlt]. specialize (Hnum _ _ Hi). unfold k in *. lia.
Qed.
Lemma position_in_reads s cp st pre tail : position_in s cp st pre tail →
  whole s st = drop (Z.to_nat (default 0 (sv_trims s !! st) - 1)) (pre ++ tail) ∧ tail_of s cp st = tail.
Proof.
  intros Hpos. pose proof (position_start _ _ _ _ _ Hpos) as Ht. destruct Hpos as [Hst Hnum Hu _ _].
  unfold whole, tail_of. rewrite Ht, (proj2 (Z.eqb_neq _ _)) by lia. rewrite !(numbered_read _ _ _ _ Hst Hnum). split; [f_equal; lia|].
  rewrite Z.max_l by lia. by rewrite Z.add_simpl_r, Nat2Z.id, drop_app_length.
Qed.
Lemma position_reads s cp st pre tail : position_ok s cp st pre tail → whole s st = pre ++ tail ∧ tail_of s cp st = tail.
Proof.
  intros [Hpos Hu]. destruct (position_in_reads _ _ _ _ _ Hpos) as [-> ->]. split; [|done].
  by replace (Z.to_nat (default 0 (sv_trims s !! st) - 1)) with 0%nat by lia.
Qed.
Lemma position_listed s cp st pre tail prefix : position_in s cp st pre tail → has_prefix prefix st = true → pre ≠ [] → st ∈ streams_of prefix s.
Proof.
  intros [Hst _ _ _ _] Hp Hne. unfold streams_of. apply list_elem_of_filter. split; [done|]. apply stream_ids_in.
  destruct pre as [|r pre]; [done|]. exists r. assert (r ∈ stream (sv_log s) st) as Hin by (rewrite Hst; left).
  unfold stream in Hin. apply list_elem_of_filter in Hin as [? ?]. done.
Qed.

(** ** Tasks of a checkpoint *)

Record task_item_ok (s : Service) (cp : MetadataCheckpoint) (item : metadataCheckpointTask) (spec : TaskSpec)
    (pre tail : list RawRecord) (rs : taskReplayState) : Prop := {
  ti_spec : decoded_spec (ct_Spec item) = Some spec;
  ti_position : position_ok s cp (item_stream item) pre tail;
  ti_replay : apply_all initial_replay pre = Ok rs;
  ti_captures : captures (ct_Task item) spec rs;
  ti_tail : task_tail_ok (ct_Task item) rs tail
}.
Record task_items_ok (s : Service) (cp : MetadataCheckpoint) : Prop := {
  tis_distinct : NoDup (map item_stream (cp_Tasks cp));
  tis_items : ∀ item, item ∈ cp_Tasks cp → ∃ spec pre tail rs, task_item_ok s cp item spec pre tail rs
}.

Lemma consistent_ids a b : metadataTasksConsistent a b = true → tk_TaskID a = tk_TaskID b ∧ tk_IdempotencyKey a = tk_IdempotencyKey b.
Proof.
  unfold metadataTasksConsistent. intros Hc. repeat (apply andb_prop in Hc as [Hc ?]).
  repeat match goal with Hb : bool_decide _ = true |- _ => apply bool_decide_eq_true_1 in Hb end. done.
Qed.
Lemma consistent_refl a : metadataTasksConsistent a a = true.
Proof. unfold metadataTasksConsistent. by rewrite !bool_decide_eq_true_2, !Z.eqb_refl. Qed.

(** A checkpointed task comes back as the whole stream's replay has it. *)
Lemma resumed_item s cp item :
  task_logs s → task_items_ok s cp → item ∈ cp_Tasks cp →
  ∃ full fast, full_task s (item_stream item) = Some full ∧ resumed_task s cp item = Some fast ∧ kept fast ∧
    metadataTasksConsistent (finalTask full) (finalTask fast) = true.
Proof.
  intros Hl [_ Hi] Hin. destruct (Hi item Hin) as (spec & pre & tail & rs & [Hspec Hpos Hrs Hcap Htail]).
  assert (pre ≠ []) as Hne. { intros ->. destruct Hcap as [[Hok _] _ _ _ _ _]. injection Hrs as <-. done. }
  assert (item_stream item ∈ streams_of "task:" s) as Hst by (by eapply position_listed; [apply Hpos|..]).
  destruct (position_reads _ _ _ _ _ Hpos) as [Hw Ht]. destruct (tl_replays _ Hl _ Hst) as (full & Hf & _).
  rewrite Hw in Hf. pose proof Hf as Hf0. rewrite apply_all_app, Hrs in Hf. cbn in Hf.
  destruct (task_tail_resumes _ _ _ _ _ Hcap Htail Hf) as (fast & Ha & Hok & Hsp & Hc & Hfs).
  assert (kept full) as Hk.
  { destruct (later_events_all tail rs full) as (H1' & H2' & _); [|exact Hf|].
    - eapply Forall_impl; [exact Htail|]. by intros r [].
    - destruct Hcap as [[Hok' _] Hss _ _ _ _]. split; [congruence|]. rewrite H1'. unfold same_spec in Hss. destruct (rs_spec rs); [by eexists|done]. }
  exists full, fast. split_and!; [|unfold resumed_task; rewrite Hspec; cbn; by rewrite Ht, Ha|by split|done].
  unfold full_task. rewrite decide_True, Hw, Hf0 by done. by rewrite decide_True.
Qed.
Lemma item_of_some cp st item : item_of cp st = Some item → item ∈ cp_Tasks cp ∧ item_stream item = st.
Proof. intros [Hin Hb]%find_some. apply list_elem_of_In in Hin. by apply bool_decide_eq_true_1 in Hb. Qed.
Lemma fast_of_item s cp item : NoDup (map item_stream (cp_Tasks cp)) → item ∈ cp_Tasks cp →
  fast_task s cp (item_stream item) = resumed_task s cp item.
Proof. intros Hnd Hin. unfold fast_task, item_of. by rewrite (find_label item_stream). Qed.

Lemma fast_agrees s cp st fast : task_logs s → task_items_ok s cp → fast_task s cp st = Some fast →
  ∃ full, full_task s st = Some full ∧ kept fast ∧ metadataTasksConsistent (finalTask full) (finalTask fast) = true.
Proof.
  intros Hl Hi. unfold fast_task. destruct (item_of cp st) as [item|] eqn:Hit.
  - apply item_of_some in Hit as [Hin <-]. intros Hr. destruct (resumed_item _ _ _ Hl Hi Hin) as (full & fast' & ? & Hr' & ? & ?).
    exists full. rewrite Hr in Hr'. by injection Hr' as <-.
  - intros Hf. exists fast. destruct (gr_kept _ (full_replays s Hl) _ _ Hf). by rewrite consistent_refl.
Qed.
Lemma full_agrees s cp st full : task_logs s → task_items_ok s cp → full_task s st = Some full →
  ∃ fast, fast_task s cp st = Some fast ∧ metadataTasksConsistent (finalTask full) (finalTask fast) = true.
Proof.
  intros Hl Hi Hf. unfold fast_task. destruct (item_of cp st) as [item|] eqn:Hit; [|exists full; by rewrite consistent_refl].
  apply item_of_some in Hit as [Hin <-]. destruct (resumed_item _ _ _ Hl Hi Hin) as (full' & fast & Hf' & ? & ? & ?).
  rewrite Hf in Hf'. injection Hf' as <-. by exists fast.
Qed.
Lemma fast_replays s cp : task_logs s → task_items_ok s cp → replays (fast_task s cp).
Proof.
  intros Hl Hi. assert (∀ st fast, fast_task s cp st = Some fast → ∃ full, full_task s st = Some full ∧ kept fast ∧
    tk_TaskID (rs_task full) = tk_TaskID (rs_task fast) ∧ tk_IdempotencyKey (rs_task full) = tk_IdempotencyKey (rs_task fast)) as Hg.
  { intros st fast Hf. destruct (fast_agrees _ _ _ _ Hl Hi Hf) as (full & ? & ? & [Hid Hk]%consistent_ids). exists full.
    destruct (final_fields full) as [<- <-], (final_fields fast) as [<- <-]. done. }
  destruct (full_replays s Hl) as [Hk Hkeys]. split.
  - intros st fast Hf. destruct (Hg _ _ Hf) as (full & Hfull & ? & <- & _). split; [done|]. by destruct (Hk _ _ Hfull).
  - intros st st' fast fast' Hf Hf'. destruct (Hg _ _ Hf) as (full & Hfull & _ & _ & <-), (Hg _ _ Hf') as (full' & Hfull' & _ & _ & <-). by apply Hkeys.
Qed.

Lemma restore_item_eq s0 cp item rs s :
  only PTasks s0 s → resumed_task s0 cp item = Some rs → restore_task_item cp item s = restoreTaskReplayState rs s.
Proof.
  unfold resumed_task. intros Hon. destruct (decoded_spec (ct_Spec item)) as [spec|] eqn:Hspec; [cbn|done].
  destruct (apply_all _ _) as [rs'|] eqn:Ha; [|done]. intros [= ->]. unfold restore_task_item, decoded_spec in *.
  change (taskStream (tk_TaskID (ct_Task item))) with (item_stream item). unfold tail_of in Ha.
  destruct (ct_Spec item) as [|b data]; [injection Hspec as <-|rewrite Hspec]; unfold mbind, M_bind, mret, M_ret, forEachRawLogRecord, gets;
    by rewrite (only_read _ _ _ _ _ Hon), Ha.
Qed.

Lemma post_for_unseen prefix seen (f : string → M unit) Q s :
  post False (for_each (filter (λ st, st ∉ seen) (streams_of prefix s)) f) Q s → post False (for_unseen prefix seen f) Q s.
Proof.
  unfold for_unseen, listStreams. rewrite post_bind, post_gets. cbn [then_]. fold (streams_of prefix s). generalize (streams_of prefix s). intros l.
  revert s. induction l as [|st l IH]; intros s; [done|]. rewrite filter_cons. cbn [for_each]. case_decide as Hn.
  - rewrite decide_False by done. cbn [for_each]. rewrite !post_bind. intros Hp. eapply post_mono; [exact Hp|].
    intros r s'. destruct r; cbn [then_]; [apply IH|done].
  - destruct (decide (st ∈ seen)); [|done]. rewrite post_bind, post_ret. cbn [then_]. apply IH.
Qed.

Lemma boot_fast s cp : task_logs s → task_items_ok s cp → sv_meta s = NewLegacyMemoryStore →
  post False (bootstrapCheckpointTasks cp) (λ r s', r = Ok () ∧ only PTasks s s' ∧ ∃ done, tasks_are (fast_task s cp) done s' ∧
    ∀ st, st ∈ done ↔ st ∈ streams_of "task:" s) s.
Proof.
  intros Hl Hi Hm. pose proof (fast_replays s cp Hl Hi) as Hr. pose proof Hi as [Hnd Hitems]. unfold bootstrapCheckpointTasks. rewrite post_bind.
  set (g := λ item, default initial_replay (resumed_task s cp item)).
  eapply post_mono; [apply (restore_each (fast_task s cp) item_stream g _ _ [] s); [done|by apply tasks_none|done|done|intros x _; apply not_elem_of_nil| |]|].
  - intros item Hin. rewrite fast_of_item by done. destruct (resumed_item _ _ _ Hl Hi Hin) as (_ & fast & _ & Hf & Hk & _). unfold g. rewrite Hf. cbn. by rewrite decide_True.
  - intros item s1 Hin Hon. destruct (resumed_item _ _ _ Hl Hi Hin) as (_ & fast & _ & Hf & _). unfold g. rewrite Hf. by apply (restore_item_eq s).
  - intros r s1 (-> & Hta & Hon). cbn [then_]. apply post_for_unseen. fold item_stream. change (λ item, taskStream (tk_TaskID (ct_Task item))) with item_stream.
    rewrite (only_streams _ _ _ _ Hon). set (seen := map item_stream (cp_Tasks cp)) in *. rewrite app_nil_r in Hta.
    eapply post_mono; [apply (boot_streams (fast_task s cp) s _ (rev seen)); [done|done| |apply NoDup_filter, streams_nodup| |done|done]|].
    + intros st [Hns _]%list_elem_of_filter. unfold fast_task. destruct (item_of cp st) as [item|] eqn:Hit; [|done].
      apply item_of_some in Hit as [Hin <-]. destruct Hns. by apply list_elem_of_fmap_2.
    + intros st [Hns Hst]%list_elem_of_filter. split; [done|]. by rewrite elem_of_rev.
    + intros r s2 (-> & Hta2 & Hon2). split; [done|]. split; [done|]. eexists. split; [exact Hta2|]. intros st. apply seen_then_rest.
      intros x (item & -> & Hin)%list_elem_of_fmap. destruct (resumed_item _ _ _ Hl Hi Hin) as (full & _ & Hf & _).
      unfold full_task in Hf. by case_decide.
Qed.

(** ** Workflows *)

Definition records_of (l : list RawRecord) : option WorkflowReplay.RawIterator :=
  Some {| WorkflowReplay.it_records := l; WorkflowReplay.it_fails := false |}.
Definition full_workflow (s : Service) (st : string) : option WorkflowState :=
  match WorkflowReplay.ReplayRawEach (drop_prefix 3 st) (records_of (whole s st)) with
  | Ok w => Some (prepareRetryableFailedSteps w)
  | Err _ => None
  end.
Definition workflow_item_stream (item : metadataCheckpointWorkflow WorkflowState) : string := workflowStream (cw_WorkflowID item).
Definition resumed_workflow (s : Service) (cp : MetadataCheckpoint) (item : metadataCheckpointWorkflow WorkflowState) : option WorkflowState :=
  match WorkflowReplay.ReplayFromRawEach (cw_State item) (records_of (tail_of s cp (workflow_item_stream item))) with
  | Ok w => Some (prepareRetryableFailedSteps w)
  | Err _ => None
  end.
Definition fast_workflow (s : Service) (cp : MetadataCheckpoint) (st : string) : option WorkflowState :=
  match List.find (λ item, bool_decide (workflow_item_stream item = st)) (cp_Workflows cp) with
  | Some item => resumed_workflow s cp item
  | None => full_workflow s st
  end.
Abbreviation workflows_are W done s := (domain_is workflowStream W done (dm_states (sv_workflows s))).

#[export] Instance workflowStream_inj : Inj (=) (=) workflowStream.
Proof. intros a b [=]. done. Qed.
#[export] Instance actorStream_inj : Inj (=) (=) actorStream.
Proof. intros a b [=]. done. Qed.

Record workflow_item_ok (s : Service) (cp : MetadataCheckpoint) (item : metadataCheckpointWorkflow WorkflowState)
    (pre tail : list RawRecord) (full : WorkflowState) : Prop := {
  wi_named : cw_WorkflowID item ≠ EmptyString ∧ pre ≠ [];
  wi_position : position_ok s cp (workflow_item_stream item) pre tail;
  wi_captures : captures_workflow (cw_WorkflowID item) pre (cw_State item);
  wi_tail : Forall (same_workflow (cw_WorkflowID item)) tail;
  wi_replays : WorkflowReplay.ReplayRawEach (cw_WorkflowID item) (records_of (pre ++ tail)) = Ok full
}.
Record workflow_items_ok (s : Service) (cp : MetadataCheckpoint) : Prop := {
  wis_distinct : NoDup (map workflow_item_stream (cp_Workflows cp));
  wis_items : ∀ item, item ∈ cp_Workflows cp → ∃ pre tail full, workflow_item_ok s cp item pre tail full
}.

Lemma full_workflow_ok s st w : full_workflow s st = Some w → started w ∧ wsWorkflowID w = drop_prefix 3 st.
Proof.
  unfold full_workflow. destruct (WorkflowReplay.ReplayRawEach _ _) as [w0|] eqn:Hr; [|done]. intros [= <-].
  apply replay_state_ok in Hr as [Hid Hok%runtime_started]. rewrite prepare_id. split; [|done].
  by apply (alike_prepare w0 w0), alike_refl.
Qed.
Lemma resumed_workflow_item s cp item : workflow_items_ok s cp → item ∈ cp_Workflows cp →
  ∃ full fast, full_workflow s (workflow_item_stream item) = Some full ∧ resumed_workflow s cp item = Some fast ∧ alike full fast ∧
    wsWorkflowID fast = cw_WorkflowID item.
Proof.
  intros [_ Hi] Hin. destruct (Hi item Hin) as (pre & tail & full & [[Hne _] Hpos Hcap Hf Hr]).
  destruct (position_reads _ _ _ _ _ Hpos) as [Hw Ht]. destruct (workflow_tail_resumes _ _ _ _ _ Hne Hcap Hf Hr) as (fast & Hfast & Hal & Hid).
  exists (prepareRetryableFailedSteps full), (prepareRetryableFailedSteps fast). unfold full_workflow, resumed_workflow.
  change (drop_prefix 3 (workflow_item_stream item)) with (cw_WorkflowID item). rewrite Hw, Ht, Hr.
  unfold records_of at 1. rewrite Hfast, prepare_id. destruct (alike_fields _ _ Hal) as [<- _]. split_and!; [done|done|by apply alike_prepare|done].
Qed.

(** What is stored of a replayed workflow. *)
Lemma post_restore_workflow w Q s :
  started (prepareRetryableFailedSteps w) →
  (∀ s', only PWorkflows s s' → dm_states (sv_workflows s') = <[wsWorkflowID w := prepareRetryableFailedSteps w]> (dm_states (sv_workflows s)) → Q (Ok ()) s') →
  post False (restoreWorkflowState false w) Q s.
Proof.
  intros [_ _ (d & Hd & _)] HQ. unfold restoreWorkflowState. rewrite post_bind, post_modify. cbn [then_ negb]. rewrite post_ret. apply HQ; [by split|].
  cbn [sv_workflows set_workflows]. unfold UpsertWorkflow, upsert_in, put. cbn [dm_states]. rewrite prepare_id. unfold CloneState, rebuilt. by rewrite Hd.
Qed.

Lemma streams_prefix prefix s st : st ∈ streams_of prefix s → has_prefix prefix st = true.
Proof. by intros [? _]%list_elem_of_filter. Qed.

Lemma boot_workflow_streams W s0 l done s :
  (∀ st, st ∈ l → W st = full_workflow s0 st ∧ has_prefix "wf:" st = true ∧ (st ∉ done)) → NoDup l →
  workflows_are W done s → only PWorkflows s0 s →
  post False (for_each l (bootstrapWorkflowStream false)) (λ r s', r = Ok () ∧ workflows_are W (rev l ++ done) s' ∧ only PWorkflows s0 s') s.
Proof.
  intros Hl Hnd Hw Hon. replace (rev l) with (rev (map (λ st, st) l)) by (by rewrite map_id).
  apply (post_each False (λ st, st) (λ d s, workflows_are W d s ∧ only PWorkflows s0 s)); [done|by rewrite map_id|by intros st Hst; apply Hl|].
  intros st d s1 Hst _ [Hw1 Hon1]. destruct (Hl st Hst) as (HW & Hp & _). unfold bootstrapWorkflowStream, forEachRawLogRecord. rewrite post_bind, post_gets.
  cbn [then_ Z.eqb]. rewrite (only_read _ _ _ _ _ Hon1). change (read_stream s0 st 1) with (whole s0 st).
  pose proof (full_workflow_ok s0 st) as Hok. unfold full_workflow, records_of in *.
  destruct (WorkflowReplay.ReplayRawEach _ _) as [w|] eqn:Hr.
  - destruct (Hok _ eq_refl) as [Hs Hid]. rewrite prepare_id in Hid. apply post_restore_workflow; [done|]. intros s2 Hon2 Hm. split; [done|]. split; [|by etrans].
    rewrite Hm, <- (drop_workflow st Hp), Hid. apply domain_put; [apply _|done|]. by rewrite (drop_workflow st Hp).
  - rewrite post_ret. split; [done|]. split; [by apply domain_skip|done].
Qed.
Lemma boot_full_workflows s : sv_workflows s = empty_domain →
  post False (bootstrapWorkflowsWithScheduling false)
    (λ r s', r = Ok () ∧ workflows_are (full_workflow s) (rev (streams_of "wf:" s) ++ []) s' ∧ only PWorkflows s s') s.
Proof.
  intros Hm. unfold bootstrapWorkflowsWithScheduling, listStreams. rewrite post_bind, post_gets. cbn [then_].
  apply (boot_workflow_streams (full_workflow s) s); [|apply streams_nodup|rewrite Hm; apply domain_none|done].
  intros st Hst. split; [done|]. split; [by eapply streams_prefix|apply not_elem_of_nil].
Qed.

Lemma workflow_listed s cp item : workflow_items_ok s cp → item ∈ cp_Workflows cp → workflow_item_stream item ∈ streams_of "wf:" s.
Proof. intros [_ Hi] Hin. destruct (Hi item Hin) as (pre & tail & full & [[_ Hne] Hpos]). by eapply position_listed; [apply Hpos|..]. Qed.
Lemma boot_fast_workflows s cp : workflow_items_ok s cp → sv_workflows s = empty_domain →
  post False (bootstrapCheckpointWorkflows cp false) (λ r s', r = Ok () ∧ only PWorkflows s s' ∧
    ∃ done, workflows_are (fast_workflow s cp) done s' ∧ ∀ st, st ∈ done ↔ st ∈ streams_of "wf:" s) s.
Proof.
  intros Hi Hm. pose proof Hi as [Hnd _]. unfold bootstrapCheckpointWorkflows. rewrite post_bind.
  eapply post_mono; [apply (post_each False workflow_item_stream (λ d s', workflows_are (fast_workflow s cp) d s' ∧ only PWorkflows s s') _ _ [])|].
  - split; [rewrite Hm; apply domain_none|done].
  - done.
  - intros x _. apply not_elem_of_nil.
  - intros item d s1 Hin _ [Hw Hon]. destruct (resumed_workflow_item s cp item Hi Hin) as (_ & fast & _ & Hf & [[_ Hst] _] & Hid). unfold restore_workflow_item, forEachRawLogRecord.
    rewrite post_bind, post_gets. cbn [then_]. rewrite post_bind, post_of_result, (only_read _ _ _ _ _ Hon). fold (workflow_item_stream item).
    assert (fast_workflow s cp (workflow_item_stream item) = Some fast) as HW by (unfold fast_workflow; by rewrite (find_label workflow_item_stream _ item Hnd Hin)).
    unfold resumed_workflow, records_of, tail_of in Hf. fold (workflow_item_stream item) in Hf. destruct (WorkflowReplay.ReplayFromRawEach _ _) as [w|]; [|done]. injection Hf as <-. cbn [then_].
    rewrite prepare_id in Hid. apply post_restore_workflow; [done|]. intros s2 Hon2 Hm2. split; [done|]. split; [|by etrans].
    rewrite Hm2, Hid. apply domain_put; [apply _|done|exact HW].
  - intros r s1 (-> & Hw & Hon). cbn [then_]. apply post_for_unseen. change (λ item, workflowStream (cw_WorkflowID item)) with workflow_item_stream. rewrite (only_streams _ _ _ _ Hon). rewrite app_nil_r in Hw.
    eapply post_mono; [apply (boot_workflow_streams (fast_workflow s cp) s _ (rev (map workflow_item_stream (cp_Workflows cp))))|]; [|apply NoDup_filter, streams_nodup|done|done|].
    + intros st [Hns Hst]%list_elem_of_filter. split_and!; [|by eapply streams_prefix|by rewrite elem_of_rev].
      unfold fast_workflow. by rewrite (find_unlabelled workflow_item_stream).
    + intros r s2 (-> & Hw2 & Hon2). split; [done|]. split; [done|]. eexists. split; [exact Hw2|]. intros st. apply seen_then_rest.
      intros x (item & -> & Hin)%list_elem_of_fmap. by eapply workflow_listed.
Qed.

(** ** Actors *)

Definition actor_records (l : list RawRecord) : option Actor.RawIterator := Some {| Actor.it_records := l; Actor.it_fails := false |}.
Definition full_actor (s : Service) (st : string) : option ActorState :=
  match Actor.ReplayRawEach (drop_prefix 6 st) (actor_records (whole s st)) (Some (LoadResult s)) with
  | Ok r => Some (rrState r)
  | Err _ => None
  end.
Definition actor_item_stream (item : metadataCheckpointActor) : string := actorStream (ca_ActorID item).
Definition resumed_actor (s : Service) (cp : MetadataCheckpoint) (item : metadataCheckpointActor) : option ActorState :=
  match Actor.ReplayFromStateRawEach (ca_ActorID item) (ca_State item) (actor_records (tail_of s cp (actor_item_stream item))) (Some (LoadResult s)) with
  | Ok r => Some (rrState r)
  | Err _ => None
  end.
Definition fast_actor (s : Service) (cp : MetadataCheckpoint) (st : string) : option ActorState :=
  match List.find (λ item, bool_decide (actor_item_stream item = st)) (cp_Actors cp) with
  | Some item => resumed_actor s cp item
  | None => full_actor s st
  end.
Abbreviation actors_are W done s := (domain_is actorStream W done (dm_states (sv_actors s))).

(** What an actor's stream still shows: all of it, or the records from its last snapshot on,
    when no submitted command was waiting at that snapshot. *)
Definition actor_shown (s : Service) (id : string) (records : list RawRecord) : Prop :=
  let t := default 0 (sv_trims s !! actorStream id) in
  t <= 1 ∨ ∃ dropped snap post, records = dropped ++ snap :: post ∧ t = Z.of_nat (length dropped) + 1 ∧
    raw_EventType snap = "ActorSnapshotCreated" ∧ no_snapshot post ∧ settled (Some (LoadResult s)) id dropped.
Record actor_item_ok (s : Service) (cp : MetadataCheckpoint) (item : metadataCheckpointActor)
    (pre tail : list RawRecord) (a full : ActorState) : Prop := {
  ai_named : ca_ActorID item ≠ EmptyString ∧ pre ≠ [];
  ai_position : position_in s cp (actor_item_stream item) pre tail;
  ai_shown : actor_shown s (ca_ActorID item) (pre ++ tail);
  ai_written : wrote (Some (LoadResult s)) (ca_ActorID item) pre a ∧ asActorID a ≠ EmptyString;
  ai_captures : same_actor a (ca_State item);
  ai_tail : wrote_from (Some (LoadResult s)) (ca_ActorID item) a tail full
}.
Record actor_items_ok (s : Service) (cp : MetadataCheckpoint) : Prop := {
  ais_distinct : NoDup (map actor_item_stream (cp_Actors cp));
  ais_items : ∀ item, item ∈ cp_Actors cp → ∃ pre tail a full, actor_item_ok s cp item pre tail a full
}.

Lemma full_actor_same s id t records full :
  id ≠ EmptyString → t = default 0 (sv_trims s !! actorStream id) → whole s (actorStream id) = drop (Z.to_nat (t - 1)) records →
  actor_shown s id records → wrote (Some (LoadResult s)) id records full → asActorID full ≠ EmptyString →
  ∃ shown, full_actor s (actorStream id) = Some shown ∧ same_actor full shown ∧ asActorID shown = id.
Proof.
  intros Hid Ht Hwh Hs Hw Hborn. unfold full_actor, actor_records. change (drop_prefix 6 (actorStream id)) with id. rewrite Hwh.
  enough (∃ r, Actor.ReplayRawEach id (Some {| Actor.it_records := drop (Z.to_nat (t - 1)) records; Actor.it_fails := false |}) (Some (LoadResult s)) = Ok r ∧
    same_actor full (rrState r)) as (r & Hr & Hsame) by (rewrite Hr; eexists; split_and!; [done..|by eapply replay_actor_id]).
  unfold actor_shown in Hs. rewrite <- Ht in Hs. destruct Hs as [Hu|(dropped & snap & post & -> & -> & Hsn & Hn & Hset)].
  - replace (Z.to_nat (t - 1)) with 0%nat by lia. destruct (actor_replay_whole _ _ _ _ Hid Hw Hborn) as (r & Hr & Hst). exists r. by rewrite Hst.
  - rewrite Z.add_simpl_r, Nat2Z.id, drop_app_length. by eapply actor_replay_trimmed.
Qed.
Lemma resumed_actor_item s cp item : actor_items_ok s cp → item ∈ cp_Actors cp →
  ∃ full fast, full_actor s (actor_item_stream item) = Some full ∧ resumed_actor s cp item = Some fast ∧ same_actor full fast ∧
    asActorID fast = ca_ActorID item.
Proof.
  intros [_ Hi] Hin. destruct (Hi item Hin) as (pre & tail & a & full & [[Hne _] Hpos Hsh [Hw Ha] Hcap Ht]).
  destruct (position_in_reads _ _ _ _ _ Hpos) as [Hpre Htail].
  destruct (actor_tail_resumes _ _ _ _ _ _ (ca_State item) Hne Hw Ha Hcap Ht) as (r & Hr & Hsame).
  pose proof (wrote_from_trans _ _ _ _ _ _ _ Hw Ht) as Hall.
  destruct (full_actor_same s (ca_ActorID item) _ _ full Hne eq_refl Hpre Hsh Hall) as (shown & Hf & Hfs & Hid); [exact (wrote_from_born _ _ _ _ _ Hne Ht Ha)|].
  exists shown, (rrState r). unfold resumed_actor, actor_records. rewrite Htail, Hr.
  assert (same_actor shown (rrState r)) as Hss by (unfold same_actor in *; congruence).
  split_and!; [exact Hf|done|exact Hss|]. destruct (same_actor_fields _ _ Hss) as [<- _]. exact Hid.
Qed.

Lemma boot_actor_streams W s0 l done s :
  (∀ st, st ∈ l → W st = full_actor s0 st ∧ has_prefix "actor:" st = true ∧ (st ∉ done)) → NoDup l →
  actors_are W done s → only PActors s0 s →
  post False (for_each l bootstrapActorStream) (λ r s', r = Ok () ∧ actors_are W (rev l ++ done) s' ∧ only PActors s0 s') s.
Proof.
  intros Hl Hnd Hw Hon. replace (rev l) with (rev (map (λ st, st) l)) by (by rewrite map_id).
  apply (post_each False (λ st, st) (λ d s, actors_are W d s ∧ only PActors s0 s)); [done|by rewrite map_id|by intros st Hst; apply Hl|].
  intros st d s1 Hst _ [Hw1 Hon1]. destruct (Hl st Hst) as (HW & Hp & _). unfold bootstrapActorStream, replayActor, forEachRawLogRecord.
  rewrite post_bind, post_try, post_bind, post_gets. cbn [then_ Z.eqb]. rewrite post_bind, post_gets. cbn [then_]. rewrite post_of_result.
  unfold id. rewrite (drop_actor st Hp), (only_read _ _ _ _ _ Hon1), (only_loader _ _ _ Hon1). change (read_stream s0 st 1) with (whole s0 st).
  unfold full_actor, actor_records in *.
  destruct (Actor.ReplayRawEach (drop_prefix 6 st) _ _) as [r|] eqn:Hr; cbn [then_]; [|rewrite post_ret; split; [done|]; split; [by apply domain_skip|done]].
  rewrite post_modify. split; [done|]. split; [|by etrans]. apply replay_actor_id in Hr. cbn [sv_actors set_actors]. unfold UpsertActor, upsert_in, put. cbn [dm_states].
  rewrite <- (drop_actor st Hp), Hr. apply domain_put; [apply _|done|]. by rewrite (drop_actor st Hp).
Qed.
Lemma boot_full_actors s : sv_actors s = empty_domain →
  post False bootstrapActors (λ r s', r = Ok () ∧ actors_are (full_actor s) (rev (streams_of "actor:" s) ++ []) s' ∧ only PActors s s') s.
Proof.
  intros Hm. unfold bootstrapActors, listStreams. rewrite post_bind, post_gets. cbn [then_].
  apply (boot_actor_streams (full_actor s) s); [|apply streams_nodup|rewrite Hm; apply domain_none|done].
  intros st Hst. split; [done|]. split; [by eapply streams_prefix|apply not_elem_of_nil].
Qed.
Lemma actor_listed s cp item : actor_items_ok s cp → item ∈ cp_Actors cp → actor_item_stream item ∈ streams_of "actor:" s.
Proof. intros [_ Hi] Hin. destruct (Hi item Hin) as (pre & tail & a & full & [[_ Hne] Hpos]). by eapply position_listed; [apply Hpos|..]. Qed.
Lemma boot_fast_actors s cp : actor_items_ok s cp → sv_actors s = empty_domain →
  post False (bootstrapCheckpointActors cp) (λ r s', r = Ok () ∧ only PActors s s' ∧
    ∃ done, actors_are (fast_actor s cp) done s' ∧ ∀ st, st ∈ done ↔ st ∈ streams_of "actor:" s) s.
Proof.
  intros Hi Hm. pose proof Hi as [Hnd _]. unfold bootstrapCheckpointActors. rewrite post_bind.
  eapply post_mono; [apply (post_each False actor_item_stream (λ d s', actors_are (fast_actor s cp) d s' ∧ only PActors s s') _ _ [])|].
  - split; [rewrite Hm; apply domain_none|done].
  - done.
  - intros x _. apply not_elem_of_nil.
  - intros item d s1 Hin _ [Hw Hon]. destruct (resumed_actor_item s cp item Hi Hin) as (_ & fast & _ & Hf & _ & Hid). unfold restore_actor_item, forEachRawLogRecord.
    rewrite post_bind, post_gets. cbn [then_]. rewrite post_bind, post_gets. cbn [then_]. rewrite post_bind, post_of_result.
    unfold id. rewrite (only_read _ _ _ _ _ Hon), (only_loader _ _ _ Hon). fold (actor_item_stream item).
    assert (fast_actor s cp (actor_item_stream item) = Some fast) as HW by (unfold fast_actor; by rewrite (find_label actor_item_stream _ item Hnd Hin)).
    unfold resumed_actor, actor_records, tail_of in Hf. destruct (Actor.ReplayFromStateRawEach _ _ _ _) as [r|]; [|done]. injection Hf as <-. cbn [then_].
    rewrite post_modify. split; [done|]. split; [|by etrans]. cbn [sv_actors set_actors]. unfold UpsertActor, upsert_in, put. cbn [dm_states].
    rewrite Hid. apply domain_put; [apply _|done|exact HW].
  - intros r s1 (-> & Hw & Hon). cbn [then_]. apply post_for_unseen. change (λ item, actorStream (ca_ActorID item)) with actor_item_stream.
    rewrite (only_streams _ _ _ _ Hon). rewrite app_nil_r in Hw.
    eapply post_mono; [apply (boot_actor_streams (fast_actor s cp) s _ (rev (map actor_item_stream (cp_Actors cp))))|]; [|apply NoDup_filter, streams_nodup|done|done|].
    + intros st [Hns Hst]%list_elem_of_filter. split_and!; [|by eapply streams_prefix|by rewrite elem_of_rev].
      unfold fast_actor. by rewrite (find_unlabelled actor_item_stream).
    + intros r s2 (-> & Hw2 & Hon2). split; [done|]. split; [done|]. eexists. split; [exact Hw2|]. intros st. apply seen_then_rest.
      intros x (item & -> & Hin)%list_elem_of_fmap. by eapply actor_listed.
Qed.

(** ** LLM statistics *)

(** From two states with the log of [s0] and the same statistics, [m] returns with the same statistics. *)
Definition same_log (s0 s : Service) : Prop := sv_log s = sv_log s0 ∧ sv_trims s = sv_trims s0.
Definition agree (s0 : Service) (m : M unit) : Prop := ∀ s1 s2,
  same_log s0 s1 → same_log s0 s2 → sv_llmStats s1 = sv_llmStats s2 →
  ∃ s1' s2', m s1 = Some (s1', Ok ()) ∧ m s2 = Some (s2', Ok ()) ∧ only PStats s1 s1' ∧ only PStats s2 s2' ∧ sv_llmStats s1' = sv_llmStats s2'.
Lemma only_same_log p s0 s s' : only p s s' → same_log s0 s → same_log s0 s'.
Proof. unfold same_log. by intros [[-> ->] _ _ _ _ _]. Qed.
Lemma same_log_read s0 s st from : same_log s0 s → read_stream s st from = read_stream s0 st from.
Proof. intros [Hl Ht]. unfold read_stream. by rewrite Hl, Ht. Qed.
Lemma same_log_streams s0 s prefix : same_log s0 s → streams_of prefix s = streams_of prefix s0.
Proof. intros [Hl _]. unfold streams_of. by rewrite Hl. Qed.

Lemma agree_ret s0 : agree s0 (mret ()).
Proof. intros s1 s2 _ _ He. by exists s1, s2. Qed.
Lemma agree_then s0 (m k : M unit) : agree s0 m → agree s0 k → agree s0 (_ ← m; k).
Proof.
  intros Hm Hk s1 s2 Hs1 Hs2 He. destruct (Hm s1 s2 Hs1 Hs2 He) as (t1 & t2 & H1' & H2' & Ho1 & Ho2 & Ht).
  destruct (Hk t1 t2 (only_same_log _ _ _ _ Ho1 Hs1) (only_same_log _ _ _ _ Ho2 Hs2) Ht) as (u1 & u2 & H3' & H4' & Ho3 & Ho4 & Hu).
  exists u1, u2. unfold mbind, M_bind. rewrite H1', H2', H3', H4'. split_and!; [done|done|by etrans|by etrans|done].
Qed.
Lemma agree_each s0 {A} (l : list A) (f : A → M unit) : (∀ x, x ∈ l → agree s0 (f x)) → agree s0 (for_each l f).
Proof.
  induction l as [|x l IH]; intros Hf; [apply agree_ret|]. cbn [for_each]. apply agree_then; [apply Hf; by left|].
  apply IH. intros y Hy. apply Hf. by right.
Qed.
Lemma agree_eq s0 (m m' : M unit) : agree s0 m' → (∀ s, same_log s0 s → m s = m' s) → agree s0 m.
Proof. intros Hm He s1 s2 Hs1 Hs2. rewrite (He s1 Hs1), (He s2 Hs2). by apply Hm. Qed.
Lemma agree_completed s0 p : le_TimestampMs p ≠ 0 → agree s0 (materializeLLMCompleted p).
Proof.
  intros Ht. unfold materializeLLMCompleted. destruct (_ || _); [apply agree_ret|]. rewrite (proj2 (Z.eqb_neq _ _) Ht).
  intros s1 s2 _ _ He. unfold mbind, M_bind, mret, M_ret, gets, modify, schedule, locked. cbv beta iota. rewrite He.
  eexists _, _. split; [reflexivity|]. split; [reflexivity|]. split; [by split|]. split; [by split|done].
Qed.

Definition llm_logs (s : Service) : Prop := ∀ rec, rec ∈ sv_log s → has_prefix "llm:" (raw_StreamID rec) = true →
  raw_EventType rec = "LLMCompleted" → ∃ p, json_LLMEvent (raw_Payload rec) = Some p ∧ (le_TimestampMs p ≠ 0 ∨ raw_TimestampMs rec ≠ 0).
Lemma agree_stream s0 st from : llm_logs s0 → has_prefix "llm:" st = true → agree s0 (materializeLLMStreamFromSeq st from).
Proof.
  intros Hl Hp. unfold materializeLLMStreamFromSeq, events_from, forEachRawLogRecord. eapply agree_eq; [|intros s Hs; unfold mbind at 1, M_bind at 1, gets; rewrite (same_log_read _ _ _ _ Hs); reflexivity].
  apply agree_each. intros rec Hin. unfold read_stream in Hin. apply list_elem_of_filter in Hin as [_ [Hid Hin]%list_elem_of_filter].
  case_bool_decide as Hev; cbn [negb]; [|apply agree_ret]. destruct (Hl rec Hin) as (p & -> & Hts); [by rewrite Hid|done|].
  apply agree_completed. destruct (Z.eqb_spec (le_TimestampMs p) 0) as [Hz|]; [|done]. cbn. by destruct Hts.
Qed.
Lemma agree_sync s0 : agree s0 syncSchedulerLLMStats.
Proof.
  intros s1 s2 _ _ He. unfold syncSchedulerLLMStats, mbind, M_bind, gets, schedule, locked. eexists _, _. split; [reflexivity|]. split; [reflexivity|].
  split; [by split|]. split; [by split|done].
Qed.
Lemma agree_for_unseen s0 prefix seen (f : string → M unit) :
  (∀ st, has_prefix prefix st = true → agree s0 (f st)) → agree s0 (for_unseen prefix seen f).
Proof.
  intros Hf. unfold for_unseen, listStreams. eapply agree_eq; [|intros s [Hs _]; unfold mbind at 1, M_bind at 1, gets; rewrite Hs; reflexivity].
  apply agree_each. intros st [Hp _]%list_elem_of_filter. case_decide; [apply agree_ret|by apply Hf].
Qed.
Lemma checkpoint_streams_prefix {S} (cp : Checkpoint S) st : st ∈ checkpointLLMStreams cp → has_prefix "llm:" st = true.
Proof.
  unfold checkpointLLMStreams. rewrite merge_sort_Permutation. intros ([st' entry] & _ & Ho)%list_elem_of_omap.
  destruct (has_prefix "llm:" st') eqn:Hp; [|done]. cbn in Ho. destruct (_ && _) in Ho; [done|]. by injection Ho as <-.
Qed.
(** The statistics of a checkpoint and its tail, whatever they were before. *)
Lemma stats_agree s0 cp : llm_logs s0 → ∀ s1 s2, same_log s0 s1 → same_log s0 s2 →
  ∃ s1' s2', bootstrapCheckpointLLMStats cp s1 = Some (s1', Ok ()) ∧
    (_ ← restoreCheckpointLLMStats cp; materializeLLMTailsFromCheckpoint cp) s2 = Some (s2', Ok ()) ∧
    only PStats s1 s1' ∧ only PStats s2 s2' ∧ sv_llmStats s1' = sv_llmStats s2'.
Proof.
  intros Hl s1 s2 Hs1 Hs2. unfold bootstrapCheckpointLLMStats, restoreCheckpointLLMStats.
  assert (agree s0 (_ ← syncSchedulerLLMStats; materializeLLMTailsFromCheckpoint cp)) as Ha.
  { apply agree_then; [apply agree_sync|]. unfold materializeLLMTailsFromCheckpoint. apply agree_then.
    - apply agree_each. intros st Hst%checkpoint_streams_prefix. by apply agree_stream.
    - apply agree_for_unseen. intros st Hst. by apply agree_stream. }
  specialize (Ha (set_llmStats (llmStatsFromCheckpoint cp) s1) (set_llmStats (llmStatsFromCheckpoint cp) s2) Hs1 Hs2 eq_refl).
  destruct Ha as (t1 & t2 & H1' & H2' & Ho1 & Ho2 & Ht). exists t1, t2. split_and!; [exact H1'|exact H2'| | |done]; (etrans; [|eassumption]); by split.
Qed.

(** ** The whole restart *)

(** The conditions under which both replays of the check agree.
    - [task_logs]: every task stream decodes and replays to its own task, under a key of its own.
    - [llm_logs]: every completion event of a language model decodes and carries a time.
    - [task_items_ok], [workflow_items_ok], [actor_items_ok]: each item of the checkpoint holds
      what the prefix of its stream up to the recorded position holds ([captures],
      [captures_workflow], [ai_captures]; a task that was running may be queued again).  A live
      task record has two fields that are in no event, an actor task's command number and the
      lease of a task that has not started; with either in the checkpoint the condition, and
      the check itself, fail ([CheckpointDemo.check_flags_running_service]).  Task
      and workflow streams are untrimmed.  An actor's stream is untrimmed, or trimmed at its
      last snapshot if that is not after the recorded position and no submitted command was
      waiting at it ([actor_shown]); without these two conditions the replays differ
      ([Actor.checkpoint_before_trim_loses_count], [Actor.trimmed_replay]).
    - After the position: a task's events have positive epochs, a start is above every
      redelivered lease before the position ([te_fresh]; without it the replays differ, since a
      checkpoint has no redelivered epoch), no outcome belongs to a lease that was queued again;
      a workflow's records name it and its stream replays; an actor's commands are completed
      one at a time ([Actor.wrote_from]). *)
Record sound_checkpoint (s : Service) (cp : MetadataCheckpoint) : Prop := {
  sd_logs : task_logs s ∧ llm_logs s;
  sd_tasks : task_items_ok s cp;
  sd_workflows : workflow_items_ok s cp;
  sd_actors : actor_items_ok s cp
}.
Record same_checkpoint (cp cp' : MetadataCheckpoint) : Prop := {
  sc_items : cp_Tasks cp' = cp_Tasks cp ∧ cp_Workflows cp' = cp_Workflows cp ∧ cp_Actors cp' = cp_Actors cp;
  sc_positions : ∀ st, cs_LastSeq <$> cp_Streams cp' !! st = cs_LastSeq <$> cp_Streams cp !! st
}.
Lemma position_in_transport s s' cp cp' st pre tail :
  same_log s s' → same_checkpoint cp cp' → position_in s cp st pre tail → position_in s' cp' st pre tail.
Proof. intros [Hl Ht] [_ Hc] []. split; rewrite ?Hl, ?Ht, ?Hc; done. Qed.
Lemma position_transport s s' cp cp' st pre tail :
  same_log s s' → same_checkpoint cp cp' → position_ok s cp st pre tail → position_ok s' cp' st pre tail.
Proof. intros Hs Hc [Hi Hu]. split; [by eapply position_in_transport|]. destruct Hs as [_ Ht]. by rewrite Ht. Qed.
Lemma sound_transport s s' cp cp' :
  same_log s s' → LoadResult s' = LoadResult s → same_checkpoint cp cp' → sound_checkpoint s cp → sound_checkpoint s' cp'.
Proof.
  intros Hs Hld Hc [[[Hr Hk] Hllm] [Hnt Ht] [Hnw Hw] [Hna Ha]]. pose proof Hs as [Hl Htr]. pose proof Hc as [(Hct & Hcw & Hca) _].
  assert (∀ st, whole s' st = whole s st) as Hwh by (intros st; unfold whole; by rewrite (same_log_read _ _ _ _ Hs)).
  assert (∀ st, full_task s' st = full_task s st) as Hft by (intros st; unfold full_task; by rewrite (same_log_streams _ _ _ Hs), Hwh).
  split; [split|..].
  - split; [|intros st st' rs rs'; rewrite !Hft; apply Hk]. intros st. rewrite (same_log_streams _ _ _ Hs), Hwh. apply Hr.
  - unfold llm_logs. by rewrite Hl.
  - split; rewrite Hct; [done|]. intros item Hin. destruct (Ht item Hin) as (spec & pre & tail & rs & []). exists spec, pre, tail, rs.
    split; try done. by eapply position_transport.
  - split; rewrite Hcw; [done|]. intros item Hin. destruct (Hw item Hin) as (pre & tail & full & []). exists pre, tail, full.
    split; try done. by eapply position_transport.
  - split; rewrite Hca; [done|]. intros item Hin. destruct (Ha item Hin) as (pre & tail & a & full & []). exists pre, tail, a, full.
    split; unfold actor_shown; rewrite ?Hld, ?Htr; try done. by eapply position_in_transport.
Qed.
Lemma normal_same cp : same_checkpoint cp (normalizeStreamKinds cp).
Proof.
  split; [done|]. intros st. unfold normalizeStreamKinds. cbn [cp_Streams]. rewrite map_lookup_imap.
  destruct (cp_Streams cp !! st) as [e|]; [|done]. cbn. by destruct (str_empty _).
Qed.

(** Both restarts know the same tasks, workflows and actors, and agree on each. *)
Definition agree_on {A} (same : A → A → bool) (a b : option A) : Prop :=
  match a, b with Some x, Some y => same x y = true | None, None => True | _, _ => False end.
Record agrees (full fast : Service) : Prop := {
  ag_tasks : ∀ id, agree_on metadataTasksConsistent (ms_tasks (sv_meta full) !! id) (ms_tasks (sv_meta fast) !! id);
  ag_workflows : ∀ id, agree_on WorkflowReplay.Consistent (found (GetWorkflow (sv_workflows full) id)) (found (GetWorkflow (sv_workflows fast) id));
  ag_actors : ∀ id, agree_on Actor.Consistent (found (GetActor (sv_actors full) id)) (found (GetActor (sv_actors fast) id))
}.

Lemma created_consistent a b k k' u v : tk_IdempotencyKey a = k → tk_IdempotencyKey b = k' →
  metadataTasksConsistent a b = true → metadataTasksConsistent (set_created a k u) (set_created b k' v) = true.
Proof. intros <- <- Hc. exact Hc. Qed.
Lemma agree_tasks s cp done done' full fast :
  sound_checkpoint s cp → tasks_are (full_task s) done full → tasks_are (fast_task s cp) done' fast →
  (∀ st, st ∈ done ↔ st ∈ streams_of "task:" s) → (∀ st, st ∈ done' ↔ st ∈ streams_of "task:" s) →
  ∀ id, agree_on metadataTasksConsistent (ms_tasks (sv_meta full) !! id) (ms_tasks (sv_meta fast) !! id).
Proof.
  intros [[Hl _] Hi _ _] [Ho Ha _] [Ho' Ha' _] Hd Hd' id. destruct (ms_tasks (sv_meta full) !! id) as [a|] eqn:Hf.
  - destruct (Ho _ _ Hf) as (Hin & rs & u & Hg & ->). destruct (full_agrees _ _ _ _ Hl Hi Hg) as (rs' & Hg' & Hc).
    destruct (Ha' id rs') as [b Hb]; [by apply Hd', Hd|done|]. rewrite Hb. destruct (Ho' _ _ Hb) as (_ & rs2 & v & Hg2 & ->).
    rewrite Hg' in Hg2. injection Hg2 as <-. cbn. apply created_consistent; [apply final_fields|apply final_fields|done].
  - destruct (ms_tasks (sv_meta fast) !! id) as [b|] eqn:Hb; [|done]. destruct (Ho' _ _ Hb) as (Hin & rs & u & Hg & ->).
    destruct (fast_agrees _ _ _ _ Hl Hi Hg) as (rs' & Hg' & _). destruct (Ha id rs') as [a Hx]; [by apply Hd, Hd'|done|congruence].
Qed.
Lemma agree_domains {A} (W W' : string → option A) (same : A → A → bool) (sof : string → string) done done' (m m' : gmap string A) :
  domain_is sof W done m → domain_is sof W' done' m' → (∀ st, st ∈ done ↔ st ∈ done') →
  (∀ st, st ∈ done → agree_on same (W st) (W' st)) → ∀ id, agree_on same (m !! id) (m' !! id).
Proof.
  intros Hm Hm' Hd Hs id. rewrite Hm, Hm'. destruct (decide (sof id ∈ done)) as [Hin|Hn].
  - rewrite decide_True by (by apply Hd). by apply Hs.
  - rewrite decide_False; [done|]. by intros ?%Hd.
Qed.
Lemma agree_workflow s cp st : sound_checkpoint s cp → agree_on WorkflowReplay.Consistent (full_workflow s st) (fast_workflow s cp st).
Proof.
  intros [_ _ Hi _]. unfold fast_workflow. destruct (List.find _ _) as [item|] eqn:Hf.
  - apply find_some in Hf as [Hin%list_elem_of_In <-%bool_decide_eq_true_1]. destruct (resumed_workflow_item _ _ _ Hi Hin) as (full & fast & -> & -> & Hal & _).
    by apply alike_consistent.
  - destruct (full_workflow s st) as [w|] eqn:Hw; [|done]. apply full_workflow_ok in Hw as [Hst _]. by apply alike_consistent, alike_refl.
Qed.
Lemma agree_actor s cp st : sound_checkpoint s cp → agree_on Actor.Consistent (full_actor s st) (fast_actor s cp st).
Proof.
  intros [_ _ _ Hi]. unfold fast_actor. destruct (List.find _ _) as [item|] eqn:Hf.
  - apply find_some in Hf as [Hin%list_elem_of_In <-%bool_decide_eq_true_1]. destruct (resumed_actor_item _ _ _ Hi Hin) as (full & fast & -> & -> & Hal & _).
    by apply same_actor_consistent.
  - destruct (full_actor s st) as [a|]; [|done]. by apply same_actor_consistent.
Qed.

Lemma domain_ext {A} (W W' : string → option A) sof done (m : gmap string A) :
  (∀ st, W st = W' st) → domain_is sof W done m → domain_is sof W' done m.
Proof. intros Hw Hm id. rewrite Hm. by rewrite Hw. Qed.
Lemma full_workflow_log s0 s st : same_log s0 s → full_workflow s st = full_workflow s0 st.
Proof. intros Hs. unfold full_workflow, whole. by rewrite (same_log_read _ _ _ _ Hs). Qed.
Lemma fast_workflow_log s0 s cp st : same_log s0 s → fast_workflow s cp st = fast_workflow s0 cp st.
Proof.
  intros Hs. unfold fast_workflow, resumed_workflow, tail_of. destruct (List.find _ _); [|by apply full_workflow_log]. by rewrite (same_log_read _ _ _ _ Hs).
Qed.
Lemma full_actor_log s0 s st : same_log s0 s → LoadResult s = LoadResult s0 → full_actor s st = full_actor s0 st.
Proof. intros Hs Hl. unfold full_actor, whole. by rewrite (same_log_read _ _ _ _ Hs), Hl. Qed.
Lemma fast_actor_log s0 s cp st : same_log s0 s → LoadResult s = LoadResult s0 → fast_actor s cp st = fast_actor s0 cp st.
Proof.
  intros Hs Hl. unfold fast_actor, resumed_actor, tail_of. destruct (List.find _ _); [|by apply full_actor_log]. by rewrite (same_log_read _ _ _ _ Hs), Hl.
Qed.
Lemma same_checkpoint_refl cp : same_checkpoint cp cp.
Proof. by split. Qed.

(** A service with nothing restored yet, and what a restart may change of it. *)
Record fresh (s : Service) : Prop := {
  fs_tasks : sv_meta s = NewLegacyMemoryStore; fs_workflows : sv_workflows s = empty_domain; fs_actors : sv_actors s = empty_domain
}.
Record outside (s s' : Service) : Prop := {
  os_log : same_log s s'; os_loader : LoadResult s' = LoadResult s; os_objects : sv_objects s' = sv_objects s
}.
Lemma only_outside p s s' : only p s s' → outside s s'.
Proof. intros Ho. pose proof (only_loader _ _ _ Ho). destruct Ho as [[] [] ? ? ? ?]. by split. Qed.
Lemma outside_trans s1 s2 s3 : outside s1 s2 → outside s2 s3 → outside s1 s3.
Proof. intros [[] ? ?] [[] ? ?]. split; [split|..]; congruence. Qed.

Definition full_replay : M unit := _ ← bootstrapTasks; _ ← bootstrapWorkflowsWithScheduling false; bootstrapActors.
Record restored_full (s s' : Service) : Prop := {
  rf_tasks : ∃ done, tasks_are (full_task s) done s' ∧ ∀ st, st ∈ done ↔ st ∈ streams_of "task:" s;
  rf_workflows : ∃ done, workflows_are (full_workflow s) done s' ∧ ∀ st, st ∈ done ↔ st ∈ streams_of "wf:" s;
  rf_actors : ∃ done, actors_are (full_actor s) done s' ∧ ∀ st, st ∈ done ↔ st ∈ streams_of "actor:" s;
  rf_outside : outside s s'
}.
Lemma all_done (l : list string) st : st ∈ rev l ++ [] ↔ st ∈ l.
Proof. by rewrite app_nil_r, elem_of_rev. Qed.
Lemma tasks_only G done s s' p : p ≠ PTasks → only p s s' → tasks_are G done s → tasks_are G done s'.
Proof. intros Hp [_ _ Hm _ _ _] [? ? ?]. by split; rewrite (Hm Hp). Qed.

Lemma run_full s cp : fresh s → sound_checkpoint s cp → post False full_replay (λ r s', r = Ok () ∧ restored_full s s') s.
Proof.
  intros [Ht Hw Ha] [[Hl _] _ _ _]. unfold full_replay. rewrite post_bind.
  eapply post_mono; [by apply boot_full|]. intros r s1 (-> & Hta & Hon1). cbn [then_]. rewrite post_bind.
  pose proof (only_outside _ _ _ Hon1) as Hos1.
  eapply post_mono; [apply boot_full_workflows; by rewrite (on_workflows _ _ _ Hon1)|]. intros r s2 (-> & Hwf & Hon2). cbn [then_].
  pose proof (outside_trans _ _ _ Hos1 (only_outside _ _ _ Hon2)) as Hos2.
  eapply post_mono; [apply boot_full_actors; by rewrite (on_actors _ _ _ Hon2), (on_actors _ _ _ Hon1)|]. intros r s3 (-> & Hac & Hon3).
  split; [done|]. split.
  - eexists. split; [eapply (tasks_only _ _ _ _ PActors); [done|exact Hon3|]; by eapply (tasks_only _ _ _ _ PWorkflows)|apply all_done].
  - eexists. rewrite (on_workflows _ _ _ Hon3) by done. split; [eapply domain_ext; [|exact Hwf]|].
    + intros st. by apply full_workflow_log, Hos1.
    + intros st. rewrite (same_log_streams s s1) by apply Hos1. apply all_done.
  - eexists. split; [eapply domain_ext; [|exact Hac]|].
    + intros st. apply full_actor_log; apply Hos2.
    + intros st. rewrite (same_log_streams s s2) by apply Hos2. apply all_done.
  - by eapply outside_trans, only_outside.
Qed.

Record restored_fast (s : Service) (cp : MetadataCheckpoint) (stats : gmap llmStatsKey llmWorkerStats) (s' : Service) : Prop := {
  rc_tasks : ∃ done, tasks_are (fast_task s cp) done s' ∧ ∀ st, st ∈ done ↔ st ∈ streams_of "task:" s;
  rc_workflows : ∃ done, workflows_are (fast_workflow s cp) done s' ∧ ∀ st, st ∈ done ↔ st ∈ streams_of "wf:" s;
  rc_actors : ∃ done, actors_are (fast_actor s cp) done s' ∧ ∀ st, st ∈ done ↔ st ∈ streams_of "actor:" s;
  rc_stats : sv_llmStats s' = stats;
  rc_outside : outside s s'
}.
Definition stats_run (s : Service) (cp : MetadataCheckpoint) (stats : gmap llmStatsKey llmWorkerStats) : Prop :=
  ∀ s1, same_log s s1 → ∃ s1', bootstrapCheckpointLLMStats cp s1 = Some (s1', Ok ()) ∧ only PStats s1 s1' ∧ sv_llmStats s1' = stats.
Lemma stats_runs s cp : llm_logs s → ∃ stats, stats_run s cp stats.
Proof.
  intros Hl. destruct (stats_agree s cp Hl s s) as (_ & s2 & _ & Hr2 & _); [done|done|]. exists (sv_llmStats s2). intros s1 Hs1.
  destruct (stats_agree s cp Hl s1 s) as (s1' & s2' & Hr1 & Hr2' & Ho & _ & He); [done|done|]. exists s1'. split; [done|]. split; [done|].
  rewrite Hr2 in Hr2'. by injection Hr2' as <-.
Qed.

Lemma run_fast s cp stats : fresh s → sound_checkpoint s cp → stats_run s cp stats →
  post False (bootstrapMetadataFromCheckpointWithScheduling cp false) (λ r s', r = Ok () ∧ restored_fast s cp stats s') s.
Proof.
  intros [Ht Hw Ha] Hsd Hst. pose proof Hsd as [[Hl Hllm] Hit _ _]. unfold bootstrapMetadataFromCheckpointWithScheduling. rewrite post_bind.
  eapply post_mono; [by apply boot_fast|]. intros r s1 (-> & Hon1 & done1 & Hta & Hd1). cbn [then_]. rewrite post_bind.
  pose proof (only_outside _ _ _ Hon1) as Hos1.
  pose proof (sound_transport _ s1 cp cp (os_log _ _ Hos1) (os_loader _ _ Hos1) (same_checkpoint_refl cp) Hsd) as [_ _ Hwi _].
  eapply post_mono; [apply boot_fast_workflows; [done|by rewrite (on_workflows _ _ _ Hon1)]|]. intros r s2 (-> & Hon2 & done2 & Hwf & Hd2). cbn [then_]. rewrite post_bind.
  pose proof (outside_trans _ _ _ Hos1 (only_outside _ _ _ Hon2)) as Hos2.
  pose proof (sound_transport _ s2 cp cp (os_log _ _ Hos2) (os_loader _ _ Hos2) (same_checkpoint_refl cp) Hsd) as [_ _ _ Hai].
  eapply post_mono; [apply boot_fast_actors; [done|by rewrite (on_actors _ _ _ Hon2), (on_actors _ _ _ Hon1)]|]. intros r s3 (-> & Hon3 & done3 & Hac & Hd3). cbn [then_].
  pose proof (outside_trans _ _ _ Hos2 (only_outside _ _ _ Hon3)) as Hos3.
  destruct (Hst s3 (os_log _ _ Hos3)) as (s4 & Hr4 & Hon4 & Hstats). unfold post. rewrite Hr4. split; [done|]. split.
  - exists done1. split; [|done]. eapply (tasks_only _ _ _ _ PStats); [done|exact Hon4|]. eapply (tasks_only _ _ _ _ PActors); [done|exact Hon3|].
    by eapply (tasks_only _ _ _ _ PWorkflows).
  - exists done2. rewrite (on_workflows _ _ _ Hon4), (on_workflows _ _ _ Hon3) by done. split.
    + eapply domain_ext; [|exact Hwf]. intros st. by apply fast_workflow_log, Hos1.
    + intros st. rewrite Hd2. by rewrite (same_log_streams s s1) by apply Hos1.
  - exists done3. rewrite (on_actors _ _ _ Hon4) by done. split.
    + eapply domain_ext; [|exact Hac]. intros st. apply fast_actor_log; apply Hos2.
    + intros st. rewrite Hd3. by rewrite (same_log_streams s s2) by apply Hos2.
  - done.
  - by eapply outside_trans, only_outside.
Qed.

Lemma clone_consistent a b : WorkflowReplay.Consistent (CloneState a) (CloneState b) = WorkflowReplay.Consistent a b.
Proof.
  assert (∀ w, StepStatesInOrder (CloneState w) = StepStatesInOrder w) as Hs.
  { intros w. unfold StepStatesInOrder, CloneState. do 2 f_equal. unfold rebuilt. by destruct (wsDag w) eqn:Hd; rewrite ?Hd. }
  unfold WorkflowReplay.Consistent. rewrite !Hs. unfold CloneState, rebuilt. by destruct (wsDag a), (wsDag b).
Qed.
Lemma agrees_after s cp stats full fast : sound_checkpoint s cp → restored_full s full → restored_fast s cp stats fast → agrees full fast.
Proof.
  intros Hs [(d1 & Ht & Hd1) (d2 & Hw & Hd2) (d3 & Ha & Hd3) _] [(e1 & Ht' & He1) (e2 & Hw' & He2) (e3 & Ha' & He3) _ _]. split.
  - by eapply agree_tasks.
  - intros id. assert (agree_on WorkflowReplay.Consistent (dm_states (sv_workflows full) !! id) (dm_states (sv_workflows fast) !! id)) as Hag.
    { eapply agree_domains; [exact Hw|exact Hw'|intros st; by rewrite Hd2, He2|]. intros st _. by apply agree_workflow. }
    unfold GetWorkflow, get_in. destruct (dm_states (sv_workflows full) !! id), (dm_states (sv_workflows fast) !! id); cbn in *; try done. by rewrite clone_consistent.
  - intros id. assert (agree_on Actor.Consistent (dm_states (sv_actors full) !! id) (dm_states (sv_actors fast) !! id)) as Hag.
    { eapply agree_domains; [exact Ha|exact Ha'|intros st; by rewrite Hd3, He3|]. intros st _. by apply agree_actor. }
    unfold GetActor, get_in. by destruct (dm_states (sv_actors full) !! id), (dm_states (sv_actors fast) !! id).
Qed.

(** Replaying the whole log and restoring a checkpoint with its tails both succeed, and
    agree on every task, workflow and actor. *)
Theorem checkpoint_restart_agrees s cp :
  fresh s → sound_checkpoint s cp →
  ∃ full fast, full_replay s = Some (full, Ok ()) ∧
    bootstrapMetadataFromCheckpointWithScheduling cp false s = Some (fast, Ok ()) ∧ agrees full fast.
Proof.
  intros Hf Hs. destruct (stats_runs s cp (proj2 (sd_logs _ _ Hs))) as [stats Hst].
  pose proof (run_full s cp Hf Hs) as Hfull. pose proof (run_fast s cp stats Hf Hs Hst) as Hfast. unfold post in *.
  destruct (full_replay s) as [[full r]|]; [|done]. destruct Hfull as [-> Hfull].
  destruct (bootstrapMetadataFromCheckpointWithScheduling cp false s) as [[fast r]|]; [|done]. destruct Hfast as [-> Hfast].
  exists full, fast. split_and!; [done..|]. by eapply agrees_after.
Qed.

(** ** The code's own check *)

Lemma outer_same s s1 : outside (crash s) s1 →
  set_tick (sv_tick s1) (set_objects (sv_objects s1) (set_trims (sv_trims s1) (set_log (sv_log s1) s))) = set_tick (sv_tick s1) s.
Proof. intros [[-> ->] _ ->]. by destruct s. Qed.
Lemma post_isolated {A} (m : M A) Q s :
  post False m (λ r s1, ∃ a, r = Ok a ∧ outside (crash s) s1 ∧ Q (Ok s1) (set_tick (sv_tick s1) s)) (crash s) → post False (isolated m) Q s.
Proof.
  unfold post, isolated. destruct (m (crash s)) as [[s1 r]|]; [|done]. intros (a & -> & Ho & HQ). by rewrite outer_same.
Qed.
Lemma fresh_crash s : fresh (crash s).
Proof. done. Qed.
Lemma sound_later s n cp : sound_checkpoint (crash s) cp → sound_checkpoint (crash (set_tick n s)) cp.
Proof. apply sound_transport; [done|done|apply same_checkpoint_refl]. Qed.

Lemma restored_later s n cp stats s' : restored_fast (crash (set_tick n s)) cp stats s' → restored_fast (crash s) cp stats s'.
Proof. intros [? ? ? ? []]. by split. Qed.

Lemma failures_none {A} prefix (id_of : A → string) l lookup same :
  (∀ a, a ∈ l → ∃ b, lookup (id_of a) = Some b ∧ same a b = true) → failures prefix id_of l lookup same = [].
Proof.
  induction l as [|a l IH]; intros Hl; [done|]. unfold failures in *. cbn. destruct (Hl a) as (b & -> & ->); [by left|].
  apply IH. intros x Hx. apply Hl. by right.
Qed.
Lemma stats_consistent m : llmStatsMapsConsistent m m = true.
Proof.
  unfold llmStatsMapsConsistent. rewrite Nat.eqb_refl. cbn. apply forallb_forall. intros [k v] Hin%list_elem_of_In%elem_of_map_to_list.
  by rewrite Hin, bool_decide_eq_true_2.
Qed.
(** What is stored under an identifier carries it. *)
Lemma listed_task G done s range t : replays G → tasks_are G done s → t ∈ ListTasks (sv_meta s) range → ms_tasks (sv_meta s) !! tk_TaskID t = Some t.
Proof.
  intros [Hk _] [Ho _ _] (id & _ & Ht)%list_elem_of_omap. destruct (Ho _ _ Ht) as (_ & rs & u & Hg & He).
  destruct (Hk _ _ Hg) as [_ Hid%taskStream_inj]. assert (tk_TaskID t = id) as ->; [|done]. rewrite He. cbn. by rewrite (proj1 (final_fields rs)).
Qed.
Lemma listed_workflow s0 done s range w : workflows_are (full_workflow s0) done s → w ∈ ListWorkflows (sv_workflows s) range →
  found (GetWorkflow (sv_workflows s) (wsWorkflowID w)) = Some w.
Proof.
  intros Hd (id & _ & Hw)%list_elem_of_omap. unfold get_in in Hw. destruct (dm_states (sv_workflows s) !! id) as [w0|] eqn:Hl; [|done]. injection Hw as <-.
  pose proof Hl as Hl0. rewrite (Hd id) in Hl. case_decide; [|done]. apply full_workflow_ok in Hl as [[_ _ (d & Hdag & _)] Hid].
  assert (CloneState w0 = w0) as Hc by (unfold CloneState, rebuilt; by rewrite Hdag). rewrite Hc, Hid.
  change (drop_prefix 3 (workflowStream id)) with id. unfold GetWorkflow, get_in. rewrite Hl0. cbn. by rewrite Hc.
Qed.
Lemma listed_actor s0 done s range a : actors_are (full_actor s0) done s → a ∈ ListActors (sv_actors s) range →
  found (GetActor (sv_actors s) (asActorID a)) = Some a.
Proof.
  intros Hd (id & _ & Hw)%list_elem_of_omap. unfold get_in in Hw. destruct (dm_states (sv_actors s) !! id) as [a0|] eqn:Hl; [|done]. injection Hw as <-.
  pose proof Hl as Hl0. rewrite (Hd id) in Hl. case_decide; [|done]. unfold full_actor in Hl.
  destruct (Actor.ReplayRawEach _ _ _) as [r|] eqn:Hr; [|done]. injection Hl as <-. apply replay_actor_id in Hr. unfold cloneActor. rewrite Hr.
  change (drop_prefix 6 (actorStream id)) with id. unfold GetActor, get_in. by rewrite Hl0.
Qed.
Lemma compare_accepts s cp stats full fast r1 r2 r3 id age :
  sound_checkpoint s cp → restored_full s full → restored_fast s cp stats fast →
  let v := compare_services full fast (ListTasks (sv_meta full) r1) (ListWorkflows (sv_workflows full) r2) (ListActors (sv_actors full) r3) stats id age in
  mc_Consistent v = true ∧ mc_FailureKeys v = [].
Proof.
  intros Hs Hfull Hfast. pose proof (agrees_after _ _ _ _ _ Hs Hfull Hfast) as [Hat Haw Haa].
  pose proof Hfull as [(d1 & Ht & _) (d2 & Hw & _) (d3 & Ha & _) _]. pose proof (rc_stats _ _ _ _ Hfast) as Hstats. unfold compare_services.
  rewrite Hstats, stats_consistent, !failures_none; [done|..].
  - intros a Hin. specialize (Haa (asActorID a)). rewrite (listed_actor _ _ _ _ _ Ha Hin) in Haa.
    destruct (found (GetActor (sv_actors fast) (asActorID a))) as [b|]; [by exists b|done].
  - intros w Hin. specialize (Haw (wsWorkflowID w)). rewrite (listed_workflow _ _ _ _ _ Hw Hin) in Haw.
    destruct (found (GetWorkflow (sv_workflows fast) (wsWorkflowID w))) as [b|]; [by exists b|done].
  - intros t Hin. specialize (Hat (tk_TaskID t)). rewrite (listed_task _ _ _ _ _ (full_replays s (proj1 (sd_logs _ _ Hs))) Ht Hin) in Hat.
    unfold GetTask, found. destruct (ms_tasks (sv_meta fast) !! tk_TaskID t) as [b|]; [by exists b|done].
Qed.

(** C10: The consistency check of the newest metadata checkpoint, run at any moment, returns a
    verdict without a failure for that checkpoint and changes nothing of the service but its
    clock, when the checkpoint is sound ([sound_checkpoint] lists every condition): both of its
    replays, the one of the whole log and the one of the checkpoint with the streams' tails,
    succeed and agree on every task, workflow and actor in the fields that the check compares.
    The check's replays do not schedule; what a restart schedules is not part of this. *)
Theorem consistency_check_accepts s cp :
  foldl newer None (read_stream s metadataCheckpointStream 1) = Some cp → sound_checkpoint (crash s) cp →
  ∃ v n, CheckMetadataCheckpointConsistency s = Some (set_tick n s, Ok v) ∧
    mc_Consistent v = true ∧ mc_FailureKeys v = [] ∧ mc_CheckpointID v = cp_ID cp.
Proof.
  intros Hcp Hs0. set (cn := normalizeStreamKinds cp).
  assert (sound_checkpoint (crash s) cn) as Hs by (eapply sound_transport; [done|done|apply normal_same|exact Hs0]).
  destruct (stats_runs (crash s) cn (proj2 (sd_logs _ _ Hs))) as [stats Hst].
  enough (post False CheckMetadataCheckpointConsistency (λ r s', ∃ v n, r = Ok v ∧ s' = set_tick n s ∧
    mc_Consistent v = true ∧ mc_FailureKeys v = [] ∧ mc_CheckpointID v = cp_ID cp) s) as Hp.
  { unfold post in Hp. destruct (CheckMetadataCheckpointConsistency s) as [[s' r]|]; [|done]. destruct Hp as (v & n & -> & -> & ?). by exists v, n. }
  unfold CheckMetadataCheckpointConsistency, loadLatestMetadataCheckpoint, forEachRawLogRecord. rewrite !post_bind, post_gets. cbn [then_ Z.eqb]. rewrite post_ret, Hcp. cbn [then_]. fold cn.
  rewrite post_bind. apply post_isolated. eapply post_mono; [exact (run_full (crash s) cn (fresh_crash s) Hs)|]. intros r full (-> & Hfull).
  exists (). split; [done|]. split; [apply Hfull|]. cbn [then_]. rewrite post_bind. apply post_isolated.
  set (s1 := set_tick (sv_tick full) s).
  assert (stats_run (crash s1) cn stats) as Hst1 by exact Hst.
  eapply post_mono; [exact (run_fast (crash s1) cn stats (fresh_crash s1) (sound_later s _ cn Hs) Hst1)|]. intros r fast (-> & Hfast).
  exists (). split; [done|]. split; [apply Hfast|]. cbn [then_]. rewrite post_bind. unfold llmStatsFromCheckpointTail. rewrite post_bind. apply post_isolated.
  set (s2 := set_tick (sv_tick fast) s1). destruct (Hst (crash s2)) as (s3 & Hr3 & Hon3 & Hs3); [done|].
  unfold post at 1. unfold bootstrapCheckpointLLMStats in Hr3. rewrite Hr3. exists (). split; [done|]. split; [by eapply only_outside|]. cbn [then_].
  rewrite post_ret, Hs3. cbn [then_]. rewrite post_bind. unfold now at 1, ticked at 1, post at 1. cbn [then_].
  do 3 (rewrite post_bind; unfold ranged at 1, ticked at 1, post at 1; cbn [then_]). rewrite post_ret.
  eexists _, _. split; [reflexivity|]. split; [reflexivity|]. apply and_assoc. split; [|done]. eapply compare_accepts; [exact Hs|exact Hfull|exact (restored_later _ _ _ _ _ Hfast)].
Qed.
End Check.
