(* ===== verification/CheckpointDemo.v ===== *)
(** A decision procedure for sound checkpoints, a run of the service that makes one, and the
    theorems of [CheckpointCheck] applied to it. *)
From S2P Require Import Prelude Bytes LogRecord EventCodec TaskSpec MetaStore TaskReplay TaskReplaySpec Placement Scheduler WorkerStore WorkflowDef WorkflowState WorkflowReplay WorkflowJSON Actor MetaDomains WorkflowArgs ServiceState ControlTasks ControlDispatch ControlActors ControlWorkflows ControlService ControlAdmin Checkpoint CheckpointTails Trees ServiceDemo ServiceLogic CheckpointCheck.

Open Scope Z_scope.

(** ** Deciding whether a checkpoint is sound *)

#[export] Instance StepDefinition_eq_dec : EqDecision StepDefinition.
Proof. solve_decision. Defined.
#[export] Instance WorkflowDefinition_eq_dec : EqDecision WorkflowDefinition.
Proof. solve_decision. Defined.
#[export] Instance StepState_eq_dec : EqDecision StepState.
Proof. solve_decision. Defined.
#[export] Instance RuntimeDAG_eq_dec : EqDecision RuntimeDAG.
Proof. solve_decision. Defined.
#[export] Instance WorkflowState_eq_dec : EqDecision WorkflowState.
Proof. solve_decision. Defined.
#[export] Instance ActorState_eq_dec : EqDecision ActorState.
Proof. solve_decision. Defined.
#[export] Instance same_spec_dec a b : Decision (same_spec a b).
Proof. unfold same_spec. apply _. Defined.

Section Checker.
Context `{Env, MsgpackLib} `{!TaskCodecLib, FingerprintLib, RegistryJSON, ActorJSON, ArgsLib, ControlJSON, DefinitionJSON, WorkflowEventJSON, SystemJSON} `{!StateJSON, !CheckpointJSON}.

(** The records of a stream up to the checkpoint's position, and the rest. *)
Definition cut (cp : MetadataCheckpoint) (st : string) : nat := Z.to_nat (tail_start cp st - 1).
Definition prefix_of (s : Service) (cp : MetadataCheckpoint) (st : string) : list RawRecord := take (cut cp st) (stream (sv_log s) st).
Definition rest_of (s : Service) (cp : MetadataCheckpoint) (st : string) : list RawRecord := drop (cut cp st) (stream (sv_log s) st).
Definition position_in_b (s : Service) (cp : MetadataCheckpoint) (st : string) : bool :=
  let l := stream (sv_log s) st in let last := default 0 (cs_LastSeq <$> cp_Streams cp !! st) in
  bool_decide (map raw_Seq l = seqZ 1 (Z.of_nat (length l))) && bool_decide (default 0 (sv_trims s !! st) <= Z.of_nat (cut cp st) + 1) &&
  (Z.of_nat (cut cp st) + 1 <? 2 ^ 64) && (0 <? cut cp st)%nat && (cut cp st <=? length l)%nat &&
  ((last =? Z.of_nat (cut cp st)) || (last =? 0) && (cut cp st =? 1)%nat).
Definition position_b (s : Service) (cp : MetadataCheckpoint) (st : string) : bool :=
  position_in_b s cp st && bool_decide (default 0 (sv_trims s !! st) <= 1).
Lemma position_in_checked s cp st : position_in_b s cp st = true → position_in s cp st (prefix_of s cp st) (rest_of s cp st) ∧ prefix_of s cp st ≠ [].
Proof.
  unfold position_in_b. rewrite !andb_true_iff, orb_true_iff, andb_true_iff, !bool_decide_eq_true, Z.ltb_lt, Nat.ltb_lt, Nat.leb_le, !Z.eqb_eq, Nat.eqb_eq.
  intros (((((Hn & Ht) & Hs) & Hpos) & Hl) & Hp). unfold prefix_of, rest_of. set (l := stream (sv_log s) st) in *.
  assert (length (take (cut cp st) l) = cut cp st) as Hlen by (rewrite length_take; lia). split; [|by intros He; rewrite He in Hlen; cbn in Hlen; lia].
  split; [by rewrite take_drop| |by rewrite Hlen|by rewrite Hlen|rewrite Hlen; cbn; tauto].
  intros i r. rewrite take_drop. intros Hi. assert (map raw_Seq l !! i = Some (raw_Seq r)) as Hr by exact (list_lookup_fmap_Some_2 raw_Seq _ _ _ Hi).
  rewrite Hn in Hr. apply lookup_seqZ in Hr. lia.
Qed.
Lemma position_checked s cp st : position_b s cp st = true → position_ok s cp st (prefix_of s cp st) (rest_of s cp st) ∧ prefix_of s cp st ≠ [].
Proof.
  unfold position_b. rewrite andb_true_iff, bool_decide_eq_true. intros [[Hp Hne]%position_in_checked Ht]. by split.
Qed.

(** Tasks. *)
Definition captures_b (item : Task) (spec : TaskSpec) (s : taskReplayState) : bool :=
  rs_ok s && bool_decide (tk_TaskID item ≠ EmptyString ∧ tk_Status item ≠ 0) && bool_decide (same_spec (rs_spec s) (Some spec)) &&
  bool_decide (durable (rs_task s) = durable item ∧ tk_ResultJSON (rs_task s) = tk_ResultJSON item ∧ tk_Error (rs_task s) = tk_Error item) &&
  bool_decide (rs_leaseEpoch s = tk_TaskLeaseEpoch item ∧ 0 <= rs_redeliveredLeaseEpoch s) &&
  bool_decide (rs_status s = TASK_STATUS_RUNNING → rs_redeliveredLeaseEpoch s < rs_leaseEpoch s) &&
  bool_decide ((rs_status s = tk_Status item ∧ tk_WorkerID (rs_task s) = tk_WorkerID item) ∨
    (rs_status s = TASK_STATUS_RUNNING ∧ tk_Status item = TASK_STATUS_QUEUED ∧ tk_WorkerID item = EmptyString)).
Lemma captures_checked item spec s : captures_b item spec s = true → captures item spec s.
Proof. unfold captures_b. rewrite !andb_true_iff, !bool_decide_eq_true. by intros ((((((? & ?) & ?) & ? & ?) & ?) & ?) & ?); split. Qed.
Definition tail_event_b (red0 lease0 : Z) (requeued : bool) (rec : RawRecord) : bool :=
  bool_decide (event_of rec ≠ EvSubmitted) && bool_decide (event_of rec ≠ EvOther → 0 < epoch_of rec) &&
  bool_decide (event_of rec = EvStarted → red0 < epoch_of rec) &&
  match event_of rec with EvFinished _ => negb requeued || negb (epoch_of rec =? lease0) | _ => true end.
Lemma tail_event_checked red0 lease0 (P : Prop) `{Decision P} rec : tail_event_b red0 lease0 (bool_decide P) rec = true → tail_event red0 lease0 P rec.
Proof.
  unfold tail_event_b. rewrite !andb_true_iff, !bool_decide_eq_true. intros (((? & ?) & ?) & Hf). split; [done..|]. intros Hp status He.
  rewrite He, (bool_decide_eq_true_2 _ Hp) in Hf. cbn in Hf. by apply negb_true_iff, Z.eqb_neq in Hf.
Qed.
Definition task_item_b (s : Service) (cp : MetadataCheckpoint) (item : metadataCheckpointTask) : bool :=
  let st := item_stream item in
  match decoded_spec (ct_Spec item), apply_all initial_replay (prefix_of s cp st) with
  | Some spec, Ok rs => position_b s cp st && captures_b (ct_Task item) spec rs &&
      forallb (tail_event_b (rs_redeliveredLeaseEpoch rs) (rs_leaseEpoch rs) (bool_decide (tk_Status (ct_Task item) ≠ rs_status rs))) (rest_of s cp st)
  | _, _ => false
  end.
Definition tasks_b (s : Service) (cp : MetadataCheckpoint) : bool :=
  bool_decide (NoDup (map item_stream (cp_Tasks cp))) && forallb (task_item_b s cp) (cp_Tasks cp).
Lemma forallb_each {A} (f : A → bool) (P : A → Prop) l : (∀ x, f x = true → P x) → forallb f l = true → ∀ x, x ∈ l → P x.
Proof. intros Hp Hl x Hx%list_elem_of_In. rewrite forallb_forall in Hl. auto. Qed.
Lemma tasks_checked s cp : tasks_b s cp = true → task_items_ok s cp.
Proof.
  unfold tasks_b. rewrite andb_true_iff, bool_decide_eq_true. intros [Hnd Hl]. split; [done|]. revert Hl. apply forallb_each. intros item.
  unfold task_item_b. destruct (decoded_spec _) as [spec|] eqn:Hspec; [|done]. destruct (apply_all _ _) as [rs|] eqn:Hrs; [|done].
  rewrite !andb_true_iff. intros [[Hp Hc] Ht]. exists spec, (prefix_of s cp (item_stream item)), (rest_of s cp (item_stream item)), rs.
  split; [done|by apply position_checked|done|by apply captures_checked|].
  unfold task_tail_ok. apply Forall_forall. revert Ht. apply forallb_each. intros rec. apply tail_event_checked.
Qed.

(** Workflows. *)
Definition same_workflow_b (wid : string) (rec : RawRecord) : bool :=
  negb (bool_decide (raw_EventType rec = "WorkflowStarted")) ||
  match record_payload rec with Ok p => str_empty (wpWorkflowID p) || bool_decide (wpWorkflowID p = wid) | Err _ => true end.
Lemma same_workflow_checked wid rec : same_workflow_b wid rec = true → same_workflow wid rec.
Proof.
  unfold same_workflow_b, same_workflow. intros Hb He p Hp. rewrite (bool_decide_eq_true_2 _ He), Hp in Hb. cbn in Hb.
  by apply orb_true_iff in Hb as [?%str_empty_true|?%bool_decide_eq_true]; [left|right].
Qed.
Definition workflow_item_b (s : Service) (cp : MetadataCheckpoint) (item : metadataCheckpointWorkflow WorkflowState) : bool :=
  let st := workflow_item_stream item in let wid := cw_WorkflowID item in
  match apply_records WorkflowState.zero_state wid false (prefix_of s cp st), WorkflowReplay.ReplayRawEach wid (records_of (prefix_of s cp st ++ rest_of s cp st)) with
  | Ok w, Ok _ => negb (str_empty wid) && position_b s cp st && bool_decide (timeless w = timeless (cw_State item)) &&
      bool_decide (wsWorkflowID w = wid) && forallb (same_workflow_b wid) (rest_of s cp st)
  | _, _ => false
  end.
Definition workflows_b (s : Service) (cp : MetadataCheckpoint) : bool :=
  bool_decide (NoDup (map workflow_item_stream (cp_Workflows cp))) && forallb (workflow_item_b s cp) (cp_Workflows cp).
Lemma workflows_checked s cp : workflows_b s cp = true → workflow_items_ok s cp.
Proof.
  unfold workflows_b. rewrite andb_true_iff, bool_decide_eq_true. intros [Hnd Hl]. split; [done|]. revert Hl. apply forallb_each. intros item.
  unfold workflow_item_b. destruct (apply_records _ _ _ _) as [w|] eqn:Hw; [|done]. destruct (WorkflowReplay.ReplayRawEach _ _) as [full|] eqn:Hf; [|done].
  rewrite !andb_true_iff, negb_true_iff, !bool_decide_eq_true. intros ((((Hid%str_empty_false & Hp) & Ht) & Hwid) & Hs). destruct (position_checked _ _ _ Hp) as [Hpos Hne].
  exists (prefix_of s cp (workflow_item_stream item)), (rest_of s cp (workflow_item_stream item)), full.
  split; [done|done|by exists w| |done]. apply Forall_forall. revert Hs. apply forallb_each. intros rec. apply same_workflow_checked.
Qed.

(** Actors; runs with failed commands are not decided. *)
Definition snapshot_b (loader : option ResultLoader) (id : string) (a : ActorState) (p : ActorEventPayload) : bool :=
  match load loader (apSnapshotRef p) with
  | Err _ => false
  | Ok data => bool_decide (asOwnerWorkerID a ≠ EmptyString ∧ asEpoch a ≠ 0 ∧ apClassName p = asClassName a ∧ apClassSource p = asClassSource a ∧
      default [] (apInitArgsJSON p) = asInitArgsJSON a ∧ apWorkerID p = asOwnerWorkerID a ∧ apEpoch p = asEpoch a ∧ apSnapshotEvery p = asSnapshotEvery a ∧
      apSnapshotCommandCount p = asCommandCount a ∧ apSnapshotRef p ≠ EmptyString ∧ NormalizeJSON data = asStateJSON a)
  end.
Definition next_actor (loader : option ResultLoader) (id : string) (a : ActorState) (rec : RawRecord) : option ActorState :=
  match actor_payload rec with
  | Err _ => None
  | Ok p =>
      if decide (raw_EventType rec = "ActorCreated") then
        if decide (asActorID a = EmptyString ∧ 0 < apSnapshotEvery p) then Some (created_event id a p) else None
      else if decide (asActorID a = id) then
        if decide (raw_EventType rec = "ActorOwnershipGranted") then Some (ownership_event a p)
        else if decide (raw_EventType rec = "ActorCommandSubmitted") then Some (submitted_event a p)
        else if decide (raw_EventType rec = "ActorCommandApplied") then
          if decide (apCommandSeq p = asCommandCount a + 1 ∧ apCommandCount p = apCommandSeq p)
          then Some (command_event a p (NormalizeJSON (default [] (apStateJSON p)))) else None
        else if decide (raw_EventType rec = "ActorSnapshotCreated" ∧ raw_Payload rec ≠ []) then
          if snapshot_b loader id a p then Some (snapshot_event id a p (asStateJSON a)) else None
        else None
      else None
  end.
Fixpoint actor_run (loader : option ResultLoader) (id : string) (a : ActorState) (l : list RawRecord) : option ActorState :=
  match l with [] => Some a | rec :: l => a' ← next_actor loader id a rec; actor_run loader id a' l end.
Lemma next_actor_wrote loader id a rec a' : next_actor loader id a rec = Some a' → wrote_from loader id a [rec] a'.
Proof.
  unfold next_actor. intros Hn. destruct (actor_payload rec) as [p|] eqn:Hp; [|done].
  apply (wrote_snoc _ _ _ [] a rec p); [apply wrote_nil|done| |].
  - intros He. rewrite He in Hn. rewrite decide_False in Hn by done. destruct (decide (asActorID a = id)); [|done].
    rewrite !decide_False in Hn by done. destruct (decide (_ ∧ _)) as [[_ Hne]|]; [exact Hne|done].
  - destruct (decide (raw_EventType rec = "ActorCreated")) as [->|]; [destruct (decide (asActorID a = EmptyString ∧ _)) as [[? ?]|]; [|done]; injection Hn as <-; by apply w_created|].
    case_decide as Hid; [|done]. destruct (decide (raw_EventType rec = "ActorOwnershipGranted")) as [->|]; [injection Hn as <-; by apply w_ownership|].
    destruct (decide (raw_EventType rec = "ActorCommandSubmitted")) as [->|]; [injection Hn as <-; by apply w_submitted|].
    destruct (decide (raw_EventType rec = "ActorCommandApplied")) as [->|]; [case_decide as Hc; [|done]; destruct Hc; injection Hn as <-; by apply w_applied|].
    case_decide as Hsn; [|done]. destruct Hsn as [-> _]. unfold snapshot_b in Hn. destruct (load loader (apSnapshotRef p)) as [data|] eqn:Hl; [|done].
    case_bool_decide as Hc; [|done]. injection Hn as <-. destruct_and! Hc. by eapply w_snapshot.
Qed.
Lemma actor_run_wrote loader id l : ∀ a a', actor_run loader id a l = Some a' → wrote_from loader id a l a'.
Proof.
  induction l as [|rec l IH]; cbn [actor_run]; intros a a' Hr; [injection Hr as <-; apply wrote_nil|].
  apply bind_Some in Hr as (a1 & Hn & Hr). apply (wrote_from_trans loader id a [rec] a1 l a'); [by apply next_actor_wrote|by apply IH].
Qed.
Definition snapshot_event_b (rec : RawRecord) : bool := bool_decide (raw_EventType rec = "ActorSnapshotCreated").
Definition actor_shown_b (s : Service) (id : string) (records : list RawRecord) : bool :=
  let t := default 0 (sv_trims s !! actorStream id) in let k := Z.to_nat (t - 1) in
  (t <=? 1) ||
  match drop k records, actor_run (Some (LoadResult s)) id zero_actor (take k records) with
  | snap :: post, Some F => snapshot_event_b snap && forallb (λ r, negb (snapshot_event_b r)) post && (asSubmittedCommandCount F =? asCommandCount F)
  | _, _ => false
  end.
Lemma actor_shown_checked s id records : actor_shown_b s id records = true → actor_shown s id records.
Proof.
  unfold actor_shown_b, actor_shown. set (t := default 0 (sv_trims s !! actorStream id)). cbv zeta. rewrite orb_true_iff, Z.leb_le. intros [Ht|Hs]; [by left|].
  destruct (Z.leb_spec t 1); [by left|]. right. destruct (drop _ records) as [|snap post] eqn:Hd; [done|]. destruct (actor_run _ _ _ _) as [F|] eqn:Hr; [|done].
  rewrite !andb_true_iff, Z.eqb_eq in Hs. destruct Hs as [[Hsn%bool_decide_eq_true_1 Hp] HF]. exists (take (Z.to_nat (t - 1)) records), snap, post.
  assert (length (take (Z.to_nat (t - 1)) records) = Z.to_nat (t - 1)) as Hlen.
  { rewrite length_take. apply (f_equal length) in Hd. rewrite length_drop in Hd. cbn in Hd. lia. }
  split_and!; [by rewrite <- Hd, take_drop|rewrite Hlen; lia|done| |].
  - apply Forall_forall. intros r Hin. rewrite forallb_forall in Hp. specialize (Hp r (proj1 (list_elem_of_In _ _) Hin)). by apply negb_true_iff, bool_decide_eq_false in Hp.
  - intros F' HF'. by rewrite <- (wrote_from_unique _ _ _ _ _ (actor_run_wrote _ _ _ _ _ Hr) F' HF').
Qed.
Definition actor_item_b (s : Service) (cp : MetadataCheckpoint) (item : metadataCheckpointActor) : bool :=
  let st := actor_item_stream item in let id := ca_ActorID item in let loader := Some (LoadResult s) in
  match actor_run loader id zero_actor (prefix_of s cp st) with
  | Some a => match actor_run loader id a (rest_of s cp st) with
              | Some _ => negb (str_empty id) && position_in_b s cp st && actor_shown_b s id (prefix_of s cp st ++ rest_of s cp st) &&
                  negb (str_empty (asActorID a)) && bool_decide (timeless_actor a = timeless_actor (ca_State item))
              | None => false
              end
  | None => false
  end.
Definition actors_b (s : Service) (cp : MetadataCheckpoint) : bool :=
  bool_decide (NoDup (map actor_item_stream (cp_Actors cp))) && forallb (actor_item_b s cp) (cp_Actors cp).
Lemma actors_checked s cp : actors_b s cp = true → actor_items_ok s cp.
Proof.
  unfold actors_b. rewrite andb_true_iff, bool_decide_eq_true. intros [Hnd Hl]. split; [done|]. revert Hl. apply forallb_each. intros item.
  unfold actor_item_b. destruct (actor_run _ _ _ (prefix_of _ _ _)) as [a|] eqn:Ha; [|done]. destruct (actor_run _ _ a _) as [full|] eqn:Hf; [|done].
  rewrite !andb_true_iff, !negb_true_iff, bool_decide_eq_true. intros ((((Hid%str_empty_false & Hp) & Hsh%actor_shown_checked) & Ha0%str_empty_false) & Ht).
  destruct (position_in_checked _ _ _ Hp) as [Hpos Hne].
  exists (prefix_of s cp (actor_item_stream item)), (rest_of s cp (actor_item_stream item)), a, full.
  split; [done|done|done|split; [by apply actor_run_wrote|done]|done|by apply actor_run_wrote].
Qed.

(** The logs; streams of language model calls are not decided. *)
Definition llm_b (s : Service) : bool := forallb (λ rec, negb (has_prefix "llm:" (raw_StreamID rec))) (sv_log s).
Lemma llm_checked s : llm_b s = true → llm_logs s.
Proof.
  intros Hl rec Hin Hp. unfold llm_b in Hl. rewrite forallb_forall in Hl. specialize (Hl rec (proj1 (list_elem_of_In _ _) Hin)).
  by rewrite Hp in Hl.
Qed.
(** The keys of the replayed tasks. *)
Definition task_key (s : Service) (st : string) : option string :=
  rs ← full_task s st; if str_empty (tk_IdempotencyKey (rs_task rs)) then None else Some (tk_IdempotencyKey (rs_task rs)).
Definition task_stream_ok (s : Service) (st : string) : bool :=
  match apply_all initial_replay (whole s st) with
  | Ok rs => negb (bool_decide (kept rs)) || bool_decide (st = taskStream (tk_TaskID (rs_task rs)))
  | Err _ => false
  end.
Lemma omap_key_inj {A B} (f : A → option B) l x y k : NoDup (omap f l) → x ∈ l → y ∈ l → f x = Some k → f y = Some k → x = y.
Proof.
  induction l as [|a l IH]; intros Hnd Hx Hy Hfx Hfy; [by apply not_elem_of_nil in Hx|]. cbn in Hnd.
  assert (∀ z, z ∈ l → f z = Some k → k ∈ omap f l) as Hin by (intros z Hz Hfz; apply list_elem_of_omap; by exists z).
  apply elem_of_cons in Hx as [->|Hx], Hy as [->|Hy]; [done| | |].
  - rewrite Hfx in Hnd. apply NoDup_cons in Hnd as [Hn _]. destruct Hn. by apply (Hin y).
  - rewrite Hfy in Hnd. apply NoDup_cons in Hnd as [Hn _]. destruct Hn. by apply (Hin x).
  - apply IH; try done. destruct (f a); [by apply NoDup_cons in Hnd as [_ ?]|done].
Qed.
Lemma task_logs_check s : forallb (task_stream_ok s) (streams_of "task:" s) = true → NoDup (omap (task_key s) (streams_of "task:" s)) → task_logs s.
Proof.
  intros Hok Hnd. rewrite forallb_forall in Hok. split.
  - intros st Hst%list_elem_of_In. specialize (Hok st Hst). unfold task_stream_ok in Hok. destruct (apply_all _ _) as [rs|]; [|done].
    exists rs. split; [done|]. intros Hk. rewrite (bool_decide_eq_true_2 _ Hk) in Hok. by apply bool_decide_eq_true_1 in Hok.
  - intros st st' rs rs' Hf Hf' Hk Hne. apply (omap_key_inj (task_key s) (streams_of "task:" s) st st' (tk_IdempotencyKey (rs_task rs))); [done|..].
    + unfold full_task in Hf. by case_decide.
    + unfold full_task in Hf'. by case_decide.
    + unfold task_key. rewrite Hf. cbn. by rewrite (proj2 (str_empty_false _) Hne).
    + unfold task_key. rewrite Hf'. cbn. rewrite <- Hk. by rewrite (proj2 (str_empty_false _) Hne).
Qed.
Definition sound_b (s : Service) (cp : MetadataCheckpoint) : bool :=
  forallb (task_stream_ok s) (streams_of "task:" s) && bool_decide (NoDup (omap (task_key s) (streams_of "task:" s))) && llm_b s &&
  tasks_b s cp && workflows_b s cp && actors_b s cp.
Lemma sound_checked s cp : sound_b s cp = true → sound_checkpoint s cp.
Proof.
  unfold sound_b. rewrite !andb_true_iff, bool_decide_eq_true. intros (((((Ht & Hk) & Hl) & Hti) & Hwi) & Hai).
  split; [split; [by apply task_logs_check|by apply llm_checked]|by apply tasks_checked|by apply workflows_checked|by apply actors_checked].
Qed.
End Checker.

(** ** A checkpoint of tasks, a workflow and an actor, with tails *)

Definition demo_actor_request : CreateActorRequest := {|
  ca_ClassName := "C"; ca_ClassSource := "class C: pass"; ca_InitArgsJson := []; ca_SnapshotEvery := 5; ca_IdempotencyKey := "ka" |}.
Definition demo_flow : SubmitWorkflowRequest := {| sw_WorkflowName := "flow"; sw_DefinitionJson := [x30]; sw_IdempotencyKey := "k" |}.
(** One task has started and one waits when the checkpoint is made; after it the first is
    finished, the second and the workflow's step start, and the actor gets a command. *)
Definition checkpoint_run `{Env} : M unit :=
  _ ← RegisterWorker (demo_worker "w" 4);
  '(id1, _) ← SubmitTask (demo_submit "t1" "k1");
  '(id2, _) ← SubmitTask (demo_submit "t2" "k2");
  _ ← pollTaskNow "w" 1;
  _ ← StartTask id1 "w" 1;
  a ← ControlActors.CreateActor demo_actor_request;
  _ ← SubmitWorkflow demo_flow;
  _ ← CreateMetadataCheckpoint 0;
  _ ← CompleteTask (demo_complete id1 "w" 1 [x31]);
  _ ← pollTaskNow "w" 1;
  _ ← StartTask id2 "w" 1;
  p ← pollTaskNow "w" 1;
  _ ← StartTask (default EmptyString (ts_TaskId <$> pr_Task p)) "w" 1;
  _ ← submitActorCommand 1 {| cl_ActorId := asActorID a; cl_MethodName := "m"; cl_ArgsJson := []; cl_IdempotencyKey := "" |};
  mret ().
Definition checkpoint_env : Env := toy_env on_time all_work.
Definition checkpoint_state : Service := let E := checkpoint_env in state_of (checkpoint_run (NewService true 0)).
Definition empty_checkpoint : MetadataCheckpoint := {|
  cp_ID := ""; cp_CreatedAtMs := 0; cp_Streams := ∅; cp_Tasks := []; cp_Workflows := []; cp_Actors := []; cp_LLMStats := [] |}.
Definition latest_checkpoint (s : Service) : MetadataCheckpoint :=
  default empty_checkpoint (foldl newer None (read_stream s metadataCheckpointStream 1)).
Definition demo_checkpoint : MetadataCheckpoint := latest_checkpoint checkpoint_state.
Definition demo_restart : Service := crash checkpoint_state.

Lemma demo_sound : let E := checkpoint_env in sound_checkpoint demo_restart demo_checkpoint.
Proof. intros E. apply sound_checked. vm_compute. reflexivity. Qed.

(** An actor with a snapshot after every command: its stream is trimmed at the snapshot of its
    first command, the service restarts, a checkpoint is made, and a second command follows. *)
Definition snapshot_request : CreateActorRequest := {|
  ca_ClassName := "C"; ca_ClassSource := "class C: pass"; ca_InitArgsJson := []; ca_SnapshotEvery := 1; ca_IdempotencyKey := "ka" |}.
Definition trimmed_run `{Env} : M unit :=
  let call a := {| cl_ActorId := a; cl_MethodName := "m"; cl_ArgsJson := []; cl_IdempotencyKey := "" |} in
  _ ← RegisterWorker (demo_worker "w" 4);
  a ← ControlActors.CreateActor snapshot_request;
  _ ← submitActorCommand 1 (call (asActorID a));
  p ← pollTaskNow "w" 1;
  let task := default zero_spec (pr_Task p) in
  _ ← StartTask (ts_TaskId task) "w" (ts_TaskLeaseEpoch task);
  _ ← CompleteTask {| cr_TaskId := ts_TaskId task; cr_WorkerId := "w"; cr_Status := TASK_STATUS_SUCCEEDED; cr_ResultJson := [x31]; cr_Error := "";
        cr_ActorStateJson := [x31]; cr_ActorEpoch := ts_ActorEpoch task; cr_TaskLeaseEpoch := ts_TaskLeaseEpoch task |};
  _ ← restart;
  _ ← CreateMetadataCheckpoint 0;
  _ ← RegisterWorker (demo_worker "w" 4);
  _ ← submitActorCommand 1 (call (asActorID a));
  mret ().
Definition trimmed_state : Service := let E := checkpoint_env in state_of (trimmed_run (NewService true 0)).
Lemma trimmed_sound : let E := checkpoint_env in
  sv_trims trimmed_state !! "actor:id-5" = Some 5 ∧ sound_checkpoint (crash trimmed_state) (latest_checkpoint trimmed_state).
Proof. intros E. split; [vm_compute; reflexivity|]. apply sound_checked. vm_compute. reflexivity. Qed.

Lemma consistency_check_accepts_witness : let E := checkpoint_env in
  (∃ v n, CheckMetadataCheckpointConsistency checkpoint_state = Some (set_tick n checkpoint_state, Ok v) ∧
    mc_Consistent v = true ∧ mc_FailureKeys v = [] ∧ mc_CheckpointID v = cp_ID demo_checkpoint) ∧
  ∃ v n, CheckMetadataCheckpointConsistency trimmed_state = Some (set_tick n trimmed_state, Ok v) ∧
    mc_Consistent v = true ∧ mc_FailureKeys v = [] ∧ mc_CheckpointID v = cp_ID (latest_checkpoint trimmed_state).
Proof.
  intros E. split.
  - apply (consistency_check_accepts checkpoint_state demo_checkpoint); [|exact demo_sound]. vm_compute. reflexivity.
  - apply (consistency_check_accepts trimmed_state (latest_checkpoint trimmed_state)); [|apply trimmed_sound]. vm_compute. reflexivity.
Defined.
Lemma checkpoint_restart_agrees_witness : let E := checkpoint_env in
  ∃ full fast, full_replay demo_restart = Some (full, Ok ()) ∧
    bootstrapMetadataFromCheckpointWithScheduling demo_checkpoint false demo_restart = Some (fast, Ok ()) ∧ agrees full fast.
Proof. intros E. apply (checkpoint_restart_agrees demo_restart demo_checkpoint); [done|exact demo_sound]. Defined.

(** ** The check's verdict on services without a fault *)

Definition verdict (v : MetadataCheckpointConsistency) : bool * Z * list string := (mc_Consistent v, mc_CheckedCount v, mc_FailureKeys v).
Definition checked_after `{Env} {A} (run : M A) : option (result svc_error (bool * Z * list string)) :=
  result_of ((_ ← RegisterWorker (demo_worker "w" 4); _ ← run; _ ← CreateMetadataCheckpoint 0; v ← CheckMetadataCheckpointConsistency; mret (verdict v)) (NewService true 0)).

(** the consistency check reports a failure without any fault: for an actor's task, whose
    command number is in the metadata and in no event of its stream, and for a task that is
    leased but not started yet, whose lease is in no event either. A checkpoint made right
    after the submission is accepted. *)
Example check_flags_running_service :
  let E := toy_env on_time all_work in
  checked_after (a ← ControlActors.CreateActor demo_actor_request;
    submitActorCommand 1 {| cl_ActorId := asActorID a; cl_MethodName := "m"; cl_ArgsJson := []; cl_IdempotencyKey := "" |}) =
    Some (Ok (false, 2, ["task:id-18"])) ∧
  checked_after (_ ← SubmitTask (demo_submit "t" "k"); pollTaskNow "w" 1) = Some (Ok (false, 1, ["task:id-5"])) ∧
  checked_after (SubmitTask (demo_submit "t" "k")) = Some (Ok (true, 1, [])).
Proof. split_and!; vm_compute; reflexivity. Qed.

(** A completion without a start is accepted and logged, and undone by a restart: the
    replay takes an outcome only under a lease it saw starting. *)
Example unstarted_completion_undone :
  let E := toy_env on_time all_work in
  result_of ((
    _ ← RegisterWorker (demo_worker "w" 4);
    '(id, _) ← SubmitTask (demo_submit "t" "k");
    _ ← pollTaskNow "w" 1;
    completed ← try (CompleteTask (demo_complete id "w" 1 [x31]));
    before ← gets (λ s, status_of s id);
    _ ← restart;
    after ← gets (λ s, status_of s id);
    mret (completed, before, after)) (NewService true 0)) =
  Some (Ok (Ok (), TASK_STATUS_SUCCEEDED, TASK_STATUS_QUEUED)).
Proof. vm_compute. reflexivity. Qed.
Close Scope Z_scope.
